(* ===== verification/_CoqProject ===== *)
-Q . S2P
Prelude.v
GoStd.v
Retry.v
Issues.v
StoreModel.v
Config.v
Template.v
TemplateFacts.v
TemplateProps.v
Feedback.v
Transitions.v
Effects.v
StoreInv.v
StoreSpecs.v
EdgeSpecs.v
StoreSystem.v
StoreTheorems.v
Dag.v
GraphFacts.v
Cycles.v
Validate.v
ValidateGraph.v
Codec.v
Expansion.v
Decode.v
MapExpand.v
Pointer.v
JsonRepair.v
Pricing.v
Context.v
ContextFacts.v
Budget.v
ReadyFacts.v
Instantiate.v
Expand.v
DagProps.v
CycleProps.v
ValidateFacts.v
WellFormed.v
ExpansionFacts.v
RefRewrite.v
CodecFacts.v
DecodeFacts.v
TreeRewrite.v
MapFacts.v
MapPlan.v
Engine.v
StoreProps.v
EngineInv.v
Moves.v
GraphInv.v
FanOut.v
WriteOff.v
EngineGraph.v
EngineTx.v
EngineStart.v
ExpandSpec.v
ExpandGraph.v
EngineTotal.v
Settle.v
CancelSpec.v
Reconcile.v
Upholds.v
ExpandTx.v
Loop.v
LoopFacts.v
ExpandTotal.v
EngineSystem.v
Submit.v
DecodeProps.v
SubmitProps.v
MapProps.v
MapFindings.v
ReconcileSpec.v
EngineProps.v
PlanProps.v
EngineFindings.v
ExpandProps.v
ContextProps.v
BudgetProps.v
