(* ===== verification/Prelude.v ===== *)
(** * agentloom: the durable workflow engine

    agentloom runs workflow graphs of LLM, tool and control steps on workers
    that may crash at any point.  All state that matters is in Postgres; a queue
    delivers step tasks at least once, and every change of state is a
    compare-and-set in one transaction under a lock of the run's row.  This
    library models that durable core and proves that it is correct: the run
    tables and their guarded transitions, workflow definitions with their codec,
    validation, graph, templates and instantiation, the engine's transactions
    over the transitions, the growth of a run's graph by planners, maps and
    loops, and the reconciler.  Paths below are relative to src/.

    ** Parts and files

    - This file: record update, tables as row lists with [UPDATE .. RETURNING]
      as [update_first], list and arithmetic lemmas, the hint database [loom].
    - GoStd: what the sources use of Go's standard library on byte strings,
      float64 values and durations ([ParseDuration] with its uint64 overflow).
    - Retry: internal/dag/retry.go, the authored and the materialized policies.
      Issues: issue lists, verdicts, expansion caps.
    - StoreModel: internal/store (status.go, errors.go, tx.go, gen/models.go) and
      internal/event: statuses, rows, typed errors, the transaction monad [Tx]
      over the database [DB], [WithTx], and the primitive queries.
    - Transitions: internal/store/transitions.go with its SQL (queries/
      transitions.sql, gen/transitions.sql.go), and the transitions of budget.go,
      approval.go, costs.go and loop.go.  One definition per operation, in the
      order of the source: argument checks, lock, conditional update, side
      writes, event.
    - Effects, StoreInv, StoreSpecs, EdgeSpecs, StoreSystem, StoreTheorems: the
      effect a successful transition has, the store invariant [inv], the
      specification of every transition against it, the store as a transition
      system ([Op], [step]), and what follows for sequences of transactions.
    - Config: internal/dag/stepconfig.go and the envelope blocks (cachepolicy.go,
      budget.go, validation.go, blackboard.go, context.go): the typed step
      configs and policies, one constructor per registered struct, and their JSON.
    - Dag, GraphFacts, ReadyFacts: internal/dag (definition.go, graph.go,
      ready.go, agent.go): the definition graph, Kahn's order, reachability,
      [ReadySteps], agent resolution, and their correctness against inductive
      specifications.  Cycles: [reaches] and [findCycles] of graph.go, the
      iterative three-colour search and its invariant.
    - Template, TemplateFacts: internal/dag/template.go: the segmentation of a
      templated string, the rewriting of an expression, references, the walk of
      a config.  Feedback: internal/dag/feedback.go.
    - Validate, ValidateGraph: internal/dag/validate.go and mapvalidate.go, every
      check and [Validate]; an issue is its code, severity and path.
      ValidateFacts: the calculus of issue lists.  WellFormed: the declarative
      account [well_formed] of an accepted definition, [template_ok] of a
      template.
    - Codec, Decode: internal/dag/decode.go and encode.go, the strict decoding of
      a document by the field types of its structs, and its canonical encoding.
      CodecFacts, DecodeFacts: the round trip, struct by struct (the class
      [RoundTripUpTo]).
    - Expansion, ExpansionFacts: internal/dag/expansion.go, the validation of a
      delta against the running graph, and what an admitted delta satisfies.
    - MapExpand: internal/dag/mapexpand.go and loopexpand.go, the deltas the
      engine generates, with the rewriting of references.  RefRewrite,
      TreeRewrite: a rewriter of reference tokens (the class [Rewriter]) commutes
      with the parsing of templates and keeps the types of a config document.
      MapFacts, MapPlan, LoopFacts: the two rewriters, the clones and the plans.
    - Instantiate: internal/store/instantiate.go and materialize.go, the
      one-transaction creation of a run, with the CHECK constraints, keys and the
      reference to the registry of its tables (migrations 0002, 0005, 0017, 0023,
      0026).  Submit: [CreateRun] around it, with validation, the snapshot and its
      fingerprint, the idempotency token and its race.
    - Engine: internal/engine (complete.go, expand.go, validate.go, budget.go,
      deadletter.go, runctl.go, decide.go, approval.go, claim.go): edge plans, the
      fan-out worklist, rollups, the write-off, completion and failure
      transactions, requeue, cancel, decisions, delivery handling.  A definition
      named [..Tx] is the callback of one [WithTx].
    - EngineInv, Moves, GraphInv, FanOut, WriteOff, EngineGraph, EngineTx,
      EngineStart, EngineTotal: the engine's transactions are sequences of store
      steps; the graph invariant of a run ([GraphInv]) and its preservation by
      each of them; totality of the completion.
    - Expand: internal/store/expand.go, the splice of a delta.  ExpandSpec,
      ExpandGraph, Upholds, ExpandTotal: what it writes, and that it keeps the
      graph invariant.  ExpandTx: the completion that carries a plan (complete.go,
      expand.go, guard.go).  Loop: internal/engine/loop.go, the plans read from
      outputs (expand.go) and the whole of [completeSuccess].
    - JsonRepair: internal/jsonrepair, the repair of a model's text into JSON.
    - Pricing: internal/cost, the pricing catalog and the price of an attempt.
      Budget: engine/budget.go, downgrade.go and cost.go, the claim-time budget
      check with its model downgrade, and the ledger rows of an attempt.
    - Pointer: the JSON pointers of internal/blackboard.  Context: internal/
      contextmgr, the assembly of a step's context from its sources, compaction
      with its strategies, the window budget, and around it engine/context.go and
      engine/window.go.  ContextFacts: what a strategy keeps ([kept]), its loops
      end, the reports.
    - Settle, CancelSpec: cancellation converges.
    - Reconcile, ReconcileSpec: internal/engine/reconcile.go, guard.go and
      dispatch.go over internal/store/reconcile.go: scans, sweep, wall-clock
      guard, outbox drain.
    - EngineSystem: the engine as a transition system ([EngineOp]) whose reachable
      databases all satisfy [engine_inv].  [engine_reachable] admits a spliced plan
      when its joins decode and it enters no step a dead letter has doomed
      ([spliceable]); [engine_step] is any transaction, without these conditions,
      and is taken apart into its writes ([write_step]).
    - StoreProps, DagProps, EngineProps, PlanProps, CycleProps,
      SubmitProps, TemplateProps, DecodeProps, ExpandProps, MapProps,
      ContextProps, BudgetProps: the properties, C1 to C40.  EngineFindings,
      MapFindings: concrete definitions and executions that the comments of the
      source rule out (those of budgets are in BudgetProps).

    ** What the theorems show

    - The store (C1, C3 to C6, C8, C11, C12, C14, C15): the invariant of every reachable
      database, rejected transitions write nothing, commits are atomic with their
      events, the log is gap-free and append-only, the status matrix (C5, in
      EngineProps, for any sequence of the engine's transactions), immutable
      terminal rows and attempt history, lost claims are final, the exact guards of
      readiness and edges, effectively-once charging and single-decision approvals.
    - Money (C7, C9): a price is the one in force, rounded half up, and at most the
      estimate of a request that is at least as large; a checked step runs only
      within its budgets as far as the int64 sums do not wrap, and is refused only
      when no tier of its fallback chain fits.
    - The graph and instantiation (C17, C19, C20): the topological order and
      readiness are what their inductive definitions say, and a submitted
      definition becomes exactly the run it describes, or is refused for a reason
      that is listed.
    - The engine (C21 to C26): the engine invariant in every reachable database,
      no run is ever in the state the reconciler flags as impossible, success
      completions commit or fail with the ledger's or the predicate's error, an open
      run without an active or dead-lettered step holds a cycle that a plan spliced
      into it, lost dispatches are restored, a cancel
      request converges.
    - Planning and deliveries (C27, C28, C30 to C32): first-match branching,
      exactness of the write-off, a lossless drain, bounded retries, and every
      outcome of a delivery.
    - Definitions (C29, C33, C34): the codec's round trip; cycle reporting is
      exact and agrees with the topological order; a definition [Validate]
      accepts is well formed.
    - Submission (C35, C36): every outcome of [CreateRun], in particular that an
      accepted definition always instantiates and lands in a state the engine
      invariant covers, and idempotent resubmission, racing or not, after any
      further transactions.
    - Templates (C37): the expression sandbox.
    - Model output (C2): a repaired text is valid, no string literal was changed, and
      JSON in a fence or in prose comes back whole.
    - Context (C10, C13): compaction ends, fits its budget or says why not, and
      keeps what is pinned; the request that is sent fits the model's window.
    - Growth of a graph (C16, C18, C38 to C40): loops terminate; the plans of maps
      and loops are total on accepted definitions and are what they mean,
      references included; a splice writes exactly its plan or nothing; a
      completion that carries a plan ends and keeps the engine invariant.

    ** Modelling decisions

    A transaction is a function on the whole database: the lock of the run's row
    serialises the transactions of one run, so an interleaving of workers is a
    sequence of transactions, and the systems of StoreSystem and EngineSystem
    quantify over all sequences.  Tables are row lists in key order; rows have
    the columns the modelled code reads or writes.  Counters and sequence
    numbers are [Z]: int4/int8 columns count rows of one run, and their
    overflow is out of scope.  The int64 arithmetic on tokens and money and the
    int32 conversions wrap ([wrap64], [int32]).  JSON documents are an abstract syntax ([json]);
    the length in bytes of one is an argument where a limit on it matters.
    Times are [Z], with 0 for Go's zero time.  What the code gets from outside
    is a parameter: the CEL evaluator of edge conditions ([evalWhen]), the
    jittered backoff ([retryDelay]), the JSON-schema checker ([schemaIssues]),
    the queue's answer to a send; for definitions the CEL compiler
    ([CompileExpr]), text/template's parser ([textTemplateParses]) and SHA-256 of
    a payload ([fingerprint], [digest]).  A float64 is the rational it denotes.

    Most loops are structural.  Of the others, [fanOut] gets one round per step row plus
    one: a source is queued only when its step turns skipped, which happens once
    (C23 proves that the fuel is never exhausted).  [planWriteOff] gets one round
    per step plus one: every round but the last marks a step (C28).  The sends of
    one drain pass recur on the batch.  The graph searches have one round per
    step (plus one), [findCycles] one per step and out-edge; C17, C18 and C33
    prove the results exact, so the fuel is enough.  The scanners of a template
    and the rewriting of its references consume a byte per round and get its
    length ([splitTemplate_inverse], [parseString_rw]).  The loops of compaction get
    one round per entry and one per token; each drops an entry or a token (C10).

    ** Not modelled

    - The byte syntax of JSON and the generated JSON Schema; rendering of
      templates (execution of text/template).
    - The blackboard writes and the thread append inside the success transaction.
    - The float arithmetic of the backoff, the entry steps that a
      reused submission re-derives from the stored snapshot, the snapshot column
      of a run (an argument of the loop and map plans), failpoints, spans,
      metrics and logging.
    - Executors, LLM providers, tools and caches: their results are the arguments
      of the completion transactions.  Of the context, the provider call of the
      summarizer and the audit transaction; token counters and boards are
      parameters.
    - Redis (queue, rate limits), HTTP, CLI, notifications and configuration:
      transport and wiring. *)
From stdpp Require Export base list gmap strings sorting.
From Stdlib Require Export ZArith Lia.


Create HintDb loom.

(** ** Record update

    [r <| f := v |>] is the record [r] with field [f] set to [v], the form in
    which a SQL [SET] clause or a Go field assignment is written below. *)
Class Eta (R : Type) := eta_record : R → R.
#[global] Hint Mode Eta ! : typeclass_instances.

Class SetField {R T : Type} (proj : R → T) := set_field : (T → T) → R → R.
Arguments set_field {R T} proj {_} _ _ /.

Ltac derive_set_field proj :=
  match type of proj with
  | ?R → ?T =>
      let inst := constr:(_ : Eta R) in
      let e := eval hnf in inst in
      let p := eval pattern proj in e in
      match p with
      | ?F proj => exact (λ (f : T → T) (r : R), F (λ r', f (proj r')) r)
      end
  end.

#[global] Hint Extern 1 (SetField ?proj) => derive_set_field proj : typeclass_instances.

Declare Scope record_scope.
Delimit Scope record_scope with record.
Notation "r <| f := v |>" := (set_field f (λ _, v) r)
  (at level 12, left associativity, f constr, format "r  <| f  :=  v  |>") : record_scope.
Open Scope record_scope.

(** Decide the closed comparisons of a goal. *)
Ltac decide_eqs :=
  repeat match goal with
    | |- context [bool_decide (?a = ?b)] =>
        first [ rewrite (bool_decide_eq_true_2 (a = b)) by done
              | rewrite (bool_decide_eq_false_2 (a = b)) by done ]
    end.

(** ** Tables

    A Postgres table is a list of rows in primary-key order.  [update_first p f]
    is an [UPDATE .. SET f WHERE p RETURNING *] whose [WHERE] clause contains the
    primary key: it rewrites the one row that matches and returns it, or
    returns [None] when no row matches (pgx's [ErrNoRows]). *)
Fixpoint update_first {A} (p : A → bool) (f : A → A) (l : list A) : option (A * list A) :=
  match l with
  | [] => None
  | x :: l' =>
      if p x then Some (f x, f x :: l')
      else match update_first p f l' with
           | Some (y, l'') => Some (y, x :: l'')
           | None => None
           end
  end.

(** How many rows satisfy [p]: a [SELECT count( * )]. *)
Fixpoint count {A} (p : A → bool) (l : list A) : Z :=
  match l with
  | [] => 0
  | x :: l' => (if p x then 1 else 0) + count p l'
  end%Z.

(** ** Facts about tables *)

Section table_facts.
Context {A : Type}.
Implicit Types (p q : A → bool) (f : A → A) (l : list A).

(** The row an UPDATE hits, and the rows around it. *)
Lemma update_first_Some p f l y l' :
update_first p f l = Some (y, l') →
∃ l1 x l2, l = l1 ++ x :: l2 ∧ l' = l1 ++ f x :: l2 ∧ y = f x ∧ p x = true ∧
           Forall (λ z, p z = false) l1.
Proof.
revert l' y. induction l as [|x l IH]; intros l' y; cbn; [done|].
destruct (p x) eqn:Hp.
- intros [= <- <-]. exists [], x, l. naive_solver.
- destruct (update_first p f l) as [[z l'']|]; [|done]. intros [= <- <-].
  destruct (IH _ _ eq_refl) as (l1 & w & l2 & -> & -> & -> & Hw & Hl1).
  exists (x :: l1), w, l2. split_and!; auto.
Qed.

Lemma update_first_None p f l :
update_first p f l = None ↔ Forall (λ z, p z = false) l.
Proof.
induction l as [|x l IH]; cbn; [naive_solver|].
destruct (p x) eqn:Hp; [split; [done|by inversion 1; congruence]|].
destruct (update_first p f l) as [[]|] eqn:Hu.
- split; [done|]. inversion 1; subst. naive_solver.
- rewrite Forall_cons, <-IH. naive_solver.
Qed.

Lemma update_first_ext p q f l : (∀ x, p x = q x) → update_first p f l = update_first q f l.
Proof. intros H. induction l as [|x l IH]; cbn; [done|]. by rewrite H, IH. Qed.

Lemma update_first_app p f l1 x l2 :
Forall (λ z, p z = false) l1 → p x = true →
update_first p f (l1 ++ x :: l2) = Some (f x, l1 ++ f x :: l2).
Proof.
induction 1 as [|z l1 Hz _ IH]; intros Hx; cbn; [by rewrite Hx|].
by rewrite Hz, IH.
Qed.

Lemma count_app p l1 l2 : count p (l1 ++ l2) = (count p l1 + count p l2)%Z.
Proof. induction l1 as [|x l1 IH]; cbn; [done|]. rewrite IH. lia. Qed.

Lemma count_nonneg p l : (0 ≤ count p l)%Z.
Proof. induction l as [|x l IH]; cbn; [lia|]. destruct (p x); lia. Qed.

Lemma count_length p l : (count p l ≤ Z.of_nat (length l))%Z.
Proof. induction l as [|x l IH]; cbn [count length]; [lia|]. destruct (p x); lia. Qed.

Lemma count_zero p l : count p l = 0%Z ↔ Forall (λ x, p x = false) l.
Proof.
induction l as [|x l IH]; cbn; [naive_solver|].
pose proof (count_nonneg p l). rewrite Forall_cons, <-IH.
destruct (p x); split; try lia; intros []; (done || lia).
Qed.

Lemma count_pos p l : (0 < count p l)%Z ↔ ∃ x, x ∈ l ∧ p x = true.
Proof.
induction l as [|x l IH]; cbn.
- split; [lia|]. intros (x & H & _). by apply not_elem_of_nil in H.
- pose proof (count_nonneg p l). destruct (p x) eqn:Hp.
  + split; [|lia]. intros _. exists x. split; [constructor|done].
  + rewrite Z.add_0_l, IH. split.
    * intros (z & ? & ?). exists z. split; [by constructor|done].
    * intros (z & [->|?]%elem_of_cons & ?); [congruence|eauto].
Qed.

Lemma count_ext p q l : (∀ x, x ∈ l → p x = q x) → count p l = count q l.
Proof.
induction l as [|x l IH]; intros H; cbn; [done|].
rewrite (H x), IH; [done| |constructor]. intros z Hz. apply H. by constructor.
Qed.

Lemma count_or p q l : (∀ x, p x && q x = false) →
count (λ x, p x || q x) l = (count p l + count q l)%Z.
Proof.
intros H. induction l as [|x l IH]; cbn; [done|]. rewrite IH.
specialize (H x). destruct (p x), (q x); cbn in *; (done || lia).
Qed.

Lemma count_le p q l : (∀ x, p x = true → q x = true) → (count p l ≤ count q l)%Z.
Proof.
intros H. induction l as [|x l IH]; cbn; [done|]. specialize (H x).
destruct (p x), (q x); (lia || naive_solver).
Qed.

Lemma count_le_eq p q l : (∀ x, p x = true → q x = true) → count p l = count q l →
∀ x, x ∈ l → q x = true → p x = true.
Proof.
intros H. induction l as [|z l IH]; cbn; intros E x Hx Hq; [by apply not_elem_of_nil in Hx|].
pose proof (count_le p q l H) as Hle. pose proof (H z) as Hz.
apply elem_of_cons in Hx as [->|Hx].
- destruct (p z); [done|]. rewrite Hq in E. lia.
- apply IH; [|done|done]. destruct (p z), (q z); (lia || naive_solver).
Qed.

Lemma find_none_Forall p l : find p l = None ↔ Forall (λ x, p x = false) l.
Proof.
induction l as [|x l IH]; cbn; [naive_solver|].
destruct (p x) eqn:Hp; [split; [done|by inversion 1; congruence]|].
rewrite Forall_cons, <-IH. naive_solver.
Qed.

Lemma find_existsb p l x : find p l = Some x → existsb p l = true.
Proof. intros [Hx Hp]%find_some. apply existsb_exists. eauto. Qed.
Lemma find_existsb_none p l : find p l = None → existsb p l = false.
Proof. induction l as [|a l IH]; cbn; [done|]. by destruct (p a). Qed.
Lemma existsb_false p l : existsb p l = false ↔ Forall (λ x, p x = false) l.
Proof.
induction l as [|x l IH]; cbn; [naive_solver|].
rewrite orb_false_iff, IH, Forall_cons. done.
Qed.
End table_facts.

Lemma filter_all {A} (f : A → bool) l : (∀ x, x ∈ l → f x = true) → List.filter f l = l.
Proof.
induction l as [|x l IH]; intros Hf; [done|]. cbn. rewrite (Hf x) by (by left). f_equal. apply IH.
intros y Hy. apply Hf. by right.
Qed.
Lemma filter_none {A} (f : A → bool) l : (∀ x, x ∈ l → f x = false) → List.filter f l = [].
Proof.
induction l as [|x l IH]; intros Hf; [done|]. cbn. rewrite (Hf x) by (by left). apply IH.
intros y Hy. apply Hf. by right.
Qed.

(** Tables with a primary key [key]; [isk k] is the WHERE clause on it. *)
Section keyed.
Context {A K : Type} (key : A → K) (isk : K → A → bool).
Context (Hkey : ∀ k x, isk k x = true ↔ key x = k).
Implicit Types (l : list A).

Lemma is_key_false k x : isk k x = false ↔ key x ≠ k.
Proof. rewrite <-not_true_iff_false, Hkey. done. Qed.

Lemma find_key_Some k l x : find (isk k) l = Some x → x ∈ l ∧ key x = k.
Proof. intros [?%list_elem_of_In Hx]%find_some. by rewrite Hkey in Hx. Qed.

Lemma find_key l x : NoDup (key <$> l) → x ∈ l → find (isk (key x)) l = Some x.
Proof.
induction l as [|z l IH]; intros Hnd Hin; [by apply not_elem_of_nil in Hin|].
cbn in *. apply NoDup_cons in Hnd as [Hz Hnd].
destruct (isk (key x) z) eqn:Hk.
- apply Hkey in Hk. apply elem_of_cons in Hin as [->|Hin]; [done|].
  destruct Hz. rewrite Hk. by apply list_elem_of_fmap_2.
- apply is_key_false in Hk. apply elem_of_cons in Hin as [->|Hin]; [done|auto].
Qed.

Lemma keyed_unique l x y : NoDup (key <$> l) → x ∈ l → y ∈ l → key x = key y → x = y.
Proof.
intros Hnd Hx%find_key Hy%find_key; try done. intros E. rewrite E in Hx. congruence.
Qed.

(** A keyed conditional UPDATE: the row had the key and met the guard, it is
  the row a read by key finds, every other row is untouched. *)
Lemma update_keyed k (g : A → bool) f l y l' :
NoDup (key <$> l) → (∀ x, key (f x) = key x) →
update_first (λ x, isk k x && g x) f l = Some (y, l') →
∃ l1 x l2, l = l1 ++ x :: l2 ∧ l' = l1 ++ f x :: l2 ∧ y = f x ∧ key x = k ∧ g x = true ∧
  Forall (λ z, key z ≠ k) l1 ∧ Forall (λ z, key z ≠ k) l2.
Proof.
intros Hnd Hf Hu.
destruct (update_first_Some _ _ _ _ _ Hu) as (l1 & x & l2 & -> & -> & -> & [Hk Hg]%andb_prop & _).
rewrite Hkey in Hk. exists l1, x, l2. split_and!; auto.
- rewrite fmap_app, NoDup_app in Hnd. destruct Hnd as (_ & Hd & _).
  apply Forall_forall. intros z Hz E. apply (Hd (key z)); [by apply list_elem_of_fmap_2|].
  cbn. rewrite E, <-Hk. constructor.
- rewrite fmap_app, NoDup_app in Hnd. destruct Hnd as (_ & _ & [Hn _]%NoDup_cons).
  apply Forall_forall. intros z Hz E. apply Hn. rewrite Hk, <-E. by apply list_elem_of_fmap_2.
Qed.

Lemma update_keyed_keys k g f l y l' :
(∀ x, key (f x) = key x) →
update_first (λ x, isk k x && g x) f l = Some (y, l') → key <$> l' = key <$> l.
Proof.
intros Hf (l1 & x & l2 & -> & -> & _)%update_first_Some.
by rewrite !fmap_app, !fmap_cons, Hf.
Qed.

Lemma find_app_ne k l1 x l2 :
Forall (λ z, key z ≠ k) l1 → key x = k → find (isk k) (l1 ++ x :: l2) = Some x.
Proof.
induction 1 as [|z l1 Hz _ IH]; intros Hx; cbn.
- apply Hkey in Hx. by rewrite Hx.
- apply is_key_false in Hz. by rewrite Hz, IH.
Qed.

Lemma find_app_other k l1 x y l2 :
key x ≠ k → key y ≠ k → find (isk k) (l1 ++ x :: l2) = find (isk k) (l1 ++ y :: l2).
Proof.
intros Hx%is_key_false Hy%is_key_false. induction l1 as [|z l1 IH]; cbn.
- by rewrite Hx, Hy.
- by rewrite IH.
Qed.

(** What a read by key sees after a keyed update. *)
Lemma find_update k g f l y l' k' :
NoDup (key <$> l) → (∀ x, key (f x) = key x) →
update_first (λ x, isk k x && g x) f l = Some (y, l') →
∃ x, find (isk k) l = Some x ∧ g x = true ∧ y = f x ∧ find (isk k) l' = Some y ∧
  (k' ≠ k → find (isk k') l' = find (isk k') l).
Proof.
intros Hnd Hf Hu.
destruct (update_keyed _ _ _ _ _ _ Hnd Hf Hu) as (l1 & x & l2 & -> & -> & -> & Hk & Hg & H1 & H2).
exists x. split_and!; auto using find_app_ne.
- apply find_app_ne; [done|]. by rewrite Hf.
- intros Hne. apply find_app_other; [rewrite Hf|]; congruence.
Qed.

(** A keyed update is rejected exactly when the row found by key fails the
  guard, or is absent. *)
Lemma update_rejected k g f l :
NoDup (key <$> l) →
update_first (λ x, isk k x && g x) f l = None ↔
match find (isk k) l with Some x => g x = false | None => True end.
Proof.
intros Hnd. rewrite update_first_None. destruct (find (isk k) l) as [x|] eqn:Hf.
- apply find_key_Some in Hf as [Hx Hk]. rewrite Forall_forall. split.
  + intros H. specialize (H x Hx). apply Hkey in Hk. by rewrite Hk in H.
  + intros Hg z Hz. destruct (isk k z) eqn:Hz'; [|done]. cbn.
    apply Hkey in Hz'. rewrite (keyed_unique l z x); auto; congruence.
- split; [done|]. intros _. apply find_none_Forall in Hf.
  eapply Forall_impl; [done|]. cbn. by intros z ->.
Qed.

(** ... and accepted when it meets the guard. *)
Lemma update_accepted k g f l x :
NoDup (key <$> l) → find (isk k) l = Some x → g x = true →
∃ l', update_first (λ x, isk k x && g x) f l = Some (f x, l').
Proof.
intros Hnd Hf Hg.
destruct (update_first (λ x, isk k x && g x) f l) as [[y l']|] eqn:Hu.
- destruct (update_first_Some _ _ _ _ _ Hu) as (l1 & z & l2 & -> & -> & -> & [Hz _]%andb_prop & _).
  apply Hkey in Hz. apply find_key_Some in Hf as [Hx Hk].
  assert (z = x) as -> by (eapply keyed_unique; [done|..]; [set_solver|done|congruence]).
  eauto.
- apply update_rejected in Hu; [|done]. rewrite Hf in Hu. congruence.
Qed.
End keyed.

(** How a count changes under an UPDATE of one row. *)
Lemma count_update {A} (p : A → bool) (q : A → bool) f l y l' :
  update_first q f l = Some (y, l') →
  ∃ x, x ∈ l ∧ q x = true ∧ y = f x ∧
    count p l' = (count p l - (if p x then 1 else 0) + (if p y then 1 else 0))%Z.
Proof.
  intros (l1 & x & l2 & -> & -> & -> & Hq & _)%update_first_Some.
  exists x. split_and!; [set_solver|done|done|].
  rewrite !count_app. cbn. lia.
Qed.

(** Two UPDATEs of the same row in sequence are one. *)
Lemma update_update {A} (p q : A → bool) f g l y l' z l'' :
  (∀ x, q (f x) = q x) → (∀ x, p x = true → q x = true) →
  (∀ x1 x2, x1 ∈ l → x2 ∈ l → q x1 = true → q x2 = true → x1 = x2) →
  update_first p f l = Some (y, l') → update_first q g l' = Some (z, l'') →
  update_first p (λ x, g (f x)) l = Some (z, l'').
Proof.
  intros Hq Hpq Hu (l1 & x & l2 & -> & -> & -> & Hp & H1)%update_first_Some Hg.
  assert (Hqx : q x = true) by auto.
  assert (Forall (λ w, q w = false) l1).
  { apply Forall_forall. intros w Hw. destruct (q w) eqn:E; [|done].
    assert (w = x) as -> by (apply Hu; auto; set_solver).
    rewrite Forall_forall in H1. specialize (H1 x Hw). congruence. }
  rewrite update_first_app in Hg by (auto; by rewrite Hq). injection Hg as <- <-.
  by rewrite update_first_app.
Qed.

(** ** Updating the row with a given key

    On a table with a primary key a keyed UPDATE is a total function of the
    table; this is the form in which the effects of transitions are stated. *)
Definition set_row {A} (p : A → bool) (f : A → A) (l : list A) : list A :=
  map (λ x, if p x then f x else x) l.
#[global] Arguments set_row : simpl never.

Lemma set_row_cons {A} (p : A → bool) f x l :
  set_row p f (x :: l) = (if p x then f x else x) :: set_row p f l.
Proof. done. Qed.

Section set_row.
Context {A K : Type} (key : A → K) (isk : K → A → bool).
Context (Hkey : ∀ k x, isk k x = true ↔ key x = k).
Implicit Types (l : list A) (f g : A → A).

Lemma set_row_ne p f l : Forall (λ x : A, p x = false) l → set_row p f l = l.
Proof. induction 1 as [|x l Hx _ IH]; [done|]. rewrite set_row_cons, Hx. by f_equal. Qed.

Lemma set_row_keys k f l : (∀ x, key (f x) = key x) → key <$> set_row (isk k) f l = key <$> l.
Proof.
intros Hf. induction l as [|x l IH]; [done|]. rewrite set_row_cons. cbn. f_equal; [|done].
destruct (isk k x); auto.
Qed.

Lemma set_row_compose k f g l : (∀ x, key (f x) = key x) →
set_row (isk k) g (set_row (isk k) f l) = set_row (isk k) (λ x, g (f x)) l.
Proof.
intros Hf. unfold set_row. rewrite map_map. apply map_ext. intros x.
destruct (isk k x) eqn:Hx; [|by rewrite Hx].
apply Hkey in Hx. by rewrite <-Hf, <-Hkey in Hx; rewrite Hx.
Qed.

Lemma set_row_ext p f g l : (∀ x, f x = g x) → set_row p f l = set_row p g l.
Proof. intros H. unfold set_row. apply map_ext. intros x. destruct (p x); auto. Qed.

Lemma length_set_row p f l : length (set_row p f l) = length l.
Proof. apply length_map. Qed.

Lemma set_row_id p f l : (∀ x, f x = x) → set_row p f l = l.
Proof.
intros H. induction l as [|x l IH]; [done|]. rewrite set_row_cons.
f_equal; [by destruct (p x)|done].
Qed.

Lemma find_set_row k f l : (∀ x, key (f x) = key x) →
find (isk k) (set_row (isk k) f l) = f <$> find (isk k) l.
Proof.
intros Hf. induction l as [|x l IH]; [done|].
rewrite set_row_cons. cbn [find]. destruct (isk k x) eqn:Hx; [|by rewrite Hx].
apply Hkey in Hx. by rewrite <-Hf, <-Hkey in Hx; rewrite Hx.
Qed.

Lemma find_set_row_ne k k' f l : (∀ x, key (f x) = key x) → k' ≠ k →
find (isk k') (set_row (isk k) f l) = find (isk k') l.
Proof.
intros Hf Hne. induction l as [|x l IH]; [done|].
rewrite set_row_cons. cbn [find]. destruct (isk k x) eqn:Hx.
- apply Hkey in Hx.
  assert (isk k' (f x) = false) as -> by (apply (is_key_false key isk Hkey); congruence).
  assert (isk k' x = false) as -> by (apply (is_key_false key isk Hkey); congruence). done.
- by rewrite IH.
Qed.

(** A conditional UPDATE on a keyed table, read by key. *)
Lemma update_first_keyed k (g : A → bool) f l :
NoDup (key <$> l) → (∀ x, key (f x) = key x) →
update_first (λ x, isk k x && g x) f l =
  match find (isk k) l with
  | Some x => if g x then Some (f x, set_row (isk k) f l) else None
  | None => None
  end.
Proof.
intros Hnd Hf. destruct (find (isk k) l) as [x|] eqn:Hfind.
- destruct (g x) eqn:Hg.
  + destruct (update_accepted key isk Hkey k g f l x) as [l' Hu]; try done.
    rewrite Hu. do 2 f_equal.
    destruct (update_keyed key isk Hkey _ _ _ _ _ _ Hnd Hf Hu)
      as (l1 & z & l2 & -> & -> & E & Hz & _ & H1 & H2).
    unfold set_row. rewrite map_app. cbn. apply Hkey in Hz. rewrite Hz.
    assert (∀ l0, Forall (λ w, key w ≠ k) l0 → map (λ x0, if isk k x0 then f x0 else x0) l0 = l0)
      as Hid; [|by rewrite !Hid].
    intros l0 H0. apply (set_row_ne (isk k) f). eapply Forall_impl; [done|].
    intros w Hw. cbn. by apply (is_key_false key isk Hkey).
  + apply (update_rejected key isk Hkey); [done|]. by rewrite Hfind.
- apply (update_rejected key isk Hkey); [done|]. by rewrite Hfind.
Qed.

(** A read by key with an extra condition. *)
Lemma find_guarded k (g : A → bool) l : NoDup (key <$> l) →
find (λ x, isk k x && g x) l =
  match find (isk k) l with Some x => if g x then Some x else None | None => None end.
Proof.
intros Hnd. induction l as [|z l IH]; [done|]. cbn in *.
apply NoDup_cons in Hnd as [Hz Hnd]. destruct (isk k z) eqn:Hk; cbn; [|by apply IH].
destruct (g z); [done|]. rewrite IH by done. apply Hkey in Hk.
destruct (find (isk k) l) as [w|] eqn:Hf; [|done].
apply (find_key_Some key isk Hkey) in Hf as [Hw Ew]. destruct Hz. rewrite Hk, <-Ew.
by apply list_elem_of_fmap_2.
Qed.

Lemma elem_of_set_row k f l y : y ∈ set_row (isk k) f l →
(∃ x, x ∈ l ∧ key x = k ∧ y = f x) ∨ (y ∈ l ∧ key y ≠ k).
Proof.
unfold set_row. rewrite list_elem_of_In, in_map_iff. intros (x & <- & Hx%list_elem_of_In).
destruct (isk k x) eqn:E.
- left. exists x. split_and!; [done|by apply Hkey|done].
- right. split; [done|]. by apply (is_key_false key isk Hkey).
Qed.

Lemma elem_of_set_row_other k f l x : x ∈ l → key x ≠ k → x ∈ set_row (isk k) f l.
Proof.
intros Hx Hk%(is_key_false key isk Hkey). unfold set_row.
rewrite list_elem_of_In, in_map_iff. exists x. rewrite Hk. by rewrite <-list_elem_of_In.
Qed.

Lemma elem_of_set_row_this k f l x : x ∈ l → key x = k → f x ∈ set_row (isk k) f l.
Proof.
intros Hx Hk%Hkey. unfold set_row.
rewrite list_elem_of_In, in_map_iff. exists x. rewrite Hk. by rewrite <-list_elem_of_In.
Qed.

Lemma count_set_row (p : A → bool) k f l x :
NoDup (key <$> l) → find (isk k) l = Some x →
count p (set_row (isk k) f l) =
  (count p l - (if p x then 1 else 0) + (if p (f x) then 1 else 0))%Z.
Proof.
induction l as [|z l IH]; intros Hnd Hf; [done|].
rewrite set_row_cons. cbn in Hnd, Hf. cbn [count].
apply NoDup_cons in Hnd as [Hz Hnd]. destruct (isk k z) eqn:Hk.
- injection Hf as ->. rewrite (set_row_ne (isk k)); [lia|].
  apply Forall_forall. intros w Hw. apply (is_key_false key isk Hkey). intros E. apply Hz.
  apply Hkey in Hk. rewrite Hk, <-E. by apply list_elem_of_fmap_2.
- rewrite IH by done. lia.
Qed.
End set_row.
