(* ===== verification/GoStd.v ===== *)
(** What the modelled packages use of the Go standard library: byte-string
    searching (strings), float64 rounding, and time.ParseDuration. *)
From Stdlib Require Import QArith Ascii.
From stdpp Require Import pretty.
From S2P Require Import Prelude.
Open Scope Z_scope.

(** A conversion to int32. *)
Definition int32 (n : Z) : Z := (n + 2 ^ 31) mod 2 ^ 32 - 2 ^ 31.

(** ** Bytes and strings *)

Definition code (c : ascii) : Z := Z.of_nat (nat_of_ascii c).
Definition between (lo c hi : ascii) : bool := (code lo <=? code c) && (code c <=? code hi).
Definition is_digit (c : ascii) : bool := between "0" c "9".
Definition is_lower (c : ascii) : bool := between "a" c "z".
Definition is_upper (c : ascii) : bool := between "A" c "Z".

Fixpoint drop_s (i : nat) (s : string) : string :=
  match i, s with
  | S i', String _ s' => drop_s i' s'
  | _, _ => s
  end.

(** strings.HasPrefix. *)
Fixpoint HasPrefix (s prefix : string) {struct prefix} : bool :=
  match prefix, s with
  | EmptyString, _ => true
  | String c p, String c' s' => bool_decide (c = c') && HasPrefix s' p
  | String _ _, EmptyString => false
  end.

(** The text before and after the first occurrence of [sep]: strings.Index with
    the two slices around it.  [Contains] is strings.Contains. *)
Fixpoint Cut (s sep : string) : option (string * string) :=
  if HasPrefix s sep then Some ("", drop_s (String.length sep) s)
  else match s with
       | EmptyString => None
       | String c s' => (λ '(a, b), (String c a, b)) <$> Cut s' sep
       end.
Definition Contains (s sub : string) : bool := bool_decide (is_Some (Cut s sub)).

(** strings.Split on a one-byte separator. *)
Fixpoint split_go (sep : ascii) (s cur : string) : list string :=
  match s with
  | EmptyString => [cur]
  | String c s' => if bool_decide (c = sep) then cur :: split_go sep s' ""
                   else split_go sep s' (cur +:+ String c "")
  end.
Definition Split (s : string) (sep : ascii) : list string := split_go sep s "".

Fixpoint all_chars (p : ascii → bool) (s : string) : bool :=
  match s with
  | EmptyString => true
  | String c s' => p c && all_chars p s'
  end.

(** The UTF-8 encodings of the runes [unicode.IsSpace] accepts. *)
Definition bytes (l : list nat) : string := foldr (λ n s, String (ascii_of_nat n) s) "" l.
Definition space_runes : list string :=
  bytes <$> [[9]; [10]; [11]; [12]; [13]; [32]; [194; 133]; [194; 160]; [225; 154; 128];
    [226; 128; 128]; [226; 128; 129]; [226; 128; 130]; [226; 128; 131]; [226; 128; 132]; [226; 128; 133];
    [226; 128; 134]; [226; 128; 135]; [226; 128; 136]; [226; 128; 137]; [226; 128; 138];
    [226; 128; 168]; [226; 128; 169]; [226; 128; 175]; [226; 129; 159]; [227; 128; 128]]%nat.

(** strings.TrimLeftFunc(s, unicode.IsSpace); every round drops a byte. *)
Fixpoint trim_left (fuel : nat) (s : string) : string :=
  match fuel with
  | O => s
  | S fuel' =>
      match find (HasPrefix s) space_runes with
      | Some r => trim_left fuel' (drop_s (String.length r) s)
      | None => s
      end
  end.
(** strings.TrimSpace(s) == "": nothing is left after the leading spaces. *)
Definition blank (s : string) : bool := bool_decide (trim_left (String.length s) s = "").
(** strings.TrimRightFunc: the same on the reversed bytes. *)
Fixpoint rev_go (s acc : string) : string :=
  match s with EmptyString => acc | String c s' => rev_go s' (String c acc) end.
Definition rev_s (s : string) : string := rev_go s "".
Fixpoint trim_right_rev (fuel : nat) (s : string) : string :=
  match fuel with
  | O => s
  | S fuel' =>
      match find (λ r, HasPrefix s (rev_s r)) space_runes with
      | Some r => trim_right_rev fuel' (drop_s (String.length r) s)
      | None => s
      end
  end.
Definition TrimSpace (s : string) : string :=
  let l := trim_left (String.length s) s in
  rev_s (trim_right_rev (String.length l) (rev_s l)).

(** [fmt.Sprintf("%s[%d]", s, i)]. *)
Definition at_index (s : string) (i : nat) : string := s +:+ "[" +:+ pretty i +:+ "]".

(** ** float64 *)

(** Division of integers rounded half to even. *)
Definition div_half_even (a b : Z) : Z :=
  let q := a / b in let r := a mod b in
  if 2 * r <? b then q else if b <? 2 * r then q + 1 else if Z.even q then q else q + 1.

Definition scale2 (q : Q) (e : Z) : Q := (q * (if 0 <=? e then inject_Z (2 ^ e) else 1 # Z.to_pos (2 ^ (- e))))%Q.

(** The float64 nearest to a non-negative rational below the overflow bound: the
    53-bit significand at the exponent of [q] (at least -1074). *)
Definition fl64 (q : Q) : Q :=
  if Qnum q <=? 0 then 0%Q
  else
    let e0 := Z.log2 (Qnum q) - Z.log2 (Zpos (Qden q)) - 52 in
    let e1 := if Qle_bool (inject_Z (2 ^ 52)) (scale2 q (- e0)) then e0 else e0 - 1 in
    let e := Z.max e1 (-1074) in
    let m := scale2 q (- e) in
    scale2 (inject_Z (div_half_even (Qnum m) (Zpos (Qden m)))) e.

(** uint64(x) and int64(math.Round(x)) of a non-negative float64 in range. *)
Definition trunc64 (q : Q) : Z := Qnum q / Zpos (Qden q).
Definition round64 (q : Q) : Z := (2 * Qnum q + Zpos (Qden q)) / (2 * Zpos (Qden q)).

(** ** time.ParseDuration *)

Definition Nanosecond : Z := 1.
Definition Microsecond : Z := 1000.
Definition Millisecond : Z := 1000000.
Definition Second : Z := 1000000000.
Definition Minute : Z := 60 * Second.
Definition Hour : Z := 60 * Minute.

Definition unitMap (u : string) : option Z :=
  if bool_decide (u = "ns") then Some Nanosecond
  else if bool_decide (u = "us") || bool_decide (u = bytes [194; 181; 115]%nat) ||
          bool_decide (u = bytes [206; 188; 115]%nat) then Some Microsecond
  else if bool_decide (u = "ms") then Some Millisecond
  else if bool_decide (u = "s") then Some Second
  else if bool_decide (u = "m") then Some Minute
  else if bool_decide (u = "h") then Some Hour
  else None.

Definition digit (c : ascii) : Z := code c - code "0".

(** The leading digits, or an overflow ([None]); the number of bytes is the
    number of digits consumed. *)
Fixpoint leadingInt (s : string) (x : Z) : option (Z * string) :=
  match s with
  | String c s' =>
      if is_digit c then
        if 2 ^ 63 / 10 <? x then None
        else let x' := x * 10 + digit c in if 2 ^ 63 <? x' then None else leadingInt s' x'
      else Some (x, s)
  | EmptyString => Some (x, s)
  end.

(** The digits after the period; the ones that no longer fit are dropped. *)
Fixpoint leadingFraction (s : string) (x scale : Z) (overflow : bool) : Z * Z * string :=
  match s with
  | String c s' =>
      if is_digit c then
        if overflow then leadingFraction s' x scale true
        else if (2 ^ 63 - 1) / 10 <? x then leadingFraction s' x scale true
        else let y := x * 10 + digit c in
             if 2 ^ 63 <? y then leadingFraction s' x scale true
             else leadingFraction s' y (scale * 10) false
      else (x, scale, s)
  | EmptyString => (x, scale, s)
  end.

Fixpoint unit_prefix (s : string) : string * string :=
  match s with
  | String c s' => if bool_decide (c = "."%char) || is_digit c then ("", s)
                   else let '(u, r) := unit_prefix s' in (String c u, r)
  | EmptyString => ("", "")
  end.

(** One [digits[.digits]unit] group: its value and the rest. *)
Definition duration_group (s : string) : option (Z * string) :=
  match leadingInt s 0 with
  | None => None
  | Some (v, s1) =>
      let pre := negb (Nat.eqb (String.length s1) (String.length s)) in
      let '(f, scale, s2, post) :=
        match s1 with
        | String "." s1' =>
            let '(f, scale, s2) := leadingFraction s1' 0 1 false in
            (f, scale, s2, negb (Nat.eqb (String.length s2) (String.length s1')))
        | _ => (0, 1, s1, false)
        end in
      if negb pre && negb post then None
      else
        let '(u, s3) := unit_prefix s2 in
        if bool_decide (u = "") then None
        else match unitMap u with
             | None => None
             | Some unit =>
                 if 2 ^ 63 / unit <? v then None
                 else
                   let v1 := v * unit in
                   let v2 := if 0 <? f
                             then v1 + trunc64 (fl64 (fl64 (inject_Z f) * fl64 (unit # Z.to_pos scale)))
                             else v1 in
                   if 2 ^ 63 <? v2 then None else Some (v2, s3)
             end
  end.

Fixpoint duration_groups (fuel : nat) (s : string) (d : Z) : option Z :=
  match s with
  | EmptyString => Some d
  | String _ _ =>
      match fuel with
      | O => None
      | S fuel' =>
          match duration_group s with
          | None => None
          | Some (v, s') => let d' := (d + v) mod 2 ^ 64 in   (* uint64 *)
                            if 2 ^ 63 <? d' then None else duration_groups fuel' s' d'
          end
      end
  end.

(** [None] is the error.  Every group consumes a byte. *)
Definition ParseDuration (s : string) : option Z :=
  let '(neg, s) :=
    match s with
    | String "-" s' => (true, s')
    | String "+" s' => (false, s')
    | _ => (false, s)
    end in
  if bool_decide (s = "0") then Some 0
  else if bool_decide (s = "") then None
  else match duration_groups (String.length s) s 0 with
       | None => None
       | Some d => if neg then Some (- d) else if 2 ^ 63 - 1 <? d then None else Some d
       end.

Example ParseDuration_samples :
  (ParseDuration <$> ["1h30m"; "500ms"; "1.5s"; "-2m"; "0"; ""; "1"; "3x"; ".s"; "0.1h"; "9223372036854775807ns";
                      "9223372036854775808ns"; "-9223372036854775808ns"; "1e3s"]) =
  [Some (90 * Minute); Some 500000000; Some 1500000000; Some (-120000000000); Some 0; None; None; None; None;
   Some 360000000000; Some (2 ^ 63 - 1); None; Some (- 2 ^ 63); None].
Proof. vm_compute. reflexivity. Qed.
Example TrimSpace_samples : TrimSpace (bytes [32; 194; 160; 97; 32; 98; 10; 227; 128; 128]%nat) = "a b" ∧ blank " " = true.
Proof. vm_compute. done. Qed.

(** ** Lemmas *)

Lemma append_cons c (a b : string) : String c a +:+ b = String c (a +:+ b).
Proof. done. Qed.
Lemma append_nil_l (a : string) : "" +:+ a = a.
Proof. done. Qed.
Lemma append_assoc (a b c : string) : (a +:+ b) +:+ c = a +:+ (b +:+ c).
Proof. induction a as [|x a IH]; [done|]. by rewrite !append_cons, IH. Qed.
Lemma append_nil_r (a : string) : a +:+ "" = a.
Proof. induction a as [|x a IH]; [done|]. by rewrite append_cons, IH. Qed.
Lemma length_append (a b : string) : String.length (a +:+ b) = (String.length a + String.length b)%nat.
Proof. induction a as [|x a IH]; [done|]. rewrite append_cons. cbn. by rewrite IH. Qed.

Lemma HasPrefix_spec s p : HasPrefix s p = true → s = p +:+ drop_s (String.length p) s.
Proof.
  revert p. induction s as [|c' s IH]; intros [|c p]; cbn [HasPrefix]; try done.
  intros [->%bool_decide_eq_true H]%andb_prop. rewrite append_cons. cbn. by rewrite <-IH.
Qed.
Lemma HasPrefix_app s p r : s = p +:+ r → HasPrefix s p = true.
Proof.
  intros ->. induction p as [|c p IH]; [by destruct r|]. rewrite append_cons. cbn [HasPrefix].
  by rewrite bool_decide_eq_true_2, IH.
Qed.

(** The two slices around the first occurrence make up the string. *)
Lemma Cut_spec s sep a b : Cut s sep = Some (a, b) → s = a +:+ sep +:+ b.
Proof.
  revert a b. induction s as [|c s IH]; intros a b; cbn [Cut].
  - destruct (HasPrefix "" sep) eqn:E; [|done]. intros [= <- <-]. by apply HasPrefix_spec in E.
  - destruct (HasPrefix (String c s) sep) eqn:E; [intros [= <- <-]; by apply HasPrefix_spec in E|].
    destruct (Cut s sep) as [[a' b']|]; [|done]. intros [= <- <-]. rewrite append_cons. f_equal. by apply IH.
Qed.
Lemma Cut_None s sep : Cut s sep = None → ∀ a b, s ≠ a +:+ sep +:+ b.
Proof.
  induction s as [|c s IH]; cbn [Cut]; intros E a b Hs.
  - destruct (HasPrefix "" sep) eqn:P; [done|].
    destruct a; [|done]. by rewrite (HasPrefix_app "" sep b Hs) in P.
  - destruct (HasPrefix (String c s) sep) eqn:P; [done|]. destruct (Cut s sep) as [[]|]; [done|].
    destruct a as [|c' a]; [by rewrite (HasPrefix_app _ sep b Hs) in P|].
    rewrite append_cons in Hs. injection Hs as _ Hs. by apply (IH eq_refl a b).
Qed.
(** The part before the first occurrence holds none. *)
Lemma Cut_first s sep a b : Cut s sep = Some (a, b) → sep ≠ "" → Cut a sep = None.
Proof.
  intros E Hne. revert a b E. induction s as [|c s IH]; intros a b; cbn [Cut].
  - destruct (HasPrefix "" sep) eqn:P; [|done]. intros [= <- <-]. by destruct sep.
  - destruct (HasPrefix (String c s) sep) eqn:P; [intros [= <- <-]; by destruct sep|].
    destruct (Cut s sep) as [[a' b']|] eqn:E; [|done]. intros [= <- <-]. cbn [Cut].
    rewrite (IH a' b') by done. destruct (HasPrefix (String c a') sep) eqn:P'; [|done].
    apply HasPrefix_spec in P'. apply Cut_spec in E. rewrite E in P.
    rewrite (HasPrefix_app _ sep (drop_s (String.length sep) (String c a') +:+ sep +:+ b')) in P; [done|].
    by rewrite <-(append_assoc sep), <-P', append_cons.
Qed.
