(* ===== verification/Retry.v ===== *)
(** internal/dag/retry.go: error classes, the authored retry policy of a step,
    and the effective policy materialized onto its run_steps row. *)
From Stdlib Require Import QArith.
From S2P Require Import Prelude.
Open Scope Z_scope.

(** ErrorClass. *)
Inductive ErrorClass : Type :=
| ClassTransient
| ClassPermanent
| ClassTimeout
| ClassCancelled
| ClassValidationFailed.
#[export] Instance ErrorClass_eq_dec : EqDecision ErrorClass.
Proof. solve_decision. Defined.

(** The class as the document spells it. *)
Definition class_text (c : ErrorClass) : string :=
  match c with
  | ClassTransient => "transient"
  | ClassPermanent => "permanent"
  | ClassTimeout => "timeout"
  | ClassCancelled => "cancelled"
  | ClassValidationFailed => "validation_failed"
  end.

(** JitterMode. *)
Definition JitterFull : string := "full".
Definition JitterNone : string := "none".

(** BackoffSpec.  A multiplier is the rational a finite float64 denotes; zero is
    the absent key. *)
Record BackoffSpec : Type := mkBackoffSpec { Initial : string; Cap : string; Multiplier : Q }.

(** RetryPolicy: zero attempts, an empty jitter and a nil list are absent keys. *)
Record RetryPolicy : Type := mkRetryPolicy {
  MaxAttempts : Z;
  Backoff : option BackoffSpec;
  Jitter : string;
  RetryOn : option (list ErrorClass)
}.

Definition DefaultRetryMaxAttempts : Z := 3.
Definition DefaultBackoffInitial : string := "1s".
Definition DefaultBackoffCap : string := "1m".
Definition DefaultBackoffMultiplier : Q := 2%Q.
Definition DefaultRetryJitter : string := JitterFull.
Definition DefaultRetryOn : list ErrorClass := [ClassTransient; ClassTimeout].

(** ResolvedRetryPolicy, with ResolvedBackoff inlined as the same record. *)
Record ResolvedRetryPolicy : Type := mkResolvedRetryPolicy {
  rp_MaxAttempts : Z;
  rp_Backoff : BackoffSpec;
  rp_Jitter : string;
  rp_RetryOn : list ErrorClass
}.

Definition ResolveRetryPolicy (p : option RetryPolicy) : ResolvedRetryPolicy :=
  let backoff := mkBackoffSpec DefaultBackoffInitial DefaultBackoffCap DefaultBackoffMultiplier in
  match p with
  | None => mkResolvedRetryPolicy DefaultRetryMaxAttempts backoff DefaultRetryJitter DefaultRetryOn
  | Some p =>
      mkResolvedRetryPolicy
        (if MaxAttempts p =? 0 then DefaultRetryMaxAttempts else MaxAttempts p)
        (match Backoff p with
         | None => backoff
         | Some b => mkBackoffSpec (Initial b) (Cap b)
                       (if Qeq_bool (Multiplier b) 0 then DefaultBackoffMultiplier else Multiplier b)
         end)
        (if bool_decide (Jitter p = "") then DefaultRetryJitter else Jitter p)
        (default DefaultRetryOn (RetryOn p))
  end.

Definition Retries (r : ResolvedRetryPolicy) (class : ErrorClass) : bool :=
  existsb (λ c, bool_decide (c = class)) (rp_RetryOn r).

(** decodeRetryPolicy (engine/complete.go) on a column that parses: a policy
    without a positive attempt budget is corrupt. *)
Definition decodeRetryPolicy (raw : option ResolvedRetryPolicy) : option ResolvedRetryPolicy :=
  match raw with
  | Some p => if rp_MaxAttempts p <? 1 then None else Some p
  | None => None
  end.
