(* ===== verification/Issues.v ===== *)
(** The findings of internal/dag's validators: the issues of validate.go, and the
    verdict of expansion.go; the message text of an issue is left out.  The caps that
    expansion.go puts on the growth of a run. *)
From S2P Require Import Prelude.
Open Scope Z_scope.

Inductive Severity : Type := SeverityError | SeverityWarning.
#[export] Instance Severity_eq_dec : EqDecision Severity.
Proof. solve_decision. Defined.

Inductive ValidationCode : Type :=
| CodeNoSteps | CodeDuplicateStepID | CodeInvalidStepID | CodeUnknownStepType | CodeUnknownEdgeEndpoint
| CodeNoEntryStep | CodeIsolatedStep | CodeConfigFieldRequired | CodeConfigFieldConflict | CodeConfigFieldInvalid
| CodeBranchNoOutEdges | CodeBranchEdgeUnconditioned | CodeLoopFieldRequired | CodeLoopFieldForbidden
| CodeRetryFieldRequired | CodeRetryFieldInvalid | CodeTimeoutFieldInvalid | CodeMaxWallClockInvalid
| CodeCacheFieldRequired | CodeCacheFieldInvalid | CodeBudgetFieldRequired | CodeBudgetFieldInvalid
| CodeValidationFieldRequired | CodeValidationFieldInvalid | CodeBlackboardFieldRequired
| CodeBlackboardFieldInvalid | CodeContextFieldRequired | CodeContextFieldInvalid
| CodeExpansionFieldInvalid | CodeExpansionCapExceeded | CodeExpansionAnchorInvalid | CodeTemplateSectionInvalid | CodeMapBodyUnknown | CodeAgentSectionInvalid
| CodeAgentRefUnknown | CodeApprovalEdgeInvalid | CodeApprovalRejectEdgeRequired | CodeLimitExceeded | CodeCycle
| CodeLoopEdgeNotAncestor | CodeExprInvalid | CodeExprNotBool | CodeTemplateInvalid | CodeTemplateRefInvalid
| CodeTemplateRefUnknownStep | CodeTemplateRefNotUpstream | CodeTemplateRefUnknownParam.
#[export] Instance ValidationCode_eq_dec : EqDecision ValidationCode.
Proof. solve_decision. Defined.

Record ValidationIssue : Type := mkIssue { Code : ValidationCode; issue_Severity : Severity; issue_Path : string }.

(** A run guard an expansion crosses, and the outcome of validating one. *)
Record CapBreach : Type := mkCapBreach { cb_Limit : string; cb_Current : Z; cb_Cap : Z }.
Record ExpansionVerdict : Type := mkExpansionVerdict { xv_Issues : list ValidationIssue; xv_Breaches : list CapBreach }.

(** ** Caps *)

(** Definition and expansion limits. *)
Definition MaxSteps : Z := 10000.
Definition DefaultMaxAddedStepsPerExpansion : Z := 32.
Definition DefaultMaxExpansions : Z := 100.
Definition DefaultMaxDepth : Z := 4.
Definition DefaultMaxTotalSteps : Z := MaxSteps.

(** ExpansionPolicy (expansion.go), and its resolution against the compiled
    defaults. *)
Record ExpansionPolicy : Type := mkExpansionPolicy {
  xp_MaxAddedSteps : option Z; xp_MaxTotalSteps : option Z; xp_MaxExpansions : option Z; xp_MaxDepth : option Z }.
Record ExpansionCaps : Type := mkExpansionCaps {
  MaxAddedStepsPerExpansion : Z; MaxTotalSteps : Z; MaxExpansions : Z; MaxDepth : Z }.
Definition Resolve (p : option ExpansionPolicy) : ExpansionCaps :=
  match p with
  | None => mkExpansionCaps DefaultMaxAddedStepsPerExpansion DefaultMaxTotalSteps DefaultMaxExpansions DefaultMaxDepth
  | Some p =>
      mkExpansionCaps (default DefaultMaxAddedStepsPerExpansion (xp_MaxAddedSteps p))
        (default DefaultMaxTotalSteps (xp_MaxTotalSteps p))
        (default DefaultMaxExpansions (xp_MaxExpansions p)) (default DefaultMaxDepth (xp_MaxDepth p))
  end.
