(* ===== verification/StoreModel.v ===== *)
(** The durable store of internal/store: the rows of the run tables, the typed
    errors, the transaction monad, and the primitive queries the guarded
    transitions are written with. *)
From Stdlib Require Import QArith.
From S2P Require Import Prelude Issues Retry.
Open Scope Z_scope.

(** ** Scalars *)

(** [uuid.UUID]: compared for equality, and ordered only to break ties in one
    scan. *)
Abbreviation uuid := positive.
(** [time.Time]: nanoseconds since the zero time, so [IsZero] is [= 0]. *)
Abbreviation time := Z.

(** A JSON document ([json.RawMessage]); a nil message, which the store writes
    as NULL, is [None] in an [option json]. *)
Inductive json : Type :=
| JNull
| JBool (b : bool)
| JNum (n : Z)
| JFloat (q : Q)
| JStr (s : string)
| JArr (l : list json)
| JObj (fields : list (string * json)).

(** ** Status vocabulary (status.go) *)

Inductive RunStatus : Type :=
| RunStatusRunning
| RunStatusSucceeded
| RunStatusFailed
| RunStatusParked
| RunStatusCancelling
| RunStatusCancelled.
#[export] Instance RunStatus_eq_dec : EqDecision RunStatus.
Proof. solve_decision. Defined.

Definition ParkReasonManual : string := "manual".
Definition ParkReasonBudgetExceeded : string := "budget_exceeded".
Definition ParkReasonAwaitingHuman : string := "awaiting_human".

Definition RunCancelReasonManual : string := "manual".
Definition RunCancelReasonDeadlineExceeded : string := "deadline_exceeded".

Inductive StepStatus : Type :=
| StepStatusPending
| StepStatusReady
| StepStatusRunning
| StepStatusSucceeded
| StepStatusFailed
| StepStatusSkipped
| StepStatusRetrying
| StepStatusDeadLettered
| StepStatusCancelled
| StepStatusCollected
| StepStatusAwaitingHuman.
#[export] Instance StepStatus_eq_dec : EqDecision StepStatus.
Proof. solve_decision. Defined.

Inductive ApprovalStatus : Type :=
| ApprovalStatusPending
| ApprovalStatusApproved
| ApprovalStatusRejected
| ApprovalStatusExpired
| ApprovalStatusCancelled.
#[export] Instance ApprovalStatus_eq_dec : EqDecision ApprovalStatus.
Proof. solve_decision. Defined.

Inductive EdgeType : Type := EdgeTypeNormal | EdgeTypeLoop.
#[export] Instance EdgeType_eq_dec : EqDecision EdgeType.
Proof. solve_decision. Defined.

Inductive EdgeResolution : Type :=
| EdgeResolutionUnresolved
| EdgeResolutionFired
| EdgeResolutionSkipped.
#[export] Instance EdgeResolution_eq_dec : EqDecision EdgeResolution.
Proof. solve_decision. Defined.

Inductive OutboxReason : Type :=
| OutboxReasonStepReady
| OutboxReasonReconcileReady
| OutboxReasonReconcileRunning
| OutboxReasonReconcileRetry
| OutboxReasonDLQRequeue
| OutboxReasonUnpark
| OutboxReasonSemanticRetry
| OutboxReasonApprovalTimeout.
#[export] Instance OutboxReason_eq_dec : EqDecision OutboxReason.
Proof. solve_decision. Defined.

Inductive DeadLetterSource : Type :=
| DeadLetterSourceRetriesExhausted
| DeadLetterSourcePermanent
| DeadLetterSourcePoison.
#[export] Instance DeadLetterSource_eq_dec : EqDecision DeadLetterSource.
Proof. solve_decision. Defined.

Definition CancelReasonUpstreamDeadLettered : string := "upstream_dead_lettered".
Definition CancelReasonRunCancelled : string := "run_cancelled".
Definition ReviveReasonDLQRequeue : string := "dlq_requeue".

(** The attempt outcomes the [step_attempts_outcome_check] constraint admits. *)
Inductive AttemptOutcome : Type :=
| AttemptOutcomeSucceeded
| AttemptOutcomeLost
| AttemptOutcomeTransient
| AttemptOutcomePermanent
| AttemptOutcomeTimeout
| AttemptOutcomeCancelled
| AttemptOutcomeThrottled
| AttemptOutcomeBudgetExceeded
| AttemptOutcomeValidationFailed.
#[export] Instance AttemptOutcome_eq_dec : EqDecision AttemptOutcome.
Proof. solve_decision. Defined.

(** ** Rows (gen/models.go)

    The columns the transitions read or write, under the source's names. *)

Record TraceContext : Type := mkTraceContext { Parent : string; State : string }.

Record Run : Type := mkRun {
  run_ID : uuid;
  run_Status : RunStatus;
  run_Params : option json;
  run_GraphVersion : Z;
  run_NextSeq : Z;
  run_StepsTotal : Z;
  run_StepsSucceeded : Z;
  run_StepsFailed : Z;
  run_StepsSkipped : Z;
  run_StepsCancelled : Z;
  run_StepsCollected : Z;
  run_StartedAt : option time;
  run_FinishedAt : option time;
  run_OnFailure : string;
  run_ParkReason : option string;
  run_CancelReason : option string;
  run_DeadlineAt : option time;
  run_TraceParent : option string;
  run_TraceState : option string;
  run_SpentNanoUsd : Z;
  run_SavedNanoUsd : Z;
  run_BudgetNanoUsd : option Z;
  run_OnBudgetExceeded : string;
  run_IdempotencyToken : option string;
  run_IdempotencyFingerprint : option string;
  run_ExpansionCaps : option ExpansionCaps      (** NULL on rows that predate the column *)
}.
#[export] Instance Eta_Run : Eta Run := λ r,
  mkRun (run_ID r) (run_Status r) (run_Params r) (run_GraphVersion r) (run_NextSeq r)
    (run_StepsTotal r) (run_StepsSucceeded r) (run_StepsFailed r) (run_StepsSkipped r)
    (run_StepsCancelled r) (run_StepsCollected r) (run_StartedAt r) (run_FinishedAt r)
    (run_OnFailure r) (run_ParkReason r) (run_CancelReason r) (run_DeadlineAt r)
    (run_TraceParent r) (run_TraceState r) (run_SpentNanoUsd r) (run_SavedNanoUsd r) (run_BudgetNanoUsd r)
    (run_OnBudgetExceeded r) (run_IdempotencyToken r) (run_IdempotencyFingerprint r) (run_ExpansionCaps r).

(** The policy and provenance columns instantiation materializes and no
    transition writes.  A retry policy that does not parse is [None]. *)
Record Envelope : Type := mkEnvelope {
  env_RetryPolicy : option ResolvedRetryPolicy;
  env_Timeout : option string;
  env_CachePolicy : option json;
  env_BudgetPolicy : option json;
  env_ValidationPolicy : option json;
  env_BlackboardPolicy : option json;
  env_ContextPolicy : option json;
  env_GraphVersion : Z;
  env_Depth : Z;
  env_OriginStep : option string;
  env_OriginKind : option string
}.
Definition noEnvelope : Envelope := mkEnvelope None None None None None None None 1 0 None None.

Record RunStep : Type := mkRunStep {
  step_RunID : uuid;
  step_StepID : string;
  step_StepType : string;
  step_Config : option json;
  step_Status : StepStatus;
  step_RemainingDeps : Z;
  step_FiredDeps : Z;
  step_ClaimID : option uuid;
  step_AttemptCount : Z;
  step_Output : option json;
  step_Error : option json;
  step_UpdatedAt : time;
  step_StartedAt : option time;
  step_FinishedAt : option time;
  step_NextAttemptAt : option time;
  step_TraceSpan : option string;
  step_Feedback : option json;
  step_Envelope : Envelope
}.
#[export] Instance Eta_RunStep : Eta RunStep := λ r,
  mkRunStep (step_RunID r) (step_StepID r) (step_StepType r) (step_Config r) (step_Status r)
    (step_RemainingDeps r) (step_FiredDeps r) (step_ClaimID r) (step_AttemptCount r)
    (step_Output r) (step_Error r) (step_UpdatedAt r) (step_StartedAt r) (step_FinishedAt r)
    (step_NextAttemptAt r) (step_TraceSpan r) (step_Feedback r) (step_Envelope r).

Record RunEdge : Type := mkRunEdge {
  edge_RunID : uuid;
  edge_Ordinal : Z;
  edge_FromStep : string;
  edge_ToStep : string;
  edge_EdgeType : EdgeType;
  edge_WhenExpr : option string;
  edge_Condition : option string;
  edge_MaxIterations : option Z;
  edge_Resolution : EdgeResolution;
  edge_Decision : option string;
  edge_GraphVersion : Z;
  edge_OriginStep : option string;
  edge_OriginKind : option string
}.
#[export] Instance Eta_RunEdge : Eta RunEdge := λ r,
  mkRunEdge (edge_RunID r) (edge_Ordinal r) (edge_FromStep r) (edge_ToStep r)
    (edge_EdgeType r) (edge_WhenExpr r) (edge_Condition r) (edge_MaxIterations r) (edge_Resolution r)
    (edge_Decision r) (edge_GraphVersion r) (edge_OriginStep r) (edge_OriginKind r).

Record StepAttempt : Type := mkStepAttempt {
  att_RunID : uuid;
  att_StepID : string;
  att_AttemptNo : Z;
  att_ClaimID : uuid;
  att_Outcome : option AttemptOutcome;
  att_Error : option json;
  att_StartedAt : option time;
  att_FinishedAt : option time;
  att_Usage : option json;
  att_Verdict : option json;
  att_Repair : option json;
  att_Feedback : option json;
  att_WorkerID : option string
}.
#[export] Instance Eta_StepAttempt : Eta StepAttempt := λ r,
  mkStepAttempt (att_RunID r) (att_StepID r) (att_AttemptNo r) (att_ClaimID r)
    (att_Outcome r) (att_Error r) (att_StartedAt r) (att_FinishedAt r) (att_Usage r)
    (att_Verdict r) (att_Repair r) (att_Feedback r) (att_WorkerID r).

Record DeadLetter : Type := mkDeadLetter {
  dl_RunID : uuid;
  dl_StepID : string;
  dl_Seq : Z;
  dl_Source : DeadLetterSource;
  dl_Class : option AttemptOutcome;
  dl_Error : option json;
  dl_Payload : option json;
  dl_AttemptsAtDeath : Z;
  dl_CreatedAt : time
}.

Record TaskOutbox : Type := mkTaskOutbox {
  ob_RunID : uuid;
  ob_StepID : string;
  ob_Reason : OutboxReason;
  ob_TraceParent : option string;
  ob_TraceState : option string
}.

Record Approval : Type := mkApproval {
  ap_ID : uuid;
  ap_RunID : uuid;
  ap_StepID : string;
  ap_Attempt : Z;
  ap_Status : ApprovalStatus;
  ap_Title : string;
  ap_Description : string;
  ap_Payload : option json;
  ap_AllowedDecisions : list string;
  ap_AllowEdit : bool;
  ap_EditSchema : option json;
  ap_TimeoutAt : option time;
  ap_Decision : option string;
  ap_EditedPayload : option json;
  ap_Comment : option string;
  ap_DecidedBy : option string;
  ap_DecidedAt : option time;
  ap_DecisionSource : option string;
  ap_CreatedAt : time;
  ap_UpdatedAt : time;
  ap_ExpiredAt : option time
}.
#[export] Instance Eta_Approval : Eta Approval := λ r,
  mkApproval (ap_ID r) (ap_RunID r) (ap_StepID r) (ap_Attempt r) (ap_Status r) (ap_Title r)
    (ap_Description r) (ap_Payload r) (ap_AllowedDecisions r) (ap_AllowEdit r)
    (ap_EditSchema r) (ap_TimeoutAt r) (ap_Decision r) (ap_EditedPayload r) (ap_Comment r)
    (ap_DecidedBy r) (ap_DecidedAt r) (ap_DecisionSource r) (ap_CreatedAt r)
    (ap_UpdatedAt r) (ap_ExpiredAt r).

Record CostLedger : Type := mkCostLedger {
  cl_RunID : uuid;
  cl_StepID : string;
  cl_Attempt : Z;
  cl_Entry : string;
  cl_Resource : string;
  cl_Usage : option json;
  cl_Rate : json;
  cl_RateSource : string;
  cl_CacheHit : bool;
  cl_Overhead : bool;
  cl_CostNanoUsd : Z;
  cl_SavedNanoUsd : Z;
  cl_CreatedAt : time
}.

(** ** Event payloads (internal/event/payloads.go)

    One constructor per payload struct a transition constructs; the event type
    is the constructor, as [Payload.EventType] derives it from the struct. *)
Record BudgetExceededEvent : Type := mkBudgetExceeded {
  be_StepID : string;
  be_Attempt : Z;
  be_Resource : string;
  be_Limit : string;
  be_Action : string;
  be_SpentNanoUSD : Z;
  be_EstimateNanoUSD : Z;
  be_ProjectedNanoUSD : Z;
  be_BudgetNanoUSD : Z;
  be_ProjectedTokens : Z;
  be_MaxTokens : Z
}.
#[export] Instance Eta_BudgetExceeded : Eta BudgetExceededEvent := λ r,
  mkBudgetExceeded (be_StepID r) (be_Attempt r) (be_Resource r) (be_Limit r) (be_Action r)
    (be_SpentNanoUSD r) (be_EstimateNanoUSD r) (be_ProjectedNanoUSD r) (be_BudgetNanoUSD r)
    (be_ProjectedTokens r) (be_MaxTokens r).

Inductive Payload : Type :=
| RunCreated (Name DefinitionID : string) (StepsTotal : Z)
| StepReadyEv (StepID : string)
| StepSkippedEv (StepID : string)
| StepRequeuedEv (StepID : string)
| StepClaimed (StepID : string) (ClaimID : uuid) (Attempt : Z) (WorkerID : string)
| StepReclaimed (StepID : string) (ClaimID : uuid) (Attempt : Z)
| StepSucceededEv (StepID : string) (Attempt : Z)
| StepRetryScheduled (StepID : string) (Attempt : Z) (Class : AttemptOutcome) (NextAttemptAt : time)
| StepThrottledEv (StepID : string) (Attempt : Z) (Resource Bucket RetryAfter : string)
    (NextAttemptAt : time)
| StepSemanticRetryEv (StepID : string) (Attempt SemanticAttempt MaxAttempts IssueCount : Z)
    (NextAttemptAt : time)
| StepDeadLetteredEv (StepID : string) (Source : DeadLetterSource) (Class : option AttemptOutcome)
    (Attempts Seq : Z)
| StepCancelledEv (StepID Reason : string)
| StepRevivedEv (StepID Reason : string)
| StepCollectedEv (StepID : string) (Class : AttemptOutcome) (Attempts : Z)
| RunSucceededEv
| RunFailedEv
| RunResumedEv
| RunParkedEv (Reason : string)
| RunUnparkedEv
| RunCancellingEv (Reason : string)
| RunCancelledEv
| CostUpdatedEv (StepID : string) (Attempt : Z) (Entry Resource : string) (CacheHit Overhead : bool)
    (CostNanoUSD SavedNanoUSD RunSpentNanoUSD RunSavedNanoUSD : Z) (BudgetNanoUSD : option Z)
| CostUnknownModelEv (Model : string) (Fallback : json)
| BudgetExceededEv (ev : BudgetExceededEvent)
| RunBudgetUpdatedEv (PreviousNanoUSD BudgetNanoUSD : Z)
| ModelDowngradedEv (StepID : string) (Attempt : Z) (Detail : json)
| LoopExhaustedEv (Detail : json)
| LoopNoProgressEv (Detail : json)
| GraphExpandedEv (OriginStep OriginKind : string) (FromVersion ToVersion Depth : Z) (Delta : json)
    (Readied Widened : list string)
| GuardTrippedEv (Guard StepID : string) (Current Cap : Z) (Unit Action : string)
| ApprovalRequestedEv (ApprovalID : uuid) (StepID : string) (Attempt : Z) (Title : string)
    (AllowedDecisions : list string) (AllowEdit : bool) (TimeoutAt : option time)
| ApprovalCancelledEv (ApprovalID : uuid) (StepID Reason : string)
| ApprovalDecidedEv (ApprovalID : uuid) (StepID : string) (Attempt : Z) (Decision : string)
    (Edited : bool) (Comment DecidedBy Source : string)
| ApprovalExpiredEv (ApprovalID : uuid) (StepID : string) (Attempt : Z)
    (Policy Decision Action : string) (TimeoutAt : option time)
| ApprovalNotifiedEv (ApprovalID : uuid) (StepID TargetHost : string) (Attempts StatusCode : Z)
| ApprovalNotificationFailedEv (ApprovalID : uuid) (StepID TargetHost : string) (Attempts : Z)
    (Reason : string).

Record Event : Type := mkEvent { ev_RunID : uuid; ev_Seq : Z; ev_Payload : Payload }.

(** A stored definition (definitions.go); the id is the text of its UUID. *)
Record WorkflowDefinition : Type := mkWorkflowDefinition {
  wd_ID : string; wd_Name : string; wd_Version : Z; wd_Spec : json }.

(** ** The database: one list of rows per table *)
Record DB : Type := mkDB {
  runs : list Run;
  run_steps : list RunStep;
  run_edges : list RunEdge;
  step_attempts : list StepAttempt;
  dead_letters : list DeadLetter;
  events : list Event;
  task_outbox : list TaskOutbox;
  approvals : list Approval;
  cost_ledger : list CostLedger;
  (** the [txState] buffer of the open transaction *)
  tx_events : list Event;
  workflow_definitions : list WorkflowDefinition
}.
#[export] Instance Eta_DB : Eta DB := λ d,
  mkDB (runs d) (run_steps d) (run_edges d) (step_attempts d) (dead_letters d) (events d)
    (task_outbox d) (approvals d) (cost_ledger d) (tx_events d) (workflow_definitions d).

(** ** Errors (errors.go) *)
Inductive ConflictReason : Type :=
| ConflictWrongStatus
| ConflictClaimMismatch
| ConflictGuardFailed
| ConflictRunNotRunning.
#[export] Instance ConflictReason_eq_dec : EqDecision ConflictReason.
Proof. solve_decision. Defined.

(** A status named by a [TransitionError]: the source uses one string type for
    run and step statuses. *)
Inductive Status : Type := RunSt (s : RunStatus) | StepSt (s : StepStatus) | DecidedSt.
#[export] Instance Status_eq_dec : EqDecision Status.
Proof. solve_decision. Defined.

Inductive Entity : Type := EntityRun | EntityStep.
#[export] Instance Entity_eq_dec : EqDecision Entity.
Proof. solve_decision. Defined.

Record TransitionError : Type := mkTransitionError {
  te_Entity : Entity;
  te_RunID : uuid;
  te_StepID : string;
  te_From : Status;
  te_To : Status;
  te_Reason : ConflictReason;
  te_CallerClaimID : option uuid;
  te_CurrentClaimID : option uuid
}.

Inductive Err : Type :=
| ErrZeroNow                               (** injected-clock violation *)
| ErrBadArgs (why : string)                (** a rejected argument *)
| ErrNotFound
| ErrTransition (te : TransitionError)     (** unwraps to ErrConflict *)
| ErrUnique (constraint : string)          (** ConflictError *)
| ErrCheck (constraint : string)           (** a CHECK violation *)
| ErrBookkeeping (step : string)           (** remaining_deps 0 with an unresolved edge *)
| ErrLoopEdge (ordinal : Z)
| ErrReResolve (ordinal : Z)               (** conflicting edge verdict *)
| ErrApprovalNotPending (id : uuid) (status : ApprovalStatus)
| ErrApprovalAlreadyExpired (id : uuid)
| ErrDecode (step : string)                (** a dag.DecodeError *)
| ErrEval (ordinal : Z)                    (** a CEL predicate failed *)
| ErrRunNotRequeueable
| ErrFenced (te : TransitionError)         (** the captured [fenced] conflict of a completion *)
| ErrExpansionRejected (v : ExpansionVerdict)  (** ExpansionRejectedError *)
| ErrGraphVersion (from : Z)               (** the graph version moved under the run lock *)
| ErrFuel                                  (** a loop ran out of fuel: shown never to happen *).

(** [errors.As(err, &te)] for a *TransitionError. *)
Definition is_conflict (e : Err) : bool :=
  match e with ErrTransition _ => true | _ => false end.

(** ** The transaction monad

    A statement sequence on one transaction: it reads and writes the database
    and either returns a value or fails.  A failure keeps the writes made so
    far: it is [WithTx] that rolls back, and a caller that drops the error goes
    on in the same transaction. *)
Inductive result (A : Type) : Type := Ok (a : A) | Fail (e : Err).
Arguments Ok {A} a.
Arguments Fail {A} e.

Definition Tx (A : Type) : Type := DB → result A * DB.

Definition ret {A} (a : A) : Tx A := λ d, (Ok a, d).
Definition throw {A} (e : Err) : Tx A := λ d, (Fail e, d).
Definition bind {A B} (m : Tx A) (k : A → Tx B) : Tx B := λ d,
  match m d with
  | (Ok a, d') => k a d'
  | (Fail e, d') => (Fail e, d')
  end.
(** [x, err := f()] where the caller inspects [err] itself. *)
Definition attempt {A} (m : Tx A) : Tx (result A) := λ d,
  match m d with (r, d') => (Ok r, d') end.
Definition get : Tx DB := λ d, (Ok d, d).
Definition put (d' : DB) : Tx unit := λ _, (Ok tt, d').

Declare Scope tx_scope.
Delimit Scope tx_scope with tx.
Notation "'let!' x := m 'in' k" := (bind m (λ x, k))
  (at level 10, x pattern, m at level 100, k at level 200) : tx_scope.
Notation "m ;; k" := (bind m (λ _, k)) (at level 100, right associativity) : tx_scope.
Notation "'when' b 'then' m" := (if b then m else ret tt)
  (at level 10, b at level 100, m at level 100) : tx_scope.
Open Scope tx_scope.

Definition guard (b : bool) (e : Err) : Tx unit := if b then ret tt else throw e.

Fixpoint for_each {A} (l : list A) (f : A → Tx unit) : Tx unit :=
  match l with
  | [] => ret tt
  | x :: l' => f x ;; for_each l' f
  end.

(** [WithTx]: commit iff the callback returned nil; on an error every write is
    undone.  The second component is what the event sink receives. *)
Definition WithTx {A} (fn : Tx A) (d : DB) : result A * DB * list Event :=
  match fn (d <| tx_events := [] |>) with
  | (Ok a, d') => (Ok a, d' <| tx_events := [] |>, tx_events d')
  | (Fail e, _) => (Fail e, d, [])
  end.

(** ** Primitive queries (queries/*.sql) *)

Definition is_run (r : uuid) (x : Run) : bool := bool_decide (run_ID x = r).
Definition of_run (r : uuid) (x : RunStep) : bool := bool_decide (step_RunID x = r).
Definition is_step (r : uuid) (s : string) (x : RunStep) : bool :=
  bool_decide (step_RunID x = r) && bool_decide (step_StepID x = s).
Definition is_edge (r : uuid) (o : Z) (x : RunEdge) : bool :=
  bool_decide (edge_RunID x = r) && bool_decide (edge_Ordinal x = o).
Definition is_attempt (r : uuid) (s : string) (n : Z) (x : StepAttempt) : bool :=
  bool_decide (att_RunID x = r) && bool_decide (att_StepID x = s) && bool_decide (att_AttemptNo x = n).
Definition is_dead_letter (r : uuid) (s : string) (x : DeadLetter) : bool :=
  bool_decide (dl_RunID x = r) && bool_decide (dl_StepID x = s).
Definition has_status (st : StepStatus) (x : RunStep) : bool := bool_decide (step_Status x = st).
Definition has_claim (c : uuid) (x : RunStep) : bool := bool_decide (step_ClaimID x = Some c).

(** GetRun and LockRun (the FOR UPDATE read) return the same row here: the
    transaction is the only writer while it holds the row lock. *)
Definition GetRun (r : uuid) : Tx Run :=
  let! d := get in
  match find (is_run r) (runs d) with Some x => ret x | None => throw ErrNotFound end.

Definition GetRunStep (r : uuid) (s : string) : Tx RunStep :=
  let! d := get in
  match find (is_step r s) (run_steps d) with Some x => ret x | None => throw ErrNotFound end.

Definition GetRunEdge (r : uuid) (o : Z) : Tx RunEdge :=
  let! d := get in
  match find (is_edge r o) (run_edges d) with Some x => ret x | None => throw ErrNotFound end.

(** A conditional UPDATE of one run row: [None] is pgx.ErrNoRows. *)
Definition update_run (r : uuid) (g : Run → bool) (f : Run → Run) : Tx (option Run) :=
  let! d := get in
  match update_first (λ x, is_run r x && g x) f (runs d) with
  | Some (x, l) => put (d <| runs := l |>) ;; ret (Some x)
  | None => ret None
  end.

(** A conditional UPDATE of one step row. *)
Definition update_step (r : uuid) (s : string) (g : RunStep → bool) (f : RunStep → RunStep)
    : Tx (option RunStep) :=
  let! d := get in
  match update_first (λ x, is_step r s x && g x) f (run_steps d) with
  | Some (x, l) => put (d <| run_steps := l |>) ;; ret (Some x)
  | None => ret None
  end.

(** A conditional UPDATE of one edge row. *)
Definition update_edge (r : uuid) (o : Z) (g : RunEdge → bool) (f : RunEdge → RunEdge)
    : Tx (option RunEdge) :=
  let! d := get in
  match update_first (λ x, is_edge r o x && g x) f (run_edges d) with
  | Some (x, l) => put (d <| run_edges := l |>) ;; ret (Some x)
  | None => ret None
  end.

(** INSERT INTO step_attempts: the primary key is (run_id, step_id, attempt_no). *)
Definition CreateStepAttempt (a : StepAttempt) : Tx StepAttempt :=
  let! d := get in
  if existsb (is_attempt (att_RunID a) (att_StepID a) (att_AttemptNo a)) (step_attempts d)
  then throw (ErrUnique "step_attempts_pkey")
  else put (d <| step_attempts := step_attempts d ++ [a] |>) ;; ret a.

(** The classes the [dead_letters_class_check] constraint admits. *)
Definition dead_letter_class_ok (c : option AttemptOutcome) : bool :=
  match c with
  | None | Some AttemptOutcomeTransient | Some AttemptOutcomePermanent
  | Some AttemptOutcomeTimeout | Some AttemptOutcomeCancelled
  | Some AttemptOutcomeValidationFailed => true
  | _ => false
  end.

(** MAX over the step's dead_letters rows, COALESCEd to 0. *)
Definition max_dead_letter (f : DeadLetter → Z) (r : uuid) (s : string) (l : list DeadLetter) : Z :=
  foldr (λ x m, if is_dead_letter r s x then Z.max (f x) m else m) 0 l.
#[global] Arguments max_dead_letter : simpl never.

(** CreateDeadLetter: the per-step seq is COALESCE(MAX(seq), 0) + 1. *)
Definition CreateDeadLetter (r : uuid) (s : string) (src : DeadLetterSource)
    (class : option AttemptOutcome) (err payload : option json) (attempts : Z) (now : time)
    : Tx DeadLetter :=
  let! d := get in
  guard (dead_letter_class_ok class) (ErrCheck "dead_letters_class_check") ;;
  let row := mkDeadLetter r s (max_dead_letter dl_Seq r s (dead_letters d) + 1) src class err
               payload attempts now in
  put (d <| dead_letters := dead_letters d ++ [row] |>) ;; ret row.

(** Outbox().CreateTraced / Create. *)
Definition nullableText (s : string) : option string :=
  if bool_decide (s = "") then None else Some s.

Definition CreateOutboxTask (r : uuid) (s : string) (reason : OutboxReason) (tr : TraceContext)
    : Tx unit :=
  let! d := get in
  put (d <| task_outbox := task_outbox d ++
         [mkTaskOutbox r s reason (nullableText (Parent tr)) (nullableText (State tr))] |>).

Definition noTrace : TraceContext := mkTraceContext "" "".

(** Steps().ListByRun: ORDER BY step_id. *)
Definition by_step_id (x y : RunStep) : Prop := String.le (step_StepID x) (step_StepID y).
#[export] Instance by_step_id_dec : RelDecision by_step_id.
Proof. intros x y. unfold by_step_id. apply _. Defined.
Definition steps_of (r : uuid) (d : DB) : list RunStep := merge_sort by_step_id (List.filter (of_run r) (run_steps d)).
Definition ListByRun (r : uuid) : Tx (list RunStep) := let! d := get in ret (steps_of r d).
(** ListEdgesByRun, ListEdgesFromStep: the ordinals of a run are allocated in
    the order of the table. *)
Definition ListEdgesByRun (r : uuid) : Tx (list RunEdge) :=
  let! d := get in ret (List.filter (λ e, bool_decide (edge_RunID e = r)) (run_edges d)).
Definition ListEdgesFromStep (r : uuid) (s : string) : Tx (list RunEdge) :=
  let! d := get in
  ret (List.filter (λ e, bool_decide (edge_RunID e = r) && bool_decide (edge_FromStep e = s))
         (run_edges d)).

(** ListReadyStepsWithoutOutbox: ready steps with no pending dispatch row. *)
Definition ListReadyWithoutOutbox (r : uuid) : Tx (list string) :=
  let! d := get in
  ret (map step_StepID
        (List.filter
          (λ x, of_run r x && has_status StepStatusReady x &&
                negb (existsb (λ o, bool_decide (ob_RunID o = r) &&
                                    bool_decide (ob_StepID o = step_StepID x)) (task_outbox d)))
          (run_steps d))).

(** CountCountedFailures / CountValidationFailures: the durable retry budgets,
    counted from the latest dead_letters baseline. *)
Definition CountOutcomes (ok : AttemptOutcome → bool) (r : uuid) (s : string) (d : DB) : Z :=
  count (λ a, bool_decide (att_RunID a = r) && bool_decide (att_StepID a = s) &&
              match att_Outcome a with Some o => ok o | None => false end &&
              (max_dead_letter dl_AttemptsAtDeath r s (dead_letters d) <? att_AttemptNo a))
        (step_attempts d).
Definition CountCountedFailures (r : uuid) (s : string) : Tx Z :=
  let! d := get in
  ret (CountOutcomes (λ o, bool_decide (o = AttemptOutcomeTransient) ||
                           bool_decide (o = AttemptOutcomeTimeout)) r s d).
Definition CountValidationFailures (r : uuid) (s : string) : Tx Z :=
  let! d := get in
  ret (CountOutcomes (λ o, bool_decide (o = AttemptOutcomeValidationFailed)) r s d).
