(* ===== verification/Config.v ===== *)
(** internal/dag: the typed per-type step configs (stepconfig.go), the envelope
    policies of a step (cachepolicy.go, budget.go, validation.go, blackboard.go,
    context.go), and their JSON encoding.

    An absent pointer, RawMessage or nil list is [None]; an int field whose zero
    value means an absent key is a plain [Z]; a float64 is the rational it
    denotes. *)
From Stdlib Require Import QArith.
From S2P Require Import Prelude StoreModel.
Open Scope Z_scope.

(** ** The step-type catalog (definition.go) *)

Definition StepLLM : string := "llm".
Definition StepTool : string := "tool".
Definition StepRetrieve : string := "retrieve".
Definition StepMap : string := "map".
Definition StepGather : string := "gather".
Definition StepPlanner : string := "planner".
Definition StepAgent : string := "agent".
Definition StepHumanApproval : string := "human_approval".
Definition StepJoin : string := "join".
Definition StepBranch : string := "branch".
Definition StepNoop : string := "noop".
Definition StepEcho : string := "echo".
Definition StepSleep : string := "sleep".
Definition StepFailNTimes : string := "fail_n_times".
Definition StepCounter : string := "counter".
Definition StepEffectfulEcho : string := "effectful_echo".
Definition StepBlackboardWrite : string := "blackboard_write".

(** The keys of [stepConfigTypes]. *)
Definition stepConfigTypes : list string :=
  [StepLLM; StepTool; StepRetrieve; StepMap; StepGather; StepPlanner; StepAgent; StepHumanApproval;
   StepJoin; StepBranch; StepNoop; StepEcho; StepSleep; StepFailNTimes; StepCounter; StepEffectfulEcho;
   StepBlackboardWrite].

Definition IsLLMFamily (t : string) : bool :=
  bool_decide (t = StepLLM) || bool_decide (t = StepPlanner) || bool_decide (t = StepAgent).

(** JoinMode, ApprovalDecision, the timeout and reject policies, the item-failure
    policies, the output formats. *)
Definition JoinAll : string := "all".
Definition JoinAny : string := "any".
Definition ApprovalApprove : string := "approve".
Definition ApprovalReject : string := "reject".
Definition ApprovalTimeoutReject : string := "reject".
Definition ApprovalTimeoutApprove : string := "approve".
Definition ApprovalTimeoutPark : string := "park".
Definition ApprovalRejectFail : string := "fail".
Definition ApprovalRejectRoute : string := "route".
Definition ItemFailFast : string := "fail_fast".
Definition ItemCollectErrors : string := "collect_errors".
Definition OutputFormatJSON : string := "json".
Definition OutputFormatJSONSchema : string := "json_schema".
Definition OutputFormatAuto : string := "auto".
Definition OutputFormatRepairOnly : string := "repair_only".

(** ** Step configs (stepconfig.go) *)

Record LLMMessage : Type := mkLLMMessage { msg_Role : string; msg_Content : string }.

Record OutputFormat : Type := mkOutputFormat {
  of_Type : string; of_Schema : option json; of_Mode : string }.

Record ModelFallback : Type := mkModelFallback { mf_Model : string; mf_AtBudgetFraction : option Q }.

Record LLMConfig : Type := mkLLMConfig {
  llm_Model : string;
  llm_System : string;
  llm_Prompt : string;
  llm_Messages : list LLMMessage;
  llm_MaxTokens : Z;
  llm_Temperature : option Q;
  llm_ModelFallbacks : list ModelFallback;
  llm_OutputFormat : option OutputFormat
}.

Record ToolConfig : Type := mkToolConfig { tool_Tool : string; tool_Input : option json }.

Record RetrieveConfig : Type := mkRetrieveConfig { rt_Retriever : string; rt_Query : string; rt_TopK : Z }.

Record MapConfig : Type := mkMapConfig {
  map_Items : option json; map_Body : string; map_MaxItems : Z; map_OnItemFailure : string }.

Record GatherConfig : Type := mkGatherConfig { ga_Items : option json }.

Record PlannerConfig : Type := mkPlannerConfig {
  pn_Model : string;
  pn_Prompt : string;
  pn_Messages : list LLMMessage;
  pn_MaxTokens : Z;
  pn_Temperature : option Q;
  pn_MaxAddedSteps : Z
}.

(** A nil toolset is [None]; an explicit list, even empty, is [Some]. *)
Record AgentConfig : Type := mkAgentConfig {
  ac_Agent : string;
  ac_System : string;
  ac_Model : string;
  ac_Prompt : string;
  ac_Messages : list LLMMessage;
  ac_MaxTokens : Z;
  ac_Temperature : option Q;
  ac_ModelFallbacks : list ModelFallback;
  ac_OutputFormat : option OutputFormat;
  ac_Tools : option (list string);
  ac_Role : string
}.
#[export] Instance Eta_AgentConfig : Eta AgentConfig := λ a,
  mkAgentConfig (ac_Agent a) (ac_System a) (ac_Model a) (ac_Prompt a) (ac_Messages a) (ac_MaxTokens a)
    (ac_Temperature a) (ac_ModelFallbacks a) (ac_OutputFormat a) (ac_Tools a) (ac_Role a).

Record HumanApprovalConfig : Type := mkHumanApprovalConfig {
  ha_Title : string;
  ha_Description : string;
  ha_Payload : option json;
  ha_AllowedDecisions : list string;
  ha_AllowEdit : bool;
  ha_EditSchema : option json;
  ha_Timeout : string;
  ha_OnTimeout : string;
  ha_OnReject : string
}.

Record EffectfulEchoConfig : Type := mkEffectfulEchoConfig {
  ee_Path : string; ee_Input : option json; ee_FailTimes : Z }.

Record BlackboardWriteConfig : Type := mkBlackboardWriteConfig {
  bw_Key : string;
  bw_Value : option json;
  bw_Tags : list string;
  bw_ExpectedVersion : option Z;
  bw_ReadKey : string
}.

(** StepConfig: one constructor per registered config struct. *)
Inductive StepConfig : Type :=
| LLMConfigC (c : LLMConfig)
| ToolConfigC (c : ToolConfig)
| RetrieveConfigC (c : RetrieveConfig)
| MapConfigC (c : MapConfig)
| GatherConfigC (c : GatherConfig)
| PlannerConfigC (c : PlannerConfig)
| AgentConfigC (c : AgentConfig)
| HumanApprovalConfigC (c : HumanApprovalConfig)
| JoinConfigC (Mode : string)
| BranchConfigC (Input : option json)
| NoopConfigC
| EchoConfigC (Input : option json)
| SleepConfigC (Duration : string)
| FailNTimesConfigC (N : Z)
| CounterConfigC (Path : string)
| EffectfulEchoConfigC (c : EffectfulEchoConfig)
| BlackboardWriteConfigC (c : BlackboardWriteConfig).

(** ** Envelope policies *)

(** CachePolicy (cachepolicy.go). *)
Record CachePolicy : Type := mkCachePolicy { cp_Mode : string; cp_TTL : string; cp_Scope : string }.

(** StepBudget (budget.go). *)
Record StepBudget : Type := mkStepBudget { sb_MaxUSD : option Q; sb_MaxTokens : Z }.

(** ValidatorSpec, FeedbackPolicy, ValidationPolicy (validation.go). *)
Record ValidatorSpec : Type := mkValidatorSpec {
  vs_Name : string; vs_Config : option json; vs_Target : string }.
Record FeedbackPolicy : Type := mkFeedbackPolicy { fb_Template : string; fb_MaxOutputChars : Z }.
Record ValidationPolicy : Type := mkValidationPolicy {
  vp_Validators : list ValidatorSpec; vp_MaxAttempts : Z; vp_Feedback : option FeedbackPolicy }.

Definition EffectiveMaxAttempts (p : option ValidationPolicy) : Z :=
  match p with
  | None => 1
  | Some p => if vp_MaxAttempts p <=? 0 then 1 else vp_MaxAttempts p
  end.

(** BlackboardWrite, BlackboardPolicy (blackboard.go). *)
Record BlackboardWrite : Type := mkBlackboardWrite {
  bbw_Key : string; bbw_From : string; bbw_Tags : list string; bbw_Pinned : bool }.
Record BlackboardPolicy : Type := mkBlackboardPolicy { bp_Write : list BlackboardWrite }.

(** Context sources and compaction strategies (context.go). *)
Definition SourceStepOutput : string := "step_output".
Definition SourceBlackboard : string := "blackboard".
Definition SourceRetrieval : string := "retrieval".
Definition SourceLiteral : string := "literal".
Definition SourceThread : string := "thread".
Definition DropLowestPriority : string := "drop_lowest_priority".
Definition TruncateOldest : string := "truncate_oldest".
Definition SlidingWindow : string := "sliding_window".
Definition SummarizeStrategy : string := "summarize".

Record CompactionStrategy : Type := mkCompactionStrategy {
  cs_Strategy : string;
  cs_N : option Z;
  cs_MinTokens : option Z;
  cs_Model : string;
  cs_Key : string;
  cs_MaxTokens : option Z;
  cs_Timeout : string
}.

Record ContextSource : Type := mkContextSource {
  src_Kind : string;
  src_Name : string;
  src_Step : string;
  src_Path : string;
  src_Key : string;
  src_Role : string;
  src_Tags : list string;
  src_Retriever : string;
  src_Query : string;
  src_TopK : option Z;
  src_Text : string;
  src_MaxTokens : option Z;
  src_Pinned : bool;
  src_Priority : option Z;
  src_OnMissing : string
}.

Record ContextSpec : Type := mkContextSpec {
  ctx_Sources : list ContextSource; ctx_BudgetTokens : option Z; ctx_Compaction : list CompactionStrategy }.

(** ** JSON encoding: the struct tags *)

Definition field (k : string) (v : json) : list (string * json) := [(k, v)].
Definition omit_str (k s : string) : list (string * json) :=
  if bool_decide (s = "") then [] else [(k, JStr s)].
Definition omit_int (k : string) (n : Z) : list (string * json) := if n =? 0 then [] else [(k, JNum n)].
Definition omit_bool (k : string) (b : bool) : list (string * json) := if b then [(k, JBool b)] else [].
Definition omit_opt (k : string) (o : option json) : list (string * json) :=
  match o with None => [] | Some v => [(k, v)] end.
Definition omit_list (k : string) (l : list json) : list (string * json) :=
  match l with [] => [] | _ => [(k, JArr l)] end.

Definition marshalMessage (m : LLMMessage) : json :=
  JObj (omit_str "role" (msg_Role m) ++ omit_str "content" (msg_Content m)).
Definition marshalOutputFormat (o : OutputFormat) : json :=
  JObj (omit_str "type" (of_Type o) ++ omit_opt "schema" (of_Schema o) ++ omit_str "mode" (of_Mode o)).
Definition marshalFallback (m : ModelFallback) : json :=
  JObj (omit_str "model" (mf_Model m) ++ omit_opt "at_budget_fraction" (JFloat <$> mf_AtBudgetFraction m)).

Definition marshalConfig (c : StepConfig) : json :=
  match c with
  | LLMConfigC c =>
      JObj (omit_str "model" (llm_Model c) ++ omit_str "system" (llm_System c) ++
            omit_str "prompt" (llm_Prompt c) ++ omit_list "messages" (marshalMessage <$> llm_Messages c) ++
            omit_int "max_tokens" (llm_MaxTokens c) ++ omit_opt "temperature" (JFloat <$> llm_Temperature c) ++
            omit_list "model_fallbacks" (marshalFallback <$> llm_ModelFallbacks c) ++
            omit_opt "output_format" (marshalOutputFormat <$> llm_OutputFormat c))
  | ToolConfigC c => JObj (omit_str "tool" (tool_Tool c) ++ omit_opt "input" (tool_Input c))
  | RetrieveConfigC c =>
      JObj (omit_str "retriever" (rt_Retriever c) ++ omit_str "query" (rt_Query c) ++ omit_int "top_k" (rt_TopK c))
  | MapConfigC c =>
      JObj (omit_opt "items" (map_Items c) ++ omit_str "body" (map_Body c) ++
            omit_int "max_items" (map_MaxItems c) ++ omit_str "on_item_failure" (map_OnItemFailure c))
  | GatherConfigC c => JObj (omit_opt "items" (ga_Items c))
  | PlannerConfigC c =>
      JObj (omit_str "model" (pn_Model c) ++ omit_str "prompt" (pn_Prompt c) ++
            omit_list "messages" (marshalMessage <$> pn_Messages c) ++ omit_int "max_tokens" (pn_MaxTokens c) ++
            omit_opt "temperature" (JFloat <$> pn_Temperature c) ++ omit_int "max_added_steps" (pn_MaxAddedSteps c))
  | AgentConfigC a =>
      JObj (omit_str "agent" (ac_Agent a) ++ omit_str "system" (ac_System a) ++
            omit_str "model" (ac_Model a) ++ omit_str "prompt" (ac_Prompt a) ++
            omit_list "messages" (marshalMessage <$> ac_Messages a) ++ omit_int "max_tokens" (ac_MaxTokens a) ++
            omit_opt "temperature" (JFloat <$> ac_Temperature a) ++
            omit_list "model_fallbacks" (marshalFallback <$> ac_ModelFallbacks a) ++
            omit_opt "output_format" (marshalOutputFormat <$> ac_OutputFormat a) ++
            omit_list "tools" (JStr <$> default [] (ac_Tools a)) ++ omit_str "role" (ac_Role a))
  | HumanApprovalConfigC c =>
      JObj (omit_str "title" (ha_Title c) ++ omit_str "description" (ha_Description c) ++
            omit_opt "payload" (ha_Payload c) ++ omit_list "allowed_decisions" (JStr <$> ha_AllowedDecisions c) ++
            omit_bool "allow_edit" (ha_AllowEdit c) ++ omit_opt "edit_schema" (ha_EditSchema c) ++
            omit_str "timeout" (ha_Timeout c) ++ omit_str "on_timeout" (ha_OnTimeout c) ++
            omit_str "on_reject" (ha_OnReject c))
  | JoinConfigC m => JObj (omit_str "mode" m)
  | BranchConfigC i => JObj (omit_opt "input" i)
  | NoopConfigC => JObj []
  | EchoConfigC i => JObj (omit_opt "input" i)
  | SleepConfigC d => JObj (omit_str "duration" d)
  | FailNTimesConfigC n => JObj (omit_int "n" n)
  | CounterConfigC p => JObj (omit_str "path" p)
  | EffectfulEchoConfigC c =>
      JObj (omit_str "path" (ee_Path c) ++ omit_opt "input" (ee_Input c) ++ omit_int "fail_times" (ee_FailTimes c))
  | BlackboardWriteConfigC c =>
      JObj (omit_str "key" (bw_Key c) ++ omit_opt "value" (bw_Value c) ++ omit_list "tags" (JStr <$> bw_Tags c) ++
            omit_opt "expected_version" (JNum <$> bw_ExpectedVersion c) ++ omit_str "read_key" (bw_ReadKey c))
  end.

Definition marshalCache (c : CachePolicy) : json :=
  JObj (omit_str "mode" (cp_Mode c) ++ omit_str "ttl" (cp_TTL c) ++ omit_str "scope" (cp_Scope c)).
Definition marshalBudget (b : StepBudget) : json :=
  JObj (omit_opt "max_usd" (JFloat <$> sb_MaxUSD b) ++ omit_int "max_tokens" (sb_MaxTokens b)).
Definition marshalValidator (v : ValidatorSpec) : json :=
  JObj (field "name" (JStr (vs_Name v)) ++ omit_opt "config" (vs_Config v) ++ omit_str "target" (vs_Target v)).
Definition marshalFeedback (f : FeedbackPolicy) : json :=
  JObj (omit_str "template" (fb_Template f) ++ omit_int "max_output_chars" (fb_MaxOutputChars f)).
Definition marshalValidation (v : ValidationPolicy) : json :=
  JObj (omit_list "validators" (marshalValidator <$> vp_Validators v) ++
        omit_int "max_attempts" (vp_MaxAttempts v) ++ omit_opt "feedback" (marshalFeedback <$> vp_Feedback v)).
Definition marshalWrite (w : BlackboardWrite) : json :=
  JObj (field "key" (JStr (bbw_Key w)) ++ omit_str "from" (bbw_From w) ++
        omit_list "tags" (JStr <$> bbw_Tags w) ++ omit_bool "pinned" (bbw_Pinned w)).
Definition marshalBlackboard (b : BlackboardPolicy) : json :=
  JObj (omit_list "write" (marshalWrite <$> bp_Write b)).
Definition marshalStrategy (c : CompactionStrategy) : json :=
  JObj (field "strategy" (JStr (cs_Strategy c)) ++ omit_opt "n" (JNum <$> cs_N c) ++
        omit_opt "min_tokens" (JNum <$> cs_MinTokens c) ++ omit_str "model" (cs_Model c) ++
        omit_str "key" (cs_Key c) ++ omit_opt "max_tokens" (JNum <$> cs_MaxTokens c) ++
        omit_str "timeout" (cs_Timeout c)).
Definition marshalSource (s : ContextSource) : json :=
  JObj (field "kind" (JStr (src_Kind s)) ++ omit_str "name" (src_Name s) ++ omit_str "step" (src_Step s) ++
        omit_str "path" (src_Path s) ++ omit_str "key" (src_Key s) ++ omit_str "role" (src_Role s) ++
        omit_list "tags" (JStr <$> src_Tags s) ++ omit_str "retriever" (src_Retriever s) ++
        omit_str "query" (src_Query s) ++ omit_opt "top_k" (JNum <$> src_TopK s) ++ omit_str "text" (src_Text s) ++
        omit_opt "max_tokens" (JNum <$> src_MaxTokens s) ++ omit_bool "pinned" (src_Pinned s) ++
        omit_opt "priority" (JNum <$> src_Priority s) ++ omit_str "on_missing" (src_OnMissing s)).
Definition marshalContext (c : ContextSpec) : json :=
  JObj (omit_list "sources" (marshalSource <$> ctx_Sources c) ++
        omit_opt "budget_tokens" (JNum <$> ctx_BudgetTokens c) ++
        omit_list "compaction" (marshalStrategy <$> ctx_Compaction c)).
