(* ===== verification/Template.v ===== *)
(** internal/dag/template.go: the `${{ ... }}` expressions of a step config: their
    segmentation, the rewriting of references, and the references a config
    makes; with the id grammars of validate.go. *)
From Stdlib Require Import QArith Ascii.
From S2P Require Import Prelude GoStd StoreModel.
Open Scope Z_scope.

(** ** Step ids (validate.go: stepIDRe, instanceStepIDRe) *)

Definition id_char (c : ascii) : bool :=
  is_lower c || is_digit c || bool_decide (c = "_"%char) || bool_decide (c = "-"%char).
(** [^[a-z][a-z0-9_-]{0,63}$] *)
Definition stepIDRe (id : string) : bool :=
  match id with
  | EmptyString => false
  | String c id' => is_lower c && all_chars id_char id' && (String.length id' <=? 63)%nat
  end.
Definition suffix_char (c : ascii) : bool := is_lower c || is_digit c || bool_decide (c = "_"%char).
(** [^[a-z][a-z0-9_-]{0,63}(#[a-z0-9_]+)+$] *)
Definition instanceStepIDRe (id : string) : bool :=
  match Split id "#" with
  | base :: (_ :: _) as suffixes =>
      stepIDRe base && forallb (λ s, negb (bool_decide (s = "")) && all_chars suffix_char s) suffixes
  | _ => false
  end.
Definition validInstanceOrStepID (id : string) : bool := stepIDRe id || instanceStepIDRe id.

(** ** Delimiters and string literals *)

Definition tmplLeftDelim : string := "${{".
Definition tmplRightDelim : string := "}}".
Definition HasTemplate (s : string) : bool := Contains s tmplLeftDelim.

(** The errors that are not reference errors. *)
Inductive TemplateMsg : Type :=
| UnterminatedString | UnterminatedRaw | UnterminatedExpr
| Variables | Declarations | ControlStructure (tok : string) | UnknownFunction (tok : string) | ParseFailure.

(** skipQuoted: the literal's inner text and what follows the closing quote. *)
Fixpoint skipQuoted (quote : ascii) (s : string) : option (string * string) :=
  match s with
  | EmptyString => None
  | String c s' =>
      if bool_decide (c = "\"%char) then
        match s' with
        | EmptyString => None
        | String c' s'' => (λ '(a, b), (String c (String c' a), b)) <$> skipQuoted quote s''
        end
      else if bool_decide (c = quote) then Some ("", s')
      else (λ '(a, b), (String c a, b)) <$> skipQuoted quote s'
  end.

Definition dquote : ascii := ascii_of_nat 34.
Definition squote : ascii := ascii_of_nat 39.
Definition bquote : ascii := ascii_of_nat 96.
Definition one (c : ascii) : string := String c "".

(** ** Segments *)

Record tmplSegment : Type := mkSegment { seg_text : string; isAction : bool }.

(** findActionEnd: the expression before the closing delimiter and the text
    after it.  Every round consumes a byte. *)
Fixpoint findActionEnd (fuel : nat) (body : string) : TemplateMsg + (string * string) :=
  match fuel, body with
  | S fuel', String c rest =>
      let continue (pre : string) (r : string) :=
        match findActionEnd fuel' r with
        | inl e => inl e
        | inr (a, b) => inr (pre +:+ a, b)
        end in
      if bool_decide (c = "}"%char) then
        if HasPrefix body tmplRightDelim then inr ("", drop_s 2 body) else continue (one c) rest
      else if bool_decide (c = dquote) || bool_decide (c = squote) then
        match skipQuoted c rest with
        | None => inl UnterminatedString
        | Some (lit, r) => continue (String c lit +:+ one c) r
        end
      else if bool_decide (c = bquote) then
        match Cut rest (one bquote) with
        | None => inl UnterminatedRaw
        | Some (lit, r) => continue (String c lit +:+ one c) r
        end
      else continue (one c) rest
  | _, _ => inl UnterminatedExpr
  end.

Definition literal (text : string) : list tmplSegment :=
  if bool_decide (text = "") then [] else [mkSegment text false].

(** splitTemplate: every round consumes an opening delimiter. *)
Fixpoint split_template (fuel : nat) (rest : string) : TemplateMsg + list tmplSegment :=
  match Cut rest tmplLeftDelim with
  | None => inr (literal rest)
  | Some (lit, body) =>
      match fuel with
      | O => inl UnterminatedExpr
      | S fuel' =>
          match findActionEnd (String.length body) body with
          | inl e => inl e
          | inr (expr, rest') =>
              match split_template fuel' rest' with
              | inl e => inl e
              | inr segs => inr (literal lit ++ mkSegment expr true :: segs)
              end
          end
      end
  end.
Definition splitTemplate (src : string) : TemplateMsg + list tmplSegment :=
  split_template (String.length src) src.

(** ** References *)

Record TemplateRef : Type := mkTemplateRef {
  ConfigPath : string;
  Raw : string;
  StepID : string;
  ParamKey : string;
  Lenient : bool;
  ItemRef : bool
}.

Inductive tmplErr : Type :=
| TemplateError (path : string) (msg : TemplateMsg)
| TemplateRefError (path ref : string).

Definition isRefChar (c : ascii) : bool :=
  bool_decide (c = "."%char) || bool_decide (c = "_"%char) || bool_decide (c = "-"%char) ||
  bool_decide (c = "#"%char) || is_lower c || is_upper c || is_digit c.
Definition isSpace (c : ascii) : bool :=
  bool_decide (c = " "%char) || bool_decide (code c = 9) || bool_decide (code c = 10) || bool_decide (code c = 13).

Definition tmplKeywords : list string :=
  ["if"; "else"; "end"; "range"; "with"; "template"; "block"; "define"; "break"; "continue"].
Definition tmplAllowedIdents : list string := ["get"; "default"; "toJson"; "truncate"; "true"; "false"; "nil"].

Definition has_dot (tok : string) : bool := Contains tok ".".
Definition isIdent (tok : string) : bool :=
  negb (has_dot tok) &&
  match tok with
  | EmptyString => false
  | String c _ => bool_decide (c = "_"%char) || is_lower c || is_upper c
  end.

(** *** Number literals: strconv.ParseFloat(tok, 64) succeeds *)

Definition hex_digit (c : ascii) : option Z :=
  if is_digit c then Some (code c - 48)
  else if between "a" c "f" then Some (code c - 87)
  else if between "A" c "F" then Some (code c - 55) else None.
Definition digit_in (base : Z) (c : ascii) : option Z :=
  match hex_digit c with Some d => if d <? base then Some d else None | None => None end.

(** The mantissa: digits (underscores skipped) with at most one period; returns
    the integer of the digits, the number of digits after the period, and
    whether there was a digit. *)
Fixpoint mantissa (base : Z) (s : string) (m frac : Z) (dot some : bool) : Z * Z * bool * string :=
  match s with
  | String c s' =>
      if bool_decide (c = "_"%char) then mantissa base s' m frac dot some
      else if bool_decide (c = "."%char) then
        if dot then (m, frac, some, s) else mantissa base s' m frac true some
      else match digit_in base c with
           | Some d => mantissa base s' (m * base + d) (if dot then frac + 1 else frac) dot true
           | None => (m, frac, some, s)
           end
  | EmptyString => (m, frac, some, s)
  end.
(** Exponent digits; the value stops growing at 10000. *)
Fixpoint exponent (s : string) (e : Z) : Z * string :=
  match s with
  | String c s' =>
      if bool_decide (c = "_"%char) then exponent s' e
      else if is_digit c then exponent s' (if e <? 10000 then e * 10 + (code c - 48) else e)
      else (e, s)
  | EmptyString => (e, s)
  end.
(** underscoreOK: underscores only between digits (a base prefix counts as one). *)
Fixpoint underscores_ok (hex : bool) (saw : ascii) (s : string) : bool :=
  match s with
  | EmptyString => negb (bool_decide (saw = "_"%char))
  | String c s' =>
      if is_digit c || (hex && bool_decide (is_Some (hex_digit c))) then underscores_ok hex "0" s'
      else if bool_decide (c = "_"%char) then bool_decide (saw = "0"%char) && underscores_ok hex "_" s'
      else negb (bool_decide (saw = "_"%char)) && underscores_ok hex "!" s'
  end.
Definition is_hex_prefix (s : string) : option string :=
  match s with
  | String "0" (String x (String _ _ as s')) =>
      if bool_decide (x = "x"%char) || bool_decide (x = "X"%char) then Some s' else None
  | _ => None
  end.
(** The least value that rounds to infinity. *)
Definition float_overflow : Z := 2 ^ 1024 - 2 ^ 970.
Definition in_range (m base e : Z) : bool :=
  if 0 <=? e then m * base ^ e <? float_overflow else m <? float_overflow * base ^ (- e).

Definition parses_float (tok : string) : bool :=
  let s := match tok with String "-" s' | String "+" s' => s' | _ => tok end in
  let '(base, body) := match is_hex_prefix s with Some b => (16, b) | None => (10, s) end in
  let '(m, frac, some, r) := mantissa base body 0 0 false false in
  let expChars := if base =? 16 then ("p"%char, "P"%char) else ("e"%char, "E"%char) in
  let ebase := if base =? 16 then 2 else 10 in
  let scale := if base =? 16 then 4 * frac else frac in
  let under := if base =? 16 then underscores_ok true "0" body else underscores_ok false "^" s in
  some && under &&
  match r with
  | EmptyString => negb (base =? 16) && in_range m ebase (- scale)
  | String c r' =>
      (bool_decide (c = expChars.1) || bool_decide (c = expChars.2)) &&
      let '(neg, r'') := match r' with String "-" x => (true, x) | String "+" x => (false, x) | _ => (false, r') end in
      match r'' with
      | String d _ => is_digit d
      | EmptyString => false
      end &&
      let '(e, rest) := exponent r'' 0 in
      bool_decide (rest = "") && in_range m ebase ((if (neg : bool) then - e else e) - scale)
  end.

Definition isRefToken (tok : string) : bool :=
  if bool_decide (tok = "steps") || bool_decide (tok = "run") || bool_decide (tok = "item") ||
     bool_decide (tok = "item_index") || HasPrefix tok "steps." || HasPrefix tok "run." || HasPrefix tok "item."
  then true
  else has_dot tok && negb (parses_float tok).

(** parseRef. *)
Definition parseRef (tok path : string) : tmplErr + TemplateRef :=
  let segs := Split tok "." in
  let bad := inl (TemplateRefError path tok) in
  if existsb (λ s, bool_decide (s = "")) segs then bad
  else match segs with
       | [] => bad
       | root :: rest =>
           if bool_decide (root = "steps") then
             match rest with
             | id :: out :: _ =>
                 if bool_decide (out = "output") && validInstanceOrStepID id
                 then inr (mkTemplateRef path tok id "" false false) else bad
             | _ => bad
             end
           else if bool_decide (root = "item") then inr (mkTemplateRef path tok "" "" false true)
           else if bool_decide (root = "item_index") then
             match rest with [] => inr (mkTemplateRef path tok "" "" false true) | _ => bad end
           else if bool_decide (root = "run") then
             match rest with
             | params :: rest' =>
                 if bool_decide (params = "params")
                 then inr (mkTemplateRef path tok "" (default "" (head rest')) false false) else bad
             | [] => bad
             end
           else bad
       end.

Definition literalRef (lit path : string) : option TemplateRef :=
  if HasPrefix lit "steps." && all_chars isRefChar lit then
    match parseRef lit path with
    | inl _ => None
    | inr r => Some (mkTemplateRef (ConfigPath r) (Raw r) (StepID r) (ParamKey r) true (ItemRef r))
    end
  else None.

(** ** Rewriting an expression *)

(** A piece of the rewritten expression: a string literal (by its authored text; a
    single-quoted one is re-emitted as the double-quoted [unquoteSingle] of it), a
    strict lookup, a word or another byte. *)
Inductive piece : Type :=
| PDouble (lit : string) | PSingle (lit : string) | PRaw (lit : string)
| PRef (tok : string) | PWord (tok : string) | PByte (c : ascii).

Fixpoint unquoteSingle (lit : string) : string :=
  match lit with
  | String c lit' =>
      if bool_decide (c = "\"%char) then
        match lit' with
        | String c' lit'' =>
            if bool_decide (c' = squote) || bool_decide (c' = "\"%char)
            then String c' (unquoteSingle lit'') else String c (unquoteSingle lit')
        | EmptyString => lit
        end
      else String c (unquoteSingle lit')
  | EmptyString => ""
  end.

Fixpoint ref_span (s : string) : string * string :=
  match s with
  | String c s' => if isRefChar c then let '(a, b) := ref_span s' in (String c a, b) else ("", s)
  | EmptyString => ("", "")
  end.

(** rewriteExpr: every round consumes a byte. *)
Fixpoint rewrite_expr (fuel : nat) (expr path : string) (first : bool)
    : tmplErr + (list piece * list TemplateRef) :=
  match fuel, expr with
  | _, EmptyString => inr ([], [])
  | O, _ => inl (TemplateError path UnterminatedExpr)
  | S fuel', String c rest =>
      let err m := inl (TemplateError path m) in
      let continue (p : piece) (refs : list TemplateRef) (r : string) (first' : bool) :=
        match rewrite_expr fuel' r path first' with
        | inl e => inl e
        | inr (ps, rs) => inr (p :: ps, refs ++ rs)
        end in
      let refs_of lit := match literalRef lit path with Some r => [r] | None => [] end in
      if bool_decide (c = dquote) then
        match skipQuoted c rest with
        | None => err UnterminatedString
        | Some (lit, r) => continue (PDouble lit) (refs_of lit) r false
        end
      else if bool_decide (c = squote) then
        match skipQuoted c rest with
        | None => err UnterminatedString
        | Some (lit, r) => continue (PSingle lit) (refs_of (unquoteSingle lit)) r false
        end
      else if bool_decide (c = bquote) then
        match Cut rest (one bquote) with
        | None => err UnterminatedRaw
        | Some (lit, r) => continue (PRaw lit) (refs_of lit) r false
        end
      else if bool_decide (c = "$"%char) then err Variables
      else if bool_decide (c = ":"%char) && HasPrefix rest "=" then err Declarations
      else if isRefChar c then
        let '(tok, r) := ref_span expr in
        if first && bool_decide (tok ∈ tmplKeywords) then err (ControlStructure tok)
        else if isRefToken tok then
          match parseRef tok path with
          | inl e => inl e
          | inr ref => continue (PRef tok) [ref] r false
          end
        else if isIdent tok && negb (bool_decide (tok ∈ tmplAllowedIdents)) then err (UnknownFunction tok)
        else continue (PWord tok) [] r false
      else continue (PByte c) [] rest (first && isSpace c)
  end.
Definition rewriteExpr (expr path : string) : tmplErr + (list piece * list TemplateRef) :=
  rewrite_expr (String.length expr) expr path true.

(** ** One templated string *)

(** The reconstructed source: literal text and actions with their sink. *)
Inductive outSeg : Type := OText (text : string) | OAction (e : list piece) (sink : string).

Record strTemplate : Type := mkStrTemplate { st_path : string; st_src : string; st_out : list outSeg; st_whole : bool }.

Fixpoint count_actions (segs : list tmplSegment) : nat :=
  match segs with [] => 0 | s :: l => (if isAction s then 1 else 0) + count_actions l end%nat.

(** The expressions of the segments; all their problems, or the output. *)
Fixpoint rewrite_segs (whole : bool) (path : string) (segs : list tmplSegment)
    : list tmplErr * list outSeg * list TemplateRef :=
  match segs with
  | [] => ([], [], [])
  | s :: segs' =>
      let '(errs, out, refs) := rewrite_segs whole path segs' in
      if negb (isAction s) then (errs, if whole then out else OText (seg_text s) :: out, refs)
      else match rewriteExpr (seg_text s) path with
           | inl e => (e :: errs, out, refs)
           | inr (ps, rs) => (errs, OAction ps (if whole then "__cap" else "__fmt") :: out, rs ++ refs)
           end
  end.

Section parse.
(** text/template's Parse of the reconstructed source accepts it. *)
Context (textTemplateParses : list outSeg → bool).

(** parseString. *)
Definition parseString (src path : string) : list tmplErr * option strTemplate * list TemplateRef :=
  match splitTemplate src with
  | inl m => ([TemplateError path m], None, [])
  | inr segs =>
      let wholeCandidate := forallb (λ s, isAction s || blank (seg_text s)) segs in
      let whole := wholeCandidate && (count_actions segs =? 1)%nat in
      let '(errs, out, refs) := rewrite_segs whole path segs in
      match errs with
      | _ :: _ => (errs, None, refs)
      | [] => if textTemplateParses out then ([], Some (mkStrTemplate path src out whole), refs)
              else ([TemplateError path ParseFailure], None, refs)
      end
  end.

Definition joinPath (path key : string) : string :=
  if bool_decide (path = "") then key else path +:+ "." +:+ key.

(** The problems, templates and references of a walk, in walk order. *)
Record Walk : Type := mkWalk { w_errs : list tmplErr; w_templates : list strTemplate; w_refs : list TemplateRef }.
Definition walk_nil : Walk := mkWalk [] [] [].
Definition walk_app (a b : Walk) : Walk :=
  mkWalk (w_errs a ++ w_errs b) (w_templates a ++ w_templates b) (w_refs a ++ w_refs b).
Definition walk_concat (l : list Walk) : Walk := foldr walk_app walk_nil l.

(** The values of an object by key, a repeated key keeping its last value, in
    the order of the keys. *)
Definition by_key {A} (l : list (string * A)) : list A :=
  let m : gmap string A := list_to_map (reverse l) in
  omap (λ k, m !! k) (merge_sort String.le (elements (dom m))).

Fixpoint walk (node : json) (path : string) : Walk :=
  match node with
  | JObj fields =>
      walk_concat (by_key (map (λ kv, (kv.1, walk kv.2 (joinPath path kv.1))) fields))
  | JArr l =>
      walk_concat ((fix go (i : nat) (l : list json) : list Walk :=
        match l with [] => [] | x :: l' => walk x (at_index path i) :: go (S i) l' end) 0%nat l)
  | JStr s =>
      if HasTemplate s then
        let '(errs, st, refs) := parseString s path in
        mkWalk errs (match st with Some t => [t] | None => [] end) refs
      else walk_nil
  | _ => walk_nil
  end.

(** The encoded document contains the opening delimiter: some string or key of it
    does. *)
Fixpoint json_has_template (node : json) : bool :=
  match node with
  | JObj fields => existsb (λ kv, HasTemplate kv.1 || json_has_template kv.2) fields
  | JArr l => existsb json_has_template l
  | JStr s => HasTemplate s
  | _ => false
  end.

(** ParseConfigTemplates: the problems, or the parsed templates with the
    references. *)
Definition ParseConfigTemplates (config : json) : list tmplErr + (list strTemplate * list TemplateRef) :=
  if negb (json_has_template config) then inr ([], [])
  else let w := walk config "" in
       match w_errs w with
       | [] => inr (w_templates w, w_refs w)
       | errs => inl errs
       end.

(** StepIDs: the sorted set of referenced step ids. *)
Definition StepIDs (refs : list TemplateRef) : list string :=
  merge_sort String.le (elements (list_to_set (List.filter (λ s, negb (bool_decide (s = ""))) (StepID <$> refs)) : gset string)).
End parse.

Example template_samples :
  ParseConfigTemplates (λ _, true) (JObj [("b", JStr "${{ steps.a.output.x | default 0.5 }} and ${{ run.params.k }}");
    ("a", JArr [JStr "${{ get 'steps.z#1.output' | truncate 10 }}"; JStr "plain"])]) =
  inr ([mkStrTemplate "a[0]" "${{ get 'steps.z#1.output' | truncate 10 }}"
          [OAction [PByte " "; PWord "get"; PByte " "; PSingle "steps.z#1.output"; PByte " "; PByte "|"; PByte " ";
                    PWord "truncate"; PByte " "; PWord "10"; PByte " "] "__cap"] true;
        mkStrTemplate "b" "${{ steps.a.output.x | default 0.5 }} and ${{ run.params.k }}"
          [OAction [PByte " "; PRef "steps.a.output.x"; PByte " "; PByte "|"; PByte " "; PWord "default"; PByte " ";
                    PWord "0.5"; PByte " "] "__fmt"; OText " and ";
           OAction [PByte " "; PRef "run.params.k"; PByte " "] "__fmt"] false],
       [mkTemplateRef "a[0]" "steps.z#1.output" "z#1" "" true false;
        mkTemplateRef "b" "steps.a.output.x" "a" "" false false;
        mkTemplateRef "b" "run.params.k" "" "k" false false]).
Proof. vm_compute. reflexivity. Qed.
Example template_rejects :
  (λ s, match rewriteExpr s "" with inl _ => false | inr _ => true end) <$>
    ["printf 1"; "if true"; "$x"; "x := 1"; "secrets.key"; "1.0e999"; "1_0.5"; "0x1.8p-2"; "'a"; "steps.A.output"] =
  [false; false; false; false; false; false; true; true; false; false].
Proof. vm_compute. reflexivity. Qed.
