(* ===== verification/TemplateFacts.v ===== *)
(** Segmentation and rewriting of template expressions: what the scanner returns
    is exactly the authored text, and nothing outside the expression grammar
    gets through. *)
From Stdlib Require Import Ascii.
From S2P Require Import Prelude GoStd StoreModel Template.
Open Scope nat_scope.

(** Arithmetic on string lengths. *)
Ltac slen := repeat (progress cbn in * || rewrite !length_append in *); lia.

(** ** Scanning *)

Lemma HasPrefix_long x y p : String.length p ≤ String.length x → HasPrefix (x +:+ y) p = HasPrefix x p.
Proof.
  revert x. induction p as [|c p IH]; intros x Hl; [by destruct x, y|].
  destruct x as [|c' x]; cbn in Hl; [lia|]. rewrite append_cons. cbn [HasPrefix]. by rewrite IH by lia.
Qed.

Lemma prefix_inside c a sep r : HasPrefix (String c (a +:+ sep +:+ r)) sep = HasPrefix (String c (a +:+ sep)) sep.
Proof. rewrite <-append_assoc, <-append_cons. apply HasPrefix_long. cbn. rewrite length_append. lia. Qed.

Lemma Cut_any s sep a b : Cut s sep = Some (a, b) → ∀ b', Cut (a +:+ sep +:+ b') sep = Some (a, b').
Proof.
  intros E b'. assert (∀ r, drop_s (String.length sep) (sep +:+ r) = r) as Hdrop.
  { intros r. clear. induction sep as [|c sep IH]; [by destruct r|]. by rewrite append_cons. }
  revert a b E. induction s as [|c s IH]; intros a b; cbn [Cut].
  - destruct (HasPrefix "" sep) eqn:P; [|done]. intros [= <- <-]. by destruct sep, b'.
  - destruct (HasPrefix (String c s) sep) eqn:P.
    + intros [= <- <-]. rewrite append_nil_l. assert (HasPrefix (sep +:+ b') sep = true) as P' by (by eapply HasPrefix_app).
      destruct (sep +:+ b') eqn:Es; cbn [Cut]; by rewrite P', <-Es, Hdrop.
    + destruct (Cut s sep) as [[a' b'']|] eqn:E; [|done]. intros [= <- <-]. rewrite append_cons. cbn [Cut].
      rewrite (IH a' b'' eq_refl). apply Cut_spec in E. subst s.
      rewrite prefix_inside in *. by rewrite P.
Qed.

Lemma skipQuoted_any q s l r : skipQuoted q s = Some (l, r) →
  s = l +:+ String q r ∧ ∀ r', skipQuoted q (l +:+ String q r') = Some (l, r').
Proof.
  enough (∀ n s l r, String.length s ≤ n → skipQuoted q s = Some (l, r) →
    s = l +:+ String q r ∧ ∀ r', skipQuoted q (l +:+ String q r') = Some (l, r')) as Hen by (by apply (Hen (String.length s))).
  clear s l r. induction n as [|n IH]; intros s l r Hn; destruct s as [|c s]; cbn [skipQuoted]; try done; cbn in Hn; [lia|].
  case_bool_decide as Hc.
  - destruct s as [|c' s]; [done|]. destruct (skipQuoted q s) as [[a b]|] eqn:E; [|done].
    intros [= <- <-]. apply IH in E as [-> H]; [|cbn in Hn; lia]. rewrite !append_cons. split; [done|].
    intros r'. rewrite !append_cons. cbn [skipQuoted]. by rewrite bool_decide_eq_true_2, H.
  - case_bool_decide as Hq.
    + intros [= <- <-]. subst c. split; [done|]. intros r'. rewrite append_nil_l. cbn [skipQuoted].
      by rewrite bool_decide_eq_false_2, bool_decide_eq_true_2.
    + destruct (skipQuoted q s) as [[a b]|] eqn:E; [|done]. intros [= <- <-].
      apply IH in E as [-> H]; [|lia]. rewrite append_cons. split; [done|]. intros r'. rewrite append_cons.
      cbn [skipQuoted]. by rewrite !bool_decide_eq_false_2, H.
Qed.

Lemma one_append c s : one c +:+ s = String c s.
Proof. done. Qed.

(** What [findActionEnd] returns does not depend on the text after the closing
    delimiter, and the fuel it needs is the length of what it consumes. *)
Lemma findActionEnd_any fuel : ∀ body a b, findActionEnd fuel body = inr (a, b) →
  body = a +:+ tmplRightDelim +:+ b ∧
  ∀ fuel' b', String.length a < fuel' → findActionEnd fuel' (a +:+ tmplRightDelim +:+ b') = inr (a, b').
Proof.
  induction fuel as [|fuel IH]; intros body a b E; [done|]. destruct body as [|c rest]; [done|].
  cbn [findActionEnd] in E.
  (* one recursive call on a suffix [r], [pre] being what was consumed *)
  assert (∀ pre r, match findActionEnd fuel r with inl e => inl e | inr (a', b') => inr (pre +:+ a', b') end = inr (a, b) →
    ∃ a', a = pre +:+ a' ∧ r = a' +:+ tmplRightDelim +:+ b ∧ ∀ fuel' b', String.length a' < fuel' →
      findActionEnd fuel' (a' +:+ tmplRightDelim +:+ b') = inr (a', b')) as Hrec.
  { intros pre r Er. destruct (findActionEnd fuel r) as [|[a' b']] eqn:Ef; [done|]. injection Er as <- <-.
    destruct (IH _ _ _ Ef). eauto. }
  case_bool_decide as Hc.
  - destruct (HasPrefix (String c rest) tmplRightDelim) eqn:P.
    + injection E as <- <-. pose proof (HasPrefix_spec _ _ P) as Hs. split; [exact Hs|].
      intros [|fuel'] b' Hf; [lia|]. reflexivity.
    + apply Hrec in E as (a' & -> & -> & H). rewrite one_append, append_cons. split; [done|].
      intros [|fuel'] b' Hf; [lia|]. rewrite ?one_append, ?append_cons in *. cbn [findActionEnd].
      rewrite bool_decide_eq_true_2 by done.
      assert (HasPrefix (String c (a' +:+ tmplRightDelim +:+ b')) tmplRightDelim = false) as ->.
      { rewrite prefix_inside in *. done. }
      rewrite H by slen. done.
  - case_bool_decide as Hq; cbn [orb] in E.
    2: case_bool_decide as Hq'; cbn [orb] in E.
    1, 2: destruct (skipQuoted c rest) as [[lit r]|] eqn:Es; [|done]; apply Hrec in E as (a' & -> & -> & H);
      apply skipQuoted_any in Es as [-> Hs]; rewrite !append_cons, !append_assoc, !one_append; (split; [done|]);
      intros [|fuel'] b' Hf; [lia|]; rewrite ?append_cons, ?append_assoc, ?one_append in *; cbn [findActionEnd];
      rewrite bool_decide_eq_false_2 by done;
      rewrite ?(bool_decide_eq_true_2 (c = dquote)), ?(bool_decide_eq_true_2 (c = squote)) by done;
      rewrite ?orb_true_r; cbn [orb]; rewrite append_cons, Hs, H by slen;
      by rewrite !append_cons, append_assoc, one_append.
    case_bool_decide as Hb.
    + destruct (Cut rest (one bquote)) as [[lit r]|] eqn:Es; [|done]. apply Hrec in E as (a' & -> & -> & H).
      pose proof (Cut_spec _ _ _ _ Es) as ->. rewrite !append_cons, !append_assoc, !one_append, <-Hb. split; [done|].
      intros [|fuel'] b' Hf; [lia|]. rewrite ?append_cons, ?append_assoc, ?one_append in *. cbn [findActionEnd].
      rewrite !bool_decide_eq_false_2 by done. cbn [orb]. rewrite bool_decide_eq_true_2 by done.
      rewrite Hb, append_cons, <-(one_append bquote (_ +:+ _)), (Cut_any _ _ _ _ Es), H by slen.
      by rewrite !append_cons, append_assoc, one_append.
    + apply Hrec in E as (a' & -> & -> & H). rewrite one_append, append_cons. split; [done|].
      intros [|fuel'] b' Hf; [lia|]. rewrite ?one_append, ?append_cons in *. cbn [findActionEnd].
      rewrite !bool_decide_eq_false_2 by done. cbn [orb]. rewrite H by slen. done.
Qed.

(** ** Segmentation is exact *)

(** The source text of a segment list. *)
Definition unsplit (segs : list tmplSegment) : string :=
  foldr (λ s acc, if isAction s then tmplLeftDelim +:+ seg_text s +:+ tmplRightDelim +:+ acc
                  else seg_text s +:+ acc) "" segs.

(** The first delimiter that closes the expression, outside its string literals,
    is the one that follows it. *)
Definition closed (expr : string) : Prop :=
  findActionEnd (S (String.length expr)) (expr +:+ tmplRightDelim) = inr (expr, "").

(** Literal text without an opening delimiter, left out when empty, before,
    between and after the actions. *)
Inductive segmented : list tmplSegment → Prop :=
| segmented_end text : HasTemplate text = false → segmented (literal text)
| segmented_action text expr segs : HasTemplate text = false → closed expr → segmented segs →
    segmented (literal text ++ mkSegment expr true :: segs).

Lemma HasTemplate_false s : HasTemplate s = false ↔ Cut s tmplLeftDelim = None.
Proof.
  unfold HasTemplate, Contains. rewrite bool_decide_eq_false, eq_None_not_Some. done.
Qed.

Lemma unsplit_literal text segs : unsplit (literal text ++ segs) = text +:+ unsplit segs.
Proof. unfold literal. by case_bool_decide as E; [rewrite E|]. Qed.

Lemma unsplit_text text : unsplit (literal text) = text.
Proof. rewrite <-(app_nil_r (literal text)), unsplit_literal. apply append_nil_r. Qed.

(** The delimiter has no overlap with itself. *)
Lemma Cut_literal text r : HasTemplate text = false → Cut (text +:+ tmplLeftDelim +:+ r) tmplLeftDelim = Some (text, r).
Proof.
  rewrite HasTemplate_false. induction text as [|c text IH]; [done|]. rewrite append_cons. cbn [Cut].
  destruct (HasPrefix (String c text) tmplLeftDelim) eqn:P; [done|].
  destruct (Cut text tmplLeftDelim) as [[]|]; [done|]. intros _. rewrite (IH eq_refl).
  assert (HasPrefix (String c (text +:+ tmplLeftDelim +:+ r)) tmplLeftDelim = false) as ->; [|done].
  change (tmplLeftDelim +:+ r) with (String "$" (String "{" (String "{" r))).
  destruct text as [|c1 [|c2 text]]; rewrite ?append_cons, ?append_nil_l.
  - cbn [HasPrefix tmplLeftDelim]. by rewrite (bool_decide_eq_false_2 ("{"%char = "$"%char)), andb_false_r.
  - cbn [HasPrefix tmplLeftDelim]. by rewrite (bool_decide_eq_false_2 ("{"%char = "$"%char)), !andb_false_r.
  - rewrite <-!append_cons, HasPrefix_long by (cbn; lia). done.
Qed.

Lemma split_template_sound fuel : ∀ rest segs, split_template fuel rest = inr segs →
  segmented segs ∧ unsplit segs = rest.
Proof.
  induction fuel as [|fuel IH]; intros rest segs E; cbn [split_template] in E;
    (destruct (Cut rest tmplLeftDelim) as [[lit body]|] eqn:Ec;
      [|injection E as <-; split; [by apply segmented_end, HasTemplate_false|apply unsplit_text]]); [done|].
  destruct (findActionEnd _ body) as [|[expr rest']] eqn:Ea; [done|].
  destruct (split_template fuel rest') as [|segs'] eqn:Er; [done|]. injection E as <-.
  apply IH in Er as [Hs <-]. apply findActionEnd_any in Ea as [-> Ha]. split.
  - constructor; [apply HasTemplate_false; by apply (Cut_first _ _ _ _ Ec)|unfold closed|done].
    rewrite <-(append_nil_r tmplRightDelim) at 1. apply Ha. lia.
  - rewrite unsplit_literal. symmetry. by apply Cut_spec in Ec.
Qed.

Lemma split_template_complete segs : segmented segs →
  ∀ fuel, String.length (unsplit segs) ≤ fuel → split_template fuel (unsplit segs) = inr segs.
Proof.
  induction 1 as [text Ht|text expr segs Ht Hc Hs IH]; intros fuel Hf.
  - rewrite unsplit_text in *. apply HasTemplate_false in Ht.
    destruct fuel; cbn [split_template]; by rewrite Ht.
  - rewrite unsplit_literal in *. cbn [unsplit foldr isAction seg_text] in *. fold (unsplit segs) in *.
    destruct fuel as [|fuel]; [rewrite !length_append in Hf; cbn in Hf; lia|]. cbn [split_template].
    rewrite Cut_literal by done. rewrite !length_append in Hf. cbn in Hf.
    destruct (findActionEnd_any _ _ _ _ Hc) as [_ Ha]. rewrite Ha by (rewrite !length_append; cbn; lia).
    by rewrite IH by lia.
Qed.

(** ** The expression sandbox *)

(** The authored text of a piece. *)
Definition authored (p : piece) : string :=
  match p with
  | PDouble l => String dquote l +:+ one dquote
  | PSingle l => String squote l +:+ one squote
  | PRaw l => String bquote l +:+ one bquote
  | PRef t | PWord t => t
  | PByte c => one c
  end.
Definition authored_all (ps : list piece) : string := foldr (λ p acc, authored p +:+ acc) "" ps.

(** What an expression may contain outside its string literals: a reference; a
    permitted function or constant; another word, which starts with a digit, a sign,
    a period or [#], never with a letter or an underscore, and is a number if it has a
    period; bytes that start neither a word, a variable nor a literal. *)
Definition functions_and_constants : list string := ["get"; "default"; "toJson"; "truncate"; "true"; "false"; "nil"].
Definition nonword_start (t : string) : Prop :=
  ∃ c t', t = String c t' ∧ (is_digit c = true ∨ c = "-"%char ∨ c = "#"%char ∨ c = "."%char).
Definition permitted (p : piece) : Prop :=
  match p with
  | PRef t => isRefToken t = true
  | PWord t => t ∈ functions_and_constants ∨ (nonword_start t ∧ (has_dot t = true → parses_float t = true))
  | PByte c => is_lower c = false ∧ is_upper c = false ∧ is_digit c = false ∧
      c ∉ ["_"; "."; "-"; "#"; "$"; dquote; squote; bquote]%char
  | _ => True
  end.
Definition is_word (p : piece) : bool := match p with PRef _ | PWord _ => true | _ => false end.
Definition lookups (ps : list piece) : list string :=
  omap (λ p, match p with PRef t => Some t | _ => None end) ps.
Definition strict (refs : list TemplateRef) : list TemplateRef := List.filter (λ r, negb (Lenient r)) refs.

Record rewritten (expr path : string) (ps : list piece) (refs : list TemplateRef) : Prop := mkRewritten {
  rw_source : authored_all ps = expr;
  rw_permitted : Forall permitted ps;
  rw_lookups : Raw <$> strict refs = lookups ps;
  rw_refs : Forall (λ r, parseRef (Raw r) path = inr r) (strict refs);
  rw_nodecl : ∀ l1 l2, ps ≠ l1 ++ PByte ":" :: PByte "=" :: l2;
  rw_words : ∀ l1 p q l2, ps = l1 ++ p :: q :: l2 → is_word p = true → is_word q = false
}.

Lemma parseRef_ok tok path r : parseRef tok path = inr r → Raw r = tok ∧ Lenient r = false.
Proof.
  unfold parseRef. intros E. repeat (case_match; try discriminate E); by injection E as <-.
Qed.
Lemma literalRef_lenient lit path r : literalRef lit path = Some r → Lenient r = true.
Proof. unfold literalRef. repeat (case_match; try done). by intros [= <-]. Qed.

Lemma ref_span_spec s tok r : ref_span s = (tok, r) → s = tok +:+ r.
Proof.
  revert tok r. induction s as [|c s IH]; intros tok r; cbn [ref_span]; [by intros [= <- <-]|].
  destruct (isRefChar c); [|by intros [= <- <-]]. destruct (ref_span s) as [a b] eqn:E.
  intros [= <- <-]. rewrite append_cons. f_equal. by apply IH.
Qed.

(** One piece in front of a rewritten rest. *)
Lemma rewritten_cons p rs expr path ps refs :
  rewritten expr path ps refs → permitted p →
  Raw <$> strict rs = lookups [p] → Forall (λ r, parseRef (Raw r) path = inr r) (strict rs) →
  (p = PByte ":" → HasPrefix expr "=" = false) →
  (is_word p = true → ∀ q ps', ps = q :: ps' → is_word q = false) →
  rewritten (authored p +:+ expr) path (p :: ps) (rs ++ refs).
Proof.
  intros [R1 R2 R3 R4 R5 R6] Hp Hl Hr Hd Hw.
  assert (strict (rs ++ refs) = strict rs ++ strict refs) as Es by apply List.filter_app.
  split.
  - cbn. by rewrite <-R1.
  - by constructor.
  - rewrite Es, fmap_app, Hl, R3. unfold lookups. by destruct p.
  - rewrite Es. by apply Forall_app.
  - intros [|q l1] l2 E; cbn in E.
    + injection E as -> ->. by rewrite <-R1 in Hd; specialize (Hd eq_refl).
    + injection E as _ E. by eapply R5.
  - intros [|z l1] a b l2 E; cbn in E.
    + injection E as <- ->. intros Ha. by eapply Hw.
    + injection E as _ E. by eapply R6.
Qed.

(** Words are maximal: the text after one does not start another. *)
Lemma ref_span_stop s tok r : ref_span s = (tok, r) → match r with String c _ => isRefChar c = false | EmptyString => True end.
Proof.
  revert tok r. induction s as [|c s IH]; intros tok r; cbn [ref_span]; [by intros [= <- <-]|].
  destruct (isRefChar c) eqn:E; [|by intros [= <- <-]]. destruct (ref_span s) as [a b] eqn:Es. intros [= <- <-]. by eapply IH.
Qed.
Lemma rewrite_expr_head path fuel expr first q ps refs : rewrite_expr fuel expr path first = inr (q :: ps, refs) → is_word q = true →
  match expr with String c _ => isRefChar c = true | EmptyString => False end.
Proof.
  destruct fuel, expr as [|c rest]; cbn [rewrite_expr]; try done. intros E Hq.
  destruct (isRefChar c) eqn:Hc; [done|]. exfalso. revert E. 
  repeat (case_match; try done); intros [= <- _ _]; done.
Qed.

(** A dotted number starts with a digit, a sign or a period. *)
Lemma float_start t : parses_float t = true → ∃ c t', t = String c t' ∧ (is_digit c = true ∨ c = "-"%char ∨ c = "+"%char ∨ c = "."%char).
Proof.
  destruct t as [|c t]; [done|]. intros H. exists c, t. split; [done|].
  destruct c as [[] [] [] [] [] [] [] []]; first [by left|by right; left|by right; right; left|by right; right; right|exfalso; cbn in H; discriminate H|exfalso].
  revert H. unfold parses_float, is_hex_prefix. change (underscores_ok false "^" (String "_" t)) with false.
  destruct (mantissa _ _ _ _ _ _) as [[[m frac] []] r]; cbn; done.
Qed.
(** A word that is neither a reference nor an unknown identifier. *)
Lemma word_permitted c rest tok r : isRefChar c = true → ref_span (String c rest) = (tok, r) → isRefToken tok = false →
  isIdent tok && negb (bool_decide (tok ∈ tmplAllowedIdents)) = false → permitted (PWord tok).
Proof.
  intros Hc Hs Ht Hi. cbn [ref_span] in Hs. rewrite Hc in Hs. destruct (ref_span rest) as [a b]. injection Hs as <- <-.
  assert (has_dot (String c a) = true → parses_float (String c a) = true) as Hdot.
  { intros Hd. unfold isRefToken in Ht. rewrite Hd in Ht. destruct (_ || _); [done|]. by apply negb_false_iff in Ht. }
  destruct (decide (String c a ∈ functions_and_constants)) as [|Hn]; [by left|]. right. split; [|exact Hdot].
  exists c, a. split; [done|]. unfold isIdent in Hi. destruct (has_dot (String c a)) eqn:Hd.
  - destruct (float_start _ (Hdot eq_refl)) as (c' & t' & [= <- <-] & [?|[?|[->|?]]]); auto; by vm_compute in Hc.
  - cbn [negb andb] in Hi. rewrite (bool_decide_eq_false_2 (_ ∈ tmplAllowedIdents)) in Hi by done. cbn [negb] in Hi.
    rewrite andb_true_r in Hi. apply orb_false_iff in Hi as [[Hu Hl]%orb_false_iff Hup].
    unfold isRefChar in Hc. rewrite Hu, Hl, Hup in Hc. repeat case_bool_decide; auto.
Qed.
Lemma byte_permitted c : isRefChar c = false → c ≠ "$"%char → c ≠ dquote → c ≠ squote → c ≠ bquote → permitted (PByte c).
Proof.
  intros Hc H1 H2 H3 H4. unfold isRefChar in Hc. rewrite !orb_false_iff, !bool_decide_eq_false in Hc.
  destruct Hc as [[[[[[? ?] ?] ?] ?] ?] ?]. split_and!; [done..|]. rewrite !not_elem_of_cons. split_and!; try done. apply not_elem_of_nil.
Qed.

Lemma rewrite_expr_spec path fuel : ∀ expr first ps refs,
  rewrite_expr fuel expr path first = inr (ps, refs) → rewritten expr path ps refs.
Proof.
  assert (∀ lit, Raw <$> strict (match literalRef lit path with Some r => [r] | None => [] end) = []) as Hlit1.
  { intros lit. destruct (literalRef lit path) eqn:E; [|done]. unfold strict. cbn.
    by rewrite (literalRef_lenient _ _ _ E). }
  assert (∀ lit, Forall (λ r, parseRef (Raw r) path = inr r)
    (strict (match literalRef lit path with Some r => [r] | None => [] end))) as Hlit2.
  { intros lit. specialize (Hlit1 lit). destruct (strict _); [constructor|done]. }
  induction fuel as [|fuel IH]; intros expr first ps refs; destruct expr as [|c rest]; cbn [rewrite_expr];
    try done; try (intros [= <- <-]; split; try constructor; by intros [] ?).
  assert (∀ p rs r f, match rewrite_expr fuel r path f with inl e => inl e | inr (ps', rs') => inr (p :: ps', rs ++ rs') end
      = inr (ps, refs) → ∃ ps' rs', ps = p :: ps' ∧ refs = rs ++ rs' ∧ rewritten r path ps' rs' ∧
        rewrite_expr fuel r path f = inr (ps', rs')) as Hrec.
  { intros p rs r f E. destruct (rewrite_expr fuel r path f) as [|[ps' rs']] eqn:Ef; [done|]. injection E as <- <-.
    eexists _, _. split_and!; [done..| |done]. by eapply IH. }
  assert (∀ p tok r f ps' rs', ref_span (String c rest) = (tok, r) → rewrite_expr fuel r path f = inr (ps', rs') →
      is_word p = true → ∀ q l, ps' = q :: l → is_word q = false) as Hmax.
  { intros p tok r f ps' rs' Hs E _ q l ->. apply ref_span_stop in Hs. destruct (is_word q) eqn:Eq; [|done].
    pose proof (rewrite_expr_head _ _ _ _ _ _ _ E Eq) as Hh. destruct r; [done|congruence]. }
  case_bool_decide as H1.
  { subst c. destruct (skipQuoted _ rest) as [[lit r]|] eqn:Es; [|done]. intros (ps' & rs' & -> & -> & R & _)%Hrec.
    apply skipQuoted_any in Es as [-> _]. rewrite <-(one_append dquote r), <-append_assoc, <-append_cons.
    by apply (rewritten_cons (PDouble lit)). }
  case_bool_decide as H2.
  { subst c. destruct (skipQuoted _ rest) as [[lit r]|] eqn:Es; [|done]. intros (ps' & rs' & -> & -> & R & _)%Hrec.
    apply skipQuoted_any in Es as [-> _]. rewrite <-(one_append squote r), <-append_assoc, <-append_cons.
    by apply (rewritten_cons (PSingle lit)). }
  case_bool_decide as H3.
  { subst c. destruct (Cut rest _) as [[lit r]|] eqn:Es; [|done]. intros (ps' & rs' & -> & -> & R & _)%Hrec.
    apply Cut_spec in Es as ->. rewrite <-append_assoc, <-append_cons. by apply (rewritten_cons (PRaw lit)). }
  case_bool_decide as H4; [done|]. destruct (_ && _) eqn:H5; [done|]. destruct (isRefChar c) eqn:H6.
  - destruct (ref_span (String c rest)) as [tok r] eqn:Er. apply ref_span_spec in Er as Espan. rewrite Espan.
    destruct (first && _); [done|]. destruct (isRefToken tok) eqn:Ht.
    + destruct (parseRef tok path) as [|ref] eqn:Ep; [done|]. intros (ps' & rs' & -> & -> & R & E)%Hrec.
      apply parseRef_ok in Ep as HR. destruct HR as [HR1 HR2].
      apply (rewritten_cons (PRef tok) [ref]); [done|done| | |done|by eapply Hmax]; unfold strict; cbn; rewrite HR2; cbn.
      * by rewrite HR1.
      * by rewrite Forall_singleton, HR1.
    + destruct (isIdent tok && _) eqn:Hi; [done|]. intros (ps' & rs' & -> & -> & R & E)%Hrec.
      apply (rewritten_cons (PWord tok)); [done|by eapply word_permitted|done|constructor|done|by eapply Hmax].
  - intros (ps' & rs' & -> & -> & R & _)%Hrec. rewrite <-one_append.
    apply (rewritten_cons (PByte c)); [done|by apply byte_permitted|done|constructor| |done].
    intros [= ->]. by rewrite bool_decide_eq_true_2 in H5.
Qed.
