(* ===== verification/TemplateProps.v ===== *)
(** Properties of the template language (internal/dag/template.go). *)
From Stdlib Require Import QArith Ascii.
From S2P Require Import Prelude GoStd StoreModel Config Template TemplateFacts.
Open Scope Z_scope.

(** ** Segmentation *)

(** splitTemplate and rendering the segments back are inverse: a source splits
    into the segments whose text it is, literal runs (none empty, none with an
    opening delimiter) alternating with expressions that end at the first closing
    delimiter outside their string literals; every such list of segments is the
    split of its text, so the split is unique. *)
Theorem splitTemplate_inverse src segs :
  splitTemplate src = inr segs ↔ segmented segs ∧ unsplit segs = src.
Proof.
  unfold splitTemplate. split; [apply split_template_sound|].
  intros [Hs <-]. by apply split_template_complete.
Qed.

(** ** The sandbox *)

(** What a strict reference may name. *)
Definition ref_shape (r : TemplateRef) : Prop :=
  let segs := Split (Raw r) "." in
  Forall (λ s, s ≠ "") segs ∧
  ((∃ rest, segs = "steps" :: StepID r :: "output" :: rest ∧ validInstanceOrStepID (StepID r) = true) ∨
   (∃ rest, segs = "run" :: "params" :: rest ∧ StepID r = "" ∧ ParamKey r = default "" (head rest)) ∨
   (ItemRef r = true ∧ ((∃ rest, segs = "item" :: rest) ∨ segs = ["item_index"]))).

Lemma parseRef_shape tok path r : parseRef tok path = inr r → ref_shape r.
Proof.
  intros E. pose proof (parseRef_ok _ _ _ E) as [ER _]. unfold ref_shape. rewrite ER. revert E. unfold parseRef.
  destruct (existsb _ _) eqn:Hx; [done|]. apply existsb_false in Hx.
  assert (Forall (λ s, s ≠ "") (Split tok ".")) as Hne
    by (eapply Forall_impl; [exact Hx|]; intros s Hs; by apply bool_decide_eq_false in Hs).
  clear Hx. destruct (Split tok ".") as [|root rest]; [done|]. intros E. split; [done|]. clear Hne.
  destruct (bool_decide (root = "steps")) eqn:E1.
  { apply bool_decide_eq_true in E1 as ->. left. destruct rest as [|id [|out rest]]; try done.
    destruct (bool_decide (out = "output") && _) eqn:Ho; [|done]. injection E as <-.
    apply andb_prop in Ho as [->%bool_decide_eq_true Hid]. by exists rest. }
  right. destruct (bool_decide (root = "item")) eqn:E2.
  { apply bool_decide_eq_true in E2 as ->. injection E as <-. right. split; [done|]. left. by exists rest. }
  destruct (bool_decide (root = "item_index")) eqn:E3.
  { apply bool_decide_eq_true in E3 as ->. destruct rest; [|done]. injection E as <-. right. split; [done|]. by right. }
  left. destruct (bool_decide (root = "run")) eqn:E4; [|done]. apply bool_decide_eq_true in E4 as ->.
  destruct rest as [|params rest]; [done|]. destruct (bool_decide (params = "params")) eqn:E5; [|done].
  apply bool_decide_eq_true in E5 as ->. injection E as <-. by exists rest.
Qed.

Section sandbox.
Context (textTemplateParses : list outSeg → bool).

(** The output of the rewriting, segment by segment. *)
Lemma rewrite_segs_spec whole path segs : ∀ out refs, rewrite_segs whole path segs = ([], out, refs) →
  ∀ ps sink, OAction ps sink ∈ out → sink = (if whole then "__cap" else "__fmt") ∧
    ∃ expr rs, mkSegment expr true ∈ segs ∧ rewritten expr path ps rs ∧ ∀ r, r ∈ rs → r ∈ refs.
Proof.
  induction segs as [|[text act] segs IH]; intros out refs; cbn [rewrite_segs].
  { intros [= <- <-] ps sink []%not_elem_of_nil. }
  destruct (rewrite_segs whole path segs) as [[errs out'] refs'] eqn:E. cbn [isAction seg_text].
  destruct act; cbn [negb].
  - destruct (rewriteExpr text path) as [|[qs rs]] eqn:Ex; [done|]. intros [= -> <- <-] ps sink Hin.
    apply elem_of_cons in Hin as [Heq|Hin].
    + injection Heq as -> ->. split; [done|]. exists text, rs. split_and!; [by left|by eapply rewrite_expr_spec|set_solver].
    + destruct (IH _ _ eq_refl ps sink Hin) as (Hs & expr & rs' & Hseg & Hrw & Hr). split; [done|].
      exists expr, rs'. split_and!; [by right|done|set_solver].
  - intros [= -> <- <-] ps sink Hin. assert (OAction ps sink ∈ out') as Hin' by (destruct whole; set_solver).
    destruct (IH _ _ eq_refl ps sink Hin') as (Hs & expr & rs' & Hseg & Hrw & Hr). split; [done|].
    exists expr, rs'. split_and!; [by right|done|done].
Qed.

(** C37: the template sandbox.  In an accepted templated string (one that also
    passes text/template's own parser, which is a parameter) every action of the
    compiled source is the rewriting of one authored expression: put back
    together, its pieces are the authored text; outside string literals it holds
    no declaration and only maximal words, which are references, the permitted
    functions and constants (get, default, toJson, truncate, true, false, nil) and
    words that start with no letter or underscore, numbers if they have a period
    (for the others, such as 3 or 3abc, it is text/template that accepts numbers
    only), and bytes that are part of no word and start no variable or literal;
    so it calls no other function; every reference is looked up strictly, was
    recorded, and has one of the three sanctioned roots. *)
Theorem templates_sandboxed src path t refs : parseString textTemplateParses src path = ([], Some t, refs) →
  ∃ segs, splitTemplate src = inr segs ∧ st_src t = src ∧
    ∀ ps sink, OAction ps sink ∈ st_out t → sink = (if st_whole t then "__cap" else "__fmt") ∧
      ∃ expr rs, mkSegment expr true ∈ segs ∧ rewritten expr path ps rs ∧
        (∀ r, r ∈ rs → r ∈ refs) ∧ ∀ r, r ∈ strict rs → ref_shape r.
Proof.
  unfold parseString. destruct (splitTemplate src) as [|segs]; [done|]. cbv zeta.
  set (whole := _ && _). destruct (rewrite_segs whole path segs) as [[[|] out] refs'] eqn:E; [|done].
  destruct (textTemplateParses out); [|done]. intros [= <- <-]. exists segs. split_and!; [done..|].
  intros ps sink Hin. cbn in Hin |- *.
  destruct (rewrite_segs_spec _ _ _ _ _ E ps sink Hin) as (Hs & expr & rs & Hseg & Hrw & Hr). split; [done|].
  exists expr, rs. split_and!; [done..|]. intros r Hr'. pose proof (rw_refs _ _ _ _ Hrw) as Hp.
  rewrite Forall_forall in Hp. by eapply parseRef_shape, Hp.
Qed.
End sandbox.
Lemma templates_sandboxed_witness : ∃ segs rs, splitTemplate "Hi ${{ steps.a.output.n | default 3 }}" = inr segs ∧
  rewritten " steps.a.output.n | default 3 " "prompt"
    [PByte " "; PRef "steps.a.output.n"; PByte " "; PByte "|"; PByte " "; PWord "default"; PByte " "; PWord "3"; PByte " "] rs.
Proof.
  assert (∃ t refs, parseString (λ _, true) "Hi ${{ steps.a.output.n | default 3 }}" "prompt" = ([], Some t, refs) ∧
    OAction [PByte " "; PRef "steps.a.output.n"; PByte " "; PByte "|"; PByte " "; PWord "default"; PByte " "; PWord "3"; PByte " "] "__fmt"
      ∈ st_out t) as (t & refs & E & Hin).
  { eexists _, _. split; [vm_compute; reflexivity|]. apply list_elem_of_In. right. left. reflexivity. }
  destruct (templates_sandboxed (λ _, true) _ _ _ _ E) as (segs & Es & _ & H).
  destruct (H _ _ Hin) as (_ & expr & rs & Hseg & Hrw & _). exists segs, rs. split; [exact Es|].
  pose proof (rw_source _ _ _ _ Hrw) as Ex. change (" steps.a.output.n | default 3 " = expr) in Ex. by subst expr.
Defined.
