(* ===== verification/Feedback.v ===== *)
(** internal/dag/feedback.go: the critique-prompt templates of semantic retries. *)
From Stdlib Require Import Ascii.
From stdpp Require Import pretty.
From S2P Require Import Prelude GoStd StoreModel Config Template.
Open Scope Z_scope.

Definition feedbackLeftDelim : string := "${{".
Definition feedbackRightDelim : string := "}}".
Definition newline : string := one (ascii_of_nat 10).
Definition DefaultFeedbackTemplate : string :=
  "This is attempt ${{ feedback.attempt }} of ${{ feedback.max_attempts }}. Your previous output did not pass validation." +:+
  newline +:+ newline +:+
  "Previous output:" +:+ newline +:+ "${{ feedback.prior_output }}" +:+ newline +:+ newline +:+
  "Problems found:" +:+ newline +:+ "${{ feedback.issues }}" +:+ newline +:+ newline +:+
  "Revise your answer to fix these problems and reply with the corrected output only.".
Definition DefaultFeedbackMaxOutputChars : Z := 4000.

Inductive feedbackToken : Type := TokPriorOutput | TokIssues | TokAttempt | TokMaxAttempts.
Definition tokenName (t : feedbackToken) : string :=
  match t with
  | TokPriorOutput => "feedback.prior_output"
  | TokIssues => "feedback.issues"
  | TokAttempt => "feedback.attempt"
  | TokMaxAttempts => "feedback.max_attempts"
  end.
Definition feedbackTokens (name : string) : option feedbackToken :=
  find (λ t, bool_decide (tokenName t = name)) [TokPriorOutput; TokIssues; TokAttempt; TokMaxAttempts].

Inductive feedbackSegment : Type := FLiteral (s : string) | FToken (t : feedbackToken).
Inductive feedbackErr : Type := FUnterminated | FUnknownToken (name : string) | FEmpty.

Definition fliteral (s : string) : list feedbackSegment := if bool_decide (s = "") then [] else [FLiteral s].

(** scanFeedbackTemplate: every round consumes an opening delimiter. *)
Fixpoint scan_feedback (fuel : nat) (tmpl : string) : feedbackErr + list feedbackSegment :=
  match Cut tmpl feedbackLeftDelim with
  | None => inr (fliteral tmpl)
  | Some (lit, rest) =>
      match fuel with
      | O => inl FUnterminated
      | S fuel' =>
          match Cut rest feedbackRightDelim with
          | None => inl FUnterminated
          | Some (tok, rest') =>
              match feedbackTokens (TrimSpace tok) with
              | None => inl (FUnknownToken (TrimSpace tok))
              | Some t =>
                  match scan_feedback fuel' rest' with
                  | inl e => inl e
                  | inr segs => inr (fliteral lit ++ FToken t :: segs)
                  end
              end
          end
      end
  end.
Definition scanFeedbackTemplate (tmpl : string) : feedbackErr + list feedbackSegment :=
  scan_feedback (String.length tmpl) tmpl.

Definition CheckFeedbackTemplate (tmpl : string) : option feedbackErr :=
  if bool_decide (TrimSpace tmpl = "") then Some FEmpty
  else match scanFeedbackTemplate tmpl with inl e => Some e | inr _ => None end.

(** *** Runes: unicode/utf8 decoding *)

(** The continuation bytes a leading byte calls for: the range of the second byte
    and the number of further ones. *)
Definition utf8_lead (c : Z) : option (Z * Z * nat) :=
  if (0xC2 <=? c) && (c <=? 0xDF) then Some (0x80, 0xBF, 0%nat)
  else if c =? 0xE0 then Some (0xA0, 0xBF, 1%nat)
  else if c =? 0xED then Some (0x80, 0x9F, 1%nat)
  else if (0xE1 <=? c) && (c <=? 0xEF) then Some (0x80, 0xBF, 1%nat)
  else if c =? 0xF0 then Some (0x90, 0xBF, 2%nat)
  else if (0xF1 <=? c) && (c <=? 0xF3) then Some (0x80, 0xBF, 2%nat)
  else if c =? 0xF4 then Some (0x80, 0x8F, 2%nat)
  else None.
Fixpoint utf8_tail (n : nat) (s : string) : option string :=
  match n, s with
  | O, _ => Some ""
  | S n', String c s' => if (0x80 <=? code c) && (code c <=? 0xBF) then String c <$> utf8_tail n' s' else None
  | S _, EmptyString => None
  end.
(** The first rune of a non-empty string: its bytes when they are well-formed. *)
Definition first_rune (s : string) : option string :=
  match s with
  | EmptyString => None
  | String c s' =>
      if code c <? 0x80 then Some (one c)
      else match utf8_lead (code c), s' with
           | Some (lo, hi, n), String c2 s'' =>
               if (lo <=? code c2) && (code c2 <=? hi) then (λ t, String c (String c2 t)) <$> utf8_tail n s'' else None
           | _, _ => None
           end
  end.
(** []rune(s), each rune as the UTF-8 string it is written back as; a malformed
    byte is U+FFFD. *)
Definition replacement : string := bytes [239; 191; 189]%nat.
Fixpoint runes (fuel : nat) (s : string) : list string :=
  match fuel, s with
  | S fuel', String _ s' =>
      match first_rune s with
      | Some r => r :: runes fuel' (drop_s (String.length r) s)
      | None => replacement :: runes fuel' s'
      end
  | _, _ => []
  end.
Definition truncation_marker : string := bytes [226; 128; 166]%nat +:+ " (truncated)".

Definition truncateFeedback (s : string) (maxRunes : Z) : string :=
  if maxRunes <=? 0 then s
  else let r := runes (String.length s) s in
       if Z.of_nat (length r) <=? maxRunes then s
       else String.concat "" (take (Z.to_nat maxRunes) r) +:+ truncation_marker.

(** ** Rendering *)

Record FeedbackData : Type := mkFeedbackData {
  fd_PriorOutput : string; fd_Issues : string; fd_Attempt : Z; fd_MaxAttempts : Z }.

Definition render_segment (prior : string) (data : FeedbackData) (s : feedbackSegment) : string :=
  match s with
  | FLiteral l => l
  | FToken TokPriorOutput => prior
  | FToken TokIssues => fd_Issues data
  | FToken TokAttempt => pretty (fd_Attempt data)
  | FToken TokMaxAttempts => pretty (fd_MaxAttempts data)
  end.
Definition render_segments (prior : string) (data : FeedbackData) (segs : list feedbackSegment) : string :=
  foldr (λ s acc, render_segment prior data s +:+ acc) "" segs.

Definition RenderFeedback (p : option FeedbackPolicy) (data : FeedbackData) : string :=
  let tmpl := match p with
              | Some p => if bool_decide (fb_Template p = "") then DefaultFeedbackTemplate else fb_Template p
              | None => DefaultFeedbackTemplate
              end in
  let maxChars := match p with
                  | Some p => if 0 <? fb_MaxOutputChars p then fb_MaxOutputChars p else DefaultFeedbackMaxOutputChars
                  | None => DefaultFeedbackMaxOutputChars
                  end in
  match scanFeedbackTemplate tmpl with
  | inl _ => tmpl
  | inr segs => render_segments (truncateFeedback (fd_PriorOutput data) maxChars) data segs
  end.

Example feedback_sample :
  RenderFeedback (Some (mkFeedbackPolicy "try ${{feedback.attempt}}/${{ feedback.max_attempts }}: ${{ feedback.prior_output }}!" 3))
    (mkFeedbackData (bytes [97; 195; 169; 98; 99]%nat) "" 2 5) =
  "try 2/5: " +:+ bytes [97; 195; 169; 98]%nat +:+ truncation_marker +:+ "!".
Proof. vm_compute. reflexivity. Qed.
Example default_feedback_scans : CheckFeedbackTemplate DefaultFeedbackTemplate = None.
Proof. vm_compute. reflexivity. Qed.
