(* ===== verification/Transitions.v ===== *)
(** The guarded state transitions of internal/store: transitions.go, with the
    transition-style helpers of budget.go, approval.go, costs.go and loop.go.
    Every definition is one row of the transition matrix: argument checks, the
    run-row lock, the conditional UPDATE, the attempt/counter/dead-letter side
    writes, and the event append, in the order of the source. *)
From S2P Require Import Prelude StoreModel.
Open Scope Z_scope.

(** ** Shared helpers *)

(** transitionQueries: the injected-clock check.  That the call runs inside
    WithTx is the type [Tx]. *)
Definition transitionQueries (now : time) : Tx unit :=
  guard (negb (now =? 0)) ErrZeroNow.

Definition lockRun (runID : uuid) : Tx Run := GetRun runID.

(** appendEvent: allocate the run's next seq, insert the event, and record the
    envelope for the after-commit sink. *)
Definition appendEvent (runID : uuid) (payload : Payload) : Tx unit :=
  let! row := update_run runID (λ _, true) (λ x, x <| run_NextSeq := run_NextSeq x + 1 |>) in
  match row with
  | None => throw ErrNotFound
  | Some run =>
      let ev := mkEvent runID (run_NextSeq run) payload in
      let! d := get in
      if existsb (λ e, bool_decide (ev_RunID e = runID) && (ev_Seq e =? run_NextSeq run)) (events d)
      then throw (ErrUnique "events_pkey")
      else put (d <| events := events d ++ [ev] |> <| tx_events := tx_events d ++ [ev] |>)
  end.

(** finishAttempt: close the step's current attempt row with its outcome; zero
    rows is a data-integrity error. *)
Definition finishAttempt (step : RunStep) (outcome : AttemptOutcome)
    (err usage verdict repair : option json) (now : time) : Tx unit :=
  let! d := get in
  match update_first (is_attempt (step_RunID step) (step_StepID step) (step_AttemptCount step))
          (λ a, a <| att_Outcome := Some outcome |> <| att_Error := err |>
                  <| att_Usage := usage |> <| att_Verdict := verdict |>
                  <| att_Repair := repair |> <| att_FinishedAt := Some now |>)
          (step_attempts d) with
  | Some (_, l) => put (d <| step_attempts := l |>)
  | None => throw ErrNotFound
  end.

(** BumpRunStepCountersParams. *)
Record Deltas : Type := mkDeltas {
  DSucceeded : Z; DFailed : Z; DSkipped : Z; DCancelled : Z; DCollected : Z
}.
#[export] Instance Eta_Deltas : Eta Deltas := λ d,
  mkDeltas (DSucceeded d) (DFailed d) (DSkipped d) (DCancelled d) (DCollected d).
Definition noDeltas : Deltas := mkDeltas 0 0 0 0 0.

Definition bumpCounters (runID : uuid) (p : Deltas) : Tx unit :=
  let! row := update_run runID (λ _, true)
    (λ x, x <| run_StepsSucceeded := run_StepsSucceeded x + DSucceeded p |>
            <| run_StepsFailed := run_StepsFailed x + DFailed p |>
            <| run_StepsSkipped := run_StepsSkipped x + DSkipped p |>
            <| run_StepsCancelled := run_StepsCancelled x + DCancelled p |>
            <| run_StepsCollected := run_StepsCollected x + DCollected p |>) in
  match row with Some _ => ret tt | None => throw ErrNotFound end.

(** stepConflict: re-read a step whose conditional UPDATE matched nothing and
    return the typed rejection. *)
Definition stepConflict {A} (runID : uuid) (stepID : string) (want to : StepStatus)
    (claim : option uuid) : Tx A :=
  let! row := GetRunStep runID stepID in
  let reason :=
    if negb (has_status want row) then ConflictWrongStatus
    else match claim with
         | Some c => if has_claim c row then ConflictGuardFailed else ConflictClaimMismatch
         | None => ConflictGuardFailed
         end in
  throw (ErrTransition (mkTransitionError EntityStep runID stepID (StepSt (step_Status row))
           (StepSt to) reason claim (step_ClaimID row))).

(** runConflict: the same for run transitions. *)
Definition runConflict {A} (runID : uuid) (want to : RunStatus) : Tx A :=
  let! row := GetRun runID in
  let reason := if bool_decide (run_Status row = want) then ConflictGuardFailed
                else ConflictWrongStatus in
  throw (ErrTransition (mkTransitionError EntityRun runID "" (RunSt (run_Status row)) (RunSt to)
           reason None None)).

(** ** Claim and takeover *)

(** ClaimRunStep: ready, or retrying and due. *)
Definition claimable (now : time) (x : RunStep) : bool :=
  has_status StepStatusReady x ||
  (has_status StepStatusRetrying x &&
   match step_NextAttemptAt x with Some t => t <=? now | None => false end).

Definition ClaimRunStep (claimID : uuid) (now : time) (span : option string) (x : RunStep) : RunStep :=
  x <| step_Status := StepStatusRunning |> <| step_ClaimID := Some claimID |>
    <| step_AttemptCount := step_AttemptCount x + 1 |> <| step_NextAttemptAt := None |>
    <| step_TraceSpan := span |>
    <| step_StartedAt := match step_StartedAt x with Some t => Some t | None => Some now end |>
    <| step_UpdatedAt := now |>.

Record ClaimOrigin : Type := mkClaimOrigin {
  FromStatus : option StepStatus;
  ChangedAt : time;
  Known : bool;
  PrevTraceSpan : string;
  RunTrace : TraceContext;
  BudgetNanoUSD : option Z;
  SpentNanoUSD : Z;
  OnBudgetExceeded : string;
  DeadlineAt : option time;
  StartedAt : option time
}.

Definition textOrEmpty (s : option string) : string := match s with Some t => t | None => "" end.

(** ClaimStepWithOrigin.  [claimID] is the value [uuid.New] returns. *)
Definition ClaimStepWithOrigin (runID : uuid) (stepID : string) (now : time)
    (traceSpan workerID : string) (claimID : uuid) : Tx (RunStep * ClaimOrigin) :=
  transitionQueries now ;;
  let! run := lockRun runID in
  if negb (bool_decide (run_Status run = RunStatusRunning)) then
    let! step := GetRunStep runID stepID in
    throw (ErrTransition (mkTransitionError EntityStep runID stepID (RunSt (run_Status run))
             (StepSt StepStatusRunning) ConflictRunNotRunning None (step_ClaimID step)))
  else
    let! prev := attempt (GetRunStep runID stepID) in
    let trace := mkTraceContext (textOrEmpty (run_TraceParent run)) (textOrEmpty (run_TraceState run)) in
    let origin :=
      match prev with
      | Ok p => mkClaimOrigin (Some (step_Status p)) (step_UpdatedAt p) true
                  (textOrEmpty (step_TraceSpan p)) trace
      | Fail _ => mkClaimOrigin None 0 false "" trace
      end (run_BudgetNanoUsd run) (run_SpentNanoUsd run) (run_OnBudgetExceeded run)
      (run_DeadlineAt run) (run_StartedAt run) in
    let! res := update_step runID stepID (claimable now)
                  (ClaimRunStep claimID now (nullableText traceSpan)) in
    match res with
    | None => stepConflict runID stepID StepStatusReady StepStatusRunning None
    | Some step =>
        CreateStepAttempt (mkStepAttempt runID stepID (step_AttemptCount step) claimID None None
          (Some now) None None None None (step_Feedback step) (nullableText workerID)) ;;
        appendEvent runID (StepClaimed stepID claimID (step_AttemptCount step) workerID) ;;
        ret (step, origin)
    end.

Definition ClaimStep (runID : uuid) (stepID : string) (now : time) (traceSpan workerID : string)
    (claimID : uuid) : Tx RunStep :=
  let! x := ClaimStepWithOrigin runID stepID now traceSpan workerID claimID in ret (fst x).

(** The claim fence: [status = 'running' AND claim_id = @claim_id]. *)
Definition fenced (claimID : uuid) (x : RunStep) : bool :=
  has_status StepStatusRunning x && has_claim claimID x.

Definition TakeoverStep (runID : uuid) (stepID : string) (claimID : uuid) (now : time) : Tx RunStep :=
  transitionQueries now ;;
  lockRun runID ;;
  let! res := update_step runID stepID (fenced claimID)
    (λ x, x <| step_Status := StepStatusReady |> <| step_ClaimID := None |>
            <| step_UpdatedAt := now |>) in
  match res with
  | None => stepConflict runID stepID StepStatusRunning StepStatusReady (Some claimID)
  | Some step =>
      finishAttempt step AttemptOutcomeLost None None None None now ;;
      appendEvent runID (StepReclaimed stepID claimID (step_AttemptCount step)) ;;
      ret step
  end.

(** ** Completion *)

Definition SucceedStep (runID : uuid) (stepID : string) (claimID : uuid)
    (output usage verdict repair : option json) (now : time) : Tx RunStep :=
  transitionQueries now ;;
  lockRun runID ;;
  let! res := update_step runID stepID (fenced claimID)
    (λ x, x <| step_Status := StepStatusSucceeded |> <| step_Output := output |>
            <| step_Feedback := None |> <| step_FinishedAt := Some now |>
            <| step_UpdatedAt := now |>) in
  match res with
  | None => stepConflict runID stepID StepStatusRunning StepStatusSucceeded (Some claimID)
  | Some step =>
      finishAttempt step AttemptOutcomeSucceeded None usage verdict repair now ;;
      bumpCounters runID (noDeltas <| DSucceeded := 1 |>) ;;
      appendEvent runID (StepSucceededEv stepID (step_AttemptCount step)) ;;
      ret step
  end.

(** [outcome = None] is the empty string the source rejects. *)
Definition DeadLetterStep (runID : uuid) (stepID : string) (claimID : uuid)
    (source : DeadLetterSource) (outcome : option AttemptOutcome)
    (err usage verdict repair : option json) (now : time) : Tx RunStep :=
  transitionQueries now ;;
  match outcome with
  | None => throw (ErrBadArgs "empty Outcome")
  | Some class =>
      guard (bool_decide (source = DeadLetterSourceRetriesExhausted) ||
             bool_decide (source = DeadLetterSourcePermanent))
        (ErrBadArgs "source is not a fenced dead-letter source") ;;
      lockRun runID ;;
      let! res := update_step runID stepID (fenced claimID)
        (λ x, x <| step_Status := StepStatusDeadLettered |> <| step_Error := err |>
                <| step_Feedback := None |> <| step_FinishedAt := Some now |>
                <| step_UpdatedAt := now |>) in
      match res with
      | None => stepConflict runID stepID StepStatusRunning StepStatusDeadLettered (Some claimID)
      | Some step =>
          finishAttempt step class err usage verdict repair now ;;
          bumpCounters runID (noDeltas <| DFailed := 1 |>) ;;
          let! dl := CreateDeadLetter runID stepID source (Some class) err None
                       (step_AttemptCount step) now in
          appendEvent runID (StepDeadLetteredEv stepID source (Some class)
                               (step_AttemptCount step) (dl_Seq dl)) ;;
          ret step
      end
  end.

Definition CollectFailStep (runID : uuid) (stepID : string) (claimID : uuid)
    (outcome : option AttemptOutcome) (output err usage : option json) (now : time) : Tx RunStep :=
  transitionQueries now ;;
  match outcome with
  | None => throw (ErrBadArgs "empty Outcome")
  | Some class =>
      lockRun runID ;;
      let! res := update_step runID stepID (fenced claimID)
        (λ x, x <| step_Status := StepStatusCollected |> <| step_Output := output |>
                <| step_Error := err |> <| step_Feedback := None |>
                <| step_FinishedAt := Some now |> <| step_UpdatedAt := now |>) in
      match res with
      | None => stepConflict runID stepID StepStatusRunning StepStatusCollected (Some claimID)
      | Some step =>
          finishAttempt step class err usage None None now ;;
          bumpCounters runID (noDeltas <| DCollected := 1 |>) ;;
          appendEvent runID (StepCollectedEv stepID class (step_AttemptCount step)) ;;
          ret step
      end
  end.

(** PoisonDeadLetterRunStep's WHERE: any non-terminal claimable status. *)
Definition poisonable (x : RunStep) : bool :=
  has_status StepStatusPending x || has_status StepStatusReady x ||
  has_status StepStatusRunning x || has_status StepStatusRetrying x.

Definition PoisonDeadLetterStep (runID : uuid) (stepID : string) (err payload : option json)
    (now : time) : Tx RunStep :=
  transitionQueries now ;;
  lockRun runID ;;
  let! prior := GetRunStep runID stepID in
  let wasRunning := has_status StepStatusRunning prior in
  let! res := update_step runID stepID poisonable
    (λ x, x <| step_Status := StepStatusDeadLettered |> <| step_Error := err |>
            <| step_ClaimID := None |> <| step_NextAttemptAt := None |>
            <| step_Feedback := None |> <| step_FinishedAt := Some now |>
            <| step_UpdatedAt := now |>) in
  match res with
  | None =>
      throw (ErrTransition (mkTransitionError EntityStep runID stepID (StepSt (step_Status prior))
               (StepSt StepStatusDeadLettered) ConflictWrongStatus None (step_ClaimID prior)))
  | Some step =>
      (when wasRunning then finishAttempt step AttemptOutcomeLost err None None None now) ;;
      bumpCounters runID (noDeltas <| DFailed := 1 |>) ;;
      let! dl := CreateDeadLetter runID stepID DeadLetterSourcePoison None err payload
                   (step_AttemptCount step) now in
      appendEvent runID (StepDeadLetteredEv stepID DeadLetterSourcePoison None
                           (step_AttemptCount step) (dl_Seq dl)) ;;
      ret step
  end.

(** ** Cancellation and revival *)

(** CancelRunStep's WHERE: the claimless non-terminal statuses. *)
Definition cancellable (x : RunStep) : bool :=
  has_status StepStatusPending x || has_status StepStatusReady x || has_status StepStatusRetrying x.

Definition CancelStep (runID : uuid) (stepID reason : string) (now : time) : Tx RunStep :=
  transitionQueries now ;;
  guard (negb (bool_decide (reason = ""))) (ErrBadArgs "empty Reason") ;;
  lockRun runID ;;
  let! res := update_step runID stepID cancellable
    (λ x, x <| step_Status := StepStatusCancelled |> <| step_NextAttemptAt := None |>
            <| step_UpdatedAt := now |>) in
  match res with
  | None =>
      let! row := GetRunStep runID stepID in
      throw (ErrTransition (mkTransitionError EntityStep runID stepID (StepSt (step_Status row))
               (StepSt StepStatusCancelled) ConflictWrongStatus None (step_ClaimID row)))
  | Some step =>
      bumpCounters runID (noDeltas <| DCancelled := 1 |>) ;;
      appendEvent runID (StepCancelledEv stepID reason) ;;
      ret step
  end.

Definition CancelRunningStep (runID : uuid) (stepID : string) (claimID : uuid) (reason : string)
    (err : option json) (now : time) : Tx RunStep :=
  transitionQueries now ;;
  guard (negb (bool_decide (reason = ""))) (ErrBadArgs "empty Reason") ;;
  lockRun runID ;;
  let! res := update_step runID stepID (fenced claimID)
    (λ x, x <| step_Status := StepStatusCancelled |> <| step_Error := err |>
            <| step_FinishedAt := Some now |> <| step_UpdatedAt := now |>) in
  match res with
  | None => stepConflict runID stepID StepStatusRunning StepStatusCancelled (Some claimID)
  | Some step =>
      finishAttempt step AttemptOutcomeCancelled err None None None now ;;
      bumpCounters runID (noDeltas <| DCancelled := 1 |>) ;;
      appendEvent runID (StepCancelledEv stepID reason) ;;
      ret step
  end.

Definition RequeueStep (runID : uuid) (stepID : string) (now : time) : Tx RunStep :=
  transitionQueries now ;;
  lockRun runID ;;
  let! res := update_step runID stepID (has_status StepStatusDeadLettered)
    (λ x, x <| step_Status := StepStatusReady |> <| step_Error := None |>
            <| step_NextAttemptAt := None |> <| step_FinishedAt := None |>
            <| step_UpdatedAt := now |>) in
  match res with
  | None => stepConflict runID stepID StepStatusDeadLettered StepStatusReady None
  | Some step =>
      bumpCounters runID (noDeltas <| DFailed := -1 |>) ;;
      appendEvent runID (StepRequeuedEv stepID) ;;
      ret step
  end.

Definition ReviveStep (runID : uuid) (stepID reason : string) (now : time) : Tx RunStep :=
  transitionQueries now ;;
  guard (negb (bool_decide (reason = ""))) (ErrBadArgs "empty Reason") ;;
  lockRun runID ;;
  let! res := update_step runID stepID (has_status StepStatusCancelled)
    (λ x, x <| step_Status := StepStatusPending |> <| step_UpdatedAt := now |>) in
  match res with
  | None => stepConflict runID stepID StepStatusCancelled StepStatusPending None
  | Some step =>
      bumpCounters runID (noDeltas <| DCancelled := -1 |>) ;;
      appendEvent runID (StepRevivedEv stepID reason) ;;
      ret step
  end.

(** ** Retry routes *)

(** RetryRunStep. *)
Definition RetryRunStep (err : option json) (next now : time) (x : RunStep) : RunStep :=
  x <| step_Status := StepStatusRetrying |> <| step_Error := err |> <| step_ClaimID := None |>
    <| step_NextAttemptAt := Some next |> <| step_UpdatedAt := now |>.

Definition RetryStep (runID : uuid) (stepID : string) (claimID : uuid) (outcome : AttemptOutcome)
    (err usage : option json) (nextAttemptAt now : time) : Tx RunStep :=
  transitionQueries now ;;
  guard (bool_decide (outcome = AttemptOutcomeTransient) ||
         bool_decide (outcome = AttemptOutcomeTimeout))
    (ErrBadArgs "outcome is not a counted retryable class") ;;
  guard (negb (nextAttemptAt =? 0)) (ErrBadArgs "zero NextAttemptAt") ;;
  lockRun runID ;;
  let! res := update_step runID stepID (fenced claimID) (RetryRunStep err nextAttemptAt now) in
  match res with
  | None => stepConflict runID stepID StepStatusRunning StepStatusRetrying (Some claimID)
  | Some step =>
      finishAttempt step outcome err usage None None now ;;
      appendEvent runID (StepRetryScheduled stepID (step_AttemptCount step) outcome nextAttemptAt) ;;
      ret step
  end.

Definition ThrottleStep (runID : uuid) (stepID : string) (claimID : uuid)
    (resource bucket retryAfter : string) (nextAttemptAt now : time) : Tx RunStep :=
  transitionQueries now ;;
  guard (negb (nextAttemptAt =? 0)) (ErrBadArgs "zero NextAttemptAt") ;;
  lockRun runID ;;
  let errPayload := Some (JObj [("bucket", JStr bucket); ("outcome", JStr "throttled");
                                ("resource", JStr resource)]) in
  let! res := update_step runID stepID (fenced claimID)
                (RetryRunStep errPayload nextAttemptAt now) in
  match res with
  | None => stepConflict runID stepID StepStatusRunning StepStatusRetrying (Some claimID)
  | Some step =>
      finishAttempt step AttemptOutcomeThrottled errPayload None None None now ;;
      appendEvent runID (StepThrottledEv stepID (step_AttemptCount step) resource bucket
                           retryAfter nextAttemptAt) ;;
      ret step
  end.

Definition SemanticRetryStep (runID : uuid) (stepID : string) (claimID : uuid)
    (err usage verdict repair feedback : option json)
    (semanticAttempt maxAttempts issueCount : Z) (nextAttemptAt now : time) : Tx RunStep :=
  transitionQueries now ;;
  guard (negb (nextAttemptAt =? 0)) (ErrBadArgs "zero NextAttemptAt") ;;
  lockRun runID ;;
  let! res := update_step runID stepID (fenced claimID)
    (λ x, RetryRunStep err nextAttemptAt now x <| step_Feedback := feedback |>) in
  match res with
  | None => stepConflict runID stepID StepStatusRunning StepStatusRetrying (Some claimID)
  | Some step =>
      finishAttempt step AttemptOutcomeValidationFailed err usage verdict repair now ;;
      appendEvent runID (StepSemanticRetryEv stepID (step_AttemptCount step) semanticAttempt
                           maxAttempts issueCount nextAttemptAt) ;;
      ret step
  end.

(** ** Edge resolution, readiness, skip *)

Record ResolveEdgeResult : Type := mkResolveEdgeResult {
  Resolved : bool;
  ResEdge : RunEdge;
  ToStep : option RunStep        (** None when [Resolved] is false *)
}.

(** resolveEdgeNoop: diagnose a ResolveRunEdge that matched nothing. *)
Definition resolveEdgeNoop (runID : uuid) (ordinal : Z) (resolution : EdgeResolution)
    : Tx ResolveEdgeResult :=
  let! edge := GetRunEdge runID ordinal in
  if bool_decide (edge_EdgeType edge = EdgeTypeLoop) then throw (ErrLoopEdge ordinal)
  else if bool_decide (edge_Resolution edge = resolution)
       then ret (mkResolveEdgeResult false edge None)
  else throw (ErrReResolve ordinal).

Definition ResolveEdge (runID : uuid) (ordinal : Z) (fired : bool) (now : time)
    : Tx ResolveEdgeResult :=
  transitionQueries now ;;
  lockRun runID ;;
  let resolution := if fired then EdgeResolutionFired else EdgeResolutionSkipped in
  let! e := update_edge runID ordinal
    (λ x, bool_decide (edge_EdgeType x = EdgeTypeNormal) &&
          bool_decide (edge_Resolution x = EdgeResolutionUnresolved))
    (λ x, x <| edge_Resolution := resolution |>) in
  match e with
  | None => resolveEdgeNoop runID ordinal resolution
  | Some edge =>
      let firedDelta := if fired then 1 else 0 in
      let! res := update_step runID (edge_ToStep edge) (λ x, 0 <? step_RemainingDeps x)
        (λ x, x <| step_RemainingDeps := step_RemainingDeps x - 1 |>
                <| step_FiredDeps := step_FiredDeps x + firedDelta |>
                <| step_UpdatedAt := now |>) in
      match res with
      | None => GetRunStep runID (edge_ToStep edge) ;; throw (ErrBookkeeping (edge_ToStep edge))
      | Some toStep => ret (mkResolveEdgeResult true edge (Some toStep))
      end
  end.

(** ReadyRunStep's WHERE: the dependency-counter guard. *)
Definition readyable (joinAny : bool) (x : RunStep) : bool :=
  has_status StepStatusPending x && (1 <=? step_FiredDeps x) &&
  ((step_RemainingDeps x =? 0) || joinAny).

Definition ReadyStep (runID : uuid) (stepID : string) (joinAny : bool) (now : time) : Tx RunStep :=
  transitionQueries now ;;
  lockRun runID ;;
  let! res := update_step runID stepID (readyable joinAny)
    (λ x, x <| step_Status := StepStatusReady |> <| step_UpdatedAt := now |>) in
  match res with
  | None => stepConflict runID stepID StepStatusPending StepStatusReady None
  | Some step => appendEvent runID (StepReadyEv stepID) ;; ret step
  end.

(** SkipRunStep's WHERE: every incoming edge resolved, none fired. *)
Definition skippable (x : RunStep) : bool :=
  has_status StepStatusPending x && (step_RemainingDeps x =? 0) && (step_FiredDeps x =? 0).

Definition SkipStep (runID : uuid) (stepID : string) (now : time) : Tx RunStep :=
  transitionQueries now ;;
  lockRun runID ;;
  let! res := update_step runID stepID skippable
    (λ x, x <| step_Status := StepStatusSkipped |> <| step_UpdatedAt := now |>) in
  match res with
  | None => stepConflict runID stepID StepStatusPending StepStatusSkipped None
  | Some step =>
      bumpCounters runID (noDeltas <| DSkipped := 1 |>) ;;
      appendEvent runID (StepSkippedEv stepID) ;;
      ret step
  end.

(** ** Run transitions *)

Definition run_has (st : RunStatus) (x : Run) : bool := bool_decide (run_Status x = st).
(** [status IN ('running', 'parked')]. *)
Definition run_open (x : Run) : bool := run_has RunStatusRunning x || run_has RunStatusParked x.
(** The all-terminal counter form of the rollup guards. *)
Definition all_accounted (x : Run) : bool :=
  run_StepsSucceeded x + run_StepsFailed x + run_StepsSkipped x + run_StepsCancelled x
    + run_StepsCollected x =? run_StepsTotal x.

Definition finish_run (st : RunStatus) (now : time) (x : Run) : Run :=
  x <| run_Status := st |> <| run_ParkReason := None |> <| run_FinishedAt := Some now |>.

Definition SucceedRun (runID : uuid) (now : time) : Tx Run :=
  transitionQueries now ;;
  lockRun runID ;;
  let! res := update_run runID
    (λ x, run_open x && (run_StepsFailed x =? 0) &&
          (run_StepsSucceeded x + run_StepsSkipped x + run_StepsCollected x =? run_StepsTotal x))
    (finish_run RunStatusSucceeded now) in
  match res with
  | None => runConflict runID RunStatusRunning RunStatusSucceeded
  | Some run => appendEvent runID RunSucceededEv ;; ret run
  end.

Definition FailRun (runID : uuid) (now : time) : Tx Run :=
  transitionQueries now ;;
  lockRun runID ;;
  let! res := update_run runID (λ x, run_open x && (1 <=? run_StepsFailed x))
    (finish_run RunStatusFailed now) in
  match res with
  | None => runConflict runID RunStatusRunning RunStatusFailed
  | Some run => appendEvent runID RunFailedEv ;; ret run
  end.

Definition FailRunRollup (runID : uuid) (now : time) : Tx Run :=
  transitionQueries now ;;
  lockRun runID ;;
  let! res := update_run runID
    (λ x, run_open x && (1 <=? run_StepsFailed x) && all_accounted x)
    (finish_run RunStatusFailed now) in
  match res with
  | None => runConflict runID RunStatusRunning RunStatusFailed
  | Some run => appendEvent runID RunFailedEv ;; ret run
  end.

Definition ResumeRun (runID : uuid) (now : time) : Tx Run :=
  transitionQueries now ;;
  lockRun runID ;;
  let! res := update_run runID (run_has RunStatusFailed)
    (λ x, x <| run_Status := RunStatusRunning |> <| run_FinishedAt := None |>) in
  match res with
  | None => runConflict runID RunStatusFailed RunStatusRunning
  | Some run => appendEvent runID RunResumedEv ;; ret run
  end.

(** The generated ParkRun query, shared by ParkRun and BudgetParkStep. *)
Definition ParkRunQuery (runID : uuid) (reason : string) : Tx (option Run) :=
  update_run runID (run_has RunStatusRunning)
    (λ x, x <| run_Status := RunStatusParked |> <| run_ParkReason := Some reason |>).

Definition ParkRun (runID : uuid) (reason : string) (now : time) : Tx Run :=
  transitionQueries now ;;
  guard (bool_decide (reason = ParkReasonManual) || bool_decide (reason = ParkReasonBudgetExceeded)
         || bool_decide (reason = ParkReasonAwaitingHuman)) (ErrBadArgs "unknown park reason") ;;
  lockRun runID ;;
  let! res := ParkRunQuery runID reason in
  match res with
  | None => runConflict runID RunStatusRunning RunStatusParked
  | Some run => appendEvent runID (RunParkedEv reason) ;; ret run
  end.

Definition UnparkRun (runID : uuid) (now : time) : Tx Run :=
  transitionQueries now ;;
  lockRun runID ;;
  let! res := update_run runID (run_has RunStatusParked)
    (λ x, x <| run_Status := RunStatusRunning |> <| run_ParkReason := None |>) in
  match res with
  | None => runConflict runID RunStatusParked RunStatusRunning
  | Some run => appendEvent runID RunUnparkedEv ;; ret run
  end.

Definition CancelRun (runID : uuid) (reason : string) (now : time) : Tx Run :=
  transitionQueries now ;;
  guard (bool_decide (reason = RunCancelReasonManual)
         || bool_decide (reason = RunCancelReasonDeadlineExceeded))
    (ErrBadArgs "unknown cancel reason") ;;
  lockRun runID ;;
  let! res := update_run runID run_open
    (λ x, x <| run_Status := RunStatusCancelling |> <| run_CancelReason := Some reason |>
            <| run_ParkReason := None |>) in
  match res with
  | None => runConflict runID RunStatusRunning RunStatusCancelling
  | Some run => appendEvent runID (RunCancellingEv reason) ;; ret run
  end.

Definition CancelRunRollup (runID : uuid) (now : time) : Tx Run :=
  transitionQueries now ;;
  lockRun runID ;;
  let! res := update_run runID (λ x, run_has RunStatusCancelling x && all_accounted x)
    (λ x, x <| run_Status := RunStatusCancelled |> <| run_FinishedAt := Some now |>) in
  match res with
  | None => runConflict runID RunStatusCancelling RunStatusCancelled
  | Some run => appendEvent runID RunCancelledEv ;; ret run
  end.

Definition LockRunStatus (runID : uuid) (now : time) : Tx RunStatus :=
  transitionQueries now ;;
  let! row := lockRun runID in ret (run_Status row).

(** ** Budget (budget.go) *)

(** The [omitempty] JSON fields. *)
Definition omitZ (k : string) (z : Z) : list (string * json) :=
  if z =? 0 then [] else [(k, JNum z)].
Definition omitS (k s : string) : list (string * json) :=
  if bool_decide (s = "") then [] else [(k, JStr s)].

(** json.Marshal of the event, the attempt's error payload. *)
Definition budget_event_json (ev : BudgetExceededEvent) : json :=
  JObj ([("step_id", JStr (be_StepID ev)); ("attempt", JNum (be_Attempt ev))] ++
        omitS "resource" (be_Resource ev) ++
        [("limit", JStr (be_Limit ev)); ("action", JStr (be_Action ev))] ++
        omitZ "spent_nano_usd" (be_SpentNanoUSD ev) ++
        omitZ "estimate_nano_usd" (be_EstimateNanoUSD ev) ++
        omitZ "projected_nano_usd" (be_ProjectedNanoUSD ev) ++
        omitZ "budget_nano_usd" (be_BudgetNanoUSD ev) ++
        omitZ "projected_tokens" (be_ProjectedTokens ev) ++
        omitZ "max_tokens" (be_MaxTokens ev)).

Definition BudgetParkStep (runID : uuid) (stepID : string) (claimID : uuid)
    (ev : BudgetExceededEvent) (now : time) : Tx RunStep :=
  transitionQueries now ;;
  let! run := lockRun runID in
  let! res := update_step runID stepID (fenced claimID)
    (λ x, x <| step_Status := StepStatusReady |> <| step_ClaimID := None |>
            <| step_UpdatedAt := now |>) in
  match res with
  | None => stepConflict runID stepID StepStatusRunning StepStatusReady (Some claimID)
  | Some step =>
      let ev' := ev <| be_StepID := stepID |> <| be_Attempt := step_AttemptCount step |>
                    <| be_Action := "park" |> in
      finishAttempt step AttemptOutcomeBudgetExceeded (Some (budget_event_json ev'))
        None None None now ;;
      appendEvent runID (BudgetExceededEv ev') ;;
      (when bool_decide (run_Status run = RunStatusRunning) then
         (let! p := ParkRunQuery runID ParkReasonBudgetExceeded in
          match p with
          | None => throw ErrNotFound
          | Some _ => appendEvent runID (RunParkedEv ParkReasonBudgetExceeded)
          end)) ;;
      ret step
  end.

(** SetRunBudget's guard: a non-terminal run. *)
Definition run_not_terminal (x : Run) : bool :=
  negb (run_has RunStatusSucceeded x || run_has RunStatusFailed x || run_has RunStatusCancelled x).

Definition SetRunBudget (runID : uuid) (budget : Z) (now : time) : Tx Run :=
  transitionQueries now ;;
  let! locked := lockRun runID in
  let previous := match run_BudgetNanoUsd locked with Some b => b | None => 0 end in
  let! res := update_run runID run_not_terminal (λ x, x <| run_BudgetNanoUsd := Some budget |>) in
  match res with
  | None => throw (ErrTransition (mkTransitionError EntityRun runID "" (RunSt (run_Status locked))
                     (RunSt (run_Status locked)) ConflictWrongStatus None None))
  | Some run => appendEvent runID (RunBudgetUpdatedEv previous budget) ;; ret run
  end.

Definition RecordModelDowngrade (runID : uuid) (stepID : string) (claimID : uuid)
    (detail : json) (now : time) : Tx unit :=
  transitionQueries now ;;
  lockRun runID ;;
  let! step := GetRunStep runID stepID in
  if negb (fenced claimID step)
  then stepConflict runID stepID StepStatusRunning StepStatusRunning (Some claimID)
  else appendEvent runID (ModelDowngradedEv stepID (step_AttemptCount step) detail).

(** ** Cost ledger (costs.go) *)

Definition EntryAttempt : string := "attempt".

Record AttemptCostArgs : Type := mkAttemptCostArgs {
  ac_RunID : uuid;
  ac_StepID : string;
  ac_Attempt : Z;
  ac_Entry : string;
  ac_Resource : string;
  ac_Usage : option json;
  ac_Rate : option json;
  ac_RateSource : string;
  ac_CacheHit : bool;
  ac_Overhead : bool;
  ac_CostNanoUSD : Z;
  ac_SavedNanoUSD : Z;
  ac_Warning : option (string * json);
  ac_Now : time
}.

Definition is_ledger_row (r : uuid) (s : string) (n : Z) (e : string) (x : CostLedger) : bool :=
  bool_decide (cl_RunID x = r) && bool_decide (cl_StepID x = s) && (cl_Attempt x =? n) &&
  bool_decide (cl_Entry x = e).

(** InsertCostLedgerEntry, with the non-negativity CHECKs, the primary key and the
    reference to the run. *)
Definition InsertCostLedgerEntry (row : CostLedger) : Tx unit :=
  let! d := get in
  guard ((0 <=? cl_CostNanoUsd row) && (0 <=? cl_SavedNanoUsd row)) (ErrCheck "cost_ledger_check") ;;
  if existsb (is_ledger_row (cl_RunID row) (cl_StepID row) (cl_Attempt row) (cl_Entry row))
       (cost_ledger d)
  then throw (ErrUnique "cost_ledger_pkey")
  else if negb (existsb (is_run (cl_RunID row)) (runs d)) then throw (ErrUnique "cost_ledger_run_id_fkey")
  else put (d <| cost_ledger := cost_ledger d ++ [row] |>).

Record CostApplied : Type := mkCostApplied {
  RunSpentNanoUSD : Z; RunSavedNanoUSD : Z; CABudgetNanoUSD : option Z
}.

Definition ApplyAttemptCost (args : AttemptCostArgs) : Tx CostApplied :=
  transitionQueries (ac_Now args) ;;
  guard (negb (bool_decide (ac_Resource args = ""))) (ErrBadArgs "empty Resource") ;;
  match ac_Rate args with
  | None => throw (ErrBadArgs "empty Rate snapshot")
  | Some rate =>
      let entry := if bool_decide (ac_Entry args = "") then EntryAttempt else ac_Entry args in
      InsertCostLedgerEntry (mkCostLedger (ac_RunID args) (ac_StepID args) (ac_Attempt args) entry
        (ac_Resource args) (ac_Usage args) rate (ac_RateSource args) (ac_CacheHit args)
        (ac_Overhead args) (ac_CostNanoUSD args) (ac_SavedNanoUSD args) (ac_Now args)) ;;
      let! total := update_run (ac_RunID args) (λ _, true)
        (λ x, x <| run_SpentNanoUsd := run_SpentNanoUsd x + ac_CostNanoUSD args |>
                <| run_SavedNanoUsd := run_SavedNanoUsd x + ac_SavedNanoUSD args |>) in
      match total with
      | None => throw ErrNotFound
      | Some t =>
          appendEvent (ac_RunID args)
            (CostUpdatedEv (ac_StepID args) (ac_Attempt args) entry (ac_Resource args)
               (ac_CacheHit args) (ac_Overhead args) (ac_CostNanoUSD args) (ac_SavedNanoUSD args)
               (run_SpentNanoUsd t) (run_SavedNanoUsd t) (run_BudgetNanoUsd t)) ;;
          (match ac_Warning args with
           | Some (m, f) => appendEvent (ac_RunID args) (CostUnknownModelEv m f)
           | None => ret tt
           end) ;;
          ret (mkCostApplied (run_SpentNanoUsd t) (run_SavedNanoUsd t) (run_BudgetNanoUsd t))
      end
  end.

(** ** Loop and guard records (loop.go) *)

Definition RecordLoopExhausted (runID : uuid) (ev : json) (now : time) : Tx unit :=
  transitionQueries now ;; appendEvent runID (LoopExhaustedEv ev).

Definition RecordLoopNoProgress (runID : uuid) (ev : json) (now : time) : Tx unit :=
  transitionQueries now ;; appendEvent runID (LoopNoProgressEv ev).

Definition RecordGuardTripped (runID : uuid) (guard stepID : string) (current cap : Z)
    (unit action : string) (now : time) : Tx _ :=
  transitionQueries now ;; appendEvent runID (GuardTrippedEv guard stepID current cap unit action).

(** ** Human approval (approval.go) *)

Record ApprovalRow : Type := mkApprovalRow {
  arow_ID : uuid;
  arow_Title : string;
  arow_Description : string;
  arow_Payload : option json;
  arow_AllowedDecisions : list string;
  arow_AllowEdit : bool;
  arow_EditSchema : option json;
  arow_TimeoutAt : option time
}.

Definition is_approval (i : uuid) (x : Approval) : bool := bool_decide (ap_ID x = i).
Definition ap_has (st : ApprovalStatus) (x : Approval) : bool := bool_decide (ap_Status x = st).
Definition ap_of_step (r : uuid) (s : string) (x : Approval) : bool :=
  bool_decide (ap_RunID x = r) && bool_decide (ap_StepID x = s).

(** INSERT INTO approvals: the primary key, and the unique partial index on
    (run_id, step_id) WHERE status = 'pending'. *)
Definition InsertApproval (r : uuid) (s : string) (attemptNo : Z) (a : ApprovalRow) (now : time)
    : Tx unit :=
  let! d := get in
  if existsb (is_approval (arow_ID a)) (approvals d) then throw (ErrUnique "approvals_pkey")
  else if existsb (λ x, ap_of_step r s x && ap_has ApprovalStatusPending x) (approvals d)
  then throw (ErrUnique "approvals_one_pending_per_step_idx")
  else put (d <| approvals := approvals d ++
    [mkApproval (arow_ID a) r s attemptNo ApprovalStatusPending (arow_Title a) (arow_Description a)
       (arow_Payload a) (arow_AllowedDecisions a) (arow_AllowEdit a) (arow_EditSchema a)
       (arow_TimeoutAt a) None None None None None None now now None] |>).

Definition update_approval (p : Approval → bool) (f : Approval → Approval) : Tx (option Approval) :=
  let! d := get in
  match update_first p f (approvals d) with
  | Some (x, l) => put (d <| approvals := l |>) ;; ret (Some x)
  | None => ret None
  end.

Definition GetApproval (i : uuid) : Tx Approval :=
  let! d := get in
  match find (is_approval i) (approvals d) with Some x => ret x | None => throw ErrNotFound end.

Definition AwaitHumanStep (runID : uuid) (stepID : string) (claimID : uuid) (a : ApprovalRow)
    (now : time) : Tx RunStep :=
  transitionQueries now ;;
  lockRun runID ;;
  let! res := update_step runID stepID (fenced claimID)
    (λ x, x <| step_Status := StepStatusAwaitingHuman |> <| step_ClaimID := None |>
            <| step_UpdatedAt := now |>) in
  match res with
  | None => stepConflict runID stepID StepStatusRunning StepStatusAwaitingHuman (Some claimID)
  | Some step =>
      InsertApproval runID stepID (step_AttemptCount step) a now ;;
      appendEvent runID (ApprovalRequestedEv (arow_ID a) stepID (step_AttemptCount step)
        (arow_Title a) (arow_AllowedDecisions a) (arow_AllowEdit a) (arow_TimeoutAt a)) ;;
      ret step
  end.

Definition CancelAwaitingHumanStep (runID : uuid) (stepID reason : string) (now : time)
    : Tx RunStep :=
  transitionQueries now ;;
  guard (negb (bool_decide (reason = ""))) (ErrBadArgs "empty Reason") ;;
  lockRun runID ;;
  let! res := update_step runID stepID (has_status StepStatusAwaitingHuman)
    (λ x, x <| step_Status := StepStatusCancelled |> <| step_NextAttemptAt := None |>
            <| step_FinishedAt := Some now |> <| step_UpdatedAt := now |>) in
  match res with
  | None => stepConflict runID stepID StepStatusAwaitingHuman StepStatusCancelled None
  | Some step =>
      finishAttempt step AttemptOutcomeCancelled None None None None now ;;
      bumpCounters runID (noDeltas <| DCancelled := 1 |>) ;;
      appendEvent runID (StepCancelledEv stepID reason) ;;
      let! ap := update_approval
        (λ x, ap_of_step runID stepID x && ap_has ApprovalStatusPending x)
        (λ x, x <| ap_Status := ApprovalStatusCancelled |> <| ap_UpdatedAt := now |>) in
      match ap with
      | None => ret step
      | Some x => appendEvent runID (ApprovalCancelledEv (ap_ID x) stepID reason) ;; ret step
      end
  end.

Definition ApprovalActionRejected : string := "rejected".
Definition ApprovalActionApproved : string := "approved".
Definition ApprovalActionRunParked : string := "run_parked".
Definition ApprovalActionRunAlreadyParked : string := "run_already_parked".
(** dag.ApprovalApprove / ApprovalReject / ApprovalTimeoutPark. *)
Definition ApprovalApprove : string := "approve".
Definition ApprovalReject : string := "reject".
Definition ApprovalTimeoutPark : string := "park".

Record DecideApprovalArgs : Type := mkDecideApprovalArgs {
  da_ID : uuid;
  da_RunID : uuid;
  da_StepID : string;
  da_AttemptNo : Z;
  da_Status : ApprovalStatus;
  da_Decision : string;
  da_ExpiredAt : option time;
  da_TimeoutAt : option time;
  da_EditedPayload : option json;
  da_Comment : string;
  da_DecidedBy : string;
  da_Source : string;
  da_Now : time
}.

Definition DecideApproval (a : DecideApprovalArgs) : Tx Approval :=
  transitionQueries (da_Now a) ;;
  guard (match da_Status a with
         | ApprovalStatusApproved | ApprovalStatusRejected | ApprovalStatusExpired => true
         | _ => false
         end) (ErrBadArgs "status is not a decision status") ;;
  lockRun (da_RunID a) ;;
  let! res := update_approval (λ x, is_approval (da_ID a) x && ap_has ApprovalStatusPending x)
    (λ x, x <| ap_Status := da_Status a |> <| ap_Decision := Some (da_Decision a) |>
            <| ap_EditedPayload := da_EditedPayload a |> <| ap_Comment := nullableText (da_Comment a) |>
            <| ap_DecidedBy := Some (da_DecidedBy a) |> <| ap_DecidedAt := Some (da_Now a) |>
            <| ap_DecisionSource := Some (da_Source a) |> <| ap_ExpiredAt := da_ExpiredAt a |>
            <| ap_UpdatedAt := da_Now a |>) in
  match res with
  | None =>
      let! cur := GetApproval (da_ID a) in
      throw (ErrApprovalNotPending (da_ID a) (ap_Status cur))
  | Some approval =>
      (if bool_decide (da_Status a = ApprovalStatusExpired) then
         let action := if bool_decide (da_Decision a = ApprovalReject)
                       then ApprovalActionRejected else ApprovalActionApproved in
         appendEvent (da_RunID a) (ApprovalExpiredEv (da_ID a) (da_StepID a) (da_AttemptNo a)
           (da_Decision a) (da_Decision a) action (da_TimeoutAt a))
       else
         appendEvent (da_RunID a) (ApprovalDecidedEv (da_ID a) (da_StepID a) (da_AttemptNo a)
           (da_Decision a) (match da_EditedPayload a with Some _ => true | None => false end)
           (da_Comment a) (da_DecidedBy a) (da_Source a))) ;;
      ret approval
  end.

Definition ExpireApprovalPark (approvalID runID : uuid) (stepID : string) (attemptNo : Z)
    (timeoutAt : option time) (now : time) : Tx (Approval * Run * string) :=
  transitionQueries now ;;
  let! runRow := lockRun runID in
  let! res := update_approval
    (λ x, is_approval approvalID x && ap_has ApprovalStatusPending x &&
          match ap_ExpiredAt x with None => true | Some _ => false end)
    (λ x, x <| ap_ExpiredAt := Some now |> <| ap_UpdatedAt := now |>) in
  match res with
  | None =>
      let! cur := GetApproval approvalID in
      if negb (ap_has ApprovalStatusPending cur)
      then throw (ErrApprovalNotPending approvalID (ap_Status cur))
      else throw (ErrApprovalAlreadyExpired approvalID)
  | Some approval =>
      let! ra :=
        if run_has RunStatusParked runRow then
          let! run := GetRun runID in ret (run, ApprovalActionRunAlreadyParked)
        else
          let! run := ParkRun runID ParkReasonAwaitingHuman now in ret (run, ApprovalActionRunParked) in
      appendEvent runID (ApprovalExpiredEv approvalID stepID attemptNo ApprovalTimeoutPark ""
        (snd ra) timeoutAt) ;;
      ret (approval, fst ra, snd ra)
  end.

Definition SucceedAwaitingHumanStep (runID : uuid) (stepID : string) (output : option json)
    (now : time) : Tx RunStep :=
  transitionQueries now ;;
  lockRun runID ;;
  let! res := update_step runID stepID (has_status StepStatusAwaitingHuman)
    (λ x, x <| step_Status := StepStatusSucceeded |> <| step_Output := output |>
            <| step_FinishedAt := Some now |> <| step_UpdatedAt := now |>) in
  match res with
  | None => stepConflict runID stepID StepStatusAwaitingHuman StepStatusSucceeded None
  | Some step =>
      finishAttempt step AttemptOutcomeSucceeded None None None None now ;;
      bumpCounters runID (noDeltas <| DSucceeded := 1 |>) ;;
      appendEvent runID (StepSucceededEv stepID (step_AttemptCount step)) ;;
      ret step
  end.

Definition DeadLetterAwaitingHumanStep (runID : uuid) (stepID : string) (err : option json)
    (now : time) : Tx RunStep :=
  transitionQueries now ;;
  lockRun runID ;;
  let! res := update_step runID stepID (has_status StepStatusAwaitingHuman)
    (λ x, x <| step_Status := StepStatusDeadLettered |> <| step_Error := err |>
            <| step_FinishedAt := Some now |> <| step_UpdatedAt := now |>) in
  match res with
  | None => stepConflict runID stepID StepStatusAwaitingHuman StepStatusDeadLettered None
  | Some step =>
      finishAttempt step AttemptOutcomePermanent err None None None now ;;
      bumpCounters runID (noDeltas <| DFailed := 1 |>) ;;
      let! dl := CreateDeadLetter runID stepID DeadLetterSourcePermanent
                   (Some AttemptOutcomePermanent) err None (step_AttemptCount step) now in
      appendEvent runID (StepDeadLetteredEv stepID DeadLetterSourcePermanent
        (Some AttemptOutcomePermanent) (step_AttemptCount step) (dl_Seq dl)) ;;
      ret step
  end.

Definition RecordApprovalNotification (runID : uuid) (payload : Payload) (now : time) : Tx unit :=
  transitionQueries now ;;
  lockRun runID ;;
  appendEvent runID payload.
