(* ===== verification/Effects.v ===== *)
(** What the primitive writes of a transition do to a well-formed database, and
    the effect specification the guarded transitions are proved to implement. *)
From S2P Require Import Prelude StoreModel Transitions.
Open Scope Z_scope.

(** ** Primary keys *)
Definition step_key (x : RunStep) : uuid * string := (step_RunID x, step_StepID x).
Definition edge_key (x : RunEdge) : uuid * Z := (edge_RunID x, edge_Ordinal x).
Definition att_key (x : StepAttempt) : uuid * string * Z := (att_RunID x, att_StepID x, att_AttemptNo x).

Lemma is_run_key r x : is_run r x = true ↔ run_ID x = r.
Proof. unfold is_run. apply bool_decide_eq_true. Qed.
Lemma is_step_key k x : is_step k.1 k.2 x = true ↔ step_key x = k.
Proof.
  destruct k as [r s]. unfold is_step, step_key. rewrite andb_true_iff, !bool_decide_eq_true. cbn.
  naive_solver.
Qed.
Lemma is_edge_key k x : is_edge k.1 k.2 x = true ↔ edge_key x = k.
Proof.
  destruct k as [r o]. unfold is_edge, edge_key. rewrite andb_true_iff, !bool_decide_eq_true. cbn.
  naive_solver.
Qed.
Lemma is_attempt_key k x : is_attempt k.1.1 k.1.2 k.2 x = true ↔ att_key x = k.
Proof.
  destruct k as [[r s] n]. unfold is_attempt, att_key.
  rewrite !andb_true_iff, !bool_decide_eq_true. cbn. naive_solver.
Qed.

(** ** The light invariant the primitives need to be evaluated *)

(** No event of a run carries a seq beyond the run's allocator. *)
Definition events_fresh (rs : list Run) (es : list Event) : Prop :=
  ∀ x e, x ∈ rs → e ∈ es → ev_RunID e = run_ID x → ev_Seq e ≤ run_NextSeq x.

Definition next_seq (x : Run) : Run := x <| run_NextSeq := run_NextSeq x + 1 |>.
Definition bump (p : Deltas) (x : Run) : Run :=
  x <| run_StepsSucceeded := run_StepsSucceeded x + DSucceeded p |>
    <| run_StepsFailed := run_StepsFailed x + DFailed p |>
    <| run_StepsSkipped := run_StepsSkipped x + DSkipped p |>
    <| run_StepsCancelled := run_StepsCancelled x + DCancelled p |>
    <| run_StepsCollected := run_StepsCollected x + DCollected p |>.
Definition close_attempt (o : AttemptOutcome) (err usage verdict repair : option json) (now : time)
    (a : StepAttempt) : StepAttempt :=
  a <| att_Outcome := Some o |> <| att_Error := err |> <| att_Usage := usage |>
    <| att_Verdict := verdict |> <| att_Repair := repair |> <| att_FinishedAt := Some now |>.

Lemma run_keys_set (f : Run → Run) r (l : list Run) :
  (∀ x, run_ID (f x) = run_ID x) → NoDup (run_ID <$> l) →
  NoDup (run_ID <$> set_row (is_run r) f l).
Proof. intros Hf. by rewrite (set_row_keys run_ID is_run). Qed.

Lemma step_keys_set (f : RunStep → RunStep) r s (l : list RunStep) :
  (∀ x, step_key (f x) = step_key x) → NoDup (step_key <$> l) →
  NoDup (step_key <$> set_row (is_step r s) f l).
Proof.
  intros Hf. by rewrite (set_row_keys step_key (λ k, is_step k.1 k.2) (r, s)).
Qed.

Lemma events_fresh_set (f : Run → Run) r rs es :
  (∀ x, run_ID (f x) = run_ID x) → (∀ x, run_NextSeq x ≤ run_NextSeq (f x)) →
  events_fresh rs es → events_fresh (set_row (is_run r) f rs) es.
Proof.
  intros Hid Hs H y e Hy He. 
  apply (elem_of_set_row run_ID is_run is_run_key) in Hy as [(x & Hx & _ & ->)|[Hy _]]; [|eauto].
  rewrite Hid. intros E. etrans; [by apply (H x e)|apply Hs].
Qed.

Lemma events_fresh_append r x rs es p :
  NoDup (run_ID <$> rs) → find (is_run r) rs = Some x → events_fresh rs es →
  events_fresh (set_row (is_run r) next_seq rs) (es ++ [mkEvent r (run_NextSeq x + 1) p]).
Proof.
  intros Hnd Hf H y e Hy He E. apply elem_of_app in He as [He|He%list_elem_of_singleton].
  - eapply events_fresh_set; [..|done|done|done|done]; [done|]. intros z. cbn. lia.
  - subst e. cbn in *.
    apply (elem_of_set_row run_ID is_run is_run_key) in Hy as [(z & Hz & Ek & ->)|[Hy Hne]];
      [|congruence].
    apply (find_key_Some run_ID is_run is_run_key) in Hf as [Hx Hk].
    assert (z = x) as -> by (eapply (keyed_unique run_ID is_run is_run_key); eauto; congruence).
    cbn. lia.
Qed.

(** ** Evaluation of the primitives *)

Lemma GetRun_eval r d :
  GetRun r d = match find (is_run r) (runs d) with
               | Some x => (Ok x, d) | None => (Fail ErrNotFound, d) end.
Proof. unfold GetRun, bind, get. cbn. by destruct (find _ _). Qed.

Lemma GetRunStep_eval r s d :
  GetRunStep r s d = match find (is_step r s) (run_steps d) with
                     | Some x => (Ok x, d) | None => (Fail ErrNotFound, d) end.
Proof. unfold GetRunStep, bind, get. cbn. by destruct (find _ _). Qed.

Lemma update_run_eval r g f d :
  NoDup (run_ID <$> runs d) → (∀ x, run_ID (f x) = run_ID x) →
  update_run r g f d =
    match find (is_run r) (runs d) with
    | Some x => if g x then (Ok (Some (f x)), d <| runs := set_row (is_run r) f (runs d) |>)
                else (Ok None, d)
    | None => (Ok None, d)
    end.
Proof.
  intros Hnd Hf. unfold update_run, bind, get, put, ret.
  rewrite (update_first_keyed run_ID is_run is_run_key r g f) by done.
  destruct (find _ _) as [x|]; [|done]. by destruct (g x).
Qed.

Lemma update_step_eval r s g f d :
  NoDup (step_key <$> run_steps d) → (∀ x, step_key (f x) = step_key x) →
  update_step r s g f d =
    match find (is_step r s) (run_steps d) with
    | Some x => if g x then (Ok (Some (f x)), d <| run_steps := set_row (is_step r s) f (run_steps d) |>)
                else (Ok None, d)
    | None => (Ok None, d)
    end.
Proof.
  intros Hnd Hf. unfold update_step, bind, get, put, ret.
  rewrite (update_first_keyed step_key (λ k, is_step k.1 k.2) is_step_key (r, s) g f) by done.
  cbn. destruct (find _ _) as [x|]; [|done]. by destruct (g x).
Qed.

Lemma update_edge_eval r o g f d :
  NoDup (edge_key <$> run_edges d) → (∀ x, edge_key (f x) = edge_key x) →
  update_edge r o g f d =
    match find (is_edge r o) (run_edges d) with
    | Some x => if g x then (Ok (Some (f x)), d <| run_edges := set_row (is_edge r o) f (run_edges d) |>)
                else (Ok None, d)
    | None => (Ok None, d)
    end.
Proof.
  intros Hnd Hf. unfold update_edge, bind, get, put, ret.
  rewrite (update_first_keyed edge_key (λ k, is_edge k.1 k.2) is_edge_key (r, o) g f) by done.
  cbn. destruct (find _ _) as [x|]; [|done]. by destruct (g x).
Qed.

Lemma bumpCounters_eval r p d :
  NoDup (run_ID <$> runs d) →
  bumpCounters r p d =
    match find (is_run r) (runs d) with
    | Some _ => (Ok tt, d <| runs := set_row (is_run r) (bump p) (runs d) |>)
    | None => (Fail ErrNotFound, d)
    end.
Proof.
  intros Hnd. unfold bumpCounters, bind. rewrite update_run_eval by done.
  by destruct (find _ _).
Qed.

Lemma appendEvent_eval r p d :
  NoDup (run_ID <$> runs d) → events_fresh (runs d) (events d) →
  appendEvent r p d =
    match find (is_run r) (runs d) with
    | Some x =>
        let ev := mkEvent r (run_NextSeq x + 1) p in
        (Ok tt, d <| runs := set_row (is_run r) next_seq (runs d) |>
                  <| events := events d ++ [ev] |> <| tx_events := tx_events d ++ [ev] |>)
    | None => (Fail ErrNotFound, d)
    end.
Proof.
  intros Hnd Hfr. unfold appendEvent, bind, get, put. rewrite update_run_eval by done.
  destruct (find (is_run r) (runs d)) as [x|] eqn:Hf; [|done]. cbn.
  match goal with |- context [existsb ?p ?l] => destruct (existsb p l) eqn:Hex end; [|done].
  apply existsb_exists in Hex as (e & He%list_elem_of_In & [E1 E2]%andb_prop).
  apply bool_decide_eq_true in E1. apply Z.eqb_eq in E2.
  apply (find_key_Some run_ID is_run is_run_key) in Hf as [Hx Hk].
  specialize (Hfr x e Hx He). rewrite E1, E2, Hk in Hfr. specialize (Hfr eq_refl). lia.
Qed.

Lemma finishAttempt_eval step o e u v rp now d :
  NoDup (att_key <$> step_attempts d) →
  finishAttempt step o e u v rp now d =
    let p := is_attempt (step_RunID step) (step_StepID step) (step_AttemptCount step) in
    match find p (step_attempts d) with
    | Some _ => (Ok tt, d <| step_attempts :=
                         set_row p (close_attempt o e u v rp now) (step_attempts d) |>)
    | None => (Fail ErrNotFound, d)
    end.
Proof.
  intros Hnd. unfold finishAttempt, bind, get, put. cbn.
  rewrite (update_first_ext _ (λ x, is_attempt (step_RunID step) (step_StepID step)
             (step_AttemptCount step) x && true)) by (intros; by rewrite andb_true_r).
  rewrite (update_first_keyed att_key (λ k, is_attempt k.1.1 k.1.2 k.2) is_attempt_key
             (step_RunID step, step_StepID step, step_AttemptCount step) (λ _, true)) by done.
  cbn. by destruct (find _ _).
Qed.

Lemma CreateDeadLetter_eval r s src c e pl n now d :
  dead_letter_class_ok c = true →
  CreateDeadLetter r s src c e pl n now d =
    let row := mkDeadLetter r s (max_dead_letter dl_Seq r s (dead_letters d) + 1) src c e pl n now in
    (Ok row, d <| dead_letters := dead_letters d ++ [row] |>).
Proof. intros H. unfold CreateDeadLetter, bind, get, guard, put, ret. by rewrite H. Qed.

(** ** The effect of a transition as one change of the database

    A transition on step [s] of run [r] composes a few primitive writes; its net
    effect is one [Effect]: a change of the run row, a change of the step row, a
    change of the attempt table, rows added to the dead letters, approvals and
    ledger, and a list of events stamped with the run's next sequence numbers. *)
Inductive AttemptEffect : Type :=
| AttKeep
| AttClose (f : StepAttempt → StepAttempt)
| AttOpen (a : StepAttempt).

Record Effect : Type := mkEffect {
  ef_run : Run → Run;
  ef_step : RunStep → RunStep;
  ef_att : AttemptEffect;
  ef_dls : list DeadLetter;
  ef_aps : list Approval → list Approval;
  ef_ledger : list CostLedger;
  ef_events : list Payload
}.
#[export] Instance Eta_Effect : Eta Effect := λ e,
  mkEffect (ef_run e) (ef_step e) (ef_att e) (ef_dls e) (ef_aps e) (ef_ledger e) (ef_events e).

Definition idle : Effect := mkEffect (λ x, x) (λ x, x) AttKeep [] (λ l, l) [] [].

Definition advance (n : Z) (x : Run) : Run := x <| run_NextSeq := run_NextSeq x + n |>.

(** Events numbered consecutively after [n]. *)
Fixpoint stamp (r : uuid) (n : Z) (ps : list Payload) : list Event :=
  match ps with
  | [] => []
  | p :: ps' => mkEvent r (n + 1) p :: stamp r (n + 1) ps'
  end.

(** The attempt row a step's current attempt is. *)
Definition current_attempt (x : RunStep) : StepAttempt → bool :=
  is_attempt (step_RunID x) (step_StepID x) (step_AttemptCount x).

Definition apply_attempt (x : RunStep) (e : AttemptEffect) (l : list StepAttempt) : list StepAttempt :=
  match e with
  | AttKeep => l
  | AttClose f => set_row (current_attempt x) f l
  | AttOpen a => l ++ [a]
  end.

(** [run] and [x] are the rows of [r] and [(r, s)] in [d]. *)
Definition apply_effect (run : Run) (x : RunStep) (e : Effect) (d : DB) : DB :=
  mkDB (set_row (is_run (run_ID run)) (λ y, advance (Z.of_nat (length (ef_events e))) (ef_run e y)) (runs d))
       (set_row (is_step (step_RunID x) (step_StepID x)) (ef_step e) (run_steps d))
       (run_edges d)
       (apply_attempt x (ef_att e) (step_attempts d))
       (dead_letters d ++ ef_dls e)
       (events d ++ stamp (run_ID run) (run_NextSeq run) (ef_events e))
       (task_outbox d)
       (ef_aps e (approvals d))
       (cost_ledger d ++ ef_ledger e)
       (tx_events d ++ stamp (run_ID run) (run_NextSeq run) (ef_events e))
       (workflow_definitions d).

(** What the evaluation of a transition assumes of the database and the run row. *)
Record readable (d : DB) (run : Run) : Prop := mkReadable {
  rd_runs : NoDup (run_ID <$> runs d);
  rd_steps : NoDup (step_key <$> run_steps d);
  rd_atts : NoDup (att_key <$> step_attempts d);
  rd_fresh : events_fresh (runs d) (events d);
  rd_run : find (is_run (run_ID run)) (runs d) = Some run
}.

(** [x] is the row of its key. *)
Definition located (d : DB) (x : RunStep) : Prop :=
  find (is_step (step_RunID x) (step_StepID x)) (run_steps d) = Some x.

(** Row changes that keep the identity columns. *)
Record row_changes (e : Effect) : Prop := mkRowChanges {
  rc_run : ∀ y, run_ID (ef_run e y) = run_ID y;
  rc_seq : ∀ y, run_NextSeq (ef_run e y) = run_NextSeq y;
  rc_step : ∀ y, step_key (ef_step e y) = step_key y
}.

Lemma stamp_app r n ps qs :
  stamp r n (ps ++ qs) = stamp r n ps ++ stamp r (n + Z.of_nat (length ps)) qs.
Proof.
  revert n. induction ps as [|p ps IH]; intros n; cbn [stamp app length].
  - by rewrite Z.add_0_r.
  - rewrite IH. cbn. do 2 f_equal. f_equal. lia.
Qed.

Lemma stamp_seqs r n ps : ev_Seq <$> stamp r n ps = seqZ (n + 1) (Z.of_nat (length ps)).
Proof.
  revert n. induction ps as [|p ps IH]; intros n; cbn [stamp length fmap list_fmap]; [done|].
  rewrite seqZ_cons by lia. rewrite IH. cbn. f_equal. f_equal; lia.
Qed.

Lemma stamp_run r n ps e : e ∈ stamp r n ps → ev_RunID e = r ∧ n < ev_Seq e ≤ n + Z.of_nat (length ps).
Proof.
  revert n. induction ps as [|p ps IH]; intros n; cbn [stamp length].
  - intros []%not_elem_of_nil.
  - rewrite elem_of_cons. intros [->|He]; cbn; [lia|]. apply IH in He. lia.
Qed.

Lemma apply_idle d run x : apply_effect run x idle d = d.
Proof.
  unfold apply_effect, idle. cbn. rewrite !app_nil_r. destruct d. cbn. f_equal.
  - apply set_row_id. intros []. cbn. unfold advance. cbn. f_equal. lia.
  - apply set_row_id. done.
Qed.

Section evaluation.
Context (d : DB) (run : Run) (x : RunStep) (R : readable d run).
Implicit Types (e : Effect).

(** Reads of the two rows after an effect. *)
Lemma find_run_effect e : row_changes e →
find (is_run (run_ID run)) (runs (apply_effect run x e d)) =
  Some (advance (Z.of_nat (length (ef_events e))) (ef_run e run)).
Proof.
intros Hc. cbn. rewrite (find_set_row run_ID is_run is_run_key) by apply Hc.
by rewrite (rd_run _ _ R).
Qed.

Lemma find_step_effect e : located d x → row_changes e →
find (is_step (step_RunID x) (step_StepID x)) (run_steps (apply_effect run x e d)) =
  Some (ef_step e x).
Proof.
intros Hx Hc. cbn.
rewrite (find_set_row step_key (λ k, is_step k.1 k.2) is_step_key (step_RunID x, step_StepID x))
  by apply Hc.
cbn. unfold located in Hx. by rewrite Hx.
Qed.

Lemma runs_effect_keys e : row_changes e → NoDup (run_ID <$> runs (apply_effect run x e d)).
Proof. intros Hc. cbn. apply run_keys_set; [apply Hc|apply R]. Qed.

Lemma steps_effect_keys e : row_changes e → NoDup (step_key <$> run_steps (apply_effect run x e d)).
Proof. intros Hc. cbn. apply step_keys_set; [apply Hc|apply R]. Qed.

Lemma events_fresh_effect e : row_changes e →
events_fresh (runs (apply_effect run x e d)) (events (apply_effect run x e d)).
Proof.
intros Hc y v Hy Hv E. cbn in Hy, Hv.
apply (elem_of_set_row run_ID is_run is_run_key) in Hy as [(z & Hz & Ek & ->)|[Hy Hne]].
- assert (z = run) as ->.
  { destruct (find_key_Some run_ID is_run is_run_key _ _ _ (rd_run _ _ R)) as [Hr _].
    by apply (keyed_unique run_ID is_run is_run_key (runs d)); [apply R|..]. }
  cbn. rewrite (rc_seq _ Hc).
  apply elem_of_app in Hv as [Hv|Hv%stamp_run]; [|lia].
  cbn in E. rewrite (rc_run _ Hc) in E. pose proof (rd_fresh _ _ R run v Hz Hv E). lia.
- apply elem_of_app in Hv as [Hv|Hv%stamp_run]; [|naive_solver congruence].
  by apply (rd_fresh _ _ R).
Qed.

Lemma update_run_effect e g f : row_changes e →
(∀ y, run_ID (f y) = run_ID y) →
(∀ n y, f (advance n y) = advance n (f y)) → (∀ n y, g (advance n y) = g y) →
update_run (run_ID run) g f (apply_effect run x e d) =
  if g (ef_run e run)
  then (Ok (Some (advance (Z.of_nat (length (ef_events e))) (f (ef_run e run)))),
        apply_effect run x (e <| ef_run := λ y, f (ef_run e y) |>) d)
  else (Ok None, apply_effect run x e d).
Proof.
intros Hc Hid Hadv Hg. rewrite update_run_eval; [|by apply runs_effect_keys|done].
rewrite find_run_effect, Hg by done. destruct (g _); [|done]. rewrite Hadv. f_equal.
unfold apply_effect. cbn. f_equal.
rewrite (set_row_compose run_ID is_run is_run_key) by apply Hc.
apply set_row_ext. intros y. apply Hadv.
Qed.

Lemma update_step_effect e g f : located d x → row_changes e → (∀ y, step_key (f y) = step_key y) →
update_step (step_RunID x) (step_StepID x) g f (apply_effect run x e d) =
  if g (ef_step e x)
  then (Ok (Some (f (ef_step e x))), apply_effect run x (e <| ef_step := λ y, f (ef_step e y) |>) d)
  else (Ok None, apply_effect run x e d).
Proof.
intros Hx Hc Hf. rewrite update_step_eval; [|by apply steps_effect_keys|done].
rewrite find_step_effect by done. destruct (g _); [|done]. f_equal.
unfold apply_effect. cbn. f_equal.
by rewrite (set_row_compose step_key (λ k, is_step k.1 k.2) is_step_key
              (step_RunID x, step_StepID x)) by apply Hc.
Qed.

Lemma bumpCounters_effect e p : row_changes e →
bumpCounters (run_ID run) p (apply_effect run x e d) =
  (Ok tt, apply_effect run x (e <| ef_run := λ y, bump p (ef_run e y) |>) d).
Proof.
intros Hc. unfold bumpCounters, bind.
rewrite update_run_effect; [done|done|done| |done]. by intros n [].
Qed.

Lemma appendEvent_effect e p : row_changes e →
appendEvent (run_ID run) p (apply_effect run x e d) =
  (Ok tt, apply_effect run x (e <| ef_events := ef_events e ++ [p] |>) d).
Proof.
intros Hc. rewrite appendEvent_eval; [|by apply runs_effect_keys|by apply events_fresh_effect].
rewrite find_run_effect by done. f_equal. unfold apply_effect. cbn.
rewrite !stamp_app, (rc_seq _ Hc), <-!app_assoc, length_app. f_equal.
rewrite (set_row_compose run_ID is_run is_run_key) by apply Hc.
apply set_row_ext. intros y. unfold next_seq, advance. cbn. destruct (ef_run e y). cbn.
f_equal. lia.
Qed.

Lemma finishAttempt_effect e y o er u v rp now :
ef_att e = AttKeep → step_key y = step_key x → step_AttemptCount y = step_AttemptCount x →
finishAttempt y o er u v rp now (apply_effect run x e d) =
  match find (current_attempt x) (step_attempts d) with
  | Some _ => (Ok tt, apply_effect run x (e <| ef_att := AttClose (close_attempt o er u v rp now) |>) d)
  | None => (Fail ErrNotFound, apply_effect run x e d)
  end.
Proof.
intros Ha [= Hr Hs] Hn.
rewrite finishAttempt_eval by (unfold apply_effect; rewrite Ha; apply R).
rewrite Hr, Hs, Hn. unfold apply_effect. rewrite Ha. cbn.
change (is_attempt (step_RunID x) (step_StepID x) (step_AttemptCount x)) with (current_attempt x).
by destruct (find _ _).
Qed.

Lemma CreateStepAttempt_effect e a :
ef_att e = AttKeep → att_RunID a = step_RunID x → att_StepID a = step_StepID x →
existsb (is_attempt (step_RunID x) (step_StepID x) (att_AttemptNo a)) (step_attempts d) = false →
CreateStepAttempt a (apply_effect run x e d) =
  (Ok a, apply_effect run x (e <| ef_att := AttOpen a |>) d).
Proof.
intros Ha Hr Hs Hn. unfold CreateStepAttempt, bind, get, put, ret, apply_effect. rewrite Ha. cbn.
by rewrite Hr, Hs, Hn.
Qed.

Lemma CreateDeadLetter_effect e src c er pl n now :
dead_letter_class_ok c = true → ef_dls e = [] →
CreateDeadLetter (step_RunID x) (step_StepID x) src c er pl n now (apply_effect run x e d) =
  let row := mkDeadLetter (step_RunID x) (step_StepID x)
    (max_dead_letter dl_Seq (step_RunID x) (step_StepID x) (dead_letters d) + 1) src c er pl n now in
  (Ok row, apply_effect run x (e <| ef_dls := [row] |>) d).
Proof.
intros Hok Hd. rewrite CreateDeadLetter_eval by done. unfold apply_effect. rewrite Hd. cbn.
by rewrite app_nil_r.
Qed.
End evaluation.
