(* ===== verification/StoreInv.v ===== *)
(** The invariant of the durable store and the lemma that every well-formed
    transition effect preserves it. *)
From S2P Require Import Prelude StoreModel Transitions Effects.
Open Scope Z_scope.

(** ** The invariant *)

(** A step with an attempt in flight: its current attempt row has no outcome. *)
Definition in_flight (st : StepStatus) : bool :=
  match st with StepStatusRunning | StepStatusAwaitingHuman => true | _ => false end.

(** The statuses no transition leaves. *)
Definition absorbing (st : StepStatus) : bool :=
  match st with
  | StepStatusSucceeded | StepStatusSkipped | StepStatusCollected => true | _ => false
  end.

(** The step transition matrix: the status changes a transition may make. *)
Definition step_matrix (st st' : StepStatus) : bool :=
  match st, st' with
  | StepStatusPending, (StepStatusReady | StepStatusSkipped | StepStatusCancelled | StepStatusDeadLettered)
  | StepStatusReady, (StepStatusRunning | StepStatusCancelled | StepStatusDeadLettered)
  | StepStatusRunning, (StepStatusSucceeded | StepStatusDeadLettered | StepStatusCollected
      | StepStatusRetrying | StepStatusReady | StepStatusCancelled | StepStatusAwaitingHuman)
  | StepStatusRetrying, (StepStatusRunning | StepStatusCancelled | StepStatusDeadLettered)
  | StepStatusAwaitingHuman, (StepStatusSucceeded | StepStatusDeadLettered | StepStatusCancelled)
  | StepStatusDeadLettered, StepStatusReady
  | StepStatusCancelled, StepStatusPending => true
  | _, _ => false
  end.

(** The run transition matrix. *)
Definition run_matrix (st st' : RunStatus) : bool :=
  match st, st' with
  | RunStatusRunning, (RunStatusSucceeded | RunStatusFailed | RunStatusParked | RunStatusCancelling)
  | RunStatusParked, (RunStatusRunning | RunStatusSucceeded | RunStatusFailed | RunStatusCancelling)
  | RunStatusFailed, RunStatusRunning
  | RunStatusCancelling, RunStatusCancelled => true
  | _, _ => false
  end.

Definition run_terminal (st : RunStatus) : bool :=
  match st with RunStatusSucceeded | RunStatusFailed | RunStatusCancelled => true | _ => false end.

Definition is_Some_b {A} (o : option A) : bool := match o with Some _ => true | None => false end.

(** The columns that must agree with a run's status: a park reason while
    parked, a finish time once terminal, a cancel reason once cancelling. *)
Definition run_shape (y : Run) : bool :=
  eqb (is_Some_b (run_ParkReason y)) (bool_decide (run_Status y = RunStatusParked)) &&
  eqb (is_Some_b (run_FinishedAt y)) (run_terminal (run_Status y)) &&
  eqb (is_Some_b (run_CancelReason y))
    (bool_decide (run_Status y = RunStatusCancelling) || bool_decide (run_Status y = RunStatusCancelled)).

(** The columns that must agree with a step's status: a claim while running,
    none while retrying or waiting for a human, a due time while retrying. *)
Definition step_shape (x : RunStep) : bool :=
  match step_Status x with
  | StepStatusRunning => is_Some_b (step_ClaimID x)
  | StepStatusRetrying => is_Some_b (step_NextAttemptAt x) && negb (is_Some_b (step_ClaimID x))
  | StepStatusAwaitingHuman => negb (is_Some_b (step_ClaimID x))
  | StepStatusFailed => false
  | _ => true
  end.

Definition run_status_count (r : uuid) (st : StepStatus) (l : list RunStep) : Z :=
  count (λ x, of_run r x && has_status st x) l.

Definition att_of (x : RunStep) (a : StepAttempt) : bool :=
  bool_decide (att_RunID a = step_RunID x) && bool_decide (att_StepID a = step_StepID x).

Definition in_edges (x : RunStep) (res : EdgeResolution) (e : RunEdge) : bool :=
  bool_decide (edge_RunID e = step_RunID x) && bool_decide (edge_ToStep e = step_StepID x) &&
  bool_decide (edge_EdgeType e = EdgeTypeNormal) && bool_decide (edge_Resolution e = res).

Definition ledger_sum (f : CostLedger → Z) (r : uuid) (l : list CostLedger) : Z :=
  foldr (λ c t, (if bool_decide (cl_RunID c = r) then f c else 0) + t) 0 l.

Definition run_events (r : uuid) (es : list Event) : list Event :=
  filter (λ e, ev_RunID e = r) es.
#[global] Arguments run_status_count : simpl never.
#[global] Arguments ledger_sum : simpl never.
#[global] Arguments run_events : simpl never.

(** The run row agrees with the tables it summarises. *)
Record run_inv (d : DB) (y : Run) : Prop := mkRunInv {
  ri_total : run_StepsTotal y = count (of_run (run_ID y)) (run_steps d);
  ri_succeeded : run_StepsSucceeded y = run_status_count (run_ID y) StepStatusSucceeded (run_steps d);
  ri_failed : run_StepsFailed y = run_status_count (run_ID y) StepStatusDeadLettered (run_steps d);
  ri_skipped : run_StepsSkipped y = run_status_count (run_ID y) StepStatusSkipped (run_steps d);
  ri_cancelled : run_StepsCancelled y = run_status_count (run_ID y) StepStatusCancelled (run_steps d);
  ri_collected : run_StepsCollected y = run_status_count (run_ID y) StepStatusCollected (run_steps d);
  ri_seq : 0 ≤ run_NextSeq y ∧ ev_Seq <$> run_events (run_ID y) (events d) = seqZ 1 (run_NextSeq y);
  ri_spent : run_SpentNanoUsd y = ledger_sum cl_CostNanoUsd (run_ID y) (cost_ledger d);
  ri_saved : run_SavedNanoUsd y = ledger_sum cl_SavedNanoUsd (run_ID y) (cost_ledger d);
  ri_done : run_Status y = RunStatusSucceeded →
            ∀ x, x ∈ run_steps d → step_RunID x = run_ID y → absorbing (step_Status x) = true;
  ri_shape : run_shape y = true
}.

(** The step row agrees with its attempt history. *)
Record attempts_inv (l : list StepAttempt) (x : RunStep) : Prop := mkAttemptsInv {
  ai_count : 0 ≤ step_AttemptCount x;
  ai_numbers : ∀ n, 1 ≤ n ≤ step_AttemptCount x →
    ∃ a, a ∈ l ∧ att_of x a = true ∧ att_AttemptNo a = n;
  ai_bounded : ∀ a, a ∈ l → att_of x a = true → 1 ≤ att_AttemptNo a ≤ step_AttemptCount x;
  ai_open : ∀ a, a ∈ l → att_of x a = true →
    (att_Outcome a = None ↔ att_AttemptNo a = step_AttemptCount x ∧ in_flight (step_Status x) = true);
  ai_flight : in_flight (step_Status x) = true → 1 ≤ step_AttemptCount x;
  ai_claim : step_Status x = StepStatusRunning → ∀ a, a ∈ l → att_of x a = true →
    att_AttemptNo a = step_AttemptCount x → step_ClaimID x = Some (att_ClaimID a)
}.

(** The step row agrees with the resolution of its incoming edges. *)
Definition deps_inv (es : list RunEdge) (x : RunStep) : Prop :=
  step_RemainingDeps x = count (in_edges x EdgeResolutionUnresolved) es ∧
  step_FiredDeps x = count (in_edges x EdgeResolutionFired) es.

(** The retry baseline (the attempts already spent at the last dead-lettering)
    is behind the attempt counter, strictly while an attempt is in flight. *)
Definition baseline (l : list DeadLetter) (x : RunStep) : Z :=
  max_dead_letter dl_AttemptsAtDeath (step_RunID x) (step_StepID x) l.
Definition baseline_inv (l : list DeadLetter) (x : RunStep) : Prop :=
  baseline l x ≤ step_AttemptCount x ∧
  (in_flight (step_Status x) = true → baseline l x < step_AttemptCount x).

Record db_inv (d : DB) : Prop := mkDbInv {
  inv_runs : NoDup (run_ID <$> runs d);
  inv_steps : NoDup (step_key <$> run_steps d);
  inv_edges : NoDup (edge_key <$> run_edges d);
  inv_atts : NoDup (att_key <$> step_attempts d);
  inv_aps : NoDup (ap_ID <$> approvals d);
  inv_run : ∀ y, y ∈ runs d → run_inv d y;
  inv_attempts : ∀ x, x ∈ run_steps d → attempts_inv (step_attempts d) x;
  inv_deps : ∀ x, x ∈ run_steps d → deps_inv (run_edges d) x;
  inv_step_run : ∀ x, x ∈ run_steps d → ∃ y, y ∈ runs d ∧ run_ID y = step_RunID x;
  inv_edge_step : ∀ e, e ∈ run_edges d →
    ∃ x, x ∈ run_steps d ∧ step_RunID x = edge_RunID e ∧ step_StepID x = edge_ToStep e;
  inv_edge_from : ∀ e, e ∈ run_edges d →
    ∃ x, x ∈ run_steps d ∧ step_RunID x = edge_RunID e ∧ step_StepID x = edge_FromStep e;
  inv_event_run : ∀ e, e ∈ events d → ∃ y, y ∈ runs d ∧ run_ID y = ev_RunID e;
  inv_att_step : ∀ a, a ∈ step_attempts d → ∃ x, x ∈ run_steps d ∧ att_of x a = true;
  inv_shape : ∀ x, x ∈ run_steps d → step_shape x = true;
  inv_dead : ∀ x, x ∈ run_steps d → step_Status x = StepStatusDeadLettered →
    ∃ dl, dl ∈ dead_letters d ∧ is_dead_letter (step_RunID x) (step_StepID x) dl = true;
  inv_baseline : ∀ x, x ∈ run_steps d → baseline_inv (dead_letters d) x;
  inv_dl_step : ∀ dl, dl ∈ dead_letters d →
    ∃ x, x ∈ run_steps d ∧ is_dead_letter (step_RunID x) (step_StepID x) dl = true;
  inv_ledger_run : ∀ c, c ∈ cost_ledger d → ∃ y, y ∈ runs d ∧ run_ID y = cl_RunID c
}.

(** ** Reading under the invariant *)

Lemma att_of_true x a : att_of x a = true ↔ att_RunID a = step_RunID x ∧ att_StepID a = step_StepID x.
Proof. unfold att_of. by rewrite andb_true_iff, !bool_decide_eq_true. Qed.

Lemma current_attempt_true x a :
  current_attempt x a = true ↔ att_of x a = true ∧ att_AttemptNo a = step_AttemptCount x.
Proof.
  unfold current_attempt, is_attempt. rewrite att_of_true, !andb_true_iff, !bool_decide_eq_true. done.
Qed.

Lemma att_of_key x y a : step_key x = step_key y → att_of x a = att_of y a.
Proof. unfold att_of. by intros [= -> ->]. Qed.

(** The invariant makes every event seq at most the allocator's. *)
Lemma inv_fresh d : db_inv d → events_fresh (runs d) (events d).
Proof.
  intros H y e Hy He E. destruct (ri_seq _ _ (inv_run _ H y Hy)) as [_ Hs].
  assert (ev_Seq e ∈ seqZ 1 (run_NextSeq y)) as Hin.
  { rewrite <-Hs. apply list_elem_of_fmap_2. unfold run_events. by apply list_elem_of_filter. }
  apply elem_of_seqZ in Hin. lia.
Qed.

Lemma find_run_inv d r y : find (is_run r) (runs d) = Some y → y ∈ runs d ∧ run_ID y = r.
Proof. apply (find_key_Some run_ID is_run is_run_key). Qed.

Lemma find_step_inv d r s x :
  find (is_step r s) (run_steps d) = Some x → x ∈ run_steps d ∧ step_RunID x = r ∧ step_StepID x = s.
Proof.
  intros [Hx [= <- <-]]%(find_key_Some step_key (λ k, is_step k.1 k.2) is_step_key (r, s)). done.
Qed.

(** The two rows a transition reads. *)
Lemma inv_readable d r s y x :
  db_inv d → find (is_run r) (runs d) = Some y → find (is_step r s) (run_steps d) = Some x →
  readable d y ∧ located d x ∧ x ∈ run_steps d ∧ run_ID y = r ∧ step_RunID x = r ∧ step_StepID x = s.
Proof.
  intros H Hy Hx. destruct (find_run_inv _ _ _ Hy) as [_ Ey].
  destruct (find_step_inv _ _ _ _ Hx) as (Hin & Er & Es).
  split_and!; try done; [|unfold located; by rewrite Er, Es].
  split; try apply H; [by apply inv_fresh|by rewrite Ey].
Qed.

Lemma inv_readable_run d r y : db_inv d → find (is_run r) (runs d) = Some y → readable d y ∧ run_ID y = r.
Proof.
  intros H Hy. destruct (find_run_inv _ _ _ Hy) as [_ Ey]. split; [|done].
  split; try apply H; [by apply inv_fresh|by rewrite Ey].
Qed.

(** The current attempt row of an in-flight step exists: [finishAttempt]'s
    data-integrity error is unreachable. *)
Lemma inv_current_attempt d x :
  db_inv d → x ∈ run_steps d → in_flight (step_Status x) = true →
  ∃ a, find (current_attempt x) (step_attempts d) = Some a.
Proof.
  intros H Hx Hf. pose proof (inv_attempts _ H x Hx) as A.
  destruct (ai_numbers _ _ A (step_AttemptCount x)) as (a & Ha & Hof & Hn).
  { pose proof (ai_flight _ _ A Hf). lia. }
  destruct (find (current_attempt x) (step_attempts d)) as [b|] eqn:E; [eauto|].
  apply find_none_Forall in E. rewrite Forall_forall in E. specialize (E a Ha).
  assert (current_attempt x a = true) by by apply current_attempt_true. congruence.
Qed.

(** The next attempt number is free: the claim's INSERT cannot collide. *)
Lemma inv_next_attempt d x :
  db_inv d → x ∈ run_steps d →
  existsb (is_attempt (step_RunID x) (step_StepID x) (step_AttemptCount x + 1)) (step_attempts d) = false.
Proof.
  intros H Hx. apply existsb_false. apply Forall_forall. intros a Ha.
  apply (is_key_false att_key (λ k, is_attempt k.1.1 k.1.2 k.2) is_attempt_key
           (step_RunID x, step_StepID x, step_AttemptCount x + 1)).
  intros [= E1 E2 E3]. pose proof (ai_bounded _ _ (inv_attempts _ H x Hx) a Ha) as Hb.
  rewrite att_of_true in Hb. specialize (Hb (conj E1 E2)). lia.
Qed.

(** ** Sound effects *)

(** The attempt table and the step row move together. *)
Inductive attempt_sound (x y : RunStep) : AttemptEffect → Prop :=
| sound_keep :
    step_AttemptCount y = step_AttemptCount x →
    in_flight (step_Status y) = in_flight (step_Status x) →
    (step_Status y = StepStatusRunning → step_Status x = StepStatusRunning ∧ step_ClaimID y = step_ClaimID x) →
    attempt_sound x y AttKeep
| sound_close f :
    step_AttemptCount y = step_AttemptCount x →
    in_flight (step_Status x) = true → in_flight (step_Status y) = false →
    (∀ a, att_key (f a) = att_key a ∧ att_Outcome (f a) ≠ None ∧ att_ClaimID (f a) = att_ClaimID a) →
    attempt_sound x y (AttClose f)
| sound_open a :
    step_AttemptCount y = step_AttemptCount x + 1 →
    in_flight (step_Status x) = false → step_Status y = StepStatusRunning →
    att_key a = (step_RunID x, step_StepID x, step_AttemptCount x + 1) →
    att_Outcome a = None → step_ClaimID y = Some (att_ClaimID a) →
    attempt_sound x y (AttOpen a).

Definition ind (st st' : StepStatus) : Z := if bool_decide (st = st') then 1 else 0.

(** The effect concerns an existing step row, or no step at all. *)
Definition focused (d : DB) (x : RunStep) (e : Effect) : Prop :=
  located d x ∨ ((∀ y, ef_step e y = y) ∧ ef_att e = AttKeep).

Record sound (d : DB) (run : Run) (x : RunStep) (e : Effect) : Prop := mkSound {
  so_rows : row_changes e;
  so_focus : focused d x e;
  so_same_run : step_RunID x = run_ID run;
  so_deps : step_RemainingDeps (ef_step e x) = step_RemainingDeps x ∧
            step_FiredDeps (ef_step e x) = step_FiredDeps x;
  so_att : attempt_sound x (ef_step e x) (ef_att e);
  so_total : run_StepsTotal (ef_run e run) = run_StepsTotal run;
  so_succeeded : run_StepsSucceeded (ef_run e run) = run_StepsSucceeded run
    - ind (step_Status x) StepStatusSucceeded + ind (step_Status (ef_step e x)) StepStatusSucceeded;
  so_failed : run_StepsFailed (ef_run e run) = run_StepsFailed run
    - ind (step_Status x) StepStatusDeadLettered + ind (step_Status (ef_step e x)) StepStatusDeadLettered;
  so_skipped : run_StepsSkipped (ef_run e run) = run_StepsSkipped run
    - ind (step_Status x) StepStatusSkipped + ind (step_Status (ef_step e x)) StepStatusSkipped;
  so_cancelled : run_StepsCancelled (ef_run e run) = run_StepsCancelled run
    - ind (step_Status x) StepStatusCancelled + ind (step_Status (ef_step e x)) StepStatusCancelled;
  so_collected : run_StepsCollected (ef_run e run) = run_StepsCollected run
    - ind (step_Status x) StepStatusCollected + ind (step_Status (ef_step e x)) StepStatusCollected;
  so_spent : run_SpentNanoUsd (ef_run e run) =
    run_SpentNanoUsd run + ledger_sum cl_CostNanoUsd (run_ID run) (ef_ledger e);
  so_saved : run_SavedNanoUsd (ef_run e run) =
    run_SavedNanoUsd run + ledger_sum cl_SavedNanoUsd (run_ID run) (ef_ledger e);
  so_ledger : Forall (λ c, cl_RunID c = run_ID run) (ef_ledger e);
  so_aps : NoDup (ap_ID <$> approvals d) → NoDup (ap_ID <$> ef_aps e (approvals d));
  so_absorb : absorbing (step_Status x) = true → ef_step e x = x;
  so_done : run_Status (ef_run e run) = RunStatusSucceeded → run_Status run = RunStatusSucceeded ∨
    (step_Status (ef_step e x) = step_Status x ∧
     run_StepsSucceeded run + run_StepsSkipped run + run_StepsCollected run = run_StepsTotal run);
  so_matrix : step_Status (ef_step e x) = step_Status x ∨
    step_matrix (step_Status x) (step_Status (ef_step e x)) = true;
  so_run_matrix : run_Status (ef_run e run) = run_Status run ∨
    run_matrix (run_Status run) (run_Status (ef_run e run)) = true;
  so_shape : step_shape x = true → step_shape (ef_step e x) = true;
  so_run_shape : run_shape run = true → run_shape (ef_run e run) = true;
  so_dead : step_Status (ef_step e x) = StepStatusDeadLettered →
    step_Status x = StepStatusDeadLettered ∨
    ∃ dl, dl ∈ ef_dls e ∧ is_dead_letter (step_RunID x) (step_StepID x) dl = true;
  so_dls : ef_dls e = [] ∨
    (∃ dl, ef_dls e = [dl] ∧ is_dead_letter (step_RunID x) (step_StepID x) dl = true ∧
           dl_AttemptsAtDeath dl = step_AttemptCount x) ∧
    located d x ∧ in_flight (step_Status (ef_step e x)) = false;
  so_static : ∀ y, step_StepType (ef_step e y) = step_StepType y ∧
    step_Config (ef_step e y) = step_Config y ∧ step_Envelope (ef_step e y) = step_Envelope y;
  so_run_static : ∀ y, run_OnFailure (ef_run e y) = run_OnFailure y ∧ run_Params (ef_run e y) = run_Params y ∧
    run_IdempotencyToken (ef_run e y) = run_IdempotencyToken y ∧
    run_IdempotencyFingerprint (ef_run e y) = run_IdempotencyFingerprint y
}.

(** ** A sound effect preserves the invariant *)

Lemma ledger_sum_nil f r : ledger_sum f r [] = 0.
Proof. done. Qed.

Lemma ledger_sum_app f r l1 l2 : ledger_sum f r (l1 ++ l2) = ledger_sum f r l1 + ledger_sum f r l2.
Proof. unfold ledger_sum. induction l1 as [|c l1 IH]; cbn; [done|]. rewrite IH. lia. Qed.

Lemma ledger_sum_other f r r' l : Forall (λ c, cl_RunID c = r) l → r' ≠ r → ledger_sum f r' l = 0.
Proof.
  intros Hl Hne. unfold ledger_sum. induction Hl as [|c l Hc _ IH]; cbn; [done|].
  rewrite bool_decide_eq_false_2 by congruence. lia.
Qed.

Lemma run_events_app r l1 l2 : run_events r (l1 ++ l2) = run_events r l1 ++ run_events r l2.
Proof. apply filter_app. Qed.

Lemma run_events_stamp r n ps : run_events r (stamp r n ps) = stamp r n ps.
Proof.
  revert n. induction ps as [|p ps IH]; intros n; cbn [stamp]; [done|].
  unfold run_events in *. rewrite filter_cons_True by done. by rewrite IH.
Qed.

Lemma run_events_other r r' n ps : r' ≠ r → run_events r' (stamp r n ps) = [].
Proof.
  intros Hne. revert n. induction ps as [|p ps IH]; intros n; cbn [stamp]; [done|].
  unfold run_events in *. rewrite filter_cons_False by (cbn; congruence). apply IH.
Qed.

Lemma has_status_ind (x : RunStep) st : (if has_status st x then 1 else 0) = ind (step_Status x) st.
Proof. done. Qed.

(** A run all of whose steps are accounted for by the success counters. *)
Lemma success_counters_absorbing d y :
  run_inv d y → run_StepsSucceeded y + run_StepsSkipped y + run_StepsCollected y = run_StepsTotal y →
  ∀ x, x ∈ run_steps d → step_RunID x = run_ID y → absorbing (step_Status x) = true.
Proof.
  intros I E x Hx Hr.
  assert (of_run (run_ID y) x && absorbing (step_Status x) = true) as [_ ?]%andb_prop; [|done].
  apply (count_le_eq (λ x, of_run (run_ID y) x && absorbing (step_Status x))
           (of_run (run_ID y)) (run_steps d)); try done.
  - by intros z [? _]%andb_prop.
  - rewrite <-(ri_total _ _ I), <-E, (ri_succeeded _ _ I), (ri_skipped _ _ I), (ri_collected _ _ I).
    unfold run_status_count. rewrite <-!count_or.
    + apply count_ext. intros z _. unfold has_status. by destruct (of_run _ z), (step_Status z).
    + intros z. unfold has_status. by destruct (of_run _ z), (step_Status z).
    + intros z. unfold has_status. by destruct (of_run _ z), (step_Status z).
  - by apply bool_decide_eq_true.
Qed.

Section preservation.
Context (d : DB) (run : Run) (x : RunStep) (e : Effect).
Context (H : db_inv d) (R : readable d run) (S : sound d run x e).
Abbreviation d' := (apply_effect run x e d).
Abbreviation x' := (ef_step e x).

Lemma step_key_new : step_key x' = step_key x.
Proof. apply (so_rows _ _ _ _ S). Qed.

Lemma step_run_new : step_RunID x' = run_ID run.
Proof. pose proof step_key_new as [= -> _]. apply S. Qed.

(** The rows of the step table after the effect. *)
Lemma steps_effect y : y ∈ run_steps d' →
(y = x' ∧ x ∈ run_steps d) ∨ (y ∈ run_steps d ∧ step_key y ≠ step_key x) ∨
(y ∈ run_steps d ∧ ef_att e = AttKeep ∧ ∀ z, ef_step e z = z).
Proof.
cbn. intros Hy. destruct (so_focus _ _ _ _ S) as [Hl|[Hid Ha]].
- apply (elem_of_set_row step_key (λ k, is_step k.1 k.2) is_step_key
           (step_RunID x, step_StepID x)) in Hy as [(z & Hz & Ek & ->)|[Hy Hne]]; [left|by eauto].
  destruct (find_step_inv _ _ _ _ Hl) as [Hx _].
  assert (z = x) as -> by (by eapply (keyed_unique step_key (λ k, is_step k.1 k.2) is_step_key);
                             [apply H|..]). done.
- right. right. by rewrite set_row_id in Hy.
Qed.

Lemma count_effect p :
count p (run_steps d') =
  count p (run_steps d) - (if p x then 1 else 0) + (if p x' then 1 else 0).
Proof.
cbn. destruct (so_focus _ _ _ _ S) as [Hl|[Hid Ha]].
- apply (count_set_row step_key (λ k, is_step k.1 k.2) is_step_key p
           (step_RunID x, step_StepID x)); [apply H|done].
- rewrite set_row_id by done. rewrite Hid. lia.
Qed.

Lemma status_count_effect st :
run_status_count (run_ID run) st (run_steps d') =
  run_status_count (run_ID run) st (run_steps d) - ind (step_Status x) st + ind (step_Status x') st.
Proof.
unfold run_status_count. rewrite count_effect. unfold of_run.
rewrite step_run_new, (so_same_run _ _ _ _ S), bool_decide_eq_true_2 by done. done.
Qed.

Lemma count_effect_other r st : r ≠ run_ID run →
run_status_count r st (run_steps d') = run_status_count r st (run_steps d) ∧
count (of_run r) (run_steps d') = count (of_run r) (run_steps d).
Proof.
intros Hne. unfold run_status_count. rewrite !count_effect. unfold of_run.
rewrite step_run_new, (so_same_run _ _ _ _ S), bool_decide_eq_false_2 by done. cbn. lia.
Qed.

Lemma run_row_inv : run_inv d' (advance (Z.of_nat (length (ef_events e))) (ef_run e run)).
Proof.
destruct (find_run_inv _ _ _ (rd_run _ _ R)) as [Hin _].
pose proof (inv_run _ H run Hin) as I. pose proof (so_rows _ _ _ _ S) as C.
split; cbn -[run_steps]; rewrite ?(rc_run _ C), ?(rc_seq _ C).
- rewrite (so_total _ _ _ _ S), (ri_total _ _ I), count_effect. unfold of_run.
  rewrite step_run_new, (so_same_run _ _ _ _ S), bool_decide_eq_true_2 by done. lia.
- rewrite (so_succeeded _ _ _ _ S), status_count_effect, (ri_succeeded _ _ I). done.
- rewrite (so_failed _ _ _ _ S), status_count_effect, (ri_failed _ _ I). done.
- rewrite (so_skipped _ _ _ _ S), status_count_effect, (ri_skipped _ _ I). done.
- rewrite (so_cancelled _ _ _ _ S), status_count_effect, (ri_cancelled _ _ I). done.
- rewrite (so_collected _ _ _ _ S), status_count_effect, (ri_collected _ _ I). done.
- destruct (ri_seq _ _ I) as [Hn Hs]. split; [lia|]. cbn.
  rewrite run_events_app, run_events_stamp, fmap_app, Hs, stamp_seqs.
  rewrite (Z.add_comm (run_NextSeq run) 1). symmetry. apply seqZ_app; lia.
- rewrite (so_spent _ _ _ _ S), ledger_sum_app, (ri_spent _ _ I). done.
- rewrite (so_saved _ _ _ _ S), ledger_sum_app, (ri_saved _ _ I). done.
- intros Hst y Hy Er.
  assert (∀ z, z ∈ run_steps d → step_RunID z = run_ID run → absorbing (step_Status z) = true) as Habs.
  { destruct (so_done _ _ _ _ S Hst) as [Hold|[_ Hc]]; [by apply I|].
    by apply success_counters_absorbing. }
  destruct (steps_effect y Hy) as [[-> Hx]|[[Hy' _]|(Hy' & _)]]; [|by auto..].
  pose proof (Habs x Hx (so_same_run _ _ _ _ S)) as Hab.
  by rewrite (so_absorb _ _ _ _ S Hab).
- change (run_shape (advance ?n ?y)) with (run_shape y). apply S, I.
Qed.

Lemma run_other_inv y : y ∈ runs d → run_ID y ≠ run_ID run → run_inv d' y.
Proof.
intros Hy Hne. pose proof (inv_run _ H y Hy) as I.
pose proof (λ st, count_effect_other (run_ID y) st Hne) as Hc.
split; try (rewrite (proj1 (Hc _)); apply I).
- rewrite (proj2 (Hc StepStatusReady)). apply I.
- cbn. rewrite run_events_app, run_events_other, app_nil_r by done. apply I.
- cbn. rewrite ledger_sum_app, (ledger_sum_other _ (run_ID run) _ (ef_ledger e)), (ri_spent _ _ I);
    [lia|apply S|done].
- cbn. rewrite ledger_sum_app, (ledger_sum_other _ (run_ID run) _ (ef_ledger e)), (ri_saved _ _ I);
    [lia|apply S|done].
- intros Hst z Hz Ez.
  destruct (steps_effect z Hz) as [[-> Hx]|[[Hy' _]|(Hy' & _)]]; [|by apply (ri_done _ _ I)..].
  rewrite step_run_new in Ez. congruence.
- apply I.
Qed.

(** *** Attempts *)

Lemma attempts_inv_ext l l' y :
(∀ a, att_of y a = true → (a ∈ l ↔ a ∈ l')) → attempts_inv l y → attempts_inv l' y.
Proof.
intros E I. split; try apply I.
- intros n Hn. destruct (ai_numbers _ _ I n Hn) as (a & Ha & Hof & Hno). exists a.
  split_and!; [by apply E|done|done].
- intros a Ha Hof. apply (ai_bounded _ _ I); [by apply E|done].
- intros a Ha Hof. apply (ai_open _ _ I); [by apply E|done].
- intros Hst a Ha Hof. apply (ai_claim _ _ I Hst); [by apply E|done].
Qed.

Lemma current_key a : current_attempt x a = true ↔
att_key a = (step_RunID x, step_StepID x, step_AttemptCount x).
Proof. apply (is_attempt_key (step_RunID x, step_StepID x, step_AttemptCount x)). Qed.

(** A closing effect rewrites the step's current attempt and nothing else. *)
Lemma elem_of_closed f l a : a ∈ set_row (current_attempt x) f l →
(∃ b, b ∈ l ∧ current_attempt x b = true ∧ a = f b) ∨ (a ∈ l ∧ current_attempt x a = false).
Proof.
intros Ha. apply (elem_of_set_row att_key (λ k, is_attempt k.1.1 k.1.2 k.2) is_attempt_key
  (step_RunID x, step_StepID x, step_AttemptCount x)) in Ha as [(b & ? & ?%current_key & ->)|[? Hne]];
  [by eauto|]. right. split; [done|]. apply not_true_iff_false. by rewrite current_key.
Qed.

Lemma closed_other f l a : a ∈ l → current_attempt x a = false → a ∈ set_row (current_attempt x) f l.
Proof.
intros Ha Hc. apply (elem_of_set_row_other att_key (λ k, is_attempt k.1.1 k.1.2 k.2) is_attempt_key
  (step_RunID x, step_StepID x, step_AttemptCount x)); [done|].
rewrite <-current_key. by rewrite Hc.
Qed.

Lemma closed_this f l a : a ∈ l → current_attempt x a = true → f a ∈ set_row (current_attempt x) f l.
Proof.
intros Ha Hc%current_key.
by apply (elem_of_set_row_this att_key (λ k, is_attempt k.1.1 k.1.2 k.2) is_attempt_key
  (step_RunID x, step_StepID x, step_AttemptCount x)).
Qed.

Lemma keep_inv l y : step_key y = step_key x → attempt_sound x y AttKeep →
attempts_inv l x → attempts_inv l y.
Proof.
intros Hk Hs I. inversion Hs as [Hn Hf Hc| |]. pose proof (λ a, att_of_key y x a Hk) as Hof.
split; rewrite ?Hn, ?Hf; try setoid_rewrite Hof; try apply I.
intros Hst a Ha Ho Hno. destruct (Hc Hst) as [Hst' ->]. by apply (ai_claim _ _ I).
Qed.

Lemma close_inv l y f : step_key y = step_key x → attempt_sound x y (AttClose f) →
attempts_inv l x → attempts_inv (set_row (current_attempt x) f l) y.
Proof.
intros Hk Hs I. inversion Hs as [|? Hn Hf Hf' Hkeep|]; subst.
pose proof (λ a, att_of_key y x a Hk) as Hof.
assert (∀ b, att_of x (f b) = att_of x b ∧ att_AttemptNo (f b) = att_AttemptNo b) as Hfb.
{ intros b. destruct (Hkeep b) as [[= E1 E2 E3] _]. unfold att_of. by rewrite E1, E2, E3. }
split; rewrite ?Hn, ?Hf'; try setoid_rewrite Hof; try apply I; try done.
- intros n Hr. destruct (ai_numbers _ _ I n Hr) as (a & Ha & Ho & Hno).
  destruct (current_attempt x a) eqn:Hc.
  + exists (f a). destruct (Hfb a) as [-> ->]. split_and!; [by apply closed_this|done|done].
  + exists a. split_and!; [by apply closed_other|done|done].
- intros a [(b & Hb & Hc & ->)|[Ha Hc]]%elem_of_closed.
  + destruct (Hfb b) as [-> ->]. by apply I.
  + by apply I.
- intros a [(b & Hb & Hc & ->)|[Ha Hc]]%elem_of_closed Ho.
  + destruct (Hkeep b) as (_ & Hne & _). naive_solver.
  + rewrite (ai_open _ _ I a Ha Ho), Hf. split; [|naive_solver].
    intros [Hno _]. exfalso.
    assert (current_attempt x a = true) by by apply current_attempt_true. congruence.
- intros Hst. by rewrite Hst in Hf'.
Qed.

Lemma open_inv l y a0 : step_key y = step_key x → attempt_sound x y (AttOpen a0) →
attempts_inv l x → attempts_inv (l ++ [a0]) y.
Proof.
intros Hk Hs I. inversion Hs as [| |? Hn Hf Hst [= E1 E2 E3] Hout Hc]; subst.
pose proof (λ a, att_of_key y x a Hk) as Hof. pose proof (ai_count _ _ I) as Hpos.
assert (att_of x a0 = true) as Ha0 by by apply att_of_true.
split; rewrite ?Hn, ?Hst; try setoid_rewrite Hof; try lia.
- intros n Hr. destruct (decide (n = step_AttemptCount x + 1)) as [->|Hne].
  + exists a0. split_and!; [set_solver|done|done].
  + destruct (ai_numbers _ _ I n) as (a & ? & ? & ?); [lia|].
    exists a. split_and!; [set_solver|done|done].
- intros a [Ha|Ha%list_elem_of_singleton]%elem_of_app Ho; [|subst; lia].
  pose proof (ai_bounded _ _ I a Ha Ho). lia.
- intros a [Ha|Ha%list_elem_of_singleton]%elem_of_app Ho; cbn.
  + rewrite (ai_open _ _ I a Ha Ho), Hf. pose proof (ai_bounded _ _ I a Ha Ho).
    split; [naive_solver|]. intros []; lia.
  + subst. naive_solver.
- intros _ a [Ha|Ha%list_elem_of_singleton]%elem_of_app Ho Hno; [|by subst].
  pose proof (ai_bounded _ _ I a Ha Ho). lia.
Qed.

Lemma attempts_this : x ∈ run_steps d → attempts_inv (step_attempts d') x'.
Proof.
intros Hx. pose proof (inv_attempts _ H x Hx) as I. pose proof step_key_new as Hk.
pose proof (so_att _ _ _ _ S) as A. cbn. destruct (ef_att e); cbn;
  eauto using keep_inv, close_inv, open_inv.
Qed.

Lemma attempts_other y : y ∈ run_steps d → step_key y ≠ step_key x →
attempts_inv (step_attempts d') y.
Proof.
intros Hy Hne. eapply attempts_inv_ext; [|by apply (inv_attempts _ H)].
assert (∀ a, att_of y a = true → att_of x a = true → False) as Hd.
{ intros a [E1 E2]%att_of_true [E3 E4]%att_of_true. apply Hne. unfold step_key. congruence. }
intros a Ho. pose proof (so_att _ _ _ _ S) as A. cbn. destruct A as [|f ? ? ? Hkeep|a0]; cbn.
- done.
- split.
  + intros Ha. apply closed_other; [done|]. apply not_true_iff_false.
    intros [? _]%current_attempt_true. eauto.
  + intros [(b & Hb & [Hc _]%current_attempt_true & ->)|[Ha _]]%elem_of_closed; [|done].
    destruct (Hkeep b) as [[= E1 E2 E3] _]. exfalso. apply (Hd b); [|done].
    unfold att_of in *. by rewrite <-E1, <-E2.
- rewrite elem_of_app, list_elem_of_singleton. split; [by left|]. intros [?| ->]; [done|].
  exfalso. apply (Hd a0 Ho). match goal with E : att_key a0 = _ |- _ => injection E as E1 E2 _ end.
  by apply att_of_true.
Qed.

Lemma atts_effect_keys : NoDup (att_key <$> step_attempts d').
Proof.
pose proof (so_att _ _ _ _ S) as A. pose proof (so_focus _ _ _ _ S) as F. pose proof (inv_atts _ H) as Hnd.
unfold focused in F. cbn. remember (ef_att e) as ae eqn:Ea. destruct A as [|f ? ? ? Hkeep|a0 ? ? ? Ek]; cbn.
- done.
- rewrite (set_row_keys att_key (λ k, is_attempt k.1.1 k.1.2 k.2)
    (step_RunID x, step_StepID x, step_AttemptCount x)); [done|]. intros a. apply Hkeep.
- rewrite fmap_app, NoDup_app. split_and!; [done| |apply NoDup_singleton].
  destruct F as [Hl|[_ ?]]; [|done]. apply find_step_inv in Hl as [Hx _].
  pose proof (inv_next_attempt _ _ H Hx) as Hf. apply existsb_false in Hf.
  intros k (a & -> & Ha)%list_elem_of_fmap Hk%list_elem_of_singleton.
  rewrite Forall_forall in Hf. specialize (Hf a Ha).
  eapply (is_key_false att_key (λ k, is_attempt k.1.1 k.1.2 k.2) is_attempt_key
           (step_RunID x, step_StepID x, step_AttemptCount x + 1)); [done|]. congruence.
Qed.

(** The step and run rows keep their keys, so references stay valid. *)
Lemma steps_effect_key y : y ∈ run_steps d → ∃ z, z ∈ run_steps d' ∧ step_key z = step_key y.
Proof.
intros Hy. assert (step_key y ∈ step_key <$> run_steps d') as (z & ? & ?)%list_elem_of_fmap.
{ cbn. rewrite (set_row_keys step_key (λ k, is_step k.1 k.2) (step_RunID x, step_StepID x));
    [by apply list_elem_of_fmap_2|apply (so_rows _ _ _ _ S)]. }
eauto.
Qed.

Lemma runs_effect_key y : y ∈ runs d → ∃ z, z ∈ runs d' ∧ run_ID z = run_ID y.
Proof.
intros Hy. assert (run_ID y ∈ run_ID <$> runs d') as (z & ? & ?)%list_elem_of_fmap.
{ cbn. rewrite (set_row_keys run_ID is_run); [by apply list_elem_of_fmap_2|].
  apply (so_rows _ _ _ _ S). }
eauto.
Qed.

Lemma runs_ref r : (∃ y, y ∈ runs d ∧ run_ID y = r) → ∃ y, y ∈ runs d' ∧ run_ID y = r.
Proof. intros (y & Hy & <-). by apply runs_effect_key. Qed.

Lemma run_here : ∃ y, y ∈ runs d' ∧ run_ID y = run_ID run.
Proof. apply runs_effect_key. apply (find_run_inv _ _ _ (rd_run _ _ R)). Qed.

Lemma runs_inv y : y ∈ runs d' → run_inv d' y.
Proof.
intros Hy. cbn in Hy.
apply (elem_of_set_row run_ID is_run is_run_key) in Hy as [(z & Hz & Ek & ->)|[Hy Hne]];
  [|by apply run_other_inv].
assert (z = run) as ->; [|by apply run_row_inv].
destruct (find_run_inv _ _ _ (rd_run _ _ R)) as [Hr _].
by eapply (keyed_unique run_ID is_run is_run_key); [apply H|..].
Qed.

Lemma deps_effect y : y ∈ run_steps d' → deps_inv (run_edges d') y.
Proof.
intros Hy. destruct (steps_effect y Hy) as [[-> Hx]|[[Hy' _]|(Hy' & _)]]; [|by apply H..].
pose proof (inv_deps _ H x Hx) as [E1 E2]. destruct (so_deps _ _ _ _ S) as [E3 E4].
pose proof step_key_new as [= E5 E6]. unfold deps_inv, in_edges in *.
by rewrite E3, E4, E5, E6.
Qed.

(** *** Retry baseline *)

Lemma max_dead_letter_app f r s l1 l2 :
max_dead_letter f r s (l1 ++ l2) = Z.max (max_dead_letter f r s l1) (max_dead_letter f r s l2).
Proof.
unfold max_dead_letter. induction l1 as [|y l1 IH]; cbn.
- induction l2 as [|y l2 IH]; cbn; [done|]. destruct (is_dead_letter r s y); lia.
- rewrite IH. destruct (is_dead_letter r s y); lia.
Qed.

Lemma max_dead_letter_nil f r s : max_dead_letter f r s [] = 0.
Proof. done. Qed.
Lemma max_dead_letter_one f r s dl :
max_dead_letter f r s [dl] = if is_dead_letter r s dl then Z.max (f dl) 0 else 0.
Proof. done. Qed.

Lemma count_grows : step_AttemptCount x ≤ step_AttemptCount x'.
Proof. destruct (so_att _ _ _ _ S); lia. Qed.

Lemma baseline_this : x ∈ run_steps d → baseline_inv (dead_letters d') x'.
Proof.
intros Hx. destruct (inv_baseline _ H x Hx) as [B1 B2]. pose proof count_grows as Hc.
pose proof (ai_count _ _ (inv_attempts _ H x Hx)) as Hn.
unfold baseline_inv, baseline in *. pose proof step_key_new as [= -> ->].
cbn. rewrite max_dead_letter_app.
destruct (so_dls _ _ _ _ S) as [->|[(dl & -> & Hdl & Ha) [_ Hf]]];
  rewrite ?max_dead_letter_nil, ?max_dead_letter_one.
- split; [lia|]. intros Hf. destruct (so_att _ _ _ _ S) as [En Ef _|f En Ef Ef' _|a En Ef Est]; [|by rewrite Hf in Ef'|lia].
  rewrite Ef in Hf. specialize (B2 Hf).
  pose proof (ai_flight _ _ (inv_attempts _ H x Hx) Hf). lia.
- rewrite Hf, Hdl, Ha. split; [lia|done].
Qed.

Lemma baseline_other y : y ∈ run_steps d → step_key y ≠ step_key x → baseline_inv (dead_letters d') y.
Proof.
intros Hy Hne. pose proof (inv_baseline _ H y Hy) as B. unfold baseline_inv, baseline in *.
cbn. rewrite max_dead_letter_app.
assert (max_dead_letter dl_AttemptsAtDeath (step_RunID y) (step_StepID y) (ef_dls e) = 0) as ->.
{ destruct (so_dls _ _ _ _ S) as [->|[(dl & -> & Hdl & Ha) _]]; [done|]. rewrite max_dead_letter_one.
  destruct (is_dead_letter (step_RunID y) (step_StepID y) dl) eqn:E; [|done]. exfalso. apply Hne.
  apply andb_prop in Hdl as [E1%bool_decide_eq_true E2%bool_decide_eq_true].
  apply andb_prop in E as [E3%bool_decide_eq_true E4%bool_decide_eq_true]. unfold step_key. congruence. }
assert (0 ≤ max_dead_letter dl_AttemptsAtDeath (step_RunID y) (step_StepID y) (dead_letters d)) as Hn.
{ generalize (dead_letters d) as l. unfold max_dead_letter.
  induction l as [|dl l IH]; cbn; [done|]. destruct (is_dead_letter _ _ dl); lia. }
rewrite Z.max_l by done. done.
Qed.

Lemma baseline_effect y : y ∈ run_steps d' → baseline_inv (dead_letters d') y.
Proof.
intros Hy. destruct (steps_effect y Hy) as [[-> Hx]|[[Hy' Hne]|(Hy' & Ha & Hid)]];
  [by apply baseline_this|by apply baseline_other|].
destruct (decide (step_key y = step_key x)) as [E|Hne]; [|by apply baseline_other].
destruct (so_dls _ _ _ _ S) as [E0|[_ [Hl _]]].
- cbn. rewrite E0, app_nil_r. by apply H.
- apply find_step_inv in Hl as [Hx _].
  assert (y = x) as -> by (by eapply (keyed_unique step_key (λ k, is_step k.1 k.2) is_step_key); [apply H|..]).
  pose proof (baseline_this Hx) as B. by rewrite Hid in B.
Qed.

Lemma apply_inv : db_inv d'.
Proof.
split.
- apply runs_effect_keys; [apply R|apply S].
- apply steps_effect_keys; [apply R|apply S].
- apply H.
- apply atts_effect_keys.
- apply S, H.
- apply runs_inv.
- intros y Hy.
  destruct (steps_effect y Hy) as [[-> Hx]|[[Hy' Hne]|(Hy' & Ha & _)]];
    [by apply attempts_this|by apply attempts_other|].
  cbn. rewrite Ha. by apply H.
- apply deps_effect.
- intros y Hy. apply runs_ref.
  destruct (steps_effect y Hy) as [[-> Hx]|[[Hy' _]|(Hy' & _)]]; [|by apply H..].
  pose proof step_key_new as [= -> _]. by apply H.
- intros ed (y & Hy & E1 & E2)%(inv_edge_step _ H).
  destruct (steps_effect_key y Hy) as (z & Hz & [= E3 E4]). exists z. by rewrite E3, E4.
- intros ed (y & Hy & E1 & E2)%(inv_edge_from _ H).
  destruct (steps_effect_key y Hy) as (z & Hz & [= E3 E4]). exists z. by rewrite E3, E4.
- intros v [Hv|[-> _]%stamp_run]%elem_of_app; [by apply runs_ref, H|apply run_here].
- intros a Ha.
  assert (∀ b, (b ∈ step_attempts d ∧ att_key b = att_key a) → ∃ z, z ∈ run_steps d' ∧ att_of z a = true) as Hold.
  { intros b [(y & Hy & [E1 E2]%att_of_true)%(inv_att_step _ H) [= E3 E4 _]].
    destruct (steps_effect_key y Hy) as (z & Hz & [= E5 E6]). exists z. split; [done|].
    apply att_of_true. split; congruence. }
  cbn in Ha. destruct (so_att _ _ _ _ S) as [|f ? ? ? Hkeep|a0 ? Hfl Hst Ek]; cbn in Ha; [by eauto|..].
  + apply elem_of_closed in Ha as [(b & Hb & _ & ->)|[Ha _]]; [|by eauto].
    apply (Hold b). split; [done|]. symmetry. apply Hkeep.
  + apply elem_of_app in Ha as [Ha|Ha%list_elem_of_singleton]; [by eauto|]. subst a.
    destruct (so_focus _ _ _ _ S) as [Hl|[Hid _]]; [|by rewrite Hid in Hst; rewrite Hst in Hfl].
    apply find_step_inv in Hl as [Hx _]. destruct (steps_effect_key x Hx) as (z & Hz & [= E5 E6]).
    exists z. split; [done|]. apply att_of_true. injection Ek as E1 E2 _. split; congruence.
- intros y Hy.
  destruct (steps_effect y Hy) as [[-> Hx]|[[Hy' _]|(Hy' & _)]]; [|by apply H..].
  apply S. by apply H.
- intros y Hy Hd. cbn.
  assert (y ∈ run_steps d → ∃ dl, dl ∈ dead_letters d ++ ef_dls e ∧
            is_dead_letter (step_RunID y) (step_StepID y) dl = true) as Hold.
  { intros Hy'. destruct (inv_dead _ H y Hy' Hd) as (dl & ? & ?). exists dl. set_solver. }
  destruct (steps_effect y Hy) as [[-> Hx]|[[Hy' _]|(Hy' & _)]]; [|by auto..].
  pose proof step_key_new as [= -> ->].
  destruct (so_dead _ _ _ _ S Hd) as [Hd'|(dl & ? & ?)]; [|exists dl; set_solver].
  destruct (inv_dead _ H x Hx Hd') as (dl & ? & ?). exists dl. set_solver.
- apply baseline_effect.
- assert (∀ y dl, y ∈ run_steps d → is_dead_letter (step_RunID y) (step_StepID y) dl = true →
    ∃ z, z ∈ run_steps d' ∧ is_dead_letter (step_RunID z) (step_StepID z) dl = true) as Hold.
  { intros y dl Hy Hdl. destruct (steps_effect_key y Hy) as (z & Hz & [= E1 E2]).
    exists z. by rewrite E1, E2. }
  intros dl [(y & Hy & Hdl)%(inv_dl_step _ H)|Hdl]%elem_of_app; [by eapply Hold|].
  destruct (so_dls _ _ _ _ S) as [E|[(dl' & E & Hk & _) [Hl _]]]; rewrite E in Hdl;
    [by apply not_elem_of_nil in Hdl|]. apply list_elem_of_singleton in Hdl. subst dl'.
  apply find_step_inv in Hl as [Hx _]. by eapply Hold.
- intros c [Hc|Hc]%elem_of_app; [by apply runs_ref, H|].
  pose proof (so_ledger _ _ _ _ S) as Hl. rewrite Forall_forall in Hl. rewrite (Hl c Hc). apply run_here.
Qed.
End preservation.
