(* ===== verification/StoreSpecs.v ===== *)
(** Functional specifications of the guarded transitions: on a database that
    satisfies the invariant, each transition either applies one sound effect or
    returns the typed rejection and writes nothing. *)
From S2P Require Import Prelude StoreModel Transitions Effects StoreInv.
Open Scope Z_scope.

(** [m] is a guarded transition on [d]: when its guard [g] holds it returns
    [res] and applies the sound effect [e]; otherwise it fails with [err] and
    the database is untouched. *)
Definition guarded {A} (d : DB) (run : Run) (x : RunStep) (m : Tx A) (g : bool) (res : A)
    (e : Effect) (err : Err) : Prop :=
  if g then m d = (Ok res, apply_effect run x e d) ∧ sound d run x e
  else m d = (Fail err, d).

Lemma guarded_reject {A} d run x (m : Tx A) g res e err :
  guarded d run x m g res e err → g = false → m d = (Fail err, d).
Proof. by intros G ->. Qed.
Lemma guarded_accept {A} d run x (m : Tx A) g res e err :
  guarded d run x m g res e err → g = true → m d = (Ok res, apply_effect run x e d) ∧ sound d run x e.
Proof. by intros G ->. Qed.

(** The rejection [stepConflict] builds from the row it re-reads. *)
Definition conflict_of (want to : StepStatus) (claim : option uuid) (x : RunStep) : Err :=
  ErrTransition (mkTransitionError EntityStep (step_RunID x) (step_StepID x) (StepSt (step_Status x))
    (StepSt to)
    (if negb (has_status want x) then ConflictWrongStatus
     else match claim with
          | Some c => if has_claim c x then ConflictGuardFailed else ConflictClaimMismatch
          | None => ConflictGuardFailed
          end) claim (step_ClaimID x)).

Definition wrong_status (to : StepStatus) (x : RunStep) : Err :=
  ErrTransition (mkTransitionError EntityStep (step_RunID x) (step_StepID x) (StepSt (step_Status x))
    (StepSt to) ConflictWrongStatus None (step_ClaimID x)).

Definition run_conflict_of (want to : RunStatus) (y : Run) : Err :=
  ErrTransition (mkTransitionError EntityRun (run_ID y) "" (RunSt (run_Status y)) (RunSt to)
    (if bool_decide (run_Status y = want) then ConflictGuardFailed else ConflictWrongStatus) None None).

(** An effect on the step row and its current attempt. *)
Definition step_effect (frun : Run → Run) (fstep : RunStep → RunStep) (att : AttemptEffect)
    (dls : list DeadLetter) (evs : list Payload) : Effect :=
  mkEffect frun fstep att dls (λ l, l) [] evs.

(** The dead-letter row a transition adds for [x]. *)
Definition new_dead_letter (d : DB) (x : RunStep) (src : DeadLetterSource)
    (class : option AttemptOutcome) (err payload : option json) (now : time) : DeadLetter :=
  mkDeadLetter (step_RunID x) (step_StepID x)
    (max_dead_letter dl_Seq (step_RunID x) (step_StepID x) (dead_letters d) + 1) src class err payload
    (step_AttemptCount x) now.

(** An UPDATE of the first row that matches, as a function of the table. *)
Definition set_first {A} (p : A → bool) (f : A → A) (l : list A) : list A :=
  match update_first p f l with Some (_, l') => l' | None => l end.

Lemma set_first_ids p f l : (∀ a, ap_ID (f a) = ap_ID a) → ap_ID <$> set_first p f l = ap_ID <$> l.
Proof.
  intros Hf. unfold set_first. destruct (update_first p f l) as [[a l']|] eqn:Hu; [|done].
  apply update_first_Some in Hu as (l1 & y & l2 & -> & -> & _).
  by rewrite !fmap_app, !fmap_cons, Hf.
Qed.

Lemma update_first_find {A} (p : A → bool) f l :
  update_first p f l =
    match find p l with Some a => Some (f a, set_first p f l) | None => None end.
Proof.
  unfold set_first. induction l as [|a l IH]; cbn; [done|]. destruct (p a); [done|].
  destruct (find p l); rewrite IH; [|done].
  by destruct (update_first p f l) as [[]|].
Qed.

(** SucceedRun's guard. *)
Definition succeed_run_guard (y : Run) : bool :=
  run_open y && (run_StepsFailed y =? 0) &&
  (run_StepsSucceeded y + run_StepsSkipped y + run_StepsCollected y =? run_StepsTotal y).

(** ** Automation *)
Ltac rows := split; intros; reflexivity.
Ltac guard_cases Hg :=
  match goal with
  | x : RunStep |- _ =>
      let Hst := fresh "Hst" in
      destruct (step_Status x) eqn:Hst;
      unfold fenced, claimable, cancellable, poisonable, readyable, skippable, has_status in Hg;
      rewrite ?Hst in Hg; try discriminate Hg; try (vm_compute in Hg; discriminate Hg)
  end.
(** The run-row obligations of a change of run status, by cases on the status
    the guard admits. *)
Ltac run_cases :=
  match goal with
  | Hg : ?g = true |- context [run_Status ?y] =>
      let Hs := fresh "Hs" in
      destruct (run_Status y) eqn:Hs;
      unfold succeed_run_guard, run_not_terminal, run_open, run_has in Hg; rewrite ?Hs in Hg;
      first [ discriminate Hg
            | by right
            | destruct (run_ParkReason y), (run_FinishedAt y), (run_CancelReason y);
              vm_compute; solve [done | intros [=]]
            | by vm_compute in Hg; discriminate Hg ]
  end.
Ltac run_row_cases :=
  first [ by right | by left | run_cases
        | unfold run_shape; cbn; run_cases ].

Section specs.
Context (d : DB) (r : uuid) (s : string) (run : Run) (x : RunStep).
Context (H : db_inv d) (Hrun : find (is_run r) (runs d) = Some run)
(Hstep : find (is_step r s) (run_steps d) = Some x).

Lemma rows_read : readable d run ∧ located d x ∧ x ∈ run_steps d ∧
run_ID run = r ∧ step_RunID x = r ∧ step_StepID x = s.
Proof. by apply inv_readable. Qed.

Lemma same_run : step_RunID x = run_ID run.
Proof. destruct rows_read as (_ & _ & _ & -> & -> & _). done. Qed.

Lemma locatedx : located d x.
Proof. by destruct rows_read as (_ & ? & _). Qed.

Lemma focusedx e : focused d x e.
Proof. left. apply locatedx. Qed.

Lemma lockRun_ok : lockRun r d = (Ok run, d).
Proof. unfold lockRun. by rewrite GetRun_eval, Hrun. Qed.

Lemma GetRunStep_ok : GetRunStep r s d = (Ok x, d).
Proof. by rewrite GetRunStep_eval, Hstep. Qed.

Lemma update_step_ok g f : (∀ y, step_key (f y) = step_key y) →
update_step r s g f d =
  if g x then (Ok (Some (f x)), apply_effect run x (idle <| ef_step := f |>) d) else (Ok None, d).
Proof.
destruct rows_read as (R & Hl & _ & Er & Exr & Exs). intros Hf.
rewrite <-Exr, <-Exs. etrans; [by rewrite <-(apply_idle d run x) at 1|].
rewrite update_step_effect; [|done|done|rows|done]. cbn. by rewrite apply_idle.
Qed.

Lemma bumpCounters_ok e p : row_changes e →
bumpCounters r p (apply_effect run x e d) =
  (Ok tt, apply_effect run x (e <| ef_run := λ y, bump p (ef_run e y) |>) d).
Proof. destruct rows_read as (R & _ & _ & <- & _). by apply bumpCounters_effect. Qed.

Lemma appendEvent_ok e p : row_changes e →
appendEvent r p (apply_effect run x e d) =
  (Ok tt, apply_effect run x (e <| ef_events := ef_events e ++ [p] |>) d).
Proof. destruct rows_read as (R & _ & _ & <- & _). by apply appendEvent_effect. Qed.

Lemma finishAttempt_ok e y o er u v rp now :
in_flight (step_Status x) = true →
ef_att e = AttKeep → step_key y = step_key x → step_AttemptCount y = step_AttemptCount x →
finishAttempt y o er u v rp now (apply_effect run x e d) =
  (Ok tt, apply_effect run x (e <| ef_att := AttClose (close_attempt o er u v rp now) |>) d).
Proof.
destruct rows_read as (R & _ & Hx & _). intros Hf ? ? ?.
rewrite finishAttempt_effect by done. by destruct (inv_current_attempt d x H Hx Hf) as [a ->].
Qed.

Lemma CreateDeadLetter_ok e src c er pl n now :
dead_letter_class_ok c = true → ef_dls e = [] → n = step_AttemptCount x →
CreateDeadLetter r s src c er pl n now (apply_effect run x e d) =
  let row := new_dead_letter d x src c er pl now in
  (Ok row, apply_effect run x (e <| ef_dls := [row] |>) d).
Proof.
destruct rows_read as (R & _ & _ & _ & <- & <-). intros ? ? ->. by apply CreateDeadLetter_effect.
Qed.

Lemma update_run_ok e g f : row_changes e →
(∀ y, run_ID (f y) = run_ID y) →
(∀ n y, f (advance n y) = advance n (f y)) → (∀ n y, g (advance n y) = g y) →
update_run r g f (apply_effect run x e d) =
  if g (ef_run e run)
  then (Ok (Some (advance (Z.of_nat (length (ef_events e))) (f (ef_run e run)))),
        apply_effect run x (e <| ef_run := λ y, f (ef_run e y) |>) d)
  else (Ok None, apply_effect run x e d).
Proof. destruct rows_read as (R & _ & _ & <- & _). by apply update_run_effect. Qed.

Lemma stepConflict_ok {A} want to claim :
@stepConflict A r s want to claim d = (Fail (conflict_of want to claim x), d).
Proof.
destruct rows_read as (_ & _ & _ & _ & Er & Es).
unfold stepConflict, bind. rewrite GetRunStep_ok. unfold conflict_of. by rewrite Er, Es.
Qed.

Lemma update_approval_ok e p f : ef_aps e = (λ l, l) →
update_approval p f (apply_effect run x e d) =
  match find p (approvals d) with
  | Some a => (Ok (Some (f a)), apply_effect run x (e <| ef_aps := set_first p f |>) d)
  | None => (Ok None, apply_effect run x e d)
  end.
Proof.
intros He. unfold update_approval, bind, get, put, ret, apply_effect. cbn. rewrite He.
rewrite update_first_find. by destruct (find p (approvals d)).
Qed.

Lemma now_ok now : now ≠ 0 → transitionQueries now d = (Ok tt, d).
Proof. intros Hn%Z.eqb_neq. unfold transitionQueries, guard. by rewrite Hn. Qed.
End specs.

Ltac counters :=
  first [ done | lia | by constructor | by left | by right | by auto
        | by (intros _; right; eexists; split; [by apply list_elem_of_singleton|];
              unfold is_dead_letter; cbn; by decide_eqs)
        | by (right; split; [eexists; split_and!; [done|unfold is_dead_letter; cbn; by decide_eqs|done]
                            |split; [eapply locatedx; eassumption|done]])
        | unfold ind; cbn; repeat case_bool_decide; (congruence || lia) ].

(** Side conditions: a status fact, or that identity columns are kept. *)
Ltac side :=
  first [ done | rows
        | match goal with Hst : step_Status _ = _ |- _ => by rewrite Hst end ].
Ltac attempt_cases :=
  cbn; constructor; cbn; repeat match goal with Hst : step_Status _ = _ |- _ => rewrite Hst end;
  try done; try congruence; try (by intros; split).
Ltac solve_sound :=
  split;
  [ rows
  | eapply focusedx; eassumption
  | eapply same_run; eassumption
  | done
  | once attempt_cases
  | cbn; repeat match goal with Hst : step_Status _ = _ |- _ => rewrite Hst end; rewrite ?ledger_sum_nil; try counters ..
  ].
(** Evaluate the next primitive of a transition. *)
Ltac step_eval :=
  first
    [ rewrite now_ok by done
    | erewrite lockRun_ok by done
    | erewrite GetRunStep_ok by done
    | erewrite update_step_ok by done
    | erewrite stepConflict_ok by done
    | erewrite finishAttempt_ok by side
    | erewrite bumpCounters_ok by (done || rows)
    | erewrite CreateDeadLetter_ok by done
    | erewrite appendEvent_ok by (done || rows) ]; cbn [fst snd negb ret throw].

(** A transition with one conditional UPDATE and a [stepConflict] diagnosis. *)
Ltac solve_guarded :=
  intros; unfold guarded, bind; cbn [negb ret throw]; repeat step_eval;
  let Hg := fresh "Hg" in
  match goal with |- if ?g then _ else _ => destruct g eqn:Hg end;
  [guard_cases Hg; repeat step_eval; split; [done|solve_sound] | by repeat step_eval].

(** ** Step transitions *)
Section step_specs.
Context (d : DB) (r : uuid) (s : string) (run : Run) (x : RunStep).
Context (H : db_inv d) (Hrun : find (is_run r) (runs d) = Some run)
(Hstep : find (is_step r s) (run_steps d) = Some x).
Implicit Types (now : time) (c : uuid) (err u v rp out : option json).

Definition succeed_set out now (y : RunStep) : RunStep :=
y <| step_Status := StepStatusSucceeded |> <| step_Output := out |>
  <| step_Feedback := None |> <| step_FinishedAt := Some now |> <| step_UpdatedAt := now |>.

Lemma SucceedStep_guarded c out u v rp now : now ≠ 0 →
guarded d run x (SucceedStep r s c out u v rp now) (fenced c x) (succeed_set out now x)
  (step_effect (bump (noDeltas <| DSucceeded := 1 |>)) (succeed_set out now)
    (AttClose (close_attempt AttemptOutcomeSucceeded None u v rp now)) []
    [StepSucceededEv s (step_AttemptCount x)])
  (conflict_of StepStatusRunning StepStatusSucceeded (Some c) x).
Proof. unfold SucceedStep. solve_guarded. Qed.

(** Release of a claim: takeover and budget park. *)
Definition release_set now (y : RunStep) : RunStep :=
y <| step_Status := StepStatusReady |> <| step_ClaimID := None |> <| step_UpdatedAt := now |>.

Lemma TakeoverStep_guarded c now : now ≠ 0 →
guarded d run x (TakeoverStep r s c now) (fenced c x) (release_set now x)
  (step_effect (λ y, y) (release_set now)
    (AttClose (close_attempt AttemptOutcomeLost None None None None now)) []
    [StepReclaimed s c (step_AttemptCount x)])
  (conflict_of StepStatusRunning StepStatusReady (Some c) x).
Proof. unfold TakeoverStep. solve_guarded. Qed.

Definition dead_letter_set err now (y : RunStep) : RunStep :=
y <| step_Status := StepStatusDeadLettered |> <| step_Error := err |>
  <| step_Feedback := None |> <| step_FinishedAt := Some now |> <| step_UpdatedAt := now |>.

Lemma DeadLetterStep_guarded c src class err u v rp now : now ≠ 0 →
src ≠ DeadLetterSourcePoison → dead_letter_class_ok (Some class) = true →
let dl := new_dead_letter d x src (Some class) err None now in
guarded d run x (DeadLetterStep r s c src (Some class) err u v rp now) (fenced c x)
  (dead_letter_set err now x)
  (step_effect (bump (noDeltas <| DFailed := 1 |>)) (dead_letter_set err now)
    (AttClose (close_attempt class err u v rp now)) [dl]
    [StepDeadLetteredEv s src (Some class) (step_AttemptCount x) (dl_Seq dl)])
  (conflict_of StepStatusRunning StepStatusDeadLettered (Some c) x).
Proof.
unfold DeadLetterStep, guard. intros ? Hsrc Hcl.
assert (bool_decide (src = DeadLetterSourceRetriesExhausted) ||
        bool_decide (src = DeadLetterSourcePermanent) = true) as -> by by destruct src.
solve_guarded.
Qed.

Definition collect_set out err now (y : RunStep) : RunStep :=
y <| step_Status := StepStatusCollected |> <| step_Output := out |> <| step_Error := err |>
  <| step_Feedback := None |> <| step_FinishedAt := Some now |> <| step_UpdatedAt := now |>.

Lemma CollectFailStep_guarded c class out err u now : now ≠ 0 →
guarded d run x (CollectFailStep r s c (Some class) out err u now) (fenced c x)
  (collect_set out err now x)
  (step_effect (bump (noDeltas <| DCollected := 1 |>)) (collect_set out err now)
    (AttClose (close_attempt class err u None None now)) []
    [StepCollectedEv s class (step_AttemptCount x)])
  (conflict_of StepStatusRunning StepStatusCollected (Some c) x).
Proof. unfold CollectFailStep. solve_guarded. Qed.

Definition poison_set err now (y : RunStep) : RunStep :=
y <| step_Status := StepStatusDeadLettered |> <| step_Error := err |> <| step_ClaimID := None |>
  <| step_NextAttemptAt := None |> <| step_Feedback := None |> <| step_FinishedAt := Some now |>
  <| step_UpdatedAt := now |>.

Lemma PoisonDeadLetterStep_guarded err pl now : now ≠ 0 →
let dl := new_dead_letter d x DeadLetterSourcePoison None err pl now in
guarded d run x (PoisonDeadLetterStep r s err pl now) (poisonable x) (poison_set err now x)
  (step_effect (bump (noDeltas <| DFailed := 1 |>)) (poison_set err now)
    (if has_status StepStatusRunning x
     then AttClose (close_attempt AttemptOutcomeLost err None None None now) else AttKeep) [dl]
    [StepDeadLetteredEv s DeadLetterSourcePoison None (step_AttemptCount x) (dl_Seq dl)])
  (wrong_status StepStatusDeadLettered x).
Proof.
intros Hnow dl. unfold PoisonDeadLetterStep, guarded, bind. repeat step_eval.
destruct (poisonable x) eqn:Hg.
- guard_cases Hg; unfold has_status; rewrite Hst;
    match goal with |- context [bool_decide (?a = ?b)] =>
      (rewrite (bool_decide_eq_true_2 (a = b)) by done) ||
      (rewrite (bool_decide_eq_false_2 (a = b)) by done) end;
    cbn [ret]; repeat step_eval; (split; [done|solve_sound]).
- unfold wrong_status, throw. destruct (rows_read d r s run x H Hrun Hstep) as (_ & _ & _ & _ & -> & ->).
  done.
Qed.

Definition cancel_set now (y : RunStep) : RunStep :=
y <| step_Status := StepStatusCancelled |> <| step_NextAttemptAt := None |> <| step_UpdatedAt := now |>.

Lemma CancelStep_guarded reason now : now ≠ 0 → reason ≠ "" →
guarded d run x (CancelStep r s reason now) (cancellable x) (cancel_set now x)
  (step_effect (bump (noDeltas <| DCancelled := 1 |>)) (cancel_set now) AttKeep []
    [StepCancelledEv s reason])
  (wrong_status StepStatusCancelled x).
Proof.
intros ? Hr. unfold CancelStep, guarded, bind, guard. rewrite bool_decide_eq_false_2 by done.
cbn [negb ret]. repeat step_eval. destruct (cancellable x) eqn:Hg.
- guard_cases Hg; repeat step_eval; (split; [done|solve_sound]).
- step_eval. unfold wrong_status.
  destruct (rows_read d r s run x H Hrun Hstep) as (_ & _ & _ & _ & -> & ->). done.
Qed.

Definition cancel_running_set err now (y : RunStep) : RunStep :=
y <| step_Status := StepStatusCancelled |> <| step_Error := err |>
  <| step_FinishedAt := Some now |> <| step_UpdatedAt := now |>.

Lemma CancelRunningStep_guarded c reason err now : now ≠ 0 → reason ≠ "" →
guarded d run x (CancelRunningStep r s c reason err now) (fenced c x) (cancel_running_set err now x)
  (step_effect (bump (noDeltas <| DCancelled := 1 |>)) (cancel_running_set err now)
    (AttClose (close_attempt AttemptOutcomeCancelled err None None None now)) []
    [StepCancelledEv s reason])
  (conflict_of StepStatusRunning StepStatusCancelled (Some c) x).
Proof.
intros ? Hr. unfold CancelRunningStep, guard. rewrite bool_decide_eq_false_2 by done. solve_guarded.
Qed.

Definition requeue_set now (y : RunStep) : RunStep :=
y <| step_Status := StepStatusReady |> <| step_Error := None |> <| step_NextAttemptAt := None |>
  <| step_FinishedAt := None |> <| step_UpdatedAt := now |>.

Lemma RequeueStep_guarded now : now ≠ 0 →
guarded d run x (RequeueStep r s now) (has_status StepStatusDeadLettered x) (requeue_set now x)
  (step_effect (bump (noDeltas <| DFailed := -1 |>)) (requeue_set now) AttKeep [] [StepRequeuedEv s])
  (conflict_of StepStatusDeadLettered StepStatusReady None x).
Proof. unfold RequeueStep. solve_guarded. Qed.

Definition revive_set now (y : RunStep) : RunStep :=
y <| step_Status := StepStatusPending |> <| step_UpdatedAt := now |>.

Lemma ReviveStep_guarded reason now : now ≠ 0 → reason ≠ "" →
guarded d run x (ReviveStep r s reason now) (has_status StepStatusCancelled x) (revive_set now x)
  (step_effect (bump (noDeltas <| DCancelled := -1 |>)) (revive_set now) AttKeep []
    [StepRevivedEv s reason])
  (conflict_of StepStatusCancelled StepStatusPending None x).
Proof.
intros ? Hr. unfold ReviveStep, guard. rewrite bool_decide_eq_false_2 by done. solve_guarded.
Qed.

Lemma RetryStep_guarded c outcome err u next now : now ≠ 0 → next ≠ 0 →
outcome = AttemptOutcomeTransient ∨ outcome = AttemptOutcomeTimeout →
guarded d run x (RetryStep r s c outcome err u next now) (fenced c x) (RetryRunStep err next now x)
  (step_effect (λ y, y) (RetryRunStep err next now)
    (AttClose (close_attempt outcome err u None None now)) []
    [StepRetryScheduled s (step_AttemptCount x) outcome next])
  (conflict_of StepStatusRunning StepStatusRetrying (Some c) x).
Proof.
intros ? Hn%Z.eqb_neq Ho. unfold RetryStep, guard. rewrite Hn.
assert (bool_decide (outcome = AttemptOutcomeTransient) ||
        bool_decide (outcome = AttemptOutcomeTimeout) = true) as -> by by destruct Ho as [-> | ->].
solve_guarded.
Qed.

Lemma ThrottleStep_guarded c resource bucket ra next now : now ≠ 0 → next ≠ 0 →
let err := Some (JObj [("bucket", JStr bucket); ("outcome", JStr "throttled");
                       ("resource", JStr resource)]) in
guarded d run x (ThrottleStep r s c resource bucket ra next now) (fenced c x)
  (RetryRunStep err next now x)
  (step_effect (λ y, y) (RetryRunStep err next now)
    (AttClose (close_attempt AttemptOutcomeThrottled err None None None now)) []
    [StepThrottledEv s (step_AttemptCount x) resource bucket ra next])
  (conflict_of StepStatusRunning StepStatusRetrying (Some c) x).
Proof. intros ? Hn%Z.eqb_neq err. unfold ThrottleStep, guard. rewrite Hn. solve_guarded. Qed.

Lemma SemanticRetryStep_guarded c err u v rp fb sa ma ic next now : now ≠ 0 → next ≠ 0 →
let set := λ y, RetryRunStep err next now y <| step_Feedback := fb |> in
guarded d run x (SemanticRetryStep r s c err u v rp fb sa ma ic next now) (fenced c x) (set x)
  (step_effect (λ y, y) set
    (AttClose (close_attempt AttemptOutcomeValidationFailed err u v rp now)) []
    [StepSemanticRetryEv s (step_AttemptCount x) sa ma ic next])
  (conflict_of StepStatusRunning StepStatusRetrying (Some c) x).
Proof. intros ? Hn%Z.eqb_neq set. unfold SemanticRetryStep, guard. rewrite Hn. solve_guarded. Qed.

Definition ready_set now (y : RunStep) : RunStep :=
y <| step_Status := StepStatusReady |> <| step_UpdatedAt := now |>.

Lemma ReadyStep_guarded joinAny now : now ≠ 0 →
guarded d run x (ReadyStep r s joinAny now) (readyable joinAny x) (ready_set now x)
  (step_effect (λ y, y) (ready_set now) AttKeep [] [StepReadyEv s])
  (conflict_of StepStatusPending StepStatusReady None x).
Proof. unfold ReadyStep. solve_guarded. Qed.

Definition skip_set now (y : RunStep) : RunStep :=
y <| step_Status := StepStatusSkipped |> <| step_UpdatedAt := now |>.

Lemma SkipStep_guarded now : now ≠ 0 →
guarded d run x (SkipStep r s now) (skippable x) (skip_set now x)
  (step_effect (bump (noDeltas <| DSkipped := 1 |>)) (skip_set now) AttKeep [] [StepSkippedEv s])
  (conflict_of StepStatusPending StepStatusSkipped None x).
Proof. unfold SkipStep. solve_guarded. Qed.
End step_specs.

(** ** Claim *)
Section claim_specs.
Context (d : DB) (r : uuid) (s : string) (run : Run) (x : RunStep).
Context (H : db_inv d) (Hrun : find (is_run r) (runs d) = Some run)
(Hstep : find (is_step r s) (run_steps d) = Some x).

(** The attempt row a claim opens. *)
Definition claimed_attempt (claimID : uuid) (now : time) (workerID : string) : StepAttempt :=
mkStepAttempt r s (step_AttemptCount x + 1) claimID None None (Some now) None None None None
  (step_Feedback x) (nullableText workerID).

Definition claim_effect (now : time) (traceSpan workerID : string) (claimID : uuid) : Effect :=
step_effect (λ y, y) (ClaimRunStep claimID now (nullableText traceSpan))
  (AttOpen (claimed_attempt claimID now workerID)) []
  [StepClaimed s claimID (step_AttemptCount x + 1) workerID].

Definition claim_origin : ClaimOrigin :=
mkClaimOrigin (Some (step_Status x)) (step_UpdatedAt x) true (textOrEmpty (step_TraceSpan x))
  (mkTraceContext (textOrEmpty (run_TraceParent run)) (textOrEmpty (run_TraceState run)))
  (run_BudgetNanoUsd run) (run_SpentNanoUsd run) (run_OnBudgetExceeded run)
  (run_DeadlineAt run) (run_StartedAt run).

(** The claim's rejection: the run guard first, then the step's. *)
Definition claim_conflict : Err :=
if run_has RunStatusRunning run
then conflict_of StepStatusReady StepStatusRunning None x
else ErrTransition (mkTransitionError EntityStep r s (RunSt (run_Status run))
       (StepSt StepStatusRunning) ConflictRunNotRunning None (step_ClaimID x)).

Lemma ClaimStepWithOrigin_guarded now sp w c : now ≠ 0 →
guarded d run x (ClaimStepWithOrigin r s now sp w c)
  (run_has RunStatusRunning run && claimable now x)
  (ClaimRunStep c now (nullableText sp) x, claim_origin)
  (claim_effect now sp w c) claim_conflict.
Proof.
intros Hnow. destruct (rows_read d r s run x H Hrun Hstep) as (R & _ & Hx & _ & Er & Es).
unfold guarded, ClaimStepWithOrigin, bind, attempt, claim_conflict.
do 2 step_eval. unfold run_has. destruct (bool_decide _); cbn [negb andb]; [|by step_eval].
do 2 step_eval. destruct (claimable now x) eqn:Hg; [|by step_eval].
pose proof (inv_next_attempt _ _ H Hx) as Hfree.
rewrite CreateStepAttempt_effect by (cbn; done).
erewrite appendEvent_ok by (done || rows). split; [done|].
guard_cases Hg; solve_sound; cbn; unfold att_key; cbn; congruence.
Qed.
End claim_specs.

(** ** Budget park and human approval *)
Section approval_specs.
Context (d : DB) (r : uuid) (s : string) (run : Run) (x : RunStep).
Context (H : db_inv d) (Hrun : find (is_run r) (runs d) = Some run)
(Hstep : find (is_step r s) (run_steps d) = Some x).

Definition park_set (reason : string) (y : Run) : Run :=
y <| run_Status := RunStatusParked |> <| run_ParkReason := Some reason |>.

(** The run is parked only while it is running. *)
Lemma BudgetParkStep_guarded c ev now : now ≠ 0 →
let ev' := ev <| be_StepID := s |> <| be_Attempt := step_AttemptCount x |>
              <| be_Action := "park" |> in
let running := run_has RunStatusRunning run in
guarded d run x (BudgetParkStep r s c ev now) (fenced c x) (release_set now x)
  (step_effect (if running then park_set ParkReasonBudgetExceeded else λ y, y) (release_set now)
    (AttClose (close_attempt AttemptOutcomeBudgetExceeded (Some (budget_event_json ev'))
                 None None None now)) []
    (BudgetExceededEv ev' :: if running then [RunParkedEv ParkReasonBudgetExceeded] else []))
  (conflict_of StepStatusRunning StepStatusReady (Some c) x).
Proof.
intros Hnow ev' running. subst running. unfold guarded, BudgetParkStep, bind. do 3 step_eval.
destruct (fenced c x) eqn:Hg; [|by step_eval].
guard_cases Hg. do 2 step_eval. unfold run_has.
destruct (bool_decide (run_Status run = RunStatusRunning)) eqn:Hr; [|split; [done|solve_sound]].
unfold ParkRunQuery. erewrite update_run_ok; [|done..|rows|done| |done]; [|by intros n []].
cbn [ef_run idle]. unfold run_has. cbn. rewrite Hr.
step_eval. split; [done|solve_sound]; run_row_cases.
Qed.

Definition await_set (now : time) (y : RunStep) : RunStep :=
y <| step_Status := StepStatusAwaitingHuman |> <| step_ClaimID := None |> <| step_UpdatedAt := now |>.

Definition approval_row (a : ApprovalRow) (now : time) : Approval :=
mkApproval (arow_ID a) r s (step_AttemptCount x) ApprovalStatusPending (arow_Title a)
  (arow_Description a) (arow_Payload a) (arow_AllowedDecisions a) (arow_AllowEdit a)
  (arow_EditSchema a) (arow_TimeoutAt a) None None None None None None now now None.

Definition pending_of : Approval → bool :=
λ a, ap_of_step r s a && ap_has ApprovalStatusPending a.

(** A fresh approval id and no pending approval of the step: the two unique
  indexes admit the row. *)
Lemma AwaitHumanStep_guarded c a now : now ≠ 0 →
existsb (is_approval (arow_ID a)) (approvals d) = false →
existsb pending_of (approvals d) = false →
guarded d run x (AwaitHumanStep r s c a now) (fenced c x) (await_set now x)
  (step_effect (λ y, y) (await_set now) AttKeep []
     [ApprovalRequestedEv (arow_ID a) s (step_AttemptCount x) (arow_Title a)
        (arow_AllowedDecisions a) (arow_AllowEdit a) (arow_TimeoutAt a)]
    <| ef_aps := λ l, l ++ [approval_row a now] |>)
  (conflict_of StepStatusRunning StepStatusAwaitingHuman (Some c) x).
Proof.
intros Hnow Hid Hpend. unfold guarded, AwaitHumanStep, bind. do 3 step_eval.
destruct (fenced c x) eqn:Hg; [|by step_eval].
guard_cases Hg. unfold InsertApproval, bind, get, put. cbn [approvals apply_effect idle ef_aps].
cbn. rewrite Hid. fold pending_of. rewrite Hpend.
match goal with |- context [appendEvent r ?p ?d'] =>
  change d' with (apply_effect run x
    (idle <| ef_step := await_set now |> <| ef_aps := λ l, l ++ [approval_row a now] |>) d) end.
step_eval. split; [done|]. solve_sound.
intros Hnd. rewrite fmap_app. apply NoDup_app. split_and!; [done| |apply NoDup_singleton].
intros i (b & -> & Hb)%list_elem_of_fmap Hi%list_elem_of_singleton.
apply existsb_false in Hid. rewrite Forall_forall in Hid. specialize (Hid b Hb).
unfold is_approval in Hid. apply bool_decide_eq_false in Hid. done.
Qed.

Definition human_succeed_set (out : option json) (now : time) (y : RunStep) : RunStep :=
y <| step_Status := StepStatusSucceeded |> <| step_Output := out |>
  <| step_FinishedAt := Some now |> <| step_UpdatedAt := now |>.

Lemma SucceedAwaitingHumanStep_guarded out now : now ≠ 0 →
guarded d run x (SucceedAwaitingHumanStep r s out now) (has_status StepStatusAwaitingHuman x)
  (human_succeed_set out now x)
  (step_effect (bump (noDeltas <| DSucceeded := 1 |>)) (human_succeed_set out now)
    (AttClose (close_attempt AttemptOutcomeSucceeded None None None None now)) []
    [StepSucceededEv s (step_AttemptCount x)])
  (conflict_of StepStatusAwaitingHuman StepStatusSucceeded None x).
Proof. unfold SucceedAwaitingHumanStep. solve_guarded. Qed.

Definition human_dead_letter_set (err : option json) (now : time) (y : RunStep) : RunStep :=
y <| step_Status := StepStatusDeadLettered |> <| step_Error := err |>
  <| step_FinishedAt := Some now |> <| step_UpdatedAt := now |>.

Lemma DeadLetterAwaitingHumanStep_guarded err now : now ≠ 0 →
let dl := new_dead_letter d x DeadLetterSourcePermanent (Some AttemptOutcomePermanent) err None now in
guarded d run x (DeadLetterAwaitingHumanStep r s err now) (has_status StepStatusAwaitingHuman x)
  (human_dead_letter_set err now x)
  (step_effect (bump (noDeltas <| DFailed := 1 |>)) (human_dead_letter_set err now)
    (AttClose (close_attempt AttemptOutcomePermanent err None None None now)) [dl]
    [StepDeadLetteredEv s DeadLetterSourcePermanent (Some AttemptOutcomePermanent)
       (step_AttemptCount x) (dl_Seq dl)])
  (conflict_of StepStatusAwaitingHuman StepStatusDeadLettered None x).
Proof. unfold DeadLetterAwaitingHumanStep. solve_guarded. Qed.

Definition cancel_human_set (now : time) (y : RunStep) : RunStep :=
y <| step_Status := StepStatusCancelled |> <| step_NextAttemptAt := None |>
  <| step_FinishedAt := Some now |> <| step_UpdatedAt := now |>.
Definition cancel_approval (now : time) (a : Approval) : Approval :=
a <| ap_Status := ApprovalStatusCancelled |> <| ap_UpdatedAt := now |>.

(** The step and its pending approval, if it has one, are cancelled together. *)
Lemma CancelAwaitingHumanStep_guarded reason now : now ≠ 0 → reason ≠ "" →
guarded d run x (CancelAwaitingHumanStep r s reason now) (has_status StepStatusAwaitingHuman x)
  (cancel_human_set now x)
  (step_effect (bump (noDeltas <| DCancelled := 1 |>)) (cancel_human_set now)
     (AttClose (close_attempt AttemptOutcomeCancelled None None None None now)) []
     (StepCancelledEv s reason ::
      match find pending_of (approvals d) with
      | Some a => [ApprovalCancelledEv (ap_ID a) s reason]
      | None => []
      end)
    <| ef_aps := if find pending_of (approvals d) is Some _
                 then set_first pending_of (cancel_approval now) else λ l, l |>)
  (conflict_of StepStatusAwaitingHuman StepStatusCancelled None x).
Proof.
intros ? Hr. unfold CancelAwaitingHumanStep, guarded, bind, guard.
rewrite bool_decide_eq_false_2 by done. cbn [negb ret]. do 3 step_eval.
destruct (has_status _ x) eqn:Hg; [|by step_eval]. guard_cases Hg. do 3 step_eval.
erewrite update_approval_ok by done. fold pending_of.
change (λ y, y <| ap_Status := ApprovalStatusCancelled |> <| ap_UpdatedAt := now |>)
  with (cancel_approval now).
destruct (find pending_of (approvals d)) as [a|]; [step_eval|]; (split; [done|solve_sound]).
cbn. by rewrite set_first_ids.
Qed.
End approval_specs.

(** ** Run transitions *)

(** The phantom step of an effect that concerns no step. *)
Definition no_step (r : uuid) : RunStep :=
  mkRunStep r "" "" None StepStatusPending 0 0 None 0 None None 0 None None None None None noEnvelope.

Definition run_effect (frun : Run → Run) (evs : list Payload) : Effect :=
  mkEffect frun (λ x, x) AttKeep [] (λ l, l) [] evs.

Lemma advance_0 y : advance 0 y = y.
Proof. unfold advance. destruct y. cbn. f_equal. lia. Qed.

Section run_prims.
Context (d : DB) (r : uuid) (run : Run).
Context (H : db_inv d) (Hrun : find (is_run r) (runs d) = Some run).

Lemma run_read : readable d run ∧ run ∈ runs d ∧ run_ID run = r.
Proof.
destruct (find_run_inv _ _ _ Hrun) as [Hin E]. split_and!; try done.
split; try apply H; [by apply inv_fresh|by rewrite E].
Qed.

Lemma no_step_run : step_RunID (no_step r) = run_ID run.
Proof. by destruct run_read as (_ & _ & ->). Qed.

Lemma run_update_ok g f :
(∀ y, run_ID (f y) = run_ID y) →
(∀ n y, f (advance n y) = advance n (f y)) → (∀ n y, g (advance n y) = g y) →
update_run r g f d =
  if g run then (Ok (Some (f run)), apply_effect run (no_step r) (run_effect f []) d)
  else (Ok None, d).
Proof.
intros Hid Hadv Hg. destruct run_read as (R & _ & <-).
etrans; [by rewrite <-(apply_idle d run (no_step (run_ID run))) at 1|].
rewrite (update_run_effect d run _ R); [|rows|done..]. cbn. rewrite apply_idle.
destruct (g run); [|done]. by rewrite advance_0.
Qed.

Lemma run_append_ok e p : row_changes e →
appendEvent r p (apply_effect run (no_step r) e d) =
  (Ok tt, apply_effect run (no_step r) (e <| ef_events := ef_events e ++ [p] |>) d).
Proof. destruct run_read as (R & _ & <-). by apply appendEvent_effect. Qed.

Lemma run_update_effect e g f : row_changes e →
(∀ y, run_ID (f y) = run_ID y) →
(∀ n y, f (advance n y) = advance n (f y)) → (∀ n y, g (advance n y) = g y) →
update_run r g f (apply_effect run (no_step r) e d) =
  if g (ef_run e run)
  then (Ok (Some (advance (Z.of_nat (length (ef_events e))) (f (ef_run e run)))),
        apply_effect run (no_step r) (e <| ef_run := λ y, f (ef_run e y) |>) d)
  else (Ok None, apply_effect run (no_step r) e d).
Proof. destruct run_read as (R & _ & <-). by apply update_run_effect. Qed.

Lemma GetRun_effect_ok e : row_changes e →
GetRun r (apply_effect run (no_step r) e d) =
  (Ok (advance (Z.of_nat (length (ef_events e))) (ef_run e run)),
   apply_effect run (no_step r) e d).
Proof.
intros Hc. destruct run_read as (R & _ & <-). rewrite GetRun_eval.
by rewrite (find_run_effect d run _ R) by done.
Qed.

(** An append with no other write. *)
Lemma run_append_only p :
appendEvent r p d = (Ok tt, apply_effect run (no_step r) (run_effect (λ y, y) [p]) d).
Proof.
etrans; [by rewrite <-(apply_idle d run (no_step r)) at 1|]. rewrite run_append_ok; [done|rows].
Qed.

Lemma runConflict_ok {A} want to :
@runConflict A r want to d = (Fail (run_conflict_of want to run), d).
Proof.
unfold runConflict, bind. rewrite GetRun_eval, Hrun. unfold run_conflict_of.
by destruct run_read as (_ & _ & ->).
Qed.
End run_prims.

Ltac run_eval :=
  first
    [ rewrite now_ok by done
    | erewrite lockRun_ok by done
    | erewrite run_update_ok; [|done|done|done|by intros ? []|done]
    | erewrite runConflict_ok by done
    | erewrite run_append_ok by (done || rows)
    | erewrite run_append_only by done ]; cbn [fst snd negb ret throw].

Ltac run_sound :=
  split;
  [ rows
  | by right
  | eapply no_step_run; eassumption
  | done
  | by constructor
  | cbn; rewrite ?ledger_sum_nil; try first [done | lia | by constructor | by left | by auto | run_row_cases] ..
  ].

Ltac solve_run :=
  intros; unfold guarded, bind; cbn [negb ret throw]; repeat run_eval;
  let Hg := fresh "Hg" in
  match goal with |- if ?g then _ else _ => destruct g eqn:Hg end;
  [repeat run_eval; split; [done|run_sound] | by repeat run_eval].

Section run_specs.
Context (d : DB) (r : uuid) (run : Run).
Context (H : db_inv d) (Hrun : find (is_run r) (runs d) = Some run).
Abbreviation x := (no_step r).

Lemma SucceedRun_guarded now : now ≠ 0 →
guarded d run x (SucceedRun r now) (succeed_run_guard run) (finish_run RunStatusSucceeded now run)
  (run_effect (finish_run RunStatusSucceeded now) [RunSucceededEv])
  (run_conflict_of RunStatusRunning RunStatusSucceeded run).
Proof.
unfold SucceedRun, succeed_run_guard. solve_run.
intros _. right. split; [done|]. apply andb_prop in Hg as [_ Hg]. lia.
Qed.

Lemma FailRun_guarded now : now ≠ 0 →
guarded d run x (FailRun r now) (run_open run && (1 <=? run_StepsFailed run))
  (finish_run RunStatusFailed now run)
  (run_effect (finish_run RunStatusFailed now) [RunFailedEv])
  (run_conflict_of RunStatusRunning RunStatusFailed run).
Proof. unfold FailRun. solve_run. Qed.

Lemma FailRunRollup_guarded now : now ≠ 0 →
guarded d run x (FailRunRollup r now)
  (run_open run && (1 <=? run_StepsFailed run) && all_accounted run)
  (finish_run RunStatusFailed now run)
  (run_effect (finish_run RunStatusFailed now) [RunFailedEv])
  (run_conflict_of RunStatusRunning RunStatusFailed run).
Proof. unfold FailRunRollup. solve_run. Qed.

Definition resume_set (y : Run) : Run :=
y <| run_Status := RunStatusRunning |> <| run_FinishedAt := None |>.
Lemma ResumeRun_guarded now : now ≠ 0 →
guarded d run x (ResumeRun r now) (run_has RunStatusFailed run) (resume_set run)
  (run_effect resume_set [RunResumedEv]) (run_conflict_of RunStatusFailed RunStatusRunning run).
Proof. unfold ResumeRun. solve_run. Qed.

Definition park_reason_ok (reason : string) : bool :=
bool_decide (reason = ParkReasonManual) || bool_decide (reason = ParkReasonBudgetExceeded)
|| bool_decide (reason = ParkReasonAwaitingHuman).
Lemma ParkRun_guarded reason now : now ≠ 0 → park_reason_ok reason = true →
guarded d run x (ParkRun r reason now) (run_has RunStatusRunning run) (park_set reason run)
  (run_effect (park_set reason) [RunParkedEv reason])
  (run_conflict_of RunStatusRunning RunStatusParked run).
Proof.
unfold ParkRun, ParkRunQuery, guard, park_reason_ok. intros ? ->. solve_run.
Qed.

Definition unpark_set (y : Run) : Run :=
y <| run_Status := RunStatusRunning |> <| run_ParkReason := None |>.
Lemma UnparkRun_guarded now : now ≠ 0 →
guarded d run x (UnparkRun r now) (run_has RunStatusParked run) (unpark_set run)
  (run_effect unpark_set [RunUnparkedEv]) (run_conflict_of RunStatusParked RunStatusRunning run).
Proof. unfold UnparkRun. solve_run. Qed.

Definition cancel_reason_ok (reason : string) : bool :=
bool_decide (reason = RunCancelReasonManual) || bool_decide (reason = RunCancelReasonDeadlineExceeded).
Definition cancelling_set (reason : string) (y : Run) : Run :=
y <| run_Status := RunStatusCancelling |> <| run_CancelReason := Some reason |>
  <| run_ParkReason := None |>.
Lemma CancelRun_guarded reason now : now ≠ 0 → cancel_reason_ok reason = true →
guarded d run x (CancelRun r reason now) (run_open run) (cancelling_set reason run)
  (run_effect (cancelling_set reason) [RunCancellingEv reason])
  (run_conflict_of RunStatusRunning RunStatusCancelling run).
Proof. unfold CancelRun, guard, cancel_reason_ok. intros ? ->. solve_run. Qed.

Definition cancelled_set (now : time) (y : Run) : Run :=
y <| run_Status := RunStatusCancelled |> <| run_FinishedAt := Some now |>.
Lemma CancelRunRollup_guarded now : now ≠ 0 →
guarded d run x (CancelRunRollup r now) (run_has RunStatusCancelling run && all_accounted run)
  (cancelled_set now run) (run_effect (cancelled_set now) [RunCancelledEv])
  (run_conflict_of RunStatusCancelling RunStatusCancelled run).
Proof. unfold CancelRunRollup. solve_run. Qed.

Definition budget_set (b : Z) (y : Run) : Run := y <| run_BudgetNanoUsd := Some b |>.
Lemma SetRunBudget_guarded b now : now ≠ 0 →
guarded d run x (SetRunBudget r b now) (run_not_terminal run) (budget_set b run)
  (run_effect (budget_set b)
    [RunBudgetUpdatedEv (match run_BudgetNanoUsd run with Some o => o | None => 0 end) b])
  (ErrTransition (mkTransitionError EntityRun r "" (RunSt (run_Status run))
     (RunSt (run_Status run)) ConflictWrongStatus None None)).
Proof. unfold SetRunBudget. solve_run. Qed.
End run_specs.

(** ** Approval decisions, cost and record-only operations *)

Lemma is_approval_key i a : is_approval i a = true ↔ ap_ID a = i.
Proof. apply bool_decide_eq_true. Qed.

Definition ap_effect (frun : Run → Run) (p : Approval → bool) (f : Approval → Approval)
    (evs : list Payload) : Effect :=
  mkEffect frun (λ x, x) AttKeep [] (set_first p f) [] evs.

Lemma update_approval_ext p q f d : (∀ a, p a = q a) → update_approval p f d = update_approval q f d.
Proof. intros E. unfold update_approval, bind, get. by rewrite (update_first_ext p q f _ E). Qed.

Section decision_specs.
Context (d : DB) (r : uuid) (run : Run).
Context (H : db_inv d) (Hrun : find (is_run r) (runs d) = Some run).
Abbreviation x := (no_step r).

Lemma run_update_approval p f :
update_approval p f d =
  match find p (approvals d) with
  | Some a => (Ok (Some (f a)), apply_effect run x (ap_effect (λ y, y) p f []) d)
  | None => (Ok None, d)
  end.
Proof.
etrans; [by rewrite <-(apply_idle d run x) at 1|].
rewrite update_approval_ok by done. by rewrite apply_idle.
Qed.

Definition decide_set (a : DecideApprovalArgs) (p : Approval) : Approval :=
p <| ap_Status := da_Status a |> <| ap_Decision := Some (da_Decision a) |>
  <| ap_EditedPayload := da_EditedPayload a |> <| ap_Comment := nullableText (da_Comment a) |>
  <| ap_DecidedBy := Some (da_DecidedBy a) |> <| ap_DecidedAt := Some (da_Now a) |>
  <| ap_DecisionSource := Some (da_Source a) |> <| ap_ExpiredAt := da_ExpiredAt a |>
  <| ap_UpdatedAt := da_Now a |>.

Definition decide_event (a : DecideApprovalArgs) : Payload :=
if bool_decide (da_Status a = ApprovalStatusExpired) then
  ApprovalExpiredEv (da_ID a) (da_StepID a) (da_AttemptNo a) (da_Decision a) (da_Decision a)
    (if bool_decide (da_Decision a = ApprovalReject) then ApprovalActionRejected
     else ApprovalActionApproved) (da_TimeoutAt a)
else
  ApprovalDecidedEv (da_ID a) (da_StepID a) (da_AttemptNo a) (da_Decision a)
    (match da_EditedPayload a with Some _ => true | None => false end)
    (da_Comment a) (da_DecidedBy a) (da_Source a).

Definition decision_status (st : ApprovalStatus) : bool :=
match st with
| ApprovalStatusApproved | ApprovalStatusRejected | ApprovalStatusExpired => true | _ => false
end.

(** The pending approval is the single arbiter of a decision. *)
Lemma DecideApproval_guarded a ap : da_Now a ≠ 0 → da_RunID a = r →
decision_status (da_Status a) = true → find (is_approval (da_ID a)) (approvals d) = Some ap →
guarded d run x (DecideApproval a) (ap_has ApprovalStatusPending ap) (decide_set a ap)
  (ap_effect (λ y, y) (λ p, is_approval (da_ID a) p && ap_has ApprovalStatusPending p)
     (decide_set a) [decide_event a])
  (ErrApprovalNotPending (da_ID a) (ap_Status ap)).
Proof.
intros Hnow Hr Hst Hap. unfold guarded, DecideApproval, bind, guard.
change (match da_Status a with
        | ApprovalStatusApproved | ApprovalStatusRejected | ApprovalStatusExpired => true
        | _ => false end) with (decision_status (da_Status a)).
rewrite Hst, Hr. cbn [ret]. do 2 run_eval. rewrite run_update_approval.
rewrite (find_guarded ap_ID is_approval is_approval_key) by apply H. rewrite Hap.
destruct (ap_has ApprovalStatusPending ap).
- unfold decide_event. destruct (bool_decide _); run_eval;
    (split; [done|run_sound; cbn; by rewrite set_first_ids]).
- unfold GetApproval, bind, get. cbn. by rewrite Hap.
Qed.

Definition expire_set (now : time) (p : Approval) : Approval :=
p <| ap_ExpiredAt := Some now |> <| ap_UpdatedAt := now |>.

(** A timeout under the park policy fires once, and only on a run that is
  running or already parked. *)
Lemma ExpireApprovalPark_guarded i s n t now ap : now ≠ 0 →
find (is_approval i) (approvals d) = Some ap → run_open run = true →
let pending := λ p, ap_has ApprovalStatusPending p &&
                    match ap_ExpiredAt p with None => true | Some _ => false end in
let parked := run_has RunStatusParked run in
guarded d run x (ExpireApprovalPark i r s n t now) (pending ap)
  (expire_set now ap, if parked then run else park_set ParkReasonAwaitingHuman run,
   if parked then ApprovalActionRunAlreadyParked else ApprovalActionRunParked)
  (ap_effect (if parked then λ y, y else park_set ParkReasonAwaitingHuman)
     (λ p, is_approval i p && pending p) (expire_set now)
     ((if parked then [] else [RunParkedEv ParkReasonAwaitingHuman]) ++
      [ApprovalExpiredEv i s n ApprovalTimeoutPark ""
         (if parked then ApprovalActionRunAlreadyParked else ApprovalActionRunParked) t]))
  (if ap_has ApprovalStatusPending ap then ErrApprovalAlreadyExpired i
   else ErrApprovalNotPending i (ap_Status ap)).
Proof.
intros Hnow Hap Hopen pending parked. unfold guarded, ExpireApprovalPark, bind. do 2 run_eval.
rewrite (update_approval_ext _ (λ p, is_approval i p && pending p))
  by (intros; by rewrite <-andb_assoc).
rewrite run_update_approval, (find_guarded ap_ID is_approval is_approval_key), Hap by apply H.
destruct (pending ap) eqn:Hp.
- subst parked. destruct (run_has RunStatusParked run) eqn:Hpk.
  + erewrite GetRun_effect_ok by (done || rows). cbn [ef_events ef_run ap_effect length].
    rewrite advance_0. cbn [ret fst snd]. run_eval. split; [done|run_sound; cbn; by rewrite set_first_ids].
  + unfold ParkRun, bind, guard. cbn [bool_decide]. rewrite now_ok by done.
    change (_ || bool_decide (ParkReasonAwaitingHuman = ParkReasonAwaitingHuman)) with true.
    cbn [ret]. unfold lockRun. erewrite GetRun_effect_ok by (done || rows).
    unfold ParkRunQuery. erewrite run_update_effect; [|done|done|rows|done|by intros ? []|done].
    cbn [ef_events ef_run ap_effect length]. unfold run_open in Hopen. rewrite Hpk, orb_false_r in Hopen.
    rewrite Hopen. do 2 run_eval. rewrite advance_0.
    split; [done|run_sound; cbn; by rewrite set_first_ids].
- unfold GetApproval, bind, get, ret. rewrite Hap. by destruct (ap_has ApprovalStatusPending ap).
Qed.
End decision_specs.
