(* ===== verification/EdgeSpecs.v ===== *)
(** Specifications of the cost ledger, the record-only operations and edge
    resolution. *)
From S2P Require Import Prelude StoreModel Transitions Effects StoreInv StoreSpecs.
Open Scope Z_scope.

(** ** Cost ledger *)
Section cost_specs.
Context (d : DB) (args : AttemptCostArgs) (rate : json) (run : Run).
Context (H : db_inv d) (Hrun : find (is_run (ac_RunID args)) (runs d) = Some run).

Definition cost_entry : string :=
if bool_decide (ac_Entry args = "") then EntryAttempt else ac_Entry args.
Definition ledger_row : CostLedger :=
mkCostLedger (ac_RunID args) (ac_StepID args) (ac_Attempt args) cost_entry
  (ac_Resource args) (ac_Usage args) rate (ac_RateSource args) (ac_CacheHit args)
  (ac_Overhead args) (ac_CostNanoUSD args) (ac_SavedNanoUSD args) (ac_Now args).
Definition charge (y : Run) : Run :=
y <| run_SpentNanoUsd := run_SpentNanoUsd y + ac_CostNanoUSD args |>
  <| run_SavedNanoUsd := run_SavedNanoUsd y + ac_SavedNanoUSD args |>.
Definition cost_events : list Payload :=
CostUpdatedEv (ac_StepID args) (ac_Attempt args) cost_entry (ac_Resource args)
  (ac_CacheHit args) (ac_Overhead args) (ac_CostNanoUSD args) (ac_SavedNanoUSD args)
  (run_SpentNanoUsd (charge run)) (run_SavedNanoUsd (charge run)) (run_BudgetNanoUsd run) ::
match ac_Warning args with Some (m, f) => [CostUnknownModelEv m f] | None => [] end.
Definition charged : bool :=
existsb (is_ledger_row (ac_RunID args) (ac_StepID args) (ac_Attempt args) cost_entry) (cost_ledger d).
Definition cost_effect : Effect :=
mkEffect charge (λ x, x) AttKeep [] (λ l, l) [ledger_row] cost_events.

(** One ledger row per (step, attempt, entry): a second charge is refused and
  the run's totals move by exactly the row's amounts. *)
Lemma ApplyAttemptCost_guarded :
ac_Now args ≠ 0 → ac_Resource args ≠ "" → ac_Rate args = Some rate →
0 ≤ ac_CostNanoUSD args → 0 ≤ ac_SavedNanoUSD args →
guarded d run (no_step (ac_RunID args)) (ApplyAttemptCost args) (negb charged)
  (mkCostApplied (run_SpentNanoUsd (charge run)) (run_SavedNanoUsd (charge run))
     (run_BudgetNanoUsd run))
  cost_effect (ErrUnique "cost_ledger_pkey").
Proof.
intros Hnow Hres Hrate Hc%Z.leb_le Hs%Z.leb_le.
unfold guarded, ApplyAttemptCost, bind, guard. rewrite now_ok, Hrate by done.
rewrite bool_decide_eq_false_2 by done. cbn [negb ret].
unfold InsertCostLedgerEntry, bind, get, guard. cbn [cl_CostNanoUsd cl_SavedNanoUsd].
rewrite Hc, Hs. cbn [ret andb cl_RunID cl_StepID cl_Attempt cl_Entry].
fold cost_entry. fold charged. destruct charged; [done|]. cbn [negb].
rewrite (find_existsb _ _ _ Hrun). cbn [negb]. unfold put.
match goal with |- context [update_run _ _ _ ?d'] =>
  replace d' with (apply_effect run (no_step (ac_RunID args))
    (idle <| ef_ledger := [ledger_row] |>) d)
    by (unfold apply_effect, idle; cbn; rewrite !app_nil_r, !set_row_id; [done|done|];
        intros y; apply advance_0)
end.
erewrite run_update_effect; [|done|done|rows|done|by intros ? []|done].
cbn [ef_events ef_run idle length]. cbn [Z.of_nat]. rewrite advance_0.
run_eval. unfold cost_effect, cost_events. destruct (ac_Warning args) as [[m f]|].
- run_eval. split; [done|]. run_sound; cbn; unfold ledger_sum; cbn;
    destruct (find_run_inv _ _ _ Hrun) as [_ ->]; rewrite ?bool_decide_eq_true_2 by done; try lia.
  by repeat constructor.
- split; [done|]. run_sound; cbn; unfold ledger_sum; cbn;
    destruct (find_run_inv _ _ _ Hrun) as [_ ->]; rewrite ?bool_decide_eq_true_2 by done; try lia.
  by repeat constructor.
Qed.
End cost_specs.

(** ** Edge resolution *)

Definition verdict (fired : bool) : EdgeResolution :=
  if fired then EdgeResolutionFired else EdgeResolutionSkipped.
Definition resolve_set (fired : bool) (e : RunEdge) : RunEdge := e <| edge_Resolution := verdict fired |>.
Definition dep_set (fired : bool) (now : time) (x : RunStep) : RunStep :=
  x <| step_RemainingDeps := step_RemainingDeps x - 1 |>
    <| step_FiredDeps := step_FiredDeps x + (if fired then 1 else 0) |>
    <| step_UpdatedAt := now |>.

(** The database after the edge [e] is resolved. *)
Definition resolved_db (e : RunEdge) (fired : bool) (now : time) (d : DB) : DB :=
  d <| run_edges := set_row (is_edge (edge_RunID e) (edge_Ordinal e)) (resolve_set fired) (run_edges d) |>
    <| run_steps := set_row (is_step (edge_RunID e) (edge_ToStep e)) (dep_set fired now) (run_steps d) |>.

Section resolve.
Context (d : DB) (r : uuid) (o : Z) (run : Run) (e : RunEdge).
Context (H : db_inv d) (Hrun : find (is_run r) (runs d) = Some run)
(He : find (is_edge r o) (run_edges d) = Some e).

Lemma edge_read : e ∈ run_edges d ∧ edge_RunID e = r ∧ edge_Ordinal e = o.
Proof.
destruct (find_key_Some edge_key (λ k, is_edge k.1 k.2) is_edge_key (r, o) _ _ He) as [? [= <- <-]].
done.
Qed.

(** The target of an edge is a row of the run. *)
Lemma edge_target : ∃ x, find (is_step r (edge_ToStep e)) (run_steps d) = Some x.
Proof.
destruct edge_read as (Hin & Er & _). destruct (inv_edge_step _ H e Hin) as (x & Hx & E1 & E2).
exists x. rewrite <-Er, <-E1, <-E2.
apply (find_key step_key (λ k, is_step k.1 k.2) is_step_key); [apply H|done].
Qed.

(** A step with an unresolved incoming edge has a positive dependency
  counter: the bookkeeping error of ResolveEdge is unreachable. *)
Lemma remaining_pos x : find (is_step r (edge_ToStep e)) (run_steps d) = Some x →
edge_EdgeType e = EdgeTypeNormal → edge_Resolution e = EdgeResolutionUnresolved →
0 < step_RemainingDeps x.
Proof.
intros Hx Ht Hr. destruct edge_read as (Hin & Er & _).
destruct (find_step_inv _ _ _ _ Hx) as (Hxin & Exr & Exs).
destruct (inv_deps _ H x Hxin) as [-> _]. apply count_pos. exists e. split; [done|].
unfold in_edges. rewrite Er, Exr, Exs, Ht, Hr. by rewrite !bool_decide_eq_true_2.
Qed.

Lemma resolveEdgeNoop_eval v :
resolveEdgeNoop r o v d =
  (if bool_decide (edge_EdgeType e = EdgeTypeLoop) then Fail (ErrLoopEdge o)
   else if bool_decide (edge_Resolution e = v) then Ok (mkResolveEdgeResult false e None)
   else Fail (ErrReResolve o), d).
Proof.
unfold resolveEdgeNoop, GetRunEdge, bind, get. rewrite He. cbn [ret].
by repeat destruct (bool_decide _).
Qed.

Lemma ResolveEdge_eval fired now x : now ≠ 0 →
find (is_step r (edge_ToStep e)) (run_steps d) = Some x →
ResolveEdge r o fired now d =
  match edge_EdgeType e, edge_Resolution e with
  | EdgeTypeNormal, EdgeResolutionUnresolved =>
      (Ok (mkResolveEdgeResult true (resolve_set fired e) (Some (dep_set fired now x))),
       resolved_db e fired now d)
  | EdgeTypeNormal, res =>
      (if bool_decide (res = verdict fired) then Ok (mkResolveEdgeResult false e None)
       else Fail (ErrReResolve o), d)
  | EdgeTypeLoop, _ => (Fail (ErrLoopEdge o), d)
  end.
Proof.
intros Hnow Hx. destruct edge_read as (_ & Er & Eo).
unfold ResolveEdge, bind. rewrite now_ok by done. erewrite lockRun_ok by done.
rewrite update_edge_eval by (done || apply H). rewrite He.
pose proof (remaining_pos x Hx) as Hpos.
destruct (edge_EdgeType e) eqn:Ht; [destruct (edge_Resolution e) eqn:Hr|]; decide_eqs; cbn [andb];
  rewrite ?resolveEdgeNoop_eval, ?Ht, ?Hr; decide_eqs; try (by destruct fired).
rewrite update_step_eval by (done || apply H).
match goal with |- context [find (is_step r ?s) ?l] =>
  change (find (is_step r s) l) with (find (is_step r (edge_ToStep e)) (run_steps d)) end.
rewrite Hx.
assert (0 <? step_RemainingDeps x = true) as -> by (apply Z.ltb_lt; auto).
unfold resolved_db. by rewrite Er, Eo.
Qed.

(** *** Resolution preserves the invariant *)
Context (Hnormal : edge_EdgeType e = EdgeTypeNormal)
(Hunres : edge_Resolution e = EdgeResolutionUnresolved).
Context (fired : bool) (now : time).
Abbreviation d' := (resolved_db e fired now d).

Lemma resolved_steps y : y ∈ run_steps d' →
∃ x, x ∈ run_steps d ∧ step_key y = step_key x ∧ step_Status y = step_Status x ∧
     step_AttemptCount y = step_AttemptCount x ∧ step_ClaimID y = step_ClaimID x ∧
     y = if is_step r (edge_ToStep e) x then dep_set fired now x else x.
Proof.
destruct edge_read as (_ & Er & _). cbn. rewrite Er. unfold set_row.
rewrite list_elem_of_In, in_map_iff. intros (x & <- & Hx%list_elem_of_In). exists x.
by destruct (is_step r (edge_ToStep e) x).
Qed.

(** Counting by run and status is not affected. *)
Lemma resolved_count (p : RunStep → bool) : (∀ y, p (dep_set fired now y) = p y) →
count p (run_steps d') = count p (run_steps d).
Proof.
intros Hp. cbn. induction (run_steps d) as [|y l IH]; [done|].
rewrite set_row_cons. cbn. rewrite IH. destruct (is_step _ _ y); [|done]. by rewrite Hp.
Qed.

Lemma resolved_run_inv y : y ∈ runs d → run_inv d' y.
Proof.
intros Hy. pose proof (inv_run _ H y Hy) as I.
split; unfold run_status_count; rewrite ?resolved_count by done; try apply I.
intros Hst z (w & Hw & [= Ek _] & -> & _)%resolved_steps E. apply (ri_done _ _ I); [done..|congruence].
Qed.

Lemma resolved_deps y : y ∈ run_steps d' → deps_inv (run_edges d') y.
Proof.
intros (x & Hx & [= Ek1 Ek2] & _ & _ & _ & Hy)%resolved_steps.
destruct edge_read as (Hin & Er & Eo). destruct (inv_deps _ H x Hx) as [D1 D2].
assert (∀ res, count (in_edges y res) (run_edges d') =
  count (in_edges y res) (run_edges d) - (if in_edges y res e then 1 else 0)
    + (if in_edges y res (resolve_set fired e) then 1 else 0)) as Hcount.
{ intros res. cbn. rewrite Er, Eo.
  apply (count_set_row edge_key (λ k, is_edge k.1 k.2) is_edge_key _ (r, o)); [apply H|done]. }
unfold deps_inv. rewrite !Hcount.
assert (∀ res, in_edges y res = in_edges x res) as Hsame
  by (intros; unfold in_edges; by rewrite Ek1, Ek2).
rewrite !Hsame, <-D1, <-D2.
destruct (is_step r (edge_ToStep e) x) eqn:Hk; subst y.
- unfold is_step in Hk. apply andb_prop in Hk as [Hk1%bool_decide_eq_true Hk2%bool_decide_eq_true].
  unfold in_edges. cbn. rewrite Hnormal, Hunres, Er, Hk1, Hk2. decide_eqs.
  destruct fired; cbn; decide_eqs; cbn; lia.
- assert (∀ res ed, edge_RunID ed = r → edge_ToStep ed = edge_ToStep e → in_edges x res ed = false) as Hno.
  { intros res ed E1 E2. unfold in_edges. rewrite E1, E2.
    unfold is_step in Hk. apply andb_false_iff in Hk.
    destruct Hk as [Hk%bool_decide_eq_false|Hk%bool_decide_eq_false].
    - by rewrite (bool_decide_eq_false_2 (r = _)) by congruence.
    - rewrite (bool_decide_eq_false_2 (edge_ToStep e = _)) by congruence. by rewrite andb_false_r. }
  rewrite !Hno by done. lia.
Qed.

Lemma resolved_attempts y : y ∈ run_steps d' → attempts_inv (step_attempts d') y.
Proof.
intros (x & Hx & Ek & Est & En & Ec & _)%resolved_steps.
pose proof (inv_attempts _ H x Hx) as I.
apply (keep_inv x); [done| |done]. constructor; [done|by rewrite Est|].
intros. split; congruence.
Qed.

Lemma resolved_step_ref x : x ∈ run_steps d → ∃ z, z ∈ run_steps d' ∧ step_key z = step_key x.
Proof.
intros Hx. assert (step_key x ∈ step_key <$> run_steps d') as (z & ? & ?)%list_elem_of_fmap; [|by eauto].
cbn. rewrite (set_row_keys step_key (λ k, is_step k.1 k.2) (edge_RunID e, edge_ToStep e)) by done.
by apply list_elem_of_fmap_2.
Qed.

(** An edge keeps its ends. *)
Lemma resolved_edges ed : ed ∈ run_edges d' → ∃ e0, e0 ∈ run_edges d ∧
  edge_RunID ed = edge_RunID e0 ∧ edge_FromStep ed = edge_FromStep e0 ∧ edge_ToStep ed = edge_ToStep e0.
Proof.
cbn. unfold set_row. rewrite list_elem_of_In, in_map_iff. intros (e0 & <- & He0%list_elem_of_In). exists e0.
by destruct (is_edge _ _ e0).
Qed.

Lemma resolved_inv : db_inv d'.
Proof.
split; try apply H.
- cbn. apply step_keys_set; [done|apply H].
- cbn. rewrite (set_row_keys edge_key (λ k, is_edge k.1 k.2) (edge_RunID e, edge_Ordinal e)) by done.
  apply H.
- apply resolved_run_inv.
- apply resolved_attempts.
- apply resolved_deps.
- intros y (x & Hx & [= -> _] & _)%resolved_steps. by apply H.
- intros ed (e0 & He0 & E1 & _ & E2)%resolved_edges. destruct (inv_edge_step _ H e0 He0) as (x & Hx & E3 & E4).
  destruct (resolved_step_ref x Hx) as (z & Hz & [= E5 E6]). exists z. split_and!; congruence.
- intros ed (e0 & He0 & E1 & E2 & _)%resolved_edges. destruct (inv_edge_from _ H e0 He0) as (x & Hx & E3 & E4).
  destruct (resolved_step_ref x Hx) as (z & Hz & [= E5 E6]). exists z. split_and!; congruence.
- intros a (x & Hx & [E1 E2]%att_of_true)%(inv_att_step _ H).
  destruct (resolved_step_ref x Hx) as (z & Hz & [= E5 E6]). exists z. split; [done|].
  apply att_of_true. split; congruence.
- intros y (x & Hx & _ & _ & _ & _ & ->)%resolved_steps.
  destruct (is_step _ _ x); [|by apply H].
  change (step_shape (dep_set fired now x)) with (step_shape x). by apply H.
- intros y (x & Hx & [= -> ->] & -> & _)%resolved_steps. by apply H.
- intros y (x & Hx & [= Er Es] & Est & En & _)%resolved_steps.
  unfold baseline_inv, baseline. rewrite Er, Es, Est, En. by apply (inv_baseline _ H).
- intros dl (x & Hx & Hdl)%(inv_dl_step _ H).
  destruct (resolved_step_ref x Hx) as (z & Hz & [= E5 E6]). exists z. by rewrite E5, E6.
Qed.
End resolve.
