(* ===== verification/StoreSystem.v ===== *)
(** The store as a transition system: every guarded transition is one step of
    the system or a rejection that writes nothing, and the invariant holds in
    every reachable database. *)
From stdpp Require Import relations.
From S2P Require Import Prelude StoreModel Transitions Effects StoreInv StoreSpecs EdgeSpecs.
Open Scope Z_scope.

(** ** Steps *)
Inductive tx_step (d : DB) : DB → Prop :=
| ts_effect run x e : readable d run → sound d run x e → tx_step d (apply_effect run x e d)
| ts_resolve r o run e fired now :
    find (is_run r) (runs d) = Some run → find (is_edge r o) (run_edges d) = Some e →
    edge_EdgeType e = EdgeTypeNormal → edge_Resolution e = EdgeResolutionUnresolved →
    tx_step d (resolved_db e fired now d)
| ts_outbox o : tx_step d (d <| task_outbox := task_outbox d ++ [o] |>).

Abbreviation tx_steps := (rtc tx_step).

Lemma tx_step_inv d d' : db_inv d → tx_step d d' → db_inv d'.
Proof.
  intros H [run x e R S|r o run e f n Hr He Hn Hu|o].
  - by apply apply_inv.
  - by eapply resolved_inv.
  - split; try apply H. intros y Hy. destruct (inv_run _ H y Hy). by split.
Qed.

Lemma tx_steps_inv d d' : db_inv d → tx_steps d d' → db_inv d'.
Proof. intros H. induction 1; eauto using tx_step_inv. Qed.

(** ** Outcomes of a transition

    On a database that satisfies the invariant a guarded transition is
    rejected with nothing written, or is one step of the system, or fails
    with an error no caller may drop (and which rolls the transaction back). *)
Inductive outcome {A} (d : DB) : result A * DB → Prop :=
| out_rejected e : outcome d (Fail e, d)
| out_step a d' : tx_step d d' → outcome d (Ok a, d')
| out_noop a : outcome d (Ok a, d)
| out_fatal e d' : is_conflict e = false → outcome d (Fail e, d').

Definition transition {A} (m : Tx A) : Prop := ∀ d, db_inv d → outcome d (m d).

Lemma guarded_outcome {A} d run x (m : Tx A) g res e err :
  readable d run → guarded d run x m g res e err → outcome d (m d).
Proof.
  unfold guarded. intros R. destruct g.
  - intros [-> S]. apply out_step. by apply ts_effect.
  - intros ->. apply out_rejected.
Qed.

(** A refused call wrote nothing. *)
Ltac rejected := first [by apply out_rejected | exact I].
(** The cases in which a step transition is refused before its guard. *)
Ltac refuse_now now :=
  let E := fresh in destruct (decide (now = 0)) as [E|]; [subst now; rejected|].
(** A rejected argument. *)
Ltac refuse_arg P :=
  let E := fresh "Harg" in destruct (decide P) as [E|E];
  [try subst; unfold bind, guard; rewrite ?now_ok by done; cbn [ret throw]; decide_eqs; rejected|].
Ltac refuse_zero n :=
  let E := fresh "Hz" in destruct (decide (n = 0)) as [E|E];
  [subst; unfold bind, guard; rewrite ?now_ok by done; rejected
  |pose proof (proj2 (Z.eqb_neq n 0) E)].
Ltac nonzero := repeat match goal with Hz : (_ =? 0) = false |- _ => rewrite Hz end.
Ltac refuse_run r d Hrun :=
  destruct (find (is_run r) (runs d)) eqn:Hrun;
  [|unfold bind, lockRun, guard; rewrite ?now_ok by done; nonzero; decide_eqs; cbn [negb ret throw];
    rewrite ?GetRun_eval, ?Hrun; rejected].
Ltac refuse_step r s d Hrun Hstep :=
  destruct (find (is_step r s) (run_steps d)) eqn:Hstep;
  [|unfold stepConflict, attempt, guard, bind; rewrite ?now_ok by done; nonzero; decide_eqs; cbn [negb ret throw];
    erewrite ?lockRun_ok by done; rewrite ?GetRunStep_eval, ?Hstep;
    rewrite ?update_step_eval by (done || match goal with H : db_inv _ |- _ => apply H end);
    rewrite ?Hstep; rewrite ?GetRunStep_eval, ?Hstep; rejected].
Ltac read_rows := match goal with
  | H : db_inv ?d, Hr : find (is_run ?r) (runs ?d) = Some ?y |- readable ?d ?y => by apply (run_read d r) end.

Section transitions.
Context (r : uuid) (s : string).
Implicit Types (now : time) (c : uuid) (err u v rp out : option json).

Lemma SucceedStep_transition c out u v rp now : transition (SucceedStep r s c out u v rp now).
Proof.
intros d H. refuse_now now. unfold SucceedStep. refuse_run r d Hrun. refuse_step r s d Hrun Hstep.
eapply guarded_outcome; [|by apply SucceedStep_guarded]. read_rows.
Qed.

Lemma TakeoverStep_transition c now : transition (TakeoverStep r s c now).
Proof.
intros d H. refuse_now now. unfold TakeoverStep. refuse_run r d Hrun. refuse_step r s d Hrun Hstep.
eapply guarded_outcome; [|by apply TakeoverStep_guarded]. read_rows.
Qed.

Lemma RequeueStep_transition now : transition (RequeueStep r s now).
Proof.
intros d H. refuse_now now. unfold RequeueStep. refuse_run r d Hrun. refuse_step r s d Hrun Hstep.
eapply guarded_outcome; [|by apply RequeueStep_guarded]. read_rows.
Qed.

Lemma ReadyStep_transition joinAny now : transition (ReadyStep r s joinAny now).
Proof.
intros d H. refuse_now now. unfold ReadyStep. refuse_run r d Hrun. refuse_step r s d Hrun Hstep.
eapply guarded_outcome; [|by apply ReadyStep_guarded]. read_rows.
Qed.

Lemma SkipStep_transition now : transition (SkipStep r s now).
Proof.
intros d H. refuse_now now. unfold SkipStep. refuse_run r d Hrun. refuse_step r s d Hrun Hstep.
eapply guarded_outcome; [|by apply SkipStep_guarded]. read_rows.
Qed.

Lemma SucceedAwaitingHumanStep_transition out now : transition (SucceedAwaitingHumanStep r s out now).
Proof.
intros d H. refuse_now now. unfold SucceedAwaitingHumanStep. refuse_run r d Hrun. refuse_step r s d Hrun Hstep.
eapply guarded_outcome; [|by apply SucceedAwaitingHumanStep_guarded]. read_rows.
Qed.

Lemma DeadLetterAwaitingHumanStep_transition err now : transition (DeadLetterAwaitingHumanStep r s err now).
Proof.
intros d H. refuse_now now. unfold DeadLetterAwaitingHumanStep. refuse_run r d Hrun. refuse_step r s d Hrun Hstep.
eapply guarded_outcome; [|by apply DeadLetterAwaitingHumanStep_guarded]. read_rows.
Qed.

Lemma PoisonDeadLetterStep_transition err pl now : transition (PoisonDeadLetterStep r s err pl now).
Proof.
intros d H. refuse_now now. unfold PoisonDeadLetterStep. refuse_run r d Hrun. refuse_step r s d Hrun Hstep.
eapply guarded_outcome; [|by apply PoisonDeadLetterStep_guarded]. read_rows.
Qed.

Lemma BudgetParkStep_transition c ev now : transition (BudgetParkStep r s c ev now).
Proof.
intros d H. refuse_now now. unfold BudgetParkStep. refuse_run r d Hrun. refuse_step r s d Hrun Hstep.
eapply guarded_outcome; [|by apply BudgetParkStep_guarded]. read_rows.
Qed.

Lemma CollectFailStep_transition c outcome out err u now : transition (CollectFailStep r s c outcome out err u now).
Proof.
intros d H. refuse_now now. unfold CollectFailStep. destruct outcome; [|unfold bind; rewrite now_ok by done; apply out_rejected]. refuse_run r d Hrun. refuse_step r s d Hrun Hstep.
eapply guarded_outcome; [|by apply CollectFailStep_guarded]. read_rows.
Qed.

Lemma CancelStep_transition reason now : transition (CancelStep r s reason now).
Proof.
intros d H. refuse_now now. unfold CancelStep. refuse_arg (reason = ""). refuse_run r d Hrun. refuse_step r s d Hrun Hstep.
eapply guarded_outcome; [|by apply CancelStep_guarded]. read_rows.
Qed.

Lemma CancelRunningStep_transition c reason err now : transition (CancelRunningStep r s c reason err now).
Proof.
intros d H. refuse_now now. unfold CancelRunningStep. refuse_arg (reason = ""). refuse_run r d Hrun. refuse_step r s d Hrun Hstep.
eapply guarded_outcome; [|by apply CancelRunningStep_guarded]. read_rows.
Qed.

Lemma CancelAwaitingHumanStep_transition reason now : transition (CancelAwaitingHumanStep r s reason now).
Proof.
intros d H. refuse_now now. unfold CancelAwaitingHumanStep. refuse_arg (reason = ""). refuse_run r d Hrun. refuse_step r s d Hrun Hstep.
eapply guarded_outcome; [|by apply CancelAwaitingHumanStep_guarded]. read_rows.
Qed.

Lemma ReviveStep_transition reason now : transition (ReviveStep r s reason now).
Proof.
intros d H. refuse_now now. unfold ReviveStep. refuse_arg (reason = ""). refuse_run r d Hrun. refuse_step r s d Hrun Hstep.
eapply guarded_outcome; [|by apply ReviveStep_guarded]. read_rows.
Qed.

Lemma ThrottleStep_transition c resource bucket ra next now : transition (ThrottleStep r s c resource bucket ra next now).
Proof.
intros d H. refuse_now now. unfold ThrottleStep. refuse_zero next. refuse_run r d Hrun. refuse_step r s d Hrun Hstep.
eapply guarded_outcome; [|by apply ThrottleStep_guarded]. read_rows.
Qed.

Lemma SemanticRetryStep_transition c err u v rp fb sa ma ic next now : transition (SemanticRetryStep r s c err u v rp fb sa ma ic next now).
Proof.
intros d H. refuse_now now. unfold SemanticRetryStep. refuse_zero next. refuse_run r d Hrun. refuse_step r s d Hrun Hstep.
eapply guarded_outcome; [|by apply SemanticRetryStep_guarded]. read_rows.
Qed.

Lemma RetryStep_transition c outcome err u next now :
transition (RetryStep r s c outcome err u next now).
Proof.
intros d H. refuse_now now.
destruct (bool_decide (outcome = AttemptOutcomeTransient) ||
          bool_decide (outcome = AttemptOutcomeTimeout)) eqn:Ho;
  [|unfold RetryStep, bind, guard; rewrite now_ok, Ho by done; apply out_rejected].
destruct (decide (next = 0)) as [->|Hz];
  [unfold RetryStep, bind, guard; rewrite now_ok, Ho by done; apply out_rejected|].
pose proof (proj2 (Z.eqb_neq next 0) Hz) as Hz'. unfold RetryStep.
assert (outcome = AttemptOutcomeTransient ∨ outcome = AttemptOutcomeTimeout) as Ho'.
{ apply orb_prop in Ho as [?%bool_decide_eq_true|?%bool_decide_eq_true]; auto. }
destruct (find (is_run r) (runs d)) as [run|] eqn:Hrun;
  [|unfold bind, guard, lockRun; rewrite now_ok, Ho, Hz' by done; cbn [negb ret];
    rewrite GetRun_eval, Hrun; apply out_rejected].
destruct (find (is_step r s) (run_steps d)) as [x|] eqn:Hstep;
  [|unfold stepConflict, bind, guard; rewrite now_ok, Ho, Hz' by done; cbn [negb ret];
    erewrite lockRun_ok by done; rewrite update_step_eval by (done || apply H);
    rewrite Hstep, GetRunStep_eval, Hstep; apply out_rejected].
eapply guarded_outcome; [|by apply RetryStep_guarded]. read_rows.
Qed.

(** A class the dead-letter CHECK refuses fails the transaction. *)
Lemma DeadLetterStep_transition c src outcome err u v rp now :
transition (DeadLetterStep r s c src outcome err u v rp now).
Proof.
intros d H. refuse_now now. unfold DeadLetterStep.
destruct outcome as [class|]; [|unfold bind; rewrite now_ok by done; apply out_rejected].
destruct (decide (src = DeadLetterSourcePoison)) as [->|Hsrc];
  [unfold bind; rewrite now_ok by done; apply out_rejected|].
assert (bool_decide (src = DeadLetterSourceRetriesExhausted) ||
        bool_decide (src = DeadLetterSourcePermanent) = true) as Hs by by destruct src.
destruct (find (is_run r) (runs d)) as [run|] eqn:Hrun;
  [|unfold bind, guard, lockRun; rewrite now_ok, Hs by done; cbn [ret];
    rewrite GetRun_eval, Hrun; apply out_rejected].
destruct (find (is_step r s) (run_steps d)) as [x|] eqn:Hstep;
  [|unfold stepConflict, bind, guard; rewrite now_ok, Hs by done; cbn [ret];
    erewrite lockRun_ok by done; rewrite update_step_eval by (done || apply H);
    rewrite Hstep, GetRunStep_eval, Hstep; apply out_rejected].
destruct (dead_letter_class_ok (Some class)) eqn:Hc;
  [eapply guarded_outcome; [|by apply DeadLetterStep_guarded]; read_rows|].
unfold bind, guard. rewrite now_ok, Hs by done. cbn [ret]. do 2 step_eval.
destruct (fenced c x) eqn:Hg; [|step_eval; apply out_rejected].
guard_cases Hg. do 2 step_eval.
unfold CreateDeadLetter, bind, guard, get. rewrite Hc. by apply out_fatal.
Qed.

Lemma ClaimStepWithOrigin_transition now sp w c :
transition (ClaimStepWithOrigin r s now sp w c).
Proof.
intros d H. refuse_now now. unfold ClaimStepWithOrigin. refuse_run r d Hrun.
destruct (find (is_step r s) (run_steps d)) as [x|] eqn:Hstep.
- eapply guarded_outcome; [|by apply ClaimStepWithOrigin_guarded]. read_rows.
- unfold stepConflict, bind, attempt. rewrite now_ok by done. erewrite lockRun_ok by done.
  destruct (negb _); rewrite GetRunStep_eval, Hstep; [apply out_rejected|].
  rewrite update_step_eval by (done || apply H). rewrite Hstep, GetRunStep_eval, Hstep.
  apply out_rejected.
Qed.

(** A clash with an approval index fails the transaction. *)
Lemma AwaitHumanStep_transition c a now : transition (AwaitHumanStep r s c a now).
Proof.
intros d H. refuse_now now. unfold AwaitHumanStep. refuse_run r d Hrun. refuse_step r s d Hrun Hstep.
destruct (existsb (is_approval (arow_ID a)) (approvals d) || existsb (pending_of r s) (approvals d)) eqn:Hex.
- unfold bind. do 2 step_eval. step_eval. destruct (fenced c _) eqn:Hg; [|step_eval; apply out_rejected].
  unfold InsertApproval, bind, get. cbn. fold (pending_of r s).
  destruct (existsb (is_approval _) _); [by apply out_fatal|].
  cbn in Hex. rewrite Hex. by apply out_fatal.
- apply orb_false_elim in Hex as [? ?].
  eapply guarded_outcome; [|by apply AwaitHumanStep_guarded]. read_rows.
Qed.
End transitions.

Section run_transitions.
Context (r : uuid).
Implicit Types (now : time).

Lemma SucceedRun_transition now : transition (SucceedRun r now).
Proof.
intros d H. refuse_now now. unfold SucceedRun. refuse_run r d Hrun.
eapply guarded_outcome; [|by apply SucceedRun_guarded]. read_rows.
Qed.

Lemma FailRun_transition now : transition (FailRun r now).
Proof.
intros d H. refuse_now now. unfold FailRun. refuse_run r d Hrun.
eapply guarded_outcome; [|by apply FailRun_guarded]. read_rows.
Qed.

Lemma FailRunRollup_transition now : transition (FailRunRollup r now).
Proof.
intros d H. refuse_now now. unfold FailRunRollup. refuse_run r d Hrun.
eapply guarded_outcome; [|by apply FailRunRollup_guarded]. read_rows.
Qed.

Lemma ResumeRun_transition now : transition (ResumeRun r now).
Proof.
intros d H. refuse_now now. unfold ResumeRun. refuse_run r d Hrun.
eapply guarded_outcome; [|by apply ResumeRun_guarded]. read_rows.
Qed.

Lemma UnparkRun_transition now : transition (UnparkRun r now).
Proof.
intros d H. refuse_now now. unfold UnparkRun. refuse_run r d Hrun.
eapply guarded_outcome; [|by apply UnparkRun_guarded]. read_rows.
Qed.

Lemma CancelRunRollup_transition now : transition (CancelRunRollup r now).
Proof.
intros d H. refuse_now now. unfold CancelRunRollup. refuse_run r d Hrun.
eapply guarded_outcome; [|by apply CancelRunRollup_guarded]. read_rows.
Qed.

Lemma SetRunBudget_transition b now : transition (SetRunBudget r b now).
Proof.
intros d H. refuse_now now. unfold SetRunBudget. refuse_run r d Hrun.
eapply guarded_outcome; [|by apply SetRunBudget_guarded]. read_rows.
Qed.

Lemma ParkRun_transition reason now : transition (ParkRun r reason now).
Proof.
intros d H. refuse_now now. destruct (park_reason_ok reason) eqn:Hok.
- unfold ParkRun. destruct (find (is_run r) (runs d)) as [run|] eqn:Hrun.
  + eapply guarded_outcome; [|by apply ParkRun_guarded]. read_rows.
  + unfold bind, guard, lockRun. fold (park_reason_ok reason). rewrite now_ok, Hok by done.
    cbn [ret]. rewrite GetRun_eval, Hrun. apply out_rejected.
- unfold ParkRun, bind, guard. fold (park_reason_ok reason). rewrite now_ok, Hok by done. apply out_rejected.
Qed.

Lemma CancelRun_transition reason now : transition (CancelRun r reason now).
Proof.
intros d H. refuse_now now. destruct (cancel_reason_ok reason) eqn:Hok.
- unfold CancelRun. destruct (find (is_run r) (runs d)) as [run|] eqn:Hrun.
  + eapply guarded_outcome; [|by apply CancelRun_guarded]. read_rows.
  + unfold bind, guard, lockRun. fold (cancel_reason_ok reason). rewrite now_ok, Hok by done.
    cbn [ret]. rewrite GetRun_eval, Hrun. apply out_rejected.
- unfold CancelRun, bind, guard. fold (cancel_reason_ok reason). rewrite now_ok, Hok by done. apply out_rejected.
Qed.
End run_transitions.

(** ** Edges, decisions, costs, records *)

Lemma ResolveEdge_transition r o fired now : transition (ResolveEdge r o fired now).
Proof.
  intros d H. refuse_now now. unfold ResolveEdge. refuse_run r d Hrun.
  destruct (find (is_edge r o) (run_edges d)) as [e|] eqn:He.
  - destruct (edge_target d r o _ e H Hrun He) as [x Hx].
    fold (ResolveEdge r o fired now). erewrite ResolveEdge_eval by done.
    destruct (edge_EdgeType e) eqn:Ht; [|apply out_rejected].
    destruct (edge_Resolution e) eqn:Hu.
    + apply out_step. by eapply ts_resolve.
    + destruct (bool_decide _); [apply out_noop|apply out_rejected].
    + destruct (bool_decide _); [apply out_noop|apply out_rejected].
  - unfold bind, resolveEdgeNoop, GetRunEdge. rewrite now_ok by done. erewrite lockRun_ok by done.
    rewrite update_edge_eval by (done || apply H). rewrite He. unfold bind, get. rewrite He.
    apply out_rejected.
Qed.

Lemma DecideApproval_transition a : transition (DecideApproval a).
Proof.
  intros d H. destruct (decide (da_Now a = 0)) as [E|Hnow].
  { unfold DecideApproval, bind, transitionQueries. rewrite E. apply out_rejected. }
  destruct (decision_status (da_Status a)) eqn:Hst.
  2:{ unfold DecideApproval, bind, guard. rewrite now_ok by done. fold (decision_status (da_Status a)).
      rewrite Hst. apply out_rejected. }
  destruct (find (is_run (da_RunID a)) (runs d)) as [run|] eqn:Hrun.
  2:{ unfold DecideApproval, bind, guard, lockRun. rewrite now_ok by done.
      fold (decision_status (da_Status a)). rewrite Hst. cbn [ret]. rewrite GetRun_eval, Hrun.
      apply out_rejected. }
  destruct (find (is_approval (da_ID a)) (approvals d)) as [ap|] eqn:Hap.
  - eapply guarded_outcome; [|by apply DecideApproval_guarded]. read_rows.
  - unfold DecideApproval, bind, guard. rewrite now_ok by done.
    fold (decision_status (da_Status a)). rewrite Hst. cbn [ret]. erewrite lockRun_ok by done.
    rewrite (run_update_approval d (da_RunID a) run), (find_guarded ap_ID is_approval is_approval_key), Hap
      by apply H.
    unfold GetApproval, bind, get. rewrite Hap. apply out_rejected.
Qed.

Lemma ApplyAttemptCost_transition args : transition (ApplyAttemptCost args).
Proof.
  intros d H. destruct (decide (ac_Now args = 0)) as [E|Hnow].
  { unfold ApplyAttemptCost, bind, transitionQueries. rewrite E. apply out_rejected. }
  unfold ApplyAttemptCost.
  destruct (decide (ac_Resource args = "")) as [E|Hres].
  { unfold bind, guard. rewrite now_ok, E by done. apply out_rejected. }
  destruct (ac_Rate args) as [rate|] eqn:Hrate.
  2:{ unfold bind, guard. rewrite now_ok, bool_decide_eq_false_2 by done. apply out_rejected. }
  destruct (decide (0 ≤ ac_CostNanoUSD args ∧ 0 ≤ ac_SavedNanoUSD args)) as [[Hc Hs]|Hneg].
  2:{ unfold InsertCostLedgerEntry, bind, guard, get.
      rewrite now_ok, bool_decide_eq_false_2 by done. cbn [negb ret cl_CostNanoUsd cl_SavedNanoUsd].
      assert ((0 <=? ac_CostNanoUSD args) && (0 <=? ac_SavedNanoUSD args) = false) as -> by lia.
      apply out_rejected. }
  destruct (find (is_run (ac_RunID args)) (runs d)) as [run|] eqn:Hrun.
  - eapply guarded_outcome.
    2:{ pose proof (ApplyAttemptCost_guarded d args rate run H Hrun Hnow Hres Hrate Hc Hs) as G.
        unfold ApplyAttemptCost in G. rewrite Hrate in G. exact G. }
    read_rows.
  - apply Z.leb_le in Hc, Hs. unfold InsertCostLedgerEntry, bind, guard, get, put.
    rewrite now_ok, bool_decide_eq_false_2 by done. cbn [negb ret cl_CostNanoUsd cl_SavedNanoUsd].
    rewrite Hc, Hs. cbn [andb ret cl_RunID]. destruct (existsb _ (cost_ledger d)); [apply out_rejected|].
    rewrite (find_existsb_none _ _ Hrun). apply out_rejected.
Qed.

(** An operation that only appends an event to the log. *)
Lemma appendEvent_transition r p : transition (appendEvent r p).
Proof.
  intros d H. destruct (find (is_run r) (runs d)) as [run|] eqn:Hrun.
  - erewrite run_append_only by done. apply out_step, ts_effect; [read_rows|].
    run_sound.
  - rewrite appendEvent_eval, Hrun by (apply H || by apply inv_fresh). apply out_rejected.
Qed.

Lemma CreateOutboxTask_transition r s reason tr : transition (CreateOutboxTask r s reason tr).
Proof. intros d H. apply out_step, ts_outbox. Qed.

(** ** Sequences of transitions *)

(** A transaction body every successful execution of which is a sequence of
    steps of the store. *)
Definition sequenced {A} (m : Tx A) : Prop :=
  ∀ d a d', db_inv d → m d = (Ok a, d') → tx_steps d d'.

Lemma transition_sequenced {A} (m : Tx A) : transition m → sequenced m.
Proof.
  intros T d a d' H E. specialize (T d H). rewrite E in T. inversion T; subst; [by apply rtc_once|done].
Qed.

Lemma sequenced_ret {A} (a : A) : sequenced (ret a).
Proof. intros d b d' _ [= <- <-]. done. Qed.
Lemma sequenced_throw {A} e : sequenced (@throw A e).
Proof. by intros d a d' _ [=]. Qed.
Lemma sequenced_guard b e : sequenced (guard b e).
Proof. destruct b; [apply sequenced_ret|apply sequenced_throw]. Qed.
Lemma sequenced_get : sequenced get.
Proof. intros d b d' _ [= <- <-]. done. Qed.
Lemma sequenced_bind {A B} (m : Tx A) (k : A → Tx B) :
  sequenced m → (∀ a, sequenced (k a)) → sequenced (bind m k).
Proof.
  intros Hm Hk d b d' H. unfold bind. destruct (m d) as [[a|e] d1] eqn:E; [|done].
  intros Hk'. pose proof (Hm d a d1 H E). etrans; [done|].
  apply (Hk a d1 b); [by eapply tx_steps_inv|done].
Qed.
Lemma sequenced_for_each {A} (l : list A) f : (∀ x, x ∈ l → sequenced (f x)) → sequenced (for_each l f).
Proof.
  induction l as [|x l IH]; intros Hf; [apply sequenced_ret|].
  apply sequenced_bind; [apply Hf; set_solver|]. intros _. apply IH. set_solver.
Qed.

(** Dropping the conflict of a transition: nothing was written. *)
Lemma sequenced_tolerate {A B} (m : Tx A) (k : A → Tx B) (h : Err → Tx B) :
  transition m → (∀ a, sequenced (k a)) → (∀ e, is_conflict e = true → sequenced (h e)) →
  (∀ e d, is_conflict e = false → ∃ e' d', h e d = (Fail e', d')) →
  sequenced (let! x := attempt m in match x with Ok a => k a | Fail e => h e end).
Proof.
  intros T Hk Hh Hf d b d' H. unfold bind, attempt. specialize (T d H).
  destruct (m d) as [x d1]. inversion T as [e|a d2 Hs|a|e d2 Hc]; subst; intros E.
  - destruct (is_conflict e) eqn:Hc; [by eapply (Hh e Hc)|].
    edestruct (Hf e) as (e' & d3 & E'); [done|]. rewrite E in E'. done.
  - etrans; [by apply rtc_once|]. eapply (Hk a); [by eapply tx_step_inv|done].
  - by eapply (Hk a).
  - edestruct (Hf e) as (e' & d3 & E'); [done|]. rewrite E in E'. done.
Qed.

(** Reads. *)
Definition reads {A} (m : Tx A) : Prop := ∀ d, snd (m d) = d.
Lemma reads_sequenced {A} (m : Tx A) : reads m → sequenced m.
Proof. intros R d a d' _ E. specialize (R d). rewrite E in R. by subst. Qed.
Lemma GetRun_reads r : reads (GetRun r).
Proof. intros d. rewrite GetRun_eval. by destruct (find _ _). Qed.
Lemma GetRunStep_reads r s : reads (GetRunStep r s).
Proof. intros d. rewrite GetRunStep_eval. by destruct (find _ _). Qed.
Lemma transitionQueries_reads now : reads (transitionQueries now).
Proof. intros d. unfold transitionQueries, guard. by destruct (negb _). Qed.
