(* ===== verification/StoreTheorems.v ===== *)
(** What the store guarantees: the theorems about every guarded transition and
    every sequence of committed transactions. *)
From stdpp Require Import relations.
From S2P Require Import Prelude StoreModel Transitions Effects StoreInv StoreSpecs EdgeSpecs StoreSystem.
Open Scope Z_scope.

(** ** The operations of the store *)
Inductive StoreOp : Type :=
| OpClaim (r : uuid) (s : string) (now : time) (span worker : string) (claim : uuid)
| OpTakeover (r : uuid) (s : string) (c : uuid) (now : time)
| OpSucceed (r : uuid) (s : string) (c : uuid) (out u v rp : option json) (now : time)
| OpDeadLetter (r : uuid) (s : string) (c : uuid) (src : DeadLetterSource)
    (o : option AttemptOutcome) (err u v rp : option json) (now : time)
| OpCollectFail (r : uuid) (s : string) (c : uuid) (o : option AttemptOutcome)
    (out err u : option json) (now : time)
| OpPoison (r : uuid) (s : string) (err pl : option json) (now : time)
| OpCancelStep (r : uuid) (s reason : string) (now : time)
| OpCancelRunning (r : uuid) (s : string) (c : uuid) (reason : string) (err : option json) (now : time)
| OpRequeue (r : uuid) (s : string) (now : time)
| OpRevive (r : uuid) (s reason : string) (now : time)
| OpRetry (r : uuid) (s : string) (c : uuid) (o : AttemptOutcome) (err u : option json) (next now : time)
| OpThrottle (r : uuid) (s : string) (c : uuid) (res bucket ra : string) (next now : time)
| OpSemanticRetry (r : uuid) (s : string) (c : uuid) (err u v rp fb : option json)
    (sa ma ic : Z) (next now : time)
| OpResolveEdge (r : uuid) (o : Z) (fired : bool) (now : time)
| OpReady (r : uuid) (s : string) (joinAny : bool) (now : time)
| OpSkip (r : uuid) (s : string) (now : time)
| OpSucceedRun (r : uuid) (now : time)
| OpFailRun (r : uuid) (now : time)
| OpFailRunRollup (r : uuid) (now : time)
| OpResumeRun (r : uuid) (now : time)
| OpParkRun (r : uuid) (reason : string) (now : time)
| OpUnparkRun (r : uuid) (now : time)
| OpCancelRun (r : uuid) (reason : string) (now : time)
| OpCancelRunRollup (r : uuid) (now : time)
| OpBudgetPark (r : uuid) (s : string) (c : uuid) (ev : BudgetExceededEvent) (now : time)
| OpSetRunBudget (r : uuid) (b : Z) (now : time)
| OpApplyCost (args : AttemptCostArgs)
| OpAwaitHuman (r : uuid) (s : string) (c : uuid) (a : ApprovalRow) (now : time)
| OpCancelAwaitingHuman (r : uuid) (s reason : string) (now : time)
| OpSucceedAwaitingHuman (r : uuid) (s : string) (out : option json) (now : time)
| OpDeadLetterAwaitingHuman (r : uuid) (s : string) (err : option json) (now : time)
| OpDecideApproval (a : DecideApprovalArgs)
| OpOutbox (r : uuid) (s : string) (reason : OutboxReason) (tr : TraceContext).

Definition void {A} (m : Tx A) : Tx unit := let! _ := m in ret tt.

Definition exec (op : StoreOp) : Tx unit :=
  match op with
  | OpClaim r s now sp w c => void (ClaimStepWithOrigin r s now sp w c)
  | OpTakeover r s c now => void (TakeoverStep r s c now)
  | OpSucceed r s c out u v rp now => void (SucceedStep r s c out u v rp now)
  | OpDeadLetter r s c src o err u v rp now => void (DeadLetterStep r s c src o err u v rp now)
  | OpCollectFail r s c o out err u now => void (CollectFailStep r s c o out err u now)
  | OpPoison r s err pl now => void (PoisonDeadLetterStep r s err pl now)
  | OpCancelStep r s reason now => void (CancelStep r s reason now)
  | OpCancelRunning r s c reason err now => void (CancelRunningStep r s c reason err now)
  | OpRequeue r s now => void (RequeueStep r s now)
  | OpRevive r s reason now => void (ReviveStep r s reason now)
  | OpRetry r s c o err u next now => void (RetryStep r s c o err u next now)
  | OpThrottle r s c res b ra next now => void (ThrottleStep r s c res b ra next now)
  | OpSemanticRetry r s c err u v rp fb sa ma ic next now =>
      void (SemanticRetryStep r s c err u v rp fb sa ma ic next now)
  | OpResolveEdge r o fired now => void (ResolveEdge r o fired now)
  | OpReady r s j now => void (ReadyStep r s j now)
  | OpSkip r s now => void (SkipStep r s now)
  | OpSucceedRun r now => void (SucceedRun r now)
  | OpFailRun r now => void (FailRun r now)
  | OpFailRunRollup r now => void (FailRunRollup r now)
  | OpResumeRun r now => void (ResumeRun r now)
  | OpParkRun r reason now => void (ParkRun r reason now)
  | OpUnparkRun r now => void (UnparkRun r now)
  | OpCancelRun r reason now => void (CancelRun r reason now)
  | OpCancelRunRollup r now => void (CancelRunRollup r now)
  | OpBudgetPark r s c ev now => void (BudgetParkStep r s c ev now)
  | OpSetRunBudget r b now => void (SetRunBudget r b now)
  | OpApplyCost args => void (ApplyAttemptCost args)
  | OpAwaitHuman r s c a now => void (AwaitHumanStep r s c a now)
  | OpCancelAwaitingHuman r s reason now => void (CancelAwaitingHumanStep r s reason now)
  | OpSucceedAwaitingHuman r s out now => void (SucceedAwaitingHumanStep r s out now)
  | OpDeadLetterAwaitingHuman r s err now => void (DeadLetterAwaitingHumanStep r s err now)
  | OpDecideApproval a => void (DecideApproval a)
  | OpOutbox r s reason tr => CreateOutboxTask r s reason tr
  end.

Lemma void_transition {A} (m : Tx A) : transition m → transition (void m).
Proof.
  intros T d H. specialize (T d H). unfold void, bind.
  destruct (m d) as [[a|e] d1]; inversion T; subst; by constructor.
Qed.

#[export] Hint Resolve void_transition ClaimStepWithOrigin_transition TakeoverStep_transition
  SucceedStep_transition DeadLetterStep_transition CollectFailStep_transition
  PoisonDeadLetterStep_transition CancelStep_transition CancelRunningStep_transition
  RequeueStep_transition ReviveStep_transition RetryStep_transition ThrottleStep_transition
  SemanticRetryStep_transition ResolveEdge_transition ReadyStep_transition SkipStep_transition
  SucceedRun_transition FailRun_transition FailRunRollup_transition ResumeRun_transition
  ParkRun_transition UnparkRun_transition CancelRun_transition CancelRunRollup_transition
  BudgetParkStep_transition SetRunBudget_transition ApplyAttemptCost_transition
  AwaitHumanStep_transition CancelAwaitingHumanStep_transition
  SucceedAwaitingHumanStep_transition DeadLetterAwaitingHumanStep_transition
  DecideApproval_transition CreateOutboxTask_transition appendEvent_transition : loom.

Lemma exec_transition op : transition (exec op).
Proof. destruct op; cbn [exec]; auto with loom. Qed.

(** ** Transactions *)

(** Committing one operation. *)
Definition commit (op : StoreOp) (d : DB) : result unit * DB * list Event := WithTx (exec op) d.

Definition committed (d d' : DB) : Prop := ∃ op evs, commit op d = (Ok tt, d', evs).

Lemma inv_tx_events d l : db_inv d → db_inv (d <| tx_events := l |>).
Proof. intros H. split; try apply H. intros y Hy. destruct (inv_run _ H y Hy). by split. Qed.

Lemma commit_spec op d : db_inv d →
  match commit op d with
  | (Ok _, d', evs) =>
      ∃ d1, (tx_step (d <| tx_events := [] |>) d1 ∨ d1 = d <| tx_events := [] |>) ∧
            d' = d1 <| tx_events := [] |> ∧ evs = tx_events d1
  | (Fail _, d', evs) => d' = d ∧ evs = []
  end.
Proof.
  intros H. unfold commit, WithTx.
  pose proof (exec_transition op (d <| tx_events := [] |>) (inv_tx_events _ _ H)) as T.
  destruct (exec op _) as [[a|e] d1]; [|done]. inversion T; subst; eauto 6.
Qed.

Lemma committed_inv d d' : db_inv d → committed d d' → db_inv d'.
Proof.
  intros H (op & evs & E). pose proof (commit_spec op d H) as S. rewrite E in S.
  destruct S as (d1 & Hs & -> & _). apply inv_tx_events.
  destruct Hs as [Hs| ->]; [eapply tx_step_inv; [|done]|]; by apply inv_tx_events.
Qed.

Lemma commits_inv d d' : db_inv d → rtc committed d d' → db_inv d'.
Proof. intros H. induction 1; eauto using committed_inv. Qed.

(** ** What a step of the store does to a row *)

(** The event log grows at its end, and the sink receives what was appended. *)
Lemma tx_step_events d d' : tx_step d d' →
  ∃ l, events d' = events d ++ l ∧ tx_events d' = tx_events d ++ l.
Proof.
  intros [run x e R S| |o]; [by eexists| |]; exists []; cbn; by rewrite !app_nil_r.
Qed.

(** How one step row may change. *)
Record row_evolves (x x' : RunStep) : Prop := mkEvolves {
  re_key : step_key x' = step_key x;
  re_status : step_Status x' = step_Status x ∨ step_matrix (step_Status x) (step_Status x') = true;
  re_frozen : absorbing (step_Status x) = true →
    ∃ rem fired upd, x' = x <| step_RemainingDeps := rem |> <| step_FiredDeps := fired |>
                            <| step_UpdatedAt := upd |>
}.

Lemma row_evolves_refl x : row_evolves x x.
Proof.
  split; [done|by left|]. intros _. exists (step_RemainingDeps x), (step_FiredDeps x), (step_UpdatedAt x).
  by destruct x.
Qed.

Lemma tx_step_row d d' r s x : db_inv d → tx_step d d' →
  find (is_step r s) (run_steps d) = Some x →
  ∃ x', find (is_step r s) (run_steps d') = Some x' ∧ row_evolves x x'.
Proof.
  intros H Hs Hx. destruct Hs as [run z e R S|r0 o run e f n Hr He Hn Hu|o].
  - cbn. destruct (decide ((step_RunID z, step_StepID z) = (r, s))) as [E|Hne].
    + injection E as E1 E2. rewrite E1, E2.
      rewrite (find_set_row step_key (λ k, is_step k.1 k.2) is_step_key (r, s))
        by apply (so_rows _ _ _ _ S).
      cbn. rewrite Hx. cbn. eexists. split; [done|].
      destruct (so_focus _ _ _ _ S) as [Hl|[Hid _]]; [|rewrite Hid; apply row_evolves_refl].
      unfold located in Hl. rewrite E1, E2, Hx in Hl. injection Hl as ->.
      split; [apply (so_rows _ _ _ _ S)|apply S|].
      intros Ha. rewrite (so_absorb _ _ _ _ S Ha). by apply row_evolves_refl.
    + rewrite (find_set_row_ne step_key (λ k, is_step k.1 k.2) is_step_key
        (step_RunID z, step_StepID z) (r, s)); [|apply (so_rows _ _ _ _ S)|congruence].
      cbn. exists x. split; [done|apply row_evolves_refl].
  - cbn. destruct (decide ((edge_RunID e, edge_ToStep e) = (r, s))) as [E|Hne].
    + injection E as E1 E2. rewrite E1, E2.
      rewrite (find_set_row step_key (λ k, is_step k.1 k.2) is_step_key (r, s)) by done.
      cbn. rewrite Hx. eexists. split; [done|]. split; [done|by left|]. by do 3 eexists.
    + rewrite (find_set_row_ne step_key (λ k, is_step k.1 k.2) is_step_key
        (edge_RunID e, edge_ToStep e) (r, s)); [|done|congruence].
      cbn. exists x. split; [done|apply row_evolves_refl].
  - exists x. split; [done|apply row_evolves_refl].
Qed.

Lemma tx_step_run d d' r y : db_inv d → tx_step d d' →
  find (is_run r) (runs d) = Some y →
  ∃ y', find (is_run r) (runs d') = Some y' ∧
    (run_Status y' = run_Status y ∨ run_matrix (run_Status y) (run_Status y') = true).
Proof.
  intros H Hs Hy. destruct Hs as [run z e R S|r0 o run e f n Hr He Hn Hu|o]; [|exists y; auto..].
  cbn. destruct (decide (r = run_ID run)) as [->|Hne].
  - rewrite (rd_run _ _ R) in Hy. injection Hy as <-.
    change (runs (apply_effect run z e d)) with (runs (apply_effect run z e d)).
    eexists. split; [apply (find_run_effect d run z R e); apply S|].
    change (run_Status (advance ?n ?w)) with (run_Status w). apply S.
  - rewrite (find_set_row_ne run_ID is_run is_run_key); [eauto| |done].
    intros w. cbn. apply (so_rows _ _ _ _ S).
Qed.

(** A closed attempt is history. *)
Lemma tx_step_attempt d d' a : db_inv d → tx_step d d' →
  a ∈ step_attempts d → att_Outcome a ≠ None → a ∈ step_attempts d'.
Proof.
  intros H [run z e R S|r0 o run e f n Hr He Hn Hu|o] Ha Ho; try done.
  cbn. pose proof (so_focus _ _ _ _ S) as F. unfold focused in F. pose proof (so_att _ _ _ _ S) as A.
  remember (ef_att e) as ae eqn:Ea.
  destruct A as [|f Hn Hf|]; cbn; [done| |set_solver].
  apply (closed_other z); [done|]. apply not_true_iff_false. intros [Hof Hno]%current_attempt_true.
  destruct F as [Hl|[_ ?]]; [|done]. apply find_step_inv in Hl as [Hz _].
  apply Ho. apply (ai_open _ _ (inv_attempts _ H z Hz) a Ha Hof). done.
Qed.

(** ** Lifting to committed transactions *)

Lemma committed_lift (P : DB → DB → Prop) :
  (∀ d l, P d (d <| tx_events := l |>)) → (∀ d1 d2 d3, P d1 d2 → P d2 d3 → P d1 d3) →
  (∀ d d', db_inv d → tx_step d d' → P d d') →
  ∀ d d', db_inv d → committed d d' → P d d'.
Proof.
  intros Hl Ht Hs d d' H (op & evs & E). pose proof (commit_spec op d H) as S. rewrite E in S.
  destruct S as (d1 & Hd1 & -> & _). eapply Ht; [|apply Hl].
  destruct Hd1 as [Hd1| ->]; [|apply Hl]. eapply Ht; [apply Hl|].
  apply Hs; [by apply inv_tx_events|done].
Qed.

Lemma commits_lift (P : DB → DB → Prop) :
  (∀ d, P d d) → (∀ d1 d2 d3, P d1 d2 → P d2 d3 → P d1 d3) →
  (∀ d d', db_inv d → committed d d' → P d d') →
  ∀ d d', db_inv d → rtc committed d d' → P d d'.
Proof.
  intros Hr Ht Hs d d' H. induction 1 as [|d1 d2 d3 H12 _ IH]; [done|].
  eapply Ht; [by apply Hs|]. apply IH. by eapply committed_inv.
Qed.

(** ** Claims

    The claim ids of the attempt table only grow, and a step becomes fenced by
    a claim only in the transaction that inserts an attempt with that claim. *)
Definition claims (d : DB) : list uuid := att_ClaimID <$> step_attempts d.

Definition claims_grow (d d' : DB) : Prop :=
  ∃ new, claims d' = claims d ++ new ∧
    ∀ r s c x', find (is_step r s) (run_steps d') = Some x' → fenced c x' = true →
      c ∈ new ∨ ∃ x, find (is_step r s) (run_steps d) = Some x ∧ fenced c x = true.

Lemma claims_grow_same d d' :
  step_attempts d' = step_attempts d →
  (∀ r s x', find (is_step r s) (run_steps d') = Some x' →
     ∃ x, find (is_step r s) (run_steps d) = Some x ∧
          step_Status x = step_Status x' ∧ step_ClaimID x = step_ClaimID x') →
  claims_grow d d'.
Proof.
  intros Ha Hs. exists []. unfold claims. rewrite Ha, app_nil_r. split; [done|].
  intros r s c x' Hx' Hf. right. destruct (Hs _ _ _ Hx') as (x & Hx & E1 & E2). exists x. split; [done|].
  unfold fenced, has_status, has_claim in *. by rewrite E1, E2.
Qed.

Lemma claims_grow_refl d : claims_grow d d.
Proof. apply claims_grow_same; [done|]. eauto. Qed.

Lemma claims_grow_trans d1 d2 d3 : claims_grow d1 d2 → claims_grow d2 d3 → claims_grow d1 d3.
Proof.
  intros (n1 & E1 & H1) (n2 & E2 & H2). exists (n1 ++ n2). rewrite E2, E1, app_assoc.
  split; [done|]. intros r s c x' Hx' Hf.
  destruct (H2 r s c x' Hx' Hf) as [?|(x & Hx & Hf')]; [set_solver|].
  destruct (H1 r s c x Hx Hf') as [?|?]; [set_solver|by right].
Qed.

Lemma fenced_true c x : fenced c x = true ↔ step_Status x = StepStatusRunning ∧ step_ClaimID x = Some c.
Proof. unfold fenced, has_status, has_claim. by rewrite andb_true_iff, !bool_decide_eq_true. Qed.

(** The claims of the attempt table after an effect. *)
Definition opened (e : AttemptEffect) : list uuid :=
  match e with AttOpen a => [att_ClaimID a] | _ => [] end.

Lemma claims_effect d run z e : sound d run z e →
  claims (apply_effect run z e d) = claims d ++ opened (ef_att e).
Proof.
  intros S. unfold claims. cbn. destruct (so_att _ _ _ _ S) as [|f ? ? ? Hf|a]; cbn.
  - by rewrite app_nil_r.
  - rewrite app_nil_r. generalize (step_attempts d) as l. induction l as [|a l IH]; [done|].
    rewrite set_row_cons. cbn. rewrite IH. f_equal. destruct (current_attempt z a); [apply Hf|done].
  - by rewrite fmap_app.
Qed.

Lemma fenced_effect d run z e c : sound d run z e → fenced c (ef_step e z) = true →
  c ∈ opened (ef_att e) ∨ fenced c z = true.
Proof.
  intros S [Hst Hc]%fenced_true.
  destruct (so_att _ _ _ _ S) as [Hn Hf Hk|f Hn Hf Hf' _|a Hn Hf Hst' Hk Ho Hc']; cbn.
  - right. apply fenced_true. destruct (Hk Hst) as [-> E]. by rewrite <-E.
  - by rewrite Hst in Hf'.
  - left. apply list_elem_of_singleton. congruence.
Qed.

Lemma tx_step_claims d d' : db_inv d → tx_step d d' → claims_grow d d'.
Proof.
  intros H [run z e R S|r0 o run e f n Hr He Hn Hu|o].
  - exists (opened (ef_att e)). split; [by eapply claims_effect|].
    intros r s c x' Hx' Hfc. cbn in Hx'.
    destruct (decide ((step_RunID z, step_StepID z) = (r, s))) as [E|Hne].
    + injection E as E1 E2. rewrite E1, E2 in Hx'.
      rewrite (find_set_row step_key (λ k, is_step k.1 k.2) is_step_key (r, s)) in Hx'
        by apply (so_rows _ _ _ _ S).
      cbn in Hx'. destruct (find (is_step r s) (run_steps d)) as [x|] eqn:Hx; [|done].
      injection Hx' as <-. destruct (so_focus _ _ _ _ S) as [Hl|[Hid _]];
        [|rewrite Hid in Hfc; by right; exists x].
      unfold located in Hl. rewrite E1, E2, Hx in Hl. injection Hl as ->.
      destruct (fenced_effect _ _ _ _ _ S Hfc); [by left|right; eauto].
    + rewrite (find_set_row_ne step_key (λ k, is_step k.1 k.2) is_step_key
        (step_RunID z, step_StepID z) (r, s)) in Hx'; [|apply (so_rows _ _ _ _ S)|congruence].
      right. by exists x'.
  - apply claims_grow_same; [done|]. intros r s x' Hx'. cbn in Hx'.
    destruct (decide ((edge_RunID e, edge_ToStep e) = (r, s))) as [E|Hne].
    + injection E as E1 E2. rewrite E1, E2 in Hx'.
      rewrite (find_set_row step_key (λ k, is_step k.1 k.2) is_step_key (r, s)) in Hx' by done.
      cbn in Hx'. destruct (find (is_step r s) (run_steps d)) as [x|]; [|done].
      injection Hx' as <-. eauto.
    + rewrite (find_set_row_ne step_key (λ k, is_step k.1 k.2) is_step_key
        (edge_RunID e, edge_ToStep e) (r, s)) in Hx'; [|done|congruence]. eauto.
  - apply claims_grow_same; [done|]. eauto.
Qed.

Lemma committed_claims d d' : db_inv d → committed d d' → claims_grow d d'.
Proof.
  apply committed_lift; [|apply claims_grow_trans|apply tx_step_claims].
  intros d0 l. apply claims_grow_same; [done|]. eauto.
Qed.

(** ** Rollups: the counter guards mean what they say of the steps *)

Definition step_terminal (st : StepStatus) : bool :=
  match st with
  | StepStatusSucceeded | StepStatusSkipped | StepStatusCollected
  | StepStatusDeadLettered | StepStatusCancelled => true
  | _ => false
  end.

(** A sum of disjoint status counters equals the total exactly when every step
    of the run has one of the statuses. *)
Lemma counters_all d y (q : StepStatus → bool) (n : Z) :
  run_inv d y → n = count (λ x, of_run (run_ID y) x && q (step_Status x)) (run_steps d) →
  n = run_StepsTotal y ↔
  ∀ x, x ∈ run_steps d → step_RunID x = run_ID y → q (step_Status x) = true.
Proof.
  intros I ->. rewrite (ri_total _ _ I). split.
  - intros E x Hx Hr.
    apply (andb_prop (of_run (run_ID y) x)), (count_le_eq (λ x, of_run (run_ID y) x && q (step_Status x))
      (of_run (run_ID y)) (run_steps d)); [by intros z [? _]%andb_prop|done|done|].
    by apply bool_decide_eq_true.
  - intros Hall. apply count_ext. intros x Hx. destruct (of_run (run_ID y) x) eqn:Hr; [|done]. cbn.
    apply bool_decide_eq_true in Hr. by apply Hall.
Qed.

Lemma success_count d y : run_inv d y →
  run_StepsSucceeded y + run_StepsSkipped y + run_StepsCollected y =
  count (λ x, of_run (run_ID y) x && absorbing (step_Status x)) (run_steps d).
Proof.
  intros I. rewrite (ri_succeeded _ _ I), (ri_skipped _ _ I), (ri_collected _ _ I).
  unfold run_status_count. rewrite <-!count_or;
    [|intros z; unfold has_status; by destruct (of_run _ z), (step_Status z)..].
  apply count_ext. intros z _. unfold has_status. by destruct (of_run _ z), (step_Status z).
Qed.

Lemma terminal_count d y : run_inv d y →
  run_StepsSucceeded y + run_StepsFailed y + run_StepsSkipped y + run_StepsCancelled y
    + run_StepsCollected y =
  count (λ x, of_run (run_ID y) x && step_terminal (step_Status x)) (run_steps d).
Proof.
  intros I. rewrite (ri_succeeded _ _ I), (ri_skipped _ _ I), (ri_collected _ _ I), (ri_failed _ _ I),
    (ri_cancelled _ _ I).
  unfold run_status_count. rewrite <-!count_or;
    [|intros z; unfold has_status; by destruct (of_run _ z), (step_Status z)..].
  apply count_ext. intros z _. unfold has_status. by destruct (of_run _ z), (step_Status z).
Qed.

Lemma failed_count d y : run_inv d y →
  1 ≤ run_StepsFailed y ↔
  ∃ x, x ∈ run_steps d ∧ step_RunID x = run_ID y ∧ step_Status x = StepStatusDeadLettered.
Proof.
  intros I. rewrite (ri_failed _ _ I). change 1 with (Z.succ 0). rewrite Z.le_succ_l.
  unfold run_status_count. rewrite count_pos.
  unfold of_run, has_status. setoid_rewrite andb_true_iff. setoid_rewrite bool_decide_eq_true. done.
Qed.

(** The guards of the rollups, over the step rows. *)
Section rollup_guards.
Context (d : DB) (r : uuid) (y : Run).
Context (H : db_inv d) (Hy : find (is_run r) (runs d) = Some y).
Definition all_done : Prop := ∀ x, x ∈ run_steps d → step_RunID x = r → absorbing (step_Status x) = true.
Definition all_terminal : Prop :=
  ∀ x, x ∈ run_steps d → step_RunID x = r → step_terminal (step_Status x) = true.
Definition some_dead : Prop :=
  ∃ x, x ∈ run_steps d ∧ step_RunID x = r ∧ step_Status x = StepStatusDeadLettered.

Lemma dead_guard : (1 <=? run_StepsFailed y) = true ↔ some_dead.
Proof.
  destruct (find_run_inv _ _ _ Hy) as [Hin Er]. rewrite Z.leb_le, (failed_count d y (inv_run _ H y Hin)).
  by rewrite Er.
Qed.

Lemma accounted_guard : all_accounted y = true ↔ all_terminal.
Proof.
  destruct (find_run_inv _ _ _ Hy) as [Hin Er]. pose proof (inv_run _ H y Hin) as I.
  unfold all_accounted, all_terminal. rewrite Z.eqb_eq, <-Er.
  apply (counters_all d y step_terminal _ I (terminal_count d y I)).
Qed.

Lemma succeed_guard : succeed_run_guard y = true ↔ run_open y = true ∧ all_done.
Proof.
  destruct (find_run_inv _ _ _ Hy) as [Hin Er]. pose proof (inv_run _ H y Hin) as I.
  pose proof (counters_all d y absorbing _ I (success_count d y I)) as Hall. rewrite Er in Hall.
  fold all_done in Hall. unfold succeed_run_guard. rewrite !andb_true_iff, !Z.eqb_eq, Hall.
  split; [naive_solver|]. intros [Ho Hd]. split_and!; try done.
  destruct (1 <=? run_StepsFailed y) eqn:Hf.
  - apply dead_guard in Hf as (x & Hx & Ex & Hst). specialize (Hd x Hx Ex). by rewrite Hst in Hd.
  - pose proof (count_nonneg (λ x, of_run (run_ID y) x && has_status StepStatusDeadLettered x)
      (run_steps d)) as Hnn.
    pose proof (ri_failed _ _ I) as Hfe. unfold run_status_count in Hfe. lia.
Qed.
End rollup_guards.
