(* ===== verification/Dag.v ===== *)
(** internal/dag: the workflow definition graph (definition.go, graph.go) and
    the readiness computation (ready.go). *)
From Stdlib Require Import QArith.
From S2P Require Import Prelude Retry Issues StoreModel Config.
Open Scope Z_scope.

(** ** Definitions (definition.go) *)

(** AgentDef: a role of the agents section. *)
Record AgentDef : Type := mkAgentDef {
  ad_Role : string;
  ad_System : string;
  ad_Model : string;
  ad_ModelFallbacks : list ModelFallback;
  ad_Tools : option (list string);
  ad_MaxTokens : Z;
  ad_Temperature : option Q;
  ad_OutputFormat : option OutputFormat;
  ad_Validation : option ValidationPolicy;
  ad_Context : option ContextSpec
}.

(** The envelope blocks of a step an agent role does not supply. *)
Record StepPolicies : Type := mkStepPolicies {
  sp_Retry : option RetryPolicy;
  sp_Timeout : string;
  sp_Cache : option CachePolicy;
  sp_Budget : option StepBudget;
  sp_Blackboard : option BlackboardPolicy
}.
Definition noPolicies : StepPolicies := mkStepPolicies None "" None None None.

(** A step: identity, config, the two envelope blocks an agent role may supply,
    and the rest of the envelope. *)
Record Step : Type := mkStep {
  ID : string;
  Type_ : string;
  Config : option StepConfig;
  Validation : option ValidationPolicy;
  Context_ : option ContextSpec;
  Policies : StepPolicies
}.
#[export] Instance Eta_Step : Eta Step := λ s,
  mkStep (ID s) (Type_ s) (Config s) (Validation s) (Context_ s) (Policies s).

(** ExhaustPolicy, NoProgressPolicy. *)
Definition ExhaustProceed : string := "proceed".
Definition ExhaustFail : string := "fail".
Record NoProgressPolicy : Type := mkNoProgressPolicy { np_Step : string; np_Path : string; np_Policy : string }.

Record Edge : Type := mkLoopEdge {
  From : string;
  To : string;
  When : string;
  EType : EdgeType;
  Condition : string;
  MaxIterations : Z;
  OnExhausted : string;
  NoProgress : option NoProgressPolicy;
  Decision : string
}.
(** An edge without the loop-only fields. *)
Definition mkEdge (from to cond : string) (ty : EdgeType) (decision : string) : Edge :=
  mkLoopEdge from to cond ty "" 0 "" None decision.
Definition IsLoop (e : Edge) : bool := bool_decide (EType e = EdgeTypeLoop).

(** FailurePolicy, BudgetPolicy. *)
Definition FailFast : string := "fail_fast".
Definition ContinueIndependentBranches : string := "continue_independent_branches".
Definition BudgetPark : string := "park".

(** ParamSpec: a declared run parameter. *)
Record ParamSpec : Type := mkParamSpec { ps_Type : string; ps_Required : bool }.

(** Template: a sub-graph a map step instantiates per item. *)
Record Template : Type := mkTemplate { tm_Steps : list Step; tm_Edges : list Edge }.

(** Definition, without the document-level metadata (schema version, description,
    UI state).  A nil entry of the two libraries is [None]. *)
Record Definition_ : Type := mkDefinition {
  Name : string;
  OnFailure : string;
  MaxWallClock : string;
  BudgetUSD : option Q;
  OnBudgetExceeded : string;
  Expansion : option ExpansionPolicy;
  Templates : gmap string (option Template);
  Agents : gmap string (option AgentDef);
  Params : gmap string ParamSpec;
  Steps : list Step;
  Edges : list Edge
}.
(** A definition with only a failure policy. *)
Definition plainDefinition (name onFailure : string) (steps : list Step) (edges : list Edge) : Definition_ :=
  mkDefinition name onFailure "" None "" None ∅ ∅ ∅ steps edges.

(** ** Graph (graph.go) *)

Inductive GraphErr : Type :=
| ErrDuplicateStep (id : string) (first i : nat)
| ErrUnknownFrom (i : nat) (id : string)
| ErrUnknownTo (i : nat) (id : string)
| ErrUnknownStep (id : string)
| ErrCycle
| ErrInputs (unknown overlap : list string).

Record Graph : Type := mkGraph {
  def : Definition_;
  index : gmap string nat;            (** step ID → declaration index *)
  outNormal : list (list nat);
  inNormal : list (list nat);
  loopEdges : list nat
}.
#[export] Instance Eta_Graph : Eta Graph := λ g,
  mkGraph (def g) (index g) (outNormal g) (inNormal g) (loopEdges g).

(** [xs[i] = append(xs[i], v)]. *)
Definition append_at {A} (i : nat) (v : A) (l : list (list A)) : list (list A) :=
  alter (λ row, row ++ [v]) i l.

Fixpoint index_steps (i : nat) (l : list Step) (idx : gmap string nat) : GraphErr + gmap string nat :=
  match l with
  | [] => inr idx
  | s :: l' =>
      match idx !! ID s with
      | Some first => inl (ErrDuplicateStep (ID s) first i)
      | None => index_steps (S i) l' (<[ID s := i]> idx)
      end
  end.

Fixpoint add_edges (i : nat) (l : list Edge) (g : Graph) : GraphErr + Graph :=
  match l with
  | [] => inr g
  | e :: l' =>
      match index g !! From e with
      | None => inl (ErrUnknownFrom i (From e))
      | Some from =>
          match index g !! To e with
          | None => inl (ErrUnknownTo i (To e))
          | Some to =>
              add_edges (S i) l'
                (if IsLoop e then g <| loopEdges := loopEdges g ++ [i] |>
                 else g <| outNormal := append_at from i (outNormal g) |>
                        <| inNormal := append_at to i (inNormal g) |>)
          end
      end
  end.

Definition NewGraph (d : Definition_) : GraphErr + Graph :=
  match index_steps 0 (Steps d) ∅ with
  | inl err => inl err
  | inr idx =>
      let n := length (Steps d) in
      add_edges 0 (Edges d) (mkGraph d idx (replicate n []) (replicate n []) [])
  end.

Definition edge_at (g : Graph) (e : nat) : Edge :=
  default (mkEdge "" "" "" EdgeTypeNormal "") (Edges (def g) !! e).
Definition step_at (g : Graph) (s : nat) : Step := default (mkStep "" "" None None None noPolicies) (Steps (def g) !! s).
Definition out_of (g : Graph) (s : nat) : list nat := default [] (outNormal g !! s).
Definition in_of (g : Graph) (s : nat) : list nat := default [] (inNormal g !! s).

(** toIdx, and its mirror for the source (both ends are known steps). *)
Definition toIdx (g : Graph) (e : nat) : nat := default 0%nat (index g !! To (edge_at g e)).
Definition fromIdx (g : Graph) (e : nat) : nat := default 0%nat (index g !! From (edge_at g e)).

(** *** topoOrder: Kahn's algorithm *)

Record Kahn : Type := mkKahn { remaining : list Z; kqueue : list nat; order : list nat }.

(** [for _, e := range outNormal[s] { remaining[t]--; if remaining[t] == 0 { push t } }]. *)
Fixpoint relax (ts : list nat) (k : Kahn) : Kahn :=
  match ts with
  | [] => k
  | t :: ts' =>
      let r := default 0 (remaining k !! t) - 1 in
      relax ts' (mkKahn (<[t := r]> (remaining k))
                   (if decide (r = 0) then kqueue k ++ [t] else kqueue k) (order k))
  end.

Fixpoint kahn_loop (g : Graph) (fuel : nat) (k : Kahn) : Kahn :=
  match fuel with
  | O => k
  | S fuel' =>
      match kqueue k with
      | [] => k
      | s :: q => kahn_loop g fuel' (relax (toIdx g <$> out_of g s) (mkKahn (remaining k) q (order k ++ [s])))
      end
  end.

Definition kahn_init (g : Graph) : Kahn :=
  let rem := (λ l, Z.of_nat (length l)) <$> inNormal g in
  mkKahn rem (List.filter (λ i, bool_decide (rem !! i = Some 0)) (seq 0 (length (Steps (def g))))) [].

(** One iteration pops one step, and a step is pushed at most once: one
    iteration per step is enough. *)
Definition topoOrder (g : Graph) : list nat * bool :=
  let k := kahn_loop g (length (Steps (def g))) (kahn_init g) in
  (order k, bool_decide (length (order k) = length (Steps (def g)))).

Definition TopoOrder (g : Graph) : GraphErr + list string :=
  match topoOrder g with
  | (order, true) => inr ((λ i, ID (step_at g i)) <$> order)
  | (_, false) => inl ErrCycle
  end.

(** *** Reachability: Ancestors, Descendants, reaches *)

(** The breadth-first loop shared by the two set queries: [next s] are the
    neighbours of [s].  Each step is queued at most once after the start, so
    one iteration per step plus one is enough. *)
Fixpoint visit (ns : list nat) (visited : gset nat) (q : list nat) : gset nat * list nat :=
  match ns with
  | [] => (visited, q)
  | p :: ns' => if decide (p ∈ visited) then visit ns' visited q
                else visit ns' ({[p]} ∪ visited) (q ++ [p])
  end.
Fixpoint bfs (next : nat → list nat) (fuel : nat) (visited : gset nat) (q : list nat) : gset nat :=
  match fuel with
  | O => visited
  | S fuel' =>
      match q with
      | [] => visited
      | s :: q' => let '(v, q'') := visit (next s) visited q' in bfs next fuel' v q''
      end
  end.

Definition id_set (g : Graph) (v : gset nat) : gset string :=
  list_to_set ((λ i, ID (step_at g i)) <$> elements v).

Definition Ancestors (g : Graph) (stepID : string) : GraphErr + gset string :=
  match index g !! stepID with
  | None => inl (ErrUnknownStep stepID)
  | Some start => inr (id_set g (bfs (λ s, fromIdx g <$> in_of g s) (S (length (Steps (def g)))) ∅ [start]))
  end.

Definition Descendants (g : Graph) (stepID : string) : GraphErr + gset string :=
  match index g !! stepID with
  | None => inl (ErrUnknownStep stepID)
  | Some start => inr (id_set g (bfs (λ s, toIdx g <$> out_of g s) (S (length (Steps (def g)))) ∅ [start]))
  end.

(** ** Agent roles (agent.go) *)

Inductive AgentErr : Type :=
| NotAgent (id : string)
| NoAgentConfig (id : string)
| EmptyAgentRef (id : string)
| UndeclaredAgent (id agent : string).

Definition or_string (a b : string) : string := if bool_decide (a = "") then b else a.
Definition or_opt {A} (a b : option A) : option A := match a with Some _ => a | None => b end.
Definition or_list {A} (a b : list A) : list A := match a with [] => b | _ => a end.

Definition ResolveAgentStep (d : Definition_) (step : Step) : AgentErr + Step :=
  if negb (bool_decide (Type_ step = StepAgent)) then inl (NotAgent (ID step)) else
  match Config step with
  | Some (AgentConfigC sc) =>
      if bool_decide (ac_Agent sc = "") then inl (EmptyAgentRef (ID step)) else
      match Agents d !! ac_Agent sc with
      | None | Some None => inl (UndeclaredAgent (ID step) (ac_Agent sc))
      | Some (Some role) =>
          let merged := sc
            <| ac_System := or_string (ac_System sc) (ad_System role) |>
            <| ac_Model := or_string (ac_Model sc) (ad_Model role) |>
            <| ac_MaxTokens := if ac_MaxTokens sc =? 0 then ad_MaxTokens role else ac_MaxTokens sc |>
            <| ac_Temperature := or_opt (ac_Temperature sc) (ad_Temperature role) |>
            <| ac_ModelFallbacks := or_list (ac_ModelFallbacks sc) (ad_ModelFallbacks role) |>
            <| ac_OutputFormat := or_opt (ac_OutputFormat sc) (ad_OutputFormat role) |>
            <| ac_Tools := or_opt (ac_Tools sc) (ad_Tools role) |>
            <| ac_Role := or_string (ad_Role role) (ac_Agent sc) |> in
          inr (step <| Config := Some (AgentConfigC merged) |>
                    <| Validation := or_opt (Validation step) (ad_Validation role) |>
                    <| Context_ := or_opt (Context_ step) (ad_Context role) |>)
      end
  | _ => inl (NoAgentConfig (ID step))
  end.

(** ** Join config decoding (decode.go: DecodeStepConfig on a join step) *)

(** An exact-case "mode" key with a string (or null) value, and a known mode. *)
Fixpoint join_mode_fields (fs : list (string * json)) (m : string) : option string :=
  match fs with
  | [] => if bool_decide (m = "") || bool_decide (m = JoinAll) || bool_decide (m = JoinAny)
          then Some m else None
  | (k, v) :: fs' =>
      if bool_decide (k = "mode") then
        match v with JStr m' => join_mode_fields fs' m' | JNull => join_mode_fields fs' m | _ => None end
      else None
  end.
Definition decodeJoinConfig (doc : json) : option string :=
  match doc with JObj fs => join_mode_fields fs "" | _ => None end.

(** ** Readiness (ready.go) *)

Inductive stepState : Type := statePending | stateCompleted | stateSkipped | stateFailed.
#[export] Instance stepState_eq_dec : EqDecision stepState.
Proof. solve_decision. Defined.

Inductive edgeResolution : Type := edgeUnresolved | edgeFired | edgeSkipped.
#[export] Instance edgeResolution_eq_dec : EqDecision edgeResolution.
Proof. solve_decision. Defined.

(** inputStates: the maps range over their [true] entries. *)
Record Inputs : Type := mkInputs { states : list stepState; unknown : list string; overlap : list string }.

Fixpoint assign (g : Graph) (ids : list string) (st : stepState) (i : Inputs) : Inputs :=
  match ids with
  | [] => i
  | id :: ids' =>
      assign g ids' st
        match index g !! id with
        | None => mkInputs (states i) (unknown i ++ [id]) (overlap i)
        | Some idx =>
            if bool_decide (states i !! idx = Some statePending)
            then mkInputs (<[idx := st]> (states i)) (unknown i) (overlap i)
            else mkInputs (states i) (unknown i) (overlap i ++ [id])
        end
  end.

Definition inputStates (g : Graph) (completed skipped failed : gset string) : GraphErr + list stepState :=
  let i0 := mkInputs (replicate (length (Steps (def g))) statePending) [] [] in
  let i := assign g (elements failed) stateFailed
             (assign g (elements skipped) stateSkipped (assign g (elements completed) stateCompleted i0)) in
  match unknown i, overlap i with
  | [], [] => inr (states i)
  | u, o => inl (ErrInputs u o)
  end.

Definition resolve (g : Graph) (st : list stepState) (e : nat) : edgeResolution :=
  match st !! fromIdx g e with
  | Some stateCompleted => edgeFired
  | Some stateSkipped => edgeSkipped
  | _ => edgeUnresolved
  end.

(** The skip-propagation pass over the topological order. *)
Fixpoint propagate (g : Graph) (ord : list nat) (st : list stepState) (newly : list nat)
    : list stepState * list nat :=
  match ord with
  | [] => (st, newly)
  | s :: ord' =>
      if bool_decide (st !! s = Some statePending) && negb (bool_decide (in_of g s = [])) &&
         forallb (λ e, bool_decide (resolve g st e = edgeSkipped)) (in_of g s)
      then propagate g ord' (<[s := stateSkipped]> st) (newly ++ [s])
      else propagate g ord' st newly
  end.

Definition joinMode (s : Step) : string :=
  if bool_decide (Type_ s = StepJoin) then
    match Config s with Some (JoinConfigC m) => m | _ => "" end
  else "".

Definition is_ready (g : Graph) (st : list stepState) (s : nat) : bool :=
  bool_decide (st !! s = Some statePending) &&
  (bool_decide (in_of g s = []) ||
   let anyFired := existsb (λ e, bool_decide (resolve g st e = edgeFired)) (in_of g s) in
   let allResolved := forallb (λ e, negb (bool_decide (resolve g st e = edgeUnresolved))) (in_of g s) in
   if bool_decide (joinMode (step_at g s) = JoinAny) then anyFired
   else allResolved && anyFired).

(** Both results are in declaration order; the newly skipped steps are sorted
    by index. *)
Definition ReadySteps (g : Graph) (completed skipped failed : gset string)
    : GraphErr + (list string * list string) :=
  match inputStates g completed skipped failed with
  | inl err => inl err
  | inr st0 =>
      match topoOrder g with
      | (_, false) => inl ErrCycle
      | (ord, true) =>
          let '(st, newly) := propagate g ord st0 [] in
          let ids := λ l, (λ i, ID (step_at g i)) <$> l in
          inr (ids (List.filter (is_ready g st) (seq 0 (length (Steps (def g))))),
               ids (merge_sort le newly))
      end
  end.
