(* ===== verification/GraphFacts.v ===== *)
(** Correctness of the graph construction and of the graph algorithms of
    internal/dag/graph.go. *)
From stdpp Require Import relations.
From S2P Require Import Prelude StoreModel Config Dag.
Open Scope nat_scope.

(** ** Construction *)

(** The normal edges of a definition, by index. *)
Definition edge_between (d : Definition_) (pick : Edge → string) (s : string) (e : nat) : bool :=
  match Edges d !! e with
  | Some ed => negb (IsLoop ed) && bool_decide (pick ed = s)
  | None => false
  end.

(** What a graph built from [d] is. *)
Record graph_of (d : Definition_) (g : Graph) : Prop := mkGraphOf {
  go_def : def g = d;
  go_nodup : NoDup (ID <$> Steps d);
  go_index : ∀ s i, index g !! s = Some i ↔ ∃ st, Steps d !! i = Some st ∧ ID st = s;
  go_ends : ∀ ed, ed ∈ Edges d → From ed ∈ ID <$> Steps d ∧ To ed ∈ ID <$> Steps d;
  go_out_len : length (outNormal g) = length (Steps d);
  go_in_len : length (inNormal g) = length (Steps d);
  go_out : ∀ i st, Steps d !! i = Some st →
    outNormal g !! i = Some (List.filter (edge_between d From (ID st)) (seq 0 (length (Edges d))));
  go_in : ∀ i st, Steps d !! i = Some st →
    inNormal g !! i = Some (List.filter (edge_between d To (ID st)) (seq 0 (length (Edges d))))
}.

Lemma index_steps_spec l : ∀ k idx idx',
  index_steps k l idx = inr idx' →
  NoDup (ID <$> l) ∧ (∀ st, st ∈ l → idx !! ID st = None) ∧
  ∀ s i, idx' !! s = Some i ↔ idx !! s = Some i ∨ ∃ j st, l !! j = Some st ∧ ID st = s ∧ i = k + j.
Proof.
  induction l as [|st l IH]; intros k idx idx' E; cbn in E.
  - injection E as <-. split_and!; [constructor|by intros ? ?%not_elem_of_nil|].
    intros s i. split; [by left|]. intros [?|(j & ? & ? & _)]; done.
  - destruct (idx !! ID st) as [first|] eqn:Hi; [done|].
    apply IH in E as (Hnd & Hfresh & Hidx).
    assert (∀ x, x ∈ l → ID x ≠ ID st) as Hne.
    { intros x Hx E. specialize (Hfresh x Hx). by rewrite E, lookup_insert_eq in Hfresh. }
    split_and!.
    + cbn. constructor; [|done]. intros (x & Ex & Hx)%list_elem_of_fmap. by apply (Hne x Hx).
    + intros x [->|Hx]%elem_of_cons; [done|]. specialize (Hfresh x Hx).
      rewrite lookup_insert_ne in Hfresh; [done|]. intros E. by apply (Hne x).
    + intros s i. rewrite Hidx, lookup_insert_Some. split.
      * intros [[[<- <-]|[Hs ?]]|(j & x & Hj & <- & ->)].
        -- right. exists 0, st. cbn. split_and!; [done|done|lia].
        -- by left.
        -- right. exists (S j), x. cbn. split_and!; [done|done|lia].
      * intros [Hs|(j & x & Hj & <- & ->)].
        -- left. right. split; [|done]. intros <-. congruence.
        -- destruct j as [|j]; cbn in Hj.
           ++ injection Hj as <-. left. left. split; [done|lia].
           ++ right. exists j, x. split_and!; [done|done|lia].
Qed.

Lemma append_at_lookup {A} i (v : A) l k row :
  l !! k = Some row → append_at i v l !! k = Some (if decide (i = k) then row ++ [v] else row).
Proof.
  intros H. unfold append_at. destruct (decide (i = k)) as [->|Hne].
  - by rewrite list_lookup_alter_eq, H.
  - by rewrite list_lookup_alter_ne.
Qed.

(** The adjacency rows after the first [m] edges. *)
Definition row_upto (d : Definition_) (pick : Edge → string) (s : string) (m : nat) : list nat :=
  List.filter (edge_between d pick s) (seq 0 m).
#[global] Arguments row_upto : simpl never.

Lemma row_upto_S d pick s m :
  row_upto d pick s (S m) = row_upto d pick s m ++ (if edge_between d pick s m then [m] else []).
Proof.
  unfold row_upto. rewrite seq_S, List.filter_app. cbn. by destruct (edge_between _ _ _ _).
Qed.

Record adj_upto (d : Definition_) (idx : gmap string nat) (m : nat) (g : Graph) : Prop := mkAdjUpto {
  au_def : def g = d;
  au_index : index g = idx;
  au_out_len : length (outNormal g) = length (Steps d);
  au_in_len : length (inNormal g) = length (Steps d);
  au_out : ∀ i st, Steps d !! i = Some st → outNormal g !! i = Some (row_upto d From (ID st) m);
  au_in : ∀ i st, Steps d !! i = Some st → inNormal g !! i = Some (row_upto d To (ID st) m)
}.

Section add_edges.
Context (d : Definition_) (idx : gmap string nat).
Context (Hidx : ∀ s i, idx !! s = Some i ↔ ∃ st, Steps d !! i = Some st ∧ ID st = s).

Lemma adj_row_step pick m (ed : Edge) rows a :
Edges d !! m = Some ed → IsLoop ed = false → idx !! pick ed = Some a →
(∀ i st, Steps d !! i = Some st → rows !! i = Some (row_upto d pick (ID st) m)) →
∀ i st, Steps d !! i = Some st →
  append_at a m rows !! i = Some (row_upto d pick (ID st) (S m)).
Proof.
intros Hm Hl Ha Hrows i st Hi. rewrite (append_at_lookup _ _ _ _ _ (Hrows i st Hi)).
rewrite row_upto_S. unfold edge_between. rewrite Hm, Hl. cbn.
apply Hidx in Ha as (sa & Hsa & Ea).
destruct (decide (a = i)) as [->|Hne].
- assert (st = sa) as -> by congruence. by rewrite bool_decide_eq_true_2.
- rewrite bool_decide_eq_false_2; [by rewrite app_nil_r|].
  intros E. apply Hne. assert (idx !! ID st = Some i) by (apply Hidx; eauto).
  assert (idx !! ID st = Some a) by (apply Hidx; exists sa; split; congruence). congruence.
Qed.

Lemma add_edges_spec l : ∀ m g g',
drop m (Edges d) = l → adj_upto d idx m g → add_edges m l g = inr g' →
adj_upto d idx (m + length l) g' ∧
∀ ed, ed ∈ l → From ed ∈ ID <$> Steps d ∧ To ed ∈ ID <$> Steps d.
Proof.
induction l as [|ed l IH]; intros m g g' Hd A E; cbn in E.
- injection E as <-. rewrite Nat.add_0_r. split; [done|]. by intros ? ?%not_elem_of_nil.
- assert (Edges d !! m = Some ed) as Hm.
  { rewrite <-(Nat.add_0_r m), <-lookup_drop, Hd. done. }
  rewrite (au_index _ _ _ _ A) in E.
  destruct (idx !! From ed) as [a|] eqn:Ha; [|done].
  destruct (idx !! To ed) as [b|] eqn:Hb; [|done].
  assert (∀ s i, idx !! s = Some i → s ∈ ID <$> Steps d) as Hin.
  { intros s i (st & Hst & <-)%Hidx. apply list_elem_of_fmap_2. by eapply list_elem_of_lookup_2. }
  apply IH in E as [A' Hends].
  + cbn [length]. rewrite <-Nat.add_succ_comm. split; [done|].
    intros x [->|Hx]%elem_of_cons; [split; by eapply Hin|by apply Hends].
  + rewrite <-Nat.add_1_r, <-drop_drop, Hd. done.
  + destruct (IsLoop ed) eqn:Hl.
    * assert (∀ pick s, row_upto d pick s (S m) = row_upto d pick s m) as Hrow.
      { intros pick s. rewrite row_upto_S. unfold edge_between. rewrite Hm, Hl. cbn. apply app_nil_r. }
      split; cbn; [apply A|done|apply A|apply A| |]; intros i st Hi; rewrite Hrow; by apply A.
    * split; cbn; unfold append_at; rewrite ?length_alter; [apply A|done|apply A|apply A| |].
      -- by eapply adj_row_step; [..|apply (au_out _ _ _ _ A)].
      -- by eapply adj_row_step; [..|apply (au_in _ _ _ _ A)].
Qed.
End add_edges.

Lemma NewGraph_spec d g : NewGraph d = inr g → graph_of d g.
Proof.
  unfold NewGraph. destruct (index_steps 0 (Steps d) ∅) as [|idx] eqn:Hidx; [done|].
  apply index_steps_spec in Hidx as (Hnd & _ & Hidx).
  assert (∀ s i, idx !! s = Some i ↔ ∃ st, Steps d !! i = Some st ∧ ID st = s) as Hidx'.
  { intros s i. rewrite Hidx, lookup_empty. cbn. naive_solver. }
  intros E. apply (add_edges_spec d idx Hidx') in E as [A Hends]; [|done|].
  - split; try apply A; try done. intros s i. rewrite (au_index _ _ _ _ A). apply Hidx'.
  - split; cbn; rewrite ?length_replicate; try done;
      intros i st Hi; apply lookup_replicate_2; by eapply lookup_lt_Some.
Qed.

(** *** A well-formed definition has a graph *)

Lemma index_steps_total l : ∀ k idx, NoDup (ID <$> l) → (∀ st, st ∈ l → idx !! ID st = None) →
  ∃ idx', index_steps k l idx = inr idx'.
Proof.
  induction l as [|st l IH]; intros k idx Hnd Hf; cbn; [by eexists|].
  rewrite (Hf st) by apply list_elem_of_here. inversion_clear Hnd as [|? ? Hno Hnd'].
  apply IH; [done|]. intros x Hx. rewrite lookup_insert_ne; [apply Hf; by right|].
  intros E. apply Hno. rewrite E. by apply list_elem_of_fmap_2.
Qed.
Lemma add_edges_total l : ∀ m g, (∀ ed, ed ∈ l → is_Some (index g !! From ed) ∧ is_Some (index g !! To ed)) →
  ∃ g', add_edges m l g = inr g'.
Proof.
  induction l as [|ed l IH]; intros m g H; cbn; [by eexists|].
  destruct (H ed (list_elem_of_here _ _)) as [[a ->] [b ->]]. apply IH. intros x Hx.
  destruct (IsLoop ed); apply H; by right.
Qed.
Lemma NewGraph_total d : NoDup (ID <$> Steps d) →
  (∀ ed, ed ∈ Edges d → From ed ∈ ID <$> Steps d ∧ To ed ∈ ID <$> Steps d) → ∃ g, NewGraph d = inr g.
Proof.
  intros Hnd Hends. unfold NewGraph.
  destruct (index_steps_total (Steps d) 0 ∅ Hnd) as [idx E]; [done|]. rewrite E.
  apply index_steps_spec in E as (_ & _ & Hidx).
  assert (∀ s, s ∈ ID <$> Steps d → is_Some (idx !! s)) as Hin.
  { intros s (st & -> & [i Hi]%list_elem_of_lookup)%list_elem_of_fmap. exists i. apply Hidx. right. eauto. }
  apply add_edges_total. cbn. intros ed [? ?]%Hends. auto.
Qed.

(** The loop edges of a graph are those of the definition. *)
Lemma add_edges_loops l : ∀ m g g', add_edges m l g = inr g' → ∀ i,
  i ∈ loopEdges g' ↔ i ∈ loopEdges g ∨ ∃ j ed, l !! j = Some ed ∧ IsLoop ed = true ∧ i = m + j.
Proof.
  induction l as [|ed l IH]; intros m g g' E i; cbn in E.
  - injection E as <-. split; [by left|]. intros [?|(j & ? & ? & _)]; done.
  - destruct (index g !! From ed), (index g !! To ed); try done. rewrite (IH _ _ _ E). clear IH E.
    assert ((∃ j ed', (ed :: l) !! j = Some ed' ∧ IsLoop ed' = true ∧ i = m + j) ↔
            (IsLoop ed = true ∧ i = m) ∨ ∃ j ed', l !! j = Some ed' ∧ IsLoop ed' = true ∧ i = S m + j) as ->.
    { split.
      - intros ([|j] & ed' & Hj & Hl & ->); cbn in Hj; simplify_eq.
        + left. split; [done|lia].
        + right. exists j, ed'. split_and!; [done..|lia].
      - intros [[Hl ->]|(j & ed' & Hj & Hl & ->)].
        + exists 0, ed. split_and!; [done..|lia].
        + exists (S j), ed'. split_and!; [done..|lia]. }
    destruct (IsLoop ed); cbn; rewrite ?elem_of_app, ?list_elem_of_singleton; naive_solver.
Qed.
Lemma NewGraph_loops d g : NewGraph d = inr g → ∀ i,
  i ∈ loopEdges g ↔ ∃ ed, Edges d !! i = Some ed ∧ IsLoop ed = true.
Proof.
  unfold NewGraph. destruct (index_steps 0 (Steps d) ∅) as [|idx]; [done|]. intros E i.
  rewrite (add_edges_loops _ _ _ _ E). cbn. set_solver.
Qed.

(** ** Adjacency of a built graph, by index *)
Section graph.
Context (d : Definition_) (g : Graph) (G : graph_of d g).
Abbreviation n := (length (Steps d)).

(** [e] is a normal edge. *)
Definition normal (e : nat) : Prop := ∃ ed, Edges d !! e = Some ed ∧ IsLoop ed = false.

Lemma edge_at_eq e ed : Edges d !! e = Some ed → edge_at g e = ed.
Proof. intros He. unfold edge_at. rewrite (go_def _ _ G). by rewrite He. Qed.

Lemma index_of s : s ∈ ID <$> Steps d → ∃ i st, index g !! s = Some i ∧ Steps d !! i = Some st ∧ ID st = s.
Proof.
intros (st & -> & Hst)%list_elem_of_fmap. apply list_elem_of_lookup in Hst as [i Hi].
exists i, st. split; [|done]. apply (go_index _ _ G). eauto.
Qed.

Lemma toIdx_spec e ed : Edges d !! e = Some ed →
∃ st, Steps d !! toIdx g e = Some st ∧ ID st = To ed.
Proof.
intros He. destruct (go_ends _ _ G ed) as [_ Ht]; [by eapply list_elem_of_lookup_2|].
apply index_of in Ht as (i & st & Hi & Hst & E). exists st. unfold toIdx.
rewrite (edge_at_eq e ed He), Hi. done.
Qed.
Lemma fromIdx_spec e ed : Edges d !! e = Some ed →
∃ st, Steps d !! fromIdx g e = Some st ∧ ID st = From ed.
Proof.
intros He. destruct (go_ends _ _ G ed) as [Ht _]; [by eapply list_elem_of_lookup_2|].
apply index_of in Ht as (i & st & Hi & Hst & E). exists st. unfold fromIdx.
rewrite (edge_at_eq e ed He), Hi. done.
Qed.

Lemma step_unique i j st st' :
Steps d !! i = Some st → Steps d !! j = Some st' → ID st = ID st' → i = j.
Proof.
intros Hi Hj E. assert (index g !! ID st = Some i) by (apply (go_index _ _ G); eauto).
assert (index g !! ID st = Some j) by (apply (go_index _ _ G); eauto). congruence.
Qed.

Lemma elem_of_in v e : v < n → e ∈ in_of g v ↔ normal e ∧ toIdx g e = v.
Proof.
intros Hv. destruct (lookup_lt_is_Some_2 (Steps d) v Hv) as [st Hst].
unfold in_of. rewrite (go_in _ _ G v st Hst). cbn.
rewrite list_elem_of_In, filter_In, <-list_elem_of_In, elem_of_seq. unfold edge_between, normal.
destruct (Edges d !! e) as [ed|] eqn:He.
- destruct (toIdx_spec e ed He) as (st' & Hst' & E).
  rewrite andb_true_iff, negb_true_iff, bool_decide_eq_true. split.
  + intros (_ & Hl & Et). split; [by exists ed|]. eapply step_unique; [done..|congruence].
  + intros [(ed' & [= <-] & Hl) <-]. split; [apply lookup_lt_Some in He; lia|].
    split; [done|congruence].
- split; [by intros [_ ?]|]. by intros [(? & ? & _) _].
Qed.

Lemma elem_of_out v e : v < n → e ∈ out_of g v ↔ normal e ∧ fromIdx g e = v.
Proof.
intros Hv. destruct (lookup_lt_is_Some_2 (Steps d) v Hv) as [st Hst].
unfold out_of. rewrite (go_out _ _ G v st Hst). cbn.
rewrite list_elem_of_In, filter_In, <-list_elem_of_In, elem_of_seq. unfold edge_between, normal.
destruct (Edges d !! e) as [ed|] eqn:He.
- destruct (fromIdx_spec e ed He) as (st' & Hst' & E).
  rewrite andb_true_iff, negb_true_iff, bool_decide_eq_true. split.
  + intros (_ & Hl & Et). split; [by exists ed|]. eapply step_unique; [done..|congruence].
  + intros [(ed' & [= <-] & Hl) <-]. split; [apply lookup_lt_Some in He; lia|].
    split; [done|congruence].
- split; [by intros [_ ?]|]. by intros [(? & ? & _) _].
Qed.

Lemma in_NoDup v : NoDup (in_of g v).
Proof.
unfold in_of. destruct (inNormal g !! v) as [l|] eqn:E; [|constructor]. cbn.
assert (v < n) as Hv by (apply lookup_lt_Some in E; by rewrite (go_in_len _ _ G) in E).
destruct (lookup_lt_is_Some_2 (Steps d) v Hv) as [st Hst].
rewrite (go_in _ _ G v st Hst) in E. injection E as <-. apply NoDup_ListNoDup, List.NoDup_filter, List.seq_NoDup.
Qed.
Lemma out_NoDup v : NoDup (out_of g v).
Proof.
unfold out_of. destruct (outNormal g !! v) as [l|] eqn:E; [|constructor]. cbn.
assert (v < n) as Hv by (apply lookup_lt_Some in E; by rewrite (go_out_len _ _ G) in E).
destruct (lookup_lt_is_Some_2 (Steps d) v Hv) as [st Hst].
rewrite (go_out _ _ G v st Hst) in E. injection E as <-. apply NoDup_ListNoDup, List.NoDup_filter, List.seq_NoDup.
Qed.

Lemma normal_ends e : normal e → fromIdx g e < n ∧ toIdx g e < n.
Proof.
intros (ed & He & _). destruct (fromIdx_spec e ed He) as (s1 & H1 & _).
destruct (toIdx_spec e ed He) as (s2 & H2 & _). apply lookup_lt_Some in H1, H2. done.
Qed.

(** ** Kahn's algorithm

  [P] is the set of relaxed edges. *)
Definition waiting (P : nat → bool) (v : nat) : Z := count (λ e, negb (P e)) (in_of g v).

Record kinv (P : nat → bool) (k : Kahn) : Prop := mkKinv {
ki_len : length (remaining k) = n;
ki_rem : ∀ v, v < n → remaining k !! v = Some (waiting P v);
ki_nodup : NoDup (order k ++ kqueue k);
ki_range : ∀ v, v ∈ order k ++ kqueue k → v < n;
ki_zero : ∀ v, v < n → v ∈ order k ++ kqueue k ↔ waiting P v = 0%Z;
ki_sorted : ∀ l1 v l2, order k ++ kqueue k = l1 ++ v :: l2 →
            ∀ e, e ∈ in_of g v → fromIdx g e ∈ l1;
ki_relaxed : ∀ e, P e = true → normal e ∧ fromIdx g e ∈ order k
}.

Lemma waiting_step P e v : v < n → normal e → P e = false →
waiting (λ x, P x || bool_decide (x = e)) v =
  (waiting P v - (if bool_decide (toIdx g e = v) then 1 else 0))%Z.
Proof.
intros Hv He HP. unfold waiting. pose proof (in_NoDup v) as Hnd.
assert (e ∈ in_of g v ↔ toIdx g e = v) as Hin by (rewrite elem_of_in by done; naive_solver).
revert Hnd Hin. generalize (in_of g v) as l. intros l Hnd Hin.
assert (bool_decide (toIdx g e = v) = bool_decide (e ∈ l)) as -> by (apply bool_decide_ext; naive_solver).
clear Hin. induction Hnd as [|x l Hx Hnd IH]; [done|]. cbn [count].
destruct (decide (x = e)) as [->|Hne].
- rewrite HP, (bool_decide_eq_true_2 (e = e)), (bool_decide_eq_true_2 (e ∈ e :: l)) by set_solver.
  rewrite IH, (bool_decide_eq_false_2 (e ∈ l)) by done. cbn. lia.
- rewrite IH, (bool_decide_eq_false_2 (x = e)), orb_false_r by done.
  assert (bool_decide (e ∈ x :: l) = bool_decide (e ∈ l)) as -> by (apply bool_decide_ext; set_solver).
  lia.
Qed.

Lemma waiting_pos P e : normal e → P e = false → (0 < waiting P (toIdx g e))%Z.
Proof.
intros He HP. apply count_pos. exists e. split; [|by rewrite HP].
apply elem_of_in; [by apply normal_ends|done].
Qed.

(** Adding one relaxed edge to the set. *)
Definition relaxed (P : nat → bool) (es : list nat) (x : nat) : bool := P x || bool_decide (x ∈ es).

Lemma waiting_zero P v e : waiting P v = 0%Z → e ∈ in_of g v → P e = true.
Proof.
unfold waiting. rewrite count_zero, Forall_forall. intros H He.
by apply negb_false_iff, H.
Qed.

Lemma kinv_ext P Q k : (∀ e, P e = Q e) → kinv P k → kinv Q k.
Proof.
intros E K. assert (∀ v, waiting P v = waiting Q v) as Ew.
{ intros v. apply count_ext. intros x _. by rewrite E. }
split; try apply K.
- intros v Hv. rewrite <-Ew. by apply K.
- intros v Hv. rewrite <-Ew. by apply K.
- intros e He. apply (ki_relaxed _ _ K). by rewrite E.
Qed.

(** One relaxation: the counter goes down, and the target is pushed when it
  reaches zero. *)
Lemma relax_one P k e :
kinv P k → normal e → P e = false → fromIdx g e ∈ order k →
kinv (λ x, P x || bool_decide (x = e)) (relax [toIdx g e] k).
Proof.
intros K He HP Hfrom. set (Q := λ x, P x || bool_decide (x = e)).
destruct (normal_ends e He) as [_ Ht].
pose proof (ki_rem _ _ K _ Ht) as Hr. pose proof (waiting_pos P e He HP) as Hpos.
assert (waiting Q (toIdx g e) = waiting P (toIdx g e) - 1)%Z as Ew.
{ unfold Q. by rewrite waiting_step, bool_decide_eq_true_2. }
assert (∀ v, v < n → v ≠ toIdx g e → waiting Q v = waiting P v) as Eo.
{ intros v Hv Hne. unfold Q. rewrite waiting_step, bool_decide_eq_false_2 by done. lia. }
assert (toIdx g e ∉ order k ++ kqueue k) as Hnew by (rewrite (ki_zero _ _ K) by done; lia).
assert (∀ x, Q x = true → normal x ∧ fromIdx g x ∈ order k) as HQ.
{ intros x [Hx| ->%bool_decide_eq_true]%orb_true_iff; [by apply (ki_relaxed _ _ K)|done]. }
cbn. rewrite Hr. cbn. rewrite <-Ew. split; cbn.
- rewrite length_insert. apply K.
- intros v Hv. destruct (decide (v = toIdx g e)) as [->|Hne].
  + apply list_lookup_insert_eq. by rewrite (ki_len _ _ K).
  + rewrite list_lookup_insert_ne, Eo by done. by apply K.
- destruct (decide _); [|apply K]. rewrite app_assoc, NoDup_app.
  split_and!; [apply K| |apply NoDup_singleton]. by intros x Hx ->%list_elem_of_singleton.
- intros v. destruct (decide _); [|apply K]. rewrite app_assoc, elem_of_app, list_elem_of_singleton.
  intros [Hv| ->]; [by apply K|done].
- intros v Hv. destruct (decide (v = toIdx g e)) as [->|Hne].
  + destruct (decide _) as [E|E]; [rewrite app_assoc, elem_of_app, list_elem_of_singleton; naive_solver|].
    naive_solver.
  + rewrite (Eo v), <-(ki_zero _ _ K) by done. destruct (decide _); [|done].
    rewrite (app_assoc (order k)), elem_of_app, list_elem_of_singleton. naive_solver.
- destruct (decide _) as [E|E]; [|apply K]. intros l1 v l2 Hl x Hx.
  destruct l2 as [|y l2 _] using rev_ind.
  + rewrite app_assoc in Hl. apply app_inj_tail in Hl as [<- <-].
    apply elem_of_app. left. apply HQ. by eapply waiting_zero.
  + rewrite app_assoc, app_comm_cons, app_assoc in Hl. apply app_inj_tail in Hl as [Hl <-].
    by eapply (ki_sorted _ _ K).
- done.
Qed.

Lemma relax_kinv es : ∀ P k,
kinv P k → NoDup es →
(∀ e, e ∈ es → normal e ∧ P e = false ∧ fromIdx g e ∈ order k) →
kinv (relaxed P es) (relax (toIdx g <$> es) k) ∧ order (relax (toIdx g <$> es) k) = order k.
Proof.
induction es as [|e es IH]; intros P k K Hnd H.
- split; [|done]. eapply kinv_ext; [|done]. intros x. unfold relaxed.
  by rewrite bool_decide_eq_false_2, orb_false_r by apply not_elem_of_nil.
- apply NoDup_cons in Hnd as [Hne Hnd].
  destruct (H e) as (Hn & HP & Hf); [apply list_elem_of_here|].
  pose proof (relax_one P k e K Hn HP Hf) as K1.
  change (relax (toIdx g <$> e :: es) k) with (relax (toIdx g <$> es) (relax [toIdx g e] k)).
  destruct (IH _ _ K1 Hnd) as [K2 Ho].
  + intros x Hx. destruct (H x) as (Hxn & HxP & Hxf); [by apply list_elem_of_further|].
    split_and!; [done| |done]. rewrite HxP. apply bool_decide_eq_false. by intros ->.
  + split; [|done]. eapply kinv_ext; [|exact K2]. intros x. unfold relaxed.
    rewrite <-orb_assoc. f_equal. apply eq_true_iff_eq.
    rewrite orb_true_iff, !bool_decide_eq_true, elem_of_cons. done.
Qed.

(** Every edge out of a popped step has been relaxed. *)
Definition kdone (P : nat → bool) (k : Kahn) : Prop :=
∀ e, normal e → fromIdx g e ∈ order k → P e = true.

Lemma pop_kinv P k s q : kqueue k = s :: q → kinv P k → kdone P k →
∃ Q, let k' := relax (toIdx g <$> out_of g s) (mkKahn (remaining k) q (order k ++ [s])) in
kinv Q k' ∧ kdone Q k' ∧ order k' = order k ++ [s].
Proof.
intros Hq K D. set (k1 := mkKahn (remaining k) q (order k ++ [s])).
assert (order k1 ++ kqueue k1 = order k ++ kqueue k) as E by (cbn; by rewrite Hq, <-app_assoc).
assert (kinv P k1) as K1.
{ split; rewrite ?E; try apply K. intros e He. destruct (ki_relaxed _ _ K e He). cbn. set_solver. }
assert (s < n) as Hs by (apply (ki_range _ _ K); rewrite Hq; set_solver).
destruct (relax_kinv (out_of g s) P k1 K1 (out_NoDup s)) as [K2 Ho].
- intros e He. apply elem_of_out in He as [Hn <-]; [|done]. split_and!; [done| |cbn; set_solver].
  destruct (P e) eqn:HP; [|done]. apply (ki_relaxed _ _ K) in HP as [_ HP].
  pose proof (ki_nodup _ _ K) as Hnd. rewrite Hq in Hnd. apply NoDup_app in Hnd as (_ & Hd & _).
  edestruct (Hd _ HP). set_solver.
- exists (relaxed P (out_of g s)). split_and!; [done| |done].
  intros e Hn. rewrite Ho. cbn. rewrite elem_of_app, list_elem_of_singleton. unfold relaxed.
  intros [He|He]; [by rewrite (D e)|]. apply orb_true_iff. right. apply bool_decide_eq_true.
  by apply elem_of_out.
Qed.

Lemma order_bound P k : kinv P k → length (order k ++ kqueue k) ≤ n.
Proof.
intros K. rewrite <-(length_seq n 0). apply NoDup_incl_length.
- apply NoDup_ListNoDup, K.
- intros v Hv. apply in_seq. apply list_elem_of_In, (ki_range _ _ K) in Hv. lia.
Qed.

Lemma kahn_loop_end fuel : ∀ P k, kinv P k → kdone P k → n ≤ fuel + length (order k) →
∃ Q, kinv Q (kahn_loop g fuel k) ∧ kdone Q (kahn_loop g fuel k) ∧ kqueue (kahn_loop g fuel k) = [].
Proof.
induction fuel as [|fuel IH]; intros P k K D Hf; cbn.
- exists P. split_and!; [done..|]. pose proof (order_bound P k K) as Hb.
  rewrite length_app in Hb. apply length_zero_iff_nil. lia.
- destruct (kqueue k) as [|s q] eqn:Hq; [by exists P|].
  destruct (pop_kinv P k s q Hq K D) as (Q & KQ & DQ & Ho).
  apply (IH Q); [done..|]. rewrite Ho, length_app. cbn. lia.
Qed.

Lemma waiting_all v : waiting (λ _, false) v = Z.of_nat (length (in_of g v)).
Proof. unfold waiting. induction (in_of g v) as [|x l IH]; [done|]. cbn [count length]. rewrite IH. cbn. lia. Qed.

Lemma kahn_init_inv : kinv (λ _, false) (kahn_init g) ∧ kdone (λ _, false) (kahn_init g).
Proof.
assert (∀ v, v < n → ((λ l, Z.of_nat (length l)) <$> inNormal g) !! v = Some (waiting (λ _, false) v)) as Hr.
{ intros v Hv. rewrite <-(go_in_len _ _ G) in Hv. apply lookup_lt_is_Some_2 in Hv as [l Hl].
  rewrite list_lookup_fmap, Hl, waiting_all. unfold in_of. by rewrite Hl. }
assert (∀ v, v ∈ kqueue (kahn_init g) ↔ v < n ∧ waiting (λ _, false) v = 0%Z) as Hq.
{ intros v. cbn. rewrite list_elem_of_In, filter_In, in_seq, bool_decide_eq_true, (go_def _ _ G).
  split; intros [Hv E]; (split; [lia|]); (rewrite Hr in * by lia); congruence. }
split; [|by intros e _ ?%not_elem_of_nil]. split.
- cbn. by rewrite length_fmap, (go_in_len _ _ G).
- done.
- cbn. apply NoDup_ListNoDup, List.NoDup_filter, List.seq_NoDup.
- intros v Hv. by apply Hq.
- intros v Hv. cbn [order kahn_init app]. change (order (kahn_init g)) with (@nil nat). cbn [app]. rewrite Hq. naive_solver.
- intros l1 v l2 E e He.
  assert (v ∈ kqueue (kahn_init g)) as [_ Hv]%Hq by (change (kqueue (kahn_init g)) with (order (kahn_init g) ++ kqueue (kahn_init g)); rewrite E; set_solver).
  by pose proof (waiting_zero _ _ _ Hv He).
- done.
Qed.

(** The state Kahn's loop ends in. *)
Lemma kahn_final : ∃ P k, topoOrder g = (order k, bool_decide (length (order k) = n)) ∧
kinv P k ∧ kdone P k ∧ kqueue k = [].
Proof.
unfold topoOrder. rewrite (go_def _ _ G). destruct kahn_init_inv as [K D].
destruct (kahn_loop_end n _ _ K D) as (P & KP & DP & Hq); [lia|].
by exists P, (kahn_loop g n (kahn_init g)).
Qed.

Lemma topoOrder_sound ord : topoOrder g = (ord, true) →
ord ≡ₚ seq 0 n ∧ ∀ l1 v l2, ord = l1 ++ v :: l2 → ∀ e, normal e → toIdx g e = v → fromIdx g e ∈ l1.
Proof.
destruct kahn_final as (P & k & -> & K & D & Hq). intros [= <- Hlen%bool_decide_eq_true].
pose proof (ki_nodup _ _ K) as Hnd. pose proof (ki_range _ _ K) as Hrg.
pose proof (ki_sorted _ _ K) as Hs. rewrite Hq, app_nil_r in Hnd, Hrg, Hs. split.
- apply NoDup_Permutation; [done|apply NoDup_ListNoDup, List.seq_NoDup|]. intros v.
  rewrite elem_of_seq. split; [intros ?%Hrg; lia|]. intros [_ Hv].
  assert (List.incl (seq 0 n) (order k)) as Hi.
  { apply NoDup_length_incl; [by apply NoDup_ListNoDup|rewrite length_seq; lia|].
    intros x Hx. apply in_seq. apply list_elem_of_In, Hrg in Hx. lia. }
  apply list_elem_of_In, Hi, in_seq. lia.
- intros l1 v l2 E e He Ht. eapply Hs; [done|]. apply elem_of_in; [|done].
  rewrite <-Ht. by apply normal_ends.
Qed.

(** A graph whose steps can be ranked along its normal edges is ordered. *)
Lemma topoOrder_complete (rank : nat → nat) :
(∀ e, normal e → rank (fromIdx g e) < rank (toIdx g e)) → (topoOrder g).2 = true.
Proof.
intros Hrank. destruct kahn_final as (P & k & -> & K & D & Hq). cbn.
pose proof (ki_zero _ _ K) as Hz. pose proof (order_bound _ _ K) as Hb.
rewrite Hq, app_nil_r in Hz, Hb.
assert (∀ r v, rank v < r → v < n → v ∈ order k) as Hall.
{ induction r as [|r IH]; intros v Hr Hv; [lia|]. apply Hz; [done|].
  apply count_zero, Forall_forall. intros e He. apply negb_false_iff, D.
  - by apply (elem_of_in v).
  - apply elem_of_in in He as [Hn <-]; [|done]. pose proof (Hrank e Hn).
    apply IH; [lia|]. by apply normal_ends. }
apply bool_decide_eq_true. enough (n ≤ length (order k)) by lia.
rewrite <-(length_seq n 0) at 1. apply NoDup_incl_length; [apply List.seq_NoDup|].
intros v Hv%in_seq. apply list_elem_of_In, (Hall (S (rank v))); lia.
Qed.
End graph.

(** ** Breadth-first reachability *)
Lemma visit_spec ns : ∀ vis q,
let r := visit ns vis q in
r.1 = vis ∪ list_to_set ns ∧
∃ new, r.2 = q ++ new ∧ NoDup new ∧ ∀ p, p ∈ new ↔ p ∈ ns ∧ p ∉ vis.
Proof.
induction ns as [|p ns IH]; intros vis q; cbn.
- split; [set_solver|]. exists []. rewrite app_nil_r. split_and!; [done|constructor|set_solver].
- destruct (decide (p ∈ vis)) as [Hp|Hp].
  + destruct (IH vis q) as (E1 & new & E2 & Hnd & Hin). split; [set_solver|].
    exists new. split_and!; [done..|]. set_solver.
  + destruct (IH ({[p]} ∪ vis) (q ++ [p])) as (E1 & new & E2 & Hnd & Hin). split; [set_solver|].
    exists (p :: new). rewrite E2, <-app_assoc. split_and!; [done| |].
    * apply NoDup_cons. rewrite Hin. set_solver.
    * intros x. rewrite !elem_of_cons, Hin, not_elem_of_union, not_elem_of_singleton.
      destruct (decide (x = p)) as [->|]; tauto.
Qed.

Section bfs.
Context (next : nat → list nat) (m : nat) (Hnext : ∀ u p, u < m → p ∈ next u → p < m).
Context (start : nat) (Hstart : start < m).
Abbreviation R := (λ u p : nat, p ∈ next u).

Record binv (vis : gset nat) (q : list nat) : Prop := mkBinv {
bi_vis : ∀ v, v ∈ vis → v < m ∧ tc R start v;
bi_q : ∀ v, v ∈ q → v = start ∨ v ∈ vis;
bi_closed : ∀ u p, u = start ∨ u ∈ vis → u ∉ q → p ∈ next u → p ∈ vis
}.

Lemma size_bound (X : gset nat) : (∀ v, v ∈ X → v < m) → size X ≤ m.
Proof.
intros HX. rewrite <-(size_set_seq (C := gset nat) 0 m). apply subseteq_size.
intros v Hv%HX. apply elem_of_set_seq. lia.
Qed.

Lemma binv_step vis s q : binv vis (s :: q) →
let r := visit (next s) vis q in
binv r.1 r.2 ∧ length r.2 + (m - size r.1) ≤ length q + (m - size vis).
Proof.
intros B. destruct (visit_spec (next s) vis q) as (E1 & new & E2 & Hnd & Hin). cbv zeta. rewrite E1, E2.
assert (s < m ∧ ∀ p, p ∈ next s → tc R start p) as [Hs Htc].
{ destruct (bi_q _ _ B s) as [->|Hv]; [apply list_elem_of_here| |].
  - split; [done|]. intros p Hp. by apply tc_once.
  - destruct (bi_vis _ _ B s Hv). split; [done|]. intros p Hp. by eapply tc_r. }
assert (binv (vis ∪ list_to_set (next s)) (q ++ new)) as B'.
{ split.
  - intros v [Hv|Hv%elem_of_list_to_set]%elem_of_union; [by apply B|].
    split; [by eapply Hnext|by apply Htc].
  - intros v [Hv|Hv]%elem_of_app.
    + destruct (bi_q _ _ B v); [by apply list_elem_of_further|by left|set_solver].
    + apply Hin in Hv. set_solver.
  - intros u p Hu Hq Hp. destruct (decide (u = s)) as [->|Hne]; [set_solver|].
    apply elem_of_union_l, (bi_closed _ _ B u); [|set_solver|done].
    destruct Hu as [->|[Hu|Hu%elem_of_list_to_set]%elem_of_union]; [by left|by right|].
    right. destruct (decide (u ∈ vis)); [done|]. destruct Hq. apply elem_of_app. right. by apply Hin. }
split; [done|]. rewrite length_app.
assert (size (vis ∪ list_to_set (next s)) = size vis + length new) as Esz.
{ assert (vis ∪ list_to_set (next s) = vis ∪ (list_to_set new : gset nat)) as ->.
  { apply leibniz_equiv. intros x. rewrite !elem_of_union, !elem_of_list_to_set, Hin.
    destruct (decide (x ∈ vis)); tauto. }
  rewrite size_union, (size_list_to_set new) by set_solver. done. }
pose proof (size_bound (vis ∪ list_to_set (next s)) (λ v Hv, proj1 (bi_vis _ _ B' v Hv))). lia.
Qed.

Lemma binv_end vis : binv vis [] → ∀ v, v ∈ vis ↔ tc R start v.
Proof.
intros B v. split; [apply B|]. intros Ht.
enough (∀ u, tc R u v → u = start ∨ u ∈ vis → v ∈ vis) as Hen by (apply (Hen start); auto).
induction 1 as [u p Hp|u p w Hp _ IH]; intros Hu;
  pose proof (bi_closed _ _ B u p Hu (not_elem_of_nil u) Hp); auto.
Qed.

Lemma bfs_spec fuel : ∀ vis q, binv vis q → length q + (m - size vis) ≤ fuel →
∀ v, v ∈ bfs next fuel vis q ↔ tc R start v.
Proof.
induction fuel as [|fuel IH]; intros vis q B Hf v; cbn.
- destruct q; [|cbn in Hf; lia]. by apply binv_end.
- destruct q as [|s q]; [by apply binv_end|].
  destruct (binv_step vis s q B) as [B' Hm]. destruct (visit (next s) vis q) as [vis' q'].
  cbn in *. apply IH; [done|lia].
Qed.
End bfs.
