(* ===== verification/Cycles.v ===== *)
(** internal/dag/graph.go: the short-circuiting reachability test [reaches] and
    the cycle reporting [findCycles], an iterative three-colour depth-first
    search, with their correctness on a built graph. *)
From stdpp Require Import relations.
From S2P Require Import Prelude StoreModel Config Dag GraphFacts.
Open Scope nat_scope.

(** ** reaches *)

(** The targets of one step: [None] when [to] is among them. *)
Fixpoint reach_scan (ts : list nat) (to : nat) (visited : gset nat) (q : list nat)
    : option (gset nat * list nat) :=
  match ts with
  | [] => Some (visited, q)
  | t :: ts' =>
      if decide (t = to) then None
      else if decide (t ∈ visited) then reach_scan ts' to visited q
      else reach_scan ts' to ({[t]} ∪ visited) (q ++ [t])
  end.
Fixpoint reach_loop (next : nat → list nat) (to : nat) (fuel : nat) (visited : gset nat) (q : list nat) : bool :=
  match fuel with
  | O => false
  | S fuel' =>
      match q with
      | [] => false
      | s :: q' =>
          match reach_scan (next s) to visited q' with
          | None => true
          | Some (v, q'') => reach_loop next to fuel' v q''
          end
      end
  end.
(** As in [Ancestors], every step is queued at most once after the start. *)
Definition reaches (g : Graph) (from to : nat) : bool :=
  reach_loop (λ s, toIdx g <$> out_of g s) to (S (length (Steps (def g)))) ∅ [from].

(** ** findCycles *)

Inductive color : Type := white | gray | black.
#[export] Instance color_eq_dec : EqDecision color.
Proof. solve_decision. Defined.

Record frame : Type := mkFrame { fstep : nat; fnext : nat }.
Record cycleFinding : Type := mkCycleFinding { edgeIdx : nat; cpath : list string }.

(** The variables of the search; the head of [stack] is its top. *)
Record Dfs : Type := mkDfs { colors : list color; stack : list frame; findings : list cycleFinding }.

Definition color_of (cs : list color) (v : nat) : color := default white (cs !! v).

(** The steps of the path from [t] on, the path given bottom first. *)
Fixpoint path_from (t : nat) (path : list frame) : list nat :=
  match path with
  | [] => []
  | f :: path' => if decide (fstep f = t) then fstep <$> path else path_from t path'
  end.

(** One iteration of the inner loop. *)
Definition dfs_step (g : Graph) (s : Dfs) : Dfs :=
  match stack s with
  | [] => s
  | f :: fs =>
      match out_of g (fstep f) !! fnext f with
      | None => mkDfs (<[fstep f := black]> (colors s)) fs (findings s)
      | Some e =>
          let t := toIdx g e in
          let st := mkFrame (fstep f) (S (fnext f)) :: fs in
          match color_of (colors s) t with
          | white => mkDfs (<[t := gray]> (colors s)) (mkFrame t 0 :: st) (findings s)
          | gray => mkDfs (colors s) st
              (findings s ++ [mkCycleFinding e ((λ i, ID (step_at g i)) <$> (path_from t (reverse st) ++ [t]))])
          | black => mkDfs (colors s) st (findings s)
          end
      end
  end.

Fixpoint dfs_loop (g : Graph) (fuel : nat) (s : Dfs) : Dfs :=
  match fuel, stack s with
  | S fuel', _ :: _ => dfs_loop g fuel' (dfs_step g s)
  | _, _ => s
  end.

(** Every iteration closes a step or consumes one of the out-edges. *)
Definition dfs_fuel (g : Graph) : nat := length (Steps (def g)) + sum_list_with length (outNormal g).

Definition dfs_root (g : Graph) (s : Dfs) (root : nat) : Dfs :=
  if decide (color_of (colors s) root = white)
  then dfs_loop g (dfs_fuel g) (mkDfs (<[root := gray]> (colors s)) [mkFrame root 0] (findings s))
  else s.

Definition findCycles (g : Graph) : list cycleFinding :=
  let n := length (Steps (def g)) in
  findings (foldl (dfs_root g) (mkDfs (replicate n white) [] []) (seq 0 n)).

(** ** reaches is reachability *)
Section reach.
Context (next : nat → list nat) (to : nat).

Lemma reach_scan_visit ts : ∀ vis q,
  reach_scan ts to vis q = if decide (to ∈ ts) then None else Some (visit ts vis q).
Proof.
  induction ts as [|t ts IH]; intros vis q; cbn; [done|].
  destruct (decide (t = to)) as [->|Hne]; [by rewrite decide_True by apply list_elem_of_here|].
  assert (to ∈ t :: ts ↔ to ∈ ts) as Hiff by (rewrite elem_of_cons; naive_solver).
  destruct (decide (t ∈ vis)); rewrite IH; by rewrite (decide_ext _ _ _ _ Hiff).
Qed.

Lemma bfs_mono fuel : ∀ vis q, vis ⊆ bfs next fuel vis q.
Proof.
  induction fuel as [|fuel IH]; intros vis q; cbn; [done|]. destruct q as [|s q]; [done|].
  destruct (visit_spec (next s) vis q) as [E _]. destruct (visit (next s) vis q) as [v q']. cbn in E.
  etrans; [|apply IH]. set_solver.
Qed.

Lemma reach_loop_bfs fuel : ∀ vis q, to ∉ vis →
  reach_loop next to fuel vis q = bool_decide (to ∈ bfs next fuel vis q).
Proof.
  induction fuel as [|fuel IH]; intros vis q Hto; cbn; [by rewrite bool_decide_eq_false_2|].
  destruct q as [|s q]; [by rewrite bool_decide_eq_false_2|]. rewrite reach_scan_visit.
  destruct (visit_spec (next s) vis q) as [E _]. destruct (visit (next s) vis q) as [v q'] eqn:Ev. cbn in E.
  case_decide as Hin; [|apply IH; set_solver].
  symmetry. apply bool_decide_eq_true. apply bfs_mono. set_solver.
Qed.
End reach.

(** ** The depth-first search *)
Section dfs.
Context (d : Definition_) (g : Graph) (G : graph_of d g).
Abbreviation n := (length (Steps d)).

(** [u → v] by a normal edge, on step indices. *)
Definition arc (u v : nat) : Prop := ∃ e, e ∈ out_of g u ∧ toIdx g e = v.

Lemma arc_range u v : arc u v → v < n.
Proof.
  intros (e & He & <-). destruct (decide (u < n)) as [Hu|Hu].
  - apply (elem_of_out d g G) in He as [He _]; [|done]. by apply (normal_ends d g G).
  - unfold out_of in He. rewrite lookup_ge_None_2 in He by (rewrite (go_out_len _ _ G); lia).
    by apply not_elem_of_nil in He.
Qed.

Definition chain (l : list nat) : Prop := ∀ l1 a b l2, l = l1 ++ a :: b :: l2 → arc a b.

Lemma chain_snoc l u v : chain (l ++ [u]) → arc u v → chain ((l ++ [u]) ++ [v]).
Proof.
  intros Hl Hv l1 a b l2 E. destruct l2 as [|w l2 _] using rev_ind.
  - change [a; b] with ([a] ++ [b]) in E. rewrite (app_assoc l1) in E. apply app_inj_tail in E as [E ->]. by apply app_inj_tail in E as [_ ->].
  - rewrite !app_comm_cons, app_assoc in E. apply app_inj_tail in E as [E _]. by eapply Hl.
Qed.
Lemma chain_suffix l1 l : chain (l1 ++ l) → chain l.
Proof. intros H k a b k' ->. apply (H (l1 ++ k) a b k'). by rewrite <-app_assoc. Qed.

(** A finding: a simple path from the target of the reported edge to its source. *)
Definition cycle_finding (c : cycleFinding) : Prop := ∃ ns t u,
  cpath c = (λ i, ID (step_at g i)) <$> (ns ++ [t]) ∧ head ns = Some t ∧ last ns = Some u ∧
  u < n ∧ edgeIdx c ∈ out_of g u ∧ toIdx g (edgeIdx c) = t ∧ chain ns ∧ NoDup ns.

(** The edges already followed out of the steps on the stack: each led to a
    finished step, was reported, or leads to the next step of the stack, and
    each step of the stack was entered by an edge. *)
Fixpoint frames_ok (fin found : list nat) (above : option nat) (st : list frame) : Prop :=
  match st with
  | [] => True
  | f :: fs =>
      (∀ i e, i < fnext f → out_of g (fstep f) !! i = Some e →
        toIdx g e ∈ fin ∨ e ∈ found ∨ above = Some (toIdx g e)) ∧
      fnext f ≤ length (out_of g (fstep f)) ∧
      (∀ a, above = Some a → arc (fstep f) a) ∧
      frames_ok fin found (Some (fstep f)) fs
  end.

Record dinv (s : Dfs) (fin : list nat) : Prop := mkDinv {
  di_len : length (colors s) = n;
  di_gray : ∀ v, colors s !! v = Some gray ↔ v ∈ fstep <$> stack s;
  di_black : ∀ v, colors s !! v = Some black ↔ v ∈ fin;
  di_nodup : NoDup (fstep <$> stack s);
  di_finset : NoDup fin;
  di_fin : ∀ l1 v l2, fin = l1 ++ v :: l2 → ∀ e, e ∈ out_of g v →
    toIdx g e ∈ l2 ∨ e ∈ edgeIdx <$> findings s;
  di_frames : frames_ok fin (edgeIdx <$> findings s) None (stack s);
  di_found : ∀ c, c ∈ findings s → cycle_finding c
}.

Lemma frames_mono fin fin' found found' above st :
  fin ⊆ fin' → found ⊆ found' → frames_ok fin found above st → frames_ok fin' found' above st.
Proof.
  intros H1 H2. revert above. induction st as [|f fs IH]; intros above; cbn; [done|].
  intros (Ha & Hl & Hb & Hc). split_and!; [|done|done|by apply IH].
  intros i e Hi He. destruct (Ha i e Hi He) as [?|[?|?]]; auto.
Qed.

(** Once the step above is finished, nothing is pending on it. *)
Lemma frames_pop fin found a st : a ∈ fin → frames_ok fin found (Some a) st → frames_ok fin found None st.
Proof.
  intros Ha. destruct st as [|f fs]; cbn; [done|]. intros (H1 & H2 & H3 & H4). split_and!; [|done|done|done].
  intros i e Hi He. destruct (H1 i e Hi He) as [?|[?|[= ->]]]; auto.
Qed.

(** Advancing the top frame over an edge. *)
Lemma frames_advance fin found above f fs e :
  out_of g (fstep f) !! fnext f = Some e →
  toIdx g e ∈ fin ∨ e ∈ found ∨ above = Some (toIdx g e) → (∀ a, above = Some a → a = toIdx g e) →
  frames_ok fin found None (f :: fs) → frames_ok fin found above (mkFrame (fstep f) (S (fnext f)) :: fs).
Proof.
  intros He Hnew Hab. cbn. intros (H1 & H2 & _ & H4). split_and!; [| | |done].
  - intros i e' Hi He'. destruct (decide (i = fnext f)) as [->|Hne]; [naive_solver|].
    destruct (H1 i e') as [?|[?|?]]; [lia|done|auto|auto|done].
  - apply lookup_lt_Some in He. lia.
  - intros a ->. exists e. split; [by eapply list_elem_of_lookup_2|]. by rewrite (Hab a).
Qed.

(** The stack, bottom first, is a path. *)
Lemma stack_chain fin found st : ∀ above, frames_ok fin found above st →
  chain (reverse (fstep <$> st)) ∧ ∀ a, above = Some a → st ≠ [] → chain (reverse (fstep <$> st) ++ [a]).
Proof.
  induction st as [|f fs IH]; intros above; cbn [frames_ok].
  { intros _. split; [|done]. by intros [] a b l2 E. }
  intros (_ & _ & Hab & Hfs). rewrite fmap_cons, reverse_cons.
  assert (chain (reverse (fstep <$> fs) ++ [fstep f])) as Hc.
  { destruct fs as [|f' fs]; [|by apply (IH _ Hfs)]. intros l1 a b l2 E.
    by destruct l1 as [|? []]. }
  split; [done|]. intros a -> _. by apply chain_snoc; [|apply Hab].
Qed.

Lemma path_from_suffix t path : t ∈ fstep <$> path →
  ∃ pre, fstep <$> path = pre ++ path_from t path ∧ head (path_from t path) = Some t.
Proof.
  induction path as [|f path IH]; cbn; [by intros ?%not_elem_of_nil|].
  intros H. case_decide as E; [by exists []; subst|].
  destruct IH as (pre & E1 & E2); [set_solver|]. exists (fstep f :: pre). split; [|done]. cbn. by rewrite E1.
Qed.

(** *** One iteration *)

Lemma gray_range s fin v : dinv s fin → v ∈ fstep <$> stack s → v < n.
Proof. intros D Hv. rewrite <-(di_len _ _ D). apply (di_gray _ _ D) in Hv. by eapply lookup_lt_Some. Qed.

Lemma color_cases s fin v : dinv s fin → v < n →
  colors s !! v = Some (color_of (colors s) v).
Proof.
  intros D Hv. rewrite <-(di_len _ _ D) in Hv. apply lookup_lt_is_Some_2 in Hv as [c Hc].
  unfold color_of. by rewrite Hc.
Qed.

Lemma lookup_recolor (cs : list color) v w c c' : cs !! v ≠ Some c → v < length cs →
  <[v := c']> cs !! w = Some c ↔ c' = c ∧ w = v ∨ cs !! w = Some c.
Proof.
  intros Hne Hv. destruct (decide (w = v)) as [->|Hw].
  - rewrite list_lookup_insert_eq by done. naive_solver.
  - rewrite list_lookup_insert_ne by done. naive_solver.
Qed.

(** Closing the top frame. *)
Lemma dfs_close s fin f fs : dinv s fin → stack s = f :: fs → out_of g (fstep f) !! fnext f = None →
  dinv (mkDfs (<[fstep f := black]> (colors s)) fs (findings s)) (fstep f :: fin).
Proof.
  intros D Es Eo. pose proof (di_frames _ _ D) as F. pose proof (di_nodup _ _ D) as N.
  assert (fstep f < n) as Hf by (apply (gray_range s fin _ D); rewrite Es; set_solver).
  assert (colors s !! fstep f = Some gray) as Hg by (apply (di_gray _ _ D); rewrite Es; set_solver).
  assert (∀ v, v ∈ fin ↔ colors s !! v = Some black) as Hb by (intros; symmetry; apply D).
  rewrite Es in F, N. cbn in F, N. apply NoDup_cons in N as [N1 N2]. destruct F as (F1 & F2 & _ & F4).
  apply lookup_ge_None in Eo. rewrite <-(di_len _ _ D) in Hf.
  split; cbn.
  - rewrite length_insert. apply D.
  - intros v. destruct (decide (v = fstep f)) as [->|Hne].
    + rewrite list_lookup_insert_eq by done. split; [done|]. by intros ?%N1.
    + rewrite list_lookup_insert_ne by done. rewrite (di_gray _ _ D), Es. set_solver.
  - intros v. rewrite lookup_recolor, elem_of_cons, Hb by (done || congruence). naive_solver.
  - done.
  - apply NoDup_cons. split; [|apply D]. rewrite Hb. congruence.
  - intros [|x l1] v l2 E e He; cbn in E; injection E as Ex E; [|by eapply (di_fin _ _ D)]. subst v l2.
    apply list_elem_of_lookup in He as [i Hi]. destruct (F1 i e) as [?|[?|?]]; auto; [|done].
    apply lookup_lt_Some in Hi. lia.
  - eapply frames_pop; [apply list_elem_of_here|]. by eapply frames_mono; [| |exact F4]; set_solver.
  - apply D.
Qed.

(** Following an edge to a finished step. *)
Lemma dfs_skip s fin f fs e : dinv s fin → stack s = f :: fs → out_of g (fstep f) !! fnext f = Some e →
  toIdx g e ∈ fin → dinv (mkDfs (colors s) (mkFrame (fstep f) (S (fnext f)) :: fs) (findings s)) fin.
Proof.
  intros D Es Eo Hb. destruct D as [D1 D2 D3 D4 D5 D6 D7 D8]. rewrite Es in *. split; cbn; try done.
  by apply (frames_advance _ _ None f fs e); [done|left|done|].
Qed.

(** Following an edge to a new step. *)
Lemma dfs_enter s fin f fs e : dinv s fin → stack s = f :: fs → out_of g (fstep f) !! fnext f = Some e →
  colors s !! toIdx g e = Some white →
  dinv (mkDfs (<[toIdx g e := gray]> (colors s))
         (mkFrame (toIdx g e) 0 :: mkFrame (fstep f) (S (fnext f)) :: fs) (findings s)) fin.
Proof.
  intros D Es Eo Hw. pose proof (lookup_lt_Some _ _ _ Hw) as Hlt.
  destruct D as [D1 D2 D3 D4 D5 D6 D7 D8]. rewrite Es in *.
  assert (toIdx g e ∉ fstep <$> f :: fs) as Hne by (rewrite <-D2; congruence).
  split; cbn.
  - by rewrite length_insert.
  - intros v. rewrite lookup_recolor, D2 by (done || congruence). cbn. set_solver.
  - intros v. rewrite lookup_recolor, D3 by (done || congruence). naive_solver.
  - apply NoDup_cons. split; [exact Hne|]. exact D4.
  - done.
  - done.
  - split; [intros; lia|]. split; [lia|]. split; [done|].
    apply (frames_advance _ _ (Some (toIdx g e)) f fs e); [done|auto|by intros a [= ->]|done].
  - done.
Qed.

(** Following an edge to a step of the stack: a cycle. *)
Lemma dfs_report s fin f fs e : dinv s fin → stack s = f :: fs → out_of g (fstep f) !! fnext f = Some e →
  toIdx g e ∈ fstep <$> stack s → let st := mkFrame (fstep f) (S (fnext f)) :: fs in
  dinv (mkDfs (colors s) st (findings s ++ [mkCycleFinding e
    ((λ i, ID (step_at g i)) <$> (path_from (toIdx g e) (reverse st) ++ [toIdx g e]))])) fin.
Proof.
  intros D Es Eo Ht st. assert (fstep f < n) as Hf by (apply (gray_range s fin _ D); rewrite Es; set_solver).
  assert (fstep <$> st = fstep <$> stack s) as Est by (rewrite Es; done).
  destruct D as [D1 D2 D3 D4 D5 D6 D7 D8].
  assert (found_mono : edgeIdx <$> findings s ⊆ edgeIdx <$> (findings s ++ [mkCycleFinding e
    ((λ i, ID (step_at g i)) <$> (path_from (toIdx g e) (reverse st) ++ [toIdx g e]))]))
    by (rewrite fmap_app; set_solver).
  split; cbn [colors stack findings]; rewrite ?Est; try done.
  - intros l1 v l2 E x Hx. destruct (D6 l1 v l2 E x Hx); auto.
  - rewrite Es in D7. apply (frames_advance _ _ None f fs e); [done| |done|].
    + right. left. rewrite fmap_app. apply elem_of_app. right. by left.
    + by eapply frames_mono; [| |exact D7].
  - intros c [Hc| ->%list_elem_of_singleton]%elem_of_app; [by apply D8|].
    destruct (path_from_suffix (toIdx g e) (reverse st)) as (pre & E1 & E2).
    { rewrite fmap_reverse, Est. by apply elem_of_reverse. }
    assert (chain (fstep <$> reverse st) ∧ NoDup (fstep <$> reverse st)) as [Hc Hn].
    { rewrite fmap_reverse, Est. split; [by eapply stack_chain|by rewrite reverse_Permutation]. }
    assert (last (fstep <$> reverse st) = Some (fstep f)) as Hl
      by (rewrite fmap_reverse; unfold st; by rewrite fmap_cons, reverse_cons, last_snoc).
    rewrite E1 in Hc, Hn, Hl. exists (path_from (toIdx g e) (reverse st)), (toIdx g e), (fstep f).
    split_and!; try done.
    + destruct (path_from _ _) eqn:Ep; [done|]. by rewrite last_app_cons in Hl.
    + by eapply list_elem_of_lookup_2.
    + by eapply chain_suffix.
    + by apply NoDup_app in Hn as (_ & _ & ?).
Qed.

Lemma dfs_step_inv s fin : dinv s fin → stack s ≠ [] → ∃ fin', dinv (dfs_step g s) fin'.
Proof.
  intros D Hs. destruct (stack s) as [|f fs] eqn:Es; [done|]. unfold dfs_step. rewrite Es.
  destruct (out_of g (fstep f) !! fnext f) as [e|] eqn:Eo; [|eexists; by eapply dfs_close].
  assert (toIdx g e < n) as Ht by (eapply arc_range; exists e; split; [by eapply list_elem_of_lookup_2|done]).
  pose proof (color_cases s fin _ D Ht) as Hc. destruct (color_of (colors s) (toIdx g e)).
  - eexists. by eapply dfs_enter.
  - eexists. eapply dfs_report; [done..|]. by apply (di_gray _ _ D).
  - eexists. eapply dfs_skip; [done..|]. by apply (di_black _ _ D).
Qed.

(** *** Termination: out-edges not yet followed, and steps not yet closed *)

Fixpoint whites (k : nat) (cs : list color) : nat :=
  match cs with
  | [] => 0
  | c :: cs' => (if decide (c = white) then S (length (out_of g k)) else 0) + whites (S k) cs'
  end.
Definition left_of (f : frame) : nat := S (length (out_of g (fstep f)) - fnext f).
Definition work_left (s : Dfs) : nat := whites 0 (colors s) + sum_list_with left_of (stack s).

Lemma whites_insert cs : ∀ k v c c', cs !! v = Some c → c' ≠ white →
  whites k (<[v := c']> cs) + (if decide (c = white) then S (length (out_of g (k + v))) else 0) = whites k cs.
Proof.
  induction cs as [|x cs IH]; intros k [|v] c c' Hv Hc'; cbn in *; try done.
  - injection Hv as ->. rewrite Nat.add_0_r. repeat case_decide; (done || lia).
  - specialize (IH (S k) v c c' Hv Hc'). replace (S k + v) with (k + S v) in IH by lia. by rewrite <-IH, Nat.add_assoc.
Qed.

Lemma whites_enter cs v : cs !! v = Some white →
  whites 0 (<[v := gray]> cs) + S (length (out_of g v)) = whites 0 cs.
Proof. intros Hv. by rewrite <-(whites_insert cs 0 v white gray Hv) by done. Qed.
Lemma whites_close cs v : cs !! v = Some gray → whites 0 (<[v := black]> cs) = whites 0 cs.
Proof. intros Hv. rewrite <-(whites_insert cs 0 v gray black Hv) by done. by rewrite decide_False, Nat.add_0_r. Qed.

Lemma dfs_step_work s fin : dinv s fin → stack s ≠ [] → work_left (dfs_step g s) < work_left s.
Proof.
  intros D Hs. destruct (stack s) as [|f fs] eqn:Es; [done|]. unfold dfs_step. rewrite Es.
  pose proof (di_frames _ _ D) as F. rewrite Es in F. destruct F as (_ & Hle & _).
  assert (colors s !! fstep f = Some gray) as Hg by (apply (di_gray _ _ D); rewrite Es; set_solver).
  unfold work_left at 2. rewrite Es. cbn [sum_list_with]. unfold left_of at 1.
  destruct (out_of g (fstep f) !! fnext f) as [e|] eqn:Eo.
  - pose proof (lookup_lt_Some _ _ _ Eo).
    assert (toIdx g e < n) as Ht by (eapply arc_range; exists e; split; [by eapply list_elem_of_lookup_2|done]).
    pose proof (color_cases s fin _ D Ht) as Hc. destruct (color_of (colors s) (toIdx g e));
      unfold work_left; cbn [colors stack sum_list_with]; unfold left_of at 1; cbn [fstep fnext]; try lia.
    pose proof (whites_enter (colors s) _ Hc) as E.
    unfold left_of at 1. cbn [fstep fnext]. lia.
  - unfold work_left. cbn [colors stack].
    rewrite (whites_close (colors s) _ Hg). lia.
Qed.

Lemma dfs_loop_end fuel : ∀ s fin, dinv s fin → work_left s ≤ fuel →
  ∃ fin', dinv (dfs_loop g fuel s) fin' ∧ stack (dfs_loop g fuel s) = [].
Proof.
  induction fuel as [|fuel IH]; intros s fin D Hw.
  - exists fin. split; [done|]. cbn. unfold work_left in Hw. destruct (stack s); [done|]. cbn in Hw. lia.
  - cbn. destruct (stack s) as [|f fs] eqn:Es; [by exists fin|].
    destruct (dfs_step_inv s fin D) as [fin' D']; [by rewrite Es|].
    apply (IH _ fin' D'). pose proof (dfs_step_work s fin D). rewrite Es in *. specialize (H ltac:(done)). lia.
Qed.

Lemma whites_bound cs : ∀ k, whites k cs ≤ whites k (replicate (length cs) white).
Proof.
  induction cs as [|c cs IH]; intros k; cbn; [done|]. specialize (IH (S k)). repeat case_decide; (done || lia).
Qed.
Lemma whites_all l : ∀ k, k + length l = length (outNormal g) → drop k (outNormal g) = l →
  whites k (replicate (length l) white) = length l + sum_list_with length l.
Proof.
  induction l as [|r l IH]; intros k Hk Hd; cbn; [done|].
  assert (outNormal g !! k = Some r) as Hr by (rewrite <-(Nat.add_0_r k), <-lookup_drop, Hd; done).
  rewrite IH; [|cbn in Hk; lia|by rewrite <-Nat.add_1_r, <-drop_drop, Hd].
  rewrite decide_True by done. unfold out_of. rewrite Hr. cbn. lia.
Qed.
Lemma dfs_fuel_enough cs : length cs = n → whites 0 cs ≤ dfs_fuel g.
Proof.
  intros Hl. etrans; [apply whites_bound|]. rewrite Hl. unfold dfs_fuel. rewrite (go_def _ _ G).
  rewrite <-(go_out_len _ _ G). rewrite (whites_all (outNormal g) 0); [done|lia|done].
Qed.

(** A step that was entered stays entered. *)
Lemma recolor_entered cs v c w : c ≠ white → color_of cs w ≠ white → color_of (<[v := c]> cs) w ≠ white.
Proof.
  intros Hc Hw. unfold color_of in *. destruct (decide (v = w)) as [->|Hne]; [|by rewrite list_lookup_insert_ne].
  destruct (decide (w < length cs)); [by rewrite list_lookup_insert_eq|by rewrite list_insert_ge by lia].
Qed.
Lemma dfs_loop_entered fuel : ∀ s v, color_of (colors s) v ≠ white →
  color_of (colors (dfs_loop g fuel s)) v ≠ white.
Proof.
  induction fuel as [|fuel IH]; intros s v Hv; [done|]. cbn. destruct (stack s) as [|f fs] eqn:Es; [done|].
  apply IH. unfold dfs_step. rewrite Es. destruct (_ !! _) as [e|]; [|by apply recolor_entered].
  destruct (color_of (colors s) (toIdx g e)); [by apply recolor_entered|done|done].
Qed.

(** Starting at a root, on an empty stack. *)
Lemma dfs_root_inv s fin root : dinv s fin → stack s = [] → root < n →
  ∃ fin', dinv (dfs_root g s root) fin' ∧ stack (dfs_root g s root) = [] ∧
    ∀ v, v = root ∨ color_of (colors s) v ≠ white → color_of (colors (dfs_root g s root)) v ≠ white.
Proof.
  intros D Es Hr. unfold dfs_root. pose proof (color_cases s fin root D Hr) as Hc. case_decide as Hw.
  - rewrite Hw in Hc. set (s0 := mkDfs _ _ _). assert (dinv s0 fin) as D0.
    { destruct D as [D1 D2 D3 D4 D5 D6 D7 D8]. rewrite Es in *. split; cbn; try done.
      - by rewrite length_insert.
      - intros v. rewrite lookup_recolor, D2 by (congruence || by rewrite D1). cbn. set_solver.
      - intros v. rewrite lookup_recolor, D3 by (congruence || by rewrite D1). naive_solver.
      - apply NoDup_singleton.
      - split_and!; [intros; lia|lia|done|done]. }
    destruct (dfs_loop_end (dfs_fuel g) s0 fin D0) as (fin' & D' & Es').
    { etrans; [|apply (dfs_fuel_enough (colors s)), D]. unfold work_left, s0. cbn.
      pose proof (whites_enter (colors s) root Hc) as E.
      unfold left_of. cbn. lia. }
    exists fin'. split_and!; [done..|]. intros v Hv. apply dfs_loop_entered. unfold s0. cbn.
    destruct Hv as [->|Hv]; [|by apply recolor_entered].
    unfold color_of. by rewrite list_lookup_insert_eq by (by rewrite (di_len _ _ D)).
  - exists fin. split_and!; [done..|]. by intros v [->|?].
Qed.

Lemma dfs_roots_inv l : ∀ s fin, dinv s fin → stack s = [] → (∀ v, v ∈ l → v < n) →
  ∃ fin', dinv (foldl (dfs_root g) s l) fin' ∧ stack (foldl (dfs_root g) s l) = [] ∧
    ∀ v, v ∈ l ∨ color_of (colors s) v ≠ white → color_of (colors (foldl (dfs_root g) s l)) v ≠ white.
Proof.
  induction l as [|r l IH]; intros s fin D Es Hl; cbn.
  - exists fin. split_and!; [done..|]. by intros v [?%not_elem_of_nil|?].
  - destruct (dfs_root_inv s fin r D Es) as (f1 & D1 & E1 & W1); [set_solver|].
    destruct (IH _ f1 D1 E1) as (f2 & D2 & E2 & W2); [set_solver|]. exists f2. split_and!; [done..|].
    intros v [[->|Hv]%elem_of_cons|Hv]; apply W2; auto.
Qed.

(** What the search returns: every finding is a cycle, and the steps can be
    listed so that every edge that is not reported points further down. *)
Lemma findCycles_spec : (∀ c, c ∈ findCycles g → cycle_finding c) ∧
  ∃ fin, NoDup fin ∧ (∀ v, v < n → v ∈ fin) ∧
    ∀ l1 v l2, fin = l1 ++ v :: l2 → ∀ e, e ∈ out_of g v → toIdx g e ∈ l2 ∨ e ∈ edgeIdx <$> findCycles g.
Proof.
  unfold findCycles. rewrite (go_def _ _ G). set (s0 := mkDfs (replicate n white) [] []).
  assert (dinv s0 []) as D0.
  { split; cbn; try done; try apply NoDup_nil_2.
    - apply length_replicate.
    - intros v. rewrite lookup_replicate. set_solver.
    - intros v. rewrite lookup_replicate. set_solver.
    - by intros [] v l2 E.
    - by intros c ?%not_elem_of_nil. }
  destruct (dfs_roots_inv (seq 0 n) s0 [] D0 eq_refl) as (fin & D & Es & W).
  { intros v ?%elem_of_seq. lia. }
  split; [apply D|]. exists fin. split_and!; [apply D| |apply D].
  intros v Hv. apply (di_black _ _ D). pose proof (color_cases _ _ v D Hv) as Hc.
  destruct (color_of _ _) eqn:Ec; [|by apply (di_gray _ _ D) in Hc; rewrite Es in Hc; apply not_elem_of_nil in Hc|done].
  exfalso. revert Ec. apply W. left. apply elem_of_seq. lia.
Qed.
End dfs.
