(* ===== verification/Validate.v ===== *)
(** internal/dag/validate.go and mapvalidate.go: the structural validation of a
    definition, with the grammars it shares with the blackboard
    (internal/blackboard) and the plan edge rules of expansion.go.

    An issue is its code, severity and JSON path; the message text is left out.
    Every check returns the issues it adds, in order. *)
From Stdlib Require Import QArith Ascii.
From S2P Require Import Prelude Issues GoStd Retry StoreModel Config Template Feedback Dag GraphFacts Cycles.
Open Scope Z_scope.

(** ** Issues *)

Definition add (c : ValidationCode) (path : string) : list ValidationIssue := [mkIssue c SeverityError path].
Definition warn (c : ValidationCode) (path : string) : list ValidationIssue := [mkIssue c SeverityWarning path].
Definition add_if (b : bool) (c : ValidationCode) (path : string) : list ValidationIssue :=
  if b then add c path else [].
(** validator.has, validator.err. *)
Definition has (codes : list ValidationCode) (issues : list ValidationIssue) : bool :=
  existsb (λ i, bool_decide (Code i ∈ codes)) issues.
Definition err (issues : list ValidationIssue) : list ValidationIssue :=
  List.filter (λ i, bool_decide (issue_Severity i = SeverityError)) issues.

(** [for i, x := range l]. *)
Definition for_range {A} (l : list A) (f : nat → A → list ValidationIssue) : list ValidationIssue :=
  concat (imap f l).

Definition empty_str (s : string) : bool := bool_decide (s = "").
Definition is_type (t : string) (s : Step) : bool := bool_decide (Type_ s = t).

(** ** Limits and grammars *)

Definition MaxEdges : Z := 20000.
Definition MaxNameLen : Z := 128.
Definition MaxExprLen : Z := 1024.
Definition MaxLoopIterations : Z := 100.
Definition MaxRetryAttempts : Z := 100.
Definition MaxBackoffInitial : Z := Hour.
Definition MaxBackoffCap : Z := 24 * Hour.
Definition MaxBackoffMultiplier : Q := 100%Q.
Definition MaxStepTimeout : Z := 24 * Hour.
Definition MaxRunWallClock : Z := 30 * 24 * Hour.
Definition MaxApprovalTimeout : Z := 30 * 24 * Hour.
Definition MaxCacheTTL : Z := 30 * 24 * Hour.
Definition MaxSummaryTimeout : Z := 10 * Minute.
Definition MaxValidators : Z := 16.
Definition MaxSemanticAttempts : Z := 10.
Definition MaxBlackboardWrites : Z := 16.
Definition MaxContextSources : Z := 32.
Definition MaxContextTopK : Z := 100.
Definition MaxCompactionStrategies : Z := 8.
Definition zlen {A} (l : list A) : Z := Z.of_nat (length l).
Definition slen (s : string) : Z := Z.of_nat (String.length s).

(** pluginNameRe: [^[a-z][a-z0-9_]*$] *)
Definition pluginNameRe (s : string) : bool :=
  match s with String c s' => is_lower c && all_chars suffix_char s' | EmptyString => false end.

(** checkJSONPointer. *)
Fixpoint pointer_escapes (s : string) : bool :=
  match s with
  | EmptyString => true
  | String c s' =>
      if bool_decide (c = "~"%char) then
        match s' with
        | String c' s'' => (bool_decide (c' = "0"%char) || bool_decide (c' = "1"%char)) && pointer_escapes s''
        | EmptyString => false
        end
      else pointer_escapes s'
  end.
Definition checkJSONPointer (s : string) : bool :=
  empty_str s || (HasPrefix s "/" && pointer_escapes s).

(** blackboard.ValidateKey and NormalizeTags. *)
Definition key_char (c : ascii) : bool :=
  is_upper c || is_lower c || is_digit c || bool_decide (c = "_"%char) || bool_decide (c = "-"%char).
Definition ValidateKey (key : string) : bool :=
  negb (empty_str key) && (slen key <=? 128) && all_chars key_char key.
Definition tag_char (c : ascii) : bool :=
  is_lower c || is_digit c || bool_decide (c = "_"%char) || bool_decide (c = "."%char) ||
  bool_decide (c = ":"%char) || bool_decide (c = "-"%char).
Definition valid_tag (t : string) : bool := negb (empty_str t) && (slen t <=? 64) && all_chars tag_char t.
Definition NormalizeTags (tags : list string) : option (list string) :=
  if (zlen tags <=? 32) && forallb valid_tag tags
  then Some (merge_sort String.le (elements (list_to_set tags : gset string))) else None.
Definition bad_tags (tags : list string) : bool :=
  negb (bool_decide (tags = [])) && bool_decide (NormalizeTags tags = None).

(** jsonTypeOf(raw) != "object". *)
Definition not_object (doc : json) : bool := match doc with JObj _ => false | _ => true end.

(** A duration that is positive and at most [bound]. *)
Definition check_duration (c : ValidationCode) (path val : string) (bound : Z) : list ValidationIssue :=
  match ParseDuration val with
  | None => add c path
  | Some d => if d <=? 0 then add c path else add_if (bound <? d) c path
  end.

(** ** Document level *)

Definition checkLimits (d : Definition_) : list ValidationIssue :=
  add_if (MaxSteps <? zlen (Steps d)) CodeLimitExceeded "steps" ++
  add_if (MaxEdges <? zlen (Edges d)) CodeLimitExceeded "edges" ++
  add_if (MaxNameLen <? slen (Name d)) CodeLimitExceeded "name".

Definition checkMaxWallClock (val : string) : list ValidationIssue :=
  if empty_str val then [] else check_duration CodeMaxWallClockInvalid "max_wall_clock" val MaxRunWallClock.

Definition checkRunBudget (d : Definition_) : list ValidationIssue :=
  add_if (match BudgetUSD d with Some b => Qle_bool b 0 | None => false end) CodeBudgetFieldInvalid "budget_usd" ++
  add_if (negb (empty_str (OnBudgetExceeded d)) && bool_decide (BudgetUSD d = None))
    CodeBudgetFieldInvalid "on_budget_exceeded".

Definition checkExpansion (d : Definition_) : list ValidationIssue :=
  let caps := Resolve (Expansion d) in
  (match Expansion d with
   | None => []
   | Some p =>
       let positive f v := add_if (match v with Some n => n <? 1 | None => false end)
                             CodeExpansionFieldInvalid ("expansion." +:+ f) in
       positive "max_added_steps" (xp_MaxAddedSteps p) ++ positive "max_total_steps" (xp_MaxTotalSteps p) ++
       positive "max_expansions" (xp_MaxExpansions p) ++ positive "max_depth" (xp_MaxDepth p) ++
       add_if (match xp_MaxTotalSteps p with Some n => MaxSteps <? n | None => false end)
         CodeExpansionFieldInvalid "expansion.max_total_steps" ++
       add_if (match xp_MaxAddedSteps p with Some n => (1 <=? n) && (MaxTotalSteps caps <? n) | None => false end)
         CodeExpansionFieldInvalid "expansion.max_added_steps"
   end) ++
  for_range (Steps d) (λ i s,
    if is_type StepPlanner s then
      match Config s with
      | Some (PlannerConfigC c) =>
          let path := at_index "steps" i +:+ ".config.max_added_steps" in
          if pn_MaxAddedSteps c =? 0 then []
          else if pn_MaxAddedSteps c <? 0 then add CodeConfigFieldInvalid path
          else add_if (MaxAddedStepsPerExpansion caps <? pn_MaxAddedSteps c) CodeConfigFieldInvalid path
      | _ => []
      end
    else []).

(** ** Envelope blocks *)

Definition checkTimeout (path val : string) : list ValidationIssue :=
  if empty_str val then [] else check_duration CodeTimeoutFieldInvalid (path +:+ ".timeout") val MaxStepTimeout.

(** checkBackoffDuration: the issues, and the parsed duration or 0. *)
Definition checkBackoffDuration (path val : string) (bound : Z) : list ValidationIssue * Z :=
  if empty_str val then (add CodeRetryFieldRequired path, 0)
  else match ParseDuration val with
       | None => (add CodeRetryFieldInvalid path, 0)
       | Some d => if d <=? 0 then (add CodeRetryFieldInvalid path, 0)
                   else if bound <? d then (add CodeRetryFieldInvalid path, 0) else ([], d)
       end.

Fixpoint check_retry_on (path : string) (i : nat) (l : list ErrorClass) (seen : list ErrorClass) : list ValidationIssue :=
  match l with
  | [] => []
  | c :: l' =>
      let entry := at_index (path +:+ ".retry_on") i in
      if bool_decide (c ∈ seen) then add CodeRetryFieldInvalid entry ++ check_retry_on path (S i) l' seen
      else (match c with
            | ClassTransient | ClassTimeout => []
            | ClassValidationFailed | ClassPermanent | ClassCancelled => add CodeRetryFieldInvalid entry
            end) ++ check_retry_on path (S i) l' (c :: seen)
  end.

Definition checkRetry (path : string) (rp : option RetryPolicy) : list ValidationIssue :=
  match rp with
  | None => []
  | Some rp =>
      let path := path +:+ ".retry" in
      add_if ((MaxAttempts rp <? 0) || (MaxRetryAttempts <? MaxAttempts rp)) CodeRetryFieldInvalid (path +:+ ".max_attempts") ++
      add_if (negb (empty_str (Jitter rp)) && negb (bool_decide (Jitter rp ∈ [JitterFull; JitterNone])))
        CodeRetryFieldInvalid (path +:+ ".jitter") ++
      (match Backoff rp with
       | None => []
       | Some b =>
           let '(is1, initial) := checkBackoffDuration (path +:+ ".backoff.initial") (Initial b) MaxBackoffInitial in
           let '(is2, ceiling) := checkBackoffDuration (path +:+ ".backoff.cap") (Cap b) MaxBackoffCap in
           is1 ++ is2 ++
           add_if ((0 <? initial) && (0 <? ceiling) && (ceiling <? initial)) CodeRetryFieldInvalid (path +:+ ".backoff.cap") ++
           add_if (negb (Qeq_bool (Multiplier b) 0) &&
                   (negb (Qle_bool 1 (Multiplier b)) || negb (Qle_bool (Multiplier b) MaxBackoffMultiplier)))
             CodeRetryFieldInvalid (path +:+ ".backoff.multiplier")
       end) ++
      add_if (bool_decide (RetryOn rp = Some [])) CodeRetryFieldInvalid (path +:+ ".retry_on") ++
      check_retry_on path 0 (default [] (RetryOn rp)) []
  end.

Definition checkCache (path : string) (cp : option CachePolicy) : list ValidationIssue :=
  match cp with
  | None => []
  | Some cp =>
      let path := path +:+ ".cache" in
      add_if (empty_str (cp_Mode cp)) CodeCacheFieldRequired (path +:+ ".mode") ++
      (if empty_str (cp_TTL cp) then []
       else check_duration CodeCacheFieldInvalid (path +:+ ".ttl") (cp_TTL cp) MaxCacheTTL)
  end.

Definition checkStepBudget (path st : string) (b : option StepBudget) : list ValidationIssue :=
  match b with
  | None => []
  | Some b =>
      let path := path +:+ ".budget" in
      add_if (bool_decide (sb_MaxUSD b = None) && (sb_MaxTokens b =? 0)) CodeBudgetFieldRequired path ++
      add_if (match sb_MaxUSD b with Some q => Qle_bool q 0 | None => false end)
        CodeBudgetFieldInvalid (path +:+ ".max_usd") ++
      add_if (sb_MaxTokens b <? 0) CodeBudgetFieldInvalid (path +:+ ".max_tokens") ++
      add_if ((0 <? sb_MaxTokens b) && negb (bool_decide (st = StepLLM)) && negb (bool_decide (st = StepPlanner)))
        CodeBudgetFieldInvalid (path +:+ ".max_tokens")
  end.

Fixpoint check_writes (path : string) (i : nat) (l : list BlackboardWrite) (seen : list string) : list ValidationIssue :=
  match l with
  | [] => []
  | w :: l' =>
      let entry := at_index (path +:+ ".write") i in
      let dup := bool_decide (bbw_Key w ∈ seen) in
      let bad := negb (ValidateKey (bbw_Key w)) in
      add_if (bad || dup) CodeBlackboardFieldInvalid (entry +:+ ".key") ++
      add_if (negb (empty_str (bbw_From w)) && negb (checkJSONPointer (bbw_From w)))
        CodeBlackboardFieldInvalid (entry +:+ ".from") ++
      add_if (bad_tags (bbw_Tags w)) CodeBlackboardFieldInvalid (entry +:+ ".tags") ++
      check_writes path (S i) l' (if bad || dup then seen else bbw_Key w :: seen)
  end.
Definition checkBlackboard (path : string) (bp : option BlackboardPolicy) : list ValidationIssue :=
  match bp with
  | None => []
  | Some bp =>
      let path := path +:+ ".blackboard" in
      if bool_decide (length (bp_Write bp) = 0%nat) then add CodeBlackboardFieldRequired (path +:+ ".write")
      else add_if (MaxBlackboardWrites <? zlen (bp_Write bp)) CodeBlackboardFieldInvalid (path +:+ ".write") ++
           check_writes path 0 (bp_Write bp) []
  end.

(** *** Context assembly *)

Definition checkSummarizeStrategy (entry : string) (st : CompactionStrategy) : list ValidationIssue :=
  add_if (empty_str (cs_Model st)) CodeContextFieldRequired (entry +:+ ".model") ++
  add_if (negb (empty_str (cs_Key st)) && negb (ValidateKey (cs_Key st))) CodeContextFieldInvalid (entry +:+ ".key") ++
  add_if (match cs_MaxTokens st with Some n => n <? 1 | None => false end)
    CodeContextFieldInvalid (entry +:+ ".max_tokens") ++
  (if empty_str (cs_Timeout st) then []
   else check_duration CodeContextFieldInvalid (entry +:+ ".timeout") (cs_Timeout st) MaxSummaryTimeout).

(** One strategy, the duplicate check apart. *)
Definition check_strategy (entry : string) (st : CompactionStrategy) : list ValidationIssue :=
  let k := cs_Strategy st in
  let foreign b owner f :=
    add_if (b && negb (bool_decide (k = owner))) CodeContextFieldInvalid (entry +:+ "." +:+ f) in
  (if bool_decide (k = SlidingWindow) then
     match cs_N st with
     | None => add CodeContextFieldRequired (entry +:+ ".n")
     | Some n => add_if (n <? 1) CodeContextFieldInvalid (entry +:+ ".n")
     end
   else if bool_decide (k = TruncateOldest) then
     add_if (match cs_MinTokens st with Some n => n <? 0 | None => false end)
       CodeContextFieldInvalid (entry +:+ ".min_tokens")
   else if bool_decide (k = SummarizeStrategy) then checkSummarizeStrategy entry st
   else []) ++
  foreign (bool_decide (is_Some (cs_N st))) SlidingWindow "n" ++
  foreign (bool_decide (is_Some (cs_MinTokens st))) TruncateOldest "min_tokens" ++
  foreign (negb (empty_str (cs_Model st))) SummarizeStrategy "model" ++
  foreign (negb (empty_str (cs_Key st))) SummarizeStrategy "key" ++
  foreign (bool_decide (is_Some (cs_MaxTokens st))) SummarizeStrategy "max_tokens" ++
  foreign (negb (empty_str (cs_Timeout st))) SummarizeStrategy "timeout".

Fixpoint check_strategies (path : string) (i : nat) (l : list CompactionStrategy) (seen : list string) : list ValidationIssue :=
  match l with
  | [] => []
  | st :: l' =>
      let entry := at_index (path +:+ ".compaction") i in
      if empty_str (cs_Strategy st)
      then add CodeContextFieldRequired (entry +:+ ".strategy") ++ check_strategies path (S i) l' seen
      else check_strategy entry st ++
           add_if (bool_decide (cs_Strategy st ∈ seen)) CodeContextFieldInvalid (entry +:+ ".strategy") ++
           check_strategies path (S i) l' (cs_Strategy st :: seen)
  end.
Definition checkCompaction (path : string) (cs : ContextSpec) : list ValidationIssue :=
  add_if (match ctx_BudgetTokens cs with Some n => n <? 1 | None => false end)
    CodeContextFieldInvalid (path +:+ ".budget_tokens") ++
  add_if (MaxCompactionStrategies <? zlen (ctx_Compaction cs)) CodeContextFieldInvalid (path +:+ ".compaction") ++
  check_strategies path 0 (ctx_Compaction cs) [].

(** forbidContextFields: is the named field set? *)
Definition field_set (src : ContextSource) (f : string) : bool :=
  if bool_decide (f = "step") then negb (empty_str (src_Step src))
  else if bool_decide (f = "path") then negb (empty_str (src_Path src))
  else if bool_decide (f = "key") then negb (empty_str (src_Key src))
  else if bool_decide (f = "tags") then negb (bool_decide (src_Tags src = []))
  else if bool_decide (f = "retriever") then negb (empty_str (src_Retriever src))
  else if bool_decide (f = "query") then negb (empty_str (src_Query src))
  else if bool_decide (f = "top_k") then bool_decide (is_Some (src_TopK src))
  else if bool_decide (f = "text") then negb (empty_str (src_Text src))
  else bool_decide (f = "role") && negb (empty_str (src_Role src)).
Definition forbidContextFields (entry : string) (src : ContextSource) (fields : list string) : list ValidationIssue :=
  concat ((λ f, add_if (field_set src f) CodeContextFieldInvalid (entry +:+ "." +:+ f)) <$> fields).

Definition check_source_kind (entry : string) (src : ContextSource) : list ValidationIssue :=
  let k := src_Kind src in
  let bad_key := negb (empty_str (src_Key src)) && negb (ValidateKey (src_Key src)) in
  if empty_str k then add CodeContextFieldRequired (entry +:+ ".kind")
  else if bool_decide (k = SourceStepOutput) then
    add_if (empty_str (src_Step src)) CodeContextFieldRequired (entry +:+ ".step") ++
    add_if (negb (empty_str (src_Path src)) && negb (checkJSONPointer (src_Path src)))
      CodeContextFieldInvalid (entry +:+ ".path") ++
    forbidContextFields entry src ["key"; "tags"; "retriever"; "query"; "top_k"; "text"; "role"]
  else if bool_decide (k = SourceBlackboard) then
    let no_tags := bool_decide (src_Tags src = []) in
    (if empty_str (src_Key src) && no_tags then add CodeContextFieldRequired entry
     else add_if (negb (empty_str (src_Key src)) && negb no_tags) CodeContextFieldInvalid entry) ++
    add_if bad_key CodeContextFieldInvalid (entry +:+ ".key") ++
    add_if (bad_tags (src_Tags src)) CodeContextFieldInvalid (entry +:+ ".tags") ++
    forbidContextFields entry src ["step"; "path"; "retriever"; "query"; "top_k"; "text"; "role"]
  else if bool_decide (k = SourceRetrieval) then
    (if empty_str (src_Retriever src) then add CodeContextFieldRequired (entry +:+ ".retriever")
     else add_if (negb (pluginNameRe (src_Retriever src))) CodeContextFieldInvalid (entry +:+ ".retriever")) ++
    add_if (empty_str (src_Query src)) CodeContextFieldRequired (entry +:+ ".query") ++
    add_if (match src_TopK src with Some n => (n <? 0) || (MaxContextTopK <? n) | None => false end)
      CodeContextFieldInvalid (entry +:+ ".top_k") ++
    forbidContextFields entry src ["step"; "path"; "key"; "tags"; "text"; "role"]
  else if bool_decide (k = SourceLiteral) then
    add_if (empty_str (src_Text src)) CodeContextFieldRequired (entry +:+ ".text") ++
    forbidContextFields entry src ["step"; "path"; "key"; "tags"; "retriever"; "query"; "top_k"; "role"]
  else if bool_decide (k = SourceThread) then
    add_if bad_key CodeContextFieldInvalid (entry +:+ ".key") ++
    forbidContextFields entry src ["step"; "path"; "tags"; "retriever"; "query"; "top_k"; "text"]
  else [].
Definition checkContextSource (entry : string) (src : ContextSource) : list ValidationIssue :=
  add_if (src_Pinned src && bool_decide (is_Some (src_MaxTokens src))) CodeContextFieldInvalid (entry +:+ ".max_tokens") ++
  add_if (match src_MaxTokens src with Some n => n <? 1 | None => false end)
    CodeContextFieldInvalid (entry +:+ ".max_tokens") ++
  add_if (HasTemplate (src_Text src)) CodeContextFieldInvalid (entry +:+ ".text") ++
  add_if (HasTemplate (src_Query src)) CodeContextFieldInvalid (entry +:+ ".query") ++
  check_source_kind entry src.

Fixpoint check_sources (path : string) (i : nat) (l : list ContextSource) (seen : list string) : list ValidationIssue :=
  match l with
  | [] => []
  | src :: l' =>
      let entry := at_index (path +:+ ".sources") i in
      let named := negb (empty_str (src_Name src)) in
      add_if (named && bool_decide (src_Name src ∈ seen)) CodeContextFieldInvalid (entry +:+ ".name") ++
      checkContextSource entry src ++
      check_sources path (S i) l' (if named then src_Name src :: seen else seen)
  end.
Definition checkContext (path : string) (s : Step) : list ValidationIssue :=
  match Context_ s with
  | None => []
  | Some cs =>
      let path := path +:+ ".context" in
      if bool_decide (length (ctx_Sources cs) = 0%nat) then add CodeContextFieldRequired (path +:+ ".sources")
      else
        add_if (negb (IsLLMFamily (Type_ s))) CodeContextFieldInvalid path ++
        add_if (MaxContextSources <? zlen (ctx_Sources cs)) CodeContextFieldInvalid (path +:+ ".sources") ++
        check_sources path 0 (ctx_Sources cs) [] ++
        checkCompaction path cs
  end.

(** *** Output validation *)

Definition checkSemanticPolicy (path st : string) (vp : ValidationPolicy) : list ValidationIssue :=
  add_if (negb (vp_MaxAttempts vp =? 0) && ((vp_MaxAttempts vp <? 1) || (MaxSemanticAttempts <? vp_MaxAttempts vp)))
    CodeValidationFieldInvalid (path +:+ ".max_attempts") ++
  match vp_Feedback vp with
  | None => []
  | Some fb =>
      let fp := path +:+ ".feedback" in
      add_if (negb (IsLLMFamily st)) CodeValidationFieldInvalid fp ++
      add_if (EffectiveMaxAttempts (Some vp) <? 2) CodeValidationFieldInvalid fp ++
      add_if (negb (empty_str (fb_Template fb)) && match CheckFeedbackTemplate (fb_Template fb) with Some _ => true | None => false end)
        CodeValidationFieldInvalid (fp +:+ ".template") ++
      add_if (fb_MaxOutputChars fb <? 0) CodeValidationFieldInvalid (fp +:+ ".max_output_chars")
  end.

(** *** Typed configs: [cfg[T]], the zero value when absent or of another type *)

Definition cfg_llm (s : Step) : LLMConfig :=
  match Config s with Some (LLMConfigC c) => c | _ => mkLLMConfig "" "" "" [] 0 None [] None end.
Definition cfg_planner (s : Step) : PlannerConfig :=
  match Config s with Some (PlannerConfigC c) => c | _ => mkPlannerConfig "" "" [] 0 None 0 end.
Definition cfg_tool (s : Step) : ToolConfig :=
  match Config s with Some (ToolConfigC c) => c | _ => mkToolConfig "" None end.
Definition cfg_retrieve (s : Step) : RetrieveConfig :=
  match Config s with Some (RetrieveConfigC c) => c | _ => mkRetrieveConfig "" "" 0 end.
Definition cfg_map (s : Step) : MapConfig :=
  match Config s with Some (MapConfigC c) => c | _ => mkMapConfig None "" 0 "" end.
Definition cfg_agent (s : Step) : AgentConfig :=
  match Config s with Some (AgentConfigC c) => c | _ => mkAgentConfig "" "" "" "" [] 0 None [] None None "" end.
Definition cfg_approval (s : Step) : HumanApprovalConfig :=
  match Config s with Some (HumanApprovalConfigC c) => c | _ => mkHumanApprovalConfig "" "" None [] false None "" "" "" end.
Definition cfg_join (s : Step) : string := match Config s with Some (JoinConfigC m) => m | _ => "" end.
Definition cfg_sleep (s : Step) : string := match Config s with Some (SleepConfigC x) => x | _ => "" end.
Definition cfg_fail (s : Step) : Z := match Config s with Some (FailNTimesConfigC n) => n | _ => 0 end.
Definition cfg_counter (s : Step) : string := match Config s with Some (CounterConfigC p) => p | _ => "" end.
Definition cfg_effect (s : Step) : EffectfulEchoConfig :=
  match Config s with Some (EffectfulEchoConfigC c) => c | _ => mkEffectfulEchoConfig "" None 0 end.
Definition cfg_board (s : Step) : BlackboardWriteConfig :=
  match Config s with Some (BlackboardWriteConfigC c) => c | _ => mkBlackboardWriteConfig "" None [] None "" end.

Definition checkValidation (path : string) (s : Step) : list ValidationIssue :=
  match Validation s with
  | None => []
  | Some vp =>
      if is_type StepHumanApproval s then []
      else
        let path := path +:+ ".validation" in
        let hasImplicitChain :=
          (is_type StepLLM s && match llm_OutputFormat (cfg_llm s) with Some _ => true | None => false end) ||
          is_type StepPlanner s || is_type StepAgent s in
        if bool_decide (length (vp_Validators vp) = 0%nat) && negb hasImplicitChain
        then add CodeValidationFieldRequired (path +:+ ".validators")
        else
          add_if (MaxValidators <? zlen (vp_Validators vp)) CodeValidationFieldInvalid (path +:+ ".validators") ++
          for_range (vp_Validators vp) (λ i spec,
            let entry := at_index (path +:+ ".validators") i in
            (if empty_str (vs_Name spec) then add CodeValidationFieldRequired (entry +:+ ".name")
             else add_if (negb (pluginNameRe (vs_Name spec))) CodeValidationFieldInvalid (entry +:+ ".name")) ++
            add_if (negb (empty_str (vs_Target spec)) && negb (checkJSONPointer (vs_Target spec)))
              CodeValidationFieldInvalid (entry +:+ ".target")) ++
          checkSemanticPolicy path (Type_ s) vp
  end.

(** ** Step configs *)

Definition checkLLMConfig (path model prompt : string) (messages : list LLMMessage) : list ValidationIssue :=
  let hasPrompt := negb (empty_str prompt) in
  let hasMessages := negb (bool_decide (length messages = 0%nat)) in
  add_if (empty_str model) CodeConfigFieldRequired (path +:+ ".config.model") ++
  (if hasPrompt && hasMessages then add CodeConfigFieldConflict (path +:+ ".config")
   else add_if (negb hasPrompt && negb hasMessages) CodeConfigFieldRequired (path +:+ ".config")) ++
  for_range messages (λ i m,
    let mp := at_index (path +:+ ".config.messages") i in
    add_if (negb (bool_decide (msg_Role m ∈ ["user"; "assistant"]))) CodeConfigFieldInvalid (mp +:+ ".role") ++
    add_if (empty_str (msg_Content m)) CodeConfigFieldRequired (mp +:+ ".content")).

Fixpoint check_decisions (cp : string) (i : nat) (l seen : list string) : list ValidationIssue :=
  match l with
  | [] => []
  | d :: l' => add_if (bool_decide (d ∈ seen)) CodeConfigFieldInvalid (at_index (cp +:+ ".allowed_decisions") i) ++
               check_decisions cp (S i) l' (d :: seen)
  end.

Definition checkHumanApproval (path : string) (s : Step) : list ValidationIssue :=
  let c := cfg_approval s in
  let cp := path +:+ ".config" in
  let decisionAllowed d := bool_decide (ha_AllowedDecisions c = []) || bool_decide (d ∈ ha_AllowedDecisions c) in
  add_if (empty_str (ha_Title c)) CodeConfigFieldRequired (cp +:+ ".title") ++
  check_decisions cp 0 (ha_AllowedDecisions c) [] ++
  (match ha_EditSchema c with
   | None => []
   | Some schema =>
       add_if (negb (ha_AllowEdit c)) CodeConfigFieldInvalid (cp +:+ ".edit_schema") ++
       add_if (not_object schema) CodeConfigFieldInvalid (cp +:+ ".edit_schema")
   end) ++
  add_if (ha_AllowEdit c && negb (decisionAllowed ApprovalApprove)) CodeConfigFieldInvalid (cp +:+ ".allow_edit") ++
  (if negb (empty_str (ha_Timeout c))
   then check_duration CodeConfigFieldInvalid (cp +:+ ".timeout") (ha_Timeout c) MaxApprovalTimeout
   else add_if (negb (empty_str (ha_OnTimeout c))) CodeConfigFieldInvalid (cp +:+ ".on_timeout")) ++
  (if bool_decide (ha_OnTimeout c = ApprovalTimeoutReject)
   then add_if (negb (decisionAllowed ApprovalReject)) CodeConfigFieldInvalid (cp +:+ ".on_timeout")
   else if bool_decide (ha_OnTimeout c = ApprovalTimeoutApprove)
   then add_if (negb (decisionAllowed ApprovalApprove)) CodeConfigFieldInvalid (cp +:+ ".on_timeout") else []) ++
  add_if (bool_decide (ha_OnReject c = ApprovalRejectRoute) && negb (decisionAllowed ApprovalReject))
    CodeConfigFieldInvalid (cp +:+ ".on_reject") ++
  add_if (match Validation s with Some _ => true | None => false end) CodeValidationFieldInvalid (path +:+ ".validation") ++
  add_if (negb (empty_str (sp_Timeout (Policies s)))) CodeTimeoutFieldInvalid (path +:+ ".timeout").

Definition checkStepConfig (path : string) (s : Step) : list ValidationIssue :=
  let t := Type_ s in
  let required b f := add_if b CodeConfigFieldRequired (path +:+ ".config." +:+ f) in
  let invalid b f := add_if b CodeConfigFieldInvalid (path +:+ ".config." +:+ f) in
  if bool_decide (t = StepLLM) then
    let c := cfg_llm s in checkLLMConfig path (llm_Model c) (llm_Prompt c) (llm_Messages c)
  else if bool_decide (t = StepPlanner) then
    let c := cfg_planner s in checkLLMConfig path (pn_Model c) (pn_Prompt c) (pn_Messages c)
  else if bool_decide (t = StepTool) then required (empty_str (tool_Tool (cfg_tool s))) "tool"
  else if bool_decide (t = StepRetrieve) then
    let c := cfg_retrieve s in
    required (empty_str (rt_Retriever c)) "retriever" ++ required (empty_str (rt_Query c)) "query" ++
    invalid (rt_TopK c <? 0) "top_k"
  else if bool_decide (t = StepMap) then
    let c := cfg_map s in
    required (match map_Items c with None => true | Some _ => false end) "items" ++
    required (empty_str (map_Body c)) "body" ++ invalid (map_MaxItems c <? 0) "max_items"
  else if bool_decide (t = StepGather) then []
  else if bool_decide (t = StepAgent) then required (empty_str (ac_Agent (cfg_agent s))) "agent"
  else if bool_decide (t = StepHumanApproval) then checkHumanApproval path s
  else if bool_decide (t = StepJoin) then required (empty_str (cfg_join s)) "mode"
  else if bool_decide (t = StepSleep) then
    let x := cfg_sleep s in
    if empty_str x then required true "duration"
    else if HasTemplate x then []
    else match ParseDuration x with None => invalid true "duration" | Some d => invalid (d <=? 0) "duration" end
  else if bool_decide (t = StepFailNTimes) then
    let n := cfg_fail s in if n =? 0 then required true "n" else invalid (n <? 0) "n"
  else if bool_decide (t = StepCounter) then required (empty_str (cfg_counter s)) "path"
  else if bool_decide (t = StepEffectfulEcho) then
    let c := cfg_effect s in
    if empty_str (ee_Path c) then required true "path" else invalid (ee_FailTimes c <? 0) "fail_times"
  else if bool_decide (t = StepBlackboardWrite) then
    let c := cfg_board s in
    (if empty_str (bw_Key c) then required true "key" else invalid (negb (ValidateKey (bw_Key c))) "key") ++
    required (match bw_Value c with None => true | Some _ => false end) "value" ++
    invalid (match bw_ExpectedVersion c with Some n => n <? 0 | None => false end) "expected_version" ++
    invalid (bad_tags (bw_Tags c)) "tags" ++
    invalid (negb (empty_str (bw_ReadKey c)) && negb (ValidateKey (bw_ReadKey c))) "read_key"
  else [].

(** The fallback chain after the primary model: [seen] are the models so far,
    [prev] the last threshold. *)
Fixpoint check_fallbacks (fp : string) (hasRunBudget : bool) (i : nat) (l : list ModelFallback)
    (seen : list string) (prev : option Q) : list ValidationIssue :=
  match l with
  | [] => []
  | f :: l' =>
      let ep := at_index fp i in
      let dup := bool_decide (mf_Model f ∈ seen) in
      (if empty_str (mf_Model f) then add CodeConfigFieldRequired (ep +:+ ".model")
       else add_if dup CodeConfigFieldInvalid (ep +:+ ".model")) ++
      (match mf_AtBudgetFraction f with
       | None => []
       | Some frac =>
           add_if (Qle_bool frac 0 || Qle_bool 1 frac) CodeConfigFieldInvalid (ep +:+ ".at_budget_fraction") ++
           add_if (negb hasRunBudget) CodeConfigFieldInvalid (ep +:+ ".at_budget_fraction") ++
           add_if (match prev with Some p => negb (Qle_bool p frac) | None => false end)
             CodeConfigFieldInvalid (ep +:+ ".at_budget_fraction")
       end) ++
      check_fallbacks fp hasRunBudget (S i) l'
        (if empty_str (mf_Model f) || dup then seen else mf_Model f :: seen)
        (or_opt (mf_AtBudgetFraction f) prev)
  end.
Definition checkModelFallbacks (d : Definition_) (path : string) (s : Step) : list ValidationIssue :=
  let c := cfg_llm s in
  let fp := path +:+ ".config.model_fallbacks" in
  if negb (is_type StepLLM s) then
    add_if (negb (bool_decide (length (llm_ModelFallbacks c) = 0%nat))) CodeConfigFieldInvalid fp
  else if bool_decide (length (llm_ModelFallbacks c) = 0%nat) then []
  else
    let hasRunBudget := match BudgetUSD d with Some _ => true | None => false end in
    let hasStepUSD := match sp_Budget (Policies s) with
                      | Some b => match sb_MaxUSD b with Some _ => true | None => false end
                      | None => false
                      end in
    add_if (negb hasRunBudget && negb hasStepUSD) CodeConfigFieldInvalid fp ++
    check_fallbacks fp hasRunBudget 0 (llm_ModelFallbacks c) [llm_Model c] None.

Definition checkOutputFormat (path : string) (s : Step) : list ValidationIssue :=
  let fp := path +:+ ".config.output_format" in
  match llm_OutputFormat (cfg_llm s) with
  | None => []
  | Some o =>
      if negb (is_type StepLLM s) then add CodeConfigFieldInvalid fp
      else
        (if empty_str (of_Type o) then add CodeConfigFieldRequired (fp +:+ ".type")
         else if bool_decide (of_Type o = OutputFormatJSON) then
           add_if (match of_Schema o with Some _ => true | None => false end) CodeConfigFieldInvalid (fp +:+ ".schema")
         else if bool_decide (of_Type o = OutputFormatJSONSchema) then
           match of_Schema o with
           | None => add CodeConfigFieldRequired (fp +:+ ".schema")
           | Some schema => add_if (not_object schema) CodeConfigFieldInvalid (fp +:+ ".schema")
           end
         else add CodeConfigFieldInvalid (fp +:+ ".type")) ++
        add_if (negb (bool_decide (of_Mode o ∈ [""; OutputFormatAuto; OutputFormatRepairOnly])))
          CodeConfigFieldInvalid (fp +:+ ".mode")
  end.

(** ** Steps *)

(** The checks of one step's content that the steps of a definition and of a
    template share; [timeout] says whether the generic timeout check applies. *)
Definition check_step (d : Definition_) (path : string) (s : Step) (timeout : bool) : list ValidationIssue :=
  checkStepConfig path s ++ checkModelFallbacks d path s ++ checkOutputFormat path s ++
  checkRetry path (sp_Retry (Policies s)) ++
  (if timeout then checkTimeout path (sp_Timeout (Policies s)) else []) ++
  checkCache path (sp_Cache (Policies s)) ++ checkStepBudget path (Type_ s) (sp_Budget (Policies s)) ++
  checkValidation path s ++ checkBlackboard path (sp_Blackboard (Policies s)) ++ checkContext path s.

(** The ID→index map, first occurrence. *)
Definition step_index (l : list Step) : gmap string nat :=
  list_to_map (imap (λ i s, (ID s, i)) l).

Fixpoint check_steps (d : Definition_) (i : nat) (l : list Step) (seen : list string) : list ValidationIssue :=
  match l with
  | [] => []
  | s :: l' =>
      let path := at_index "steps" i in
      add_if (negb (stepIDRe (ID s))) CodeInvalidStepID (path +:+ ".id") ++
      add_if (bool_decide (ID s ∈ seen)) CodeDuplicateStepID (path +:+ ".id") ++
      add_if (negb (bool_decide (Type_ s ∈ stepConfigTypes))) CodeUnknownStepType (path +:+ ".type") ++
      check_step d path s (negb (is_type StepHumanApproval s)) ++
      check_steps d (S i) l' (ID s :: seen)
  end.
Definition checkSteps (d : Definition_) : list ValidationIssue * gmap string nat :=
  (add_if (bool_decide (length (Steps d) = 0%nat)) CodeNoSteps "steps" ++ check_steps d 0 (Steps d) [],
   step_index (Steps d)).

Example step_index_first :
  step_index [mkStep "a" "" None None None noPolicies; mkStep "b" "" None None None noPolicies;
              mkStep "a" "" None None None noPolicies] !! "a" = Some 0%nat.
Proof. reflexivity. Qed.
