(* ===== verification/ValidateGraph.v ===== *)
(** internal/dag/validate.go and mapvalidate.go: the checks over edges, the
    graph, the references of the templates, the agents and templates libraries,
    and [Validate] itself; with loopexpand.go's [loopBody] and the edge rules of
    expansion.go.

    The CEL compiler and text/template's parser are parameters. *)
From Stdlib Require Import QArith Ascii.
From S2P Require Import Prelude Issues GoStd Retry StoreModel Config Template Feedback Dag GraphFacts Cycles Validate.
Open Scope Z_scope.

(** The result of CompileExpr: a program, a non-boolean type, or compile errors,
    a first one and [more]. *)
Inductive exprResult : Type := ExprOK | ExprNotBool | ExprErrors (more : nat).

(** loopBody. *)
Definition loopBody (g : Graph) (from to : string) : GraphErr + gset string :=
  match Descendants g to with
  | inl e => inl e
  | inr desc =>
      match Ancestors g from with
      | inl e => inl e
      | inr anc => inr ({[from; to]} ∪ filter (λ id, id = from ∨ id ∈ anc) desc)
      end
  end.

(** ** References to upstream steps *)

Inductive refStatus : Type := refOK | refUnknownStep | refSelf | refNotAncestor.

(** classifyUpstreamRef: [ancestors] is the memoized Ancestors(fromStepID). *)
Definition classifyUpstreamRef (g : Graph) (fromStepID refStepID : string) (ancestors : gset string) : refStatus :=
  match index g !! refStepID with
  | None => refUnknownStep
  | Some _ => if bool_decide (refStepID = fromStepID) then refSelf
              else if bool_decide (refStepID ∈ ancestors) then refOK else refNotAncestor
  end.
(** [ancestors, _ = g.Ancestors(s.ID)]: the empty set on an error. *)
Definition ancestors_of (g : Graph) (id : string) : gset string :=
  match Ancestors g id with inl _ => ∅ | inr a => a end.

Definition tmplIssuePath (base rel : string) : string := if empty_str rel then base else base +:+ "." +:+ rel.

Definition sortedKeys {A} (m : gmap string A) : list string := merge_sort String.le (elements (dom m)).

Section validate.
Context (CompileExpr : string → exprResult) (textTemplateParses : list outSeg → bool).

(** ** Edges *)

Definition checkExpr (path src : string) : list ValidationIssue :=
  match CompileExpr src with
  | ExprOK => []
  | ExprNotBool => add CodeExprNotBool path
  | ExprErrors more => concat (replicate (S more) (add CodeExprInvalid path))
  end.

Definition exhaust_policies : list string := [""; ExhaustProceed; ExhaustFail].

(** The field rules of a loop edge, and of a normal one but its decision. *)
Definition check_loop_fields (path : string) (e : Edge) : list ValidationIssue :=
  add_if (negb (empty_str (When e))) CodeLoopFieldForbidden (path +:+ ".when") ++
  (if empty_str (Condition e) then add CodeLoopFieldRequired (path +:+ ".condition")
   else if MaxExprLen <? slen (Condition e) then add CodeLimitExceeded (path +:+ ".condition")
   else checkExpr (path +:+ ".condition") (Condition e)) ++
  (if MaxIterations e =? 0 then add CodeLoopFieldRequired (path +:+ ".max_iterations")
   else add_if ((MaxIterations e <? 1) || (MaxLoopIterations <? MaxIterations e))
          CodeLimitExceeded (path +:+ ".max_iterations")) ++
  add_if (negb (bool_decide (OnExhausted e ∈ exhaust_policies))) CodeConfigFieldInvalid (path +:+ ".on_exhausted") ++
  (match NoProgress e with
   | None => []
   | Some np =>
       add_if (negb (bool_decide (np_Policy np ∈ exhaust_policies)))
         CodeConfigFieldInvalid (path +:+ ".no_progress.policy") ++
       add_if (negb (empty_str (np_Path np)) && negb (checkJSONPointer (np_Path np)))
         CodeConfigFieldInvalid (path +:+ ".no_progress.path")
   end) ++
  add_if (negb (empty_str (Decision e))) CodeApprovalEdgeInvalid (path +:+ ".decision").
Definition check_normal_fields (path : string) (e : Edge) : list ValidationIssue :=
  add_if (negb (empty_str (Condition e))) CodeLoopFieldForbidden (path +:+ ".condition") ++
  add_if (negb (MaxIterations e =? 0)) CodeLoopFieldForbidden (path +:+ ".max_iterations") ++
  add_if (negb (empty_str (OnExhausted e))) CodeLoopFieldForbidden (path +:+ ".on_exhausted") ++
  add_if (match NoProgress e with Some _ => true | None => false end)
    CodeLoopFieldForbidden (path +:+ ".no_progress").
Definition check_when (path : string) (e : Edge) : list ValidationIssue :=
  if MaxExprLen <? slen (When e) then add CodeLimitExceeded (path +:+ ".when")
  else if empty_str (When e) then [] else checkExpr (path +:+ ".when") (When e).

(** The step of [id] by the index map is a human_approval step. *)
Definition approval_step (d : Definition_) (stepIndex : gmap string nat) (id : string) : option Step :=
  match stepIndex !! id ≫= (Steps d !!.) with
  | Some s => if is_type StepHumanApproval s then Some s else None
  | None => None
  end.
Definition is_Some_b {A} (o : option A) : bool := match o with Some _ => true | None => false end.

Definition checkEdges (d : Definition_) (stepIndex : gmap string nat) : list ValidationIssue :=
  for_range (Edges d) (λ i e,
    let path := at_index "edges" i in
    add_if (negb (is_Some_b (stepIndex !! From e))) CodeUnknownEdgeEndpoint (path +:+ ".from") ++
    add_if (negb (is_Some_b (stepIndex !! To e))) CodeUnknownEdgeEndpoint (path +:+ ".to") ++
    if IsLoop e then check_loop_fields path e
    else check_normal_fields path e ++
         add_if (negb (empty_str (Decision e)) && negb (is_Some_b (approval_step d stepIndex (From e))))
           CodeApprovalEdgeInvalid (path +:+ ".decision") ++
         check_when path e).

Definition approvalDecisions : list string := [ApprovalApprove; ApprovalReject].
Definition checkExpansionEdgeFields (path : string) (e : Edge) : list ValidationIssue :=
  if IsLoop e then check_loop_fields path e
  else check_normal_fields path e ++
       add_if (negb (empty_str (Decision e)) && negb (bool_decide (Decision e ∈ approvalDecisions)))
         CodeApprovalEdgeInvalid (path +:+ ".decision") ++
       check_when path e.

(** The source of a reject edge that leaves an approval step. *)
Definition reject_source (d : Definition_) (stepIndex : gmap string nat) (e : Edge) : option Step :=
  if IsLoop e || negb (bool_decide (Decision e = ApprovalReject)) then None
  else approval_step d stepIndex (From e).
Definition checkApprovals (d : Definition_) (stepIndex : gmap string nat) : list ValidationIssue :=
  let hasRejectEdge id := existsb (λ e, bool_decide (From e = id) && is_Some_b (reject_source d stepIndex e)) (Edges d) in
  for_range (Edges d) (λ i e,
    match reject_source d stepIndex e with
    | None => []
    | Some s => add_if (negb (bool_decide (ha_OnReject (cfg_approval s) = ApprovalRejectRoute)))
                  CodeApprovalEdgeInvalid (at_index "edges" i +:+ ".decision")
    end) ++
  for_range (Steps d) (λ i s,
    add_if (is_type StepHumanApproval s && bool_decide (ha_OnReject (cfg_approval s) = ApprovalRejectRoute) &&
            negb (hasRejectEdge (ID s)))
      CodeApprovalRejectEdgeRequired (at_index "steps" i +:+ ".config.on_reject")).

(** ** Degrees *)

(** The three maps of checkGraph, as functions of a step id. *)
Definition resolved (stepIndex : gmap string nat) (e : Edge) : bool :=
  is_Some_b (stepIndex !! From e) && is_Some_b (stepIndex !! To e).
Definition inDegree (d : Definition_) (stepIndex : gmap string nat) (id : string) : nat :=
  length (List.filter (λ e, negb (IsLoop e) && resolved stepIndex e && bool_decide (To e = id)) (Edges d)).
Definition touched (d : Definition_) (stepIndex : gmap string nat) (id : string) : bool :=
  existsb (λ e, resolved stepIndex e && (bool_decide (From e = id) || bool_decide (To e = id))) (Edges d).
Definition outEdges (d : Definition_) (stepIndex : gmap string nat) (id : string) : list (nat * Edge) :=
  List.filter (λ ie, negb (IsLoop ie.2) && is_Some_b (stepIndex !! From ie.2) && bool_decide (From ie.2 = id))
    (imap pair (Edges d)).

Definition checkGraph (d : Definition_) (stepIndex : gmap string nat) : list ValidationIssue :=
  if bool_decide (length (Steps d) = 0%nat) then []
  else
    add_if (negb (existsb (λ s, bool_decide (inDegree d stepIndex (ID s) = 0%nat)) (Steps d))) CodeNoEntryStep "" ++
    (if (1 <? zlen (Steps d))
     then for_range (Steps d) (λ i s,
            if touched d stepIndex (ID s) then [] else warn CodeIsolatedStep (at_index "steps" i))
     else []) ++
    for_range (Steps d) (λ i s,
      if negb (is_type StepBranch s) then []
      else
        let outs := outEdges d stepIndex (ID s) in
        if bool_decide (length outs = 0%nat) then add CodeBranchNoOutEdges (at_index "steps" i)
        else for_range outs (λ pos ie,
               add_if (empty_str (When ie.2) && negb (bool_decide (S pos = length outs)))
                 CodeBranchEdgeUnconditioned (at_index "edges" ie.1))).

(** ** Graph semantics *)

(** The cycle and loop-ancestry rules; [loop_extra] is what a well-anchored loop
    edge is further checked for. *)
Definition check_cycles (base : string) (g : Graph) : list ValidationIssue :=
  concat ((λ c, add CodeCycle (at_index base (edgeIdx c))) <$> findCycles g).
Definition anchored (g : Graph) (e : Edge) : bool :=
  reaches g (default 0%nat (index g !! To e)) (default 0%nat (index g !! From e)).

Definition checkGraphSemantics (d : Definition_) (g : Graph) : list ValidationIssue :=
  check_cycles "edges" g ++
  concat ((λ ei,
    let e := edge_at g ei in
    if negb (anchored g e) then add CodeLoopEdgeNotAncestor (at_index "edges" ei)
    else match NoProgress e with
         | None => []
         | Some np =>
             if empty_str (np_Step np) then []
             else match loopBody g (From e) (To e) with
                  | inl _ => []
                  | inr body => add_if (negb (bool_decide (np_Step np ∈ body))) CodeConfigFieldInvalid
                                  (at_index "edges" ei +:+ ".no_progress.step")
                  end
         end) <$> loopEdges g).

(** ** Template references *)

Definition template_problem (base : string) (e : tmplErr) : list ValidationIssue :=
  match e with
  | TemplateRefError p _ => add CodeTemplateRefInvalid (tmplIssuePath base p)
  | TemplateError p _ => add CodeTemplateInvalid (tmplIssuePath base p)
  end.

(** One reference of a step; [items] says whether the item roots are allowed. *)
Definition check_ref (d : Definition_) (g : Graph) (items : bool) (base : string) (s : Step) (r : TemplateRef)
    : list ValidationIssue :=
  let path := tmplIssuePath base (ConfigPath r) in
  if Lenient r then []
  else if ItemRef r then add_if (negb items) CodeTemplateRefInvalid path
  else if negb (empty_str (StepID r)) then
    match classifyUpstreamRef g (ID s) (StepID r) (ancestors_of g (ID s)) with
    | refUnknownStep => add CodeTemplateRefUnknownStep path
    | refSelf | refNotAncestor => add CodeTemplateRefNotUpstream path
    | refOK => []
    end
  else if negb (empty_str (ParamKey r)) then
    match Params d !! ParamKey r with None => add CodeTemplateRefUnknownParam path | Some _ => [] end
  else [].

Definition check_step_templates (d : Definition_) (g : Graph) (items : bool) (base : string) (s : Step)
    : list ValidationIssue :=
  match Config s with
  | None => []
  | Some c =>
      let raw := marshalConfig c in
      if negb (json_has_template raw) then []
      else match ParseConfigTemplates textTemplateParses raw with
           | inl errs => concat (template_problem base <$> errs)
           | inr (_, refs) => concat (check_ref d g items base s <$> refs)
           end
  end.
Definition checkTemplates (d : Definition_) (g : Graph) : list ValidationIssue :=
  for_range (Steps d) (λ i s, check_step_templates d g false (at_index "steps" i +:+ ".config") s).
Definition checkTemplateRefs (d : Definition_) (base : string) (sub : Definition_) (g : Graph) : list ValidationIssue :=
  for_range (Steps sub) (λ i s,
    check_step_templates d g true (at_index (base +:+ ".steps") i +:+ ".config") s).

Definition checkContextGraph (d : Definition_) (g : Graph) : list ValidationIssue :=
  for_range (Steps d) (λ i s,
    match Context_ s with
    | None => []
    | Some cs =>
        for_range (ctx_Sources cs) (λ j src,
          if negb (bool_decide (src_Kind src = SourceStepOutput)) || empty_str (src_Step src) then []
          else match classifyUpstreamRef g (ID s) (src_Step src) (ancestors_of g (ID s)) with
               | refOK => []
               | _ => add CodeContextFieldInvalid
                        (at_index (at_index "steps" i +:+ ".context.sources") j +:+ ".step")
               end)
    end).

(** ** The templates library (mapvalidate.go) *)

(** The steps of one template: the issues, and whether all ids are distinct. *)
Fixpoint check_template_steps (d : Definition_) (base : string) (i : nat) (l : list Step) (seen : list string)
    : list ValidationIssue * bool :=
  match l with
  | [] => ([], true)
  | s :: l' =>
      let sp := at_index (base +:+ ".steps") i in
      let dup := bool_decide (ID s ∈ seen) in
      let '(rest, wf) := check_template_steps d base (S i) l' (ID s :: seen) in
      (add_if (negb (stepIDRe (ID s))) CodeInvalidStepID (sp +:+ ".id") ++
       add_if dup CodeDuplicateStepID (sp +:+ ".id") ++
       (if negb (bool_decide (Type_ s ∈ stepConfigTypes)) then add CodeUnknownStepType (sp +:+ ".type")
        else add_if (is_type StepMap s || is_type StepGather s) CodeTemplateSectionInvalid (sp +:+ ".type")) ++
       check_step d sp s true ++ rest, negb dup && wf)
  end.

Definition check_template_edges (base : string) (index : gmap string nat) (l : list Edge) : list ValidationIssue :=
  for_range l (λ i e,
    let ep := at_index (base +:+ ".edges") i in
    add_if (negb (is_Some_b (index !! From e))) CodeUnknownEdgeEndpoint (ep +:+ ".from") ++
    add_if (negb (is_Some_b (index !! To e))) CodeUnknownEdgeEndpoint (ep +:+ ".to") ++
    checkExpansionEdgeFields ep e).

Definition sinks (g : Graph) : list string :=
  (λ i, ID (step_at g i)) <$> List.filter (λ i, bool_decide (out_of g i = [])) (seq 0 (length (Steps (def g)))).

Definition checkTemplateGraph (d : Definition_) (base : string) (sub : Definition_) (g : Graph) : list ValidationIssue :=
  check_cycles (base +:+ ".edges") g ++
  concat ((λ ei, add_if (negb (anchored g (edge_at g ei))) CodeLoopEdgeNotAncestor (at_index (base +:+ ".edges") ei))
            <$> loopEdges g) ++
  add_if (negb (bool_decide (length (sinks g) = 1%nat))) CodeTemplateSectionInvalid base ++
  checkTemplateRefs d base sub g.

Definition check_template (d : Definition_) (name : string) (t : option Template) : list ValidationIssue :=
  let base := "templates." +:+ name in
  add_if (negb (stepIDRe name)) CodeTemplateSectionInvalid base ++
  match t with
  | None => add CodeTemplateSectionInvalid (base +:+ ".steps")
  | Some t =>
      if bool_decide (length (tm_Steps t) = 0%nat) then add CodeTemplateSectionInvalid (base +:+ ".steps")
      else
        let index := step_index (tm_Steps t) in
        let '(step_issues, distinct) := check_template_steps d base 0 (tm_Steps t) [] in
        let wellFormed := distinct && forallb (resolved index) (tm_Edges t) in
        let sub := plainDefinition "" "" (tm_Steps t) (tm_Edges t) in
        step_issues ++ check_template_edges base index (tm_Edges t) ++
        if wellFormed
        then match NewGraph sub with inl _ => [] | inr g => checkTemplateGraph d base sub g end
        else []
  end.
Definition checkTemplateSection (d : Definition_) : list ValidationIssue :=
  concat ((λ name, check_template d name (default None (Templates d !! name))) <$> sortedKeys (Templates d)).

Definition checkMaps (d : Definition_) : list ValidationIssue :=
  for_range (Steps d) (λ i s,
    if negb (is_type StepMap s) then []
    else match Config s with
         | Some (MapConfigC c) =>
             if empty_str (map_Body c) then []
             else match Templates d !! map_Body c with
                  | None => add CodeMapBodyUnknown (at_index "steps" i +:+ ".config.body")
                  | Some tmpl =>
                      add_if (bool_decide (map_OnItemFailure c = ItemCollectErrors) &&
                              match tmpl with Some t => 1 <? zlen (tm_Steps t) | None => false end)
                        CodeConfigFieldInvalid (at_index "steps" i +:+ ".config.on_item_failure")
                  end
         | _ => []
         end).

(** ** The agents library *)

(** The synthetic llm steps the llm-family checks run over. *)
Definition syn_step (c : LLMConfig) (v : option ValidationPolicy) (x : option ContextSpec) (b : option StepBudget) : Step :=
  mkStep "" StepLLM (Some (LLMConfigC c)) v x (mkStepPolicies None "" None b None).

Definition check_role (d : Definition_) (name : string) (role : option AgentDef) : list ValidationIssue :=
  let path := "agents." +:+ name in
  add_if (negb (pluginNameRe name)) CodeAgentSectionInvalid path ++
  match role with
  | None => []
  | Some role =>
      let syn := syn_step (mkLLMConfig (ad_Model role) "" "" [] (ad_MaxTokens role) (ad_Temperature role)
                             (ad_ModelFallbacks role) (ad_OutputFormat role))
                   (ad_Validation role) (ad_Context role) None in
      for_range (default [] (ad_Tools role)) (λ i t,
        add_if (negb (pluginNameRe t)) CodeAgentSectionInvalid (at_index (path +:+ ".tools") i)) ++
      checkModelFallbacks d path syn ++ checkOutputFormat path syn ++ checkValidation path syn ++ checkContext path syn
  end.
Definition check_agent_step (d : Definition_) (i : nat) (s : Step) : list ValidationIssue :=
  let path := at_index "steps" i in
  if negb (is_type StepAgent s) then []
  else match Config s with
       | Some (AgentConfigC c) =>
           if empty_str (ac_Agent c) then []
           else match Agents d !! ac_Agent c with
                | None => add CodeAgentRefUnknown (path +:+ ".config.agent")
                | Some _ =>
                    match ResolveAgentStep d s with
                    | inl _ => add CodeAgentSectionInvalid path
                    | inr merged =>
                        let mc := cfg_agent merged in
                        let msyn := syn_step (mkLLMConfig (ac_Model mc) "" "" [] 0 None (ac_ModelFallbacks mc)
                                                (ac_OutputFormat mc)) None None (sp_Budget (Policies s)) in
                        checkLLMConfig path (ac_Model mc) (ac_Prompt mc) (ac_Messages mc) ++
                        checkModelFallbacks d path msyn ++ checkOutputFormat path msyn
                    end
                end
       | _ => []
       end.
Definition checkAgents (d : Definition_) : list ValidationIssue :=
  concat ((λ name, check_role d name (default None (Agents d !! name))) <$> sortedKeys (Agents d)) ++
  for_range (Steps d) (check_agent_step d).

(** ** Validate *)

Definition Validate (d : Definition_) : list ValidationIssue :=
  let '(step_issues, stepIndex) := checkSteps d in
  let issues :=
    checkLimits d ++ checkMaxWallClock (MaxWallClock d) ++ checkRunBudget d ++ checkExpansion d ++ step_issues ++
    checkEdges d stepIndex ++ checkApprovals d stepIndex ++ checkGraph d stepIndex ++
    checkTemplateSection d ++ checkMaps d ++ checkAgents d in
  issues ++
  (if has [CodeDuplicateStepID; CodeUnknownEdgeEndpoint] issues then []
   else match NewGraph d with
        | inl _ => []
        | inr g => checkGraphSemantics d g ++ checkTemplates d g ++ checkContextGraph d g
        end).
End validate.

(** A triage workflow: a branch routes the ticket, a loop revises the draft. *)
Definition llm_step (id prompt : string) : Step :=
  mkStep id StepLLM (Some (LLMConfigC (mkLLMConfig "m-small" "" prompt [] 0 None [] None))) None None noPolicies.
Definition sample_workflow : Definition_ :=
  mkDefinition "triage" FailFast "2h30m" (Some (5 # 2)) BudgetPark None ∅
    {[ "critic" := Some (mkAgentDef "" "Be strict." "m-large" [] (Some ["search"]) 0 None None None None) ]}
    {[ "ticket" := mkParamSpec "string" true ]}
    [llm_step "classify" "Classify ${{ run.params.ticket }}";
     mkStep "route" StepBranch (Some (BranchConfigC None)) None None noPolicies;
     llm_step "draft" "Answer ${{ steps.classify.output.text | default 'n/a' }}";
     mkStep "review" StepAgent
       (Some (AgentConfigC (mkAgentConfig "critic" "" "" "Check ${{ steps.draft.output }}" [] 0 None [] None None ""))) None None
       (mkStepPolicies (Some (mkRetryPolicy 3 None "" None)) "30s" None None None);
     mkStep "drop" StepNoop None None None noPolicies]
    [mkEdge "classify" "route" "" EdgeTypeNormal ""; mkEdge "route" "draft" "ok" EdgeTypeNormal "";
     mkEdge "route" "drop" "" EdgeTypeNormal ""; mkEdge "draft" "review" "" EdgeTypeNormal "";
     mkLoopEdge "review" "draft" "" EdgeTypeLoop "retry" 3 "" None ""].
Example sample_valid : Validate (λ _, ExprOK) (λ _, true) sample_workflow = [].
Proof. vm_compute. reflexivity. Qed.

(** The same workflow with an unmarked back edge, a dangling reference and a
    misplaced default edge. *)
Example sample_issues :
  Validate (λ _, ExprOK) (λ _, true)
    (plainDefinition "bad" "" [llm_step "a" "x ${{ steps.b.output }} ${{ nope }}"; llm_step "b" "y ${{ steps.b.output }}";
        mkStep "c" StepBranch None None None noPolicies; mkStep "d" StepJoin None None None noPolicies]
       [mkEdge "a" "b" "" EdgeTypeNormal ""; mkEdge "b" "a" "" EdgeTypeNormal "";
        mkEdge "c" "a" "" EdgeTypeNormal ""; mkEdge "c" "d" "" EdgeTypeNormal ""]) =
  [mkIssue CodeConfigFieldRequired SeverityError "steps[3].config.mode";
   mkIssue CodeBranchEdgeUnconditioned SeverityError "edges[2]";
   mkIssue CodeCycle SeverityError "edges[1]";
   mkIssue CodeTemplateInvalid SeverityError "steps[0].config.prompt";
   mkIssue CodeTemplateRefNotUpstream SeverityError "steps[1].config.prompt"].
Proof. vm_compute. reflexivity. Qed.
