(* ===== verification/Codec.v ===== *)
(** internal/dag/decode.go: the strict decoding of one JSON value into a Go type.

    A document is its abstract syntax: an integer literal is [JNum], any other
    number literal is [JFloat] with the float64 it denotes, and the members of an
    object are in document order.  A diagnostic is its path and kind; the field
    that json.Unmarshal adds to the path of a type mismatch is left out, and so
    are the message texts.  The keys of one object are taken to be distinct: of a
    repeated key the last member counts, as in a Go map, while json.Unmarshal
    merges repeated members of struct type.  A float64 is written as [JFloat];
    Go prints an integral one as an integer literal, which reads back as the same
    float64. *)
From Stdlib Require Import QArith.
From S2P Require Import Prelude GoStd Retry Issues StoreModel Config Template Dag Validate ValidateGraph.
Open Scope Z_scope.

(** ** Diagnostics *)

Inductive DecodeKind : Type :=
| KExpected (want : string)
| KMissing
| KUnknownField
| KUnknownValue
| KVersion
| KLimit.
Record DecodeError : Type := mkDecodeError { de_Path : string; de_Kind : DecodeKind }.
Definition err_at (path : string) (k : DecodeKind) : list DecodeError := [mkDecodeError path k].
Definition err_if (b : bool) (path : string) (k : DecodeKind) : list DecodeError := if b then err_at path k else [].

(** ** Values *)

Definition jsonTypeOf (raw : json) : string :=
  match raw with
  | JObj _ => "object" | JArr _ => "array" | JStr _ => "string" | JBool _ => "boolean" | JNull => "null"
  | JNum _ | JFloat _ => "number"
  end.
Definition object (l : list (string * json)) : gmap string json := list_to_map (reverse l).
Definition rawObject (raw : json) : option (gmap string json) :=
  match raw with JObj l => Some (object l) | _ => None end.

(** The range of int, and of a number literal that fits a float64. *)
Definition in_int (n : Z) : bool := (- 2 ^ 63 <=? n) && (n <? 2 ^ 63).
Definition in_float (n : Z) : bool := Z.abs n <? float_overflow.
(** strconv.ParseFloat of an integer literal. *)
Definition float_of (n : Z) : Q := if n <? 0 then Qopp (fl64 (inject_Z (- n))) else fl64 (inject_Z n).

Definition decodeString (raw : json) (path : string) : string * list DecodeError :=
  match raw with JStr s => (s, []) | _ => ("", err_at path (KExpected "string")) end.
Definition decodeInt (raw : json) (path : string) : option Z * list DecodeError :=
  match raw with
  | JNum n => if in_int n then (Some n, []) else (None, err_at path (KExpected "integer"))
  | _ => (None, err_at path (KExpected "integer"))
  end.
Definition decodeFloat (raw : json) (path : string) : option Q * list DecodeError :=
  match raw with
  | JNum n => if in_float n then (Some (float_of n), []) else (None, err_at path (KExpected "number"))
  | JFloat q => (Some q, [])
  | _ => (None, err_at path (KExpected "number"))
  end.
Definition decodeObjectMap (raw : json) (path : string) : option (gmap string json) * list DecodeError :=
  match rawObject raw with Some m => (Some m, []) | None => (None, err_at path (KExpected "object")) end.
Definition decodeArray (raw : json) (path : string) : option (list json) * list DecodeError :=
  match raw with JArr l => (Some l, []) | _ => (None, err_at path (KExpected "array")) end.

(** ** Go types, as reflection shows them *)

Inductive gotype : Type :=
| TString | TInt | TFloat | TBool
| TRaw                                     (** json.RawMessage *)
| TPtr (t : gotype)
| TSlice (t : gotype)
| TMap (t : gotype)
| TStruct (fields : list (string * gotype)).   (** jsonFieldTypes *)

(** checkUnknownFields. *)
Fixpoint checkUnknownFields (t : gotype) (raw : json) (path : string) {struct t} : list DecodeError :=
  match t with
  | TRaw => []
  | TPtr t' => checkUnknownFields t' raw path
  | TStruct fs =>
      match rawObject raw with
      | None => []
      | Some m =>
          flat_map (λ k,
            (fix known fs := match fs with
               | [] => err_at (path +:+ "." +:+ k) KUnknownField
               | (k', t') :: fs' =>
                   if bool_decide (k' = k) then checkUnknownFields t' (default JNull (m !! k)) (path +:+ "." +:+ k)
                   else known fs'
               end) fs) (sortedKeys m)
      end
  | TSlice t' =>
      match raw with
      | JArr l => concat (imap (λ i v, checkUnknownFields t' v (at_index path i)) l)
      | _ => []
      end
  | TMap t' =>
      match rawObject raw with
      | None => []
      | Some m => flat_map (λ k, checkUnknownFields t' (default JNull (m !! k)) (path +:+ "." +:+ k)) (sortedKeys m)
      end
  | _ => []
  end.

(** json.Unmarshal reports no type mismatch: null leaves any target at its zero
    value, and an unknown key is skipped. *)
Fixpoint unmarshals (t : gotype) (raw : json) {struct t} : bool :=
  match t with
  | TRaw => true
  | TPtr t' => match raw with JNull => true | _ => unmarshals t' raw end
  | TString => match raw with JNull | JStr _ => true | _ => false end
  | TBool => match raw with JNull | JBool _ => true | _ => false end
  | TInt => match raw with JNull => true | JNum n => in_int n | _ => false end
  | TFloat => match raw with JNull | JFloat _ => true | JNum n => in_float n | _ => false end
  | TSlice t' => match raw with JNull => true | JArr l => forallb (unmarshals t') l | _ => false end
  | TMap t' => match raw with JNull => true | JObj l => forallb (λ p, unmarshals t' p.2) l | _ => false end
  | TStruct fs =>
      match raw with
      | JNull => true
      | JObj l =>
          forallb (λ p,
            (fix known fs := match fs with
               | [] => true
               | (k', t') :: fs' => if bool_decide (k' = p.1) then unmarshals t' p.2 else known fs'
               end) fs) l
      | _ => false
      end
  end.

(** strictUnmarshal, but for the value it stores. *)
Definition strictUnmarshal (t : gotype) (raw : json) (path : string) : list DecodeError :=
  match raw with
  | JObj _ => checkUnknownFields t raw path ++ err_if (negb (unmarshals t raw)) path (KExpected "object")
  | _ => err_at path (KExpected "object")
  end.

(** ** What json.Unmarshal stores in a field, from the member of the object *)

Definition rd_str (o : option json) : string := match o with Some (JStr s) => s | _ => "" end.
Definition rd_int (o : option json) : Z := match o with Some (JNum n) => n | _ => 0 end.
Definition rd_bool (o : option json) : bool := match o with Some (JBool b) => b | _ => false end.
Definition rd_pint (o : option json) : option Z := match o with Some (JNum n) => Some n | _ => None end.
Definition rd_pfloat (o : option json) : option Q :=
  match o with Some (JNum n) => Some (float_of n) | Some (JFloat q) => Some q | _ => None end.
(** A plain float64 field, in lowest terms. *)
Definition rd_float (o : option json) : Q := Qred (default 0%Q (rd_pfloat o)).
Definition rd_raw (o : option json) : option json := o.
Definition rd_list {A} (f : json → A) (o : option json) : list A := match o with Some (JArr l) => f <$> l | _ => [] end.
Definition rd_plist {A} (f : json → A) (o : option json) : option (list A) :=
  match o with Some (JArr l) => Some (f <$> l) | _ => None end.
Definition rd_ptr {A} (f : json → A) (o : option json) : option A :=
  match o with None | Some JNull => None | Some v => Some (f v) end.
Definition str_of (v : json) : string := rd_str (Some v).
Definition members (v : json) : gmap string json := default ∅ (rawObject v).

(** ** The structs: their JSON fields, and the value read from an object *)

Definition T_Message : gotype := TStruct [("role", TString); ("content", TString)].
Definition read_Message (v : json) : LLMMessage :=
  let m := members v in mkLLMMessage (rd_str (m !! "role")) (rd_str (m !! "content")).

Definition T_OutputFormat : gotype := TStruct [("type", TString); ("schema", TRaw); ("mode", TString)].
Definition read_OutputFormat (v : json) : OutputFormat :=
  let m := members v in mkOutputFormat (rd_str (m !! "type")) (rd_raw (m !! "schema")) (rd_str (m !! "mode")).

Definition T_Fallback : gotype := TStruct [("model", TString); ("at_budget_fraction", TPtr TFloat)].
Definition read_Fallback (v : json) : ModelFallback :=
  let m := members v in mkModelFallback (rd_str (m !! "model")) (rd_pfloat (m !! "at_budget_fraction")).

(** The registered config structs (stepconfig.go), by step type. *)
Definition config_fields (st : string) : list (string * gotype) :=
  if bool_decide (st = StepLLM) then
    [("model", TString); ("system", TString); ("prompt", TString); ("messages", TSlice T_Message);
     ("max_tokens", TInt); ("temperature", TPtr TFloat); ("model_fallbacks", TSlice T_Fallback);
     ("output_format", TPtr T_OutputFormat)]
  else if bool_decide (st = StepTool) then [("tool", TString); ("input", TRaw)]
  else if bool_decide (st = StepRetrieve) then [("retriever", TString); ("query", TString); ("top_k", TInt)]
  else if bool_decide (st = StepMap) then
    [("items", TRaw); ("body", TString); ("max_items", TInt); ("on_item_failure", TString)]
  else if bool_decide (st = StepGather) then [("items", TRaw)]
  else if bool_decide (st = StepPlanner) then
    [("model", TString); ("prompt", TString); ("messages", TSlice T_Message); ("max_tokens", TInt);
     ("temperature", TPtr TFloat); ("max_added_steps", TInt)]
  else if bool_decide (st = StepAgent) then
    [("agent", TString); ("system", TString); ("model", TString); ("prompt", TString); ("messages", TSlice T_Message);
     ("max_tokens", TInt); ("temperature", TPtr TFloat); ("model_fallbacks", TSlice T_Fallback);
     ("output_format", TPtr T_OutputFormat); ("tools", TSlice TString); ("role", TString)]
  else if bool_decide (st = StepHumanApproval) then
    [("title", TString); ("description", TString); ("payload", TRaw); ("allowed_decisions", TSlice TString);
     ("allow_edit", TBool); ("edit_schema", TRaw); ("timeout", TString); ("on_timeout", TString); ("on_reject", TString)]
  else if bool_decide (st = StepJoin) then [("mode", TString)]
  else if bool_decide (st = StepBranch) then [("input", TRaw)]
  else if bool_decide (st = StepEcho) then [("input", TRaw)]
  else if bool_decide (st = StepSleep) then [("duration", TString)]
  else if bool_decide (st = StepFailNTimes) then [("n", TInt)]
  else if bool_decide (st = StepCounter) then [("path", TString)]
  else if bool_decide (st = StepEffectfulEcho) then [("path", TString); ("input", TRaw); ("fail_times", TInt)]
  else if bool_decide (st = StepBlackboardWrite) then
    [("key", TString); ("value", TRaw); ("tags", TSlice TString); ("expected_version", TPtr TInt); ("read_key", TString)]
  else [].                                 (** noop *)
Definition T_Config (st : string) : gotype := TStruct (config_fields st).

Definition read_Config (st : string) (v : json) : StepConfig :=
  let m := members v in
  if bool_decide (st = StepLLM) then
    LLMConfigC (mkLLMConfig (rd_str (m !! "model")) (rd_str (m !! "system")) (rd_str (m !! "prompt"))
      (rd_list read_Message (m !! "messages")) (rd_int (m !! "max_tokens")) (rd_pfloat (m !! "temperature"))
      (rd_list read_Fallback (m !! "model_fallbacks")) (rd_ptr read_OutputFormat (m !! "output_format")))
  else if bool_decide (st = StepTool) then ToolConfigC (mkToolConfig (rd_str (m !! "tool")) (rd_raw (m !! "input")))
  else if bool_decide (st = StepRetrieve) then
    RetrieveConfigC (mkRetrieveConfig (rd_str (m !! "retriever")) (rd_str (m !! "query")) (rd_int (m !! "top_k")))
  else if bool_decide (st = StepMap) then
    MapConfigC (mkMapConfig (rd_raw (m !! "items")) (rd_str (m !! "body")) (rd_int (m !! "max_items"))
      (rd_str (m !! "on_item_failure")))
  else if bool_decide (st = StepGather) then GatherConfigC (mkGatherConfig (rd_raw (m !! "items")))
  else if bool_decide (st = StepPlanner) then
    PlannerConfigC (mkPlannerConfig (rd_str (m !! "model")) (rd_str (m !! "prompt")) (rd_list read_Message (m !! "messages"))
      (rd_int (m !! "max_tokens")) (rd_pfloat (m !! "temperature")) (rd_int (m !! "max_added_steps")))
  else if bool_decide (st = StepAgent) then
    AgentConfigC (mkAgentConfig (rd_str (m !! "agent")) (rd_str (m !! "system")) (rd_str (m !! "model"))
      (rd_str (m !! "prompt")) (rd_list read_Message (m !! "messages")) (rd_int (m !! "max_tokens"))
      (rd_pfloat (m !! "temperature")) (rd_list read_Fallback (m !! "model_fallbacks"))
      (rd_ptr read_OutputFormat (m !! "output_format")) (rd_plist str_of (m !! "tools")) (rd_str (m !! "role")))
  else if bool_decide (st = StepHumanApproval) then
    HumanApprovalConfigC (mkHumanApprovalConfig (rd_str (m !! "title")) (rd_str (m !! "description"))
      (rd_raw (m !! "payload")) (rd_list str_of (m !! "allowed_decisions")) (rd_bool (m !! "allow_edit"))
      (rd_raw (m !! "edit_schema")) (rd_str (m !! "timeout")) (rd_str (m !! "on_timeout")) (rd_str (m !! "on_reject")))
  else if bool_decide (st = StepJoin) then JoinConfigC (rd_str (m !! "mode"))
  else if bool_decide (st = StepBranch) then BranchConfigC (rd_raw (m !! "input"))
  else if bool_decide (st = StepEcho) then EchoConfigC (rd_raw (m !! "input"))
  else if bool_decide (st = StepSleep) then SleepConfigC (rd_str (m !! "duration"))
  else if bool_decide (st = StepFailNTimes) then FailNTimesConfigC (rd_int (m !! "n"))
  else if bool_decide (st = StepCounter) then CounterConfigC (rd_str (m !! "path"))
  else if bool_decide (st = StepEffectfulEcho) then
    EffectfulEchoConfigC (mkEffectfulEchoConfig (rd_str (m !! "path")) (rd_raw (m !! "input")) (rd_int (m !! "fail_times")))
  else if bool_decide (st = StepBlackboardWrite) then
    BlackboardWriteConfigC (mkBlackboardWriteConfig (rd_str (m !! "key")) (rd_raw (m !! "value"))
      (rd_list str_of (m !! "tags")) (rd_pint (m !! "expected_version")) (rd_str (m !! "read_key")))
  else NoopConfigC.

(** *** Envelope policies *)

Definition T_Cache : gotype := TStruct [("mode", TString); ("ttl", TString); ("scope", TString)].
Definition read_Cache (v : json) : CachePolicy :=
  let m := members v in mkCachePolicy (rd_str (m !! "mode")) (rd_str (m !! "ttl")) (rd_str (m !! "scope")).

Definition T_Budget : gotype := TStruct [("max_usd", TPtr TFloat); ("max_tokens", TInt)].
Definition read_Budget (v : json) : StepBudget :=
  let m := members v in mkStepBudget (rd_pfloat (m !! "max_usd")) (rd_int (m !! "max_tokens")).

Definition T_Validator : gotype := TStruct [("name", TString); ("config", TRaw); ("target", TString)].
Definition read_Validator (v : json) : ValidatorSpec :=
  let m := members v in mkValidatorSpec (rd_str (m !! "name")) (rd_raw (m !! "config")) (rd_str (m !! "target")).
Definition T_Feedback : gotype := TStruct [("template", TString); ("max_output_chars", TInt)].
Definition read_Feedback (v : json) : FeedbackPolicy :=
  let m := members v in mkFeedbackPolicy (rd_str (m !! "template")) (rd_int (m !! "max_output_chars")).
Definition T_Validation : gotype :=
  TStruct [("validators", TSlice T_Validator); ("max_attempts", TInt); ("feedback", TPtr T_Feedback)].
Definition read_Validation (v : json) : ValidationPolicy :=
  let m := members v in
  mkValidationPolicy (rd_list read_Validator (m !! "validators")) (rd_int (m !! "max_attempts"))
    (rd_ptr read_Feedback (m !! "feedback")).

Definition T_Write : gotype := TStruct [("key", TString); ("from", TString); ("tags", TSlice TString); ("pinned", TBool)].
Definition read_Write (v : json) : BlackboardWrite :=
  let m := members v in
  mkBlackboardWrite (rd_str (m !! "key")) (rd_str (m !! "from")) (rd_list str_of (m !! "tags")) (rd_bool (m !! "pinned")).
Definition T_Blackboard : gotype := TStruct [("write", TSlice T_Write)].
Definition read_Blackboard (v : json) : BlackboardPolicy := mkBlackboardPolicy (rd_list read_Write (members v !! "write")).

Definition T_Strategy : gotype :=
  TStruct [("strategy", TString); ("n", TPtr TInt); ("min_tokens", TPtr TInt); ("model", TString); ("key", TString);
           ("max_tokens", TPtr TInt); ("timeout", TString)].
Definition read_Strategy (v : json) : CompactionStrategy :=
  let m := members v in
  mkCompactionStrategy (rd_str (m !! "strategy")) (rd_pint (m !! "n")) (rd_pint (m !! "min_tokens")) (rd_str (m !! "model"))
    (rd_str (m !! "key")) (rd_pint (m !! "max_tokens")) (rd_str (m !! "timeout")).
Definition T_Source : gotype :=
  TStruct [("kind", TString); ("name", TString); ("step", TString); ("path", TString); ("key", TString); ("role", TString);
           ("tags", TSlice TString); ("retriever", TString); ("query", TString); ("top_k", TPtr TInt); ("text", TString);
           ("max_tokens", TPtr TInt); ("pinned", TBool); ("priority", TPtr TInt); ("on_missing", TString)].
Definition read_Source (v : json) : ContextSource :=
  let m := members v in
  mkContextSource (rd_str (m !! "kind")) (rd_str (m !! "name")) (rd_str (m !! "step")) (rd_str (m !! "path"))
    (rd_str (m !! "key")) (rd_str (m !! "role")) (rd_list str_of (m !! "tags")) (rd_str (m !! "retriever"))
    (rd_str (m !! "query")) (rd_pint (m !! "top_k")) (rd_str (m !! "text")) (rd_pint (m !! "max_tokens"))
    (rd_bool (m !! "pinned")) (rd_pint (m !! "priority")) (rd_str (m !! "on_missing")).
Definition T_Context : gotype :=
  TStruct [("sources", TSlice T_Source); ("budget_tokens", TPtr TInt); ("compaction", TSlice T_Strategy)].
Definition read_Context (v : json) : ContextSpec :=
  let m := members v in
  mkContextSpec (rd_list read_Source (m !! "sources")) (rd_pint (m !! "budget_tokens"))
    (rd_list read_Strategy (m !! "compaction")).

(** *** Retry policies *)

Definition errorClasses : list ErrorClass :=
  [ClassTransient; ClassPermanent; ClassTimeout; ClassCancelled; ClassValidationFailed].
Definition class_of (s : string) : option ErrorClass := find (λ c, bool_decide (class_text c = s)) errorClasses.
Definition read_class (v : json) : ErrorClass := default ClassTransient (class_of (str_of v)).
Definition T_Backoff : gotype := TStruct [("initial", TString); ("cap", TString); ("multiplier", TFloat)].
Definition read_Backoff (v : json) : BackoffSpec :=
  let m := members v in mkBackoffSpec (rd_str (m !! "initial")) (rd_str (m !! "cap")) (rd_float (m !! "multiplier")).
Definition T_Retry : gotype :=
  TStruct [("max_attempts", TInt); ("backoff", TPtr T_Backoff); ("jitter", TString); ("retry_on", TSlice TString)].
Definition read_Retry (v : json) : RetryPolicy :=
  let m := members v in
  mkRetryPolicy (rd_int (m !! "max_attempts")) (rd_ptr read_Backoff (m !! "backoff")) (rd_str (m !! "jitter"))
    (rd_plist read_class (m !! "retry_on")).

(** *** Top-level blocks and edges *)

Definition T_Expansion : gotype :=
  TStruct [("max_added_steps", TPtr TInt); ("max_total_steps", TPtr TInt); ("max_expansions", TPtr TInt); ("max_depth", TPtr TInt)].
Definition read_Expansion (v : json) : ExpansionPolicy :=
  let m := members v in
  mkExpansionPolicy (rd_pint (m !! "max_added_steps")) (rd_pint (m !! "max_total_steps")) (rd_pint (m !! "max_expansions"))
    (rd_pint (m !! "max_depth")).

Definition T_Param : gotype := TStruct [("type", TString); ("required", TBool)].
Definition read_Param (v : json) : ParamSpec :=
  let m := members v in mkParamSpec (rd_str (m !! "type")) (rd_bool (m !! "required")).

Definition T_Agent : gotype :=
  TStruct [("role", TString); ("system", TString); ("model", TString); ("model_fallbacks", TSlice T_Fallback);
           ("tools", TSlice TString); ("max_tokens", TInt); ("temperature", TPtr TFloat);
           ("output_format", TPtr T_OutputFormat); ("validation", TPtr T_Validation); ("context", TPtr T_Context)].
Definition read_Agent (v : json) : AgentDef :=
  let m := members v in
  mkAgentDef (rd_str (m !! "role")) (rd_str (m !! "system")) (rd_str (m !! "model"))
    (rd_list read_Fallback (m !! "model_fallbacks")) (rd_plist str_of (m !! "tools")) (rd_int (m !! "max_tokens"))
    (rd_pfloat (m !! "temperature")) (rd_ptr read_OutputFormat (m !! "output_format"))
    (rd_ptr read_Validation (m !! "validation")) (rd_ptr read_Context (m !! "context")).

Definition T_NoProgress : gotype := TStruct [("step", TString); ("path", TString); ("policy", TString)].
Definition read_NoProgress (v : json) : NoProgressPolicy :=
  let m := members v in mkNoProgressPolicy (rd_str (m !! "step")) (rd_str (m !! "path")) (rd_str (m !! "policy")).
Definition T_Edge : gotype :=
  TStruct [("from", TString); ("to", TString); ("when", TString); ("type", TString); ("condition", TString);
           ("max_iterations", TInt); ("on_exhausted", TString); ("no_progress", TPtr T_NoProgress); ("decision", TString)].
