(* ===== verification/Expansion.v ===== *)
(** internal/dag/expansion.go: the delta a completing step splices into its run,
    and its validation against the running graph ([ValidateExpansion]).

    As in ValidateGraph, an issue is its code, severity and path, and the CEL
    compiler and text/template's parser are parameters. *)
From Stdlib Require Import QArith.
From S2P Require Import Prelude Issues GoStd Retry StoreModel Config Template Dag GraphFacts Cycles Validate ValidateGraph.
Open Scope Z_scope.

(** ** The delta *)

Definition PlanSchemaVersion : Z := 1.

Record PlanOutput : Type := mkPlanOutput { po_SchemaVersion : Z; po_Steps : list Step; po_Edges : list Edge }.

(** Its JSON: the struct tags of Step, RetryPolicy and PlanOutput, and
    Edge.MarshalJSON. *)
Definition marshalBackoff (b : BackoffSpec) : json :=
  JObj (omit_str "initial" (Initial b) ++ omit_str "cap" (Cap b) ++
        (if Qeq_bool (Multiplier b) 0 then [] else field "multiplier" (JFloat (Multiplier b)))).
Definition marshalRetry (p : RetryPolicy) : json :=
  JObj (omit_int "max_attempts" (MaxAttempts p) ++ omit_opt "backoff" (marshalBackoff <$> Backoff p) ++
        omit_str "jitter" (Jitter p) ++
        omit_list "retry_on" ((λ c, JStr (class_text c)) <$> default [] (RetryOn p))).
Definition marshalStep (s : Step) : json :=
  let p := Policies s in
  JObj (field "id" (JStr (ID s)) ++ field "type" (JStr (Type_ s)) ++ omit_opt "config" (marshalConfig <$> Config s) ++
        omit_opt "retry" (marshalRetry <$> sp_Retry p) ++ omit_str "timeout" (sp_Timeout p) ++
        omit_opt "cache" (marshalCache <$> sp_Cache p) ++ omit_opt "budget" (marshalBudget <$> sp_Budget p) ++
        omit_opt "validation" (marshalValidation <$> Validation s) ++
        omit_opt "blackboard" (marshalBlackboard <$> sp_Blackboard p) ++ omit_opt "context" (marshalContext <$> Context_ s)).
Definition marshalNoProgress (np : NoProgressPolicy) : json :=
  JObj (omit_str "step" (np_Step np) ++ omit_str "path" (np_Path np) ++ omit_str "policy" (np_Policy np)).
Definition marshalEdge (e : Edge) : json :=
  JObj (field "from" (JStr (From e)) ++ field "to" (JStr (To e)) ++ omit_str "when" (When e) ++
        (if IsLoop e then field "type" (JStr "loop") else []) ++ omit_str "condition" (Condition e) ++
        omit_int "max_iterations" (MaxIterations e) ++
        (if bool_decide (OnExhausted e = ExhaustProceed) then [] else omit_str "on_exhausted" (OnExhausted e)) ++
        omit_opt "no_progress" (marshalNoProgress <$> NoProgress e) ++ omit_str "decision" (Decision e)).
Definition marshalPlan (p : PlanOutput) : json :=
  JObj (field "schema_version" (JNum (po_SchemaVersion p)) ++ field "steps" (JArr (marshalStep <$> po_Steps p)) ++
        omit_list "edges" (marshalEdge <$> po_Edges p)).

(** ** Origins and anchors *)

(** ExpansionOriginKind. *)
Definition OriginPlanner : string := "planner".
Definition OriginMap : string := "map".
Definition OriginLoop : string := "loop".
Record ExpansionOrigin : Type := mkExpansionOrigin { xo_Kind : string; xo_StepID : string; xo_Depth : Z }.

Inductive ExpansionAnchorStatus : Type := AnchorPending | AnchorActive | AnchorTerminal.
#[export] Instance ExpansionAnchorStatus_eq_dec : EqDecision ExpansionAnchorStatus.
Proof. solve_decision. Defined.
Record ExpansionAnchor : Type := mkExpansionAnchor {
  an_Type : string; an_Status : ExpansionAnchorStatus; an_Succeeded : bool }.

Record ExpansionInput : Type := mkExpansionInput {
  xi_Plan : PlanOutput;
  xi_Origin : ExpansionOrigin;
  xi_Existing : gmap string ExpansionAnchor;
  xi_ExistingEdges : list Edge;
  xi_RunParams : option json;
  xi_PerExpansionCap : Z;
  xi_Caps : ExpansionCaps;
  xi_CurrentStepCount : Z;
  xi_ExpansionsSoFar : Z
}.

(** ** Verdicts *)

Definition OK (v : ExpansionVerdict) : bool :=
  forallb (λ i, negb (bool_decide (issue_Severity i = SeverityError))) (xv_Issues v).
Definition CapExceeded (v : ExpansionVerdict) : bool := has [CodeExpansionCapExceeded] (xv_Issues v).

(** ** Caps *)

Definition breach (crossed : bool) (path limit : string) (current cap : Z) : list (ValidationIssue * CapBreach) :=
  if crossed then [(mkIssue CodeExpansionCapExceeded SeverityError path, mkCapBreach limit current cap)] else [].
Definition check_caps (inp : ExpansionInput) : list (ValidationIssue * CapBreach) :=
  let n := zlen (po_Steps (xi_Plan inp)) in
  let total := xi_CurrentStepCount inp + n in
  let nth := xi_ExpansionsSoFar inp + 1 in
  let depth := xo_Depth (xi_Origin inp) + 1 in
  let caps := xi_Caps inp in
  breach ((0 <? xi_PerExpansionCap inp) && (xi_PerExpansionCap inp <? n)) "plan.steps" "max_added_steps" n
    (xi_PerExpansionCap inp) ++
  breach (MaxTotalSteps caps <? total) "plan.steps" "max_total_steps" total (MaxTotalSteps caps) ++
  breach (MaxExpansions caps <? nth) "plan" "max_expansions" nth (MaxExpansions caps) ++
  breach (MaxDepth caps <? depth) "plan" "max_depth" depth (MaxDepth caps).

Section validate.
Context (CompileExpr : string → exprResult) (textTemplateParses : list outSeg → bool).

(** ** Injected steps *)

(** The engine's own expansions mint ids in the reserved instance space. *)
Definition allowInstanceIDs (inp : ExpansionInput) : bool :=
  (po_SchemaVersion (xi_Plan inp) =? PlanSchemaVersion) &&
  (bool_decide (xo_Kind (xi_Origin inp) = OriginMap) || bool_decide (xo_Kind (xi_Origin inp) = OriginLoop)).

Definition check_injected (path : string) (s : Step) : list ValidationIssue :=
  checkStepConfig path s ++ checkOutputFormat path s ++ checkRetry path (sp_Retry (Policies s)) ++
  checkTimeout path (sp_Timeout (Policies s)) ++ checkCache path (sp_Cache (Policies s)) ++
  checkStepBudget path (Type_ s) (sp_Budget (Policies s)) ++ checkValidation path s ++
  checkBlackboard path (sp_Blackboard (Policies s)) ++ checkContext path s.

Fixpoint check_plan_steps (inp : ExpansionInput) (i : nat) (l : list Step) (seen : list string) : list ValidationIssue :=
  match l with
  | [] => []
  | s :: l' =>
      let p := at_index "plan.steps" i in
      add_if (negb (stepIDRe (ID s)) && (negb (allowInstanceIDs inp) || negb (instanceStepIDRe (ID s))))
        CodeInvalidStepID (p +:+ ".id") ++
      add_if (is_Some_b (xi_Existing inp !! ID s)) CodeExpansionAnchorInvalid (p +:+ ".id") ++
      add_if (bool_decide (ID s ∈ seen)) CodeDuplicateStepID (p +:+ ".id") ++
      add_if (negb (bool_decide (Type_ s ∈ stepConfigTypes))) CodeUnknownStepType (p +:+ ".type") ++
      check_injected p s ++
      check_plan_steps inp (S i) l' (ID s :: seen)
  end.

(** ** Spliced edges *)

Definition anchor_is (st : ExpansionAnchorStatus) (a : option ExpansionAnchor) : bool :=
  match a with Some a => bool_decide (an_Status a = st) | None => false end.

(** [delta] is the ID→index map of the plan's own steps. *)
Definition check_plan_edge (inp : ExpansionInput) (delta : gmap string nat) (i : nat) (e : Edge) : list ValidationIssue :=
  let p := at_index "plan.edges" i in
  let fromDelta := is_Some_b (delta !! From e) in
  let fromAnchor := xi_Existing inp !! From e in
  let toDelta := is_Some_b (delta !! To e) in
  let toAnchor := xi_Existing inp !! To e in
  let fromExisting := is_Some_b fromAnchor in
  let toExisting := is_Some_b toAnchor in
  add_if (negb fromDelta && negb fromExisting) CodeUnknownEdgeEndpoint (p +:+ ".from") ++
  add_if (negb toDelta && negb toExisting) CodeUnknownEdgeEndpoint (p +:+ ".to") ++
  add_if (fromExisting && negb fromDelta && toExisting && negb toDelta) CodeExpansionAnchorInvalid p ++
  add_if (fromExisting && negb fromDelta && anchor_is AnchorTerminal fromAnchor)
    CodeExpansionAnchorInvalid (p +:+ ".from") ++
  add_if (toExisting && negb toDelta && negb (anchor_is AnchorPending toAnchor))
    CodeExpansionAnchorInvalid (p +:+ ".to") ++
  checkExpansionEdgeFields CompileExpr p e.

(** ** The merged graph *)

(** buildMergedGraph: the existing steps in id order, then the plan's. *)
Definition merged (inp : ExpansionInput) : Definition_ :=
  plainDefinition "" ""
    (((λ id, mkStep id (default "" (an_Type <$> xi_Existing inp !! id)) None None None noPolicies)
        <$> sortedKeys (xi_Existing inp)) ++ po_Steps (xi_Plan inp))
    (xi_ExistingEdges inp ++ po_Edges (xi_Plan inp)).

Definition touchesDelta (delta : gmap string nat) (e : Edge) : bool :=
  is_Some_b (delta !! From e) || is_Some_b (delta !! To e).

Definition checkMergedGraph (inp : ExpansionInput) (g : Graph) (delta : gmap string nat) : list ValidationIssue :=
  concat ((λ c, add_if (touchesDelta delta (edge_at g (edgeIdx c))) CodeCycle "plan.edges") <$> findCycles g) ++
  for_range (po_Edges (xi_Plan inp)) (λ i e,
    if negb (IsLoop e) then []
    else match index g !! From e, index g !! To e with
         | Some fromIdx, Some toIdx =>
             add_if (negb (reaches g toIdx fromIdx)) CodeLoopEdgeNotAncestor (at_index "plan.edges" i)
         | _, _ => []
         end).

(** ** References of the injected steps *)

Definition paramDeclared (params : option json) (key : string) : bool :=
  match params with Some (JObj fs) => bool_decide (key ∈ fs.*1) | _ => false end.

(** The classification of a reference, with the succeeded-anchor relaxation. *)
Definition classify (inp : ExpansionInput) (g : Graph) (fromStepID refStepID : string) : refStatus :=
  match classifyUpstreamRef g fromStepID refStepID (ancestors_of g fromStepID) with
  | refNotAncestor =>
      match xi_Existing inp !! refStepID with
      | Some a => if an_Succeeded a then refOK else refNotAncestor
      | None => refNotAncestor
      end
  | st => st
  end.

Definition check_plan_ref (inp : ExpansionInput) (g : Graph) (base : string) (s : Step) (r : TemplateRef)
    : list ValidationIssue :=
  let path := tmplIssuePath base (ConfigPath r) in
  if Lenient r then []
  else if negb (empty_str (StepID r)) then
    match classify inp g (ID s) (StepID r) with
    | refUnknownStep => add CodeTemplateRefUnknownStep path
    | refSelf | refNotAncestor => add CodeTemplateRefNotUpstream path
    | refOK => []
    end
  else add_if (negb (empty_str (ParamKey r)) && negb (paramDeclared (xi_RunParams inp) (ParamKey r)))
         CodeTemplateRefUnknownParam path.

Definition checkExpansionRefs (inp : ExpansionInput) (g : Graph) : list ValidationIssue :=
  for_range (po_Steps (xi_Plan inp)) (λ i s,
    let base := at_index "plan.steps" i in
    (match Config s with
     | None => []
     | Some c =>
         let raw := marshalConfig c in
         if negb (json_has_template raw) then []
         else match ParseConfigTemplates textTemplateParses raw with
              | inl _ => []
              | inr (_, refs) => concat (check_plan_ref inp g (base +:+ ".config") s <$> refs)
              end
     end) ++
    (match Context_ s with
     | None => []
     | Some cs =>
         for_range (ctx_Sources cs) (λ j src,
           if negb (bool_decide (src_Kind src = SourceStepOutput)) || empty_str (src_Step src) then []
           else match classify inp g (ID s) (src_Step src) with
                | refOK => []
                | _ => add CodeContextFieldInvalid (at_index (base +:+ ".context.sources") j +:+ ".step")
                end)
     end)).

(** ** ValidateExpansion *)

Definition shape_issues (inp : ExpansionInput) : list ValidationIssue :=
  let plan := xi_Plan inp in
  add_if (negb (po_SchemaVersion plan =? PlanSchemaVersion)) CodeExpansionFieldInvalid "plan.schema_version" ++
  add_if (bool_decide (length (po_Steps plan) = 0%nat)) CodeExpansionFieldInvalid "plan.steps" ++
  (check_caps inp).*1 ++
  check_plan_steps inp 0 (po_Steps plan) [] ++
  for_range (po_Edges plan) (check_plan_edge inp (step_index (po_Steps plan))).

Definition ValidateExpansion (inp : ExpansionInput) : ExpansionVerdict :=
  let delta := step_index (po_Steps (xi_Plan inp)) in
  let issues := shape_issues inp in
  mkExpansionVerdict
    (issues ++
     (if has [CodeDuplicateStepID; CodeUnknownEdgeEndpoint; CodeExpansionAnchorInvalid; CodeInvalidStepID] issues then []
      else match NewGraph (merged inp) with
           | inl _ => []
           | inr g => checkMergedGraph inp g delta ++ checkExpansionRefs inp g
           end))
    (check_caps inp).*2.
End validate.
