(* ===== verification/Decode.v ===== *)
(** internal/dag/decode.go and encode.go: workflow definitions from and to JSON
    documents ([Decode], [Encode], [DecodeStepConfig]), and the plan a planner
    returns ([DecodePlanOutput], expansion.go).

    Every function returns its value with the diagnostics it adds to the error
    list; a document with a diagnostic is rejected as a whole. *)
From Stdlib Require Import QArith.
From S2P Require Import Prelude Issues GoStd Retry StoreModel Config Template Dag Validate ValidateGraph Codec Expansion.
Open Scope Z_scope.

(** ** Closed enums *)

Definition jitterModes : list string := [JitterFull; JitterNone].
Definition cacheModes : list string := ["off"; "read_write"; "read_only"].
Definition cacheScopes : list string := ["global"; "run"].
Definition failurePolicies : list string := [FailFast; ContinueIndependentBranches].
Definition budgetPolicies : list string := [BudgetPark; "fail"].
Definition itemFailurePolicies : list string := [ItemFailFast; ItemCollectErrors].
Definition approvalTimeoutPolicies : list string := [ApprovalTimeoutReject; ApprovalTimeoutApprove; ApprovalTimeoutPark].
Definition approvalRejectPolicies : list string := [ApprovalRejectFail; ApprovalRejectRoute].
Definition contextSourceKinds : list string :=
  [SourceStepOutput; SourceBlackboard; SourceRetrieval; SourceLiteral; SourceThread].
Definition contextMissingPolicies : list string := ["error"; "skip"].
Definition compactionStrategyKinds : list string := [DropLowestPriority; TruncateOldest; SlidingWindow; SummarizeStrategy].
Definition paramTypes : list string := ["string"; "number"; "boolean"; "object"; "array"].

(** An enum field: the value is listed, or empty where [opt]. *)
Definition check_enum (opt : bool) (l : list string) (s path : string) : list DecodeError :=
  err_if (negb (opt && bool_decide (s = "")) && negb (bool_decide (s ∈ l))) path KUnknownValue.
Definition check_enums (l : list string) (path : string) (vals : list string) : list DecodeError :=
  concat (imap (λ i s, check_enum false l s (at_index path i)) vals).

(** ** Envelope policies *)

Definition checkContextEnums (path : string) (cs : ContextSpec) : list DecodeError :=
  concat (imap (λ i s,
    let sp := at_index (path +:+ ".sources") i in
    check_enum true contextSourceKinds (src_Kind s) (sp +:+ ".kind") ++
    check_enum true contextMissingPolicies (src_OnMissing s) (sp +:+ ".on_missing")) (ctx_Sources cs)) ++
  concat (imap (λ i c,
    check_enum true compactionStrategyKinds (cs_Strategy c) (at_index (path +:+ ".compaction") i +:+ ".strategy"))
    (ctx_Compaction cs)).

Definition decodeContext (raw : json) (path : string) : ContextSpec * list DecodeError :=
  let cs := read_Context raw in (cs, strictUnmarshal T_Context raw path ++ checkContextEnums path cs).
Definition decodeExpansion (raw : json) (path : string) : ExpansionPolicy * list DecodeError :=
  (read_Expansion raw, strictUnmarshal T_Expansion raw path).
Definition decodeValidation (raw : json) (path : string) : ValidationPolicy * list DecodeError :=
  (read_Validation raw, strictUnmarshal T_Validation raw path).
Definition decodeBlackboard (raw : json) (path : string) : BlackboardPolicy * list DecodeError :=
  (read_Blackboard raw, strictUnmarshal T_Blackboard raw path).
Definition decodeBudget (raw : json) (path : string) : StepBudget * list DecodeError :=
  (read_Budget raw, strictUnmarshal T_Budget raw path).
Definition decodeCache (raw : json) (path : string) : CachePolicy * list DecodeError :=
  let cp := read_Cache raw in
  (cp, strictUnmarshal T_Cache raw path ++ check_enum true cacheModes (cp_Mode cp) (path +:+ ".mode") ++
       check_enum true cacheScopes (cp_Scope cp) (path +:+ ".scope")).
Definition decodeRetry (raw : json) (path : string) : RetryPolicy * list DecodeError :=
  let rp := read_Retry raw in
  (rp, strictUnmarshal T_Retry raw path ++ check_enum true jitterModes (Jitter rp) (path +:+ ".jitter") ++
       check_enums (class_text <$> errorClasses) (path +:+ ".retry_on") (rd_list str_of (members raw !! "retry_on"))).

(** ** Step configs *)

(** The per-type enum checks. *)
Definition config_enums (path : string) (c : StepConfig) : list DecodeError :=
  match c with
  | MapConfigC c => check_enum true itemFailurePolicies (map_OnItemFailure c) (path +:+ ".on_item_failure")
  | HumanApprovalConfigC c =>
      check_enums approvalDecisions (path +:+ ".allowed_decisions") (ha_AllowedDecisions c) ++
      check_enum true approvalTimeoutPolicies (ha_OnTimeout c) (path +:+ ".on_timeout") ++
      check_enum true approvalRejectPolicies (ha_OnReject c) (path +:+ ".on_reject")
  | JoinConfigC m => check_enum true [JoinAll; JoinAny] m (path +:+ ".mode")
  | _ => []
  end.
Definition decodeStepConfig (st : string) (raw : json) (path : string) : option StepConfig * list DecodeError :=
  match raw with
  | JObj _ =>
      let cfg := read_Config st raw in
      (Some cfg, strictUnmarshal (T_Config st) raw path ++ config_enums path cfg)
  | _ => (None, err_at path (KExpected "object"))
  end.

(** A nil raw config is [None]. *)
Definition DecodeStepConfig (st : string) (raw : option json) : list DecodeError + option StepConfig :=
  if negb (bool_decide (st ∈ stepConfigTypes)) then inl (err_at "config" KUnknownValue)
  else match raw with
       | None => inr None
       | Some raw =>
           match decodeStepConfig st raw "config" with
           | (cfg, []) => inr cfg
           | (_, errs) => inl errs
           end
       end.

(** ** Steps and edges *)

(** A member that is decoded when it is present. *)
Definition optional {A} (m : gmap string json) (k path : string) (f : json → string → A * list DecodeError)
    : option A * list DecodeError :=
  match m !! k with
  | None => (None, [])
  | Some raw => let '(a, errs) := f raw (path +:+ k) in (Some a, errs)
  end.
Definition optional_string (m : gmap string json) (k path : string) : string * list DecodeError :=
  let '(s, errs) := optional m k path decodeString in (default "" s, errs).
Definition required_string (m : gmap string json) (k path : string) : string * list DecodeError :=
  match m !! k with
  | None => ("", err_at (path +:+ k) KMissing)
  | Some raw => decodeString raw (path +:+ k)
  end.
Definition unknown_keys (known : list string) (m : gmap string json) (path : string) : list DecodeError :=
  flat_map (λ k, err_if (negb (bool_decide (k ∈ known))) (path +:+ k) KUnknownField) (sortedKeys m).

Definition zero_step : Step := mkStep "" "" None None None noPolicies.
(** The step's type: its name, and whether a config struct is registered for it. *)
Definition decode_type (m : gmap string json) (path : string) : string * bool * list DecodeError :=
  match m !! "type" with
  | None => ("", false, err_at (path +:+ "type") KMissing)
  | Some (JStr s) =>
      if bool_decide (s ∈ stepConfigTypes) then (s, true, []) else (s, false, err_at (path +:+ "type") KUnknownValue)
  | Some raw => ("", false, (decodeString raw (path +:+ "type")).2)
  end.
Definition decode_config (typeKnown : bool) (st : string) (m : gmap string json) (path : string)
    : option StepConfig * list DecodeError :=
  if typeKnown then
    match m !! "config" with
    | None => (None, [])
    | Some raw => decodeStepConfig st raw (path +:+ "config")
    end
  else (None, []).
Definition step_keys : list string :=
  ["id"; "type"; "config"; "retry"; "timeout"; "cache"; "budget"; "validation"; "blackboard"; "context"].

Definition decodeStep (raw : json) (path : string) : Step * list DecodeError :=
  match rawObject raw with
  | None => (zero_step, err_at path (KExpected "object"))
  | Some m =>
      let p := path +:+ "." in
      let '(id, e1) := required_string m "id" p in
      let '(st, typeKnown, e2) := decode_type m p in
      let '(cfg, e3) := decode_config typeKnown st m p in
      let '(retry, e4) := optional m "retry" p decodeRetry in
      let '(timeout, e5) := optional_string m "timeout" p in
      let '(cache, e6) := optional m "cache" p decodeCache in
      let '(budget, e7) := optional m "budget" p decodeBudget in
      let '(validation, e8) := optional m "validation" p decodeValidation in
      let '(blackboard, e9) := optional m "blackboard" p decodeBlackboard in
      let '(context, e10) := optional m "context" p decodeContext in
      (mkStep id st cfg validation context (mkStepPolicies retry timeout cache budget blackboard),
       e1 ++ e2 ++ e3 ++ e4 ++ e5 ++ e6 ++ e7 ++ e8 ++ e9 ++ e10 ++ unknown_keys step_keys m p)
  end.

(** An array, element by element. *)
Definition decode_items {A} (f : json → string → A * list DecodeError) (raw : json) (path : string)
    : list A * list DecodeError :=
  match decodeArray raw path with
  | (None, errs) => ([], errs)
  | (Some l, _) => (imap (λ i v, (f v (at_index path i)).1) l, concat (imap (λ i v, (f v (at_index path i)).2) l))
  end.
Definition decodeSteps (raw : json) : list Step * list DecodeError := decode_items decodeStep raw "steps".

(** The edge type, as the document spells it. *)
Definition edge_type (s : string) : EdgeType := if bool_decide (s = "loop") then EdgeTypeLoop else EdgeTypeNormal.
Definition read_Edge (v : json) : Edge :=
  let m := members v in
  let ty := edge_type (rd_str (m !! "type")) in
  let ex := rd_str (m !! "on_exhausted") in
  mkLoopEdge (rd_str (m !! "from")) (rd_str (m !! "to")) (rd_str (m !! "when")) ty (rd_str (m !! "condition"))
    (rd_int (m !! "max_iterations"))
    (if bool_decide (ty = EdgeTypeLoop) && bool_decide (ex = "") then ExhaustProceed else ex)
    (rd_ptr read_NoProgress (m !! "no_progress")) (rd_str (m !! "decision")).
Definition decodeEdge (raw : json) (path : string) : Edge * list DecodeError :=
  match rawObject raw with
  | None => (mkEdge "" "" "" EdgeTypeNormal "", err_at path (KExpected "object"))
  | Some m =>
      let edge := read_Edge raw in
      (edge,
       flat_map (λ k, err_if (negb (is_Some_b (m !! k))) (path +:+ "." +:+ k) KMissing) ["from"; "to"] ++
       strictUnmarshal T_Edge raw path ++
       check_enum true ["normal"; "loop"] (rd_str (m !! "type")) (path +:+ ".type") ++
       check_enum true approvalDecisions (Decision edge) (path +:+ ".decision"))
  end.
Definition decodeEdges (raw : json) : list Edge * list DecodeError := decode_items decodeEdge raw "edges".

(** ** The libraries of a definition *)

(** A string-keyed object, entry by entry; an entry may be dropped. *)
Definition decode_entries {A} (f : json → string → option A * list DecodeError) (raw : json) (path : string)
    : gmap string A * list DecodeError :=
  match rawObject raw with
  | None => (∅, err_at path (KExpected "object"))
  | Some m =>
      (map_imap (λ k v, (f v (path +:+ "." +:+ k)).1) m,
       flat_map (λ k, (f (default JNull (m !! k)) (path +:+ "." +:+ k)).2) (sortedKeys m))
  end.

Definition decode_param (raw : json) (path : string) : option ParamSpec * list DecodeError :=
  let spec := read_Param raw in
  (Some spec,
   strictUnmarshal T_Param raw path ++
   (if bool_decide (ps_Type spec = "") then err_at (path +:+ ".type") KMissing
    else check_enum false paramTypes (ps_Type spec) (path +:+ ".type"))).
Definition decodeParams (raw : json) : gmap string ParamSpec * list DecodeError := decode_entries decode_param raw "params".

Definition decode_template (raw : json) (path : string) : option (option Template) * list DecodeError :=
  match rawObject raw with
  | None => (None, err_at path (KExpected "object"))
  | Some tm =>
      let '(steps, e1) := match tm !! "steps" with
                          | Some raw => decodeSteps raw
                          | None => ([], err_at (path +:+ ".steps") KMissing)
                          end in
      let '(edges, e2) := match tm !! "edges" with Some raw => decodeEdges raw | None => ([], []) end in
      (Some (Some (mkTemplate steps edges)), e1 ++ e2 ++ unknown_keys ["steps"; "edges"] tm (path +:+ "."))
  end.
Definition decodeTemplates (raw : json) : gmap string (option Template) * list DecodeError :=
  decode_entries decode_template raw "templates".

Definition decode_agent (raw : json) (path : string) : option (option AgentDef) * list DecodeError :=
  let a := read_Agent raw in
  (Some (Some a),
   strictUnmarshal T_Agent raw path ++
   match ad_Context a with Some cs => checkContextEnums (path +:+ ".context") cs | None => [] end).
Definition decodeAgents (raw : json) : gmap string (option AgentDef) * list DecodeError :=
  decode_entries decode_agent raw "agents".

(** ** Documents *)

Definition CurrentSchemaVersion : Z := 1.
Definition MaxDefinitionBytes : Z := 1048576.

(** A definition with its document-level metadata. *)
Record Document : Type := mkDocument {
  doc_SchemaVersion : Z;
  doc_Description : string;
  doc_UI : option json;
  doc_Definition : Definition_
}.

(** A string member of a closed enum. *)
Definition optional_enum (l : list string) (m : gmap string json) (k : string) : string * list DecodeError :=
  match m !! k with
  | None => ("", [])
  | Some (JStr s) => (s, check_enum false l s k)
  | Some raw => decodeString raw k
  end.
(** A required array member. *)
Definition required_items {A} (m : gmap string json) (k : string) (f : json → list A * list DecodeError)
    : list A * list DecodeError :=
  match m !! k with Some raw => f raw | None => ([], err_at k KMissing) end.
Definition optional_map {A} (m : gmap string json) (k : string) (f : json → gmap string A * list DecodeError)
    : gmap string A * list DecodeError :=
  match m !! k with Some raw => f raw | None => (∅, []) end.
Definition decode_ui (m : gmap string json) : option json * list DecodeError :=
  match m !! "ui" with
  | None => (None, [])
  | Some (JObj l) => (Some (JObj l), [])
  | Some _ => (None, err_at "ui" (KExpected "object"))
  end.
Definition top_level : list string :=
  ["schema_version"; "name"; "description"; "on_failure"; "max_wall_clock"; "budget_usd"; "on_budget_exceeded"; "expansion";
   "templates"; "agents"; "params"; "steps"; "edges"; "ui"].

(** The body of a document whose version is supported. *)
Definition decode_body (ver : Z) (fields : gmap string json) : Document * list DecodeError :=
  let '(name, e1) := required_string fields "name" "" in
  let '(description, e2) := optional_string fields "description" "" in
  let '(onFailure, e3) := optional_enum failurePolicies fields "on_failure" in
  let '(maxWallClock, e4) := optional_string fields "max_wall_clock" "" in
  let '(budget, e5) := optional fields "budget_usd" "" decodeFloat in
  let '(onBudget, e6) := optional_enum budgetPolicies fields "on_budget_exceeded" in
  let '(expansion, e7) := optional fields "expansion" "" decodeExpansion in
  let '(templates, e8) := optional_map fields "templates" decodeTemplates in
  let '(agents, e9) := optional_map fields "agents" decodeAgents in
  let '(params, e10) := optional_map fields "params" decodeParams in
  let '(steps, e11) := required_items fields "steps" decodeSteps in
  let '(edges, e12) := required_items fields "edges" decodeEdges in
  let '(ui, e13) := decode_ui fields in
  (mkDocument ver description ui
     (mkDefinition name onFailure maxWallClock (mjoin budget) onBudget expansion templates agents params steps edges),
   e1 ++ e2 ++ e3 ++ e4 ++ e5 ++ e6 ++ e7 ++ e8 ++ e9 ++ e10 ++ e11 ++ e12 ++ e13 ++ unknown_keys top_level fields "").

(** The version gate, reported alone. *)
Definition decode_version (current : Z) (fields : gmap string json) : list DecodeError + Z :=
  match fields !! "schema_version" with
  | None => inl (err_at "schema_version" KMissing)
  | Some raw =>
      match decodeInt raw "schema_version" with
      | (None, errs) => inl errs
      | (Some ver, _) => if ver =? current then inr ver else inl (err_at "schema_version" KVersion)
      end
  end.

(** [size] is the length of the document in bytes. *)
Definition Decode (size : Z) (data : json) : list DecodeError + Document :=
  if MaxDefinitionBytes <? size then inl (err_at "" KLimit)
  else match rawObject data with
       | None => inl (err_at "" (KExpected "object"))
       | Some fields =>
           match decode_version CurrentSchemaVersion fields with
           | inl errs => inl errs
           | inr ver => match decode_body ver fields with (doc, []) => inr doc | (_, errs) => inl errs end
           end
       end.

(** ** Plans (expansion.go) *)

Definition MaxPlanSteps : Z := 1000.
Definition MaxPlanEdges : Z := 2000.
Definition DecodePlanOutput (size : Z) (data : json) : list DecodeError + PlanOutput :=
  if MaxDefinitionBytes <? size then inl (err_at "" KLimit)
  else match rawObject data with
       | None => inl (err_at "" (KExpected "object"))
       | Some fields =>
           match decode_version PlanSchemaVersion fields with
           | inl errs => inl errs
           | inr ver =>
               let '(steps, e1) := required_items fields "steps" decodeSteps in
               let '(edges, e2) := match fields !! "edges" with Some raw => decodeEdges raw | None => ([], []) end in
               match e1 ++ e2 ++ unknown_keys ["schema_version"; "steps"; "edges"] fields "" ++
                     err_if (MaxPlanSteps <? zlen steps) "steps" KLimit ++ err_if (MaxPlanEdges <? zlen edges) "edges" KLimit with
               | [] => inr (mkPlanOutput ver steps edges)
               | errs => inl errs
               end
           end
       end.

(** ** Encode *)

Definition marshalParam (p : ParamSpec) : json := JObj (field "type" (JStr (ps_Type p)) ++ omit_bool "required" (ps_Required p)).
Definition marshalExpansion (p : ExpansionPolicy) : json :=
  JObj (omit_opt "max_added_steps" (JNum <$> xp_MaxAddedSteps p) ++ omit_opt "max_total_steps" (JNum <$> xp_MaxTotalSteps p) ++
        omit_opt "max_expansions" (JNum <$> xp_MaxExpansions p) ++ omit_opt "max_depth" (JNum <$> xp_MaxDepth p)).
Definition marshalAgent (a : AgentDef) : json :=
  JObj (omit_str "role" (ad_Role a) ++ omit_str "system" (ad_System a) ++ omit_str "model" (ad_Model a) ++
        omit_list "model_fallbacks" (marshalFallback <$> ad_ModelFallbacks a) ++
        omit_list "tools" (JStr <$> default [] (ad_Tools a)) ++ omit_int "max_tokens" (ad_MaxTokens a) ++
        omit_opt "temperature" (JFloat <$> ad_Temperature a) ++
        omit_opt "output_format" (marshalOutputFormat <$> ad_OutputFormat a) ++
        omit_opt "validation" (marshalValidation <$> ad_Validation a) ++ omit_opt "context" (marshalContext <$> ad_Context a)).

(** A map: its keys sorted. *)
Definition marshal_map {A} (f : A → json) (m : gmap string A) : json :=
  JObj (omap (λ k, (λ v, (k, f v)) <$> m !! k) (sortedKeys m)).
Definition omit_map {A} (k : string) (f : A → json) (m : gmap string A) : list (string * json) :=
  if bool_decide (m = ∅) then [] else field k (marshal_map f m).
Definition write_template (t : Template) : json :=
  JObj (field "steps" (JArr (marshalStep <$> tm_Steps t)) ++ omit_list "edges" (marshalEdge <$> tm_Edges t)).
Definition marshal_ptr {A} (f : A → json) (o : option A) : json := match o with Some a => f a | None => JNull end.

(** [None]: a nil template is dereferenced. *)
Definition Encode (d : Document) : option json :=
  let def := doc_Definition d in
  if bool_decide (map_Forall (λ _ t, is_Some t) (Templates def)) then
    Some (JObj (field "schema_version" (JNum (doc_SchemaVersion d)) ++ field "name" (JStr (Name def)) ++
                omit_str "description" (doc_Description d) ++ omit_str "on_failure" (OnFailure def) ++
                omit_str "max_wall_clock" (MaxWallClock def) ++ omit_opt "budget_usd" (JFloat <$> BudgetUSD def) ++
                omit_str "on_budget_exceeded" (OnBudgetExceeded def) ++
                omit_opt "expansion" (marshalExpansion <$> Expansion def) ++
                omit_map "templates" (marshal_ptr write_template) (Templates def) ++
                omit_map "agents" (marshal_ptr marshalAgent) (Agents def) ++ omit_map "params" marshalParam (Params def) ++
                field "steps" (JArr (marshalStep <$> Steps def)) ++ field "edges" (JArr (marshalEdge <$> Edges def)) ++
                omit_opt "ui" (doc_UI d)))
  else None.
