(* ===== verification/MapExpand.v ===== *)
(** internal/dag/mapexpand.go and loopexpand.go: the deltas the engine generates
    itself, one instance of a sub-template per item of a map step and one more
    iteration of a loop body, with the rewriting of the references inside the
    cloned steps. *)
From Stdlib Require Import QArith Ascii.
From stdpp Require Import pretty.
From S2P Require Import Prelude Issues GoStd Retry StoreModel Config Template Dag Cycles Validate ValidateGraph Codec Expansion Decode.
Open Scope Z_scope.

(** ** Rewriting references *)

(** rewriteQuotedRef. *)
Definition rewriteQuotedRef (lit : string) (rw : string → string) : string :=
  if negb (all_chars isRefChar lit) then lit
  else if bool_decide (lit = "") then lit
  else if bool_decide (lit = "item") || bool_decide (lit = "item_index") || HasPrefix lit "item." || HasPrefix lit "steps."
  then rw lit else lit.

(** rewriteExprRefs: every round consumes a byte. *)
Fixpoint rewrite_refs (fuel : nat) (expr : string) (rw : string → string) : string :=
  match fuel, expr with
  | S fuel', String c rest =>
      if bool_decide (c = dquote) || bool_decide (c = squote) then
        match skipQuoted c rest with
        | None => expr
        | Some (lit, r) => String c (rewriteQuotedRef lit rw) +:+ String c (rewrite_refs fuel' r rw)
        end
      else if bool_decide (c = bquote) then
        match Cut rest (one bquote) with
        | None => expr
        | Some (lit, r) => String c (rewriteQuotedRef lit rw) +:+ String c (rewrite_refs fuel' r rw)
        end
      else if isRefChar c then
        let '(tok, r) := ref_span expr in rw tok +:+ rewrite_refs fuel' r rw
      else String c (rewrite_refs fuel' rest rw)
  | _, _ => expr
  end.
Definition rewriteExprRefs (expr : string) (rw : string → string) : string := rewrite_refs (String.length expr) expr rw.

Definition rewrite_segment (rw : string → string) (s : tmplSegment) : string :=
  if isAction s then tmplLeftDelim +:+ rewriteExprRefs (seg_text s) rw +:+ tmplRightDelim else seg_text s.
Definition rewriteTemplateString (src : string) (rw : string → string) : TemplateMsg + string :=
  if negb (HasTemplate src) then inr src
  else match splitTemplate src with
       | inl e => inl e
       | inr segs => inr (foldr (λ s acc, rewrite_segment rw s +:+ acc) "" segs)
       end.

(** An object re-encoded from a Go map: sorted keys, the last of repeated members. *)
Definition sorted_members {A} (l : list (string * A)) : list (string * A) :=
  let m : gmap string A := list_to_map (reverse l) in
  omap (λ k, pair k <$> m !! k) (merge_sort String.le (elements (dom m))).
(** All results, or the first failure. *)
Fixpoint sequence {E A} (l : list (E + A)) : E + list A :=
  match l with
  | [] => inr []
  | inl e :: _ => inl e
  | inr a :: l' => match sequence l' with inl e => inl e | inr as_ => inr (a :: as_) end
  end.
Definition with_key {E A} (p : string * (E + A)) : E + (string * A) :=
  match p.2 with inl e => inl e | inr a => inr (p.1, a) end.

(** rewriteTreeStrings, and the re-encoding of the tree. *)
Fixpoint rewriteTreeStrings (fn : string → TemplateMsg + string) (node : json) : TemplateMsg + json :=
  match node with
  | JObj l =>
      match sequence (map with_key (sorted_members (map (λ kv, (kv.1, rewriteTreeStrings fn kv.2)) l))) with
      | inl e => inl e
      | inr l' => inr (JObj l')
      end
  | JArr l =>
      match sequence (map (rewriteTreeStrings fn) l) with inl e => inl e | inr l' => inr (JArr l') end
  | JStr s => match fn s with inl e => inl e | inr s' => inr (JStr s') end
  | _ => inr node
  end.

(** rewriteConfigRefs and rewriteLoopConfigRefs, for their rewriter. *)
Definition rewrite_config (rw : string → string) (config : json) : TemplateMsg + json :=
  if negb (json_has_template config) then inr config
  else rewriteTreeStrings (λ s, rewriteTemplateString s rw) config.

Definition instanceID (base : string) (k : Z) : string := base +:+ "#" +:+ pretty k.

(** The reference [steps.<id>...] with an instance suffix. *)
Definition suffix_ref (tok ks : string) : string :=
  let rest := drop_s (String.length "steps.") tok in
  match Cut rest "." with
  | Some (id, tail) => "steps." +:+ id +:+ "#" +:+ ks +:+ "." +:+ tail
  | None => "steps." +:+ rest +:+ "#" +:+ ks
  end.
Definition instanceRefRewriter (mapStepID : string) (k : Z) (tok : string) : string :=
  let ks := pretty k in
  let itemRoot := "steps." +:+ mapStepID +:+ ".output.items." +:+ ks in
  let indexRef := "steps." +:+ mapStepID +:+ ".output.indices." +:+ ks in
  if bool_decide (tok = "item") then itemRoot
  else if HasPrefix tok "item." then itemRoot +:+ drop_s (String.length "item") tok
  else if bool_decide (tok = "item_index") then indexRef
  else if HasPrefix tok "steps." then suffix_ref tok ks
  else tok.
Definition ref_step (tok : string) : string :=
  let rest := drop_s (String.length "steps.") tok in
  match Cut rest "." with Some (id, _) => id | None => rest end.
Definition loopRefRewriter (body : gset string) (iter : Z) (tok : string) : string :=
  if negb (HasPrefix tok "steps.") then tok
  else if negb (bool_decide (ref_step tok ∈ body)) then tok
  else suffix_ref tok (pretty iter).

(** ** Cloning a step *)

Inductive GenErr : Type :=
| GenEmptyBody
| GenSinks (sinks : list string)
| GenTemplate (step : string) (e : TemplateMsg)
| GenConfig (step : string) (errs : list DecodeError)
| GenGather (errs : list DecodeError)
| GenGraph (e : GraphErr)
| GenAgent (step : string) (e : AgentErr)
| GenLeavesBody (from to : string).

Definition rewrite_source (move : string → option string) (src : ContextSource) : ContextSource :=
  match bool_decide (src_Kind src = SourceStepOutput), move (src_Step src) with
  | true, Some step =>
      mkContextSource (src_Kind src) (src_Name src) step (src_Path src) (src_Key src) (src_Role src) (src_Tags src)
        (src_Retriever src) (src_Query src) (src_TopK src) (src_Text src) (src_MaxTokens src) (src_Pinned src)
        (src_Priority src) (src_OnMissing src)
  | _, _ => src
  end.
Definition rewrite_context (move : string → option string) (cs : option ContextSpec) : option ContextSpec :=
  (λ cs, mkContextSpec (rewrite_source move <$> ctx_Sources cs) (ctx_BudgetTokens cs) (ctx_Compaction cs)) <$> cs.
Definition rewriteInstanceContext (cs : option ContextSpec) (k : Z) : option ContextSpec :=
  rewrite_context (λ s, if bool_decide (s = "") then None else Some (instanceID s k)) cs.
Definition rewriteLoopContext (cs : option ContextSpec) (body : gset string) (iter : Z) : option ContextSpec :=
  rewrite_context (λ s, if bool_decide (s ∈ body) then Some (instanceID s iter) else None) cs.

(** The clone of [s] with id [id]: its config rewritten and decoded again. *)
Definition clone_step (id : string) (rw : string → string) (ctx : option ContextSpec) (s : Step) : GenErr + Step :=
  match Config s with
  | None => inr (mkStep id (Type_ s) None (Validation s) ctx (Policies s))
  | Some c =>
      match rewrite_config rw (marshalConfig c) with
      | inl e => inl (GenTemplate (ID s) e)
      | inr raw =>
          match DecodeStepConfig (Type_ s) (Some raw) with
          | inl errs => inl (GenConfig (ID s) errs)
          | inr cfg => inr (mkStep id (Type_ s) cfg (Validation s) ctx (Policies s))
          end
      end
  end.
Definition rewriteInstanceStep (s : Step) (mapStepID : string) (k : Z) : GenErr + Step :=
  clone_step (instanceID (ID s) k) (instanceRefRewriter mapStepID k) (rewriteInstanceContext (Context_ s) k) s.
Definition rewriteLoopBodyStep (s : Step) (body : gset string) (iter : Z) : GenErr + Step :=
  clone_step (instanceID (ID s) iter) (loopRefRewriter body iter) (rewriteLoopContext (Context_ s) body iter) s.

(** ** Maps *)

Definition GatherIDSuffix : string := "#gather".
Definition MapGatherID (mapStepID : string) : string := mapStepID +:+ GatherIDSuffix.

(** An edge of a delta: type normal, no condition. *)
Definition splice (from to : string) : Edge := mkEdge from to "" EdgeTypeNormal "".

Definition has_out (edges : list Edge) (id : string) : bool := existsb (λ e, negb (IsLoop e) && bool_decide (From e = id)) edges.
Definition has_in (edges : list Edge) (id : string) : bool := existsb (λ e, negb (IsLoop e) && bool_decide (To e = id)) edges.
Definition templateFrontier (tmpl : Template) : GenErr + (list string * string) :=
  let ids := ID <$> tm_Steps tmpl in
  let entries := List.filter (λ id, negb (has_in (tm_Edges tmpl) id)) ids in
  match List.filter (λ id, negb (has_out (tm_Edges tmpl) id)) ids with
  | [sink] => inr (entries, sink)
  | sinks => inl (GenSinks sinks)
  end.

Definition instance_edge (k : Z) (e : Edge) : Edge :=
  mkLoopEdge (instanceID (From e) k) (instanceID (To e) k) (When e) (EType e) (Condition e) (MaxIterations e) "" None (Decision e).
Definition sink_ref (sink : string) (k : Z) : string := "${{ steps." +:+ instanceID sink k +:+ ".output }}".
Definition gatherConfigJSON (sinkRefs : list string) : json := JObj [("items", JArr (JStr <$> sinkRefs))].

(** The steps and edges of one instance. *)
Definition instance_steps (tmpl : Template) (mapStepID : string) (k : Z) : GenErr + list Step :=
  sequence (map (λ s, rewriteInstanceStep s mapStepID k) (tm_Steps tmpl)).
Definition instance_edges (tmpl : Template) (mapStepID : string) (entries : list string) (sink : string) (k : Z) : list Edge :=
  (instance_edge k <$> tm_Edges tmpl) ++ ((λ en, splice mapStepID (instanceID en k)) <$> entries) ++
  [splice (instanceID sink k) (MapGatherID mapStepID)].

(** GenerateMapExpansion; only the number of items matters. *)
Definition GenerateMapExpansion (tmpl : option Template) (items : list json) (mapStepID : string) : GenErr + PlanOutput :=
  match tmpl with
  | Some t =>
      if bool_decide (tm_Steps t = []) then inl GenEmptyBody
      else match templateFrontier t with
           | inl e => inl e
           | inr (entries, sink) =>
               let ks := seqZ 0 (zlen items) in
               match sequence (map (instance_steps t mapStepID) ks) with
               | inl e => inl e
               | inr insts =>
                   match DecodeStepConfig StepGather (Some (gatherConfigJSON (sink_ref sink <$> ks))) with
                   | inl errs => inl (GenGather errs)
                   | inr gc =>
                       inr (mkPlanOutput PlanSchemaVersion
                              (concat insts ++ [mkStep (MapGatherID mapStepID) StepGather gc None None noPolicies])
                              (concat (instance_edges t mapStepID entries sink <$> ks)))
                   end
               end
           end
  | None => inl GenEmptyBody
  end.

(** ** Loops *)

Definition body_edge (body : gset string) (e : Edge) : bool :=
  negb (IsLoop e) && bool_decide (From e ∈ body) && bool_decide (To e ∈ body).
Definition loopEntries (def : Definition_) (body : gset string) : list string :=
  List.filter (λ id, bool_decide (id ∈ body) && negb (existsb (λ e, body_edge body e && bool_decide (To e = id)) (Edges def)))
    (ID <$> Steps def).

(** The cloned body step, its agent role resolved first. *)
Definition loop_step (def : Definition_) (body : gset string) (iter : Z) (id : string) : GenErr + Step :=
  let s := default zero_step (last (List.filter (λ s, bool_decide (ID s = id)) (Steps def))) in
  if bool_decide (Type_ s = StepAgent) then
    match ResolveAgentStep def s with
    | inl e => inl (GenAgent id e)
    | inr s' => rewriteLoopBodyStep s' body iter
    end
  else rewriteLoopBodyStep s body iter.

(** The out-edges of the loop source, cloned onto its new instance; an edge that
    leaves the body from another member is refused. *)
Fixpoint exit_edges (from : string) (body : gset string) (iter : Z) (edges : list Edge) : GenErr + list Edge :=
  match edges with
  | [] => inr []
  | e :: edges' =>
      if negb (IsLoop e) && negb (bool_decide (To e ∈ body)) && bool_decide (From e ∈ body ∪ {[from]}) then
        if bool_decide (From e = from) then
          match exit_edges from body iter edges' with
          | inl err => inl err
          | inr es => inr (mkEdge (instanceID from iter) (To e) (When e) EdgeTypeNormal (Decision e) :: es)
          end
        else inl (GenLeavesBody (From e) (To e))
      else exit_edges from body iter edges'
  end.

Definition GenerateLoopExpansion (def : Definition_) (loopEdge : Edge) (currentInstanceID : string) (nextIter : Z)
    : GenErr + PlanOutput :=
  match NewGraph def with
  | inl e => inl (GenGraph e)
  | inr g =>
      match loopBody g (From loopEdge) (To loopEdge) with
      | inl e => inl (GenGraph e)
      | inr body =>
          match sequence (map (loop_step def body nextIter) (merge_sort String.le (elements body))) with
          | inl e => inl e
          | inr steps =>
              match exit_edges (From loopEdge) body nextIter (Edges def) with
              | inl e => inl e
              | inr exits =>
                  inr (mkPlanOutput PlanSchemaVersion steps
                         (((λ e, mkEdge (instanceID (From e) nextIter) (instanceID (To e) nextIter) (When e) EdgeTypeNormal (Decision e))
                           <$> List.filter (body_edge body) (Edges def)) ++
                          ((λ en, splice currentInstanceID (instanceID en nextIter)) <$> loopEntries def body) ++ exits))
              end
          end
      end
  end.
