(* ===== verification/Pointer.v ===== *)
(** internal/blackboard/blackboard.go: RFC 6901 pointers into a stored value, and
    what they use of encoding/json and strconv. *)
From Stdlib Require Import Ascii.
From S2P Require Import Prelude GoStd StoreModel Config Codec MapExpand.
Open Scope Z_scope.

(** ** Numbers *)

(** strconv.Atoi. *)
Fixpoint decimal (acc : Z) (s : string) : Z :=
  match s with EmptyString => acc | String c s' => decimal (10 * acc + digit c) s' end.
Definition Atoi (s : string) : option Z :=
  let '(neg, ds) := match s with
                    | String "-" r => (true, r)
                    | String "+" r => (false, r)
                    | _ => (false, s)
                    end in
  if bool_decide (ds = "") || negb (all_chars is_digit ds) then None
  else let n := if neg then - decimal 0 ds else decimal 0 ds in
       if in_int n then Some n else None.

(** ** JSON pointers (blackboard.go) *)

(** strings.ReplaceAll of a two-byte pattern by one byte. *)
Fixpoint replace_pair (a b r : ascii) (s : string) : string :=
  match s with
  | String x ((String y s') as s1) =>
      if bool_decide (x = a) && bool_decide (y = b) then String r (replace_pair a b r s')
      else String x (replace_pair a b r s1)
  | _ => s
  end.
Definition parsePointer (pointer : string) : option (list string) :=
  match pointer with
  | String c rest =>
      if bool_decide (c = "/"%char)
      then Some ((λ p, replace_pair "~" "0" "~" (replace_pair "~" "1" "/" p)) <$> Split rest "/")
      else None
  | EmptyString => None
  end.

(** json.Unmarshal into an empty interface fails on a number beyond float64. *)
Fixpoint decodes_any (v : json) : bool :=
  match v with
  | JNum n => in_float n
  | JArr l => forallb decodes_any l
  | JObj l => forallb (λ kv, decodes_any kv.2) l
  | _ => true
  end.
Fixpoint descend (tokens : list string) (cur : json) : option json :=
  match tokens with
  | [] => Some cur
  | tok :: tokens' =>
      match cur with
      | JObj l => match object l !! tok with Some v => descend tokens' v | None => None end
      | JArr l =>
          match Atoi tok with
          | Some idx => if idx <? 0 then None
                        else match l !! Z.to_nat idx with Some v => descend tokens' v | None => None end
          | None => None
          end
      | _ => None
      end
  end.
(** The re-encoding of a decoded value: sorted keys, the last of repeated ones. *)
Fixpoint canonical (v : json) : json :=
  match v with
  | JArr l => JArr (map canonical l)
  | JObj l => JObj (sorted_members (map (λ kv, (kv.1, canonical kv.2)) l))
  | _ => v
  end.

Definition ResolvePointer (doc : option json) (pointer : string) : option json :=
  let doc := default JNull doc in
  if bool_decide (pointer = "") then Some doc
  else match parsePointer pointer with
       | None => None
       | Some tokens => if decodes_any doc then canonical <$> descend tokens doc else None
       end.
