(* ===== verification/JsonRepair.v ===== *)
(** internal/jsonrepair: the deterministic repair of a model's text into JSON.

    [compact] is json.Valid with json.Compact: the compacted bytes of a valid text.
    Texts are byte strings. *)
From Stdlib Require Import Ascii.
From S2P Require Import Prelude GoStd.
Open Scope Z_scope.

Definition q_ : ascii := "034".                     (** the double quote *)
Definition esc_ : ascii := "092".                   (** the backslash *)
Definition nl_ : string := String "010" "".
Definition fence_ : string := "```".

(** ** Results *)

Inductive Status : Type := StatusRaw | StatusRepaired | StatusUnrepairable.
Record Result : Type := mkResult { re_Value : option string; re_Status : Status; re_Steps : list string }.
Definition StepStripCodeFence : string := "strip_code_fence".
Definition StepExtractFirstJSON : string := "extract_first_json".
Definition StepTrailingCommas : string := "trailing_commas".
Definition StepUnquotedKeys : string := "unquoted_keys".

(** ** Bytes *)

Definition isJSONSpace (c : ascii) : bool := existsb (Ascii.eqb c) [" "; "009"; "010"; "013"]%char.
Definition between (a c b : ascii) : bool := (nat_of_ascii a <=? nat_of_ascii c)%nat && (nat_of_ascii c <=? nat_of_ascii b)%nat.
Definition isIdentStart (c : ascii) : bool :=
  Ascii.eqb c "_" || Ascii.eqb c "$" || between "a" c "z" || between "A" c "Z".
Definition isIdentPart (c : ascii) : bool := isIdentStart c || between "0" c "9".

(** The longest prefix of bytes that satisfy [p], and the rest. *)
Fixpoint span (p : ascii → bool) (s : string) : string * string :=
  match s with
  | EmptyString => ("", "")
  | String c s' => if p c then let '(a, b) := span p s' in (String c a, b) else ("", s)
  end.
(** strings.LastIndex: what precedes the last occurrence. *)
Fixpoint last_before (s sub : string) : option string :=
  match s with
  | EmptyString => None
  | String c s' =>
      match last_before s' sub with
      | Some p => Some (String c p)
      | None => if HasPrefix s sub then Some "" else None
      end
  end.
(** The state after byte [c] of a string literal: still inside, and escaped. *)
Definition str_next (escaped : bool) (c : ascii) : bool * bool :=
  if escaped then (true, false)
  else if Ascii.eqb c esc_ then (true, true)
  else if Ascii.eqb c q_ then (false, false)
  else (true, false).

(** ** The passes *)

Definition stripCodeFence (text : string) : string :=
  let t := TrimSpace text in
  if negb (HasPrefix t fence_) then text
  else match Cut t nl_ with
       | None => text
       | Some (_, body) => TrimSpace (default body (last_before body fence_))
       end.

(** The text from the first opening bracket. *)
Fixpoint from_open (s : string) : option (ascii * ascii * string) :=
  match s with
  | EmptyString => None
  | String c s' =>
      if Ascii.eqb c "{" then Some ("{"%char, "}"%char, s)
      else if Ascii.eqb c "[" then Some ("["%char, "]"%char, s)
      else from_open s'
  end.
(** The bytes up to the matching close. *)
Fixpoint balanced (openCh closeCh : ascii) (depth : Z) (inString escaped : bool) (s : string) : option string :=
  match s with
  | EmptyString => None
  | String c s' =>
      if inString then
        let '(i, e) := str_next escaped c in String c <$> balanced openCh closeCh depth i e s'
      else if Ascii.eqb c q_ then String c <$> balanced openCh closeCh depth true escaped s'
      else if Ascii.eqb c openCh then String c <$> balanced openCh closeCh (depth + 1) false escaped s'
      else if Ascii.eqb c closeCh then
        if depth - 1 =? 0 then Some (String c "") else String c <$> balanced openCh closeCh (depth - 1) false escaped s'
      else String c <$> balanced openCh closeCh depth false escaped s'
  end.
Definition extractFirstJSON (text : string) : string :=
  match from_open text with
  | None => text
  | Some (openCh, closeCh, s) => default text (balanced openCh closeCh 0 false false s)
  end.

(** The next byte past whitespace is a closing bracket. *)
Definition closes (s : string) : bool :=
  match (span isJSONSpace s).2 with String c _ => Ascii.eqb c "}" || Ascii.eqb c "]" | EmptyString => false end.
Fixpoint remove_commas (inString escaped : bool) (s : string) : string :=
  match s with
  | EmptyString => ""
  | String c s' =>
      if inString then let '(i, e) := str_next escaped c in String c (remove_commas i e s')
      else if Ascii.eqb c q_ then String c (remove_commas true escaped s')
      else if Ascii.eqb c "," && closes s' then remove_commas false escaped s'
      else String c (remove_commas false escaped s')
  end.
Definition removeTrailingCommas (text : string) : string := remove_commas false false text.

Definition before_colon (s : string) : bool :=
  match (span isJSONSpace s).2 with String c _ => Ascii.eqb c ":" | EmptyString => false end.
(** Every round takes a byte or an identifier; [fuel] is the text's length. *)
Fixpoint quote_keys (fuel : nat) (inString escaped afterOpener : bool) (s : string) : string :=
  match fuel, s with
  | S fuel', String c s' =>
      if inString then let '(i, e) := str_next escaped c in String c (quote_keys fuel' i e afterOpener s')
      else if Ascii.eqb c q_ then String c (quote_keys fuel' true escaped false s')
      else if Ascii.eqb c "{" || Ascii.eqb c "," then String c (quote_keys fuel' false escaped true s')
      else if isJSONSpace c then String c (quote_keys fuel' false escaped afterOpener s')
      else if afterOpener && isIdentStart c then
        let '(ident, rest) := span isIdentPart s in
        (if before_colon rest then String q_ ident +:+ String q_ "" else ident) +:+ quote_keys fuel' false escaped false rest
      else String c (quote_keys fuel' false escaped false s')
  | _, _ => ""
  end.
Definition quoteBareKeys (text : string) : string := quote_keys (String.length text) false false false text.

Definition passes : list (string * (string → string)) :=
  [(StepStripCodeFence, stripCodeFence); (StepExtractFirstJSON, extractFirstJSON);
   (StepTrailingCommas, removeTrailingCommas); (StepUnquotedKeys, quoteBareKeys)].

(** ** Repair *)

Section repair.
Context (compact : string → option string).

Definition compactValid (s : string) : option string :=
  let trimmed := TrimSpace s in if bool_decide (trimmed = "") then None else compact trimmed.
Fixpoint repair_from (l : list (string * (string → string))) (work : string) (steps : list string) : Result :=
  match l with
  | [] => mkResult None StatusUnrepairable steps
  | (name, fn) :: l' =>
      let next := fn work in
      if bool_decide (next = work) then repair_from l' work steps
      else match compactValid next with
           | Some v => mkResult (Some v) StatusRepaired (steps ++ [name])
           | None => repair_from l' next (steps ++ [name])
           end
  end.
Definition Repair (text : string) : Result :=
  match compactValid text with
  | Some v => mkResult (Some v) StatusRaw []
  | None => repair_from passes text []
  end.
End repair.

(** ** What the passes keep *)

(** The text without the bytes [x] outside string literals. *)
Fixpoint erase (x : ascii) (inString escaped : bool) (s : string) : string :=
  match s with
  | EmptyString => ""
  | String c s' =>
      if inString then let '(i, e) := str_next escaped c in String c (erase x i e s')
      else if Ascii.eqb c q_ then String c (erase x true escaped s')
      else if Ascii.eqb c x then erase x false escaped s'
      else String c (erase x false escaped s')
  end.
(** The contents of the string literals, in order. *)
Fixpoint literals (inString escaped : bool) (cur : string) (s : string) : list string :=
  match s with
  | EmptyString => if inString then [cur] else []
  | String c s' =>
      if inString then
        let '(i, e) := str_next escaped c in
        if i then literals true e (cur +:+ String c "") s' else cur :: literals false e "" s'
      else if Ascii.eqb c q_ then literals true escaped "" s'
      else literals false escaped "" s'
  end.
Fixpoint without (x : ascii) (s : string) : string :=
  match s with EmptyString => "" | String c s' => if Ascii.eqb c x then without x s' else String c (without x s') end.
Definition infix (a s : string) : Prop := ∃ p r, s = p +:+ a +:+ r.

Lemma remove_commas_erase i e s : erase "," i e (remove_commas i e s) = erase "," i e s.
Proof.
  revert i e. induction s as [|c s IH]; intros i e; [done|]. cbn [remove_commas erase]. destruct i.
  - destruct (str_next e c) as [i' e'] eqn:E. cbn [erase]. by rewrite E, IH.
  - destruct (Ascii.eqb c q_) eqn:Eq; [cbn [erase]; by rewrite Eq, IH|].
    destruct (Ascii.eqb c ",") eqn:Ec; cbn [andb]; [destruct (closes s); [apply IH|]|]; cbn [erase]; by rewrite Eq, Ec, IH.
Qed.
Lemma remove_commas_literals i e cur s : literals i e cur (remove_commas i e s) = literals i e cur s.
Proof.
  revert i e cur. induction s as [|c s IH]; intros i e cur; [done|]. cbn [remove_commas literals]. destruct i.
  - destruct (str_next e c) as [[] e'] eqn:E; cbn [literals]; by rewrite E, IH.
  - destruct (Ascii.eqb c q_) eqn:Eq; [cbn [literals]; by rewrite Eq, IH|].
    destruct (Ascii.eqb c "," && closes s) eqn:Ec; [|cbn [literals]; by rewrite Eq, IH].
    rewrite IH. by destruct s.
Qed.

Lemma span_app p s : s = (span p s).1 +:+ (span p s).2.
Proof.
  induction s as [|c s IH]; [done|]. cbn. destruct (p c); [|done]. destruct (span p s) as [a b]. cbn in *. by rewrite append_cons, <- IH.
Qed.
Lemma span_all p s : all_chars p (span p s).1 = true.
Proof. induction s as [|c s IH]; [done|]. cbn. destruct (p c) eqn:E; [|done]. destruct (span p s) as [a b]. cbn in *. by rewrite E. Qed.
Lemma ident_not_quote c : isIdentPart c = true → Ascii.eqb c q_ = false ∧ Ascii.eqb c esc_ = false.
Proof. destruct c as [[] [] [] [] [] [] [] []]; cbn; done. Qed.
Lemma without_app x a b : without x (a +:+ b) = without x a +:+ without x b.
Proof. induction a as [|c a IH]; [done|]. rewrite append_cons. cbn. destruct (Ascii.eqb c x); [done|]. by rewrite IH. Qed.
(** An identifier is neither quoted nor escaped. *)
Lemma literals_ident a s : all_chars isIdentPart a = true → literals false false "" (a +:+ s) = literals false false "" s.
Proof.
  induction a as [|c a IH]; [done|]. cbn [all_chars]. intros [Hc Ha]%andb_prop. rewrite append_cons. cbn [literals].
  destruct (ident_not_quote c Hc) as [-> _]. auto.
Qed.
Lemma literals_inside a cur s :
  all_chars isIdentPart a = true → literals true false cur (a +:+ String q_ s) = (cur +:+ a) :: literals false false "" s.
Proof.
  revert cur. induction a as [|c a IH]; intros cur; [by rewrite append_nil_r|].
  cbn [all_chars]. intros [Hc Ha]%andb_prop. rewrite append_cons. cbn [literals]. unfold str_next.
  destruct (ident_not_quote c Hc) as [-> ->]. rewrite IH by done. by rewrite append_assoc.
Qed.

Lemma ident_span c s :
  isIdentStart c = true →
  ∃ a b, span isIdentPart (String c s) = (a, b) ∧ String c s = a +:+ b ∧ all_chars isIdentPart a = true ∧ a ≠ "" ∧
         (String.length b ≤ String.length s)%nat.
Proof.
  intros Hc. pose proof (span_app isIdentPart (String c s)) as Hs. pose proof (span_all isIdentPart (String c s)) as Hall.
  destruct (span isIdentPart (String c s)) as [a b] eqn:E. cbn [fst snd] in *. exists a, b.
  assert (a ≠ "") as Ha.
  { cbn in E. unfold isIdentPart at 1 in E. rewrite Hc in E. cbn in E. destruct (span isIdentPart s). by injection E as <- _. }
  split_and!; [done..|]. apply (f_equal String.length) in Hs. rewrite length_append in Hs. destruct a; cbn in Hs; [done|lia].
Qed.

Lemma quote_keys_without n i e a s : (String.length s ≤ n)%nat → without q_ (quote_keys n i e a s) = without q_ s.
Proof.
  revert i e a s. induction n as [|n IH]; intros i e a [|c s] Hn; cbn [quote_keys]; [done|cbn in Hn; lia|done|]. cbn in Hn.
  destruct i; [destruct (str_next e c) as [i' e']; cbn; by rewrite IH by lia|].
  destruct (Ascii.eqb c q_) eqn:Eq; [cbn; rewrite Eq; apply IH; lia|].
  destruct (Ascii.eqb c "{" || Ascii.eqb c ","); [cbn; by rewrite Eq, IH by lia|].
  destruct (isJSONSpace c); [cbn; by rewrite Eq, IH by lia|].
  destruct (a && isIdentStart c) eqn:Ei; [|cbn; by rewrite Eq, IH by lia].
  apply andb_prop in Ei as [_ Ei]. destruct (ident_span c s Ei) as (ident & rest & -> & Hs & _ & _ & Hlen).
  rewrite Hs, !without_app, IH by lia. f_equal.
  destruct (before_colon rest); [|done]. rewrite append_cons. cbn. rewrite without_app. cbn. apply append_nil_r.
Qed.
Lemma quote_keys_literals n i e a cur s :
  (String.length s ≤ n)%nat → (i = false → e = false) →
  sublist (literals i e cur s) (literals i e cur (quote_keys n i e a s)).
Proof.
  revert i e a cur s. induction n as [|n IH]; intros i e a cur [|c s] Hn He; cbn [quote_keys]; [done|cbn in Hn; lia|done|]. cbn in Hn.
  destruct i.
  { destruct (str_next e c) as [i' e'] eqn:E. cbn [literals]. rewrite E.
    assert (i' = false → e' = false) as He' by (unfold str_next in E; repeat case_match; naive_solver).
    destruct i'; [|apply sublist_skip]; apply IH; auto; lia. }
  rewrite (He eq_refl). assert (∀ b, sublist (literals false false "" s) (literals false false "" (quote_keys n false false b s))) as Hout.
  { intros b. apply IH; auto; lia. }
  destruct (Ascii.eqb c q_) eqn:Eq; [cbn [literals]; rewrite Eq; apply IH; [lia|done]|].
  destruct (Ascii.eqb c "{" || Ascii.eqb c ","); [cbn [literals]; rewrite Eq; apply Hout|].
  destruct (isJSONSpace c); [cbn [literals]; rewrite Eq; apply Hout|].
  destruct (a && isIdentStart c) eqn:Ei; [|cbn [literals]; rewrite Eq; apply Hout].
  assert (literals false false cur (String c s) = literals false false "" (String c s)) as -> by done.
  apply andb_prop in Ei as [_ Ei]. destruct (ident_span c s Ei) as (ident & rest & -> & Hs & Hall & Hne & Hlen).
  rewrite Hs, literals_ident by done.
  assert (sublist (literals false false "" rest) (literals false false "" (quote_keys n false false false rest))) as Hr by (apply IH; [lia|done]).
  destruct (before_colon rest).
  - rewrite append_cons, append_cons, append_assoc, append_cons. cbn [literals]. rewrite (literals_inside ident "" _ Hall). by apply sublist_cons.
  - destruct ident as [|c0 ident]; [done|].
    assert (literals false false cur (String c0 ident +:+ quote_keys n false false false rest) =
            literals false false "" (String c0 ident +:+ quote_keys n false false false rest)) as -> by done.
    by rewrite literals_ident.
Qed.

(** ** The other passes cut *)

Lemma infix_refl s : infix s s.
Proof. exists "", "". by rewrite append_nil_l, append_nil_r. Qed.
Lemma infix_trans a b c : infix a b → infix b c → infix a c.
Proof. intros (p & r & ->) (p' & r' & ->). exists (p' +:+ p), (r +:+ r'). by rewrite !append_assoc. Qed.
Lemma balanced_prefix o c depth i e s t : balanced o c depth i e s = Some t → ∃ r, s = t +:+ r.
Proof.
  revert depth i e t. induction s as [|x s IH]; intros depth i e t; cbn; [done|]. intros H.
  repeat (case_match; simplify_eq/=; try (by exists s));
    match goal with H : String _ <$> balanced _ _ _ _ _ s = Some _ |- _ =>
      apply fmap_Some in H as (t' & Ht & ->); apply IH in Ht as [r ->]; by exists r end.
Qed.
Lemma from_open_suffix s o c t : from_open s = Some (o, c, t) → ∃ p, s = p +:+ t.
Proof.
  induction s as [|x s IH]; cbn; [done|]. intros H. destruct (Ascii.eqb x "{"); [injection H as <- <- <-; by exists ""|].
  destruct (Ascii.eqb x "["); [injection H as <- <- <-; by exists ""|]. destruct (IH H) as [p ->]. by exists (String x p).
Qed.
Lemma extract_infix text : infix (extractFirstJSON text) text.
Proof.
  unfold extractFirstJSON. destruct (from_open text) as [[[o c] s]|] eqn:Eo; [|apply infix_refl].
  destruct (balanced o c 0 false false s) as [t|] eqn:Eb; [|apply infix_refl]. cbn.
  apply from_open_suffix in Eo as [p ->]. apply balanced_prefix in Eb as [r ->]. by exists p, r.
Qed.

Lemma rev_go_app s acc : rev_go s acc = rev_s s +:+ acc.
Proof.
  revert acc. induction s as [|c s IH]; intros acc; [done|]. unfold rev_s. cbn. rewrite IH, (IH (String c "")), append_assoc. done.
Qed.
Lemma rev_s_cons c s : rev_s (String c s) = rev_s s +:+ String c "".
Proof. apply (rev_go_app s (String c "")). Qed.
Lemma rev_s_app a b : rev_s (a +:+ b) = rev_s b +:+ rev_s a.
Proof.
  induction a as [|c a IH]; [by rewrite append_nil_l, append_nil_r|]. by rewrite append_cons, !rev_s_cons, IH, append_assoc.
Qed.
Lemma rev_s_involutive s : rev_s (rev_s s) = s.
Proof.
  induction s as [|c s IH]; [done|]. by rewrite rev_s_cons, rev_s_app, IH.
Qed.
Lemma rev_s_length s : String.length (rev_s s) = String.length s.
Proof. induction s as [|c s IH]; [done|]. rewrite rev_s_cons, length_append, IH. cbn. lia. Qed.
Lemma trim_left_suffix n s : ∃ p, s = p +:+ trim_left n s.
Proof.
  revert s. induction n as [|n IH]; intros s; [by exists ""|]. cbn [trim_left]. destruct (find (HasPrefix s) space_runes) as [r|] eqn:E; [|by exists ""].
  apply find_some in E as [_ E]. apply HasPrefix_spec in E. destruct (IH (drop_s (String.length r) s)) as [p Hp].
  exists (r +:+ p). by rewrite append_assoc, <- Hp.
Qed.
Lemma trim_right_suffix n s : ∃ p, s = p +:+ trim_right_rev n s.
Proof.
  revert s. induction n as [|n IH]; intros s; [by exists ""|]. cbn [trim_right_rev]. destruct (find _ space_runes) as [r|] eqn:E; [|by exists ""].
  apply find_some in E as [_ E]. apply HasPrefix_spec in E. rewrite <- (rev_s_length r) in *.
  destruct (IH (drop_s (String.length (rev_s r)) s)) as [p Hp].
  exists (rev_s r +:+ p). by rewrite append_assoc, <- Hp.
Qed.
Lemma TrimSpace_infix s : infix (TrimSpace s) s.
Proof.
  unfold TrimSpace. destruct (trim_left_suffix (String.length s) s) as [p Hp]. set (l := trim_left _ _) in *.
  destruct (trim_right_suffix (String.length l) (rev_s l)) as [q Hq]. apply (f_equal rev_s) in Hq.
  rewrite rev_s_involutive, rev_s_app in Hq. exists p, (rev_s q). by rewrite <- Hq.
Qed.
Lemma last_before_prefix s sub p : last_before s sub = Some p → ∃ r, s = p +:+ r.
Proof.
  revert p. induction s as [|c s IH]; intros p; cbn; [done|]. destruct (last_before s sub) as [p'|].
  - intros [= <-]. destruct (IH p' eq_refl) as [r ->]. by exists r.
  - destruct (HasPrefix _ _); [|done]. intros [= <-]. by eexists.
Qed.
Lemma strip_infix text : infix (stripCodeFence text) text.
Proof.
  unfold stripCodeFence. destruct (negb _); [apply infix_refl|]. destruct (Cut (TrimSpace text) nl_) as [[a body]|] eqn:Ec; [|apply infix_refl].
  eapply infix_trans; [apply TrimSpace_infix|]. eapply infix_trans; [|apply TrimSpace_infix]. apply Cut_spec in Ec. rewrite Ec.
  destruct (last_before body fence_) as [p|] eqn:El; cbn.
  - apply last_before_prefix in El as [r ->]. exists (a +:+ nl_), r. by rewrite !append_assoc.
  - exists (a +:+ nl_), "". by rewrite append_nil_r, append_assoc.
Qed.

(** ** The result of a repair *)

(** The text after the first [k] passes, and those of them that changed it. *)
Definition stage (k : nat) (text : string) : string :=
  let unfenced := stripCodeFence text in
  let json := extractFirstJSON unfenced in
  let commas := removeTrailingCommas json in
  match k with O => text | 1%nat => unfenced | 2%nat => json | 3%nat => commas | _ => quoteBareKeys commas end.
Definition changed (k : nat) (text : string) : list string :=
  concat (imap (λ i name, if bool_decide (stage (S i) text = stage i text) then [] else [name])
    (take k [StepStripCodeFence; StepExtractFirstJSON; StepTrailingCommas; StepUnquotedKeys])).

Section result.
Context (compact : string → option string) (text : string).
Abbreviation valid := (compactValid compact).
(** The text, or the first stage of the four that is valid JSON, or none is; with
    exactly the passes up to there that changed the text. *)
Definition outcome (r : Result) : Prop :=
  match r with
  | mkResult (Some v) StatusRaw steps => valid text = Some v ∧ steps = []
  | mkResult (Some v) StatusRepaired steps =>
      ∃ k, (1 ≤ k ≤ 4)%nat ∧ valid (stage k text) = Some v ∧ (∀ i, (i < k)%nat → valid (stage i text) = None) ∧
        steps = changed k text
  | mkResult None StatusUnrepairable steps => (∀ i, (i ≤ 4)%nat → valid (stage i text) = None) ∧ steps = changed 4 text
  | _ => False
  end.

Definition rest_repaired (k : nat) : Prop :=
  (∀ i, (i ≤ k)%nat → valid (stage i text) = None) →
  outcome (repair_from compact (drop k passes) (stage k text) (changed k text)).
(** One pass. *)
Lemma pass_repaired k name fn : (k < 4)%nat → drop k passes = (name, fn) :: drop (S k) passes →
  fn (stage k text) = stage (S k) text →
  changed (S k) text = changed k text ++ (if bool_decide (stage (S k) text = stage k text) then [] else [name]) →
  rest_repaired (S k) → rest_repaired k.
Proof.
  intros Hk Hd Hf Hc IH Hinv. rewrite Hd. cbn [repair_from]. rewrite Hf. case_bool_decide as Hs.
  - rewrite app_nil_r in Hc. rewrite <- Hs, <- Hc. apply IH. intros i Hi.
    destruct (decide (i = S k)) as [->|]; [rewrite Hs|]; apply Hinv; lia.
  - rewrite <- Hc. destruct (valid (stage (S k) text)) as [v|] eqn:Ev.
    + exists (S k). split_and!; [lia|lia|done| |done]. intros i Hi. apply Hinv. lia.
    + apply IH. intros i Hi. destruct (decide (i = S k)) as [->|]; [done|]. apply Hinv. lia.
Qed.
Lemma Repair_outcome : outcome (Repair compact text).
Proof.
  unfold Repair. destruct (valid text) as [v|] eqn:Ev; [done|].
  assert (rest_repaired 4) as R4 by (intros H; split; [exact H|done]).
  assert (rest_repaired 3) as R3 by (eapply pass_repaired; [lia|done|done| |exact R4]; unfold changed; cbn; by rewrite ?app_assoc, ?app_nil_r).
  assert (rest_repaired 2) as R2 by (eapply pass_repaired; [lia|done|done| |exact R3]; unfold changed; cbn; by rewrite ?app_assoc, ?app_nil_r).
  assert (rest_repaired 1) as R1 by (eapply pass_repaired; [lia|done|done| |exact R2]; unfold changed; cbn; by rewrite ?app_assoc, ?app_nil_r).
  assert (rest_repaired 0) as R0 by (eapply pass_repaired; [lia|done|done| |exact R1]; unfold changed; cbn; by rewrite ?app_assoc, ?app_nil_r).
  apply R0. intros i Hi. by replace i with 0%nat by lia.
Qed.
End result.

(** ** Wrapped JSON is recovered *)

(** An object or array: it begins and ends with its brackets. *)
Definition bracketed (o c : ascii) (j : string) : Prop :=
  (o = "{"%char ∧ c = "}"%char ∨ o = "["%char ∧ c = "]"%char) ∧ ∃ mid, j = String o (mid +:+ String c "").

Lemma trim_left_solid n s : find (HasPrefix s) space_runes = None → trim_left n s = s.
Proof. intros H. destruct n; [done|]. cbn [trim_left]. by rewrite H. Qed.
Lemma trim_right_solid n s : find (λ r, HasPrefix s (rev_s r)) space_runes = None → trim_right_rev n s = s.
Proof. intros H. destruct n; [done|]. cbn [trim_right_rev]. by rewrite H. Qed.
Definition solid (s : string) : Prop :=
  find (HasPrefix s) space_runes = None ∧ find (λ r, HasPrefix (rev_s s) (rev_s r)) space_runes = None.
Lemma TrimSpace_solid s : solid s → TrimSpace s = s.
Proof. intros [Hl Hr]. unfold TrimSpace. rewrite (trim_left_solid _ _ Hl), (trim_right_solid _ _ Hr). apply rev_s_involutive. Qed.
Lemma bracketed_rev o c mid : rev_s (String o (mid +:+ String c "")) = String c (rev_s mid +:+ String o "").
Proof. by rewrite rev_s_cons, rev_s_app. Qed.
Lemma bracketed_solid o c j : bracketed o c j → solid j.
Proof. intros [Hoc [mid ->]]. unfold solid. rewrite bracketed_rev. destruct Hoc as [[-> ->]|[-> ->]]; split; vm_compute; reflexivity. Qed.
Lemma TrimSpace_line o c j : bracketed o c j → TrimSpace (j +:+ nl_) = j.
Proof.
  intros Hb. pose proof (bracketed_solid _ _ _ Hb) as [Hl Hr]. destruct Hb as [Hoc [mid ->]]. unfold TrimSpace.
  rewrite (trim_left_solid _ (String o (mid +:+ String c "") +:+ nl_)) by (destruct Hoc as [[-> ->]|[-> ->]]; vm_compute; reflexivity).
  set (j := String o (mid +:+ String c "")) in *. rewrite length_append, Nat.add_comm. cbn [String.length nl_ Nat.add trim_right_rev].
  rewrite rev_s_app. change (rev_s nl_ +:+ rev_s j) with (String "010" (rev_s j)).
  assert (find (λ r, HasPrefix (String "010" (rev_s j)) (rev_s r)) space_runes = Some nl_) as -> by (vm_compute; reflexivity).
  cbn [String.length nl_ drop_s]. rewrite trim_right_solid by done. apply rev_s_involutive.
Qed.
Definition fenced_text (lang j : string) : string := fence_ +:+ lang +:+ nl_ +:+ j +:+ nl_ +:+ fence_.
Lemma last_before_end s : last_before (s +:+ fence_) fence_ = Some s.
Proof. induction s as [|c s IH]; [vm_compute; reflexivity|]. rewrite append_cons. cbn [last_before]. by rewrite IH. Qed.
Lemma Cut_line lang rest : Cut lang nl_ = None → Cut (lang +:+ nl_ +:+ rest) nl_ = Some (lang, rest).
Proof.
  induction lang as [|c lang IH]; intros H; [done|]. rewrite append_cons. cbn [Cut] in *.
  destruct (HasPrefix (String c lang) nl_) eqn:E; [done|]. destruct (Cut lang nl_) as [[]|] eqn:El; [done|].
  assert (HasPrefix (String c (lang +:+ nl_ +:+ rest)) nl_ = false) as ->.
  { cbn in *. rewrite andb_true_r in E. destruct lang; by rewrite E. }
  by rewrite IH.
Qed.
Lemma fenced_solid lang j : solid (fenced_text lang j).
Proof.
  split; [vm_compute; reflexivity|]. unfold fenced_text. rewrite !rev_s_app, !append_assoc. vm_compute. reflexivity.
Qed.
Lemma strip_fenced o c lang j : Cut lang nl_ = None → bracketed o c j → stripCodeFence (fenced_text lang j) = j.
Proof.
  intros Hl Hb. unfold stripCodeFence. rewrite (TrimSpace_solid _ (fenced_solid lang j)).
  rewrite (HasPrefix_app (fenced_text lang j) fence_ (lang +:+ nl_ +:+ j +:+ nl_ +:+ fence_) eq_refl). cbn [negb].
  assert (Cut (fence_ +:+ lang) nl_ = None) as Hf.
  { change (fence_ +:+ lang) with (String "`" (String "`" (String "`" lang))). cbn [Cut]. rewrite Hl.
    repeat (match goal with |- context [HasPrefix ?a nl_] => change (HasPrefix a nl_) with false end; cbn [fmap option_fmap option_map]). done. }
  unfold fenced_text. rewrite <- append_assoc, (Cut_line _ _ Hf).
  rewrite <- append_assoc, last_before_end. cbn [default]. by eapply TrimSpace_line.
Qed.

Lemma from_open_app pre o c j : from_open pre = None → (o = "{"%char ∧ c = "}"%char ∨ o = "["%char ∧ c = "]"%char) →
  from_open (pre +:+ String o j) = Some (o, c, String o j).
Proof.
  induction pre as [|x pre IH]; intros Hp Hoc; [by destruct Hoc as [[-> ->]|[-> ->]]|]. rewrite append_cons. cbn [from_open] in *.
  destruct (Ascii.eqb x "{"); [done|]. destruct (Ascii.eqb x "["); [done|]. by apply IH.
Qed.
Lemma balanced_app o c depth i e s t r : balanced o c depth i e s = Some t → balanced o c depth i e (s +:+ r) = Some t.
Proof.
  revert depth i e t. induction s as [|x s IH]; intros depth i e t; [done|]. rewrite append_cons. cbn [balanced]. intros H.
  repeat case_match; try done; apply fmap_Some in H as (t' & Ht & ->); by rewrite (IH _ _ _ _ Ht).
Qed.
Lemma extract_prose o c pre j post :
  from_open pre = None → bracketed o c j → balanced o c 0 false false j = Some j → extractFirstJSON (pre +:+ j +:+ post) = j.
Proof.
  intros Hp [Hoc [mid ->]] Hb. unfold extractFirstJSON. set (m := mid +:+ String c "") in *. rewrite append_cons.
  rewrite (from_open_app pre o c _ Hp Hoc), <- append_cons, (balanced_app _ _ _ _ _ _ _ post Hb). done.
Qed.

Section claim.
Context (compact : string → option string).

(** C2: the repair of a model's JSON. The result is the raw text compacted when it is
    valid; else the compacted text after the first of the four passes (strip the code
    fence, extract the first JSON value, remove trailing commas, quote bare keys),
    applied in this order, each to the result of the one before, that makes it valid;
    else unrepairable, and then the text is invalid after each of the four; the steps
    listed are exactly the passes that changed the text. Repairs are conservative: the
    first two passes only cut a piece out of the text, the third removes only commas
    outside string literals and keeps every literal, the fourth adds only double quotes
    and keeps every literal. Wrapped JSON comes back whole: an object or array in a
    Markdown fence with a one-line tag, and a balanced one behind a sentence without
    brackets, whatever follows it, when the whole is neither valid itself nor fenced.
    (No valid JSON starts with a backquote.) *)
Theorem repair_sound :
  (∀ t, compact (String "`" t) = None) →
  (∀ text, outcome compact text (Repair compact text)) ∧
  (∀ text, infix (stripCodeFence text) text ∧ infix (extractFirstJSON text) text ∧
     erase "," false false (removeTrailingCommas text) = erase "," false false text ∧
     literals false false "" (removeTrailingCommas text) = literals false false "" text ∧
     without q_ (quoteBareKeys text) = without q_ text ∧
     sublist (literals false false "" text) (literals false false "" (quoteBareKeys text))) ∧
  (∀ o c j v, bracketed o c j → compact j = Some v →
     (∀ lang, Cut lang nl_ = None →
        Repair compact (fenced_text lang j) = mkResult (Some v) StatusRepaired [StepStripCodeFence]) ∧
     (∀ pre post, from_open pre = None → balanced o c 0 false false j = Some j →
        compactValid compact (pre +:+ j +:+ post) = None → HasPrefix (TrimSpace (pre +:+ j +:+ post)) fence_ = false →
        Repair compact (pre +:+ j +:+ post) = mkResult (Some v) StatusRepaired [StepExtractFirstJSON])).
Proof.
  intros Hbq. split_and!.
  - intros text. apply Repair_outcome.
  - intros text. split_and!; [apply strip_infix|apply extract_infix|apply remove_commas_erase|apply remove_commas_literals|by apply quote_keys_without|by apply quote_keys_literals].
  - intros o c j v Hb Hv. assert (j ≠ "") as Hne by (destruct Hb as [_ [mid ->]]; done).
    assert (compactValid compact j = Some v) as Hvj.
    { unfold compactValid. by rewrite (TrimSpace_solid _ (bracketed_solid _ _ _ Hb)), bool_decide_eq_false_2. }
    split.
    + intros lang Hl. unfold Repair. unfold compactValid at 1. rewrite (TrimSpace_solid _ (fenced_solid lang j)).
      rewrite bool_decide_eq_false_2 by done. rewrite (Hbq _ : compact (fenced_text lang j) = None). cbn [passes repair_from].
      rewrite (strip_fenced o c lang j Hl Hb). rewrite bool_decide_eq_false_2, Hvj; [done|].
      intros E. destruct Hb as [Hoc [mid ->]]. destruct Hoc as [[-> ->]|[-> ->]]; discriminate E.
    + intros pre post Hp Hbal Hinv Hfence. unfold Repair. rewrite Hinv. cbn [passes repair_from].
      assert (stripCodeFence (pre +:+ j +:+ post) = pre +:+ j +:+ post) as -> by (unfold stripCodeFence; by rewrite Hfence).
      rewrite bool_decide_eq_true_2 by done. rewrite (extract_prose o c pre j post Hp Hb Hbal), Hvj.
      rewrite bool_decide_eq_false_2; [done|]. intros E. rewrite <- E, Hvj in Hinv. done.
Qed.
End claim.

(** A compactor that knows one document. *)
Definition demo_compact (t : string) : option string := if bool_decide (t = "{}") then Some "{}" else None.
Lemma repair_sound_witness :
  Repair demo_compact (fenced_text "json" "{}") = mkResult (Some "{}") StatusRepaired [StepStripCodeFence] ∧
  Repair demo_compact ("Here you are: " +:+ "{}" +:+ " -- enjoy") = mkResult (Some "{}") StatusRepaired [StepExtractFirstJSON].
Proof.
  destruct (repair_sound demo_compact ltac:(done)) as (_ & _ & H).
  destruct (H "{"%char "}"%char "{}" "{}" ltac:(split; [by left|by exists ""]) ltac:(done)) as [Hf Hp]. split.
  - apply Hf. done.
  - apply Hp; vm_compute; reflexivity.
Defined.
