(* ===== verification/Pricing.v ===== *)
(** internal/cost: the pricing catalog (catalog.go, lookup.go) and the price of an
    attempt (price.go).  A document is its decoded struct; a calendar date is the time
    of its midnight, 0 where the field is absent.  Money is nano-USD in an int64. *)
From Stdlib Require Import QArith Ascii.
From stdpp Require Import pretty.
From S2P Require Import Prelude GoStd StoreModel Config.
Open Scope Z_scope.

(** ** Money (price.go) *)

Record Rate : Type := mkRate { InputPerMTok : Q; OutputPerMTok : Q }.
Definition NanoPerUSD : Z := 1000000000.
Definition tokensPerMTok : Z := 1000000.
(** int64 arithmetic. *)
Definition wrap64 (n : Z) : Z := (n + 2 ^ 63) mod 2 ^ 64 - 2 ^ 63.

(** An out-of-range conversion is the amd64 one. *)
Definition usdToNano (usd : Q) : Z :=
  if Qle_bool usd 0 then 0
  else let n := round64 (fl64 (usd * inject_Z NanoPerUSD)) in if n <? 2 ^ 63 then n else - 2 ^ 63.
Definition component (tokens : Z) (usdPerMTok : Q) : Z :=
  if (tokens <=? 0) || Qle_bool usdPerMTok 0 then 0
  else wrap64 (tokens * usdToNano usdPerMTok + tokensPerMTok / 2) `quot` tokensPerMTok.
Definition Cost (inputTokens outputTokens : Z) (r : Rate) : Z :=
  wrap64 (component inputTokens (InputPerMTok r) + component outputTokens (OutputPerMTok r)).
Definition Estimate (inputTokens maxTokens : Z) (r : Rate) : Z := Cost inputTokens maxTokens r.
Definition ToolCost (perCallUSD : Q) : Z := usdToNano perCallUSD.
Definition USDToNano (usd : Q) : Z := usdToNano usd.

(** ** The catalog (catalog.go) *)

Record ModelEntry : Type := mkModelEntry {
  me_Name : string; me_EffectiveFrom : time; me_ContextWindow : Z; me_Rate : Rate }.
Record ToolEntry : Type := mkToolEntry { te_Name : string; te_EffectiveFrom : time; te_PerCallUSD : Q }.
Record Catalog : Type := mkCatalog {
  ct_models : gmap string (list ModelEntry); ct_tools : gmap string (list ToolEntry); ct_fallback : option Rate }.
Record catalogDoc : Type := mkCatalogDoc {
  cd_SchemaVersion : Z; cd_Models : list ModelEntry; cd_Tools : list ToolEntry; cd_Fallback : option Rate }.
Definition CatalogSchemaVersion : Z := 1.

Inductive NameErr : Type := NameEmpty | NameWhitespace | NameStar | NameNamespace.
Inductive CatalogErr : Type :=
| BadSchemaVersion (got : Z)
| BadName (index : nat) (e : NameErr)
| NoEffectiveFrom (index : nat)
| NegativeWindow (index : nat)
| NegativeRate (index : option nat)
| NegativePerCall (index : nat)
| DuplicatePrice (index : nat).

Definition is_blank (c : ascii) : bool := existsb (Ascii.eqb c) [" "; "009"; "010"; "011"; "012"; "013"]%char.
Fixpoint ContainsAny (p : ascii → bool) (s : string) : bool :=
  match s with EmptyString => false | String c s' => p c || ContainsAny p s' end.
Fixpoint count_char (c : ascii) (s : string) : nat :=
  match s with EmptyString => 0%nat | String c' s' => ((if Ascii.eqb c c' then 1 else 0) + count_char c s')%nat end.
Definition HasSuffix (s suffix : string) : bool := HasPrefix (rev_s s) (rev_s suffix).

Definition validateResourceName (name : string) : option NameErr :=
  if bool_decide (name = "") then Some NameEmpty
  else if ContainsAny is_blank name then Some NameWhitespace
  else if (0 <? count_char "*" name)%nat && (negb (HasSuffix name ":*") || negb (count_char "*" name =? 1)%nat) then Some NameStar
  else None.
Definition validateModelName (name : string) : option NameErr :=
  match validateResourceName name with
  | Some e => Some e
  | None => if HasPrefix name "tool:" then Some NameNamespace else None
  end.
Definition validateToolName (name : string) : option NameErr :=
  match validateResourceName name with
  | Some e => Some e
  | None => if negb (HasPrefix name "tool:") || bool_decide (name = "tool:") then Some NameNamespace else None
  end.
(** A float64 of a JSON document is finite. *)
Definition validateRate (index : option nat) (r : Rate) : list CatalogErr :=
  (if Qle_bool 0 (InputPerMTok r) then [] else [NegativeRate index]) ++
  (if Qle_bool 0 (OutputPerMTok r) then [] else [NegativeRate index]).

(** One price of a document: its errors, and the entries with it unless it is refused.
    [seen] is the names and dates priced so far. *)
Section prices.
Context {E : Type} (name : E → string) (from : E → time) (nameErr : string → option NameErr) (checks : nat → E → list CatalogErr).
Record Prices : Type := mkPrices { pr_errs : list CatalogErr; pr_seen : list (string * time); pr_entries : gmap string (list E) }.
Definition add_price (p : Prices) (ix : nat * E) : Prices :=
  let '(i, x) := ix in
  let bad := match nameErr (name x) with Some e => [BadName i e] | None => [] end ++
             (if from x =? 0 then [NoEffectiveFrom i] else []) in
  let errs := pr_errs p ++ bad ++ checks i x in
  if negb (bool_decide (length bad = 0%nat)) then mkPrices errs (pr_seen p) (pr_entries p)
  else if bool_decide ((name x, from x) ∈ pr_seen p) then mkPrices (errs ++ [DuplicatePrice i]) (pr_seen p) (pr_entries p)
  else mkPrices errs ((name x, from x) :: pr_seen p)
         (<[name x := default [] (pr_entries p !! name x) ++ [x]]> (pr_entries p)).
Definition add_prices (l : list E) : Prices := fold_left add_price (imap pair l) (mkPrices [] [] ∅).
(** sort.SliceStable, newest first. *)
Definition newer (a b : E) : Prop := from b ≤ from a.
#[export] Instance newer_dec a b : Decision (newer a b).
Proof. unfold newer. apply _. Defined.
Definition sortEntries (m : gmap string (list E)) : gmap string (list E) := merge_sort newer <$> m.
End prices.
Definition model_checks (i : nat) (m : ModelEntry) : list CatalogErr :=
  (if me_ContextWindow m <? 0 then [NegativeWindow i] else []) ++ validateRate (Some i) (me_Rate m).
Definition tool_checks (i : nat) (t : ToolEntry) : list CatalogErr :=
  if Qle_bool 0 (te_PerCallUSD t) then [] else [NegativePerCall i].

Definition Parse (doc : catalogDoc) : list CatalogErr + Catalog :=
  let models := add_prices me_Name me_EffectiveFrom validateModelName model_checks (cd_Models doc) in
  let tools := add_prices te_Name te_EffectiveFrom validateToolName tool_checks (cd_Tools doc) in
  let errs := (if cd_SchemaVersion doc =? CatalogSchemaVersion then [] else [BadSchemaVersion (cd_SchemaVersion doc)]) ++
              pr_errs models ++ pr_errs tools ++ match cd_Fallback doc with Some r => validateRate None r | None => [] end in
  match errs with
  | [] => inr (mkCatalog (sortEntries me_EffectiveFrom (pr_entries models)) (sortEntries te_EffectiveFrom (pr_entries tools)) (cd_Fallback doc))
  | _ => inl errs
  end.
Definition Merge (base : Catalog) (override : option Catalog) : Catalog :=
  match override with
  | None => base
  | Some o => mkCatalog (ct_models o ∪ ct_models base) (ct_tools o ∪ ct_tools base)
                (match ct_fallback o with Some f => Some f | None => ct_fallback base end)
  end.

(** ** Resolution (lookup.go) *)

Inductive Source : Type := SourceExact | SourceWildcard | SourceFallback.
Definition Source_String (s : Source) : string :=
  match s with SourceExact => "exact" | SourceWildcard => "wildcard" | SourceFallback => "fallback" end.
Inductive UnknownModelPolicy : Type := PolicyEstimate | PolicyFail.
Record Priced : Type := mkPriced { pd_Rate : Rate; pd_Source : Source; pd_Fallback : bool }.

(** The first entry that is not after [at_]. *)
Definition selectModel (entries : list ModelEntry) (at_ : time) : option ModelEntry :=
  find (λ e, negb (at_ <? me_EffectiveFrom e)) entries.
Definition selectTool (entries : list ToolEntry) (at_ : time) : option ToolEntry :=
  find (λ e, negb (at_ <? te_EffectiveFrom e)) entries.
Definition entries_of {E} (m : gmap string (list E)) (name : string) : list E := default [] (m !! name).
(** [name[:i] + ":*"] for the first colon of [name]. *)
Definition wildcard (name : string) : option string := (λ '(provider, _), provider +:+ ":*") <$> Cut name ":".

Definition Lookup_ (c : Catalog) (name : string) (at_ : time) : option (Rate * Source) :=
  match selectModel (entries_of (ct_models c) name) at_ with
  | Some e => Some (me_Rate e, SourceExact)
  | None =>
      match wildcard name with
      | Some w => (λ e, (me_Rate e, SourceWildcard)) <$> selectModel (entries_of (ct_models c) w) at_
      | None => None
      end
  end.
(** [None] is UnknownModelError. *)
Definition PriceModel (c : Catalog) (name : string) (at_ : time) (policy : UnknownModelPolicy) : option Priced :=
  match Lookup_ c name at_ with
  | Some (r, src) => Some (mkPriced r src false)
  | None =>
      match policy with
      | PolicyFail => None
      | PolicyEstimate => (λ fb, mkPriced fb SourceFallback true) <$> ct_fallback c
      end
  end.
Definition positive_window (e : option ModelEntry) : option Z :=
  match e with Some e => if 0 <? me_ContextWindow e then Some (me_ContextWindow e) else None | None => None end.
Definition ContextWindow (c : Catalog) (name : string) (at_ : time) : option (Z * Source) :=
  match positive_window (selectModel (entries_of (ct_models c) name) at_) with
  | Some w => Some (w, SourceExact)
  | None =>
      match wildcard name with
      | Some n => (λ w, (w, SourceWildcard)) <$> positive_window (selectModel (entries_of (ct_models c) n) at_)
      | None => None
      end
  end.
Definition ToolPrice (c : Catalog) (name : string) (at_ : time) : option Z :=
  (λ e, ToolCost (te_PerCallUSD e)) <$> selectTool (entries_of (ct_tools c) name) at_.

(** ** What an executor estimates (exec/exec.go) *)

Record CostEstimate : Type := mkCostEstimate { ce_Resource : string; ce_InputTokens : Z; ce_MaxTokens : Z }.
