(* ===== verification/Context.v ===== *)
(** internal/contextmgr: the assembly of a step's context (contextmgr.go), its
    compaction to a token budget (compact.go), and the budget itself (budget.go).

    The counter of a model family is a parameter ([count]), and so are the framed
    request's measure, the summarizer, the blackboard and the stores that sources
    read.  [quote] is strconv.Quote and [encode] the compact text of a JSON value.

    Then the engine's use of it: the assembly before a claimed step runs
    (engine/context.go) and the provider-window guard (engine/window.go).  What an
    executor offers is a parameter: [inject] is ContextInjector.WithContext and
    [preflight] PreflightCounter.PreflightTokens, [None] where the executor does not
    implement the interface.  The audit transaction that follows the assembly is not
    part of the model: [assembleContext] returns the event and the revisions it
    writes. *)
From Stdlib Require Import QArith Ascii.
From stdpp Require Import pretty.
From S2P Require Import Prelude GoStd StoreModel Config Feedback Validate Codec MapExpand Pointer Pricing.
Open Scope Z_scope.

(** ** Reports and entries *)

Inductive Disposition : Type := Included | Truncated | Skipped | Dropped | Summarized.
Record SourceReport : Type := mkSourceReport {
  sr_Index : Z; sr_Kind : string; sr_Name : string; sr_Ref : string; sr_Status : Disposition; sr_Reason : string;
  sr_Tokens : Z; sr_Pinned : bool }.
Record Entry : Type := mkEntry {
  en_SourceIndex : Z; en_Kind : string; en_Name : string; en_Ref : string; en_Pinned : bool; en_Priority : Z;
  en_Content : string; en_Tokens : Z; en_truncatedByCap : bool }.
Record Assembly : Type := mkAssembly {
  as_Preamble : string; as_Sources : list SourceReport; as_Entries : list Entry; as_ContextTokens : Z; as_CounterID : string }.

Definition truncationMarker : string := String "010" "" +:+ bytes [226; 128; 166]%nat +:+ "[truncated]" +:+ bytes [226; 128; 166]%nat.
Definition elisionMarker : string :=
  String "010" "" +:+ bytes [226; 128; 166]%nat +:+ "[elided]" +:+ bytes [226; 128; 166]%nat +:+ String "010" "".

(** strings.Join. *)
Definition Join (parts : list string) (sep : string) : string := String.concat sep parts.
Definition nl : string := String "010" "".

Section context.
Context (quote : string → string) (encode : json → string) (count : string → Z).

Definition renderBlock (kind name content : string) : string :=
  "<context name=" +:+ quote name +:+ " kind=" +:+ quote kind +:+ ">" +:+ nl +:+ content +:+ nl +:+ "</context>".
Definition Render (entries : list Entry) : string :=
  Join ((λ e, renderBlock (en_Kind e) (en_Name e) (en_Content e)) <$> entries) (nl +:+ nl).

(** ** Binary searches over rune boundaries *)

(** The largest [k] found in [lo, hi] for which [fits k], else [best]. *)
Fixpoint search (fits : nat → bool) (fuel : nat) (lo hi : Z) (best : nat) : nat :=
  match fuel with
  | O => best
  | S fuel' =>
      if lo <=? hi then
        let mid := (lo + hi) / 2 in
        if fits (Z.to_nat mid) then search fits fuel' (mid + 1) hi (Z.to_nat mid)
        else search fits fuel' lo (mid - 1) best
      else best
  end.
Definition text_runes (text : string) : list string := runes (String.length text) text.

Definition truncateToTokens (text : string) (capTokens : Z) : string * Z * bool :=
  let total := count text in
  if total <=? capTokens then (text, 0, false)
  else
    let rs := text_runes text in
    let withMarker := count truncationMarker <=? capTokens in
    let prefix n := String.concat "" (take n rs) in
    let final n := if withMarker then prefix n +:+ truncationMarker else prefix n in
    let best := search (λ n, count (final n) <=? capTokens) (S (length rs)) 0 (Z.of_nat (length rs)) 0 in
    (final best, total - count (prefix best), true).

(** build of truncateMiddle: the first half and the last half of [k] runes. *)
Definition build_middle (rs : list string) (k : nat) : string :=
  let headN := ((k + 1) / 2)%nat in
  let tailN := (k / 2)%nat in
  let '(headN, tailN) := if (length rs <? headN + tailN)%nat then (length rs, 0%nat) else (headN, tailN) in
  String.concat "" (take headN rs) +:+ elisionMarker +:+ String.concat "" (drop (length rs - tailN) rs).
Definition truncateMiddle (text : string) (target : Z) : string * Z :=
  if count text <=? target then (text, count text)
  else
    let rs := text_runes text in
    if target <? count elisionMarker then ("", 0)
    else
      let best := search (λ k, count (build_middle rs k) <=? target) (S (length rs)) 0 (Z.of_nat (length rs)) 0 in
      (build_middle rs best, count (build_middle rs best)).

(** ** Sources *)

Definition renderValue (raw : option json) : string :=
  match raw with
  | None => ""
  | Some (JStr s) => s
  | Some JNull => ""                       (** null unmarshals into a string as no value *)
  | Some v => encode v
  end.
Record ScoredDoc : Type := mkScoredDoc { sd_ID : string; sd_Content : string }.
Definition renderDocs (docs : list ScoredDoc) : string :=
  Join ((λ d, "<doc id=" +:+ quote (sd_ID d) +:+ ">" +:+ nl +:+ sd_Content d +:+ nl +:+ "</doc>") <$> docs) nl.

Definition sourceName (s : ContextSource) (i : Z) : string :=
  if bool_decide (src_Name s = "") then src_Kind s +:+ "#" +:+ pretty i else src_Name s.
Definition pointerRef (path : string) : string := if bool_decide (path = "") then "" else " " +:+ path.
Definition blackboardRef (s : ContextSource) : string :=
  if bool_decide (src_Key s = "") then "tags:" +:+ Join (merge_sort String.le (src_Tags s)) "," else "key:" +:+ src_Key s.
Definition DefaultThreadKey : string := "thread".
Definition threadKey (s : ContextSource) : string := if bool_decide (src_Key s = "") then DefaultThreadKey else src_Key s.
Definition threadRef (s : ContextSource) : string :=
  "thread:" +:+ threadKey s +:+ if bool_decide (src_Role s = "") then "" else " role:" +:+ src_Role s.
Definition defaultRetrievalTopK : Z := 5.
Definition EffectivePriority (s : ContextSource) : Z := default 0 (src_Priority s).
Definition MissingError : string := "error".
Definition EffectiveMissingPolicy (s : ContextSource) : string :=
  if bool_decide (src_OnMissing s = "") then MissingError else src_OnMissing s.

(** The backends; [None] is one that is not wired, [inl] a transport error. *)
Record BoardEntry : Type := mkBoardEntry { be_Key : string; be_Version : Z; be_Value : json }.
Record Board : Type := mkBoard {
  bd_Get : string → string + option BoardEntry;
  bd_List : list string → string + list BoardEntry;
  bd_History : string → string + list BoardEntry }.
Inductive RetrieverErr : Type := UnknownRetriever (msg : string) | RetrieverFailed (msg : string).
Record Sources : Type := mkSources {
  so_StepOutput : option (string → string + option (option json));
  so_Board : option Board;
  so_Retriever : option (string → RetrieverErr + (string → Z → string + list ScoredDoc)) }.

Inductive AssembleErr : Type :=
| MissingSourceError (index : Z) (kind name ref : string)
| ConfigError (index : Z) (kind name msg : string)
| SourceFailed (msg : string).
(** The content ([None]: resolved to nothing) and the reference. *)
Definition Resolved : Type := option string * string.

Definition resolveBlackboard (s : ContextSource) (board : Board) : AssembleErr + Resolved :=
  let ref := blackboardRef s in
  if negb (bool_decide (src_Key s = "")) then
    match bd_Get board (src_Key s) with
    | inl e => inl (SourceFailed e)
    | inr o => inr ((λ e, renderValue (Some (be_Value e))) <$> o, ref)
    end
  else
    match bd_List board (src_Tags s) with
    | inl e => inl (SourceFailed e)
    | inr [] => inr (None, ref)
    | inr entries =>
        inr (Some (Join ((λ e, "<entry key=" +:+ quote (be_Key e) +:+ " version=" +:+ pretty (be_Version e) +:+ ">" +:+ nl +:+
                            renderValue (Some (be_Value e)) +:+ nl +:+ "</entry>") <$> entries) nl), ref)
    end.

(** A turn of a thread; [timeParses] is time.Time's unmarshaler. *)
Context (timeParses : json → bool).
Definition T_ThreadMessage : gotype :=
  TStruct [("author", TString); ("role", TString); ("iteration", TInt); ("content", TRaw); ("created_at", TRaw)].
Definition thread_message (s : ContextSource) (e : BoardEntry) : option string :=
  let m := members (be_Value e) in
  if negb (unmarshals T_ThreadMessage (be_Value e)) || negb (match m !! "created_at" with Some t => timeParses t | None => true end)
  then None
  else if negb (bool_decide (src_Role s = "")) && negb (bool_decide (rd_str (m !! "role") = src_Role s)) then None
  else Some ("<message author=" +:+ quote (rd_str (m !! "author")) +:+ " role=" +:+ quote (rd_str (m !! "role")) +:+
             " iteration=" +:+ pretty (rd_int (m !! "iteration")) +:+ " version=" +:+ pretty (be_Version e) +:+ ">" +:+ nl +:+
             renderValue (m !! "content") +:+ nl +:+ "</message>").
Definition resolveThread (s : ContextSource) (board : Board) : AssembleErr + Resolved :=
  match bd_History board (threadKey s) with
  | inl e => inl (SourceFailed e)
  | inr versions =>
      match omap (thread_message s) versions with
      | [] => inr (None, threadRef s)
      | parts => inr (Some (Join parts nl), threadRef s)
      end
  end.

Definition resolveSource (i : Z) (s : ContextSource) (name : string) (src : Sources) : AssembleErr + Resolved :=
  let unwired msg := inl (ConfigError i (src_Kind s) name msg) in
  if bool_decide (src_Kind s = SourceLiteral) then inr (Some (src_Text s), "literal")
  else if bool_decide (src_Kind s = SourceStepOutput) then
    let ref := "step:" +:+ src_Step s in
    match so_StepOutput src with
    | None => unwired "no step-output reader wired"
    | Some read =>
        match read (src_Step s) with
        | inl e => inl (SourceFailed e)
        | inr None => inr (None, ref)
        | inr (Some out) =>
            inr ((λ v, renderValue (Some v)) <$> ResolvePointer out (src_Path s), ref +:+ pointerRef (src_Path s))
        end
    end
  else if bool_decide (src_Kind s = SourceBlackboard) then
    match so_Board src with None => unwired "no blackboard wired" | Some b => resolveBlackboard s b end
  else if bool_decide (src_Kind s = SourceThread) then
    match so_Board src with None => unwired "no blackboard wired" | Some b => resolveThread s b end
  else if bool_decide (src_Kind s = SourceRetrieval) then
    let ref := "retriever:" +:+ src_Retriever s +:+ " query:" +:+ quote (src_Query s) in
    match so_Retriever src with
    | None => unwired "no retriever registry wired"
    | Some resolve =>
        match resolve (src_Retriever s) with
        | inl (UnknownRetriever msg) => unwired msg
        | inl (RetrieverFailed e) => inl (SourceFailed e)
        | inr query =>
            match query (src_Query s) (default defaultRetrievalTopK (src_TopK s)) with
            | inl e => inl (SourceFailed e)
            | inr [] => inr (None, ref)
            | inr docs => inr (Some (renderDocs docs), ref)
            end
        end
    end
  else unwired "unknown source kind".

(** ** Assemble *)

(** One source: its report, and its entry unless it is skipped. *)
Definition assemble_source (i : Z) (s : ContextSource) (src : Sources) : AssembleErr + (option Entry * SourceReport) :=
  let name := sourceName s i in
  match resolveSource i s name src with
  | inl e => inl e
  | inr (None, ref) =>
      if bool_decide (EffectiveMissingPolicy s = MissingError) then inl (MissingSourceError i (src_Kind s) name ref)
      else inr (None, mkSourceReport i (src_Kind s) name ref Skipped "resolved to nothing" 0 (src_Pinned s))
  | inr (Some content, ref) =>
      let '(content, status, reason) :=
        match src_MaxTokens s with
        | Some cap =>
            if src_Pinned s then (content, Included, "")
            else let '(kept, removed, cut) := truncateToTokens content cap in
                 if cut then (kept, Truncated, "truncated " +:+ pretty removed +:+ " tokens to cap " +:+ pretty cap)
                 else (content, Included, "")
        | None => (content, Included, "")
        end in
      inr (Some (mkEntry i (src_Kind s) name ref (src_Pinned s) (EffectivePriority s) content (count content)
                   (match status with Truncated => true | _ => false end)),
           mkSourceReport i (src_Kind s) name ref status reason (count content) (src_Pinned s))
  end.
Fixpoint assemble_from (i : Z) (l : list ContextSource) (src : Sources) : AssembleErr + (list Entry * list SourceReport) :=
  match l with
  | [] => inr ([], [])
  | s :: l' =>
      match assemble_source i s src with
      | inl e => inl e
      | inr (en, r) =>
          match assemble_from (i + 1) l' src with
          | inl e => inl e
          | inr (ens, rs) => inr (match en with Some en => en :: ens | None => ens end, r :: rs)
          end
      end
  end.
Definition Assemble (spec : ContextSpec) (counterID : string) (src : Sources) : AssembleErr + Assembly :=
  match assemble_from 0 (ctx_Sources spec) src with
  | inl e => inl e
  | inr (ens, rs) => inr (mkAssembly (Render ens) rs ens (count (Render ens)) counterID)
  end.
End context.

(** ** Compaction (compact.go) *)

Record EntryAction : Type := mkEntryAction {
  ea_SourceIndex : Z; ea_Name : string; ea_Action : string; ea_TokensBefore : Z; ea_TokensAfter : Z }.
Record SummaryAction : Type := mkSummaryAction {
  sa_Key : string; sa_Version : Z; sa_ParentVersion : Z; sa_Model : string; sa_Resource : string; sa_SpanNames : list string;
  sa_SpanTokens : Z; sa_SummaryTokens : Z; sa_CacheHit : bool; sa_InputTokens : Z; sa_OutputTokens : Z }.
Record Revision : Type := mkRevision {
  rv_Index : Z; rv_Strategy : string; rv_N : option Z; rv_MinTokens : option Z; rv_Budget : Z; rv_TokensBefore : Z;
  rv_TokensAfter : Z; rv_Changed : bool; rv_Actions : list EntryAction; rv_Summaries : list SummaryAction;
  rv_Error : string; rv_Kept : list string }.
Record Compacted : Type := mkCompacted {
  cp_Preamble : string; cp_Sources : list SourceReport; cp_Entries : list Entry; cp_ContextTokens : Z; cp_FinalTokens : Z;
  cp_Revisions : list Revision; cp_Summaries : list SummaryAction }.
Record OverBudgetError : Type := mkOverBudgetError {
  ob_Budget : Z; ob_Tokens : Z; ob_PinnedTokens : Z; ob_PinnedOnly : bool; ob_Applied : list string;
  ob_Revisions : list Revision; ob_Summaries : list SummaryAction }.
(** [OutOfFuel] is an artefact of the loops' bounds: shown never to happen. *)
Inductive CompactErr : Type :=
| MeasureFailed (msg : string)
| Cancelled
| OverBudget (e : OverBudgetError)
| OutOfFuel.

Record compactState : Type := mkCompactState {
  ws_entries : list Entry; ws_dropped : gset Z; ws_truncated : gset Z; ws_summarizedInto : gmap Z string;
  ws_nextSynthetic : Z }.

Definition liveEntries (entries : list Entry) (dropped : gset Z) : list Entry :=
  List.filter (λ e, negb (bool_decide (en_SourceIndex e ∈ dropped))) entries.
Definition pinnedEntries (entries : list Entry) : list Entry := List.filter en_Pinned entries.
Definition keptNames (entries : list Entry) (dropped : gset Z) : list string := en_Name <$> liveEntries entries dropped.
(** A live entry that is not pinned. *)
Definition evictable (st : compactState) (e : Entry) : bool :=
  negb (en_Pinned e) && negb (bool_decide (en_SourceIndex e ∈ ws_dropped st)).
Definition drop_entry (st : compactState) (e : Entry) : compactState :=
  mkCompactState (ws_entries st) ({[en_SourceIndex e]} ∪ ws_dropped st) (ws_truncated st) (ws_summarizedInto st) (ws_nextSynthetic st).
Definition dropped_action (e : Entry) : EntryAction := mkEntryAction (en_SourceIndex e) (en_Name e) "dropped" (en_Tokens e) 0.

(** [n] is positive (Validate). *)
Definition slidingWindow (st : compactState) (n : Z) : list EntryAction * compactState :=
  let live := List.filter (evictable st) (ws_entries st) in
  if zlen live <=? n then ([], st)
  else let victims := take (Z.to_nat (zlen live - n)) live in
       (dropped_action <$> victims, fold_left drop_entry victims st).

(** The victim of drop_lowest_priority: the last of the lowest priority. *)
Definition lowest (st : compactState) : option Entry :=
  fold_left (λ v e, if evictable st e
                    then match v with
                         | None => Some e
                         | Some v' => if en_Priority e <=? en_Priority v' then Some e else v
                         end
                    else v) (ws_entries st) None.

(** A summarizer's answer. *)
Record SummarizeRequest : Type := mkSummarizeRequest {
  sq_Model : string; sq_SpanText : string; sq_MaxTokens : Z; sq_Timeout : Z }.
Record SummaryResult : Type := mkSummaryResult {
  su_Text : string; su_Resource : string; su_Usage : option (Z * Z); su_CacheHit : bool }.
(** An error, of a call whose context was cancelled or not. *)
Inductive CallErr : Type := CallCancelled | CallFailed (msg : string).

Definition DefaultSummaryKey : string := "context_summary".
Definition DefaultSummaryMaxTokens : Z := 256.
Definition DefaultSummaryTimeout : Z := 60 * Second.
Definition EffectiveSummaryKey (c : CompactionStrategy) : string :=
  if bool_decide (cs_Key c = "") then DefaultSummaryKey else cs_Key c.
Definition EffectiveSummaryMaxTokens (c : CompactionStrategy) : Z := default DefaultSummaryMaxTokens (cs_MaxTokens c).
Definition EffectiveSummaryTimeout (c : CompactionStrategy) : Z :=
  if bool_decide (cs_Timeout c = "") then DefaultSummaryTimeout
  else match ParseDuration (cs_Timeout c) with Some d => if d <=? 0 then DefaultSummaryTimeout else d | None => DefaultSummaryTimeout end.

Section compact.
Context (quote : string → string) (count : string → Z) (measure : string → string + Z).
(** The blackboard a summary is written to: [board] is its state, [bget] the
    version of a key's head, [bput] a write with the version it got. *)
Context {board : Type} (bget : board → string → CallErr + option Z) (bput : board → string → json → CallErr + (Z * board)).
Context (summarizer : option (SummarizeRequest → CallErr + SummaryResult)) (has_board : bool).
Abbreviation render := (Render quote).

Definition renderLive (st : compactState) : string := render (liveEntries (ws_entries st) (ws_dropped st)).

Fixpoint dropLowestPriority (fuel : nat) (budget : Z) (st : compactState) : CompactErr + (list EntryAction * compactState) :=
  match fuel with
  | O => inl OutOfFuel
  | S fuel' =>
      match measure (renderLive st) with
      | inl e => inl (MeasureFailed e)
      | inr cur =>
          if cur <=? budget then inr ([], st)
          else match lowest st with
               | None => inr ([], st)
               | Some v =>
                   match dropLowestPriority fuel' budget (drop_entry st v) with
                   | inl e => inl e
                   | inr (actions, st') => inr (dropped_action v :: actions, st')
                   end
               end
      end
  end.

(** The oldest entry above the floor, with what precedes and follows it. *)
Fixpoint oldest (st : compactState) (floor : Z) (l : list Entry) : option (list Entry * Entry * list Entry) :=
  match l with
  | [] => None
  | e :: l' =>
      if evictable st e && (floor <? en_Tokens e) then Some ([], e, l')
      else (λ '(pre, v, post), (e :: pre, v, post)) <$> oldest st floor l'
  end.
Definition set_content (e : Entry) (content : string) (tokens : Z) : Entry :=
  mkEntry (en_SourceIndex e) (en_Kind e) (en_Name e) (en_Ref e) (en_Pinned e) (en_Priority e) content tokens (en_truncatedByCap e).
(** The actions by source, in the order of their first truncation. *)
Definition note_truncation (actions : list EntryAction) (e : Entry) (tokens : Z) : list EntryAction :=
  if existsb (λ a, bool_decide (ea_SourceIndex a = en_SourceIndex e)) actions
  then (λ a, if bool_decide (ea_SourceIndex a = en_SourceIndex e)
             then mkEntryAction (ea_SourceIndex a) (ea_Name a) (ea_Action a) (ea_TokensBefore a) tokens else a) <$> actions
  else actions ++ [mkEntryAction (en_SourceIndex e) (en_Name e) "truncated" (en_Tokens e) tokens].

Fixpoint truncateOldest (fuel : nat) (budget floor : Z) (actions : list EntryAction) (st : compactState)
    : CompactErr + (list EntryAction * compactState) :=
  match fuel with
  | O => inl OutOfFuel
  | S fuel' =>
      match measure (renderLive st) with
      | inl e => inl (MeasureFailed e)
      | inr cur =>
          if cur <=? budget then inr (actions, st)
          else match oldest st floor (ws_entries st) with
               | None => inr (actions, st)
               | Some (pre, e, post) =>
                   let target := Z.max floor (en_Tokens e - (cur - budget)) in
                   let target := if en_Tokens e <=? target then en_Tokens e - 1 else target in
                   let '(content, tokens) := truncateMiddle count (en_Content e) target in
                   if en_Tokens e <=? tokens then inr (actions, st)
                   else truncateOldest fuel' budget floor (note_truncation actions e tokens)
                          (mkCompactState (pre ++ set_content e content tokens :: post) (ws_dropped st)
                             ({[en_SourceIndex e]} ∪ ws_truncated st) (ws_summarizedInto st) (ws_nextSynthetic st))
               end
      end
  end.

(** The oldest evictable entries, until their tokens reach [need]. *)
Fixpoint summary_span (st : compactState) (need tokens : Z) (l : list Entry) : list Entry :=
  match l with
  | [] => []
  | e :: l' =>
      if evictable st e
      then let tokens := tokens + en_Tokens e in
           if need <=? tokens then [e] else e :: summary_span st need tokens l'
      else summary_span st need tokens l'
  end.
Definition span_tokens (span : list Entry) : Z := foldr (λ e n, en_Tokens e + n) 0 span.
(** The synthetic entry goes where the span begins: at the first evictable entry. *)
Fixpoint splice_summary (st : compactState) (e : Entry) (l : list Entry) : list Entry :=
  match l with
  | [] => [e]
  | x :: l' => if evictable st x then e :: l else x :: splice_summary st e l'
  end.
Definition SummaryValueSchemaVersion : Z := 1.
Definition kindSummary : string := "summary".
Definition marshalSummaryValue (text : string) (names : list string) (spanTokens summaryTokens : Z) (model resource : string)
    (parent : Z) : json :=
  JObj ([("schema_version", JNum SummaryValueSchemaVersion); ("text", JStr text); ("span_names", JArr (JStr <$> names));
         ("span_tokens", JNum spanTokens); ("summary_tokens", JNum summaryTokens); ("model", JStr model);
         ("resource", JStr resource)] ++ omit_int "parent_version" parent).

Record strategyOutcome : Type := mkStrategyOutcome {
  so_actions : list EntryAction; so_summaries : list SummaryAction; so_errMsg : string }.
Definition fallback (msg : string) (st : compactState) (b : board) : CompactErr + (strategyOutcome * compactState * board) :=
  inr (mkStrategyOutcome [] [] msg, st, b).

(** The state after the summary of [span] was stored as [version] of [key]. *)
Definition commit_summary (st : compactState) (span : list Entry) (key ref text : string) (summaryTokens : Z) : compactState :=
  mkCompactState
    (splice_summary st (mkEntry (ws_nextSynthetic st) kindSummary key ref false 0 text summaryTokens false) (ws_entries st))
    (list_to_set (en_SourceIndex <$> span) ∪ ws_dropped st) (ws_truncated st)
    (fold_left (λ m e, <[en_SourceIndex e := ref]> m) span (ws_summarizedInto st)) (ws_nextSynthetic st - 1).

Definition summarize (stgy : CompactionStrategy) (budget : Z) (st : compactState) (b : board)
    : CompactErr + (strategyOutcome * compactState * board) :=
  match summarizer, has_board with
  | Some call, true =>
      let maxTokens := EffectiveSummaryMaxTokens stgy in
      match measure (renderLive st) with
      | inl e => inl (MeasureFailed e)
      | inr cur =>
          let span := summary_span st (cur - budget + maxTokens) 0 (ws_entries st) in
          if bool_decide (span = []) then fallback "no non-pinned entries to summarize" st b
          else match call (mkSummarizeRequest (cs_Model stgy) (render span) maxTokens (EffectiveSummaryTimeout stgy)) with
               | inl CallCancelled => inl Cancelled
               | inl (CallFailed e) => fallback ("summarizer failed: " +:+ e) st b
               | inr result =>
                   let summaryTokens := count (su_Text result) in
                   let spanTokens := span_tokens span in
                   if spanTokens <=? summaryTokens then
                     fallback ("summary (" +:+ pretty summaryTokens +:+ " tokens) not smaller than span (" +:+
                               pretty spanTokens +:+ " tokens)") st b
                   else
                     let key := EffectiveSummaryKey stgy in
                     match bget b key with
                     | inl CallCancelled => inl Cancelled
                     | g =>
                         let parent := match g with inr (Some v) => v | _ => 0 end in
                         match bput b key (marshalSummaryValue (su_Text result) (en_Name <$> span) spanTokens summaryTokens
                                             (cs_Model stgy) (su_Resource result) parent) with
                         | inl CallCancelled => inl Cancelled
                         | inl (CallFailed e) => fallback ("writing summary to blackboard: " +:+ e) st b
                         | inr (version, b') =>
                             let ref := "blackboard key:" +:+ key +:+ " version:" +:+ pretty version in
                             let usage := default (0, 0) (su_Usage result) in
                             inr (mkStrategyOutcome
                                    ((λ e, mkEntryAction (en_SourceIndex e) (en_Name e) "summarized" (en_Tokens e) 0) <$> span)
                                    [mkSummaryAction key version parent (cs_Model stgy) (su_Resource result) (en_Name <$> span)
                                       spanTokens summaryTokens (su_CacheHit result) usage.1 usage.2] "",
                                  commit_summary st span key ref (su_Text result) summaryTokens, b')
                         end
                     end
               end
      end
  | _, _ => fallback "summarizer or blackboard not configured" st b
  end.

(** The rounds of the two loops: one per entry, one per token. *)
Definition drop_fuel (st : compactState) : nat := S (length (ws_entries st)).
Definition truncate_fuel (st : compactState) : nat := S (Z.to_nat (foldr (λ e n, Z.max 0 (en_Tokens e) + n) 0 (ws_entries st))).

Definition applyStrategy (stgy : CompactionStrategy) (budget : Z) (st : compactState) (b : board)
    : CompactErr + (strategyOutcome * compactState * board) :=
  let plain (r : CompactErr + (list EntryAction * compactState)) :=
    match r with inl e => inl e | inr (actions, st') => inr (mkStrategyOutcome actions [] "", st', b) end in
  if bool_decide (cs_Strategy stgy = SlidingWindow) then plain (inr (slidingWindow st (default 0 (cs_N stgy))))
  else if bool_decide (cs_Strategy stgy = DropLowestPriority) then plain (dropLowestPriority (drop_fuel st) budget st)
  else if bool_decide (cs_Strategy stgy = TruncateOldest)
  then plain (truncateOldest (truncate_fuel st) budget (default 0 (cs_MinTokens stgy)) [] st)
  else if bool_decide (cs_Strategy stgy = SummarizeStrategy) then summarize stgy budget st b
  else inr (mkStrategyOutcome [] [] "", st, b).

(** The pipeline: every strategy runs only while the request is over budget. *)
Record Progress : Type := mkProgress {
  pg_state : compactState; pg_board : board; pg_current : Z; pg_revisions : list Revision; pg_applied : list string;
  pg_summaries : list SummaryAction }.
Fixpoint run_pipeline (budget : Z) (idx : Z) (pipeline : list CompactionStrategy) (p : Progress) : CompactErr + Progress :=
  match pipeline with
  | [] => inr p
  | stgy :: rest =>
      if pg_current p <=? budget then inr p
      else match applyStrategy stgy budget (pg_state p) (pg_board p) with
           | inl e => inl e
           | inr (out, st', b') =>
               match measure (renderLive st') with
               | inl e => inl (MeasureFailed e)
               | inr after =>
                   run_pipeline budget (idx + 1) rest
                     (mkProgress st' b' after
                        (pg_revisions p ++
                         [mkRevision idx (cs_Strategy stgy) (cs_N stgy) (cs_MinTokens stgy) budget (pg_current p) after
                            (negb (bool_decide (so_actions out = []))) (so_actions out) (so_summaries out) (so_errMsg out)
                            (keptNames (ws_entries st') (ws_dropped st'))])
                        (pg_applied p ++ [cs_Strategy stgy]) (pg_summaries p ++ so_summaries out))
               end
           end
  end.


(** The reports after compaction.  An entry's report is the last one with its
    index, the first one when there is none (a missing key of a Go map reads 0). *)
Definition report_pos (base : list SourceReport) (idx : Z) : nat :=
  fold_left (λ p '(i, r), if bool_decide (sr_Index r = idx) then i else p) (imap pair base) 0%nat.
Definition set_report (r : SourceReport) (status : Disposition) (reason : string) (tokens : Z) : SourceReport :=
  mkSourceReport (sr_Index r) (sr_Kind r) (sr_Name r) (sr_Ref r) status reason tokens (sr_Pinned r).
Definition truncated_reason (e : Entry) : string := "truncated by compaction to " +:+ pretty (en_Tokens e) +:+ " tokens".
Definition entry_report (st : compactState) (e : Entry) (r : SourceReport) : SourceReport :=
  let into := default "" (ws_summarizedInto st !! en_SourceIndex e) in
  if negb (bool_decide (into = "")) then set_report r Summarized ("summarized into " +:+ into) 0
  else if bool_decide (en_SourceIndex e ∈ ws_dropped st) then set_report r Dropped "dropped by compaction" 0
  else if bool_decide (en_SourceIndex e ∈ ws_truncated st) then set_report r Truncated (truncated_reason e) (en_Tokens e)
  else set_report r (sr_Status r) (sr_Reason r) (en_Tokens e).
Definition synthetic_report (st : compactState) (e : Entry) : SourceReport :=
  let report := mkSourceReport (en_SourceIndex e) (en_Kind e) (en_Name e) (en_Ref e) in
  if bool_decide (en_SourceIndex e ∈ ws_dropped st) then report Dropped "dropped by compaction" 0 false
  else if bool_decide (en_SourceIndex e ∈ ws_truncated st) then report Truncated (truncated_reason e) (en_Tokens e) false
  else report Included "" (en_Tokens e) false.
Definition note_entry (base : list SourceReport) (st : compactState) (acc : list SourceReport * list SourceReport) (e : Entry)
    : list SourceReport * list SourceReport :=
  let '(reports, synthetic) := acc in
  if en_SourceIndex e <? 0 then (reports, synthetic ++ [synthetic_report st e])
  else (alter (entry_report st e) (report_pos base (en_SourceIndex e)) reports, synthetic).
Definition compactedReports (base : list SourceReport) (st : compactState) : list SourceReport :=
  let '(reports, synthetic) := fold_left (note_entry base st) (ws_entries st) (base, []) in reports ++ synthetic.

Definition initial_state (asm : Assembly) : compactState := mkCompactState (as_Entries asm) ∅ ∅ ∅ (-1).
Definition Compact (asm : Assembly) (budget : Z) (pipeline : list CompactionStrategy) (b : board)
    : CompactErr + (Compacted * board) :=
  let st := initial_state asm in
  match measure (renderLive st) with
  | inl e => inl (MeasureFailed e)
  | inr current =>
      match run_pipeline budget 0 pipeline (mkProgress st b current [] [] []) with
      | inl e => inl e
      | inr p =>
          let live := liveEntries (ws_entries (pg_state p)) (ws_dropped (pg_state p)) in
          if budget <? pg_current p then
            match measure (render (pinnedEntries (ws_entries (pg_state p)))) with
            | inl e => inl (MeasureFailed e)
            | inr pinned =>
                inl (OverBudget (mkOverBudgetError budget (pg_current p) pinned (budget <? pinned) (pg_applied p)
                                   (pg_revisions p) (pg_summaries p)))
            end
          else inr (mkCompacted (render live) (compactedReports (as_Sources asm) (pg_state p)) live (count (render live))
                      (pg_current p) (pg_revisions p) (pg_summaries p), pg_board p)
      end
  end.
End compact.

(** ** The provider window's budget (budget.go) *)

Definition HeadroomFraction : Q := 5 # 100.
Definition HeadroomFloorTokens : Z := 64.
(** [float64(window)*HeadroomFraction + 0.999999], in two roundings. *)
Definition Headroom (window : Z) : Z :=
  if window <=? 0 then 0
  else
    let h := trunc64 (fl64 (fl64 (fl64 (inject_Z window) * fl64 HeadroomFraction) + fl64 (999999 # 1000000))) in
    let h := if h <? HeadroomFloorTokens then HeadroomFloorTokens else h in
    if window <? h then window else h.
Definition DefaultBudget (window maxTokens : Z) : option Z :=
  if window <=? 0 then None
  else
    let maxTokens := if maxTokens <? 0 then 0 else maxTokens in
    let budget := window - maxTokens - Headroom window in
    if budget <=? 0 then None else Some budget.
Inductive BudgetSource : Type := BudgetSourceNone | BudgetSourceExplicit | BudgetSourceWindow | BudgetSourceExplicitCapped.
Definition EffectiveBudget (explicit default : option Z) : option Z * BudgetSource :=
  match explicit, default with
  | None, None => (None, BudgetSourceNone)
  | None, Some d => (Some d, BudgetSourceWindow)
  | Some b, None => (Some b, BudgetSourceExplicit)
  | Some b, Some d => if b <=? d then (Some b, BudgetSourceExplicit) else (Some d, BudgetSourceExplicitCapped)
  end.

(** * The engine (engine/context.go, engine/window.go) *)

(** ** The window *)

Record windowInfo : Type := mkWindowInfo { wi_resource : string; wi_window : Z; wi_maxTokens : Z }.

(** [estimate] is the executor's CostEstimate on the current config. *)
Definition resolveWindow (pricing : option Catalog) (estimate : option (json → string + CostEstimate)) (now : time) (config : json)
    : option windowInfo :=
  match pricing, estimate with
  | Some catalog, Some ce =>
      match ce config with
      | inr est =>
          if bool_decide (ce_Resource est = "") then None
          else (λ '(w, _), mkWindowInfo (ce_Resource est) w (ce_MaxTokens est)) <$> ContextWindow catalog (ce_Resource est) now
      | inl _ => None
      end
  | _, _ => None
  end.
(** (budget, hasDefault) as an option, and windowKnown. *)
Definition windowDefaultBudget (info : option windowInfo) : option Z * bool :=
  match info with
  | None => (None, false)
  | Some i => (DefaultBudget (wi_window i) (wi_maxTokens i), true)
  end.

Inductive guardResult : Type := Unguarded | Within (framed : Z) | Exceeded (preflight maxTokens window : Z).
(** [Exceeded] fails the step with the permanent class before the provider call. *)
Definition guardWindow (info : option windowInfo) (preflight : option (json → string + Z)) (config : json) : guardResult :=
  match info, preflight with
  | Some i, Some pc =>
      match pc config with
      | inl _ => Unguarded
      | inr n => if wi_window i <? n + wi_maxTokens i then Exceeded n (wi_maxTokens i) (wi_window i) else Within (n + wi_maxTokens i)
      end
  | _, _ => Unguarded
  end.

(** ** Sources *)

(** The readers of one run: the outputs of the steps that sources name, of those
    that succeeded. *)
Definition source_steps (spec : ContextSpec) : list string :=
  src_Step <$> List.filter (λ s, bool_decide (src_Kind s = SourceStepOutput) && negb (bool_decide (src_Step s = ""))) (ctx_Sources spec).
Definition contextSources (d : DB) (runID : uuid) (spec : ContextSpec) (board : option Board)
    (retriever : option (string → RetrieverErr + (string → Z → string + list ScoredDoc))) : Sources :=
  mkSources
    (Some (λ id, inr (if bool_decide (id ∈ source_steps spec)
                      then match find (is_step runID id) (run_steps d) with
                           | Some r => if bool_decide (step_Status r = StepStatusSucceeded) then Some (step_Output r) else None
                           | None => None
                           end
                      else None)))
    board retriever.

(** ** assembleContext *)

(** The causes of a permanent failure.  On [CompactFailed (OverBudget e)] the
    revisions and summaries of [e] are recorded first (recordFailedCompaction). *)
Inductive ContextCause : Type :=
| CorruptPolicy (msg : string)
| NoInjector
| AssembleFailed (e : AssembleErr)
| NoPreflight
| CompactFailed (e : CompactErr)
| InjectFailed (msg : string).
Inductive ContextFailure : Type :=
| contextError (cause : ContextCause)      (** recorded as a permanent step failure *)
| Transport (msg : string)                 (** redelivered *)
| Interrupted.                             (** the caller's context ended *)
Record ContextAssembledEvent : Type := mkContextAssembledEvent {
  ca_CounterID : string; ca_Sources : list SourceReport; ca_ContextTokens : Z; ca_PreflightTokens : Z; ca_BudgetTokens : Z;
  ca_BudgetSource : BudgetSource; ca_ContextWindow : Z; ca_RawContextTokens : Z; ca_RawPreflightTokens : Z;
  ca_Revisions : list Revision; ca_Summaries : list SummaryAction }.

Section engine.
Context (quote : string → string) (encode : json → string) (count : string → Z) (timeParses : json → bool).
Context {board : Type} (bget : board → string → CallErr + option Z) (bput : board → string → json → CallErr + (Z * board)).
Context (summarizer : option (SummarizeRequest → CallErr + SummaryResult)) (has_board : bool).
Context (inject : option (json → string → string + json)) (preflight : option (json → string + Z)).

(** The measure of a candidate preamble: inject it and count the request. *)
Definition measure_request (inj : json → string → string + json) (pc : json → string + Z) (config : json) (candidate : string)
    : string + Z :=
  match inj config candidate with inl e => inl e | inr aug => pc aug end.
Definition count_or_zero (r : string + Z) : Z := match r with inr n => n | inl _ => 0 end.

(** What is sent: the preamble and its audit. *)
Record Outgoing : Type := mkOutgoing {
  og_preamble : string; og_reports : list SourceReport; og_contextTokens : Z; og_rawPreflight : Z; og_budget : Z;
  og_revisions : list Revision; og_summaries : list SummaryAction }.
Definition compact_to_budget (spec : ContextSpec) (asm : Assembly) (eff : option Z) (config : json)
    (inj : json → string → string + json) (b : board) : ContextFailure + (Outgoing * board) :=
  match eff with
  | None => inr (mkOutgoing (as_Preamble asm) (as_Sources asm) (as_ContextTokens asm) 0 0 [] [], b)
  | Some budget =>
      match preflight with
      | None => inl (contextError NoPreflight)
      | Some pc =>
          let measure := measure_request inj pc config in
          match Compact quote count measure bget bput summarizer has_board asm budget (ctx_Compaction spec) b with
          | inl Cancelled => inl Interrupted
          | inl e => inl (contextError (CompactFailed e))
          | inr (comp, b') =>
              inr (mkOutgoing (cp_Preamble comp) (cp_Sources comp) (cp_ContextTokens comp) (count_or_zero (measure (as_Preamble asm)))
                     budget (cp_Revisions comp) (cp_Summaries comp), b')
          end
      end
  end.

(** [policy] is the step's materialized context column, decoded: [None] an empty
    column, [inl] one that does not decode.  The result is the config to run with, and
    the event of the assembly when there was one. *)
Definition assembleContext (policy : option (string + ContextSpec)) (counterID : string) (sources : ContextSpec → Sources)
    (window : option windowInfo) (config : json) (b : board) : ContextFailure + (json * option ContextAssembledEvent * board) :=
  match policy with
  | None => inr (config, None, b)
  | Some (inl e) => inl (contextError (CorruptPolicy e))
  | Some (inr spec) =>
      if bool_decide (length (ctx_Sources spec) = 0%nat) then inr (config, None, b)
      else match inject with
      | None => inl (contextError NoInjector)
      | Some inj =>
          match Assemble quote encode count timeParses spec counterID (sources spec) with
          | inl (SourceFailed msg) => inl (Transport msg)
          | inl e => inl (contextError (AssembleFailed e))
          | inr asm =>
              let '(eff, source) := EffectiveBudget (ctx_BudgetTokens spec) (windowDefaultBudget window).1 in
              match compact_to_budget spec asm eff config inj b with
              | inl e => inl e
              | inr (out, b') =>
                  match inj config (og_preamble out) with
                  | inl e => inl (contextError (InjectFailed e))
                  | inr augmented =>
                      let total := match preflight with Some pc => count_or_zero (pc augmented) | None => 0 end in
                      inr (augmented,
                           Some (mkContextAssembledEvent (as_CounterID asm) (og_reports out) (og_contextTokens out) total
                                   (og_budget out) source (match window with Some i => wi_window i | None => 0 end)
                                   (as_ContextTokens asm) (if og_rawPreflight out =? 0 then total else og_rawPreflight out)
                                   (og_revisions out) (og_summaries out)), b')
                  end
              end
          end
      end
  end.
End engine.
