(* ===== verification/ContextFacts.v ===== *)
(** Facts about the compaction of a step's context (contextmgr/compact.go): what every
    strategy keeps, when a strategy has nothing left to do, and that its loops end. *)
From Stdlib Require Import QArith Ascii.
From stdpp Require Import pretty.
From S2P Require Import Prelude GoStd StoreModel Config Feedback Validate Codec MapExpand Pointer Pricing Context.
Open Scope Z_scope.

(** ** Lists of entries *)

Lemma elem_filter {A} (f : A → bool) l x : x ∈ List.filter f l ↔ x ∈ l ∧ f x = true.
Proof. rewrite !list_elem_of_In. apply filter_In. Qed.
Lemma filter_sublist {A} (f : A → bool) l : sublist (List.filter f l) l.
Proof. induction l as [|x l IH]; [done|]. cbn. destruct (f x); by constructor. Qed.
Lemma filter_comm {A} (f g : A → bool) l : List.filter f (List.filter g l) = List.filter g (List.filter f l).
Proof. induction l as [|x l IH]; [done|]. cbn. destruct (f x) eqn:Ef, (g x) eqn:Eg; cbn; by rewrite ?Ef, ?Eg, IH. Qed.
(** A predicate that loses one element of the list counts one less. *)
Lemma filter_shorter {A} (f g : A → bool) l x :
  (∀ y, g y = true → f y = true) → x ∈ l → f x = true → g x = false → (length (List.filter g l) < length (List.filter f l))%nat.
Proof.
  intros Hsub Hx Hf Hg.
  assert (∀ l : list A, length (List.filter g l) ≤ length (List.filter f l))%nat as Hle.
  { intros l'. induction l' as [|y l' IH]; [done|]. cbn. destruct (g y) eqn:E; [rewrite (Hsub y E); cbn; lia|].
    destruct (f y); cbn; lia. }
  induction l as [|y l IH]; [set_solver|]. cbn. apply elem_of_cons in Hx as [<-|Hx].
  - rewrite Hf, Hg. cbn. specialize (Hle l). lia.
  - specialize (IH Hx). destruct (g y) eqn:E; [rewrite (Hsub y E); cbn; lia|]. destruct (f y); cbn; lia.
Qed.

(** ** What compaction keeps *)

Definition source_ids (l : list Entry) : list Z := List.filter (λ i, 0 <=? i) (en_SourceIndex <$> l).
(** The pinned entries are [pins], none is dropped and none shares its index; the
    sources are [srcs]; the next synthetic index is new. *)
Record kept (pins : list Entry) (srcs : list Z) (st : compactState) : Prop := mkKept {
  kept_pins : pinnedEntries (ws_entries st) = pins;
  kept_live : ∀ e, e ∈ pins → en_SourceIndex e ∉ ws_dropped st ∧ 0 ≤ en_SourceIndex e;
  kept_apart : ∀ e e', e ∈ pins → e' ∈ ws_entries st → en_Pinned e' = false → en_SourceIndex e ≠ en_SourceIndex e';
  kept_srcs : source_ids (ws_entries st) = srcs;
  kept_into : ∀ i, is_Some (ws_summarizedInto st !! i) → i ∈ ws_dropped st;
  kept_fresh : ws_nextSynthetic st < 0 }.
(** Nothing is left that a strategy may touch. *)
Definition drained (st : compactState) : Prop := ∀ e, e ∈ ws_entries st → evictable st e = false.

Lemma evictable_true st e : evictable st e = true ↔ en_Pinned e = false ∧ en_SourceIndex e ∉ ws_dropped st.
Proof.
  unfold evictable. destruct (en_Pinned e); cbn; [naive_solver|].
  destruct (bool_decide_reflect (en_SourceIndex e ∈ ws_dropped st)); naive_solver.
Qed.
Lemma drained_filter st : drained st → List.filter (evictable st) (ws_entries st) = [].
Proof. apply filter_none. Qed.

Section kept.
Context (pins : list Entry) (srcs : list Z).
Abbreviation ok := (kept pins srcs).

Lemma live_pins st : ok st → pinnedEntries (liveEntries (ws_entries st) (ws_dropped st)) = pins.
Proof.
  intros [Hp Hl _ _ _ _]. unfold pinnedEntries, liveEntries in *. rewrite filter_comm, Hp. apply filter_all. intros e He.
  by rewrite bool_decide_eq_false_2 by (by apply Hl).
Qed.
Lemma drained_live st : ok st → drained st → liveEntries (ws_entries st) (ws_dropped st) = pins.
Proof.
  intros Hok Hd. rewrite <- (live_pins st Hok). symmetry. apply filter_all. intros e He.
  apply elem_filter in He as [He Hn]. specialize (Hd e He). unfold evictable in Hd. rewrite Hn in Hd.
  by destruct (en_Pinned e).
Qed.
Lemma live_sources st : ok st → sublist (source_ids (liveEntries (ws_entries st) (ws_dropped st))) srcs.
Proof.
  intros [_ _ _ <- _ _]. unfold source_ids, liveEntries. induction (ws_entries st) as [|e l IH]; [done|]. cbn.
  destruct (bool_decide _); cbn; destruct (0 <=? en_SourceIndex e); first [done|by constructor].
Qed.

(** Dropping what is not pinned. *)
Lemma kept_drop st e : ok st → e ∈ ws_entries st → en_Pinned e = false → ok (drop_entry st e).
Proof.
  intros [Hp Hl Ha Hs Hi Hf] He Hn. constructor; cbn; [done| |done..| |done]; [|set_solver]. intros x Hx. specialize (Hl x Hx).
  specialize (Ha x e Hx He Hn). set_solver.
Qed.
Lemma kept_drops victims st :
  ok st → (∀ e, e ∈ victims → e ∈ ws_entries st ∧ en_Pinned e = false) → ok (fold_left drop_entry victims st).
Proof.
  revert st. induction victims as [|e l IH]; intros st Hok Hv; [done|]. cbn. apply IH; [|set_solver].
  apply kept_drop; [done|apply Hv; set_solver..].
Qed.
Lemma kept_window st n : ok st → ok (slidingWindow st n).2.
Proof.
  intros Hok. unfold slidingWindow. destruct (_ <=? _); [done|]. apply kept_drops; [done|]. intros e He.
  apply elem_of_take in He as (i & He & _). apply list_elem_of_lookup_2 in He. apply elem_filter in He as [? Hev].
  by apply evictable_true in Hev as [? _].
Qed.
Lemma drained_window st n : drained st → slidingWindow st n = ([], st).
Proof. intros Hd. unfold slidingWindow. rewrite drained_filter by done. rewrite take_nil. by destruct (_ <=? _). Qed.

(** The victim of drop_lowest_priority. *)
Lemma lowest_from st l v :
  let r := fold_left (λ v e, if evictable st e
                    then match v with
                         | None => Some e
                         | Some v' => if en_Priority e <=? en_Priority v' then Some e else v
                         end
                    else v) l v in
  match r with
  | Some x => v = Some x ∨ (x ∈ l ∧ evictable st x = true)
  | None => v = None ∧ ∀ e, e ∈ l → evictable st e = false
  end.
Proof.
  revert v. induction l as [|e l IH]; intros v; cbn; [destruct v; set_solver|].
  match goal with |- context [fold_left _ l ?v'] => specialize (IH v'); set (r := fold_left _ l v') in * end.
  destruct (evictable st e) eqn:Ee.
  - destruct r as [x|]; [|destruct v as [v|]; [destruct (_ <=? _)|]; naive_solver].
    destruct IH as [IH|IH]; [|set_solver]. destruct v as [v|]; [destruct (_ <=? _)|]; naive_solver set_solver.
  - destruct r as [x|]; [naive_solver set_solver|]. destruct IH as [-> IH]. split; [done|]. intros x [->|?]%elem_of_cons; auto.
Qed.
Lemma lowest_some st v : lowest st = Some v → v ∈ ws_entries st ∧ evictable st v = true.
Proof. intros H. pose proof (lowest_from st (ws_entries st) None) as L. cbn in L. unfold lowest in H. rewrite H in L. naive_solver. Qed.
Lemma lowest_none st : lowest st = None → drained st.
Proof. intros H. pose proof (lowest_from st (ws_entries st) None) as L. cbn in L. unfold lowest in H. rewrite H in L. naive_solver. Qed.
Lemma drained_lowest st : drained st → lowest st = None.
Proof. intros Hd. destruct (lowest st) as [v|] eqn:E; [|done]. apply lowest_some in E as [? E]. rewrite Hd in E by done. done. Qed.

(** truncate_oldest: the entry it picks, and its replacement. *)
Lemma oldest_some st floor l pre e post :
  oldest st floor l = Some (pre, e, post) → l = pre ++ e :: post ∧ evictable st e = true ∧ floor < en_Tokens e.
Proof.
  revert pre e post. induction l as [|x l IH]; intros pre e post; cbn; [done|].
  destruct (evictable st x && (floor <? en_Tokens x)) eqn:E.
  - intros [= <- <- <-]. apply andb_prop in E as [? ?]. split_and!; [done..|lia].
  - destruct (oldest st floor l) as [[[pre' v] post']|]; [|done]. intros [= <- <- <-].
    destruct (IH _ _ _ eq_refl) as (-> & ? & ?). done.
Qed.
Lemma drained_oldest st floor : drained st → oldest st floor (ws_entries st) = None.
Proof.
  intros Hd. destruct (oldest _ _ _) as [[[pre v] post]|] eqn:E; [|done]. apply oldest_some in E as (El & Ev & _).
  rewrite Hd in Ev by (rewrite El; set_solver). done.
Qed.
Lemma kept_truncate st pre e post content tokens tr :
  ok st → ws_entries st = pre ++ e :: post → en_Pinned e = false →
  ok (mkCompactState (pre ++ set_content e content tokens :: post) (ws_dropped st) tr (ws_summarizedInto st) (ws_nextSynthetic st)).
Proof.
  intros [Hp Hl Ha Hs Hi Hf] El Hn. rewrite El in *. constructor; cbn; [|done| | |done..].
  - rewrite <- Hp. unfold pinnedEntries. rewrite !List.filter_app. cbn. by rewrite Hn.
  - intros x x' Hx Hx' Hn'. apply elem_of_app in Hx' as [?|[->|?]%elem_of_cons]; [apply Ha; set_solver|cbn|apply Ha; set_solver].
    apply (Ha x e); [done|set_solver|done].
  - rewrite <- Hs. unfold source_ids. by rewrite !fmap_app.
Qed.

(** summarize: the span, and the summary put in its place. *)
Lemma span_evictable st need n l e : e ∈ summary_span st need n l → e ∈ l ∧ evictable st e = true.
Proof.
  revert n. induction l as [|x l IH]; intros n; cbn; [set_solver|]. destruct (evictable st x) eqn:E.
  - destruct (_ <=? _); [set_solver|]. intros [->|He]%elem_of_cons; [set_solver|]. apply IH in He. set_solver.
  - intros He. apply IH in He. set_solver.
Qed.
Lemma drained_span st need n l : (∀ e, e ∈ l → evictable st e = false) → summary_span st need n l = [].
Proof. revert n. induction l as [|x l IH]; intros n H; [done|]. cbn. rewrite H, IH by set_solver. done. Qed.
Lemma splice_filter st e l (f : Entry → bool) : f e = false → List.filter f (splice_summary st e l) = List.filter f l.
Proof. intros He. induction l as [|x l IH]; cbn; [by rewrite He|]. destruct (evictable st x); cbn; [by rewrite He|by rewrite IH]. Qed.
Lemma splice_sources st e l : en_SourceIndex e < 0 → source_ids (splice_summary st e l) = source_ids l.
Proof.
  intros He. assert ((0 <=? en_SourceIndex e) = false) as E by lia. unfold source_ids.
  induction l as [|x l IH]; cbn; [by rewrite E|]. destruct (evictable st x); cbn; [by rewrite E|by rewrite IH].
Qed.
Lemma elem_splice st e l x : x ∈ splice_summary st e l → x = e ∨ x ∈ l.
Proof. induction l as [|y l IH]; cbn; [set_solver|]. destruct (evictable st y); set_solver. Qed.
Lemma noted_into (ref : string) span (m : gmap Z string) i :
  is_Some (fold_left (λ m e, <[en_SourceIndex e := ref]> m) span m !! i) → i ∈ en_SourceIndex <$> span ∨ is_Some (m !! i).
Proof.
  revert m. induction span as [|e l IH]; intros m; cbn; [by right|]. intros [?|H]%IH; [set_solver|].
  destruct (decide (en_SourceIndex e = i)) as [<-|?]; [set_solver|]. rewrite lookup_insert_ne in H by done. by right.
Qed.
Lemma kept_summary st span key ref text n :
  ok st → (∀ e, e ∈ span → e ∈ ws_entries st ∧ evictable st e = true) → ok (commit_summary st span key ref text n).
Proof.
  intros [Hp Hl Ha Hs Hi Hf] Hspan. constructor; cbn -[splice_summary].
  - rewrite <- Hp. by apply splice_filter.
  - intros e He. destruct (Hl e He) as [Hd Hge]. split; [|done]. intros [Hin|?]%elem_of_union; [|done].
    apply elem_of_list_to_set, list_elem_of_fmap in Hin as (x & Ex & Hx). destruct (Hspan x Hx) as [Hx' Hev].
    apply evictable_true in Hev as [Hn _]. by apply (Ha e x He Hx' Hn).
  - intros e e' He He' Hn. apply elem_splice in He' as [->|He']; [|by apply Ha]. cbn. destruct (Hl e He). lia.
  - rewrite <- Hs. by apply splice_sources.
  - intros i Hs'. apply noted_into in Hs'. set_solver.
  - lia.
Qed.
End kept.

(** ** The strategies *)

Section strategies.
Context (quote : string → string) (count : string → Z) (measure : string → string + Z).
Context {board : Type} (bget : board → string → CallErr + option Z) (bput : board → string → json → CallErr + (Z * board)).
Context (summarizer : option (SummarizeRequest → CallErr + SummaryResult)) (has_board : bool).
Context (pins : list Entry) (srcs : list Z).
Abbreviation ok := (kept pins srcs).
Abbreviation live := (renderLive quote).
Abbreviation apply_ := (applyStrategy quote count measure bget bput summarizer has_board).

(** What an error says: the measure failed, or a call of [may_cancel] was cancelled. *)
Definition honest (may_cancel : Prop) (e : CompactErr) : Prop :=
  match e with
  | MeasureFailed m => ∃ text, measure text = inl m
  | Cancelled => may_cancel
  | _ => False
  end.
Lemma honest_mono (P Q : Prop) e : (P → Q) → honest P e → honest Q e.
Proof. intros HPQ. by destruct e; cbn; auto. Qed.
Definition fits (budget : Z) (st : compactState) : Prop := ∃ n, measure (live st) = inr n ∧ n ≤ budget.

Lemma drop_shorter st v :
  v ∈ ws_entries st → evictable st v = true →
  (length (List.filter (evictable (drop_entry st v)) (ws_entries st)) < length (List.filter (evictable st) (ws_entries st)))%nat.
Proof.
  intros Hin Hev. apply (filter_shorter _ _ _ v); [|done..|].
  - intros y Hy. apply evictable_true in Hy as [? Hy]. apply evictable_true. set_solver.
  - destruct (evictable (drop_entry st v) v) eqn:E; [|done]. apply evictable_true in E as [_ E]. set_solver.
Qed.
Lemma drop_loop budget fuel st :
  ok st → (length (List.filter (evictable st) (ws_entries st)) < fuel)%nat →
  match dropLowestPriority quote measure fuel budget st with
  | inl e => honest False e
  | inr (_, st') => ok st' ∧ (fits budget st' ∨ drained st') ∧ (drained st → st' = st)
  end.
Proof.
  revert st. induction fuel as [|fuel IH]; intros st Hok Hf; [lia|]. cbn.
  destruct (measure _) as [m|cur] eqn:Em; [cbn; eauto|]. destruct (cur <=? budget) eqn:Eb.
  { split_and!; [done| |done]. left. exists cur. split; [done|lia]. }
  destruct (lowest st) as [v|] eqn:Ev; [|apply lowest_none in Ev; by auto].
  pose proof (lowest_some st v Ev) as [Hin Hev]. pose proof (proj1 (evictable_true _ _) Hev) as [Hn Hd].
  specialize (IH (drop_entry st v) (kept_drop _ _ _ _ Hok Hin Hn)).
  specialize (IH ltac:(pose proof (drop_shorter st v Hin Hev); cbn [drop_entry ws_entries] in *; lia)).
  destruct (dropLowestPriority _ _ _ _ _) as [e|[actions st']]; [done|]. destruct IH as (? & ? & ?). split_and!; [done..|].
  intros Hdr. by rewrite drained_lowest in Ev.
Qed.

Definition weight (l : list Entry) : Z := foldr (λ e n, Z.max 0 (en_Tokens e) + n) 0 l.
Lemma weight_cons e l : weight (e :: l) = Z.max 0 (en_Tokens e) + weight l.
Proof. done. Qed.
Lemma weight_app l k : weight (l ++ k) = weight l + weight k.
Proof. induction l as [|e l IH]; [done|]. rewrite <- app_comm_cons, !weight_cons. lia. Qed.
Lemma weight_nonneg l : 0 ≤ weight l.
Proof. induction l as [|e l IH]; [done|]. rewrite weight_cons. lia. Qed.

Lemma truncate_loop budget floor fuel actions st :
  0 ≤ floor → ok st → (Z.to_nat (weight (ws_entries st)) < fuel)%nat →
  match truncateOldest quote count measure fuel budget floor actions st with
  | inl e => honest False e
  | inr (_, st') => ok st' ∧ (drained st → st' = st)
  end.
Proof.
  intros Hfl. revert actions st. induction fuel as [|fuel IH]; intros actions st Hok Hf; [lia|]. cbn.
  destruct (measure _) as [m|cur] eqn:Em; [cbn; eauto|]. destruct (cur <=? budget); [done|].
  destruct (oldest st floor (ws_entries st)) as [[[pre e] post]|] eqn:Eo; [|done].
  pose proof (oldest_some _ _ _ _ _ _ Eo) as (El & Hev & Ht). apply evictable_true in Hev as [Hn Hd].
  destruct (truncateMiddle _ _ _) as [content tokens] eqn:Etm. destruct (en_Tokens e <=? tokens) eqn:Ep.
  { by split. }
  match goal with |- context [truncateOldest _ _ _ fuel budget floor ?a ?s] => specialize (IH a s) end.
  match type of IH with _ → _ → ?G => assert G as HG end.
  { apply IH; [by eapply kept_truncate|]. cbn [ws_entries]. rewrite El in Hf. rewrite weight_app, weight_cons in *. cbn [set_content en_Tokens].
    pose proof (weight_nonneg pre). pose proof (weight_nonneg post). lia. }
  destruct (truncateOldest _ _ _ _ _ _ _ _) as [e'|[actions' st']]; [done|]. destruct HG as [? ?]. split; [done|].
  intros Hdr. by rewrite drained_oldest in Eo.
Qed.

Lemma summarize_step stgy budget st b :
  ok st →
  match summarize quote count measure bget bput summarizer has_board stgy budget st b with
  | inl e => honest True e
  | inr (_, st', _) => ok st' ∧ (drained st → st' = st)
  end.
Proof.
  intros Hok. unfold summarize, fallback. destruct summarizer as [call|], has_board; try done.
  destruct (measure _) as [m|cur]  eqn:Em; [cbn; eauto|]. case_bool_decide as Hs; [done|].
  assert (∀ st', drained st → st' = st) as Hdr by (intros st' Hd; destruct Hs; by apply drained_span).
  destruct (call _) as [[|e]|result]; [done|by split; auto|]. destruct (_ <=? _); [by split; auto|].
  destruct (bget _ _) as [[|e]|g]; [done|..].
  all: destruct (bput _ _ _) as [[|e']|[version b']]; [done|by split; auto|].
  all: split; [|auto]; apply kept_summary; [done|]; intros x Hx; by apply span_evictable in Hx.
Qed.

Lemma strategy_step stgy budget st b :
  ok st → default 0 (cs_MinTokens stgy) >= 0 →
  match apply_ stgy budget st b with
  | inl e => honest (cs_Strategy stgy = SummarizeStrategy) e
  | inr (_, st', _) =>
      ok st' ∧ (drained st → st' = st) ∧ (cs_Strategy stgy = DropLowestPriority → fits budget st' ∨ drained st')
  end.
Proof.
  intros Hok Hfl. unfold applyStrategy. case_bool_decide as H1.
  { destruct (slidingWindow st _) as [actions st'] eqn:E. pose proof (kept_window pins srcs st (default 0 (cs_N stgy)) Hok) as Hk.
    rewrite E in Hk. split_and!; [done| |by rewrite H1]. intros Hd. rewrite drained_window in E by done. congruence. }
  case_bool_decide as H2.
  { pose proof (drop_loop budget (drop_fuel st) st Hok) as Hl. destruct (dropLowestPriority _ _ _ _ _) as [e|[actions st']].
    - eapply honest_mono, Hl, Nat.lt_succ_r, List.filter_length_le. done.
    - destruct Hl as (? & ? & ?); [apply Nat.lt_succ_r, List.filter_length_le|]. by split_and!. }
  case_bool_decide as H3.
  { pose proof (truncate_loop budget (default 0 (cs_MinTokens stgy)) (truncate_fuel st) [] st ltac:(lia) Hok) as Hl.
    destruct (truncateOldest _ _ _ _ _ _ _ _) as [e|[actions st']].
    - eapply honest_mono, Hl, Nat.lt_succ_diag_r. done.
    - destruct Hl as (? & ?); [apply Nat.lt_succ_diag_r|]. by split_and!. }
  case_bool_decide as H4; [|by split_and!].
  pose proof (summarize_step stgy budget st b Hok) as Hl. destruct (summarize _ _ _ _ _ _ _ _ _ _ _) as [e|[[out st'] b']].
  - by eapply honest_mono, Hl.
  - destruct Hl as [? ?]. split_and!; [done..|]. intros. congruence.
Qed.
End strategies.

(** ** The pipeline *)

Section pipeline.
Context (quote : string → string) (count : string → Z) (measure : string → string + Z).
Context {board : Type} (bget : board → string → CallErr + option Z) (bput : board → string → json → CallErr + (Z * board)).
Context (summarizer : option (SummarizeRequest → CallErr + SummaryResult)) (has_board : bool).
Context (pins : list Entry) (srcs : list Z) (st0 : compactState) (budget : Z).

Definition has_strategy (s : string) (pipeline : list CompactionStrategy) : Prop := ∃ c, c ∈ pipeline ∧ cs_Strategy c = s.
Definition floors_ok (pipeline : list CompactionStrategy) : Prop := ∀ c, c ∈ pipeline → default 0 (cs_MinTokens c) >= 0.
(** The total of every revision is measured, and a strategy ran only over budget. *)
Definition audited (r : Revision) : Prop := rv_Budget r = budget ∧ budget < rv_TokensBefore r.
Record running (p : @Progress board) : Prop := mkRunning {
  run_kept : kept pins srcs (pg_state p);
  run_measured : measure (renderLive quote (pg_state p)) = inr (pg_current p);
  run_audited : Forall audited (pg_revisions p);
  run_untouched : pg_revisions p = [] → pg_state p = st0 }.

Lemma pipeline_runs idx pipeline p :
  running p → floors_ok pipeline →
  match run_pipeline quote count measure bget bput summarizer has_board budget idx pipeline p with
  | inl e => honest measure (has_strategy SummarizeStrategy pipeline) e
  | inr p' =>
      running p' ∧
      (pg_current p ≤ budget ∨ drained (pg_state p) ∨ has_strategy DropLowestPriority pipeline →
       pg_current p' ≤ budget ∨ drained (pg_state p'))
  end.
Proof.
  revert idx p. induction pipeline as [|stgy rest IH]; intros idx p Hr Hf; cbn.
  { split; [done|]. intros [?|[?|(c & Hc & _)]]; [by left|by right|set_solver]. }
  destruct (pg_current p <=? budget) eqn:Eb; [split; [done|]; left; lia|].
  pose proof (strategy_step quote count measure bget bput summarizer has_board pins srcs stgy budget (pg_state p) (pg_board p)
                (run_kept p Hr) (Hf stgy ltac:(set_solver))) as Hs.
  destruct (applyStrategy _ _ _ _ _ _ _ _ _ _ _) as [e|[[out st'] b']].
  { eapply honest_mono, Hs. intros ?. exists stgy. set_solver. }
  destruct Hs as (Hk & Hdr & Hdl). destruct (measure (renderLive quote st')) as [m|after] eqn:Em; [cbn; eauto|].
  match goal with |- context [run_pipeline _ _ _ _ _ _ _ _ ?i rest ?q] => specialize (IH i q) end.
  match type of IH with _ → _ → ?G => assert G as HG end.
  { apply IH; [|intros c Hc; apply Hf; set_solver]. constructor; cbn; [done..| |].
    - apply Forall_app. split; [apply Hr|]. repeat constructor; cbn; lia.
    - by destruct (pg_revisions p). }
  destruct (run_pipeline _ _ _ _ _ _ _ _ _ _ _) as [e|p'].
  { eapply honest_mono, HG. intros (c & ? & ?). exists c. set_solver. }
  destruct HG as [? Hend]. split; [done|]. cbn in Hend. intros [?|[Hd|(c & Hc & Es)]]; [lia|apply Hend; right; left; by rewrite Hdr|].
  apply Hend. apply elem_of_cons in Hc as [->|Hc]; [|right; right; by exists c].
  destruct (Hdl Es) as [(n & Hn & Hle)|?]; [|by right; left]. left. congruence.
Qed.
End pipeline.

(** ** The searches over rune boundaries *)

Lemma search_fits fits fuel lo hi best : fits best = true → fits (search fits fuel lo hi best) = true.
Proof.
  revert lo hi best. induction fuel as [|fuel IH]; intros lo hi best Hb; [done|]. cbn. destruct (lo <=? hi); [|done].
  destruct (fits (Z.to_nat _)) eqn:E; by apply IH.
Qed.
(** Cut to a cap, a text counts at most the cap. *)
Lemma truncate_capped count text cap : count "" ≤ cap → count (truncateToTokens count text cap).1.1 ≤ cap.
Proof.
  intros Hcap. unfold truncateToTokens. destruct (count text <=? cap) eqn:E; [cbn; lia|]. cbv zeta. cbn [fst].
  match goal with |- context [search ?f ?n ?lo ?hi 0] => apply Z.leb_le, (search_fits f n lo hi 0%nat), Z.leb_le end. destruct (count truncationMarker <=? cap) eqn:Em; rewrite take_0; cbn [String.concat]; [|done].
  rewrite append_nil_l. lia.
Qed.
Lemma middle_capped count text target : 0 ≤ target → (truncateMiddle count text target).2 ≤ target.
Proof.
  intros Ht. unfold truncateMiddle. destruct (count text <=? target) eqn:E; [cbn; lia|].
  destruct (target <? count elisionMarker) eqn:Em; [done|]. cbv zeta. cbn [snd].
  match goal with |- context [search ?f ?n ?lo ?hi 0] => apply Z.leb_le, (search_fits f n lo hi 0%nat), Z.leb_le end. unfold build_middle. change ((0 + 1) / 2)%nat with 0%nat. change (0 / 2)%nat with 0%nat.
  destruct (_ <? _)%nat eqn:El; [apply Nat.ltb_lt in El; lia|]. rewrite take_0, drop_ge by lia. cbn [String.concat].
  rewrite append_nil_l, append_nil_r. lia.
Qed.

(** ** The assembly *)

(** A report and the entry of its source. *)
Definition sent (r : SourceReport) (e : Entry) : Prop :=
  sr_Index r = en_SourceIndex e ∧ sr_Tokens r = en_Tokens e ∧ (sr_Status r = Included ∨ sr_Status r = Truncated).
Record accounted (i : Z) (ens : list Entry) (rs : list SourceReport) : Prop := mkAccounted {
  acc_index : ∀ k r, rs !! k = Some r → sr_Index r = i + Z.of_nat k;
  acc_sent : ∀ e, e ∈ ens → ∃ k r, rs !! k = Some r ∧ sent r e;
  acc_skipped : ∀ r, r ∈ rs → (∃ e, e ∈ ens ∧ sent r e) ∨ (sr_Status r = Skipped ∧ sr_Tokens r = 0 ∧ sr_Index r ∉ en_SourceIndex <$> ens);
  acc_nodup : NoDup (en_SourceIndex <$> ens) }.

Lemma accounted_from i ens rs e : accounted i ens rs → e ∈ ens → i ≤ en_SourceIndex e.
Proof. intros H He. destruct (acc_sent _ _ _ H e He) as (k & r & Hk & (E & _)). apply (acc_index _ _ _ H) in Hk. lia. Qed.
Lemma accounted_from_r i ens rs r : accounted i ens rs → r ∈ rs → i ≤ sr_Index r.
Proof. intros H [k Hk]%list_elem_of_lookup. apply (acc_index _ _ _ H) in Hk. lia. Qed.
Lemma accounted_not i ens rs j : accounted i ens rs → j < i → j ∉ en_SourceIndex <$> ens.
Proof. intros H Hj (e & -> & He)%list_elem_of_fmap. pose proof (accounted_from _ _ _ _ H He). lia. Qed.

Lemma accounted_skip i ens rs r :
  accounted (i + 1) ens rs → sr_Index r = i → sr_Status r = Skipped → sr_Tokens r = 0 → accounted i ens (r :: rs).
Proof.
  intros H Hi Hs Ht. constructor.
  - intros [|k] x Hx; [injection Hx as <-; lia|]. apply (acc_index _ _ _ H) in Hx. lia.
  - intros e He. destruct (acc_sent _ _ _ H e He) as (k & x & Hk & Hse). by exists (S k), x.
  - intros x [->|Hx]%elem_of_cons; [|by apply (acc_skipped _ _ _ H)]. right. split_and!; [done..|].
    eapply accounted_not; [done|lia].
  - apply H.
Qed.
Lemma accounted_send i ens rs r e :
  accounted (i + 1) ens rs → en_SourceIndex e = i → sent r e → accounted i (e :: ens) (r :: rs).
Proof.
  intros H Hi Hse. pose proof Hse as (Hr & _). constructor.
  - intros [|k] x Hx; [injection Hx as <-; lia|]. apply (acc_index _ _ _ H) in Hx. lia.
  - intros x [->|Hx]%elem_of_cons; [by exists 0%nat, r|]. destruct (acc_sent _ _ _ H x Hx) as (k & y & Hk & ?). by exists (S k), y.
  - intros x [->|Hx]%elem_of_cons; [left; exists e; set_solver|]. pose proof (accounted_from_r _ _ _ _ H Hx).
    destruct (acc_skipped _ _ _ H x Hx) as [(y & ? & ?)|(? & ? & ?)]; [left; exists y; set_solver|right]. split_and!; [done..|].
    rewrite fmap_cons. intros [?|?]%elem_of_cons; [lia|done].
  - rewrite fmap_cons. constructor; [|apply H]. eapply accounted_not; [done|lia].
Qed.

Section assembly.
Context (quote : string → string) (encode : json → string) (count : string → Z) (timeParses : json → bool).

(** What an entry carries of its source. *)
Definition from_source (s : ContextSource) (e : Entry) : Prop :=
  en_Pinned e = src_Pinned s ∧ en_Priority e = EffectivePriority s ∧ en_Tokens e = count (en_Content e) ∧
  (∀ cap, src_MaxTokens s = Some cap → src_Pinned s = false → count "" ≤ cap → en_Tokens e ≤ cap).
Lemma assembled_source i s src :
  match assemble_source quote encode count timeParses i s src with
  | inl _ => True
  | inr (None, r) =>
      EffectiveMissingPolicy s ≠ MissingError ∧ sr_Index r = i ∧ sr_Status r = Skipped ∧ sr_Tokens r = 0
  | inr (Some e, r) => en_SourceIndex e = i ∧ sent r e ∧ from_source s e
  end.
Proof.
  unfold assemble_source. destruct (resolveSource _ _ _ _ _ _ _) as [e|[[content|] ref]]; [done| |].
  2: { case_bool_decide; [done|]. by split_and!. }
  destruct (src_MaxTokens s) as [cap|] eqn:Ecap; [destruct (src_Pinned s) eqn:Epin|].
  - unfold sent, from_source. cbn. rewrite Epin. split_and!; auto; intros; congruence.
  - pose proof (truncate_capped count content cap) as Hc.
    destruct (truncateToTokens count content cap) as [[text removed] cut] eqn:Et. destruct cut.
    + unfold sent, from_source. cbn in *. split_and!; auto; intros; simplify_eq; auto.
    + assert (text = content) as -> by (unfold truncateToTokens in Et; destruct (_ <=? _); congruence).
      unfold sent, from_source. cbn in *. split_and!; auto; intros; simplify_eq; auto.
  - unfold sent, from_source. cbn. split_and!; auto; intros; simplify_eq; auto.
Qed.
Lemma assembled_from i l src ens rs :
  assemble_from quote encode count timeParses i l src = inr (ens, rs) →
  accounted i ens rs ∧ length rs = length l ∧
  ∀ e, e ∈ ens → ∃ k s, l !! k = Some s ∧ en_SourceIndex e = i + Z.of_nat k ∧ from_source s e.
Proof.
  revert i ens rs. induction l as [|s l IH]; intros i ens rs; cbn.
  { intros [= <- <-]. split_and!; [|done|set_solver]. constructor; [intros; set_solver..|constructor]. }
  pose proof (assembled_source i s src) as Hs. destruct (assemble_source _ _ _ _ _ _ _) as [e|[[en|] r]]; [done| |];
    destruct (assemble_from _ _ _ _ (i + 1) l src) as [e|[ens' rs']] eqn:E; try done; intros [= <- <-];
    destruct (IH _ _ _ E) as (Hacc & Hlen & Hfrom).
  - destruct Hs as (Hi & Hse & Hf). split_and!; [by apply accounted_send|cbn; lia|].
    intros x [->|Hx]%elem_of_cons; [exists 0%nat, s; split_and!; [done|lia|done]|].
    destruct (Hfrom x Hx) as (k & s' & ? & ? & ?). exists (S k), s'. split_and!; [done|lia|done].
  - destruct Hs as (_ & ? & ? & ?). split_and!; [by apply accounted_skip|cbn; lia|].
    intros x Hx. destruct (Hfrom x Hx) as (k & s' & ? & ? & ?). exists (S k), s'. split_and!; [done|lia|done].
Qed.
End assembly.

(** ** The reports *)

Section reports.
Context (base : list SourceReport) (Hbase : ∀ k r, base !! k = Some r → sr_Index r = Z.of_nat k).

Lemma report_pos_at idx : 0 ≤ idx < Z.of_nat (length base) → report_pos base idx = Z.to_nat idx.
Proof.
  revert Hbase. induction base as [|r l IH] using rev_ind; intros Hb Hi; [cbn in Hi; lia|].
  unfold report_pos in *. rewrite imap_app, fold_left_app. cbn. rewrite Nat.add_0_r.
  assert (sr_Index r = Z.of_nat (length l)) as Hr by (apply Hb; by rewrite list_lookup_middle).
  rewrite length_app in Hi. cbn in Hi. case_bool_decide; [lia|]. apply IH; [|lia].
  intros k x Hk. apply Hb. by apply lookup_app_l_Some.
Qed.

Abbreviation fold_reports st := (fold_left (note_entry base st)).
Lemma reports_folded st l (reports synthetic : list SourceReport) :
  NoDup (source_ids l) → (∀ i, i ∈ source_ids l → i < Z.of_nat (length base)) →
  let '(R, Syn) := fold_reports st l (reports, synthetic) in
  Syn = synthetic ++ (synthetic_report st <$> List.filter (λ e, en_SourceIndex e <? 0) l) ∧
  (∀ k, Z.of_nat k ∉ source_ids l → R !! k = reports !! k) ∧
  (∀ e, e ∈ l → 0 ≤ en_SourceIndex e →
     R !! Z.to_nat (en_SourceIndex e) = entry_report st e <$> reports !! Z.to_nat (en_SourceIndex e)).
Proof.
  revert reports synthetic. induction l as [|x l IH]; intros reports synthetic Hnd Hlt; cbn [fold_left].
  { cbn. rewrite app_nil_r. split_and!; [done..|set_solver]. }
  unfold source_ids in *. cbn in *. destruct (en_SourceIndex x <? 0) eqn:Ex.
  - assert ((0 <=? en_SourceIndex x) = false) as E0 by lia. rewrite E0 in *.
    specialize (IH reports (synthetic ++ [synthetic_report st x]) Hnd Hlt).
    destruct (fold_reports st l (reports, synthetic ++ [synthetic_report st x])) as [R Syn]. destruct IH as (-> & H1 & H2).
    split_and!; [by rewrite <- app_assoc|done|]. intros e [->|He]%elem_of_cons Hpos; [lia|auto].
  - assert ((0 <=? en_SourceIndex x) = true) as E0 by lia. rewrite E0 in *. apply NoDup_cons in Hnd as [Hni Hnd].
    rewrite report_pos_at by (specialize (Hlt (en_SourceIndex x) ltac:(left)); lia).
    specialize (IH (alter (entry_report st x) (Z.to_nat (en_SourceIndex x)) reports) synthetic Hnd ltac:(set_solver)).
    destruct (fold_reports st l _) as [R Syn]. destruct IH as (-> & H1 & H2). split_and!; [done|..].
    + intros k Hk. apply not_elem_of_cons in Hk as [Hk Hk']. rewrite H1 by done. apply list_lookup_alter_ne. lia.
    + intros e [->|He]%elem_of_cons Hpos; [rewrite H1 by (by rewrite Z2Nat.id); by rewrite list_lookup_alter_eq|].
      rewrite H2 by done. rewrite list_lookup_alter_ne; [done|]. intros Heq. destruct Hni. apply elem_filter. split; [|lia].
      apply list_elem_of_fmap. exists e. split; [lia|done].
Qed.
End reports.

(** A source that is not sent. *)
Definition left_out (r : SourceReport) : Prop :=
  sr_Tokens r = 0 ∧ (sr_Status r = Skipped ∨ sr_Status r = Dropped ∨ sr_Status r = Summarized).
Definition faithful_reports (sent_entries : list Entry) (rs : list SourceReport) : Prop :=
  (∀ e, e ∈ sent_entries → ∃ r, r ∈ rs ∧ sent r e) ∧
  (∀ r, r ∈ rs → (∃ e, e ∈ sent_entries ∧ sent r e) ∨ left_out r).

Lemma elem_live e l d : e ∈ liveEntries l d ↔ e ∈ l ∧ en_SourceIndex e ∉ d.
Proof. unfold liveEntries. rewrite elem_filter. destruct (bool_decide_reflect (en_SourceIndex e ∈ d)); cbn; naive_solver. Qed.
Lemma elem_source_ids i l : i ∈ source_ids l ↔ 0 ≤ i ∧ ∃ e, e ∈ l ∧ en_SourceIndex e = i.
Proof.
  unfold source_ids. rewrite elem_filter, list_elem_of_fmap. split; [intros [(e & -> & ?) ?]|intros [? (e & ? & <-)]].
  - split; [lia|by exists e].
  - split; [by exists e|lia].
Qed.
Lemma accounted_sources ens rs : accounted 0 ens rs → source_ids ens = en_SourceIndex <$> ens.
Proof. intros H. apply filter_all. intros i (e & -> & He)%list_elem_of_fmap. pose proof (accounted_from _ _ _ _ H He). lia. Qed.

Section compacted.
Context (ens : list Entry) (base : list SourceReport) (Hacc : accounted 0 ens base).
Context (pins : list Entry) (st : compactState) (Hk : kept pins (source_ids ens) st).
Abbreviation live := (liveEntries (ws_entries st) (ws_dropped st)).

(** The report of an entry's source, after compaction. *)
Lemma entry_reported e r :
  e ∈ ws_entries st → sr_Index r = en_SourceIndex e → (sr_Status r = Included ∨ sr_Status r = Truncated) →
  if bool_decide (en_SourceIndex e ∈ ws_dropped st) then left_out (entry_report st e r) else sent (entry_report st e r) e.
Proof.
  intros He Hi Hs. unfold entry_report. case_bool_decide as Hd; [destruct (negb _); unfold left_out; cbn; by auto|].
  destruct (ws_summarizedInto st !! en_SourceIndex e) eqn:Ei; [destruct Hd; apply (kept_into _ _ _ Hk); by rewrite Ei|].
  rewrite bool_decide_eq_true_2 by done. cbn. case_bool_decide; unfold sent; cbn; auto.
Qed.
Lemma synthetic_reported e :
  if bool_decide (en_SourceIndex e ∈ ws_dropped st) then left_out (synthetic_report st e) else sent (synthetic_report st e) e.
Proof. unfold synthetic_report. case_bool_decide; [unfold left_out; cbn; auto|]. case_bool_decide; unfold sent; cbn; auto. Qed.

(** The report of a source that has an entry was sent with it. *)
Lemma base_report e :
  e ∈ ws_entries st → 0 ≤ en_SourceIndex e →
  ∃ r, base !! Z.to_nat (en_SourceIndex e) = Some r ∧ sr_Index r = en_SourceIndex e ∧ (sr_Status r = Included ∨ sr_Status r = Truncated).
Proof.
  intros He Hpos. assert (en_SourceIndex e ∈ source_ids ens) as Hin.
  { rewrite <- (kept_srcs _ _ _ Hk). apply elem_source_ids. eauto. }
  apply elem_source_ids in Hin as (_ & x & Hx & Ex). destruct (acc_sent _ _ _ Hacc x Hx) as (k & r & Hr & (Ei & _ & Hst)).
  exists r. pose proof (acc_index _ _ _ Hacc _ _ Hr). replace (Z.to_nat (en_SourceIndex e)) with k by lia. split_and!; [done|lia|done].
Qed.

Lemma compacted_reports : faithful_reports live (compactedReports base st).
Proof.
  unfold compactedReports. pose proof (reports_folded base (acc_index _ _ _ Hacc) st (ws_entries st) base []) as Hf.
  destruct (fold_left _ _ _) as [R Syn]. destruct Hf as (-> & Hsame & Hent).
  { rewrite (kept_srcs _ _ _ Hk), (accounted_sources _ _ Hacc). apply Hacc. }
  { intros i Hi. rewrite (kept_srcs _ _ _ Hk) in Hi. apply elem_source_ids in Hi as (_ & x & Hx & <-).
    destruct (acc_sent _ _ _ Hacc x Hx) as (k & r & Hr & (Ei & _)). pose proof (acc_index _ _ _ Hacc _ _ Hr).
    apply lookup_lt_Some in Hr. lia. }
  cbn [app]. split.
  - intros e [He Hd]%elem_live. destruct (decide (0 ≤ en_SourceIndex e)) as [Hpos|Hneg].
    + destruct (base_report e He Hpos) as (r & Hr & Hi & Hs). exists (entry_report st e r). split.
      * apply elem_of_app. left. apply (list_elem_of_lookup_2 _ (Z.to_nat (en_SourceIndex e))). by rewrite Hent, Hr.
      * pose proof (entry_reported e r He Hi Hs) as H. by rewrite bool_decide_eq_false_2 in H.
    + exists (synthetic_report st e). split.
      * apply elem_of_app. right. apply list_elem_of_fmap. exists e. split; [done|]. apply elem_filter. split; [done|lia].
      * pose proof (synthetic_reported e) as H. by rewrite bool_decide_eq_false_2 in H.
  - intros r [[k Hr]%list_elem_of_lookup|(e & -> & He)%list_elem_of_fmap]%elem_of_app.
    + destruct (decide (Z.of_nat k ∈ source_ids (ws_entries st))) as [Hin|Hout].
      * apply elem_source_ids in Hin as (Hpos & e & He & Ee). rewrite <- Ee in Hpos. destruct (base_report e He Hpos) as (r0 & Hr0 & Hi & Hs).
        assert (r = entry_report st e r0) as ->.
        { specialize (Hent e He Hpos). replace (Z.to_nat (en_SourceIndex e)) with k in * by lia. rewrite Hr, Hr0 in Hent. by injection Hent. }
        pose proof (entry_reported e r0 He Hi Hs) as H. case_bool_decide; [by right|]. left. exists e. split; [by apply elem_live|done].
      * rewrite Hsame in Hr by done. rewrite (kept_srcs _ _ _ Hk) in Hout. right.
        destruct (acc_skipped _ _ _ Hacc r (list_elem_of_lookup_2 _ _ _ Hr)) as [(e & He & (Ei & _))|(? & ? & _)]; [|by split; [|left]].
        destruct Hout. apply elem_source_ids. split; [lia|]. exists e. split; [done|]. pose proof (acc_index _ _ _ Hacc _ _ Hr). lia.
    + apply elem_filter in He as [He _]. pose proof (synthetic_reported e) as H. case_bool_decide; [by right|].
      left. exists e. split; [by apply elem_live|done].
Qed.
End compacted.

(** ** The start of compaction *)

Lemma initial_kept quote encode count timeParses spec id src asm :
  Assemble quote encode count timeParses spec id src = inr asm →
  kept (pinnedEntries (as_Entries asm)) (source_ids (as_Entries asm)) (initial_state asm) ∧
  accounted 0 (as_Entries asm) (as_Sources asm) ∧ as_Preamble asm = Render quote (as_Entries asm).
Proof.
  unfold Assemble. destruct (assemble_from _ _ _ _ 0 _ _) as [e|[ens rs]] eqn:E; [done|]. intros [= <-].
  apply assembled_from in E as (Hacc & _). split_and!; [|done..]. constructor; cbn; [done| | |done| |done].
  - intros e [He _]%elem_filter. split; [set_solver|]. by apply (accounted_from _ _ _ _ Hacc).
  - intros e e' [He Hp]%elem_filter He' Hn Heq. assert (e = e'); [|congruence].
    eapply (keyed_unique en_SourceIndex (λ k x, bool_decide (en_SourceIndex x = k))); [|apply Hacc|done..]. intros. apply bool_decide_eq_true.
  - intros i [x Hx]. by rewrite lookup_empty in Hx.
Qed.
Lemma initial_live asm : liveEntries (ws_entries (initial_state asm)) (ws_dropped (initial_state asm)) = as_Entries asm.
Proof. apply filter_all. intros e _. by rewrite bool_decide_eq_false_2 by set_solver. Qed.
