(* ===== verification/Budget.v ===== *)
(** The engine's cost middleware: the claim-time budget check (engine/budget.go), the
    model downgrade (engine/downgrade.go) and the ledger rows of an attempt
    (engine/cost.go), over the pricing catalog.

    What an executor offers is a parameter: CostEstimator ([estimator]) and
    ModelDowngrader ([downgrader]), [None] where it does not implement the interface.
    The sums the check compares are int64 sums ([wrap64]). *)
From Stdlib Require Import QArith Ascii.
From stdpp Require Import pretty.
From S2P Require Import Prelude GoStd StoreModel Config Transitions Dag Validate Codec MapExpand Pointer Context Pricing.
Open Scope Z_scope.

Definition toolPrefix : string := "tool:".
Definition BudgetLimitRun : string := "run".
Definition BudgetLimitStepUSD : string := "step_usd".
Definition BudgetLimitStepTokens : string := "step_tokens".
Definition BudgetFail : string := "fail".
Definition DowngradeTriggerThreshold : string := "budget_threshold".
Definition DowngradeTriggerProjection : string := "budget_projection".

Record ModelDowngraded : Type := mkModelDowngraded {
  md_FromModel : string; md_ToModel : string; md_FromResource : string; md_ToResource : string; md_Trigger : string;
  md_Limit : string; md_ThresholdFraction : Q; md_SpentNanoUSD : Z; md_BudgetNanoUSD : Z; md_FromEstimateNanoUSD : Z;
  md_ToEstimateNanoUSD : Z }.
Record ModelDowngrader : Type := mkModelDowngrader {
  ModelFallbacks : json → string + (string * list ModelFallback); WithModel : json → string → string + json }.

(** ** Estimates *)

Section estimates.
Context (catalog : Catalog) (policy : UnknownModelPolicy).

(** [None] is UnknownModelError, the only error of PriceModel. *)
Definition estimateNanoUSD (est : CostEstimate) (now : time) : option Z :=
  if HasPrefix (ce_Resource est) toolPrefix then Some (default 0 (ToolPrice catalog (ce_Resource est) now))
  else (λ p, Estimate (ce_InputTokens est) (ce_MaxTokens est) (pd_Rate p)) <$> PriceModel catalog (ce_Resource est) now policy.

(** A step's max_usd cap: what the step has spent, and the cap. *)
Record StepCap : Type := mkStepCap { sc_prior : Z; sc_cap : Z }.

(** ** The decision on the current model *)

Inductive FailReason : Type :=
| UnknownModel (model : string)
| StepOverCap (projected cap : Z)
| RunOverBudget (projected budget : Z)
| StepOverTokens (projected cap : Z)
| CorruptBudget.
Inductive budgetDecision : Type :=
| budgetProceed
| budgetPark (event : BudgetExceededEvent)
| budgetFail (reason : FailReason) (event : BudgetExceededEvent).
Definition exceeded (resource limit : string) (spent estimate projected budget : Z) : BudgetExceededEvent :=
  mkBudgetExceeded "" 0 resource limit "" spent estimate projected budget 0 0.

Definition budgetDecide (est : CostEstimate) (origin : ClaimOrigin) (cap : option StepCap) (now : time) : budgetDecision :=
  match estimateNanoUSD est now with
  | None => budgetFail (UnknownModel (ce_Resource est)) (exceeded (ce_Resource est) BudgetLimitRun 0 0 0 0)
  | Some estimate =>
      let run_check :=
        match BudgetNanoUSD origin with
        | Some budget =>
            if 0 <? estimate then
              let projected := wrap64 (SpentNanoUSD origin + estimate) in
              if budget <? projected then
                let event := exceeded (ce_Resource est) BudgetLimitRun (SpentNanoUSD origin) estimate projected budget in
                if bool_decide (Transitions.OnBudgetExceeded origin = BudgetFail) then budgetFail (RunOverBudget projected budget) event
                else budgetPark event
              else budgetProceed
            else budgetProceed
        | None => budgetProceed
        end in
      match cap with
      | Some c =>
          let projected := wrap64 (sc_prior c + estimate) in
          if sc_cap c <? projected
          then budgetFail (StepOverCap projected (sc_cap c))
                 (exceeded (ce_Resource est) BudgetLimitStepUSD (sc_prior c) estimate projected (sc_cap c))
          else run_check
      | None => run_check
      end
  end.

(** ** Downgrades *)

Record downgradeCandidate : Type := mkCandidate {
  dc_model : string; dc_resource : string; dc_nano : Z; dc_priceable : bool; dc_fits : bool; dc_thresholdMet : bool }.
Definition usable (c : downgradeCandidate) : bool := dc_priceable c && dc_fits c.

(** The index of the last, of the first element that satisfies [p]. *)
Fixpoint first_index {A} (p : A → bool) (l : list A) : option nat :=
  match l with [] => None | x :: l' => if p x then Some 0%nat else S <$> first_index p l' end.
Fixpoint last_index {A} (p : A → bool) (l : list A) : option nat :=
  match l with
  | [] => None
  | x :: l' => match last_index p l' with Some i => Some (S i) | None => if p x then Some 0%nat else None end
  end.
Definition chooseDowngrade (cands : list downgradeCandidate) (primaryFits : bool) : option (nat * string) :=
  let deepestMet := last_index dc_thresholdMet cands in
  match deepestMet ≫= λ j, cands !! j with
  | Some c => if usable c then (λ j, (j, DowngradeTriggerThreshold)) <$> deepestMet
              else (λ j, (j, DowngradeTriggerThreshold)) <$> first_index usable cands
  | None => if primaryFits then None else (λ j, (j, DowngradeTriggerProjection)) <$> first_index usable cands
  end.

(** A spend of [nano] fits every budget. *)
Definition fits_budgets (origin : ClaimOrigin) (cap : option StepCap) (nano : Z) : bool :=
  match BudgetNanoUSD origin with Some b => wrap64 (SpentNanoUSD origin + nano) <=? b | None => true end &&
  match cap with Some c => wrap64 (sc_prior c + nano) <=? sc_cap c | None => true end.
(** The fraction of the budget that is spent, as a float64. *)
Definition spent_fraction (origin : ClaimOrigin) : option Q :=
  match BudgetNanoUSD origin with
  | Some b => if 0 <? b then Some (fl64 (fl64 (inject_Z (SpentNanoUSD origin)) / fl64 (inject_Z b))) else None
  | None => None
  end.
Definition candidate (dg : ModelDowngrader) (estimator : json → string + CostEstimate) (config : json) (origin : ClaimOrigin)
    (cap : option StepCap) (now : time) (f : ModelFallback) : downgradeCandidate :=
  let met := match spent_fraction origin, mf_AtBudgetFraction f with Some frac, Some at_ => Qle_bool at_ frac | _, _ => false end in
  let unpriceable := mkCandidate (mf_Model f) "" 0 false false met in
  match WithModel dg config (mf_Model f) with
  | inl _ => unpriceable
  | inr raw =>
      match estimator raw with
      | inl _ => unpriceable
      | inr est =>
          if bool_decide (ce_Resource est = "") then unpriceable
          else match estimateNanoUSD est now with
               | None => unpriceable
               | Some nano => mkCandidate (mf_Model f) (ce_Resource est) nano true (fits_budgets origin cap nano) met
               end
      end
  end.

Definition selectDowngrade (dg : ModelDowngrader) (estimator : json → string + CostEstimate) (config : json)
    (origin : ClaimOrigin) (primaryEst : CostEstimate) (cap : option StepCap) (now : time) : option (json * ModelDowngraded) :=
  match ModelFallbacks dg config with
  | inl _ | inr (_, []) => None
  | inr (current, chain) =>
      match estimateNanoUSD primaryEst now with
      | None => None
      | Some primaryNano =>
          let cands := candidate dg estimator config origin cap now <$> chain in
          match chooseDowngrade cands (fits_budgets origin cap primaryNano) with
          | None => None
          | Some (idx, trigger) =>
              match cands !! idx with
              | None => None                       (** not reached: an index of the chain *)
              | Some target =>
                  match WithModel dg config (dc_model target) with
                  | inl _ => None
                  | inr raw =>
                      let threshold := if bool_decide (trigger = DowngradeTriggerThreshold)
                                       then default 0%Q (chain !! idx ≫= mf_AtBudgetFraction) else 0%Q in
                      let limit := if bool_decide (trigger = DowngradeTriggerProjection)
                                   then match BudgetNanoUSD origin with Some _ => BudgetLimitRun | None => BudgetLimitStepUSD end
                                   else "" in
                      Some (raw, mkModelDowngraded current (dc_model target) (ce_Resource primaryEst) (dc_resource target) trigger
                                   limit threshold (SpentNanoUSD origin) (default 0 (BudgetNanoUSD origin)) primaryNano (dc_nano target))
                  end
              end
          end
      end
  end.
End estimates.

(** ** budgetCheck *)

(** decodeStepBudget: [None] is a policy that does not decode. *)
Definition decodeStepBudget (raw : option json) : option (option StepBudget) :=
  match raw with
  | None => Some None
  | Some v => if unmarshals T_Budget v then Some (Some (read_Budget v)) else None
  end.
(** SumCostLedgerByStep. *)
Definition SumByStep (d : DB) (runID : uuid) (stepID : string) : Z :=
  foldr (λ r n, cl_CostNanoUsd r + n) 0
    (List.filter (λ r, bool_decide (cl_RunID r = runID) && bool_decide (cl_StepID r = stepID)) (cost_ledger d)).

(** What the check decides: to run the step as it is, to run it with another config
    (once its event is recorded), to park the run, to fail the step permanently. *)
Inductive BudgetOutcome : Type :=
| RunStepAsIs
| RunDowngraded (config : json) (event : ModelDowngraded)
| ParkRun_ (event : BudgetExceededEvent)
| FailStep (reason : FailReason).

Definition over_tokens (b : option StepBudget) (est : CostEstimate) : option FailReason :=
  match b with
  | Some b =>
      let projected := wrap64 (ce_InputTokens est + ce_MaxTokens est) in
      if (0 <? sb_MaxTokens b) && (sb_MaxTokens b <? projected) then Some (StepOverTokens projected (sb_MaxTokens b)) else None
  | None => None
  end.
Definition step_cap (d : DB) (runID : uuid) (stepID : string) (b : option StepBudget) : option StepCap :=
  b ≫= λ b, (λ usd, mkStepCap (SumByStep d runID stepID) (USDToNano usd)) <$> sb_MaxUSD b.

Definition budgetCheck (pricing : option Catalog) (policy : UnknownModelPolicy)
    (estimator : option (json → string + CostEstimate)) (downgrader : option ModelDowngrader)
    (d : DB) (runID : uuid) (stepID : string) (budgetPolicy : option json) (config : json) (origin : ClaimOrigin) (now : time)
    : BudgetOutcome :=
  match pricing, estimator with
  | Some catalog, Some estimate =>
      match decodeStepBudget budgetPolicy with
      | None => FailStep CorruptBudget
      | Some stepBudget =>
          if bool_decide (BudgetNanoUSD origin = None) && negb (bool_decide (is_Some stepBudget)) then RunStepAsIs
          else match estimate config with
               | inl _ => RunStepAsIs
               | inr est =>
                   if bool_decide (ce_Resource est = "") then RunStepAsIs
                   else match over_tokens stepBudget est with
                        | Some reason => FailStep reason
                        | None =>
                            let cap := step_cap d runID stepID stepBudget in
                            match downgrader ≫= λ dg, selectDowngrade catalog policy dg estimate config origin est cap now with
                            | Some (raw, event) => RunDowngraded raw event
                            | None =>
                                match budgetDecide catalog policy est origin cap now with
                                | budgetProceed => RunStepAsIs
                                | budgetPark event => ParkRun_ event
                                | budgetFail reason _ => FailStep reason
                                end
                            end
                        end
               end
      end
  | _, _ => RunStepAsIs
  end.

(** ** Ledger rows (cost.go) *)

Record Usage : Type := mkUsage { us_InputTokens : Z; us_OutputTokens : Z; us_CacheHit : bool }.
Definition marshalRate (r : Rate) : json :=
  JObj [("input_per_mtok", JFloat (InputPerMTok r)); ("output_per_mtok", JFloat (OutputPerMTok r))].
Definition marshalUsage (u : Usage) : json :=
  JObj ([("input_tokens", JNum (us_InputTokens u)); ("output_tokens", JNum (us_OutputTokens u))] ++
        (if us_CacheHit u then [("cache_hit", JBool true)] else [])).
(** The warning of a fallback price. *)
Definition unknown_model_warning (p : Priced) (resource : string) : option (string * json) :=
  if pd_Fallback p then Some (resource, marshalRate (pd_Rate p)) else None.

(** One model call's row, productive or overhead: a cache hit records what it saved. *)
Definition model_row (catalog : Catalog) (runID : uuid) (stepID : string) (attempt : Z) (entry resource : string) (u : Usage)
    (overhead : bool) (now : time) : option AttemptCostArgs :=
  (λ p, let amount := Cost (us_InputTokens u) (us_OutputTokens u) (pd_Rate p) in
        mkAttemptCostArgs runID stepID attempt entry resource (Some (marshalUsage u)) (Some (marshalRate (pd_Rate p)))
          (Source_String (pd_Source p)) (us_CacheHit u) overhead (if us_CacheHit u then 0 else amount)
          (if us_CacheHit u then amount else 0) (if us_CacheHit u then None else unknown_model_warning p resource) now)
  <$> PriceModel catalog resource now PolicyEstimate.

Definition priceAttempt (pricing : option Catalog) (runID : uuid) (stepID : string) (attempt : Z) (resource : string)
    (usage : option Usage) (now : time) : option AttemptCostArgs :=
  match pricing with
  | None => None
  | Some catalog =>
      if bool_decide (resource = "") then None
      else if HasPrefix resource toolPrefix then
        let cacheHit := match usage with Some u => us_CacheHit u | None => false end in
        (λ nano, mkAttemptCostArgs runID stepID attempt "" resource None (Some (JObj [("per_call_nano_usd", JNum nano)]))
                   (Source_String SourceExact) cacheHit false (if cacheHit then 0 else nano) (if cacheHit then nano else 0) None now)
        <$> ToolPrice catalog resource now
      else usage ≫= λ u, model_row catalog runID stepID attempt "" resource u false now
  end.

(** [results] is the usage each validator of the chain reported: resource, input and
    output tokens. *)
Definition JudgeEntry (i : nat) : string := "judge:" +:+ pretty (Z.of_nat i).
Definition CompactionEntry (i : nat) : string := "compaction:" +:+ pretty (Z.of_nat i).
Definition priceOverhead (catalog : Catalog) (runID : uuid) (stepID : string) (attempt : Z) (entry : string)
    (u : string * Z * Z) (now : time) : option AttemptCostArgs :=
  let '(resource, input, output) := u in
  model_row catalog runID stepID attempt entry resource (mkUsage input output false) true now.
Definition priceOverheads (pricing : option Catalog) (runID : uuid) (stepID : string) (attempt : Z)
    (results : list (option (string * Z * Z))) (now : time) : list AttemptCostArgs :=
  match pricing with
  | None => []
  | Some catalog =>
      omap (λ '(i, r), match r with
                       | Some u => if bool_decide (u.1.1 = "") then None
                                   else priceOverhead catalog runID stepID attempt (JudgeEntry i) u now
                       | None => None
                       end) (imap pair results)
  end.
Definition priceSummaryOverheads (pricing : option Catalog) (runID : uuid) (stepID : string) (attempt : Z)
    (summaries : list SummaryAction) (now : time) : list AttemptCostArgs :=
  match pricing with
  | None => []
  | Some catalog =>
      omap (λ '(i, s), if bool_decide (sa_Resource s = "") then None
                       else model_row catalog runID stepID attempt (CompactionEntry i) (sa_Resource s)
                              (mkUsage (sa_InputTokens s) (sa_OutputTokens s) (sa_CacheHit s)) true now) (imap pair summaries)
  end.
