(* ===== verification/ReadyFacts.v ===== *)
(** Correctness of the readiness computation of internal/dag/ready.go: the
    input fold, the one-pass skip propagation and the two result lists. *)
From S2P Require Import Prelude StoreModel Config Dag GraphFacts.
Open Scope nat_scope.

(** The state an id has in the three input sets. *)
Definition input_state (c s f : gset string) (id : string) : stepState :=
  if decide (id ∈ c) then stateCompleted
  else if decide (id ∈ s) then stateSkipped
  else if decide (id ∈ f) then stateFailed else statePending.

(** Every id is a step, and no id is in two sets. *)
Definition valid_inputs (d : Definition_) (c s f : gset string) : Prop :=
  (∀ id, id ∈ c ∪ s ∪ f → id ∈ ID <$> Steps d) ∧ c ## s ∧ c ## f ∧ s ## f.

(** The steps that are skipped once skips propagate: given as skipped, or
    pending with at least one normal incoming edge and all of their sources
    skipped. *)
Inductive skips (d : Definition_) (c s f : gset string) : string → Prop :=
| skips_given id : id ∈ s → skips d c s f id
| skips_all id ed :
    id ∈ ID <$> Steps d → input_state c s f id = statePending →
    ed ∈ Edges d → IsLoop ed = false → To ed = id →
    (∀ ed', ed' ∈ Edges d → IsLoop ed' = false → To ed' = id → skips d c s f (From ed')) →
    skips d c s f id.

(** When a step may start, given the propagated skips. *)
Definition startable (d : Definition_) (c s f : gset string) (st : Step) : Prop :=
  input_state c s f (ID st) = statePending ∧ ¬ skips d c s f (ID st) ∧
  let incoming ed := ed ∈ Edges d ∧ IsLoop ed = false ∧ To ed = ID st in
  ((∀ ed, ¬ incoming ed) ∨
   (∃ ed, incoming ed ∧ From ed ∈ c) ∧
   (joinMode st = JoinAny ∨ ∀ ed, incoming ed → From ed ∈ c ∨ skips d c s f (From ed))).

Lemma StronglySorted_filter_seq (q : nat → bool) a m : StronglySorted le (List.filter q (seq a m)).
Proof.
  revert a. induction m as [|m IH]; intros a; cbn; [constructor|]. destruct (q a); [|apply IH].
  constructor; [apply IH|]. apply Forall_forall. intros x.
  rewrite list_elem_of_In, filter_In, in_seq. lia.
Qed.

Section ready.
Context (d : Definition_) (g : Graph) (G : graph_of d g).
Abbreviation n := (length (Steps d)).

Lemma index_inj a b k : index g !! a = Some k → index g !! b = Some k → a = b.
Proof. rewrite !(go_index _ _ G). intros (st & H1 & <-) (st' & H2 & <-). congruence. Qed.
Lemma index_lt a k : index g !! a = Some k → k < n.
Proof. rewrite (go_index _ _ G). intros (st & H1 & _). by eapply lookup_lt_Some. Qed.
Lemma index_known a : is_Some (index g !! a) ↔ a ∈ ID <$> Steps d.
Proof.
split.
- intros [k (st & Hk & <-)%(go_index _ _ G)]. apply list_elem_of_fmap_2. by eapply list_elem_of_lookup_2.
- intros (k & _ & Hk & _)%(index_of d g G). eauto.
Qed.

(** ** inputStates *)

(** Every id is known and still pending. *)
Definition assignable (ids : list string) (i : Inputs) : Prop :=
∀ id, id ∈ ids → ∃ k, index g !! id = Some k ∧ states i !! k = Some statePending.

Lemma assign_grows ids st : ∀ i, unknown (assign g ids st i) = [] ∧ overlap (assign g ids st i) = [] →
unknown i = [] ∧ overlap i = [].
Proof.
induction ids as [|id ids IH]; intros i; cbn; [done|]. intros E. apply IH in E as [E1 E2].
destruct (index g !! id) as [k|]; cbn in *; [|by destruct (unknown i)].
destruct (bool_decide _); cbn in *; [done|]. by destruct (overlap i).
Qed.

Lemma assign_needs ids st : st ≠ statePending → ∀ i, length (states i) = n →
unknown (assign g ids st i) = [] ∧ overlap (assign g ids st i) = [] → assignable ids i.
Proof.
intros Hst. induction ids as [|id ids IH]; intros i Hlen; cbn; [by intros _ ? ?%not_elem_of_nil|].
intros E. pose proof (assign_grows _ _ _ E) as [E1 E2].
destruct (index g !! id) as [k|] eqn:Hk; cbn in *; [|by destruct (unknown i)].
destruct (bool_decide _) eqn:Hp; cbn in *; [|by destruct (overlap i)].
apply bool_decide_eq_true in Hp. apply IH in E; [|cbn; by rewrite length_insert].
intros x [->|Hx]%elem_of_cons; [by exists k|]. destruct (E x Hx) as (k' & Hk' & Hp').
exists k'. split; [done|]. cbn in Hp'. destruct (decide (k = k')) as [->|]; [|by rewrite list_lookup_insert_ne in Hp'].
rewrite list_lookup_insert_eq in Hp' by (rewrite Hlen; by eapply index_lt). congruence.
Qed.

Lemma assign_spec ids st : ∀ i, length (states i) = n → NoDup ids → assignable ids i →
let i' := assign g ids st i in
length (states i') = n ∧ unknown i' = unknown i ∧ overlap i' = overlap i ∧
∀ id k, index g !! id = Some k → states i' !! k = if decide (id ∈ ids) then Some st else states i !! k.
Proof.
induction ids as [|id ids IH]; intros i Hlen Hnd Ha; cbn.
- split_and!; try done.
- apply NoDup_cons in Hnd as [Hni Hnd]. destruct (Ha id) as (k & Hk & Hp); [set_solver|].
  rewrite Hk, bool_decide_eq_true_2 by done. pose proof (index_lt _ _ Hk) as Hlt.
  destruct (IH (mkInputs (<[k:=st]> (states i)) (unknown i) (overlap i))) as (L & U & O & S);
    cbn; [by rewrite length_insert|done| |].
  + intros x Hx. destruct (Ha x) as (k' & Hk' & Hp'); [set_solver|]. exists k'. split; [done|]. cbn.
    rewrite list_lookup_insert_ne; [done|]. intros ->. apply Hni. by rewrite (index_inj id x k').
  + split_and!; [done..|]. intros x k' Hk'. rewrite (S x k' Hk'). cbn.
    destruct (decide (x ∈ ids)) as [Hx|Hx], (decide (x ∈ id :: ids)) as [Hx'|Hx']; try done; [set_solver| |].
    * apply elem_of_cons in Hx' as [->|]; [|done]. assert (k' = k) as -> by congruence.
      apply list_lookup_insert_eq. by rewrite Hlen.
    * rewrite list_lookup_insert_ne; [done|]. intros ->. apply Hx'. rewrite (index_inj x id k') by done. set_solver.
Qed.

Definition blank : Inputs := mkInputs (replicate n statePending) [] [].

Lemma blank_lookup id k : index g !! id = Some k → states blank !! k = Some statePending.
Proof. intros Hk. apply lookup_replicate_2. by eapply index_lt. Qed.

(** What the fold has recorded after the sets [a] (completed), [b] (skipped). *)
Lemma assign_set (X : gset string) st i :
length (states i) = n → (∀ id, id ∈ X → id ∈ ID <$> Steps d) →
(∀ id k, id ∈ X → index g !! id = Some k → states i !! k = Some statePending) →
let i' := assign g (elements X) st i in
length (states i') = n ∧ unknown i' = unknown i ∧ overlap i' = overlap i ∧
∀ id k, index g !! id = Some k → states i' !! k = if decide (id ∈ X) then Some st else states i !! k.
Proof.
intros Hlen Hk Hp.
destruct (assign_spec (elements X) st i) as (L & U & O & S); [done|apply NoDup_elements| |].
- intros id Hid%elem_of_elements. destruct (proj2 (index_known id) (Hk id Hid)) as [k Hik]. eauto.
- split_and!; [done..|]. intros id k Hik. rewrite (S id k Hik).
  destruct (decide (id ∈ elements X)) as [H1|H1], (decide (id ∈ X)) as [H2|H2]; try done;
    by rewrite elem_of_elements in H1.
Qed.

Lemma inputStates_ok c s f : valid_inputs d c s f →
∃ st, inputStates g c s f = inr st ∧ length st = n ∧
  ∀ id k, index g !! id = Some k → st !! k = Some (input_state c s f id).
Proof.
intros (Hk & Hcs & Hcf & Hsf). unfold inputStates. rewrite (go_def _ _ G). fold blank.
destruct (assign_set c stateCompleted blank) as (L1 & U1 & O1 & S1);
  [apply length_replicate|set_solver|intros; by eapply blank_lookup|].
destruct (assign_set s stateSkipped (assign g (elements c) stateCompleted blank)) as (L2 & U2 & O2 & S2);
  [done|set_solver| |].
{ intros id k Hid Hik. rewrite (S1 id k Hik), decide_False by set_solver. by eapply blank_lookup. }
edestruct (assign_set f stateFailed) as (L3 & U3 & O3 & S3); [exact L2|set_solver| |].
{ intros id k Hid Hik. rewrite (S2 id k Hik), (S1 id k Hik), !decide_False by set_solver.
  by eapply blank_lookup. }
rewrite U3, U2, U1, O3, O2, O1. cbn. eexists. split; [done|]. split; [done|].
intros id k Hik. rewrite (S3 id k Hik), (S2 id k Hik), (S1 id k Hik), (blank_lookup id k Hik).
unfold input_state. repeat case_decide; try done; set_solver.
Qed.

Lemma assign_len ids st : ∀ i, length (states i) = n → length (states (assign g ids st i)) = n.
Proof.
induction ids as [|id ids IH]; intros i Hi; [done|]. cbn. apply IH.
destruct (index g !! id); [|done]. destruct (bool_decide _); [|done]. cbn. by rewrite length_insert.
Qed.

Lemma inputStates_valid c s f st : inputStates g c s f = inr st → valid_inputs d c s f.
Proof.
unfold inputStates. rewrite (go_def _ _ G). fold blank. cbv zeta.
set (i1 := assign g (elements c) stateCompleted blank).
set (i2 := assign g (elements s) stateSkipped i1). set (i3 := assign g (elements f) stateFailed i2).
destruct (unknown i3) eqn:U; [|done]. destruct (overlap i3) eqn:O; [|done]. intros _.
assert (length (states blank) = n) as L0 by apply length_replicate.
pose proof (assign_len (elements c) stateCompleted _ L0) as L1. fold i1 in L1.
pose proof (assign_len (elements s) stateSkipped _ L1) as L2. fold i2 in L2.
pose proof (assign_grows _ _ _ (conj U O)) as E2. pose proof (assign_grows _ _ _ E2) as E1.
pose proof (assign_needs _ stateFailed ltac:(done) _ L2 (conj U O)) as A3.
pose proof (assign_needs _ stateSkipped ltac:(done) _ L1 E2) as A2.
pose proof (assign_needs _ stateCompleted ltac:(done) _ L0 E1) as A1.
destruct (assign_spec (elements c) stateCompleted blank L0 (NoDup_elements c) A1) as (_ & _ & _ & S1).
destruct (assign_spec (elements s) stateSkipped i1 L1 (NoDup_elements s) A2) as (_ & _ & _ & S2).
assert (∀ ids i id, assignable ids i → id ∈ ids → id ∈ ID <$> Steps d) as Hkn.
{ intros ids i id Ha Hid. destruct (Ha id Hid) as (k & Hk & _). apply index_known. eauto. }
assert (∀ id, id ∈ s → id ∉ c) as D1.
{ intros id Hs Hc. destruct (A2 id) as (k & Hk & Hp); [by apply elem_of_elements|].
  change (assign g (elements c) stateCompleted blank) with i1 in S1.
  rewrite (S1 id k Hk), decide_True in Hp by (by apply elem_of_elements). done. }
assert (∀ id, id ∈ f → id ∉ c ∧ id ∉ s) as D2.
{ intros id Hf. destruct (A3 id) as (k & Hk & Hp); [by apply elem_of_elements|].
  change (assign g (elements s) stateSkipped i1) with i2 in S2.
  change (assign g (elements c) stateCompleted blank) with i1 in S1.
  rewrite (S2 id k Hk), (S1 id k Hk) in Hp. repeat case_decide; try done.
  split; intros ?; by rewrite elem_of_elements in *. }
split.
- intros id [[Hi|Hi]%elem_of_union|Hi]%elem_of_union; apply elem_of_elements in Hi; eauto.
- set_solver.
Qed.

(** ** Skip propagation *)

(** The index form of [skips], over the initial states [st0]. *)
Inductive sk (st0 : list stepState) : nat → Prop :=
| sk_given v : st0 !! v = Some stateSkipped → sk st0 v
| sk_all v : st0 !! v = Some statePending → v < n → in_of g v ≠ [] →
  (∀ e, e ∈ in_of g v → sk st0 (fromIdx g e)) → sk st0 v.

(** The pass after a prefix [l1] of the order. *)
Record pinv (st0 : list stepState) (l1 : list nat) (st : list stepState) (newly : list nat) : Prop := mkPinv {
pv_len : length st = length st0;
pv_done : ∀ v, v ∈ l1 → st !! v = Some stateSkipped ↔ sk st0 v;
pv_keep : ∀ v, v ∉ newly → st !! v = st0 !! v;
pv_new : ∀ v, v ∈ newly ↔ v ∈ l1 ∧ st0 !! v = Some statePending ∧ sk st0 v;
pv_nodup : NoDup newly
}.

Lemma sk_pending st0 v : sk st0 v → st0 !! v = Some statePending →
in_of g v ≠ [] ∧ ∀ e, e ∈ in_of g v → sk st0 (fromIdx g e).
Proof. intros [w Hw|w Hw ? ? ?] Hp; [congruence|done]. Qed.

(** The test of one iteration decides [sk] when the sources are final. *)
Lemma skip_test st0 st newly l1 v :
length st0 = n → pinv st0 l1 st newly → v < n → v ∉ l1 →
(∀ e, e ∈ in_of g v → fromIdx g e ∈ l1) →
bool_decide (st !! v = Some statePending) && negb (bool_decide (in_of g v = [])) &&
  forallb (λ e, bool_decide (resolve g st e = edgeSkipped)) (in_of g v) = true
↔ st0 !! v = Some statePending ∧ sk st0 v.
Proof.
intros Hlen PI Hv Hl1 Hsrc.
assert (v ∉ newly) as Hnew by (rewrite (pv_new _ _ _ _ PI); naive_solver).
rewrite !andb_true_iff, negb_true_iff, bool_decide_eq_true, bool_decide_eq_false, forallb_forall.
rewrite (pv_keep _ _ _ _ PI v Hnew).
assert (∀ e, e ∈ in_of g v → bool_decide (resolve g st e = edgeSkipped) = true ↔ sk st0 (fromIdx g e)) as Hr.
{ intros e He. rewrite bool_decide_eq_true, <-(pv_done _ _ _ _ PI) by auto. unfold resolve.
  destruct (st !! fromIdx g e) as [[]|]; naive_solver. }
split.
- intros [[Hp Hne] Hall]. split; [done|]. apply sk_all; [done..|]. intros e He.
  apply Hr; [done|]. by apply Hall, list_elem_of_In.
- intros [Hp [Hne Hall]%sk_pending]; [|done]. split; [done|]. intros e He%list_elem_of_In.
  apply Hr; auto.
Qed.

Lemma propagate_spec st0 ord : length st0 = n → ∀ l2 l1 st newly,
ord = l1 ++ l2 → NoDup ord → (∀ v, v ∈ ord → v < n) →
(∀ l1' v l2', ord = l1' ++ v :: l2' → ∀ e, e ∈ in_of g v → fromIdx g e ∈ l1') →
pinv st0 l1 st newly →
pinv st0 ord (propagate g l2 st newly).1 (propagate g l2 st newly).2.
Proof.
intros Hlen. induction l2 as [|v l2 IH]; intros l1 st newly E Hnd Hrg Hs PI.
- cbn. by rewrite E, app_nil_r.
- assert (v < n) as Hv by (apply Hrg; rewrite E; set_solver).
  assert (v ∉ l1) as Hl1 by (rewrite E in Hnd; apply NoDup_app in Hnd as (_ & Hd & _); set_solver).
  pose proof (skip_test st0 st newly l1 v Hlen PI Hv Hl1 (Hs _ _ _ E)) as Ht.
  assert (v ∉ newly) as Hnew by (rewrite (pv_new _ _ _ _ PI); naive_solver).
  assert (ord = (l1 ++ [v]) ++ l2) as E' by (by rewrite <-app_assoc).
  cbn [propagate]. destruct (_ && _ && _).
  + destruct (proj1 Ht eq_refl) as [Hp Hsk].
    apply (IH (l1 ++ [v])); try done. split.
    * rewrite length_insert. apply PI.
    * intros w. rewrite elem_of_app, list_elem_of_singleton. destruct (decide (v = w)) as [->|Hne].
      -- intros _. rewrite list_lookup_insert_eq by (rewrite (pv_len _ _ _ _ PI), Hlen; done). done.
      -- rewrite list_lookup_insert_ne by done. intros [Hw| ->]; [by apply PI|done].
    * intros w Hw. rewrite list_lookup_insert_ne by set_solver. apply PI. set_solver.
    * intros w. rewrite !elem_of_app, !list_elem_of_singleton, (pv_new _ _ _ _ PI). naive_solver.
    * apply NoDup_app. split_and!; [apply PI|set_solver|apply NoDup_singleton].
  + apply (IH (l1 ++ [v])); try done. split; try apply PI.
    * intros w. rewrite elem_of_app, list_elem_of_singleton. intros [Hw| ->]; [by apply PI|].
      rewrite (pv_keep _ _ _ _ PI v Hnew). split; [by apply sk_given|].
      intros Hsk. destruct Hsk as [w Hw|w Hw Hn Hne Hall]; [done|].
      assert (false = true); [|done]. apply Ht. split; [done|]. by apply sk_all.
    * intros w. rewrite elem_of_app, list_elem_of_singleton, (pv_new _ _ _ _ PI).
      assert (¬ (st0 !! v = Some statePending ∧ sk st0 v)) by (intros ?; assert (false = true) by naive_solver; done).
      naive_solver.
Qed.

(** ** Transfer to step ids *)
Section states.
Context (c s f : gset string) (st0 : list stepState).
Context (Hval : valid_inputs d c s f) (Hlen : length st0 = n).
Context (Hst0 : ∀ id k, index g !! id = Some k → st0 !! k = Some (input_state c s f id)).

Lemma state_at v st : Steps d !! v = Some st → st0 !! v = Some (input_state c s f (ID st)).
Proof. intros Hv. apply Hst0, (go_index _ _ G). eauto. Qed.

Lemma input_skipped id : input_state c s f id = stateSkipped ↔ id ∈ s.
Proof. destruct Hval as (_ & Hcs & _). unfold input_state. repeat case_decide; set_solver. Qed.

(** The normal edges into a step, by index and by id. *)
Lemma incoming v st e : Steps d !! v = Some st →
e ∈ in_of g v ↔ ∃ ed, Edges d !! e = Some ed ∧ IsLoop ed = false ∧ To ed = ID st.
Proof.
intros Hv. rewrite (elem_of_in d g G) by (by eapply lookup_lt_Some). unfold normal. split.
- intros [(ed & He & Hl) <-]. exists ed. split_and!; [done..|].
destruct (toIdx_spec d g G e ed He) as (st' & Hst' & <-). congruence.
- intros (ed & He & Hl & Ht). split; [by exists ed|].
destruct (toIdx_spec d g G e ed He) as (st' & Hst' & E').
eapply (step_unique d g G); [done..|congruence].
Qed.

Lemma sk_skips v : sk st0 v → ∀ st, Steps d !! v = Some st → skips d c s f (ID st).
Proof.
induction 1 as [v Hv|v Hp Hn Hne Hall IH]; intros st Hst.
- apply skips_given, input_skipped. rewrite (state_at v st Hst) in Hv. congruence.
- destruct (in_of g v) as [|e l] eqn:E; [done|].
assert (e ∈ in_of g v) as He by (rewrite E; set_solver).
apply (incoming v st e Hst) in He as (ed & He & Hl & Ht).
apply (skips_all _ _ _ _ _ ed); try done.
+ apply list_elem_of_fmap_2. by eapply list_elem_of_lookup_2.
+ rewrite (state_at v st Hst) in Hp. congruence.
+ by eapply list_elem_of_lookup_2.
+ intros ed' [e' He']%list_elem_of_lookup Hl' Ht'.
  destruct (fromIdx_spec d g G e' ed' He') as (st' & Hst' & <-).
  eapply IH; [|done]. rewrite <-E. apply (incoming v st e' Hst). eauto.
Qed.

Lemma skips_sk id : skips d c s f id → ∀ v st, Steps d !! v = Some st → ID st = id → sk st0 v.
Proof.
induction 1 as [id Hs|id ed Hid Hp Hed Hl Ht Hall IH]; intros v st Hst E.
- apply sk_given. rewrite (state_at v st Hst), E. f_equal. by apply input_skipped.
- apply list_elem_of_lookup in Hed as [e He].
assert (e ∈ in_of g v) as Hin by (apply (incoming v st e Hst); exists ed; split_and!; congruence).
apply sk_all.
+ rewrite (state_at v st Hst). congruence.
+ by eapply lookup_lt_Some.
+ intros Hnil. rewrite Hnil in Hin. by apply not_elem_of_nil in Hin.
+ intros e' (ed' & He' & Hl' & Ht')%(incoming v st e' Hst).
  destruct (fromIdx_spec d g G e' ed' He') as (st' & Hst' & Ef).
  eapply (IH ed'); [by eapply list_elem_of_lookup_2|done|congruence|done|done].
Qed.

Lemma sk_iff v st : Steps d !! v = Some st → sk st0 v ↔ skips d c s f (ID st).
Proof. intros Hv. split; [intros Hs; by eapply sk_skips|intros Hs; by eapply skips_sk]. Qed.

Section final.
Context (ord : list nat) (st : list stepState) (newly : list nat).
Context (Hord : ord ≡ₚ seq 0 n) (PI : pinv st0 ord st newly).

Lemma in_order v x : Steps d !! v = Some x → v ∈ ord.
Proof. intros ?%lookup_lt_Some. rewrite Hord, elem_of_seq. lia. Qed.

Lemma final_skipped v x : Steps d !! v = Some x → st !! v = Some stateSkipped ↔ skips d c s f (ID x).
Proof. intros Hv. rewrite (pv_done _ _ _ _ PI) by (by eapply in_order). by apply sk_iff. Qed.

Lemma final_newly v x : Steps d !! v = Some x →
v ∈ newly ↔ input_state c s f (ID x) = statePending ∧ skips d c s f (ID x).
Proof.
intros Hv. rewrite (pv_new _ _ _ _ PI), (state_at v x Hv), (sk_iff v x) by done.
pose proof (in_order v x Hv). rewrite (inj_iff Some). tauto.
Qed.

Lemma final_other v x : Steps d !! v = Some x → ¬ skips d c s f (ID x) →
st !! v = Some (input_state c s f (ID x)).
Proof.
intros Hv Hs. rewrite (pv_keep _ _ _ _ PI); [by apply state_at|].
rewrite (final_newly v x Hv). naive_solver.
Qed.

Lemma final_newly_skipped v : v ∈ newly → st !! v = Some stateSkipped.
Proof. intros Hv. apply (pv_new _ _ _ _ PI) in Hv as (Ho & _ & Hs). by apply (pv_done _ _ _ _ PI). Qed.

Lemma final_pending v x : Steps d !! v = Some x →
st !! v = Some statePending ↔ input_state c s f (ID x) = statePending ∧ ¬ skips d c s f (ID x).
Proof.
intros Hv. split.
- intros Hp. assert (¬ skips d c s f (ID x)) as Hs by (intros E%(final_skipped v x Hv); congruence).
split; [|done]. rewrite (final_other v x Hv Hs) in Hp. congruence.
- intros [Hp Hs]. rewrite (final_other v x Hv Hs). congruence.
Qed.

Lemma input_completed id : input_state c s f id = stateCompleted ↔ id ∈ c.
Proof. unfold input_state. repeat case_decide; naive_solver. Qed.

Lemma final_fired e ed : Edges d !! e = Some ed → resolve g st e = edgeFired ↔ From ed ∈ c.
Proof.
intros He. destruct (fromIdx_spec d g G e ed He) as (x & Hx & <-). unfold resolve.
assert (st !! fromIdx g e = Some stateCompleted ↔ ID x ∈ c) as Hc.
{ rewrite <-input_completed. split.
- intros Hp. assert (¬ skips d c s f (ID x)) as Hs by (intros E%(final_skipped _ x Hx); congruence).
rewrite (final_other _ x Hx Hs) in Hp. congruence.
- intros Hc. rewrite (pv_keep _ _ _ _ PI); [rewrite (state_at _ x Hx); congruence|].
intros [Hp _]%(final_newly _ x Hx). congruence. }
rewrite <-Hc. destruct (st !! fromIdx g e) as [[]|]; naive_solver.
Qed.
Lemma final_edge_skipped e ed : Edges d !! e = Some ed →
resolve g st e = edgeSkipped ↔ skips d c s f (From ed).
Proof.
intros He. destruct (fromIdx_spec d g G e ed He) as (x & Hx & <-).
rewrite <-(final_skipped _ x Hx). unfold resolve.
destruct (st !! fromIdx g e) as [[]|]; naive_solver.
Qed.

Lemma any_fired v x : Steps d !! v = Some x →
existsb (λ e, bool_decide (resolve g st e = edgeFired)) (in_of g v) = true ↔
∃ ed, (ed ∈ Edges d ∧ IsLoop ed = false ∧ To ed = ID x) ∧ From ed ∈ c.
Proof.
intros Hv. rewrite existsb_exists. split.
- intros (e & He%list_elem_of_In & Hf%bool_decide_eq_true).
apply (incoming v x e Hv) in He as (ed & He & Hl & Ht). exists ed.
rewrite (final_fired e ed He) in Hf. split_and!; [by eapply list_elem_of_lookup_2|done..].
- intros (ed & ([e He]%list_elem_of_lookup & Hl & Ht) & Hf). exists e.
rewrite bool_decide_eq_true, (final_fired e ed He), <-list_elem_of_In, (incoming v x e Hv).
eauto.
Qed.
Lemma all_resolved v x : Steps d !! v = Some x →
forallb (λ e, negb (bool_decide (resolve g st e = edgeUnresolved))) (in_of g v) = true ↔
∀ ed, ed ∈ Edges d ∧ IsLoop ed = false ∧ To ed = ID x → From ed ∈ c ∨ skips d c s f (From ed).
Proof.
intros Hv. rewrite forallb_forall.
assert (∀ e ed, Edges d !! e = Some ed → negb (bool_decide (resolve g st e = edgeUnresolved)) = true ↔
From ed ∈ c ∨ skips d c s f (From ed)) as Hr.
{ intros e ed He. rewrite negb_true_iff, bool_decide_eq_false.
rewrite <-(final_fired e ed He), <-(final_edge_skipped e ed He).
destruct (resolve g st e); naive_solver. }
split.
- intros Hall ed ([e He]%list_elem_of_lookup & Hl & Ht). apply (Hr e ed He), Hall.
apply list_elem_of_In, (incoming v x e Hv). eauto.
- intros Hall e He%list_elem_of_In. apply (incoming v x e Hv) in He as (ed & He & Hl & Ht).
apply (Hr e ed He), Hall. split_and!; [by eapply list_elem_of_lookup_2|done..].
Qed.

Lemma no_incoming v x : Steps d !! v = Some x →
in_of g v = [] ↔ ∀ ed, ¬ (ed ∈ Edges d ∧ IsLoop ed = false ∧ To ed = ID x).
Proof.
intros Hv. split.
- intros E ed ([e He]%list_elem_of_lookup & Hl & Ht).
assert (e ∈ in_of g v) as Hin by (apply (incoming v x e Hv); eauto).
rewrite E in Hin. by apply not_elem_of_nil in Hin.
- intros Hno. destruct (in_of g v) as [|e l] eqn:E; [done|].
assert (e ∈ in_of g v) as Hin by (rewrite E; set_solver).
apply (incoming v x e Hv) in Hin as (ed & He & Hl & Ht). edestruct (Hno ed).
split_and!; [by eapply list_elem_of_lookup_2|done..].
Qed.

Lemma is_ready_iff v x : Steps d !! v = Some x → is_ready g st v = true ↔ startable d c s f x.
Proof.
intros Hv. unfold is_ready, startable.
assert (step_at g v = x) as -> by (unfold step_at; by rewrite (go_def _ _ G), Hv).
rewrite andb_true_iff, orb_true_iff, !bool_decide_eq_true, (final_pending v x Hv), (no_incoming v x Hv).
rewrite <-(any_fired v x Hv), <-(all_resolved v x Hv). cbv zeta.
destruct (decide (joinMode x = JoinAny)) as [E|E].
- rewrite (bool_decide_eq_true_2 _ E). tauto.
- rewrite (bool_decide_eq_false_2 _ E), andb_true_iff. tauto.
Qed.

Lemma sorted_newly : merge_sort le newly = List.filter (λ v, bool_decide (v ∈ newly)) (seq 0 n).
Proof.
eapply (StronglySorted_unique le).
- apply StronglySorted_merge_sort; apply _.
- apply StronglySorted_filter_seq.
- rewrite merge_sort_Permutation. apply NoDup_Permutation; [apply PI|apply NoDup_ListNoDup, List.NoDup_filter, List.seq_NoDup|].
intros v. rewrite list_elem_of_In, (list_elem_of_In (List.filter _ _)), filter_In, bool_decide_eq_true, <-!list_elem_of_In, elem_of_seq.
split; [|naive_solver]. intros Hv. split; [|done].
apply (pv_new _ _ _ _ PI) in Hv as (Hv & _). rewrite Hord, elem_of_seq in Hv. lia.
Qed.
End final.
End states.

Lemma ids_seq : ID <$> Steps d = (λ i, ID (step_at g i)) <$> seq 0 n.
Proof.
apply list_eq. intros i. rewrite !list_lookup_fmap. destruct (decide (i < n)) as [Hi|Hi].
- rewrite lookup_seq_lt by done. destruct (lookup_lt_is_Some_2 _ _ Hi) as [x Hx].
  rewrite Hx. cbn. unfold step_at. by rewrite (go_def _ _ G), Hx.
- rewrite lookup_ge_None_2 by lia. rewrite lookup_seq_ge by lia. done.
Qed.

(** A selection of indices, as step ids in declaration order. *)
Lemma filter_seq_steps (q : nat → bool) (Q : Step → Prop) :
(∀ v x, Steps d !! v = Some x → q v = true ↔ Q x) →
let ids := (λ i, ID (step_at g i)) <$> List.filter q (seq 0 n) in
sublist ids (ID <$> Steps d) ∧ ∀ x, x ∈ Steps d → ID x ∈ ids ↔ Q x.
Proof.
intros HQ ids.
split.
- unfold ids. rewrite ids_seq. clear. induction (seq 0 n) as [|a l IH]; [constructor|].
  cbn. destruct (q a); by constructor.
- intros x [v Hv]%list_elem_of_lookup. rewrite <-(HQ v x Hv). unfold ids. split.
  + intros (w & Ew & Hw)%list_elem_of_fmap. rewrite list_elem_of_In, filter_In, in_seq in Hw.
    destruct Hw as [Hw Hq]. destruct (lookup_lt_is_Some_2 (Steps d) w) as [y Hy]; [lia|].
    assert (step_at g w = y) as Eq by (unfold step_at; by rewrite (go_def _ _ G), Hy).
    rewrite Eq in Ew. by rewrite (step_unique d g G v w x y).
  + intros Hq. assert (ID x = ID (step_at g v)) as -> by (unfold step_at; by rewrite (go_def _ _ G), Hv).
    apply (list_elem_of_fmap_2 (λ i, ID (step_at g i))). rewrite list_elem_of_In, filter_In, in_seq.
    apply lookup_lt_Some in Hv. split; [lia|done].
Qed.

(** ** ReadySteps *)
Lemma ReadySteps_eval c s f : valid_inputs d c s f → (topoOrder g).2 = true →
∃ ready newly, ReadySteps g c s f = inr (ready, newly) ∧
  sublist ready (ID <$> Steps d) ∧ sublist newly (ID <$> Steps d) ∧
  (∀ x, x ∈ Steps d → ID x ∈ ready ↔ startable d c s f x) ∧
  (∀ x, x ∈ Steps d → ID x ∈ newly ↔ input_state c s f (ID x) = statePending ∧ skips d c s f (ID x)).
Proof.
intros Hval Ht. unfold ReadySteps.
destruct (inputStates_ok c s f Hval) as (st0 & -> & Hlen & Hst0).
destruct (topoOrder g) as [ord ok] eqn:Eo. cbn in Ht. subst ok.
destruct (topoOrder_sound d g G ord Eo) as [Hperm Hsorted].
assert (∀ v, v ∈ ord → v < n) as Hrg by (intros v; rewrite Hperm, elem_of_seq; lia).
assert (pinv st0 ord (propagate g ord st0 []).1 (propagate g ord st0 []).2) as PI.
{ apply (propagate_spec st0 ord Hlen ord []); try done.
  - rewrite Hperm. apply NoDup_ListNoDup, List.seq_NoDup.
  - intros l1 v l2 E e He. eapply (Hsorted _ _ _ E).
    all: apply (elem_of_in d g G) in He as [? ?]; [done|apply Hrg; rewrite E; set_solver].
  - split; try done.
    + by intros v ?%not_elem_of_nil.
    + intros v. split; [by intros ?%not_elem_of_nil|by intros [?%not_elem_of_nil _]].
    + constructor. }
destruct (propagate g ord st0 []) as [st newly]. cbn in PI.
rewrite (go_def _ _ G). erewrite sorted_newly by done.
destruct (filter_seq_steps (is_ready g st) (startable d c s f)) as [S1 M1];
  [intros v x Hv; by eapply is_ready_iff|].
destruct (filter_seq_steps (λ v, bool_decide (v ∈ newly))
            (λ x, input_state c s f (ID x) = statePending ∧ skips d c s f (ID x))) as [S2 M2].
{ intros v x Hv. rewrite bool_decide_eq_true. by eapply final_newly. }
eexists _, _. split; [done|]. by split_and!.
Qed.

Lemma ReadySteps_ok c s f r : ReadySteps g c s f = inr r → valid_inputs d c s f ∧ (topoOrder g).2 = true.
Proof.
unfold ReadySteps. destruct (inputStates g c s f) as [|st0] eqn:Hi; [done|].
destruct (topoOrder g) as [ord []]; [|done]. intros _. split; [by eapply inputStates_valid|done].
Qed.
End ready.
