(* ===== verification/Instantiate.v ===== *)
(** Run instantiation (internal/store/instantiate.go, materialize.go): the
    snapshot and the plan derived from a definition, the one-transaction insert of a
    run with the CHECKs, keys and references that refuse it, the registry row, and
    the proof that a new run satisfies the store invariant. *)
From stdpp Require Import relations.
From Stdlib Require Import QArith.
From S2P Require Import Prelude GoStd StoreModel Config Template Transitions Effects StoreInv StoreSpecs EdgeSpecs StoreSystem StoreTheorems Retry Issues Dag GraphFacts Validate ValidateGraph Codec Expansion Decode.
Open Scope Z_scope.

(** ** The plan *)
Record instantiationPlan : Type := mkPlan {
  pl_def : Definition_;
  pl_entry : list string;                 (** declaration order *)
  pl_remaining : gmap string Z            (** incoming normal edges per step *)
}.

Definition count_remaining (es : list Edge) : gmap string Z :=
  fold_left (λ m e, if IsLoop e then m else <[To e := default 0 (m !! To e) + 1]> m) es ∅.

Inductive PlanErr : Type := PlanEncode | PlanGraph (e : GraphErr) | PlanSkipped (ids : list string).

(** planInstantiation after the snapshot: the entry steps and the counters. *)

Definition planGraph (d : Definition_) : PlanErr + instantiationPlan :=
  match NewGraph d with
  | inl e => inl (PlanGraph e)
  | inr g =>
      match ReadySteps g ∅ ∅ ∅ with
      | inl e => inl (PlanGraph e)
      | inr (entry, []) => inr (mkPlan d entry (count_remaining (Edges d)))
      | inr (_, skipped) => inl (PlanSkipped skipped)
      end
  end.

(** The whole: the snapshot is encoded first. *)
Definition planInstantiation (doc : Document) : PlanErr + (json * instantiationPlan) :=
  match Encode doc with
  | None => inl PlanEncode
  | Some snapshot =>
      match planGraph (doc_Definition doc) with inl e => inl e | inr p => inr (snapshot, p) end
  end.

(** ** Materialization (materialize.go) *)
Record stepPlacement : Type := mkPlacement {
  sp_Status : StepStatus;
  sp_RemainingDeps : Z;
  sp_GraphVersion : Z;
  sp_Depth : Z;
  sp_OriginStep : option string;
  sp_OriginKind : option string
}.

Definition stepRowParams (runID : uuid) (step : Step) (p : stepPlacement) (now : time) : RunStep :=
  mkRunStep runID (ID step) (Type_ step) (marshalConfig <$> Config step) (sp_Status p)
    (sp_RemainingDeps p) 0 None 0 None None now None None None None None
    (mkEnvelope (Some (ResolveRetryPolicy (sp_Retry (Policies step))))
       (nullableText (sp_Timeout (Policies step))) (marshalCache <$> sp_Cache (Policies step))
       (marshalBudget <$> sp_Budget (Policies step)) (marshalValidation <$> Validation step)
       (marshalBlackboard <$> sp_Blackboard (Policies step)) (marshalContext <$> Context_ step)
       (sp_GraphVersion p) (sp_Depth p) (sp_OriginStep p) (sp_OriginKind p)).

Definition edgeRowParams (runID : uuid) (e : Edge) (ordinal graphVersion : Z) (originStep originKind : option string)
    : RunEdge :=
  mkRunEdge runID ordinal (From e) (To e) (EType e) (nullableText (When e)) (nullableText (Condition e))
    (if MaxIterations e =? 0 then None else Some (int32 (MaxIterations e)))
    EdgeResolutionUnresolved (nullableText (Decision e)) graphVersion originStep originKind.

(** ** Insertion *)
Record CreateRunArgs : Type := mkCreateRunArgs {
  cr_RunID : uuid;
  cr_DefinitionID : string;
  cr_Params : option json;
  cr_Now : time;
  cr_Trace : TraceContext;
  cr_IdempotencyToken : string;
  cr_Fingerprint : string               (** the plan's, set once the payload is fingerprinted *)
}.
#[export] Instance Eta_CreateRunArgs : Eta CreateRunArgs := λ a,
  mkCreateRunArgs (cr_RunID a) (cr_DefinitionID a) (cr_Params a) (cr_Now a) (cr_Trace a) (cr_IdempotencyToken a)
    (cr_Fingerprint a).

(** *** CHECK constraints

    The first constraint of a row, in the order of their names, that it
    violates (migrations 0005, 0017, 0023 and 0026; the other CHECKs of these
    tables hold of every row the code builds). *)
Definition check (ok : bool) (name : string) : list string := if ok then [] else [name].
Definition origin_kind_ok (k : option string) : bool :=
  match k with None => true | Some k => bool_decide (k ∈ [OriginPlanner; OriginMap; OriginLoop]) end.
Definition origin_pair_ok (s k : option string) : bool := Bool.eqb (is_Some_b s) (is_Some_b k).
Definition run_violation (y : Run) : option string :=
  head (check (bool_decide (run_OnBudgetExceeded y ∈ budgetPolicies)) "runs_on_budget_exceeded_check" ++
        check (bool_decide (run_OnFailure y ∈ failurePolicies)) "runs_on_failure_check").
Definition step_violation (x : RunStep) : option string :=
  let env := step_Envelope x in
  head (check (0 <=? env_Depth env) "run_steps_depth_check" ++
        check (origin_kind_ok (env_OriginKind env)) "run_steps_origin_kind_check" ++
        check (origin_pair_ok (env_OriginStep env) (env_OriginKind env)) "run_steps_origin_pair_check").
Definition edge_violation (e : RunEdge) : option string :=
  head (check (match edge_Decision e with None => true | Some d => bool_decide (d ∈ approvalDecisions) end)
          "run_edges_decision_check" ++
        check (origin_kind_ok (edge_OriginKind e)) "run_edges_origin_kind_check" ++
        check (origin_pair_ok (edge_OriginStep e) (edge_OriginKind e)) "run_edges_origin_pair_check").
(** The first violation of a batch. *)
Definition violation {A} (f : A → option string) (rows : list A) : option string := head (omap f rows).

(** runs: its CHECKs, the primary key, the partial index on the token and, once
    the row is in, the reference to the registry ([""]: NULL).  The Go code maps
    a broken reference to the same ConflictError as a duplicate key. *)
Definition has_token (tok : string) (y : Run) : bool := bool_decide (run_IdempotencyToken y = Some tok).
Definition token_taken (tok : option string) (d : DB) : bool :=
  match tok with Some t => existsb (has_token t) (runs d) | None => false end.
Definition constraintIdempotencyToken : string := "runs_idempotency_token_key".
Definition definition_known (definitionID : string) (d : DB) : bool :=
  bool_decide (definitionID = "") || existsb (λ w, bool_decide (wd_ID w = definitionID)) (workflow_definitions d).
Definition CreateRunRow (definitionID : string) (row : Run) : Tx Run :=
  let! d := get in
  match run_violation row with
  | Some c => throw (ErrCheck c)
  | None =>
      if existsb (is_run (run_ID row)) (runs d) then throw (ErrUnique "runs_pkey")
      else if token_taken (run_IdempotencyToken row) d then throw (ErrUnique constraintIdempotencyToken)
      else if negb (definition_known definitionID d) then throw (ErrUnique "runs_definition_id_fkey")
      else put (d <| runs := runs d ++ [row] |>) ;; ret row
  end.

(** Steps().CreateBatch and CreateEdgeBatch: one COPY each. *)
Definition no_clock (x : RunStep) : bool := step_UpdatedAt x =? 0.
Definition CreateBatch (rows : list RunStep) : Tx unit :=
  let! d := get in
  if existsb no_clock rows then throw (ErrBadArgs "zero UpdatedAt") else
  match violation step_violation rows with
  | Some c => throw (ErrCheck c)
  | None =>
      if bool_decide (NoDup ((λ x, (step_RunID x, step_StepID x)) <$> (run_steps d ++ rows)))
      then put (d <| run_steps := run_steps d ++ rows |>)
      else throw (ErrUnique "run_steps_pkey")
  end.
Definition CreateEdgeBatch (rows : list RunEdge) : Tx unit :=
  let! d := get in
  match violation edge_violation rows with
  | Some c => throw (ErrCheck c)
  | None =>
      if bool_decide (NoDup ((λ x, (edge_RunID x, edge_Ordinal x)) <$> (run_edges d ++ rows)))
      then put (d <| run_edges := run_edges d ++ rows |>)
      else throw (ErrUnique "run_edges_pkey")
  end.

(** *** The registry (definitions.go): immutable rows, one per name and version *)
Definition CreateDefinitionRow (row : WorkflowDefinition) : Tx WorkflowDefinition :=
  let! d := get in
  guard (1 <=? wd_Version row) (ErrCheck "workflow_definitions_version_check") ;;
  if existsb (λ w, bool_decide (wd_ID w = wd_ID row)) (workflow_definitions d)
  then throw (ErrUnique "workflow_definitions_pkey")
  else if existsb (λ w, bool_decide (wd_Name w = wd_Name row) && (wd_Version w =? wd_Version row)) (workflow_definitions d)
  then throw (ErrUnique "workflow_definitions_name_version_key")
  else put (d <| workflow_definitions := workflow_definitions d ++ [row] |>) ;; ret row.

(** usdToNanoUSD: an out-of-range conversion is the amd64 one. *)
Definition nanoPerUSD : Z := 1000000000.
Definition usdToNanoUSD (usd : Q) : Z :=
  if Qle_bool usd 0 then 0
  else let n := round64 (fl64 (usd * inject_Z nanoPerUSD)) in if n <? 2 ^ 63 then n else - 2 ^ 63.

(** The optional deadline: [None] when max_wall_clock does not parse. *)
Definition deadline (d : Definition_) (now : time) : option (option time) :=
  if bool_decide (MaxWallClock d = "") then Some None
  else (λ t, Some (now + t)) <$> ParseDuration (MaxWallClock d).

Definition run_row (p : instantiationPlan) (args : CreateRunArgs) : Run :=
  let d := pl_def p in
  mkRun (cr_RunID args) RunStatusRunning (Some (default (JObj []) (cr_Params args))) 1 0
    (Z.of_nat (length (Steps d))) 0 0 0 0 0 (Some (cr_Now args)) None
    (or_string (OnFailure d) FailFast) None None (default None (deadline d (cr_Now args)))
    (nullableText (Parent (cr_Trace args))) (nullableText (State (cr_Trace args)))
    0 0 (usdToNanoUSD <$> BudgetUSD d) (or_string (OnBudgetExceeded d) BudgetPark)
    (nullableText (cr_IdempotencyToken args))
    (if bool_decide (cr_IdempotencyToken args = "") then None else Some (cr_Fingerprint args))
    (Some (Resolve (Expansion d))).

(** One step row: an agent step is resolved against its role first. *)
Definition step_row (p : instantiationPlan) (args : CreateRunArgs) (step : Step) : AgentErr + RunStep :=
  let place := mkPlacement (if bool_decide (ID step ∈ pl_entry p) then StepStatusReady else StepStatusPending)
                 (default 0 (pl_remaining p !! ID step)) 1 0 None None in
  if bool_decide (Type_ step = StepAgent) then
    match ResolveAgentStep (pl_def p) step with
    | inl e => inl e
    | inr step' => inr (stepRowParams (cr_RunID args) step' place (cr_Now args))
    end
  else inr (stepRowParams (cr_RunID args) step place (cr_Now args)).

Fixpoint step_rows (p : instantiationPlan) (args : CreateRunArgs) (l : list Step)
    : AgentErr + list RunStep :=
  match l with
  | [] => inr []
  | s :: l' =>
      match step_row p args s with
      | inl e => inl e
      | inr x => match step_rows p args l' with inl e => inl e | inr xs => inr (x :: xs) end
      end
  end.

Definition edge_rows (p : instantiationPlan) (args : CreateRunArgs) : list RunEdge :=
  imap (λ i e, edgeRowParams (cr_RunID args) e (Z.of_nat i) 1 None None) (Edges (pl_def p)).

Definition insert_run (p : instantiationPlan) (args : CreateRunArgs) : Tx Run :=
  guard (bool_decide (is_Some (deadline (pl_def p) (cr_Now args)))) (ErrBadArgs "parsing max_wall_clock") ;;
  let! run := CreateRunRow (cr_DefinitionID args) (run_row p args) in
  match step_rows p args (Steps (pl_def p)) with
  | inl _ => throw (ErrBadArgs "resolving agent step")
  | inr steps =>
      CreateBatch steps ;;
      CreateEdgeBatch (edge_rows p args) ;;
      appendEvent (run_ID run) (RunCreated (Name (pl_def p)) (cr_DefinitionID args)
                                  (Z.of_nat (length (Steps (pl_def p))))) ;;
      for_each (pl_entry p) (λ id, appendEvent (run_ID run) (StepReadyEv id)) ;;
      for_each (pl_entry p) (λ id, CreateOutboxTask (run_ID run) id OutboxReasonStepReady (cr_Trace args)) ;;
      ret run
  end.

(** ** A new run satisfies the invariant *)

Lemma ResolveAgentStep_ID d s s' : ResolveAgentStep d s = inr s' → ID s' = ID s ∧ Type_ s' = Type_ s.
Proof.
  unfold ResolveAgentStep. destruct (negb _); [done|].
  destruct (Config s) as [[]|]; try done. destruct (bool_decide _); [done|].
  destruct (_ !! _) as [[]|]; [|done..]. by intros [= <-].
Qed.

Lemma count_remaining_spec es s :
  default 0 (count_remaining es !! s) = count (λ e, negb (IsLoop e) && bool_decide (To e = s)) es.
Proof.
  unfold count_remaining.
  assert (∀ m : gmap string Z, default 0 (fold_left (λ m e, if IsLoop e then m
      else <[To e := default 0 (m !! To e) + 1]> m) es m !! s) =
    default 0 (m !! s) + count (λ e, negb (IsLoop e) && bool_decide (To e = s)) es) as Hgen.
  { induction es as [|e es IH]; intros m; cbn; [lia|]. rewrite IH. destruct (IsLoop e); cbn; [lia|].
    destruct (decide (To e = s)) as [<-|Hne].
    - rewrite lookup_insert_eq, bool_decide_eq_true_2 by done. cbn. lia.
    - rewrite lookup_insert_ne, bool_decide_eq_false_2 by done. lia. }
  rewrite Hgen. by rewrite lookup_empty.
Qed.

(** The row materialized for a step. *)
Record row_of (p : instantiationPlan) (args : CreateRunArgs) (st : Step) (x : RunStep) : Prop := mkRowOf {
  ro_key : step_key x = (cr_RunID args, ID st);
  ro_status : step_Status x = if bool_decide (ID st ∈ pl_entry p) then StepStatusReady else StepStatusPending;
  ro_deps : step_RemainingDeps x = default 0 (pl_remaining p !! ID st);
  ro_fired : step_FiredDeps x = 0;
  ro_claim : step_ClaimID x = None;
  ro_count : step_AttemptCount x = 0;
  ro_type : step_StepType x = Type_ st;
  ro_config : Type_ st ≠ StepAgent → step_Config x = marshalConfig <$> Config st
}.

Lemma step_rows_spec p args l rows : step_rows p args l = inr rows → Forall2 (row_of p args) l rows.
Proof.
  revert rows. induction l as [|st l IH]; intros rows; cbn; [by intros [= <-]|].
  destruct (step_row p args st) as [|x] eqn:Hx; [done|].
  destruct (step_rows p args l) as [|xs]; [done|]. intros [= <-]. constructor; [|by apply IH].
  unfold step_row in Hx. destruct (bool_decide (Type_ st = StepAgent)) eqn:Hag.
  - apply bool_decide_eq_true in Hag. destruct (ResolveAgentStep (pl_def p) st) as [|st'] eqn:Hr; [done|].
    injection Hx as <-. apply ResolveAgentStep_ID in Hr as [Hr Ht]. split; cbn; try done. unfold step_key. cbn.
    by rewrite Hr.
  - by injection Hx as <-.
Qed.

Lemma planGraph_spec d p : planGraph d = inr p →
  pl_def p = d ∧ pl_remaining p = count_remaining (Edges d) ∧ ∃ g, NewGraph d = inr g.
Proof.
  unfold planGraph. destruct (NewGraph d) as [|g] eqn:Hg; [done|].
  destruct (ReadySteps g ∅ ∅ ∅) as [|[entry [|]]]; [done| |done]. intros [= <-]. cbn. eauto.
Qed.

Lemma list_nil_filter_fresh r (l : list Event) :
  (∀ e, e ∈ l → ev_RunID e ≠ r) → filter (λ e, ev_RunID e = r) l = [].
Proof.
  induction l as [|e l IH]; intros Hl; [done|]. rewrite filter_cons_False by (apply Hl; set_solver).
  apply IH. set_solver.
Qed.
Lemma max_dead_letter_fresh f r s l : (∀ dl, dl ∈ l → dl_RunID dl ≠ r) → max_dead_letter f r s l = 0.
Proof.
  unfold max_dead_letter. induction l as [|dl l IH]; intros Hl; [done|]. cbn.
  unfold is_dead_letter at 1. rewrite (bool_decide_eq_false_2 (dl_RunID dl = r)) by (apply Hl; set_solver).
  apply IH. set_solver.
Qed.
Lemma ledger_fresh f r l : (∀ c, c ∈ l → cl_RunID c ≠ r) → ledger_sum f r l = 0.
Proof.
  unfold ledger_sum. induction l as [|c l IH]; intros Hl; cbn; [done|].
  rewrite bool_decide_eq_false_2 by (apply Hl; set_solver). rewrite IH by set_solver. done.
Qed.
Lemma count_imap {A B} (q : A → bool) (q' : B → bool) (f : nat → A → B) l :
  (∀ i x, q' (f i x) = q x) → count q' (imap f l) = count q l.
Proof.
  revert f. induction l as [|x l IH]; intros f Hq; [done|]. cbn. rewrite Hq. f_equal. apply IH.
  intros. apply Hq.
Qed.

Section insertion.
Context (d : DB) (def : Definition_) (p : instantiationPlan) (args : CreateRunArgs) (rows : list RunStep).
Context (H : db_inv d) (Hplan : planGraph def = inr p)
(Hrows : step_rows p args (Steps def) = inr rows)
(Hfresh : existsb (is_run (cr_RunID args)) (runs d) = false).
Abbreviation id := (cr_RunID args).
Abbreviation es := (edge_rows p args).
Abbreviation y0 := (run_row p args).

Definition inserted : DB :=
d <| runs := runs d ++ [y0] |> <| run_steps := run_steps d ++ rows |>
  <| run_edges := run_edges d ++ es |>.

Lemma plan_def : pl_def p = def.
Proof. by apply planGraph_spec in Hplan as [? _]. Qed.

Lemma plan_graph : ∃ g, graph_of def g.
Proof.
apply planGraph_spec in Hplan as (_ & _ & g & Hg). exists g. by apply NewGraph_spec.
Qed.

Lemma fresh_run y : y ∈ runs d → run_ID y ≠ id.
Proof.
intros Hy. apply existsb_false in Hfresh. rewrite Forall_forall in Hfresh.
specialize (Hfresh y Hy). by apply bool_decide_eq_false in Hfresh.
Qed.
Lemma fresh_step x : x ∈ run_steps d → step_RunID x ≠ id.
Proof. intros (y & Hy & <-)%(inv_step_run _ H). by apply fresh_run. Qed.
Lemma fresh_edge e : e ∈ run_edges d → edge_RunID e ≠ id.
Proof. intros (x & Hx & <- & _)%(inv_edge_step _ H). by apply fresh_step. Qed.
Lemma fresh_attempt a : a ∈ step_attempts d → att_RunID a ≠ id.
Proof. intros (x & Hx & [-> _]%att_of_true)%(inv_att_step _ H). by apply fresh_step. Qed.

Lemma new_row x : x ∈ rows → ∃ st, st ∈ Steps def ∧ row_of p args st x.
Proof.
intros Hx. apply step_rows_spec in Hrows. apply list_elem_of_lookup in Hx as [i Hi].
destruct (Forall2_lookup_r _ _ _ _ _ Hrows Hi) as (st & Hst & R). exists st.
split; [by eapply list_elem_of_lookup_2|done].
Qed.
Lemma new_row_run x : x ∈ rows → step_RunID x = id.
Proof. intros (st & _ & [[= -> _] _])%new_row. done. Qed.
Lemma row_for st : st ∈ Steps def → ∃ x, x ∈ rows ∧ row_of p args st x.
Proof.
intros Hx. apply step_rows_spec in Hrows. apply list_elem_of_lookup in Hx as [i Hi].
destruct (Forall2_lookup_l _ _ _ _ _ Hrows Hi) as (x & Hxi & R). exists x.
split; [by eapply list_elem_of_lookup_2|done].
Qed.

Lemma row_keys : step_key <$> rows = (λ st, (id, ID st)) <$> Steps def.
Proof.
apply step_rows_spec in Hrows. induction Hrows as [|st x l rows' R _ IH]; [done|].
cbn. rewrite IH. f_equal. apply R.
Qed.

Lemma new_edge e : e ∈ es → ∃ i ed, Edges def !! i = Some ed ∧ e = edgeRowParams id ed (Z.of_nat i) 1 None None.
Proof.
unfold edge_rows. rewrite plan_def. intros He. apply list_elem_of_lookup in He as [i Hi].
rewrite list_lookup_imap in Hi. destruct (Edges def !! i) as [ed|] eqn:Hed; [|done].
injection Hi as <-. eauto.
Qed.

(** Both ends of a new edge are new rows. *)
Lemma new_edge_ends e : e ∈ es → ∃ x x', x ∈ rows ∧ x' ∈ rows ∧
  (step_RunID x' = edge_RunID e ∧ step_StepID x' = edge_FromStep e) ∧
  (step_RunID x = edge_RunID e ∧ step_StepID x = edge_ToStep e).
Proof.
intros (i & ed & Hed & ->)%new_edge. destruct plan_graph as [g G].
destruct (go_ends _ _ G ed) as [(sf & Esf & Hsf)%list_elem_of_fmap (st & Est & Hst)%list_elem_of_fmap];
  [by eapply list_elem_of_lookup_2|].
destruct (row_for st Hst) as (x & Hx & R), (row_for sf Hsf) as (x' & Hx' & R'). exists x, x'.
pose proof (ro_key _ _ _ _ R) as [= E1 E2]. pose proof (ro_key _ _ _ _ R') as [= E3 E4]. cbn.
split_and!; [done|done|done|congruence|done|congruence].
Qed.

Lemma inserted_keys_steps : NoDup (step_key <$> run_steps inserted).
Proof.
cbn. rewrite fmap_app, NoDup_app. split_and!; [apply H| |].
- intros k (x & -> & Hx)%list_elem_of_fmap. rewrite row_keys.
  intros (st & E & _)%list_elem_of_fmap. injection E as E _. by apply (fresh_step x).
- rewrite row_keys. destruct plan_graph as [g G].
  assert ((λ st, (id, ID st)) <$> Steps def = (λ s, (id, s)) <$> (ID <$> Steps def)) as ->
    by (by rewrite <-list_fmap_compose).
  apply NoDup_fmap; [|apply G]. by intros ? ? [=].
Qed.

Lemma inserted_keys_edges : NoDup (edge_key <$> run_edges inserted).
Proof.
cbn. rewrite fmap_app, NoDup_app. split_and!; [apply H| |].
- intros k (e & -> & He)%list_elem_of_fmap (e' & E & He')%list_elem_of_fmap.
  destruct (new_edge _ He') as (i & ed & _ & ->). injection E as E _. by apply (fresh_edge e).
- unfold edge_rows. apply NoDup_alt. intros i j k Hi Hj.
  rewrite list_lookup_fmap, list_lookup_imap in Hi, Hj.
  destruct (Edges (pl_def p) !! i), (Edges (pl_def p) !! j); cbn in *; try done. 
  injection Hi as <-. injection Hj as E. lia.
Qed.

(** Counting over the old rows of the new run, and over the new rows. *)
Lemma count_old (q : RunStep → bool) : (∀ x, q x = true → step_RunID x = id) →
count q (run_steps inserted) = count q rows.
Proof.
intros Hq. cbn. rewrite count_app.
assert (count q (run_steps d) = 0) as ->; [|lia]. apply count_zero, Forall_forall. intros x Hx.
apply not_true_iff_false. intros E%Hq. by apply (fresh_step x).
Qed.
Lemma count_new (q : RunStep → bool) : (∀ x, q x = true → step_RunID x ≠ id) →
count q (run_steps inserted) = count q (run_steps d).
Proof.
intros Hq. cbn. rewrite count_app.
assert (count q rows = 0) as ->; [|lia]. apply count_zero, Forall_forall. intros x Hx.
apply not_true_iff_false. intros E%Hq. by apply E, new_row_run.
Qed.

Lemma new_status x st : x ∈ rows → st ≠ StepStatusReady → st ≠ StepStatusPending → has_status st x = false.
Proof.
intros (s & _ & R)%new_row ? ?. unfold has_status. rewrite (ro_status _ _ _ _ R).
apply bool_decide_eq_false. by destruct (bool_decide _).
Qed.

Lemma status_count_zero st : st ≠ StepStatusReady → st ≠ StepStatusPending →
run_status_count id st (run_steps inserted) = 0.
Proof.
intros Hr Hp. unfold run_status_count. rewrite count_old.
- apply count_zero, Forall_forall. intros x Hx. rewrite (new_status x st) by done. apply andb_false_r.
- intros x [E _]%andb_prop. by apply bool_decide_eq_true in E.
Qed.

Lemma new_run_inv : run_inv inserted y0.
Proof.
assert (run_ID y0 = id) as Eid by done.
split; rewrite ?Eid; try (symmetry; by apply status_count_zero).
- rewrite count_old by (intros x E; by apply bool_decide_eq_true in E).
  cbn. rewrite plan_def.
  assert (count (of_run id) rows = Z.of_nat (length rows)) as ->.
  { assert (∀ x, x ∈ rows → of_run id x = true) as Hall
      by (intros; apply bool_decide_eq_true; by apply new_row_run).
    clear -Hall. induction rows as [|x l IH]; [done|]. cbn [count length].
    rewrite Hall by set_solver. rewrite IH by (intros; apply Hall; set_solver). lia. }
  apply step_rows_spec, Forall2_length in Hrows. by rewrite Hrows.
- cbn. split; [done|].
  assert (run_events id (events d) = []) as ->; [|done].
  unfold run_events. apply list_nil_filter_fresh. intros e (y & Hy & <-)%(inv_event_run _ H).
  by apply fresh_run.
- cbn. symmetry. apply ledger_fresh. intros c (y & Hy & <-)%(inv_ledger_run _ H). by apply fresh_run.
- cbn. symmetry. apply ledger_fresh. intros c (y & Hy & <-)%(inv_ledger_run _ H). by apply fresh_run.
- done.
- done.
Qed.

Lemma old_run_inv y : y ∈ runs d → run_inv inserted y.
Proof.
intros Hy. pose proof (inv_run _ H y Hy) as I. pose proof (fresh_run y Hy) as Hne.
assert (∀ st, run_status_count (run_ID y) st (run_steps inserted) =
              run_status_count (run_ID y) st (run_steps d)) as Hc.
{ intros st. apply count_new. intros x [E%bool_decide_eq_true _]%andb_prop. congruence. }
split; rewrite ?Hc; try apply I.
- rewrite count_new; [apply I|]. intros x E%bool_decide_eq_true. congruence.
- intros Hst x [Hx|Hx]%elem_of_app Ex; [by apply (ri_done _ _ I)|].
  apply new_row_run in Hx. congruence.
Qed.

Lemma old_step_deps x : x ∈ run_steps d → deps_inv (run_edges inserted) x.
Proof.
intros Hx. destruct (inv_deps _ H x Hx) as [D1 D2]. unfold deps_inv. cbn.
assert (∀ res, count (in_edges x res) es = 0) as Hz.
{ intros res. apply count_zero, Forall_forall. intros e (i & ed & _ & ->)%new_edge.
  unfold in_edges. cbn. rewrite (bool_decide_eq_false_2 (id = _)); [done|].
  intros E. by apply (fresh_step x). }
rewrite !count_app, !Hz. lia.
Qed.

Lemma new_step_deps x : x ∈ rows → deps_inv (run_edges inserted) x.
Proof.
intros Hx. destruct (new_row x Hx) as (st & _ & R). unfold deps_inv. cbn. rewrite !count_app.
assert (∀ res, count (in_edges x res) (run_edges d) = 0) as Hz.
{ intros res. apply count_zero, Forall_forall. intros e He. unfold in_edges.
  rewrite (new_row_run x Hx), (bool_decide_eq_false_2 (edge_RunID e = _)); [done|by apply fresh_edge]. }
rewrite !Hz, (ro_fired _ _ _ _ R), (ro_deps _ _ _ _ R).
destruct (planGraph_spec _ _ Hplan) as (_ & -> & _). rewrite count_remaining_spec.
pose proof (ro_key _ _ _ _ R) as [= Er Es]. unfold edge_rows. rewrite plan_def.
split; cbn.
- rewrite (count_imap (λ e, negb (IsLoop e) && bool_decide (To e = ID st))); [done|].
  intros i e. unfold in_edges, edgeRowParams, IsLoop. cbn. rewrite Er, Es. decide_eqs.
  by destruct (EType e), (bool_decide (To e = ID st)).
- rewrite (count_imap (λ _, false)).
  + symmetry. apply count_zero. by apply Forall_true.
  + intros i e. unfold in_edges, edgeRowParams. cbn. by rewrite andb_false_r.
Qed.

Lemma new_step_attempts x : x ∈ rows → attempts_inv (step_attempts d) x.
Proof.
intros Hx. destruct (new_row x Hx) as (st & _ & R).
assert (∀ a, a ∈ step_attempts d → att_of x a = true → False) as Hno.
{ intros a Ha [E _]%att_of_true. rewrite (new_row_run x Hx) in E. by apply (fresh_attempt a). }
assert (in_flight (step_Status x) = false) as Hf
  by (rewrite (ro_status _ _ _ _ R); by destruct (bool_decide _)).
split; rewrite ?(ro_count _ _ _ _ R), ?Hf; try done; try lia;
  try (intros; exfalso; eauto; done).
Qed.

Lemma inserted_inv : db_inv inserted.
Proof.
split; try apply H.
- cbn. rewrite fmap_app, NoDup_app. split_and!; [apply H| |apply NoDup_singleton].
  intros k (y & -> & Hy)%list_elem_of_fmap E%list_elem_of_singleton. by apply (fresh_run y).
- apply inserted_keys_steps.
- apply inserted_keys_edges.
- intros y [Hy|Hy%list_elem_of_singleton]%elem_of_app; [by apply old_run_inv|].
  subst. apply new_run_inv.
- intros x [Hx|Hx]%elem_of_app; [by apply H|by apply new_step_attempts].
- intros x [Hx|Hx]%elem_of_app; [by apply old_step_deps|by apply new_step_deps].
- intros x [Hx|Hx]%elem_of_app.
  + destruct (inv_step_run _ H x Hx) as (y & ? & ?). exists y. cbn. set_solver.
  + exists y0. rewrite (new_row_run x Hx). cbn. set_solver.
- intros e [He|He]%elem_of_app.
  + destruct (inv_edge_step _ H e He) as (x & ? & ?). exists x. cbn. set_solver.
  + destruct (new_edge_ends e He) as (x & _ & Hx & _ & _ & E). exists x. cbn. set_solver.
- intros e [He|He]%elem_of_app.
  + destruct (inv_edge_from _ H e He) as (x & ? & ?). exists x. cbn. set_solver.
  + destruct (new_edge_ends e He) as (_ & x & _ & Hx & E & _). exists x. cbn. set_solver.
- intros v (y & ? & ?)%(inv_event_run _ H). exists y. cbn. set_solver.
- intros a (x & ? & ?)%(inv_att_step _ H). exists x. cbn. set_solver.
- intros x [Hx|Hx]%elem_of_app; [by apply H|].
  destruct (new_row x Hx) as (st & _ & R). unfold step_shape. rewrite (ro_status _ _ _ _ R).
  by destruct (bool_decide _).
- intros x [Hx|Hx]%elem_of_app Hd; [by apply H|].
  destruct (new_row x Hx) as (st & _ & R). rewrite (ro_status _ _ _ _ R) in Hd.
  by destruct (bool_decide _).
- intros x [Hx|Hx]%elem_of_app; [by apply H|].
  destruct (new_row x Hx) as (st & _ & R). unfold baseline_inv, baseline.
  rewrite (ro_count _ _ _ _ R), (ro_status _ _ _ _ R).
  change (dead_letters inserted) with (dead_letters d).
  assert (max_dead_letter dl_AttemptsAtDeath (step_RunID x) (step_StepID x) (dead_letters d) = 0) as ->.
  { apply max_dead_letter_fresh. intros dl (z & Hz & Hdl)%(inv_dl_step _ H).
    apply andb_prop in Hdl as [E%bool_decide_eq_true _]. rewrite E, (new_row_run x Hx).
    by apply fresh_step. }
  split; [done|]. by destruct (bool_decide _).
- intros dl (x & ? & ?)%(inv_dl_step _ H). exists x. cbn. set_solver.
- intros c (y & ? & ?)%(inv_ledger_run _ H). exists y. cbn. set_solver.
Qed.
End insertion.

Lemma for_each_appendEvent_sequenced {A} r (l : list A) f : sequenced (for_each l (λ x, appendEvent r (f x))).
Proof. apply sequenced_for_each. intros x _. apply transition_sequenced, appendEvent_transition. Qed.

(** The events and dispatch rows of the instantiation transaction. *)
Definition announce (p : instantiationPlan) (args : CreateRunArgs) : Tx Run :=
  appendEvent (cr_RunID args) (RunCreated (Name (pl_def p)) (cr_DefinitionID args)
                                 (Z.of_nat (length (Steps (pl_def p))))) ;;
  for_each (pl_entry p) (λ id, appendEvent (cr_RunID args) (StepReadyEv id)) ;;
  for_each (pl_entry p) (λ id, CreateOutboxTask (cr_RunID args) id OutboxReasonStepReady (cr_Trace args)) ;;
  ret (run_row p args).

Lemma announce_sequenced p args : sequenced (announce p args).
Proof.
  apply sequenced_bind; [apply transition_sequenced, appendEvent_transition|intros _].
  apply sequenced_bind; [apply for_each_appendEvent_sequenced|intros _].
  apply sequenced_bind; [|intros _; apply sequenced_ret].
  apply sequenced_for_each. intros x _. apply transition_sequenced, CreateOutboxTask_transition.
Qed.

Lemma token_taken_spec tok d : token_taken (nullableText tok) d = true ↔
  tok ≠ "" ∧ ∃ y, y ∈ runs d ∧ run_IdempotencyToken y = Some tok.
Proof.
  unfold nullableText. case_bool_decide as E; cbn; [naive_solver|]. rewrite existsb_exists. unfold has_token.
  setoid_rewrite bool_decide_eq_true. setoid_rewrite <-list_elem_of_In. naive_solver.
Qed.

(** Why an insert is refused; the three inserts of a plan cannot collide. *)
Inductive insert_refused (p : instantiationPlan) (args : CreateRunArgs) (d : DB) : Err → Prop :=
| ir_deadline : deadline (pl_def p) (cr_Now args) = None → insert_refused p args d (ErrBadArgs "parsing max_wall_clock")
| ir_policy c : run_violation (run_row p args) = Some c → insert_refused p args d (ErrCheck c)
| ir_id y : y ∈ runs d → run_ID y = cr_RunID args → insert_refused p args d (ErrUnique "runs_pkey")
| ir_token y : cr_IdempotencyToken args ≠ "" → y ∈ runs d → run_IdempotencyToken y = Some (cr_IdempotencyToken args) →
    insert_refused p args d (ErrUnique constraintIdempotencyToken)
| ir_definition : token_taken (nullableText (cr_IdempotencyToken args)) d = false →
    definition_known (cr_DefinitionID args) d = false → insert_refused p args d (ErrUnique "runs_definition_id_fkey")
| ir_agent e : step_rows p args (Steps (pl_def p)) = inl e → insert_refused p args d (ErrBadArgs "resolving agent step")
| ir_clock : cr_Now args = 0 → insert_refused p args d (ErrBadArgs "zero UpdatedAt")
| ir_decision c : violation edge_violation (edge_rows p args) = Some c → insert_refused p args d (ErrCheck c).

Lemma violation_none {A} (f : A → option string) rows : (∀ x, x ∈ rows → f x = None) → violation f rows = None.
Proof.
  unfold violation. induction rows as [|x l IH]; intros Hl; [done|]. cbn. rewrite Hl by (by left).
  apply IH. intros. apply Hl. by right.
Qed.
Lemma violation_inv {A} (f : A → option string) rows c : violation f rows = Some c → ∃ x, x ∈ rows ∧ f x = Some c.
Proof.
  unfold violation. induction rows as [|x l IH]; [done|]. cbn. destruct (f x) eqn:E; cbn.
  - intros [= ->]. exists x. split; [by left|done].
  - intros (z & ? & ?)%IH. exists z. split; [by right|done].
Qed.

(** A new row breaks no CHECK of run_steps. *)
Lemma new_rows_checked p args l rows : step_rows p args l = inr rows → violation step_violation rows = None.
Proof.
  intros Hr. apply violation_none. revert rows Hr. induction l as [|s l IH]; intros rows; cbn.
  - intros [= <-] x ?%not_elem_of_nil. done.
  - destruct (step_row p args s) as [|x] eqn:Hx; [done|]. destruct (step_rows p args l) as [|xs]; [done|].
    intros [= <-] z [->|Hz]%elem_of_cons; [|by eapply IH]. unfold step_row in Hx.
    destruct (bool_decide _); [destruct (ResolveAgentStep _ s); [done|]|]; by injection Hx as <-.
Qed.

(** A new row carries the clock of the submission. *)
Lemma new_rows_clock p args l rows : step_rows p args l = inr rows → existsb no_clock rows = true → cr_Now args = 0.
Proof.
  intros Hr. revert rows Hr. induction l as [|s l IH]; intros rows; cbn; [by intros [= <-]|].
  destruct (step_row p args s) as [|x] eqn:Hx; [done|]. destruct (step_rows p args l) as [|xs]; [done|].
  intros [= <-]. cbn. intros [Hz|?]%orb_true_iff; [|by eapply IH]. apply Z.eqb_eq in Hz. revert Hx Hz. unfold step_row.
  destruct (bool_decide _); [destruct (ResolveAgentStep _ s); [done|]|]; by intros [= <-].
Qed.

(** An insert is refused for one of these reasons, or writes the rows of the plan. *)
Lemma insert_run_cases def p args d : db_inv d → planGraph def = inr p →
  (∃ e d1, insert_run p args d = (Fail e, d1) ∧ insert_refused p args d e) ∨
  ∃ rows, step_rows p args (Steps def) = inr rows ∧ existsb (is_run (cr_RunID args)) (runs d) = false ∧
    token_taken (nullableText (cr_IdempotencyToken args)) d = false ∧
    definition_known (cr_DefinitionID args) d = true ∧ deadline def (cr_Now args) ≠ None ∧
    insert_run p args d = announce p args (inserted d p args rows).
Proof.
  intros H Hplan. pose proof (planGraph_spec _ _ Hplan) as (Ed & _).
  destruct (insert_run p args d) as [res d'] eqn:E. revert E. unfold insert_run, guard, CreateRunRow. rewrite Ed.
  destruct (deadline def (cr_Now args)) eqn:Hd.
  2:{ rewrite bool_decide_eq_false_2 by (by intros [? ?]). intros [= <- <-]. left. eexists _, _. split; [done|].
      apply ir_deadline. by rewrite Ed. }
  rewrite bool_decide_eq_true_2 by eauto. unfold bind at 1, ret at 1, bind at 1 2, get at 1.
  destruct (run_violation (run_row p args)) eqn:Hv.
  { intros [= <- <-]. left. eexists _, _. split; [done|by apply ir_policy]. }
  change (run_IdempotencyToken (run_row p args)) with (nullableText (cr_IdempotencyToken args)).
  change (run_ID (run_row p args)) with (cr_RunID args).
  destruct (existsb (is_run (cr_RunID args)) (runs d)) eqn:Hf.
  { intros [= <- <-]. left. eexists _, _. split; [done|]. apply existsb_exists in Hf as (y & Hy & E%bool_decide_eq_true).
    apply (ir_id _ _ _ y); [by apply list_elem_of_In|done]. }
  destruct (token_taken (nullableText (cr_IdempotencyToken args)) d) eqn:Ht.
  { intros [= <- <-]. left. eexists _, _. split; [done|]. apply token_taken_spec in Ht as (? & y & ? & ?).
    by eapply ir_token. }
  destruct (definition_known (cr_DefinitionID args) d) eqn:Hk; cbn [negb].
  2:{ intros [= <- <-]. left. eexists _, _. split; [done|by apply ir_definition]. }
  unfold bind at 1, put at 1, ret at 1.
  destruct (step_rows p args (Steps def)) as [err|rows] eqn:Hrows.
  { intros [= <- <-]. left. eexists _, _. split; [done|]. apply (ir_agent _ _ _ err). by rewrite Ed. }
  pose proof (inserted_keys_steps d def p args rows H Hplan Hrows Hf) as K1.
  pose proof (inserted_keys_edges d def p args rows H Hplan Hf) as K2.
  unfold CreateBatch, bind at 1 2, get at 1. destruct (existsb no_clock rows) eqn:Hz.
  { intros [= <- <-]. left. eexists _, _. split; [done|]. apply ir_clock. by eapply new_rows_clock. }
  rewrite (new_rows_checked _ _ _ _ Hrows). cbn [run_steps].
  rewrite bool_decide_eq_true_2 by exact K1.
  unfold CreateEdgeBatch, put at 1, bind at 1 2, get at 1.
  destruct (violation edge_violation (edge_rows p args)) eqn:He.
  { intros [= <- <-]. left. eexists _, _. split; [done|by apply ir_decision]. }
  rewrite bool_decide_eq_true_2 by exact K2. unfold put at 1. intros E. right. exists rows.
  split_and!; try done. rewrite <-E. unfold announce. by rewrite Ed.
Qed.

Lemma insert_run_inv def p args d y d' :
  db_inv d → planGraph def = inr p → insert_run p args d = (Ok y, d') → db_inv d'.
Proof.
  intros H Hplan E. destruct (insert_run_cases def p args d H Hplan) as [(e & d1 & E' & _)|(rows & Hrows & Hf & _ & _ & _ & E')];
    [congruence|]. rewrite E' in E.
  assert (db_inv (inserted d p args rows)) as H1 by (by eapply inserted_inv).
  eapply tx_steps_inv; [exact H1|]. by eapply announce_sequenced.
Qed.

Lemma CreateDefinitionRow_ok row d a d' : CreateDefinitionRow row d = (Ok a, d') →
  ∃ l, d' = d <| workflow_definitions := l |>.
Proof.
  unfold CreateDefinitionRow, bind at 1, get, guard. destruct (1 <=? wd_Version row); [|done].
  unfold bind at 1, ret at 1. do 2 (destruct (existsb _ _); [done|]). intros [= _ <-]. eauto.
Qed.
(** Registering a definition touches no run. *)
Lemma inv_definitions d l : db_inv d → db_inv (d <| workflow_definitions := l |>).
Proof. intros H. split; try apply H. intros y Hy. destruct (inv_run _ H y Hy). by split. Qed.
