(* ===== verification/Expand.v ===== *)
(** internal/store/expand.go: [ExpandRun], the splice of a validated delta into a
    running graph inside the origin's completion transaction.

    The column expansion_caps is the struct it decodes to, and the policies of a
    decoded step always marshal; the error paths of the two are for corrupt rows
    and values outside these types. *)
From S2P Require Import Prelude Issues GoStd Retry StoreModel Config Template Transitions Dag Validate ValidateGraph Expansion Instantiate.
Open Scope Z_scope.

Record ExpandRunArgs : Type := mkExpandRunArgs {
  er_RunID : uuid;
  er_Origin : ExpansionOrigin;
  er_Plan : PlanOutput;
  er_MaxAddedSteps : Z;               (** 0: no override *)
  er_Trace : TraceContext;
  er_DepthOverride : option Z;
  er_Now : time
}.
Record ExpandRunResult : Type := mkExpandRunResult {
  xr_GraphVersion : Z; xr_Readied : list string; xr_Widened : list string }.

(** ** Reading the graph *)

Definition anchorStatus (st : StepStatus) : ExpansionAnchorStatus :=
  match st with
  | StepStatusPending => AnchorPending
  | StepStatusReady | StepStatusRunning | StepStatusRetrying => AnchorActive
  | _ => AnchorTerminal
  end.
(** The anchor of one row: the origin is active whatever its status. *)
Definition anchor_of (originStepID : string) (s : RunStep) : ExpansionAnchor :=
  mkExpansionAnchor (step_StepType s)
    (if bool_decide (step_StepID s = originStepID) then AnchorActive else anchorStatus (step_Status s))
    (has_status StepStatusSucceeded s).
Definition buildAnchors (steps : list RunStep) (originStepID : string) : gmap string ExpansionAnchor :=
  fold_left (λ m s, <[step_StepID s := anchor_of originStepID s]> m) steps ∅.

Definition toDagEdges (edges : list RunEdge) : list Edge :=
  (λ e, mkLoopEdge (edge_FromStep e) (edge_ToStep e) (default "" (edge_WhenExpr e)) (edge_EdgeType e)
          (default "" (edge_Condition e)) (default 0 (edge_MaxIterations e)) "" None "") <$> edges.

(** The column holds what instantiation marshalled, a whole [ExpansionCaps]. *)
Definition resolveExpansionCaps (raw : option ExpansionCaps) : ExpansionCaps :=
  match raw with None => Resolve None | Some caps => caps end.

Definition expansion_input (args : ExpandRunArgs) (run : Run) (origin : RunStep) (steps : list RunStep)
    (edges : list RunEdge) : ExpansionInput :=
  let caps := resolveExpansionCaps (run_ExpansionCaps run) in
  let most := MaxAddedStepsPerExpansion caps in
  mkExpansionInput (er_Plan args)
    (mkExpansionOrigin (xo_Kind (er_Origin args)) (xo_StepID (er_Origin args))
       (default (env_Depth (step_Envelope origin)) (er_DepthOverride args)))
    (buildAnchors steps (xo_StepID (er_Origin args))) (toDagEdges edges) (run_Params run)
    (if (0 <? er_MaxAddedSteps args) && (er_MaxAddedSteps args <? most) then er_MaxAddedSteps args else most)
    caps (zlen steps) (run_GraphVersion run - 1).

(** ** Writing the delta *)

(** The incoming normal edges of the injected steps, and the dependencies that
    the pending anchors gain. *)
Definition splice_counts (delta : gset string) (es : list Edge) : gmap string Z * gmap string Z :=
  fold_left (λ (m : gmap string Z * gmap string Z) e,
    if IsLoop e then m
    else if bool_decide (To e ∈ delta) then (<[To e := default 0 (m.1 !! To e) + 1]> m.1, m.2)
    else (m.1, <[To e := default 0 (m.2 !! To e) + 1]> m.2)) es (∅, ∅).

(** The depth of the injected steps: int32(baseDepth) + 1. *)
Definition injectedDepth (baseDepth : Z) : Z := int32 (int32 baseDepth + 1).

(** The rows of the injected steps. *)
Definition injected_row (args : ExpandRunArgs) (inp : ExpansionInput) (run : Run) (indegree : gmap string Z)
    (step : Step) : RunStep :=
  let remaining := default 0 (indegree !! ID step) in
  stepRowParams (run_ID run) step
    (mkPlacement (if remaining =? 0 then StepStatusReady else StepStatusPending) remaining (run_GraphVersion run + 1)
       (injectedDepth (xo_Depth (xi_Origin inp))) (Some (xo_StepID (er_Origin args))) (Some (xo_Kind (er_Origin args))))
    (er_Now args).

(** MaxRunEdgeOrdinal: COALESCE(MAX(ordinal), -1). *)
Definition max_ordinal (r : uuid) (l : list RunEdge) : Z :=
  foldr (λ e m, if bool_decide (edge_RunID e = r) then Z.max (edge_Ordinal e) m else m) (-1) l.
Definition MaxRunEdgeOrdinal (r : uuid) : Tx Z := let! d := get in ret (max_ordinal r (run_edges d)).

Definition spliced_edges (args : ExpandRunArgs) (run : Run) (maxOrdinal : Z) : list RunEdge :=
  imap (λ i e, edgeRowParams (run_ID run) e (maxOrdinal + 1 + Z.of_nat i) (run_GraphVersion run + 1)
                 (Some (xo_StepID (er_Origin args))) (Some (xo_Kind (er_Origin args))))
    (po_Edges (er_Plan args)).

Definition AddRunStepRemainingDeps (r : uuid) (s : string) (delta : Z) (now : time) : Tx (option RunStep) :=
  update_step r s (has_status StepStatusPending)
    (λ x, x <| step_RemainingDeps := step_RemainingDeps x + delta |> <| step_UpdatedAt := now |>).
Definition widen (r : uuid) (grown : gmap string Z) (now : time) (id : string) : Tx unit :=
  let! row := AddRunStepRemainingDeps r id (default 0 (grown !! id)) now in
  match row with None => throw (ErrBookkeeping id) | Some _ => ret tt end.

Definition ExpandRunGraph (r : uuid) (added expectedVersion : Z) : Tx (option Run) :=
  update_run r (λ x, run_GraphVersion x =? expectedVersion)
    (λ x, x <| run_GraphVersion := run_GraphVersion x + 1 |> <| run_StepsTotal := run_StepsTotal x + added |>).

(** ** ExpandRun *)

(** The bookkeeping of an accepted delta. *)
Definition deltaIndegree (plan : PlanOutput) : gmap string Z :=
  (splice_counts (list_to_set (ID <$> po_Steps plan)) (po_Edges plan)).1.
Definition widenExisting (plan : PlanOutput) : gmap string Z :=
  (splice_counts (list_to_set (ID <$> po_Steps plan)) (po_Edges plan)).2.
Definition readied_steps (plan : PlanOutput) : list string :=
  ID <$> List.filter (λ s, default 0 (deltaIndegree plan !! ID s) =? 0) (po_Steps plan).

(** The writes: rows, edges, widened anchors, the run row, events, dispatches. *)
Definition apply_delta (args : ExpandRunArgs) (run : Run) (inp : ExpansionInput) : Tx ExpandRunResult :=
  let runID := er_RunID args in
  let plan := er_Plan args in
  CreateBatch (injected_row args inp run (deltaIndegree plan) <$> po_Steps plan) ;;
  let! maxOrdinal := MaxRunEdgeOrdinal runID in
  let edgeRows := spliced_edges args run maxOrdinal in
  (when negb (bool_decide (length edgeRows = 0%nat)) then CreateEdgeBatch edgeRows) ;;
  let widened := sortedKeys (widenExisting plan) in
  for_each widened (widen runID (widenExisting plan) (er_Now args)) ;;
  let! bumped := ExpandRunGraph runID (zlen (po_Steps plan)) (run_GraphVersion run) in
  match bumped with
  | None => throw (ErrGraphVersion (run_GraphVersion run))
  | Some bumped =>
      appendEvent runID (GraphExpandedEv (xo_StepID (er_Origin args)) (xo_Kind (er_Origin args)) (run_GraphVersion run)
                           (run_GraphVersion bumped) (injectedDepth (xo_Depth (xi_Origin inp))) (marshalPlan plan)
                           (readied_steps plan) widened) ;;
      for_each (readied_steps plan) (λ id, appendEvent runID (StepReadyEv id)) ;;
      for_each (readied_steps plan) (λ id, CreateOutboxTask runID id OutboxReasonStepReady (er_Trace args)) ;;
      ret (mkExpandRunResult (run_GraphVersion bumped) (readied_steps plan) widened)
  end.

Section expand.
Context (CompileExpr : string → exprResult) (textTemplateParses : list outSeg → bool).

Definition ExpandRun (args : ExpandRunArgs) : Tx ExpandRunResult :=
  let runID := er_RunID args in
  transitionQueries (er_Now args) ;;
  guard (negb (bool_decide (xo_StepID (er_Origin args) = ""))) (ErrBadArgs "empty origin step id") ;;
  guard (negb (bool_decide (xo_Kind (er_Origin args) = ""))) (ErrBadArgs "empty origin kind") ;;
  let! locked := lockRun runID in
  guard (bool_decide (run_Status locked = RunStatusRunning) || bool_decide (run_Status locked = RunStatusParked))
    (ErrTransition (mkTransitionError EntityRun runID "" (RunSt (run_Status locked)) (RunSt (run_Status locked))
                      ConflictRunNotRunning None None)) ;;
  let! run := GetRun runID in
  let! origin := GetRunStep runID (xo_StepID (er_Origin args)) in
  let! steps := ListByRun runID in
  let! edges := ListEdgesByRun runID in
  let inp := expansion_input args run origin steps edges in
  let verdict := ValidateExpansion CompileExpr textTemplateParses inp in
  guard (OK verdict) (ErrExpansionRejected verdict) ;;
  apply_delta args run inp.
End expand.
