(* ===== verification/DagProps.v ===== *)
(** Properties of the workflow graph (internal/dag) and of run instantiation
    (internal/store/instantiate.go). *)
From stdpp Require Import relations.
From S2P Require Import Prelude StoreModel Transitions Effects StoreInv StoreSpecs EdgeSpecs StoreSystem StoreTheorems Config Dag GraphFacts ReadyFacts Decode Instantiate.
Open Scope nat_scope.

(** The normal edges of a definition, between step ids. *)
Definition edge_rel (d : Definition_) (a b : string) : Prop :=
  ∃ ed, ed ∈ Edges d ∧ IsLoop ed = false ∧ From ed = a ∧ To ed = b.

Lemma tc_flip {A} (R : relation A) x y : tc (flip R) x y → tc R y x.
Proof. induction 1 as [x y H|x y z H _ IH]; [by apply tc_once|by eapply tc_r]. Qed.

(** The position in a list without repetitions is a ranking. *)
Lemma position_ranks {A} `{EqDecision A} (l : list A) : NoDup l →
  ∃ rank : A → nat, ∀ l1 a l2 b, l = l1 ++ a :: l2 → b ∈ l2 → rank a < rank b.
Proof.
  intros Hnd. assert (∀ i a, l !! i = Some a → list_find (eq a) l = Some (i, a)) as Hf.
  { intros i a Hi. apply list_find_Some. split_and!; [done..|]. intros j y Hj Hlt <-.
    pose proof (NoDup_lookup _ _ _ _ Hnd Hi Hj). lia. }
  exists (λ a, default 0 (fst <$> list_find (eq a) l)). intros l1 a l2 b El [j Hj]%list_elem_of_lookup.
  rewrite (Hf (length l1) a), (Hf (length l1 + S j) b).
  - cbn. lia.
  - rewrite El, lookup_app_r, Nat.add_comm, Nat.add_sub by lia. done.
  - by rewrite El, list_lookup_middle.
Qed.

(** ** Steps by index and by id *)
Section ids.
Context (d : Definition_) (g : Graph) (G : graph_of d g).
Abbreviation n := (length (Steps d)).

Lemma out_rel u p x : Steps d !! u = Some x →
p ∈ toIdx g <$> out_of g u ↔ ∃ y, Steps d !! p = Some y ∧ edge_rel d (ID x) (ID y).
Proof.
intros Hu. rewrite list_elem_of_fmap. split.
- intros (e & -> & [(ed & He & Hl) Hf]%(elem_of_out d g G)); [|by eapply lookup_lt_Some].
  destruct (toIdx_spec d g G e ed He) as (y & Hy & Ey). destruct (fromIdx_spec d g G e ed He) as (x' & Hx' & Ex).
  exists y. split; [done|]. exists ed. split_and!; [by eapply list_elem_of_lookup_2|done| |done].
  rewrite <-Ex. congruence.
- intros (y & Hy & ed & [e He]%list_elem_of_lookup & Hl & Ef & Et). exists e.
  destruct (toIdx_spec d g G e ed He) as (y' & Hy' & Ey). destruct (fromIdx_spec d g G e ed He) as (x' & Hx' & Ex).
  split; [eapply (step_unique d g G); [done..|congruence]|].
  apply (elem_of_out d g G); [by eapply lookup_lt_Some|]. split; [by exists ed|].
  eapply (step_unique d g G); [done..|congruence].
Qed.
Lemma in_rel u p x : Steps d !! u = Some x →
p ∈ fromIdx g <$> in_of g u ↔ ∃ y, Steps d !! p = Some y ∧ edge_rel d (ID y) (ID x).
Proof.
intros Hu. rewrite list_elem_of_fmap. split.
- intros (e & -> & [(ed & He & Hl) Hf]%(elem_of_in d g G)); [|by eapply lookup_lt_Some].
  destruct (toIdx_spec d g G e ed He) as (y & Hy & Ey). destruct (fromIdx_spec d g G e ed He) as (x' & Hx' & Ex).
  exists x'. split; [done|]. exists ed. split_and!; [by eapply list_elem_of_lookup_2|done|done|].
  rewrite <-Ey. congruence.
- intros (y & Hy & ed & [e He]%list_elem_of_lookup & Hl & Ef & Et). exists e.
  destruct (toIdx_spec d g G e ed He) as (y' & Hy' & Ey). destruct (fromIdx_spec d g G e ed He) as (x' & Hx' & Ex).
  split; [eapply (step_unique d g G); [done..|congruence]|].
  apply (elem_of_in d g G); [by eapply lookup_lt_Some|]. split; [by exists ed|].
  eapply (step_unique d g G); [done..|congruence].
Qed.

(** Closing a relation on ids along the indices. *)
Lemma tc_ids (next : nat → list nat) (Q : string → string → Prop) :
(∀ a b, Q a b → b ∈ ID <$> Steps d) →
(∀ u p x, Steps d !! u = Some x → p ∈ next u ↔ ∃ y, Steps d !! p = Some y ∧ Q (ID x) (ID y)) →
∀ u p x y, Steps d !! u = Some x → Steps d !! p = Some y →
  tc (λ u p, p ∈ next u) u p ↔ tc Q (ID x) (ID y).
Proof.
intros Hkn Hnext u p x y Hu Hp. split.
- intros Ht. revert x Hu. induction Ht as [u p H|u v p H _ IH]; intros x Hu.
  + destruct (proj1 (Hnext u p x Hu) H) as (y' & Hy' & HQ). apply tc_once. congruence.
  + destruct (proj1 (Hnext u v x Hu) H) as (z & Hz & HQ). eapply tc_l; [exact HQ|]. by apply IH.
- intros Ht. remember (ID x) as a eqn:Ea. remember (ID y) as b eqn:Eb.
  revert u x Hu Ea. induction Ht as [a b HQ|a c b HQ _ IH]; intros u x Hu ->; subst.
  + apply tc_once, (Hnext u p x Hu). eauto.
  + destruct (index_of d g G c (Hkn _ _ HQ)) as (v & z & _ & Hz & <-).
    eapply tc_l; [apply (Hnext u v x Hu); eauto|]. by eapply IH.
Qed.

Lemma rel_known a b : edge_rel d a b → a ∈ ID <$> Steps d ∧ b ∈ ID <$> Steps d.
Proof. intros (ed & He & _ & <- & <-). by apply (go_ends _ _ G). Qed.

Lemma id_set_spec (X : gset nat) v x : (∀ w, w ∈ X → w < n) → Steps d !! v = Some x →
ID x ∈ id_set g X ↔ v ∈ X.
Proof.
intros HX Hv. unfold id_set. rewrite elem_of_list_to_set, list_elem_of_fmap.
assert (∀ w z, Steps d !! w = Some z → step_at g w = z) as Hat
  by (intros w z Hz; unfold step_at; by rewrite (go_def _ _ G), Hz).
split.
- intros (w & Ew & Hw%elem_of_elements). destruct (lookup_lt_is_Some_2 (Steps d) w (HX w Hw)) as [z Hz].
  rewrite (Hat w z Hz) in Ew. by rewrite (step_unique d g G v w x z).
- intros Hin. exists v. rewrite (Hat v x Hv). split; [done|]. by apply elem_of_elements.
Qed.

Lemma bfs_index (next : nat → list nat) (Q : string → string → Prop) u x :
(∀ u p x, Steps d !! u = Some x → p ∈ next u ↔ ∃ y, Steps d !! p = Some y ∧ Q (ID x) (ID y)) →
Steps d !! u = Some x →
(∀ v, v ∈ bfs next (S n) ∅ [u] ↔ tc (λ u p, p ∈ next u) u v) ∧ ∀ v, v ∈ bfs next (S n) ∅ [u] → v < n.
Proof.
intros Hnext Hu.
assert (∀ u p, u < n → p ∈ next u → p < n) as Hrg.
{ intros v p [z Hz]%lookup_lt_is_Some_2 Hp. apply (Hnext v p z Hz) in Hp as (y & Hy & _).
  by eapply lookup_lt_Some. }
pose proof (bfs_spec next n Hrg u (lookup_lt_Some _ _ _ Hu) (S n) ∅ [u]) as Hb.
assert (∀ v, v ∈ bfs next (S n) ∅ [u] ↔ tc (λ u p, p ∈ next u) u v) as Hbfs.
{ apply Hb; [|rewrite size_empty; cbn; lia].
  split; [by intros ? ?%elem_of_empty|set_solver|]. intros w p [->|?] Hw; set_solver. }
clear Hb. split; [done|]. intros v Hv%Hbfs. apply tc_rtc in Hv. revert Hv.
generalize (lookup_lt_Some _ _ _ Hu) as Hlt. clear -Hrg. intros Hlt Ht. revert Hlt.
induction Ht as [|a b c' Hab _ IH]; eauto.
Qed.
Lemma bfs_ids (next : nat → list nat) (Q : string → string → Prop) u x :
(∀ a b, Q a b → b ∈ ID <$> Steps d) →
(∀ u p x, Steps d !! u = Some x → p ∈ next u ↔ ∃ y, Steps d !! p = Some y ∧ Q (ID x) (ID y)) →
Steps d !! u = Some x →
∀ id, id ∈ id_set g (bfs next (S n) ∅ [u]) ↔ tc Q (ID x) id.
Proof.
intros Hkn Hnext Hu id. destruct (bfs_index next Q u x Hnext Hu) as [Hbfs HX].
destruct (decide (id ∈ ID <$> Steps d)) as [(y & -> & [v Hv]%list_elem_of_lookup)%list_elem_of_fmap|Hno].
- rewrite (id_set_spec _ v y HX Hv), Hbfs. by apply tc_ids.
- split.
  + intros (w & -> & Hw%elem_of_elements)%elem_of_list_to_set%list_elem_of_fmap. destruct Hno.
    apply HX in Hw. destruct (lookup_lt_is_Some_2 _ _ Hw) as [z Hz]. unfold step_at.
    rewrite (go_def _ _ G), Hz. cbn. apply list_elem_of_fmap_2. by eapply list_elem_of_lookup_2.
  + intros Ht. destruct Hno. destruct Ht as [a b HQ|a c b HQ Ht]; [by eapply Hkn|].
    clear HQ. induction Ht; eauto.
Qed.

(** The order, as ids. *)
Lemma ordered_ids ord : topoOrder g = (ord, true) →
let ids := (λ i, ID (step_at g i)) <$> ord in
ids ≡ₚ ID <$> Steps d ∧ ∀ a b, edge_rel d a b → ∃ l1 l2 l3, ids = l1 ++ a :: l2 ++ b :: l3.
Proof.
intros E. destruct (topoOrder_sound d g G ord E) as [Hp Hs]. cbv zeta. split.
- rewrite Hp. replace (ID <$> Steps d) with ((λ i, ID (step_at g i)) <$> seq 0 n); [done|].
  symmetry. apply (ids_seq d g G).
- intros a b (ed & [e He]%list_elem_of_lookup & Hl & <- & <-).
  destruct (toIdx_spec d g G e ed He) as (y & Hy & Ey). destruct (fromIdx_spec d g G e ed He) as (x & Hx & Ex).
  assert (toIdx g e ∈ ord) as Hin by (rewrite Hp, elem_of_seq; apply lookup_lt_Some in Hy; lia).
  apply list_elem_of_split in Hin as (l & l3 & El).
  assert (fromIdx g e ∈ l) as Hin by (eapply Hs; [exact El|by exists ed|done]).
  apply list_elem_of_split in Hin as (l1 & l2 & El').
  exists ((λ i, ID (step_at g i)) <$> l1), ((λ i, ID (step_at g i)) <$> l2), ((λ i, ID (step_at g i)) <$> l3).
  rewrite El, El', !fmap_app. cbn. rewrite <-app_assoc. cbn. unfold step_at.
  rewrite (go_def _ _ G), Hx, Hy. cbn. by rewrite Ex, Ey.
Qed.

(** The position of a step in the order is a ranking. *)
Lemma order_ranks : (topoOrder g).2 = true →
∃ rank : string → nat, ∀ a b, edge_rel d a b → rank a < rank b.
Proof.
destruct (topoOrder g) as [ord ok] eqn:E. cbn. intros ->.
destruct (ordered_ids ord E) as [Hp Hs]. cbv zeta in Hp, Hs.
destruct (position_ranks ((λ i, ID (step_at g i)) <$> ord)) as [rank Hr]; [rewrite Hp; apply G|].
exists rank. intros a b Hab. destruct (Hs a b Hab) as (l1 & l2 & l3 & El).
eapply Hr; [exact El|]. set_solver.
Qed.

Lemma ranked_order (rank : string → nat) :
(∀ a b, edge_rel d a b → rank a < rank b) → (topoOrder g).2 = true.
Proof.
intros Hr. apply (topoOrder_complete d g G (λ i, rank (ID (step_at g i)))).
intros e (ed & He & Hl). apply Hr.
destruct (toIdx_spec d g G e ed He) as (y & Hy & Ey). destruct (fromIdx_spec d g G e ed He) as (x & Hx & Ex).
exists ed. unfold step_at. rewrite (go_def _ _ G), Hx, Hy. cbn.
split_and!; [by eapply list_elem_of_lookup_2|done|done|done].
Qed.
End ids.

(** ** A concrete graph

    [a] feeds [b] and [c], [b] and [c] feed the join-any [j], and a loop edge
    leads back from [j] to [a]. *)
Module GraphDemo.
Definition noop (i : string) : Step := mkStep i "noop" None None None noPolicies.
Definition edge (a b : string) : Edge := mkEdge a b "" EdgeTypeNormal "".
Definition looped : Definition_ :=
plainDefinition "looped" ""
  [noop "a"; noop "b"; noop "c"; mkStep "j" StepJoin (Some (JoinConfigC JoinAny)) None None noPolicies]
  [edge "a" "b"; edge "a" "c"; edge "b" "j"; edge "c" "j"; mkEdge "j" "a" "" EdgeTypeLoop ""].
Definition graph : Graph :=
match NewGraph looped with inr g => g | inl _ => mkGraph looped ∅ [] [] [] end.
Lemma graph_ok : NewGraph looped = inr graph.
Proof. vm_compute. reflexivity. Qed.
Definition rank (s : string) : nat :=
if bool_decide (s = "a") then 0 else if bool_decide (s = "j") then 2 else 1.
Lemma rank_ok a b : edge_rel looped a b → rank a < rank b.
Proof.
intros (ed & He & Hl & <- & <-).
assert (forallb (λ ed, IsLoop ed || (rank (From ed) <? rank (To ed))) (Edges looped) = true) as Hall
  by (vm_compute; reflexivity).
rewrite forallb_forall in Hall. specialize (Hall ed). rewrite <-list_elem_of_In, Hl in Hall.
by apply Nat.ltb_lt, Hall.
Qed.
End GraphDemo.

(** ** Orders and reachability *)

(** C17: TopoOrder on a built graph either lists every step exactly once with the
    source of every normal edge before its target, or reports a cycle, and then
    no ranking of the steps increases along all the normal edges. *)
Theorem TopoOrder_correct d g : NewGraph d = inr g →
  match TopoOrder g with
  | inr ids =>
      ids ≡ₚ ID <$> Steps d ∧
      ∀ a b, edge_rel d a b → ∃ l1 l2 l3, ids = l1 ++ a :: l2 ++ b :: l3
  | inl err => err = ErrCycle ∧ ¬ ∃ rank : string → nat, ∀ a b, edge_rel d a b → rank a < rank b
  end.
Proof.
  intros G%NewGraph_spec. unfold TopoOrder. destruct (topoOrder g) as [ord []] eqn:E.
  - by apply (ordered_ids d g G).
  - split; [done|]. intros [rank Hr].
    pose proof (ranked_order d g G rank Hr) as E'. by rewrite E in E'.
Qed.
Lemma TopoOrder_correct_witness : NewGraph GraphDemo.looped = inr GraphDemo.graph ∧
  ["a"; "b"; "c"; "j"] ≡ₚ ID <$> Steps GraphDemo.looped.
Proof.
  split; [apply GraphDemo.graph_ok|].
  destruct (TopoOrder GraphDemo.graph) as [|ids] eqn:E; [vm_compute in E; discriminate|].
  pose proof (TopoOrder_correct GraphDemo.looped GraphDemo.graph GraphDemo.graph_ok) as T.
  rewrite E in T. assert (ids = ["a"; "b"; "c"; "j"]) as -> by (vm_compute in E; congruence).
  by destruct T.
Defined.

(** The sets of a known step. *)
Lemma reach_ids d g s : graph_of d g → s ∈ ID <$> Steps d →
  ∃ D A, Descendants g s = inr D ∧ Ancestors g s = inr A ∧
    (∀ id, id ∈ D ↔ tc (edge_rel d) s id) ∧ (∀ id, id ∈ A ↔ tc (edge_rel d) id s).
Proof.
  intros G Hs. unfold Descendants, Ancestors. rewrite (go_def _ _ G).
  apply (index_of d g G) in Hs as (u & x & -> & Hu & <-). eexists _, _. split_and!; [done..| |].
  - apply (bfs_ids d g G); [by intros a b [_ ?]%(rel_known d g G)|apply (out_rel d g G)|done].
  - intros id. rewrite (bfs_ids d g G _ (flip (edge_rel d)) u x); try done.
    + split; intros Ht; by apply tc_flip.
    + by intros a b [? _]%(rel_known d g G).
    + apply (in_rel d g G).
Qed.

(** Descendants and Ancestors of a known step are its transitive successors
    and predecessors over the normal edges (the step itself is included only if
    it lies on a cycle); an unknown step is an error. *)
Theorem reachable_sets d g s : NewGraph d = inr g →
  if decide (s ∈ ID <$> Steps d) then
    ∃ D A, Descendants g s = inr D ∧ Ancestors g s = inr A ∧
      (∀ id, id ∈ D ↔ tc (edge_rel d) s id) ∧ (∀ id, id ∈ A ↔ tc (edge_rel d) id s)
  else Descendants g s = inl (ErrUnknownStep s) ∧ Ancestors g s = inl (ErrUnknownStep s).
Proof.
  intros G%NewGraph_spec. case_decide as Hs; [by apply reach_ids|]. unfold Descendants, Ancestors.
  destruct (index g !! s) eqn:E; [|done]. destruct Hs. apply (index_known d g G). eauto.
Qed.
Lemma reachable_sets_witness : ∃ D, Descendants GraphDemo.graph "b" = inr D ∧
  ∀ id, id ∈ D ↔ tc (edge_rel GraphDemo.looped) "b" id.
Proof.
  pose proof (reachable_sets GraphDemo.looped GraphDemo.graph "b" GraphDemo.graph_ok) as T.
  rewrite decide_True in T by (vm_compute; set_solver). destruct T as (D & A & H1 & _ & H2 & _). by exists D.
Defined.

(** ** Readiness *)

(** C19: ReadySteps succeeds exactly on known, disjoint input sets over an acyclic
    graph; its two results list, in declaration order, the steps that may start
    (pending, not skipped, and either entry, or a fired edge with every edge
    resolved, or for a join-any just a fired edge) and the pending steps that
    skip propagation reaches (least fixed point over the normal edges). *)
Theorem ReadySteps_correct d g c s f : NewGraph d = inr g →
  match ReadySteps g c s f with
  | inr (ready, newly) =>
      valid_inputs d c s f ∧ (∃ rank : string → nat, ∀ a b, edge_rel d a b → rank a < rank b) ∧
      sublist ready (ID <$> Steps d) ∧ sublist newly (ID <$> Steps d) ∧
      (∀ x, x ∈ Steps d → ID x ∈ ready ↔ startable d c s f x) ∧
      (∀ x, x ∈ Steps d → ID x ∈ newly ↔ input_state c s f (ID x) = statePending ∧ skips d c s f (ID x))
  | inl _ => ¬ (valid_inputs d c s f ∧ ∃ rank : string → nat, ∀ a b, edge_rel d a b → rank a < rank b)
  end.
Proof.
  intros G%NewGraph_spec. destruct (ReadySteps g c s f) as [err|r] eqn:E.
  - intros [Hv [rank Hr]].
    destruct (ReadySteps_eval d g G c s f Hv) as (ready & newly & E' & _); [by eapply (ranked_order d g G)|].
    congruence.
  - destruct (ReadySteps_ok d g G c s f r E) as [Hv Ht].
    destruct (ReadySteps_eval d g G c s f Hv Ht) as (ready & newly & E' & H).
    rewrite E in E'. injection E' as ->. split; [done|]. split; [by apply (order_ranks d g G)|exact H].
Qed.
(** With [a] completed and [b] skipped, [c] may start and [j] waits. *)
Lemma ReadySteps_correct_witness :
  ReadySteps GraphDemo.graph {["a"]} {["b"]} ∅ = inr (["c"], []) ∧
  startable GraphDemo.looped {["a"]} {["b"]} ∅ (GraphDemo.noop "c").
Proof.
  assert (ReadySteps GraphDemo.graph {["a"]} {["b"]} ∅ = inr (["c"], [])) as E by (vm_compute; reflexivity).
  split; [exact E|].
  pose proof (ReadySteps_correct GraphDemo.looped GraphDemo.graph {["a"]} {["b"]} ∅ GraphDemo.graph_ok) as T.
  rewrite E in T. destruct T as (_ & _ & _ & _ & T & _). apply (T (GraphDemo.noop "c")).
  - apply list_elem_of_In. right. right. by left.
  - apply list_elem_of_here.
Defined.

(** ** Instantiation *)

Lemma no_skips d id : ¬ skips d ∅ ∅ ∅ id.
Proof. induction 1 as [id []%elem_of_empty|id ed _ _ He Hl Ht _ IH]. by eapply IH. Qed.

Lemma valid_empty d : valid_inputs d ∅ ∅ ∅.
Proof. split; [set_solver|]. split_and!; set_solver. Qed.

(** A plan exists exactly for the acyclic graphs; its entry steps are the steps
    without a normal incoming edge, in declaration order. *)
Lemma plan_entry d p : planGraph d = inr p →
  sublist (pl_entry p) (ID <$> Steps d) ∧
  ∀ st, st ∈ Steps d → ID st ∈ pl_entry p ↔ ∀ a, ¬ edge_rel d a (ID st).
Proof.
  unfold planGraph. destruct (NewGraph d) as [|g] eqn:Hg; [done|]. apply NewGraph_spec in Hg as G.
  destruct (ReadySteps g ∅ ∅ ∅) as [|[entry newly]] eqn:E; [done|]. destruct newly; [|done]. intros [= <-]. cbn.
  destruct (ReadySteps_ok d g G _ _ _ _ E) as [Hv Ht].
  destruct (ReadySteps_eval d g G _ _ _ Hv Ht) as (r & nw & E' & S1 & _ & M1 & _).
  rewrite E in E'. injection E' as <- <-. split; [done|]. intros st Hst. rewrite (M1 st Hst). unfold startable.
  split.
  - intros (_ & _ & [Hn|[(ed & _ & []%elem_of_empty) _]]). intros a (ed & He & Hl & _ & Hto). by apply (Hn ed).
  - intros Hn. split_and!; [done|apply no_skips|]. left. intros ed (He & Hl & Ht'). apply (Hn (From ed)).
    by exists ed.
Qed.

Lemma plan_exists d g (rank : string → nat) : NewGraph d = inr g →
  (∀ a b, edge_rel d a b → rank a < rank b) → ∃ p, planGraph d = inr p.
Proof.
  intros Hg Hr. apply NewGraph_spec in Hg as G. unfold planGraph. rewrite Hg.
  destruct (ReadySteps_eval d g G ∅ ∅ ∅ (valid_empty d)) as (r & nw & -> & _ & Hs & _ & M2);
    [by eapply (ranked_order d g G)|].
  destruct nw as [|x nw]; [eauto|]. exfalso.
  assert (x ∈ ID <$> Steps d) as (st & -> & Hst)%list_elem_of_fmap.
  { eapply elem_of_sublist, Hs. apply list_elem_of_here. }
  apply (no_skips d (ID st)). apply (M2 st Hst), list_elem_of_here.
Qed.

Open Scope Z_scope.
(** Writing the events and dispatch rows of the new run. *)
Lemma for_each_appendEvent run x d (f : string → Payload) l : readable d run → ∀ e, row_changes e →
  for_each l (λ i, appendEvent (run_ID run) (f i)) (apply_effect run x e d) =
    (Ok tt, apply_effect run x (e <| ef_events := ef_events e ++ (f <$> l) |>) d).
Proof.
  intros R. induction l as [|i l IH]; intros e Hc; cbn [for_each fmap list_fmap].
  - rewrite app_nil_r. by destruct e.
  - unfold bind. rewrite (appendEvent_effect d run x R e (f i) Hc). rewrite IH by (split; apply Hc). cbn. by rewrite <-app_assoc.
Qed.
Lemma for_each_outbox r reason tr l : ∀ d,
  for_each l (λ i, CreateOutboxTask r i reason tr) d =
    (Ok tt, d <| task_outbox := task_outbox d ++
       ((λ i, mkTaskOutbox r i reason (nullableText (Parent tr)) (nullableText (State tr))) <$> l) |>).
Proof.
  induction l as [|i l IH]; intros d; cbn [for_each fmap list_fmap].
  - rewrite app_nil_r. by destruct d.
  - unfold bind at 1, CreateOutboxTask at 1, bind at 1, get, put. rewrite IH. cbn. by rewrite <-app_assoc.
Qed.

Lemma set_row_last {A} (q : A → bool) f l x : existsb q l = false → q x = true → set_row q f (l ++ [x]) = l ++ [f x].
Proof.
  intros Hl%existsb_false Hx. unfold set_row. rewrite map_app. cbn. rewrite Hx. f_equal. by apply set_row_ne.
Qed.

Lemma announce_eval d p args rows def : db_inv d → planGraph def = inr p →
  step_rows p args (Steps def) = inr rows → existsb (is_run (cr_RunID args)) (runs d) = false →
  let d1 := inserted d p args rows in
  let evs := stamp (cr_RunID args) 0
    (RunCreated (Name def) (cr_DefinitionID args) (Z.of_nat (length (Steps def))) ::
     (StepReadyEv <$> pl_entry p)) in
  ∃ d', announce p args d1 = (Ok (run_row p args), d') ∧
    run_steps d' = run_steps d ++ rows ∧ run_edges d' = run_edges d ++ edge_rows p args ∧
    events d' = events d ++ evs ∧ tx_events d' = tx_events d ++ evs ∧
    task_outbox d' = task_outbox d ++
      ((λ i, mkTaskOutbox (cr_RunID args) i OutboxReasonStepReady
               (nullableText (Parent (cr_Trace args))) (nullableText (State (cr_Trace args)))) <$> pl_entry p) ∧
    ∃ k, runs d' = runs d ++ [advance k (run_row p args)].
Proof.
  intros H Hp Hrows Hf d1 evs. pose proof (inserted_inv d def p args rows H Hp Hrows Hf) as H1.
  assert (pl_def p = def) as Ed by (by apply planGraph_spec in Hp as [? _]).
  assert (readable d1 (run_row p args)) as R.
  { eapply inv_readable_run; [done|]. apply (find_key run_ID is_run is_run_key); [apply H1|]. cbn. set_solver. }
  set (x := stepRowParams 1 (mkStep "" "" None None None noPolicies) (mkPlacement StepStatusReady 0 1 0 None None) 0).
  unfold announce. rewrite Ed. rewrite <-(apply_idle d1 (run_row p args) x).
  unfold bind at 1. rewrite (appendEvent_effect d1 (run_row p args) x R) by done.
  unfold bind at 1. rewrite (for_each_appendEvent (run_row p args)) by done.
  unfold bind at 1. rewrite for_each_outbox. unfold ret. eexists. split; [done|]. cbn.
  split_and!; try done; [rewrite set_row_id; [done|]; by intros []|]. eexists.
  rewrite set_row_last; [done|done|]. unfold is_run. by rewrite bool_decide_eq_true_2.
Qed.

