(* ===== verification/CycleProps.v ===== *)
(** Cycle reporting and reachability of internal/dag/graph.go, between step ids. *)
From stdpp Require Import relations.
From S2P Require Import Prelude StoreModel Config Dag GraphFacts Cycles ReadyFacts Instantiate DagProps.
Open Scope nat_scope.

Section ids.
Context (d : Definition_) (g : Graph) (G : graph_of d g).
Abbreviation n := (length (Steps d)).
Abbreviation ident i := (ID (step_at g i)).

Lemma step_at_lookup i : i < n → Steps d !! i = Some (step_at g i).
Proof.
  intros [x Hx]%lookup_lt_is_Some_2. unfold step_at. by rewrite (go_def _ _ G), Hx.
Qed.
Lemma ident_inj i j : i < n → j < n → ident i = ident j → i = j.
Proof. intros Hi Hj E. eapply (step_unique d g G); [by apply step_at_lookup..|done]. Qed.

(** [reaches] is the transitive closure of the normal edges. *)
Lemma reaches_spec u v x y : Steps d !! u = Some x → Steps d !! v = Some y →
  reaches g u v = true ↔ tc (edge_rel d) (ID x) (ID y).
Proof.
  intros Hu Hv. unfold reaches. rewrite (go_def _ _ G), reach_loop_bfs by set_solver.
  rewrite bool_decide_eq_true.
  destruct (bfs_index d g G _ _ u x (out_rel d g G) Hu) as [Hbfs _]. rewrite Hbfs.
  apply (tc_ids d g G _ _ ltac:(by intros a b [_ ?]%(rel_known d g G)) (out_rel d g G)); done.
Qed.

(** An arc between indices is an edge between ids. *)
Lemma arc_rel u v : u < n → arc g u v → edge_rel d (ident u) (ident v).
Proof.
  intros Hu (e & He & <-). destruct (proj1 (out_rel d g G u (toIdx g e) _ (step_at_lookup u Hu))) as (y & Hy & Hr).
  { apply list_elem_of_fmap. eauto. }
  unfold step_at at 2. by rewrite (go_def _ _ G), Hy.
Qed.

(** The edge of an adjacency list. *)
Lemma out_edge u e : u < n → e ∈ out_of g u →
  ∃ ed, Edges d !! e = Some ed ∧ IsLoop ed = false ∧ From ed = ident u ∧ To ed = ident (toIdx g e) ∧ toIdx g e < n.
Proof.
  intros Hu [(ed & He & Hl) Hf]%(elem_of_out d g G); [|done]. exists ed.
  destruct (toIdx_spec d g G e ed He) as (y & Hy & Ey). destruct (fromIdx_spec d g G e ed He) as (x & Hx & Ex).
  unfold step_at. rewrite (go_def _ _ G), Hy, <-Hf, Hx. split_and!; try done. by eapply lookup_lt_Some.
Qed.

(** A reported cycle, as ids: a simple path of normal edges that the reported
    edge closes. *)
Definition reports_cycle (c : cycleFinding) : Prop := ∃ ed path,
  Edges d !! edgeIdx c = Some ed ∧ IsLoop ed = false ∧
  cpath c = path ++ [To ed] ∧ head path = Some (To ed) ∧ last path = Some (From ed) ∧ NoDup path ∧
  ∀ l1 a b l2, cpath c = l1 ++ a :: b :: l2 → edge_rel d a b.

Lemma chain_range l : chain g l → (∀ u, last l = Some u → u < n) → (∀ i, head l = Some i → i < n) → Forall (λ i, i < n) l.
Proof.
  intros Hc Hlast Hhead. apply Forall_forall. intros i (l1 & l2 & ->)%list_elem_of_split.
  destruct l1 as [|a l1 _] using rev_ind; [by apply Hhead|].
  eapply (arc_range d g G a). eapply (Hc l1 a i l2). by rewrite <-app_assoc.
Qed.

Lemma cycle_finding_ids c : cycle_finding d g c → reports_cycle c.
Proof.
  intros (ns & t & u & Ec & Hh & Hl & Hu & He & Ht & Hch & Hnd).
  destruct (out_edge u _ Hu He) as (ed & Hed & Hloop & Ef & Et & Htn).
  assert (Forall (λ i, i < n) ns) as Hrg.
  { apply chain_range; [done| |]; intros ? ?; simplify_eq; done. }
  exists ed, ((λ i, ident i) <$> ns). rewrite Ec, fmap_app, Et, Ef, Ht.
  split_and!; try done.
  - destruct ns; simplify_eq/=; done.
  - by rewrite fmap_last, Hl.
  - apply NoDup_fmap_2_strong; [|done]. intros i j Hi Hj. rewrite Forall_forall in Hrg. apply ident_inj; auto.
  - intros l1 a b l2 E.
    change ([ident t]) with ((λ i, ident i) <$> [t]) in E. rewrite <-fmap_app in E.
    apply last_Some in Hl as [ns' ->].
    assert (chain g ((ns' ++ [u]) ++ [t])) as Hc2 by (apply chain_snoc; [done|by exists (edgeIdx c)]).
    apply fmap_app_inv in E as (k1 & k2 & _ & E & Ens). 
    symmetry in E. apply fmap_cons_inv in E as (i & k3 & -> & E & ->).
    symmetry in E. apply fmap_cons_inv in E as (j & k4 & -> & _ & ->). apply arc_rel; [|by eapply Hc2].
    assert (i ∈ k1 ++ i :: j :: k4) as Hi by set_solver. rewrite <-Ens in Hi.
    apply elem_of_app in Hi as [Hi|Hi]; [|apply list_elem_of_singleton in Hi as ->; by rewrite <-Ht]. rewrite Forall_forall in Hrg. auto.
Qed.

(** The edges that are not reported admit a ranking. *)
Lemma unreported_ranked : ∃ rank : string → nat, ∀ i ed, Edges d !! i = Some ed → IsLoop ed = false →
  i ∉ edgeIdx <$> findCycles g → rank (From ed) < rank (To ed).
Proof.
  destruct (findCycles_spec d g G) as [_ (fin & Hnd & Hall & Hout)].
  destruct (position_ranks fin Hnd) as [rank Hr].
  exists (λ s, rank (default 0 (index g !! s))). intros e ed He Hl Hno.
  destruct (toIdx_spec d g G e ed He) as (y & Hy & Ey). destruct (fromIdx_spec d g G e ed He) as (x & Hx & Ex).
  assert (fromIdx g e ∈ fin) as (l1 & l2 & El)%list_elem_of_split by (apply Hall; by eapply lookup_lt_Some).
  assert (e ∈ out_of g (fromIdx g e)) as Hin
    by (apply (elem_of_out d g G); [by eapply lookup_lt_Some|]; split; [by exists ed|done]).
  destruct (Hout l1 _ l2 El e Hin) as [Hin'|Hin']; [|done].
  replace (default 0 (index g !! From ed)) with (fromIdx g e) by (unfold fromIdx, edge_at; by rewrite (go_def _ _ G), He).
  replace (default 0 (index g !! To ed)) with (toIdx g e) by (unfold toIdx, edge_at; by rewrite (go_def _ _ G), He).
  by eapply Hr.
Qed.

Lemma acyclic_ranked : findCycles g = [] → ∃ rank : string → nat, ∀ a b, edge_rel d a b → rank a < rank b.
Proof.
  intros E. destruct unreported_ranked as [rank Hr]. rewrite E in Hr. exists rank.
  intros a b (ed & [i Hi]%list_elem_of_lookup & Hl & <- & <-). apply (Hr i ed Hi Hl). set_solver.
Qed.
Lemma acyclic_order : findCycles g = [] → ∃ order, TopoOrder g = inr order.
Proof.
  intros [rank Hr]%acyclic_ranked. pose proof (ranked_order d g G rank Hr) as Hord. unfold TopoOrder.
  destruct (topoOrder g) as [ord []]; [by eexists|done].
Qed.

(** A cycle admits no ranking. *)
Lemma reported_unranked c (rank : string → nat) : reports_cycle c → ¬ ∀ a b, edge_rel d a b → rank a < rank b.
Proof.
  intros (ed & path & _ & _ & Ec & Hh & _ & _ & Hrel) Hr.
  destruct path as [|a path]; [done|]. injection Hh as ->. rewrite Ec in Hrel. clear Ec c.
  assert (∀ p s, (∀ l1 a b l2, s :: p ++ [To ed] = l1 ++ a :: b :: l2 → edge_rel d a b) → rank s < rank (To ed)) as Hp.
  { induction p as [|b p IH]; intros s Hs.
    - apply Hr. by apply (Hs [] s (To ed) []).
    - etrans; [apply Hr; by apply (Hs [] s b (p ++ [To ed]))|]. apply IH. intros l1 x y l2 E.
      apply (Hs (s :: l1) x y l2). cbn. by rewrite <-E. }
  specialize (Hp path (To ed) Hrel). lia.
Qed.
End ids.

(** C33: cycle reporting is exact.  Every finding of findCycles names a normal edge
    and a simple path of normal edges that this edge closes into the printed
    cycle; the edges it does not name admit a ranking of the steps, so marking
    the named edges as loop edges makes the graph acyclic; and nothing is
    reported exactly when TopoOrder succeeds. *)
Theorem findCycles_correct d g : NewGraph d = inr g →
  (∀ c, c ∈ findCycles g → reports_cycle d c) ∧
  (∃ rank : string → nat, ∀ i ed, Edges d !! i = Some ed → IsLoop ed = false →
     i ∉ edgeIdx <$> findCycles g → rank (From ed) < rank (To ed)) ∧
  (findCycles g = [] ↔ ∃ order, TopoOrder g = inr order).
Proof.
  intros G%NewGraph_spec. pose proof (findCycles_spec d g G) as [Hc _].
  assert (∀ c, c ∈ findCycles g → reports_cycle d c) as Hrep by (intros c Hin; apply (cycle_finding_ids d g G); auto).
  destruct (unreported_ranked d g G) as [rank Hr]. split_and!; [done|by exists rank|]. split; [apply (acyclic_order d g G)|].
  unfold TopoOrder.
  - intros [order E]. pose proof (order_ranks d g G) as Hord. destruct (topoOrder g) as [ord []]; [|done].
    destruct (Hord eq_refl) as [rank' Hr']. destruct (findCycles g) as [|c l] eqn:Ef; [done|].
    exfalso. eapply (reported_unranked d c rank'); [|done]. apply Hrep. set_solver.
Qed.
Module CycleDemo.
(** a → b → c → a and b → d, with a second way round from c to b. *)
Definition tangled : Definition_ :=
plainDefinition "tangled" "" (GraphDemo.noop <$> ["a"; "b"; "c"; "d"])
  [GraphDemo.edge "a" "b"; GraphDemo.edge "b" "c"; GraphDemo.edge "c" "a"; GraphDemo.edge "b" "d"; GraphDemo.edge "c" "b"].
Definition graph : Graph := match NewGraph tangled with inr g => g | inl _ => mkGraph tangled ∅ [] [] [] end.
End CycleDemo.
Lemma findCycles_correct_witness :
  findCycles CycleDemo.graph =
    [mkCycleFinding 2 ["a"; "b"; "c"; "a"]; mkCycleFinding 4 ["b"; "c"; "b"]] ∧
  ¬ ∃ order, TopoOrder CycleDemo.graph = inr order.
Proof.
  assert (NewGraph CycleDemo.tangled = inr CycleDemo.graph) as E by (vm_compute; reflexivity).
  assert (findCycles CycleDemo.graph =
    [mkCycleFinding 2 ["a"; "b"; "c"; "a"]; mkCycleFinding 4 ["b"; "c"; "b"]]) as F by (vm_compute; reflexivity).
  split; [exact F|]. intros H. destruct (findCycles_correct _ _ E) as (_ & _ & T).
  apply T in H. rewrite F in H. discriminate H.
Defined.
