(* ===== verification/ValidateFacts.v ===== *)
(** What an issue list without errors says: the calculus of the checks, and the
    facts [Validate] establishes of the definitions it accepts. *)
From Stdlib Require Import QArith Ascii.
From stdpp Require Import relations.
From S2P Require Import Prelude Issues GoStd Retry StoreModel Config Template Feedback Dag GraphFacts Cycles Validate ValidateGraph ReadyFacts Instantiate DagProps CycleProps.
Open Scope Z_scope.

#[local] Arguments add : simpl never.
#[local] Arguments add_if : simpl never.

(** ** Error-free issue lists *)

Definition clean (l : list ValidationIssue) : Prop := err l = [].

Lemma clean_nil : clean [].
Proof. done. Qed.
Lemma clean_app l1 l2 : clean (l1 ++ l2) ↔ clean l1 ∧ clean l2.
Proof.
  unfold clean, err. rewrite List.filter_app. split; [apply app_eq_nil|by intros [-> ->]].
Qed.
Lemma clean_add c p : ¬ clean (add c p).
Proof. done. Qed.
Lemma clean_add_if b c p : clean (add_if b c p) ↔ b = false.
Proof. unfold add_if. destruct b; [split; [by intros ?%clean_add|done]|done]. Qed.
Lemma clean_concat ls : clean (concat ls) ↔ ∀ l, l ∈ ls → clean l.
Proof.
  induction ls as [|l ls IH]; cbn; [split; [by intros _ ? ?%not_elem_of_nil|done]|].
  rewrite clean_app, IH. split; [intros [? ?] x [->|?]%elem_of_cons; auto|]. intros H. split; [|intros]; apply H; set_solver.
Qed.
Lemma clean_for_range {A} (l : list A) f : clean (for_range l f) ↔ ∀ i x, l !! i = Some x → clean (f i x).
Proof.
  unfold for_range. rewrite clean_concat. split.
  - intros H i x Hi. apply H. apply list_elem_of_lookup. exists i. by rewrite list_lookup_imap, Hi.
  - intros H y (i & Hi)%list_elem_of_lookup. rewrite list_lookup_imap in Hi.
    destruct (l !! i) as [x|] eqn:E; [|done]. injection Hi as <-. by apply H.
Qed.
Lemma clean_fmap {A} (l : list A) f : clean (concat (f <$> l)) ↔ ∀ x, x ∈ l → clean (f x).
Proof.
  rewrite clean_concat. split; [intros H x Hx; apply H, list_elem_of_fmap; eauto|].
  intros H ? (x & -> & Hx)%list_elem_of_fmap. auto.
Qed.

(** Reading a clean list of checks. *)
Ltac cleaned H :=
  repeat match type of H with
  | clean (_ ++ _) => let H' := fresh in apply clean_app in H as [H' H]; cleaned H'
  | clean (add_if _ _ _) => apply clean_add_if in H
  | clean (add _ _) => by destruct (clean_add _ _ H)
  end.

(** ** Warnings

    The only warning is the isolated step; so an error-free list carries none of
    the codes the graph checks are gated on. *)
Definition error_or_isolated (i : ValidationIssue) : Prop :=
  issue_Severity i = SeverityError ∨ Code i = CodeIsolatedStep.
Definition hard (l : list ValidationIssue) : Prop := Forall error_or_isolated l.

Lemma hard_nil : hard [].
Proof. constructor. Qed.
Lemma hard_app l1 l2 : hard l1 → hard l2 → hard (l1 ++ l2).
Proof. intros. by apply Forall_app. Qed.
Lemma hard_add c p : hard (add c p).
Proof. repeat constructor. Qed.
Lemma hard_add_if b c p : hard (add_if b c p).
Proof. destruct b; [apply hard_add|apply hard_nil]. Qed.
Lemma hard_concat ls : (∀ l, l ∈ ls → hard l) → hard (concat ls).
Proof.
  induction ls as [|l ls IH]; intros H; cbn; [apply hard_nil|].
  apply hard_app; [apply H; set_solver|]. apply IH. intros. apply H. set_solver.
Qed.
Lemma hard_for_range {A} (l : list A) f : (∀ i x, hard (f i x)) → hard (for_range l f).
Proof.
  intros H. apply hard_concat. intros y (i & Hi)%list_elem_of_lookup. rewrite list_lookup_imap in Hi.
  destruct (l !! i); [|done]. injection Hi as <-. apply H.
Qed.
Lemma hard_fmap {A} (l : list A) f : (∀ x, hard (f x)) → hard (concat (f <$> l)).
Proof. intros H. apply hard_concat. by intros ? (x & -> & _)%list_elem_of_fmap. Qed.

Lemma clean_has codes l : hard l → clean l → CodeIsolatedStep ∉ codes → has codes l = false.
Proof.
  intros Hs Hc Hno. apply not_true_iff_false. intros (i & Hi & Hcode%bool_decide_eq_true)%existsb_exists.
  apply list_elem_of_In in Hi. unfold hard in Hs. rewrite Forall_forall in Hs.
  destruct (Hs i Hi) as [E|E]; [|by rewrite E in Hcode].
  assert (i ∈ err l) as Hin; [|by rewrite Hc in Hin; apply not_elem_of_nil in Hin].
  apply list_elem_of_In, filter_In. split; [by apply list_elem_of_In|by apply bool_decide_eq_true].
Qed.

Create HintDb issues.
#[export] Hint Resolve hard_nil hard_add hard_add_if : issues.
Ltac issues :=
  repeat (cbv zeta; first
    [ solve [auto 1 with issues nocore]
    | apply hard_app
    | apply hard_for_range; intros ? ?
    | apply hard_fmap; intros ?
    | case_match ]).

Lemma check_duration_hard c p v b : hard (check_duration c p v b).
Proof. unfold check_duration. issues. Qed.
#[export] Hint Resolve check_duration_hard : issues.
Lemma check_retry_on_hard p l : ∀ i seen, hard (check_retry_on p i l seen).
Proof. induction l; intros; cbn; issues. Qed.
Lemma check_writes_hard p l : ∀ i seen, hard (check_writes p i l seen).
Proof. induction l; intros; cbn; issues. Qed.
Lemma check_decisions_hard p l : ∀ i seen, hard (check_decisions p i l seen).
Proof. induction l; intros; cbn; issues. Qed.
Lemma check_fallbacks_hard p b l : ∀ i seen prev, hard (check_fallbacks p b i l seen prev).
Proof. induction l; intros; cbn; issues. Qed.
#[export] Hint Resolve check_retry_on_hard check_writes_hard check_decisions_hard check_fallbacks_hard : issues.
Lemma checkRetry_hard p r : hard (checkRetry p r).
Proof.
  assert (∀ p v b, hard (checkBackoffDuration p v b).1) as Hb 
    by (intros; unfold checkBackoffDuration; repeat case_match; cbn; issues).
  unfold checkRetry. destruct r as [r|]; [|issues]. destruct (Backoff r) as [b|]; [|issues].
  pose proof (Hb ((p +:+ ".retry") +:+ ".backoff.initial") (Initial b) MaxBackoffInitial) as H1.
  pose proof (Hb ((p +:+ ".retry") +:+ ".backoff.cap") (Cap b) MaxBackoffCap) as H2. cbv zeta.
  destruct (checkBackoffDuration _ (Initial b) _), (checkBackoffDuration _ (Cap b) _). issues.
Qed.
#[export] Hint Resolve checkRetry_hard : issues.

Lemma check_strategies_hard p l : ∀ i seen, hard (check_strategies p i l seen).
Proof. induction l; intros; cbn [check_strategies]; unfold check_strategy, checkSummarizeStrategy; issues. Qed.
Lemma forbid_hard p s l : hard (forbidContextFields p s l).
Proof. unfold forbidContextFields. issues. Qed.
#[export] Hint Resolve check_strategies_hard forbid_hard : issues.
Lemma check_sources_hard p l : ∀ i seen, hard (check_sources p i l seen).
Proof. induction l; intros; cbn [check_sources]; unfold checkContextSource, check_source_kind; issues. Qed.
#[export] Hint Resolve check_sources_hard : issues.
Lemma checkContext_hard p s : hard (checkContext p s).
Proof. unfold checkContext, checkCompaction. issues. Qed.
Lemma checkValidation_hard p s : hard (checkValidation p s).
Proof. unfold checkValidation, checkSemanticPolicy. issues. Qed.
Lemma checkFallbacks_hard d p s : hard (checkModelFallbacks d p s).
Proof. unfold checkModelFallbacks. issues. Qed.
Lemma checkOutputFormat_hard p s : hard (checkOutputFormat p s).
Proof. unfold checkOutputFormat. issues. Qed.
Lemma checkLLMConfig_hard p m q l : hard (checkLLMConfig p m q l).
Proof. unfold checkLLMConfig. issues. Qed.
#[export] Hint Resolve checkContext_hard checkValidation_hard checkFallbacks_hard checkOutputFormat_hard
  checkLLMConfig_hard : issues.
Lemma checkStepConfig_hard p s : hard (checkStepConfig p s).
Proof. unfold checkStepConfig, checkHumanApproval. issues. Qed.
#[export] Hint Resolve checkStepConfig_hard : issues.
Lemma check_step_hard d p s t : hard (check_step d p s t).
Proof. unfold check_step, checkTimeout, checkCache, checkStepBudget, checkBlackboard. issues. Qed.
#[export] Hint Resolve check_step_hard : issues.
Lemma check_steps_hard d l : ∀ i seen, hard (check_steps d i l seen).
Proof. induction l; intros; cbn [check_steps]; issues. Qed.
Lemma check_template_steps_hard d b l : ∀ i seen, hard (check_template_steps d b i l seen).1.
Proof.
  induction l as [|s l IH]; intros i seen; cbn [check_template_steps]; [issues|]. cbv zeta.
  specialize (IH (S i) (ID s :: seen)). destruct (check_template_steps _ _ _ _ _). cbn [fst] in *. issues.
Qed.
#[export] Hint Resolve check_steps_hard check_template_steps_hard : issues.

Section hard.
Context (CompileExpr : string → exprResult) (textTemplateParses : list outSeg → bool).

Lemma checkExpr_hard p e : hard (checkExpr CompileExpr p e).
Proof.
  unfold checkExpr. case_match; try issues.
  apply hard_concat. intros l [-> _]%elem_of_replicate. apply hard_add.
Qed.
#[local] Hint Resolve checkExpr_hard : issues.
Lemma loop_fields_hard p e : hard (check_loop_fields CompileExpr p e).
Proof. unfold check_loop_fields. issues. Qed.
Lemma check_when_hard p e : hard (check_when CompileExpr p e).
Proof. unfold check_when. issues. Qed.
Lemma normal_fields_hard p e : hard (check_normal_fields p e).
Proof. unfold check_normal_fields. issues. Qed.
#[local] Hint Resolve loop_fields_hard check_when_hard normal_fields_hard : issues.
Lemma checkGraph_hard d ix : hard (checkGraph d ix).
Proof.
  unfold checkGraph, warn. issues. apply Forall_singleton. by right.
Qed.
Lemma check_step_templates_hard d g b p s : hard (check_step_templates textTemplateParses d g b p s).
Proof. unfold check_step_templates, template_problem, check_ref. issues. Qed.
#[local] Hint Resolve checkGraph_hard check_step_templates_hard : issues.
Lemma check_template_hard d name t : hard (check_template CompileExpr textTemplateParses d name t).
Proof.
  unfold check_template, check_template_edges, checkExpansionEdgeFields, checkTemplateGraph, checkTemplateRefs, check_cycles.
  destruct t as [t|]; [|issues]. cbv zeta. case_match; [issues|].
  pose proof (check_template_steps_hard d ("templates." +:+ name) (tm_Steps t) 0 []) as H1.
  destruct (check_template_steps _ _ _ _ _). cbn [fst] in H1. issues.
Qed.
#[local] Hint Resolve check_template_hard : issues.

(** The issues the gate looks at. *)
Definition before_gate (d : Definition_) : list ValidationIssue :=
  checkLimits d ++ checkMaxWallClock (MaxWallClock d) ++ checkRunBudget d ++ checkExpansion d ++ (checkSteps d).1 ++
  checkEdges CompileExpr d (checkSteps d).2 ++ checkApprovals d (checkSteps d).2 ++ checkGraph d (checkSteps d).2 ++
  checkTemplateSection CompileExpr textTemplateParses d ++ checkMaps d ++ checkAgents d.
Lemma before_gate_hard d : hard (before_gate d).
Proof.
  unfold before_gate, checkLimits, checkMaxWallClock, checkRunBudget, checkExpansion, checkSteps, checkEdges, checkApprovals,
    checkTemplateSection, checkMaps, checkAgents, check_role, check_agent_step. cbn [fst snd]. issues.
Qed.

(** An accepted definition passed every check, the graph checks included. *)
Lemma Validate_clean d : clean (Validate CompileExpr textTemplateParses d) →
  clean (before_gate d) ∧
  ∀ g, NewGraph d = inr g →
    clean (checkGraphSemantics d g) ∧ clean (checkTemplates textTemplateParses d g) ∧ clean (checkContextGraph d g).
Proof.
  unfold Validate. fold (before_gate d). change (checkSteps d) with ((checkSteps d).1, (checkSteps d).2).
  fold (before_gate d). intros [Hb Hg]%clean_app. split; [done|]. intros g E.
  rewrite (clean_has _ _ (before_gate_hard d) Hb), E in Hg by set_solver.
  rewrite !clean_app in Hg. tauto.
Qed.
End hard.
