(* ===== verification/WellFormed.v ===== *)
(** The definitions [Validate] accepts: a declarative account of what a workflow
    definition must satisfy to run, and the proof that acceptance implies it. *)
From Stdlib Require Import QArith Ascii.
From stdpp Require Import relations.
From S2P Require Import Prelude Issues GoStd Retry StoreModel Config Template Feedback Dag GraphFacts Cycles Validate ValidateGraph ReadyFacts Instantiate DagProps CycleProps ValidateFacts.
Open Scope Z_scope.

(** ** Well-formedness *)

(** A resolved retry policy the engine can follow: a bounded number of attempts,
    durations that parse with [initial ≤ cap], a multiplier in [1,100], and only
    the retryable classes. *)
Record retry_ok (p : ResolvedRetryPolicy) : Prop := mkRetryOk {
  rty_attempts : 1 ≤ rp_MaxAttempts p ≤ MaxRetryAttempts;
  rty_backoff : ∃ i c, ParseDuration (Initial (rp_Backoff p)) = Some i ∧ ParseDuration (Cap (rp_Backoff p)) = Some c ∧
    0 < i ≤ c ∧ i ≤ MaxBackoffInitial ∧ c ≤ MaxBackoffCap;
  rty_multiplier : (1 <= Multiplier (rp_Backoff p) <= MaxBackoffMultiplier)%Q;
  rty_jitter : rp_Jitter p = JitterFull ∨ rp_Jitter p = JitterNone;
  rty_classes : rp_RetryOn p ≠ [] ∧ rp_RetryOn p ⊆ [ClassTransient; ClassTimeout]
}.

(** A call the model provider can be given. *)
Definition callable (model prompt : string) (messages : list LLMMessage) : Prop :=
  model ≠ "" ∧ (prompt = "" ↔ messages ≠ []).

(** The normal edges that leave a step, in declaration order. *)
Definition outgoing (d : Definition_) (id : string) : list Edge :=
  List.filter (λ e, negb (IsLoop e) && bool_decide (From e = id)) (Edges d).

(** What each step type needs of its config. *)
Definition config_ok (d : Definition_) (s : Step) : Prop :=
  if is_type StepLLM s then ∃ c, Config s = Some (LLMConfigC c) ∧ callable (llm_Model c) (llm_Prompt c) (llm_Messages c)
  else if is_type StepPlanner s then
    ∃ c, Config s = Some (PlannerConfigC c) ∧ callable (pn_Model c) (pn_Prompt c) (pn_Messages c)
  else if is_type StepAgent s then
    ∃ s' c, ResolveAgentStep d s = inr s' ∧ Config s' = Some (AgentConfigC c) ∧
      callable (ac_Model c) (ac_Prompt c) (ac_Messages c)
  else if is_type StepMap s then
    ∃ c t g, Config s = Some (MapConfigC c) ∧ Templates d !! map_Body c = Some (Some t) ∧
      NewGraph (plainDefinition "" "" (tm_Steps t) (tm_Edges t)) = inr g ∧
      (∃ order, TopoOrder g = inr order) ∧ ∃ sink, sinks g = [sink]
  else if is_type StepJoin s then ∃ m, Config s = Some (JoinConfigC m) ∧ m ≠ ""
  else if is_type StepBranch s then
    ∃ es e, outgoing d (ID s) = es ++ [e] ∧ ∀ e', e' ∈ es → When e' ≠ ""
  else if is_type StepHumanApproval s then
    ha_OnReject (cfg_approval s) = ApprovalRejectRoute ↔
    ∃ e, e ∈ outgoing d (ID s) ∧ Decision e = ApprovalReject
  else True.

Section wf.
Context (CompileExpr : string → exprResult) (textTemplateParses : list outSeg → bool).

(** The references of a step's config all resolve: strict ones name an upstream
    step or a declared parameter. *)
Definition refs_ok (d : Definition_) (s : Step) : Prop := ∀ c, Config s = Some c →
  ∃ ts refs, ParseConfigTemplates textTemplateParses (marshalConfig c) = inr (ts, refs) ∧
  ∀ r, r ∈ refs → Lenient r = false → ItemRef r = false ∧
    (StepID r ≠ "" → tc (edge_rel d) (StepID r) (ID s)) ∧
    (StepID r = "" → ParamKey r ≠ "" → is_Some (Params d !! ParamKey r)).
Definition sources_ok (d : Definition_) (s : Step) : Prop := ∀ cs src, Context_ s = Some cs → src ∈ ctx_Sources cs →
  src_Kind src = SourceStepOutput → tc (edge_rel d) (src_Step src) (ID s).

Record well_formed (d : Definition_) : Prop := mkWellFormed {
  wf_size : 1 ≤ zlen (Steps d) ≤ MaxSteps ∧ zlen (Edges d) ≤ MaxEdges;
  wf_ids : NoDup (ID <$> Steps d);
  wf_steps : ∀ s, s ∈ Steps d → stepIDRe (ID s) = true ∧ Type_ s ∈ stepConfigTypes;
  wf_ends : ∀ e, e ∈ Edges d → From e ∈ ID <$> Steps d ∧ To e ∈ ID <$> Steps d;
  wf_acyclic : ∃ rank : string → nat, ∀ a b, edge_rel d a b → (rank a < rank b)%nat;
  wf_entry : ∃ s, s ∈ Steps d ∧ ∀ a, ¬ edge_rel d a (ID s);
  wf_loops : ∀ e, e ∈ Edges d → IsLoop e = true →
    tc (edge_rel d) (To e) (From e) ∧ 1 ≤ MaxIterations e ≤ MaxLoopIterations ∧ CompileExpr (Condition e) = ExprOK;
  wf_when : ∀ e, e ∈ Edges d → IsLoop e = false → When e = "" ∨ CompileExpr (When e) = ExprOK;
  wf_config : ∀ s, s ∈ Steps d → config_ok d s;
  wf_retry : ∀ s, s ∈ Steps d → retry_ok (ResolveRetryPolicy (sp_Retry (Policies s)));
  wf_refs : ∀ s, s ∈ Steps d → refs_ok d s;
  wf_sources : ∀ s, s ∈ Steps d → sources_ok d s;
  wf_deadline : MaxWallClock d = "" ∨ ∃ t, ParseDuration (MaxWallClock d) = Some t ∧ 0 < t ≤ MaxRunWallClock
}.
End wf.

(** ** Single checks *)

Lemma empty_str_spec s : empty_str s = false ↔ s ≠ "".
Proof. unfold empty_str. by rewrite bool_decide_eq_false. Qed.

Lemma check_duration_clean c p v b : clean (check_duration c p v b) → ∃ t, ParseDuration v = Some t ∧ 0 < t ≤ b.
Proof.
  unfold check_duration. destruct (ParseDuration v) as [t|]; [|by intros ?%clean_add].
  destruct (t <=? 0) eqn:E; [by intros ?%clean_add|]. rewrite clean_add_if. intros H. exists t. split; [done|lia].
Qed.
Lemma checkBackoffDuration_clean p v b : clean (checkBackoffDuration p v b).1 →
  ∃ t, ParseDuration v = Some t ∧ 0 < t ≤ b ∧ (checkBackoffDuration p v b).2 = t.
Proof.
  unfold checkBackoffDuration. destruct (empty_str v); [by intros ?%clean_add|].
  destruct (ParseDuration v) as [t|]; [|by intros ?%clean_add].
  destruct (t <=? 0) eqn:E1; [by intros ?%clean_add|]. destruct (b <? t) eqn:E2; [by intros ?%clean_add|].
  intros _. exists t. split_and!; [done|lia|lia|done].
Qed.

Lemma check_retry_on_clean p l : ∀ i seen, clean (check_retry_on p i l seen) → l ⊆ [ClassTransient; ClassTimeout].
Proof.
  induction l as [|c l IH]; intros i seen; cbn [check_retry_on]; [by intros _ ? ?%not_elem_of_nil|]. cbv zeta.
  destruct (bool_decide (c ∈ seen)); [by intros [?%clean_add _]%clean_app|].
  rewrite clean_app. intros [Hc Hl%IH] x [->|Hx]%elem_of_cons; [|auto]. destruct c; try by apply clean_add in Hc.
  all: set_solver.
Qed.

(** The backoff block of checkRetry. *)
Lemma check_backoff_clean path b :
  clean (let '(is1, initial) := checkBackoffDuration (path +:+ ".backoff.initial") (Initial b) MaxBackoffInitial in
         let '(is2, ceiling) := checkBackoffDuration (path +:+ ".backoff.cap") (Cap b) MaxBackoffCap in
         is1 ++ is2 ++
         add_if ((0 <? initial) && (0 <? ceiling) && (ceiling <? initial)) CodeRetryFieldInvalid (path +:+ ".backoff.cap") ++
         add_if (negb (Qeq_bool (Multiplier b) 0) &&
                 (negb (Qle_bool 1 (Multiplier b)) || negb (Qle_bool (Multiplier b) MaxBackoffMultiplier)))
           CodeRetryFieldInvalid (path +:+ ".backoff.multiplier")) →
  (∃ i c, ParseDuration (Initial b) = Some i ∧ ParseDuration (Cap b) = Some c ∧
    0 < i ≤ c ∧ i ≤ MaxBackoffInitial ∧ c ≤ MaxBackoffCap) ∧
  (1 <= (if Qeq_bool (Multiplier b) 0 then DefaultBackoffMultiplier else Multiplier b) <= MaxBackoffMultiplier)%Q.
Proof.
  pose proof (checkBackoffDuration_clean (path +:+ ".backoff.initial") (Initial b) MaxBackoffInitial) as H1.
  pose proof (checkBackoffDuration_clean (path +:+ ".backoff.cap") (Cap b) MaxBackoffCap) as H2.
  destruct (checkBackoffDuration _ (Initial b) _) as [is1 i0], (checkBackoffDuration _ (Cap b) _) as [is2 c0].
  rewrite !clean_app, !clean_add_if. cbn [fst snd] in *. intros (C1 & C2 & Hlt & Hm).
  destruct (H1 C1) as (i & Ei & Bi & ->), (H2 C2) as (c & Ec & Bc & ->). split.
  - exists i, c. split_and!; try done; lia.
  - destruct (Qeq_bool (Multiplier b) 0); [by split|]. cbn in Hm. apply orb_false_elim in Hm as [M1 M2].
    apply negb_false_iff in M1, M2. by split; apply Qle_bool_iff.
Qed.

Lemma checkRetry_clean p r : clean (checkRetry p r) → retry_ok (ResolveRetryPolicy r).
Proof.
  assert (∃ i c, ParseDuration DefaultBackoffInitial = Some i ∧ ParseDuration DefaultBackoffCap = Some c ∧
    0 < i ≤ c ∧ i ≤ MaxBackoffInitial ∧ c ≤ MaxBackoffCap) as Hdef
    by (eexists _, _; split_and!; try (vm_compute; reflexivity); vm_compute; done).
  destruct r as [r|]; cbn [checkRetry ResolveRetryPolicy]; cbv zeta.
  2: { intros _. split; cbn; try done; auto. }
  rewrite !clean_app, !clean_add_if. intros (Ha & Hj & Hb & Hn & Hon).
  apply orb_false_elim in Ha as [Ha1 Ha2]. split; cbn [rp_MaxAttempts rp_Backoff rp_Jitter rp_RetryOn].
  - destruct (MaxAttempts r =? 0) eqn:E; unfold DefaultRetryMaxAttempts, MaxRetryAttempts in *; lia.
  - destruct (Backoff r) as [b|]; [|done]. by apply check_backoff_clean in Hb as [? _].
  - destruct (Backoff r) as [b|]; [|done]. by apply check_backoff_clean in Hb as [_ ?].
  - unfold empty_str in Hj. destruct (decide (Jitter r = "")) as [E|E]; [by rewrite bool_decide_eq_true_2; [left|]|].
    rewrite (bool_decide_eq_false_2 _ E) in *. cbn in Hj.
    apply negb_false_iff, bool_decide_eq_true in Hj. set_solver.
  - apply bool_decide_eq_false in Hn. apply check_retry_on_clean in Hon.
    destruct (RetryOn r) as [l|]; cbn in *; [|by split; [done|set_solver]]. split; [congruence|done].
Qed.

Lemma checkLLMConfig_clean p model prompt l : clean (checkLLMConfig p model prompt l) → callable model prompt l.
Proof.
  unfold checkLLMConfig. rewrite !clean_app, clean_add_if, empty_str_spec. intros (Hm & Hc & _). split; [done|].
  unfold empty_str in Hc. destruct (decide (prompt = "")) as [->|Hp], l as [|m l]; cbn in Hc.
  - by apply clean_add in Hc.
  - done.
  - rewrite (bool_decide_eq_false_2 _ Hp) in Hc. naive_solver.
  - rewrite (bool_decide_eq_false_2 _ Hp) in Hc. by apply clean_add in Hc.
Qed.

(** ** Steps *)

Lemma check_steps_clean d l : ∀ i seen, clean (check_steps d i l seen) →
  NoDup (ID <$> l) ∧ (∀ s, s ∈ l → ID s ∉ seen) ∧
  ∀ j s, l !! j = Some s → stepIDRe (ID s) = true ∧ Type_ s ∈ stepConfigTypes ∧
    clean (check_step d (at_index "steps" (i + j)) s (negb (is_type StepHumanApproval s))).
Proof.
  induction l as [|s l IH]; intros i seen; cbn [check_steps].
  { intros _. split_and!; [constructor|by intros ? ?%not_elem_of_nil|done]. }
  cbv zeta. rewrite !clean_app, !clean_add_if. intros (Hid & Hdup & Hty & Hs & (Hnd & Hseen & Hall)%IH).
  apply bool_decide_eq_false in Hdup. apply negb_false_iff in Hid, Hty. apply bool_decide_eq_true in Hty.
  split_and!.
  - cbn. constructor; [|done]. intros (x & E & Hx)%list_elem_of_fmap. apply (Hseen x Hx). rewrite E. set_solver.
  - intros x [->|Hx]%elem_of_cons; [done|]. specialize (Hseen x Hx). set_solver.
  - intros [|j] x Hj; cbn in Hj.
    + injection Hj as <-. by rewrite Nat.add_0_r.
    + replace (i + S j)%nat with (S i + j)%nat by lia. by apply Hall.
Qed.

Lemma step_index_keys (l : list Step) : (imap (λ i s, (ID s, i)) l).*1 = ID <$> l.
Proof. rewrite fmap_imap. change (fst ∘ (λ i s, (ID s, i)) ?i) with ID. apply imap_const. Qed.
Lemma step_index_known l id : is_Some_b (step_index l !! id) = true ↔ id ∈ ID <$> l.
Proof.
  unfold step_index. destruct (list_to_map _ !! id) as [i|] eqn:E; cbn.
  - split; [|done]. intros _. rewrite <-step_index_keys. apply list_elem_of_fmap. exists (id, i). split; [done|].
    by apply elem_of_list_to_map_2.
  - split; [done|]. rewrite <-step_index_keys. by apply not_elem_of_list_to_map in E.
Qed.
Lemma step_index_lookup l id i : step_index l !! id = Some i → ∃ s, l !! i = Some s ∧ ID s = id.
Proof.
  intros H%elem_of_list_to_map_2. apply elem_of_lookup_imap in H as (j & s & [= -> ->] & Hj). eauto.
Qed.

(** The config of a step, by its type. *)
Ltac by_type E :=
  rewrite E; repeat match goal with
  | |- context [bool_decide (?a = ?b)] => rewrite (bool_decide_eq_false_2 (a = b)) by done
  end; rewrite bool_decide_eq_true_2 by done; cbv zeta.

Lemma checkStepConfig_llm p s : Type_ s = StepLLM → clean (checkStepConfig p s) →
  ∃ c, Config s = Some (LLMConfigC c) ∧ callable (llm_Model c) (llm_Prompt c) (llm_Messages c).
Proof.
  intros E. unfold checkStepConfig. by_type E. intros H%checkLLMConfig_clean. unfold cfg_llm in H.
  destruct (Config s) as [[]|]; try by destruct H. eauto.
Qed.
Lemma checkStepConfig_planner p s : Type_ s = StepPlanner → clean (checkStepConfig p s) →
  ∃ c, Config s = Some (PlannerConfigC c) ∧ callable (pn_Model c) (pn_Prompt c) (pn_Messages c).
Proof.
  intros E. unfold checkStepConfig. by_type E. intros H%checkLLMConfig_clean. unfold cfg_planner in H.
  destruct (Config s) as [[]|]; try by destruct H. eauto.
Qed.
Lemma checkStepConfig_agent p s : Type_ s = StepAgent → clean (checkStepConfig p s) →
  ∃ c, Config s = Some (AgentConfigC c) ∧ ac_Agent c ≠ "".
Proof.
  intros E. unfold checkStepConfig. by_type E. rewrite clean_add_if, empty_str_spec. unfold cfg_agent.
  destruct (Config s) as [[]|]; try done. eauto.
Qed.
Lemma checkStepConfig_map p s : Type_ s = StepMap → clean (checkStepConfig p s) →
  ∃ c, Config s = Some (MapConfigC c) ∧ map_Body c ≠ "".
Proof.
  intros E. unfold checkStepConfig. by_type E. rewrite !clean_app, !clean_add_if, empty_str_spec. unfold cfg_map.
  destruct (Config s) as [[]|]; try by intros [? _]. intros (_ & H & _). eauto.
Qed.
Lemma checkStepConfig_join p s : Type_ s = StepJoin → clean (checkStepConfig p s) →
  ∃ m, Config s = Some (JoinConfigC m) ∧ m ≠ "".
Proof.
  intros E. unfold checkStepConfig. by_type E. rewrite clean_add_if, empty_str_spec. unfold cfg_join.
  destruct (Config s) as [[]|]; try done. eauto.
Qed.

Lemma check_agent_clean d i s c : Type_ s = StepAgent → Config s = Some (AgentConfigC c) → ac_Agent c ≠ "" →
  clean (check_agent_step d i s) →
  ∃ s' c', ResolveAgentStep d s = inr s' ∧ Config s' = Some (AgentConfigC c') ∧
    callable (ac_Model c') (ac_Prompt c') (ac_Messages c').
Proof.
  intros Et Ec Hne%empty_str_spec. unfold check_agent_step, is_type. rewrite Et, Ec, Hne.
  rewrite bool_decide_eq_true_2 by done. cbn [negb]. cbv zeta.
  destruct (Agents d !! ac_Agent c) as [role|] eqn:Er; [|by intros ?%clean_add].
  destruct (ResolveAgentStep d s) as [|s'] eqn:Es; [by intros ?%clean_add|].
  rewrite clean_app. intros [Hm%checkLLMConfig_clean _]. exists s'.
  assert (∃ c', Config s' = Some (AgentConfigC c')) as [c' Ec'].
  { unfold ResolveAgentStep in Es. rewrite Et, Ec, Er in Es. repeat case_match; simplify_eq; cbn; eauto. }
  exists c'. unfold cfg_agent in Hm. rewrite Ec' in Hm. done.
Qed.

(** ** Graphs *)

Lemma clean_cycles base g : clean (check_cycles base g) → findCycles g = [].
Proof.
  unfold check_cycles. rewrite clean_fmap. destruct (findCycles g) as [|c l]; [done|].
  intros H. by destruct (clean_add CodeCycle (at_index base (edgeIdx c)) (H c (list_elem_of_here _ _))).
Qed.

Section edges.
Context (CompileExpr : string → exprResult) (textTemplateParses : list outSeg → bool).

Lemma checkExpr_clean p e : clean (checkExpr CompileExpr p e) → CompileExpr e = ExprOK.
Proof. unfold checkExpr. by destruct (CompileExpr e). Qed.

(** A template the section check passes. *)
Lemma check_template_steps_clean d base l : ∀ i seen, clean (check_template_steps d base i l seen).1 →
  NoDup (ID <$> l) ∧ (∀ s, s ∈ l → ID s ∉ seen ∧ stepIDRe (ID s) = true) ∧ (check_template_steps d base i l seen).2 = true.
Proof.
  induction l as [|s l IH]; intros i seen; cbn [check_template_steps].
  { intros _. split_and!; [constructor|by intros ? ?%not_elem_of_nil|done]. }
  cbv zeta. specialize (IH (S i) (ID s :: seen)). destruct (check_template_steps _ _ _ _ _) as [rest wf].
  cbn [fst snd] in *. rewrite !clean_app, !clean_add_if. intros (Hre & Hdup & _ & _ & (Hnd & Hseen & ->)%IH).
  rewrite Hdup. apply bool_decide_eq_false in Hdup. apply negb_false_iff in Hre. split_and!; [| |done].
  - cbn. constructor; [|done]. intros (x & E & Hx)%list_elem_of_fmap. apply (Hseen x Hx). rewrite E. set_solver.
  - intros x [->|Hx]%elem_of_cons; [done|]. specialize (Hseen x Hx). set_solver.
Qed.
Lemma endpoints_known l e : resolved (step_index l) e = true ↔ From e ∈ ID <$> l ∧ To e ∈ ID <$> l.
Proof. unfold resolved. by rewrite andb_true_iff, !step_index_known. Qed.

(** What the check leaves of a template: a body with local ids, the graph [g] of
    which is acyclic with a single sink, and checked references. *)
Definition template_def (t : Template) : Definition_ := plainDefinition "" "" (tm_Steps t) (tm_Edges t).
Record template_ok (d : Definition_) (t : Template) (g : Graph) : Prop := mkTemplateOk {
  to_steps : tm_Steps t ≠ [];
  to_ids : NoDup (ID <$> tm_Steps t);
  to_names : ∀ s, s ∈ tm_Steps t → stepIDRe (ID s) = true;
  to_ends : ∀ e, e ∈ tm_Edges t → From e ∈ ID <$> tm_Steps t ∧ To e ∈ ID <$> tm_Steps t;
  to_graph : NewGraph (template_def t) = inr g;
  to_acyclic : findCycles g = [];
  to_sink : ∃ sink, sinks g = [sink];
  to_refs : ∃ base, clean (checkTemplateRefs textTemplateParses d base (template_def t) g)
}.

Lemma check_template_clean d name t : clean (check_template CompileExpr textTemplateParses d name t) →
  ∃ t' g, t = Some t' ∧ template_ok d t' g.
Proof.
  unfold check_template. cbv zeta. rewrite clean_app. intros [_ H].
  destruct t as [t|]; [|by apply clean_add in H]. case_bool_decide as Hlen; [by apply clean_add in H|].
  pose proof (check_template_steps_clean d ("templates." +:+ name) (tm_Steps t) 0 []) as Hsteps.
  destruct (check_template_steps _ _ _ _ _) as [issues distinct]. cbn [fst snd] in Hsteps.
  rewrite !clean_app in H. destruct H as (Hi & Hed & Hg). destruct (Hsteps Hi) as (Hnd & Hnames & ->).
  unfold check_template_edges in Hed. rewrite clean_for_range in Hed.
  assert (∀ e, e ∈ tm_Edges t → resolved (step_index (tm_Steps t)) e = true) as Hends.
  { intros e [j Hj]%list_elem_of_lookup. specialize (Hed j e Hj). cbv zeta in Hed.
    rewrite !clean_app, !clean_add_if, !negb_false_iff in Hed. unfold resolved. by rewrite !(proj1 Hed), (proj1 (proj2 Hed)). }
  assert (forallb (resolved (step_index (tm_Steps t))) (tm_Edges t) = true) as Hall
    by (apply forallb_forall; intros e He; apply Hends; by apply list_elem_of_In).
  rewrite Hall in Hg. cbn [andb] in Hg. fold (template_def t) in Hg.
  destruct (NewGraph_total (template_def t)) as [g Eg]; [done|intros e He; by apply endpoints_known, Hends|].
  rewrite Eg in Hg. unfold checkTemplateGraph in Hg. rewrite !clean_app, clean_add_if, negb_false_iff in Hg.
  destruct Hg as (Hc%clean_cycles & _ & Hsink%bool_decide_eq_true & Hrefs). exists t, g. split; [done|]. split; try done.
  - intros E. by rewrite E in Hlen.
  - intros s Hs. by apply Hnames.
  - intros e He. by apply endpoints_known, Hends.
  - destruct (sinks g) as [|x [|]]; try done. eauto.
  - eauto.
Qed.
End edges.

(** ** Branches and approvals *)

Lemma outEdges_outgoing d id : id ∈ ID <$> Steps d → (outEdges d (step_index (Steps d)) id).*2 = outgoing d id.
Proof.
  intros Hid%step_index_known. unfold outEdges, outgoing.
  assert (∀ (l : list Edge) (f : nat → nat),
    (List.filter (λ ie, negb (IsLoop ie.2) && is_Some_b (step_index (Steps d) !! From ie.2) && bool_decide (From ie.2 = id))
       (imap (λ i e, (f i, e)) l)).*2 =
    List.filter (λ e, negb (IsLoop e) && bool_decide (From e = id)) l) as H; [|apply (H _ (λ i, i))].
  assert (∀ b e, b && is_Some_b (step_index (Steps d) !! From e) && bool_decide (From e = id) =
    b && bool_decide (From e = id)) as Hb.
  { intros b e. destruct (decide (From e = id)) as [E|E]; [by rewrite E, Hid, andb_true_r|].
    by rewrite !bool_decide_eq_false_2, !andb_false_r by done. }
  induction l as [|e l IH]; intros f; [done|]. cbn [imap List.filter snd]. specialize (IH (f ∘ S)). rewrite Hb.
  destruct (negb (IsLoop e) && bool_decide (From e = id)); cbn [fmap list_fmap snd]; [f_equal|]; exact IH.
Qed.

Lemma check_branch_clean d s i : Steps d !! i = Some s → Type_ s = StepBranch →
  clean (checkGraph d (step_index (Steps d))) →
  ∃ es e, outgoing d (ID s) = es ++ [e] ∧ ∀ e', e' ∈ es → When e' ≠ "".
Proof.
  intros Hi Et. unfold checkGraph. rewrite bool_decide_eq_false_2 by (apply lookup_lt_Some in Hi; lia).
  rewrite !clean_app. intros (_ & _ & H).
  rewrite clean_for_range in H. specialize (H i s Hi). unfold is_type in H. rewrite Et, bool_decide_eq_true_2 in H by done.
  cbn [negb] in H. cbv zeta in H.
  assert (ID s ∈ ID <$> Steps d) as Hs by (apply list_elem_of_fmap_2; by eapply list_elem_of_lookup_2).
  rewrite <-(outEdges_outgoing d (ID s) Hs). set (outs := outEdges _ _ _) in *.
  destruct outs as [|ie outs' _] using rev_ind; [by apply clean_add in H|].
  rewrite bool_decide_eq_false_2 in H by (rewrite length_app; cbn; lia). rewrite clean_for_range in H.
  exists (outs'.*2), ie.2. split; [by rewrite fmap_app|].
  intros e' (x & -> & [j Hj]%list_elem_of_lookup)%list_elem_of_fmap.
  specialize (H j x). rewrite clean_add_if in H. rewrite lookup_app_l in H by (by eapply lookup_lt_Some).
  specialize (H Hj). rewrite (bool_decide_eq_false_2 (S j = _)) in H.
  - rewrite andb_true_r in H. by apply empty_str_spec.
  - rewrite length_app. cbn. apply lookup_lt_Some in Hj. lia.
Qed.

Lemma elem_of_outgoing d id e : e ∈ outgoing d id ↔ e ∈ Edges d ∧ IsLoop e = false ∧ From e = id.
Proof.
  unfold outgoing. by rewrite list_elem_of_In, filter_In, <-list_elem_of_In, andb_true_iff, negb_true_iff, bool_decide_eq_true.
Qed.

Lemma approval_step_of d s : NoDup (ID <$> Steps d) → s ∈ Steps d → Type_ s = StepHumanApproval →
  approval_step d (step_index (Steps d)) (ID s) = Some s.
Proof.
  intros Hnd [i Hi]%list_elem_of_lookup Et. unfold approval_step.
  destruct (step_index (Steps d) !! ID s) as [j|] eqn:Ej.
  - apply step_index_lookup in Ej as (x & Hj & E). cbn. rewrite Hj.
    assert (i = j) as <- by (eapply (NoDup_lookup _ _ _ (ID s) Hnd); rewrite list_lookup_fmap; [by rewrite Hi|by rewrite Hj; cbn; rewrite E]).
    assert (x = s) as -> by congruence. unfold is_type. by rewrite bool_decide_eq_true_2.
  - assert (ID s ∈ ID <$> Steps d) as H%step_index_known by (apply list_elem_of_fmap_2; by eapply list_elem_of_lookup_2).
    by rewrite Ej in H.
Qed.

Lemma check_approvals_clean d s : NoDup (ID <$> Steps d) → s ∈ Steps d → Type_ s = StepHumanApproval →
  clean (checkApprovals d (step_index (Steps d))) →
  ha_OnReject (cfg_approval s) = ApprovalRejectRoute ↔ ∃ e, e ∈ outgoing d (ID s) ∧ Decision e = ApprovalReject.
Proof.
  intros Hnd Hs Et. pose proof (approval_step_of d s Hnd Hs Et) as Ha. unfold checkApprovals.
  rewrite clean_app, !clean_for_range. intros [H1 H2].
  assert (∀ e, IsLoop e = false → Decision e = ApprovalReject → From e = ID s →
    reject_source d (step_index (Steps d)) e = Some s) as Hsrc.
  { intros e Hl Hd Hf. unfold reject_source. by rewrite Hl, Hd, bool_decide_eq_true_2, Hf. }
  split.
  - intros Hr. apply list_elem_of_lookup in Hs as [i Hi]. specialize (H2 i s Hi). rewrite clean_add_if in H2.
    unfold is_type in H2. rewrite Et, Hr, !bool_decide_eq_true_2 in H2 by done. cbn in H2.
    apply negb_false_iff, existsb_exists in H2 as (e & He & [Hf%bool_decide_eq_true Hsome]%andb_prop).
    exists e. rewrite elem_of_outgoing, list_elem_of_In. unfold reject_source in Hsome.
    destruct (IsLoop e); [done|]. cbn in Hsome. destruct (decide (Decision e = ApprovalReject)); [done|].
    by rewrite bool_decide_eq_false_2 in Hsome.
  - intros (e & ([i Hi]%list_elem_of_lookup & Hl & Hf)%elem_of_outgoing & Hd).
    specialize (H1 i e Hi). rewrite (Hsrc e Hl Hd Hf), clean_add_if in H1.
    by apply negb_false_iff, bool_decide_eq_true in H1.
Qed.

(** ** Context sources *)

Lemma check_sources_clean p l : ∀ i seen, clean (check_sources p i l seen) →
  ∀ src, src ∈ l → ∃ entry, clean (check_source_kind entry src).
Proof.
  induction l as [|x l IH]; intros i seen; cbn [check_sources]; [by intros _ ? ?%not_elem_of_nil|]. cbv zeta.
  unfold checkContextSource. rewrite !clean_app. intros (_ & (_ & _ & _ & _ & Hk) & Hl) src [->|Hsrc]%elem_of_cons; eauto.
Qed.
Lemma checkContext_source p s cs src : Context_ s = Some cs → src ∈ ctx_Sources cs → src_Kind src = SourceStepOutput →
  clean (checkContext p s) → empty_str (src_Step src) = false.
Proof.
  intros Ec Hsrc Hk. unfold checkContext. rewrite Ec. cbv zeta. destruct (bool_decide _); [by intros ?%clean_add|].
  rewrite !clean_app. intros (_ & _ & Hs & _). destruct (check_sources_clean _ _ _ _ Hs src Hsrc) as [entry H].
  unfold check_source_kind in H. rewrite Hk in H. cbv zeta in H.
  rewrite (bool_decide_eq_true_2 (SourceStepOutput = SourceStepOutput)) in H by done. unfold empty_str in H at 1.
  rewrite (bool_decide_eq_false_2 (SourceStepOutput = "")) in H by done.
  apply clean_app in H as [H _]. by apply clean_add_if in H.
Qed.

(** ** Accepted definitions are well formed *)
Section accepted.
Context (CompileExpr : string → exprResult) (textTemplateParses : list outSeg → bool) (d : Definition_).
Context (Hacc : clean (Validate CompileExpr textTemplateParses d)).
Abbreviation ix := (step_index (Steps d)).

(** The checks before the gate, one by one. *)
Lemma accepted_parts :
  clean (checkLimits d) ∧ clean (checkMaxWallClock (MaxWallClock d)) ∧
  Steps d ≠ [] ∧ clean (check_steps d 0 (Steps d) []) ∧ clean (checkEdges CompileExpr d ix) ∧
  clean (checkApprovals d ix) ∧ clean (checkGraph d ix) ∧
  clean (checkTemplateSection CompileExpr textTemplateParses d) ∧ clean (checkMaps d) ∧ clean (checkAgents d).
Proof.
  destruct (Validate_clean _ _ _ Hacc) as [H _]. unfold before_gate, checkSteps in H. cbn [fst snd] in H.
  rewrite !clean_app, clean_add_if in H. destruct H as (? & ? & _ & _ & [Hne ?] & ? & ? & ? & ? & ? & ?).
  split_and!; try done. intros E. by rewrite E in Hne.
Qed.

Lemma accepted_step j s : Steps d !! j = Some s → stepIDRe (ID s) = true ∧ Type_ s ∈ stepConfigTypes ∧
  clean (check_step d (at_index "steps" j) s (negb (is_type StepHumanApproval s))).
Proof.
  destruct accepted_parts as (_ & _ & _ & Hs & _). apply check_steps_clean in Hs as (_ & _ & Hs). exact (Hs j s).
Qed.
Lemma accepted_ids : NoDup (ID <$> Steps d).
Proof. destruct accepted_parts as (_ & _ & _ & Hs & _). by apply check_steps_clean in Hs as [? _]. Qed.

(** The fields of one edge. *)
Lemma accepted_edge e : e ∈ Edges d → From e ∈ ID <$> Steps d ∧ To e ∈ ID <$> Steps d ∧
  if IsLoop e then 1 ≤ MaxIterations e ≤ MaxLoopIterations ∧ CompileExpr (Condition e) = ExprOK
  else When e = "" ∨ CompileExpr (When e) = ExprOK.
Proof.
  intros [i Hi]%list_elem_of_lookup. destruct accepted_parts as (_ & _ & _ & _ & He & _).
  unfold checkEdges in He. rewrite clean_for_range in He. specialize (He i e Hi). cbv zeta in He.
  rewrite clean_app, clean_app, !clean_add_if, !negb_false_iff, !step_index_known in He. destruct He as (Hf & Ht & He).
  split_and!; [done..|]. destruct (IsLoop e).
  - unfold check_loop_fields in He. rewrite !clean_app in He. destruct He as (_ & Hc & Hm & _). split.
    + destruct (MaxIterations e =? 0) eqn:E; [by apply clean_add in Hm|]. apply clean_add_if in Hm. lia.
    + destruct (empty_str _); [by apply clean_add in Hc|]. destruct (_ <? _); [by apply clean_add in Hc|].
      by apply checkExpr_clean in Hc.
  - rewrite !clean_app in He. destruct He as (_ & _ & Hw). unfold check_when in Hw.
    destruct (_ <? _); [by apply clean_add in Hw|]. unfold empty_str in Hw.
    destruct (decide (When e = "")) as [E|E]; [by left|right]. rewrite (bool_decide_eq_false_2 _ E) in Hw.
    by apply checkExpr_clean in Hw.
Qed.

Lemma accepted_entry : ∃ s, s ∈ Steps d ∧ ∀ a, ¬ edge_rel d a (ID s).
Proof.
  destruct accepted_parts as (_ & _ & Hne & _ & _ & _ & Hg & _). unfold checkGraph in Hg.
  rewrite bool_decide_eq_false_2 in Hg by (by rewrite length_zero_iff_nil).
  apply clean_app in Hg as [Hg _]. apply clean_add_if, negb_false_iff, existsb_exists in Hg as (s & Hs & H0).
  apply bool_decide_eq_true, length_zero_iff_nil in H0. exists s. split; [by apply list_elem_of_In|].
  intros a (e & He & Hl & _ & Ht). apply (not_elem_of_nil e). rewrite <-H0, list_elem_of_In, filter_In, <-list_elem_of_In.
  split; [done|]. rewrite Hl, (bool_decide_eq_true_2 _ Ht). destruct (accepted_edge e He) as (Hf' & Ht' & _).
  by rewrite (proj2 (endpoints_known (Steps d) e)).
Qed.

Lemma accepted_graph : ∃ g, NewGraph d = inr g ∧ graph_of d g ∧ findCycles g = [] ∧
  clean (checkGraphSemantics d g) ∧ clean (checkTemplates textTemplateParses d g) ∧ clean (checkContextGraph d g).
Proof.
  destruct (NewGraph_total d accepted_ids) as [g Eg]; [intros e He; split; by apply accepted_edge in He as (? & ? & _)|].
  exists g. destruct (Validate_clean _ _ _ Hacc) as [_ Hg]. destruct (Hg g Eg) as (H1 & H2 & H3).
  split_and!; try done; [by apply NewGraph_spec|]. unfold checkGraphSemantics in H1.
  apply clean_app in H1 as [H1 _]. by eapply clean_cycles.
Qed.

Lemma accepted_loop e : e ∈ Edges d → IsLoop e = true → tc (edge_rel d) (To e) (From e).
Proof.
  intros He Hl. apply list_elem_of_lookup in He as He'. destruct He' as [i Hi].
  destruct accepted_graph as (g & Eg & G & _ & Hs & _).
  unfold checkGraphSemantics in Hs. apply clean_app in Hs as [_ Hs]. rewrite clean_fmap in Hs.
  assert (i ∈ loopEdges g) as Hin by (apply (NewGraph_loops d g Eg); eauto). specialize (Hs i Hin).
  cbv zeta in Hs. rewrite (edge_at_eq d g G i e Hi) in Hs.
  destruct (anchored g e) eqn:Ha; [|by apply clean_add in Hs].
  destruct (accepted_edge e He) as (Hf & Ht & _).
  destruct (index_of d g G _ Hf) as (u & x & Eu & Hu & <-), (index_of d g G _ Ht) as (v & y & Ev & Hv & <-).
  unfold anchored in Ha. rewrite Eu, Ev in Ha. cbn in Ha. by apply (reaches_spec d g G v u y x).
Qed.

(** A reference classified as usable is to an ancestor. *)
Lemma upstream_ok g s id : graph_of d g → s ∈ Steps d → classifyUpstreamRef g (ID s) id (ancestors_of g (ID s)) = refOK →
  tc (edge_rel d) id (ID s).
Proof.
  intros G [u Hu]%list_elem_of_lookup. unfold classifyUpstreamRef, ancestors_of.
  destruct (index g !! id); [|done]. case_bool_decide; [done|]. case_bool_decide as Ha; [|done]. intros _.
  unfold Ancestors in Ha. rewrite (proj2 (go_index _ _ G (ID s) u)) in Ha by eauto.
  rewrite (go_def _ _ G) in Ha.
  rewrite (bfs_ids d g G _ (flip (edge_rel d)) u s) in Ha; [by apply tc_flip| | |done].
  - by intros a b [? _]%(rel_known d g G).
  - apply (in_rel d g G).
Qed.

Lemma accepted_refs s : s ∈ Steps d → refs_ok textTemplateParses d s.
Proof.
  intros Hs c Ec. destruct accepted_graph as (g & _ & G & _ & _ & Ht & _).
  unfold checkTemplates in Ht. rewrite clean_for_range in Ht. apply list_elem_of_lookup in Hs as Hs'. destruct Hs' as [i Hi].
  specialize (Ht i s Hi). unfold check_step_templates in Ht. rewrite Ec in Ht. cbv zeta in Ht.
  unfold ParseConfigTemplates in *. destruct (json_has_template (marshalConfig c)); cbn [negb] in *.
  2: { exists [], []. split; [done|]. by intros r ?%not_elem_of_nil. }
  destruct (w_errs _) as [|er errs] eqn:Ew.
  - eexists _, _. split; [done|]. rewrite clean_fmap in Ht. intros r Hr Hlen. specialize (Ht r Hr).
    unfold check_ref in Ht. rewrite Hlen in Ht. destruct (ItemRef r); [by apply clean_add in Ht|]. split; [done|].
    unfold empty_str in Ht. destruct (decide (StepID r = "")) as [E|E].
    + split; [done|]. intros _ Hp. rewrite (bool_decide_eq_true_2 _ E), (bool_decide_eq_false_2 _ Hp) in Ht. cbn in Ht.
      destruct (Params d !! ParamKey r); [by eexists|by apply clean_add in Ht].
    + split; [|done]. intros _. rewrite (bool_decide_eq_false_2 _ E) in Ht. cbn [negb] in Ht.
      apply (upstream_ok g s _ G Hs). destruct (classifyUpstreamRef _ _ _ _); try done; by apply clean_add in Ht.
  - exfalso. cbn in Ht. apply clean_app in Ht as [Ht _]. destruct er; by apply clean_add in Ht.
Qed.

Lemma accepted_sources s : s ∈ Steps d → sources_ok d s.
Proof.
  intros Hs cs src Ecs Hsrc Hk. apply list_elem_of_lookup in Hs as Hs'. destruct Hs' as [i Hi].
  apply list_elem_of_lookup in Hsrc as Hsrc'. destruct Hsrc' as [j Hj].
  destruct accepted_graph as (g & _ & G & _ & _ & _ & Hc). unfold checkContextGraph in Hc.
  rewrite clean_for_range in Hc. specialize (Hc i s Hi). rewrite Ecs in Hc. rewrite clean_for_range in Hc.
  specialize (Hc j src Hj). rewrite (bool_decide_eq_true_2 _ Hk) in Hc. cbn [negb orb] in Hc.
  destruct (accepted_step i s Hi) as (_ & _ & Hst). unfold check_step in Hst. rewrite !clean_app in Hst.
  destruct Hst as (_ & _ & _ & _ & _ & _ & _ & _ & _ & Hx).
  rewrite (checkContext_source _ s cs src Ecs Hsrc Hk Hx) in Hc.
  apply (upstream_ok g s _ G Hs). destruct (classifyUpstreamRef _ _ _ _); try done; by apply clean_add in Hc.
Qed.

Lemma accepted_template name t : Templates d !! name = Some t → ∃ t' g, t = Some t' ∧ template_ok textTemplateParses d t' g.
Proof.
  intros El. destruct accepted_parts as (_ & _ & _ & _ & _ & _ & _ & Ht & _).
  unfold checkTemplateSection in Ht. rewrite clean_fmap in Ht. specialize (Ht name). rewrite El in Ht.
  apply (check_template_clean CompileExpr textTemplateParses d name t).
  apply Ht. unfold sortedKeys. rewrite (merge_sort_Permutation String.le), elem_of_elements. apply elem_of_dom. eauto.
Qed.
Lemma accepted_map s c : s ∈ Steps d → Type_ s = StepMap → Config s = Some (MapConfigC c) → map_Body c ≠ "" →
  ∃ t g, Templates d !! map_Body c = Some (Some t) ∧ template_ok textTemplateParses d t g.
Proof.
  intros [i Hi]%list_elem_of_lookup Et Ec Hb%empty_str_spec.
  destruct accepted_parts as (_ & _ & _ & _ & _ & _ & _ & _ & Hm & _).
  unfold checkMaps in Hm. rewrite clean_for_range in Hm. specialize (Hm i s Hi). unfold is_type in Hm.
  rewrite Et, bool_decide_eq_true_2, Ec, Hb in Hm by done. cbn [negb] in Hm.
  destruct (Templates d !! map_Body c) as [t|] eqn:El; [|by apply clean_add in Hm].
  destruct (accepted_template _ _ El) as (t' & g & -> & ?). eauto.
Qed.

Lemma accepted_config s : s ∈ Steps d → config_ok d s.
Proof.
  intros Hs. apply list_elem_of_lookup in Hs as Hs'. destruct Hs' as [i Hi].
  destruct (accepted_step i s Hi) as (_ & _ & Hst). unfold check_step in Hst. apply clean_app in Hst as [Hst _].
  destruct accepted_parts as (_ & _ & _ & _ & _ & Hap & Hgr & _ & _ & Hag).
  unfold config_ok, is_type. repeat (case_bool_decide as Ht; [|clear Ht]).
  - by eapply checkStepConfig_llm.
  - by eapply checkStepConfig_planner.
  - destruct (checkStepConfig_agent _ s Ht Hst) as (c & Ec & Hc). eapply check_agent_clean; [done..|].
    unfold checkAgents in Hag. apply clean_app in Hag as [_ Hag]. rewrite clean_for_range in Hag. by apply Hag.
  - destruct (checkStepConfig_map _ s Ht Hst) as (c & Ec & Hc).
    destruct (accepted_map s c Hs Ht Ec Hc) as (t & g & Hl & H). exists c, t, g.
    split_and!; [done|done|apply H| |apply H]. apply (acyclic_order (template_def t)); [apply NewGraph_spec|]; apply H.
  - by eapply checkStepConfig_join.
  - by eapply check_branch_clean.
  - apply check_approvals_clean; [apply accepted_ids|done..].
  - done.
Qed.

Lemma accepted_well_formed : well_formed CompileExpr textTemplateParses d.
Proof.
  destruct accepted_parts as (Hl & Hw & Hne & _). unfold checkLimits in Hl. rewrite !clean_app, !clean_add_if in Hl.
  destruct accepted_graph as (g & Eg & G & Hcyc & _).
  split.
  - assert (length (Steps d) ≠ 0%nat) as Hlen by (by rewrite length_zero_iff_nil).
    destruct Hl as (H1%Z.ltb_ge & H2%Z.ltb_ge & _). unfold zlen in *. lia.
  - apply accepted_ids.
  - intros s [i Hi]%list_elem_of_lookup. by destruct (accepted_step i s Hi) as (? & ? & _).
  - intros e He. by destruct (accepted_edge e He) as (? & ? & _).
  - by apply (acyclic_ranked d g G).
  - apply accepted_entry.
  - intros e He Hloop. split; [by apply accepted_loop|]. destruct (accepted_edge e He) as (_ & _ & H). by rewrite Hloop in H.
  - intros e He Hloop. destruct (accepted_edge e He) as (_ & _ & H). by rewrite Hloop in H.
  - apply accepted_config.
  - intros s [i Hi]%list_elem_of_lookup. destruct (accepted_step i s Hi) as (_ & _ & Hst). unfold check_step in Hst.
    rewrite !clean_app in Hst. destruct Hst as (_ & _ & _ & Hr & _). by apply checkRetry_clean in Hr.
  - apply accepted_refs.
  - apply accepted_sources.
  - unfold checkMaxWallClock, empty_str in Hw. destruct (decide (MaxWallClock d = "")) as [E|E]; [by left|right].
    rewrite (bool_decide_eq_false_2 _ E) in Hw. by apply check_duration_clean in Hw.
Qed.
End accepted.
