(* ===== verification/ExpansionFacts.v ===== *)
(** What an accepted expansion is: the facts [ValidateExpansion] establishes of
    the delta, and which merged graphs are acyclic. *)
From stdpp Require Import relations.
From S2P Require Import Prelude Issues GoStd Retry StoreModel Config Template Dag GraphFacts Cycles Validate ValidateGraph Expansion ReadyFacts Instantiate DagProps CycleProps ValidateFacts WellFormed.
Open Scope Z_scope.

Lemma OK_clean v : OK v = true ↔ clean (xv_Issues v).
Proof.
  unfold OK, clean, err. induction (xv_Issues v) as [|i l IH]; [done|]. cbn.
  destruct (bool_decide (issue_Severity i = SeverityError)); cbn; [done|]. exact IH.
Qed.

(** ** Caps *)

(** The four run guards hold of an expansion. *)
Record within_caps (inp : ExpansionInput) : Prop := mkWithinCaps {
  wc_added : 0 < xi_PerExpansionCap inp → zlen (po_Steps (xi_Plan inp)) ≤ xi_PerExpansionCap inp;
  wc_total : xi_CurrentStepCount inp + zlen (po_Steps (xi_Plan inp)) ≤ MaxTotalSteps (xi_Caps inp);
  wc_expansions : xi_ExpansionsSoFar inp + 1 ≤ MaxExpansions (xi_Caps inp);
  wc_depth : xo_Depth (xi_Origin inp) + 1 ≤ MaxDepth (xi_Caps inp)
}.

Lemma breach_nil b p l n c : breach b p l n c = [] ↔ b = false.
Proof. unfold breach. by destruct b. Qed.
Lemma check_caps_nil inp : check_caps inp = [] ↔ within_caps inp.
Proof.
  unfold check_caps. cbv zeta. rewrite !app_nil, !breach_nil, andb_false_iff, !Z.ltb_ge. split.
  - intros ([?|?] & ? & ? & ?); split; lia.
  - intros [? ? ? ?]. split_and!; try done. destruct (decide (0 < xi_PerExpansionCap inp)); [right; auto|left; lia].
Qed.
Lemma caps_errors inp : Forall (λ x, issue_Severity x.1 = SeverityError) (check_caps inp).
Proof. unfold check_caps, breach. cbv zeta. repeat (apply Forall_app; split); case_match; repeat constructor. Qed.
Lemma check_caps_clean inp : clean (check_caps inp).*1 ↔ within_caps inp.
Proof.
  rewrite <-check_caps_nil. destruct (caps_errors inp) as [|x l E He]; [done|]. split; [|done]. unfold clean, err. cbn.
  rewrite (bool_decide_eq_true_2 _ E). done.
Qed.

(** ** Injected steps and edges *)

Lemma check_plan_steps_clean inp l : ∀ i seen, clean (check_plan_steps inp i l seen) →
  NoDup (ID <$> l) ∧ (∀ s, s ∈ l → ID s ∉ seen) ∧
  ∀ j s, l !! j = Some s →
    (stepIDRe (ID s) = true ∨ allowInstanceIDs inp = true ∧ instanceStepIDRe (ID s) = true) ∧
    xi_Existing inp !! ID s = None ∧ Type_ s ∈ stepConfigTypes ∧
    clean (check_injected (at_index "plan.steps" (i + j)) s).
Proof.
  induction l as [|s l IH]; intros i seen; cbn [check_plan_steps].
  { intros _. split_and!; [constructor|by intros ? ?%not_elem_of_nil|done]. }
  cbv zeta. rewrite !clean_app, !clean_add_if. intros (Hid & Hex & Hdup & Hty & Hs & (Hnd & Hseen & Hall)%IH).
  apply bool_decide_eq_false in Hdup. apply negb_false_iff, bool_decide_eq_true in Hty.
  split_and!.
  - cbn. constructor; [|done]. intros (x & E & Hx)%list_elem_of_fmap. apply (Hseen x Hx). rewrite E. set_solver.
  - intros x [->|Hx]%elem_of_cons; [done|]. specialize (Hseen x Hx). set_solver.
  - intros [|j] x Hj; cbn in Hj.
    + injection Hj as <-. rewrite Nat.add_0_r. split_and!; try done; [|by destruct (xi_Existing inp !! ID s)].
      destruct (stepIDRe (ID s)), (allowInstanceIDs inp), (instanceStepIDRe (ID s)); auto.
    + replace (i + S j)%nat with (S i + j)%nat by lia. by apply Hall.
Qed.

(** The ids the plan adds, and those of the run. *)
Definition delta_ids (inp : ExpansionInput) : list string := ID <$> po_Steps (xi_Plan inp).
Definition existing (inp : ExpansionInput) (id : string) : Prop := is_Some (xi_Existing inp !! id).

(** An accepted expansion. *)
Record admitted (CompileExpr : string → exprResult) (textTemplateParses : list outSeg → bool) (inp : ExpansionInput)
    : Prop := mkAdmitted {
  adm_some : po_Steps (xi_Plan inp) ≠ [];
  adm_caps : within_caps inp;
  adm_nodup : NoDup (delta_ids inp);
  adm_fresh : ∀ id, id ∈ delta_ids inp → xi_Existing inp !! id = None;
  adm_steps : ∀ j s, po_Steps (xi_Plan inp) !! j = Some s →
    Type_ s ∈ stepConfigTypes ∧ clean (check_injected (at_index "plan.steps" j) s);
  adm_from : ∀ e, e ∈ po_Edges (xi_Plan inp) → From e ∉ delta_ids inp →
    ∃ a, xi_Existing inp !! From e = Some a ∧ an_Status a ≠ AnchorTerminal;
  adm_to : ∀ e, e ∈ po_Edges (xi_Plan inp) → To e ∉ delta_ids inp →
    ∃ a, xi_Existing inp !! To e = Some a ∧ an_Status a = AnchorPending;
  adm_touch : ∀ e, e ∈ po_Edges (xi_Plan inp) → From e ∈ delta_ids inp ∨ To e ∈ delta_ids inp;
  adm_merged : ∀ g, NewGraph (merged inp) = inr g →
    clean (checkMergedGraph inp g (step_index (po_Steps (xi_Plan inp)))) ∧
    clean (checkExpansionRefs textTemplateParses inp g)
}.

Lemma is_Some_b_false {A} (o : option A) : is_Some_b o = false ↔ o = None.
Proof. by destruct o. Qed.
Lemma delta_known inp id : is_Some_b (step_index (po_Steps (xi_Plan inp)) !! id) = bool_decide (id ∈ delta_ids inp).
Proof. apply eq_true_iff_eq. rewrite bool_decide_eq_true. apply step_index_known. Qed.

Section validate.
Context (CompileExpr : string → exprResult) (textTemplateParses : list outSeg → bool).

(** What the endpoint and anchor rules say of one edge. *)
Lemma check_plan_edge_clean inp i e : let p := check_plan_edge CompileExpr inp (step_index (po_Steps (xi_Plan inp))) i e in
  clean p →
  (From e ∉ delta_ids inp → ∃ a, xi_Existing inp !! From e = Some a ∧ an_Status a ≠ AnchorTerminal) ∧
  (To e ∉ delta_ids inp → ∃ a, xi_Existing inp !! To e = Some a ∧ an_Status a = AnchorPending) ∧
  (From e ∈ delta_ids inp ∨ To e ∈ delta_ids inp).
Proof.
  cbv zeta. unfold check_plan_edge. cbv zeta. rewrite !clean_app, !clean_add_if, !delta_known.
  intros (Hf & Ht & Hm & Hft & Htp & _).
  destruct (decide (From e ∈ delta_ids inp)) as [Df|Df], (decide (To e ∈ delta_ids inp)) as [Dt|Dt];
    rewrite ?(bool_decide_eq_true_2 _ Df), ?(bool_decide_eq_false_2 _ Df),
            ?(bool_decide_eq_true_2 _ Dt), ?(bool_decide_eq_false_2 _ Dt) in *;
    destruct (xi_Existing inp !! From e) as [af|], (xi_Existing inp !! To e) as [at_|]; cbn in *; try done;
    split_and!; try (by intros []); try tauto; intros _; eexists; split; try done.
  all: first [ apply bool_decide_eq_false in Hft; done | apply negb_false_iff, bool_decide_eq_true in Htp; done ].
Qed.

Lemma check_plan_steps_hard inp l : ∀ i seen, hard (check_plan_steps inp i l seen).
Proof.
  induction l; intros; cbn [check_plan_steps]; unfold check_injected, checkTimeout, checkCache, checkStepBudget,
    checkBlackboard; issues.
Qed.
#[local] Hint Resolve loop_fields_hard normal_fields_hard check_when_hard check_plan_steps_hard : issues.
Lemma shape_hard inp : hard (shape_issues CompileExpr inp).
Proof.
  unfold shape_issues, check_plan_edge, checkExpansionEdgeFields. issues.
  apply Forall_fmap, (Forall_impl _ _ _ (caps_errors inp)). intros x E. by left.
Qed.

Lemma ValidateExpansion_OK inp : OK (ValidateExpansion CompileExpr textTemplateParses inp) = true →
  admitted CompileExpr textTemplateParses inp.
Proof.
  rewrite OK_clean. unfold ValidateExpansion. cbv zeta. cbn [xv_Issues]. rewrite clean_app. intros [Hs Hg].
  assert (has [CodeDuplicateStepID; CodeUnknownEdgeEndpoint; CodeExpansionAnchorInvalid; CodeInvalidStepID]
            (shape_issues CompileExpr inp) = false) as Hgate.
  { apply clean_has; [apply shape_hard|done|set_solver]. }
  rewrite Hgate in Hg. unfold shape_issues in Hs. cbv zeta in Hs. rewrite !clean_app, !clean_add_if in Hs.
  destruct Hs as (_ & Hne & Hcaps%check_caps_clean & (Hnd & _ & Hsteps)%check_plan_steps_clean & Hed).
  rewrite clean_for_range in Hed. split; try done.
  - apply bool_decide_eq_false in Hne. by destruct (po_Steps (xi_Plan inp)).
  - intros id (s & -> & [j Hj]%list_elem_of_lookup)%list_elem_of_fmap. by apply (Hsteps j s Hj).
  - intros j s Hj. by destruct (Hsteps j s Hj) as (_ & _ & ? & ?).
  - intros e [j Hj]%list_elem_of_lookup. by destruct (check_plan_edge_clean _ _ _ (Hed j e Hj)) as (? & _).
  - intros e [j Hj]%list_elem_of_lookup. by destruct (check_plan_edge_clean _ _ _ (Hed j e Hj)) as (_ & ? & _).
  - intros e [j Hj]%list_elem_of_lookup. by destruct (check_plan_edge_clean _ _ _ (Hed j e Hj)) as (_ & _ & ?).
  - intros g E. rewrite E in Hg. by apply clean_app.
Qed.
End validate.

(** ** The merged graph *)

Lemma elem_of_sortedKeys {A} (m : gmap string A) id : id ∈ sortedKeys m ↔ is_Some (m !! id).
Proof. unfold sortedKeys. by rewrite merge_sort_Permutation, elem_of_elements, elem_of_dom. Qed.
Lemma NoDup_sortedKeys {A} (m : gmap string A) : NoDup (sortedKeys m).
Proof. unfold sortedKeys. rewrite merge_sort_Permutation. apply NoDup_elements. Qed.

(** A reported cycle is a path from the target of the closing edge back to its source. *)
Lemma reports_path d c : reports_cycle d c →
  ∃ ed, Edges d !! edgeIdx c = Some ed ∧ IsLoop ed = false ∧ rtc (edge_rel d) (To ed) (From ed).
Proof.
  intros (ed & path & He & Hl & Ec & Hh & Hlast & _ & Hrel). exists ed. split_and!; try done.
  rewrite Ec in Hrel. clear Ec He Hl c. destruct path as [|a path]; [done|]. injection Hh as <-. revert a Hrel Hlast.
  generalize (From ed). generalize (To ed). intros t f.
  induction path as [|b path IH]; intros a Hrel Hlast.
  - injection Hlast as ->. reflexivity.
  - eapply rtc_l; [apply (Hrel [] a b (path ++ [t])); done|]. apply IH; [|done].
    intros l1 x y l2 E. apply (Hrel (a :: l1) x y l2). cbn. by rewrite <-E.
Qed.

(** The normal edges of the run before the expansion. *)
Definition old_rel (inp : ExpansionInput) (a b : string) : Prop :=
  ∃ ed, ed ∈ xi_ExistingEdges inp ∧ IsLoop ed = false ∧ From ed = a ∧ To ed = b.
(** No existing step that the delta enters leads, in the old graph, to one that
    it leaves. *)
Definition splice_safe (inp : ExpansionInput) : Prop := ∀ e e',
  e ∈ po_Edges (xi_Plan inp) → e' ∈ po_Edges (xi_Plan inp) → IsLoop e = false → IsLoop e' = false →
  existing inp (To e) → existing inp (From e') → ¬ rtc (old_rel inp) (To e) (From e').

Section merged.
Context (CompileExpr : string → exprResult) (textTemplateParses : list outSeg → bool) (inp : ExpansionInput).
Context (A : admitted CompileExpr textTemplateParses inp).
Context (Hclosed : ∀ e, e ∈ xi_ExistingEdges inp → existing inp (From e) ∧ existing inp (To e)).

Lemma existing_delta id : existing inp id → id ∈ delta_ids inp → False.
Proof. intros [a Ha] Hd%(adm_fresh _ _ _ A). congruence. Qed.

Lemma merged_ids : ID <$> Steps (merged inp) = sortedKeys (xi_Existing inp) ++ delta_ids inp.
Proof.
  cbn. rewrite fmap_app, <-list_fmap_compose. f_equal.
  induction (sortedKeys (xi_Existing inp)) as [|k l IH]; cbn; congruence.
Qed.
Lemma merged_known id : id ∈ ID <$> Steps (merged inp) ↔ existing inp id ∨ id ∈ delta_ids inp.
Proof. rewrite merged_ids, elem_of_app, elem_of_sortedKeys. done. Qed.

Lemma plan_ends e : e ∈ po_Edges (xi_Plan inp) →
  (existing inp (From e) ∨ From e ∈ delta_ids inp) ∧ (existing inp (To e) ∨ To e ∈ delta_ids inp).
Proof.
  intros He. split.
  - destruct (decide (From e ∈ delta_ids inp)); [by right|left].
    destruct (adm_from _ _ _ A e He) as (a & ? & _); [done|]. by exists a.
  - destruct (decide (To e ∈ delta_ids inp)); [by right|left].
    destruct (adm_to _ _ _ A e He) as (a & ? & _); [done|]. by exists a.
Qed.

(** Unique ids and resolved endpoints: the merged graph compiles. *)
Lemma merged_graph : ∃ g, NewGraph (merged inp) = inr g.
Proof.
  apply NewGraph_total.
  - rewrite merged_ids. apply NoDup_app. split_and!; [apply NoDup_sortedKeys| |apply A].
    intros id Hid%elem_of_sortedKeys Hd. by eapply existing_delta.
  - intros e. rewrite !merged_known. cbn. intros [He|He]%elem_of_app; [|by apply plan_ends].
    apply Hclosed in He as []. auto.
Qed.

(** An edge between two existing steps is an old edge. *)
Lemma old_edge a b : edge_rel (merged inp) a b → existing inp a → existing inp b → old_rel inp a b.
Proof.
  intros (e & [He|He]%elem_of_app & Hl & <- & <-) Ha Hb; [by exists e|].
  destruct (adm_touch _ _ _ A e He) as [Hd|Hd]; [by destruct (existing_delta _ Ha Hd)|by destruct (existing_delta _ Hb Hd)].
Qed.
(** An edge that crosses into or out of the delta is a plan edge. *)
Lemma crossing_edge a b : edge_rel (merged inp) a b → a ∈ delta_ids inp ∨ b ∈ delta_ids inp →
  ∃ e, e ∈ po_Edges (xi_Plan inp) ∧ IsLoop e = false ∧ From e = a ∧ To e = b.
Proof.
  intros (e & [He|He]%elem_of_app & Hl & <- & <-) Hd; [|by exists e].
  destruct (Hclosed e He) as [Xf Xt]. destruct Hd as [Hd|Hd]; [by destruct (existing_delta _ Xf Hd)|by destruct (existing_delta _ Xt Hd)].
Qed.

Definition enters (t : string) : Prop := ∃ e, e ∈ po_Edges (xi_Plan inp) ∧ IsLoop e = false ∧ To e = t ∧ existing inp t.
Definition leaves (f : string) : Prop := ∃ e, e ∈ po_Edges (xi_Plan inp) ∧ IsLoop e = false ∧ From e = f ∧ existing inp f.

(** A walk to an existing step stays among the existing ones, or leaves them and
    comes back. *)
Lemma merged_walk a b : rtc (edge_rel (merged inp)) a b → existing inp b →
  (existing inp a → rtc (old_rel inp) a b ∨
     ∃ f t, rtc (old_rel inp) a f ∧ leaves f ∧ enters t ∧ rtc (old_rel inp) t b) ∧
  (a ∈ delta_ids inp → ∃ t, enters t ∧ rtc (old_rel inp) t b).
Proof.
  induction 1 as [b|a a' b Hstep Hwalk IH]; intros Hb.
  - split; [by left|]. intros Hd. by destruct (existing_delta _ Hb Hd).
  - specialize (IH Hb). destruct IH as [IHe IHd].
    assert (existing inp a' ∨ a' ∈ delta_ids inp) as Ha'.
    { destruct Hstep as (e & [He|He]%elem_of_app & _ & _ & <-); [left; by apply Hclosed|by apply plan_ends]. }
    split.
    + intros Ha. destruct Ha' as [Ha'|Ha'].
      * assert (old_rel inp a a') as Hold by by apply old_edge.
        destruct (IHe Ha') as [Hr|(f & t & Hf & ? & ? & ?)]; [left; by eapply rtc_l|right].
        exists f, t. split_and!; try done. by eapply rtc_l.
      * right. destruct (IHd Ha') as (t & Ht & Hr). exists a, t. split_and!; try done.
        destruct (crossing_edge a a' Hstep) as (e & ? & ? & ? & ?); [by right|]. exists e. done.
    + intros Ha. destruct Ha' as [Ha'|Ha']; [|by apply IHd].
      destruct (IHe Ha') as [Hr|(f & t & _ & _ & Ht & Hr)]; [|by exists t].
      exists a'. split; [|done]. destruct (crossing_edge a a' Hstep) as (e & ? & ? & ? & ?); [by left|]. exists e. done.
Qed.

(** A delta without a detour through the old graph closes no cycle: the checker
    skips only the cycles that an old edge closes. *)
Lemma merged_ranked (rank : string → nat) : (∀ a b, old_rel inp a b → (rank a < rank b)%nat) → splice_safe inp →
  ∃ rank' : string → nat, ∀ a b, edge_rel (merged inp) a b → (rank' a < rank' b)%nat.
Proof.
  intros Hrank Hsafe. destruct merged_graph as [g Hg]. pose proof (NewGraph_spec _ _ Hg) as G.
  apply (acyclic_ranked _ _ G). destruct (adm_merged _ _ _ A g Hg) as [Hm _].
  unfold checkMergedGraph in Hm. rewrite clean_app, clean_fmap in Hm. destruct Hm as [Hm _].
  destruct (findCycles g) as [|c l] eqn:Ef; [done|exfalso]. specialize (Hm c ltac:(set_solver)).
  assert (reports_cycle (merged inp) c) as (ed & He & Hl & Hwalk)%reports_path.
  { apply (cycle_finding_ids _ _ G). destruct (findCycles_spec _ _ G) as [Hc _]. apply Hc. rewrite Ef. set_solver. }
  rewrite clean_add_if in Hm. unfold touchesDelta, edge_at in Hm. rewrite (go_def _ _ G), He in Hm. cbn [default] in Hm.
  apply orb_false_iff in Hm as [Hf Ht]. rewrite delta_known in Hf, Ht. apply bool_decide_eq_false in Hf, Ht.
  apply list_elem_of_lookup_2 in He. apply elem_of_app in He as [He|He];
    [|by destruct (adm_touch _ _ _ A ed He)].
  destruct (Hclosed ed He) as [Xf Xt]. assert (old_rel inp (From ed) (To ed)) as Hold by by exists ed.
  assert (∀ a b, rtc (old_rel inp) a b → (rank a ≤ rank b)%nat) as Hmono.
  { induction 1 as [|a a' b Hs _ IH]; [done|]. apply Hrank in Hs. lia. }
  destruct (merged_walk _ _ Hwalk Xf) as [Hcase _].
  destruct (Hcase Xt) as [Hr|(f & t & Hr1 & (e' & ? & ? & <- & ?) & (e & ? & ? & <- & ?) & Hr2)].
  - apply Hmono in Hr. apply Hrank in Hold. lia.
  - apply (Hsafe e e'); try done. etrans; [exact Hr2|]. eapply rtc_l; [exact Hold|done].
Qed.
End merged.
