(* ===== verification/RefRewrite.v ===== *)
(** Rewriting the references of a templated string (mapexpand.go,
    loopexpand.go): the rewritten text splits and lints like the original, with
    every reference converted. *)
From Stdlib Require Import QArith Ascii.
From stdpp Require Import pretty.
From S2P Require Import Prelude Issues GoStd Retry StoreModel Config Template TemplateFacts Dag Validate ValidateGraph Codec Expansion Decode MapExpand.
Open Scope nat_scope.

(** ** Strings *)

Lemma all_chars_app p a b : all_chars p (a +:+ b) = all_chars p a && all_chars p b.
Proof. induction a as [|c a IH]; [done|]. rewrite append_cons. cbn. by rewrite IH, andb_assoc. Qed.
Lemma all_chars_impl (p q : ascii → bool) s : (∀ c, p c = true → q c = true) → all_chars p s = true → all_chars q s = true.
Proof. intros H. induction s as [|c s IH]; [done|]. cbn. intros [Hc Hs]%andb_prop. by rewrite H, IH. Qed.

Lemma append_inj_l (a b c : string) : a +:+ b = a +:+ c → b = c.
Proof. induction a as [|x a IH]; [done|]. rewrite !append_cons. intros [= H]. by apply IH. Qed.

(** strings.Split around a separator. *)
Lemma split_go_cur sep s cur : ∃ x l, split_go sep s "" = x :: l ∧ split_go sep s cur = (cur +:+ x) :: l.
Proof.
  revert cur. induction s as [|c s IH]; intros cur; cbn [split_go]; [exists "", []; by rewrite append_nil_r|].
  case_bool_decide; [exists "", (split_go sep s ""); by rewrite append_nil_r|].
  destruct (IH (cur +:+ String c "")) as (x & l & E1 & E2). destruct (IH ("" +:+ String c "")) as (x' & l' & E1' & E3).
  rewrite E1 in E1'. simplify_eq. exists (String c x'), l'. rewrite E3, E2. by rewrite append_nil_l, append_assoc.
Qed.
Lemma Split_app sep a b : Split (a +:+ String sep b) sep = Split a sep ++ Split b sep.
Proof.
  unfold Split. assert (∀ cur, split_go sep (a +:+ String sep b) cur = split_go sep a cur ++ split_go sep b "") as G; [|apply G].
  induction a as [|c a IH]; intros cur; [rewrite append_nil_l; cbn [split_go app]; by rewrite bool_decide_eq_true_2|].
  rewrite append_cons. cbn [split_go]. case_bool_decide; [by rewrite IH|]. apply IH.
Qed.
Lemma Split_none sep s : all_chars (λ c, negb (bool_decide (c = sep))) s = true → Split s sep = [s].
Proof.
  intros H. unfold Split. assert (∀ cur, split_go sep s cur = [cur +:+ s]) as G; [|by rewrite G].
  induction s as [|c s IH]; intros cur; cbn; [by rewrite append_nil_r|]. cbn in H. apply andb_prop in H as [Hc Hs].
  apply negb_true_iff in Hc. rewrite Hc, IH by done. by rewrite append_assoc.
Qed.
Lemma Cut_one_none c s : Cut s (one c) = None → all_chars (λ x, negb (bool_decide (x = c))) s = true.
Proof.
  induction s as [|x s IH]; [done|]. cbn [Cut one HasPrefix all_chars]. rewrite andb_true_r.
  rewrite (bool_decide_ext (c = x) (x = c)) by done. case_bool_decide; [done|]. cbn. destruct (Cut s (one c)) as [[]|]; [done|].
  intros _. by apply IH.
Qed.

Lemma pretty_N_go_digits x s : all_chars is_digit s = true → all_chars is_digit (pretty_N_go x s) = true.
Proof.
  revert s. induction (N.lt_wf_0 x) as [x _ IH]; intros s Hs.
  assert (x = 0 ∨ 0 < x)%N as [->|Hx] by lia; [by rewrite pretty_N_go_0|].
  rewrite pretty_N_go_step by done. apply IH; [by apply N.div_lt|]. cbn. rewrite Hs, andb_true_r.
  unfold pretty_N_char. repeat case_match; done.
Qed.
Lemma pretty_N_digits (x : N) : all_chars is_digit (pretty x) = true ∧ pretty x ≠ "".
Proof.
  unfold pretty, pretty_N. case_decide as E; [done|]. split; [by apply pretty_N_go_digits|].
  rewrite pretty_N_go_step by lia. intros H.
  assert (∀ n s, s ≠ "" → pretty_N_go n s ≠ "") as G; [|by apply (G _ _) in H].
  clear. intros n. induction (N.lt_wf_0 n) as [n _ IH]; intros s Hs.
  assert (n = 0 ∨ 0 < n)%N as [->|Hn] by lia; [by rewrite pretty_N_go_0|]. rewrite pretty_N_go_step by done.
  apply IH; [by apply N.div_lt|done].
Qed.
Lemma pretty_digits (k : Z) : (0 ≤ k)%Z → all_chars is_digit (pretty k) = true ∧ pretty k ≠ "".
Proof. intros Hk. destruct k as [|p|p]; [done|apply (pretty_N_digits (Npos p))|lia]. Qed.

(** ** Rewriters *)

(** What the scanner and the lint need of a token rewriter: reference characters
    stay reference characters, other words are kept, and a reference becomes
    another one, [conv] of it. *)
Class Rewriter (rw : string → string) (conv : TemplateRef → TemplateRef) : Prop := {
  rw_chars : ∀ tok, tok ≠ "" → all_chars isRefChar tok = true → all_chars isRefChar (rw tok) = true ∧ rw tok ≠ "";
  rw_word : ∀ tok, isRefToken tok = false → rw tok = tok;
  rw_parse : ∀ tok path r, isRefToken tok = true → parseRef tok path = inr r →
    isRefToken (rw tok) = true ∧ parseRef (rw tok) path = inr (conv r)
}.

Definition rw_piece (rw : string → string) (p : piece) : piece :=
  match p with
  | PDouble l => PDouble (rewriteQuotedRef l rw)
  | PSingle l => PSingle (rewriteQuotedRef l rw)
  | PRaw l => PRaw (rewriteQuotedRef l rw)
  | PRef t => PRef (rw t)
  | PWord t => PWord (rw t)
  | PByte c => PByte c
  end.
Definition piece_refs (path : string) (p : piece) : list TemplateRef :=
  let refs_of lit := match literalRef lit path with Some r => [r] | None => [] end in
  match p with
  | PDouble l | PRaw l => refs_of l
  | PSingle l => refs_of (unquoteSingle l)
  | PRef t => match parseRef t path with inr r => [r] | inl _ => [] end
  | _ => []
  end.

Lemma keyword_not_ref t : t ∈ tmplKeywords → isRefToken t = false.
Proof. unfold tmplKeywords. rewrite !elem_of_cons, elem_of_nil. intros H. by destruct_or! H; subst. Qed.

(** The shape of a tokenized expression: tokens are maximal. *)
Definition starts_ref (s : string) : bool := match s with String c _ => isRefChar c | "" => false end.
Lemma ref_span_tok tok r : all_chars isRefChar tok = true → starts_ref r = false → ref_span (tok +:+ r) = (tok, r).
Proof.
  intros Ht Hr. induction tok as [|c tok IH]; [destruct r as [|c r]; [done|]; rewrite append_nil_l; cbn in *; by rewrite Hr|].
  cbn in Ht. apply andb_prop in Ht as [Hc Ht]. rewrite append_cons. cbn [ref_span]. by rewrite Hc, IH.
Qed.
Lemma ref_span_chars s tok r : ref_span s = (tok, r) → all_chars isRefChar tok = true ∧ starts_ref r = false.
Proof.
  revert tok r. induction s as [|c s IH]; intros tok r; cbn [ref_span]; [by intros [= <- <-]|].
  destruct (isRefChar c) eqn:Hc; [|by intros [= <- <-]]. destruct (ref_span s) as [a b] eqn:E. intros [= <- <-].
  destruct (IH a b eq_refl). cbn. by rewrite Hc.
Qed.
Lemma ref_span_ne c s tok r : isRefChar c = true → ref_span (String c s) = (tok, r) → tok ≠ "".
Proof. cbn. intros ->. destruct (ref_span s). by intros [= <- _]. Qed.

Section rewriter.
Context (rw : string → string) (conv : TemplateRef → TemplateRef) `{!Rewriter rw conv}.

Lemma quoted_cases lit : rewriteQuotedRef lit rw = lit ∨
  all_chars isRefChar lit = true ∧ lit ≠ "" ∧ rewriteQuotedRef lit rw = rw lit ∧
  (bool_decide (lit = "item") || bool_decide (lit = "item_index") || HasPrefix lit "item." || HasPrefix lit "steps.") = true.
Proof.
  unfold rewriteQuotedRef. destruct (all_chars isRefChar lit) eqn:E; cbn; [|by left].
  case_bool_decide; [by left|]. destruct (_ || _) eqn:Ec; [|by left]. by right.
Qed.
Lemma refchars_skip q w r : q = dquote ∨ q = squote → all_chars isRefChar w = true → skipQuoted q (w +:+ String q r) = Some (w, r).
Proof.
  intros Hq. induction w as [|c w IH]; intros Hw.
  - rewrite append_nil_l. cbn [skipQuoted]. rewrite bool_decide_eq_false_2 by (intros ->; by destruct Hq).
    by rewrite bool_decide_eq_true_2.
  - cbn in Hw. apply andb_prop in Hw as [Hc Hw]. rewrite append_cons. cbn [skipQuoted].
    assert (c ≠ "\"%char ∧ c ≠ q) as [H1 H2] by (by split; intros ->; destruct_or? Hq; subst).
    by rewrite !bool_decide_eq_false_2, IH by done.
Qed.
Lemma quoted_skip q lit r s : q = dquote ∨ q = squote → skipQuoted q s = Some (lit, r) →
  ∀ r', skipQuoted q (rewriteQuotedRef lit rw +:+ String q r') = Some (rewriteQuotedRef lit rw, r').
Proof.
  intros Hq Hs r'. destruct (quoted_cases lit) as [->|(Hc & Hne & -> & _)]; [by apply (skipQuoted_any _ _ _ _ Hs)|].
  apply refchars_skip; [done|]. by apply rw_chars.
Qed.
Lemma refchars_cut w r : all_chars isRefChar w = true → Cut (w +:+ one bquote +:+ r) (one bquote) = Some (w, r).
Proof.
  induction w as [|c w IH]; intros Hw; [by destruct r|]. cbn in Hw. apply andb_prop in Hw as [Hc Hw].
  rewrite append_cons. cbn [Cut one HasPrefix]. rewrite bool_decide_eq_false_2 by by intros <-. cbn [andb].
  change (String bquote "") with (one bquote). by rewrite IH.
Qed.
Lemma raw_cut lit r s : Cut s (one bquote) = Some (lit, r) →
  ∀ r', Cut (rewriteQuotedRef lit rw +:+ one bquote +:+ r') (one bquote) = Some (rewriteQuotedRef lit rw, r').
Proof.
  intros Hs r'. destruct (quoted_cases lit) as [->|(Hc & Hne & -> & _)]; [by apply (Cut_any _ _ _ _ Hs)|].
  apply refchars_cut. by apply rw_chars.
Qed.

(** The first byte of the rewritten text. *)
Definition same_start (s s' : string) : Prop :=
  match s, s' with
  | "", "" => True
  | String c _, String c' _ => c' = c ∨ isRefChar c = true ∧ isRefChar c' = true
  | _, _ => False
  end.
Lemma same_start_ref s s' : same_start s s' → starts_ref s' = starts_ref s.
Proof. destruct s, s'; cbn; try done. intros [->|[-> ->]]; done. Qed.
Lemma same_start_prefix (c : ascii) s s' : isRefChar c = false → same_start s s' → HasPrefix s' (one c) = HasPrefix s (one c).
Proof.
  intros Hc. destruct s as [|a s], s' as [|b s']; cbn; try done. rewrite !andb_true_r. intros [->|[Ha Hb]]; [done|].
  rewrite !bool_decide_eq_false_2; [done|..]; intros <-; congruence.
Qed.
Lemma rw_start tok s : tok ≠ "" → all_chars isRefChar tok = true → same_start (tok +:+ s) (rw tok +:+ s).
Proof.
  intros Hne Ht. destruct (rw_chars tok Hne Ht) as [Hc Hn]. destruct tok as [|a tok]; [done|]. destruct (rw (String a tok)) as [|b t]; [done|].
  cbn in Ht, Hc. apply andb_prop in Ht as [Ha _]. apply andb_prop in Hc as [Hb _]. rewrite !append_cons. right. done.
Qed.

Lemma ref_char_cases b : isRefChar b = true →
  b ≠ dquote ∧ b ≠ squote ∧ b ≠ bquote ∧ b ≠ "$"%char ∧ b ≠ ":"%char ∧ b ≠ "}"%char.
Proof. intros H. split_and!; intros ->; done. Qed.

(** One reference or word in front. *)
Lemma rewrite_expr_tok path fuel tok rest first ps refs p rs :
  tok ≠ "" → all_chars isRefChar tok = true → starts_ref rest = false → (first = true → tok ∉ tmplKeywords) →
  match p with
  | PRef t => t = tok ∧ isRefToken tok = true ∧ ∃ r, parseRef tok path = inr r ∧ rs = [r]
  | PWord t => t = tok ∧ isRefToken tok = false ∧ (isIdent tok = true → tok ∈ tmplAllowedIdents) ∧ rs = []
  | _ => False
  end →
  rewrite_expr fuel rest path false = inr (ps, refs) →
  rewrite_expr (S fuel) (tok +:+ rest) path first = inr (p :: ps, rs ++ refs).
Proof.
  intros Hne Hc Hs Hk Hp Hr. pose proof (ref_span_tok tok rest Hc Hs) as Hspan. destruct tok as [|b t]; [done|].
  cbn in Hc. apply andb_prop in Hc as [Hb _]. rewrite append_cons in *. destruct (ref_char_cases b Hb) as (N1 & N2 & N3 & N4 & N5 & _).
  cbn [rewrite_expr]. rewrite !(bool_decide_eq_false_2 (b = _)) by done. cbn [andb]. rewrite Hb, Hspan.
  replace (first && bool_decide (String b t ∈ tmplKeywords)) with false.
  2:{ destruct first; [|done]. cbn. by rewrite bool_decide_eq_false_2 by by apply Hk. }
  destruct p as [| | |t'|t'|]; try done.
  - destruct Hp as (-> & -> & r & Hpr & ->). by rewrite Hpr, Hr.
  - destruct Hp as (-> & -> & Hi & ->). destruct (isIdent (String b t)); [|by rewrite Hr].
    rewrite bool_decide_eq_true_2 by by apply Hi. cbn. by rewrite Hr.
Qed.

Definition again (path : string) (first : bool) (ps : list piece) : Prop :=
  ∀ fuel, String.length (authored_all ps) ≤ fuel →
    rewrite_expr fuel (authored_all ps) path first = inr (ps, flat_map (piece_refs path) ps).

(** A literal in front: [c] opens and closes it. *)
Lemma again_quoted path first c lit ps p : c = dquote ∧ p = PDouble lit ∨ c = squote ∧ p = PSingle lit →
  (∀ r, skipQuoted c (lit +:+ String c r) = Some (lit, r)) → again path false ps → again path first (p :: ps).
Proof.
  intros Hp Hs IH [|fuel]; destruct_and?; destruct_or! Hp; destruct Hp as [-> ->]; cbn [authored_all foldr authored];
    rewrite ?append_cons, ?append_assoc, ?one_append; intros Hl; try (cbn in Hl; lia).
  all: cbn in Hl; rewrite length_append in Hl; cbn in Hl; cbn [rewrite_expr];
    rewrite ?(bool_decide_eq_false_2 (squote = dquote)), !bool_decide_eq_true_2, Hs by done;
    fold (authored_all ps) in *; rewrite IH by lia; done.
Qed.
Lemma again_raw path first lit ps : (∀ r, Cut (lit +:+ one bquote +:+ r) (one bquote) = Some (lit, r)) →
  again path false ps → again path first (PRaw lit :: ps).
Proof.
  intros Hs IH [|fuel]; cbn [authored_all foldr authored]; rewrite ?append_cons, ?append_assoc; intros Hl; [cbn in Hl; lia|].
  cbn in Hl. rewrite !length_append in Hl. cbn in Hl. cbn [rewrite_expr].
  rewrite (bool_decide_eq_false_2 (bquote = dquote)), (bool_decide_eq_false_2 (bquote = squote)), bool_decide_eq_true_2, Hs by done.
  fold (authored_all ps) in *. rewrite IH by lia. done.
Qed.
Lemma again_byte path first c ps : isRefChar c = false → c ≠ dquote → c ≠ squote → c ≠ bquote → c ≠ "$"%char →
  bool_decide (c = ":"%char) && HasPrefix (authored_all ps) "=" = false → again path (first && isSpace c) ps →
  again path first (PByte c :: ps).
Proof.
  intros Hr N1 N2 N3 N4 Hd IH [|fuel]; cbn [authored_all foldr authored]; rewrite one_append; intros Hl; [cbn in Hl; lia|].
  cbn in Hl. fold (authored_all ps) in *. cbn [rewrite_expr]. rewrite !(bool_decide_eq_false_2 (c = dquote)), (bool_decide_eq_false_2 (c = squote)),
    (bool_decide_eq_false_2 (c = bquote)), (bool_decide_eq_false_2 (c = "$"%char)), Hd, Hr by done.
  by rewrite IH by lia.
Qed.
End rewriter.

Section expressions.
Context (rw : string → string) (conv : TemplateRef → TemplateRef) `{!Rewriter rw conv} (path : string).

Definition rewritten_to (fuel : nat) (expr : string) (first : bool) (ps : list piece) (refs : list TemplateRef) : Prop :=
  let ps' := rw_piece rw <$> ps in
  rewrite_refs fuel expr rw = authored_all ps' ∧ same_start expr (authored_all ps') ∧
  refs = flat_map (piece_refs path) ps ∧ again path first ps'.

Lemma rewritten_tok fuel tok rest ps refs p rs first first' : tok ≠ "" → all_chars isRefChar tok = true → starts_ref rest = false →
  rw_piece rw p = match p with PRef _ => PRef (rw tok) | _ => PWord (rw tok) end → authored p = tok →
  (p = PRef tok ∧ isRefToken tok = true ∧ (∃ r, parseRef tok path = inr r ∧ rs = [r]) ∨
   p = PWord tok ∧ isRefToken tok = false ∧ (isIdent tok = true → tok ∈ tmplAllowedIdents) ∧ rs = [] ∧ (first = true → tok ∉ tmplKeywords)) →
  first' = false → rewritten_to fuel rest first' ps refs → rewritten_to (S fuel) (tok +:+ rest) first (p :: ps) (rs ++ refs).
Proof.
  intros Hne Hc Hs Ep Ea Hp -> (I1 & I2 & -> & I4). pose proof (same_start_ref _ _ I2) as Hs'. rewrite Hs in Hs'.
  destruct (rw_chars tok Hne Hc) as [Hc' Hne'].
  assert (authored_all (rw_piece rw <$> p :: ps) = rw tok +:+ authored_all (rw_piece rw <$> ps)) as E.
  { cbn. rewrite Ep. by destruct p; destruct_or! Hp; destruct_and! Hp. }
  unfold rewritten_to. rewrite E. split_and!.
  - rewrite <- I1. pose proof (ref_span_tok tok rest Hc Hs) as Hspan. destruct tok as [|b t]; [done|]. cbn in Hc. apply andb_prop in Hc as [Hb _].
    destruct (ref_char_cases b Hb) as (N1 & N2 & N3 & _). rewrite append_cons in *. cbn [rewrite_refs].
    rewrite !(bool_decide_eq_false_2 (b = _)) by done. cbn [orb]. by rewrite Hb, Hspan.
  - destruct tok as [|b t]; [done|]. destruct (rw (String b t)) as [|b' t']; [done|]. cbn in Hc, Hc'.
    apply andb_prop in Hc as [Hb _]. apply andb_prop in Hc' as [Hb' _]. rewrite !append_cons. by right.
  - cbn [flat_map]. f_equal. destruct Hp as [(-> & _ & r & Hr & ->)|(-> & _ & _ & -> & _)]; [cbn; by rewrite Hr|done].
  - intros fuel' Hl. cbn [fmap list_fmap] in *. rewrite E in *. rewrite length_append in Hl.
    destruct fuel' as [|fuel']; [destruct (rw tok); [done|cbn in Hl; lia]|].
    assert (rewrite_expr fuel' (authored_all (rw_piece rw <$> ps)) path false =
      inr (rw_piece rw <$> ps, flat_map (piece_refs path) (rw_piece rw <$> ps))) as Hrest.
    { apply I4. destruct (rw tok); [done|cbn in Hl; lia]. }
    cbn [flat_map]. apply (rewrite_expr_tok path fuel' (rw tok) _ first _ _ _ _ Hne' Hc' Hs'); [| |done].
    + destruct Hp as [(-> & Ht & r & Hr & ->)|(-> & Ht & Hi & -> & Hk)]; [|by rewrite (rw_word tok Ht)].
      intros _ Hin. apply keyword_not_ref in Hin. destruct (rw_parse tok path r Ht Hr). congruence.
    + rewrite Ep. destruct Hp as [(-> & Ht & r & Hr & ->)|(-> & Ht & Hi & -> & Hk)]; [|by rewrite (rw_word tok Ht)].
      destruct (rw_parse tok path r Ht Hr) as [Ht' Hr']. split_and!; [done..|]. exists (conv r). cbn. by rewrite Hr'.
Qed.

Lemma rewrite_refs_spec fuel : ∀ expr first ps refs,
  rewrite_expr fuel expr path first = inr (ps, refs) → rewritten_to fuel expr first ps refs.
Proof.
  induction fuel as [|fuel IH]; intros expr first ps refs; destruct expr as [|c rest]; cbn [rewrite_expr];
    try done; try (intros [= <- <-]; split_and!; try done; by intros []).
  assert (∀ p rs r f, match rewrite_expr fuel r path f with inl e => inl e | inr (ps', rs') => inr (p :: ps', rs ++ rs') end
      = inr (ps, refs) → ∃ ps' rs', ps = p :: ps' ∧ refs = rs ++ rs' ∧ rewritten_to fuel r f ps' rs') as Hrec.
  { intros p rs r f E. destruct (rewrite_expr fuel r path f) as [|[ps' rs']] eqn:Ef; [done|]. injection E as <- <-.
    eexists _, _. split_and!; [done..|]. by eapply IH. }
  case_bool_decide as H1.
  { subst c. destruct (skipQuoted _ rest) as [[lit r]|] eqn:Es; [|done]. intros (ps' & rs' & -> & -> & I1 & I2 & -> & I4)%Hrec.
    pose proof (quoted_skip rw conv dquote lit r rest ltac:(by left) Es) as Hq. split_and!; [| |done|].
    - cbn [rewrite_refs]. rewrite bool_decide_eq_true_2 by done. cbn [orb]. rewrite Es, I1. cbn. by rewrite append_assoc.
    - by left.
    - cbn [fmap list_fmap rw_piece]. eapply again_quoted; [by left|done|done]. }
  case_bool_decide as H2.
  { subst c. destruct (skipQuoted _ rest) as [[lit r]|] eqn:Es; [|done]. intros (ps' & rs' & -> & -> & I1 & I2 & -> & I4)%Hrec.
    pose proof (quoted_skip rw conv squote lit r rest ltac:(by right) Es) as Hq. split_and!; [| |done|].
    - cbn [rewrite_refs]. rewrite (bool_decide_eq_true_2 (squote = squote)), orb_true_r, Es, I1 by done. cbn. by rewrite append_assoc.
    - by left.
    - cbn [fmap list_fmap rw_piece]. eapply again_quoted; [by right|done|done]. }
  case_bool_decide as H3.
  { subst c. destruct (Cut rest _) as [[lit r]|] eqn:Es; [|done]. intros (ps' & rs' & -> & -> & I1 & I2 & -> & I4)%Hrec.
    pose proof (raw_cut rw conv lit r rest Es) as Hq. split_and!; [| |done|].
    - cbn [rewrite_refs]. rewrite (bool_decide_eq_false_2 (bquote = dquote)), (bool_decide_eq_false_2 (bquote = squote)),
        (bool_decide_eq_true_2 (bquote = bquote)) by done. cbn [orb]. rewrite Es, I1. cbn. by rewrite append_assoc.
    - by left.
    - cbn [fmap list_fmap rw_piece]. by apply again_raw. }
  case_bool_decide as H4; [done|]. destruct (bool_decide (c = ":"%char) && _) eqn:H5; [done|]. destruct (isRefChar c) eqn:H6.
  - destruct (ref_span (String c rest)) as [tok r] eqn:Er. destruct (ref_span_chars _ _ _ Er) as [Hc Hs].
    pose proof (ref_span_ne _ _ _ _ H6 Er) as Hne. pose proof (ref_span_spec _ _ _ Er) as ->.
    destruct (first && bool_decide (tok ∈ tmplKeywords)) eqn:Hk; [done|]. destruct (isRefToken tok) eqn:Ht.
    + destruct (parseRef tok path) as [|ref] eqn:Ep; [done|]. intros (ps' & rs' & -> & -> & R)%Hrec.
      apply (rewritten_tok fuel tok r ps' rs' (PRef tok) [ref] first false); try done. left. eauto.
    + destruct (isIdent tok && _) eqn:Hi; [done|]. intros (ps' & rs' & -> & -> & R)%Hrec.
      apply (rewritten_tok fuel tok r ps' rs' (PWord tok) [] first false); try done. right. split_and!; try done.
      * intros Hid. rewrite Hid in Hi. by apply negb_false_iff, bool_decide_eq_true in Hi.
      * intros ->. by apply bool_decide_eq_false in Hk.
  - intros (ps' & rs' & -> & -> & I1 & I2 & -> & I4)%Hrec. split_and!; [| |done|].
    + cbn [rewrite_refs]. rewrite !(bool_decide_eq_false_2 (c = _)) by done. cbn [orb]. by rewrite H6, I1.
    + by left.
    + cbn [fmap list_fmap rw_piece]. apply again_byte; try done.
      by rewrite (same_start_prefix "=" rest) by done.
Qed.

(** The strict references are converted one by one. *)
Lemma strict_flat {A} (f : A → list TemplateRef) l : strict (flat_map f l) = flat_map (λ x, strict (f x)) l.
Proof. unfold strict. induction l as [|x l IH]; [done|]. cbn. by rewrite List.filter_app, IH. Qed.
Lemma strict_literal lit : strict (match literalRef lit path with Some r => [r] | None => [] end) = [].
Proof.
  destruct (literalRef lit path) as [r|] eqn:E; [|done]. unfold strict. cbn. by rewrite (literalRef_lenient _ _ _ E).
Qed.
Lemma strict_conv expr ps refs : rewritten expr path ps refs →
  strict (flat_map (piece_refs path) (rw_piece rw <$> ps)) = conv <$> strict (flat_map (piece_refs path) ps).
Proof.
  intros [_ Hperm Hl Hr _ _].
  assert (∀ t, PRef t ∈ ps → isRefToken t = true ∧ ∃ r, parseRef t path = inr r) as Href.
  { intros t Ht. rewrite Forall_forall in Hperm. split; [by apply (Hperm _ Ht)|].
    assert (t ∈ lookups ps) as Hin by (apply list_elem_of_omap; by exists (PRef t)).
    rewrite <- Hl in Hin. apply list_elem_of_fmap in Hin as (r & -> & Hin). rewrite Forall_forall in Hr. eauto. }
  clear Hperm Hl Hr. rewrite !strict_flat. induction ps as [|p ps IH]; [done|]. cbn [fmap list_fmap flat_map].
  rewrite IH by set_solver. rewrite fmap_app. f_equal.
  destruct p as [l|l|l|t|t|c]; cbn [rw_piece piece_refs]; rewrite ?strict_literal; try done.
  destruct (Href t ltac:(set_solver)) as (Ht & r & Hr). destruct (rw_parse t path r Ht Hr) as [_ Hr']. rewrite Hr, Hr'.
  unfold strict. cbn. by rewrite (proj2 (parseRef_ok _ _ _ Hr)), (proj2 (parseRef_ok _ _ _ Hr')).
Qed.
End expressions.

(** ** The rewritten action ends where the original did *)

Section closing.
Context (rw : string → string) (conv : TemplateRef → TemplateRef) `{!Rewriter rw conv}.

Definition closes (expr : string) : Prop :=
  ∀ fuel b, String.length expr < fuel → findActionEnd fuel (expr +:+ tmplRightDelim +:+ b) = inr (expr, b).
Lemma closed_closes expr : closed expr → closes expr.
Proof. intros H fuel b Hf. by apply (findActionEnd_any _ _ _ _ H). Qed.
Lemma closes_closed expr : closes expr → closed expr.
Proof. intros H. unfold closed. rewrite <-(append_nil_r tmplRightDelim). apply H. lia. Qed.

(** One piece of text in front. *)
Lemma closes_refs w expr : all_chars isRefChar w = true → closes (w +:+ expr) ↔ closes expr.
Proof.
  intros Hw. induction w as [|c w IH]; [done|]. cbn in Hw. apply andb_prop in Hw as [Hc Hw]. rewrite <- IH by done. clear IH.
  destruct (ref_char_cases c Hc) as (N1 & N2 & N3 & _ & _ & N6). rewrite append_cons. split; intros H.
  - intros fuel b Hf. specialize (H (S fuel) b ltac:(cbn; lia)). rewrite append_cons in H. cbn [findActionEnd] in H.
    rewrite !bool_decide_eq_false_2 in H by done. cbn [orb] in H. destruct (findActionEnd fuel _) as [|[a b']]; [done|].
    injection H as H1 ->. do 2 f_equal. done.
  - intros [|fuel] b Hf; [lia|]. rewrite append_cons. cbn [findActionEnd]. rewrite !bool_decide_eq_false_2 by done. cbn [orb].
    by rewrite H by (cbn in Hf; lia).
Qed.
Lemma closes_byte c expr : c ≠ dquote → c ≠ squote → c ≠ bquote → closes (String c expr) ↔
  (c = "}"%char → HasPrefix (expr +:+ tmplRightDelim) (one "}") = false) ∧ closes expr.
Proof.
  intros N1 N2 N3. assert (∀ b, HasPrefix (String "}" (expr +:+ tmplRightDelim +:+ b)) tmplRightDelim =
    HasPrefix (expr +:+ tmplRightDelim) (one "}")) as Hp.
  { intros b. destruct expr as [|x expr]; [done|]. rewrite !append_cons. cbn. by rewrite !andb_true_r. }
  split.
  - intros H. assert (c = "}"%char → HasPrefix (expr +:+ tmplRightDelim) (one "}") = false) as Hc.
    { intros ->. specialize (H (S (S (String.length expr))) "" ltac:(cbn; lia)). rewrite append_cons in H. cbn [findActionEnd] in H.
      rewrite bool_decide_eq_true_2, Hp in H by done. by destruct (HasPrefix (expr +:+ tmplRightDelim) (one "}")). }
    split; [done|]. intros fuel b Hf. specialize (H (S fuel) b ltac:(cbn; lia)). rewrite append_cons in H. cbn [findActionEnd] in H.
    case_bool_decide as E.
    + subst c. rewrite Hp, Hc in H by done. destruct (findActionEnd fuel _) as [|[a b']]; [done|]. injection H as H1 ->. do 2 f_equal. done.
    + rewrite !bool_decide_eq_false_2 in H by done. cbn [orb] in H. destruct (findActionEnd fuel _) as [|[a b']]; [done|].
      injection H as H1 ->. do 2 f_equal. done.
  - intros [Hc H] [|fuel] b Hf; [lia|]. rewrite append_cons. cbn [findActionEnd]. case_bool_decide as E.
    + subst c. rewrite Hp, Hc by done. by rewrite H by (cbn in Hf; lia).
    + rewrite !bool_decide_eq_false_2 by done. cbn [orb]. by rewrite H by (cbn in Hf; lia).
Qed.
Lemma closes_quoted c lit expr : c = dquote ∨ c = squote → (∀ r, skipQuoted c (lit +:+ String c r) = Some (lit, r)) →
  closes (String c lit +:+ String c expr) ↔ closes expr.
Proof.
  intros Hc Hs. assert (∀ fuel b, findActionEnd (S fuel) ((String c lit +:+ String c expr) +:+ tmplRightDelim +:+ b) =
    match findActionEnd fuel (expr +:+ tmplRightDelim +:+ b) with inl e => inl e | inr (a, b') => inr (String c lit +:+ String c a, b') end) as E.
  { intros fuel b. rewrite !append_cons, append_assoc, append_cons. cbn [findActionEnd].
    rewrite (bool_decide_eq_false_2 (c = "}"%char)) by (intros ->; by destruct Hc).
    replace (bool_decide (c = dquote) || bool_decide (c = squote)) with true
      by (destruct Hc as [->| ->]; [by rewrite bool_decide_eq_true_2|by rewrite (bool_decide_eq_true_2 (squote = squote)), orb_true_r]).
    rewrite Hs. destruct (findActionEnd fuel _) as [|[a b']]; [done|]. by rewrite !append_cons, append_assoc, one_append. }
  split; intros H.
  - specialize (H (S (String.length lit + String.length expr + 3)) ""). rewrite E in H. specialize (H ltac:(slen)).
    destruct (findActionEnd _ _) as [|[a b']] eqn:Ef; [done|]. injection H as H ->.
    apply append_inj_l in H. injection H as ->. intros fuel b Hf. by apply (findActionEnd_any _ _ _ _ Ef).
  - intros [|fuel] b Hf; [lia|]. rewrite E, H; [done|slen].
Qed.
Lemma closes_raw lit expr : (∀ r, Cut (lit +:+ one bquote +:+ r) (one bquote) = Some (lit, r)) →
  closes (String bquote lit +:+ String bquote expr) ↔ closes expr.
Proof.
  intros Hs. assert (∀ fuel b, findActionEnd (S fuel) ((String bquote lit +:+ String bquote expr) +:+ tmplRightDelim +:+ b) =
    match findActionEnd fuel (expr +:+ tmplRightDelim +:+ b) with inl e => inl e | inr (a, b') => inr (String bquote lit +:+ String bquote a, b') end) as E.
  { intros fuel b. rewrite !append_cons, append_assoc, append_cons. cbn [findActionEnd].
    rewrite !(bool_decide_eq_false_2 (bquote = _)), (bool_decide_eq_true_2 (bquote = bquote)) by done. cbn [orb].
    change (String bquote (expr +:+ tmplRightDelim +:+ b)) with (one bquote +:+ (expr +:+ tmplRightDelim +:+ b)).
    rewrite Hs. destruct (findActionEnd fuel _) as [|[a b']]; [done|]. by rewrite !append_cons, append_assoc, one_append. }
  split; intros H.
  - specialize (H (S (String.length lit + String.length expr + 3)) ""). rewrite E in H. specialize (H ltac:(slen)).
    destruct (findActionEnd _ _) as [|[a b']] eqn:Ef; [done|]. injection H as H ->.
    apply append_inj_l in H. injection H as ->. intros fuel b Hf. by apply (findActionEnd_any _ _ _ _ Ef).
  - intros [|fuel] b Hf; [lia|]. rewrite E, H; [done|slen].
Qed.

(** A literal of a closed action is terminated inside it. *)
Lemma closes_literal c rest : c = dquote ∨ c = squote → closes (String c rest) →
  ∃ lit r, skipQuoted c rest = Some (lit, r) ∧ rest = lit +:+ String c r.
Proof.
  intros Hc H. remember (S (String.length rest)) as n eqn:Hn. specialize (H (S n) "" ltac:(cbn; lia)). rewrite append_cons in H. cbn [findActionEnd] in H.
  rewrite (bool_decide_eq_false_2 (c = "}"%char)) in H by (intros ->; by destruct Hc).
  replace (bool_decide (c = dquote) || bool_decide (c = squote)) with true in H
    by (destruct Hc as [->| ->]; [by rewrite bool_decide_eq_true_2|by rewrite (bool_decide_eq_true_2 (squote = squote)), orb_true_r]).
  destruct (skipQuoted c _) as [[lit r]|] eqn:Es; [|done]. destruct (findActionEnd _ r) as [|[a b]]; [done|]. injection H as H _.
  rewrite append_assoc, one_append in H. exists lit, a. split; [|done]. rewrite <- H. by apply (skipQuoted_any _ _ _ _ Es).
Qed.
Lemma closes_raw_literal rest : closes (String bquote rest) →
  ∃ lit r, Cut rest (one bquote) = Some (lit, r) ∧ rest = lit +:+ String bquote r.
Proof.
  intros H. remember (S (String.length rest)) as n eqn:Hn. specialize (H (S n) "" ltac:(cbn; lia)). rewrite append_cons in H. cbn [findActionEnd] in H.
  rewrite !(bool_decide_eq_false_2 (bquote = _)), (bool_decide_eq_true_2 (bquote = bquote)) in H by done. cbn [orb] in H.
  destruct (Cut _ (one bquote)) as [[lit r]|] eqn:Es; [|done]. destruct (findActionEnd _ r) as [|[a b]]; [done|]. injection H as H _.
  rewrite append_assoc in H. exists lit, a. rewrite <- H, one_append. split; [|done]. apply (Cut_any _ _ _ _ Es).
Qed.

Lemma closes_rewrite n : ∀ expr, String.length expr ≤ n → closes expr →
  closes (rewrite_refs n expr rw) ∧ same_start expr (rewrite_refs n expr rw).
Proof.
  induction n as [|n IH]; intros [|c rest] Hl Hc; try (cbn in Hl; lia); [done..|]. cbn in Hl. cbn [rewrite_refs].
  destruct (decide (c = dquote ∨ c = squote)) as [Hq|Hq].
  { destruct (closes_literal c rest Hq Hc) as (lit & r & Es & ->). rewrite Es.
    replace (bool_decide (c = dquote) || bool_decide (c = squote)) with true
      by (destruct Hq as [->| ->]; [by rewrite bool_decide_eq_true_2|by rewrite (bool_decide_eq_true_2 (squote = squote)), orb_true_r]).
    split; [|by left]. apply closes_quoted; [done|by eapply (quoted_skip rw conv)|].
    apply IH; [slen|]. rewrite <- append_cons in Hc. apply closes_quoted in Hc; [done..|]. by apply (skipQuoted_any _ _ _ _ Es). }
  assert (c ≠ dquote ∧ c ≠ squote) as [N1 N2] by tauto. rewrite !(bool_decide_eq_false_2 (c = _)) by done. cbn [orb].
  case_bool_decide as Hb.
  { subst c. destruct (closes_raw_literal rest Hc) as (lit & r & Es & ->). rewrite Es. split; [|by left].
    apply closes_raw; [by eapply (raw_cut rw conv)|]. apply IH; [slen|]. rewrite <- append_cons in Hc.
    apply closes_raw in Hc; [done|]. by apply (Cut_any _ _ _ _ Es). }
  destruct (isRefChar c) eqn:Hr.
  - destruct (ref_span (String c rest)) as [tok r] eqn:Er. destruct (ref_span_chars _ _ _ Er) as [Ht Hs].
    pose proof (ref_span_ne _ _ _ _ Hr Er) as Hne. pose proof (ref_span_spec _ _ _ Er) as E. rewrite E in *.
    destruct (rw_chars tok Hne Ht) as [Ht' Hne']. apply closes_refs in Hc; [|done].
    assert (String.length r ≤ n) as Hlr.
    { apply (f_equal String.length) in E. destruct tok; [done|]. rewrite length_append in E. cbn in E. lia. }
    split; [apply closes_refs; [done|]; by apply IH|]. destruct tok as [|b t]; [done|]. destruct (rw (String b t)) as [|b' t']; [done|].
    cbn in Ht, Ht'. apply andb_prop in Ht as [Hb1 _]. apply andb_prop in Ht' as [Hb2 _]. rewrite !append_cons. by right.
  - apply closes_byte in Hc as [Hbr Hc]; [|done..]. destruct (IH rest ltac:(lia) Hc) as [I1 I2]. split; [|by left].
    apply closes_byte; [done..|]. split; [|done]. intros ->. specialize (Hbr eq_refl).
    destruct rest as [|x rest], (rewrite_refs n _ rw) as [|y s']; try done. rewrite append_cons in *.
    etrans; [|exact Hbr]. by apply (same_start_prefix "}" (String x (rest +:+ tmplRightDelim)) (String y (s' +:+ tmplRightDelim))).
Qed.
End closing.

(** ** Templated strings *)

Section strings.
Context (rw : string → string) (conv : TemplateRef → TemplateRef) `{!Rewriter rw conv}.

Definition rw_seg (s : tmplSegment) : tmplSegment :=
  if isAction s then mkSegment (rewriteExprRefs (seg_text s) rw) true else s.

Lemma rw_seg_literal text : rw_seg <$> literal text = literal text.
Proof. unfold literal. by case_bool_decide. Qed.
Lemma rw_seg_closed expr : closed expr → closed (rewriteExprRefs expr rw).
Proof. intros H%closed_closes. by apply closes_closed, (closes_rewrite rw conv). Qed.
Lemma rw_segmented segs : segmented segs → segmented (rw_seg <$> segs).
Proof.
  induction 1 as [text Ht|text expr segs Ht Hc Hs IH]; [rewrite rw_seg_literal; by constructor|].
  rewrite fmap_app, rw_seg_literal. cbn. constructor; [done|by apply rw_seg_closed|done].
Qed.
Lemma segmented_action_in segs : segmented segs → HasTemplate (unsplit segs) = true → ∃ s, s ∈ segs ∧ isAction s = true.
Proof.
  intros [text Ht|text expr segs' Ht Hc Hs]; [rewrite unsplit_text; congruence|]. intros _. exists (mkSegment expr true).
  split; [set_solver|done].
Qed.
Lemma action_has_template segs s : s ∈ segs → isAction s = true → HasTemplate (unsplit segs) = true.
Proof.
  intros Hs Ha. destruct (HasTemplate (unsplit segs)) eqn:E; [done|]. exfalso. apply HasTemplate_false in E.
  pose proof (Cut_None _ _ E) as Hn. clear E. assert (∃ a b, unsplit segs = a +:+ tmplLeftDelim +:+ b) as (a & b & Eu); [|by apply (Hn a b)].
  clear Hn. induction segs as [|x segs IH]; [set_solver|]. cbn [unsplit foldr]. fold (unsplit segs).
  apply elem_of_cons in Hs as [->|Hs].
  - rewrite Ha. by eexists "", _.
  - destruct (IH Hs) as (a & b & ->). destruct (isAction x).
    + exists (tmplLeftDelim +:+ seg_text x +:+ tmplRightDelim +:+ a), b. by rewrite !append_assoc.
    + exists (seg_text x +:+ a), b. by rewrite append_assoc.
Qed.

(** The rewritten string splits into the rewritten segments. *)
Lemma rewriteTemplateString_split src segs : HasTemplate src = true → splitTemplate src = inr segs →
  ∃ src', rewriteTemplateString src rw = inr src' ∧ HasTemplate src' = true ∧ splitTemplate src' = inr (rw_seg <$> segs).
Proof.
  intros Ht Es. exists (unsplit (rw_seg <$> segs)). unfold rewriteTemplateString. rewrite Ht, Es. cbn [negb].
  unfold splitTemplate in Es. apply split_template_sound in Es as [Hs Hu]. split_and!.
  - f_equal. clear -segs. induction segs as [|s segs IH]; [done|]. cbn. rewrite IH. unfold rewrite_segment, rw_seg.
    destruct s as [t []]; cbn; [|done]. by rewrite !append_assoc.
  - destruct (segmented_action_in segs Hs ltac:(by rewrite Hu)) as (s & Hin & Ha).
    apply (action_has_template _ (rw_seg s)); [by apply list_elem_of_fmap_2|]. unfold rw_seg. by rewrite Ha.
  - by apply split_template_complete; [apply rw_segmented|].
Qed.

Lemma rewriteExpr_rw path expr ps refs : rewriteExpr expr path = inr (ps, refs) →
  ∃ ps' refs', rewriteExpr (rewriteExprRefs expr rw) path = inr (ps', refs') ∧ strict refs' = conv <$> strict refs.
Proof.
  intros H. unfold rewriteExpr in *. pose proof (rewrite_refs_spec rw conv path _ _ _ _ _ H) as (E & _ & -> & Ha).
  eexists _, _. unfold rewriteExprRefs. rewrite E, Ha by done. split; [done|].
  eapply (strict_conv rw conv path). by eapply rewrite_expr_spec.
Qed.
Lemma strict_app a b : strict (a ++ b) = strict a ++ strict b.
Proof. apply List.filter_app. Qed.
Lemma rewrite_segs_rw whole path segs : ∀ out refs, rewrite_segs whole path segs = ([], out, refs) →
  ∃ out' refs', rewrite_segs whole path (rw_seg <$> segs) = ([], out', refs') ∧ strict refs' = conv <$> strict refs.
Proof.
  induction segs as [|[text act] segs IH]; intros out refs; rewrite ?fmap_cons; cbn [rewrite_segs].
  { intros [= <- <-]. by eexists _, _. }
  destruct (rewrite_segs whole path segs) as [[errs out1] refs1] eqn:E. destruct act; cbn [isAction negb seg_text].
  - destruct (rewriteExpr text path) as [|[ps rs]] eqn:Ex; [done|]. intros [= -> <- <-].
    destruct (IH _ _ eq_refl) as (out2 & refs2 & E2 & Hs2). destruct (rewriteExpr_rw _ _ _ _ Ex) as (ps' & rs' & Ex' & Hs').
    change (rw_seg (mkSegment text true)) with (mkSegment (rewriteExprRefs text rw) true). rewrite E2. cbn [isAction negb seg_text]. rewrite Ex'. eexists _, _. split; [done|]. by rewrite !strict_app, fmap_app, Hs2, Hs'.
  - intros [= -> <- <-]. destruct (IH _ _ eq_refl) as (out2 & refs2 & E2 & Hs2).
    rewrite E2. cbn. eauto.
Qed.

(** The lint of the rewritten string: at most text/template can object. *)
Lemma parseString_rw tp src path st refs : HasTemplate src = true → parseString tp src path = ([], st, refs) →
  ∃ src' errs' st' refs', rewriteTemplateString src rw = inr src' ∧ HasTemplate src' = true ∧
    parseString tp src' path = (errs', st', refs') ∧ errs' ⊆ [TemplateError path ParseFailure] ∧
    strict refs' = conv <$> strict refs.
Proof.
  intros Ht. unfold parseString at 1. destruct (splitTemplate src) as [|segs] eqn:Es; [done|]. cbv zeta.
  destruct (rewriteTemplateString_split src segs Ht Es) as (src' & Er & Ht' & Es').
  set (whole := _ && _). destruct (rewrite_segs whole path segs) as [[[|] out] refs1] eqn:E; [|done]. intros H.
  assert (refs = refs1) as -> by (by destruct (tp out); injection H). clear H.
  destruct (rewrite_segs_rw whole path segs _ _ E) as (out' & refs' & E' & Hs').
  assert (parseString tp src' path = if tp out' then ([], Some (mkStrTemplate path src' out' whole), refs')
                                     else ([TemplateError path ParseFailure], None, refs')) as Hp.
  { unfold parseString. rewrite Es'. cbv zeta.
    assert (forallb (λ s, isAction s || blank (seg_text s)) (rw_seg <$> segs) && (count_actions (rw_seg <$> segs) =? 1)%nat = whole) as ->.
    { unfold whole. clear. f_equal; [|f_equal]; induction segs as [|[t []] segs IH]; cbn; try done; by rewrite IH. }
    by rewrite E'. }
  rewrite <- Hs'. destruct (tp out'); (eexists src', _, _, _; split_and!; [done|done|exact Hp|set_solver|done]).
Qed.
End strings.
