(* ===== verification/CodecFacts.v ===== *)
(** Round trips of the JSON codec of internal/dag: what json.Marshal writes for
    each struct of a definition, the strict decoder accepts and reads back.

    An encoded struct is a list of optional members ([emit]); the laws of one
    field are proved once per kind of field, and a struct's instance of
    [RoundTrip] follows by instance resolution. *)
From Stdlib Require Import QArith.
From S2P Require Import Prelude Issues GoStd Retry StoreModel Config Template Dag Validate ValidateGraph Codec Expansion Decode ExpansionFacts.
Open Scope Z_scope.

Lemma flat_map_nil {A B} (f : A → list B) l : flat_map f l = [] ↔ ∀ x, x ∈ l → f x = [].
Proof.
  induction l as [|x l IH]; cbn; [set_solver|]. rewrite app_nil, IH. setoid_rewrite elem_of_cons. naive_solver.
Qed.

(** ** Objects as optional members *)

Definition slots : Type := list (string * option json).
Definition emit (sl : slots) : list (string * json) := omap (λ p, pair p.1 <$> p.2) sl.
Fixpoint slot (k : string) (sl : slots) : option json :=
  match sl with
  | [] => None
  | (k', o) :: r => if String.eqb k' k then o else slot k r
  end.
Fixpoint field_type (k : string) (fs : list (string * gotype)) : option gotype :=
  match fs with
  | [] => None
  | (k', t) :: r => if String.eqb k' k then Some t else field_type k r
  end.

Definition slot_str (s : string) : option json := if bool_decide (s = "") then None else Some (JStr s).
Definition slot_int (n : Z) : option json := if n =? 0 then None else Some (JNum n).
Definition slot_bool (b : bool) : option json := if b then Some (JBool b) else None.
Definition slot_list (l : list json) : option json := match l with [] => None | _ => Some (JArr l) end.

Lemma emit_app a b : emit a ++ emit b = emit (a ++ b).
Proof. unfold emit. by rewrite omap_app. Qed.
Lemma emit_field k v : field k v = emit [(k, Some v)].
Proof. done. Qed.
Lemma emit_opt k o : omit_opt k o = emit [(k, o)].
Proof. by destruct o. Qed.
Lemma emit_str k s : omit_str k s = emit [(k, slot_str s)].
Proof. unfold omit_str, slot_str. by case_bool_decide. Qed.
Lemma emit_int k n : omit_int k n = emit [(k, slot_int n)].
Proof. unfold omit_int, slot_int. by destruct (n =? 0). Qed.
Lemma emit_bool k b : omit_bool k b = emit [(k, slot_bool b)].
Proof. by destruct b. Qed.
Lemma emit_list k l : omit_list k l = emit [(k, slot_list l)].
Proof. by destruct l. Qed.
Lemma emit_if (b : bool) k v : (if b then field k v else []) = emit [(k, if b then Some v else None)].
Proof. by destruct b. Qed.

Lemma emit_cons k o sl : emit ((k, o) :: sl) = match o with Some v => (k, v) :: emit sl | None => emit sl end.
Proof. by destruct o. Qed.
Lemma emit_elem k v sl : (k, v) ∈ emit sl ↔ (k, Some v) ∈ sl.
Proof.
  unfold emit. rewrite list_elem_of_omap. split.
  - intros ([k' o] & Hin & Hy). destruct o; [|done]. cbn in Hy. by simplify_eq.
  - intros H. by exists (k, Some v).
Qed.
Lemma emit_keys sl : NoDup sl.*1 → NoDup (emit sl).*1.
Proof.
  induction sl as [|[k o] sl IH]; [by constructor|]. rewrite fmap_cons, NoDup_cons, emit_cons. intros [Hi Hn].
  destruct o as [v|]; [|by apply IH]. rewrite fmap_cons. constructor; [|by apply IH].
  intros ([k' w] & Ek & Hx%emit_elem)%list_elem_of_fmap. cbn in Ek. subst k'. apply Hi. by apply (list_elem_of_fmap_2 fst) in Hx.
Qed.
Lemma slot_elem k sl v : slot k sl = Some v → (k, Some v) ∈ sl.
Proof.
  induction sl as [|[k' o] sl IH]; cbn; [done|]. destruct (String.eqb_spec k' k) as [->|Hne]; intros H.
  - subst. apply list_elem_of_here.
  - by apply list_elem_of_further, IH.
Qed.
Lemma elem_slot k sl v : NoDup sl.*1 → (k, Some v) ∈ sl → slot k sl = Some v.
Proof.
  induction sl as [|[k' o] sl IH]; cbn; [set_solver|]. rewrite NoDup_cons, elem_of_cons. intros [Hi Hn] [[= <- <-]|Hin].
  - by rewrite String.eqb_refl.
  - destruct (String.eqb_spec k' k) as [->|Hne]; [|by apply IH]. destruct Hi. by apply (list_elem_of_fmap_2 fst) in Hin.
Qed.
Definition slot_float (q : Q) : option json := if Qeq_bool q 0 then None else Some (JFloat q).
Lemma emit_float k q : (if Qeq_bool q 0 then [] else field k (JFloat q)) = emit [(k, slot_float q)].
Proof. unfold slot_float. by destruct (Qeq_bool q 0). Qed.

(** The members of an object with distinct keys. *)
Lemma members_NoDup l k v : NoDup l.*1 → members (JObj l) !! k = Some v ↔ (k, v) ∈ l.
Proof.
  intros Hn. unfold members, rawObject, object. cbn.
  rewrite <- (fin_maps.elem_of_list_to_map (M := gmap string) (reverse l) k v); [by rewrite elem_of_reverse|by rewrite reverse_Permutation].
Qed.
Lemma members_emit sl k : NoDup sl.*1 → members (JObj (emit sl)) !! k = slot k sl.
Proof.
  intros Hn. apply option_eq. intros v. rewrite members_NoDup, emit_elem by by apply emit_keys.
  split; [by apply elem_slot|apply slot_elem].
Qed.

(** ** What the decoder reports of one member *)

(** A member of a declared type is accepted, and has no unknown field inside. *)
Definition types (t : option gotype) (o : option json) : Prop :=
  match t, o with Some t, Some v => unmarshals t v = true | _, _ => True end.
Definition clean (t : option gotype) (o : option json) : Prop :=
  match t, o with Some t, Some v => ∀ path, checkUnknownFields t v path = [] | None, Some _ => False | _, None => True end.

Lemma unmarshals_fields fs l : unmarshals (TStruct fs) (JObj l) = true ↔ ∀ k v, (k, v) ∈ l → types (field_type k fs) (Some v).
Proof.
  cbn. rewrite forallb_forall. split.
  - intros H k v Hin. apply list_elem_of_In, H in Hin. cbn in Hin. clear H. induction fs as [|[k' t] fs IH]; [done|]. cbn in *.
    destruct (String.eqb_spec k' k) as [->|Hne]; [by rewrite bool_decide_eq_true_2 in Hin|].
    rewrite bool_decide_eq_false_2 in Hin by done. by apply IH.
  - intros H [k v] Hin. apply list_elem_of_In, H in Hin. cbn in *. clear H. induction fs as [|[k' t] fs IH]; [done|]. cbn in *.
    destruct (String.eqb_spec k' k) as [->|Hne]; [by rewrite bool_decide_eq_true_2|].
    rewrite bool_decide_eq_false_2 by done. by apply IH.
Qed.
Lemma clean_fields fs v path : (∀ k, clean (field_type k fs) (members v !! k)) → checkUnknownFields (TStruct fs) v path = [].
Proof.
  intros H. unfold members in H. cbn. destruct (rawObject v) as [m|]; [|done]. cbn in H. apply flat_map_nil. intros k [w Hw]%elem_of_sortedKeys. specialize (H k). rewrite Hw in *. cbn. clear Hw v m.
  induction fs as [|[k' t] fs IH]; [done|]. cbn in *.
  destruct (String.eqb_spec k' k) as [->|Hne]; [by rewrite bool_decide_eq_true_2|].
  rewrite bool_decide_eq_false_2 by done. by apply IH.
Qed.

Lemma types_emit fs sl : Forall (λ p, types (field_type p.1 fs) p.2) sl → unmarshals (TStruct fs) (JObj (emit sl)) = true.
Proof.
  rewrite Forall_forall, unmarshals_fields. intros H k v Hin%emit_elem. by apply H in Hin.
Qed.
Lemma clean_emit fs sl path : NoDup sl.*1 → Forall (λ p, clean (field_type p.1 fs) p.2) sl →
  checkUnknownFields (TStruct fs) (JObj (emit sl)) path = [].
Proof.
  intros Hn H. rewrite Forall_forall in H. apply clean_fields. intros k. rewrite members_emit by done.
  destruct (slot k sl) as [v|] eqn:E; [|by destruct (field_type k fs)]. by apply (H (k, Some v)), slot_elem.
Qed.

(** A member of an accepted struct is of its type. *)
Lemma member_types fs v k : unmarshals (TStruct fs) v = true → types (field_type k fs) (members v !! k).
Proof.
  intros H. destruct (members v !! k) as [w|] eqn:E; [|by destruct (field_type k fs)].
  destruct v; try done. unfold members, rawObject, object in E. cbn in E.
  apply (elem_of_list_to_map_2 (M := gmap string)) in E. rewrite elem_of_reverse in E.
  by eapply unmarshals_fields in H.
Qed.

(** ** Structs *)

(** What [enc] writes for a value [dec] read, the decoder accepts without a
    diagnostic, and [dec] reads it back up to [norm]. *)
Class RoundTripUpTo {A} (t : gotype) (enc : A → json) (dec : json → A) (norm : A → A) : Prop := {
  rt_nonnull : ∀ a, enc a ≠ JNull;
  rt_read : ∀ v, dec (enc (dec v)) = norm (dec v);
  rt_types : ∀ v, unmarshals t v = true → unmarshals t (enc (dec v)) = true;
  rt_clean : ∀ v path, checkUnknownFields t (enc (dec v)) path = []
}.
Notation RoundTrip t enc dec := (RoundTripUpTo t enc dec id).

(** ** One field *)

Lemma rd_str_slot s : rd_str (slot_str s) = s.
Proof. unfold slot_str. by case_bool_decide. Qed.
Lemma rd_int_slot n : rd_int (slot_int n) = n.
Proof. unfold slot_int. destruct (Z.eqb_spec n 0); by subst. Qed.
Lemma rd_bool_slot b : rd_bool (slot_bool b) = b.
Proof. by destruct b. Qed.
Lemma rd_pint_slot o : rd_pint (JNum <$> o) = o.
Proof. by destruct o. Qed.
Lemma rd_pfloat_slot o : rd_pfloat (JFloat <$> o) = o.
Proof. by destruct o. Qed.

Lemma rd_float_slot o : rd_float (slot_float (rd_float o)) = rd_float o.
Proof.
  unfold slot_float, rd_float. set (q := default 0%Q (rd_pfloat o)). destruct (Qeq_bool (Qred q) 0) eqn:E; cbn.
  - apply Qeq_bool_eq in E. rewrite Qred_correct in E. apply Qred_complete in E. by rewrite E.
  - apply Qred_complete, Qred_correct.
Qed.

Lemma types_str s : types (Some TString) (slot_str s).
Proof. unfold slot_str. by case_bool_decide. Qed.
Lemma types_int o : types (Some TInt) o → types (Some TInt) (slot_int (rd_int o)).
Proof. unfold slot_int. destruct o as [[]|]; try done. cbn. by destruct (n =? 0). Qed.
Lemma types_bool b : types (Some TBool) (slot_bool b).
Proof. by destruct b. Qed.
Lemma types_pint o : types (Some (TPtr TInt)) o → types (Some (TPtr TInt)) (JNum <$> rd_pint o).
Proof. by destruct o as [[]|]. Qed.
Lemma types_pfloat o : types (Some (TPtr TFloat)) (JFloat <$> o).
Proof. by destruct o. Qed.
Lemma types_float q : types (Some TFloat) (slot_float q).
Proof. unfold slot_float. by destruct (Qeq_bool q 0). Qed.
Lemma types_raw o : types (Some TRaw) o.
Proof. by destruct o. Qed.

Lemma clean_none t : clean t None.
Proof. by destruct t. Qed.
Lemma clean_leaf t o : (match t with TRaw | TString | TInt | TFloat | TBool | TPtr (TInt | TFloat) => true | _ => false end) = true →
  clean (Some t) o.
Proof. destruct o; [|done]. by destruct t as [| | | | |[]| | |]. Qed.

Lemma default_plist {A} (f : json → A) o : default [] (rd_plist f o) = rd_list f o.
Proof. by destruct o as [[]|]. Qed.

(** An explicit empty list is written as an absent one. *)
Definition nil_empty {A} (o : option (list A)) : option (list A) := match o with Some [] => None | r => r end.

Section fields.
Context {A : Type} (t : gotype) (enc : A → json) (dec : json → A) `{!RoundTrip t enc dec}.

Lemma rt_id v : dec (enc (dec v)) = dec v.
Proof. by rewrite (rt_read (t := t)). Qed.
Lemma rd_list_slot o : rd_list dec (slot_list (enc <$> rd_list dec o)) = rd_list dec o.
Proof.
  destruct o as [[]|]; try done. cbn. destruct l as [|x l]; [done|]. cbn. f_equal; [by apply rt_id|].
  rewrite <- list_fmap_compose, <- list_fmap_compose. apply list_fmap_ext. intros. by apply rt_id.
Qed.
Lemma rd_ptr_slot o : rd_ptr dec (enc <$> rd_ptr dec o) = rd_ptr dec o.
Proof.
  assert (∀ v, rd_ptr dec (Some (enc (dec v))) = Some (dec v)) as H.
  { intros v. pose proof (rt_nonnull (t := t) (dec v)). unfold rd_ptr. rewrite <- (rt_id v) at 2. by destruct (enc (dec v)). }
  destruct o as [[]|]; try done; apply H.
Qed.
Lemma rd_plist_slot o : rd_plist dec (slot_list (enc <$> rd_list dec o)) =
  nil_empty (rd_plist dec o).
Proof.
  destruct o as [[]|]; try done. cbn. destruct l as [|x l]; [done|]. cbn. do 2 f_equal; [by apply rt_id|].
  rewrite <- list_fmap_compose, <- list_fmap_compose. apply list_fmap_ext. intros. by apply rt_id.
Qed.
Lemma types_list o : types (Some (TSlice t)) o → types (Some (TSlice t)) (slot_list (enc <$> rd_list dec o)).
Proof.
  destruct o as [[]|]; try done. unfold rd_list. intros H. destruct (enc <$> (dec <$> l)) eqn:E; [done|].
  unfold slot_list, types. rewrite <- E. cbn in *. rewrite forallb_forall in *. intros w Hw.
  apply list_elem_of_In, list_elem_of_fmap in Hw as (a & -> & (v & -> & Hv)%list_elem_of_fmap).
  apply rt_types, H. by apply list_elem_of_In.
Qed.
Lemma types_ptr o : types (Some (TPtr t)) o → types (Some (TPtr t)) (enc <$> rd_ptr dec o).
Proof.
  assert (∀ v, unmarshals t v = true → types (Some (TPtr t)) (Some (enc (dec v)))) as H.
  { intros v Hv%rt_types. cbn. by destruct (enc (dec v)). }
  destruct o as [[]|]; try done; cbn [types unmarshals]; intros Hv; by apply H.
Qed.
Lemma clean_list o : clean (Some (TSlice t)) (slot_list (enc <$> rd_list dec o)).
Proof.
  destruct o as [[]|]; try done. unfold rd_list. destruct (enc <$> (dec <$> l)) eqn:E; [done|].
  unfold slot_list, clean. rewrite <- E. clear E. intros path. cbn. rename l into vs. assert (∀ f : nat → string, concat (imap (λ i v, checkUnknownFields t v (f i)) (enc <$> (dec <$> vs))) = []) as H.
  { induction vs as [|v vs IH]; intros f; [done|]. cbn. rewrite (rt_clean v). apply (IH (f ∘ S)). }
  apply H.
Qed.
Lemma clean_ptr o : clean (Some (TPtr t)) (enc <$> rd_ptr dec o).
Proof. destruct o as [[]|]; try done; intros path; apply (rt_clean (t := t)). Qed.
End fields.

(** ** Instances *)

Instance rt_string : RoundTrip TString JStr str_of.
Proof. by split. Qed.
Instance rt_class : RoundTrip TString (λ c, JStr (class_text c)) read_class.
Proof. split; try done. intros v. by destruct (read_class v). Qed.

#[local] Arguments members : simpl never.
#[local] Arguments unmarshals : simpl never.
#[local] Arguments checkUnknownFields : simpl never.
#[local] Arguments omit_str : simpl never.
#[local] Arguments omit_list : simpl never.
#[local] Arguments omit_opt : simpl never.
#[local] Arguments field : simpl never.
#[local] Arguments rd_float : simpl never.

(** [JObj (omit_str ... ++ ...)] as [JObj (emit ...)]. *)
Ltac to_slots := rewrite ?default_plist, ?emit_float, ?emit_if, ?emit_field, ?emit_opt, ?emit_str, ?emit_int, ?emit_bool, ?emit_list, ?emit_app; cbn [app].
Ltac distinct_keys := cbn [fmap list_fmap fst]; apply (bool_decide_unpack _); vm_compute; exact I.
Ltac read_slots :=
  rewrite ?members_emit by distinct_keys;
  cbn [slot String.eqb Ascii.eqb Bool.eqb eqb];
  rewrite ?rd_str_slot, ?rd_int_slot, ?rd_bool_slot, ?rd_pint_slot, ?rd_pfloat_slot, ?rd_float_slot, ?default_plist;
  repeat match goal with
  | |- context [rd_list ?dec (slot_list (?enc <$> rd_list ?dec ?o))] => rewrite (rd_list_slot _ enc dec o)
  | |- context [rd_ptr ?dec (?enc <$> rd_ptr ?dec ?o)] => rewrite (rd_ptr_slot _ enc dec o)
  | |- context [rd_plist ?dec (slot_list (?enc <$> rd_list ?dec ?o))] => rewrite (rd_plist_slot _ enc dec o)
  end.
Create HintDb codec.
#[export] Hint Resolve types_str types_int types_bool types_pint types_pfloat types_float types_raw types_list types_ptr : codec.
#[export] Hint Resolve clean_none clean_list clean_ptr : codec.
#[export] Hint Extern 1 (clean _ _) => (by apply clean_leaf) : codec.
#[export] Hint Extern 1 (types _ (Some (JStr _))) => exact eq_refl : codec.
#[export] Hint Extern 2 (types _ (members _ !! _)) =>
  match goal with H : unmarshals (TStruct _) _ = true |- types _ (members _ !! ?k) => exact (member_types _ _ k H) end : codec.
Ltac each_slot := repeat (apply Forall_cons; split; [|]); [..|apply Forall_nil]; cbn [fst snd field_type String.eqb Ascii.eqb Bool.eqb eqb].
Ltac round_trip enc dec T :=
  split;
  [ first [done | by intros []]
  | intros v; unfold enc, dec; cbn; to_slots; read_slots; reflexivity
  | intros v Hv; unfold enc, dec, T in *; cbn; to_slots; apply types_emit; each_slot; eauto with codec typeclass_instances
  | intros v path; unfold enc, dec, T; cbn; to_slots; apply clean_emit; [distinct_keys|each_slot; eauto with codec typeclass_instances] ].

Instance rt_Message : RoundTrip T_Message marshalMessage read_Message.
Proof. round_trip marshalMessage read_Message T_Message. Qed.

Instance rt_OutputFormat : RoundTrip T_OutputFormat marshalOutputFormat read_OutputFormat.
Proof. round_trip marshalOutputFormat read_OutputFormat T_OutputFormat. Qed.
Instance rt_Fallback : RoundTrip T_Fallback marshalFallback read_Fallback.
Proof. round_trip marshalFallback read_Fallback T_Fallback. Qed.
Instance rt_Cache : RoundTrip T_Cache marshalCache read_Cache.
Proof. round_trip marshalCache read_Cache T_Cache. Qed.
Instance rt_Budget : RoundTrip T_Budget marshalBudget read_Budget.
Proof. round_trip marshalBudget read_Budget T_Budget. Qed.
Instance rt_Validator : RoundTrip T_Validator marshalValidator read_Validator.
Proof. round_trip marshalValidator read_Validator T_Validator. Qed.
Instance rt_Feedback : RoundTrip T_Feedback marshalFeedback read_Feedback.
Proof. round_trip marshalFeedback read_Feedback T_Feedback. Qed.
Instance rt_Validation : RoundTrip T_Validation marshalValidation read_Validation.
Proof. round_trip marshalValidation read_Validation T_Validation. Qed.
Instance rt_Write : RoundTrip T_Write marshalWrite read_Write.
Proof. round_trip marshalWrite read_Write T_Write. Qed.
Instance rt_Blackboard : RoundTrip T_Blackboard marshalBlackboard read_Blackboard.
Proof. round_trip marshalBlackboard read_Blackboard T_Blackboard. Qed.
Instance rt_Strategy : RoundTrip T_Strategy marshalStrategy read_Strategy.
Proof. round_trip marshalStrategy read_Strategy T_Strategy. Qed.
Instance rt_Source : RoundTrip T_Source marshalSource read_Source.
Proof. round_trip marshalSource read_Source T_Source. Qed.
Instance rt_Context : RoundTrip T_Context marshalContext read_Context.
Proof. round_trip marshalContext read_Context T_Context. Qed.
Instance rt_Expansion : RoundTrip T_Expansion marshalExpansion read_Expansion.
Proof. round_trip marshalExpansion read_Expansion T_Expansion. Qed.
Instance rt_Param : RoundTrip T_Param marshalParam read_Param.
Proof. round_trip marshalParam read_Param T_Param. Qed.
Instance rt_NoProgress : RoundTrip T_NoProgress marshalNoProgress read_NoProgress.
Proof. round_trip marshalNoProgress read_NoProgress T_NoProgress. Qed.
Instance rt_Backoff : RoundTrip T_Backoff marshalBackoff read_Backoff.
Proof. round_trip marshalBackoff read_Backoff T_Backoff. Qed.

(** What is lost. *)
Definition canon_retry (p : RetryPolicy) : RetryPolicy :=
  mkRetryPolicy (MaxAttempts p) (Backoff p) (Jitter p) (nil_empty (RetryOn p)).
Definition canon_agent (a : AgentDef) : AgentDef :=
  mkAgentDef (ad_Role a) (ad_System a) (ad_Model a) (ad_ModelFallbacks a) (nil_empty (ad_Tools a)) (ad_MaxTokens a)
    (ad_Temperature a) (ad_OutputFormat a) (ad_Validation a) (ad_Context a).
Definition canon_config (c : StepConfig) : StepConfig :=
  match c with
  | AgentConfigC a =>
      AgentConfigC (mkAgentConfig (ac_Agent a) (ac_System a) (ac_Model a) (ac_Prompt a) (ac_Messages a) (ac_MaxTokens a)
        (ac_Temperature a) (ac_ModelFallbacks a) (ac_OutputFormat a) (nil_empty (ac_Tools a)) (ac_Role a))
  | c => c
  end.

Instance rt_Retry : RoundTripUpTo T_Retry marshalRetry read_Retry canon_retry.
Proof. round_trip marshalRetry read_Retry T_Retry. Qed.
Instance rt_Agent : RoundTripUpTo T_Agent marshalAgent read_Agent canon_agent.
Proof. round_trip marshalAgent read_Agent T_Agent. Qed.
Instance rt_Config st : RoundTripUpTo (T_Config st) marshalConfig (read_Config st) canon_config.
Proof.
  unfold T_Config, config_fields, read_Config.
  repeat (lazymatch goal with |- RoundTripUpTo (TStruct (if ?b then _ else _)) _ _ _ => destruct b end;
          [by round_trip marshalConfig read_Config T_Config|]).
  split; [by intros []|done..].
Qed.
