(* ===== verification/DecodeFacts.v ===== *)
(** Round trips of whole definitions: the decoders of decode.go on what the
    encoder wrote for a definition they decoded. *)
From Stdlib Require Import QArith.
From S2P Require Import Prelude Issues GoStd Retry StoreModel Config Template Dag Validate ValidateGraph Codec Expansion Decode ExpansionFacts CodecFacts.
Open Scope Z_scope.

#[local] Arguments members : simpl never.
#[local] Arguments unmarshals : simpl never.
#[local] Arguments checkUnknownFields : simpl never.

(** ** Canonical values: what a definition keeps through its encoding *)

Definition canon_policies (p : StepPolicies) : StepPolicies :=
  mkStepPolicies (canon_retry <$> sp_Retry p) (sp_Timeout p) (sp_Cache p) (sp_Budget p) (sp_Blackboard p).
Definition canon_step (s : Step) : Step :=
  mkStep (ID s) (Type_ s) (canon_config <$> Config s) (Validation s) (Context_ s) (canon_policies (Policies s)).
Definition canon_edge (e : Edge) : Edge :=
  mkLoopEdge (From e) (To e) (When e) (EType e) (Condition e) (MaxIterations e)
    (if negb (IsLoop e) && bool_decide (OnExhausted e = ExhaustProceed) then "" else OnExhausted e) (NoProgress e) (Decision e).
Definition canon_template (t : Template) : Template := mkTemplate (canon_step <$> tm_Steps t) (canon_edge <$> tm_Edges t).
Definition canon_def (d : Definition_) : Definition_ :=
  mkDefinition (Name d) (OnFailure d) (MaxWallClock d) (BudgetUSD d) (OnBudgetExceeded d) (Expansion d)
    (fmap (M := option) canon_template <$> Templates d) (fmap (M := option) canon_agent <$> Agents d) (Params d)
    (canon_step <$> Steps d) (canon_edge <$> Edges d).
Definition canon_doc (d : Document) : Document :=
  mkDocument (doc_SchemaVersion d) (doc_Description d) (doc_UI d) (canon_def (doc_Definition d)).
Definition canon_plan (p : PlanOutput) : PlanOutput :=
  mkPlanOutput (po_SchemaVersion p) (canon_step <$> po_Steps p) (canon_edge <$> po_Edges p).

(** ** Decoders and encoders of one value *)

(** [f] accepts what [enc] writes for a value [f] returned, and returns it again
    up to [norm]. *)
Definition decodes {A} (f : json → string → A * list DecodeError) (enc : A → json) (norm : A → A) : Prop :=
  ∀ raw path a, f raw path = (a, []) → f (enc a) path = (norm a, []).

Lemma strict_ok t raw path : strictUnmarshal t raw path = [] → unmarshals t raw = true.
Proof.
  unfold strictUnmarshal, err_if. destruct raw; try done. intros [_ H]%app_nil.
  by destruct (unmarshals t _).
Qed.
Lemma strict_rt {A} t (enc : A → json) dec norm `{!RoundTripUpTo t enc dec norm} raw path :
  (∀ a, ∃ l, enc a = JObj l) → strictUnmarshal t raw path = [] → strictUnmarshal t (enc (dec raw)) path = [].
Proof.
  intros Ho Hs%strict_ok%rt_types. pose proof (rt_clean raw path) as Hc. destruct (Ho (dec raw)) as [l El].
  rewrite El in *. unfold strictUnmarshal. by rewrite Hc, Hs.
Qed.


(** A decoder that reads a struct strictly and then checks the value. *)
Lemma strict_decodes {A} t (enc : A → json) dec norm `{!RoundTripUpTo t enc dec norm} f (chk : string → A → list DecodeError) :
  (∀ raw path, f raw path = (dec raw, strictUnmarshal t raw path ++ chk path (dec raw))) →
  (∀ path a, chk path (norm a) = chk path a) → (∀ a, ∃ l, enc a = JObj l) → decodes f enc norm.
Proof.
  intros Hf Hn Ho raw path a. rewrite !Hf. intros [= <- [Hs He]%app_nil].
  rewrite rt_read, Hn, He. by erewrite (strict_rt t enc dec norm) by eauto.
Qed.
Ltac strict_codec chk := eapply (strict_decodes _ _ _ _ _ chk); [done || (intros; cbn; by rewrite app_nil_r)|done|by eexists].

Lemma decodeContext_rt : decodes decodeContext marshalContext id.
Proof. strict_codec checkContextEnums. Qed.
Lemma decodeExpansion_rt : decodes decodeExpansion marshalExpansion id.
Proof. strict_codec (λ (_ : string) (_ : ExpansionPolicy), @nil DecodeError). Qed.
Lemma decodeValidation_rt : decodes decodeValidation marshalValidation id.
Proof. strict_codec (λ (_ : string) (_ : ValidationPolicy), @nil DecodeError). Qed.
Lemma decodeBlackboard_rt : decodes decodeBlackboard marshalBlackboard id.
Proof. strict_codec (λ (_ : string) (_ : BlackboardPolicy), @nil DecodeError). Qed.
Lemma decodeBudget_rt : decodes decodeBudget marshalBudget id.
Proof. strict_codec (λ (_ : string) (_ : StepBudget), @nil DecodeError). Qed.
Lemma decodeCache_rt : decodes decodeCache marshalCache id.
Proof.
  strict_codec (λ path cp, check_enum true cacheModes (cp_Mode cp) (path +:+ ".mode") ++
    check_enum true cacheScopes (cp_Scope cp) (path +:+ ".scope")).
Qed.

Lemma concat_imap_nil {A B} (f : nat → A → list B) l : concat (imap f l) = [] ↔ ∀ i x, l !! i = Some x → f i x = [].
Proof.
  revert f. induction l as [|x l IH]; intros f; cbn; [done|]. rewrite app_nil, (IH (f ∘ S)). split.
  - intros [Hx Hl] [|i] y E; cbn in E; [by simplify_eq|by apply (Hl i)].
  - intros H. split; [by apply (H 0%nat)|intros i y E; by apply (H (S i))].
Qed.
Lemma check_enums_nil l path vals : check_enums l path vals = [] ↔ Forall (λ s, s ∈ l) vals.
Proof.
  unfold check_enums. rewrite concat_imap_nil, Forall_lookup. unfold check_enum, err_if, err_at. cbn.
  apply forall_proper; intros i. apply forall_proper; intros s. case_bool_decide; naive_solver.
Qed.
Lemma decodeRetry_rt : decodes decodeRetry marshalRetry canon_retry.
Proof.
  intros raw path a [= <- [Hs [Hj _]%app_nil]%app_nil]. unfold decodeRetry. rewrite (rt_read (t := T_Retry)).
  rewrite (strict_rt T_Retry marshalRetry read_Retry canon_retry _ _ (λ a, ex_intro _ _ eq_refl) Hs).
  change (Jitter (canon_retry (read_Retry raw))) with (rd_str (members raw !! "jitter")). rewrite Hj. cbn [app]. f_equal.
  apply check_enums_nil. unfold marshalRetry. to_slots. rewrite members_emit by distinct_keys.
  cbn [slot String.eqb Ascii.eqb Bool.eqb eqb]. unfold read_Retry. cbn. rewrite default_plist.
  apply Forall_forall. intros s Hs'.
  assert (∃ c, s = class_text c) as [c ->]; [|by destruct c; apply (bool_decide_unpack _)].
  destruct (rd_list read_class _) as [|c cs]; cbn in Hs'; [set_solver|].
  apply elem_of_cons in Hs' as [->|(v & -> & (c' & -> & _)%list_elem_of_fmap)%list_elem_of_fmap]; by eexists.
Qed.

(** Step configs. *)
Lemma marshalConfig_object c : ∃ l, marshalConfig c = JObj l.
Proof. by destruct c; eexists. Qed.
Lemma config_enums_canon path c : config_enums path (canon_config c) = config_enums path c.
Proof. by destruct c. Qed.
Lemma decodeStepConfig_rt st raw path c : decodeStepConfig st raw path = (c, []) →
  ∃ cfg, c = Some cfg ∧ decodeStepConfig st (marshalConfig cfg) path = (Some (canon_config cfg), []).
Proof.
  unfold decodeStepConfig at 1. destruct raw as [| | | | | |ms]; try done. intros [= <- [Hs He]%app_nil]. eexists. split; [done|].
  destruct (marshalConfig_object (read_Config st (JObj ms))) as [l El]. unfold decodeStepConfig.
  rewrite El. rewrite <- El. rewrite (rt_read (t := T_Config st)).
  rewrite (strict_rt (T_Config st) marshalConfig (read_Config st) canon_config (JObj ms) path marshalConfig_object Hs). by rewrite config_enums_canon, He.
Qed.

(** ** Members of an encoded object *)

Lemma optional_rt {A} (m m' : gmap string json) k path f enc (norm : A → A) o : decodes f enc norm →
  optional m k path f = (o, []) → m' !! k = enc <$> o → optional m' k path f = (norm <$> o, []).
Proof.
  intros Hf. unfold optional. destruct (m !! k) as [raw|]; [|by intros [= <-] ->].
  destruct (f raw _) as [a es] eqn:E. intros [= <- ->] ->. cbn. by rewrite (Hf _ _ _ E).
Qed.
Lemma optional_string_slot (m : gmap string json) k path s : m !! k = slot_str s → optional_string m k path = (s, []).
Proof. unfold optional_string, optional, slot_str. intros ->. by case_bool_decide; subst. Qed.
Lemma unknown_keys_emit known sl path : NoDup sl.*1 → (∀ k, k ∈ sl.*1 → k ∈ known) →
  unknown_keys known (members (JObj (emit sl))) path = [].
Proof.
  intros Hn Hk. unfold unknown_keys. apply flat_map_nil. intros k [v Hv]%elem_of_sortedKeys.
  rewrite members_emit in Hv by done. apply slot_elem, (list_elem_of_fmap_2 fst), Hk in Hv.
  unfold err_if. by rewrite bool_decide_eq_true_2.
Qed.
Lemma required_string_slot (m : gmap string json) k path s : m !! k = Some (JStr s) → required_string m k path = (s, []).
Proof. unfold required_string. by intros ->. Qed.
Lemma emit_members sl : rawObject (JObj (emit sl)) = Some (members (JObj (emit sl))).
Proof. done. Qed.

(** ** Steps *)

Lemma decode_type_ok m path st known : decode_type m path = (st, known, []) → known = true ∧ st ∈ stepConfigTypes.
Proof. unfold decode_type. destruct (m !! "type") as [[]|]; try done. case_bool_decide; naive_solver. Qed.
Lemma decode_type_slot (m : gmap string json) path st : st ∈ stepConfigTypes → m !! "type" = Some (JStr st) →
  decode_type m path = (st, true, []).
Proof. unfold decode_type. intros Hst ->. by rewrite bool_decide_eq_true_2. Qed.
Lemma decode_config_rt (m m' : gmap string json) st path c : decode_config true st m path = (c, []) →
  m' !! "config" = marshalConfig <$> c → decode_config true st m' path = (canon_config <$> c, []).
Proof.
  unfold decode_config. destruct (m !! "config") as [raw|]; [|by intros [= <-] ->].
  intros (cfg & -> & H)%decodeStepConfig_rt ->. done.
Qed.

(** The tail of [decodeStep] and of [decode_body]: every part decoded without a diagnostic. *)
Ltac split_errs H := repeat (apply app_nil in H; destruct H as [? H]); subst.
Ltac at_slot := rewrite members_emit by distinct_keys; reflexivity.

Lemma decodeStep_rt : decodes decodeStep marshalStep canon_step.
Proof.
  intros raw path s. unfold decodeStep at 1. destruct (rawObject raw) as [m|]; [|done].
  destruct (required_string m "id" _) as [id e1]. destruct (decode_type m _) as [[st known] e2] eqn:E2.
  destruct (decode_config known st m _) as [cfg e3] eqn:E3. destruct (optional m "retry" _ _) as [retry e4] eqn:E4.
  destruct (optional_string m "timeout" _) as [timeout e5]. destruct (optional m "cache" _ _) as [cache e6] eqn:E6.
  destruct (optional m "budget" _ _) as [budget e7] eqn:E7. destruct (optional m "validation" _ _) as [validation e8] eqn:E8.
  destruct (optional m "blackboard" _ _) as [blackboard e9] eqn:E9. destruct (optional m "context" _ _) as [context e10] eqn:E10.
  intros [= <- Hn]. split_errs Hn. apply decode_type_ok in E2 as [-> Hst].
  unfold decodeStep, marshalStep. cbn [ID Type_ Config Validation Context_ Policies sp_Retry sp_Timeout sp_Cache sp_Budget sp_Blackboard].
  to_slots. rewrite emit_members.
  rewrite (required_string_slot _ "id" _ id) by at_slot. rewrite (decode_type_slot _ _ st Hst) by at_slot.
  erewrite (decode_config_rt _ _ _ _ _ E3) by at_slot. erewrite (optional_rt _ _ _ _ _ _ _ _ decodeRetry_rt E4) by at_slot.
  rewrite (optional_string_slot _ _ _ timeout) by at_slot. erewrite (optional_rt _ _ _ _ _ _ _ _ decodeCache_rt E6) by at_slot.
  erewrite (optional_rt _ _ _ _ _ _ _ _ decodeBudget_rt E7) by at_slot.
  erewrite (optional_rt _ _ _ _ _ _ _ _ decodeValidation_rt E8) by at_slot.
  erewrite (optional_rt _ _ _ _ _ _ _ _ decodeBlackboard_rt E9) by at_slot.
  erewrite (optional_rt _ _ _ _ _ _ _ _ decodeContext_rt E10) by at_slot.
  rewrite unknown_keys_emit; [|distinct_keys|]; [|].
  - unfold canon_step, canon_policies. cbn. by rewrite !option_fmap_id.
  - intros k Hk. exact Hk.
Qed.

(** ** Edges *)

Definition slot_exhausted (s : string) : option json := if bool_decide (s = ExhaustProceed) then None else slot_str s.
Lemma emit_exhausted k s : (if bool_decide (s = ExhaustProceed) then [] else omit_str k s) = emit [(k, slot_exhausted s)].
Proof. unfold slot_exhausted. case_bool_decide; [done|apply emit_str]. Qed.
Lemma rd_exhausted s : rd_str (slot_exhausted s) = if bool_decide (s = ExhaustProceed) then "" else s.
Proof. unfold slot_exhausted. case_bool_decide; [done|apply rd_str_slot]. Qed.
Lemma types_exhausted s : types (Some TString) (slot_exhausted s).
Proof. unfold slot_exhausted. case_bool_decide; [done|apply types_str]. Qed.
Definition slot_loop (b : bool) : option json := if b then Some (JStr "loop") else None.
Lemma types_loop b : types (Some TString) (slot_loop b).
Proof. by destruct b. Qed.
#[local] Hint Resolve types_exhausted types_loop : codec.

Definition edge_slots (e : Edge) : slots :=
  [("from", Some (JStr (From e))); ("to", Some (JStr (To e))); ("when", slot_str (When e)); ("type", slot_loop (IsLoop e));
   ("condition", slot_str (Condition e)); ("max_iterations", slot_int (MaxIterations e));
   ("on_exhausted", slot_exhausted (OnExhausted e)); ("no_progress", marshalNoProgress <$> NoProgress e);
   ("decision", slot_str (Decision e))].
Lemma marshalEdge_slots e : marshalEdge e = JObj (emit (edge_slots e)).
Proof. unfold marshalEdge. rewrite emit_exhausted. to_slots. done. Qed.
Lemma edge_slots_keys e : NoDup (edge_slots e).*1.
Proof. distinct_keys. Qed.

Lemma loop_slot b : edge_type (rd_str (slot_loop b)) = if b then EdgeTypeLoop else EdgeTypeNormal.
Proof. by destruct b. Qed.
Instance rt_Edge : RoundTripUpTo T_Edge marshalEdge read_Edge canon_edge.
Proof.
  split; [done|..]; intros v; rewrite marshalEdge_slots.
  - unfold read_Edge at 1. rewrite !members_emit by apply edge_slots_keys.
    cbn [edge_slots slot String.eqb Ascii.eqb Bool.eqb eqb]. rewrite rd_exhausted, loop_slot.
    unfold read_Edge, canon_edge, IsLoop.
    cbn [From To When EType Condition MaxIterations OnExhausted NoProgress Decision].
    rewrite !rd_str_slot, rd_int_slot, (rd_ptr_slot T_NoProgress marshalNoProgress read_NoProgress). cbn [rd_str].
    generalize (edge_type (rd_str (members v !! "type"))) as ty, (rd_str (members v !! "on_exhausted")) as ex.
    intros ty ex. destruct ty; cbn; [by case_bool_decide|].
    destruct (decide (ex = "")) as [->|Hne]; [done|]. rewrite (bool_decide_eq_false_2 (ex = "")) by done.
    destruct (decide (ex = ExhaustProceed)) as [->|Hp]; [done|]. by rewrite !(bool_decide_eq_false_2 (ex = _)) by done.
  - intros Hv. apply types_emit. unfold edge_slots, T_Edge in *. each_slot; unfold read_Edge;
    cbn [From To When Condition MaxIterations NoProgress Decision]; eauto with codec typeclass_instances.
  - intros path. apply clean_emit; [apply edge_slots_keys|]. unfold edge_slots. each_slot; unfold read_Edge; cbn [NoProgress];
    eauto with codec typeclass_instances.
Qed.

Lemma decodeEdge_rt : decodes decodeEdge marshalEdge canon_edge.
Proof.
  intros raw path e. unfold decodeEdge at 1. destruct (rawObject raw) as [m|] eqn:Em; [|done].
  intros [= <- Hn]. apply app_nil in Hn as [_ Hn]. apply app_nil in Hn as [Hs Hn]. apply app_nil in Hn as [_ Hd].
  unfold decodeEdge. rewrite (rt_read (t := T_Edge)).
  rewrite (strict_rt T_Edge marshalEdge read_Edge canon_edge _ _ (λ a, ex_intro _ _ eq_refl) Hs).
  change (Decision (canon_edge (read_Edge raw))) with (Decision (read_Edge raw)).
  rewrite marshalEdge_slots, emit_members, !members_emit by apply edge_slots_keys.
  cbn [flat_map edge_slots slot String.eqb Ascii.eqb Bool.eqb eqb err_if is_Some_b app negb].
  rewrite !members_emit by apply edge_slots_keys. cbn [edge_slots slot String.eqb Ascii.eqb Bool.eqb eqb].
  replace (check_enum true approvalDecisions (Decision (read_Edge raw)) (path +:+ ".decision")) with (@nil DecodeError).
  by destruct (IsLoop (read_Edge raw)).
Qed.

(** ** Arrays and string-keyed objects *)

Lemma decode_items_rt {A} f enc (norm : A → A) raw path l : decodes f enc norm →
  decode_items f raw path = (l, []) → decode_items f (JArr (enc <$> l)) path = (norm <$> l, []).
Proof.
  intros Hf. unfold decode_items. destruct raw as [| | | | |vs|]; try done. cbn. intros [= <- Hn]. rewrite concat_imap_nil in Hn.
  assert (∀ i v, vs !! i = Some v → f (enc (f v (at_index path i)).1) (at_index path i) = (norm (f v (at_index path i)).1, [])) as H.
  { intros i v Hv. apply (Hf v). rewrite <- (Hn i v Hv). by destruct (f v _). }
  f_equal.
  - apply list_eq. intros i. rewrite list_lookup_imap, !list_lookup_fmap, list_lookup_imap.
    destruct (vs !! i) as [v|] eqn:E; [|done]. cbn. by rewrite (H i v E).
  - apply concat_imap_nil. intros i w. rewrite list_lookup_fmap, list_lookup_imap.
    destruct (vs !! i) as [v|] eqn:E; [|done]. intros [= <-]. by rewrite (H i v E).
Qed.

Lemma marshal_map_keys {A} (g : A → json) (m : gmap string A) :
  NoDup (omap (λ k, (λ v, (k, g v)) <$> m !! k) (sortedKeys m)).*1.
Proof.
  replace ((omap _ _).*1) with (sortedKeys m); [apply NoDup_sortedKeys|].
  assert (∀ ks, (∀ k, k ∈ ks → is_Some (m !! k)) → ks = (omap (λ k, (λ v, (k, g v)) <$> m !! k) ks).*1) as H.
  { induction ks as [|k ks IH]; intros H; [done|]. cbn. destruct (H k) as [a ->]; [set_solver|]. cbn. f_equal.
    apply IH. set_solver. }
  apply H. intros k. by rewrite elem_of_sortedKeys.
Qed.
Lemma members_map {A} (g : A → json) (m : gmap string A) : members (marshal_map g m) = g <$> m.
Proof.
  apply map_eq. intros k. apply option_eq. intros v. unfold marshal_map. rewrite members_NoDup by apply marshal_map_keys.
  rewrite lookup_fmap, list_elem_of_omap, fmap_Some. split.
  - intros (k' & _ & (a & Ha & Ep)%fmap_Some). simplify_eq. eauto.
  - intros (a & Ha & ->). exists k. split; [by apply elem_of_sortedKeys|]. by rewrite Ha.
Qed.

(** Entry decoders: [None] is a dropped entry, always with a diagnostic. *)
Lemma decode_entries_rt {A} f g (norm : A → A) raw path (m : gmap string A) :
  (∀ v p a, f v p = (Some a, []) → f (g a) p = (Some (norm a), [])) → (∀ v p, (f v p).1 = None → (f v p).2 ≠ []) →
  decode_entries f raw path = (m, []) → decode_entries f (marshal_map g m) path = (norm <$> m, []).
Proof.
  intros Hf Hd. unfold decode_entries. destruct (rawObject raw) as [r|]; [|done]. intros [= <- Hn]. rewrite flat_map_nil in Hn.
  set (m := map_imap _ r).
  assert (∀ k a, m !! k = Some a → f (g a) (path +:+ "." +:+ k) = (Some (norm a), [])) as H.
  { intros k a. unfold m. rewrite map_lookup_imap. destruct (r !! k) as [v|] eqn:E; [|done]. cbn. intros Ha. apply (Hf v).
    specialize (Hn k). rewrite elem_of_sortedKeys, E in Hn. specialize (Hn ltac:(eauto)). cbn in Hn.
    destruct (f v _); by simplify_eq/=. }
  change (rawObject (marshal_map g m)) with (Some (members (marshal_map g m))). rewrite members_map. f_equal.
  - apply map_eq. intros k. rewrite map_lookup_imap, !lookup_fmap. destruct (m !! k) as [a|] eqn:E; [|done]. cbn.
    by rewrite (H k a E).
  - apply flat_map_nil. intros k [w Hw]%elem_of_sortedKeys. rewrite Hw. rewrite lookup_fmap in Hw.
    destruct (m !! k) as [a|] eqn:E; [|done]. cbn in Hw. simplify_eq. cbn. by rewrite (H k a E).
Qed.

(** ** Params, agents and templates *)

Lemma decode_param_rt v path a : decode_param v path = (Some a, []) → decode_param (marshalParam a) path = (Some a, []).
Proof.
  intros [= <- [Hs He]%app_nil]. unfold decode_param. rewrite (rt_id T_Param marshalParam read_Param).
  rewrite (strict_rt T_Param marshalParam read_Param id _ _ (λ a, ex_intro _ _ eq_refl) Hs). cbn [app]. f_equal. exact He.
Qed.
Lemma decode_agent_rt v path a : decode_agent v path = (Some a, []) →
  decode_agent (marshal_ptr marshalAgent a) path = (Some (canon_agent <$> a), []).
Proof.
  unfold decode_agent at 1. intros H. injection H as <- [Hs He]%app_nil. unfold decode_agent. cbn [marshal_ptr fmap option_fmap option_map].
  rewrite (rt_read (t := T_Agent)).
  rewrite (strict_rt T_Agent marshalAgent read_Agent canon_agent _ _ (λ a, ex_intro _ _ eq_refl) Hs). cbn [app]. f_equal. exact He.
Qed.
Lemma decodeSteps_rt raw l : decodeSteps raw = (l, []) → decodeSteps (JArr (marshalStep <$> l)) = (canon_step <$> l, []).
Proof. apply decode_items_rt, decodeStep_rt. Qed.
Lemma decodeEdges_rt raw l : decodeEdges raw = (l, []) → decodeEdges (JArr (marshalEdge <$> l)) = (canon_edge <$> l, []).
Proof. apply decode_items_rt, decodeEdge_rt. Qed.

(** An optional array of edges. *)
Lemma optional_edges_rt (m m' : gmap string json) l :
  match m !! "edges" with Some raw => decodeEdges raw | None => ([], []) end = (l, []) →
  m' !! "edges" = slot_list (marshalEdge <$> l) →
  match m' !! "edges" with Some raw => decodeEdges raw | None => ([], []) end = (canon_edge <$> l, []).
Proof.
  destruct (m !! "edges") as [raw|]; [|by intros [= <-] ->]. intros H%decodeEdges_rt ->. by destruct l.
Qed.
Lemma decode_template_rt v path t : decode_template v path = (Some t, []) →
  decode_template (marshal_ptr write_template t) path = (Some (canon_template <$> t), []).
Proof.
  unfold decode_template at 1. destruct (rawObject v) as [m|]; [|done].
  destruct (m !! "steps") as [rs|]; [|by destruct (m !! "edges") as [raw|]; [destruct (decodeEdges raw)|]].
  destruct (decodeSteps rs) as [steps e1] eqn:E1.
  destruct (match m !! "edges" with Some raw => decodeEdges raw | None => ([], []) end) as [edges e2] eqn:E2.
  intros H. injection H as <- Hn. split_errs Hn. unfold decode_template, marshal_ptr, write_template. cbn [tm_Steps tm_Edges].
  to_slots. rewrite emit_members. rewrite (members_emit _ "steps") by distinct_keys.
  cbn [slot String.eqb Ascii.eqb Bool.eqb eqb]. rewrite (decodeSteps_rt _ _ E1).
  erewrite (optional_edges_rt _ _ _ E2) by at_slot. rewrite unknown_keys_emit; [done|distinct_keys|done].
Qed.

(** ** Documents *)

Lemma optional_enum_rt l (m m' : gmap string json) k s : optional_enum l m k = (s, []) → m' !! k = slot_str s →
  optional_enum l m' k = (s, []).
Proof.
  unfold optional_enum, slot_str. intros H ->. case_bool_decide as E; [by rewrite E|].
  destruct (m !! k) as [[]|]; try discriminate H; injection H as H1; subst; [by f_equal|done].
Qed.
Lemma optional_float_rt (m m' : gmap string json) k path o : optional m k path decodeFloat = (o, []) →
  m' !! k = JFloat <$> mjoin o → optional m' k path decodeFloat = (Some <$> mjoin o, []).
Proof.
  unfold optional. destruct (m !! k) as [raw|]; [|by intros [= <-] ->].
  destruct (decodeFloat raw _) as [a es] eqn:E. intros [= <- ->] ->.
  destruct a as [q|]; [done|]. unfold decodeFloat in E. destruct raw; try done; by case_match.
Qed.
Definition slot_map {A} (f : A → json) (m : gmap string A) : option json :=
  if bool_decide (m = ∅) then None else Some (marshal_map f m).
Lemma emit_map {A} k (f : A → json) m : omit_map k f m = emit [(k, slot_map f m)].
Proof. unfold omit_map, slot_map. by case_bool_decide. Qed.
Lemma optional_map_rt {A} (m m' : gmap string json) k f g (norm : A → A) path (r : gmap string A) :
  (∀ v p a, f v p = (Some a, []) → f (g a) p = (Some (norm a), [])) → (∀ v p, (f v p).1 = None → (f v p).2 ≠ []) →
  optional_map m k (λ raw, decode_entries f raw path) = (r, []) → m' !! k = slot_map g r →
  optional_map m' k (λ raw, decode_entries f raw path) = (norm <$> r, []).
Proof.
  intros Hf Hd. unfold optional_map, slot_map. intros H ->. case_bool_decide as E; [by rewrite E, fmap_empty|].
  destruct (m !! k) as [raw|]; [|by simplify_eq]. by eapply decode_entries_rt.
Qed.
Lemma decode_ui_rt (m m' : gmap string json) ui : decode_ui m = (ui, []) → m' !! "ui" = ui → decode_ui m' = (ui, []).
Proof. unfold decode_ui. intros H ->. by destruct (m !! "ui") as [[]|]; simplify_eq/=. Qed.
Lemma required_steps_rt (m m' : gmap string json) l : required_items m "steps" decodeSteps = (l, []) →
  m' !! "steps" = Some (JArr (marshalStep <$> l)) → required_items m' "steps" decodeSteps = (canon_step <$> l, []).
Proof. unfold required_items. destruct (m !! "steps"); [|done]. intros H%decodeSteps_rt ->. done. Qed.
Lemma required_edges_rt (m m' : gmap string json) l : required_items m "edges" decodeEdges = (l, []) →
  m' !! "edges" = Some (JArr (marshalEdge <$> l)) → required_items m' "edges" decodeEdges = (canon_edge <$> l, []).
Proof. unfold required_items. destruct (m !! "edges"); [|done]. intros H%decodeEdges_rt ->. done. Qed.

Lemma decode_param_kept v p : (decode_param v p).1 = None → (decode_param v p).2 ≠ [].
Proof. done. Qed.
Lemma decode_agent_kept v p : (decode_agent v p).1 = None → (decode_agent v p).2 ≠ [].
Proof. done. Qed.
Lemma decode_template_kept v p : (decode_template v p).1 = None → (decode_template v p).2 ≠ [].
Proof.
  unfold decode_template. destruct (rawObject v) as [m|]; [|done].
  destruct (match m !! "steps" with Some raw => decodeSteps raw | None => _ end).
  by destruct (match m !! "edges" with Some raw => decodeEdges raw | None => _ end).
Qed.

Lemma templates_some raw (m : gmap string (option Template)) es : decodeTemplates raw = (m, es) → map_Forall (λ _ t, is_Some t) m.
Proof.
  unfold decodeTemplates, decode_entries. destruct (rawObject raw) as [r|]; [|by intros [= <- _]; apply map_Forall_empty].
  intros [= <- _] k t. rewrite map_lookup_imap. destruct (r !! k) as [v|]; [|done]. cbn. unfold decode_template.
  destruct (rawObject v) as [tm|]; [|done]. destruct (match tm !! "steps" with Some raw => decodeSteps raw | None => _ end).
  destruct (match tm !! "edges" with Some raw => decodeEdges raw | None => _ end). intros [= <-]. eauto.
Qed.

(** The members Encode writes. *)
Definition doc_slots (d : Document) : slots :=
  let def := doc_Definition d in
  [("schema_version", Some (JNum (doc_SchemaVersion d))); ("name", Some (JStr (Name def)));
   ("description", slot_str (doc_Description d)); ("on_failure", slot_str (OnFailure def));
   ("max_wall_clock", slot_str (MaxWallClock def)); ("budget_usd", JFloat <$> BudgetUSD def);
   ("on_budget_exceeded", slot_str (OnBudgetExceeded def)); ("expansion", marshalExpansion <$> Expansion def);
   ("templates", slot_map (marshal_ptr write_template) (Templates def));
   ("agents", slot_map (marshal_ptr marshalAgent) (Agents def)); ("params", slot_map marshalParam (Params def));
   ("steps", Some (JArr (marshalStep <$> Steps def))); ("edges", Some (JArr (marshalEdge <$> Edges def))); ("ui", doc_UI d)].
Lemma Encode_slots d : map_Forall (λ _ t, is_Some t) (Templates (doc_Definition d)) → Encode d = Some (JObj (emit (doc_slots d))).
Proof. intros H. unfold Encode. rewrite bool_decide_eq_true_2 by done. rewrite !emit_map. to_slots. done. Qed.
Lemma doc_slots_keys d : NoDup (doc_slots d).*1.
Proof. distinct_keys. Qed.

Lemma decode_body_rt ver fields d : decode_body ver fields = (d, []) →
  decode_body ver (members (JObj (emit (doc_slots d)))) = (canon_doc d, []).
Proof.
  unfold decode_body at 1. destruct (required_string fields "name" _) as [name e1].
  destruct (optional_string fields "description" _) as [description e2]. destruct (optional_enum _ _ "on_failure") as [onf e3] eqn:E3.
  destruct (optional_string fields "max_wall_clock" _) as [mwc e4]. destruct (optional fields "budget_usd" _ _) as [budget e5] eqn:E5.
  destruct (optional_enum _ _ "on_budget_exceeded") as [onb e6] eqn:E6. destruct (optional fields "expansion" _ _) as [ex e7] eqn:E7.
  destruct (optional_map fields "templates" _) as [templates e8] eqn:E8. destruct (optional_map fields "agents" _) as [agents e9] eqn:E9.
  destruct (optional_map fields "params" _) as [params e10] eqn:E10. destruct (required_items fields "steps" _) as [steps e11] eqn:E11.
  destruct (required_items fields "edges" _) as [edges e12] eqn:E12. destruct (decode_ui fields) as [ui e13] eqn:E13.
  intros H. injection H as <- Hn. split_errs Hn. set (d := mkDocument _ _ _ _). pose proof (doc_slots_keys d) as Hk.
  set (m := members _). assert (∀ k, m !! k = slot k (doc_slots d)) as Hm by (intros k; by apply members_emit).
  unfold decode_body. rewrite (required_string_slot _ _ _ name), (optional_string_slot _ _ _ description) by by rewrite Hm.
  rewrite (optional_enum_rt _ _ _ _ _ E3), (optional_string_slot _ _ _ mwc) by by rewrite Hm.
  rewrite (optional_float_rt _ _ _ _ _ E5), (optional_enum_rt _ _ _ _ _ E6) by by rewrite Hm.
  rewrite (optional_rt _ _ _ _ _ _ _ _ decodeExpansion_rt E7) by by rewrite Hm.
  unfold decodeTemplates, decodeAgents, decodeParams in *.
  rewrite (optional_map_rt _ _ _ _ _ _ _ _ decode_template_rt decode_template_kept E8) by by rewrite Hm.
  rewrite (optional_map_rt _ _ _ _ _ _ _ _ decode_agent_rt decode_agent_kept E9) by by rewrite Hm.
  rewrite (optional_map_rt _ _ _ _ _ id _ _ decode_param_rt decode_param_kept E10) by by rewrite Hm.
  rewrite (required_steps_rt _ _ _ E11), (required_edges_rt _ _ _ E12), (decode_ui_rt _ _ _ E13) by by rewrite Hm.
  unfold m. rewrite unknown_keys_emit by done. cbn [app]. f_equal.
  unfold canon_doc, canon_def. cbn. rewrite option_fmap_id, map_fmap_id. by destruct budget as [[]|].
Qed.

(** ** The encoding ignores what [canon_doc] changes *)

Lemma nil_empty_default {A} (o : option (list A)) : default [] (nil_empty o) = default [] o.
Proof. by destruct o as [[]|]. Qed.
Lemma marshalConfig_canon c : marshalConfig (canon_config c) = marshalConfig c.
Proof. destruct c; try done. cbn. by rewrite nil_empty_default. Qed.
Lemma marshalRetry_canon p : marshalRetry (canon_retry p) = marshalRetry p.
Proof. unfold marshalRetry. cbn. by rewrite nil_empty_default. Qed.
Lemma marshalAgent_canon a : marshalAgent (canon_agent a) = marshalAgent a.
Proof. unfold marshalAgent. cbn. by rewrite nil_empty_default. Qed.
Lemma fmap_canon {A B} (f : A → B) c (o : option A) : (∀ a, f (c a) = f a) → f <$> (c <$> o) = f <$> o.
Proof. intros H. destruct o as [a|]; [|done]. cbn. by rewrite H. Qed.
Lemma list_fmap_canon {A B} (f : A → B) c (l : list A) : (∀ a, f (c a) = f a) → f <$> (c <$> l) = f <$> l.
Proof. intros H. rewrite <- list_fmap_compose. apply list_fmap_ext. intros. apply H. Qed.
Lemma marshalStep_canon s : marshalStep (canon_step s) = marshalStep s.
Proof.
  unfold marshalStep, canon_step, canon_policies. cbn.
  by rewrite (fmap_canon _ _ _ marshalConfig_canon), (fmap_canon _ _ _ marshalRetry_canon).
Qed.
Lemma marshalEdge_canon e : marshalEdge (canon_edge e) = marshalEdge e.
Proof.
  rewrite !marshalEdge_slots. unfold edge_slots, canon_edge, IsLoop. cbn [From To When EType Condition MaxIterations OnExhausted NoProgress Decision].
  destruct (decide (OnExhausted e = ExhaustProceed)) as [->|Hne]; [|by rewrite (bool_decide_eq_false_2 (_ = ExhaustProceed)), andb_false_r by done].
  by destruct (negb _).
Qed.
Lemma write_template_canon t : write_template (canon_template t) = write_template t.
Proof.
  unfold write_template. cbn. by rewrite (list_fmap_canon _ _ _ marshalStep_canon), (list_fmap_canon _ _ _ marshalEdge_canon).
Qed.
Lemma slot_map_canon {A} (g : A → json) c (m : gmap string A) : (∀ a, g (c a) = g a) → slot_map g (c <$> m) = slot_map g m.
Proof.
  intros H. unfold slot_map. rewrite (bool_decide_ext (c <$> m = ∅) (m = ∅)) by apply fmap_empty_iff.
  case_bool_decide; [done|]. unfold marshal_map, sortedKeys. rewrite dom_fmap_L. do 2 f_equal. generalize (merge_sort String.le (elements (dom m))) as ks.
  induction ks as [|k ks IH]; [done|]. cbn. rewrite IH, lookup_fmap. destruct (m !! k); [|done]. cbn. by rewrite H.
Qed.
Lemma marshal_ptr_canon {A} (f : A → json) c (o : option A) : (∀ a, f (c a) = f a) → marshal_ptr f (c <$> o) = marshal_ptr f o.
Proof. intros H. destruct o; [apply H|done]. Qed.
Lemma doc_slots_canon d : doc_slots (canon_doc d) = doc_slots d.
Proof.
  unfold doc_slots. cbn. rewrite (list_fmap_canon _ _ _ marshalStep_canon), (list_fmap_canon _ _ _ marshalEdge_canon).
  rewrite !slot_map_canon; [done|..]; intros a; by apply marshal_ptr_canon; [apply marshalAgent_canon || apply write_template_canon].
Qed.
Lemma templates_some_canon d : map_Forall (λ _ t, is_Some t) (Templates (doc_Definition d)) →
  map_Forall (λ _ t, is_Some t) (Templates (doc_Definition (canon_doc d))).
Proof.
  intros H k t. cbn. rewrite lookup_fmap. intros (t' & Ht & ->)%fmap_Some. destruct (H k t' Ht) as [? ->]. by eexists.
Qed.

(** ** What a decoded document satisfies *)

(** The config carries the constructor of the step's type. *)
Definition config_matches (st : string) (c : StepConfig) : bool :=
  match c with
  | LLMConfigC _ => bool_decide (st = StepLLM)
  | ToolConfigC _ => bool_decide (st = StepTool)
  | RetrieveConfigC _ => bool_decide (st = StepRetrieve)
  | MapConfigC _ => bool_decide (st = StepMap)
  | GatherConfigC _ => bool_decide (st = StepGather)
  | PlannerConfigC _ => bool_decide (st = StepPlanner)
  | AgentConfigC _ => bool_decide (st = StepAgent)
  | HumanApprovalConfigC _ => bool_decide (st = StepHumanApproval)
  | JoinConfigC _ => bool_decide (st = StepJoin)
  | BranchConfigC _ => bool_decide (st = StepBranch)
  | NoopConfigC => bool_decide (st = StepNoop)
  | EchoConfigC _ => bool_decide (st = StepEcho)
  | SleepConfigC _ => bool_decide (st = StepSleep)
  | FailNTimesConfigC _ => bool_decide (st = StepFailNTimes)
  | CounterConfigC _ => bool_decide (st = StepCounter)
  | EffectfulEchoConfigC _ => bool_decide (st = StepEffectfulEcho)
  | BlackboardWriteConfigC _ => bool_decide (st = StepBlackboardWrite)
  end.
Lemma read_Config_matches st v : st ∈ stepConfigTypes → config_matches st (read_Config st v) = true.
Proof. intros H. unfold stepConfigTypes in H. rewrite !elem_of_cons, elem_of_nil in H. by destruct_or! H; subst. Qed.

(** A decoded step has a registered type, its config the matching constructor and
    known enum values. *)
Definition typed_step (s : Step) : Prop :=
  Type_ s ∈ stepConfigTypes ∧ ∀ c, Config s = Some c → config_matches (Type_ s) c = true ∧ ∀ path, config_enums path c = [].
Lemma check_enum_path b l s p q : check_enum b l s p = [] → check_enum b l s q = [].
Proof. unfold check_enum, err_if. by destruct (_ && _). Qed.
Lemma config_enums_path p q c : config_enums p c = [] → config_enums q c = [].
Proof.
  destruct c; try done; cbn; rewrite ?app_nil, ?check_enums_nil; [apply check_enum_path| |apply check_enum_path].
  intros (H1 & H2 & H3). split_and!; [done|by eapply check_enum_path..].
Qed.
Lemma decodeStep_typed raw path s : decodeStep raw path = (s, []) → typed_step s.
Proof.
  unfold decodeStep. destruct (rawObject raw) as [m|]; [|done].
  destruct (required_string m "id" _) as [id e1]. destruct (decode_type m _) as [[st known] e2] eqn:E2.
  destruct (decode_config known st m _) as [cfg e3] eqn:E3.
  repeat match goal with |- context [let '(_, _) := ?x in _] => destruct x end.
  intros H. injection H as <- Hn. split_errs Hn. apply decode_type_ok in E2 as [-> Hst]. split; [done|].
  intros c. cbn. intros ->. unfold decode_config, decodeStepConfig in E3.
  destruct (m !! "config") as [[]|]; try done. injection E3 as <- [_ He]%app_nil.
  split; [by apply read_Config_matches|]. intros q. by eapply config_enums_path.
Qed.
Lemma decode_items_all {A} f raw path (l : list A) (P : A → Prop) : (∀ v p a, f v p = (a, []) → P a) →
  decode_items f raw path = (l, []) → Forall P l.
Proof.
  intros Hf. unfold decode_items. destruct raw as [| | | | |vs|]; try done. cbn. intros [= <- Hn]. rewrite concat_imap_nil in Hn.
  apply Forall_lookup. intros i a. rewrite list_lookup_imap. destruct (vs !! i) as [v|] eqn:E; [|done]. intros [= <-].
  apply (Hf v (at_index path i)). rewrite <- (Hn i v E). by destruct (f v _).
Qed.
Lemma decode_body_typed ver fields d : decode_body ver fields = (d, []) →
  Forall typed_step (Steps (doc_Definition d)) ∧ map_Forall (λ _ t, is_Some t) (Templates (doc_Definition d)).
Proof.
  unfold decode_body. destruct (optional_map fields "templates" _) as [templates e8] eqn:E8.
  destruct (required_items fields "steps" _) as [steps e11] eqn:E11.
  repeat match goal with |- context [let '(_, _) := ?x in _] => destruct x end.
  intros H. injection H as <- Hn. split_errs Hn. cbn. split.
  - unfold required_items in E11. destruct (fields !! "steps") as [raw|]; [|done].
    eapply decode_items_all; [|exact E11]. apply decodeStep_typed.
  - unfold optional_map in E8. destruct (fields !! "templates") as [raw|]; [by eapply templates_some|].
    simplify_eq. apply map_Forall_empty.
Qed.

(** ** Decode and Encode *)

Lemma Decode_body size data d : Decode size data = inr d → size ≤ MaxDefinitionBytes ∧
  ∃ fields, rawObject data = Some fields ∧ decode_body CurrentSchemaVersion fields = (d, []).
Proof.
  unfold Decode. destruct (Z.ltb_spec MaxDefinitionBytes size); [done|]. destruct (rawObject data) as [fields|]; [|done].
  unfold decode_version. destruct (fields !! "schema_version") as [raw|]; [|done].
  destruct (decodeInt raw _) as [[ver|] es]; [|done]. destruct (Z.eqb_spec ver CurrentSchemaVersion) as [->|]; [|done].
  destruct (decode_body _ fields) as [d' [|]] eqn:E; [|done]. intros [= <-]. eauto.
Qed.
Lemma Decode_body_inv size l d : size ≤ MaxDefinitionBytes → members (JObj l) !! "schema_version" = Some (JNum CurrentSchemaVersion) →
  decode_body CurrentSchemaVersion (members (JObj l)) = (d, []) → Decode size (JObj l) = inr d.
Proof.
  intros Hs Hv Hb. unfold Decode. destruct (Z.ltb_spec MaxDefinitionBytes size); [lia|].
  change (rawObject (JObj l)) with (Some (members (JObj l))). unfold decode_version. rewrite Hv.
  change (decodeInt (JNum CurrentSchemaVersion) "schema_version") with (Some CurrentSchemaVersion, @nil DecodeError).
  cbv beta iota. by rewrite Z.eqb_refl, Hb.
Qed.
Lemma decode_body_version ver fields d es : decode_body ver fields = (d, es) → doc_SchemaVersion d = ver.
Proof.
  unfold decode_body. repeat match goal with |- context [let '(_, _) := ?x in _] => destruct x end. by intros [= <- _].
Qed.
Lemma Decode_Encode size data d : Decode size data = inr d →
  Encode d = Some (JObj (emit (doc_slots d))) ∧ Encode (canon_doc d) = Encode d ∧
  ∀ size', size' ≤ MaxDefinitionBytes → Decode size' (JObj (emit (doc_slots d))) = inr (canon_doc d).
Proof.
  intros (_ & fields & _ & Hb)%Decode_body. pose proof (decode_body_typed _ _ _ Hb) as [_ Ht]. split_and!.
  - by apply Encode_slots.
  - by rewrite !Encode_slots, doc_slots_canon by auto using templates_some_canon.
  - intros size' Hs. apply Decode_body_inv; [done| |by eapply decode_body_rt].
    rewrite members_emit by apply doc_slots_keys. cbn. by rewrite (decode_body_version _ _ _ _ Hb).
Qed.

(** ** Plans *)

Definition plan_slots (p : PlanOutput) : slots :=
  [("schema_version", Some (JNum (po_SchemaVersion p))); ("steps", Some (JArr (marshalStep <$> po_Steps p)));
   ("edges", slot_list (marshalEdge <$> po_Edges p))].
Lemma marshalPlan_slots p : marshalPlan p = JObj (emit (plan_slots p)).
Proof. unfold marshalPlan. to_slots. done. Qed.
Lemma zlen_fmap {A B} (f : A → B) l : zlen (f <$> l) = zlen l.
Proof. unfold zlen. by rewrite length_fmap. Qed.
Lemma err_if_nil b path k : err_if b path k = [] ↔ b = false.
Proof. by destruct b. Qed.
Lemma DecodePlanOutput_rt size data p : DecodePlanOutput size data = inr p →
  ∀ size', size' ≤ MaxDefinitionBytes → DecodePlanOutput size' (marshalPlan p) = inr (canon_plan p).
Proof.
  unfold DecodePlanOutput at 1. destruct (MaxDefinitionBytes <? size); [done|]. destruct (rawObject data) as [fields|]; [|done].
  destruct (decode_version _ fields) as [|ver] eqn:Ev; [done|].
  assert (ver = PlanSchemaVersion) as ->.
  { unfold decode_version in Ev. destruct (fields !! "schema_version") as [raw|]; [|done].
    destruct (decodeInt raw _) as [[n|] ?]; [|done]. destruct (Z.eqb_spec n PlanSchemaVersion); by simplify_eq. }
  destruct (required_items fields "steps" _) as [steps e1] eqn:E1.
  destruct (match fields !! "edges" with Some raw => decodeEdges raw | None => ([], []) end) as [edges e2] eqn:E2.
  destruct (e1 ++ _) eqn:En; [|done]. intros H. injection H as <-. intros size' Hs.
  apply app_nil in En as [-> En]. apply app_nil in En as [-> En]. apply app_nil in En as [_ En].
  apply app_nil in En as [Hl1%err_if_nil Hl2%err_if_nil].
  unfold DecodePlanOutput. destruct (Z.ltb_spec MaxDefinitionBytes size'); [lia|]. rewrite marshalPlan_slots, emit_members.
  unfold decode_version. rewrite (members_emit _ "schema_version") by distinct_keys. cbn [plan_slots slot String.eqb Ascii.eqb Bool.eqb eqb po_SchemaVersion].
  change (decodeInt (JNum PlanSchemaVersion) "schema_version") with (Some PlanSchemaVersion, @nil DecodeError). cbv beta iota.
  rewrite Z.eqb_refl, (required_steps_rt _ _ _ E1) by at_slot. erewrite (optional_edges_rt _ _ _ E2) by at_slot.
  rewrite unknown_keys_emit; [|distinct_keys|done]. by rewrite !zlen_fmap, Hl1, Hl2.
Qed.
