(* ===== verification/TreeRewrite.v ===== *)
(** Rewriting the references of a whole config (mapexpand.go: rewriteTreeStrings,
    rewriteConfigRefs): the rewritten document keeps its shape, so the decoder
    accepts it again, and its strict references are those of the original,
    converted. *)
From Stdlib Require Import QArith Ascii.
From S2P Require Import Prelude Issues GoStd Retry StoreModel Config Template TemplateFacts Dag Validate ValidateGraph Codec Expansion Decode MapExpand ExpansionFacts RefRewrite CodecFacts DecodeFacts.
Open Scope Z_scope.

#[local] Arguments members : simpl never.
#[local] Arguments unmarshals : simpl never.
#[local] Arguments checkUnknownFields : simpl never.

(** ** Nested induction *)

Lemma json_nested_ind (P : json → Prop) : P JNull → (∀ b, P (JBool b)) → (∀ n, P (JNum n)) → (∀ q, P (JFloat q)) →
  (∀ s, P (JStr s)) → (∀ l, Forall P l → P (JArr l)) → (∀ l, Forall (λ kv, P kv.2) l → P (JObj l)) → ∀ j, P j.
Proof.
  intros H1 H2 H3 H4 H5 H6 H7. fix IH 1. intros [|b|n|q|s|l|l]; [exact H1|exact (H2 b)|exact (H3 n)|exact (H4 q)|exact (H5 s)| |].
  - apply H6. induction l as [|x l IHl]; constructor; [apply IH|exact IHl].
  - apply H7. induction l as [|[k x] l IHl]; constructor; [apply IH|exact IHl].
Qed.
Lemma gotype_nested_ind (P : gotype → Prop) : P TString → P TInt → P TFloat → P TBool → P TRaw →
  (∀ t, P t → P (TPtr t)) → (∀ t, P t → P (TSlice t)) → (∀ t, P t → P (TMap t)) →
  (∀ fs, Forall (λ kt, P kt.2) fs → P (TStruct fs)) → ∀ t, P t.
Proof.
  intros H1 H2 H3 H4 H5 H6 H7 H8 H9. fix IH 1. intros [| | | | |t|t|t|fs];
    [exact H1|exact H2|exact H3|exact H4|exact H5|exact (H6 t (IH t))|exact (H7 t (IH t))|exact (H8 t (IH t))|].
  apply H9. induction fs as [|[k x] l IHl]; constructor; [apply IH|exact IHl].
Qed.

Lemma field_type_ind (P : gotype → Prop) fs k t : Forall (λ kt, P kt.2) fs → field_type k fs = Some t → P t.
Proof.
  induction 1 as [|[k' t'] fs Ht Hfs IH]; cbn; [done|]. destruct (String.eqb k' k); [by intros [= <-]|done].
Qed.

(** ** Sequencing and objects *)

Lemma sequence_ok {E A B} (f : A → E + B) l l' : sequence (map f l) = inr l' ↔ Forall2 (λ x y, f x = inr y) l l'.
Proof.
  revert l'. induction l as [|x l IH]; intros l'; cbn.
  { split; [by intros [= <-]|by intros ->%Forall2_nil_inv_l]. }
  destruct (f x) as [e|y] eqn:E1.
  - split; [done|]. inversion 1; congruence.
  - destruct (sequence (map f l)) as [e|ys] eqn:E2.
    + split; [done|]. inversion 1 as [|? y' ? ys' Hy Hys]; subst. apply IH in Hys. done.
    + split; [intros [= <-]; constructor; [done|by apply IH]|]. inversion 1 as [|? y' ? ys' Hy Hys]; subst.
      apply IH in Hys. congruence.
Qed.
Lemma sequence_total {E A B} (f : A → E + B) l : Forall (λ x, ∃ y, f x = inr y) l → ∃ l', sequence (map f l) = inr l'.
Proof.
  intros H. enough (∃ l', Forall2 (λ x y, f x = inr y) l l') as [l' Hl'] by (exists l'; by apply sequence_ok).
  induction H as [|x l [y Hy] Hl [l' IH]]; [by exists []|]. exists (y :: l'). by constructor.
Qed.
Lemma object_map {A} (f : json → A) (l : list (string * json)) :
  list_to_map (reverse (map (λ kv, (kv.1, f kv.2)) l)) = f <$> (object l).
Proof.
  unfold object. change (map (λ kv : string * json, (kv.1, f kv.2)) l) with ((λ kv : string * json, (kv.1, f kv.2)) <$> l).
  rewrite <- fmap_reverse. generalize (reverse l) as r. induction r as [|[k v] r IH]; [done|].
  rewrite fmap_cons. cbn [list_to_map foldr fst snd curry uncurry]. rewrite IH. cbn. by rewrite fmap_insert.
Qed.
Lemma sorted_members_map {A} (f : json → A) l :
  sorted_members (map (λ kv, (kv.1, f kv.2)) l) = omap (λ k, (λ v, (k, f v)) <$> object l !! k) (sortedKeys (object l)).
Proof.
  unfold sorted_members. rewrite object_map. unfold sortedKeys. rewrite dom_fmap_L.
  apply list_omap_ext, Forall_Forall2_diag, Forall_forall. intros k _. rewrite lookup_fmap. by destruct (object l !! k).
Qed.

(** The members of the sorted list of a map. *)
Lemma members_sorted {A} (m : gmap string A) (g : A → json) :
  members (JObj (omap (λ k, (λ v, (k, g v)) <$> m !! k) (sortedKeys m))) = g <$> m.
Proof. apply (members_map g m). Qed.

Section trees.
Context (fn : string → TemplateMsg + string).
Notation tree := (rewriteTreeStrings fn).

(** The rewritten members, when every one can be. *)
Definition rewritten_members (m : gmap string json) : gmap string json :=
  omap (λ v, match tree v with inr v' => Some v' | inl _ => None end) m.
Definition rewritable (m : gmap string json) : Prop := ∀ k v, m !! k = Some v → ∃ v', tree v = inr v'.

Lemma rewritten_lookup m k : rewritten_members m !! k = (v ← m !! k; match tree v with inr v' => Some v' | inl _ => None end).
Proof. unfold rewritten_members. apply lookup_omap. Qed.
Lemma rewritten_keys m : rewritable m → sortedKeys (rewritten_members m) = sortedKeys m.
Proof.
  intros H. unfold sortedKeys. f_equal. f_equal. apply set_eq. intros k. rewrite !elem_of_dom, rewritten_lookup.
  destruct (m !! k) as [v|] eqn:E; [|done]. destruct (H k v E) as [v' Hv]. cbn. rewrite Hv. split; by eexists.
Qed.
Lemma tree_keys m ks : (∀ k, k ∈ ks → is_Some (m !! k)) → 
  (rewritable m → sequence (map with_key (omap (λ k, (λ v, (k, tree v)) <$> m !! k) ks)) =
    inr (omap (λ k, (λ v, (k, v)) <$> rewritten_members m !! k) ks)) ∧
  (∀ l', sequence (map with_key (omap (λ k, (λ v, (k, tree v)) <$> m !! k) ks)) = inr l' →
    ∀ k v, k ∈ ks → m !! k = Some v → ∃ v', tree v = inr v').
Proof.
  induction ks as [|k ks IH]; intros Hks; [split; [done|set_solver]|].
  destruct (Hks k ltac:(set_solver)) as [v Hv]. destruct IH as [IH1 IH2]; [set_solver|]. cbn. rewrite Hv. cbn. split.
  - intros H. destruct (H k v Hv) as [v' Hv']. unfold with_key at 1. cbn. rewrite Hv'. rewrite rewritten_lookup, Hv. cbn. rewrite Hv'. cbn.
    by rewrite IH1.
  - intros l'. unfold with_key at 1. cbn. destruct (tree v) as [|v'] eqn:Hv'; [done|].
    destruct (sequence _) as [|l2] eqn:E2; [done|]. intros _ k' w [->|Hk']%elem_of_cons Hw; [rewrite Hv in Hw; simplify_eq; eauto|].
    by eapply IH2.
Qed.
Lemma tree_obj l : rewritable (members (JObj l)) →
  ∃ l', tree (JObj l) = inr (JObj l') ∧ members (JObj l') = rewritten_members (members (JObj l)) ∧
    NoDup l'.*1.
Proof.
  intros H. cbn [rewriteTreeStrings]. rewrite sorted_members_map. change (object l) with (members (JObj l)).
  destruct (tree_keys (members (JObj l)) (sortedKeys (members (JObj l)))) as [H1 _]; [intros k; by rewrite elem_of_sortedKeys|].
  rewrite H1 by done. eexists. split; [done|]. rewrite <- rewritten_keys by done. set (m := rewritten_members _). split.
  - etrans; [exact (members_sorted m id)|apply map_fmap_id].
  - exact (marshal_map_keys id m).
Qed.
Lemma tree_obj_inv l j : tree (JObj l) = inr j → rewritable (members (JObj l)).
Proof.
  cbn [rewriteTreeStrings]. rewrite sorted_members_map. change (object l) with (members (JObj l)).
  destruct (sequence _) as [|l'] eqn:E; [done|]. intros _ k v Hv.
  destruct (tree_keys (members (JObj l)) (sortedKeys (members (JObj l)))) as [_ H2]; [intros ?; by rewrite elem_of_sortedKeys|].
  apply (H2 l' E k v); [apply elem_of_sortedKeys; eauto|done].
Qed.
End trees.

(** ** References of the rewritten tree *)

Lemma by_key_members {A} (g : string → json → A) l :
  by_key (map (λ kv, (kv.1, g kv.1 kv.2)) l) = omap (λ k, g k <$> members (JObj l) !! k) (sortedKeys (members (JObj l))).
Proof.
  change (members (JObj l)) with (object l). unfold by_key, sortedKeys.
  assert ((list_to_map (reverse (map (λ kv : string * json, (kv.1, g kv.1 kv.2)) l)) : gmap string A) =
    map_imap (λ k v, Some (g k v)) (object l)) as ->.
  { unfold object. change (map (λ kv : string * json, (kv.1, g kv.1 kv.2)) l) with ((λ kv : string * json, (kv.1, g kv.1 kv.2)) <$> l).
    rewrite <- fmap_reverse. generalize (reverse l) as r. induction r as [|[k v] r IH]; [done|].
    rewrite fmap_cons. cbn [list_to_map foldr fst snd curry uncurry]. rewrite IH. cbn. by erewrite map_imap_insert_Some by done. }
  replace (dom (map_imap (λ k v, Some (g k v)) (object l))) with (dom (object l)).
  - apply list_omap_ext, Forall_Forall2_diag, Forall_forall. intros k _. rewrite map_lookup_imap. by destruct (object l !! k).
  - apply set_eq. intros k. rewrite !elem_of_dom, map_lookup_imap. destruct (object l !! k); cbn; [split; by eexists|done].
Qed.
Lemma members_elem l k v : members (JObj l) !! k = Some v → (k, v) ∈ l.
Proof.
  unfold members, rawObject, object. cbn. intros E. apply (elem_of_list_to_map_2 (M := gmap string)) in E. by rewrite elem_of_reverse in E.
Qed.
Lemma walk_concat_errs ws : w_errs (walk_concat ws) = [] ↔ Forall (λ w, w_errs w = []) ws.
Proof.
  induction ws as [|w ws IH]; [by split|]. cbn [walk_concat foldr walk_app w_errs]. fold (walk_concat ws).
  by rewrite app_nil, IH, Forall_cons.
Qed.

Section references.
Context (tp : list outSeg → bool) (rw : string → string) (conv : TemplateRef → TemplateRef) `{!Rewriter rw conv}.
Notation tree := (rewriteTreeStrings (λ s, rewriteTemplateString s rw)).
Notation walk := (walk tp).

(** The walk of a list of values, each at its own path. *)
Lemma walk_list (f : nat → string) l i :
  ((fix go (i : nat) (l : list json) : list Walk := match l with [] => [] | x :: l' => walk x (f i) :: go (S i) l' end) i l) =
  imap (λ j x, walk x (f (i + j)%nat)) l.
Proof.
  revert i. induction l as [|x l IH]; intros i; cbn; [done|]. rewrite Nat.add_0_r, IH. f_equal. apply imap_ext. intros j y _. cbn.
  by rewrite Nat.add_succ_r.
Qed.

Definition converted (w' w : Walk) : Prop := strict (w_refs w') = conv <$> strict (w_refs w).
Lemma converted_concat ws' ws : Forall2 converted ws' ws → converted (walk_concat ws') (walk_concat ws).
Proof.
  unfold converted. induction 1 as [|w' w ws' ws Hw Hws IH]; [done|].
  cbn [walk_concat foldr walk_app w_refs]. rewrite !strict_app, fmap_app, Hw. f_equal. exact IH.
Qed.

Lemma walk_rw j : ∀ path, w_errs (walk j path) = [] → ∃ j', tree j = inr j' ∧ converted (walk j' path) (walk j path).
Proof.
  induction j as [|b|n|q|s|l IH|l IH] using json_nested_ind; intros path; try (intros _; by eexists).
  - cbn. destruct (HasTemplate s) eqn:Ht.
    + destruct (parseString tp s path) as [[errs st] refs] eqn:Ep. cbn. intros ->.
      destruct (parseString_rw rw conv tp s path st refs Ht Ep) as (s' & errs' & st' & refs' & -> & Ht' & Ep' & _ & Hs).
      eexists. split; [done|]. unfold converted. cbn. by rewrite Ht', Ep'.
    + intros _. unfold rewriteTemplateString. rewrite Ht. cbn. eexists. split; [done|]. unfold converted. cbn. by rewrite Ht.
  - cbn [Template.walk]. rewrite (walk_list (at_index path)), walk_concat_errs, Forall_lookup. intros He.
    assert (∀ i x, l !! i = Some x → ∃ x', tree x = inr x' ∧ converted (walk x' (at_index path i)) (walk x (at_index path i))) as H.
    { intros i x Hx. rewrite Forall_lookup in IH. apply (IH i x Hx). apply (He i). by rewrite list_lookup_imap, Hx. }
    destruct (sequence_total tree l) as [l' El].
    { apply Forall_lookup. intros i x Hx. destruct (H i x Hx) as (x' & Ex & _). eauto. }
    exists (JArr l'). cbn [rewriteTreeStrings]. rewrite El. split; [done|]. cbn [Template.walk].
    rewrite !(walk_list (at_index path)). apply converted_concat. apply sequence_ok in El.
    apply Forall2_same_length_lookup_2; [rewrite !length_imap; symmetry; by eapply Forall2_length|].
    intros i w' w. rewrite !list_lookup_imap. intros (x' & Hx' & ->)%fmap_Some (x & Hx & ->)%fmap_Some.
    destruct (H i x Hx) as (y & Ey & Hy). rewrite Forall2_lookup in El. specialize (El i). rewrite Hx, Hx' in El.
    inversion El as [? ? Exx|]; subst. rewrite Ey in Exx. injection Exx as ->. exact Hy.
  - cbn [Template.walk]. rewrite (by_key_members (λ k v, walk v (joinPath path k))), walk_concat_errs, Forall_forall. intros He.
    set (m := members (JObj l)) in *.
    assert (∀ k v, m !! k = Some v → ∃ v', tree v = inr v' ∧ converted (walk v' (joinPath path k)) (walk v (joinPath path k))) as H.
    { intros k v Hv. rewrite Forall_forall in IH. apply (IH (k, v)); [by apply members_elem|]. apply He.
      apply list_elem_of_omap. exists k. split; [apply elem_of_sortedKeys; eauto|]. by rewrite Hv. }
    assert (rewritable (λ s, rewriteTemplateString s rw) m) as Hr by (intros k v Hv; destruct (H k v Hv) as (v' & ? & _); eauto).
    destruct (tree_obj _ l Hr) as (l' & El & Em & _). exists (JObj l'). split; [done|]. cbn [Template.walk].
    rewrite !(by_key_members (λ k v, walk v (joinPath path k))). fold m. rewrite Em. fold m. rewrite rewritten_keys by done.
    apply converted_concat. assert (∀ k, k ∈ sortedKeys m → is_Some (m !! k)) as Hks by (intros k; by rewrite elem_of_sortedKeys).
    clear He. induction (sortedKeys m) as [|k ks IHks]; [constructor|]. cbn. rewrite rewritten_lookup.
    destruct (Hks k (list_elem_of_here _ _)) as [v Hv]. destruct (H k v Hv) as (v' & Ev & Hc). rewrite Hv. cbn. rewrite Ev. cbn.
    constructor; [done|]. apply IHks. intros k' Hk'. by apply Hks, list_elem_of_further.
Qed.
End references.

(** ** The decoder accepts the rewritten tree *)

Section shapes.
Context (fn : string → TemplateMsg + string).
Notation tree := (rewriteTreeStrings fn).

Lemma tree_null j : tree j = inr JNull ↔ j = JNull.
Proof.
  split; [|by intros ->]. destruct j as [|b|n|q|s|l|l]; cbn [rewriteTreeStrings]; try (by intros ?; simplify_eq);
    by destruct (fn s) || destruct (sequence _).
Qed.
(** A member of the rewritten object comes from one of the original. *)
Lemma tree_obj_members l j' : tree (JObj l) = inr j' → ∃ l', j' = JObj l' ∧ rewritable fn (members (JObj l)) ∧
  members (JObj l') = rewritten_members fn (members (JObj l)) ∧
  ∀ k v', (k, v') ∈ l' → ∃ v, members (JObj l) !! k = Some v ∧ tree v = inr v'.
Proof.
  intros E. pose proof (tree_obj_inv fn l j' E) as Hr. destruct (tree_obj fn l Hr) as (l' & E' & Em & Hn).
  rewrite E in E'. injection E' as ->. exists l'. split_and!; [done..|]. intros k v' Hin.
  apply members_NoDup in Hin; [|done]. rewrite Em, rewritten_lookup in Hin.
  destruct (members (JObj l) !! k) as [v|]; [|done]. cbn in Hin. exists v. split; [done|]. destruct (tree v); by simplify_eq.
Qed.

Lemma tree_types t : ∀ j j', tree j = inr j' → unmarshals t j = true → unmarshals t j' = true.
Proof.
  assert (∀ P : json → bool, (∀ j j', tree j = inr j' → P j = true → P j' = true) → ∀ l l', Forall2 (λ x y, tree x = inr y) l l' →
    forallb P l = true → forallb P l' = true) as Hlist.
  { intros P HP l l'. induction 1 as [|x y l l' Hx Hl IH]; [done|]. cbn. intros [H1 H2]%andb_prop. by rewrite (HP x y Hx H1), IH. }
  induction t as [| | | | |t IH|t IH|t IH|fs IH] using gotype_nested_ind; intros j j' E H.
  1-4: destruct j as [| | | |s| |]; try done; cbn [rewriteTreeStrings] in E; try (by injection E as <-); by destruct (fn s); simplify_eq.
  - done.
  - assert (j = JNull ∨ unmarshals t j = true) as [->|Hj] by (destruct j; auto); [by injection E as <-|].
    pose proof (IH _ _ E Hj) as H'. by destruct j'.
  - destruct j as [| | | | |l|]; try done; [by injection E as <-|]. cbn [rewriteTreeStrings] in E.
    destruct (sequence _) as [|l'] eqn:Es; [done|]. injection E as <-. apply sequence_ok in Es. by eapply (Hlist (unmarshals t)).
  - destruct j as [| | | | | |l]; try done; [by injection E as <-|]. destruct (tree_obj_members l j' E) as (l' & -> & _ & _ & Hm).
    apply forallb_forall. intros [k v'] Hin. apply list_elem_of_In, Hm in Hin as (v & Hv%members_elem & Et). apply (IH v); [done|].
    apply (proj1 (forallb_forall _ _) H (k, v)). by apply list_elem_of_In.
  - destruct j as [| | | | | |l]; try done; [by injection E as <-|]. destruct (tree_obj_members l j' E) as (l' & -> & _ & _ & Hm).
    rewrite unmarshals_fields in *. intros k v' (v & Hv%members_elem & Et)%Hm. specialize (H k v Hv).
    destruct (field_type k fs) as [t|] eqn:Ef; [|done]. cbn in *. by apply (field_type_ind (λ t, ∀ j j', tree j = inr j' → unmarshals t j = true → unmarshals t j' = true) fs k t IH Ef v v').
Qed.

Lemma unknown_struct fs l path : checkUnknownFields (TStruct fs) (JObj l) path = [] ↔
  ∀ k v, members (JObj l) !! k = Some v →
    match field_type k fs with Some t => checkUnknownFields t v (path +:+ "." +:+ k) = [] | None => False end.
Proof.
  assert (∀ k v (m : gmap string json), m !! k = Some v →
    (fix known fs := match fs with
       | [] => err_at (path +:+ "." +:+ k) KUnknownField
       | (k', t') :: fs' =>
           if bool_decide (k' = k) then checkUnknownFields t' (default JNull (m !! k)) (path +:+ "." +:+ k) else known fs'
       end) fs = [] ↔
    match field_type k fs with Some t => checkUnknownFields t v (path +:+ "." +:+ k) = [] | None => False end) as Hk.
  { intros k v m Hv. rewrite Hv. cbn. induction fs as [|[k' t] fs IH]; [done|]. cbn. destruct (String.eqb_spec k' k) as [->|Hne].
    - by rewrite bool_decide_eq_true_2.
    - by rewrite bool_decide_eq_false_2. }
  etrans; [apply flat_map_nil|]. change (object l) with (members (JObj l)). split.
  - intros H k v Hv. apply (Hk k v (members (JObj l)) Hv). apply H, elem_of_sortedKeys. eauto.
  - intros H k [v Hv]%elem_of_sortedKeys. by apply (Hk k v (members (JObj l)) Hv), H.
Qed.
Lemma tree_clean t : ∀ j j' path, tree j = inr j' → checkUnknownFields t j path = [] → checkUnknownFields t j' path = [].
Proof.
  induction t as [| | | | |t IH|t IH|t IH|fs IH] using gotype_nested_ind; intros j j' path E H; try done.
  - by eapply IH.
  - destruct j' as [| | | | |l'|]; try done. destruct j as [| | | |s|l|l]; cbn [rewriteTreeStrings] in E; try done.
    + by destruct (fn s).
    + destruct (sequence _) as [|l2] eqn:Es; [done|]. injection E as ->. apply sequence_ok in Es.
      change (concat (imap (λ i v, checkUnknownFields t v (at_index path i)) l) = []) in H.
      change (concat (imap (λ i v, checkUnknownFields t v (at_index path i)) l') = []).
      rewrite concat_imap_nil in *. intros i x' Hx'. rewrite Forall2_lookup in Es. specialize (Es i). rewrite Hx' in Es.
      inversion Es as [x ? Ex Hx|]; subst. eapply IH; [exact Ex|]. by apply H.
    + by destruct (sequence _).
  - destruct j' as [| | | | | |l']; try done. destruct j as [| | | |s|l|l]; cbn [rewriteTreeStrings] in E; try done.
    + by destruct (fn s).
    + by destruct (sequence _).
    + destruct (tree_obj_members l (JObj l') E) as (l2 & [= <-] & Hr & Em & _).
      change (flat_map (λ k, checkUnknownFields t (default JNull (members (JObj l) !! k)) (path +:+ "." +:+ k)) (sortedKeys (members (JObj l))) = []) in H.
      change (flat_map (λ k, checkUnknownFields t (default JNull (members (JObj l') !! k)) (path +:+ "." +:+ k)) (sortedKeys (members (JObj l'))) = []).
      rewrite flat_map_nil in *. intros k Hk. rewrite Em, rewritten_keys in Hk by done. specialize (H k Hk).
      apply elem_of_sortedKeys in Hk as [v Hv]. rewrite Em, rewritten_lookup, Hv in *. cbn in *. destruct (Hr k v Hv) as [v' Ev].
      rewrite Ev. cbn. by eapply IH.
  - destruct j' as [| | | | | |l']; try done. destruct j as [| | | |s|l|l]; cbn [rewriteTreeStrings] in E; try done.
    + by destruct (fn s).
    + by destruct (sequence _).
    + destruct (tree_obj_members l (JObj l') E) as (l2 & [= <-] & Hr & Em & _).
      rewrite unknown_struct in *. intros k v' Hv'. rewrite Em, rewritten_lookup in Hv'.
      destruct (members (JObj l) !! k) as [v|] eqn:Hv; [|done]. cbn in Hv'. destruct (tree v) as [|v2] eqn:Ev; [done|]. injection Hv' as ->.
      specialize (H k v Hv). destruct (field_type k fs) as [t|] eqn:Ef; [|done].
      by apply (field_type_ind (λ t, ∀ j j' path, tree j = inr j' → checkUnknownFields t j path = [] → checkUnknownFields t j' path = [])
        fs k t IH Ef v v').
Qed.
End shapes.

(** ** Cloned configs decode *)

Section clones.
Context (rw : string → string).
Notation fn := (λ s, rewriteTemplateString s rw).
Notation tree := (rewriteTreeStrings fn).

Lemma str_of_tree v v' : tree v = inr v' → HasTemplate (str_of v) = false → str_of v' = str_of v.
Proof.
  destruct v as [| | | |s|l|l]; cbn [rewriteTreeStrings]; try (by intros [= <-]).
  - unfold rewriteTemplateString. cbn. destruct (HasTemplate s); [done|]. cbn. by intros [= <-].
  - by destruct (sequence _); intros [= <-].
  - by destruct (sequence _); intros [= <-].
Qed.
Lemma rd_str_tree m k : rewritable fn m → HasTemplate (rd_str (m !! k)) = false →
  rd_str (rewritten_members fn m !! k) = rd_str (m !! k).
Proof.
  intros Hr. rewrite rewritten_lookup. destruct (m !! k) as [v|] eqn:E; [|done]. destruct (Hr k v E) as [v' Ev]. cbn [mbind option_bind].
  rewrite Ev. by apply str_of_tree.
Qed.
Lemma rd_list_tree m k : rewritable fn m → Forall (λ s, HasTemplate s = false) (rd_list str_of (m !! k)) →
  rd_list str_of (rewritten_members fn m !! k) = rd_list str_of (m !! k).
Proof.
  intros Hr. rewrite rewritten_lookup. destruct (m !! k) as [v|] eqn:E; [|done]. destruct (Hr k v E) as [v' Ev]. cbn [mbind option_bind].
  rewrite Ev. destruct v as [| | | |s|l|l]; cbn [rewriteTreeStrings] in Ev; try (by simplify_eq).
  - by destruct (rewriteTemplateString s rw); simplify_eq.
  - destruct (sequence _) as [|l'] eqn:Es; [done|]. injection Ev as <-. apply sequence_ok in Es. cbn. clear E.
    induction Es as [|x y l l' Hx Hl IH]; [done|]. rewrite !fmap_cons, Forall_cons. intros [H1 H2]. by rewrite (str_of_tree x y Hx H1), IH.
  - by destruct (sequence _); simplify_eq.
Qed.

Lemma check_enum_cases l s p : check_enum true l s p = [] → s ∈ "" :: l.
Proof.
  unfold check_enum, err_if, err_at. destruct (decide (s = "")) as [->|Hs]; [set_solver|].
  rewrite (bool_decide_eq_false_2 (s = "")) by done. cbn. case_bool_decide; [set_solver|done].
Qed.
(** The closed enums spell no template. *)
Lemma enum_plain l s p : check_enum true l s p = [] → forallb (λ s, negb (HasTemplate s)) l = true → HasTemplate s = false.
Proof.
  intros [->|Hs]%check_enum_cases%elem_of_cons Hl; [done|]. rewrite forallb_forall in Hl. apply negb_true_iff, Hl. by apply list_elem_of_In.
Qed.

Lemma map_enums v : config_enums "config" (read_Config StepMap v) =
  check_enum true itemFailurePolicies (rd_str (members v !! "on_item_failure")) "config.on_item_failure".
Proof. done. Qed.
Lemma approval_enums v : config_enums "config" (read_Config StepHumanApproval v) =
  check_enums approvalDecisions "config.allowed_decisions" (rd_list str_of (members v !! "allowed_decisions")) ++
  check_enum true approvalTimeoutPolicies (rd_str (members v !! "on_timeout")) "config.on_timeout" ++
  check_enum true approvalRejectPolicies (rd_str (members v !! "on_reject")) "config.on_reject".
Proof. done. Qed.
Lemma join_enums v : config_enums "config" (read_Config StepJoin v) =
  check_enum true [JoinAll; JoinAny] (rd_str (members v !! "mode")) "config.mode".
Proof. done. Qed.
Lemma config_enums_tree st l l' : st ∈ stepConfigTypes → tree (JObj l) = inr (JObj l') →
  config_enums "config" (read_Config st (JObj l)) = [] → config_enums "config" (read_Config st (JObj l')) = [].
Proof.
  intros Hst E. destruct (tree_obj_members fn l (JObj l') E) as (l2 & [= <-] & Hr & Em & _).
  unfold stepConfigTypes in Hst. rewrite !elem_of_cons, elem_of_nil in Hst.
  destruct_or! Hst; subst st; try done.
  - rewrite !map_enums, Em. intros H. rewrite rd_str_tree; [done|done|]. by apply (enum_plain _ _ _ H eq_refl).
  - rewrite !approval_enums, Em, !app_nil. intros (H1 & H2 & H3).
    rewrite !rd_str_tree, rd_list_tree; try done;
      try (by apply (enum_plain _ _ _ H2 eq_refl)); try (by apply (enum_plain _ _ _ H3 eq_refl)).
    apply check_enums_nil in H1. eapply Forall_impl; [exact H1|]. intros s. unfold approvalDecisions. rewrite !elem_of_cons, elem_of_nil.
    intros Hs. by destruct_or! Hs; subst.
  - rewrite !join_enums, Em. intros H. rewrite rd_str_tree; [done|done|]. by apply (enum_plain _ _ _ H eq_refl).
Qed.

(** The clone of a config the decoder produced. *)
Lemma clone_decodes st raw path c conf : st ∈ stepConfigTypes → decodeStepConfig st raw path = (Some c, []) →
  conf = marshalConfig c ∨ tree (marshalConfig c) = inr conf → ∃ c', DecodeStepConfig st (Some conf) = inr (Some c') ∧ c' = read_Config st conf.
Proof.
  intros Hst Hd Hc. unfold decodeStepConfig in Hd. destruct raw as [| | | | | |ms]; try done. injection Hd as <- [Hs He]%app_nil.
  set (cfg := read_Config st (JObj ms)) in *. destruct (marshalConfig_object cfg) as [l El].
  assert (unmarshals (T_Config st) (JObj l) = true) as Ht.
  { rewrite <- El. apply rt_types. apply (strict_ok _ (JObj ms) path Hs). }
  assert (checkUnknownFields (T_Config st) (JObj l) "config" = []) as Hu.
  { rewrite <- El. apply (rt_clean (t := T_Config st)). }
  assert (config_enums "config" (read_Config st (JObj l)) = []) as Hen.
  { rewrite <- El. unfold cfg. rewrite (rt_read (t := T_Config st)), config_enums_canon. by eapply config_enums_path. }
  assert (∃ l', conf = JObj l' ∧ unmarshals (T_Config st) (JObj l') = true ∧ checkUnknownFields (T_Config st) (JObj l') "config" = [] ∧
    config_enums "config" (read_Config st (JObj l')) = []) as (l' & -> & Ht' & Hu' & He').
  { rewrite El in Hc. destruct Hc as [->|Hc]; [by exists l|]. destruct (tree_obj_members fn l conf Hc) as (l' & -> & _).
    exists l'. split_and!; [done|by eapply tree_types|by eapply tree_clean|by eapply config_enums_tree]. }
  eexists. split; [|done]. unfold DecodeStepConfig. rewrite bool_decide_eq_true_2 by done. cbn [negb decodeStepConfig strictUnmarshal].
  by rewrite Ht', Hu', He'.
Qed.
End clones.
