(* ===== verification/MapFacts.v ===== *)
(** Facts about the deltas the engine generates (mapexpand.go, loopexpand.go):
    instance ids, the two reference rewriters, cloned steps. *)
From Stdlib Require Import QArith Ascii.
From stdpp Require Import pretty.
From S2P Require Import Prelude Issues GoStd Retry StoreModel Config Template TemplateFacts Dag Cycles Validate ValidateGraph Codec Expansion Decode MapExpand ExpansionFacts RefRewrite CodecFacts DecodeFacts TreeRewrite.
Open Scope Z_scope.

(** ** Splitting at a separator *)

Lemma Split_cut tok sep x l : Split tok sep = x :: l →
  (tok = x ∧ l = [] ∧ Cut tok (one sep) = None) ∨ ∃ t, tok = x +:+ String sep t ∧ l = Split t sep ∧ Cut tok (one sep) = Some (x, t).
Proof.
  destruct (Cut tok (one sep)) as [[a b]|] eqn:E.
  - pose proof (Cut_spec _ _ _ _ E) as Hs. rewrite one_append in Hs. pose proof (Cut_first _ _ _ _ E ltac:(done)) as Hn.
    rewrite Hs, Split_app, (Split_none sep a) by by apply Cut_one_none. intros [= <- <-]. right. by exists b.
  - intros H. rewrite Split_none in H by by apply Cut_one_none. simplify_eq. by left.
Qed.
Lemma drop_app p s : drop_s (String.length p) (p +:+ s) = s.
Proof. induction p as [|c p IH]; [by destruct s|]. by rewrite append_cons. Qed.
Lemma all_chars_drop p n s : all_chars p s = true → all_chars p (drop_s n s) = true.
Proof. revert s. induction n as [|n IH]; intros [|c s]; cbn; try done. intros [_ H]%andb_prop. by apply IH. Qed.

(** ** Instance ids *)

Definition plain_char (c : ascii) : bool := isRefChar c && negb (bool_decide (c = "."%char)).
Lemma id_char_plain c : id_char c = true → plain_char c = true ∧ c ≠ "#"%char.
Proof.
  unfold id_char, plain_char, isRefChar. intros H. split; [|intros ->; done].
  assert (c ≠ "."%char) as Hd by (intros ->; done). rewrite (bool_decide_eq_false_2 _ Hd). cbn.
  apply orb_prop in H as [[[H|H]%orb_prop|H]%orb_prop|H]; rewrite H; by rewrite ?orb_true_r.
Qed.
Lemma suffix_char_plain c : suffix_char c = true → plain_char c = true.
Proof.
  unfold suffix_char, plain_char, isRefChar. intros H.
  assert (c ≠ "."%char) as Hd by (intros ->; done). rewrite (bool_decide_eq_false_2 _ Hd). cbn.
  apply orb_prop in H as [[H|H]%orb_prop|H]; rewrite H; by rewrite ?orb_true_r.
Qed.
Lemma stepID_chars id : stepIDRe id = true → all_chars plain_char id = true ∧ all_chars (λ c, negb (bool_decide (c = "#"%char))) id = true ∧ id ≠ "".
Proof.
  destruct id as [|c id]; [done|]. cbn. intros [[Hl Hc]%andb_prop _]%andb_prop.
  assert (id_char c = true) as Hc0 by (unfold id_char; by rewrite Hl). destruct (id_char_plain c Hc0) as [Hp Hh].
  rewrite Hp, (bool_decide_eq_false_2 _ Hh). cbn. split_and!; [| |done]; eapply all_chars_impl; try exact Hc; intros x Hx; destruct (id_char_plain x Hx); [done|].
  by rewrite bool_decide_eq_false_2.
Qed.
Lemma Split_join s sep : ∀ x l, Split s sep = x :: l → all_chars plain_char x = true → Forall (λ y, all_chars plain_char y = true) l →
  plain_char sep = true → all_chars plain_char s = true.
Proof.
  remember (String.length s) as n eqn:Hn. revert s Hn. induction (lt_wf n) as [n _ IH]. intros s -> x l E Hx Hl Hs.
  destruct (Split_cut _ _ _ _ E) as [(-> & _ & _)|(t & -> & -> & _)]; [done|]. rewrite all_chars_app, Hx. cbn. rewrite Hs. cbn.
  destruct (Split t sep) as [|y l'] eqn:Et.
  { exfalso. unfold Split in Et. destruct (split_go_cur sep t "") as (? & ? & Ex & _). congruence. }
  apply Forall_cons in Hl as [Hy Hl]. eapply (IH (String.length t)); try done. rewrite length_append. cbn. lia.
Qed.
Lemma validID_chars id : validInstanceOrStepID id = true → all_chars plain_char id = true ∧ id ≠ "".
Proof.
  unfold validInstanceOrStepID. intros [H|H]%orb_prop; [by destruct (stepID_chars id H) as (? & _ & ?)|].
  unfold instanceStepIDRe in H. destruct (Split id "#") as [|b [|x l]] eqn:E; try done. apply andb_prop in H as [Hb Hl].
  destruct (stepID_chars b Hb) as (Hbc & _ & Hne). split.
  - eapply Split_join; [exact E|done| |done]. rewrite forallb_forall in Hl. apply Forall_forall. intros y Hy%list_elem_of_In.
    apply Hl in Hy. apply andb_prop in Hy as [_ Hy]. eapply all_chars_impl; [|exact Hy]. apply suffix_char_plain.
  - intros ->. cbn in E. by injection E as <-.
Qed.
Lemma plain_ref id : all_chars plain_char id = true → all_chars isRefChar id = true ∧ all_chars (λ c, negb (bool_decide (c = "."%char))) id = true.
Proof. intros H. split; (eapply all_chars_impl; [|exact H]); unfold plain_char; by intros c [? ?]%andb_prop. Qed.

Lemma digits_suffix ks : all_chars is_digit ks = true → all_chars suffix_char ks = true.
Proof. apply all_chars_impl. intros c H. unfold suffix_char. by rewrite H, orb_true_r. Qed.
(** A valid id with one more instance suffix is valid. *)
Lemma suffix_valid id ks : validInstanceOrStepID id = true → all_chars suffix_char ks = true → ks ≠ "" →
  validInstanceOrStepID (id +:+ "#" +:+ ks) = true.
Proof.
  intros Hv Hk Hne. unfold validInstanceOrStepID. apply orb_true_intro. right. unfold instanceStepIDRe.
  change ("#" +:+ ks) with (String "#" ks). rewrite Split_app.
  assert (Split ks "#" = [ks]) as ->.
  { apply Split_none. eapply all_chars_impl; [|exact Hk]. intros c Hc. rewrite bool_decide_eq_false_2; [done|]. by intros ->. }
  assert (negb (bool_decide (ks = "")) && all_chars suffix_char ks = true) as Hks by (by rewrite bool_decide_eq_false_2, Hk).
  unfold validInstanceOrStepID in Hv. apply orb_prop in Hv as [Hv|Hv].
  - destruct (stepID_chars id Hv) as (_ & Hh & _). rewrite Split_none by done. cbn [app forallb]. by rewrite Hv, Hks.
  - unfold instanceStepIDRe in Hv. destruct (Split id "#") as [|b [|x l]]; try done. apply andb_prop in Hv as [Hb Hl]. cbn [app].
    rewrite Hb. cbn [andb]. change (x :: l ++ [ks]) with ((x :: l) ++ [ks]). rewrite forallb_app, Hl. cbn [forallb]. by rewrite Hks.
Qed.
Lemma instanceID_valid id k : validInstanceOrStepID id = true → 0 ≤ k → validInstanceOrStepID (instanceID id k) = true.
Proof. intros Hv Hk. destruct (pretty_digits k Hk). apply suffix_valid; [done|by apply digits_suffix|done]. Qed.

(** ** Reference tokens *)

Lemma refToken_prefix t : HasPrefix t "steps." = true → isRefToken t = true.
Proof. intros H. unfold isRefToken. by rewrite H, !orb_true_r. Qed.
(** A strict reference to a step, by its parts. *)
Lemma parse_step_ref id tail path : validInstanceOrStepID id = true →
  parseRef ("steps." +:+ id +:+ "." +:+ tail) path =
  match Split tail "." with
  | out :: _ => if existsb (λ s, bool_decide (s = "")) (Split tail ".") then inl (TemplateRefError path ("steps." +:+ id +:+ "." +:+ tail))
                else if bool_decide (out = "output") then inr (mkTemplateRef path ("steps." +:+ id +:+ "." +:+ tail) id "" false false)
                else inl (TemplateRefError path ("steps." +:+ id +:+ "." +:+ tail))
  | [] => inl (TemplateRefError path ("steps." +:+ id +:+ "." +:+ tail))
  end.
Proof.
  intros Hv. destruct (validID_chars id Hv) as [Hc Hne]. destruct (plain_ref id Hc) as [_ Hd]. unfold parseRef.
  assert (Split ("steps." +:+ id +:+ "." +:+ tail) "." = "steps" :: id :: Split tail ".") as E.
  { change ("steps." +:+ id +:+ "." +:+ tail) with ("steps" +:+ String "." (id +:+ String "." tail)).
    rewrite !Split_app, (Split_none "." id Hd). done. }
  rewrite E. cbn [existsb]. rewrite (bool_decide_eq_false_2 (id = "")) by done. change (bool_decide ("steps" = "")) with false. cbn [orb].
  destruct (Split tail ".") as [|out r]; [done|]. destruct (existsb _ _); [done|].
  change (bool_decide ("steps" = "steps")) with true. cbn iota. rewrite Hv, andb_true_r. done.
Qed.

(** What [parseRef] accepts, by the token's root. *)
Lemma parseRef_cases tok path r : parseRef tok path = inr r →
  (∃ id tail, tok = "steps." +:+ id +:+ "." +:+ tail ∧ Cut (id +:+ "." +:+ tail) "." = Some (id, tail) ∧ validInstanceOrStepID id = true ∧
     r = mkTemplateRef path tok id "" false false ∧ existsb (λ s, bool_decide (s = "")) (Split tail ".") = false ∧
     head (Split tail ".") = Some "output") ∨
  (r = mkTemplateRef path tok "" "" false true ∧
     (tok = "item" ∨ tok = "item_index" ∨ ∃ t, tok = "item." +:+ t ∧ existsb (λ s, bool_decide (s = "")) (Split t ".") = false)) ∨
  (HasPrefix tok "run." = true ∧ StepID r = "" ∧ ItemRef r = false ∧ Raw r = tok ∧ Lenient r = false ∧ ConfigPath r = path).
Proof.
  unfold parseRef. destruct (existsb _ (Split tok ".")) eqn:Hx; [done|]. destruct (Split tok ".") as [|root rest] eqn:E; [done|].
  cbn in Hx. apply orb_false_iff in Hx as [_ Hx]. destruct (Split_cut _ _ _ _ E) as [(-> & -> & _)|(t & -> & -> & _)].
  - repeat (case_bool_decide; [subst; try done|]); try done; intros [= <-]; right; left; split; auto.
  - case_bool_decide as E1.
    { subst root. destruct (Split t ".") as [|id l] eqn:Et; [done|]. destruct l as [|out l]; [done|].
      destruct (bool_decide (out = "output") && validInstanceOrStepID id) eqn:Ev; [|done]. intros [= <-].
      apply andb_prop in Ev as [->%bool_decide_eq_true Hv]. left.
      destruct (Split_cut _ _ _ _ Et) as [(_ & ? & _)|(t' & -> & El & Ec)]; [done|]. exists id, t'. rewrite <- El.
      cbn in Hx. apply orb_false_iff in Hx as [_ Hx]. by split_and!. }
    case_bool_decide as E2.
    { subst root. intros [= <-]. right. left. split; [done|]. right. right. by exists t. }
    case_bool_decide as E3; [by destruct (Split t ".") as [|] eqn:Et; [|done];
      unfold Split in Et; destruct (split_go_cur "." t "") as (? & ? & Ex & _); congruence|].
    case_bool_decide as E4; [|done]. subst root. destruct (Split t ".") as [|p l]; [done|]. case_bool_decide; [|done].
    intros [= <-]. right. right. by split_and!.
Qed.

(** A token with the prefix "steps." and its parts. *)
Lemma suffix_ref_parts id tail ks : Cut (id +:+ "." +:+ tail) "." = Some (id, tail) →
  suffix_ref ("steps." +:+ id +:+ "." +:+ tail) ks = "steps." +:+ (id +:+ "#" +:+ ks) +:+ "." +:+ tail.
Proof. intros Hc. unfold suffix_ref. rewrite drop_app, Hc. by rewrite !append_assoc. Qed.
Lemma suffix_ref_chars tok ks : HasPrefix tok "steps." = true → all_chars isRefChar tok = true → all_chars isRefChar ks = true →
  all_chars isRefChar (suffix_ref tok ks) = true ∧ suffix_ref tok ks ≠ "".
Proof.
  intros Hp%HasPrefix_spec Ht Hk. split; [|by unfold suffix_ref; destruct (Cut _ _) as [[]|]].
  unfold suffix_ref. assert (all_chars isRefChar (drop_s (String.length "steps.") tok) = true) as Hd by by apply all_chars_drop.
  destruct (Cut _ ".") as [[id tail]|] eqn:E.
  - apply Cut_spec in E. rewrite E, !all_chars_app in Hd. rewrite !all_chars_app, Hk. apply andb_prop in Hd as [-> [_ ->]%andb_prop]. done.
  - by rewrite !all_chars_app, Hd, Hk.
Qed.
Lemma digits_ref ks : all_chars is_digit ks = true → all_chars isRefChar ks = true.
Proof. apply all_chars_impl. intros c H. unfold isRefChar. by rewrite H, !orb_true_r. Qed.

(** *** Maps *)

(** The reference of instance [k]: item roots point into the output of the map
    step, steps of the body to their instance. *)
Definition instance_ref (m : string) (k : Z) (r : TemplateRef) : TemplateRef :=
  mkTemplateRef (ConfigPath r) (instanceRefRewriter m k (Raw r))
    (if ItemRef r then m else if bool_decide (StepID r = "") then "" else instanceID (StepID r) k) (ParamKey r) (Lenient r) false.

Section map_refs.
Context (m : string) (k : Z) (Hm : validInstanceOrStepID m = true) (Hk : 0 ≤ k).

Lemma rewriter_word tok : isRefToken tok = false → instanceRefRewriter m k tok = tok.
Proof.
  unfold isRefToken, instanceRefRewriter. destruct (_ || _) eqn:E; [done|]. intros _. rewrite !orb_false_iff in E.
  destruct E as ((((((_ & _) & H1) & H2) & H3) & _) & H4). by rewrite H1, H4, H2, H3.
Qed.
Lemma item_path_valid what rest path : all_chars plain_char what = true → what ≠ "" →
  existsb (λ s, bool_decide (s = "")) (Split rest ".") = false →
  let tok := "steps." +:+ m +:+ "." +:+ ("output." +:+ what +:+ "." +:+ rest) in
  parseRef tok path = inr (mkTemplateRef path tok m "" false false).
Proof.
  intros Hw Hne Hr tok. unfold tok. rewrite parse_step_ref by done.
  assert (Split ("output." +:+ what +:+ "." +:+ rest) "." = "output" :: what :: Split rest ".") as ->.
  { change ("output." +:+ what +:+ "." +:+ rest) with ("output" +:+ String "." (what +:+ String "." rest)).
    rewrite !Split_app, (Split_none "." what); [done|]. by apply plain_ref. }
  cbn [existsb]. rewrite Hr, (bool_decide_eq_false_2 (what = "")) by done. done.
Qed.
#[local] Instance map_rewriter : Rewriter (instanceRefRewriter m k) (instance_ref m k).
Proof.
  destruct (pretty_digits k Hk) as [Hd Hne]. destruct (validID_chars m Hm) as [Hmc Hmn]. destruct (plain_ref m Hmc) as [Hmr _].
  assert (Split (pretty k) "." = [pretty k]) as Hks.
  { apply Split_none. eapply all_chars_impl; [|exact Hd]. intros c Hc. rewrite bool_decide_eq_false_2; [done|]. by intros ->. }
  assert (existsb (λ s, bool_decide (s = "")) (Split (pretty k) ".") = false) as Hkx.
  { rewrite Hks. cbn. by rewrite bool_decide_eq_false_2. }
  split.
  - intros tok Hn Ht. assert (∀ what, all_chars isRefChar what = true →
      all_chars isRefChar ("steps." +:+ m +:+ what +:+ pretty k) = true) as Hroot.
    { intros what Hw. by rewrite !all_chars_app, Hmr, Hw, (digits_ref _ Hd). }
    unfold instanceRefRewriter. cbv zeta. destruct (bool_decide (tok = "item")); [split; [by apply Hroot|done]|].
    destruct (HasPrefix tok "item.").
    { rewrite all_chars_app, Hroot, all_chars_drop by done. done. }
    destruct (bool_decide (tok = "item_index")); [split; [by apply Hroot|done]|].
    destruct (HasPrefix tok "steps.") eqn:Hp; [|done]. apply suffix_ref_chars; [done..|]. by apply digits_ref.
  - apply rewriter_word.
  - intros tok path r _ Hp. unfold instance_ref. pose proof (parseRef_ok _ _ _ Hp) as [-> HL].
    destruct (parseRef_cases _ _ _ Hp) as [(id & tail & -> & Hc & Hv & -> & Hx & Hh)|[[-> Hi]|(Hrun & HS & HI & HR & HL' & HP)]].
    + assert (instanceRefRewriter m k ("steps." +:+ id +:+ "." +:+ tail) = "steps." +:+ instanceID id k +:+ "." +:+ tail) as E.
      { unfold instanceRefRewriter. cbv zeta. rewrite bool_decide_eq_false_2 by done.
        change (HasPrefix ("steps." +:+ id +:+ "." +:+ tail) "item.") with false. rewrite bool_decide_eq_false_2 by done.
        rewrite (HasPrefix_app _ "steps." (id +:+ "." +:+ tail)) by done. by apply suffix_ref_parts. }
      rewrite E. split; [apply refToken_prefix; by eapply HasPrefix_app|]. rewrite parse_step_ref by by apply instanceID_valid.
      rewrite Hx. destruct (Split tail ".") as [|o l]; [done|]. injection Hh as ->.
      rewrite (bool_decide_eq_true_2 ("output" = "output")) by done. cbn [ConfigPath StepID ParamKey Lenient ItemRef].
      rewrite (bool_decide_eq_false_2 (id = "")) by by apply validID_chars. reflexivity.
    + assert (∃ tok', instanceRefRewriter m k tok = tok' ∧ HasPrefix tok' "steps." = true ∧
        parseRef tok' path = inr (mkTemplateRef path tok' m "" false false)) as (tok' & -> & Hpre & Hpar).
      { destruct Hi as [->|[->|(t & -> & Hx)]].
        - eexists. split; [done|]. split; [done|].
          apply (item_path_valid "items" (pretty k) path); done.
        - eexists. split; [done|]. split; [done|]. apply (item_path_valid "indices" (pretty k) path); done.
        - exists ("steps." +:+ m +:+ "." +:+ ("output." +:+ "items" +:+ "." +:+ (pretty k +:+ "." +:+ t))). split; [|split; [done|]].
          + unfold instanceRefRewriter. cbv zeta. rewrite bool_decide_eq_false_2 by (by destruct t).
            rewrite (HasPrefix_app _ "item." t) by done. change (drop_s (String.length "item") ("item." +:+ t)) with ("." +:+ t).
            by rewrite !append_assoc.
          + apply (item_path_valid "items" (pretty k +:+ "." +:+ t) path); [done..|].
            change (pretty k +:+ "." +:+ t) with (pretty k +:+ String "." t). rewrite Split_app, existsb_app, Hkx. exact Hx. }
      split; [by apply refToken_prefix|]. by rewrite Hpar.
    + assert (instanceRefRewriter m k tok = tok) as E.
      { apply HasPrefix_spec in Hrun. rewrite Hrun. done. }
      rewrite E, HS, HI. split; [unfold isRefToken; by rewrite Hrun, ?orb_true_r|]. rewrite Hp. f_equal. destruct r. by cbn in *; subst.
Qed.
End map_refs.

(** *** Loops *)

(** The reference of iteration [iter]: steps of the body point to their instance. *)
Definition loop_ref (body : gset string) (iter : Z) (r : TemplateRef) : TemplateRef :=
  mkTemplateRef (ConfigPath r) (loopRefRewriter body iter (Raw r))
    (if bool_decide (StepID r = "") then "" else if bool_decide (StepID r ∈ body) then instanceID (StepID r) iter else StepID r)
    (ParamKey r) (Lenient r) (ItemRef r).

Section loop_refs.
Context (body : gset string) (iter : Z) (Hk : 0 ≤ iter).

#[local] Instance loop_rewriter : Rewriter (loopRefRewriter body iter) (loop_ref body iter).
Proof.
  destruct (pretty_digits iter Hk) as [Hd Hne]. split.
  - intros tok Hn Ht. unfold loopRefRewriter. destruct (HasPrefix tok "steps.") eqn:Hp; [cbn [negb]|done].
    destruct (bool_decide (ref_step tok ∈ body)); [|done]. apply suffix_ref_chars; [done..|]. by apply digits_ref.
  - intros tok Ht. unfold loopRefRewriter. destruct (HasPrefix tok "steps.") eqn:Hp; [|done].
    by rewrite refToken_prefix in Ht.
  - intros tok path r Hr Hp. unfold loop_ref. pose proof (parseRef_ok _ _ _ Hp) as [-> HL].
    destruct (parseRef_cases _ _ _ Hp) as [(id & tail & -> & Hc & Hv & -> & Hx & Hh)|[[-> Hi]|(Hrun & HS & HI & HR & HL' & HP)]].
    + assert (ref_step ("steps." +:+ id +:+ "." +:+ tail) = id) as Er by (unfold ref_step; by rewrite drop_app, Hc).
      assert (loopRefRewriter body iter ("steps." +:+ id +:+ "." +:+ tail) =
        if bool_decide (id ∈ body) then "steps." +:+ instanceID id iter +:+ "." +:+ tail else "steps." +:+ id +:+ "." +:+ tail) as ->.
      { unfold loopRefRewriter. rewrite (HasPrefix_app _ "steps." (id +:+ "." +:+ tail)), Er by done. cbn [negb].
        destruct (bool_decide (id ∈ body)); [|done]. by apply suffix_ref_parts. }
      cbn [ConfigPath StepID ParamKey Lenient ItemRef]. rewrite (bool_decide_eq_false_2 (id = "")) by by apply validID_chars.
      destruct (bool_decide (id ∈ body)); [|by split].
      split; [apply refToken_prefix; by eapply HasPrefix_app|]. rewrite parse_step_ref by by apply instanceID_valid.
      rewrite Hx. destruct (Split tail ".") as [|o l]; [done|]. by injection Hh as ->.
    + assert (loopRefRewriter body iter tok = tok) as ->; [|by split].
      destruct Hi as [->|[->|(t & -> & _)]]; done.
    + assert (loopRefRewriter body iter tok = tok) as ->.
      { apply HasPrefix_spec in Hrun. rewrite Hrun. done. }
      rewrite HS. split; [done|]. rewrite Hp. f_equal. destruct r. by cbn in *; subst.
Qed.
End loop_refs.

(** ** Cloned steps *)

(** A step as the decoder produced it, whose config references pass the lint. *)
Definition decoded_step (s : Step) : Prop :=
  Type_ s ∈ stepConfigTypes ∧ ∀ c, Config s = Some c → ∃ raw path, decodeStepConfig (Type_ s) raw path = (Some c, []).
Definition linted (tp : list outSeg → bool) (s : Step) : Prop :=
  ∀ c, Config s = Some c → ∃ ts refs, ParseConfigTemplates tp (marshalConfig c) = inr (ts, refs).

(** The strict references of a config document. *)
Definition config_refs (tp : list outSeg → bool) (conf : json) : list TemplateRef :=
  if json_has_template conf then strict (w_refs (walk tp conf "")) else [].

Section clone.
Context (tp : list outSeg → bool) (rw : string → string) (conv : TemplateRef → TemplateRef) `{!Rewriter rw conv}.

(** What a clone is: the step with another id and context, and a config decoded
    from the rewritten document, whose strict references are the converted ones. *)
Definition clone_of (id : string) (ctx : option ContextSpec) (s s' : Step) : Prop :=
  ID s' = id ∧ Type_ s' = Type_ s ∧ Validation s' = Validation s ∧ Context_ s' = ctx ∧ Policies s' = Policies s ∧
  match Config s with
  | None => Config s' = None
  | Some c => ∃ conf, rewrite_config rw (marshalConfig c) = inr conf ∧ Config s' = Some (read_Config (Type_ s) conf) ∧
      strict (w_refs (walk tp conf "")) = conv <$> config_refs tp (marshalConfig c)
  end.

Lemma walk_concat_nil ws : Forall (λ w, w = walk_nil) ws → walk_concat ws = walk_nil.
Proof. induction 1 as [|w ws -> Hws IH]; [done|]. unfold walk_concat in *. cbn [foldr]. by rewrite IH. Qed.
Lemma walk_no_template j path : json_has_template j = false → walk tp j path = walk_nil.
Proof.
  revert path. induction j as [|b|n|q|s|l IH|l IH] using json_nested_ind; intros path; try done.
  - cbn. by intros ->.
  - cbn [json_has_template walk]. intros Hn. rewrite (walk_list tp (at_index path)). apply walk_concat_nil, Forall_lookup.
    intros i w. rewrite list_lookup_imap. intros (x & Hx & ->)%fmap_Some. rewrite Forall_lookup in IH. apply (IH i x Hx).
    apply not_true_iff_false. intros Ht. rewrite <- not_true_iff_false in Hn. apply Hn, existsb_exists. exists x.
    split; [|done]. apply list_elem_of_In. by eapply list_elem_of_lookup_2.
  - cbn [json_has_template walk]. intros H. rewrite (by_key_members (λ k v, walk tp v (joinPath path k))).
    assert (∀ k v, members (JObj l) !! k = Some v → walk tp v (joinPath path k) = walk_nil) as Hw.
    { intros k v Hv%members_elem. rewrite Forall_forall in IH. apply (IH (k, v) Hv).
      apply not_true_iff_false. intros Ht. rewrite <- not_true_iff_false in H. apply H. apply existsb_exists.
      exists (k, v). split; [by apply list_elem_of_In|]. cbn in *. by rewrite Ht, orb_true_r. }
    apply walk_concat_nil, Forall_forall. intros w (k & _ & (v & Hv & ->)%fmap_Some)%list_elem_of_omap. by apply Hw.
Qed.

Lemma clone_total id ctx s : decoded_step s → linted tp s → ∃ s', clone_step id rw ctx s = inr s' ∧ clone_of id ctx s s'.
Proof.
  intros [Hst Hd] Hl. unfold clone_step, clone_of. destruct (Config s) as [c|] eqn:Ec; [|by eexists].
  destruct (Hd c eq_refl) as (raw & path & Hraw). destruct (Hl c Ec) as (ts & refs & Hp).
  assert (∃ conf, rewrite_config rw (marshalConfig c) = inr conf ∧
    (conf = marshalConfig c ∨ rewriteTreeStrings (λ s, rewriteTemplateString s rw) (marshalConfig c) = inr conf) ∧
    strict (w_refs (walk tp conf "")) = conv <$> config_refs tp (marshalConfig c)) as (conf & Er & Hconf & Hrefs).
  { unfold rewrite_config, config_refs, ParseConfigTemplates in *. destruct (json_has_template (marshalConfig c)) eqn:Ht; cbn [negb] in *.
    - destruct (w_errs (walk tp (marshalConfig c) "")) eqn:Ew; [|done].
      destruct (walk_rw tp rw conv _ _ Ew) as (conf & Ec' & Hc). exists conf. auto.
    - exists (marshalConfig c). split_and!; auto. by rewrite walk_no_template. }
  destruct (clone_decodes rw _ _ _ _ conf Hst Hraw Hconf) as (c' & Ed & ->). rewrite Er, Ed. eexists. split; [done|].
  cbn. split_and!; try done. eauto.
Qed.
End clone.
