(* ===== verification/MapPlan.v ===== *)
(** The delta of a map step: bodies the validator accepted, and the plan that
    GenerateMapExpansion makes of one (mapexpand.go, mapvalidate.go). *)
From Stdlib Require Import QArith Ascii.
From stdpp Require Import pretty relations.
From S2P Require Import Prelude Issues GoStd Retry StoreModel Config Template TemplateFacts Feedback Dag GraphFacts Cycles Validate ValidateGraph Codec Expansion Decode MapExpand ReadyFacts Instantiate DagProps CycleProps ValidateFacts WellFormed ExpansionFacts RefRewrite CodecFacts DecodeFacts TreeRewrite MapFacts.
Open Scope Z_scope.

(** ** Decoded bodies *)

Lemma decodeStep_decoded raw path s : decodeStep raw path = (s, []) → decoded_step s.
Proof.
  unfold decodeStep. destruct (rawObject raw) as [m|]; [|done].
  destruct (required_string m "id" _) as [id e1]. destruct (decode_type m _) as [[st known] e2] eqn:E2.
  destruct (decode_config known st m _) as [cfg e3] eqn:E3.
  repeat match goal with |- context [let '(_, _) := ?x in _] => destruct x end.
  intros H. injection H as <- Hn. split_errs Hn. apply decode_type_ok in E2 as [-> Hst]. split; [done|].
  intros c. cbn. intros ->. unfold decode_config in E3. destruct (m !! "config") as [raw'|]; [eauto|done].
Qed.
Lemma template_decoded v path t : decode_template v path = (Some (Some t), []) → Forall decoded_step (tm_Steps t).
Proof.
  unfold decode_template. destruct (rawObject v) as [m|]; [|done].
  destruct (match m !! "steps" with Some raw => decodeSteps raw | None => _ end) as [steps e1] eqn:E1.
  destruct (match m !! "edges" with Some raw => decodeEdges raw | None => _ end) as [edges e2].
  intros H. injection H as <- Hn. split_errs Hn. cbn. destruct (m !! "steps") as [raw|]; [|done].
  eapply decode_items_all; [|exact E1]. apply decodeStep_decoded.
Qed.
Lemma decoded_templates size data doc name t : Decode size data = inr doc →
  Templates (doc_Definition doc) !! name = Some (Some t) → Forall decoded_step (tm_Steps t).
Proof.
  intros (_ & fields & _ & Hb)%Decode_body. revert Hb. unfold decode_body.
  destruct (optional_map fields "templates" _) as [templates e8] eqn:E8.
  repeat match goal with |- context [let '(_, _) := ?x in _] => destruct x end.
  intros H. injection H as <- Hn. split_errs Hn. cbn. intros Ht.
  unfold optional_map in E8. destruct (fields !! "templates") as [raw|]; [|by injection E8 as <-; rewrite lookup_empty in Ht].
  unfold decodeTemplates, decode_entries in E8. destruct (rawObject raw) as [r|]; [|done]. injection E8 as <- Hes.
  rewrite map_lookup_imap in Ht. destruct (r !! name) as [v|] eqn:Ev; [|done]. cbn in Ht.
  apply (template_decoded v ("templates" +:+ "." +:+ name)). rewrite <- Ht.
  destruct (decode_template v _) as [ot [|err errs]] eqn:Ed; [done|]. exfalso. apply (in_nil (a := err)). rewrite <- Hes.
  apply in_flat_map. exists name. split.
  2: { rewrite Ev. change (In err (decode_template v ("templates" +:+ "." +:+ name)).2). rewrite Ed. by left. }
  apply list_elem_of_In. unfold sortedKeys. rewrite (merge_sort_Permutation String.le), elem_of_elements. apply elem_of_dom. eauto.
Qed.

Lemma decoded_steps size data doc s : Decode size data = inr doc → s ∈ Steps (doc_Definition doc) → decoded_step s.
Proof.
  intros (_ & fields & _ & Hb)%Decode_body. revert Hb. unfold decode_body.
  destruct (required_items fields "steps" _) as [steps e11] eqn:E11.
  repeat match goal with |- context [let '(_, _) := ?x in _] => destruct x end.
  intros H. injection H as <- Hn. split_errs Hn. cbn. intros Hs. unfold required_items in E11.
  destruct (fields !! "steps") as [raw|]; [|done].
  pose proof (decode_items_all _ _ _ _ decoded_step decodeStep_decoded E11) as HF. rewrite Forall_forall in HF. by apply HF.
Qed.

(** A config that decoded leaves a join the engine can decode again. *)
Lemma clone_typed id rw ctx s s' : decoded_step s → clone_step id rw ctx s = inr s' → typed_step s'.
Proof.
  intros [Hst _]. unfold clone_step. destruct (Config s) as [c|].
  - destruct (rewrite_config rw _) as [|raw]; [done|]. unfold DecodeStepConfig. rewrite bool_decide_eq_true_2 by done. cbn [negb].
    destruct (decodeStepConfig (Type_ s) raw "config") as [cfg [|]] eqn:E; [|done]. intros [= <-]. split; [done|].
    cbn. intros c' ->. unfold decodeStepConfig in E. destruct raw; try done. injection E as <- [_ He]%app_nil.
    split; [by apply read_Config_matches|]. intros q. by eapply config_enums_path.
  - intros [= <-]. split; [done|]. by intros c.
Qed.

(** ** Accepted bodies *)
Section body.
Context (tp : list outSeg → bool) (def : Definition_) (t : Template) (g : Graph) (T : template_ok tp def t g).
Abbreviation ids := (ID <$> tm_Steps t).
Abbreviation rel := (edge_rel (template_def t)).

Lemma body_graph : graph_of (template_def t) g.
Proof. apply NewGraph_spec, T. Qed.
Lemma body_rank : ∃ rank : string → nat, ∀ a b, rel a b → (rank a < rank b)%nat.
Proof. apply (acyclic_ranked _ g body_graph), T. Qed.

Lemma has_out_spec id : has_out (tm_Edges t) id = true ↔ ∃ b, rel id b.
Proof.
  unfold has_out. rewrite existsb_exists. split.
  - intros (e & He%list_elem_of_In & [Hl%negb_true_iff Hf%bool_decide_eq_true]%andb_prop). exists (To e), e. by split.
  - intros (b & e & He & Hl & Hf & _). exists e. rewrite <-list_elem_of_In, Hl, (bool_decide_eq_true_2 _ Hf). by split.
Qed.
Lemma has_in_spec id : has_in (tm_Edges t) id = true ↔ ∃ a, rel a id.
Proof.
  unfold has_in. rewrite existsb_exists. split.
  - intros (e & He%list_elem_of_In & [Hl%negb_true_iff Hf%bool_decide_eq_true]%andb_prop). exists (From e), e. by split.
  - intros (b & e & He & Hl & _ & Hf). exists e. rewrite <-list_elem_of_In, Hl, (bool_decide_eq_true_2 _ Hf). by split.
Qed.

(** The sink of the validator is the sink of the generator. *)
Lemma sinks_filter : sinks g = List.filter (λ id, negb (has_out (tm_Edges t) id)) ids.
Proof.
  assert (ids = (λ i, ID (step_at g i)) <$> seq 0 (length (tm_Steps t))) as Hids.
  { apply list_eq. intros i. rewrite !list_lookup_fmap. destruct (tm_Steps t !! i) as [s|] eqn:E.
    - pose proof (lookup_lt_Some _ _ _ E) as Hi. rewrite lookup_seq_lt by done. cbn.
      pose proof (step_at_lookup (template_def t) g body_graph i Hi) as E'. cbn in E'. congruence.
    - rewrite lookup_seq_ge; [done|]. by apply lookup_ge_None. }
  rewrite Hids. unfold sinks. rewrite (go_def _ _ body_graph). cbn [template_def Steps plainDefinition].
  assert (∀ l, (∀ i, i ∈ l → (i < length (tm_Steps t))%nat) →
    (λ i, ID (step_at g i)) <$> List.filter (λ i, bool_decide (out_of g i = [])) l =
    List.filter (λ id, negb (has_out (tm_Edges t) id)) ((λ i, ID (step_at g i)) <$> l)) as H.
  { induction l as [|i l IH]; intros Hl; [done|]. cbn [List.filter fmap list_fmap].
    assert (bool_decide (out_of g i = []) = negb (has_out (tm_Edges t) (ID (step_at g i)))) as ->.
    { apply eq_true_iff_eq. rewrite bool_decide_eq_true, negb_true_iff, <-not_true_iff_false, has_out_spec.
      assert (i < length (tm_Steps t))%nat as Hi by (apply Hl; set_solver). split.
      - intros E (b & e & [j Hj]%list_elem_of_lookup & Hlp & Hf & _). apply (not_elem_of_nil j). rewrite <-E.
        apply (elem_of_out (template_def t) g body_graph); [done|]. split; [by exists e|].
        destruct (fromIdx_spec _ g body_graph j e Hj) as (x & Hx & Ex).
        eapply (step_unique _ g body_graph); [done|by apply (step_at_lookup _ g body_graph)|congruence].
      - intros Hn. destruct (out_of g i) as [|j l'] eqn:E; [done|]. exfalso. apply Hn.
        destruct (out_edge (template_def t) g body_graph i j Hi) as (ed & He & Hlp & Hf & _); [rewrite E; by left|].
        exists (To ed), ed. split_and!; try done. by eapply list_elem_of_lookup_2. }
    destruct (negb _); cbn; [f_equal|]; apply IH; set_solver. }
  apply H. intros i. rewrite elem_of_seq. lia.
Qed.
Lemma body_frontier : ∃ entries sink, templateFrontier t = inr (entries, sink) ∧ sink ∈ ids ∧
  (∀ id, id ∈ entries ↔ id ∈ ids ∧ ¬ ∃ a, rel a id) ∧ (∀ id, id ∈ ids → id ≠ sink → ∃ b, rel id b) ∧ ∀ b, ¬ rel sink b.
Proof.
  destruct (to_sink _ _ _ _ T) as [sink Hs]. rewrite sinks_filter in Hs. eexists _, sink.
  unfold templateFrontier. cbv zeta. rewrite Hs. split; [done|].
  assert (∀ id, id ∈ ids ∧ has_out (tm_Edges t) id = false ↔ id = sink) as Hsink.
  { intros id. rewrite <-(list_elem_of_singleton id sink), <-Hs, !list_elem_of_In, filter_In, negb_true_iff. done. }
  split_and!.
  - by apply (Hsink sink).
  - intros id. rewrite !list_elem_of_In, filter_In, negb_true_iff, <-not_true_iff_false, has_in_spec. done.
  - intros id Hid Hne. apply has_out_spec. destruct (has_out _ id) eqn:E; [done|]. exfalso. apply Hne, Hsink. by split.
  - intros b Hb. destruct (proj2 (Hsink sink) eq_refl) as [_ E]. apply not_true_iff_false in E. apply E, has_out_spec. eauto.
Qed.

(** Every step lies between an entry and the sink. *)
Lemma body_span entries sink : templateFrontier t = inr (entries, sink) →
  ∀ id, id ∈ ids → (∃ en, en ∈ entries ∧ rtc rel en id) ∧ rtc rel id sink.
Proof.
  destruct body_frontier as (? & ? & -> & Hsink & Hen & Hout & _). intros [= -> ->]. destruct body_rank as [rank Hrank].
  intros id Hid. split.
  - remember (rank id) as n eqn:En. revert id En Hid. induction (lt_wf n) as [n _ IH]. intros id -> Hid.
    destruct (has_in (tm_Edges t) id) eqn:Eh.
    + apply has_in_spec in Eh as [a Ha]. destruct (IH (rank a) (Hrank _ _ Ha) a eq_refl) as (en & ? & ?).
      { by apply (rel_known (template_def t) g body_graph) in Ha as [? _]. }
      exists en. split; [done|]. by eapply rtc_r.
    + exists id. split; [|done]. apply Hen. split; [done|]. by rewrite <-has_in_spec, Eh.
  - set (top := max_list (rank <$> ids)).
    assert (∀ x, x ∈ ids → (rank x ≤ top)%nat) as Htop by (intros x Hx; by apply max_list_elem_of_le, list_elem_of_fmap_2).
    remember (top - rank id)%nat as n eqn:En. revert id En Hid. induction (lt_wf n) as [n _ IH]. intros id -> Hid.
    destruct (decide (id = sink)) as [->|Hne]; [done|]. destruct (Hout id Hid Hne) as [b Hb].
    assert (b ∈ ids) as Hbi by by apply (rel_known (template_def t) g body_graph) in Hb as [_ ?].
    eapply rtc_l; [exact Hb|]. eapply (IH (top - rank b)%nat); [|done|done]. pose proof (Hrank _ _ Hb). pose proof (Htop b Hbi). lia.
Qed.

(** The references of a body step: items, and steps upstream of it. *)
Lemma body_refs s c : s ∈ tm_Steps t → Config s = Some c →
  (∃ ts refs, ParseConfigTemplates tp (marshalConfig c) = inr (ts, refs)) ∧
  ∀ r, r ∈ config_refs tp (marshalConfig c) → ItemRef r = true ∨
    (StepID r ≠ "" → tc rel (StepID r) (ID s)) ∧ (StepID r = "" → ParamKey r ≠ "" → is_Some (Params def !! ParamKey r)).
Proof.
  intros Hs Ec. destruct (to_refs _ _ _ _ T) as [base H]. unfold checkTemplateRefs in H. rewrite clean_for_range in H.
  apply list_elem_of_lookup in Hs as Hs'. destruct Hs' as [i Hi]. specialize (H i s Hi). unfold check_step_templates in H.
  rewrite Ec in H. cbv zeta in H. unfold config_refs, ParseConfigTemplates in *.
  destruct (json_has_template (marshalConfig c)); cbn [negb] in *.
  2: { split; [by eexists _, _|]. by intros r ?%not_elem_of_nil. }
  destruct (w_errs _) as [|er errs] eqn:Ew.
  2: { exfalso. cbn in H. apply clean_app in H as [H _]. destruct er; by apply clean_add in H. }
  split; [by eexists _, _|]. rewrite clean_fmap in H. intros r [Hr%list_elem_of_In Hlen%negb_true_iff]%list_elem_of_In%filter_In.
  specialize (H r Hr). unfold check_ref in H. rewrite Hlen in H. destruct (ItemRef r); [by left|right]. split.
  - intros E. unfold empty_str in H. rewrite (bool_decide_eq_false_2 _ E) in H. cbn [negb] in H.
    apply (upstream_ok (template_def t) g s _ body_graph Hs). destruct (classifyUpstreamRef _ _ _ _); try done; by apply clean_add in H.
  - intros E Hp. unfold empty_str in H. rewrite (bool_decide_eq_true_2 _ E), (bool_decide_eq_false_2 _ Hp) in H. cbn in H.
    destruct (Params def !! ParamKey r); [by eexists|by apply clean_add in H].
Qed.
Lemma body_linted s : s ∈ tm_Steps t → linted tp s.
Proof. intros Hs c Ec. by apply (body_refs s c Hs Ec). Qed.
End body.

(** ** The generated plan *)

Lemma elem_of_concat {A} (x : A) ls : x ∈ concat ls ↔ ∃ l, x ∈ l ∧ l ∈ ls.
Proof. rewrite list_elem_of_In, in_concat. setoid_rewrite list_elem_of_In. naive_solver. Qed.

(** The step ids of a map over [n] items. *)
Definition map_ids (t : Template) (m : string) (n : Z) : list string :=
  concat ((λ k, (λ s, instanceID (ID s) k) <$> tm_Steps t) <$> seqZ 0 n) ++ [MapGatherID m].

(** The order that the normal edges of a plan impose. *)
Definition plan_rel (plan : PlanOutput) (a b : string) : Prop :=
  ∃ e, e ∈ po_Edges plan ∧ IsLoop e = false ∧ From e = a ∧ To e = b.

Definition gather_step (m sink : string) (n : Z) : Step :=
  mkStep (MapGatherID m) StepGather
    (Some (GatherConfigC (mkGatherConfig (Some (JArr (JStr <$> (sink_ref sink <$> seqZ 0 n))))))) None None noPolicies.

(** A context whose step_output sources read [move] of their steps and which is
    otherwise unchanged. *)
Definition source_moved (move : string → string) (src src' : ContextSource) : Prop :=
  src' = mkContextSource (src_Kind src) (src_Name src)
    (if bool_decide (src_Kind src = SourceStepOutput) then move (src_Step src) else src_Step src)
    (src_Path src) (src_Key src) (src_Role src) (src_Tags src) (src_Retriever src) (src_Query src) (src_TopK src)
    (src_Text src) (src_MaxTokens src) (src_Pinned src) (src_Priority src) (src_OnMissing src).
Definition context_moved (move : string → string) (cs cs' : option ContextSpec) : Prop :=
  match cs, cs' with
  | None, None => True
  | Some c, Some c' =>
      Forall2 (source_moved move) (ctx_Sources c) (ctx_Sources c') ∧ ctx_BudgetTokens c' = ctx_BudgetTokens c ∧
      ctx_Compaction c' = ctx_Compaction c
  | _, _ => False
  end.
Lemma rewrite_context_moved f move cs : (∀ s, default s (f s) = move s) → context_moved move cs (rewrite_context f cs).
Proof.
  intros Hf. destruct cs as [c|]; [|done]. cbn. split_and!; [|done..]. induction (ctx_Sources c) as [|src l IH]; [done|].
  cbn. constructor; [|done]. unfold source_moved, rewrite_source. rewrite <-Hf. case_bool_decide; [|by destruct src].
  destruct (f (src_Step src)); [done|by destruct src].
Qed.

(** The instance of a body step that a context source of instance [k] reads. *)
Definition instance_of (k : Z) (id : string) : string := if bool_decide (id = "") then "" else instanceID id k.

Record map_plan (tp : list outSeg → bool) (t : Template) (m : string) (n : Z) (sink : string) (plan : PlanOutput) : Prop := mkMapPlan {
  mp_ids : ID <$> po_Steps plan = map_ids t m n;
  mp_distinct : NoDup (map_ids t m n);
  mp_valid : ∀ id, id ∈ map_ids t m n → instanceStepIDRe id = true;
  mp_clones : ∀ s k, s ∈ tm_Steps t → 0 ≤ k < n → ∃ s', s' ∈ po_Steps plan ∧
    clone_of tp (instanceRefRewriter m k) (instance_ref m k) (instanceID (ID s) k) (Context_ s') s s' ∧
    context_moved (instance_of k) (Context_ s) (Context_ s');
  mp_sink : ∀ id, id ∈ ID <$> tm_Steps t → id = sink ↔ ∀ b, ¬ edge_rel (template_def t) id b;
  mp_gather : gather_step m sink n ∈ po_Steps plan;
  mp_typed : Forall typed_step (po_Steps plan);
  mp_ends : ∀ e, e ∈ po_Edges plan → To e ∈ map_ids t m n ∧ (From e = m ∨ From e ∈ map_ids t m n);
  mp_edges : ∀ y, y ∈ po_Edges plan ↔ ∃ k, 0 ≤ k < n ∧
    ((∃ x, x ∈ tm_Edges t ∧
        y = mkLoopEdge (instanceID (From x) k) (instanceID (To x) k) (When x) (EType x) (Condition x) (MaxIterations x) "" None
              (Decision x)) ∨
     (∃ id, id ∈ ID <$> tm_Steps t ∧ (∀ a, ¬ edge_rel (template_def t) a id) ∧
        y = mkEdge m (instanceID id k) "" EdgeTypeNormal "") ∨
     y = mkEdge (instanceID sink k) (MapGatherID m) "" EdgeTypeNormal "");
  mp_span : ∀ s k, s ∈ tm_Steps t → 0 ≤ k < n →
    tc (plan_rel plan) m (instanceID (ID s) k) ∧ tc (plan_rel plan) (instanceID (ID s) k) (MapGatherID m);
  mp_refs : ∀ s k c r, s ∈ tm_Steps t → 0 ≤ k < n → Config s = Some c → r ∈ config_refs tp (marshalConfig c) →
    StepID (instance_ref m k r) ≠ "" → tc (plan_rel plan) (StepID (instance_ref m k r)) (instanceID (ID s) k);
  mp_acyclic : m ∉ map_ids t m n → ∃ rank : string → nat, ∀ a b, plan_rel plan a b → (rank a < rank b)%nat
}.

(** Ids without a separator keep their parts. *)
Definition plain_id (id : string) : Prop := all_chars (λ c, negb (bool_decide (c = "#"%char))) id = true.
Lemma instanceID_split id k : plain_id id → 0 ≤ k → Split (instanceID id k) "#" = [id; pretty k].
Proof.
  intros Hid Hk. unfold instanceID. change ("#" +:+ pretty k) with (String "#" (pretty k)).
  rewrite Split_app, (Split_none "#" id) by done. destruct (pretty_digits k Hk) as [Hd _]. rewrite Split_none; [done|].
  eapply all_chars_impl; [|exact Hd]. intros c Hc. rewrite bool_decide_eq_false_2; [done|]. by intros ->.
Qed.
Lemma instanceID_inj id k id' k' : plain_id id → plain_id id' → 0 ≤ k → 0 ≤ k' → instanceID id k = instanceID id' k' → id = id' ∧ k = k'.
Proof.
  intros H1 H2 Hk Hk' E%(f_equal (λ x, Split x "#")). rewrite !instanceID_split in E by done. injection E as -> E.
  split; [done|]. by apply (inj pretty).
Qed.
Lemma instanceID_gather id k m : plain_id id → 0 ≤ k → instanceID id k ≠ MapGatherID m.
Proof.
  intros Hid Hk E%(f_equal (λ x, Split x "#")). rewrite instanceID_split in E by done.
  unfold MapGatherID, GatherIDSuffix in E. change "#gather" with (String "#" "gather") in E. rewrite Split_app in E.
  change (Split "gather" "#") with ["gather"] in E. change [id; pretty k] with ([id] ++ [pretty k]) in E.
  apply app_inj_2 in E as [_ E]; [|done]. injection E as E. destruct (pretty_digits k Hk) as [Hd _]. by rewrite E in Hd.
Qed.
Lemma instance_re id k : validInstanceOrStepID id = true → 0 ≤ k → plain_id id → instanceStepIDRe (instanceID id k) = true.
Proof.
  intros Hv Hk Hid. pose proof (instanceID_valid id k Hv Hk) as H. unfold validInstanceOrStepID in H.
  apply orb_prop in H as [H|H]; [|done]. destruct (stepID_chars _ H) as (_ & Hh & _).
  assert (Split (instanceID id k) "#" = [instanceID id k]) as E by by apply Split_none.
  by rewrite instanceID_split in E.
Qed.
Lemma gather_re m : validInstanceOrStepID m = true → instanceStepIDRe (MapGatherID m) = true.
Proof.
  intros Hm. pose proof (suffix_valid m "gather" Hm eq_refl ltac:(done)) as H. unfold validInstanceOrStepID in H.
  apply orb_prop in H as [H|H]; [|done]. destruct (stepID_chars _ H) as (_ & Hh & _).
  change (m +:+ "#" +:+ "gather") with (m +:+ String "#" "gather") in Hh. rewrite all_chars_app in Hh. by apply andb_prop in Hh as [_ ?].
Qed.

Lemma gather_decodes (refs : list string) :
  DecodeStepConfig StepGather (Some (gatherConfigJSON refs)) = inr (Some (GatherConfigC (mkGatherConfig (Some (JArr (JStr <$> refs)))))).
Proof. reflexivity. Qed.

Section generated.
Context (tp : list outSeg → bool) (def : Definition_) (t : Template) (g : Graph) (T : template_ok tp def t g).
Context (Hdec : Forall decoded_step (tm_Steps t)).
Context (m : string) (Hm : validInstanceOrStepID m = true) (items : list json).
Abbreviation n := (zlen items).

Lemma body_plain s : s ∈ tm_Steps t → plain_id (ID s) ∧ validInstanceOrStepID (ID s) = true.
Proof.
  intros Hs. pose proof (to_names _ _ _ _ T s Hs) as H. split; [by apply stepID_chars|]. unfold validInstanceOrStepID. by rewrite H.
Qed.

(** One instance: a clone for each step of the body. *)
Definition instance_clone (k : Z) (s s' : Step) : Prop :=
  clone_of tp (instanceRefRewriter m k) (instance_ref m k) (instanceID (ID s) k) (rewriteInstanceContext (Context_ s) k) s s'.
Lemma instance_clones k : 0 ≤ k → ∃ l, instance_steps t m k = inr l ∧ Forall2 (instance_clone k) (tm_Steps t) l ∧ Forall typed_step l.
Proof.
  intros Hk. pose proof (map_rewriter m k Hm Hk) as R.
  assert (Forall (linted tp) (tm_Steps t)) as Hlint by (apply Forall_forall; intros s; by apply (body_linted tp def t g T)).
  unfold instance_steps. clear -Hdec Hlint R. induction (tm_Steps t) as [|s l IH]; [by exists []|].
  apply Forall_cons in Hdec as [Hd Hdec'], Hlint as [Hl Hlint]. destruct (IH Hdec' Hlint) as (l' & E & Hc & Ht).
  destruct (clone_total tp _ _ (instanceID (ID s) k) (rewriteInstanceContext (Context_ s) k) s Hd Hl) as (s' & Es & Hs').
  exists (s' :: l'). cbn. unfold rewriteInstanceStep at 1. rewrite Es, E. split_and!; [done|by constructor|].
  constructor; [|done]. by eapply clone_typed.
Qed.
Lemma clone_ids k l : Forall2 (instance_clone k) (tm_Steps t) l → ID <$> l = (λ s, instanceID (ID s) k) <$> tm_Steps t.
Proof. generalize (tm_Steps t). intros bs. induction 1 as [|s s' bs l [E _] _ IH]; [done|]. rewrite !fmap_cons, IH, E. done. Qed.

(** All instances. *)
Lemma all_instances ks : Forall (λ k, 0 ≤ k) ks → ∃ insts, sequence (map (instance_steps t m) ks) = inr insts ∧
  Forall2 (λ k l, Forall2 (instance_clone k) (tm_Steps t) l ∧ Forall typed_step l) ks insts.
Proof.
  induction 1 as [|k ks Hk _ (insts & E & IH)]; [by exists []|]. destruct (instance_clones k Hk) as (l & El & Hl).
  exists (l :: insts). cbn. rewrite El, E. split; [done|]. by constructor.
Qed.

Lemma map_ids_elem id : id ∈ map_ids t m n ↔ (∃ s k, s ∈ tm_Steps t ∧ 0 ≤ k < n ∧ id = instanceID (ID s) k) ∨ id = MapGatherID m.
Proof.
  unfold map_ids. rewrite elem_of_app, list_elem_of_singleton. apply or_iff_compat_r. rewrite elem_of_concat. split.
  - intros (l & Hid & (k & -> & Hk%elem_of_seqZ)%list_elem_of_fmap). apply list_elem_of_fmap in Hid as (s & -> & Hs).
    exists s, k. split_and!; [done|lia..|done].
  - intros (s & k & Hs & Hk & ->). exists ((λ s, instanceID (ID s) k) <$> tm_Steps t).
    split; [by apply (list_elem_of_fmap_2 (λ s, instanceID (ID s) k))|].
    apply (list_elem_of_fmap_2 (λ k, (λ s, instanceID (ID s) k) <$> tm_Steps t)), elem_of_seqZ. lia.
Qed.

Lemma instances_NoDup ks : Forall (λ k, 0 ≤ k) ks → NoDup ks →
  NoDup (concat ((λ k, (λ s, instanceID (ID s) k) <$> tm_Steps t) <$> ks)).
Proof.
  induction 1 as [|k ks Hk Hks IH]; [constructor|]. intros [Hn Hnd]%NoDup_cons. cbn. apply NoDup_app. split_and!.
  - assert (∀ s, s ∈ tm_Steps t → plain_id (ID s)) as Hp by (intros s Hs; by apply body_plain).
    pose proof (to_ids _ _ _ _ T) as Hids. revert Hp Hids. generalize (tm_Steps t) as l. induction l as [|s l IHl]; [constructor|].
    intros Hp [Hs Hl]%NoDup_cons. cbn. apply NoDup_cons. split; [|apply IHl; [set_solver|done]].
    intros (s' & E & Hs')%list_elem_of_fmap. apply Hs. apply instanceID_inj in E as [-> _]; try done; try (apply Hp; set_solver).
    by apply list_elem_of_fmap_2.
  - intros id (s & -> & Hs)%list_elem_of_fmap. rewrite elem_of_concat. intros (l & Hid & (k' & -> & Hk')%list_elem_of_fmap).
    apply list_elem_of_fmap in Hid as (s' & E & Hs'). apply instanceID_inj in E as [_ ->]; try done; try by apply body_plain.
    rewrite Forall_forall in Hks. by apply Hks.
  - by apply IH.
Qed.
Lemma counts : Forall (λ k, 0 ≤ k) (seqZ 0 n).
Proof. apply Forall_forall. intros k Hk%elem_of_seqZ. lia. Qed.
Lemma map_ids_NoDup : NoDup (map_ids t m n).
Proof.
  unfold map_ids. apply NoDup_app. split_and!; [apply instances_NoDup; [apply counts|apply NoDup_seqZ]| |apply NoDup_singleton].
  intros id Hid ->%list_elem_of_singleton. assert (MapGatherID m ∈ map_ids t m n) as _ by (apply map_ids_elem; by right).
  rewrite elem_of_concat in Hid. destruct Hid as (l & Hid & (k & -> & Hk%elem_of_seqZ)%list_elem_of_fmap).
  apply list_elem_of_fmap in Hid as (s & E & Hs). symmetry in E. apply instanceID_gather in E; [done|by apply body_plain|lia].
Qed.

(** The plan's edges. *)
Definition map_edges (entries : list string) (sink : string) : list Edge :=
  concat (instance_edges t m entries sink <$> seqZ 0 n).
Lemma map_edges_elem entries sink e : e ∈ map_edges entries sink ↔ ∃ k, 0 ≤ k < n ∧
  ((∃ x, x ∈ tm_Edges t ∧ e = instance_edge k x) ∨ (∃ en, en ∈ entries ∧ e = splice m (instanceID en k)) ∨
   e = splice (instanceID sink k) (MapGatherID m)).
Proof.
  unfold map_edges. rewrite elem_of_concat. split.
  - intros (l & He & (k & -> & Hk%elem_of_seqZ)%list_elem_of_fmap). exists k. split; [lia|]. unfold instance_edges in He.
    rewrite !elem_of_app, !list_elem_of_fmap, list_elem_of_singleton in He. naive_solver.
  - intros (k & Hk & He). exists (instance_edges t m entries sink k). split.
    + unfold instance_edges. rewrite !elem_of_app, !list_elem_of_fmap, list_elem_of_singleton. naive_solver.
    + apply list_elem_of_fmap_2, elem_of_seqZ. lia.
Qed.

Section edges.
Context (entries : list string) (sink : string) (Hf : templateFrontier t = inr (entries, sink)).
Context (plan : PlanOutput) (Hpe : po_Edges plan = map_edges entries sink).
Abbreviation rel := (edge_rel (template_def t)).

Lemma body_edge_rel k a b : 0 ≤ k < n → rel a b → plan_rel plan (instanceID a k) (instanceID b k).
Proof.
  intros Hk (e & He & Hl & <- & <-). exists (instance_edge k e). rewrite Hpe, map_edges_elem. split_and!; [|done..].
  exists k. split; [done|]. left. by exists e.
Qed.
Lemma body_path k a b : 0 ≤ k < n → rtc rel a b → rtc (plan_rel plan) (instanceID a k) (instanceID b k).
Proof. intros Hk. induction 1 as [|x y z Hxy _ IH]; [done|]. eapply rtc_l; [|exact IH]. by apply body_edge_rel. Qed.
Lemma body_path_tc k a b : 0 ≤ k < n → tc rel a b → tc (plan_rel plan) (instanceID a k) (instanceID b k).
Proof.
  intros Hk. induction 1 as [x y H|x y z H _ IH]; [by apply tc_once, body_edge_rel|]. eapply tc_l; [by apply body_edge_rel|done].
Qed.
Lemma entry_rel k en : 0 ≤ k < n → en ∈ entries → plan_rel plan m (instanceID en k).
Proof.
  intros Hk He. exists (splice m (instanceID en k)). rewrite Hpe, map_edges_elem. split_and!; [|done..].
  exists k. split; [done|]. right. left. by exists en.
Qed.
Lemma sink_rel k : 0 ≤ k < n → plan_rel plan (instanceID sink k) (MapGatherID m).
Proof.
  intros Hk. exists (splice (instanceID sink k) (MapGatherID m)). rewrite Hpe, map_edges_elem. split_and!; [|done..].
  exists k. split; [done|]. by right; right.
Qed.
Lemma plan_span s k : s ∈ tm_Steps t → 0 ≤ k < n →
  tc (plan_rel plan) m (instanceID (ID s) k) ∧ tc (plan_rel plan) (instanceID (ID s) k) (MapGatherID m).
Proof.
  intros Hs Hk. destruct (body_span tp def t g T _ _ Hf (ID s)) as [(en & Hen & Hp) Hq]; [by apply list_elem_of_fmap_2|]. split.
  - eapply tc_rtc_r; [apply tc_once, (entry_rel k en Hk Hen)|by apply body_path].
  - eapply tc_rtc_l; [by apply body_path|apply tc_once, (sink_rel k Hk)].
Qed.
Lemma map_plan_ends e : e ∈ po_Edges plan → To e ∈ map_ids t m n ∧ (From e = m ∨ From e ∈ map_ids t m n).
Proof.
  destruct (body_frontier tp def t g T) as (en & sk & E & Hsk & Hen & _). rewrite Hf in E. injection E as <- <-.
  assert (∀ id k, id ∈ ID <$> tm_Steps t → 0 ≤ k < n → instanceID id k ∈ map_ids t m n) as Hin.
  { intros id k (s & -> & Hs)%list_elem_of_fmap Hk. apply map_ids_elem. left. by exists s, k. }
  rewrite Hpe, map_edges_elem. intros (k & Hk & [(x & Hx & ->)|[(y & Hy & ->)| ->]]); cbn [From To instance_edge splice mkEdge].
  - destruct (to_ends _ _ _ _ T x Hx). split; [|right]; by apply Hin.
  - split; [|by left]. apply Hin; [by apply Hen|done].
  - split; [apply map_ids_elem; by right|]. right. by apply Hin.
Qed.
Lemma plan_refs s k c r : s ∈ tm_Steps t → 0 ≤ k < n → Config s = Some c → r ∈ config_refs tp (marshalConfig c) →
  StepID (instance_ref m k r) ≠ "" → tc (plan_rel plan) (StepID (instance_ref m k r)) (instanceID (ID s) k).
Proof.
  intros Hs Hk Ec Hr. destruct (body_refs tp def t g T s c Hs Ec) as [_ Hrefs]. specialize (Hrefs r Hr).
  unfold instance_ref. cbn [StepID]. destruct (ItemRef r) eqn:Ei; [by intros _; apply plan_span|].
  destruct Hrefs as [?|[Hup _]]; [done|]. case_bool_decide as E; [done|]. intros _. by apply body_path_tc, Hup.
Qed.

(** The map step first, then the instances, then the gather. *)
Lemma plan_acyclic : m ∉ map_ids t m n → ∃ rank : string → nat, ∀ a b, plan_rel plan a b → (rank a < rank b)%nat.
Proof.
  intros Hfresh. destruct (body_rank tp def t g T) as [rank Hrank].
  destruct (body_frontier tp def t g T) as (en & sk & E & Hsk & Hen & _). rewrite Hf in E. injection E as <- <-.
  set (top := max_list (rank <$> (ID <$> tm_Steps t))).
  set (local id := default "" (head (Split id "#"))).
  set (pos id := if bool_decide (id = m) then 0%nat else if bool_decide (id = MapGatherID m) then S (S top) else S (rank (local id))).
  assert (∀ id k, id ∈ ID <$> tm_Steps t → 0 ≤ k < n → pos (instanceID id k) = S (rank id) ∧ (rank id ≤ top)%nat) as Hpos.
  { intros id k Hid Hk. split; [|by apply max_list_elem_of_le, list_elem_of_fmap_2].
    apply list_elem_of_fmap in Hid as (s & -> & Hs). destruct (body_plain s Hs) as [Hp _]. unfold pos.
    rewrite bool_decide_eq_false_2, bool_decide_eq_false_2.
    - unfold local. rewrite instanceID_split by (done || lia). done.
    - apply instanceID_gather; [done|lia].
    - intros E. apply Hfresh. rewrite <- E at 1. apply map_ids_elem. left. by exists s, k. }
  assert (pos m = 0%nat) as H0 by (unfold pos; by rewrite bool_decide_eq_true_2).
  assert (pos (MapGatherID m) = S (S top)) as Hg.
  { unfold pos. rewrite bool_decide_eq_false_2, bool_decide_eq_true_2; [done..|]. intros E. apply Hfresh. rewrite <- E at 1.
    apply map_ids_elem. by right. }
  exists pos. intros a b (e & He & Hl & <- & <-). rewrite Hpe, map_edges_elem in He.
  destruct He as (k & Hk & [(x & Hx & ->)|[(y & Hy & ->)| ->]]); cbn [From To instance_edge splice mkEdge].
  - destruct (to_ends _ _ _ _ T x Hx) as [H1 H2]. rewrite (proj1 (Hpos _ k H1 Hk)), (proj1 (Hpos _ k H2 Hk)).
    apply (le_n_S (S _)), Hrank. exists x. split_and!; [done|exact Hl|done|done].
  - rewrite H0, (proj1 (Hpos y k (proj1 (proj1 (Hen y) Hy)) Hk)). lia.
  - destruct (Hpos sink k Hsk Hk) as [-> ?]. rewrite Hg. lia.
Qed.
End edges.

Lemma map_generated : ∃ entries sink plan, templateFrontier t = inr (entries, sink) ∧
  GenerateMapExpansion (Some t) items m = inr plan ∧ map_plan tp t m n sink plan.
Proof.
  destruct (body_frontier tp def t g T) as (entries & sink & Hf & _). destruct (all_instances (seqZ 0 n) counts) as (insts & Ei & Hi).
  assert (∃ plan, GenerateMapExpansion (Some t) items m = inr plan ∧ po_Steps plan = concat insts ++ [gather_step m sink n] ∧
    po_Edges plan = map_edges entries sink) as (plan & Eg & Es & Ee).
  { unfold GenerateMapExpansion. rewrite bool_decide_eq_false_2 by apply T. rewrite Hf. cbv zeta. rewrite Ei, gather_decodes.
    eexists. split; [done|]. by split. }
  exists entries, sink, plan. split_and!; [done|done|].
  assert (ID <$> concat insts = concat ((λ k, (λ s, instanceID (ID s) k) <$> tm_Steps t) <$> seqZ 0 n)) as Hids.
  { clear -Hi. revert Hi. generalize (seqZ 0 n). intros ks. induction 1 as [|k l ks ls [Hc _] _ IH]; [done|].
    cbn [concat fmap list_fmap]. by rewrite fmap_app, (clone_ids k l Hc), IH. }
  split.
  - by rewrite Es, fmap_app, Hids.
  - apply map_ids_NoDup.
  - intros id [(s & k & Hs & Hk & ->)| ->]%map_ids_elem; [|by apply gather_re].
    apply instance_re; [by apply body_plain|lia|by apply body_plain].
  - intros s k Hs Hk. assert (∃ l, l ∈ insts ∧ Forall2 (instance_clone k) (tm_Steps t) l) as (l & Hl & Hc).
    { assert (k ∈ seqZ 0 n) as [i Hki]%list_elem_of_lookup by (apply elem_of_seqZ; lia).
      destruct (Forall2_lookup_l _ _ _ _ _ Hi Hki) as (l & Hl & Hc & _). exists l. split; [by eapply list_elem_of_lookup_2|done]. }
    apply list_elem_of_lookup in Hs as [i His]. destruct (Forall2_lookup_l _ _ _ _ _ Hc His) as (s' & Hs' & Hcl).
    pose proof Hcl as (_ & _ & _ & Ectx & _). exists s'. rewrite Ectx. split; [|split; [exact Hcl|]].
    2: { apply rewrite_context_moved. intros id. unfold instance_of. case_bool_decide as E; [by rewrite E|done]. }
    rewrite Es. apply elem_of_app. left. apply elem_of_concat. exists l. split; [by eapply list_elem_of_lookup_2|done].
  - destruct (body_frontier tp def t g T) as (en & sk & E & _ & _ & Hout & Hno). rewrite Hf in E. injection E as <- <-.
    intros id Hid. split; [by intros ->|]. intros Hn. destruct (decide (id = sink)) as [|Hne]; [done|].
    destruct (Hout id Hid Hne) as [b Hb]. by destruct (Hn b).
  - rewrite Es. apply elem_of_app. right. by apply list_elem_of_singleton.
  - rewrite Es. apply Forall_app. split.
    + apply Forall_concat. clear -Hi. induction Hi as [|? ? ? ? [_ ?] _ IH]; by constructor.
    + constructor; [|done]. split; [by vm_compute; set_solver|]. intros c [= <-]. by split.
  - intros e He. by eapply map_plan_ends.
  - intros y. destruct (body_frontier tp def t g T) as (en & sk & E & _ & Hen & _). rewrite Hf in E. injection E as <- <-.
    rewrite Ee, map_edges_elem. unfold instance_edge, splice. setoid_rewrite Hen. naive_solver.
  - intros s k Hs Hk. by eapply plan_span.
  - intros s k c r Hs Hk Ec Hr. by eapply plan_refs.
  - by eapply plan_acyclic.
Qed.
End generated.
