(* ===== verification/Engine.v ===== *)
(** internal/engine: the completion pipeline (complete.go), dead-letter handling
    (deadletter.go), run controls (runctl.go), decisions (decide.go) and the
    claim classification (claim.go), over the transitions of the store.

    Each definition named [..Tx] is the callback of one [WithTx]; the engine
    methods run it and route its error. *)
From S2P Require Import Prelude Retry StoreModel Transitions Config Dag.
Open Scope Z_scope.

(** [errors.As(err, &te)]: drop a typed conflict, keep every other error. *)
Definition drop_conflict {A} (m : Tx A) : Tx (option A) :=
  let! r := attempt m in
  match r with
  | Ok a => ret (Some a)
  | Fail e => if is_conflict e then ret None else throw e
  end.

(** A terminal CAS whose typed conflict is captured as the fence. *)
Definition fence {A} (m : Tx A) : Tx A :=
  let! r := attempt m in
  match r with
  | Ok a => ret a
  | Fail (ErrTransition te) => throw (ErrFenced te)
  | Fail e => throw e
  end.

(** ** Edge plans *)

(** (ordinal, fired). *)
Definition edgeVerdict : Type := Z * bool.

Section plan.
(** dag.CompileExpr and Expr.Eval (cel-go): the value of a predicate on the
    step output and the run params, or [None] for any CEL failure. *)
Context (evalWhen : string → option json → option json → option bool).

Fixpoint plan_loop (isBranch : bool) (output params : option json) (edges : list RunEdge)
    (matched : bool) : Err + list edgeVerdict :=
  match edges with
  | [] => inr []
  | edge :: edges' =>
      if negb (bool_decide (edge_EdgeType edge = EdgeTypeNormal))
      then plan_loop isBranch output params edges' matched
      else
        let fired :=
          match edge_WhenExpr edge with
          | None => Some (negb isBranch || negb matched)
          | Some expr => if isBranch && matched then Some false else evalWhen expr output params
          end in
        match fired with
        | None => inl (ErrEval (edge_Ordinal edge))
        | Some f =>
            match plan_loop isBranch output params edges' (matched || (f && isBranch)) with
            | inl e => inl e
            | inr vs => inr ((edge_Ordinal edge, f) :: vs)
            end
        end
  end.

Definition planEdges (stepType : string) (edges : list RunEdge) (output params : option json)
    : Err + list edgeVerdict :=
  plan_loop (bool_decide (stepType = StepBranch)) output params edges false.
End plan.

Definition allSkippedVerdicts (edges : list RunEdge) : list edgeVerdict :=
  (λ e, (edge_Ordinal e, false)) <$>
    List.filter (λ e, bool_decide (edge_EdgeType e = EdgeTypeNormal)) edges.

(** isJoinAny: an absent config is the stricter rule; a config that does not
    decode is an error. *)
Definition isJoinAny (step : RunStep) : Err + bool :=
  if negb (bool_decide (step_StepType step = StepJoin)) then inr false
  else match step_Config step with
       | None => inr false
       | Some doc =>
           match decodeJoinConfig doc with
           | None => inl (ErrDecode (step_StepID step))
           | Some mode => inr (bool_decide (mode = JoinAny))
           end
       end.

Definition lift {A} (r : Err + A) : Tx A :=
  match r with inl e => throw e | inr a => ret a end.

(** ** Fan-out *)

Record fanOutResult : Type := mkFanOutResult { readied : list string; skipped : list string }.

(** The verdicts of one source: resolve each edge, ready or skip its target,
    and return the out-edges of the newly skipped targets. *)
Fixpoint resolve_verdicts (runID : uuid) (now : time) (vs : list edgeVerdict)
    (work : list (list edgeVerdict)) (res : fanOutResult) : Tx (list (list edgeVerdict) * fanOutResult) :=
  match vs with
  | [] => ret (work, res)
  | (ordinal, fired) :: vs' =>
      let! resolved := ResolveEdge runID ordinal fired now in
      match (if Resolved resolved then ToStep resolved else None) with
      | None => resolve_verdicts runID now vs' work res
      | Some target =>
          if negb (has_status StepStatusPending target) then resolve_verdicts runID now vs' work res
          else
            let! joinAny := lift (isJoinAny target) in
            if (1 <=? step_FiredDeps target) && ((step_RemainingDeps target =? 0) || joinAny) then
              ReadyStep runID (step_StepID target) joinAny now ;;
              resolve_verdicts runID now vs' work
                (mkFanOutResult (readied res ++ [step_StepID target]) (skipped res))
            else if (step_RemainingDeps target =? 0) && (step_FiredDeps target =? 0) then
              SkipStep runID (step_StepID target) now ;;
              let! outEdges := ListEdgesFromStep runID (step_StepID target) in
              resolve_verdicts runID now vs' (work ++ [allSkippedVerdicts outEdges])
                (mkFanOutResult (readied res) (skipped res ++ [step_StepID target]))
            else resolve_verdicts runID now vs' work res
      end
  end.

(** The worklist loop.  A source is queued when its step turns skipped, so one
    round per step after the seed is enough. *)
Fixpoint fan_loop (runID : uuid) (now : time) (fuel : nat) (work : list (list edgeVerdict))
    (res : fanOutResult) : Tx fanOutResult :=
  match work with
  | [] => ret res
  | vs :: work' =>
      match fuel with
      | O => throw ErrFuel
      | S fuel' =>
          let! r := resolve_verdicts runID now vs work' res in
          fan_loop runID now fuel' r.1 r.2
      end
  end.

Definition fanOut (runID : uuid) (now : time) (seed : list edgeVerdict) : Tx fanOutResult :=
  let! d := get in
  fan_loop runID now (S (length (run_steps d))) [seed] (mkFanOutResult [] []).

(** ** Run rollups *)

Definition attemptCancelRollup (runID : uuid) (now : time) : Tx (option Run) :=
  drop_conflict (CancelRunRollup runID now).

Definition attemptRunRollup (runID : uuid) (now : time) : Tx (option Run) :=
  let! r := drop_conflict (SucceedRun runID now) in
  match r with
  | Some run => ret (Some run)
  | None =>
      let! r := drop_conflict (FailRunRollup runID now) in
      match r with
      | Some run => ret (Some run)
      | None => attemptCancelRollup runID now
      end
  end.

(** ** The write-off *)

Definition blocked_status (s : StepStatus) : bool :=
  match s with
  | StepStatusDeadLettered | StepStatusCancelled | StepStatusFailed => true
  | _ => false
  end.

Definition unresolved_in (edges : list RunEdge) (s : string) : list RunEdge :=
  List.filter (λ e, bool_decide (edge_EdgeType e = EdgeTypeNormal) &&
                    bool_decide (edge_Resolution e = EdgeResolutionUnresolved) &&
                    bool_decide (edge_ToStep e = s)) edges.

(** One pass over the steps: [dead] holds the blocked and the marked ids. *)
Fixpoint write_off_round (edges : list RunEdge) (steps : list RunStep) (marked dead : gset string)
    (out : list string) : Err + (gset string * gset string * list string) :=
  match steps with
  | [] => inr (marked, dead, out)
  | st :: steps' =>
      if negb (has_status StepStatusPending st) || bool_decide (step_StepID st ∈ marked)
      then write_off_round edges steps' marked dead out
      else
        let inc := unresolved_in edges (step_StepID st) in
        let blockedIn := List.filter (λ e, bool_decide (edge_FromStep e ∈ dead)) inc in
        let liveIn := List.filter (λ e, negb (bool_decide (edge_FromStep e ∈ dead))) inc in
        match isJoinAny st with
        | inl e => inl e
        | inr joinAny =>
            let impossible :=
              if joinAny then (step_FiredDeps st =? 0) && negb (bool_decide (inc = [])) && bool_decide (liveIn = [])
              else negb (bool_decide (blockedIn = [])) in
            if impossible
            then write_off_round edges steps' ({[step_StepID st]} ∪ marked) ({[step_StepID st]} ∪ dead)
                   (out ++ [step_StepID st])
            else write_off_round edges steps' marked dead out
        end
  end.

(** Rounds until nothing changes: every round but the last marks a step. *)
Fixpoint write_off_loop (fuel : nat) (edges : list RunEdge) (steps : list RunStep)
    (marked dead : gset string) (out : list string) : Err + list string :=
  match fuel with
  | O => inl ErrFuel
  | S fuel' =>
      match write_off_round edges steps marked dead out with
      | inl e => inl e
      | inr (marked', dead', out') =>
          if bool_decide (out' = out) then inr out'
          else write_off_loop fuel' edges steps marked' dead' out'
      end
  end.

Definition planWriteOff (steps : list RunStep) (edges : list RunEdge) : Err + list string :=
  let blocked := list_to_set (step_StepID <$> List.filter (λ st, blocked_status (step_Status st)) steps) in
  write_off_loop (S (length steps)) edges steps ∅ blocked [].

(** (cancelled steps, whether the run terminalized). *)
Definition deadLetterDisposition (onFailure : string) (runID : uuid) (now : time)
    : Tx (list string * bool) :=
  if negb (bool_decide (onFailure = ContinueIndependentBranches)) then
    let! r := drop_conflict (FailRun runID now) in
    ret ([], match r with Some _ => true | None => false end)
  else
    let! steps := ListByRun runID in
    let! edges := ListEdgesByRun runID in
    let! writeOff := lift (planWriteOff steps edges) in
    for_each writeOff (λ s, CancelStep runID s CancelReasonUpstreamDeadLettered now ;; ret tt) ;;
    let! r := drop_conflict (FailRunRollup runID now) in
    ret (writeOff, match r with Some _ => true | None => false end).

(** ** Completion transactions *)

Definition applyCostRows (rows : list AttemptCostArgs) : Tx unit :=
  for_each rows (λ r, ApplyAttemptCost r ;; ret tt).

(** The outbox rows of the newly ready steps. *)
Definition enqueue (runID : uuid) (ids : list string) (reason : OutboxReason) (tr : TraceContext) : Tx unit :=
  for_each ids (λ id, CreateOutboxTask runID id reason tr).

(** What an execution hands to the completion: the claimed step row's identity,
    the output and its provenance, the priced cost rows (the attempt's own, then
    the judge overheads), and the loop events of a loop source that exits. *)
Record Completion : Type := mkCompletion {
  co_RunID : uuid;
  co_StepID : string;
  co_StepType : string;
  co_ClaimID : uuid;
  co_Envelope : Envelope;
  co_Output : option json;
  co_Usage : option json;
  co_Verdict : option json;
  co_Repair : option json;
  co_Costs : list AttemptCostArgs;
  co_LoopExhausted : option json;
  co_LoopNoProgress : option json;
  co_Trace : TraceContext
}.

#[export] Instance Eta_Completion : Eta Completion := λ c,
  mkCompletion (co_RunID c) (co_StepID c) (co_StepType c) (co_ClaimID c) (co_Envelope c) (co_Output c)
    (co_Usage c) (co_Verdict c) (co_Repair c) (co_Costs c) (co_LoopExhausted c) (co_LoopNoProgress c) (co_Trace c).

Definition when_some {A} (o : option A) (f : A → Tx unit) : Tx unit :=
  match o with Some a => f a | None => ret tt end.

(** The settlement of an in-flight step of a cancelling run, shared by the
    failure, throttle, budget and approval completions. *)
Definition settleCancelled (runID : uuid) (stepID : string) (claimID : uuid) (err : option json) (now : time)
    : Tx (option Run) :=
  fence (CancelRunningStep runID stepID claimID CancelReasonRunCancelled err now) ;;
  attemptCancelRollup runID now.

Section completion.
Context (evalWhen : string → option json → option json → option bool).

(** Resolve the out-edges of the settled step and enqueue what became ready. *)
Definition advance_successors (runID : uuid) (stepID stepType : string) (output params : option json)
    (tr : TraceContext) (now : time) : Tx fanOutResult :=
  let! outEdges := ListEdgesFromStep runID stepID in
  let! verdicts := lift (planEdges evalWhen stepType outEdges output params) in
  let! fanned := fanOut runID now verdicts in
  enqueue runID (readied fanned) OutboxReasonStepReady tr ;;
  ret fanned.

(** The transaction of completeSuccess, for a completion without an expansion
    plan, blackboard writes or a thread append. *)
Definition completeSuccessTx (c : Completion) (params : option json) (now : time) : Tx (option Run) :=
  let! status := LockRunStatus (co_RunID c) now in
  let cancelling := bool_decide (status = RunStatusCancelling) in
  fence (SucceedStep (co_RunID c) (co_StepID c) (co_ClaimID c) (co_Output c) (co_Usage c) (co_Verdict c)
           (co_Repair c) now) ;;
  applyCostRows (co_Costs c) ;;
  (if cancelling then ret tt
   else
     when_some (co_LoopExhausted c) (λ ev, RecordLoopExhausted (co_RunID c) ev now) ;;
     when_some (co_LoopNoProgress c) (λ ev, RecordLoopNoProgress (co_RunID c) ev now) ;;
     advance_successors (co_RunID c) (co_StepID c) (co_StepType c) (co_Output c) params (co_Trace c) now ;;
     ret tt) ;;
  attemptRunRollup (co_RunID c) now.

(** The outcome an error class is recorded as. *)
Definition class_outcome (c : ErrorClass) : AttemptOutcome :=
  match c with
  | ClassTransient => AttemptOutcomeTransient
  | ClassPermanent => AttemptOutcomePermanent
  | ClassTimeout => AttemptOutcomeTimeout
  | ClassCancelled => AttemptOutcomeCancelled
  | ClassValidationFailed => AttemptOutcomeValidationFailed
  end.

(** collectErrorMarker (expand.go). *)
Definition collectErrorMarker (class : ErrorClass) : json :=
  JObj [("map_item_failed", JBool true); ("class", JStr (class_text class))].

(** backoff.go: retryDelay, jitter included; [None] on a corrupt duration. *)
Context (retryDelay : ResolvedRetryPolicy → Z → option Z).

(** What the failure transaction did. *)
Inductive FailureRoute : Type :=
| RouteCancelled (finalized : option Run)
| RouteRetry (fireAt : time)
| RouteCollected (terminal : option Run)
| RouteDeadLettered (source : DeadLetterSource) (cancelled : list string) (runFailed : bool).

(** [retry] of the failure transaction: the fire time of the next attempt, or
    whether the budget ran out. *)
Definition retryRoute (c : Completion) (class : ErrorClass) (now : time) : Tx (option time * bool) :=
  match decodeRetryPolicy (env_RetryPolicy (co_Envelope c)) with
  | Some policy =>
      if Retries policy class then
        let! prior := CountCountedFailures (co_RunID c) (co_StepID c) in
        let n := prior + 1 in
        if rp_MaxAttempts policy <=? n then ret (None, true)
        else match retryDelay policy n with
             | None => ret (None, false)
             | Some delay => ret (Some (now + delay), false)
             end
      else ret (None, false)
  | None => ret (None, false)
  end.

(** completeFailure.  [collect] says whether the step is a map instance whose map
    collects errors (isCollectErrorsInstance); [payload] is the error document. *)
Definition completeFailureTx (c : Completion) (class : ErrorClass) (payload : json) (collect : bool)
    (params : option json) (now : time) : Tx FailureRoute :=
  let! status := LockRunStatus (co_RunID c) now in
  if bool_decide (status = RunStatusCancelling) then
    let! fin := settleCancelled (co_RunID c) (co_StepID c) (co_ClaimID c) (Some payload) now in
    ret (RouteCancelled fin)
  else
    let! route := retryRoute c class now in
    match route with
    | (Some fireAt, _) =>
        fence (RetryStep (co_RunID c) (co_StepID c) (co_ClaimID c) (class_outcome class) (Some payload)
                 (co_Usage c) fireAt now) ;;
        applyCostRows (co_Costs c) ;;
        ret (RouteRetry fireAt)
    | (None, exhausted) =>
        if collect then
            let marker := collectErrorMarker class in
            fence (CollectFailStep (co_RunID c) (co_StepID c) (co_ClaimID c) (Some (class_outcome class))
                     (Some marker) (Some payload) (co_Usage c) now) ;;
            applyCostRows (co_Costs c) ;;
            advance_successors (co_RunID c) (co_StepID c) (co_StepType c) (Some marker) params (co_Trace c) now ;;
            let! fin := attemptRunRollup (co_RunID c) now in
            ret (RouteCollected fin)
        else
            let source := if exhausted then DeadLetterSourceRetriesExhausted else DeadLetterSourcePermanent in
            fence (DeadLetterStep (co_RunID c) (co_StepID c) (co_ClaimID c) source
                     (Some (class_outcome class)) (Some payload) (co_Usage c) None None now) ;;
            applyCostRows (co_Costs c) ;;
            let! run := GetRun (co_RunID c) in
            let! disp := deadLetterDisposition (run_OnFailure run) (co_RunID c) now in
            ret (RouteDeadLettered source disp.1 disp.2)
    end.

(** The terminal branch of completeValidationFailure. *)
Definition validation_dead_letter (c : Completion) (report : Z → list StepAttempt → json) (n : Z) (now : time)
    : Tx FailureRoute :=
  let! d := get in
  let attempts := List.filter (λ a, bool_decide (att_RunID a = co_RunID c) &&
                                    bool_decide (att_StepID a = co_StepID c)) (step_attempts d) in
  fence (DeadLetterStep (co_RunID c) (co_StepID c) (co_ClaimID c) DeadLetterSourceRetriesExhausted
           (Some AttemptOutcomeValidationFailed) (Some (report n attempts)) (co_Usage c) (co_Verdict c)
           (co_Repair c) now) ;;
  applyCostRows (co_Costs c) ;;
  let! run := GetRun (co_RunID c) in
  let! disp := deadLetterDisposition (run_OnFailure run) (co_RunID c) now in
  ret (RouteDeadLettered DeadLetterSourceRetriesExhausted disp.1 disp.2).

(** completeValidationFailure.  [maxAttempts] is the semantic budget of the
    materialized policy ([None]: corrupt), [feedback n] the critique stamped for
    attempt [n], [report] the dead-letter document built from the step's
    attempts. *)
Definition completeValidationFailureTx (c : Completion) (payload : json) (maxAttempts : option Z)
    (feedback : Z → option json) (report : Z → list StepAttempt → json) (issueCount : Z) (now : time)
    : Tx FailureRoute :=
  let! status := LockRunStatus (co_RunID c) now in
  if bool_decide (status = RunStatusCancelling) then
    let! fin := settleCancelled (co_RunID c) (co_StepID c) (co_ClaimID c) (Some payload) now in
    ret (RouteCancelled fin)
  else
    let! prior := CountValidationFailures (co_RunID c) (co_StepID c) in
    let n := prior + 1 in
    match maxAttempts with
    | Some m =>
        if n <? m then
          fence (SemanticRetryStep (co_RunID c) (co_StepID c) (co_ClaimID c) (Some payload) (co_Usage c)
                   (co_Verdict c) (co_Repair c) (feedback (n + 1)) n m issueCount now now) ;;
          CreateOutboxTask (co_RunID c) (co_StepID c) OutboxReasonSemanticRetry (co_Trace c) ;;
          applyCostRows (co_Costs c) ;;
          ret (RouteRetry now)
        else validation_dead_letter c report n now
    | None => validation_dead_letter c report n now
    end.

(** completeThrottle, completeBudgetPark and completeAwaitHuman share the
    run-status check; [None] is the settled-as-cancelled branch. *)
Definition completeThrottleTx (c : Completion) (resource bucket retryAfter : string) (fireAt now : time)
    : Tx (option RunStep) :=
  let! status := LockRunStatus (co_RunID c) now in
  if bool_decide (status = RunStatusCancelling) then
    settleCancelled (co_RunID c) (co_StepID c) (co_ClaimID c) None now ;; ret None
  else
    let! step := fence (ThrottleStep (co_RunID c) (co_StepID c) (co_ClaimID c) resource bucket retryAfter
                          fireAt now) in
    ret (Some step).

Definition completeBudgetParkTx (c : Completion) (event : BudgetExceededEvent) (now : time) : Tx (option RunStep) :=
  let! status := LockRunStatus (co_RunID c) now in
  if bool_decide (status = RunStatusCancelling) then
    settleCancelled (co_RunID c) (co_StepID c) (co_ClaimID c) None now ;; ret None
  else
    let! step := fence (BudgetParkStep (co_RunID c) (co_StepID c) (co_ClaimID c) event now) in
    ret (Some step).

Definition completeAwaitHumanTx (c : Completion) (approval : ApprovalRow) (now : time) : Tx (option RunStep) :=
  let! status := LockRunStatus (co_RunID c) now in
  if bool_decide (status = RunStatusCancelling) then
    settleCancelled (co_RunID c) (co_StepID c) (co_ClaimID c) None now ;; ret None
  else
    let! step := fence (AwaitHumanStep (co_RunID c) (co_StepID c) (co_ClaimID c) approval now) in
    ret (Some step).

(** ** The handlers' return: nil acks the delivery, an error redelivers it. *)
Inductive Handled : Type := Ack | Redeliver (e : Err).

(** Run a completion transaction whose error is not rerouted. *)
Definition handle_tx {A} (tx : Tx A) (d : DB) : Handled * DB * list Event :=
  match WithTx tx d with
  | (Ok _, d', evs) => (Ack, d', evs)
  | (Fail e, d', evs) => (Redeliver e, d', evs)
  end.

Definition completeFailure (c : Completion) (class : ErrorClass) (payload : json) (collect : bool)
    (params : option json) (now : time) (d : DB) : Handled * DB * list Event :=
  handle_tx (completeFailureTx c class payload collect params now) d.

(** completeSuccess: a failed edge predicate and an undecodable join target are
    deterministic, so the step fails permanently with an empty output; a fenced
    completion is abandoned; anything else redelivers.  [errText] is Go's
    rendering of an error. *)
Context (errText : Err → string).
Definition completeSuccess (c : Completion) (collect : bool) (now now' : time) (d : DB)
    : Handled * DB * list Event :=
  match find (is_run (co_RunID c)) (runs d) with
  | None => (Redeliver ErrNotFound, d, [])
  | Some run =>
      let failed := c <| co_Output := None |> <| co_Usage := None |> <| co_Costs := [] |> in
      let permanent e :=
        completeFailure failed ClassPermanent
          (JObj [("class", JStr (class_text ClassPermanent)); ("message", JStr (errText e))]) collect (run_Params run) now' d in
      match WithTx (completeSuccessTx c (run_Params run) now) d with
      | (Ok _, d', evs) => (Ack, d', evs)
      | (Fail (ErrEval o), _, _) => permanent (ErrEval o)
      | (Fail (ErrDecode s), _, _) => permanent (ErrDecode s)
      | (Fail e, _, _) => (Redeliver e, d, [])
      end
  end.
End completion.

(** ** Poison messages and requeue (deadletter.go) *)

(** HandlePoison for a decodable envelope: [summary] and [payload] describe the
    entry.  A conflict or a missing row consumes it. *)
Definition poisonTx (runID : uuid) (stepID onFailure : string) (summary payload : option json) (now : time)
    : Tx (bool * option Run) :=
  PoisonDeadLetterStep runID stepID summary payload now ;;
  let! disp := deadLetterDisposition onFailure runID now in
  if disp.2 then ret (true, None)
  else let! fin := attemptCancelRollup runID now in ret (false, fin).

Definition HandlePoison (runID : uuid) (stepID : string) (summary payload : option json) (now : time) (d : DB)
    : Handled * DB * list Event :=
  match find (is_run runID) (runs d) with
  | None => (Ack, d, [])
  | Some run =>
      match WithTx (poisonTx runID stepID (run_OnFailure run) summary payload now) d with
      | (Ok _, d', evs) => (Ack, d', evs)
      | (Fail (ErrTransition _), _, _) => (Ack, d, [])
      | (Fail ErrNotFound, _, _) => (Ack, d, [])
      | (Fail e, _, _) => (Redeliver e, d, [])
      end
  end.

(** Treat the cancelled steps as pending. *)
Definition as_if_pending (st : RunStep) : RunStep :=
  if has_status StepStatusCancelled st then st <| step_Status := StepStatusPending |> else st.

Record RequeueResult : Type := mkRequeueResult {
  rq_Step : RunStep; rq_RunResumed : bool; rq_Revived : list string; rq_Dispatched : list string
}.

(** The cancelled steps the recomputed write-off no longer contains. *)
Definition revivable (steps : list RunStep) (edges : list RunEdge) : Err + list string :=
  match planWriteOff (as_if_pending <$> steps) edges with
  | inl e => inl e
  | inr impossible =>
      inr (step_StepID <$> List.filter (λ st, has_status StepStatusCancelled st &&
                                              negb (bool_decide (step_StepID st ∈ impossible))) steps)
  end.

Definition requeueTx (runID : uuid) (stepID : string) (now : time) : Tx RequeueResult :=
  let! step := RequeueStep runID stepID now in
  let! run := GetRun runID in
  if bool_decide (run_Status run = RunStatusCancelling) || bool_decide (run_Status run = RunStatusCancelled)
  then throw ErrRunNotRequeueable
  else
    let! resumed :=
      if bool_decide (run_Status run = RunStatusFailed)
      then ResumeRun runID now ;; ret true else ret false in
    let! steps := ListByRun runID in
    let! revived :=
      if existsb (has_status StepStatusCancelled) steps then
        let! edges := ListEdgesByRun runID in
        let! ids := lift (revivable steps edges) in
        for_each ids (λ s, ReviveStep runID s ReviveReasonDLQRequeue now ;; ret tt) ;;
        ret ids
      else ret [] in
    let! toDispatch := ListReadyWithoutOutbox runID in
    enqueue runID toDispatch OutboxReasonDLQRequeue noTrace ;;
    ret (mkRequeueResult step resumed revived toDispatch).

(** ** Run controls (runctl.go) *)

(** The cancel request's sweep of one step. *)
Definition sweep_step (runID : uuid) (now : time) (st : RunStep) : Tx (list string) :=
  match step_Status st with
  | StepStatusPending | StepStatusReady | StepStatusRetrying =>
      CancelStep runID (step_StepID st) CancelReasonRunCancelled now ;; ret [step_StepID st]
  | StepStatusAwaitingHuman =>
      CancelAwaitingHumanStep runID (step_StepID st) CancelReasonRunCancelled now ;; ret [step_StepID st]
  | _ => ret []
  end.
Fixpoint sweep (runID : uuid) (now : time) (steps : list RunStep) : Tx (list string) :=
  match steps with
  | [] => ret []
  | st :: steps' =>
      let! a := sweep_step runID now st in
      let! b := sweep runID now steps' in
      ret (a ++ b)
  end.

Record CancelResult : Type := mkCancelResult { cn_Run : Run; cn_Cancelled : list string; cn_Finalized : bool }.

Definition cancelRunTx (runID : uuid) (reason : string) (now : time) : Tx CancelResult :=
  let! run := CancelRun runID reason now in
  let! steps := ListByRun runID in
  let! cancelled := sweep runID now steps in
  let! fin := attemptCancelRollup runID now in
  ret (mkCancelResult run cancelled (match fin with Some _ => true | None => false end)).

Definition healCancellingStep (runID : uuid) (stepID : string) (claimID : uuid) (now : time) : Tx (option Run) :=
  TakeoverStep runID stepID claimID now ;;
  CancelStep runID stepID CancelReasonRunCancelled now ;;
  attemptCancelRollup runID now.

Definition unparkTx (runID : uuid) (now : time) : Tx (list string) :=
  UnparkRun runID now ;;
  let! toDispatch := ListReadyWithoutOutbox runID in
  enqueue runID toDispatch OutboxReasonUnpark noTrace ;;
  ret toDispatch.

(** ** Decisions (decide.go) *)

Definition edgeMatchesDecision (mark : option string) (decision : string) : bool :=
  if bool_decide (decision = ApprovalApprove) then
    match mark with None => true | Some m => bool_decide (m = ApprovalApprove) end
  else if bool_decide (decision = ApprovalReject) then
    match mark with None => false | Some m => bool_decide (m = ApprovalReject) end
  else false.

(** filterDecisionVerdicts: the marker map is keyed by ordinal. *)
Definition filterDecisionVerdicts (edges : list RunEdge) (decision : string) (vs : list edgeVerdict)
    : list edgeVerdict :=
  let marker o := match find (λ e, bool_decide (edge_EdgeType e = EdgeTypeNormal) && (edge_Ordinal e =? o))
                        (rev edges) with
                  | Some e => edge_Decision e | None => None end in
  (λ v, (v.1, v.2 && edgeMatchesDecision (marker v.1) decision)) <$> vs.

Record DecideRequest : Type := mkDecideRequest {
  dr_Decision : string;
  dr_EditedPayload : option json;
  dr_Comment : string;
  dr_DecidedBy : string;
  dr_Source : string
}.
Definition ApprovalSourceHuman : string := "human".
Definition ApprovalSourceTimeout : string := "timeout".
Definition ApprovalRejectFail : string := "fail".
Definition ApprovalRejectRoute : string := "route".

Section decide.
Context (evalWhen : string → option json → option json → option bool).
(** validateEditSchema (the json_schema validator): the issues of a payload. *)
Context (schemaIssues : json → json → list string).

Inductive DecisionInvalid : Type := NotAllowed | EditOnReject | EditNotPermitted | EditSchema (issues : list string).

(** validateDecision: whether an edit applies, or why the decision is invalid. *)
Definition validateDecision (ap : Approval) (req : DecideRequest) : DecisionInvalid + bool :=
  if negb (existsb (λ s, bool_decide (s = dr_Decision req)) (ap_AllowedDecisions ap)) then inl NotAllowed
  else match dr_EditedPayload req with
       | None => inr false
       | Some edited =>
           if negb (bool_decide (dr_Decision req = ApprovalApprove)) then inl EditOnReject
           else if negb (ap_AllowEdit ap) then inl EditNotPermitted
           else match ap_EditSchema ap with
                | None => inr true
                | Some schema =>
                    match schemaIssues schema edited with
                    | [] => inr true
                    | issues => inl (EditSchema issues)
                    end
                end
       end.

Definition decideSucceed (runID : uuid) (stepID stepType : string) (output : json) (decision : string)
    (params : option json) (now : time) : Tx (option Run) :=
  SucceedAwaitingHumanStep runID stepID (Some output) now ;;
  let! edges := ListEdgesFromStep runID stepID in
  let! verdicts := lift (planEdges evalWhen stepType edges (Some output) params) in
  let! fanned := fanOut runID now (filterDecisionVerdicts edges decision verdicts) in
  enqueue runID (readied fanned) OutboxReasonStepReady noTrace ;;
  attemptRunRollup runID now.

Definition decideDeadLetter (runID : uuid) (stepID onFailure comment : string) (now : time) : Tx bool :=
  let msg := if bool_decide (comment = "") then "approval_rejected"
             else String.append "approval_rejected: " comment in
  DeadLetterAwaitingHumanStep runID stepID
    (Some (JObj [("class", JStr (class_text ClassPermanent)); ("message", JStr msg)])) now ;;
  let! disp := deadLetterDisposition onFailure runID now in
  (if disp.2 then GetRun runID ;; ret tt else ret tt) ;;
  ret disp.2.

(** The transaction of Decide.  [ap], [step] and [run] are the rows read before
    it, [onReject] the step's reject routing, [output] the decision document. *)
Definition decideTx (ap : Approval) (step : RunStep) (run : Run) (onReject : string) (req : DecideRequest)
    (output : json) (now : time) : Tx unit :=
  let! status := LockRunStatus (ap_RunID ap) now in
  if negb (bool_decide (status = RunStatusRunning)) && negb (bool_decide (status = RunStatusParked)) then
    throw (ErrTransition (mkTransitionError EntityRun (ap_RunID ap) "" (RunSt status) DecidedSt
             ConflictRunNotRunning None None))
  else
    let timeout := bool_decide (dr_Source req = ApprovalSourceTimeout) in
    let target := if timeout then ApprovalStatusExpired
                  else if bool_decide (dr_Decision req = ApprovalReject) then ApprovalStatusRejected
                  else ApprovalStatusApproved in
    DecideApproval (mkDecideApprovalArgs (ap_ID ap) (ap_RunID ap) (ap_StepID ap) (ap_Attempt ap) target
      (dr_Decision req) (if timeout then Some now else None) (ap_TimeoutAt ap) (dr_EditedPayload req)
      (dr_Comment req) (dr_DecidedBy req) (dr_Source req) now) ;;
    if bool_decide (dr_Decision req = ApprovalReject) && bool_decide (onReject = ApprovalRejectFail)
    then decideDeadLetter (step_RunID step) (step_StepID step) (run_OnFailure run) (dr_Comment req) now ;; ret tt
    else decideSucceed (step_RunID step) (step_StepID step) (step_StepType step) output (dr_Decision req)
           (run_Params run) now ;; ret tt.

(** applyTimeoutPark: [Ack] is ack-and-drop or applied. *)
Definition applyTimeoutPark (ap : Approval) (now : time) (d : DB) : Handled * DB * list Event :=
  match WithTx (ExpireApprovalPark (ap_ID ap) (ap_RunID ap) (ap_StepID ap) (ap_Attempt ap) (ap_TimeoutAt ap) now) d with
  | (Ok _, d', evs) => (Ack, d', evs)
  | (Fail (ErrApprovalNotPending _ _), _, _) => (Ack, d, [])
  | (Fail (ErrApprovalAlreadyExpired _), _, _) => (Ack, d, [])
  | (Fail e, _, _) => (Redeliver e, d, [])
  end.
End decide.

(** ** Claims (claim.go) *)

Inductive claimAction : Type := claimRedeliver | claimAckDrop | claimTakeover (holder : uuid).

Definition settled_status (s : StepStatus) : bool :=
  match s with
  | StepStatusSucceeded | StepStatusFailed | StepStatusSkipped | StepStatusDeadLettered
  | StepStatusCancelled | StepStatusCollected => true
  | _ => false
  end.

Definition classifyClaimFailure (err : Err) (deliveryCount : Z) : claimAction :=
  match err with
  | ErrTransition te =>
      match te_Reason te with
      | ConflictRunNotRunning => claimAckDrop
      | ConflictWrongStatus =>
          match te_From te with
          | StepSt StepStatusRunning =>
              if deliveryCount <=? 1 then claimAckDrop
              else match te_CurrentClaimID te with
                   | None => claimRedeliver
                   | Some h => claimTakeover h
                   end
          | StepSt s =>
              if settled_status s || bool_decide (s = StepStatusRetrying) ||
                 bool_decide (s = StepStatusAwaitingHuman)
              then claimAckDrop else claimRedeliver
          | _ => claimRedeliver
          end
      | _ => claimRedeliver
      end
  | ErrNotFound => claimAckDrop
  | _ => claimRedeliver
  end.

(** The (action, fenced) of a failed takeover-and-claim. *)
Definition classifyTakeoverFailure (err : Err) : claimAction * bool :=
  match err with
  | ErrTransition te =>
      match te_Reason te with
      | ConflictRunNotRunning => (claimAckDrop, false)
      | reason =>
          if negb (bool_decide (te_To te = StepSt StepStatusReady)) then (claimRedeliver, false)
          else match reason, te_From te with
               | ConflictClaimMismatch, _ => (claimAckDrop, true)
               | ConflictWrongStatus, StepSt s =>
                   if settled_status s || bool_decide (s = StepStatusRetrying) ||
                      bool_decide (s = StepStatusAwaitingHuman)
                   then (claimAckDrop, false) else (claimRedeliver, false)
               | _, _ => (claimRedeliver, false)
               end
      end
  | ErrNotFound => (claimAckDrop, false)
  | _ => (claimRedeliver, false)
  end.

(** takeoverAndClaim's transaction: a takeover that finds the step already ready
    is swallowed, and the claim proceeds. *)
Definition takeoverAndClaimTx (runID : uuid) (stepID : string) (holder : uuid) (now : time)
    (span worker : string) (claimID : uuid) : Tx (RunStep * ClaimOrigin) :=
  let! r := attempt (TakeoverStep runID stepID holder now) in
  (match r with
   | Ok _ => ret tt
   | Fail (ErrTransition te) =>
       if bool_decide (te_Reason te = ConflictWrongStatus) && bool_decide (te_From te = StepSt StepStatusReady)
       then ret tt else throw (ErrTransition te)
   | Fail e => throw e
   end) ;;
  ClaimStepWithOrigin runID stepID now span worker claimID.

(** Handle up to the execution of the step. *)
Inductive ClaimResult : Type := Execute (step : RunStep) (origin : ClaimOrigin) | Consumed (h : Handled).

(** [claimID] and [claimID'] are the fresh tokens of the two claim attempts. *)
Definition claim_delivery (runID : uuid) (stepID : string) (deliveryCount : Z) (now now' : time)
    (span worker : string) (claimID claimID' : uuid) (d : DB) : ClaimResult * DB * list Event :=
  match WithTx (ClaimStepWithOrigin runID stepID now span worker claimID) d with
  | (Ok (step, origin), d', evs) => (Execute step origin, d', evs)
  | (Fail e, _, _) =>
      match classifyClaimFailure e deliveryCount with
      | claimAckDrop => (Consumed Ack, d, [])
      | claimRedeliver => (Consumed (Redeliver e), d, [])
      | claimTakeover holder =>
          match WithTx (takeoverAndClaimTx runID stepID holder now' span worker claimID') d with
          | (Ok (step, origin), d', evs) => (Execute step origin, d', evs)
          | (Fail e', _, _) =>
              match (classifyTakeoverFailure e').1 with
              | claimAckDrop => (Consumed Ack, d, [])
              | _ => (Consumed (Redeliver e'), d, [])
              end
          end
      end
  end.
