(* ===== verification/StoreProps.v ===== *)
(** Properties of the durable store, over every database reachable from the
    empty one by registrations, run submissions and committed operations. *)
From stdpp Require Import relations.
From S2P Require Import Prelude StoreModel Transitions Effects StoreInv StoreSpecs EdgeSpecs StoreSystem StoreTheorems Config Dag GraphFacts Instantiate.
Open Scope Z_scope.

(** ** Reachable databases *)
Definition empty_db : DB := mkDB [] [] [] [] [] [] [] [] [] [] [].

Inductive reachable : DB → Prop :=
| reach_empty : reachable empty_db
| reach_run d def p args y d' evs :
    reachable d → planGraph def = inr p →
    WithTx (insert_run p args) d = (Ok y, d', evs) → reachable d'
| reach_define d row w d' evs :
    reachable d → WithTx (CreateDefinitionRow row) d = (Ok w, d', evs) → reachable d'
| reach_op d op d' evs : reachable d → commit op d = (Ok tt, d', evs) → reachable d'.

Lemma empty_inv : db_inv empty_db.
Proof. split; cbn; try apply NoDup_nil_2; by intros ? ?%not_elem_of_nil. Qed.

Lemma WithTx_insert_inv d def p args y d' evs :
  db_inv d → planGraph def = inr p → WithTx (insert_run p args) d = (Ok y, d', evs) → db_inv d'.
Proof.
  intros H Hp. unfold WithTx. destruct (insert_run p args _) as [[a|e] d1] eqn:E; [|done].
  intros [= <- <- <-]. apply inv_tx_events. eapply insert_run_inv; [|done|done]. by apply inv_tx_events.
Qed.

Lemma reachable_db_inv d : reachable d → db_inv d.
Proof.
  induction 1 as [|d def p args y d' evs _ IH Hp E|d row w d' evs _ IH E|d op d' evs _ IH E].
  - apply empty_inv.
  - by eapply WithTx_insert_inv.
  - revert E. unfold WithTx. destruct (CreateDefinitionRow row _) as [[a|e] d1] eqn:E; [|done].
    intros [= <- <- <-]. apply CreateDefinitionRow_ok in E as [l ->]. by apply inv_tx_events, inv_definitions, inv_tx_events.
  - eapply committed_inv; [done|]. by exists op, evs.
Qed.

(** *** Executable traces *)
Fixpoint run_ops (ops : list StoreOp) (d : DB) : option DB :=
  match ops with
  | [] => Some d
  | op :: ops' => match commit op d with (Ok _, d', _) => run_ops ops' d' | _ => None end
  end.

Lemma run_ops_committed ops d d' : run_ops ops d = Some d' → rtc committed d d'.
Proof.
  revert d. induction ops as [|op ops IH]; intros d; cbn; [by intros [= ->]|].
  destruct (commit op d) as [[[[]|e] d1] evs] eqn:E; [|done]. intros Hr. eapply rtc_l; [|by apply IH].
  by exists op, evs.
Qed.

Lemma run_ops_reachable ops d d' : reachable d → run_ops ops d = Some d' → reachable d'.
Proof.
  revert d. induction ops as [|op ops IH]; intros d Hd; cbn; [by intros [= <-]|].
  destruct (commit op d) as [[[[]|e] d1] evs] eqn:E; [|done]. apply IH. by eapply reach_op.
Qed.

(** *** A concrete run

    A diamond: [a] feeds [b] and [c], which feed the join [j]. *)
Module Demo.
Definition noop (i : string) : Step := mkStep i "noop" None None None noPolicies.
Definition edge (a b : string) : Edge := mkEdge a b "" EdgeTypeNormal "".
Definition diamond : Definition_ :=
plainDefinition "diamond" ""
  [noop "a"; noop "b"; noop "c"; mkStep "j" StepJoin (Some (JoinConfigC JoinAll)) None None noPolicies]
  [edge "a" "b"; edge "a" "c"; edge "b" "j"; edge "c" "j"].
Definition plan : instantiationPlan :=
mkPlan diamond ["a"] (count_remaining (Edges diamond)).
Definition args : CreateRunArgs := mkCreateRunArgs 1 "" None 10 noTrace "" "".
Definition submitted : DB := (WithTx (insert_run plan args) empty_db).1.2.
Definition after (ops : list StoreOp) : DB := default empty_db (run_ops ops submitted).

Lemma plan_ok : planGraph diamond = inr plan.
Proof. vm_compute. reflexivity. Qed.
Lemma submitted_reachable : reachable submitted.
Proof.
eapply (reach_run empty_db diamond plan args); [apply reach_empty|apply plan_ok|].
vm_compute. reflexivity.
Qed.
Lemma after_reachable ops : run_ops ops submitted = Some (after ops) → reachable (after ops).
Proof. apply run_ops_reachable, submitted_reachable. Qed.

(** [a] claimed by claim 7 at time 11. *)
Definition claimed : DB := after [OpClaim 1 "a" 11 "" "w1" 7].
Lemma claimed_reachable : reachable claimed.
Proof. apply after_reachable. vm_compute. reflexivity. Qed.
(** ... and succeeded. *)
Definition succeeded : DB :=
after [OpClaim 1 "a" 11 "" "w1" 7; OpSucceed 1 "a" 7 (Some (JNum 1)) None None None 12].
Lemma succeeded_reachable : reachable succeeded.
Proof. apply after_reachable. vm_compute. reflexivity. Qed.
End Demo.

(** ** Invariant, atomicity, event log *)

(** C1: every database reachable from the empty one by run submissions and
    committed operations satisfies the store invariant: the denormalized run
    counters equal the step rows they summarise, the per-run event sequence is
    1..next_seq without a gap, each step's attempts are numbered 1..attempt_count
    with exactly the in-flight one open and held by the step's claim, the
    dependency counters equal the edge resolutions, the spend equals the ledger,
    and every dead-lettered step has a dead_letters row. *)
Theorem store_invariant d : reachable d → db_inv d.
Proof. apply reachable_db_inv. Qed.
Lemma store_invariant_witness : reachable Demo.succeeded ∧ db_inv Demo.succeeded.
Proof. split; [apply Demo.succeeded_reachable|]. apply store_invariant, Demo.succeeded_reachable. Defined.

(** A transition rejected by its guard writes nothing, so a caller may drop
    the typed conflict and commit the surrounding transaction. *)
Theorem rejected_writes_nothing op d e d' :
  db_inv d → exec op d = (Fail e, d') → is_conflict e = true → d' = d.
Proof.
  intros H E Hc. pose proof (exec_transition op d H) as T. rewrite E in T.
  inversion T; subst; [done|congruence].
Qed.

(** C3: a committed transaction hands the event sink exactly the events it
    appended, in log order; a failed one leaves the database as it was and
    hands over nothing.  A transition rejected by its guard writes nothing even
    before the rollback, so a caller may drop the typed conflict and commit the
    surrounding transaction. *)
Theorem commit_atomic op d : db_inv d →
  match commit op d with
  | (Ok _, d', evs) => events d' = events d ++ evs
  | (Fail _, d', evs) => d' = d ∧ evs = []
  end ∧
  (∀ e d', exec op d = (Fail e, d') → is_conflict e = true → d' = d).
Proof.
  intros H. split; [|intros e d'; by apply rejected_writes_nothing].
  pose proof (commit_spec op d H) as S. destruct (commit op d) as [[[a|e] d'] evs]; [|done].
  destruct S as (d1 & [Hs| ->] & -> & ->); [|by cbn; rewrite app_nil_r].
  apply tx_step_events in Hs as (l & E1 & E2). cbn in *. by subst.
Qed.
Lemma commit_atomic_witness :
  match commit (OpSucceed 1 "a" 7 None None None None 12) Demo.claimed with
  | (Ok _, d', evs) => events d' = events Demo.claimed ++ evs
  | (Fail _, d', evs) => d' = Demo.claimed ∧ evs = []
  end ∧
  (exec (OpSucceed 1 "a" 9 None None None None 12) Demo.claimed).2 = Demo.claimed.
Proof.
  split.
  - apply (commit_atomic (OpSucceed 1 "a" 7 None None None None 12)), reachable_db_inv, Demo.claimed_reachable.
  - eapply (commit_atomic (OpSucceed 1 "a" 9 None None None None 12) Demo.claimed);
      [apply reachable_db_inv, Demo.claimed_reachable|vm_compute; reflexivity|reflexivity].
Defined.

(** C4: the event log is append-only and gap-free: later transactions keep the
    log as a prefix, and the events of a run carry the seqs 1, 2, ..., next_seq
    in order. *)
Theorem event_log_gap_free d d' : reachable d → rtc committed d d' →
  events d `prefix_of` events d' ∧
  ∀ y, y ∈ runs d' → ev_Seq <$> run_events (run_ID y) (events d') = seqZ 1 (run_NextSeq y).
Proof.
  intros Hd%reachable_db_inv Hs. split.
  - revert Hd Hs. apply (commits_lift (λ d d', events d `prefix_of` events d')).
    + done.
    + intros d1 d2 d3. apply transitivity.
    + apply (committed_lift (λ d d', events d `prefix_of` events d')); [done| |].
      * intros d1 d2 d3. apply transitivity.
      * intros d1 d2 _ (l & -> & _)%tx_step_events. by exists l.
  - intros y Hy. assert (db_inv d') as H by (by eapply commits_inv).
    apply (ri_seq _ _ (inv_run _ H y Hy)).
Qed.
Lemma event_log_gap_free_witness : events Demo.claimed `prefix_of` events Demo.succeeded.
Proof.
  apply (event_log_gap_free Demo.claimed Demo.succeeded); [apply Demo.claimed_reachable|].
  apply (run_ops_committed [OpSucceed 1 "a" 7 (Some (JNum 1)) None None None 12]).
  vm_compute. reflexivity.
Defined.

(** ** Histories *)

(** What a succeeded, skipped or collected step recorded is immutable: after
    any sequence of committed transactions its row differs at most in the
    dependency counters (a late edge of a join-any) and updated_at. *)
Theorem terminal_row_immutable d d' r s x : db_inv d → rtc committed d d' →
  find (is_step r s) (run_steps d) = Some x → absorbing (step_Status x) = true →
  ∃ rem fired upd, find (is_step r s) (run_steps d') =
    Some (x <| step_RemainingDeps := rem |> <| step_FiredDeps := fired |> <| step_UpdatedAt := upd |>).
Proof.
  intros H Hs. revert x.
  refine (commits_lift (λ d d', ∀ x, find (is_step r s) (run_steps d) = Some x →
    absorbing (step_Status x) = true → ∃ rem fired upd, find (is_step r s) (run_steps d') =
    Some (x <| step_RemainingDeps := rem |> <| step_FiredDeps := fired |> <| step_UpdatedAt := upd |>))
    _ _ _ d d' H Hs).
  - intros d0 x Hx _. exists (step_RemainingDeps x), (step_FiredDeps x), (step_UpdatedAt x).
    rewrite Hx. by destruct x.
  - intros d1 d2 d3 H1 H2 x Hx Ha. destruct (H1 x Hx Ha) as (a & b & c & Hx1).
    destruct (H2 _ Hx1 Ha) as (a' & b' & c' & Hx2). exists a', b', c'. rewrite Hx2. by destruct x.
  - intros d1 d2 H1 Hc x Hx Ha.
    assert (∃ x', find (is_step r s) (run_steps d2) = Some x' ∧ row_evolves x x') as (x' & Hx' & R).
    { destruct Hc as (op & evs & E). pose proof (commit_spec op d1 H1) as S. rewrite E in S.
      destruct S as (d3 & [Hs'| ->] & -> & _); [|exists x; split; [done|apply row_evolves_refl]].
      exact (tx_step_row _ d3 r s x (inv_tx_events _ _ H1) Hs' Hx). }
    destruct (re_frozen _ _ R Ha) as (a & b & c & ->). eauto.
Qed.

(** ** Attempts and fencing *)

(** An attempt row with an outcome is never modified or removed by any later
    transaction. *)
Theorem attempt_history_immutable d d' a : db_inv d → rtc committed d d' →
  a ∈ step_attempts d → att_Outcome a ≠ None → a ∈ step_attempts d'.
Proof.
  intros H Hs. revert a.
  refine (commits_lift (λ d d', ∀ a, a ∈ step_attempts d → att_Outcome a ≠ None → a ∈ step_attempts d')
            _ _ _ d d' H Hs); [done|naive_solver|].
  intros d1 d2 H1. apply (committed_lift (λ d d', ∀ a, a ∈ step_attempts d → att_Outcome a ≠ None →
    a ∈ step_attempts d')); [done|naive_solver| |done].
  intros d3 d4 H3 Hs' a. by apply tx_step_attempt.
Qed.

(** C6: what is settled is immutable. After any sequence of committed transactions the
    row of a succeeded, skipped or collected step differs at most in the dependency
    counters (a late edge of a join-any) and updated_at, and every attempt row with an
    outcome is still there as it was. *)
Theorem history_immutable d d' : db_inv d → rtc committed d d' →
  (∀ r s x, find (is_step r s) (run_steps d) = Some x → absorbing (step_Status x) = true →
     ∃ rem fired upd, find (is_step r s) (run_steps d') =
       Some (x <| step_RemainingDeps := rem |> <| step_FiredDeps := fired |> <| step_UpdatedAt := upd |>)) ∧
  (∀ a, a ∈ step_attempts d → att_Outcome a ≠ None → a ∈ step_attempts d').
Proof.
  intros H Hs. split; [intros r s x; by apply terminal_row_immutable|intros a; by apply attempt_history_immutable].
Qed.
Lemma history_immutable_witness : ∃ a, a ∈ step_attempts Demo.succeeded ∧ att_Outcome a ≠ None ∧
  a ∈ step_attempts (Demo.after [OpClaim 1 "a" 11 "" "w1" 7;
                       OpSucceed 1 "a" 7 (Some (JNum 1)) None None None 12; OpParkRun 1 "manual" 13]).
Proof.
  assert (∃ a, step_attempts Demo.succeeded = [a] ∧ att_Outcome a ≠ None) as (a & Ha & Ho).
  { eexists. split; [vm_compute; reflexivity|done]. }
  exists a. split; [rewrite Ha; constructor|]. split; [done|].
  apply (history_immutable Demo.succeeded);
    [apply reachable_db_inv, Demo.succeeded_reachable| |rewrite Ha; constructor|done].
  apply (run_ops_committed [OpParkRun 1 "manual" 13]). vm_compute. reflexivity.
Defined.

(** C8: a claim holder that lost its claim can never complete the step.  If
    claim [c] was issued before and the step is not running under [c], then
    after any sequence of transactions whose claim ids are pairwise distinct
    (they are fresh UUIDs) a completion under [c] is still refused with a
    conflict and writes nothing. *)
Theorem lost_claim_is_final d d' r s c out u v rp now x' y' :
  db_inv d → rtc committed d d' → NoDup (claims d') → c ∈ claims d →
  (∀ x, find (is_step r s) (run_steps d) = Some x → fenced c x = false) →
  find (is_run r) (runs d') = Some y' → find (is_step r s) (run_steps d') = Some x' → now ≠ 0 →
  ∃ te, SucceedStep r s c out u v rp now d' = (Fail (ErrTransition te), d') ∧
        te_From te = StepSt (step_Status x') ∧
        (step_Status x' = StepStatusRunning → te_Reason te = ConflictClaimMismatch).
Proof.
  intros H Hs Hnd Hc Hnf Hy' Hx' Hnow. assert (db_inv d') as H' by (by eapply commits_inv).
  assert (fenced c x' = false) as Hf.
  { assert (claims_grow d d') as (new & Ec & Hg).
    { revert H Hs. apply commits_lift; [apply claims_grow_refl|apply claims_grow_trans|].
      apply committed_claims. }
    apply not_true_iff_false. intros Hf. destruct (Hg _ _ _ _ Hx' Hf) as [Hn|(x & Hx & Hfx)].
    - rewrite Ec, NoDup_app in Hnd. by apply (proj1 (proj2 Hnd) c).
    - rewrite (Hnf x Hx) in Hfx. done. }
  pose proof (SucceedStep_guarded d' r s y' x' H' Hy' Hx' c out u v rp now Hnow) as G.
  unfold guarded in G. rewrite Hf in G. eexists. split; [exact G|]. cbn. split; [done|].
  intros Hst. unfold has_status. rewrite Hst. unfold fenced, has_status in Hf. rewrite Hst in Hf.
  rewrite bool_decide_eq_true_2 in Hf |- * by done. cbn in Hf |- *. by rewrite Hf.
Qed.
(** Claim 7 is taken over and the step re-claimed by 8: worker 7 is refused. *)
Lemma lost_claim_is_final_witness :
  let d := Demo.after [OpClaim 1 "a" 11 "" "w1" 7; OpTakeover 1 "a" 7 12] in
  let d' := Demo.after [OpClaim 1 "a" 11 "" "w1" 7; OpTakeover 1 "a" 7 12; OpClaim 1 "a" 13 "" "w2" 8] in
  ∃ te, SucceedStep 1 "a" 7 None None None None 14 d' = (Fail (ErrTransition te), d') ∧
        te_Reason te = ConflictClaimMismatch.
Proof.
  intros d d'.
  edestruct (lost_claim_is_final d d' 1 "a" 7 None None None None 14) as (te & E & _ & Hr);
    [apply reachable_db_inv, Demo.after_reachable; vm_compute; reflexivity
    |apply (run_ops_committed [OpClaim 1 "a" 13 "" "w2" 8]); vm_compute; reflexivity
    |apply (bool_decide_unpack _); vm_compute; reflexivity
    |apply (bool_decide_unpack _); vm_compute; reflexivity
    |intros x Hx; vm_compute in Hx; injection Hx as <-; reflexivity
    |vm_compute; reflexivity|vm_compute; reflexivity|lia|].
  exists te. split; [exact E|]. apply Hr. vm_compute. reflexivity.
Defined.

(** ** Rollups *)

(** SucceedRun succeeds exactly when the run is running or parked and every
    one of its steps is succeeded, skipped or collected; otherwise it is a
    conflict naming the run's status. *)
Theorem SucceedRun_iff d r now y : db_inv d → find (is_run r) (runs d) = Some y → now ≠ 0 →
  (run_open y = true ∧ all_done d r ∧ (SucceedRun r now d).1 = Ok (finish_run RunStatusSucceeded now y)) ∨
  (¬ (run_open y = true ∧ all_done d r) ∧
   ∃ te, SucceedRun r now d = (Fail (ErrTransition te), d) ∧ te_From te = RunSt (run_Status y)).
Proof.
  intros H Hy Hnow. pose proof (succeed_guard d r y H Hy) as Hg.
  pose proof (SucceedRun_guarded d r y H Hy now Hnow) as G. unfold guarded in G.
  destruct (succeed_run_guard y).
  - left. destruct Hg as [[? ?] _]; [done|]. destruct G as [-> _]. done.
  - right. split; [intros Hc; apply Hg in Hc; done|]. eexists. split; [exact G|done].
Qed.
Lemma SucceedRun_iff_witness :
  ∃ te, SucceedRun 1 20 Demo.succeeded = (Fail (ErrTransition te), Demo.succeeded).
Proof.
  destruct (find (is_run 1) (runs Demo.succeeded)) as [y|] eqn:Hy; [|vm_compute in Hy; discriminate].
  edestruct (SucceedRun_iff Demo.succeeded 1 20 y) as [(_ & _ & E)|(_ & te & E & _)];
    [apply reachable_db_inv, Demo.succeeded_reachable|exact Hy|lia|vm_compute in E; discriminate|].
  by exists te.
Defined.

(** The cancel rollup succeeds exactly when the run is cancelling and every
    step is terminal, and the failure rollup exactly when the run is running or
    parked, every step is terminal and one is dead-lettered. *)
Theorem rollups_iff d r now y : db_inv d → find (is_run r) (runs d) = Some y → now ≠ 0 →
  ((∃ y', (CancelRunRollup r now d).1 = Ok y') ↔ run_Status y = RunStatusCancelling ∧ all_terminal d r) ∧
  ((∃ y', (FailRunRollup r now d).1 = Ok y') ↔ run_open y = true ∧ all_terminal d r ∧ some_dead d r).
Proof.
  intros H Hy Hnow. pose proof (accounted_guard d r y H Hy) as Hacc. pose proof (dead_guard d r y H Hy) as Hdead.
  split.
  - pose proof (CancelRunRollup_guarded d r y H Hy now Hnow) as G. unfold guarded in G.
    rewrite <-Hacc. unfold run_has in G.
    assert (bool_decide (run_Status y = RunStatusCancelling) && all_accounted y = true ↔
            run_Status y = RunStatusCancelling ∧ all_accounted y = true) as <-
      by by rewrite andb_true_iff, bool_decide_eq_true.
    destruct (bool_decide _ && _).
    + destruct G as [-> _]. cbn. naive_solver.
    + rewrite G. cbn. split; [by intros [? ?]|done].
  - pose proof (FailRunRollup_guarded d r y H Hy now Hnow) as G. unfold guarded in G.
    rewrite <-Hacc, <-Hdead.
    destruct (run_open y && (1 <=? run_StepsFailed y) && all_accounted y) eqn:Hg.
    + destruct G as [-> _]. cbn. apply andb_prop in Hg as [[? ?]%andb_prop ?]. naive_solver.
    + rewrite G. cbn. split; [by intros [? ?]|]. intros (E1 & E2 & E3). by rewrite E1, E2, E3 in Hg.
Qed.
(** A run of one dead-lettered step fails by rollup. *)
Lemma rollups_iff_witness : ∃ y', (FailRunRollup 1 20 (Demo.after
  [OpPoison 1 "a" None None 12; OpCancelStep 1 "b" "x" 12; OpCancelStep 1 "c" "x" 12;
   OpCancelStep 1 "j" "x" 12])).1 = Ok y'.
Proof.
  set (d := Demo.after _).
  destruct (find (is_run 1) (runs d)) as [y|] eqn:Hy; [|vm_compute in Hy; discriminate].
  assert (db_inv d) as H by (apply reachable_db_inv, Demo.after_reachable; vm_compute; reflexivity).
  apply (rollups_iff d 1 20 y H Hy); [lia|]. split; [vm_compute in Hy; by injection Hy as <-|].
  split.
  - unfold all_terminal. apply (Forall_forall (λ x, step_RunID x = 1%positive → step_terminal (step_Status x) = true)).
    apply (bool_decide_unpack _). vm_compute. reflexivity.
  - unfold some_dead. apply (Exists_exists (λ x, step_RunID x = 1%positive ∧ step_Status x = StepStatusDeadLettered)).
    apply (bool_decide_unpack _). vm_compute. reflexivity.
Defined.

(** ** Readiness and edges *)

(** An edge of the run into the step, with the given resolution. *)
Definition edge_into (d : DB) (r : uuid) (s : string) (res : EdgeResolution) : Prop :=
  ∃ e, e ∈ run_edges d ∧ edge_RunID e = r ∧ edge_ToStep e = s ∧
       edge_EdgeType e = EdgeTypeNormal ∧ edge_Resolution e = res.

Lemma edge_into_Exists d r s res : edge_into d r s res ↔
  Exists (λ e, edge_RunID e = r ∧ edge_ToStep e = s ∧ edge_EdgeType e = EdgeTypeNormal ∧
               edge_Resolution e = res) (run_edges d).
Proof. by rewrite Exists_exists. Qed.

Lemma edge_into_count d x res : 0 < count (in_edges x res) (run_edges d) ↔
  edge_into d (step_RunID x) (step_StepID x) res.
Proof.
  rewrite count_pos. unfold edge_into, in_edges. split; intros (e & He & Hp); exists e; (split; [done|]).
  - apply andb_prop in Hp as [[[?%bool_decide_eq_true ?%bool_decide_eq_true]%andb_prop
      ?%bool_decide_eq_true]%andb_prop ?%bool_decide_eq_true]. done.
  - destruct Hp as (-> & -> & -> & ->). by rewrite !bool_decide_eq_true_2.
Qed.

(** C11: the counter guards of ReadyStep and SkipStep decide readiness over the
    edges: a pending step becomes ready exactly when some incoming normal edge
    fired and (unless it is a join-any) none is unresolved, and is skipped
    exactly when none is unresolved and none fired. *)
Theorem ready_skip_iff d r s now x y joinAny : db_inv d →
  find (is_run r) (runs d) = Some y → find (is_step r s) (run_steps d) = Some x → now ≠ 0 →
  let pending := step_Status x = StepStatusPending in
  let fired := edge_into d r s EdgeResolutionFired in
  let unresolved := edge_into d r s EdgeResolutionUnresolved in
  ((∃ x', (ReadyStep r s joinAny now d).1 = Ok x') ↔
     pending ∧ fired ∧ (¬ unresolved ∨ joinAny = true)) ∧
  ((∃ x', (SkipStep r s now d).1 = Ok x') ↔ pending ∧ ¬ unresolved ∧ ¬ fired).
Proof.
  intros H Hy Hx Hnow pending fired unresolved.
  destruct (find_step_inv _ _ _ _ Hx) as (Hin & <- & <-).
  destruct (inv_deps _ H x Hin) as [D1 D2].
  pose proof (edge_into_count d x EdgeResolutionFired) as Hf.
  pose proof (edge_into_count d x EdgeResolutionUnresolved) as Hu.
  fold fired in Hf. fold unresolved in Hu. rewrite <-D1 in Hu. rewrite <-D2 in Hf.
  pose proof (count_nonneg (in_edges x EdgeResolutionUnresolved) (run_edges d)) as N1.
  pose proof (count_nonneg (in_edges x EdgeResolutionFired) (run_edges d)) as N2.
  assert (step_RemainingDeps x = 0 ↔ ¬ unresolved) as Hr by (rewrite <-Hu; lia).
  assert (step_FiredDeps x = 0 ↔ ¬ fired) as Hf0 by (rewrite <-Hf; lia).
  assert (1 ≤ step_FiredDeps x ↔ fired) as Hf1 by (rewrite <-Hf; lia).
  split.
  - pose proof (ReadyStep_guarded d _ _ y x H Hy Hx joinAny now Hnow) as G. unfold guarded in G.
    assert (readyable joinAny x = true ↔ pending ∧ fired ∧ (¬ unresolved ∨ joinAny = true)) as <-.
    { unfold readyable, has_status. rewrite !andb_true_iff, orb_true_iff, bool_decide_eq_true, Z.leb_le,
        Z.eqb_eq, Hr, Hf1. naive_solver. }
    destruct (readyable joinAny x).
    + destruct G as [-> _]. naive_solver.
    + rewrite G. cbn. naive_solver.
  - pose proof (SkipStep_guarded d _ _ y x H Hy Hx now Hnow) as G. unfold guarded in G.
    assert (skippable x = true ↔ pending ∧ ¬ unresolved ∧ ¬ fired) as <-.
    { unfold skippable, has_status. rewrite !andb_true_iff, bool_decide_eq_true, !Z.eqb_eq, Hr, Hf0.
      naive_solver. }
    destruct (skippable x).
    + destruct G as [-> _]. naive_solver.
    + rewrite G. cbn. naive_solver.
Qed.
(** After both branches' edges into [j] are skipped, [j] can be skipped. *)
Lemma ready_skip_iff_witness : ∃ x', (SkipStep 1 "j" 20 (Demo.after
  [OpResolveEdge 1 2 false 12; OpResolveEdge 1 3 false 12])).1 = Ok x'.
Proof.
  set (d := Demo.after _).
  assert (db_inv d) as H by (apply reachable_db_inv, Demo.after_reachable; vm_compute; reflexivity).
  destruct (find (is_run 1) (runs d)) as [y|] eqn:Hy; [|vm_compute in Hy; discriminate].
  destruct (find (is_step 1 "j") (run_steps d)) as [x|] eqn:Hx; [|vm_compute in Hx; discriminate].
  apply (ready_skip_iff d 1 "j" 20 x y false H Hy Hx); [lia|].
  split; [vm_compute in Hx; by injection Hx as <-|].
  split; rewrite edge_into_Exists; apply (bool_decide_unpack _); vm_compute; reflexivity.
Defined.

(** C12: resolving an edge is first-verdict-wins: an unresolved normal edge takes
    the verdict and moves its target's counters; the same verdict again is a
    no-op; a different verdict, or a loop edge, is an error and writes nothing.
    The "remaining_deps is 0 but an edge is unresolved" error cannot occur. *)
Theorem ResolveEdge_first_wins d r o fired now e y : db_inv d →
  find (is_run r) (runs d) = Some y → find (is_edge r o) (run_edges d) = Some e → now ≠ 0 →
  match edge_EdgeType e, edge_Resolution e with
  | EdgeTypeLoop, _ => ResolveEdge r o fired now d = (Fail (ErrLoopEdge o), d)
  | EdgeTypeNormal, EdgeResolutionUnresolved =>
      ∃ x, find (is_step r (edge_ToStep e)) (run_steps d) = Some x ∧ 0 < step_RemainingDeps x ∧
        (ResolveEdge r o fired now d).1 =
          Ok (mkResolveEdgeResult true (resolve_set fired e) (Some (dep_set fired now x))) ∧
        find (is_edge r o) (run_edges (ResolveEdge r o fired now d).2) = Some (resolve_set fired e)
  | EdgeTypeNormal, res =>
      ResolveEdge r o fired now d =
        (if bool_decide (res = verdict fired) then Ok (mkResolveEdgeResult false e None)
         else Fail (ErrReResolve o), d)
  end.
Proof.
  intros H Hy He Hnow. destruct (edge_target d r o y e H Hy He) as [x Hx].
  pose proof (ResolveEdge_eval d r o y e H Hy He fired now x Hnow Hx) as E.
  pose proof (remaining_pos d r o y e H Hy He x Hx) as Hpos.
  destruct (edge_EdgeType e); [|exact E]. destruct (edge_Resolution e); [|exact E..].
  exists x. rewrite E. split_and!; [done|by apply Hpos|done|]. cbn.
  destruct (edge_read d r o y e Hy He) as (_ & -> & ->).
  rewrite (find_set_row edge_key (λ k, is_edge k.1 k.2) is_edge_key (r, o)) by done. cbn. by rewrite He.
Qed.
Lemma ResolveEdge_first_wins_witness : ∃ x,
  find (is_step 1 "b") (run_steps Demo.succeeded) = Some x ∧ 0 < step_RemainingDeps x.
Proof.
  destruct (find (is_run 1) (runs Demo.succeeded)) as [y|] eqn:Hy; [|vm_compute in Hy; discriminate].
  destruct (find (is_edge 1 0) (run_edges Demo.succeeded)) as [e|] eqn:He; [|vm_compute in He; discriminate].
  pose proof (ResolveEdge_first_wins Demo.succeeded 1 0 true 20 e y
    (reachable_db_inv _ Demo.succeeded_reachable) Hy He ltac:(lia)) as P.
  vm_compute in He. injection He as <-. cbn in P. destruct P as (x & Hx & Hp & _). by exists x.
Defined.

(** ** Claims *)

(** The claim CAS: a claim is granted exactly when the run is running and
    the step is ready, or retrying with its due time reached; it makes the step
    running under the new claim, opens attempt number attempt_count + 1 with
    that claim, and logs one step_claimed event.  Otherwise it is a conflict --
    run_not_running when the run is not running -- and nothing is written. *)
Theorem claim_exact d r s now sp w c y x : db_inv d →
  find (is_run r) (runs d) = Some y → find (is_step r s) (run_steps d) = Some x → now ≠ 0 →
  let granted := run_Status y = RunStatusRunning ∧
    (step_Status x = StepStatusReady ∨
     step_Status x = StepStatusRetrying ∧ ∃ t, step_NextAttemptAt x = Some t ∧ t ≤ now) in
  let x' := ClaimRunStep c now (nullableText sp) x in
  let '(res, d') := ClaimStepWithOrigin r s now sp w c d in
  (granted ∧ res = Ok (x', claim_origin y x) ∧
   find (is_step r s) (run_steps d') = Some x' ∧
   step_attempts d' = step_attempts d ++ [claimed_attempt r s x c now w] ∧
   events d' = events d ++ [mkEvent r (run_NextSeq y + 1) (StepClaimed s c (step_AttemptCount x + 1) w)]) ∨
  (¬ granted ∧ d' = d ∧ ∃ te, res = Fail (ErrTransition te) ∧
   (run_Status y ≠ RunStatusRunning → te_Reason te = ConflictRunNotRunning)).
Proof.
  intros H Hy Hx Hnow granted x'. destruct (find_run_inv _ _ _ Hy) as [_ Er].
  destruct (find_step_inv _ _ _ _ Hx) as (_ & Exr & Exs).
  pose proof (ClaimStepWithOrigin_guarded d r s y x H Hy Hx now sp w c Hnow) as G. unfold guarded in G.
  assert (run_has RunStatusRunning y && claimable now x = true ↔ granted) as Hg.
  { unfold granted, run_has, claimable, has_status.
    rewrite andb_true_iff, orb_true_iff, andb_true_iff, !bool_decide_eq_true.
    destruct (step_NextAttemptAt x) as [t|]; [rewrite Z.leb_le|]; naive_solver. }
  destruct (run_has RunStatusRunning y && claimable now x).
  - destruct G as [-> S]. left. split_and!; [by apply Hg|done| | |].
    + destruct (inv_readable d r s y x H Hy Hx) as (R & L & _ & _ & E1 & E2). subst x'.
      pose proof (find_step_effect d y x (claim_effect r s x now sp w c) L (so_rows _ _ _ _ S)) as F.
      rewrite E1, E2 in F. exact F.
    + done.
    + cbn. by rewrite Er.
  - rewrite G. right. split; [intros ?%Hg; done|]. split; [done|].
    unfold claim_conflict, run_has. destruct (bool_decide (run_Status y = RunStatusRunning)) eqn:Hr.
    + eexists. split; [done|]. by apply bool_decide_eq_true in Hr.
    + by eexists.
Qed.
(** A second worker racing for the claimed step is refused. *)
Lemma claim_exact_witness : ∃ te,
  (ClaimStepWithOrigin 1 "a" 12 "" "w2" 8 Demo.claimed).1 = Fail (ErrTransition te).
Proof.
  destruct (find (is_run 1) (runs Demo.claimed)) as [y|] eqn:Hy; [|vm_compute in Hy; discriminate].
  destruct (find (is_step 1 "a") (run_steps Demo.claimed)) as [x|] eqn:Hx; [|vm_compute in Hx; discriminate].
  pose proof (claim_exact Demo.claimed 1 "a" 12 "" "w2" 8 y x
    (reachable_db_inv _ Demo.claimed_reachable) Hy Hx ltac:(lia)) as P. cbn zeta in P.
  destruct (ClaimStepWithOrigin 1 "a" 12 "" "w2" 8 Demo.claimed) as [res d'].
  destruct P as [[[_ Hst] _]|(_ & _ & te & -> & _)]; [|by exists te].
  vm_compute in Hx. injection Hx as <-. exfalso. destruct Hst as [E|[E _]]; discriminate E.
Defined.

(** ** Cost *)

(** C14: charging is effectively-once: the first charge of a (step, attempt,
    entry) adds exactly its amounts to the run's totals and a ledger row, and a
    second charge of the same entry is refused by the ledger's key with nothing
    written -- so in every reachable database the run totals are the sums of
    its ledger rows. *)
Theorem charged_once d args rate y : db_inv d →
  find (is_run (ac_RunID args)) (runs d) = Some y → ac_Now args ≠ 0 → ac_Resource args ≠ "" →
  ac_Rate args = Some rate → 0 ≤ ac_CostNanoUSD args → 0 ≤ ac_SavedNanoUSD args →
  let '(res, d') := ApplyAttemptCost args d in
  if charged d args then res = Fail (ErrUnique "cost_ledger_pkey") ∧ d' = d
  else res = Ok (mkCostApplied (run_SpentNanoUsd y + ac_CostNanoUSD args)
                   (run_SavedNanoUsd y + ac_SavedNanoUSD args) (run_BudgetNanoUsd y)) ∧
       cost_ledger d' = cost_ledger d ++ [ledger_row args rate] ∧ charged d' args = true ∧
       ledger_sum cl_CostNanoUsd (ac_RunID args) (cost_ledger d') = run_SpentNanoUsd y + ac_CostNanoUSD args.
Proof.
  intros H Hy Hnow Hres Hrate Hc Hs.
  pose proof (ApplyAttemptCost_guarded d args rate y H Hy Hnow Hres Hrate Hc Hs) as G. unfold guarded in G.
  destruct (find_run_inv _ _ _ Hy) as [Hin Er].
  destruct (charged d args); cbn [negb] in G; [by rewrite G|].
  destruct G as [-> S]. split_and!; [done|done| |].
  - unfold charged. cbn. apply existsb_exists. exists (ledger_row args rate).
    split; [apply list_elem_of_In; set_solver|]. unfold is_ledger_row. cbn. by decide_eqs; rewrite Z.eqb_refl.
  - cbn. rewrite ledger_sum_app. rewrite <-Er, <-(ri_spent _ _ (inv_run _ H y Hin)).
    f_equal. unfold ledger_sum. cbn. rewrite Er. decide_eqs. lia.
Qed.
Lemma charged_once_witness :
  let args := mkAttemptCostArgs 1 "a" 1 "" "mock/m" None (Some JNull) "catalog" false false 500 0 None 12 in
  (ApplyAttemptCost args (Demo.after [OpApplyCost args])).1 = Fail (ErrUnique "cost_ledger_pkey").
Proof.
  intros args. set (d := Demo.after [OpApplyCost args]).
  destruct (find (is_run 1) (runs d)) as [y|] eqn:Hy; [|vm_compute in Hy; discriminate].
  assert (db_inv d) as H by (apply reachable_db_inv, Demo.after_reachable; vm_compute; reflexivity).
  pose proof (charged_once d args JNull y H Hy ltac:(done) ltac:(done) eq_refl ltac:(done) ltac:(done)) as P.
  assert (charged d args = true) as Hch by (vm_compute; reflexivity). rewrite Hch in P.
  destruct (ApplyAttemptCost args d). apply P.
Defined.

(** ** Approvals *)

Lemma decided_row d a ap y : db_inv d → find (is_approval (da_ID a)) (approvals d) = Some ap →
  ap_has ApprovalStatusPending ap = true →
  find (is_approval (da_ID a)) (approvals (apply_effect y (no_step (da_RunID a))
    (ap_effect (λ y, y) (λ p, is_approval (da_ID a) p && ap_has ApprovalStatusPending p)
       (decide_set a) [decide_event a]) d)) = Some (decide_set a ap).
Proof.
  intros H Hap Hp. cbn [approvals apply_effect ap_effect ef_aps]. unfold set_first.
  rewrite (update_first_keyed ap_ID is_approval is_approval_key) by (apply H || done). rewrite Hap, Hp.
  rewrite (find_set_row ap_ID is_approval is_approval_key) by done. by rewrite Hap.
Qed.

(** C15: a pending approval has one decision: DecideApproval on a pending row
    records it, and once a row is decided, expired or cancelled every decision
    is refused with the status that won, writing nothing. *)
Theorem approval_single_arbiter d a ap y : db_inv d → da_Now a ≠ 0 →
  find (is_run (da_RunID a)) (runs d) = Some y → decision_status (da_Status a) = true →
  find (is_approval (da_ID a)) (approvals d) = Some ap →
  let '(res, d') := DecideApproval a d in
  if ap_has ApprovalStatusPending ap
  then res = Ok (decide_set a ap) ∧ find (is_approval (da_ID a)) (approvals d') = Some (decide_set a ap) ∧
       (DecideApproval a d').1 = Fail (ErrApprovalNotPending (da_ID a) (da_Status a))
  else res = Fail (ErrApprovalNotPending (da_ID a) (ap_Status ap)) ∧ d' = d.
Proof.
  intros H Hnow Hy Hst Hap.
  pose proof (DecideApproval_guarded d (da_RunID a) y H Hy a ap Hnow eq_refl Hst Hap) as G. unfold guarded in G.
  destruct (ap_has ApprovalStatusPending ap) eqn:Hp; [|by rewrite G].
  destruct G as [-> S]. destruct (inv_readable_run d (da_RunID a) y H Hy) as (R & _).
  pose proof (decided_row d a ap y H Hap Hp) as Hap'.
  pose proof (ts_effect d y _ _ R S) as T. revert T Hap'. generalize (apply_effect y
    (no_step (da_RunID a)) (ap_effect (λ y, y) (λ p, is_approval (da_ID a) p && ap_has ApprovalStatusPending p)
       (decide_set a) [decide_event a]) d) as d'. intros d' T Hap'.
  pose proof (tx_step_inv d d' H T) as H'. destruct (tx_step_run d d' _ y H T Hy) as (y' & Hy' & _).
  split_and!; [done|done|].
  assert (ap_has ApprovalStatusPending (decide_set a ap) = false) as E.
  { apply bool_decide_eq_false. change (da_Status a ≠ ApprovalStatusPending). by destruct (da_Status a). }
  pose proof (DecideApproval_guarded d' (da_RunID a) y' H' Hy' a _ Hnow eq_refl Hst Hap') as G'.
  by rewrite (guarded_reject _ _ _ _ _ _ _ _ G' E).
Qed.
Module ApprovalDemo.
Definition row : ApprovalRow := mkApprovalRow 40 "ok?" "" None ["approve"; "reject"] false None None.
Definition waiting : DB := Demo.after [OpClaim 1 "a" 11 "" "w1" 7; OpAwaitHuman 1 "a" 7 row 12].
Lemma waiting_reachable : reachable waiting.
Proof. apply Demo.after_reachable. vm_compute. reflexivity. Qed.
Definition approve : DecideApprovalArgs :=
mkDecideApprovalArgs 40 1 "a" 1 ApprovalStatusApproved "approve" None None None "" "key-1" "human" 13.
End ApprovalDemo.
Lemma approval_single_arbiter_witness : ∃ ap,
  (DecideApproval ApprovalDemo.approve ApprovalDemo.waiting).1 = Ok (decide_set ApprovalDemo.approve ap).
Proof.
  destruct (find (is_run 1) (runs ApprovalDemo.waiting)) as [y|] eqn:Hy; [|vm_compute in Hy; discriminate].
  destruct (find (is_approval 40) (approvals ApprovalDemo.waiting)) as [ap|] eqn:Hap;
    [|vm_compute in Hap; discriminate].
  pose proof (approval_single_arbiter ApprovalDemo.waiting ApprovalDemo.approve ap y
    (reachable_db_inv _ ApprovalDemo.waiting_reachable) ltac:(done) Hy eq_refl Hap) as P.
  assert (ap_has ApprovalStatusPending ap = true) as Hp by (vm_compute in Hap; by injection Hap as <-).
  rewrite Hp in P. exists ap. destruct (DecideApproval _ _). apply P.
Defined.

(** ** Retry budgets *)

Definition counted_ok (o : AttemptOutcome) : bool :=
  bool_decide (o = AttemptOutcomeTransient) || bool_decide (o = AttemptOutcomeTimeout).
Definition validation_ok (o : AttemptOutcome) : bool := bool_decide (o = AttemptOutcomeValidationFailed).

Section budgets.
Context (d : DB) (r : uuid) (s : string) (y : Run) (x : RunStep).
Context (H : db_inv d) (Hy : find (is_run r) (runs d) = Some y)
(Hx : find (is_step r s) (run_steps d) = Some x) (Hf : in_flight (step_Status x) = true).

Lemma current_open a : find (current_attempt x) (step_attempts d) = Some a → att_Outcome a = None.
Proof.
destruct (find_step_inv _ _ _ _ Hx) as (Hin & _). intros [Ha Hk]%find_some.
apply current_attempt_true in Hk as [Hof Hn]. apply list_elem_of_In in Ha.
by apply (ai_open _ _ (inv_attempts _ H x Hin) a Ha Hof).
Qed.

(** Closing the current attempt without a dead letter counts its outcome once. *)
Lemma count_close ok o er u v rp now fr fs evs :
CountOutcomes ok r s (apply_effect y x
  (step_effect fr fs (AttClose (close_attempt o er u v rp now)) [] evs) d) =
CountOutcomes ok r s d + (if ok o then 1 else 0).
Proof.
destruct (find_step_inv _ _ _ _ Hx) as (Hin & Er & Es).
destruct (inv_current_attempt d x H Hin Hf) as [a Ha].
unfold CountOutcomes. cbn [dead_letters apply_effect step_effect ef_dls step_attempts ef_att apply_attempt].
rewrite app_nil_r.
rewrite (count_set_row att_key (λ k, is_attempt k.1.1 k.1.2 k.2) is_attempt_key _
  (step_RunID x, step_StepID x, step_AttemptCount x) _ _ a); [|apply H|exact Ha].
rewrite (current_open a Ha), andb_false_r.
apply find_some in Ha as [_ [[E1 E2]%att_of_true E3]%current_attempt_true].
destruct (inv_baseline _ H x Hin) as [_ B]. specialize (B Hf). unfold baseline in B.
rewrite Er, Es in B. cbn. rewrite E1, E2, E3, Er, Es. decide_eqs. cbn.
apply Z.ltb_lt in B. rewrite B, andb_true_r. lia.
Qed.

(** Dead-lettering moves the baseline to the attempt counter. *)
Lemma count_dead ok att fr fs evs dl :
is_dead_letter r s dl = true → dl_AttemptsAtDeath dl = step_AttemptCount x →
(∀ a, a ∈ apply_attempt x att (step_attempts d) → att_RunID a = r → att_StepID a = s →
      att_AttemptNo a ≤ step_AttemptCount x) →
CountOutcomes ok r s (apply_effect y x (step_effect fr fs att [dl] evs) d) = 0.
Proof.
intros Hdl Hn Hb. unfold CountOutcomes. apply count_zero, Forall_forall. intros a Ha.
apply not_true_iff_false. intros Hc.
apply andb_prop in Hc as [[[E1%bool_decide_eq_true E2%bool_decide_eq_true]%andb_prop _]%andb_prop
  Hlt%Z.ltb_lt].
specialize (Hb a Ha E1 E2). cbn in Hlt. rewrite max_dead_letter_app, max_dead_letter_one, Hdl, Hn in Hlt.
lia.
Qed.
End budgets.

(** the durable retry budgets: a RetryStep adds one counted failure, a
    SemanticRetryStep adds one validation failure and no counted failure, and
    a throttle, a lost claim (takeover) or a budget park adds neither; a
    dead-lettering resets both, so a requeued step starts with a full budget. *)
Theorem retry_budgets d r s c now next y x : db_inv d →
  find (is_run r) (runs d) = Some y → find (is_step r s) (run_steps d) = Some x →
  fenced c x = true → now ≠ 0 → next ≠ 0 →
  let counted d := CountOutcomes counted_ok r s d in
  let semantic d := CountOutcomes validation_ok r s d in
  (∀ o err u, counted_ok o = true →
     let d' := (RetryStep r s c o err u next now d).2 in
     counted d' = counted d + 1 ∧ semantic d' = semantic d) ∧
  (∀ err u v rp fb sa ma ic,
     let d' := (SemanticRetryStep r s c err u v rp fb sa ma ic next now d).2 in
     counted d' = counted d ∧ semantic d' = semantic d + 1) ∧
  (∀ res b ra, let d' := (ThrottleStep r s c res b ra next now d).2 in
     counted d' = counted d ∧ semantic d' = semantic d) ∧
  (let d' := (TakeoverStep r s c now d).2 in counted d' = counted d ∧ semantic d' = semantic d) ∧
  (∀ ev, let d' := (BudgetParkStep r s c ev now d).2 in
     counted d' = counted d ∧ semantic d' = semantic d) ∧
  (∀ src o err u v rp, src ≠ DeadLetterSourcePoison → dead_letter_class_ok (Some o) = true →
     let d' := (DeadLetterStep r s c src (Some o) err u v rp now d).2 in
     counted d' = 0 ∧ semantic d' = 0).
Proof.
  intros H Hy Hx Hc Hnow Hnext counted semantic.
  assert (in_flight (step_Status x) = true) as Hf by (apply fenced_true in Hc as [-> _]; done).
  pose proof (λ ok o er u v rp n fr fs evs, count_close d r s y x H Hx Hf ok o er u v rp n fr fs evs) as CC.
  split_and!.
  - intros o err u Ho.
    assert (o = AttemptOutcomeTransient ∨ o = AttemptOutcomeTimeout) as Ho'
      by (apply orb_prop in Ho as [?%bool_decide_eq_true|?%bool_decide_eq_true]; auto).
    destruct (guarded_accept _ _ _ _ _ _ _ _ (RetryStep_guarded d r s y x H Hy Hx c o err u next now
      Hnow Hnext Ho') Hc) as [-> _]. unfold counted, semantic. cbn [snd]. rewrite !CC, Ho.
    by destruct Ho' as [-> | ->]; rewrite Z.add_0_r.
  - intros err u v rp fb sa ma ic.
    destruct (guarded_accept _ _ _ _ _ _ _ _ (SemanticRetryStep_guarded d r s y x H Hy Hx c err u v rp fb
      sa ma ic next now Hnow Hnext) Hc) as [-> _]. unfold counted, semantic. cbn [snd]. rewrite !CC.
    by rewrite Z.add_0_r.
  - intros res b ra.
    destruct (guarded_accept _ _ _ _ _ _ _ _ (ThrottleStep_guarded d r s y x H Hy Hx c res b ra next now
      Hnow Hnext) Hc) as [-> _]. unfold counted, semantic. cbn [snd]. rewrite !CC. by rewrite !Z.add_0_r.
  - destruct (guarded_accept _ _ _ _ _ _ _ _ (TakeoverStep_guarded d r s y x H Hy Hx c now Hnow) Hc)
      as [-> _]. unfold counted, semantic. cbn [snd]. rewrite !CC. by rewrite !Z.add_0_r.
  - intros ev. destruct (guarded_accept _ _ _ _ _ _ _ _ (BudgetParkStep_guarded d r s y x H Hy Hx c ev now
      Hnow) Hc) as [-> _]. unfold counted, semantic. cbn [snd]. rewrite !CC. by rewrite !Z.add_0_r.
  - intros src o err u v rp Hsrc Hcl.
    destruct (guarded_accept _ _ _ _ _ _ _ _ (DeadLetterStep_guarded d r s y x H Hy Hx c src o err u v rp
      now Hnow Hsrc Hcl) Hc) as [-> _]. unfold counted, semantic. cbn [snd].
    destruct (find_step_inv _ _ _ _ Hx) as (Hin & Er & Es).
    assert (∀ f a, a ∈ set_row (current_attempt x) (close_attempt o err u v rp f) (step_attempts d) →
      att_RunID a = r → att_StepID a = s → att_AttemptNo a ≤ step_AttemptCount x) as Hb.
    { intros f a [(b & Hb & [_ Hn]%current_attempt_true & ->)|[Ha _]]%elem_of_closed E1 E2; [by cbn; rewrite Hn|].
      apply (ai_bounded _ _ (inv_attempts _ H x Hin) a Ha). apply att_of_true. by rewrite Er, Es. }
    split; (apply (count_dead d r s y x);
      [unfold is_dead_letter; cbn; rewrite Er, Es; by decide_eqs|done|apply Hb]).
Qed.
Lemma retry_budgets_witness :
  CountOutcomes counted_ok 1 "a"
    (RetryStep 1 "a" 7 AttemptOutcomeTimeout None None 15 12 Demo.claimed).2 =
  CountOutcomes counted_ok 1 "a" Demo.claimed + 1.
Proof.
  destruct (find (is_run 1) (runs Demo.claimed)) as [y|] eqn:Hy; [|vm_compute in Hy; discriminate].
  destruct (find (is_step 1 "a") (run_steps Demo.claimed)) as [x|] eqn:Hx; [|vm_compute in Hx; discriminate].
  assert (fenced 7 x = true) as Hf by (vm_compute in Hx; by injection Hx as <-).
  destruct (retry_budgets Demo.claimed 1 "a" 7 12 15 y x (reachable_db_inv _ Demo.claimed_reachable)
    Hy Hx Hf ltac:(lia) ltac:(lia)) as [P _].
  by destruct (P AttemptOutcomeTimeout None None eq_refl) as [E _].
Defined.
