(* ===== verification/EngineInv.v ===== *)
(** The engine's transactions as sequences of store transitions: every
    successful execution of a [..Tx] body of Engine is a sequence of steps of
    the store, so the store's invariant and everything proved of single steps
    hold across the engine. *)
From stdpp Require Import relations.
From S2P Require Import Prelude Retry StoreModel Transitions Effects StoreInv StoreSpecs EdgeSpecs StoreSystem StoreTheorems Config Dag Engine.
Open Scope Z_scope.

(** ** Combinators *)

Lemma sequenced_lift {A} (x : Err + A) : sequenced (lift x).
Proof. destruct x; [apply sequenced_throw|apply sequenced_ret]. Qed.

(** A conflict of a transition is dropped only when nothing was written. *)
Lemma sequenced_drop {A} (m : Tx A) : transition m → sequenced (drop_conflict m).
Proof.
  intros T. apply (sequenced_tolerate m (λ a, ret (Some a)) _ T); intros.
  - apply sequenced_ret.
  - rewrite H. apply sequenced_ret.
  - rewrite H. by do 2 eexists.
Qed.

Lemma fence_ok {A} (m : Tx A) d a d' : fence m d = (Ok a, d') ↔ m d = (Ok a, d').
Proof.
  unfold fence, bind, attempt. destruct (m d) as [[b|e] d1]; [done|]. split; [by destruct e|done].
Qed.

Lemma sequenced_fence {A} (m : Tx A) : sequenced m → sequenced (fence m).
Proof. intros S d a d' H E. apply (S d a d' H). by apply fence_ok. Qed.

Lemma sequenced_when {A} (o : option A) f : (∀ a, sequenced (f a)) → sequenced (when_some o f).
Proof. intros H. destruct o; [apply H|apply sequenced_ret]. Qed.

Lemma sequenced_LockRunStatus r now : sequenced (LockRunStatus r now).
Proof.
  unfold LockRunStatus. apply sequenced_bind; [apply reads_sequenced, transitionQueries_reads|intros _].
  apply sequenced_bind; [|intros; apply sequenced_ret]. apply reads_sequenced. intros d.
  unfold lockRun. apply GetRun_reads.
Qed.

(** ** Reads *)

Lemma sequenced_read {A} (f : DB → A) : sequenced (let! d := get in ret (f d)).
Proof. apply sequenced_bind; [apply sequenced_get|intros; apply sequenced_ret]. Qed.

Lemma sequenced_GetRun r : sequenced (GetRun r).
Proof. apply reads_sequenced, GetRun_reads. Qed.

Lemma sequenced_ListByRun r : sequenced (ListByRun r).
Proof. apply sequenced_read. Qed.
Lemma sequenced_ListEdgesByRun r : sequenced (ListEdgesByRun r).
Proof. apply sequenced_read. Qed.
Lemma sequenced_ListEdgesFromStep r s : sequenced (ListEdgesFromStep r s).
Proof. apply sequenced_read. Qed.
Lemma sequenced_ListReadyWithoutOutbox r : sequenced (ListReadyWithoutOutbox r).
Proof. apply sequenced_read. Qed.
Lemma sequenced_CountCountedFailures r s : sequenced (CountCountedFailures r s).
Proof. apply sequenced_read. Qed.
Lemma sequenced_CountValidationFailures r s : sequenced (CountValidationFailures r s).
Proof. apply sequenced_read. Qed.

Create HintDb seq.
#[export] Hint Resolve sequenced_ret sequenced_throw sequenced_get sequenced_lift sequenced_guard
  sequenced_LockRunStatus sequenced_GetRun sequenced_ListByRun sequenced_ListEdgesByRun
  sequenced_ListEdgesFromStep sequenced_ListReadyWithoutOutbox sequenced_CountCountedFailures
  sequenced_CountValidationFailures : seq.

(** Decompose a transaction body along its binds, branches and loops; the leaves
    are reads and guarded transitions. *)
Ltac sequence := repeat first
  [ solve [eauto with seq nocore]
  | apply transition_sequenced; solve [auto with loom]
  | simple apply sequenced_bind; [|intros]
  | apply sequenced_for_each; intros
  | apply sequenced_drop; solve [auto with loom]
  | apply sequenced_fence
  | apply sequenced_when; intros
  | match goal with |- sequenced (match ?x with _ => _ end) => destruct x end ].

(** ** The building blocks *)

Lemma sequenced_resolve_verdicts r now vs : ∀ work res, sequenced (resolve_verdicts r now vs work res).
Proof. induction vs as [|[o f] vs IH]; intros; cbn [resolve_verdicts]; sequence; apply IH. Qed.

Lemma sequenced_fan_loop r now fuel : ∀ work res, sequenced (fan_loop r now fuel work res).
Proof.
  induction fuel as [|fuel IH]; intros [|vs work] res; cbn [fan_loop]; sequence;
    auto using sequenced_resolve_verdicts.
Qed.

Lemma sequenced_fanOut r now seed : sequenced (fanOut r now seed).
Proof. unfold fanOut. sequence. apply sequenced_fan_loop. Qed.

Lemma sequenced_attemptCancelRollup r now : sequenced (attemptCancelRollup r now).
Proof. unfold attemptCancelRollup. sequence. Qed.

Lemma sequenced_attemptRunRollup r now : sequenced (attemptRunRollup r now).
Proof. unfold attemptRunRollup. sequence. Qed.

Lemma sequenced_deadLetterDisposition f r now : sequenced (deadLetterDisposition f r now).
Proof. unfold deadLetterDisposition. sequence. Qed.

Lemma sequenced_applyCostRows rows : sequenced (applyCostRows rows).
Proof. unfold applyCostRows. sequence. Qed.

Lemma sequenced_enqueue r ids reason tr : sequenced (enqueue r ids reason tr).
Proof. unfold enqueue. sequence. Qed.

Lemma sequenced_settleCancelled r s c err now : sequenced (settleCancelled r s c err now).
Proof. unfold settleCancelled. sequence. Qed.

Lemma sequenced_record r p now : sequenced (transitionQueries now ;; appendEvent r p).
Proof. sequence. Qed.

#[export] Hint Resolve sequenced_fanOut sequenced_attemptCancelRollup sequenced_attemptRunRollup
  sequenced_deadLetterDisposition sequenced_applyCostRows sequenced_enqueue
  sequenced_settleCancelled sequenced_record : seq.

Lemma sequenced_sweep r now steps : sequenced (sweep r now steps).
Proof. induction steps; cbn [sweep]; unfold sweep_step; sequence. Qed.
#[export] Hint Resolve sequenced_sweep : seq.

(** ** The transactions *)
Section transactions.
Context (evalWhen : string → option json → option json → option bool).
Context (retryDelay : ResolvedRetryPolicy → Z → option Z).
Implicit Types (c : Completion) (now : time).

Lemma sequenced_advance r s ty out params tr now :
  sequenced (advance_successors evalWhen r s ty out params tr now).
Proof. unfold advance_successors. sequence. Qed.
#[local] Hint Resolve sequenced_advance : seq.

Lemma completeSuccessTx_sequenced c params now : sequenced (completeSuccessTx evalWhen c params now).
Proof. unfold completeSuccessTx. sequence. Qed.

Lemma retryRoute_sequenced c class now : sequenced (retryRoute retryDelay c class now).
Proof. unfold retryRoute. sequence. Qed.
#[local] Hint Resolve retryRoute_sequenced : seq.

Lemma completeFailureTx_sequenced c class payload collect params now :
  sequenced (completeFailureTx evalWhen retryDelay c class payload collect params now).
Proof. unfold completeFailureTx. sequence. Qed.

Lemma validation_dead_letter_sequenced c report n now : sequenced (validation_dead_letter c report n now).
Proof. unfold validation_dead_letter. sequence. Qed.
#[local] Hint Resolve validation_dead_letter_sequenced : seq.

Lemma completeValidationFailureTx_sequenced c payload m feedback report n now :
  sequenced (completeValidationFailureTx c payload m feedback report n now).
Proof. unfold completeValidationFailureTx. sequence. Qed.

Lemma completeThrottleTx_sequenced c res b ra fireAt now :
  sequenced (completeThrottleTx c res b ra fireAt now).
Proof. unfold completeThrottleTx. sequence. Qed.

Lemma completeBudgetParkTx_sequenced c ev now : sequenced (completeBudgetParkTx c ev now).
Proof. unfold completeBudgetParkTx. sequence. Qed.

Lemma completeAwaitHumanTx_sequenced c a now : sequenced (completeAwaitHumanTx c a now).
Proof. unfold completeAwaitHumanTx. sequence. Qed.

Lemma poisonTx_sequenced r s f summary payload now : sequenced (poisonTx r s f summary payload now).
Proof. unfold poisonTx. sequence. Qed.

Lemma requeueTx_sequenced r s now : sequenced (requeueTx r s now).
Proof. unfold requeueTx. sequence. Qed.

Lemma cancelRunTx_sequenced r reason now : sequenced (cancelRunTx r reason now).
Proof. unfold cancelRunTx. sequence. Qed.

Lemma healCancellingStep_sequenced r s (c : uuid) now : sequenced (healCancellingStep r s c now).
Proof. unfold healCancellingStep. sequence. Qed.

Lemma unparkTx_sequenced r now : sequenced (unparkTx r now).
Proof. unfold unparkTx. sequence. Qed.

Lemma decideTx_sequenced ap step run onReject req output now :
  sequenced (decideTx evalWhen ap step run onReject req output now).
Proof. unfold decideTx, decideDeadLetter, decideSucceed. sequence. Qed.

Lemma takeoverAndClaimTx_sequenced r s h now sp w (c : uuid) :
  sequenced (takeoverAndClaimTx r s h now sp w c).
Proof.
  intros d a d' H. unfold takeoverAndClaimTx, bind, attempt.
  pose proof (TakeoverStep_transition r s h now d H) as T.
  pose proof (ClaimStepWithOrigin_transition r s now sp w c) as C%transition_sequenced.
  destruct (TakeoverStep r s h now d) as [x d1]. inversion T as [e|b d2 Hs|b|e d2 Hc]; subst.
  - destruct e; try done. destruct (_ && _); [|done]. by apply C.
  - intros E. etrans; [by apply rtc_once|]. eapply C; [by eapply tx_step_inv|done].
  - by apply C.
  - destruct e; done.
Qed.
End transactions.

(** ** The park policy of an approval timeout *)

(** The update of an approval row alone is a step of the store. *)
Lemma update_approval_step d r run p (f : Approval → Approval) : db_inv d →
  find (is_run r) (runs d) = Some run → (∀ a, ap_ID (f a) = ap_ID a) →
  tx_step d (apply_effect run (no_step r) (ap_effect (λ y, y) p f []) d).
Proof.
  intros H Hrun Hf. apply ts_effect; [by apply (run_read d r)|].
  run_sound; cbn; by rewrite set_first_ids.
Qed.

Lemma ExpireApprovalPark_sequenced i r s n t now : sequenced (ExpireApprovalPark i r s n t now).
Proof.
  intros d a d' H. unfold ExpireApprovalPark, bind at 1 2.
  destruct (transitionQueries now d) as [[[]|e] d1] eqn:E1; [|done].
  pose proof (transitionQueries_reads now d) as R. rewrite E1 in R. cbn in R. subst d1.
  unfold lockRun. rewrite GetRun_eval. destruct (find (is_run r) (runs d)) as [run|] eqn:Hrun; [|done].
  unfold bind at 1. rewrite (run_update_approval d r run) by done.
  destruct (find _ (approvals d)) as [ap|].
  - intros E. set (d1 := apply_effect _ _ _ _) in E.
    assert (tx_step d d1) as Hs by by apply update_approval_step.
    etrans; [by apply rtc_once|]. revert E. apply (tx_step_inv _ _ H) in Hs.
    match goal with |- ?m d1 = _ → _ => enough (sequenced m) as S by by apply S end. sequence.
  - match goal with |- ?m d = _ → _ => enough (sequenced m) as S by by apply S end.
    unfold GetApproval. sequence.
Qed.
