(* ===== verification/Moves.v ===== *)
(** What a successful transition changes of the rows the engine's graph logic
    reads: one step row's status, the run row's status, nothing else. *)
From stdpp Require Import relations.
From S2P Require Import Prelude Retry StoreModel Transitions Effects StoreInv StoreSpecs EdgeSpecs StoreSystem StoreTheorems.
Open Scope Z_scope.

(** ** Rows *)
Definition row (d : DB) (r : uuid) (s : string) : option RunStep := find (is_step r s) (run_steps d).
Definition run_at (d : DB) (r : uuid) : option Run := find (is_run r) (runs d).

Lemma row_key d r s x : row d r s = Some x → step_RunID x = r ∧ step_StepID x = s.
Proof.
  intros [_ Hk]%(find_key_Some step_key (λ k, is_step k.1 k.2) is_step_key (r, s)).
  by injection Hk.
Qed.
Lemma row_elem d r s x : row d r s = Some x → x ∈ run_steps d.
Proof. by intros [? _]%(find_key_Some step_key (λ k, is_step k.1 k.2) is_step_key (r, s)). Qed.
Lemma elem_row d x : db_inv d → x ∈ run_steps d → row d (step_RunID x) (step_StepID x) = Some x.
Proof.
  intros H Hx. unfold row.
  by apply (find_key step_key (λ k, is_step k.1 k.2) is_step_key); [apply H|].
Qed.
Lemma run_row_key d r y : run_at d r = Some y → run_ID y = r.
Proof. by intros [_ ?]%(find_key_Some run_ID is_run is_run_key). Qed.

(** The columns instantiation fixes, and the dependency counters. *)
Record same_kind (x x' : RunStep) : Prop := mkSameKind {
  sk_key : step_key x' = step_key x;
  sk_type : step_StepType x' = step_StepType x;
  sk_config : step_Config x' = step_Config x;
  sk_remaining : step_RemainingDeps x' = step_RemainingDeps x;
  sk_fired : step_FiredDeps x' = step_FiredDeps x;
  sk_envelope : step_Envelope x' = step_Envelope x
}.
Lemma same_kind_refl x : same_kind x x.
Proof. by split. Qed.

(** [d'] is [d] with the run row of [r] replaced. *)
Record run_changes (r : uuid) (run run' : Run) (d d' : DB) : Prop := mkRunChanges {
  rch_run : run_at d r = Some run;
  rch_run' : run_at d' r = Some run';
  rch_runs : ∀ r', r' ≠ r → run_at d' r' = run_at d r';
  rch_edges : run_edges d' = run_edges d;
  rch_on_failure : run_OnFailure run' = run_OnFailure run;
  rch_step : tx_step d d'
}.

(** ... and the step row of [(r, s)]. *)
Record changes (r : uuid) (s : string) (x x' : RunStep) (run run' : Run) (d d' : DB) : Prop := mkChanges {
  ch_run : run_changes r run run' d d';
  ch_row : row d r s = Some x;
  ch_row' : row d' r s = Some x';
  ch_rows : ∀ r' s', (r', s') ≠ (r, s) → row d' r' s' = row d r' s';
  ch_kind : same_kind x x'
}.

Definition step_moves (r : uuid) (s : string) (P : RunStep → StepStatus → Prop)
    (Q : RunStatus → RunStatus → Prop) (d d' : DB) : Prop :=
  ∃ x x' run run', changes r s x x' run run' d d' ∧ P x (step_Status x') ∧
    Q (run_Status run) (run_Status run').
Definition run_moves (r : uuid) (Q : Run → RunStatus → Prop) (d d' : DB) : Prop :=
  ∃ run run', run_changes r run run' d d' ∧ run_steps d' = run_steps d ∧ Q run (run_Status run').

(** A successful outcome satisfies [R]. *)
Definition on_ok {A} (R : DB → Prop) (o : result A * DB) : Prop :=
  match o with (Ok _, d') => R d' | (Fail _, _) => True end.
Lemma on_ok_elim {A} (R : DB → Prop) (m : Tx A) d a d' : on_ok R (m d) → m d = (Ok a, d') → R d'.
Proof. by intros H E; rewrite E in H. Qed.

Lemma effect_run_changes d r run x e : db_inv d → run_at d r = Some run → sound d run x e →
  run_changes r run (advance (Z.of_nat (length (ef_events e))) (ef_run e run)) d (apply_effect run x e d).
Proof.
  intros H Hrun S. assert (readable d run) as R by by apply (run_read d r).
  pose proof (run_row_key _ _ _ Hrun) as <-. split; [done| | |done| |by apply ts_effect].
  - apply (find_run_effect d run x R). apply S.
  - intros r' Hne. unfold run_at. cbn.
    rewrite (find_set_row_ne run_ID is_run is_run_key); [done| |done].
    intros w. cbn. apply (so_rows _ _ _ _ S).
  - cbn. apply (so_run_static _ _ _ _ S).
Qed.

Lemma effect_changes d r s run x e : db_inv d → run_at d r = Some run → row d r s = Some x →
  sound d run x e →
  changes r s x (ef_step e x) run (advance (Z.of_nat (length (ef_events e))) (ef_run e run)) d
    (apply_effect run x e d).
Proof.
  intros H Hrun Hrow S. destruct (row_key _ _ _ _ Hrow) as [<- <-].
  pose proof (so_static _ _ _ _ S x) as (Hty & Hcf & Hev). pose proof (so_deps _ _ _ _ S) as [Hr Hf].
  split; [by apply effect_run_changes|done| | |by split; try apply (so_rows _ _ _ _ S)].
  - apply find_step_effect; [done|apply S].
  - intros r' s' Hne. unfold row. cbn.
    rewrite (find_set_row_ne step_key (λ k, is_step k.1 k.2) is_step_key
      (step_RunID x, step_StepID x) (r', s')); [done|apply (so_rows _ _ _ _ S)|done].
Qed.

Lemma guarded_moves {A} d r s run x (m : Tx A) g res e err P Q :
  db_inv d → run_at d r = Some run → row d r s = Some x → guarded d run x m g res e err →
  (g = true → P x (step_Status (ef_step e x)) ∧ Q (run_Status run) (run_Status (ef_run e run))) →
  on_ok (step_moves r s P Q d) (m d).
Proof.
  unfold guarded. intros H Hrun Hrow G HPQ. destruct g; [|by rewrite G].
  destruct G as [-> S]. destruct (HPQ eq_refl) as [HP HQ]. cbn.
  by eexists _, _, _, _; split; [apply effect_changes|].
Qed.

Lemma guarded_run_moves {A} d r run x (m : Tx A) g res e err (Q : Run → RunStatus → Prop) :
  db_inv d → run_at d r = Some run → guarded d run x m g res e err → (∀ y, ef_step e y = y) →
  (g = true → Q run (run_Status (ef_run e run))) → on_ok (run_moves r Q d) (m d).
Proof.
  unfold guarded. intros H Hrun G Hid HQ. destruct g; [|by rewrite G].
  destruct G as [-> S]. cbn. eexists _, _. split; [by apply effect_run_changes|]. split; [|by apply HQ].
  cbn. by apply set_row_id.
Qed.

(** The run keeps its status. *)
Abbreviation run_kept := (@eq RunStatus).
Definition move (from : StepStatus → bool) (to : StepStatus) (x : RunStep) (st' : StepStatus) : Prop :=
  from (step_Status x) = true ∧ st' = to.


Definition is_status (st st' : StepStatus) : bool := bool_decide (st' = st).
Definition is_running := is_status StepStatusRunning.
Definition is_waiting (st : StepStatus) : bool :=
  match st with StepStatusReady | StepStatusRetrying => true | _ => false end.
Definition is_cancellable (st : StepStatus) : bool :=
  match st with StepStatusPending | StepStatusReady | StepStatusRetrying => true | _ => false end.
Definition is_poisonable (st : StepStatus) : bool :=
  match st with
  | StepStatusPending | StepStatusReady | StepStatusRunning | StepStatusRetrying => true | _ => false end.

(** The status facts of an accepted guard. *)
Ltac row_guard :=
  let Hg := fresh "Hg" in intros Hg; split; [|try done];
  match goal with |- move _ _ ?x _ => guard_cases Hg; (split; [match goal with E : step_Status x = _ |- _ => by rewrite E end|done])
  | |- _ => idtac end.
Ltac step_move L := eapply guarded_moves; [done|done|done|by apply L|row_guard].

Section step_moves.
Context (r : uuid) (s : string) (d : DB) (H : db_inv d).
Implicit Types (now : time) (c : uuid) (err u v rp out : option json).

Lemma SucceedStep_moves c out u v rp now :
on_ok (step_moves r s (move is_running StepStatusSucceeded) run_kept d) (SucceedStep r s c out u v rp now d).
Proof.
refuse_now now. unfold SucceedStep. refuse_run r d Hrun. refuse_step r s d Hrun Hstep.
step_move SucceedStep_guarded.
Qed.

Lemma TakeoverStep_moves c now :
on_ok (step_moves r s (move is_running StepStatusReady) run_kept d) (TakeoverStep r s c now d).
Proof.
refuse_now now. unfold TakeoverStep. refuse_run r d Hrun. refuse_step r s d Hrun Hstep.
step_move TakeoverStep_guarded.
Qed.

Lemma RequeueStep_moves  now :
on_ok (step_moves r s (move (is_status StepStatusDeadLettered) StepStatusReady) run_kept d) (RequeueStep r s  now d).
Proof.
refuse_now now. unfold RequeueStep. refuse_run r d Hrun. refuse_step r s d Hrun Hstep.
step_move RequeueStep_guarded.
Qed.

Lemma SucceedAwaitingHumanStep_moves out now :
on_ok (step_moves r s (move (is_status StepStatusAwaitingHuman) StepStatusSucceeded) run_kept d) (SucceedAwaitingHumanStep r s out now d).
Proof.
refuse_now now. unfold SucceedAwaitingHumanStep. refuse_run r d Hrun. refuse_step r s d Hrun Hstep.
step_move SucceedAwaitingHumanStep_guarded.
Qed.

Lemma DeadLetterAwaitingHumanStep_moves err now :
on_ok (step_moves r s (move (is_status StepStatusAwaitingHuman) StepStatusDeadLettered) run_kept d) (DeadLetterAwaitingHumanStep r s err now d).
Proof.
refuse_now now. unfold DeadLetterAwaitingHumanStep. refuse_run r d Hrun. refuse_step r s d Hrun Hstep.
step_move DeadLetterAwaitingHumanStep_guarded.
Qed.

Lemma PoisonDeadLetterStep_moves err pl now :
on_ok (step_moves r s (move is_poisonable StepStatusDeadLettered) run_kept d) (PoisonDeadLetterStep r s err pl now d).
Proof.
refuse_now now. unfold PoisonDeadLetterStep. refuse_run r d Hrun. refuse_step r s d Hrun Hstep.
step_move PoisonDeadLetterStep_guarded.
Qed.

Lemma CancelStep_moves reason now :
on_ok (step_moves r s (move is_cancellable StepStatusCancelled) run_kept d) (CancelStep r s reason now d).
Proof.
refuse_now now. unfold CancelStep. refuse_arg (reason = ""). refuse_run r d Hrun. refuse_step r s d Hrun Hstep.
step_move CancelStep_guarded.
Qed.

Lemma CancelAwaitingHumanStep_moves reason now :
on_ok (step_moves r s (move (is_status StepStatusAwaitingHuman) StepStatusCancelled) run_kept d) (CancelAwaitingHumanStep r s reason now d).
Proof.
refuse_now now. unfold CancelAwaitingHumanStep. refuse_arg (reason = ""). refuse_run r d Hrun. refuse_step r s d Hrun Hstep.
step_move CancelAwaitingHumanStep_guarded.
Qed.

Lemma ReviveStep_moves reason now :
on_ok (step_moves r s (move (is_status StepStatusCancelled) StepStatusPending) run_kept d) (ReviveStep r s reason now d).
Proof.
refuse_now now. unfold ReviveStep. refuse_arg (reason = ""). refuse_run r d Hrun. refuse_step r s d Hrun Hstep.
step_move ReviveStep_guarded.
Qed.

Lemma ThrottleStep_moves c resource bucket ra next now :
on_ok (step_moves r s (move is_running StepStatusRetrying) run_kept d) (ThrottleStep r s c resource bucket ra next now d).
Proof.
refuse_now now. unfold ThrottleStep. refuse_zero next. refuse_run r d Hrun. refuse_step r s d Hrun Hstep.
step_move ThrottleStep_guarded.
Qed.

Lemma SemanticRetryStep_moves c err u v rp fb sa ma ic next now :
on_ok (step_moves r s (move is_running StepStatusRetrying) run_kept d) (SemanticRetryStep r s c err u v rp fb sa ma ic next now d).
Proof.
refuse_now now. unfold SemanticRetryStep. refuse_zero next. refuse_run r d Hrun. refuse_step r s d Hrun Hstep.
step_move SemanticRetryStep_guarded.
Qed.

Lemma CancelRunningStep_moves c reason err now :
on_ok (step_moves r s (move is_running StepStatusCancelled) run_kept d) (CancelRunningStep r s c reason err now d).
Proof.
refuse_now now. unfold CancelRunningStep. refuse_arg (reason = ""). refuse_run r d Hrun. refuse_step r s d Hrun Hstep.
step_move CancelRunningStep_guarded.
Qed.

Lemma ReadyStep_moves joinAny now :
on_ok (step_moves r s (move (is_status StepStatusPending) StepStatusReady) run_kept d) (ReadyStep r s joinAny now d).
Proof.
refuse_now now. unfold ReadyStep. refuse_run r d Hrun. refuse_step r s d Hrun Hstep.
step_move ReadyStep_guarded.
Qed.

Lemma SkipStep_moves now :
on_ok (step_moves r s (move (is_status StepStatusPending) StepStatusSkipped) run_kept d) (SkipStep r s now d).
Proof.
refuse_now now. unfold SkipStep. refuse_run r d Hrun. refuse_step r s d Hrun Hstep.
step_move SkipStep_guarded.
Qed.

Lemma CollectFailStep_moves c o out err u now :
on_ok (step_moves r s (move is_running StepStatusCollected) run_kept d) (CollectFailStep r s c o out err u now d).
Proof.
refuse_now now. unfold CollectFailStep. destruct o; [|unfold bind; by rewrite now_ok by done].
refuse_run r d Hrun. refuse_step r s d Hrun Hstep. step_move CollectFailStep_guarded.
Qed.

(** The budget park releases the claim and parks a running run. *)
Lemma BudgetParkStep_moves c ev now :
on_ok (step_moves r s (move is_running StepStatusReady)
         (λ st st', st' = if bool_decide (st = RunStatusRunning) then RunStatusParked else st) d)
  (BudgetParkStep r s c ev now d).
Proof.
refuse_now now. unfold BudgetParkStep. refuse_run r d Hrun. refuse_step r s d Hrun Hstep.
eapply guarded_moves; [done|done|done|by apply BudgetParkStep_guarded|]. row_guard.
cbn. unfold run_has. by destruct (bool_decide _).
Qed.

Lemma RetryStep_moves c o err u next now :
on_ok (step_moves r s (move is_running StepStatusRetrying) run_kept d) (RetryStep r s c o err u next now d).
Proof.
refuse_now now.
destruct (bool_decide (o = AttemptOutcomeTransient) || bool_decide (o = AttemptOutcomeTimeout)) eqn:Ho;
  [|unfold RetryStep, bind, guard; by rewrite now_ok, Ho by done].
assert (o = AttemptOutcomeTransient ∨ o = AttemptOutcomeTimeout) as Ho'.
{ apply orb_prop in Ho as [?%bool_decide_eq_true|?%bool_decide_eq_true]; auto. }
destruct (decide (next = 0)) as [->|Hz];
  [unfold RetryStep, bind, guard; by rewrite now_ok, Ho by done|].
pose proof (proj2 (Z.eqb_neq next 0) Hz) as Hz'. unfold RetryStep.
destruct (run_at d r) as [run|] eqn:Hrun;
  [|unfold bind, guard, lockRun; rewrite now_ok, Ho, Hz' by done; cbn [negb ret];
    unfold run_at in Hrun; by rewrite GetRun_eval, Hrun].
destruct (row d r s) as [x|] eqn:Hstep;
  [|unfold row, run_at in *; unfold stepConflict, bind, guard; rewrite now_ok, Ho, Hz' by done; cbn [negb ret];
    erewrite lockRun_ok by done; rewrite update_step_eval by (done || apply H);
    by rewrite Hstep, GetRunStep_eval, Hstep].
step_move RetryStep_guarded.
Qed.

Lemma DeadLetterStep_moves c src o err u v rp now :
on_ok (step_moves r s (move is_running StepStatusDeadLettered) run_kept d)
  (DeadLetterStep r s c src o err u v rp now d).
Proof.
destruct (DeadLetterStep r s c src o err u v rp now d) as [[a|e] d'] eqn:E; [|done].
rewrite <-E. revert E. destruct (decide (now = 0)) as [->|]; [done|].
destruct o as [class|]; [|unfold DeadLetterStep, bind; by rewrite now_ok by done].
destruct (decide (src = DeadLetterSourcePoison)) as [->|Hsrc];
  [unfold DeadLetterStep, bind; by rewrite now_ok by done|].
assert (bool_decide (src = DeadLetterSourceRetriesExhausted) ||
        bool_decide (src = DeadLetterSourcePermanent) = true) as Hs by by destruct src.
destruct (run_at d r) as [run|] eqn:Hrun; unfold run_at in Hrun;
  [|unfold DeadLetterStep, bind, guard, lockRun; rewrite now_ok, Hs by done; cbn [ret];
    by rewrite GetRun_eval, Hrun].
destruct (row d r s) as [x|] eqn:Hstep; unfold row in Hstep;
  [|unfold DeadLetterStep, stepConflict, bind, guard; rewrite now_ok, Hs by done; cbn [ret];
    erewrite lockRun_ok by done; rewrite update_step_eval by (done || apply H);
    by rewrite Hstep, GetRunStep_eval, Hstep].
destruct (dead_letter_class_ok (Some class)) eqn:Hc; [intros _; step_move DeadLetterStep_guarded|].
unfold DeadLetterStep, bind, guard. rewrite now_ok, Hs by done. cbn [ret]. do 2 step_eval.
destruct (fenced c x) eqn:Hg; [|by step_eval]. guard_cases Hg. do 2 step_eval.
unfold CreateDeadLetter, bind, guard, get. by rewrite Hc.
Qed.

Lemma ClaimStepWithOrigin_moves now sp w c :
on_ok (step_moves r s (move is_waiting StepStatusRunning)
         (λ st st', st = RunStatusRunning ∧ st' = RunStatusRunning) d) (ClaimStepWithOrigin r s now sp w c d).
Proof.
refuse_now now. unfold ClaimStepWithOrigin. refuse_run r d Hrun.
destruct (find (is_step r s) (run_steps d)) as [x|] eqn:Hstep.
- eapply guarded_moves; [done|done|done|by apply ClaimStepWithOrigin_guarded|].
  intros [Hr%bool_decide_eq_true Hg]%andb_prop. split; [|done]. guard_cases Hg; (split; [by rewrite Hst|done]).
- unfold stepConflict, bind, attempt. rewrite now_ok by done. erewrite lockRun_ok by done.
  destruct (negb _); rewrite GetRunStep_eval, Hstep; [done|].
  rewrite update_step_eval by (done || apply H). by rewrite Hstep, GetRunStep_eval, Hstep.
Qed.

Lemma AwaitHumanStep_moves c a now :
on_ok (step_moves r s (move is_running StepStatusAwaitingHuman) run_kept d) (AwaitHumanStep r s c a now d).
Proof.
refuse_now now. unfold AwaitHumanStep. refuse_run r d Hrun. refuse_step r s d Hrun Hstep.
destruct (existsb (is_approval (arow_ID a)) (approvals d) || existsb (pending_of r s) (approvals d)) eqn:Hex.
- unfold bind. do 2 step_eval. step_eval. destruct (fenced c _) eqn:Hg; [|by step_eval].
  unfold InsertApproval, bind, get. cbn. fold (pending_of r s).
  destruct (existsb (is_approval _) _); [done|]. cbn in Hex. by rewrite Hex.
- apply orb_false_elim in Hex as [? ?]. step_move AwaitHumanStep_guarded.
Qed.
End step_moves.

(** ** Run transitions *)
Ltac run_move L := eapply guarded_run_moves; [done|done|by apply L|done|].

Section run_moves.
Context (r : uuid) (d : DB) (H : db_inv d).
Implicit Types (now : time).

Lemma SucceedRun_moves now :
on_ok (run_moves r (λ y st', run_open y = true ∧ st' = RunStatusSucceeded) d) (SucceedRun r now d).
Proof.
refuse_now now. unfold SucceedRun. refuse_run r d Hrun. run_move SucceedRun_guarded.
intros Hg. split; [|done]. by apply andb_prop in Hg as [[? _]%andb_prop _].
Qed.

Lemma FailRun_moves now :
on_ok (run_moves r (λ y st', run_open y = true ∧ st' = RunStatusFailed) d) (FailRun r now d).
Proof.
refuse_now now. unfold FailRun. refuse_run r d Hrun. run_move FailRun_guarded.
by intros [? _]%andb_prop.
Qed.

Lemma FailRunRollup_moves now :
on_ok (run_moves r (λ y st', run_open y = true ∧ st' = RunStatusFailed) d) (FailRunRollup r now d).
Proof.
refuse_now now. unfold FailRunRollup. refuse_run r d Hrun. run_move FailRunRollup_guarded.
by intros [[? _]%andb_prop _]%andb_prop.
Qed.

Lemma CancelRunRollup_moves now :
on_ok (run_moves r (λ y st', run_Status y = RunStatusCancelling ∧ st' = RunStatusCancelled) d)
  (CancelRunRollup r now d).
Proof.
refuse_now now. unfold CancelRunRollup. refuse_run r d Hrun. run_move CancelRunRollup_guarded.
intros [Hg _]%andb_prop. split; [|done]. by apply bool_decide_eq_true in Hg.
Qed.

Lemma ResumeRun_moves now :
on_ok (run_moves r (λ y st', run_Status y = RunStatusFailed ∧ st' = RunStatusRunning) d) (ResumeRun r now d).
Proof.
refuse_now now. unfold ResumeRun. refuse_run r d Hrun. run_move ResumeRun_guarded.
intros Hg. split; [|done]. by apply bool_decide_eq_true in Hg.
Qed.

Lemma UnparkRun_moves now :
on_ok (run_moves r (λ y st', run_Status y = RunStatusParked ∧ st' = RunStatusRunning) d) (UnparkRun r now d).
Proof.
refuse_now now. unfold UnparkRun. refuse_run r d Hrun. run_move UnparkRun_guarded.
intros Hg. split; [|done]. by apply bool_decide_eq_true in Hg.
Qed.

Lemma SetRunBudget_moves b now :
on_ok (run_moves r (λ y st', st' = run_Status y) d) (SetRunBudget r b now d).
Proof.
refuse_now now. unfold SetRunBudget. refuse_run r d Hrun. by run_move SetRunBudget_guarded.
Qed.

Lemma ParkRun_moves reason now :
on_ok (run_moves r (λ y st', run_Status y = RunStatusRunning ∧ st' = RunStatusParked) d) (ParkRun r reason now d).
Proof.
refuse_now now. destruct (park_reason_ok reason) eqn:Hok;
  [|unfold ParkRun, bind, guard; fold (park_reason_ok reason); by rewrite now_ok, Hok by done].
unfold ParkRun. destruct (find (is_run r) (runs d)) as [run|] eqn:Hrun.
- run_move ParkRun_guarded. intros Hg. split; [|done]. by apply bool_decide_eq_true in Hg.
- unfold bind, guard, lockRun. fold (park_reason_ok reason). rewrite now_ok, Hok by done.
  cbn [ret]. by rewrite GetRun_eval, Hrun.
Qed.

Lemma CancelRun_moves reason now :
on_ok (run_moves r (λ y st', run_open y = true ∧ st' = RunStatusCancelling) d) (CancelRun r reason now d).
Proof.
refuse_now now. destruct (cancel_reason_ok reason) eqn:Hok;
  [|unfold CancelRun, bind, guard; fold (cancel_reason_ok reason); by rewrite now_ok, Hok by done].
unfold CancelRun. destruct (find (is_run r) (runs d)) as [run|] eqn:Hrun.
- run_move CancelRun_guarded. by intros Hg.
- unfold bind, guard, lockRun. fold (cancel_reason_ok reason). rewrite now_ok, Hok by done.
  cbn [ret]. by rewrite GetRun_eval, Hrun.
Qed.
End run_moves.

(** ** Operations that touch neither steps nor edges nor run statuses *)
Record quiet (d d' : DB) : Prop := mkQuiet {
  q_steps : run_steps d' = run_steps d;
  q_edges : run_edges d' = run_edges d;
  q_run : ∀ r y, run_at d r = Some y →
    ∃ y', run_at d' r = Some y' ∧ run_Status y' = run_Status y ∧ run_OnFailure y' = run_OnFailure y;
  q_none : ∀ r, run_at d r = None → run_at d' r = None
}.

Lemma quiet_refl d : quiet d d.
Proof. by split; eauto. Qed.
Lemma quiet_trans d1 d2 d3 : quiet d1 d2 → quiet d2 d3 → quiet d1 d3.
Proof.
  intros [S1 E1 R1 N1] [S2 E2 R2 N2]. split; [congruence|congruence| |auto].
  intros r y Hy. destruct (R1 r y Hy) as (y1 & Hy1 & ? & ?). destruct (R2 r y1 Hy1) as (y2 & ? & ? & ?).
  exists y2. split_and!; congruence.
Qed.

Lemma quiet_run_changes r run run' d d' : run_changes r run run' d d' → run_steps d' = run_steps d →
  run_Status run' = run_Status run → quiet d d'.
Proof.
  intros C Hs Hst. split; [done|apply C| |].
  - intros r' y Hy. destruct (decide (r' = r)) as [->|Hne].
    + pose proof (rch_run _ _ _ _ _ C) as Hr. rewrite Hr in Hy. injection Hy as <-.
      eexists. split_and!; [apply C|done|apply C].
    + exists y. by rewrite (rch_runs _ _ _ _ _ C).
  - intros r' Hn. destruct (decide (r' = r)) as [->|Hne].
    + by rewrite (rch_run _ _ _ _ _ C) in Hn.
    + by rewrite (rch_runs _ _ _ _ _ C).
Qed.

(** A guarded transition whose effect changes neither the step nor the status. *)
Lemma guarded_quiet {A} d r run x (m : Tx A) g res e err :
  db_inv d → run_at d r = Some run → guarded d run x m g res e err → (∀ y, ef_step e y = y) →
  run_Status (ef_run e run) = run_Status run → on_ok (quiet d) (m d).
Proof.
  intros H Hrun G Hid Hst.
  pose proof (guarded_run_moves d r run x m g res e err (λ y st', y = run ∧ st' = run_Status run)
    H Hrun G Hid (λ _, conj eq_refl Hst)) as M.
  destruct (m d) as [[a|e'] d']; [|done]. destruct M as (y & y' & C & Hs & -> & Hst').
  by eapply quiet_run_changes.
Qed.

Lemma appendEvent_quiet r p d : db_inv d → on_ok (quiet d) (appendEvent r p d).
Proof.
  intros H. destruct (find (is_run r) (runs d)) as [run|] eqn:Hrun.
  - erewrite run_append_only by done. cbn.
    assert (sound d run (no_step r) (run_effect (λ y, y) [p])) as S by run_sound.
    eapply quiet_run_changes; [by apply (effect_run_changes d r)|by apply set_row_id|done].
  - by rewrite appendEvent_eval, Hrun by (apply H || by apply inv_fresh).
Qed.

Lemma CreateOutboxTask_quiet r s reason tr d : on_ok (quiet d) (CreateOutboxTask r s reason tr d).
Proof. split; [done|done|eauto|done]. Qed.

Lemma DecideApproval_quiet a d : db_inv d → on_ok (quiet d) (DecideApproval a d).
Proof.
  intros H. destruct (decide (da_Now a = 0)) as [E|Hnow].
  { unfold DecideApproval, bind, transitionQueries. by rewrite E. }
  destruct (decision_status (da_Status a)) eqn:Hst.
  2:{ unfold DecideApproval, bind, guard. rewrite now_ok by done. fold (decision_status (da_Status a)).
      by rewrite Hst. }
  destruct (find (is_run (da_RunID a)) (runs d)) as [run|] eqn:Hrun.
  2:{ unfold DecideApproval, bind, guard, lockRun. rewrite now_ok by done.
      fold (decision_status (da_Status a)). rewrite Hst. cbn [ret]. by rewrite GetRun_eval, Hrun. }
  destruct (find (is_approval (da_ID a)) (approvals d)) as [ap|] eqn:Hap.
  - eapply guarded_quiet; [done|done|by apply DecideApproval_guarded|done|done].
  - unfold DecideApproval, bind, guard. rewrite now_ok by done.
    fold (decision_status (da_Status a)). rewrite Hst. cbn [ret]. erewrite lockRun_ok by done.
    rewrite (run_update_approval d (da_RunID a) run), (find_guarded ap_ID is_approval is_approval_key), Hap
      by apply H.
    unfold GetApproval, bind, get. by rewrite Hap.
Qed.

(** A charge touches the run's totals, the ledger and the log. *)
Lemma ApplyAttemptCost_ok args d a d' : db_inv d → ApplyAttemptCost args d = (Ok a, d') →
  ∃ run e, run_at d (ac_RunID args) = Some run ∧ sound d run (no_step (ac_RunID args)) e ∧
    d' = apply_effect run (no_step (ac_RunID args)) e d ∧ ef_att e = AttKeep ∧ ef_dls e = [] ∧
    (∀ y, ef_step e y = y) ∧ run_Status (ef_run e run) = run_Status run.
Proof.
  intros H E. destruct (decide (ac_Now args = 0)) as [E0|Hnow].
  { revert E. unfold ApplyAttemptCost, bind, transitionQueries. by rewrite E0. }
  destruct (decide (ac_Resource args = "")) as [E0|Hres].
  { revert E. unfold ApplyAttemptCost, bind, guard. by rewrite now_ok, E0 by done. }
  destruct (ac_Rate args) as [rate|] eqn:Hrate.
  2:{ revert E. unfold ApplyAttemptCost. rewrite Hrate. unfold bind, guard. by rewrite now_ok, bool_decide_eq_false_2 by done. }
  destruct (decide (0 ≤ ac_CostNanoUSD args ∧ 0 ≤ ac_SavedNanoUSD args)) as [[Hc Hs]|Hneg].
  2:{ revert E. unfold ApplyAttemptCost. rewrite Hrate. unfold InsertCostLedgerEntry, bind, guard, get.
      rewrite now_ok, bool_decide_eq_false_2 by done. cbn [negb ret cl_CostNanoUsd cl_SavedNanoUsd].
      by assert ((0 <=? ac_CostNanoUSD args) && (0 <=? ac_SavedNanoUSD args) = false) as -> by lia. }
  destruct (find (is_run (ac_RunID args)) (runs d)) as [run|] eqn:Hrun.
  - pose proof (ApplyAttemptCost_guarded d args rate run H Hrun Hnow Hres Hrate Hc Hs) as G.
    unfold guarded in G. rewrite E in G. destruct (negb _); [|done]. destruct G as [[= _ ->] S].
    eexists run, _. split_and!; [done|exact S|done..].
  - apply Z.leb_le in Hc, Hs. revert E. unfold ApplyAttemptCost. rewrite Hrate.
    unfold InsertCostLedgerEntry, bind, guard, get, put.
    rewrite now_ok, bool_decide_eq_false_2 by done. cbn [negb ret cl_CostNanoUsd cl_SavedNanoUsd].
    rewrite Hc, Hs. cbn [andb ret cl_RunID]. destruct (existsb _ (cost_ledger d)); [done|].
    by rewrite (find_existsb_none _ _ Hrun).
Qed.

Lemma ApplyAttemptCost_quiet args d : db_inv d → on_ok (quiet d) (ApplyAttemptCost args d).
Proof.
  intros H. destruct (ApplyAttemptCost args d) as [[a|e] d'] eqn:E; [|done].
  destruct (ApplyAttemptCost_ok args d a d' H E) as (run & ef & Hrun & S & -> & _ & _ & Hid & Hst).
  eapply quiet_run_changes; [by apply (effect_run_changes d (ac_RunID args))|by cbn; apply set_row_id|done].
Qed.

(** ** Automation *)
Create HintDb moves.
#[export] Hint Resolve SucceedStep_moves TakeoverStep_moves RequeueStep_moves SucceedAwaitingHumanStep_moves
  DeadLetterAwaitingHumanStep_moves PoisonDeadLetterStep_moves CancelStep_moves CancelAwaitingHumanStep_moves
  ReviveStep_moves ThrottleStep_moves SemanticRetryStep_moves CollectFailStep_moves BudgetParkStep_moves
  RetryStep_moves DeadLetterStep_moves ClaimStepWithOrigin_moves AwaitHumanStep_moves
  CancelRunningStep_moves ReadyStep_moves SkipStep_moves
  SucceedRun_moves FailRun_moves FailRunRollup_moves CancelRunRollup_moves ResumeRun_moves
  UnparkRun_moves SetRunBudget_moves ParkRun_moves CancelRun_moves : moves.
