(* ===== verification/GraphInv.v ===== *)
(** The graph invariant of a run that is not being cancelled: which edges are
    resolved, why a step still waits, and which steps can never run. *)
From stdpp Require Import relations.
From S2P Require Import Prelude Retry StoreModel Transitions Effects StoreInv StoreSpecs EdgeSpecs StoreSystem StoreTheorems Config Dag Engine Moves.
Open Scope Z_scope.

(** ** Status classes *)

(** Steps the engine still has work for, other than waiting on predecessors. *)
Definition active (st : StepStatus) : bool :=
  match st with
  | StepStatusReady | StepStatusRunning | StepStatusRetrying | StepStatusAwaitingHuman => true
  | _ => false
  end.
(** Pending, or written off while pending. *)
Definition waits (st : StepStatus) : bool :=
  match st with StepStatusPending | StepStatusCancelled => true | _ => false end.

Lemma isJoinAny_kind x x' : step_key x' = step_key x → step_StepType x' = step_StepType x →
  step_Config x' = step_Config x → isJoinAny x' = isJoinAny x.
Proof. intros Hk Ht Hc. unfold isJoinAny. rewrite Ht, Hc. by injection Hk as _ ->. Qed.

Section graph.
Context (r : uuid).
Implicit Types (d : DB) (s : string) (x : RunStep) (e : RunEdge) (W : list Z) (T : list string).

Definition edge_of d e : Prop := e ∈ run_edges d ∧ edge_RunID e = r ∧ edge_EdgeType e = EdgeTypeNormal.
Definition unresolved e : Prop := edge_Resolution e = EdgeResolutionUnresolved.

(** ** Doomed steps

    The least set that holds the dead-lettered steps, the waiting step with an
    unresolved edge out of the set, and the waiting join-any step without a fired
    edge all of whose unresolved edges come out of the set. *)
Inductive doomed d : string → Prop :=
| doomed_dead s x : row d r s = Some x → step_Status x = StepStatusDeadLettered → doomed d s
| doomed_all s x e : row d r s = Some x → waits (step_Status x) = true → isJoinAny x = inr false →
    edge_of d e → unresolved e → edge_ToStep e = s → doomed d (edge_FromStep e) → doomed d s
| doomed_any s x e : row d r s = Some x → waits (step_Status x) = true → isJoinAny x = inr true →
    step_FiredDeps x = 0 → edge_of d e → unresolved e → edge_ToStep e = s →
    (∀ e', edge_of d e' → unresolved e' → edge_ToStep e' = s → doomed d (edge_FromStep e')) →
    doomed d s.

Lemma doomed_row d s : doomed d s → ∃ x, row d r s = Some x ∧
  (step_Status x = StepStatusDeadLettered ∨ waits (step_Status x) = true).
Proof. destruct 1; eauto. Qed.

(** A waiting doomed step has an unresolved edge from a doomed step. *)
Lemma doomed_edge d s x : doomed d s → row d r s = Some x → waits (step_Status x) = true →
  ∃ e, edge_of d e ∧ unresolved e ∧ edge_ToStep e = s ∧ doomed d (edge_FromStep e).
Proof.
  destruct 1 as [s y Hy Hs|s y e Hy Hw Hj He Hu Ht Hd|s y e Hy Hw Hj Hf He Hu Ht Ha]; intros Hx Hwx;
    [|by exists e|exists e; eauto].
  rewrite Hy in Hx. injection Hx as <-. by rewrite Hs in Hwx.
Qed.

(** How a doomed step may change for it to stay doomed. *)
Definition stays_doomed x x' : Prop :=
  step_Status x' = StepStatusDeadLettered ∨
  waits (step_Status x') = true ∧ isJoinAny x' = isJoinAny x ∧
  (isJoinAny x = inr true → step_FiredDeps x' = step_FiredDeps x).

Lemma doomed_mono d d' :
  (∀ s x, doomed d s → row d r s = Some x → step_Status x = StepStatusDeadLettered →
     ∃ x', row d' r s = Some x' ∧ step_Status x' = StepStatusDeadLettered) →
  (∀ s x, doomed d s → row d r s = Some x → waits (step_Status x) = true →
     ∃ x', row d' r s = Some x' ∧ stays_doomed x x') →
  (∀ e, edge_of d e → unresolved e → doomed d (edge_FromStep e) → edge_of d' e) →
  (∀ e, edge_of d' e → unresolved e → doomed d (edge_ToStep e) → edge_of d e) →
  ∀ s, doomed d s → doomed d' s.
Proof.
  intros Hdead Hwait Hedge Hedge' s Hs.
  induction Hs as [s x Hx Hst|s x e Hx Hw Hj He Hu Ht Hd IH|s x e Hx Hw Hj Hf He Hu Ht Ha IH].
  - destruct (Hdead s x) as (x' & ? & ?); [by eapply doomed_dead|done|done|]. by eapply doomed_dead.
  - destruct (Hwait s x) as (x' & Hx' & [?|(? & Hj' & _)]); [by eapply doomed_all|done|done|by eapply doomed_dead|].
    eapply (doomed_all d' s x' e); [done|done|congruence|by apply Hedge|done|done|done].
  - destruct (Hwait s x) as (x' & Hx' & [?|(? & Hj' & Hf')]); [by eapply doomed_any|done|done|by eapply doomed_dead|].
    eapply (doomed_any d' s x' e); [done|done|congruence|rewrite Hf'; done|apply Hedge; eauto|done|done|].
    intros e' He' Hu' Ht'. apply IH; [|done|done]. apply Hedge'; [done|done|]. rewrite Ht'. by eapply doomed_any.
Qed.

(** ** The invariant

    [W] lists the ordinals of the out-edges of finished steps still to be
    resolved by a fan-out in progress, [T] the steps whose counters it is about to
    act on; both are empty between transactions. *)
Record graph_core d W T : Prop := mkGraphCore {
  gc_edge : ∀ e, edge_of d e → ∃ x, row d r (edge_FromStep e) = Some x ∧
    (unresolved e ↔ absorbing (step_Status x) = false ∨ edge_Ordinal e ∈ W);
  gc_wait : ∀ s x, s ∉ T → row d r s = Some x → waits (step_Status x) = true →
    1 ≤ step_RemainingDeps x ∧ (isJoinAny x = inr true → step_FiredDeps x = 0);
  gc_join : ∀ s x, row d r s = Some x → ∃ b, isJoinAny x = inr b;
  gc_failed : ∀ s x, row d r s = Some x → step_Status x ≠ StepStatusFailed;
  (** The edges of the definition are acyclic; a spliced edge has an origin. *)
  gc_rank : ∃ rank : string → nat, ∀ e, edge_of d e → edge_OriginStep e = None →
    (rank (edge_FromStep e) < rank (edge_ToStep e))%nat;
  gc_work : NoDup W;
  gc_source : ∀ o, o ∈ W → ∃ e x, edge_of d e ∧ edge_Ordinal e = o ∧
    row d r (edge_FromStep e) = Some x ∧ absorbing (step_Status x) = true
}.
Definition written_off d : Prop :=
  ∀ s x, row d r s = Some x → step_Status x = StepStatusCancelled → doomed d s.

(** A doomed step is not finished. *)
Lemma doomed_source d s x : doomed d s → row d r s = Some x →
  absorbing (step_Status x) = false.
Proof.
  intros (y & Hy & Hs)%doomed_row Hx. rewrite Hx in Hy. injection Hy as <-.
  by destruct Hs as [-> | Hw]; [|destruct (step_Status x)].
Qed.

(** ** Changes of one status *)

(** The doomed steps survive a status change of [s] when [s] was not doomed,
    or stays dead-lettered or waiting. *)
Lemma doomed_change d d' s x x' run run' : changes r s x x' run run' d d' →
  (doomed d s → step_Status x = StepStatusDeadLettered → step_Status x' = StepStatusDeadLettered) →
  (doomed d s → waits (step_Status x) = true → stays_doomed x x') →
  ∀ t, doomed d t → doomed d' t.
Proof.
  intros C Hd Hw. pose proof (rch_edges _ _ _ _ _ (ch_run _ _ _ _ _ _ _ _ C)) as He.
  assert (∀ t y, row d r t = Some y → (t = s ∧ y = x) ∨ row d' r t = Some y) as Hrow.
  { intros t y Hy. destruct (decide (t = s)) as [->|Hne].
    - left. rewrite (ch_row _ _ _ _ _ _ _ _ C) in Hy. by injection Hy as <-.
    - right. rewrite (ch_rows _ _ _ _ _ _ _ _ C) by congruence. done. }
  apply doomed_mono.
  - intros t y Ht Hy Hst. destruct (Hrow t y Hy) as [[-> ->]|Hy']; [|eauto].
    exists x'. split; [apply C|auto].
  - intros t y Ht Hy Hst. destruct (Hrow t y Hy) as [[-> ->]|Hy'].
    + exists x'. split; [apply C|auto].
    + exists y. split; [done|]. right. done.
  - unfold edge_of. by rewrite He.
  - unfold edge_of. by rewrite He.
Qed.

(** The core survives a status change between non-finished statuses that does
    not add a waiting step, or adds one that already waited on its counters. *)
Lemma core_change d d' W T s x x' run run' : changes r s x x' run run' d d' → graph_core d W T →
  absorbing (step_Status x') = absorbing (step_Status x) →
  (waits (step_Status x') = true → waits (step_Status x) = true) →
  step_Status x' ≠ StepStatusFailed → graph_core d' W T.
Proof.
  intros C G Ha Hw Hf. pose proof (rch_edges _ _ _ _ _ (ch_run _ _ _ _ _ _ _ _ C)) as He.
  pose proof (ch_kind _ _ _ _ _ _ _ _ C) as K.
  assert (isJoinAny x' = isJoinAny x) as Hj by by apply isJoinAny_kind; apply K.
  assert (∀ t y', row d' r t = Some y' → (t = s ∧ y' = x') ∨ row d r t = Some y') as Hrow.
  { intros t y Hy. destruct (decide (t = s)) as [->|Hne].
    - left. rewrite (ch_row' _ _ _ _ _ _ _ _ C) in Hy. by injection Hy as <-.
    - right. rewrite (ch_rows _ _ _ _ _ _ _ _ C) in Hy by congruence. done. }
  assert (∀ t y, row d r t = Some y → ∃ y', row d' r t = Some y' ∧
            absorbing (step_Status y') = absorbing (step_Status y)) as Hsrc.
  { intros t y Hy. destruct (decide (t = s)) as [->|Hne].
    - rewrite (ch_row _ _ _ _ _ _ _ _ C) in Hy. injection Hy as <-. exists x'. split; [apply C|done].
    - exists y. rewrite (ch_rows _ _ _ _ _ _ _ _ C) by congruence. done. }
  split.
  - unfold edge_of. rewrite He. intros e Hee. destruct (gc_edge _ _ _ G e Hee) as (y & Hy & Hu).
    destruct (Hsrc _ _ Hy) as (y' & Hy' & E). exists y'. split; [done|]. by rewrite E.
  - intros t y' Ht Hy' Hwy. destruct (Hrow _ _ Hy') as [[-> ->]|Hy].
    + rewrite (sk_remaining _ _ K), (sk_fired _ _ K), Hj.
      apply (gc_wait _ _ _ G s x); [done|apply C|auto].
    + by apply (gc_wait _ _ _ G t).
  - intros t y' Hy'. destruct (Hrow _ _ Hy') as [[-> ->]|Hy]; [|by eapply gc_join].
    rewrite Hj. eapply gc_join; [done|apply C].
  - intros t y' Hy'. destruct (Hrow _ _ Hy') as [[-> ->]|Hy]; [done|by eapply gc_failed].
  - unfold edge_of. rewrite He. apply (gc_rank _ _ _ G).
  - apply G.
  - intros o Ho. destruct (gc_source _ _ _ G o Ho) as (e & y & Hee & Eo & Hy & Hab).
    destruct (Hsrc _ _ Hy) as (y' & Hy' & E). exists e, y'. split; [unfold edge_of; by rewrite He|].
    split_and!; [done|done|congruence].
Qed.

(** ** Finishing a step *)

Lemma edge_unique d e e' : db_inv d → edge_of d e → edge_of d e' → edge_Ordinal e = edge_Ordinal e' → e = e'.
Proof.
  intros H (He & Er & _) (He' & Er' & _) Eo.
  apply (keyed_unique edge_key (λ k, is_edge k.1 k.2) is_edge_key (run_edges d)); [apply H|done|done|].
  unfold edge_key. congruence.
Qed.

(** The ordinals of the normal out-edges of a step. *)
Definition out_edges d s : list RunEdge :=
  List.filter (λ e, bool_decide (edge_RunID e = r) && bool_decide (edge_FromStep e = s)) (run_edges d).
Definition out_ords d s : list Z :=
  edge_Ordinal <$> List.filter (λ e, bool_decide (edge_EdgeType e = EdgeTypeNormal)) (out_edges d s).

Lemma elem_of_out_ords d s o : o ∈ out_ords d s ↔ ∃ e, edge_of d e ∧ edge_FromStep e = s ∧ edge_Ordinal e = o.
Proof.
  unfold out_ords, out_edges, edge_of. rewrite list_elem_of_fmap. split.
  - intros (e & -> & He). exists e. rewrite list_elem_of_In, !filter_In, <-list_elem_of_In in He.
    destruct He as [[He [E1 E2]%andb_prop] E3].
    apply bool_decide_eq_true in E1, E2, E3. done.
  - intros (e & (He & Er & Ht) & Hf & <-). exists e. split; [done|].
    rewrite list_elem_of_In, !filter_In, <-list_elem_of_In.
    by rewrite Er, Hf, Ht, !bool_decide_eq_true_2 by done.
Qed.

Lemma NoDup_fmap_filter {A B} (f : A → B) p (l : list A) : NoDup (f <$> l) → NoDup (f <$> List.filter p l).
Proof.
  induction l as [|a l IH]; [done|]. cbn. intros [Ha Hl]%NoDup_cons. destruct (p a); cbn; [|auto].
  apply NoDup_cons. split; [|auto]. intros (b & Eb & Hb)%list_elem_of_fmap. apply Ha.
  rewrite Eb. apply list_elem_of_fmap_2. rewrite list_elem_of_In, filter_In, <-list_elem_of_In in Hb. apply Hb.
Qed.

Lemma out_ords_NoDup d s : db_inv d → NoDup (out_ords d s).
Proof.
  intros H. unfold out_ords.
  assert (NoDup (edge_key <$> List.filter (λ e, bool_decide (edge_EdgeType e = EdgeTypeNormal)) (out_edges d s))) as N.
  { unfold out_edges. do 2 apply NoDup_fmap_filter. apply H. }
  assert (∀ e, e ∈ List.filter (λ e, bool_decide (edge_EdgeType e = EdgeTypeNormal)) (out_edges d s) →
            edge_RunID e = r) as Hr.
  { intros e He. unfold out_edges in He. rewrite list_elem_of_In, !filter_In in He.
    destruct He as [[_ [E _]%andb_prop] _]. by apply bool_decide_eq_true in E. }
  revert N Hr. generalize (List.filter (λ e, bool_decide (edge_EdgeType e = EdgeTypeNormal)) (out_edges d s)).
  induction l as [|e l IH]; [intros; apply NoDup_nil_2|]. cbn. intros [He N]%NoDup_cons Hr. apply NoDup_cons. split.
  - intros (e' & Eo & He')%list_elem_of_fmap. apply He. apply list_elem_of_fmap. exists e'. split; [|done].
    unfold edge_key. rewrite Eo, (Hr e) by set_solver. rewrite (Hr e') by set_solver. done.
  - apply IH; [done|]. intros e' He'. apply Hr. by constructor.
Qed.

Lemma core_finish d d' W T s x x' run run' : db_inv d → changes r s x x' run run' d d' → graph_core d W T →
  absorbing (step_Status x) = false → absorbing (step_Status x') = true →
  graph_core d' (W ++ out_ords d s) T.
Proof.
  intros H C G Ha Ha'. pose proof (rch_edges _ _ _ _ _ (ch_run _ _ _ _ _ _ _ _ C)) as He.
  pose proof (ch_kind _ _ _ _ _ _ _ _ C) as K.
  assert (isJoinAny x' = isJoinAny x) as Hj by by apply isJoinAny_kind; apply K.
  pose proof (ch_row _ _ _ _ _ _ _ _ C) as Hx. pose proof (ch_row' _ _ _ _ _ _ _ _ C) as Hx'.
  assert (∀ t, t ≠ s → row d' r t = row d r t) as Hrow.
  { intros t Hne. apply C. congruence. }
  assert (∀ e, edge_of d e → edge_Ordinal e ∈ out_ords d s ↔ edge_FromStep e = s) as Hout.
  { intros e Hee. rewrite elem_of_out_ords. split; [|eauto].
    intros (e' & He' & <- & Eo). f_equal. by eapply edge_unique. }
  split.
  - unfold edge_of. rewrite He. intros e Hee. destruct (gc_edge _ _ _ G e Hee) as (y & Hy & Hu).
    specialize (Hout e Hee). destruct (decide (edge_FromStep e = s)) as [E|Hne].
    + exists x'. rewrite E in Hy |- *. split; [done|]. rewrite Hx in Hy. injection Hy as <-.
      rewrite elem_of_app, Hout, Ha'. rewrite Ha in Hu. naive_solver.
    + exists y. rewrite Hrow by done. split; [done|]. rewrite elem_of_app, Hout. naive_solver.
  - intros t y' Ht Hy' Hwy. destruct (decide (t = s)) as [->|Hne].
    + rewrite Hx' in Hy'. injection Hy' as <-. by destruct (step_Status x').
    + rewrite Hrow in Hy' by done. by apply (gc_wait _ _ _ G t).
  - intros t y' Hy'. destruct (decide (t = s)) as [->|Hne].
    + rewrite Hx' in Hy'. injection Hy' as <-. rewrite Hj. by eapply gc_join.
    + rewrite Hrow in Hy' by done. by eapply gc_join.
  - intros t y' Hy'. destruct (decide (t = s)) as [->|Hne].
    + rewrite Hx' in Hy'. injection Hy' as <-. intros E. by rewrite E in Ha'.
    + rewrite Hrow in Hy' by done. by eapply gc_failed.
  - unfold edge_of. rewrite He. apply (gc_rank _ _ _ G).
  - apply NoDup_app. split_and!; [apply G| |by apply out_ords_NoDup].
    intros o Ho (e & Hee & Ef & Eo)%elem_of_out_ords.
    destruct (gc_source _ _ _ G o Ho) as (e' & y & Hee' & Eo' & Hy & Hab).
    assert (e' = e) as -> by (eapply edge_unique; congruence || done).
    rewrite Ef, Hx in Hy. congruence.
  - intros o [Ho|(e & Hee & Ef & Eo)%elem_of_out_ords]%elem_of_app.
    + destruct (gc_source _ _ _ G o Ho) as (e & y & Hee & Eo & Hy & Hab). exists e.
      unfold edge_of. rewrite He. destruct (decide (edge_FromStep e = s)) as [E|Hne].
      * rewrite E, Hx in Hy. congruence.
      * exists y. rewrite Hrow by done. done.
    + exists e, x'. unfold edge_of. rewrite He, Ef. done.
Qed.

(** The counters of the step in hand have been acted on. *)
Lemma core_settle d W t : graph_core d W [t] →
  (∀ x, row d r t = Some x → waits (step_Status x) = true →
     1 ≤ step_RemainingDeps x ∧ (isJoinAny x = inr true → step_FiredDeps x = 0)) →
  graph_core d W [].
Proof.
  intros G Ht. split; try apply G. intros s x _ Hx Hw. destruct (decide (s = t)) as [->|Hne]; [auto|].
  apply (gc_wait _ _ _ G s); [|done..]. by intros ?%list_elem_of_singleton.
Qed.

(** A written-off step waits on its counters. *)
Lemma doomed_any_inv d s x : doomed d s → row d r s = Some x → waits (step_Status x) = true →
  isJoinAny x = inr true →
  step_FiredDeps x = 0 ∧ ∀ e, edge_of d e → unresolved e → edge_ToStep e = s → doomed d (edge_FromStep e).
Proof.
  destruct 1 as [s y Hy Hs|s y e Hy Hw Hj He Hu Ht Hd|s y e Hy Hw Hj Hf He Hu Ht Ha]; intros Hx Hwx Hjx;
    rewrite Hy in Hx; injection Hx as <-; [by rewrite Hs in Hwx|congruence|done].
Qed.

Lemma unresolved_in_edge d e x : edge_of d e → unresolved e → row d r (edge_ToStep e) = Some x →
  in_edges x EdgeResolutionUnresolved e = true.
Proof.
  intros (_ & Er & Ht) Hu [E1 E2]%row_key. unfold in_edges, unresolved in *.
  by rewrite E1, E2, Er, Ht, Hu, !bool_decide_eq_true_2.
Qed.

Lemma unresolved_remaining d e x : db_inv d → edge_of d e → unresolved e →
  row d r (edge_ToStep e) = Some x → 1 ≤ step_RemainingDeps x.
Proof.
  intros H He Hu Hx. destruct (inv_deps _ H x (row_elem _ _ _ _ Hx)) as [-> _].
  assert (0 < count (in_edges x EdgeResolutionUnresolved) (run_edges d)); [|lia].
  apply count_pos. exists e. split; [apply He|by eapply unresolved_in_edge].
Qed.

Lemma doomed_waits d s x : db_inv d → doomed d s → row d r s = Some x → waits (step_Status x) = true →
  1 ≤ step_RemainingDeps x ∧ (isJoinAny x = inr true → step_FiredDeps x = 0).
Proof.
  intros H Hd Hx Hw. split.
  - destruct (doomed_edge d s x Hd Hx Hw) as (e & He & Hu & Ht & _). subst s.
    by eapply unresolved_remaining.
  - intros Hj. by destruct (doomed_any_inv d s x Hd Hx Hw Hj).
Qed.

(** ** Resolving an edge *)

Lemma elem_of_resolved_edges d e f now e' : db_inv d → e ∈ run_edges d →
  e' ∈ run_edges (resolved_db e f now d) ↔ e' = resolve_set f e ∨ e' ∈ run_edges d ∧ edge_key e' ≠ edge_key e.
Proof.
  intros H He. cbn.
  set (k := (edge_RunID e, edge_Ordinal e)). split.
  - intros [(z & Hz & Ek & ->)|?]%(elem_of_set_row edge_key (λ k, is_edge k.1 k.2) is_edge_key k); [left|by right].
    f_equal. apply (keyed_unique edge_key (λ k, is_edge k.1 k.2) is_edge_key (run_edges d)); [apply H|done..].
  - intros [->|[Hin Hne]].
    + by apply (elem_of_set_row_this edge_key (λ k, is_edge k.1 k.2) is_edge_key k).
    + by apply (elem_of_set_row_other edge_key (λ k, is_edge k.1 k.2) is_edge_key k).
Qed.

Section resolve.
Context (d : DB) (e : RunEdge) (f : bool) (now : time) (x : RunStep).
Context (H : db_inv d) (He : edge_of d e) (Hu : unresolved e) (Hx : row d r (edge_ToStep e) = Some x).
Abbreviation d1 := (resolved_db e f now d).
Abbreviation x1 := (dep_set f now x).

Lemma resolved_row : row d1 r (edge_ToStep e) = Some x1.
Proof.
  destruct He as (_ & Er & _). unfold row. cbn. rewrite Er.
  rewrite (find_set_row step_key (λ k, is_step k.1 k.2) is_step_key (r, edge_ToStep e)) by done.
  unfold row in Hx. cbn. by rewrite Hx.
Qed.

Lemma resolved_row_ne r' s : (r', s) ≠ (r, edge_ToStep e) → row d1 r' s = row d r' s.
Proof.
  intros Hne. destruct He as (_ & Er & _). unfold row. cbn. rewrite Er.
  by rewrite (find_set_row_ne step_key (λ k, is_step k.1 k.2) is_step_key (r, edge_ToStep e) (r', s)).
Qed.

(** The rows before and after: only the target's counters differ. *)
Lemma resolved_rows s y : row d r s = Some y →
  ∃ y', row d1 r s = Some y' ∧ (s = edge_ToStep e ∧ y = x ∧ y' = x1 ∨ s ≠ edge_ToStep e ∧ y' = y).
Proof.
  intros Hy. destruct (decide (s = edge_ToStep e)) as [->|Hne].
  - rewrite Hx in Hy. injection Hy as <-. exists x1. split; [apply resolved_row|by left].
  - exists y. split; [rewrite resolved_row_ne by congruence; done|by right].
Qed.
Lemma resolved_rows_inv s y' : row d1 r s = Some y' →
  ∃ y, row d r s = Some y ∧ (s = edge_ToStep e ∧ y = x ∧ y' = x1 ∨ s ≠ edge_ToStep e ∧ y' = y).
Proof.
  intros Hy'. destruct (decide (s = edge_ToStep e)) as [->|Hne].
  - rewrite resolved_row in Hy'. injection Hy' as <-. exists x. split; [apply Hx|by left].
  - rewrite resolved_row_ne in Hy' by congruence. exists y'. split; [done|by right].
Qed.

Lemma resolved_edge_of e' : edge_of d1 e' ↔ e' = resolve_set f e ∨ edge_of d e' ∧ edge_Ordinal e' ≠ edge_Ordinal e.
Proof.
  destruct He as (Hin & Er & Ht). unfold edge_of. rewrite elem_of_resolved_edges by done. split.
  - intros ([->|[Hin' Hne]] & Er' & Ht'); [by left|right]. split; [done|]. intros E. apply Hne.
    unfold edge_key. congruence.
  - intros [->|((Hin' & Er' & Ht') & Hne)]; [split_and!; [by left|done..]|].
    split_and!; [|done..]. right. split; [done|]. intros [= _ ?]. done.
Qed.

Lemma resolved_resolved : ¬ unresolved (resolve_set f e).
Proof. unfold unresolved. cbn. by destruct f. Qed.

Lemma isJoinAny_dep : isJoinAny x1 = isJoinAny x.
Proof. done. Qed.

Context (Hsrc : ∀ y, row d r (edge_FromStep e) = Some y → absorbing (step_Status y) = true).

Lemma source_not_doomed : ¬ doomed d (edge_FromStep e).
Proof.
  intros Hd. destruct (doomed_row _ _ Hd) as (y & Hy & _).
  pose proof (doomed_source _ _ _ Hd Hy). by rewrite (Hsrc _ Hy) in *.
Qed.

Lemma resolved_doomed s : doomed d s → doomed d1 s.
Proof.
  apply doomed_mono.
  - intros t y _ Hy Hst. destruct (resolved_rows _ _ Hy) as (y' & Hy' & [(-> & -> & ->)|[_ ->]]); eauto.
  - intros t y Ht Hy Hw. destruct (resolved_rows _ _ Hy) as (y' & Hy' & [(-> & -> & ->)|[_ ->]]).
    + exists x1. split; [done|]. right. split_and!; [done|done|]. intros Hj.
      destruct (doomed_any_inv _ _ _ Ht Hx Hw Hj) as [_ Ha].
      destruct source_not_doomed. by apply Ha.
    + exists y. split; [done|]. right. done.
  - intros e' He' Hu' Hd. apply resolved_edge_of. right. split; [done|]. intros E.
    assert (e' = e) as -> by by eapply edge_unique. by apply source_not_doomed.
  - intros e' [->|[? _]]%resolved_edge_of Hu'; [by destruct resolved_resolved|done].
Qed.

Lemma resolved_core W : graph_core d (edge_Ordinal e :: W) [] → graph_core d1 W [edge_ToStep e].
Proof.
  intros G. pose proof (gc_work _ _ _ G) as [Ho Hnd]%NoDup_cons. split.
  - intros e' [->|[He' Hne]]%resolved_edge_of.
    + destruct (gc_edge _ _ _ G e He) as (y & Hy & _).
      destruct (resolved_rows _ _ Hy) as (y' & Hy' & Hcase). exists y'. split; [done|].
      assert (absorbing (step_Status y') = true) as ->.
      { rewrite <-(Hsrc y Hy). destruct Hcase as [(_ & -> & ->)|[_ ->]]; done. }
      cbn. split; [by intros ?%resolved_resolved|]. by intros [?|?].
    + destruct (gc_edge _ _ _ G e' He') as (y & Hy & Huy).
      destruct (resolved_rows _ _ Hy) as (y' & Hy' & Hcase). exists y'. split; [done|].
      assert (absorbing (step_Status y') = absorbing (step_Status y)) as ->.
      { destruct Hcase as [(_ & -> & ->)|[_ ->]]; done. }
      rewrite Huy, elem_of_cons. naive_solver.
  - intros s y' Hs Hy' Hw. destruct (resolved_rows_inv _ _ Hy') as (y & Hy & [(-> & _)|[_ ->]]).
    + destruct Hs. by apply list_elem_of_singleton.
    + apply (gc_wait _ _ _ G s); [by intros ?%not_elem_of_nil|done..].
  - intros s y' Hy'. destruct (resolved_rows_inv _ _ Hy') as (y & Hy & [(-> & -> & ->)|[_ ->]]).
    + rewrite isJoinAny_dep. by eapply gc_join.
    + by eapply gc_join.
  - intros s y' Hy'. destruct (resolved_rows_inv _ _ Hy') as (y & Hy & [(-> & -> & ->)|[_ ->]]);
      by apply (gc_failed _ _ _ G _ _ Hy).
  - destruct (gc_rank _ _ _ G) as [rank Hr]. exists rank. intros e' [->|[He' _]]%resolved_edge_of; [|auto].
    by apply (Hr e).
  - done.
  - intros o Ho'. destruct (gc_source _ _ _ G o) as (e' & y & He' & Eo & Hy & Hab); [by right|].
    destruct (resolved_rows _ _ Hy) as (y' & Hy' & Hcase). exists e', y'. split_and!; [|done|done|].
    + apply resolved_edge_of. right. split; [done|]. congruence.
    + rewrite <-Hab. destruct Hcase as [(_ & -> & ->)|[_ ->]]; done.
Qed.

Lemma resolved_written_off : written_off d → written_off d1.
Proof.
  intros Hc s y' Hy' Hst. apply resolved_doomed.
  destruct (resolved_rows_inv _ _ Hy') as (y & Hy & [(-> & -> & ->)|[_ ->]]); by eapply Hc.
Qed.
End resolve.
End graph.
