(* ===== verification/FanOut.v ===== *)
(** The fan-out of a finished step: the worklist terminates, resolves every
    planned edge, and restores the graph invariant. *)
From stdpp Require Import relations.
From S2P Require Import Prelude Retry StoreModel Transitions Effects StoreInv StoreSpecs EdgeSpecs StoreSystem StoreTheorems Config Dag Engine EngineInv Moves GraphInv.
Open Scope Z_scope.

Section fan.
Context (r : uuid) (now : time) (Hnow : now ≠ 0).
Implicit Types (d : DB) (s : string) (x : RunStep) (vs : list edgeVerdict).

(** ** What a fan-out may change *)

(** A step of the run keeps its identity; its counters advance; it moves only
    from pending, to ready when its in-edges allow it and to skipped when they
    are all resolved and none fired. *)
Record fanned x x' : Prop := mkFanned {
  fa_type : step_StepType x' = step_StepType x;
  fa_config : step_Config x' = step_Config x;
  fa_remaining : 0 ≤ step_RemainingDeps x' ≤ step_RemainingDeps x;
  fa_fired : step_FiredDeps x ≤ step_FiredDeps x';
  fa_sum : step_FiredDeps x' + step_RemainingDeps x' ≤ step_FiredDeps x + step_RemainingDeps x;
  fa_status : step_Status x' = step_Status x ∨
    step_Status x = StepStatusPending ∧
    (step_Status x' = StepStatusReady ∧ 1 ≤ step_FiredDeps x' ∧
       (step_RemainingDeps x' = 0 ∨ isJoinAny x' = inr true) ∨
     step_Status x' = StepStatusSkipped ∧ step_RemainingDeps x' = 0 ∧ step_FiredDeps x' = 0)
}.

(** The run row keeps its status and policy. *)
Definition run_same d d' : Prop :=
  ∀ y, run_at d r = Some y →
    ∃ y', run_at d' r = Some y' ∧ run_Status y' = run_Status y ∧ run_OnFailure y' = run_OnFailure y.

(** Nothing of another run changes. *)
Record others_same d d' : Prop := mkOthers {
  ot_run : ∀ r', r' ≠ r → run_at d' r' = run_at d r';
  ot_row : ∀ r' s, r' ≠ r → row d' r' s = row d r' s;
  ot_edge : ∀ e, edge_RunID e ≠ r → e ∈ run_edges d' ↔ e ∈ run_edges d
}.

Definition moved d d' (st' : StepStatus) s : Prop :=
  ∃ x x', row d r s = Some x ∧ row d' r s = Some x' ∧
    step_Status x = StepStatusPending ∧ step_Status x' = st'.

Record fan_rel d (res : fanOutResult) d' (res' : fanOutResult) : Prop := mkFanRel {
  fr_steps : tx_steps d d';
  fr_run : run_same d d';
  fr_others : others_same d d';
  fr_rows : ∀ s x, row d r s = Some x → ∃ x', row d' r s = Some x' ∧ fanned x x';
  fr_none : ∀ s, row d r s = None → row d' r s = None;
  fr_edges : ∀ e, e ∈ run_edges d → ¬ unresolved e → e ∈ run_edges d';
  fr_readied : ∃ l, readied res' = readied res ++ l ∧ ∀ s, s ∈ l ↔ moved d d' StepStatusReady s;
  fr_skipped : ∃ l, skipped res' = skipped res ++ l ∧ ∀ s, s ∈ l ↔ moved d d' StepStatusSkipped s
}.

Lemma row_deps_nonneg d s x : db_inv d → row d r s = Some x → 0 ≤ step_RemainingDeps x ∧ 0 ≤ step_FiredDeps x.
Proof.
  intros H Hx%row_elem. destruct (inv_deps _ H x Hx) as [-> ->]. split; apply count_nonneg.
Qed.

Lemma fanned_refl d s x : db_inv d → row d r s = Some x → fanned x x.
Proof. intros H Hx. destruct (row_deps_nonneg d s x H Hx). split; auto with lia. Qed.

Lemma fanned_trans x1 x2 x3 : step_key x2 = step_key x1 → step_key x3 = step_key x2 →
  0 ≤ step_FiredDeps x3 → fanned x1 x2 → fanned x2 x3 → fanned x1 x3.
Proof.
  intros K1 K2 Hpos [T1 C1 R1 F1 S1 St1] [T2 C2 R2 F2 S2 St2].
  assert (isJoinAny x3 = isJoinAny x2) as Hj by by apply isJoinAny_kind.
  split; [congruence|congruence|lia|lia|lia|].
  destruct St1 as [E1|[P1 [(E1 & Hf & Hr)|(E1 & Hr & Hf)]]], St2 as [E2|[P2 Hc]]; try congruence.
  - left. congruence.
  - right. split; [congruence|done].
  - right. split; [done|]. left. split_and!; [congruence|lia|]. rewrite Hj.
    destruct Hr as [Hr|Hr]; [left; lia|by right].
  - right. split; [done|]. right. split_and!; [congruence|lia|lia].
Qed.

Definition rows_fanned d d' : Prop :=
  (∀ s x, row d r s = Some x → ∃ x', row d' r s = Some x' ∧ fanned x x') ∧
  (∀ s, row d r s = None → row d' r s = None).

Lemma moved_trans d1 d2 d3 st s : st ≠ StepStatusPending → rows_fanned d1 d2 → rows_fanned d2 d3 →
  moved d1 d3 st s ↔ moved d1 d2 st s ∨ moved d2 d3 st s.
Proof.
  intros Hst [H12 N12] [H23 _]. split.
  - intros (x1 & x3 & Hx1 & Hx3 & Hp & <-). destruct (H12 _ _ Hx1) as (x2 & Hx2 & F12).
    destruct (H23 _ _ Hx2) as (x3' & Hx3' & F23). rewrite Hx3 in Hx3'. injection Hx3' as <-.
    destruct (decide (step_Status x2 = StepStatusPending)) as [E|Hne]; [right; by exists x2, x3|].
    left. exists x1, x2. split_and!; [done..|].
    destruct (fa_status _ _ F23) as [?|[? _]]; [congruence|done].
  - intros [(x1 & x2 & Hx1 & Hx2 & Hp & E)|(x2 & x3 & Hx2 & Hx3 & Hp & E)].
    + destruct (H23 _ _ Hx2) as (x3 & Hx3 & F23). exists x1, x3. split_and!; [done..|].
      destruct (fa_status _ _ F23) as [?|[? _]]; congruence.
    + destruct (row d1 r s) as [x1|] eqn:Hx1; [|by rewrite N12 in Hx2].
      destruct (H12 _ _ Hx1) as (x2' & Hx2' & F12). rewrite Hx2 in Hx2'. injection Hx2' as <-.
      exists x1, x3. split_and!; [done..| |done].
      destruct (fa_status _ _ F12) as [?|[_ [(?&_)|(?&_)]]]; congruence.
Qed.

Lemma rows_key d d' s x x' : row d r s = Some x → row d' r s = Some x' → step_key x' = step_key x.
Proof. intros [E1 E2]%row_key [E3 E4]%row_key. unfold step_key. congruence. Qed.

Lemma fan_rel_refl d res : db_inv d → fan_rel d res d res.
Proof.
  intros H. split; [done|by intros y ?; eauto|by split|..]; try done.
  - intros s x Hx. exists x. split; [done|by eapply fanned_refl].
  - exists []. rewrite app_nil_r. split; [done|]. intros s. split; [by intros ?%not_elem_of_nil|].
    intros (x & x' & Hx & Hx' & Hp & E). congruence.
  - exists []. rewrite app_nil_r. split; [done|]. intros s. split; [by intros ?%not_elem_of_nil|].
    intros (x & x' & Hx & Hx' & Hp & E). congruence.
Qed.

Lemma fan_rel_trans d1 r1 d2 r2 d3 r3 : db_inv d1 → fan_rel d1 r1 d2 r2 → fan_rel d2 r2 d3 r3 →
  fan_rel d1 r1 d3 r3.
Proof.
  intros H [S1 R1 O1 W1 N1 E1 A1 K1] [S2 R2 O2 W2 N2 E2 A2 K2].
  assert (rows_fanned d1 d2) as F1 by done. assert (rows_fanned d2 d3) as F2 by done.
  assert (tx_steps d1 d3) as S by by etrans. split; [done|..].
  - intros y Hy. destruct (R1 y Hy) as (y2 & Hy2 & ? & ?). destruct (R2 y2 Hy2) as (y3 & ? & ? & ?).
    exists y3. split_and!; congruence.
  - split.
    + intros r' Hne. rewrite (ot_run _ _ O2), (ot_run _ _ O1) by done. done.
    + intros r' s Hne. rewrite (ot_row _ _ O2), (ot_row _ _ O1) by done. done.
    + intros e Hne. rewrite (ot_edge _ _ O2), (ot_edge _ _ O1) by done. done.
  - intros s x1 Hx1. destruct (W1 s x1 Hx1) as (x2 & Hx2 & F12). destruct (W2 s x2 Hx2) as (x3 & Hx3 & F23).
    exists x3. split; [done|]. apply (fanned_trans x1 x2); [by eapply rows_key|by eapply rows_key| |done|done].
    eapply row_deps_nonneg; [|done]. by eapply tx_steps_inv.
  - auto.
  - auto.
  - destruct A1 as (l1 & Q1 & Hl1), A2 as (l2 & Q2 & Hl2). exists (l1 ++ l2). rewrite Q2, Q1, app_assoc.
    split; [done|]. intros s. by rewrite elem_of_app, Hl1, Hl2, <-moved_trans.
  - destruct K1 as (l1 & Q1 & Hl1), K2 as (l2 & Q2 & Hl2). exists (l1 ++ l2). rewrite Q2, Q1, app_assoc.
    split; [done|]. intros s. by rewrite elem_of_app, Hl1, Hl2, <-moved_trans.
Qed.

(** ** One resolved edge *)

Definition skips d : Z := match run_at d r with Some y => run_StepsSkipped y | None => 0 end.

(** The state of the loop: [W] lists the ordinals still in the worklist. *)
Record fan_inv d (W : list Z) : Prop := mkFanInv {
  fi_db : db_inv d;
  fi_core : graph_core r d W [];
  fi_off : written_off r d;
  fi_run : is_Some (run_at d r)
}.

(** The change a resolution makes, before the target is looked at. *)
Lemma resolve_rel d e f x res : db_inv d → edge_of r d e → unresolved e → row d r (edge_ToStep e) = Some x →
  is_Some (run_at d r) → fan_rel d res (resolved_db e f now d) res.
Proof.
  intros H He Hu Hx [y Hy].
  assert (1 ≤ step_RemainingDeps x) as Hrem by by eapply unresolved_remaining.
  destruct (row_deps_nonneg d _ x H Hx) as [_ Hfired].
  assert (tx_step d (resolved_db e f now d)) as Hs.
  { destruct He as (Hin & Er & Ht). eapply ts_resolve; [exact Hy| |done|done].
    rewrite <-Er. by apply (find_key edge_key (λ k, is_edge k.1 k.2) is_edge_key); [apply H|]. }
  assert (∀ st s, st ≠ StepStatusPending → ¬ moved d (resolved_db e f now d) st s) as Hm.
  { intros st s Hst (z & z' & Hz & Hz' & Hp & <-).
    destruct (resolved_rows r d e f now x He Hx s z Hz) as (w & Hw & Hc).
    rewrite Hz' in Hw. injection Hw as <-. destruct Hc as [(_ & -> & ->)|[_ ->]]; done. }
  split; [by apply rtc_once|by intros ? ?; eauto| | | | | |].
  - split; [done| |].
    + intros r' s Hne. apply (resolved_row_ne r d e f now He). congruence.
    + intros e' Hne. rewrite elem_of_resolved_edges; [|done|apply He]. destruct He as (_ & Er & _). split.
      * intros [->|[? _]]; done.
      * intros ?. right. split; [done|]. unfold edge_key. congruence.
  - intros s z Hz. destruct (resolved_rows r d e f now x He Hx s z Hz) as (w & Hw & Hc). exists w.
    split; [done|]. destruct Hc as [(_ & -> & ->)|[_ ->]]; [|by eapply fanned_refl].
    split; cbn; [done|done|lia|destruct f; lia|destruct f; lia|by left].
  - intros s Hn. destruct (row (resolved_db e f now d) r s) as [z|] eqn:Hz; [|done].
    destruct (resolved_rows_inv r d e f now x He Hx s z Hz) as (w & Hw & _). congruence.
  - intros e' He' Hu'. apply elem_of_resolved_edges; [done|apply He|]. right. split; [done|].
    intros Ek. apply Hu'. enough (e' = e) as -> by done.
    apply (keyed_unique edge_key (λ k, is_edge k.1 k.2) is_edge_key (run_edges d)); [apply H|done|apply He|done].
  - exists []. rewrite app_nil_r. split; [done|]. intros s.
    split; [by intros ?%not_elem_of_nil|by intros ?%Hm].
  - exists []. rewrite app_nil_r. split; [done|]. intros s.
    split; [by intros ?%not_elem_of_nil|by intros ?%Hm].
Qed.

(** The rows after a status change of [s]. *)
Lemma changes_rows d d' s x x' run run' t y : changes r s x x' run run' d d' → row d r t = Some y →
  ∃ y', row d' r t = Some y' ∧ (t = s ∧ y = x ∧ y' = x' ∨ t ≠ s ∧ y' = y).
Proof.
  intros C Hy. destruct (decide (t = s)) as [->|Hne].
  - rewrite (ch_row _ _ _ _ _ _ _ _ C) in Hy. injection Hy as <-. exists x'. split; [apply C|by left].
  - exists y. rewrite (ch_rows _ _ _ _ _ _ _ _ C) by congruence. split; [done|by right].
Qed.

Lemma changes_moved d d' s x x' run run' st t : changes r s x x' run run' d d' →
  step_Status x = StepStatusPending → st ≠ StepStatusPending →
  moved d d' st t ↔ t = s ∧ step_Status x' = st.
Proof.
  intros C Hp Hst. split.
  - intros (y & y' & Hy & Hy' & Hpy & E). destruct (changes_rows _ _ _ _ _ _ _ _ _ C Hy) as (z & Hz & Hc).
    rewrite Hy' in Hz. injection Hz as <-. destruct Hc as [(-> & -> & ->)|[_ ->]]; [done|congruence].
  - intros [-> E]. exists x, x'. split_and!; [apply C|apply C|done|done].
Qed.

Lemma change_rel d d' s x x' run run' res res' : db_inv d → changes r s x x' run run' d d' →
  step_Status x = StepStatusPending → fanned x x' → run_Status run' = run_Status run →
  res' = (if bool_decide (step_Status x' = StepStatusReady)
          then mkFanOutResult (readied res ++ [s]) (skipped res)
          else mkFanOutResult (readied res) (skipped res ++ [s])) →
  step_Status x' = StepStatusReady ∨ step_Status x' = StepStatusSkipped →
  fan_rel d res d' res'.
Proof.
  intros H C Hp F Hst -> Hto. pose proof (ch_run _ _ _ _ _ _ _ _ C) as RC. split.
  - apply rtc_once, RC.
  - intros y Hy. rewrite (rch_run _ _ _ _ _ RC) in Hy. injection Hy as <-. exists run'.
    split_and!; [apply RC|done|apply RC].
  - split; [apply RC| |].
    + intros r' t Hne. apply C. congruence.
    + by rewrite (rch_edges _ _ _ _ _ RC).
  - intros t y Hy. destruct (changes_rows _ _ _ _ _ _ _ _ _ C Hy) as (y' & Hy' & Hc). exists y'.
    split; [done|]. destruct Hc as [(_ & -> & ->)|[_ ->]]; [done|by eapply fanned_refl].
  - intros t Hn. rewrite (ch_rows _ _ _ _ _ _ _ _ C); [done|].
    intros [= ->]. by rewrite (ch_row _ _ _ _ _ _ _ _ C) in Hn.
  - by rewrite (rch_edges _ _ _ _ _ RC).
  - destruct Hto as [E|E]; rewrite E; cbn; [exists [s]|exists []; rewrite app_nil_r]; (split; [done|]); intros t;
      rewrite (changes_moved _ _ _ _ _ _ _ StepStatusReady _ C), E by done.
    + rewrite list_elem_of_singleton. naive_solver.
    + split; [by intros ?%not_elem_of_nil|by intros [_ ?]].
  - destruct Hto as [E|E]; rewrite E; cbn; [exists []; rewrite app_nil_r|exists [s]]; (split; [done|]); intros t;
      rewrite (changes_moved _ _ _ _ _ _ _ StepStatusSkipped _ C), E by done.
    + split; [by intros ?%not_elem_of_nil|by intros [_ ?]].
    + rewrite list_elem_of_singleton. naive_solver.
Qed.

(** ** ReadyStep and SkipStep on a target whose counters allow it *)

Lemma ready_target d s x joinAny : db_inv d → is_Some (run_at d r) → row d r s = Some x →
  step_Status x = StepStatusPending → 1 ≤ step_FiredDeps x →
  (step_RemainingDeps x =? 0) || joinAny = true →
  ∃ run run' d', ReadyStep r s joinAny now d = (Ok (ready_set now x), d') ∧
    changes r s x (ready_set now x) run run' d d' ∧ run_Status run' = run_Status run ∧
    run_StepsSkipped run' = run_StepsSkipped run.
Proof.
  intros H [run Hrun] Hx Hp Hf Hr.
  assert (readyable joinAny x = true) as Hg.
  { unfold readyable, has_status. rewrite Hp, Hr. cbn. rewrite andb_true_r. by apply Z.leb_le. }
  destruct (guarded_accept _ _ _ _ _ _ _ _ (ReadyStep_guarded d r s run x H Hrun Hx joinAny now Hnow) Hg)
    as [E S].
  exists run. eexists _, _. split; [exact E|].
  split; [exact (effect_changes _ _ _ _ _ _ H Hrun Hx S)|done].
Qed.

Lemma skip_target d s x : db_inv d → is_Some (run_at d r) → row d r s = Some x →
  step_Status x = StepStatusPending → step_RemainingDeps x = 0 → step_FiredDeps x = 0 →
  ∃ run run' d', SkipStep r s now d = (Ok (skip_set now x), d') ∧
    changes r s x (skip_set now x) run run' d d' ∧ run_Status run' = run_Status run ∧
    run_StepsSkipped run' = run_StepsSkipped run + 1.
Proof.
  intros H [run Hrun] Hx Hp Hr Hf.
  assert (skippable x = true) as Hg by by unfold skippable, has_status; rewrite Hp, Hr, Hf.
  destruct (guarded_accept _ _ _ _ _ _ _ _ (SkipStep_guarded d r s run x H Hrun Hx now Hnow) Hg) as [E S].
  exists run. eexists _, _. split; [exact E|].
  split; [exact (effect_changes _ _ _ _ _ _ H Hrun Hx S)|done].
Qed.

(** ** One verdict *)

Definition ords (work : list (list edgeVerdict)) : list Z := (concat work).*1.

Lemma ords_app w1 w2 : ords (w1 ++ w2) = ords w1 ++ ords w2.
Proof. unfold ords. by rewrite concat_app, fmap_app. Qed.

Lemma allSkipped_ords d s : (allSkippedVerdicts (out_edges r d s)).*1 = out_ords r d s.
Proof. unfold allSkippedVerdicts, out_ords. by rewrite <-list_fmap_compose. Qed.

(** The edge [o] of the run carries the verdict [f]. *)
Definition has_verdict d (v : edgeVerdict) : Prop :=
  ∃ e, edge_of r d e ∧ edge_Ordinal e = v.1 ∧ edge_Resolution e = verdict v.2.

Lemma has_verdict_rel d res d' res' v : fan_rel d res d' res' → has_verdict d v → has_verdict d' v.
Proof.
  intros F (e & (He & Er & Ht) & Eo & Ev). exists e. split; [|done]. split; [|done].
  apply (fr_edges _ _ _ _ F e He). unfold unresolved. rewrite Ev. by destruct v.2.
Qed.

(** A status change of the target outside the doomed steps keeps the rest. *)
Lemma written_off_change d d' s x x' run run' : changes r s x x' run run' d d' → written_off r d →
  ¬ doomed r d s → step_Status x' ≠ StepStatusCancelled → written_off r d'.
Proof.
  intros C Hoff Hnd Hst t y Hy Hc. apply (doomed_change r d d' s x x' run run' C); [done..|].
  destruct (decide (t = s)) as [->|Hne].
  - rewrite (ch_row' _ _ _ _ _ _ _ _ C) in Hy. congruence.
  - rewrite (ch_rows _ _ _ _ _ _ _ _ C) in Hy by congruence. by eapply Hoff.
Qed.

(** What one verdict leads to. *)
Definition verdict_done d o f res W d' res' (new : list (list edgeVerdict)) : Prop :=
  fan_rel d res d' res' ∧ fan_inv d' (W ++ ords new) ∧ has_verdict d' (o, f) ∧
  skips d' = skips d + Z.of_nat (length new).

Section one.
Context (d : DB) (o : Z) (f : bool) (W : list Z) (res : fanOutResult) (e : RunEdge) (x : RunStep).
Context (I : fan_inv d (o :: W)) (He : edge_of r d e) (Eo : edge_Ordinal e = o) (Hu : unresolved e).
Context (Hx : row d r (edge_ToStep e) = Some x).
Context (Hsrc : ∀ y, row d r (edge_FromStep e) = Some y → absorbing (step_Status y) = true).
Abbreviation d1 := (resolved_db e f now d).
Abbreviation x1 := (dep_set f now x).
Abbreviation t := (edge_ToStep e).

Lemma one_db : db_inv d1.
Proof. eapply tx_steps_inv; [apply I|]. apply (resolve_rel d e f x res); [apply I|done..|apply I]. Qed.
Lemma one_rel : fan_rel d res d1 res.
Proof. apply (resolve_rel d e f x res); [apply I|done..|apply I]. Qed.
Lemma one_core : graph_core r d1 W [t].
Proof. apply (resolved_core r d e f now x); [apply I|done..|]. rewrite Eo. apply I. Qed.
Lemma one_off : written_off r d1.
Proof. apply (resolved_written_off r d e f now x); [apply I|done..|apply I]. Qed.
Lemma one_row : row d1 r t = Some x1.
Proof. by apply resolved_row. Qed.
Lemma one_run : is_Some (run_at d1 r).
Proof. apply (fi_run _ _ I). Qed.
Lemma one_verdict : has_verdict d1 (o, f).
Proof.
  exists (resolve_set f e). split_and!; [|done|done].
  apply (resolved_edge_of r d e f now); [apply I|done|]. by left.
Qed.

(** A target that can no longer wait is not doomed. *)
Lemma one_not_doomed : waits (step_Status x1) = true →
  step_RemainingDeps x1 = 0 ∨ 1 ≤ step_FiredDeps x1 ∧ isJoinAny x1 = inr true → ¬ doomed r d1 t.
Proof.
  intros Hw Hc Hd. destruct (doomed_waits r d1 t x1 one_db Hd one_row Hw) as [Hrem Hf].
  destruct Hc as [?|[? Hj]]; [lia|]. specialize (Hf Hj). lia.
Qed.

Lemma one_wait : (step_Status x1 = StepStatusPending → 1 ≤ step_RemainingDeps x1 ∧
    (isJoinAny x1 = inr true → step_FiredDeps x1 = 0)) →
  verdict_done d o f res W d1 res [].
Proof.
  intros Hp. unfold verdict_done. change (ords []) with (@nil Z). rewrite app_nil_r.
  split_and!; [apply one_rel| |apply one_verdict|change (skips d1) with (skips d); cbn; lia].
  split; [apply one_db| |apply one_off|apply one_run].
  apply (core_settle r d1 W t one_core). intros y Hy Hw. rewrite one_row in Hy. injection Hy as <-.
  destruct (decide (step_Status x1 = StepStatusPending)) as [E|Hne]; [auto|].
  apply (doomed_waits r d1 t x1); [apply one_db| |apply one_row|done].
  apply (one_off t x1 one_row). by destruct (step_Status x1).
Qed.

Lemma one_ready b : isJoinAny x1 = inr b → step_Status x1 = StepStatusPending → 1 ≤ step_FiredDeps x1 →
  (step_RemainingDeps x1 =? 0) || b = true →
  ∃ d2, ReadyStep r t b now d1 = (Ok (ready_set now x1), d2) ∧
    verdict_done d o f res W d2 (mkFanOutResult (readied res ++ [t]) (skipped res)) [].
Proof.
  intros Hj Hp Hf Hg. pose proof one_db as H1.
  destruct (ready_target d1 t x1 b H1 one_run one_row Hp Hf Hg) as (run & run' & d2 & E & C & Hst & Hsk).
  destruct (row_deps_nonneg d1 t x1 H1 one_row) as [Hr0 Hf0].
  assert (step_RemainingDeps x1 = 0 ∨ isJoinAny x1 = inr true) as Hor.
  { apply orb_prop in Hg as [?%Z.eqb_eq| ->]; auto. }
  assert (fan_rel d1 res d2 (mkFanOutResult (readied res ++ [t]) (skipped res))) as F2.
  { eapply (change_rel d1 d2 t x1 (ready_set now x1)); [done..| |done|done|by left].
    split; [done|done|done|done|done|]. right. split; [done|]. by left. }
  exists d2. split; [done|]. unfold verdict_done. change (ords []) with (@nil Z). rewrite app_nil_r.
  split_and!.
  - eapply fan_rel_trans; [apply I|apply one_rel|done].
  - split.
    + eapply tx_steps_inv; [exact H1|apply F2].
    + apply (core_settle r d2 W t).
      * eapply core_change; [exact C|apply one_core|by rewrite Hp|done|done].
      * intros y Hy. rewrite (ch_row' _ _ _ _ _ _ _ _ C) in Hy. by injection Hy as <-.
    + eapply written_off_change; [exact C|apply one_off| |done]. apply one_not_doomed; [by rewrite Hp|].
      destruct Hor; auto.
    + rewrite (rch_run' _ _ _ _ _ (ch_run _ _ _ _ _ _ _ _ C)). eauto.
  - eapply has_verdict_rel; [exact F2|apply one_verdict].
  - unfold skips. pose proof (ch_run _ _ _ _ _ _ _ _ C) as RC.
    pose proof (rch_run _ _ _ _ _ RC) as R1. change (run_at d1 r) with (run_at d r) in R1.
    rewrite (rch_run' _ _ _ _ _ RC), R1. cbn. lia.
Qed.

Lemma one_skip : step_Status x1 = StepStatusPending → step_RemainingDeps x1 = 0 → step_FiredDeps x1 = 0 →
  ∃ d2, SkipStep r t now d1 = (Ok (skip_set now x1), d2) ∧ run_edges d2 = run_edges d1 ∧
    verdict_done d o f res W d2 (mkFanOutResult (readied res) (skipped res ++ [t]))
      [allSkippedVerdicts (out_edges r d2 t)].
Proof.
  intros Hp Hr Hf. pose proof one_db as H1.
  destruct (skip_target d1 t x1 H1 one_run one_row Hp Hr Hf) as (run & run' & d2 & E & C & Hst & Hsk).
  pose proof (ch_run _ _ _ _ _ _ _ _ C) as RC. pose proof (rch_edges _ _ _ _ _ RC) as Ee.
  assert (fan_rel d1 res d2 (mkFanOutResult (readied res) (skipped res ++ [t]))) as F2.
  { eapply (change_rel d1 d2 t x1 (skip_set now x1)); [done..| |done|done|by right].
    split; [done|done|cbn in *; lia|done|done|]. right. split; [done|]. by right. }
  exists d2. split; [done|]. split; [done|]. unfold verdict_done. split_and!.
  - eapply fan_rel_trans; [apply I|apply one_rel|done].
  - split.
    + eapply tx_steps_inv; [exact H1|apply F2].
    + unfold ords. cbn [concat]. rewrite app_nil_r, allSkipped_ords.
      assert (out_ords r d2 t = out_ords r d1 t) as -> by by unfold out_ords, out_edges; rewrite Ee.
      apply (core_settle r d2 _ t).
      * eapply core_finish; [exact H1|exact C|apply one_core|by rewrite Hp|done].
      * intros y Hy. rewrite (ch_row' _ _ _ _ _ _ _ _ C) in Hy. by injection Hy as <-.
    + eapply written_off_change; [exact C|apply one_off| |done]. apply one_not_doomed; [by rewrite Hp|auto].
    + rewrite (rch_run' _ _ _ _ _ RC). eauto.
  - eapply has_verdict_rel; [exact F2|apply one_verdict].
  - unfold skips. pose proof (rch_run _ _ _ _ _ RC) as R1. change (run_at d1 r) with (run_at d r) in R1.
    rewrite (rch_run' _ _ _ _ _ RC), R1. cbn. lia.
Qed.
End one.

(** The ordinal at the head of the worklist is an unresolved edge of a finished
    step. *)
Lemma work_edge d o W : fan_inv d (o :: W) →
  ∃ e x, edge_of r d e ∧ edge_Ordinal e = o ∧ unresolved e ∧ row d r (edge_ToStep e) = Some x ∧
    find (is_edge r o) (run_edges d) = Some e ∧
    ∀ y, row d r (edge_FromStep e) = Some y → absorbing (step_Status y) = true.
Proof.
  intros I. pose proof (fi_db _ _ I) as H. pose proof (fi_core _ _ I) as G.
  destruct (gc_source _ _ _ _ G o) as (e & y & He & Eo & Hy & Hab); [by left|].
  destruct (gc_edge _ _ _ _ G e He) as (y' & Hy' & Hu).
  destruct He as (Hin & Er & Ht). destruct (inv_edge_step _ H e Hin) as (x & Hxin & E1 & E2).
  exists e, x. split; [done|]. split_and!; [done|apply Hu; right; rewrite Eo; by left| | |].
  - rewrite <-Er, <-E1, <-E2. by apply elem_row.
  - rewrite <-Er, <-Eo. by apply (find_key edge_key (λ k, is_edge k.1 k.2) is_edge_key); [apply H|].
  - intros z Hz. by rewrite Hz in Hy; injection Hy as ->.
Qed.

Lemma resolve_one d o f W res : fan_inv d (o :: W) →
  ∃ d' res' new, (∀ vs work, resolve_verdicts r now ((o, f) :: vs) work res d =
                             resolve_verdicts r now vs (work ++ new) res' d') ∧
    verdict_done d o f res W d' res' new.
Proof.
  intros I. destruct (work_edge d o W I) as (e & x & He & Eo & Hu & Hx & Hfind & Hsrc).
  destruct (fi_run _ _ I) as [run Hrun].
  pose proof (ResolveEdge_eval d r o run e (fi_db _ _ I) Hrun Hfind f now x Hnow Hx) as ER.
  destruct He as (Hin & Er & Ht). unfold unresolved in Hu. rewrite Ht, Hu in ER.
  assert (edge_of r d e) as He by done. set (x1 := dep_set f now x) in *.
  pose proof (one_row d f e x He Hx) as Hx1. fold x1 in Hx1. destruct (row_key _ _ _ _ Hx1) as [_ Hid].
  assert (∀ vs work, resolve_verdicts r now ((o, f) :: vs) work res d =
    (if negb (has_status StepStatusPending x1) then resolve_verdicts r now vs work res
     else let! joinAny := lift (isJoinAny x1) in
          if (1 <=? step_FiredDeps x1) && ((step_RemainingDeps x1 =? 0) || joinAny) then
            ReadyStep r (edge_ToStep e) joinAny now ;;
            resolve_verdicts r now vs work (mkFanOutResult (readied res ++ [edge_ToStep e]) (skipped res))
          else if (step_RemainingDeps x1 =? 0) && (step_FiredDeps x1 =? 0) then
            SkipStep r (edge_ToStep e) now ;;
            let! outEdges := ListEdgesFromStep r (edge_ToStep e) in
            resolve_verdicts r now vs (work ++ [allSkippedVerdicts outEdges])
              (mkFanOutResult (readied res) (skipped res ++ [edge_ToStep e]))
          else resolve_verdicts r now vs work res) (resolved_db e f now d)) as Eq.
  { intros vs work. cbn [resolve_verdicts]. unfold bind at 1. rewrite ER. cbn [Resolved ToStep].
    by rewrite Hid. }
  pose proof (row_deps_nonneg _ _ _ (one_db d o f W res e x I He Hu Hx) Hx1) as [Hr0 Hf0].
  assert (∀ b, isJoinAny x1 = inr b → verdict_done d o f res W (resolved_db e f now d) res [] →
    ∃ d' res' new, (∀ vs work, resolve_verdicts r now vs work res (resolved_db e f now d) =
      resolve_verdicts r now vs (work ++ new) res' d') ∧ verdict_done d o f res W d' res' new) as Hstay.
  { intros b _ V. exists (resolved_db e f now d), res, []. split; [|done]. intros. by rewrite app_nil_r. }
  destruct (gc_join _ _ _ _ (fi_core _ _ I) _ _ Hx) as [b Hb].
  setoid_rewrite Eq. clear Eq. unfold has_status.
  destruct (decide (step_Status x1 = StepStatusPending)) as [Hp|Hp].
  2:{ rewrite bool_decide_eq_false_2 by done. apply (Hstay b Hb).
      apply (one_wait d o f W res e x I He Eo Hu Hx Hsrc). by intros. }
  rewrite bool_decide_eq_true_2 by done. cbn [negb].
  assert (∀ A (k : bool → Tx A) d0, (let! j := lift (isJoinAny x1) in k j) d0 = k b d0) as Hl.
  { intros A k d0. change (isJoinAny x1) with (isJoinAny x). by rewrite Hb. }
  setoid_rewrite Hl. clear Hl.
  destruct ((1 <=? step_FiredDeps x1) && ((step_RemainingDeps x1 =? 0) || b)) eqn:Hg.
  - apply andb_prop in Hg as [Hf%Z.leb_le Hg].
    destruct (one_ready d o f W res e x I He Eo Hu Hx Hsrc b Hb Hp Hf Hg) as (d2 & E2 & V).
    eexists d2, _, []. split; [|exact V]. intros. unfold bind. by rewrite E2, app_nil_r.
  - destruct ((step_RemainingDeps x1 =? 0) && (step_FiredDeps x1 =? 0)) eqn:Hg2.
    + apply andb_prop in Hg2 as [Hr%Z.eqb_eq Hf%Z.eqb_eq].
      destruct (one_skip d o f W res e x I He Eo Hu Hx Hsrc Hp Hr Hf) as (d2 & E2 & Ee & V).
      eexists d2, _, _. split; [|exact V]. intros. unfold bind at 1. by rewrite E2.
    + apply (Hstay b Hb). apply (one_wait d o f W res e x I He Eo Hu Hx Hsrc). intros _. fold x1.
      assert (step_RemainingDeps x1 ≠ 0) as Hr.
      { intros E. rewrite E, Z.eqb_refl in Hg, Hg2. rewrite orb_true_l, andb_true_r in Hg.
        rewrite andb_true_l in Hg2. lia. }
      split; [lia|]. change (isJoinAny x1) with (isJoinAny x). rewrite Hb. intros [= ->].
      rewrite orb_true_r, andb_true_r in Hg. lia.
Qed.

(** ** A source's verdicts, and the worklist *)

Lemma resolve_all vs : ∀ d work res, fan_inv d (vs.*1 ++ ords work) →
  ∃ d' res' new, resolve_verdicts r now vs work res d = (Ok (work ++ new, res'), d') ∧
    fan_rel d res d' res' ∧ fan_inv d' (ords (work ++ new)) ∧ Forall (has_verdict d') vs ∧
    skips d' = skips d + Z.of_nat (length new).
Proof.
  induction vs as [|[o f] vs IH]; intros d work res I.
  - exists d, res, []. rewrite app_nil_r. split_and!; [done|apply fan_rel_refl, I|done|done|cbn; lia].
  - cbn [fmap list_fmap fst app] in I. destruct (resolve_one d o f _ res I) as (d1 & res1 & new1 & E1 & F1 & I1 & V1 & S1).
    rewrite <-app_assoc, <-ords_app in I1.
    destruct (IH d1 (work ++ new1) res1 I1) as (d2 & res2 & new2 & E2 & F2 & I2 & V2 & S2).
    exists d2, res2, (new1 ++ new2). rewrite E1, E2, <-!app_assoc in *. split_and!.
    + done.
    + eapply fan_rel_trans; [apply I|done..].
    + done.
    + constructor; [by eapply has_verdict_rel|done].
    + rewrite length_app. lia.
Qed.

Lemma skips_bound d W : fan_inv d W → skips d ≤ Z.of_nat (length (run_steps d)).
Proof.
  intros I. destruct (fi_run _ _ I) as [y Hy]. unfold skips. rewrite Hy.
  apply (find_key_Some run_ID is_run is_run_key) in Hy as [Hy _].
  rewrite (ri_skipped _ _ (inv_run _ (fi_db _ _ I) y Hy)). apply count_length.
Qed.

Lemma fan_length d res d' res' : fan_rel d res d' res' → length (run_steps d') = length (run_steps d).
Proof.
  intros F. pose proof (fr_steps _ _ _ _ F) as S. clear F.
  induction S as [|d1 d2 d3 [] _ IH]; [done|rewrite IH; cbn; rewrite ?length_set_row; done..].
Qed.

Lemma fan_all fuel : ∀ d work res, fan_inv d (ords work) →
  Z.of_nat (length work) + Z.of_nat (length (run_steps d)) - skips d ≤ Z.of_nat fuel →
  ∃ d' res', fan_loop r now fuel work res d = (Ok res', d') ∧ fan_rel d res d' res' ∧ fan_inv d' [] ∧
    Forall (has_verdict d') (concat work).
Proof.
  induction fuel as [|fuel IH]; intros d work res I Hfuel; destruct work as [|vs work].
  - exists d, res. split_and!; [done|apply fan_rel_refl, I|done|constructor].
  - pose proof (skips_bound d _ I). cbn in Hfuel. lia.
  - exists d, res. split_and!; [done|apply fan_rel_refl, I|done|constructor].
  - change (ords (vs :: work)) with ((vs ++ concat work).*1) in I. rewrite fmap_app in I.
    destruct (resolve_all vs d work res I) as (d1 & res1 & new & E1 & F1 & I1 & V1 & S1).
    destruct (IH d1 (work ++ new) res1 I1) as (d2 & res2 & E2 & F2 & I2 & V2).
    { rewrite (fan_length _ _ _ _ F1), length_app. cbn [length] in Hfuel. lia. }
    exists d2, res2. cbn [fan_loop]. unfold bind at 1. rewrite E1. cbn [fst snd]. split_and!; [done| |done|].
    + eapply fan_rel_trans; [apply I|done..].
    + cbn [concat]. rewrite concat_app in V2. apply Forall_app in V2 as [V2 _]. apply Forall_app. split; [|done].
      eapply Forall_impl; [exact V1|]. intros v. by apply has_verdict_rel with res1 res2.
Qed.

(** The fuel of [fanOut] suffices: a source enters the worklist when its step
    turns skipped. *)
Lemma fanOut_ok d seed : fan_inv d seed.*1 →
  ∃ d' res, fanOut r now seed d = (Ok res, d') ∧ fan_rel d (mkFanOutResult [] []) d' res ∧ fan_inv d' [] ∧
    Forall (has_verdict d') seed.
Proof.
  intros I. unfold fanOut, bind, get.
  assert (0 ≤ skips d).
  { destruct (fi_run _ _ I) as [y Hy]. unfold skips. rewrite Hy.
    apply (find_key_Some run_ID is_run is_run_key) in Hy as [Hy _].
    rewrite (ri_skipped _ _ (inv_run _ (fi_db _ _ I) y Hy)). apply count_nonneg. }
  destruct (fan_all (S (length (run_steps d))) d [seed] (mkFanOutResult [] [])) as (d' & res & E & F & I' & V).
  - unfold ords. cbn [concat]. by rewrite app_nil_r.
  - cbn [length]. lia.
  - exists d', res. cbn [concat] in V. rewrite app_nil_r in V. done.
Qed.
End fan.
