(* ===== verification/WriteOff.v ===== *)
(** The dead-letter write-off: [planWriteOff] terminates and computes exactly the
    pending steps that can never become ready. *)
From S2P Require Import Prelude Retry StoreModel Transitions Config Dag Engine.
Open Scope Z_scope.

Section write_off.
Context (steps : list RunStep) (edges : list RunEdge).
Implicit Types (st : RunStep) (e : RunEdge) (s : string).

(** ** The specification: a least set, without rounds *)
Inductive lost : string → Prop :=
| lost_blocked st : st ∈ steps → blocked_status (step_Status st) = true → lost (step_StepID st)
| lost_all st e : st ∈ steps → step_Status st = StepStatusPending → isJoinAny st = inr false →
    e ∈ unresolved_in edges (step_StepID st) → lost (edge_FromStep e) → lost (step_StepID st)
| lost_any st : st ∈ steps → step_Status st = StepStatusPending → isJoinAny st = inr true →
    step_FiredDeps st = 0 → unresolved_in edges (step_StepID st) ≠ [] →
    (∀ e, e ∈ unresolved_in edges (step_StepID st) → lost (edge_FromStep e)) → lost (step_StepID st).

Definition pending_id s : Prop := ∃ st, st ∈ steps ∧ step_StepID st = s ∧ step_Status st = StepStatusPending.

(** ** One step of a round *)

(** The decision [write_off_round] takes for a pending, unmarked step. *)
Definition impossible_now (dead : gset string) (joinAny : bool) st : bool :=
  let inc := unresolved_in edges (step_StepID st) in
  let blockedIn := List.filter (λ e, bool_decide (edge_FromStep e ∈ dead)) inc in
  let liveIn := List.filter (λ e, negb (bool_decide (edge_FromStep e ∈ dead))) inc in
  if joinAny then (step_FiredDeps st =? 0) && negb (bool_decide (inc = [])) && bool_decide (liveIn = [])
  else negb (bool_decide (blockedIn = [])).

Lemma filter_nil {A} (p : A → bool) (l : list A) : List.filter p l = [] ↔ ∀ x, x ∈ l → p x = false.
Proof.
  induction l as [|a l IH]; cbn; [split; [by intros _ x ?%not_elem_of_nil|done]|].
  destruct (p a) eqn:Ha.
  - split; [done|]. intros H. specialize (H a). rewrite H in Ha by (by left). done.
  - rewrite IH. split; intros H x; [intros [->|?]%elem_of_cons; auto|intros ?; apply H; by right].
Qed.

Lemma impossible_all dead st : impossible_now dead false st = true ↔
  ∃ e, e ∈ unresolved_in edges (step_StepID st) ∧ edge_FromStep e ∈ dead.
Proof.
  unfold impossible_now. rewrite negb_true_iff, bool_decide_eq_false. split.
  - intros H. destruct (List.filter _ _) as [|e l] eqn:E; [done|].
    assert (e ∈ e :: l) as He by by left. rewrite <-E, list_elem_of_In, filter_In, <-list_elem_of_In in He.
    exists e. by destruct He as [? ?%bool_decide_eq_true].
  - intros (e & He & Hd) E. pose proof (proj1 (filter_nil _ _) E e He) as F. by apply bool_decide_eq_false in F.
Qed.

Lemma impossible_any dead st : impossible_now dead true st = true ↔
  step_FiredDeps st = 0 ∧ unresolved_in edges (step_StepID st) ≠ [] ∧
  ∀ e, e ∈ unresolved_in edges (step_StepID st) → edge_FromStep e ∈ dead.
Proof.
  unfold impossible_now. rewrite !andb_true_iff, Z.eqb_eq, negb_true_iff, bool_decide_eq_false, bool_decide_eq_true.
  rewrite filter_nil. split.
  - intros [[Hf Hn] H]. split_and!; [done|done|]. intros e He. specialize (H e He).
    by apply negb_false_iff, bool_decide_eq_true in H.
  - intros (Hf & Hn & H). split; [done|]. intros e He. by rewrite bool_decide_eq_true_2 by auto.
Qed.

(** ** A round *)

(** The bookkeeping of the loop: [marked] are the ids of [out], and [dead] adds
    the blocked ones. *)
Record round_inv (marked dead : gset string) (out : list string) : Prop := mkRound {
  rv_marked : ∀ s, s ∈ marked ↔ s ∈ out;
  rv_dead : ∀ s, s ∈ dead ↔ s ∈ out ∨ ∃ st, st ∈ steps ∧ step_StepID st = s ∧ blocked_status (step_Status st) = true;
  rv_lost : ∀ s, s ∈ out → lost s;
  rv_pending : ∀ s, s ∈ out → pending_id s;
  rv_nodup : NoDup out
}.

Lemma dead_lost marked dead out s : round_inv marked dead out → s ∈ dead → lost s.
Proof. intros R [?|(st & ? & <- & ?)]%(rv_dead _ _ _ R); [by eapply rv_lost|by apply lost_blocked]. Qed.

Definition decodes : Prop := ∀ st, st ∈ steps → ∃ b, isJoinAny st = inr b.
Context (Hdec : decodes).

(** No pending, unmarked step of [l] is impossible with respect to [dead]. *)
Definition settled (marked dead : gset string) (l : list RunStep) : Prop :=
  ∀ st b, st ∈ l → step_Status st = StepStatusPending → step_StepID st ∉ marked →
    isJoinAny st = inr b → impossible_now dead b st = false.

Lemma mark_inv marked dead out st b : round_inv marked dead out → st ∈ steps →
  step_Status st = StepStatusPending → step_StepID st ∉ marked → isJoinAny st = inr b →
  impossible_now dead b st = true →
  round_inv ({[step_StepID st]} ∪ marked) ({[step_StepID st]} ∪ dead) (out ++ [step_StepID st]).
Proof.
  intros R Hst Hp Hm Hj Hi. split.
  - intros s. rewrite elem_of_union, elem_of_app, elem_of_singleton, list_elem_of_singleton, (rv_marked _ _ _ R). tauto.
  - intros s. rewrite elem_of_union, elem_of_app, elem_of_singleton, list_elem_of_singleton, (rv_dead _ _ _ R). tauto.
  - intros s [?| ->%list_elem_of_singleton]%elem_of_app; [by eapply rv_lost|]. destruct b.
    + apply impossible_any in Hi as (Hf & Hn & Ha). eapply lost_any; [done..|].
      intros e He. eapply dead_lost; eauto.
    + apply impossible_all in Hi as (e & He & Hd). eapply lost_all; [done..|]. by eapply dead_lost.
  - intros s [?| ->%list_elem_of_singleton]%elem_of_app; [by eapply rv_pending|]. by exists st.
  - apply NoDup_app. split_and!; [apply R| |apply NoDup_singleton].
    intros s Hs ->%list_elem_of_singleton. apply Hm. by apply (rv_marked _ _ _ R).
Qed.

Lemma round_spec l : ∀ marked dead out, (∀ st, st ∈ l → st ∈ steps) → round_inv marked dead out →
  ∃ marked' dead' out', write_off_round edges l marked dead out = inr (marked', dead', out') ∧
    round_inv marked' dead' out' ∧ (∃ new, out' = out ++ new) ∧
    (out' = out → settled marked dead l).
Proof.
  induction l as [|st l IH]; intros marked dead out Hl R.
  - exists marked, dead, out. split_and!; [done|done|by exists []; rewrite app_nil_r|].
    intros _ st b ?%not_elem_of_nil. done.
  - assert (st ∈ steps) as Hst by (apply Hl; by left).
    assert (∀ st', st' ∈ l → st' ∈ steps) as Hl' by (intros; apply Hl; by right).
    cbn [write_off_round]. fold (impossible_now dead).
    destruct (negb (has_status StepStatusPending st) || bool_decide (step_StepID st ∈ marked)) eqn:Hskip.
    + destruct (IH marked dead out Hl' R) as (m' & de' & o' & -> & R' & Hn & Hs). exists m', de', o'.
      split_and!; [done|done|done|]. intros E st' b [->|Hin]%elem_of_cons Hp Hm; [|by eapply Hs].
      apply orb_prop in Hskip as [Hx|Hx%bool_decide_eq_true]; [|done].
      unfold has_status in Hx. by rewrite Hp in Hx.
    + apply orb_false_elim in Hskip as [Hp%negb_false_iff Hm%bool_decide_eq_false].
      apply bool_decide_eq_true in Hp. destruct (Hdec st Hst) as [b Hb]. rewrite Hb.
      change (if b then _ else _) with (impossible_now dead b st).
      destruct (impossible_now dead b st) eqn:Hi.
      * destruct (IH _ _ _ Hl' (mark_inv _ _ _ _ _ R Hst Hp Hm Hb Hi)) as (m' & de' & o' & -> & R' & [new ->] & _).
        eexists _, _, _. split_and!; [done|done|by rewrite <-app_assoc; eexists|].
        intros E. rewrite <-app_assoc in E. apply (f_equal length) in E. rewrite !length_app in E. cbn in E. lia.
      * destruct (IH marked dead out Hl' R) as (m' & de' & o' & -> & R' & Hn & Hs). exists m', de', o'.
        split_and!; [done|done|done|]. intros E st' b' [->|Hin]%elem_of_cons Hp' Hm' Hb'; [congruence|by eapply Hs].
Qed.

(** ** The loop *)

Lemma out_bound marked dead out : round_inv marked dead out → (length out ≤ length steps)%nat.
Proof.
  intros R. rewrite <-(length_map step_StepID). apply NoDup_incl_length; [by apply NoDup_ListNoDup, R|].
  intros s Hs%list_elem_of_In. destruct (rv_pending _ _ _ R s Hs) as (st & Hst & <- & _).
  apply in_map, list_elem_of_In, Hst.
Qed.

Lemma loop_spec fuel : ∀ marked dead out, round_inv marked dead out →
  (S (length steps) ≤ fuel + length out)%nat →
  ∃ out' marked' dead', write_off_loop fuel edges steps marked dead out = inr out' ∧
    round_inv marked' dead' out' ∧ settled marked' dead' steps.
Proof.
  induction fuel as [|fuel IH]; intros marked dead out R Hf.
  - pose proof (out_bound _ _ _ R). lia.
  - cbn [write_off_loop].
    destruct (round_spec steps marked dead out (λ _ H, H) R) as (m' & de' & o' & -> & R' & [new ->] & Hs).
    destruct (decide (out ++ new = out)) as [E|Hne].
    + rewrite bool_decide_eq_true_2 by done. exists (out ++ new), m', de'. split_and!; [done|done|].
      specialize (Hs E). rewrite E in R'.
      assert (m' = marked) as ->. { apply set_eq. intros s. by rewrite (rv_marked _ _ _ R'), (rv_marked _ _ _ R). }
      assert (de' = dead) as ->. { apply set_eq. intros s. by rewrite (rv_dead _ _ _ R'), (rv_dead _ _ _ R). }
      done.
    + rewrite bool_decide_eq_false_2 by done. apply (IH m' de' (out ++ new) R').
      destruct new; [by rewrite app_nil_r in Hne|]. rewrite length_app. cbn. lia.
Qed.

(** ** The result *)

Context (Hids : NoDup (step_StepID <$> steps)).

Lemma listed_unique st st' : st ∈ steps → st' ∈ steps → step_StepID st = step_StepID st' → st = st'.
Proof.
  intros H H' E. apply list_elem_of_lookup in H as [i Hi], H' as [j Hj].
  assert (i = j) as ->; [|congruence].
  eapply NoDup_lookup; [exact Hids|rewrite list_lookup_fmap, Hi; done|]. by rewrite list_lookup_fmap, Hj, E.
Qed.

Lemma settled_complete marked dead out s : round_inv marked dead out → settled marked dead steps →
  lost s → s ∈ dead.
Proof.
  intros R Hs. induction 1 as [st Hst Hb|st e Hst Hp Hj He _ IH|st Hst Hp Hj Hf Hn _ IH].
  - apply (rv_dead _ _ _ R). right. by exists st.
  - destruct (decide (step_StepID st ∈ marked)) as [Hm|Hm];
      [apply (rv_dead _ _ _ R); left; by apply (rv_marked _ _ _ R)|].
    pose proof (Hs st false Hst Hp Hm Hj) as F. apply not_true_iff_false in F. destruct F.
    apply impossible_all. by exists e.
  - destruct (decide (step_StepID st ∈ marked)) as [Hm|Hm];
      [apply (rv_dead _ _ _ R); left; by apply (rv_marked _ _ _ R)|].
    pose proof (Hs st true Hst Hp Hm Hj) as F. apply not_true_iff_false in F. destruct F.
    by apply impossible_any.
Qed.

Lemma planWriteOff_spec : ∃ out, planWriteOff steps edges = inr out ∧ NoDup out ∧
  ∀ s, s ∈ out ↔ pending_id s ∧ lost s.
Proof.
  unfold planWriteOff.
  set (blocked := list_to_set (step_StepID <$> List.filter (λ st, blocked_status (step_Status st)) steps)).
  assert (round_inv ∅ blocked []) as R0.
  { split; [set_solver| |by intros s ?%not_elem_of_nil|by intros s ?%not_elem_of_nil|apply NoDup_nil_2].
    intros s. unfold blocked. rewrite elem_of_list_to_set, list_elem_of_fmap. split.
    - intros (st & -> & Hst). right. exists st. rewrite list_elem_of_In, filter_In, <-list_elem_of_In in Hst.
      by destruct Hst.
    - intros [?%not_elem_of_nil|(st & Hst & <- & Hb)]; [done|]. exists st. split; [done|].
      by rewrite list_elem_of_In, filter_In, <-list_elem_of_In. }
  destruct (loop_spec (S (length steps)) ∅ blocked [] R0) as (out & m & de & -> & R & Hs); [cbn; lia|].
  exists out. split_and!; [done|apply R|]. intros s. split.
  - intros Ho. split; [by eapply rv_pending|by eapply rv_lost].
  - intros [(st & Hst & <- & Hp) Hl]. pose proof (settled_complete _ _ _ _ R Hs Hl) as Hd.
    apply (rv_dead _ _ _ R) in Hd as [?|(st' & Hst' & E & Hb)]; [done|].
    assert (st' = st) as -> by by apply listed_unique. by rewrite Hp in Hb.
Qed.
End write_off.
