(* ===== verification/EngineGraph.v ===== *)
(** The graph invariant across the engine's transactions. *)
From stdpp Require Import relations.
From S2P Require Import Prelude Retry StoreModel Transitions Effects StoreInv StoreSpecs EdgeSpecs StoreSystem StoreTheorems Config Dag Engine EngineInv Moves GraphInv FanOut WriteOff.
Open Scope Z_scope.

(** ** What one run sees of the database *)

Record same_graph (r : uuid) (d d' : DB) : Prop := mkSameGraph {
  sg_row : ∀ s, row d' r s = row d r s;
  sg_edge : ∀ e, edge_RunID e = r → e ∈ run_edges d' ↔ e ∈ run_edges d
}.
Definition run_stat (d : DB) (r : uuid) : option (RunStatus * string) :=
  (λ y, (run_Status y, run_OnFailure y)) <$> run_at d r.
Record same_view (r : uuid) (d d' : DB) : Prop := mkSameView {
  sv_graph : same_graph r d d';
  sv_stat : run_stat d' r = run_stat d r
}.
(** Nothing changed for the runs other than [r0]. *)
Definition frame (r0 : uuid) (d d' : DB) : Prop := ∀ r, r ≠ r0 → same_view r d d'.

#[export] Instance same_graph_preorder r : PreOrder (same_graph r).
Proof.
  split; [by split|]. intros d1 d2 d3 [R1 E1] [R2 E2]. split; intros; [congruence|].
  by rewrite E2, E1.
Qed.
#[export] Instance same_view_preorder r : PreOrder (same_view r).
Proof.
  split; [by split|]. intros d1 d2 d3 [G1 S1] [G2 S2]. split; [by etrans|congruence].
Qed.
#[export] Instance frame_preorder r : PreOrder (frame r).
Proof.
  split; [intros d r' _; reflexivity|]. intros d1 d2 d3 F1 F2 r' Hne.
  etrans; [by apply F1|by apply F2].
Qed.

Lemma same_graph_edge_of r d d' e : same_graph r d d' → edge_of r d' e ↔ edge_of r d e.
Proof. intros G. unfold edge_of. split; intros (? & ? & ?); split_and!; try done; by apply (sg_edge _ _ _ G). Qed.

Lemma same_graph_doomed r d d' s : same_graph r d d' → doomed r d s → doomed r d' s.
Proof.
  intros G. apply doomed_mono.
  - intros t x _ Hx Hs. exists x. by rewrite (sg_row _ _ _ G).
  - intros t x _ Hx Hw. exists x. rewrite (sg_row _ _ _ G). split; [done|]. by right.
  - intros e He _ _. by apply (same_graph_edge_of _ _ _ _ G).
  - intros e He _ _. by apply (same_graph_edge_of _ _ _ _ G).
Qed.

Lemma same_graph_core r d d' W T : same_graph r d d' → graph_core r d W T → graph_core r d' W T.
Proof.
  intros G C. pose proof (λ e, same_graph_edge_of r d d' e G) as Ee. split.
  - intros e He%Ee. setoid_rewrite (sg_row _ _ _ G). by apply C.
  - intros s x Hs Hx. rewrite (sg_row _ _ _ G) in Hx. by apply (gc_wait _ _ _ _ C s).
  - intros s x Hx. rewrite (sg_row _ _ _ G) in Hx. by eapply gc_join.
  - intros s x Hx. rewrite (sg_row _ _ _ G) in Hx. by eapply gc_failed.
  - destruct (gc_rank _ _ _ _ C) as [rank H]. exists rank. intros e He%Ee. auto.
  - apply C.
  - intros o Ho. destruct (gc_source _ _ _ _ C o Ho) as (e & x & He & Eo & Hx & Ha).
    exists e, x. rewrite (sg_row _ _ _ G). split_and!; try done. by apply Ee.
Qed.

Lemma same_graph_off r d d' : same_graph r d d' → written_off r d → written_off r d'.
Proof.
  intros G Hoff s x Hx Hs. rewrite (sg_row _ _ _ G) in Hx. eapply same_graph_doomed; [done|]. by eapply Hoff.
Qed.

(** ** The invariant of a run between transactions *)

Definition live (st : StepStatus) : bool := active st || bool_decide (st = StepStatusPending).

(** An open run has a step that is not terminal: otherwise it was rolled up. *)
Definition rolled (r : uuid) (d : DB) : Prop :=
  ∀ y, run_at d r = Some y → run_open y = true → ∃ s x, row d r s = Some x ∧ live (step_Status x) = true.

Record good (r : uuid) (d : DB) : Prop := mkGood {
  go_core : graph_core r d [] [];
  go_off : written_off r d
}.
Definition cancel_phase (st : RunStatus) : bool :=
  match st with RunStatusCancelling | RunStatusCancelled => true | _ => false end.
Definition cancelled_run (r : uuid) (d : DB) : Prop :=
  ∃ y, run_at d r = Some y ∧ cancel_phase (run_Status y) = true.
Definition graph_ok (r : uuid) (d : DB) : Prop := cancelled_run r d ∨ good r d ∧ rolled r d.

Lemma run_stat_row d d' r y' : run_stat d' r = run_stat d r → run_at d' r = Some y' →
  ∃ y, run_at d r = Some y ∧ run_Status y' = run_Status y ∧ run_OnFailure y' = run_OnFailure y.
Proof.
  unfold run_stat. intros E Hy. rewrite Hy in E. cbn in E. destruct (run_at d r) as [y|]; [|done].
  injection E as E1 E2. exists y. split_and!; congruence.
Qed.

Lemma same_graph_good r d d' : same_graph r d d' → good r d → good r d'.
Proof. intros G [C O]. split; [by eapply same_graph_core|by eapply same_graph_off]. Qed.

Lemma same_view_ok r d d' : same_view r d d' → graph_ok r d → graph_ok r d'.
Proof.
  intros [G S] [(y & Hy & Hc)|[Hg Hr]].
  - left. symmetry in S. destruct (run_stat_row d' d r y S Hy) as (y' & Hy' & E & _).
    exists y'. by rewrite <-E.
  - right. split; [by eapply same_graph_good|]. intros y' Hy' Hopen.
    destruct (run_stat_row _ _ _ _ S Hy') as (y & Hy & E & _).
    destruct (Hr y Hy) as (s & x & Hx & Hl); [unfold run_open, run_has in *; by rewrite <-E|].
    exists s, x. by rewrite (sg_row _ _ _ G).
Qed.

(** Cancellation is never left. *)
Lemma cancelled_stays r d d' : db_inv d → tx_steps d d' → cancelled_run r d → cancelled_run r d'.
Proof.
  intros H S. induction S as [|d1 d2 d3 S1 S2 IH]; [done|]. intros (y & Hy & Hc).
  apply IH; [by eapply tx_step_inv|]. destruct (tx_step_run d1 d2 r y H S1 Hy) as (y' & Hy' & Hm).
  exists y'. split; [done|]. destruct Hm as [->|Hm]; [done|].
  destruct (run_Status y), (run_Status y'); done.
Qed.

(** ** Views of the leaf changes *)

Lemma quiet_view r d d' : quiet d d' → same_view r d d'.
Proof.
  intros Q. split; [split|].
  - intros s. unfold row. by rewrite (q_steps _ _ Q).
  - intros e _. by rewrite (q_edges _ _ Q).
  - unfold run_stat. destruct (run_at d r) as [y|] eqn:Hy; cbn.
    + destruct (q_run _ _ Q r y Hy) as (y' & -> & E1 & E2). cbn. by rewrite E1, E2.
    + by rewrite (q_none _ _ Q).
Qed.

Lemma run_changes_frame r run run' d d' : run_changes r run run' d d' →
  (∀ r' s, r' ≠ r → row d' r' s = row d r' s) → frame r d d'.
Proof.
  intros C Hrow r' Hne. split; [split|].
  - intros s. by apply Hrow.
  - intros e _. by rewrite (rch_edges _ _ _ _ _ C).
  - unfold run_stat. by rewrite (rch_runs _ _ _ _ _ C).
Qed.

Lemma changes_frame r s x x' run run' d d' : changes r s x x' run run' d d' → frame r d d'.
Proof.
  intros C. eapply run_changes_frame; [apply C|]. intros r' t Hne. apply C. congruence.
Qed.

Lemma run_moves_graph r Q d d' r' : run_moves r Q d d' → same_graph r' d d'.
Proof.
  intros (run & run' & C & Hs & _). split.
  - intros s. unfold row. by rewrite Hs.
  - intros e _. by rewrite (rch_edges _ _ _ _ _ C).
Qed.
Lemma run_moves_frame r Q d d' : run_moves r Q d d' → frame r d d'.
Proof.
  intros (run & run' & C & Hs & _). eapply run_changes_frame; [exact C|]. intros r' t _.
  unfold row. by rewrite Hs.
Qed.

Lemma fan_frame r d res d' res' : fan_rel r d res d' res' → frame r d d'.
Proof.
  intros F r' Hne. pose proof (fr_others _ _ _ _ _ F) as O. split; [split|].
  - intros s. by apply (ot_row _ _ _ O).
  - intros e E. apply (ot_edge _ _ _ O). congruence.
  - unfold run_stat. by rewrite (ot_run _ _ _ O).
Qed.

(** ** Leaves on the run itself *)

(** Status moves that keep the graph invariant on their own. *)
Definition mildly (st st' : StepStatus) : bool :=
  active st && active st' || live st && bool_decide (st' = StepStatusDeadLettered).

Lemma mild_core r d d' W T s x x' run run' : changes r s x x' run run' d d' →
  mildly (step_Status x) (step_Status x') = true → graph_core r d W T → graph_core r d' W T.
Proof.
  intros C Hm G. eapply core_change; [exact C|done|..];
    destruct (step_Status x), (step_Status x'); done.
Qed.

Lemma mild_off r d d' s x x' run run' : changes r s x x' run run' d d' →
  mildly (step_Status x) (step_Status x') = true → written_off r d → written_off r d'.
Proof.
  intros C Hm Hoff t y Hy Hc.
  assert (∀ t, doomed r d t → doomed r d' t) as Hd.
  { eapply doomed_change; [exact C|..]; intros _ Hs; [|left];
      destruct (step_Status x), (step_Status x'); done. }
  destruct (decide (t = s)) as [->|Hne].
  - rewrite (ch_row' _ _ _ _ _ _ _ _ C) in Hy. injection Hy as <-. rewrite Hc in Hm.
    by destruct (step_Status x).
  - rewrite (ch_rows _ _ _ _ _ _ _ _ C) in Hy by congruence. apply Hd. by eapply Hoff.
Qed.

Lemma mild_good r d d' s x x' run run' : changes r s x x' run run' d d' →
  mildly (step_Status x) (step_Status x') = true → good r d → good r d'.
Proof. intros C Hm [G O]. split; [by eapply mild_core|by eapply mild_off]. Qed.

(** A step still live witnesses that the run is not due for a rollup. *)
Lemma live_rolled r d s x : row d r s = Some x → live (step_Status x) = true → rolled r d.
Proof. intros Hx Hl y _ _. by exists s, x. Qed.

(** A move of a step from [from] to a live status, in a run that keeps its
    status or is parked, preserves everything. *)
Lemma step_moves_ok r s P Q d d' : step_moves r s P Q d d' →
  (∀ x st', P x st' → mildly (step_Status x) st' = true ∧ live st' = true) →
  good r d → good r d' ∧ rolled r d' ∧ frame r d d'.
Proof.
  intros (x & x' & run & run' & C & HP & _) Hm G. destruct (Hm _ _ HP) as [Hm' Hl].
  split_and!; [by eapply mild_good| |by eapply changes_frame].
  eapply live_rolled; [apply C|done].
Qed.

(** The step finishes: its out-edges are now due. *)
Lemma step_moves_finish r s P Q d d' : db_inv d → step_moves r s P Q d d' →
  (∀ x st', P x st' → active (step_Status x) = true ∧ absorbing st' = true) → good r d →
  graph_core r d' (out_ords r d' s) [] ∧ written_off r d' ∧ frame r d d'.
Proof.
  intros H (x & x' & run & run' & C & HP & _) Hm G. destruct (Hm _ _ HP) as [Ha Hb].
  pose proof (rch_edges _ _ _ _ _ (ch_run _ _ _ _ _ _ _ _ C)) as Ee.
  assert (out_ords r d' s = out_ords r d s) as -> by by unfold out_ords, out_edges; rewrite Ee.
  split_and!; [| |by eapply changes_frame].
  - eapply (core_finish r d d' []); [done|exact C|apply G|by destruct (step_Status x)|done].
  - eapply written_off_change; [exact C|apply G| |by destruct (step_Status x')].
    intros (y & Hy & Hs)%doomed_row. rewrite (ch_row _ _ _ _ _ _ _ _ C) in Hy. injection Hy as <-.
    destruct Hs as [E|E]; destruct (step_Status x); done.
Qed.

(** ** Rollups *)

Lemma drop_guarded {A} d run x (m : Tx A) g res e err :
  guarded d run x m g res e err → is_conflict err = true →
  drop_conflict m d = if g then (Ok (Some res), apply_effect run x e d) else (Ok None, d).
Proof.
  unfold guarded, drop_conflict, bind, attempt. intros G Hc. destruct g.
  - by destruct G as [-> _].
  - rewrite G. by rewrite Hc.
Qed.

(** A run-level operation fails with an error the caller keeps unless the clock
    is set and the run exists. *)
Lemma doomed_dead_step r d s : doomed r d s → ∃ t x, row d r t = Some x ∧ step_Status x = StepStatusDeadLettered.
Proof. induction 1; eauto. Qed.

Lemma row_run_steps r d x : db_inv d → x ∈ run_steps d → step_RunID x = r →
  row d r (step_StepID x) = Some x.
Proof. intros H Hx <-. by apply elem_row. Qed.

Lemma no_live r d : db_inv d → good r d →
  (∃ s x, row d r s = Some x ∧ live (step_Status x) = true) ∨
  all_terminal d r ∧ (some_dead d r ∨ all_done d r).
Proof.
  intros H [G O].
  destruct (existsb (λ x, of_run r x && live (step_Status x)) (run_steps d)) eqn:E.
  - left. apply existsb_exists in E as (x & Hx%list_elem_of_In & [Er%bool_decide_eq_true Hl]%andb_prop).
    exists (step_StepID x), x. split; [by apply row_run_steps|done].
  - right.
    assert (∀ x, x ∈ run_steps d → step_RunID x = r → live (step_Status x) = false) as Hn.
    { intros x Hx%list_elem_of_In Er. apply not_true_iff_false. intros Hl. apply not_true_iff_false in E.
      apply E. apply existsb_exists. exists x. split; [done|]. unfold of_run. by rewrite Er, bool_decide_eq_true_2. }
    assert (all_terminal d r) as Ht.
    { intros x Hx Er. pose proof (Hn x Hx Er) as Hl.
      pose proof (gc_failed _ _ _ _ G _ _ (row_run_steps r d x H Hx Er)).
      by destruct (step_Status x). }
    split; [done|].
    destruct (existsb (λ x, of_run r x && has_status StepStatusDeadLettered x) (run_steps d)) eqn:Ed.
    + left. apply existsb_exists in Ed as (x & Hx%list_elem_of_In & [Er%bool_decide_eq_true Hs%bool_decide_eq_true]%andb_prop).
      by exists x.
    + right. intros x Hx Er. pose proof (Ht x Hx Er) as Htx.
      assert (∀ z, z ∈ run_steps d → step_RunID z = r → step_Status z ≠ StepStatusDeadLettered) as Hnd.
      { intros z Hz%list_elem_of_In Ez Es. apply not_true_iff_false in Ed. apply Ed. apply existsb_exists.
        exists z. split; [done|]. unfold of_run, has_status. by rewrite Ez, Es, !bool_decide_eq_true_2. }
      assert (step_Status x ≠ StepStatusCancelled) as Hnc.
      { intros Ec. destruct (doomed_dead_step r d _ (O _ _ (row_run_steps r d x H Hx Er) Ec)) as (t & z & Hz & Es).
        destruct (row_key _ _ _ _ Hz) as [Ez _]. by apply (Hnd z (row_elem _ _ _ _ Hz) Ez). }
      specialize (Hnd x Hx Er). by destruct (step_Status x).
Qed.

Lemma run_not_open_rolled r d y : run_at d r = Some y → run_open y = false → rolled r d.
Proof. intros Hy Hn z Hz Ho. congruence. Qed.

Lemma run_moves_closed r Q d d' : run_moves r Q d d' →
  (∀ y st', Q y st' → st' = RunStatusSucceeded ∨ st' = RunStatusFailed ∨ cancel_phase st' = true) → rolled r d'.
Proof.
  intros (run & run' & C & _ & HQ) Hq. eapply run_not_open_rolled; [apply C|].
  unfold run_open, run_has. by destruct (Hq _ _ HQ) as [->|[->|Hc]]; [| |destruct (run_Status run')].
Qed.

(** Outcome of an optional run-level transition: a dropped conflict, or the move. *)
Lemma drop_cases {A} (m : Tx A) (P : DB → Prop) d a d' : transition m → db_inv d → on_ok P (m d) →
  drop_conflict m d = (Ok a, d') →
  (∃ e, a = None ∧ d' = d ∧ m d = (Fail e, d) ∧ is_conflict e = true) ∨
  (∃ b, a = Some b ∧ P d' ∧ tx_steps d d').
Proof.
  intros T H M. unfold drop_conflict, bind, attempt. specialize (T d H).
  destruct (m d) as [[b|e] d1]; cbn in M; inversion T; subst; cbn.
  - intros [= <- <-]. right. exists b. split_and!; [done|done|by apply rtc_once].
  - intros [= <- <-]. right. by exists b.
  - destruct (is_conflict e) eqn:Hc; [|done]. intros [= <- <-]. left. by exists e.
  - match goal with Hc : is_conflict e = false |- _ => by rewrite Hc end.
Qed.

Lemma attemptCancelRollup_cases r now d o d' : db_inv d → attemptCancelRollup r now d = (Ok o, d') →
  d' = d ∨ cancelled_run r d' ∧ tx_steps d d' ∧ frame r d d'.
Proof.
  intros H E. destruct (drop_cases _ _ d o d' (CancelRunRollup_transition r now) H
    (CancelRunRollup_moves r d H now) E) as [(e & _ & -> & _)|(b & _ & M & S)]; [by left|]. right.
  split_and!; [|done|by eapply run_moves_frame]. destruct M as (run & run' & C & _ & _ & E').
  exists run'. rewrite E'. split; [apply C|done].
Qed.

(** A dropped conflict of a rollup: the clock is set, the run exists, and the
    guard does not hold. *)
Lemma SucceedRun_refused r now d e : db_inv d → SucceedRun r now d = (Fail e, d) → is_conflict e = true →
  now ≠ 0 ∧ ∃ y, run_at d r = Some y ∧ succeed_run_guard y = false.
Proof.
  intros H E Hc. destruct (decide (now = 0)) as [->|Hnow]; [injection E as <-; done|]. split; [done|].
  destruct (run_at d r) as [y|] eqn:Hy; unfold run_at in Hy.
  - exists y. split; [done|]. apply not_true_iff_false. intros Hg.
    destruct (guarded_accept _ _ _ _ _ _ _ _ (SucceedRun_guarded d r y H Hy now Hnow) Hg). congruence.
  - revert E. unfold SucceedRun, bind, lockRun. rewrite now_ok by done. rewrite GetRun_eval, Hy.
    by intros [= <-].
Qed.

Lemma FailRunRollup_refused r now d e y : db_inv d → now ≠ 0 → run_at d r = Some y →
  FailRunRollup r now d = (Fail e, d) → run_open y && (1 <=? run_StepsFailed y) && all_accounted y = false.
Proof.
  intros H Hnow Hy E. apply not_true_iff_false. intros Hg.
  destruct (guarded_accept _ _ _ _ _ _ _ _ (FailRunRollup_guarded d r y H Hy now Hnow) Hg). congruence.
Qed.

(** Both rollups refused: the run is not open or has a live step. *)
Lemma refused_rolled r d y : db_inv d → good r d → run_at d r = Some y →
  (succeed_run_guard y = false ∨ some_dead d r) →
  run_open y && (1 <=? run_StepsFailed y) && all_accounted y = false → rolled r d.
Proof.
  intros H G Hy Hs Hf z Hz Ho. rewrite Hy in Hz. injection Hz as <-.
  destruct (no_live r d H G) as [?|[Ht Hd]]; [done|exfalso].
  assert (some_dead d r) as Hd'.
  { destruct Hs as [Hs|]; [|done]. destruct Hd as [?|Hd]; [done|].
    apply not_true_iff_false in Hs. destruct Hs. by apply (succeed_guard d r y H Hy). }
  apply (dead_guard d r y H Hy) in Hd'. apply (accounted_guard d r y H Hy) in Ht.
  by rewrite Ho, Hd', Ht in Hf.
Qed.

Lemma attemptRunRollup_ok r now d o d' : db_inv d → good r d → attemptRunRollup r now d = (Ok o, d') →
  cancelled_run r d' ∧ frame r d d' ∨ same_graph r d d' ∧ rolled r d' ∧ frame r d d'.
Proof.
  intros H G. unfold attemptRunRollup, bind at 1.
  destruct (drop_conflict (SucceedRun r now) d) as [[a|e] d1] eqn:E1; [|done].
  destruct (drop_cases _ _ d a d1 (SucceedRun_transition r now) H (SucceedRun_moves r d H now) E1)
    as [(e & -> & -> & Es & Hc)|(b & -> & M & S)].
  2:{ intros [= <- <-]. right. split_and!; [by eapply run_moves_graph| |by eapply run_moves_frame].
      eapply run_moves_closed; [exact M|]. naive_solver. }
  destruct (SucceedRun_refused r now d e H Es Hc) as (Hnow & y & Hy & Hs).
  unfold bind at 1. destruct (drop_conflict (FailRunRollup r now) d) as [[a|e'] d2] eqn:E2; [|done].
  destruct (drop_cases _ _ d a d2 (FailRunRollup_transition r now) H (FailRunRollup_moves r d H now) E2)
    as [(e' & -> & -> & Ef & _)|(b & -> & M & S)].
  2:{ intros [= <- <-]. right. split_and!; [by eapply run_moves_graph| |by eapply run_moves_frame].
      eapply run_moves_closed; [exact M|]. naive_solver. }
  intros E. destruct (attemptCancelRollup_cases r now d o d' H E) as [->|(? & ? & ?)]; [right|by left].
  split_and!; [done| |done]. eapply refused_rolled; [done..| |by eapply FailRunRollup_refused]. by left.
Qed.

(** ** Quiet parts of a transaction *)
Definition quietly {A} (m : Tx A) : Prop := ∀ d a d', db_inv d → m d = (Ok a, d') → quiet d d'.

Lemma quietly_bind {A B} (m : Tx A) (k : A → Tx B) :
  sequenced m → quietly m → (∀ a, quietly (k a)) → quietly (bind m k).
Proof.
  intros S Q K d b d' H. unfold bind. destruct (m d) as [[a|e] d1] eqn:E; [|done]. intros E'.
  eapply quiet_trans; [by eapply Q|]. eapply K; [|done]. eapply tx_steps_inv; [done|by eapply S].
Qed.
Lemma quietly_reads {A} (m : Tx A) : reads m → quietly m.
Proof. intros R d a d' _ E. specialize (R d). rewrite E in R. cbn in R. subst. apply quiet_refl. Qed.
Lemma quietly_ret {A} (a : A) : quietly (ret a).
Proof. by apply quietly_reads. Qed.
Lemma quietly_op {A} (m : Tx A) : (∀ d, db_inv d → on_ok (quiet d) (m d)) → quietly m.
Proof. intros Hm d a d' H E. specialize (Hm d H). by rewrite E in Hm. Qed.
Lemma quietly_for_each {A} (l : list A) f : (∀ x, sequenced (f x)) → (∀ x, quietly (f x)) → quietly (for_each l f).
Proof.
  intros S Q. induction l as [|x l IH]; [apply quietly_ret|]. cbn. apply quietly_bind; [done|done|]. by intros [].
Qed.

Lemma applyCostRows_quiet rows : quietly (applyCostRows rows).
Proof.
  apply quietly_for_each; intros a; [sequence|]. apply quietly_bind; [|apply quietly_op|intros; apply quietly_ret].
  - apply transition_sequenced. auto with loom.
  - intros d. apply ApplyAttemptCost_quiet.
Qed.
Lemma enqueue_quiet r ids reason tr : quietly (enqueue r ids reason tr).
Proof.
  apply quietly_for_each; intros a; [sequence|]. apply quietly_op. intros. apply CreateOutboxTask_quiet.
Qed.
Lemma record_quiet r p now : quietly (transitionQueries now ;; appendEvent r p).
Proof.
  apply quietly_bind; [sequence|apply quietly_reads, transitionQueries_reads|intros _].
  apply quietly_op. intros d. apply appendEvent_quiet.
Qed.
Lemma when_some_quiet {A} (o : option A) f : (∀ a, quietly (f a)) → quietly (when_some o f).
Proof. destruct o; cbn; [auto|intros; apply quietly_ret]. Qed.

(** ** Edge plans cover the normal out-edges *)
Definition normal_ords (es : list RunEdge) : list Z :=
  edge_Ordinal <$> List.filter (λ e, bool_decide (edge_EdgeType e = EdgeTypeNormal)) es.

Lemma plan_loop_ords ev br out params es : ∀ m vs,
  plan_loop ev br out params es m = inr vs → vs.*1 = normal_ords es.
Proof.
  unfold normal_ords. induction es as [|e es IH]; intros m vs; cbn [plan_loop].
  - by intros [= <-].
  - cbn [List.filter]. destruct (bool_decide (edge_EdgeType e = EdgeTypeNormal)); cbn [negb]; [|apply IH].
    destruct (match edge_WhenExpr e with Some _ => _ | None => _ end) as [f|]; [|done].
    destruct (plan_loop _ _ _ _ es _) as [|vs'] eqn:E; [done|]. intros [= <-]. cbn. f_equal. by eapply IH.
Qed.

Lemma planEdges_ords ev ty r d s out params vs :
  planEdges ev ty (out_edges r d s) out params = inr vs → vs.*1 = out_ords r d s.
Proof. apply plan_loop_ords. Qed.

Lemma filterDecision_ords es decision vs : (filterDecisionVerdicts es decision vs).*1 = vs.*1.
Proof. unfold filterDecisionVerdicts. rewrite <-list_fmap_compose. apply list_fmap_ext. done. Qed.

(** ** Advancing the successors of a finished step *)

(** The state between the terminal transition of [s] and its fan-out. *)
Record finished (r : uuid) (s : string) (d : DB) : Prop := mkFinished {
  fin_core : graph_core r d (out_ords r d s) [];
  fin_off : written_off r d;
  fin_run : is_Some (run_at d r)
}.

Lemma quiet_finished r s d d' : quiet d d' → finished r s d → finished r s d'.
Proof.
  intros Q [C O [y Hy]]. pose proof (sv_graph _ _ _ (quiet_view r d d' Q)) as G.
  assert (out_ords r d' s = out_ords r d s) as E by by unfold out_ords, out_edges; rewrite (q_edges _ _ Q).
  split; [rewrite E; by eapply same_graph_core|by eapply same_graph_off|].
  destruct (q_run _ _ Q r y Hy) as (y' & Hy' & _). eauto.
Qed.

Lemma fanOut_zero r seed d res d' : fanOut r 0 seed d = (Ok res, d') → seed = [] ∧ d' = d ∧ res = mkFanOutResult [] [].
Proof.
  unfold fanOut, bind, get. cbn [fan_loop]. unfold bind. destruct seed as [|[o f] vs].
  - cbn [resolve_verdicts ret fst snd]. intros E.
    assert ((Ok (mkFanOutResult [] []), d) = (Ok res, d')) as E' by (rewrite <-E; by destruct (length _)).
    by injection E' as <- <-.
  - intros [=].
Qed.

Lemma fan_finished r now s seed d res d' : db_inv d → finished r s d → seed.*1 = out_ords r d s →
  fanOut r now seed d = (Ok res, d') →
  good r d' ∧ frame r d d' ∧ run_stat d' r = run_stat d r.
Proof.
  intros H [C O R] Eo E. destruct (decide (now = 0)) as [->|Hnow].
  - apply fanOut_zero in E as (-> & -> & _). rewrite <-Eo in C. by split_and!; [split|..].
  - destruct (fanOut_ok r now Hnow d seed) as (d1 & res1 & E1 & F & I & _).
    { by split; [|rewrite Eo|..]. }
    rewrite E in E1. injection E1 as <- <-. split_and!; [split; apply I|by eapply fan_frame|].
    destruct R as [y Hy]. destruct (fr_run _ _ _ _ _ F y Hy) as (y' & Hy' & E1 & E2).
    unfold run_stat. by rewrite Hy, Hy'; cbn; rewrite E1, E2.
Qed.

Lemma quiet_stat r d d' : quiet d d' → run_stat d' r = run_stat d r.
Proof. intros Q. apply (quiet_view r d d' Q). Qed.
Lemma quiet_frame r d d' : quiet d d' → frame r d d'.
Proof. intros Q r' _. by apply quiet_view. Qed.

Lemma advance_ok ev r s ty out params tr now d res d' : db_inv d → finished r s d →
  advance_successors ev r s ty out params tr now d = (Ok res, d') →
  good r d' ∧ frame r d d' ∧ run_stat d' r = run_stat d r.
Proof.
  intros H F. unfold advance_successors, ListEdgesFromStep, lift, bind, get, ret. fold (out_edges r d s).
  destruct (planEdges ev ty (out_edges r d s) out params) as [e|vs] eqn:Ep; [done|]. cbv beta iota.
  destruct (fanOut r now vs d) as [[fo|e] d1] eqn:Ef; [|done].
  destruct (enqueue r (readied fo) OutboxReasonStepReady tr d1) as [[[]|e] d2] eqn:Eq; [|done].
  intros [= <- <-]. destruct (fan_finished r now s vs d fo d1 H F (planEdges_ords _ _ _ _ _ _ _ _ Ep) Ef)
    as (G1 & F1 & S1).
  assert (db_inv d1) as H1 by (eapply tx_steps_inv; [exact H|by eapply sequenced_fanOut]).
  pose proof (enqueue_quiet _ _ _ _ d1 _ d2 H1 Eq) as Q.
  split_and!; [eapply same_graph_good; [apply (quiet_view r _ _ Q)|done]|etrans; [done|by apply quiet_frame]|].
  by rewrite (quiet_stat r _ _ Q).
Qed.

(** ** The write-off *)

Lemma doomed_some_dead r d s : doomed r d s → some_dead d r.
Proof.
  intros (t & x & Hx & Hs)%doomed_dead_step. exists x. split; [by eapply row_elem|].
  by destruct (row_key _ _ _ _ Hx).
Qed.

Definition edges_of (r : uuid) (d : DB) : list RunEdge :=
  List.filter (λ e, bool_decide (edge_RunID e = r)) (run_edges d).

Lemma elem_of_steps_of r d x : x ∈ steps_of r d ↔ x ∈ run_steps d ∧ step_RunID x = r.
Proof.
  unfold steps_of, of_run.
  by rewrite (merge_sort_Permutation by_step_id), list_elem_of_In, filter_In, <-list_elem_of_In, bool_decide_eq_true.
Qed.

Lemma steps_of_row r d x : db_inv d → x ∈ steps_of r d → row d r (step_StepID x) = Some x.
Proof. intros H [Hx Er]%elem_of_steps_of. by apply row_run_steps. Qed.

Lemma steps_of_ids r d : db_inv d → NoDup (step_StepID <$> steps_of r d).
Proof.
  intros H. assert (NoDup (step_key <$> steps_of r d)) as N by (unfold steps_of; rewrite (merge_sort_Permutation by_step_id); apply NoDup_fmap_filter, H).
  assert (∀ x, x ∈ steps_of r d → step_RunID x = r) as Hr by by intros x [_ ?]%elem_of_steps_of.
  revert N Hr. generalize (steps_of r d). induction l as [|x l IH]; [intros; apply NoDup_nil_2|].
  cbn. intros [Hx N]%NoDup_cons Hr. apply NoDup_cons. split.
  - intros (z & Ez & Hz)%list_elem_of_fmap. apply Hx, list_elem_of_fmap. exists z. split; [|done].
    unfold step_key. rewrite Ez, (Hr x), (Hr z) by set_solver. done.
  - apply IH; [done|]. intros z Hz. apply Hr. by right.
Qed.

Lemma elem_of_unresolved_in r d s e : e ∈ unresolved_in (edges_of r d) s ↔
  edge_of r d e ∧ unresolved e ∧ edge_ToStep e = s.
Proof.
  unfold unresolved_in, edges_of, edge_of, unresolved.
  rewrite list_elem_of_In, !filter_In, <-list_elem_of_In, !andb_true_iff, !bool_decide_eq_true. tauto.
Qed.

Lemma lost_doomed r d s : db_inv d → good r d → lost (steps_of r d) (edges_of r d) s → doomed r d s.
Proof.
  intros H [G O]. induction 1 as [st Hst Hb|st e Hst Hp Hj He _ IH|st Hst Hp Hj Hf Hn _ IH];
    pose proof (steps_of_row r d st H Hst) as Hrow.
  - pose proof (gc_failed _ _ _ _ G _ _ Hrow). destruct (step_Status st) eqn:Es; try done.
    + by eapply doomed_dead.
    + by eapply O.
  - apply elem_of_unresolved_in in He as (He & Hu & Ht).
    eapply doomed_all; [exact Hrow|by rewrite Hp|done|exact He|done|done|done].
  - destruct (unresolved_in (edges_of r d) (step_StepID st)) as [|e l] eqn:El; [done|].
    assert (e ∈ unresolved_in (edges_of r d) (step_StepID st)) as He by (rewrite El; by left).
    apply elem_of_unresolved_in in He as (He & Hu & Ht).
    eapply doomed_any; [exact Hrow|by rewrite Hp|done|done|exact He|done|done|].
    intros e' He' Hu' Ht'. apply IH. rewrite <-El. by apply elem_of_unresolved_in.
Qed.

(** Cancelling a doomed step. *)
Record wrote_off (r : uuid) (d d' : DB) : Prop := mkWroteOff {
  wo_good : good r d → good r d';
  wo_doomed : ∀ t, doomed r d t → doomed r d' t;
  wo_frame : frame r d d';
  wo_stat : run_stat d' r = run_stat d r
}.
#[export] Instance wrote_off_preorder r : PreOrder (wrote_off r).
Proof.
  split; [intros d; split; try done|]. intros d1 d2 d3 [G1 D1 F1 S1] [G2 D2 F2 S2].
  split; [auto|auto|by etrans|congruence].
Qed.

Lemma cancel_doomed r s d a d' reason now : db_inv d → doomed r d s →
  CancelStep r s reason now d = (Ok a, d') → wrote_off r d d'.
Proof.
  intros H Hd E. pose proof (CancelStep_moves r s d H reason now) as M. rewrite E in M. cbn in M.
  destruct M as (x & x' & run & run' & C & [Hc Ex'] & Hst).
  assert (step_Status x = StepStatusPending) as Hp.
  { destruct (doomed_row _ _ _ Hd) as (y & Hy & Hs). rewrite (ch_row _ _ _ _ _ _ _ _ C) in Hy.
    injection Hy as <-. destruct Hs as [Hs|Hs]; destruct (step_Status x); done. }
  pose proof (ch_kind _ _ _ _ _ _ _ _ C) as K.
  assert (∀ t, doomed r d t → doomed r d' t) as Hdd.
  { apply (doomed_change r d d' s x x' run run' C); intros _ Hs; [congruence|].
    right. split_and!; [by rewrite Ex'|by apply isJoinAny_kind; apply K|intros _; apply K]. }
  split; [|done|by eapply changes_frame|].
  - intros [G O]. split.
    + eapply core_change; [exact C|done|by rewrite Ex', Hp|by rewrite Hp|by rewrite Ex'].
    + intros t y Hy Hcy. apply Hdd. destruct (decide (t = s)) as [->|Hne]; [done|].
      rewrite (ch_rows _ _ _ _ _ _ _ _ C) in Hy by congruence. by eapply O.
  - pose proof (ch_run _ _ _ _ _ _ _ _ C) as RC. unfold run_stat.
    rewrite (rch_run _ _ _ _ _ RC), (rch_run' _ _ _ _ _ RC). cbn.
    by rewrite Hst, (rch_on_failure _ _ _ _ _ RC).
Qed.

Lemma cancel_all_doomed r reason now l : ∀ d a d', db_inv d → Forall (doomed r d) l →
  for_each l (λ s, CancelStep r s reason now ;; ret tt) d = (Ok a, d') → wrote_off r d d' ∧ tx_steps d d'.
Proof.
  induction l as [|s l IH]; intros d a d' H Hl; cbn [for_each].
  - by intros [= <- <-].
  - unfold bind at 1 2. destruct (CancelStep r s reason now d) as [[b|e] d1] eqn:E1; [|done]. cbn [ret].
    apply Forall_cons in Hl as [Hs Hl]. intros E2.
    pose proof (cancel_doomed r s d b d1 reason now H Hs E1) as W1.
    assert (tx_steps d d1) as S1 by by eapply (transition_sequenced _ (CancelStep_transition r s reason now)).
    assert (Forall (doomed r d1) l) as Hl1 by (eapply Forall_impl; [exact Hl|apply W1]).
    destruct (IH d1 a d' (tx_steps_inv _ _ H S1) Hl1 E2) as [W2 S2]. split; by etrans.
Qed.

Lemma FailRun_refused r now d e : db_inv d → FailRun r now d = (Fail e, d) → is_conflict e = true →
  now ≠ 0 ∧ ∃ y, run_at d r = Some y ∧ run_open y && (1 <=? run_StepsFailed y) = false.
Proof.
  intros H E Hc. destruct (decide (now = 0)) as [->|Hnow]; [injection E as <-; done|]. split; [done|].
  destruct (run_at d r) as [y|] eqn:Hy; unfold run_at in Hy.
  - exists y. split; [done|]. apply not_true_iff_false. intros Hg.
    destruct (guarded_accept _ _ _ _ _ _ _ _ (FailRun_guarded d r y H Hy now Hnow) Hg). congruence.
  - revert E. unfold FailRun, bind, lockRun. rewrite now_ok by done. rewrite GetRun_eval, Hy.
    by intros [= <-].
Qed.

Lemma FailRunRollup_refused' r now d e : db_inv d → FailRunRollup r now d = (Fail e, d) → is_conflict e = true →
  now ≠ 0 ∧ is_Some (run_at d r).
Proof.
  intros H E Hc. destruct (decide (now = 0)) as [->|Hnow]; [injection E as <-; done|]. split; [done|].
  destruct (run_at d r) as [y|] eqn:Hy; unfold run_at in Hy; [eauto|].
  revert E. unfold FailRunRollup, bind, lockRun. rewrite now_ok by done. rewrite GetRun_eval, Hy.
  by intros [= <-].
Qed.

(** After a dead letter the disposition fails the run, or writes off exactly
    what became impossible and leaves a live step. *)
Lemma deadLetterDisposition_ok onf r now d a d' s : db_inv d → good r d → doomed r d s →
  deadLetterDisposition onf r now d = (Ok a, d') → good r d' ∧ rolled r d' ∧ frame r d d'.
Proof.
  intros H G Hd. unfold deadLetterDisposition. destruct (negb _).
  - unfold bind. destruct (drop_conflict (FailRun r now) d) as [[o|e] d1] eqn:E1; [|done]. intros [= <- <-].
    destruct (drop_cases _ _ d o d1 (FailRun_transition r now) H (FailRun_moves r d H now) E1)
      as [(e & _ & -> & Ef & Hc)|(b & _ & M & S)].
    + destruct (FailRun_refused r now d e H Ef Hc) as (_ & y & Hy & Hg). split_and!; [done| |done].
      eapply run_not_open_rolled; [done|].
      pose proof (proj2 (dead_guard d r y H Hy) (doomed_some_dead r d s Hd)) as Hf.
      by rewrite Hf, andb_true_r in Hg.
    + split_and!; [eapply same_graph_good; [by eapply run_moves_graph|done]| |by eapply run_moves_frame].
      eapply run_moves_closed; [exact M|]. naive_solver.
  - unfold ListByRun, ListEdgesByRun, lift, bind, get, ret. fold (steps_of r d) (edges_of r d).
    assert (decodes (steps_of r d)) as Hdec.
    { intros st Hst%steps_of_row; [|done]. by eapply gc_join; [apply G|]. }
    destruct (planWriteOff_spec (steps_of r d) (edges_of r d) Hdec (steps_of_ids r d H)) as (out & -> & _ & Hout).
    destruct (for_each out _ d) as [[[]|e] d1] eqn:E1; [|done].
    destruct (cancel_all_doomed r CancelReasonUpstreamDeadLettered now out d tt d1 H) as [W S]; [|exact E1|].
    { apply Forall_forall. intros t Ht. apply lost_doomed; [done|done|]. by apply Hout. }
    assert (db_inv d1) as H1 by by eapply tx_steps_inv.
    destruct (drop_conflict (FailRunRollup r now) d1) as [[o|e] d2] eqn:E2; [|done]. intros [= <- <-].
    destruct (drop_cases _ _ d1 o d2 (FailRunRollup_transition r now) H1 (FailRunRollup_moves r d1 H1 now) E2)
      as [(e & _ & -> & Ef & Hc)|(b & _ & M & _)].
    + destruct (FailRunRollup_refused' r now d1 e H1 Ef Hc) as (Hnow & y & Hy).
      split_and!; [by apply W| |apply W]. eapply refused_rolled; [done|by apply W|done| |].
      * right. eapply doomed_some_dead. by apply W.
      * by eapply FailRunRollup_refused.
    + split_and!; [eapply same_graph_good; [by eapply run_moves_graph|by apply W]| |].
      * eapply run_moves_closed; [exact M|]. naive_solver.
      * etrans; [apply W|by eapply run_moves_frame].
Qed.
