(* ===== verification/EngineTx.v ===== *)
(** Every transaction of the engine preserves the graph invariant of the run it
    works on, and leaves every other run as it was. *)
From stdpp Require Import relations.
From S2P Require Import Prelude Retry StoreModel Transitions Effects StoreInv StoreSpecs EdgeSpecs StoreSystem StoreTheorems Config Dag Engine EngineInv Moves GraphInv FanOut WriteOff EngineGraph.
Open Scope Z_scope.

(** ** Transactions that respect a relation between databases *)
Definition respects (R : DB → DB → Prop) {A} (m : Tx A) : Prop :=
  ∀ d a d', db_inv d → m d = (Ok a, d') → tx_steps d d' ∧ R d d'.

(** The relations the bookkeeping operations respect. *)
Class Respectful (R : DB → DB → Prop) : Prop := {
  rs_pre :: PreOrder R;
  rs_quiet : ∀ d d', quiet d d' → R d d'
}.

(** Transactions that work on one run. *)
Abbreviation framed r := (respects (frame r)).
#[export] Instance frame_respectful r : Respectful (frame r).
Proof. split; [apply _|]. intros d d' Q. by apply quiet_frame. Qed.

Section respects.
Context (R : DB → DB → Prop) {RR : Respectful R}.

Lemma respects_bind {A B} (m : Tx A) (k : A → Tx B) : respects R m → (∀ a, respects R (k a)) → respects R (bind m k).
Proof.
  intros Hm Hk d b d' H. unfold bind. destruct (m d) as [[a|e] d1] eqn:E; [|done]. intros E'.
  destruct (Hm d a d1 H E) as [S1 F1]. destruct (Hk a d1 b d' (tx_steps_inv _ _ H S1) E') as [S2 F2].
  split; by etrans.
Qed.
Lemma respects_reads {A} (m : Tx A) : reads m → respects R m.
Proof. intros Rd d a d' _ E. specialize (Rd d). rewrite E in Rd. cbn in Rd. by subst. Qed.
Lemma respects_ret {A} (a : A) : respects R (ret a).
Proof. by apply respects_reads. Qed.
Lemma respects_throw {A} e : respects R (@throw A e).
Proof. by apply respects_reads. Qed.
Lemma respects_get : respects R get.
Proof. by apply respects_reads. Qed.
Lemma respects_lift {A} (x : Err + A) : respects R (lift x).
Proof. destruct x; [apply respects_throw|apply respects_ret]. Qed.
Lemma respects_read {A} (f : DB → A) : respects R (let! d := get in ret (f d)).
Proof. by apply respects_reads. Qed.
Lemma respects_for_each {A} (l : list A) f : (∀ x, respects R (f x)) → respects R (for_each l f).
Proof.
  intros Hf. induction l as [|x l IH]; [apply respects_ret|]. apply respects_bind; [done|]. by intros _.
Qed.
Lemma respects_quiet {A} (m : Tx A) : sequenced m → quietly m → respects R m.
Proof. intros S Q d a d' H E. split; [by eapply S|]. apply rs_quiet. by eapply Q. Qed.
Lemma respects_fence {A} (m : Tx A) : respects R m → respects R (fence m).
Proof. intros S d a d' H E. apply (S d a d' H). by apply fence_ok. Qed.
Lemma respects_drop {A} (m : Tx A) : transition m → respects R m → respects R (drop_conflict m).
Proof.
  intros T F d a d' H E.
  assert (on_ok (R d) (m d)) as M.
  { destruct (m d) as [[b|e] d1] eqn:Em; [|done]. by apply (F d b d1 H Em). }
  destruct (drop_cases m _ d a d' T H M E) as [(e & _ & -> & _)|(b & _ & M' & S)]; done.
Qed.
Lemma respects_when {A} (o : option A) f : (∀ a, respects R (f a)) → respects R (when_some o f).
Proof. intros H. destruct o; [apply H|apply respects_ret]. Qed.
End respects.

Section framed.
Context (r : uuid).

Lemma framed_step {A} s P Q (m : Tx A) : transition m →
  (∀ d, db_inv d → on_ok (step_moves r s P Q d) (m d)) → framed r m.
Proof.
  intros T M d a d' H E. split; [by eapply transition_sequenced|]. specialize (M d H). rewrite E in M.
  destruct M as (x & x' & run & run' & C & _). by eapply changes_frame.
Qed.
Lemma framed_run {A} Q (m : Tx A) : transition m →
  (∀ d, db_inv d → on_ok (run_moves r Q d) (m d)) → framed r m.
Proof.
  intros T M d a d' H E. split; [by eapply transition_sequenced|]. specialize (M d H). rewrite E in M.
  by eapply run_moves_frame.
Qed.

Lemma ResolveEdge_rel o f now d a d' : db_inv d → ResolveEdge r o f now d = (Ok a, d') →
  d' = d ∨ is_Some (run_at d r) ∧ fan_rel r d (mkFanOutResult [] []) d' (mkFanOutResult [] []).
Proof.
  intros H E. destruct (decide (now = 0)) as [->|Hnow]; [done|].
  destruct (run_at d r) as [run|] eqn:Hrun; unfold run_at in Hrun.
  2:{ revert E. unfold ResolveEdge, bind, lockRun. rewrite now_ok by done. by rewrite GetRun_eval, Hrun. }
  destruct (find (is_edge r o) (run_edges d)) as [e|] eqn:He.
  2:{ revert E. unfold ResolveEdge, bind, resolveEdgeNoop, GetRunEdge. rewrite now_ok by done.
      erewrite lockRun_ok by done. rewrite update_edge_eval by (done || apply H). rewrite He.
      unfold bind, get. by rewrite He. }
  destruct (edge_target d r o run e H Hrun He) as [x Hx].
  rewrite (ResolveEdge_eval d r o run e H Hrun He f now x Hnow Hx) in E.
  destruct (edge_read d r o run e Hrun He) as (Hin & Er & Eo).
  destruct (edge_EdgeType e) eqn:Ht; [|done].
  destruct (edge_Resolution e) eqn:Hu; [|by left; destruct (bool_decide _); injection E as _ <-..].
  injection E as _ <-. right. split; [by exists run|]. by eapply resolve_rel.
Qed.
Lemma framed_ResolveEdge o f now : framed r (ResolveEdge r o f now).
Proof.
  intros d a d' H E. split; [by eapply (transition_sequenced _ (ResolveEdge_transition r o f now))|].
  destruct (ResolveEdge_rel o f now d a d' H E) as [->|[_ F]]; [done|by eapply fan_frame].
Qed.
End framed.

Create HintDb frames.
#[export] Hint Resolve respects_ret respects_throw respects_get respects_lift respects_read framed_ResolveEdge : frames.

Ltac respected := first
  [ solve [auto with frames nocore typeclass_instances]
  | apply respects_drop; [apply _|solve [auto with loom]|]
  | simple apply respects_bind; [apply _| |intros]
  | apply respects_for_each; [apply _|intros]
  | apply respects_fence
  | apply respects_when; [apply _|intros]
  | match goal with |- respects _ (match ?x with _ => _ end) => destruct x end ].
Ltac frames := repeat first
  [ eapply framed_step; [solve [auto with loom]|solve [eauto with moves]]
  | eapply framed_run; [solve [auto with loom]|solve [eauto with moves]]
  | respected ].

Section blocks.
Context (R : DB → DB → Prop) {RR : Respectful R}.
Implicit Types (now : time).

Lemma respects_GetRun r' : respects R (GetRun r').
Proof. apply respects_reads; [apply _|]. apply GetRun_reads. Qed.
Lemma respects_transitionQueries now : respects R (transitionQueries now).
Proof. apply respects_reads; [apply _|]. apply transitionQueries_reads. Qed.
Lemma respects_LockRunStatus r' now : respects R (LockRunStatus r' now).
Proof.
  unfold LockRunStatus. apply respects_bind; [done|apply respects_transitionQueries|intros _].
  apply respects_bind; [done|apply respects_GetRun|intros; by apply respects_ret].
Qed.
Lemma respects_applyCostRows rows : respects R (applyCostRows rows).
Proof. apply respects_quiet; [done|apply sequenced_applyCostRows|apply applyCostRows_quiet]. Qed.
Lemma respects_enqueue r' ids reason tr : respects R (enqueue r' ids reason tr).
Proof. apply respects_quiet; [done|apply sequenced_enqueue|apply enqueue_quiet]. Qed.
Lemma respects_record r' p now : respects R (transitionQueries now ;; appendEvent r' p).
Proof. apply respects_quiet; [done|apply sequenced_record|apply record_quiet]. Qed.
Lemma respects_op {A} (m : Tx A) : transition m → (∀ d, db_inv d → on_ok (quiet d) (m d)) → respects R m.
Proof. intros T Q. apply respects_quiet; [done|by apply transition_sequenced|by apply quietly_op]. Qed.
Lemma respects_appendEvent r' p : respects R (appendEvent r' p).
Proof. apply respects_op; [auto with loom|]. apply appendEvent_quiet. Qed.
Lemma respects_RecordLoopExhausted r' v now : respects R (RecordLoopExhausted r' v now).
Proof. apply respects_record. Qed.
Lemma respects_RecordLoopNoProgress r' v now : respects R (RecordLoopNoProgress r' v now).
Proof. apply respects_record. Qed.
Lemma respects_outbox r' s reason tr : respects R (CreateOutboxTask r' s reason tr).
Proof. apply respects_op; [auto with loom|]. intros. apply CreateOutboxTask_quiet. Qed.
Lemma respects_DecideApproval a : respects R (DecideApproval a).
Proof. apply respects_op; [auto with loom|]. apply DecideApproval_quiet. Qed.
Lemma respects_ListByRun r' : respects R (ListByRun r').
Proof. by apply respects_read. Qed.
Lemma respects_ListEdgesByRun r' : respects R (ListEdgesByRun r').
Proof. by apply respects_read. Qed.
Lemma respects_ListEdgesFromStep r' s : respects R (ListEdgesFromStep r' s).
Proof. by apply respects_read. Qed.
Lemma respects_ListReadyWithoutOutbox r' : respects R (ListReadyWithoutOutbox r').
Proof. by apply respects_read. Qed.
Lemma respects_CountCountedFailures r' s : respects R (CountCountedFailures r' s).
Proof. by apply respects_read. Qed.
Lemma respects_CountValidationFailures r' s : respects R (CountValidationFailures r' s).
Proof. by apply respects_read. Qed.
End blocks.
#[export] Hint Resolve respects_GetRun respects_LockRunStatus respects_applyCostRows respects_enqueue respects_record
  respects_outbox respects_DecideApproval respects_transitionQueries respects_appendEvent
  respects_RecordLoopExhausted respects_RecordLoopNoProgress respects_ListByRun respects_ListEdgesByRun
  respects_ListEdgesFromStep respects_ListReadyWithoutOutbox respects_CountCountedFailures
  respects_CountValidationFailures : frames.

Section blocks2.
Context (r : uuid).
Implicit Types (now : time).

Lemma framed_resolve_verdicts now vs : ∀ work res, framed r (resolve_verdicts r now vs work res).
Proof. induction vs as [|[o f] vs IH]; intros; cbn [resolve_verdicts]; frames; apply IH. Qed.
Lemma framed_fan_loop now fuel : ∀ work res, framed r (fan_loop r now fuel work res).
Proof.
  induction fuel as [|fuel IH]; intros [|vs work] res; cbn [fan_loop]; frames;
    auto using framed_resolve_verdicts.
Qed.
Lemma framed_fanOut now seed : framed r (fanOut r now seed).
Proof. unfold fanOut. frames. apply framed_fan_loop. Qed.
Lemma framed_attemptCancelRollup now : framed r (attemptCancelRollup r now).
Proof. unfold attemptCancelRollup. frames. Qed.
Lemma framed_attemptRunRollup now : framed r (attemptRunRollup r now).
Proof. unfold attemptRunRollup. frames. Qed.
Lemma framed_deadLetterDisposition f now : framed r (deadLetterDisposition f r now).
Proof. unfold deadLetterDisposition. frames. Qed.
Lemma framed_settleCancelled s c err now : framed r (settleCancelled r s c err now).
Proof. unfold settleCancelled. frames. Qed.
Lemma framed_sweep now steps : framed r (sweep r now steps).
Proof. induction steps; cbn [sweep]; unfold sweep_step; frames. Qed.
#[local] Hint Resolve framed_fanOut : frames.
Lemma framed_advance ev s ty out params tr now : framed r (advance_successors ev r s ty out params tr now).
Proof. unfold advance_successors. frames. Qed.
End blocks2.
#[export] Hint Resolve framed_fanOut framed_attemptCancelRollup framed_attemptRunRollup framed_deadLetterDisposition
  framed_settleCancelled framed_sweep framed_advance : frames.

(** ** Preservation *)

(** [m], a transaction on run [r], keeps the graph invariant of every run. *)
Definition preserves (r : uuid) {A} (m : Tx A) : Prop :=
  ∀ d a d', db_inv d → m d = (Ok a, d') →
    tx_steps d d' ∧ frame r d d' ∧ (graph_ok r d → graph_ok r d').

(** Only runs that are not being cancelled need an argument. *)
Lemma preserves_intro r {A} (m : Tx A) : framed r m →
  (∀ d a d', db_inv d → ¬ cancelled_run r d → good r d → rolled r d → m d = (Ok a, d') → graph_ok r d') →
  preserves r m.
Proof.
  intros F Hm d a d' H E. destruct (F d a d' H E) as [S Fr]. split_and!; [done|done|].
  assert (cancelled_run r d ∨ ¬ cancelled_run r d) as [Hc|Hc].
  { unfold cancelled_run. destruct (run_at d r) as [y|]; [|right; by intros (? & ? & _)].
    destruct (cancel_phase (run_Status y)) eqn:Hp; [left; eauto|right]. intros (z & [= <-] & Hz). congruence. }
  - intros _. left. by eapply cancelled_stays.
  - intros [?|[G R]]; [done|]. by eapply Hm.
Qed.

(** A transaction that is one move of a live step. *)
Lemma preserves_step r s {A} P Q (m : Tx A) : transition m →
  (∀ d, db_inv d → on_ok (step_moves r s P Q d) (m d)) →
  (∀ x st', P x st' → mildly (step_Status x) st' = true ∧ live st' = true) → preserves r m.
Proof.
  intros T M HP. apply preserves_intro; [by eapply framed_step|]. intros d a d' H _ G _ E. right.
  specialize (M d H). rewrite E in M. destruct (step_moves_ok _ _ _ _ _ _ M HP G) as (? & ? & _). done.
Qed.

(** ** The transactions *)

Lemma bind_ok {A B} (m : Tx A) (k : A → Tx B) d b d' :
  bind m k d = (Ok b, d') → ∃ a d1, m d = (Ok a, d1) ∧ k a d1 = (Ok b, d').
Proof. unfold bind. destruct (m d) as [[a|e] d1]; [eauto|done]. Qed.

Lemma fence_inv {A} (m : Tx A) d a d' : fence m d = (Ok a, d') → m d = (Ok a, d').
Proof. apply fence_ok. Qed.

Ltac peel E :=
  let a := fresh "a" in let d1 := fresh "d" in let E1 := fresh "E" in
  apply bind_ok in E as (a & d1 & E1 & E).

Lemma LockRunStatus_ok r now d st d' : LockRunStatus r now d = (Ok st, d') →
  d' = d ∧ ∃ y, run_at d r = Some y ∧ st = run_Status y.
Proof.
  unfold LockRunStatus, lockRun, bind, transitionQueries, guard, run_at. destruct (negb _); [|done]. cbn [ret].
  rewrite GetRun_eval. destruct (find (is_run r) (runs d)) as [y|]; [|done]. intros [= <- <-]. eauto.
Qed.

(** The first read of a completion: the run is not being cancelled. *)
Lemma lock_open r now d st d' : ¬ cancelled_run r d → LockRunStatus r now d = (Ok st, d') →
  d' = d ∧ bool_decide (st = RunStatusCancelling) = false.
Proof.
  intros Hc (-> & y & Hy & ->)%LockRunStatus_ok. split; [done|]. apply bool_decide_eq_false. intros E.
  apply Hc. exists y. by rewrite E.
Qed.

Lemma finish_ok r s {A} P Q (m : Tx A) d a d' : transition m → db_inv d →
  on_ok (step_moves r s P Q d) (m d) →
  (∀ x st', P x st' → active (step_Status x) = true ∧ absorbing st' = true) → good r d →
  m d = (Ok a, d') → db_inv d' ∧ finished r s d'.
Proof.
  intros T H M HP G E. rewrite E in M.
  assert (db_inv d') as H' by (eapply tx_steps_inv; [exact H|by eapply (transition_sequenced m T)]).
  destruct (step_moves_finish r s P Q d d' H M HP G) as (? & ? & _). split; [done|]. split; [done|done|].
  destruct M as (x & x' & run & run' & C & _). rewrite (rch_run' _ _ _ _ _ (ch_run _ _ _ _ _ _ _ _ C)). eauto.
Qed.

Lemma quiet_fin {A} (m : Tx A) r s d a d' : sequenced m → quietly m → db_inv d → finished r s d →
  m d = (Ok a, d') → db_inv d' ∧ finished r s d'.
Proof.
  intros S Q H F E. split; [eapply tx_steps_inv; [exact H|by eapply S]|].
  eapply quiet_finished; [by eapply Q|done].
Qed.

(** The tail of a completion: fan out, roll up. *)
Lemma advance_rollup ev r s ty out params tr now d res d1 o d' : db_inv d → finished r s d →
  advance_successors ev r s ty out params tr now d = (Ok res, d1) →
  attemptRunRollup r now d1 = (Ok o, d') → graph_ok r d'.
Proof.
  intros H F E1 E2. destruct (advance_ok _ _ _ _ _ _ _ _ _ _ _ H F E1) as (G1 & _ & _).
  assert (db_inv d1) as H1 by (eapply tx_steps_inv; [exact H|by eapply (framed_advance r)]).
  destruct (attemptRunRollup_ok r now d1 o d' H1 G1 E2) as [[? _]|(Hg & ? & _)]; [by left|right].
  split; [by eapply same_graph_good|done].
Qed.

Lemma mild_ok r s {A} P Q (m : Tx A) d a d' : transition m → db_inv d →
  on_ok (step_moves r s P Q d) (m d) → (∀ x st', P x st' → mildly (step_Status x) st' = true) → good r d →
  m d = (Ok a, d') → db_inv d' ∧ good r d' ∧ ∃ x', row d' r s = Some x' ∧ ∃ x, P x (step_Status x').
Proof.
  intros T H M HP G E. rewrite E in M. split; [eapply tx_steps_inv; [exact H|by eapply (transition_sequenced m T)]|].
  destruct M as (x & x' & run & run' & C & HPx & _). split; [by eapply mild_good; eauto|].
  exists x'. split; [apply C|eauto].
Qed.

Lemma quiet_good {A} (m : Tx A) r d a d' : sequenced m → quietly m → db_inv d → good r d →
  m d = (Ok a, d') → db_inv d' ∧ good r d' ∧ same_graph r d d'.
Proof.
  intros S Q H G E. split; [eapply tx_steps_inv; [exact H|by eapply S]|].
  assert (same_graph r d d') by (apply quiet_view; by eapply Q). split; [by eapply same_graph_good|done].
Qed.

Section transactions.
Context (ev : string → option json → option json → option bool).
Context (retryDelay : ResolvedRetryPolicy → Z → option Z).
Implicit Types (c : Completion) (now : time).

Lemma completeSuccessTx_preserves c params now :
  preserves (co_RunID c) (completeSuccessTx ev c params now).
Proof.
  apply preserves_intro; [unfold completeSuccessTx; frames|].
  intros d a d' H Hc G R E. unfold completeSuccessTx in E.
  peel E. destruct (lock_open _ _ _ _ _ Hc E0) as [-> Hst]. rewrite Hst in E.
  peel E. apply fence_inv in E1.
  destruct (finish_ok _ _ _ _ _ d _ _ (SucceedStep_transition _ _ _ _ _ _ _ _) H
    (SucceedStep_moves _ _ d H _ _ _ _ _ _)
    ltac:(intros x st' [Hx ->]; by apply bool_decide_eq_true in Hx as ->) G E1) as [H1 F1].
  peel E. destruct (quiet_fin _ _ _ _ _ _ (sequenced_applyCostRows _) (applyCostRows_quiet _) H1 F1 E2) as [H2 F2].
  peel E. peel E3.
  destruct (quiet_fin _ _ _ _ _ _ (sequenced_when _ _ (λ ev, sequenced_record _ (LoopExhaustedEv ev) _))
    (when_some_quiet _ _ (λ ev, record_quiet _ (LoopExhaustedEv ev) _)) H2 F2 E4) as [H3 F3].
  peel E3.
  destruct (quiet_fin _ _ _ _ _ _ (sequenced_when _ _ (λ ev, sequenced_record _ (LoopNoProgressEv ev) _))
    (when_some_quiet _ _ (λ ev, record_quiet _ (LoopNoProgressEv ev) _)) H3 F3 E5) as [H4 F4].
  peel E3. injection E3 as _ <-. by eapply advance_rollup.
Qed.


(** Settling into a live status in one transition, then quiet work. *)
Lemma live_then_quiet r s {A B} P Q (m : Tx A) (k : Tx B) d a d1 b d' : transition m → db_inv d →
  on_ok (step_moves r s P Q d) (m d) →
  (∀ x st', P x st' → mildly (step_Status x) st' = true ∧ live st' = true) → good r d →
  m d = (Ok a, d1) → sequenced k → quietly k → k d1 = (Ok b, d') → graph_ok r d'.
Proof.
  intros T H M HP G E S Qk Ek. right.
  destruct (mild_ok r s P Q m d a d1 T H M (λ x st' HPx, proj1 (HP x st' HPx)) G E) as (H1 & G1 & x' & Hx' & x & HPx).
  destruct (quiet_good k r d1 b d' S Qk H1 G1 Ek) as (_ & G2 & Sg). split; [done|].
  eapply live_rolled; [rewrite (sg_row _ _ _ Sg); exact Hx'|]. by eapply HP.
Qed.

(** The dead-letter tail: the step died, the disposition ran. *)
Lemma dead_then_dispose r s {A} P Q (m : Tx A) d a d1 : transition m → db_inv d →
  on_ok (step_moves r s P Q d) (m d) →
  (∀ x st', P x st' → live (step_Status x) = true ∧ st' = StepStatusDeadLettered) → good r d →
  m d = (Ok a, d1) → db_inv d1 ∧ good r d1 ∧ doomed r d1 s.
Proof.
  intros T H M HP G E.
  destruct (mild_ok r s P Q m d a d1 T H M) as (H1 & G1 & x' & Hx' & x & HPx); [|done|done|].
  { intros x st' HPx. destruct (HP x st' HPx) as [Hl ->]. unfold mildly. rewrite Hl. by rewrite orb_true_r. }
  destruct (HP _ _ HPx) as [_ E']. split_and!; [done|done|]. by eapply doomed_dead.
Qed.

Lemma doomed_quiet {A} (m : Tx A) r s d a d' : quietly m → db_inv d → doomed r d s →
  m d = (Ok a, d') → doomed r d' s.
Proof. intros Q H Hd E. eapply same_graph_doomed; [|exact Hd]. apply quiet_view. by eapply Q. Qed.

Lemma dispose_ok onf r s now d a d' : db_inv d → good r d → doomed r d s →
  deadLetterDisposition onf r now d = (Ok a, d') → graph_ok r d'.
Proof.
  intros H G Hd E. destruct (deadLetterDisposition_ok onf r now d a d' s H G Hd E) as (? & ? & _). by right.
Qed.

Lemma GetRun_ok r d y d' : GetRun r d = (Ok y, d') → d' = d ∧ run_at d r = Some y.
Proof. rewrite GetRun_eval. unfold run_at. destruct (find _ _); [|done]. by intros [= -> ->]. Qed.

Lemma retryRoute_reads c class now : reads (retryRoute retryDelay c class now).
Proof.
  intros d. unfold retryRoute, CountCountedFailures, bind, get, ret.
  destruct (decodeRetryPolicy _); [|done]. destruct (Retries _ _); [|done]. destruct (_ <=? _); [done|].
  by destruct (retryDelay _ _).
Qed.

Ltac dead_facts := intros x st' [Hx ->]; apply bool_decide_eq_true in Hx as ->; done.
Ltac live_facts := intros x st' [Hx ->]; by destruct (step_Status x).

Lemma retryRoute_framed c class now r : framed r (retryRoute retryDelay c class now).
Proof. apply respects_reads; [apply _|]. apply retryRoute_reads. Qed.
#[local] Hint Resolve retryRoute_framed : frames.

Lemma completeFailureTx_preserves c class payload collect params now :
  preserves (co_RunID c) (completeFailureTx ev retryDelay c class payload collect params now).
Proof.
  apply preserves_intro; [unfold completeFailureTx; frames|].
  intros d a d' H Hc G R E. unfold completeFailureTx in E.
  peel E. destruct (lock_open _ _ _ _ _ Hc E0) as [-> Hst]. rewrite Hst in E.
  peel E. pose proof (retryRoute_reads c class now d) as Rd. rewrite E1 in Rd. cbn in Rd. subst d0.
  destruct a1 as [[fireAt|] exhausted]; [|destruct collect].
  - peel E. apply fence_inv in E2. 
    eapply (live_then_quiet (co_RunID c) (co_StepID c) _ _ _ (applyCostRows (co_Costs c) ;; ret (RouteRetry fireAt)));
      [apply RetryStep_transition|exact H|by apply RetryStep_moves|live_facts|done|exact E2|sequence| |exact E].
    apply quietly_bind; [sequence|apply applyCostRows_quiet|intros; apply quietly_ret].
  - peel E. apply fence_inv in E2.
    destruct (finish_ok _ _ _ _ _ d _ _ (CollectFailStep_transition _ _ _ _ _ _ _ _) H
      (CollectFailStep_moves _ _ d H _ _ _ _ _ _) ltac:(dead_facts) G E2) as [H1 F1].
    peel E. destruct (quiet_fin _ _ _ _ _ _ (sequenced_applyCostRows _) (applyCostRows_quiet _) H1 F1 E3) as [H2 F2].
    peel E. peel E. injection E as _ <-. by eapply advance_rollup.
  - peel E. apply fence_inv in E2.
    destruct (dead_then_dispose _ _ _ _ _ d _ _ (DeadLetterStep_transition _ _ _ _ _ _ _ _ _ _) H
      (DeadLetterStep_moves _ _ d H _ _ _ _ _ _ _ _) ltac:(dead_facts) G E2) as (H1 & G1 & D1).
    peel E. destruct (quiet_good _ _ _ _ _ (sequenced_applyCostRows _) (applyCostRows_quiet _) H1 G1 E3) as (H2 & G2 & Sg).
    peel E. apply GetRun_ok in E4 as [-> _]. peel E. injection E as _ <-.
    eapply dispose_ok; [exact H2|done| |exact E4]. by eapply same_graph_doomed.
Qed.

Lemma validation_dead_letter_ok c report n now d a d' : db_inv d → good (co_RunID c) d →
  validation_dead_letter c report n now d = (Ok a, d') → graph_ok (co_RunID c) d'.
Proof.
  intros H G E. unfold validation_dead_letter in E. peel E. injection E0 as <- <-. peel E. apply fence_inv in E0.
  destruct (dead_then_dispose _ _ _ _ _ d _ _ (DeadLetterStep_transition _ _ _ _ _ _ _ _ _ _) H
    (DeadLetterStep_moves _ _ d H _ _ _ _ _ _ _ _) ltac:(dead_facts) G E0) as (H1 & G1 & D1).
  peel E. destruct (quiet_good _ _ _ _ _ (sequenced_applyCostRows _) (applyCostRows_quiet _) H1 G1 E1) as (H2 & G2 & Sg).
  peel E. apply GetRun_ok in E2 as [-> _]. peel E. injection E as _ <-.
  eapply dispose_ok; [exact H2|done| |exact E2]. by eapply same_graph_doomed.
Qed.

Lemma completeValidationFailureTx_preserves c payload m feedback report n now :
  preserves (co_RunID c) (completeValidationFailureTx c payload m feedback report n now).
Proof.
  apply preserves_intro; [unfold completeValidationFailureTx, validation_dead_letter; frames|].
  intros d a d' H Hc G R E. unfold completeValidationFailureTx in E.
  peel E. destruct (lock_open _ _ _ _ _ Hc E0) as [-> Hst]. rewrite Hst in E.
  peel E. injection E1 as <- <-.
  destruct m as [m|]; [|by eapply validation_dead_letter_ok].
  destruct (_ <? m); [|by eapply validation_dead_letter_ok]. peel E. apply fence_inv in E1.
  eapply (live_then_quiet (co_RunID c) (co_StepID c) _ _ _ (CreateOutboxTask _ _ _ _ ;; applyCostRows (co_Costs c) ;; ret (RouteRetry now)));
    [apply SemanticRetryStep_transition|exact H|by apply SemanticRetryStep_moves|live_facts|done|exact E1|sequence| |exact E].
  apply quietly_bind; [sequence|apply quietly_op; intros; apply CreateOutboxTask_quiet|intros].
  apply quietly_bind; [sequence|apply applyCostRows_quiet|intros; apply quietly_ret].
Qed.

(** The parks and throttles: one move of the running step. *)
Lemma settle_preserves c s {A} P Q (m : Tx A) now : transition m →
  (∀ d, db_inv d → on_ok (step_moves (co_RunID c) s P Q d) (m d)) →
  (∀ x st', P x st' → mildly (step_Status x) st' = true ∧ live st' = true) →
  preserves (co_RunID c) (let! status := LockRunStatus (co_RunID c) now in
    if bool_decide (status = RunStatusCancelling) then
      settleCancelled (co_RunID c) (co_StepID c) (co_ClaimID c) None now ;; ret None
    else let! step := fence m in ret (Some step)).
Proof.
  intros T M HP. apply preserves_intro.
  { frames. }
  intros d a d' H Hc G R E. peel E. destruct (lock_open _ _ _ _ _ Hc E0) as [-> Hst]. rewrite Hst in E.
  peel E. apply fence_inv in E1. injection E as _ <-.
  eapply (live_then_quiet (co_RunID c) s _ _ m (ret tt)); [done|exact H|by apply M|done|done|exact E1| | |done].
  - apply sequenced_ret.
  - apply quietly_ret.
Qed.

Lemma completeThrottleTx_preserves c res b ra fireAt now :
  preserves (co_RunID c) (completeThrottleTx c res b ra fireAt now).
Proof.
  eapply settle_preserves; [apply ThrottleStep_transition|intros; by apply ThrottleStep_moves|live_facts].
Qed.
Lemma completeBudgetParkTx_preserves c e now : preserves (co_RunID c) (completeBudgetParkTx c e now).
Proof.
  eapply settle_preserves; [apply BudgetParkStep_transition|intros; by apply BudgetParkStep_moves|live_facts].
Qed.
Lemma completeAwaitHumanTx_preserves c a now : preserves (co_RunID c) (completeAwaitHumanTx c a now).
Proof.
  eapply settle_preserves; [apply AwaitHumanStep_transition|intros; by apply AwaitHumanStep_moves|live_facts].
Qed.
End transactions.

(** ** Requeue *)

Lemma as_if_pending_kind x : step_StepID (as_if_pending x) = step_StepID x ∧
  isJoinAny (as_if_pending x) = isJoinAny x ∧ step_FiredDeps (as_if_pending x) = step_FiredDeps x.
Proof. unfold as_if_pending. by destruct (has_status _ _). Qed.

Lemma as_if_pending_status x : step_Status (as_if_pending x) =
  if bool_decide (step_Status x = StepStatusCancelled) then StepStatusPending else step_Status x.
Proof. unfold as_if_pending, has_status. by destruct (bool_decide _). Qed.

Lemma lost_pending_doomed r d s : db_inv d → graph_core r d [] [] →
  lost (as_if_pending <$> steps_of r d) (edges_of r d) s → doomed r d s.
Proof.
  intros H G. induction 1 as [st Hst Hb|st e Hst Hp Hj He _ IH|st Hst Hp Hj Hf Hn _ IH];
    apply list_elem_of_fmap in Hst as (x & -> & Hst); pose proof (steps_of_row r d x H Hst) as Hrow;
    destruct (as_if_pending_kind x) as (Eid & Ej & Ef); rewrite as_if_pending_status in *; rewrite ?Eid in *.
  - pose proof (gc_failed _ _ _ _ G _ _ Hrow). destruct (step_Status x) eqn:Es; try done. by eapply doomed_dead.
  - apply elem_of_unresolved_in in He as (He & Hu & Ht).
    eapply doomed_all; [exact Hrow| |congruence|exact He|done|done|done]. by destruct (step_Status x).
  - destruct (unresolved_in (edges_of r d) (step_StepID x)) as [|e l] eqn:El; [done|].
    assert (e ∈ unresolved_in (edges_of r d) (step_StepID x)) as He by (rewrite El; by left).
    apply elem_of_unresolved_in in He as (He & Hu & Ht).
    eapply doomed_any; [exact Hrow|by destruct (step_Status x)|congruence|congruence|exact He|done|done|].
    intros e' He' Hu' Ht'. apply IH. rewrite <-El. by apply elem_of_unresolved_in.
Qed.

(** The steps left cancelled after a revival are doomed. *)
Lemma revivable_rest r d ids : db_inv d → graph_core r d [] [] → revivable (steps_of r d) (edges_of r d) = inr ids →
  ∀ s x, row d r s = Some x → step_Status x = StepStatusCancelled → s ∉ ids → doomed r d s.
Proof.
  intros H G. unfold revivable.
  assert (decodes (as_if_pending <$> steps_of r d)) as Hdec.
  { intros st (x & -> & Hst)%list_elem_of_fmap. apply (steps_of_row r d x H) in Hst.
    destruct (as_if_pending_kind x) as (_ & -> & _). by eapply gc_join. }
  assert (NoDup (step_StepID <$> (as_if_pending <$> steps_of r d))) as Hids.
  { rewrite <-list_fmap_compose, (list_fmap_ext _ step_StepID); [by apply steps_of_ids|].
    intros i x _. apply as_if_pending_kind. }
  destruct (planWriteOff_spec _ (edges_of r d) Hdec Hids) as (out & -> & _ & Hout). intros [= <-] s x Hx Hc Hs.
  destruct (row_key _ _ _ _ Hx) as [Er Es].
  assert (x ∈ steps_of r d) as Hst by (apply elem_of_steps_of; split; [by eapply row_elem|done]).
  destruct (decide (s ∈ out)) as [Ho|Ho].
  - apply Hout in Ho as [_ Hl]. by eapply lost_pending_doomed.
  - destruct Hs. apply list_elem_of_fmap. exists x. split; [done|].
    rewrite list_elem_of_In, filter_In, <-list_elem_of_In. split; [done|].
    unfold has_status. by rewrite Hc, Es, bool_decide_eq_true_2, bool_decide_eq_false_2.
Qed.

(** Reviving keeps the core, the doomed steps, and the steps that are not
    cancelled. *)
Record revived (r : uuid) (ids : list string) (d d' : DB) : Prop := mkRevived {
  rv_core : graph_core r d [] [] → graph_core r d' [] [];
  rv_doomed : ∀ t, doomed r d t → doomed r d' t;
  rv_rows : ∀ t x, row d r t = Some x → step_Status x ≠ StepStatusCancelled → row d' r t = Some x;
  rv_cancelled : ∀ t x, row d' r t = Some x → step_Status x = StepStatusCancelled →
    row d r t = Some x ∧ t ∉ ids
}.

Lemma revive_one r s d a d' reason now : db_inv d → ReviveStep r s reason now d = (Ok a, d') → revived r [s] d d'.
Proof.
  intros H E. pose proof (ReviveStep_moves r s d H reason now) as M. rewrite E in M. cbn in M.
  destruct M as (x & x' & run & run' & C & [Hc%bool_decide_eq_true Ex'] & Hst).
  pose proof (ch_kind _ _ _ _ _ _ _ _ C) as K. split.
  - intros G. eapply core_change; [exact C|done|by rewrite Ex', Hc|by rewrite Hc|by rewrite Ex'].
  - apply (doomed_change r d d' s x x' run run' C); intros _ Hs; [congruence|].
    right. split_and!; [by rewrite Ex'|by apply isJoinAny_kind; apply K|intros _; apply K].
  - intros t y Hy Hn. rewrite (ch_rows _ _ _ _ _ _ _ _ C); [done|]. intros [= ->].
    rewrite (ch_row _ _ _ _ _ _ _ _ C) in Hy. congruence.
  - intros t y Hy Hcy. destruct (decide (t = s)) as [->|Hne].
    + rewrite (ch_row' _ _ _ _ _ _ _ _ C) in Hy. congruence.
    + rewrite (ch_rows _ _ _ _ _ _ _ _ C) in Hy by congruence. split; [done|].
      by intros ?%list_elem_of_singleton.
Qed.

Lemma revive_all r reason now ids : ∀ d a d', db_inv d →
  for_each ids (λ s, ReviveStep r s reason now ;; ret tt) d = (Ok a, d') → revived r ids d d' ∧ db_inv d'.
Proof.
  induction ids as [|s ids IH]; intros d a d' H E; cbn [for_each] in E.
  - injection E as _ <-. split; [|done]. split; try done. intros t x Hx Hc. split; [done|apply not_elem_of_nil].
  - peel E. peel E0. injection E0 as _ ->.
    assert (db_inv d0) as H0
      by (eapply tx_steps_inv; [exact H|by eapply (transition_sequenced _ (ReviveStep_transition r s reason now))]).
    destruct (revive_one r s d _ d0 reason now H E1) as [C1 D1 R1 X1].
    destruct (IH d0 a d' H0 E) as [[C2 D2 R2 X2] H']. split; [|done]. split; [auto|auto|auto|].
    intros t x Hx Hc. destruct (X2 t x Hx Hc) as [Hx0 Hn]. destruct (X1 t x Hx0 Hc) as [Hxd Hns].
    split; [done|]. rewrite not_elem_of_cons. split; [|done]. intros ->. apply Hns. by apply list_elem_of_singleton.
Qed.

Lemma requeueTx_framed r s now : framed r (requeueTx r s now).
Proof. unfold requeueTx. frames. Qed.

Lemma requeue_first r s now d a d' : db_inv d → good r d → RequeueStep r s now d = (Ok a, d') →
  db_inv d' ∧ graph_core r d' [] [] ∧ ∃ x, row d' r s = Some x ∧ step_Status x = StepStatusReady.
Proof.
  intros H G E. pose proof (RequeueStep_moves r s d H now) as M. rewrite E in M. cbn in M.
  split; [eapply tx_steps_inv; [exact H|by eapply (transition_sequenced _ (RequeueStep_transition r s now))]|].
  destruct M as (x & x' & run & run' & C & [Hc%bool_decide_eq_true Ex'] & Hst).
  split; [|exists x'; split; [apply C|done]].
  eapply core_change; [exact C|apply G|by rewrite Ex', Hc|by rewrite Ex'|by rewrite Ex'].
Qed.

(** The middle of a requeue: revive what the write-off no longer holds. *)
Definition reviveTx (r : uuid) (now : time) : Tx (list string) :=
  let! steps := ListByRun r in
  if existsb (has_status StepStatusCancelled) steps then
    let! edges := ListEdgesByRun r in
    let! ids := lift (revivable steps edges) in
    for_each ids (λ s, ReviveStep r s ReviveReasonDLQRequeue now ;; ret tt) ;;
    ret ids
  else ret [].

Lemma reviveTx_ok r s now d a d' x : db_inv d → graph_core r d [] [] → row d r s = Some x →
  step_Status x = StepStatusReady → reviveTx r now d = (Ok a, d') →
  db_inv d' ∧ good r d' ∧ row d' r s = Some x.
Proof.
  intros H G Hx Hr E. unfold reviveTx in E. peel E. injection E0 as <- <-. fold (steps_of r d) in E.
  destruct (existsb (has_status StepStatusCancelled) (steps_of r d)) eqn:Ex.
  - peel E. injection E0 as <- <-. fold (edges_of r d) in E. peel E.
    destruct (revivable (steps_of r d) (edges_of r d)) as [e|ids] eqn:Er; [done|]. injection E0 as <- <-.
    peel E. injection E as _ <-.
    destruct (revive_all r _ now ids d _ d0 H E0) as [[C D Rr X] H']. split; [done|].
    split; [split; [auto|]|apply Rr; [done|congruence]].
    intros t y Hy Hc. destruct (X t y Hy Hc) as [Hyd Hn]. apply D. by eapply revivable_rest.
  - injection E as _ <-. split; [done|]. split; [|done]. split; [done|]. intros t y Hy Hc. exfalso.
    apply not_true_iff_false in Ex. apply Ex. apply existsb_exists. exists y.
    rewrite <-list_elem_of_In. destruct (row_key _ _ _ _ Hy). split.
    + apply elem_of_steps_of. split; [by eapply row_elem|done].
    + by apply bool_decide_eq_true.
Qed.

Lemma requeueTx_preserves r s now : preserves r (requeueTx r s now).
Proof.
  apply preserves_intro; [apply requeueTx_framed|]. intros d a d' H Hc G R E. unfold requeueTx in E.
  peel E. destruct (requeue_first r s now d _ d0 H G E0) as (H0 & G0 & x & Hx & Hr).
  peel E. apply GetRun_ok in E1 as [-> Hy]. destruct (_ || _); [done|].
  peel E. assert (db_inv d1 ∧ same_graph r d0 d1) as [H1 S1].
  { destruct (bool_decide _); [|by injection E1 as _ <-]. peel E1. injection E1 as _ ->.
    pose proof (ResumeRun_moves r d0 H0 now) as M. rewrite E2 in M. split; [|by eapply run_moves_graph].
    eapply tx_steps_inv; [exact H0|by eapply (transition_sequenced _ (ResumeRun_transition r now))]. }
  assert (∃ ids d2 (k : Tx RequeueResult), reviveTx r now d1 = (Ok ids, d2) ∧ k d2 = (Ok a, d') ∧
    sequenced k ∧ quietly k) as (ids & d2 & k & E2 & Ek & Sk & Qk).
  { apply bind_ok in E as (steps & d1' & Es & E). injection Es as <- <-. apply bind_ok in E as (ids & d2 & Ei & E).
    eexists ids, d2, _. split; [exact Ei|]. split; [exact E|]. split; [sequence|].
    apply quietly_bind; [sequence|by apply quietly_reads|intros].
    apply quietly_bind; [sequence|apply enqueue_quiet|intros; apply quietly_ret]. }
  destruct (reviveTx_ok r s now d1 ids d2 x H1) as (H2 & G2 & Hx2);
    [by eapply same_graph_core|by rewrite (sg_row _ _ _ S1)|done|done|].
  destruct (quiet_good k r d2 a d' Sk Qk H2 G2 Ek) as (_ & G3 & S3). right. split; [done|].
  eapply live_rolled; [rewrite (sg_row _ _ _ S3); exact Hx2|by rewrite Hr].
Qed.

(** ** Claims, poison, run controls, decisions *)

Lemma claim_preserves r s now sp w c : preserves r (ClaimStepWithOrigin r s now sp w c).
Proof.
  eapply preserves_step; [apply ClaimStepWithOrigin_transition|intros; by apply ClaimStepWithOrigin_moves|].
  intros x st' [Hx ->]. by destruct (step_Status x).
Qed.

Lemma takeoverAndClaimTx_preserves r s h now sp w c : preserves r (takeoverAndClaimTx r s h now sp w c).
Proof.
  intros d a d' H E. pose proof (TakeoverStep_transition r s h now) as T.
  assert (preserves r (TakeoverStep r s h now)) as PT.
  { eapply preserves_step; [exact T|intros; by apply TakeoverStep_moves|]. 
    intros x st' [Hx ->]. by destruct (step_Status x). }
  unfold takeoverAndClaimTx, bind, attempt in E. specialize (T d H).
  destruct (TakeoverStep r s h now d) as [[b|e] d1] eqn:Et; cbn in E.
  - destruct (PT d b d1 H Et) as (S1 & F1 & G1).
    destruct (claim_preserves r s now sp w c d1 a d' (tx_steps_inv _ _ H S1) E) as (S2 & F2 & G2).
    split_and!; [by etrans|by etrans|auto].
  - inversion T as [e'| | |e' d2 Hc]; subst; destruct e; try done.
    destruct (_ && _); [|done]. exact (claim_preserves _ _ _ _ _ _ _ _ _ H E).
Qed.

Lemma poisonTx_preserves r s onf summary payload now : preserves r (poisonTx r s onf summary payload now).
Proof.
  apply preserves_intro; [unfold poisonTx; frames|]. intros d a d' H Hc G R E. unfold poisonTx in E.
  peel E. destruct (dead_then_dispose _ _ _ _ _ d _ _ (PoisonDeadLetterStep_transition _ _ _ _ _) H
    (PoisonDeadLetterStep_moves _ _ d H _ _ _) ltac:(intros x st' [Hx ->]; by destruct (step_Status x)) G E0)
    as (H1 & G1 & D1).
  peel E. pose proof (dispose_ok _ _ _ _ _ _ _ H1 G1 D1 E1) as G2.
  assert (db_inv d1) as H2 by (eapply tx_steps_inv; [exact H1|by eapply sequenced_deadLetterDisposition]).
  destruct a1 as [l []]; cbn in E; [by injection E as _ <-|]. peel E. injection E as _ <-.
  by destruct (attemptCancelRollup_cases r now d1 _ _ H2 E2) as [->|(? & _)]; [|left].
Qed.

(** Once cancelling, always cancelling or cancelled. *)
Lemma cancelRunTx_preserves r reason now : preserves r (cancelRunTx r reason now).
Proof.
  apply preserves_intro; [unfold cancelRunTx; frames|]. intros d a d' H Hc G R E. left.
  unfold cancelRunTx in E. peel E.
  pose proof (CancelRun_moves r d H reason now) as M. rewrite E0 in M. cbn in M.
  assert (db_inv d0) as H0
    by (eapply tx_steps_inv; [exact H|by eapply (transition_sequenced _ (CancelRun_transition r reason now))]).
  assert (tx_steps d0 d') as S.
  { match type of E with ?k d0 = _ => assert (sequenced k) as Sk by sequence end. by eapply Sk. }
  eapply cancelled_stays; [exact H0|exact S|]. destruct M as (run & run' & C & _ & _ & Es).
  exists run'. split; [apply C|]. by rewrite Es.
Qed.

(** Run-level moves between open statuses. *)
Lemma open_move r Q d d' : run_moves r Q d d' → (∀ y st', Q y st' → run_open y = true) →
  good r d → rolled r d → good r d' ∧ rolled r d'.
Proof.
  intros M HQ G R. pose proof (run_moves_graph r Q d d' r M) as S. split; [by eapply same_graph_good|].
  destruct M as (run & run' & C & _ & HQy). intros y _ _.
  destruct (R run (rch_run _ _ _ _ _ C) (HQ _ _ HQy)) as (s & x & Hx & Hl). exists s, x.
  by rewrite (sg_row _ _ _ S).
Qed.

Lemma rolled_graph r d d' : same_view r d d' → good r d → rolled r d → good r d' ∧ rolled r d'.
Proof.
  intros V G R. pose proof (sv_graph _ _ _ V) as S. split; [by eapply same_graph_good|].
  intros y' Hy' Ho. destruct (run_stat_row _ _ _ _ (sv_stat _ _ _ V) Hy') as (y & Hy & Es & _).
  destruct (R y Hy) as (s & x & Hx & Hl); [unfold run_open, run_has in *; by rewrite <-Es|].
  exists s, x. by rewrite (sg_row _ _ _ S).
Qed.

Lemma ParkRun_preserves r reason now : preserves r (ParkRun r reason now).
Proof.
  apply preserves_intro; [frames|]. intros d a d' H Hc G R E. right.
  pose proof (ParkRun_moves r d H reason now) as M. rewrite E in M. eapply open_move; [exact M| |done|done].
  intros y st' [Hy _]. unfold run_open, run_has. by rewrite Hy.
Qed.

Lemma SetRunBudget_preserves r b now : preserves r (SetRunBudget r b now).
Proof.
  apply preserves_intro; [frames|]. intros d a d' H Hc G R E. right.
  pose proof (SetRunBudget_moves r d H b now) as M. rewrite E in M. cbn in M.
  destruct M as (run & run' & C & Hs & Es). eapply rolled_graph; [|done|done].
  apply quiet_view. by eapply quiet_run_changes.
Qed.

Lemma unparkTx_preserves r now : preserves r (unparkTx r now).
Proof.
  apply preserves_intro; [unfold unparkTx; frames|]. intros d a d' H Hc G R E. right.
  unfold unparkTx in E. peel E. pose proof (UnparkRun_moves r d H now) as M. rewrite E0 in M. cbn in M.
  assert (db_inv d0) as H0
    by (eapply tx_steps_inv; [exact H|by eapply (transition_sequenced _ (UnparkRun_transition r now))]).
  destruct (open_move _ _ _ _ M) as [G0 R0]; [|done|done|].
  { intros y st' [Hy _]. unfold run_open, run_has. by rewrite Hy. }
  peel E. injection E1 as _ <-. peel E. injection E as _ <-.
  pose proof (enqueue_quiet _ _ _ _ _ _ _ H0 E1) as Q. eapply rolled_graph; [by apply quiet_view|done|done].
Qed.

Lemma decideDeadLetter_ok r s onf comment now d a d' : db_inv d → good r d →
  decideDeadLetter r s onf comment now d = (Ok a, d') → graph_ok r d'.
Proof.
  intros H G E. unfold decideDeadLetter in E. peel E.
  destruct (dead_then_dispose _ _ _ _ _ d _ _ (DeadLetterAwaitingHumanStep_transition _ _ _ _) H
    (DeadLetterAwaitingHumanStep_moves _ _ d H _ _)
    ltac:(intros x st' [Hx ->]; by apply bool_decide_eq_true in Hx as ->) G E0) as (H1 & G1 & D1).
  peel E. pose proof (dispose_ok _ _ _ _ _ _ _ H1 G1 D1 E1) as G2.
  peel E. injection E as _ <-. destruct a1.2; [|by injection E2 as _ <-].
  peel E2. injection E2 as _ <-. by apply GetRun_ok in E as [-> _].
Qed.

Lemma decideSucceed_ok ev r s ty output decision params now d a d' : db_inv d → good r d →
  decideSucceed ev r s ty output decision params now d = (Ok a, d') → graph_ok r d'.
Proof.
  intros H G E. unfold decideSucceed in E. apply bind_ok in E as (x1 & d1 & E1 & E).
  destruct (finish_ok _ _ _ _ _ d _ _ (SucceedAwaitingHumanStep_transition _ _ _ _) H
    (SucceedAwaitingHumanStep_moves _ _ d H _ _)
    ltac:(intros x st' [Hx ->]; by apply bool_decide_eq_true in Hx as ->) G E1) as [H1 F1].
  apply bind_ok in E as (es & d2 & E2 & E). injection E2 as <- <-. fold (out_edges r d1 s) in E.
  apply bind_ok in E as (vs & d2 & E2 & E).
  destruct (planEdges _ _ _ _ _) as [e|vs'] eqn:Ep; [done|]. injection E2 as -> ->.
  apply bind_ok in E as (fo & d3 & E3 & E).
  assert ((filterDecisionVerdicts (out_edges r d2 s) decision vs).*1 = out_ords r d2 s) as Eo
    by (rewrite filterDecision_ords; by eapply planEdges_ords).
  destruct (fan_finished r now s _ d2 fo d3 H1 F1 Eo E3) as (G3 & _ & _).
  assert (db_inv d3) as H3 by (eapply tx_steps_inv; [exact H1|by eapply sequenced_fanOut]).
  apply bind_ok in E as (u & d4 & E4 & E).
  destruct (quiet_good _ r _ _ _ (sequenced_enqueue _ _ _ _) (enqueue_quiet _ _ _ _) H3 G3 E4) as (H4 & G4 & _).
  destruct (attemptRunRollup_ok r now _ _ _ H4 G4 E) as [[? _]|(Hg & ? & _)]; [by left|right].
  split; [by eapply same_graph_good|done].
Qed.

(** The step belongs to the approval's run, as Decide reads it. *)
Lemma decideTx_preserves ev ap step run onReject req output now : step_RunID step = ap_RunID ap →
  preserves (ap_RunID ap) (decideTx ev ap step run onReject req output now).
Proof.
  intros Er. apply preserves_intro.
  { unfold decideTx, decideDeadLetter, decideSucceed. rewrite Er. frames. }
  intros d a d' H Hc G R E. unfold decideTx in E. rewrite Er in E. set (r := ap_RunID ap) in *.
  peel E. destruct (LockRunStatus_ok _ _ _ _ _ E0) as (-> & _). destruct (_ && _); [done|].
  peel E. match type of E1 with DecideApproval ?args _ = _ => set (da := args) in E1 end.
  assert (db_inv d0) as H0
    by (eapply tx_steps_inv; [exact H|by eapply (transition_sequenced _ (DecideApproval_transition da))]).
  assert (good r d0) as G0.
  { eapply same_graph_good; [|exact G]. apply quiet_view. pose proof (DecideApproval_quiet da d H) as Q.
    by rewrite E1 in Q. }
  destruct (_ && _); peel E; injection E as _ <-.
  - by eapply decideDeadLetter_ok.
  - by eapply decideSucceed_ok.
Qed.

(** The park policy of an approval timeout: what follows the expiry of the row. *)
Definition expire_tail (i r : uuid) (s : string) (n : Z) (t : option time) (now : time) (run : Run) (p : Approval)
    : Tx (Approval * Run * string) :=
  let! ra := if run_has RunStatusParked run then let! run := GetRun r in ret (run, ApprovalActionRunAlreadyParked)
    else let! run := ParkRun r ParkReasonAwaitingHuman now in ret (run, ApprovalActionRunParked) in
  appendEvent r (ApprovalExpiredEv i s n ApprovalTimeoutPark "" (snd ra) t) ;;
  ret (expire_set now p, fst ra, snd ra).

Lemma ExpireApprovalPark_split i r s n t now d a d' : db_inv d →
  ExpireApprovalPark i r s n t now d = (Ok a, d') →
  ∃ run p d1, run_at d r = Some run ∧ tx_step d d1 ∧ quiet d d1 ∧
    expire_tail i r s n t now run p d1 = (Ok a, d').
Proof.
  intros H E. unfold ExpireApprovalPark in E.
  apply bind_ok in E as (u & d1 & E1 & E). pose proof (transitionQueries_reads now d) as R1. rewrite E1 in R1.
  cbn in R1. subst d1. apply bind_ok in E as (run & d1 & E2 & E). apply GetRun_ok in E2 as [-> Hrun].
  apply bind_ok in E as (o & d1 & E2 & E). rewrite (run_update_approval d r run) in E2 by done.
  destruct (find _ (approvals d)) as [p|].
  2:{ injection E2 as <- <-. unfold GetApproval in E. apply bind_ok in E as (cur & d2 & _ & E).
      by destruct (negb _). }
  injection E2 as <- <-. match type of E with _ ?d1 = _ => exists run, p, d1 end. split; [done|]. split; [by apply update_approval_step|].
  split; [|exact E]. split; [by cbn; apply set_row_id|done| |]; intros r' *; unfold run_at; cbn;
    rewrite (set_row_id _ _ (runs d)) by (intros []; unfold advance; cbn; f_equal; lia); eauto.
Qed.

Lemma expire_tail_preserves i r s n t now run p : preserves r (expire_tail i r s n t now run p).
Proof.
  apply preserves_intro; [unfold expire_tail; frames|]. intros d a d' H Hc G R E. right. unfold expire_tail in E.
  apply bind_ok in E as (ra & d1 & E1 & E). apply bind_ok in E as ([] & d2 & E2 & E). injection E as _ <-.
  assert (db_inv d1 ∧ good r d1 ∧ rolled r d1) as (H1 & G1 & R1).
  { destruct (run_has _ _).
    - apply bind_ok in E1 as (y & d3 & E3 & E1). injection E1 as _ <-. by apply GetRun_ok in E3 as [-> _].
    - apply bind_ok in E1 as (y & d3 & E3 & E1). injection E1 as _ <-.
      destruct (ParkRun_preserves r _ now d y d3 H E3) as (S & _ & Hg).
      pose proof (ParkRun_moves r d H ParkReasonAwaitingHuman now) as M. rewrite E3 in M.
      destruct (open_move _ _ _ _ M) as [G3 R3]; [|done|done|].
      { intros z st' [Hz _]. unfold run_open, run_has. by rewrite Hz. }
      split; [by eapply tx_steps_inv|done]. }
  pose proof (appendEvent_quiet r (ApprovalExpiredEv i s n ApprovalTimeoutPark "" (snd ra) t) d1 H1) as Q.
  rewrite E2 in Q. eapply rolled_graph; [by apply quiet_view|done|done].
Qed.

Lemma ExpireApprovalPark_preserves i r s n t now : preserves r (ExpireApprovalPark i r s n t now).
Proof.
  intros d a d' H E. pose proof (ExpireApprovalPark_sequenced i r s n t now d a d' H E) as S.
  destruct (ExpireApprovalPark_split _ _ _ _ _ _ _ _ _ H E) as (run & p & d1 & _ & T1 & Q1 & E').
  destruct (expire_tail_preserves i r s n t now run p d1 a d' (tx_step_inv _ _ H T1) E') as (_ & F & Hg).
  split_and!; [done|etrans; [by apply quiet_frame|done]|].
  intros Hok. apply Hg. eapply same_view_ok; [by apply quiet_view|done].
Qed.
