(* ===== verification/EngineStart.v ===== *)
(** A new run satisfies the graph invariant. *)
From stdpp Require Import relations.
From S2P Require Import Prelude Retry StoreModel Transitions Effects StoreInv StoreSpecs EdgeSpecs StoreSystem StoreTheorems Config Dag GraphFacts ReadyFacts Instantiate DagProps Engine EngineInv Moves GraphInv FanOut WriteOff EngineGraph EngineTx.
Open Scope Z_scope.

(** What decoding guarantees of a definition beyond its graph: it has a step,
    and a join step carries a join config with a known mode. *)
Definition join_mode_ok (m : string) : bool :=
  bool_decide (m = "") || bool_decide (m = JoinAll) || bool_decide (m = JoinAny).
Definition join_config_ok (st : Step) : bool :=
  if bool_decide (Type_ st = StepJoin) then
    match Config st with None => true | Some (JoinConfigC m) => join_mode_ok m | Some _ => false end
  else true.
Definition decoded (def : Definition_) : bool :=
  negb (bool_decide (Steps def = [])) && forallb join_config_ok (Steps def).

(** Marshalling a join config and decoding it back. *)
Lemma join_roundtrip m : decodeJoinConfig (marshalConfig (JoinConfigC m)) =
  if join_mode_ok m then Some m else None.
Proof.
  unfold marshalConfig, omit_str, decodeJoinConfig, join_mode_ok.
  destruct (decide (m = "")) as [->|Hm]; [done|].
  rewrite !(bool_decide_eq_false_2 (m = "")) by done. cbn [join_mode_fields].
  rewrite bool_decide_eq_true_2 by done. by rewrite !(bool_decide_eq_false_2 (m = "")) by done.
Qed.

(** A materialized join step decodes. *)
Lemma join_decodes st x : step_StepType x = Type_ st →
  (Type_ st ≠ StepAgent → step_Config x = marshalConfig <$> Config st) → join_config_ok st = true →
  ∃ b, isJoinAny x = inr b.
Proof.
  intros Ht Hc Hok. unfold isJoinAny. rewrite Ht.
  destruct (decide (Type_ st = StepJoin)) as [Et|Hne]; [|rewrite bool_decide_eq_false_2 by done; by eexists].
  rewrite bool_decide_eq_true_2 by done. cbn [negb]. rewrite Hc by by rewrite Et.
  unfold join_config_ok in Hok. rewrite bool_decide_eq_true_2 in Hok by done.
  destruct (Config st) as [[]|]; try done; cbn [fmap option_fmap option_map]; [|by eexists].
  rewrite join_roundtrip, Hok. by eexists.
Qed.

Section start.
Context (d : DB) (def : Definition_) (p : instantiationPlan) (args : CreateRunArgs) (rows : list RunStep).
Context (H : db_inv d) (Hplan : planGraph def = inr p)
  (Hrows : step_rows p args (Steps def) = inr rows)
  (Hfresh : existsb (is_run (cr_RunID args)) (runs d) = false)
  (Hdec : decoded def = true).
Abbreviation id := (cr_RunID args).
Abbreviation d1 := (inserted d p args rows).

Lemma start_inv : db_inv d1.
Proof. by eapply inserted_inv. Qed.

Lemma start_row s x : row d1 id s = Some x → ∃ st, st ∈ Steps def ∧ row_of p args st x ∧ ID st = s.
Proof.
  intros Hx. destruct (row_key _ _ _ _ Hx) as [Er Es]. apply row_elem in Hx as [Hx|Hx]%elem_of_app.
  - by apply (fresh_step d args H Hfresh) in Hx.
  - destruct (new_row def p args rows Hrows x Hx) as (st & Hst & R). exists st. split_and!; [done|done|].
    pose proof (ro_key _ _ _ _ R) as [= _ E]. congruence.
Qed.

Lemma start_row_for st : st ∈ Steps def → ∃ x, row d1 id (ID st) = Some x ∧ row_of p args st x.
Proof.
  intros Hst. destruct (row_for def p args rows Hrows st Hst) as (x & Hx & R). exists x. split; [|done].
  pose proof (ro_key _ _ _ _ R) as [= E1 E2]. rewrite <-E1, <-E2. apply elem_row; [apply start_inv|].
  apply elem_of_app. by right.
Qed.

Lemma start_status x st : row_of p args st x →
  step_Status x = StepStatusReady ∨ step_Status x = StepStatusPending ∧ ID st ∉ pl_entry p.
Proof. intros R. rewrite (ro_status _ _ _ _ R). case_bool_decide; auto. Qed.

Lemma start_edge e : edge_of id d1 e → ∃ ed, ed ∈ Edges def ∧ IsLoop ed = false ∧
  edge_FromStep e = From ed ∧ edge_ToStep e = To ed ∧ unresolved e.
Proof.
  intros (He & Er & Ht). apply elem_of_app in He as [He|He].
  - by apply (fresh_edge d args H Hfresh) in He.
  - destruct (new_edge def p args Hplan e He) as (i & ed & Hed & ->). exists ed.
    split; [by eapply list_elem_of_lookup_2|]. cbn in Ht. unfold IsLoop. by rewrite Ht.
Qed.

Lemma start_rank : ∃ rank : string → nat, ∀ e, edge_of id d1 e → (rank (edge_FromStep e) < rank (edge_ToStep e))%nat.
Proof.
  pose proof Hplan as Hp. revert Hp. unfold planGraph. destruct (NewGraph def) as [|g] eqn:Hg; [done|].
  destruct (ReadySteps g ∅ ∅ ∅) as [|[entry newly]] eqn:E; [done|]. intros _.
  apply NewGraph_spec in Hg as G. destruct (ReadySteps_ok def g G _ _ _ _ E) as [_ Ht].
  destruct (order_ranks def g G Ht) as [rank Hr]. exists rank.
  intros e (ed & Hed & Hl & -> & -> & _)%start_edge. apply Hr. by exists ed.
Qed.

Lemma start_wait st x : st ∈ Steps def → row_of p args st x → ID st ∉ pl_entry p → 1 ≤ step_RemainingDeps x.
Proof.
  intros Hst R Hn. destruct (plan_entry def p Hplan) as [_ He]. rewrite (He st Hst) in Hn.
  rewrite (ro_deps _ _ _ _ R). destruct (planGraph_spec _ _ Hplan) as (_ & -> & _).
  rewrite count_remaining_spec.
  destruct (existsb (λ e, negb (IsLoop e) && bool_decide (To e = ID st)) (Edges def)) eqn:Ex.
  - apply existsb_exists in Ex as (ed & Hed%list_elem_of_In & Hp).
    assert (0 < count (λ e, negb (IsLoop e) && bool_decide (To e = ID st)) (Edges def)); [|lia].
    apply count_pos. eauto.
  - exfalso. apply Hn. intros a (ed & Hed & Hl & _ & Hto). apply not_true_iff_false in Ex. apply Ex.
    apply existsb_exists. exists ed. split; [by apply list_elem_of_In|].
    by rewrite Hl, Hto, bool_decide_eq_true_2.
Qed.

Lemma start_join st x : st ∈ Steps def → row_of p args st x → ∃ b, isJoinAny x = inr b.
Proof.
  intros Hst R. apply (join_decodes st); [apply R|apply R|].
  pose proof Hdec as Hall. unfold decoded in Hall. apply andb_prop in Hall as [_ Hall]. rewrite forallb_forall in Hall.
  by apply Hall, list_elem_of_In.
Qed.

Lemma start_good : good id d1.
Proof.
  split.
  - split.
    + intros e (ed & Hed & Hl & Ef & Et & Hu)%start_edge.
      destruct (plan_graph def p Hplan) as [g G]. 
      destruct (go_ends _ _ G ed Hed) as [(st & Est & Hst)%list_elem_of_fmap _].
      destruct (start_row_for st Hst) as (x & Hx & R). exists x. rewrite Ef, Est. split; [done|].
      split; [|done]. intros _. left. by destruct (start_status x st R) as [-> | [-> _]].
    + intros s x _ (st & Hst & R & <-)%start_row Hw. rewrite (ro_fired _ _ _ _ R). split; [|done].
      destruct (start_status x st R) as [E|[_ Hn]]; [by rewrite E in Hw|by eapply start_wait].
    + intros s x (st & Hst & R & <-)%start_row. by eapply start_join.
    + intros s x (st & Hst & R & <-)%start_row. by destruct (start_status x st R) as [-> | [-> _]].
    + destruct start_rank as [rank Hr]. exists rank. auto.
    + apply NoDup_nil_2.
    + by intros o ?%not_elem_of_nil.
  - intros s x (st & Hst & R & <-)%start_row Hc. by destruct (start_status x st R) as [E | [E _]]; rewrite E in Hc.
Qed.

Lemma start_rolled : rolled id d1.
Proof.
  assert (∃ st, st ∈ Steps def) as [st Hst].
  { clear -Hdec. unfold decoded in Hdec. apply andb_prop in Hdec as [Hn _].
    destruct (Steps def) as [|st l]; [done|]. exists st. by left. }
  destruct (start_row_for st Hst) as (x & Hx & R). eapply live_rolled; [exact Hx|].
  by destruct (start_status x st R) as [-> | [-> _]].
Qed.

Lemma find_app_None {A} (q : A → bool) (l k : list A) : (∀ x, x ∈ k → q x = false) → find q (l ++ k) = find q l.
Proof.
  intros Hk. induction l as [|a l IH]; cbn.
  - induction k as [|a k IH]; [done|]. cbn. rewrite (Hk a) by (by left). apply IH. intros x Hx. apply Hk. by right.
  - by destruct (q a).
Qed.

Lemma start_frame : frame id d d1.
Proof.
  intros r Hne. split; [split|].
  - intros s. unfold row. cbn. apply find_app_None. intros x Hx%(new_row_run def p args rows Hrows).
    unfold is_step. by rewrite Hx, bool_decide_eq_false_2.
  - intros e Er. cbn. rewrite elem_of_app. split; [|by left]. intros [?|He]; [done|].
    destruct (new_edge def p args Hplan e He) as (i & ed & _ & ->). done.
  - unfold run_stat, run_at. cbn. rewrite find_app_None; [done|]. intros y Hy%list_elem_of_singleton.
    subst. unfold is_run. cbn. by rewrite bool_decide_eq_false_2.
Qed.
End start.

Lemma announce_quiet p args : quietly (announce p args).
Proof.
  unfold announce. apply quietly_bind; [sequence|apply quietly_op; intros; by apply appendEvent_quiet|intros].
  apply quietly_bind; [sequence| |intros].
  { apply quietly_for_each; intros; [sequence|apply quietly_op; intros; by apply appendEvent_quiet]. }
  apply quietly_bind; [sequence| |intros; apply quietly_ret].
  apply quietly_for_each; intros; [sequence|apply quietly_op; intros; apply CreateOutboxTask_quiet].
Qed.

Lemma insert_run_ok def p args d y d' : db_inv d → planGraph def = inr p → decoded def = true →
  insert_run p args d = (Ok y, d') → (∀ r, graph_ok r d) → db_inv d' ∧ ∀ r, graph_ok r d'.
Proof.
  intros H Hp Hdec E Hg. split; [by eapply insert_run_inv|].
  destruct (insert_run_cases def p args d H Hp) as [(e & d1 & E' & _)|(rows & Hrows & Hf & _ & _ & _ & E')]; [congruence|].
  rewrite E' in E.
  pose proof (start_inv d def p args rows H Hp Hrows Hf) as H1.
  pose proof (announce_quiet p args _ _ _ H1 E) as Q. intros r.
  eapply same_view_ok; [by apply quiet_view|]. destruct (decide (r = cr_RunID args)) as [->|Hne].
  - right. split; [by eapply start_good|by eapply start_rolled].
  - eapply same_view_ok; [by eapply start_frame|apply Hg].
Qed.
