(* ===== verification/ExpandSpec.v ===== *)
(** [ExpandRun] against the store invariant: an accepted delta is written in full,
    a refused one not at all, and the integrity errors are unreachable. *)
From stdpp Require Import relations.
From S2P Require Import Prelude Issues GoStd Retry StoreModel Config Template Transitions Effects StoreInv StoreSpecs EdgeSpecs StoreSystem StoreTheorems Dag GraphFacts Validate ValidateGraph Expansion Instantiate Expand DagProps ValidateFacts ExpansionFacts Engine EngineInv Moves GraphInv FanOut WriteOff EngineGraph EngineTx.
Open Scope Z_scope.

(** A read by key in an extended table. *)
Lemma find_app_left {A} (p : A → bool) l1 l2 x : find p l1 = Some x → find p (l1 ++ l2) = Some x.
Proof. induction l1 as [|z l1 IH]; [done|]. cbn. by destruct (p z). Qed.
Lemma find_app_right {A} (p : A → bool) l1 l2 : find p l1 = None → find p (l1 ++ l2) = find p l2.
Proof. induction l1 as [|z l1 IH]; [done|]. cbn. by destruct (p z). Qed.

(** ** Counting the spliced edges *)

Definition enters_step (s : string) (e : Edge) : bool := negb (IsLoop e) && bool_decide (To e = s).

Lemma count_snoc {A} (p : A → bool) l x : count p (l ++ [x]) = count p l + (if p x then 1 else 0).
Proof. rewrite count_app. cbn. lia. Qed.

(** The two maps of [splice_counts] hold the positive counts, by kind of target. *)
Definition counted (b : bool) (n : Z) : option Z := if b && (0 <? n) then Some n else None.
Lemma counted_insert n : 0 ≤ n → Some (default 0 (counted true n) + 1) = counted true (n + 1).
Proof.
  intros Hn. unfold counted. rewrite (proj2 (Z.ltb_lt 0 (n + 1))) by lia.
  destruct (Z.ltb_spec 0 n); cbn; f_equal; lia.
Qed.
Lemma splice_lookup (delta : gset string) es s :
  (splice_counts delta es).1 !! s = counted (bool_decide (s ∈ delta)) (count (enters_step s) es) ∧
  (splice_counts delta es).2 !! s = counted (negb (bool_decide (s ∈ delta))) (count (enters_step s) es).
Proof.
  induction es as [|e es [IH1 IH2]] using rev_ind.
  { cbn. unfold counted. rewrite !andb_false_r. by rewrite !lookup_empty. }
  pose proof (count_nonneg (enters_step s) es) as Hn.
  unfold splice_counts in *. rewrite fold_left_app, count_snoc. cbn [fold_left].
  set (m := fold_left _ es _) in *. unfold enters_step at 2 4.
  destruct (IsLoop e); cbn [negb andb]; [by rewrite Z.add_0_r|].
  destruct (decide (To e = s)) as [<-|Hne].
  - rewrite (bool_decide_eq_true_2 (To e = To e)) by done.
    destruct (bool_decide (To e ∈ delta)); cbn [fst snd negb] in *; rewrite ?lookup_insert_eq, ?IH1, ?IH2, counted_insert; done.
  - rewrite (bool_decide_eq_false_2 (To e = s)), Z.add_0_r by done.
    destruct (bool_decide (To e ∈ delta)); cbn [fst snd]; by rewrite ?lookup_insert_ne.
Qed.

Lemma indegree_lookup plan s : s ∈ ID <$> po_Steps plan →
  default 0 (deltaIndegree plan !! s) = count (enters_step s) (po_Edges plan).
Proof.
  intros Hs. unfold deltaIndegree. rewrite (proj1 (splice_lookup _ _ s)), bool_decide_eq_true_2 by (by apply elem_of_list_to_set).
  unfold counted. cbn. pose proof (count_nonneg (enters_step s) (po_Edges plan)).
  destruct (Z.ltb_spec 0 (count (enters_step s) (po_Edges plan))); cbn; lia.
Qed.
Lemma widen_lookup plan s : widenExisting plan !! s =
  counted (negb (bool_decide (s ∈ ID <$> po_Steps plan))) (count (enters_step s) (po_Edges plan)).
Proof.
  unfold widenExisting. rewrite (proj2 (splice_lookup _ _ s)). f_equal. f_equal. apply bool_decide_ext.
  by rewrite elem_of_list_to_set.
Qed.
Lemma widen_count plan s : s ∉ ID <$> po_Steps plan →
  default 0 (widenExisting plan !! s) = count (enters_step s) (po_Edges plan).
Proof.
  intros Hs. rewrite widen_lookup, bool_decide_eq_false_2 by done. unfold counted. cbn.
  pose proof (count_nonneg (enters_step s) (po_Edges plan)).
  destruct (Z.ltb_spec 0 (count (enters_step s) (po_Edges plan))); cbn; lia.
Qed.
Lemma widen_some plan s : is_Some (widenExisting plan !! s) →
  s ∉ ID <$> po_Steps plan ∧ ∃ e, e ∈ po_Edges plan ∧ IsLoop e = false ∧ To e = s.
Proof.
  rewrite widen_lookup. unfold counted. intros [k Hk].
  destruct (negb (bool_decide (s ∈ ID <$> po_Steps plan))) eqn:Hs; [|done].
  destruct (Z.ltb_spec 0 (count (enters_step s) (po_Edges plan))) as [Hc|]; [|done]. split.
  - by apply negb_true_iff, bool_decide_eq_false in Hs.
  - apply count_pos in Hc as (e & He & [Hl Ht]%andb_prop). exists e. apply bool_decide_eq_true in Ht.
    by apply negb_true_iff in Hl.
Qed.

(** ** Anchors *)

Lemma buildAnchors_lookup l o id a : NoDup (step_StepID <$> l) →
  buildAnchors l o !! id = Some a ↔ ∃ x, x ∈ l ∧ step_StepID x = id ∧ a = anchor_of o x.
Proof.
  induction l as [|x l IH] using rev_ind; intros N.
  { unfold buildAnchors. cbn. rewrite lookup_empty. split; [done|]. by intros (? & ?%not_elem_of_nil & _). }
  rewrite fmap_app, NoDup_app in N. destruct N as (N & Hx & _). specialize (IH N).
  unfold buildAnchors in *. rewrite fold_left_app. cbn [fold_left].
  destruct (decide (step_StepID x = id)) as [<-|Hne].
  - rewrite lookup_insert_eq. split; [intros [= <-]; exists x; set_solver|].
    intros (z & [Hz|Hz%list_elem_of_singleton]%elem_of_app & Ez & ->); [|by subst].
    destruct (Hx (step_StepID x)); [rewrite <-Ez; by apply list_elem_of_fmap_2|]. by left.
  - rewrite lookup_insert_ne, IH by done. split; [intros (z & ? & ? & ?); exists z; set_solver|].
    intros (z & [Hz|Hz%list_elem_of_singleton]%elem_of_app & Ez & ->); [by exists z|congruence].
Qed.

Lemma max_dead_letter_none f r s l : (∀ dl, dl ∈ l → is_dead_letter r s dl = false) → max_dead_letter f r s l = 0.
Proof.
  unfold max_dead_letter. induction l as [|dl l IH]; intros Hl; [done|]. cbn. rewrite Hl by by left.
  apply IH. intros. apply Hl. by right.
Qed.

(** ** Widening *)

Definition bump (r : uuid) (grown : gmap string Z) (now : time) (x : RunStep) : RunStep :=
  match (if of_run r x then grown !! step_StepID x else None) with
  | Some k => x <| step_RemainingDeps := step_RemainingDeps x + k |> <| step_UpdatedAt := now |>
  | None => x
  end.

(** What a widened row keeps. *)
Record same_but_deps (x x' : RunStep) : Prop := mkSameButDeps {
  sbd_key : step_key x' = step_key x;
  sbd_type : step_StepType x' = step_StepType x;
  sbd_config : step_Config x' = step_Config x;
  sbd_status : step_Status x' = step_Status x;
  sbd_fired : step_FiredDeps x' = step_FiredDeps x;
  sbd_claim : step_ClaimID x' = step_ClaimID x;
  sbd_count : step_AttemptCount x' = step_AttemptCount x;
  sbd_next : step_NextAttemptAt x' = step_NextAttemptAt x;
  sbd_envelope : step_Envelope x' = step_Envelope x
}.
Lemma bump_same r grown now x : same_but_deps x (bump r grown now x).
Proof. unfold bump. by destruct (if of_run r x then _ else _). Qed.
Lemma bump_deps r grown now x : step_RunID x = r →
  step_RemainingDeps (bump r grown now x) = step_RemainingDeps x + default 0 (grown !! step_StepID x).
Proof.
  intros <-. unfold bump, of_run. rewrite bool_decide_eq_true_2 by done.
  destruct (grown !! step_StepID x); cbn; lia.
Qed.
Lemma bump_other r grown now x : step_RunID x ≠ r → bump r grown now x = x.
Proof. intros Hne. unfold bump, of_run. by rewrite bool_decide_eq_false_2. Qed.

Lemma widen_each r grown now ids : ∀ d, NoDup ids → NoDup (step_key <$> run_steps d) →
  (∀ id, id ∈ ids → is_Some (grown !! id) ∧ ∃ x, find (is_step r id) (run_steps d) = Some x ∧ step_Status x = StepStatusPending) →
  for_each ids (widen r grown now) d =
    (Ok tt, d <| run_steps := (λ x, if bool_decide (step_StepID x ∈ ids) then bump r grown now x else x) <$> run_steps d |>).
Proof.
  induction ids as [|id ids IH]; intros d Hids N Hall.
  { cbn. assert ((λ x, if bool_decide (step_StepID x ∈ []) then bump r grown now x else x) <$> run_steps d = run_steps d) as ->;
      [|by destruct d]. rewrite <-(list_fmap_id (run_steps d)) at 2. apply list_fmap_ext. intros i x _.
    by rewrite bool_decide_eq_false_2 by apply not_elem_of_nil. }
  apply NoDup_cons in Hids as [Hid Hids]. destruct (Hall id ltac:(by left)) as ([k Hk] & x & Hx & Hp).
  cbn [for_each]. unfold bind at 1, widen at 1, AddRunStepRemainingDeps, bind at 1.
  set (f := λ x, x <| step_RemainingDeps := step_RemainingDeps x + default 0 (grown !! id) |> <| step_UpdatedAt := now |>).
  rewrite update_step_eval by done. rewrite Hx. unfold has_status. rewrite Hp, bool_decide_eq_true_2 by done. cbn [ret].
  rewrite IH; [|done| |].
  - f_equal. cbn. f_equal. unfold set_row. change (map ?g ?l) with (g <$> l). rewrite <-list_fmap_compose.
    apply list_fmap_ext. intros i z _. cbn. unfold is_step.
    destruct (decide (step_StepID z = id)) as [<-|Hne].
    + rewrite (bool_decide_eq_true_2 (step_StepID z ∈ step_StepID z :: ids)) by by left.
      unfold bump, of_run. destruct (bool_decide (step_RunID z = r)) eqn:Er; cbn [andb];
        rewrite ?(bool_decide_eq_true_2 (step_StepID z = step_StepID z)) by done; cbn;
        rewrite bool_decide_eq_false_2 by done; [|done]. subst f. cbn. by rewrite Hk.
    + rewrite (bool_decide_eq_false_2 (step_StepID z = id)), andb_false_r by done.
      rewrite (bool_decide_ext (step_StepID z ∈ id :: ids) (step_StepID z ∈ ids)) by set_solver. done.
  - cbn. by rewrite (set_row_keys step_key (λ k, is_step k.1 k.2) (r, id)).
  - intros id' Hid'. destruct (Hall id' ltac:(by right)) as (? & x' & Hx' & Hp'). split; [done|]. exists x'.
    split; [|done]. cbn. rewrite <-Hx'.
    apply (find_set_row_ne step_key (λ k, is_step k.1 k.2) is_step_key (r, id) (r, id')); [done|].
    intros [= ->]. done.
Qed.

(** Fresh ordinals. *)
Lemma max_ordinal_ge r l e : e ∈ l → edge_RunID e = r → edge_Ordinal e ≤ max_ordinal r l.
Proof.
  intros He Er. unfold max_ordinal. induction l as [|z l IH]; [by apply not_elem_of_nil in He|]. cbn.
  apply elem_of_cons in He as [->|He].
  - rewrite bool_decide_eq_true_2 by done. lia.
  - specialize (IH He). case_bool_decide; lia.
Qed.

(** ** The spliced database *)

Section splice.
Context (CompileExpr : string → exprResult) (textTemplateParses : list outSeg → bool).
Context (args : ExpandRunArgs) (d : DB) (run : Run) (origin : RunStep).
Abbreviation r := (er_RunID args).
Abbreviation plan := (er_Plan args).
Abbreviation inp := (expansion_input args run origin (steps_of r d) (edges_of r d)).
Context (H : db_inv d) (Hrun : run_at d r = Some run).
Context (A : admitted CompileExpr textTemplateParses inp).

Definition rows : list RunStep := injected_row args inp run (deltaIndegree plan) <$> po_Steps plan.
Definition new_edges : list RunEdge := spliced_edges args run (max_ordinal r (run_edges d)).
Definition grow (y : Run) : Run :=
  y <| run_GraphVersion := run_GraphVersion y + 1 |> <| run_StepsTotal := run_StepsTotal y + zlen (po_Steps plan) |>.
Abbreviation widened_row := (bump r (widenExisting plan) (er_Now args)).
Definition spliced : DB :=
  d <| runs := set_row (is_run r) grow (runs d) |> <| run_steps := (widened_row <$> run_steps d) ++ rows |>
    <| run_edges := run_edges d ++ new_edges |>.

Lemma run_id : run_ID run = r.
Proof. by apply find_run_inv in Hrun as [_ ?]. Qed.

Lemma anchor_row id a : xi_Existing inp !! id = Some a ↔
  ∃ x, row d r id = Some x ∧ a = anchor_of (xo_StepID (er_Origin args)) x.
Proof.
  cbn. rewrite buildAnchors_lookup by by apply steps_of_ids. split.
  - intros (x & Hx & <- & ->). exists x. split; [by apply steps_of_row|done].
  - intros (x & Hx & ->). exists x. destruct (row_key _ _ _ _ Hx) as [Er Es].
    split_and!; [apply elem_of_steps_of; split; [by eapply row_elem|done]|done|done].
Qed.
Lemma existing_row id : existing inp id ↔ is_Some (row d r id).
Proof.
  split.
  - intros [a (x & Hx & _)%anchor_row]. eauto.
  - intros [x Hx]. eexists. apply anchor_row. eauto.
Qed.
(** The injected ids are new. *)
Lemma fresh_id st : st ∈ po_Steps plan → row d r (ID st) = None.
Proof.
  intros Hst. destruct (row d r (ID st)) as [x|] eqn:Hx; [exfalso|done].
  assert (existing inp (ID st)) as [a Ha] by by apply existing_row.
  rewrite (adm_fresh _ _ _ A (ID st)) in Ha by by apply list_elem_of_fmap_2. done.
Qed.
Lemma fresh_row x st : x ∈ run_steps d → st ∈ po_Steps plan → step_key x ≠ (r, ID st).
Proof.
  intros Hx Hst [= Er Es]. pose proof (row_run_steps r d x H Hx Er) as Hrow. rewrite Es, fresh_id in Hrow; done.
Qed.

(** A widened anchor is a pending step of the run. *)
Lemma widen_anchor s : is_Some (widenExisting plan !! s) → ∃ x, row d r s = Some x ∧ step_Status x = StepStatusPending.
Proof.
  intros [Hs (e & He & Hl & <-)]%widen_some.
  destruct (adm_to _ _ _ A e He Hs) as (a & (x & Hx & ->)%anchor_row & Hp). exists x. split; [done|].
  cbn in Hp. destruct (bool_decide _); [done|]. by destruct (step_Status x).
Qed.

Lemma injected_from x : x ∈ rows → ∃ st, st ∈ po_Steps plan ∧ x = injected_row args inp run (deltaIndegree plan) st.
Proof. intros (st & -> & Hst)%list_elem_of_fmap. eauto. Qed.
Lemma injected_key st : step_key (injected_row args inp run (deltaIndegree plan) st) = (r, ID st).
Proof. unfold step_key. cbn. by rewrite run_id. Qed.
Lemma injected_status st : step_Status (injected_row args inp run (deltaIndegree plan) st) =
  if default 0 (deltaIndegree plan !! ID st) =? 0 then StepStatusReady else StepStatusPending.
Proof. done. Qed.

Lemma new_edge_spec e : e ∈ new_edges ↔ ∃ i ed, po_Edges plan !! i = Some ed ∧
  e = edgeRowParams r ed (max_ordinal r (run_edges d) + 1 + Z.of_nat i) (run_GraphVersion run + 1)
        (Some (xo_StepID (er_Origin args))) (Some (xo_Kind (er_Origin args))).
Proof.
  unfold new_edges, spliced_edges. rewrite run_id, elem_of_lookup_imap. naive_solver.
Qed.

Lemma spliced_step_keys : NoDup (step_key <$> run_steps d ++ rows).
Proof.
  rewrite fmap_app. apply NoDup_app. split_and!; [apply H| |].
  - intros k (x & -> & Hx)%list_elem_of_fmap (z & Ez & (st & Hst & ->)%injected_from)%list_elem_of_fmap.
    rewrite injected_key in Ez. by eapply fresh_row.
  - unfold rows. rewrite <-list_fmap_compose.
    rewrite (list_fmap_ext _ (λ st, (r, ID st))) by (intros i st _; apply injected_key).
    rewrite (list_fmap_compose ID (λ s, (r, s))). apply NoDup_fmap; [by intros ? ? [=]|]. apply (adm_nodup _ _ _ A).
Qed.
Lemma spliced_edge_keys : NoDup (edge_key <$> run_edges d ++ new_edges).
Proof.
  rewrite fmap_app. apply NoDup_app. split_and!; [apply H| |].
  - intros k (e & -> & He)%list_elem_of_fmap (z & Ez & (i & ed & _ & ->)%new_edge_spec)%list_elem_of_fmap.
    injection Ez as Er Eo. pose proof (max_ordinal_ge r (run_edges d) e He Er). lia.
  - unfold new_edges, spliced_edges. apply NoDup_alt. intros i j k Hi Hj.
    rewrite list_lookup_fmap, list_lookup_imap in Hi, Hj.
    destruct (po_Edges plan !! i), (po_Edges plan !! j); cbn in *; try done.
    injection Hi as <-. injection Hj as E. lia.
Qed.

(** ** The writes succeed *)

Definition announce_delta : Tx ExpandRunResult :=
  let widened := sortedKeys (widenExisting plan) in
  appendEvent r (GraphExpandedEv (xo_StepID (er_Origin args)) (xo_Kind (er_Origin args)) (run_GraphVersion run)
                   (run_GraphVersion run + 1) (injectedDepth (xo_Depth (xi_Origin inp))) (marshalPlan plan)
                   (readied_steps plan) widened) ;;
  for_each (readied_steps plan) (λ id, appendEvent r (StepReadyEv id)) ;;
  for_each (readied_steps plan) (λ id, CreateOutboxTask r id OutboxReasonStepReady (er_Trace args)) ;;
  ret (mkExpandRunResult (run_GraphVersion run + 1) (readied_steps plan) widened).

(** The CHECKs of the injected rows and edges: which one may fail. *)
Inductive delta_violates : string → Prop :=
| dv_depth : injectedDepth (default (env_Depth (step_Envelope origin)) (er_DepthOverride args)) < 0 →
    delta_violates "run_steps_depth_check"
| dv_kind : xo_Kind (er_Origin args) ∉ [OriginPlanner; OriginMap; OriginLoop] → delta_violates "run_steps_origin_kind_check"
| dv_decision e : e ∈ po_Edges plan → Decision e ≠ "" → Decision e ∉ approvalDecisions →
    delta_violates "run_edges_decision_check".

Lemma rows_violation c : violation step_violation rows = Some c → delta_violates c.
Proof.
  intros (x & (st & _ & ->)%injected_from & Hv)%violation_inv. revert Hv.
  unfold step_violation. cbn -[injectedDepth]. unfold check.
  destruct (Z.leb_spec 0 (injectedDepth (default (env_Depth (step_Envelope origin)) (er_DepthOverride args)))); cbn.
  - case_bool_decide; cbn; [done|]. intros [= <-]. by apply dv_kind.
  - intros [= <-]. by apply dv_depth.
Qed.
Lemma rows_kind : violation step_violation rows = None →
  0 ≤ injectedDepth (default (env_Depth (step_Envelope origin)) (er_DepthOverride args)) ∧
  xo_Kind (er_Origin args) ∈ [OriginPlanner; OriginMap; OriginLoop].
Proof.
  pose proof (adm_some _ _ _ A) as Hs. cbn in Hs. unfold violation, rows. destruct (po_Steps plan) as [|st l]; [done|].
  cbn -[injectedDepth]. unfold step_violation at 1. cbn -[injectedDepth]. unfold check.
  destruct (Z.leb_spec 0 (injectedDepth (default (env_Depth (step_Envelope origin)) (er_DepthOverride args)))); cbn; [|done].
  by case_bool_decide.
Qed.
Lemma edges_violation c : violation step_violation rows = None → violation edge_violation new_edges = Some c → delta_violates c.
Proof.
  intros [_ Hk]%rows_kind (x & (i & ed & Hed & ->)%new_edge_spec & Hv)%violation_inv. revert Hv.
  unfold edge_violation. cbn. unfold check. rewrite (bool_decide_eq_true_2 _ Hk).
  unfold nullableText. case_bool_decide as E; cbn; [done|]. case_bool_decide; cbn; [done|]. intros [= <-].
  apply (dv_decision ed); [by eapply list_elem_of_lookup_2|done|done].
Qed.
Definition delta_checked : Prop := violation step_violation rows = None ∧ violation edge_violation new_edges = None.
#[export] Instance delta_checked_dec : base.Decision delta_checked.
Proof. unfold delta_checked. apply _. Defined.

(** Every injected row carries the clock of the completion. *)
Lemma injected_clock : er_Now args ≠ 0 → existsb no_clock rows = false.
Proof.
  intros Hn. apply not_true_iff_false. intros (x & (st & _ & ->)%list_elem_of_In%injected_from & Hz%Z.eqb_eq)%existsb_exists.
  done.
Qed.
Lemma apply_delta_refused : er_Now args ≠ 0 → ¬ delta_checked → ∃ c d', apply_delta args run inp d = (Fail (ErrCheck c), d') ∧ delta_violates c.
Proof.
  intros Hnow Hn. unfold apply_delta. cbv zeta. fold rows.
  unfold CreateBatch at 1, bind at 1 2, get at 1. rewrite (injected_clock Hnow). destruct (violation step_violation rows) as [c|] eqn:Hs.
  { exists c, d. split; [done|by apply rows_violation]. }
  rewrite bool_decide_eq_true_2 by exact spliced_step_keys.
  unfold put at 1, bind at 1, MaxRunEdgeOrdinal, bind at 1, get at 1, ret at 1.
  set (d1 := d <| run_steps := run_steps d ++ rows |>). change (run_edges d1) with (run_edges d). fold new_edges.
  destruct (violation edge_violation new_edges) as [c|] eqn:He; [|by destruct Hn].
  exists c, d1. split; [|by apply edges_violation]. unfold bind at 1. rewrite bool_decide_eq_false_2; cbn [negb].
  - unfold CreateEdgeBatch, bind, get. by rewrite He.
  - intros E%nil_length_inv. by rewrite E in He.
Qed.

Lemma apply_delta_eval : er_Now args ≠ 0 → delta_checked → apply_delta args run inp d = announce_delta spliced.
Proof.
  intros Hnow [Hcs Hce]. unfold apply_delta. cbv zeta. fold rows.
  unfold CreateBatch at 1, bind at 1 2, get at 1. rewrite (injected_clock Hnow), Hcs, bool_decide_eq_true_2 by exact spliced_step_keys.
  unfold put at 1, bind at 1, MaxRunEdgeOrdinal, bind at 1, get at 1, ret at 1.
  set (d1 := d <| run_steps := run_steps d ++ rows |>). change (run_edges d1) with (run_edges d). fold new_edges.
  assert ((if negb (bool_decide (length new_edges = 0%nat)) then CreateEdgeBatch new_edges else ret tt) d1 =
    (Ok tt, d1 <| run_edges := run_edges d ++ new_edges |>)) as Hedges.
  { case_bool_decide as E; cbn [negb].
    - apply nil_length_inv in E. rewrite E, app_nil_r. unfold d1. by destruct d.
    - unfold CreateEdgeBatch, bind, get. rewrite Hce, bool_decide_eq_true_2 by exact spliced_edge_keys. done. }
  unfold bind at 1. rewrite Hedges. set (d2 := d1 <| run_edges := run_edges d ++ new_edges |>).
  unfold bind at 1. rewrite widen_each; [|apply NoDup_sortedKeys|exact spliced_step_keys|].
  2:{ intros id Hid%elem_of_sortedKeys. split; [done|]. destruct (widen_anchor id Hid) as (x & Hx & Hp). exists x.
      split; [|done]. cbn. unfold row in Hx. by apply find_app_left. }
  assert ((λ x, if bool_decide (step_StepID x ∈ sortedKeys (widenExisting plan)) then widened_row x else x)
            <$> run_steps d2 = (widened_row <$> run_steps d) ++ rows) as ->.
  { change (run_steps d2) with (run_steps d ++ rows). rewrite fmap_app. f_equal.
    - apply list_fmap_ext. intros i x _. destruct (decide (step_StepID x ∈ sortedKeys (widenExisting plan))) as [E|E];
        [by rewrite bool_decide_eq_true_2|]. rewrite bool_decide_eq_false_2 by done. unfold bump.
      destruct (of_run r x); [|done]. destruct (widenExisting plan !! step_StepID x) eqn:Ew; [|done].
      destruct E. apply elem_of_sortedKeys. by rewrite Ew.
    - rewrite <-(list_fmap_id rows) at 2. apply list_fmap_ext. intros i x Hx%list_elem_of_lookup_2.
      destruct (injected_from x Hx) as (st & Hst & ->). rewrite bool_decide_eq_false_2; [done|].
      rewrite elem_of_sortedKeys. intros [Hn _]%widen_some. apply Hn. cbn. by apply list_elem_of_fmap_2. }
  unfold ExpandRunGraph, bind at 1. rewrite update_run_eval; [|apply H|done]. cbn [runs d2 d1].
  unfold run_at in Hrun. cbn. rewrite Hrun, Z.eqb_refl. done.
Qed.

(** ** The invariant of the spliced database *)

Lemma injected_run_id x : x ∈ rows → step_RunID x = r.
Proof. intros (st & _ & ->)%injected_from. by pose proof (injected_key st) as [= E]. Qed.

Lemma count_widened (q : RunStep → bool) : (∀ x x', same_but_deps x x' → q x' = q x) →
  count q (widened_row <$> run_steps d) = count q (run_steps d).
Proof.
  intros Hq. induction (run_steps d) as [|x l IH]; [done|]. cbn. rewrite IH, (Hq x) by apply bump_same. done.
Qed.
Lemma same_of_run x x' r' : same_but_deps x x' → of_run r' x' = of_run r' x.
Proof. intros [[= E _] _]. unfold of_run. by rewrite E. Qed.
Lemma same_status x x' st : same_but_deps x x' → has_status st x' = has_status st x.
Proof. intros S. unfold has_status. by rewrite (sbd_status _ _ S). Qed.

Lemma status_count_spliced r' st : st ≠ StepStatusReady → st ≠ StepStatusPending →
  run_status_count r' st (run_steps spliced) = run_status_count r' st (run_steps d).
Proof.
  intros Hr Hp. unfold run_status_count. cbn. rewrite count_app, count_widened.
  - assert (count (λ x, of_run r' x && has_status st x) rows = 0) as ->; [|lia]. apply count_zero, Forall_forall.
    intros x (s & _ & ->)%injected_from. unfold has_status. rewrite injected_status, andb_comm.
    by destruct (_ =? 0); rewrite bool_decide_eq_false_2 by done.
  - intros x x' S. by rewrite (same_of_run _ _ _ S), (same_status _ _ _ S).
Qed.
Lemma total_spliced r' : count (of_run r') (run_steps spliced) =
  count (of_run r') (run_steps d) + (if bool_decide (r' = r) then zlen (po_Steps plan) else 0).
Proof.
  cbn. rewrite count_app, count_widened by (intros; by apply same_of_run). f_equal.
  assert (∀ b, Forall (λ x, of_run r' x = b) rows → count (of_run r') rows = if b then zlen rows else 0) as Hall.
  { intros b. induction 1 as [|x l E _ IH]; [by destruct b|]. cbn. rewrite E, IH. destruct b; [|done].
    unfold zlen. cbn [length]. lia. }
  rewrite (Hall (bool_decide (r' = r))).
  - unfold rows, zlen. by rewrite length_fmap.
  - apply Forall_forall. intros x Hx. unfold of_run. rewrite (injected_run_id x Hx). apply bool_decide_ext. naive_solver.
Qed.

Context (Hopen : run_Status run = RunStatusRunning ∨ run_Status run = RunStatusParked).

Lemma spliced_run_inv y : y ∈ runs spliced → run_inv spliced y.
Proof.
  intros [(z & Hz & Ez & ->)|[Hy Hne]]%(elem_of_set_row run_ID is_run is_run_key).
  - assert (z = run) as ->.
    { apply find_run_inv in Hrun as [? ?]. apply (keyed_unique run_ID is_run is_run_key (runs d)); [apply H|done|done|congruence]. }
    destruct (inv_run _ H run Hz) as [I1 I2 I3 I4 I5 I6 I7 I8 I9 I10 I11].
    split; change (run_ID (grow run)) with (run_ID run); rewrite ?status_count_spliced by done; try done.
    + rewrite total_spliced, Ez, bool_decide_eq_true_2 by done. cbn. rewrite I1, Ez. done.
    + cbn. intros E. rewrite E in Hopen. by destruct Hopen.
  - destruct (inv_run _ H y Hy) as [I1 I2 I3 I4 I5 I6 I7 I8 I9 I10 I11].
    split; rewrite ?status_count_spliced by done; try done.
    + rewrite total_spliced, bool_decide_eq_false_2 by done. lia.
    + intros E x [(z & -> & Hz)%list_elem_of_fmap|Hx]%elem_of_app Er.
      * destruct (bump_same r (widenExisting plan) (er_Now args) z) as [[= Ek _] _ _ Es _ _ _ _ _].
        rewrite Es. apply I10; [done|done|congruence].
      * rewrite (injected_run_id x Hx) in Er. done.
Qed.

Lemma attempts_same x x' : same_but_deps x x' → attempts_inv (step_attempts d) x → attempts_inv (step_attempts d) x'.
Proof.
  intros S [I1 I2 I3 I4 I5 I6].
  split; rewrite ?(sbd_count _ _ S), ?(sbd_status _ _ S), ?(sbd_claim _ _ S); try done;
    setoid_rewrite (λ a, att_of_key x' x a (sbd_key _ _ S)); rewrite ?(sbd_count _ _ S), ?(sbd_status _ _ S); done.
Qed.

(** The spliced edges into a step of the run. *)
Lemma new_in_edges x : step_RunID x = r →
  count (in_edges x EdgeResolutionUnresolved) new_edges = count (enters_step (step_StepID x)) (po_Edges plan) ∧
  count (in_edges x EdgeResolutionFired) new_edges = 0.
Proof.
  intros Er. unfold new_edges, spliced_edges. rewrite run_id. split.
  - apply count_imap. intros i e. unfold in_edges, enters_step, IsLoop, edgeRowParams. cbn. rewrite Er. decide_eqs.
    by destruct (EType e), (bool_decide (To e = step_StepID x)).
  - rewrite (count_imap (λ _, false)); [by apply count_zero, Forall_true|].
    intros i e. unfold in_edges, edgeRowParams. cbn. by rewrite andb_false_r.
Qed.
Lemma other_in_edges x res : step_RunID x ≠ r → count (in_edges x res) new_edges = 0.
Proof.
  intros Hne. apply count_zero, Forall_forall. intros e (i & ed & _ & ->)%new_edge_spec. unfold in_edges. cbn.
  by rewrite (bool_decide_eq_false_2 (r = step_RunID x)).
Qed.
Lemma same_in_edges x x' res es : step_key x' = step_key x → count (in_edges x' res) es = count (in_edges x res) es.
Proof. intros [= E1 E2]. unfold in_edges. by rewrite E1, E2. Qed.

(** An id that is not a step of the run has no incoming edge. *)
Lemma no_in_edges x res : row d (step_RunID x) (step_StepID x) = None → count (in_edges x res) (run_edges d) = 0.
Proof.
  intros Hx. apply count_zero, Forall_forall. intros e He. apply not_true_iff_false. unfold in_edges.
  rewrite !andb_true_iff, !bool_decide_eq_true. intros [[[Er Es] _] _].
  destruct (inv_edge_step _ H e He) as (z & Hz & Ez1 & Ez2). pose proof (elem_row d z H Hz) as Hrow.
  rewrite Ez1, Ez2, Er, Es in Hrow. congruence.
Qed.

Lemma old_deps x : x ∈ run_steps d → deps_inv (run_edges spliced) (widened_row x).
Proof.
  intros Hx. destruct (inv_deps _ H x Hx) as [D1 D2]. pose proof (bump_same r (widenExisting plan) (er_Now args) x) as S.
  unfold deps_inv. cbn [spliced]. change (run_edges spliced) with (run_edges d ++ new_edges).
  rewrite !count_app, !(same_in_edges x _ _ _ (sbd_key _ _ S)), (sbd_fired _ _ S).
  destruct (decide (step_RunID x = r)) as [Er|Hne].
  - destruct (new_in_edges x Er) as [-> ->]. rewrite bump_deps, widen_count; [lia| |done].
    intros (st & Es & Hst)%list_elem_of_fmap. apply (fresh_row x st Hx Hst). unfold step_key. congruence.
  - rewrite !other_in_edges by done. rewrite bump_other by done. lia.
Qed.
Lemma injected_deps x : x ∈ rows → deps_inv (run_edges spliced) x.
Proof.
  intros Hx. destruct (injected_from x Hx) as (st & Hst & E). pose proof (injected_run_id x Hx) as Er.
  assert (step_StepID x = ID st) as Es by by rewrite E.
  unfold deps_inv. change (run_edges spliced) with (run_edges d ++ new_edges). rewrite !count_app.
  destruct (new_in_edges x Er) as [-> ->]. rewrite !no_in_edges by (rewrite Er, Es; by apply fresh_id).
  rewrite Es, <-indegree_lookup by by apply list_elem_of_fmap_2. by rewrite E.
Qed.

Lemma injected_attempts x : x ∈ rows → attempts_inv (step_attempts d) x.
Proof.
  intros Hx. destruct (injected_from x Hx) as (st & Hst & ->).
  assert (∀ a, a ∈ step_attempts d → att_of (injected_row args inp run (deltaIndegree plan) st) a = true → False) as Hno.
  { intros a Ha [E1 E2]%att_of_true. destruct (inv_att_step _ H a Ha) as (z & Hz & [E3 E4]%att_of_true).
    apply (fresh_row z st Hz Hst). rewrite <-(injected_key st). unfold step_key. congruence. }
  split; rewrite ?injected_status; try done; try (intros; exfalso; by eauto); cbn; try lia;
    by destruct (_ =? 0).
Qed.

(** Rows of the old table survive, up to widening. *)
Lemma spliced_old x : x ∈ run_steps d → widened_row x ∈ run_steps spliced.
Proof. intros Hx. apply elem_of_app. left. by apply list_elem_of_fmap_2. Qed.
Lemma spliced_runs y : y ∈ runs d → ∃ y', y' ∈ runs spliced ∧ run_ID y' = run_ID y.
Proof.
  intros Hy. destruct (decide (run_ID y = r)) as [E|Hne].
  - exists (grow y). split; [by apply (elem_of_set_row_this run_ID is_run is_run_key)|done].
  - exists y. split; [by apply (elem_of_set_row_other run_ID is_run is_run_key)|done].
Qed.

Lemma spliced_step_for x r' s : x ∈ run_steps d → step_RunID x = r' → step_StepID x = s →
  ∃ z, z ∈ run_steps spliced ∧ step_RunID z = r' ∧ step_StepID z = s.
Proof.
  intros Hx <- <-. exists (widened_row x). pose proof (bump_same r (widenExisting plan) (er_Now args) x) as [[= ? ?] _].
  split; [by apply spliced_old|done].
Qed.
Lemma spliced_end s : existing inp s ∨ s ∈ delta_ids inp →
  ∃ z, z ∈ run_steps spliced ∧ step_RunID z = r ∧ step_StepID z = s.
Proof.
  intros [[x Hx]%existing_row|(st & -> & Hst)%list_elem_of_fmap].
  - destruct (row_key _ _ _ _ Hx). eapply spliced_step_for; [by eapply row_elem|done|done].
  - exists (injected_row args inp run (deltaIndegree plan) st). pose proof (injected_key st) as [= Ek].
    split_and!; [|exact Ek|done]. apply elem_of_app. right. by apply list_elem_of_fmap_2.
Qed.

Lemma injected_baseline x : x ∈ rows → baseline_inv (dead_letters d) x.
Proof.
  intros Hx. destruct (injected_from x Hx) as (st & Hst & ->). unfold baseline_inv, baseline.
  pose proof (injected_key st) as Ek. rewrite max_dead_letter_none.
  - rewrite injected_status. split; [done|]. by destruct (_ =? 0).
  - intros dl Hdl. apply not_true_iff_false. intros Hd. destruct (inv_dl_step _ H dl Hdl) as (z & Hz & Hdz).
    unfold is_dead_letter in Hd, Hdz. rewrite andb_true_iff, !bool_decide_eq_true in Hd, Hdz.
    apply (fresh_row z st Hz Hst). rewrite <-Ek. unfold step_key. destruct Hd, Hdz. congruence.
Qed.

Lemma spliced_inv : db_inv spliced.
Proof.
  assert (∀ z, z ∈ run_steps spliced → (∃ x, x ∈ run_steps d ∧ z = widened_row x) ∨ z ∈ rows) as Hsteps.
  { intros z [(x & -> & Hx)%list_elem_of_fmap|Hz]%elem_of_app; eauto. }
  assert (∀ x, same_but_deps x (widened_row x)) as S by (intros; apply bump_same).
  split; try apply H.
  - cbn. rewrite (set_row_keys run_ID is_run); [apply H|done].
  - cbn. pose proof spliced_step_keys as N. rewrite fmap_app in *. rewrite <-list_fmap_compose.
    rewrite (list_fmap_ext _ step_key (run_steps d)); [done|]. intros i x _. cbn. apply (sbd_key _ _ (S x)).
  - apply spliced_edge_keys.
  - apply spliced_run_inv.
  - intros z [(x & Hx & ->)|Hz]%Hsteps; [|by apply injected_attempts]. by eapply attempts_same, H.
  - intros z [(x & Hx & ->)|Hz]%Hsteps; [by apply old_deps|by apply injected_deps].
  - intros z [(x & Hx & ->)|Hz]%Hsteps.
    + destruct (inv_step_run _ H x Hx) as (y & (y' & ? & ?)%spliced_runs & ?). exists y'.
      pose proof (sbd_key _ _ (S x)) as [= ? _]. split; [done|congruence].
    + rewrite (injected_run_id z Hz). apply find_run_inv in Hrun as [(y' & ? & ?)%spliced_runs ?]. exists y'. split; [done|congruence].
  - intros e [(x & Hx & ? & ?)%(inv_edge_step _ H)|(i & ed & Hed & ->)%new_edge_spec]%elem_of_app;
      [by eapply spliced_step_for|].
    destruct (plan_ends _ _ _ A ed ltac:(by eapply list_elem_of_lookup_2)) as [_ He]. by apply spliced_end.
  - intros e [(x & Hx & ? & ?)%(inv_edge_from _ H)|(i & ed & Hed & ->)%new_edge_spec]%elem_of_app;
      [by eapply spliced_step_for|].
    destruct (plan_ends _ _ _ A ed ltac:(by eapply list_elem_of_lookup_2)) as [He _]. by apply spliced_end.
  - intros v (y & (y' & ? & ?)%spliced_runs & ?)%(inv_event_run _ H). exists y'. split; [done|congruence].
  - intros a (x & Hx & Ha)%(inv_att_step _ H). exists (widened_row x). split; [by apply spliced_old|].
    by rewrite (att_of_key _ _ _ (sbd_key _ _ (S x))).
  - intros z [(x & Hx & ->)|Hz]%Hsteps.
    + unfold step_shape. rewrite (sbd_status _ _ (S x)), (sbd_claim _ _ (S x)), (sbd_next _ _ (S x)). by apply H.
    + destruct (injected_from z Hz) as (st & _ & ->). unfold step_shape. rewrite injected_status. by destruct (_ =? 0).
  - intros z [(x & Hx & ->)|Hz]%Hsteps Hd.
    + rewrite (sbd_status _ _ (S x)) in Hd. pose proof (sbd_key _ _ (S x)) as [= -> ->]. by apply H.
    + destruct (injected_from z Hz) as (st & _ & ->). rewrite injected_status in Hd. by destruct (_ =? 0).
  - intros z [(x & Hx & ->)|Hz]%Hsteps; [|by apply injected_baseline]. unfold baseline_inv, baseline.
    pose proof (sbd_key _ _ (S x)) as [= -> ->]. rewrite (sbd_status _ _ (S x)), (sbd_count _ _ (S x)). by apply H.
  - intros dl (x & Hx & Hdl)%(inv_dl_step _ H). exists (widened_row x). split; [by apply spliced_old|].
    by pose proof (sbd_key _ _ (S x)) as [= -> ->].
  - intros c (y & (y' & ? & ?)%spliced_runs & ?)%(inv_ledger_run _ H). exists y'. split; [done|congruence].
Qed.

(** ** Announcing the delta *)

Lemma announce_delta_sequenced : sequenced announce_delta.
Proof.
  apply sequenced_bind; [apply transition_sequenced, appendEvent_transition|intros _].
  apply sequenced_bind; [apply for_each_appendEvent_sequenced|intros _].
  apply sequenced_bind; [|intros _; apply sequenced_ret].
  apply sequenced_for_each. intros x _. apply transition_sequenced, CreateOutboxTask_transition.
Qed.

Definition delta_events : list Event :=
  stamp r (run_NextSeq run)
    (GraphExpandedEv (xo_StepID (er_Origin args)) (xo_Kind (er_Origin args)) (run_GraphVersion run)
       (run_GraphVersion run + 1) (injectedDepth (xo_Depth (xi_Origin inp))) (marshalPlan plan) (readied_steps plan)
       (sortedKeys (widenExisting plan)) :: (StepReadyEv <$> readied_steps plan)).

Lemma announce_delta_eval : ∃ d' k,
  announce_delta spliced =
    (Ok (mkExpandRunResult (run_GraphVersion run + 1) (readied_steps plan) (sortedKeys (widenExisting plan))), d') ∧
  runs d' = set_row (is_run r) (advance k) (runs spliced) ∧ run_steps d' = run_steps spliced ∧
  run_edges d' = run_edges spliced ∧ events d' = events d ++ delta_events ∧ tx_events d' = tx_events d ++ delta_events ∧
  task_outbox d' = task_outbox d ++
    ((λ i, mkTaskOutbox r i OutboxReasonStepReady (nullableText (Parent (er_Trace args)))
             (nullableText (State (er_Trace args)))) <$> readied_steps plan) ∧
  step_attempts d' = step_attempts d ∧ dead_letters d' = dead_letters d ∧ approvals d' = approvals d ∧
  cost_ledger d' = cost_ledger d.
Proof.
  assert (find (is_run r) (runs spliced) = Some (grow run)) as Hfind.
  { cbn. rewrite (find_set_row run_ID is_run is_run_key) by done. unfold run_at in Hrun. by rewrite Hrun. }
  destruct (inv_readable_run spliced r (grow run) spliced_inv Hfind) as [R Er].
  eexists _, _. split.
  { rewrite <-(apply_idle spliced (grow run) origin). unfold announce_delta. cbv zeta. rewrite <-Er.
    unfold bind at 1. rewrite (appendEvent_effect spliced (grow run) origin R) by done.
    unfold bind at 1. rewrite (for_each_appendEvent (grow run)) by done.
    unfold bind at 1. rewrite for_each_outbox. reflexivity. }
  cbn -[spliced].
  rewrite !app_nil_r, !run_id. split_and!; try done. by apply set_row_id.
Qed.
End splice.

(** ** Outcomes of [ExpandRun] *)

Section outcomes.
Context (CompileExpr : string → exprResult) (textTemplateParses : list outSeg → bool).

Definition input_of (args : ExpandRunArgs) (d : DB) (run : Run) (origin : RunStep) : ExpansionInput :=
  expansion_input args run origin (steps_of (er_RunID args) d) (edges_of (er_RunID args) d).

(** The errors a call may return. *)
Inductive expand_refused (args : ExpandRunArgs) (d : DB) : Err → Prop :=
| xf_clock : er_Now args = 0 → expand_refused args d ErrZeroNow
| xf_args why : xo_StepID (er_Origin args) = "" ∨ xo_Kind (er_Origin args) = "" → expand_refused args d (ErrBadArgs why)
| xf_missing : run_at d (er_RunID args) = None ∨ row d (er_RunID args) (xo_StepID (er_Origin args)) = None →
    expand_refused args d ErrNotFound
| xf_closed run te : run_at d (er_RunID args) = Some run →
    run_Status run ≠ RunStatusRunning → run_Status run ≠ RunStatusParked → te_Reason te = ConflictRunNotRunning →
    expand_refused args d (ErrTransition te)
| xf_rejected run origin : run_at d (er_RunID args) = Some run →
    row d (er_RunID args) (xo_StepID (er_Origin args)) = Some origin →
    OK (ValidateExpansion CompileExpr textTemplateParses (input_of args d run origin)) = false →
    expand_refused args d
      (ErrExpansionRejected (ValidateExpansion CompileExpr textTemplateParses (input_of args d run origin)))
| xf_check run origin c : run_at d (er_RunID args) = Some run →
    row d (er_RunID args) (xo_StepID (er_Origin args)) = Some origin → delta_violates args origin c →
    expand_refused args d (ErrCheck c).

(** An open run, its origin, and an admitted delta. *)
Record expandable (args : ExpandRunArgs) (d : DB) (run : Run) (origin : RunStep) : Prop := mkExpandable {
  xb_run : run_at d (er_RunID args) = Some run;
  xb_origin : row d (er_RunID args) (xo_StepID (er_Origin args)) = Some origin;
  xb_open : run_Status run = RunStatusRunning ∨ run_Status run = RunStatusParked;
  xb_admitted : admitted CompileExpr textTemplateParses (input_of args d run origin);
  xb_checked : delta_checked args d run origin
}.

Lemma ExpandRun_cases args d : db_inv d →
  (∃ e d', ExpandRun CompileExpr textTemplateParses args d = (Fail e, d') ∧ expand_refused args d e ∧ (d' = d ∨ ∃ k, e = ErrCheck k)) ∨
  ∃ run origin, expandable args d run origin ∧
    ExpandRun CompileExpr textTemplateParses args d = announce_delta args d run origin (spliced args d run origin).
Proof.
  intros H. remember (ExpandRun CompileExpr textTemplateParses args d) as out eqn:E. unfold ExpandRun in E. cbv zeta in E.
  destruct (decide (er_Now args = 0)) as [Hz|Hnow].
  { left. unfold transitionQueries, guard, bind in E. rewrite Hz in E. eexists _, _. split_and!; [exact E|by apply xf_clock|by left]. }
  unfold bind at 1 in E. rewrite now_ok in E by done. unfold guard at 1 in E.
  destruct (decide (xo_StepID (er_Origin args) = "")) as [E1|E1].
  { left. rewrite E1 in E. eexists _, _. split_and!; [exact E|apply xf_args; by left|by left]. }
  rewrite (bool_decide_eq_false_2 _ E1) in E. unfold guard at 1 in E.
  destruct (decide (xo_Kind (er_Origin args) = "")) as [E2|E2].
  { left. rewrite E2 in E. eexists _, _. split_and!; [exact E|apply xf_args; by right|by left]. }
  rewrite (bool_decide_eq_false_2 _ E2) in E. cbn [negb] in E. unfold bind at 1 2, ret at 1 2, lockRun, bind at 1 in E.
  rewrite GetRun_eval in E. destruct (find (is_run (er_RunID args)) (runs d)) as [run|] eqn:Hrun;
    [|left; eexists _, _; split_and!; [exact E|apply xf_missing; by left|by left]].
  unfold bind at 1, guard at 1 in E.
  destruct (bool_decide (run_Status run = RunStatusRunning) || bool_decide (run_Status run = RunStatusParked)) eqn:Ho.
  2:{ left. eexists _, _. apply orb_false_iff in Ho as [?%bool_decide_eq_false ?%bool_decide_eq_false].
      split_and!; [exact E|by eapply xf_closed|by left]. }
  unfold ret at 1, bind at 1 in E. rewrite GetRun_eval, Hrun in E. unfold bind at 1 in E. rewrite GetRunStep_eval in E.
  destruct (find (is_step (er_RunID args) (xo_StepID (er_Origin args))) (run_steps d)) as [origin|] eqn:Horig;
    [|left; eexists _, _; split_and!; [exact E|apply xf_missing; by right|by left]].
  unfold ListByRun, ListEdgesByRun, bind at 1 2 3 4, get, ret at 1 2 in E.
  fold (steps_of (er_RunID args) d) (edges_of (er_RunID args) d) in E.
  fold (input_of args d run origin) in E. unfold bind at 1, guard at 1 in E.
  destruct (OK (ValidateExpansion CompileExpr textTemplateParses (input_of args d run origin))) eqn:Hok.
  2:{ left. eexists _, _. split_and!; [exact E|by apply xf_rejected|by left]. }
  pose proof (ValidateExpansion_OK _ _ _ Hok) as A. unfold ret at 1 in E.
  destruct (decide (delta_checked args d run origin)) as [Hc|Hc].
  - right. exists run, origin. split; [|rewrite E; by eapply apply_delta_eval]. split; [done|done| |done|done].
    apply orb_prop in Ho as [?%bool_decide_eq_true|?%bool_decide_eq_true]; auto.
  - left. destruct (apply_delta_refused CompileExpr textTemplateParses args d run origin H Hrun A Hnow Hc) as (c & d' & E' & Hv).
    exists (ErrCheck c), d'. split_and!; [rewrite E; exact E'|by eapply xf_check|eauto].
Qed.

(** A delta that lands keeps the store invariant. *)
Lemma ExpandRun_inv args d res d' : db_inv d → ExpandRun CompileExpr textTemplateParses args d = (Ok res, d') →
  ∃ run origin, expandable args d run origin ∧ announce_delta args d run origin (spliced args d run origin) = (Ok res, d') ∧
    db_inv (spliced args d run origin) ∧ db_inv d'.
Proof.
  intros H E. destruct (ExpandRun_cases args d H) as [(e & d1 & E' & _)|(run & origin & X & E')]; [congruence|].
  exists run, origin. rewrite E in E'.
  assert (db_inv (spliced args d run origin)) as H1 by (eapply spliced_inv; apply X || done).
  split_and!; try done. eapply tx_steps_inv; [exact H1|]. by eapply announce_delta_sequenced.
Qed.
End outcomes.
