(* ===== verification/ExpandGraph.v ===== *)
(** [ExpandRun] against the graph invariant: between the origin's terminal
    transition and its fan-out, a landed delta leaves the run exactly as if its
    steps and edges had been there from the start. *)
From stdpp Require Import relations.
From S2P Require Import Prelude Issues GoStd Retry StoreModel Config Template Transitions Effects StoreInv StoreSpecs EdgeSpecs StoreSystem StoreTheorems Dag GraphFacts Validate ValidateGraph Expansion Instantiate Expand DagProps ValidateFacts ExpansionFacts Engine EngineInv Moves GraphInv FanOut WriteOff EngineGraph EngineTx EngineStart ExpandSpec.
Open Scope Z_scope.

Lemma find_fmap_same {A} (p : A → bool) (f : A → A) l : (∀ x, p (f x) = p x) → find p (f <$> l) = f <$> find p l.
Proof. intros Hf. induction l as [|x l IH]; [done|]. cbn. rewrite Hf. by destruct (p x). Qed.

Section graph.
Context (CompileExpr : string → exprResult) (textTemplateParses : list outSeg → bool).
Context (args : ExpandRunArgs) (d : DB) (run : Run) (origin : RunStep).
Abbreviation r := (er_RunID args).
Abbreviation plan := (er_Plan args).
Abbreviation o := (xo_StepID (er_Origin args)).
Abbreviation d1 := (spliced args d run origin).
Abbreviation widened_row := (bump r (widenExisting plan) (er_Now args)).
Abbreviation injected st := (injected_row args (input_of args d run origin) run (deltaIndegree plan) st).
Context (H : db_inv d) (X : expandable CompileExpr textTemplateParses args d run origin).

(** ** Rows and edges of the run *)

Lemma spliced_db_inv : db_inv d1.
Proof. eapply spliced_inv; apply X || done. Qed.

Lemma is_step_widened r' s x : is_step r' s (widened_row x) = is_step r' s x.
Proof.
  pose proof (sbd_key _ _ (bump_same r (widenExisting plan) (er_Now args) x)) as [= E1 E2].
  unfold is_step. by rewrite E1, E2.
Qed.

(** The old rows are still there, widened; the new ones are the delta's. *)
Lemma spliced_row_old s x : row d r s = Some x → row d1 r s = Some (widened_row x).
Proof.
  intros Hx. unfold row in *. cbn. apply find_app_left. rewrite find_fmap_same by apply is_step_widened. by rewrite Hx.
Qed.
Lemma spliced_row_new st : st ∈ po_Steps plan → row d1 r (ID st) = Some (injected st).
Proof.
  intros Hst. assert (injected st ∈ run_steps d1) as Hin by (apply elem_of_app; right; by apply list_elem_of_fmap_2).
  pose proof (elem_row d1 _ spliced_db_inv Hin) as E.
  change (row d1 (run_ID run) (ID st) = Some (injected st)) in E.
  by rewrite (run_id args d run (xb_run _ _ _ _ _ _ X)) in E.
Qed.
Lemma spliced_row s z : row d1 r s = Some z →
  (∃ x, row d r s = Some x ∧ z = widened_row x) ∨ (∃ st, st ∈ po_Steps plan ∧ ID st = s ∧ z = injected st).
Proof.
  intros Hz. destruct (row d r s) as [x|] eqn:Hx.
  - left. exists x. split; [done|]. rewrite (spliced_row_old s x Hx) in Hz. by injection Hz as <-.
  - right. unfold row in *. cbn in Hz. rewrite find_app_right in Hz.
    + apply find_some in Hz as [Hz%list_elem_of_In [_ Es]%andb_prop].
      apply list_elem_of_fmap in Hz as (st & -> & Hst). exists st. apply bool_decide_eq_true in Es. done.
    + rewrite find_fmap_same by apply is_step_widened. by rewrite Hx.
Qed.
Lemma spliced_row_other r' s : r' ≠ r → row d1 r' s = row d r' s.
Proof.
  intros Hne. unfold row. cbn. assert (find (is_step r' s) (rows args d run origin) = None) as Hn.
  { apply find_none_Forall, Forall_forall. intros x Hx. unfold is_step.
    rewrite (injected_run_id args d run origin (xb_run _ _ _ _ _ _ X) x Hx). by rewrite bool_decide_eq_false_2. }
  destruct (find (is_step r' s) (run_steps d)) as [x|] eqn:Hx.
  - apply find_app_left. rewrite find_fmap_same by apply is_step_widened. rewrite Hx. cbn. f_equal. apply bump_other.
    destruct (row_key d r' s x Hx). congruence.
  - rewrite find_app_right; [done|]. rewrite find_fmap_same by apply is_step_widened. by rewrite Hx.
Qed.

Lemma spliced_edge_of e : edge_of r d1 e ↔ edge_of r d e ∨ edge_EdgeType e = EdgeTypeNormal ∧ e ∈ new_edges args d run.
Proof.
  unfold edge_of. cbn. rewrite elem_of_app. split; [naive_solver|].
  intros [(? & ? & ?)|(? & He)]; [naive_solver|]. split_and!; [by right| |done].
  apply (new_edge_spec args d run (xb_run _ _ _ _ _ _ X)) in He as (i & ed & _ & ->). done.
Qed.
(** A spliced normal edge. *)
Lemma spliced_edge e : edge_EdgeType e = EdgeTypeNormal → e ∈ new_edges args d run →
  ∃ ed, ed ∈ po_Edges plan ∧ IsLoop ed = false ∧ edge_FromStep e = From ed ∧ edge_ToStep e = To ed ∧ unresolved e.
Proof.
  intros Ht (i & ed & Hed & ->)%(new_edge_spec args d run (xb_run _ _ _ _ _ _ X)). exists ed. cbn in Ht.
  unfold IsLoop. rewrite Ht. split; [by eapply list_elem_of_lookup_2|done].
Qed.

Lemma widened_status x : step_Status (widened_row x) = step_Status x.
Proof. apply (sbd_status _ _ (bump_same _ _ _ x)). Qed.
Lemma widened_join x : isJoinAny (widened_row x) = isJoinAny x.
Proof. pose proof (bump_same r (widenExisting plan) (er_Now args) x) as S. apply isJoinAny_kind; apply S. Qed.
Lemma injected_live st : absorbing (step_Status (injected st)) = false ∧
  (waits (step_Status (injected st)) = true → 1 ≤ step_RemainingDeps (injected st)) ∧
  step_Status (injected st) ≠ StepStatusFailed ∧ step_Status (injected st) ≠ StepStatusCancelled ∧
  live (step_Status (injected st)) = true.
Proof.
  change (step_Status (injected st)) with
    (if default 0 (deltaIndegree plan !! ID st) =? 0 then StepStatusReady else StepStatusPending).
  change (step_RemainingDeps (injected st)) with (default 0 (deltaIndegree plan !! ID st)).
  assert (0 ≤ default 0 (deltaIndegree plan !! ID st)) as Hn.
  { unfold deltaIndegree. rewrite (proj1 (splice_lookup _ _ (ID st))). unfold counted.
    destruct (_ && (0 <? _)); [|done]. apply count_nonneg. }
  destruct (Z.eqb_spec (default 0 (deltaIndegree plan !! ID st)) 0); split_and!; try done. intros _. lia.
Qed.

(** The source of a spliced edge is not finished, except for the origin. *)
Lemma splice_source ed : ed ∈ po_Edges plan →
  ∃ z, row d1 r (From ed) = Some z ∧ (From ed = o ∨ absorbing (step_Status z) = false).
Proof.
  intros Hed. destruct (decide (From ed ∈ delta_ids (input_of args d run origin))) as [Hd|Hd].
  - apply list_elem_of_fmap in Hd as (st & -> & Hst). exists (injected st).
    split; [by apply spliced_row_new|]. right. apply injected_live.
  - destruct (adm_from _ _ _ (xb_admitted _ _ _ _ _ _ X) ed Hed Hd) as (a & Ha & Hs).
    apply (anchor_row args d run origin H) in Ha as (x & Hx & ->).
    exists (widened_row x). split; [by apply spliced_row_old|]. rewrite widened_status. cbn in Hs.
    destruct (row_key _ _ _ _ Hx) as [_ Es]. case_bool_decide as Eo; [left; congruence|right].
    by destruct (step_Status x).
Qed.

(** ** The graph invariant *)

Context (Ho : absorbing (step_Status origin) = true) (G : graph_core r d (out_ords r d o) []).
Context (Hjoin : forallb join_config_ok (po_Steps plan) = true).

Lemma out_ords_iff d0 s e : db_inv d0 → edge_of r d0 e → edge_Ordinal e ∈ out_ords r d0 s ↔ edge_FromStep e = s.
Proof.
  intros H0 He. rewrite elem_of_out_ords. split; [|eauto].
  intros (e' & He' & <- & Eo). f_equal. by eapply (edge_unique r d0).
Qed.

(** A delta that leads from no step it enters to one it leaves keeps an acyclic
    graph acyclic. *)
Lemma spliced_rank : splice_safe (input_of args d run origin) →
  (∃ rank : string → nat, ∀ e, edge_of r d e → (rank (edge_FromStep e) < rank (edge_ToStep e))%nat) →
  ∃ rank : string → nat, ∀ e, edge_of r d1 e → (rank (edge_FromStep e) < rank (edge_ToStep e))%nat.
Proof.
  intros Hsafe [rank Hr].
  assert (∀ e, e ∈ edges_of r d ↔ e ∈ run_edges d ∧ edge_RunID e = r) as Hof.
  { intros e. unfold edges_of. by rewrite list_elem_of_In, filter_In, <-list_elem_of_In, bool_decide_eq_true. }
  assert (∀ e, edge_EdgeType e = EdgeTypeNormal → bool_decide (edge_EdgeType e = EdgeTypeLoop) = false) as Hty
    by (intros e ->; done).
  assert (∃ rank' : string → nat, ∀ a b, edge_rel (merged (input_of args d run origin)) a b → (rank' a < rank' b)%nat)
    as [rank' Hr'].
  { unshelve eapply (merged_ranked _ _ _ (xb_admitted _ _ _ _ _ _ X) _ rank); [| |done].
    - intros ed (e & -> & [He Er]%Hof)%list_elem_of_fmap. cbn. rewrite !(existing_row args d run origin H).
      destruct (inv_edge_step _ H e He) as (x & Hx & Ex & <-), (inv_edge_from _ H e He) as (z & Hz & Ez & <-).
      rewrite <-Er. split; [rewrite <-Ez|rewrite <-Ex]; by rewrite elem_row.
    - intros a b (ed & (e & -> & [He Er]%Hof)%list_elem_of_fmap & Hl & <- & <-). cbn. apply Hr. split_and!; [done|done|].
      unfold IsLoop in Hl. cbn in Hl. by destruct (edge_EdgeType e). }
  exists rank'. intros e [He|[Ht He]]%spliced_edge_of.
  - apply Hr'. destruct He as (He & Er & Ht). eexists. split_and!;
      [apply elem_of_app; left; apply list_elem_of_fmap_2, Hof; done|unfold IsLoop; cbn; by apply Hty|done|done].
  - destruct (spliced_edge e Ht He) as (ed & Hed & Hl & -> & -> & _). apply Hr'. exists ed.
    split_and!; [by apply elem_of_app; right|done..].
Qed.

Lemma spliced_core : graph_core r d1 (out_ords r d1 o) [].
Proof.
  pose proof spliced_db_inv as H1. pose proof (xb_origin _ _ _ _ _ _ X) as Horig. split.
  - intros e He. pose proof (out_ords_iff d1 o e H1 He) as Hoo. apply spliced_edge_of in He as [He|[Ht He]].
    + destruct (gc_edge _ _ _ _ G e He) as (x & Hx & Hu). exists (widened_row x). split; [by apply spliced_row_old|].
      rewrite widened_status, Hoo. by rewrite <-(out_ords_iff d o e H He).
    + destruct (spliced_edge e Ht He) as (ed & Hed & _ & Ef & _ & Hu). rewrite Ef.
      destruct (splice_source ed Hed) as (z & Hz & Hs). exists z. split; [done|]. rewrite Hoo, Ef. split; [|done]. intros _. destruct Hs; auto.
  - intros s z _ [(x & Hx & ->)|(st & Hst & <- & ->)]%spliced_row Hw.
    + rewrite widened_status in Hw. destruct (gc_wait _ _ _ _ G s x) as [Hd Hf]; [apply not_elem_of_nil|done|done|].
      destruct (row_key _ _ _ _ Hx) as [Er _]. rewrite bump_deps by done.
      rewrite (sbd_fired _ _ (bump_same _ _ _ x)), widened_join. split; [|done].
      rewrite widen_lookup. unfold counted. pose proof (count_nonneg (enters_step (step_StepID x)) (po_Edges plan)).
      destruct (_ && _); cbn; lia.
    + split; [by apply injected_live|done].
  - intros s z [(x & Hx & ->)|(st & Hst & <- & ->)]%spliced_row; [rewrite widened_join; by eapply gc_join|].
    apply (join_decodes st); [done|done|]. rewrite forallb_forall in Hjoin. by apply Hjoin, list_elem_of_In.
  - intros s z [(x & Hx & ->)|(st & Hst & <- & ->)]%spliced_row; [rewrite widened_status; by eapply gc_failed|apply injected_live].
  - destruct (gc_rank _ _ _ _ G) as [rank Hr]. exists rank. intros e [He|[Ht He]]%spliced_edge_of Hn; [by apply Hr|].
    by apply (new_edge_spec args d run (xb_run _ _ _ _ _ _ X)) in He as (i & ed & _ & ->).
  - by apply out_ords_NoDup.
  - intros oo (e & He & Ef & Eo)%elem_of_out_ords. exists e, (widened_row origin). rewrite Ef.
    split_and!; [done|done|by apply spliced_row_old|by rewrite widened_status].
Qed.

(** ** What was written off stays written off *)
Context (Hoff : written_off r d).
Context (Hclear : ∀ e, e ∈ po_Edges plan → IsLoop e = false → ¬ doomed r d (To e)).

Lemma spliced_doomed s : doomed r d s → doomed r d1 s.
Proof.
  apply doomed_mono.
  - intros t x _ Hx Hs. exists (widened_row x). rewrite widened_status. split; [by apply spliced_row_old|done].
  - intros t x _ Hx Hw. exists (widened_row x). split; [by apply spliced_row_old|]. right.
    rewrite widened_status, widened_join, (sbd_fired _ _ (bump_same _ _ _ x)). done.
  - intros e He _ _. apply spliced_edge_of. by left.
  - intros e [?|[Ht He]]%spliced_edge_of _ Hd; [done|].
    destruct (spliced_edge e Ht He) as (ed & Hed & Hl & _ & Et & _). rewrite Et in Hd. by destruct (Hclear ed Hed Hl).
Qed.
Lemma spliced_off : written_off r d1.
Proof.
  intros s z [(x & Hx & ->)|(st & Hst & <- & ->)]%spliced_row Hs.
  - rewrite widened_status in Hs. apply spliced_doomed. by eapply Hoff.
  - by destruct (injected_live st) as (_ & _ & _ & ? & _).
Qed.
End graph.
