(* ===== verification/EngineTotal.v ===== *)
(** Completions always finish: the success completion of a held step commits, and
    what it did to the graph. *)
From stdpp Require Import relations.
From S2P Require Import Prelude Retry StoreModel Transitions Effects StoreInv StoreSpecs EdgeSpecs StoreSystem StoreTheorems Config Dag Engine EngineInv Moves GraphInv FanOut WriteOff EngineGraph EngineTx.
Open Scope Z_scope.

(** ** Operations that cannot be refused on an existing run *)
Section total.
Context (r : uuid) (now : time) (Hnow : now ≠ 0).

Lemma appendEvent_total p d : db_inv d → is_Some (run_at d r) →
  ∃ d', appendEvent r p d = (Ok tt, d') ∧ quiet d d' ∧ tx_steps d d'.
Proof.
  intros H [run Hrun]. pose proof (appendEvent_quiet r p d H) as Q.
  pose proof (transition_sequenced _ (appendEvent_transition r p) d) as S.
  unfold run_at in Hrun. erewrite run_append_only in Q, S |- * by done. eexists. split; [done|]. split; [exact Q|by eapply S].
Qed.

Lemma record_total p d : db_inv d → is_Some (run_at d r) →
  ∃ d', (transitionQueries now ;; appendEvent r p) d = (Ok tt, d') ∧ quiet d d' ∧ tx_steps d d'.
Proof.
  intros H Hr. destruct (appendEvent_total p d H Hr) as (d' & E & Q). exists d'. split; [|done].
  unfold bind. by rewrite now_ok by done.
Qed.

Lemma quiet_some d d' : quiet d d' → is_Some (run_at d r) → is_Some (run_at d' r).
Proof. intros Q [y Hy]. destruct (q_run _ _ Q r y Hy) as (y' & -> & _). eauto. Qed.

Lemma enqueue_total ids reason tr d : ∃ d', enqueue r ids reason tr d = (Ok tt, d').
Proof.
  unfold enqueue. revert d. induction ids as [|i ids IH]; intros d; [by exists d|].
  cbn [for_each]. unfold bind at 1, CreateOutboxTask at 1, bind at 1, get, put. apply IH.
Qed.

Lemma drop_total {A} (m : Tx A) run x g res e err d : guarded d run x m g res e err → is_conflict err = true →
  ∃ o d', drop_conflict m d = (Ok o, d').
Proof. intros G Hc. rewrite (drop_guarded _ _ _ _ _ _ _ _ G Hc). destruct g; eauto. Qed.

Lemma attemptRunRollup_total d : db_inv d → is_Some (run_at d r) →
  ∃ o d', attemptRunRollup r now d = (Ok o, d') ∧ same_graph r d d'.
Proof.
  intros H [y Hy]. unfold run_at in Hy.
  destruct (drop_total _ _ _ _ _ _ _ _ (SucceedRun_guarded d r y H Hy now Hnow) eq_refl) as (o & d1 & E1).
  destruct (drop_cases _ _ d o d1 (SucceedRun_transition r now) H (SucceedRun_moves r d H now) E1)
    as [(e & -> & -> & _)|(b & -> & M & _)].
  2:{ exists (Some b), d1. split; [unfold attemptRunRollup, bind; by rewrite E1|by eapply run_moves_graph]. }
  destruct (drop_total _ _ _ _ _ _ _ _ (FailRunRollup_guarded d r y H Hy now Hnow) eq_refl) as (o & d1 & E2).
  destruct (drop_cases _ _ d o d1 (FailRunRollup_transition r now) H (FailRunRollup_moves r d H now) E2)
    as [(e' & -> & -> & _)|(b & -> & M & _)].
  2:{ exists (Some b), d1. split; [unfold attemptRunRollup, bind; by rewrite E1, E2|by eapply run_moves_graph]. }
  destruct (drop_total _ _ _ _ _ _ _ _ (CancelRunRollup_guarded d r y H Hy now Hnow) eq_refl) as (o & d1 & E3).
  exists o, d1. split; [unfold attemptRunRollup, attemptCancelRollup, bind; by rewrite E1, E2, E3|].
  destruct (drop_cases _ _ d o d1 (CancelRunRollup_transition r now) H (CancelRunRollup_moves r d H now) E3)
    as [(e'' & _ & -> & _)|(b & _ & M & _)]; [done|by eapply run_moves_graph].
Qed.
End total.

Lemma advance_eval ev r s ty output params tr now d : advance_successors ev r s ty output params tr now d =
  match planEdges ev ty (out_edges r d s) output params with
  | inl e => (Fail e, d)
  | inr vs => (let! fanned := fanOut r now vs in enqueue r (readied fanned) OutboxReasonStepReady tr ;; ret fanned) d
  end.
Proof.
  unfold advance_successors, ListEdgesFromStep, bind at 1, bind at 1, get, ret at 1. fold (out_edges r d s).
  unfold bind at 1. by destruct (planEdges _ _ _ _ _).
Qed.

(** The tail of a completion: resolve the out-edges of a finished step, dispatch
    what became ready, roll up. *)
Lemma advance_total ev r s ty output params tr now d : now ≠ 0 → db_inv d → finished r s d →
  match planEdges ev ty (out_edges r d s) output params with
  | inl e => (advance_successors ev r s ty output params tr now ;; attemptRunRollup r now) d = (Fail e, d)
  | inr vs => ∃ o d', (advance_successors ev r s ty output params tr now ;; attemptRunRollup r now) d = (Ok o, d') ∧
      Forall (has_verdict r d') vs ∧ ∀ t z, row d r t = Some z → ∃ z', row d' r t = Some z' ∧ fanned z z'
  end.
Proof.
  intros Hnow H F. destruct (planEdges _ _ _ _ _) as [e|vs] eqn:Ep; unfold bind at 1; rewrite advance_eval, Ep; [done|].
  destruct (fanOut_ok r now Hnow d vs) as (d3 & fo & E3 & F3 & I3 & V3).
  { split; [done| |apply F|apply F]. rewrite (planEdges_ords _ _ _ _ _ _ _ _ Ep). apply F. }
  unfold bind at 1. rewrite E3.
  destruct (enqueue_total r (readied fo) OutboxReasonStepReady tr d3) as (d4 & E4).
  pose proof (enqueue_quiet _ _ _ _ d3 _ d4 (fi_db _ _ _ I3) E4) as Q4.
  assert (db_inv d4) as H4 by (eapply tx_steps_inv; [apply I3|eapply sequenced_enqueue; [apply I3|exact E4]]).
  destruct (attemptRunRollup_total r now Hnow d4 H4 (quiet_some r _ _ Q4 (fi_run _ _ _ I3))) as (o & d5 & E5 & G5).
  exists o, d5. split; [unfold bind, ret; by rewrite E4|].
  assert (same_graph r d3 d5) as G35 by (etrans; [apply quiet_view, Q4|done]). split.
  - eapply Forall_impl; [exact V3|]. intros v (e & He & Ev). exists e. split; [|done].
    by apply (same_graph_edge_of _ _ _ _ G35).
  - intros t z Hz. destruct (fr_rows _ _ _ _ _ F3 t z Hz) as (z' & Hz' & Fa). exists z'.
    by rewrite (sg_row _ _ _ G35).
Qed.

(** ** The cost rows of a completion *)

(** Why the ledger refuses a row: its arguments, a negative amount, an entry that
    was charged before, a run that does not exist. *)
Definition cost_refusal (d : DB) (a : AttemptCostArgs) : option Err :=
  if ac_Now a =? 0 then Some ErrZeroNow
  else if bool_decide (ac_Resource a = "") then Some (ErrBadArgs "empty Resource")
  else match ac_Rate a with
       | None => Some (ErrBadArgs "empty Rate snapshot")
       | Some _ =>
           if negb ((0 <=? ac_CostNanoUSD a) && (0 <=? ac_SavedNanoUSD a)) then Some (ErrCheck "cost_ledger_check")
           else if charged d a then Some (ErrUnique "cost_ledger_pkey")
           else if negb (existsb (is_run (ac_RunID a)) (runs d)) then Some (ErrUnique "cost_ledger_run_id_fkey")
           else None
       end.
(** The first refusal of a list of rows, charged one after the other. *)
Fixpoint bill (d : DB) (rows : list AttemptCostArgs) : option Err :=
  match rows with
  | [] => None
  | a :: rows' =>
      match cost_refusal d a with
      | Some e => Some e
      | None => bill (d <| cost_ledger := cost_ledger d ++ [ledger_row a (default JNull (ac_Rate a))] |>) rows'
      end
  end.

Lemma cost_refusal_ext d d' a : cost_ledger d' = cost_ledger d → run_ID <$> runs d' = run_ID <$> runs d →
  cost_refusal d' a = cost_refusal d a.
Proof.
  intros El Er. unfold cost_refusal, charged. rewrite El.
  assert (existsb (is_run (ac_RunID a)) (runs d') = existsb (is_run (ac_RunID a)) (runs d)) as ->; [|done].
  revert Er. generalize (runs d). induction (runs d') as [|y l IH]; intros [|z k]; try done. cbn.
  intros [= E1 E2]. unfold is_run at 1 3. by rewrite (IH k E2), E1.
Qed.
Lemma bill_ext rows : ∀ d d', cost_ledger d' = cost_ledger d → run_ID <$> runs d' = run_ID <$> runs d →
  bill d' rows = bill d rows.
Proof.
  induction rows as [|a rows IH]; intros d d' El Er; [done|]. cbn. rewrite (cost_refusal_ext d d' a El Er).
  destruct (cost_refusal d a); [done|]. apply IH; [cbn; by rewrite El|done].
Qed.

Lemma ApplyAttemptCost_refusal d a : db_inv d →
  match cost_refusal d a with
  | Some e => ∃ d', ApplyAttemptCost a d = (Fail e, d')
  | None => ∃ res d', ApplyAttemptCost a d = (Ok res, d') ∧
      cost_ledger d' = cost_ledger d ++ [ledger_row a (default JNull (ac_Rate a))] ∧ run_ID <$> runs d' = run_ID <$> runs d
  end.
Proof.
  intros H. unfold cost_refusal. destruct (Z.eqb_spec (ac_Now a) 0) as [E|Hnow].
  { eexists. unfold ApplyAttemptCost, bind, transitionQueries. by rewrite E. }
  case_bool_decide as Hres. { eexists. unfold ApplyAttemptCost, bind, guard. by rewrite now_ok, Hres by done. }
  destruct (ac_Rate a) as [rate|] eqn:Hrate.
  2:{ eexists. unfold ApplyAttemptCost. rewrite Hrate. unfold bind, guard. by rewrite now_ok, bool_decide_eq_false_2 by done. }
  destruct ((0 <=? ac_CostNanoUSD a) && (0 <=? ac_SavedNanoUSD a)) eqn:Hpos; cbn [negb].
  2:{ eexists. unfold ApplyAttemptCost. rewrite Hrate. unfold InsertCostLedgerEntry, bind, guard, get.
      rewrite now_ok, bool_decide_eq_false_2 by done. cbn [negb ret cl_CostNanoUsd cl_SavedNanoUsd]. by rewrite Hpos. }
  destruct (find (is_run (ac_RunID a)) (runs d)) as [run|] eqn:Hrun.
  - apply andb_prop in Hpos as [Hc%Z.leb_le Hs%Z.leb_le].
    pose proof (ApplyAttemptCost_guarded d a rate run H Hrun Hnow Hres Hrate Hc Hs) as G. unfold guarded in G.
    destruct (charged d a); cbn [negb] in G; [by eexists|]. rewrite (find_existsb _ _ _ Hrun). cbn [negb].
    destruct G as [-> _]. eexists _, _. split; [done|]. split; [done|]. cbn. by rewrite (set_row_keys run_ID is_run).
  - assert (ApplyAttemptCost a d = (Fail (ErrUnique (if charged d a then "cost_ledger_pkey" else "cost_ledger_run_id_fkey")), d)) as ->.
    { unfold ApplyAttemptCost. rewrite Hrate. unfold InsertCostLedgerEntry, bind, guard, get.
      rewrite now_ok, bool_decide_eq_false_2 by done. cbn [negb ret cl_CostNanoUsd cl_SavedNanoUsd].
      rewrite Hpos. cbn [ret cl_RunID cl_StepID cl_Attempt cl_Entry]. fold (cost_entry a) (charged d a).
      destruct (charged d a); [done|]. by rewrite (find_existsb_none _ _ Hrun). }
    rewrite (find_existsb_none _ _ Hrun). cbn [negb]. destruct (charged d a); by eexists.
Qed.

(** The completion's ledger writes: refused with the first refusal, or done. *)
Lemma applyCostRows_bill rows : ∀ d, db_inv d →
  match bill d rows with
  | Some e => ∃ d', applyCostRows rows d = (Fail e, d')
  | None => ∃ d', applyCostRows rows d = (Ok tt, d')
  end.
Proof.
  induction rows as [|a rows IH]; intros d H; [by exists d|]. cbn [bill].
  unfold applyCostRows. cbn [for_each]. fold (applyCostRows rows).
  pose proof (ApplyAttemptCost_refusal d a H) as R. destruct (cost_refusal d a) as [e|].
  - destruct R as [d' E]. exists d'. unfold bind. by rewrite E.
  - destruct R as (res & d1 & E & El & Er).
    assert (db_inv d1) as H1.
    { eapply tx_steps_inv; [exact H|]. by eapply (transition_sequenced _ (ApplyAttemptCost_transition a)). }
    specialize (IH d1 H1).
    rewrite (bill_ext rows (d <| cost_ledger := cost_ledger d ++ [ledger_row a (default JNull (ac_Rate a))] |>) d1) in IH by done.
    destruct (bill _ rows); destruct IH as [d' E']; exists d'; unfold bind, ret; by rewrite E.
Qed.

(** ** The success completion *)
Section success.
Context (ev : string → option json → option json → option bool).
Context (c : Completion) (params : option json) (now : time) (d : DB) (x : RunStep) (y : Run).
Abbreviation r := (co_RunID c).
Abbreviation s := (co_StepID c).
Context (H : db_inv d) (Hnow : now ≠ 0) (G : good r d).
Context (Hy : run_at d r = Some y) (Hopen : cancel_phase (run_Status y) = false).
Context (Hx : row d r s = Some x) (Hheld : fenced (co_ClaimID c) x = true).

(** The verdicts of the step's out-edges. *)
Definition verdicts : Err + list edgeVerdict :=
  planEdges ev (co_StepType c) (out_edges r d s) (co_Output c) params.

Lemma success_settled : ∃ res d1,
  SucceedStep r s (co_ClaimID c) (co_Output c) (co_Usage c) (co_Verdict c) (co_Repair c) now d = (Ok res, d1) ∧
  db_inv d1 ∧ finished r s d1 ∧ out_edges r d1 s = out_edges r d s ∧
  (∃ x1, row d1 r s = Some x1 ∧ step_Status x1 = StepStatusSucceeded ∧ step_Envelope x1 = step_Envelope x) ∧
  (∀ t, t ≠ s → row d1 r t = row d r t) ∧ bill d1 (co_Costs c) = bill d (co_Costs c).
Proof.
  set (m := SucceedStep _ _ _ _ _ _ _ _).
  destruct (guarded_accept _ _ _ _ _ _ _ _ (SucceedStep_guarded d r s y x H Hy Hx (co_ClaimID c) (co_Output c)
    (co_Usage c) (co_Verdict c) (co_Repair c) now Hnow) Hheld) as [E _]. eexists _, _. split; [exact E|].
  pose proof (on_ok_elim _ _ _ _ _ (SucceedStep_moves _ _ d H _ _ _ _ _ _) E) as M.
  destruct (finish_ok _ _ _ _ _ d _ _ (SucceedStep_transition _ _ _ _ _ _ _ _) H
    (SucceedStep_moves _ _ d H _ _ _ _ _ _)
    ltac:(intros z st' [Hz ->]; by apply bool_decide_eq_true in Hz as ->) G E) as [H1 F1].
  split; [done|]. split; [done|]. destruct M as (z & z' & w & w' & C & [_ Ez] & _).
  split; [unfold out_edges; by rewrite (rch_edges _ _ _ _ _ (ch_run _ _ _ _ _ _ _ _ C))|].
  assert (z = x) as -> by (rewrite (ch_row _ _ _ _ _ _ _ _ C) in Hx; by injection Hx).
  split; [exists z'; split_and!; [apply C|done|apply (sk_envelope _ _ (ch_kind _ _ _ _ _ _ _ _ C))]|].
  split; [intros t Ht; apply C; congruence|].
  apply bill_ext; cbn; [by rewrite app_nil_r|]. by rewrite (set_row_keys run_ID is_run).
Qed.

(** The loop records of an exiting loop source. *)
Lemma loop_records d1 : db_inv d1 → finished r s d1 → ∃ d2, (when_some (co_LoopExhausted c) (λ ev, RecordLoopExhausted r ev now) ;;
    when_some (co_LoopNoProgress c) (λ ev, RecordLoopNoProgress r ev now)) d1 = (Ok tt, d2) ∧
  db_inv d2 ∧ finished r s d2 ∧ quiet d1 d2.
Proof.
  intros H1 F1.
  assert (∀ (o : option json) (p : json → Payload) e, db_inv e → finished r s e →
    ∃ e', when_some o (λ ev, transitionQueries now ;; appendEvent r (p ev)) e = (Ok tt, e') ∧
      db_inv e' ∧ finished r s e' ∧ quiet e e') as K.
  { intros [j|] p e He Fe; [|exists e; split; [done|]; split_and!; [done|done|apply quiet_refl]].
    destruct (record_total r now Hnow (p j) e He (fin_run _ _ _ Fe)) as (e' & E & Q & S). exists e'.
    split_and!; [done|by eapply tx_steps_inv|by eapply quiet_finished|done]. }
  destruct (K (co_LoopExhausted c) LoopExhaustedEv d1 H1 F1) as (d2 & E1 & H2 & F2 & Q1).
  destruct (K (co_LoopNoProgress c) LoopNoProgressEv d2 H2 F2) as (d3 & E2 & H3 & F3 & Q2).
  exists d3. split_and!; [|done|done|by eapply quiet_trans]. unfold bind at 1, RecordLoopExhausted. rewrite E1. exact E2.
Qed.

Lemma success_step_row d1 d2 d3 : (∃ x1, row d1 r s = Some x1 ∧ step_Status x1 = StepStatusSucceeded) →
  quiet d1 d2 → (∀ t z, row d2 r t = Some z → ∃ z', row d3 r t = Some z' ∧ fanned z z') →
  ∃ x', row d3 r s = Some x' ∧ step_Status x' = StepStatusSucceeded.
Proof.
  intros (x1 & Hx1 & Es) Q F. destruct (F s x1) as (x' & Hx' & Fa); [unfold row; by rewrite (q_steps _ _ Q)|].
  exists x'. split; [done|]. by destruct (fa_status _ _ Fa) as [->|[E _]]; [|rewrite Es in E].
Qed.

Lemma success_total : match bill d (co_Costs c), verdicts with
  | Some e, _ => ∃ d', completeSuccessTx ev c params now d = (Fail e, d')
  | None, inl e => ∃ d', completeSuccessTx ev c params now d = (Fail e, d')
  | None, inr vs => ∃ o d', completeSuccessTx ev c params now d = (Ok o, d') ∧
      (∃ x', row d' r s = Some x' ∧ step_Status x' = StepStatusSucceeded) ∧
      Forall (has_verdict r d') vs ∧
      ∀ t z, t ≠ s → row d r t = Some z → ∃ z', row d' r t = Some z' ∧ fanned z z'
  end.
Proof.
  destruct success_settled as (res & d1 & E1 & H1 & F1 & Eo & (x1 & Hx1 & Ex1 & _) & Hr1 & Eb).
  pose proof (applyCostRows_bill (co_Costs c) d1 H1) as B. rewrite Eb in B.
  destruct (bill d (co_Costs c)) as [e|].
  { destruct B as [d' E]. exists d'. unfold completeSuccessTx, LockRunStatus, lockRun, fence, attempt, bind in *.
    rewrite now_ok by done. rewrite GetRun_eval. unfold run_at in Hy. rewrite Hy. cbn [ret]. rewrite E1. unfold ret.
    by rewrite E. }
  destruct B as [d2 E2].
  pose proof (applyCostRows_quiet _ _ _ _ H1 E2) as Q2.
  destruct (quiet_fin _ _ _ _ _ _ (sequenced_applyCostRows _) (applyCostRows_quiet _) H1 F1 E2) as [H2 F2].
  destruct (loop_records d2 H2 F2) as (d3 & E3 & H3 & F3 & Q3).
  assert (quiet d1 d3) as Q by by eapply quiet_trans.
  assert (completeSuccessTx ev c params now d =
    (advance_successors ev r s (co_StepType c) (co_Output c) params (co_Trace c) now ;; attemptRunRollup r now) d3) as ->.
  { unfold completeSuccessTx, LockRunStatus, lockRun, fence, attempt, bind in *. rewrite now_ok by done.
    rewrite GetRun_eval. unfold run_at in Hy. rewrite Hy. cbn [ret]. rewrite E1. unfold ret. rewrite E2.
    rewrite bool_decide_eq_false_2 by by intros E; rewrite E in Hopen.
    destruct (when_some (co_LoopExhausted c) _ d2) as [[u|e] d2'] eqn:Eu; [|done]. rewrite E3.
    by destruct (advance_successors _ _ _ _ _ _ _ _ d3) as [[]]. }
  unfold verdicts. rewrite <-Eo.
  assert (out_edges r d3 s = out_edges r d1 s) as <- by (unfold out_edges; by rewrite (q_edges _ _ Q)).
  pose proof (advance_total ev r s (co_StepType c) (co_Output c) params (co_Trace c) now d3 Hnow H3 F3) as T.
  destruct (planEdges _ _ _ _ _) as [e|vs]; [by exists d3|]. destruct T as (o & d5 & E5 & V5 & Hrows).
  exists o, d5. split_and!; [done|by eapply success_step_row; [exists x1| |]|done|].
  intros t z Ht Hz. apply Hrows. unfold row. rewrite (q_steps _ _ Q). fold (row d1 r t). by rewrite Hr1.
Qed.
End success.
