(* ===== verification/Settle.v ===== *)
(** Cancellation converges: a cancelling run holds only running and terminal
    steps, at least one of them running, until its rollup. *)
From stdpp Require Import relations.
From S2P Require Import Prelude Retry StoreModel Transitions Effects StoreInv StoreSpecs EdgeSpecs StoreSystem StoreTheorems Config Dag Engine EngineInv Moves GraphInv FanOut WriteOff EngineGraph EngineTx.
Open Scope Z_scope.

Definition cancelling (r : uuid) (d : DB) : Prop :=
  ∃ y, run_at d r = Some y ∧ run_Status y = RunStatusCancelling.

Definition wound_status (st : StepStatus) : bool := is_running st || step_terminal st.
Definition wound (r : uuid) (d : DB) : Prop := ∀ s x, row d r s = Some x → wound_status (step_Status x) = true.
Definition some_running (r : uuid) (d : DB) : Prop :=
  ∃ s x, row d r s = Some x ∧ step_Status x = StepStatusRunning.
Definition settling (r : uuid) (d : DB) : Prop := cancelling r d → wound r d ∧ some_running r d.

Lemma cancelling_dec r d : cancelling r d ∨ ¬ cancelling r d.
Proof.
  unfold cancelling. destruct (run_at d r) as [y|]; [|right; by intros (? & ? & _)].
  destruct (decide (run_Status y = RunStatusCancelling)); [left; eauto|right]. by intros (z & [= <-] & ?).
Qed.

Lemma same_view_cancelling r d d' : same_view r d d' → cancelling r d' → cancelling r d.
Proof.
  intros V (y' & Hy' & Es). destruct (run_stat_row _ _ _ _ (sv_stat _ _ _ V) Hy') as (y & Hy & E & _).
  exists y. split; congruence.
Qed.
Lemma same_graph_wound r d d' : same_graph r d d' → wound r d → wound r d'.
Proof. intros G W s x Hx. rewrite (sg_row _ _ _ G) in Hx. by eapply W. Qed.
Lemma same_graph_running r d d' : same_graph r d d' → some_running r d → some_running r d'.
Proof. intros G (s & x & Hx & Hs). exists s, x. by rewrite (sg_row _ _ _ G). Qed.
Lemma same_view_settling r d d' : same_view r d d' → settling r d → settling r d'.
Proof.
  intros V S Hc. destruct (S (same_view_cancelling _ _ _ V Hc)) as [W R]. pose proof (sv_graph _ _ _ V) as G.
  split; [by eapply same_graph_wound|by eapply same_graph_running].
Qed.

(** ** Only a cancel request starts a cancellation *)
Definition calm (d d' : DB) : Prop := ∀ r, cancelling r d' → cancelling r d.
#[export] Instance calm_respectful : Respectful calm.
Proof.
  split; [split; [by intros ? ?|by intros ? ? ? C1 C2 r Hr; apply C1, C2]|].
  intros d d' Q r. by apply same_view_cancelling, quiet_view.
Qed.
Abbreviation calmly := (respects calm).

Lemma run_changes_calm r run run' d d' : run_changes r run run' d d' →
  (run_Status run' = RunStatusCancelling → run_Status run = RunStatusCancelling) → calm d d'.
Proof.
  intros C Hs r' (y & Hy & Es). destruct (decide (r' = r)) as [->|Hne].
  - rewrite (rch_run' _ _ _ _ _ C) in Hy. injection Hy as <-. eexists. split; [apply C|auto].
  - rewrite (rch_runs _ _ _ _ _ C) in Hy by done. by exists y.
Qed.
Lemma calm_step {A} r s P Q (m : Tx A) : transition m → (∀ d, db_inv d → on_ok (step_moves r s P Q d) (m d)) →
  (∀ st, Q st RunStatusCancelling → st = RunStatusCancelling) → calmly m.
Proof.
  intros T M HQ d a d' H E. split; [by eapply transition_sequenced|]. specialize (M d H). rewrite E in M.
  destruct M as (x & x' & run & run' & C & _ & Hq). eapply run_changes_calm; [apply C|].
  intros Es. rewrite Es in Hq. by apply HQ.
Qed.
Lemma calm_run {A} r Q (m : Tx A) : transition m → (∀ d, db_inv d → on_ok (run_moves r Q d) (m d)) →
  (∀ y, Q y RunStatusCancelling → run_Status y = RunStatusCancelling) → calmly m.
Proof.
  intros T M HQ d a d' H E. split; [by eapply transition_sequenced|]. specialize (M d H). rewrite E in M.
  destruct M as (run & run' & C & _ & Hq). eapply run_changes_calm; [apply C|].
  intros Es. rewrite Es in Hq. by apply HQ.
Qed.
Lemma calm_ResolveEdge r o f now : calmly (ResolveEdge r o f now).
Proof.
  intros d a d' H E. destruct (framed_ResolveEdge r o f now d a d' H E) as [S F]. split; [done|].
  destruct (ResolveEdge_rel r o f now d a d' H E) as [->|[[y Hy] Fr]]; [done|].
  intros r' Hc. destruct (decide (r' = r)) as [->|Hne]; [|by eapply same_view_cancelling; [apply F|]].
  destruct Hc as (y' & Hy' & Es). destruct (fr_run _ _ _ _ _ Fr y Hy) as (z & Hz & Ez & _).
  exists y. split; congruence.
Qed.

Ltac calms := repeat first
  [ eapply calm_step; [solve [auto with loom]|solve [eauto with moves]|
      cbv beta; intros []; solve [intuition congruence|by vm_compute]]
  | eapply calm_run; [solve [auto with loom]|solve [eauto with moves]|
      cbv beta; intros ?; solve [intuition congruence]]
  | apply calm_ResolveEdge
  | respected ].

Section blocks.
Context (r : uuid).
Implicit Types (now : time).
Lemma calm_resolve_verdicts now vs : ∀ work res, calmly (resolve_verdicts r now vs work res).
Proof. induction vs as [|[o f] vs IH]; intros; cbn [resolve_verdicts]; calms; apply IH. Qed.
Lemma calm_fan_loop now fuel : ∀ work res, calmly (fan_loop r now fuel work res).
Proof.
  induction fuel as [|fuel IH]; intros [|vs work] res; cbn [fan_loop]; calms;
    auto using calm_resolve_verdicts.
Qed.
Lemma calm_fanOut now seed : calmly (fanOut r now seed).
Proof. unfold fanOut. calms. apply calm_fan_loop. Qed.
Lemma calm_attemptCancelRollup now : calmly (attemptCancelRollup r now).
Proof. unfold attemptCancelRollup. calms. Qed.
#[local] Hint Resolve calm_fanOut calm_attemptCancelRollup : frames.
Lemma calm_attemptRunRollup now : calmly (attemptRunRollup r now).
Proof. unfold attemptRunRollup. calms. Qed.
Lemma calm_deadLetterDisposition f now : calmly (deadLetterDisposition f r now).
Proof. unfold deadLetterDisposition. calms. Qed.
Lemma calm_settleCancelled s c err now : calmly (settleCancelled r s c err now).
Proof. unfold settleCancelled. calms. Qed.
Lemma calm_advance ev s ty out params tr now : calmly (advance_successors ev r s ty out params tr now).
Proof. unfold advance_successors. calms. Qed.
End blocks.
#[export] Hint Resolve calm_ResolveEdge calm_fanOut calm_attemptCancelRollup calm_attemptRunRollup
  calm_deadLetterDisposition calm_settleCancelled calm_advance : frames.

(** ** Settling a cancelling run *)
Lemma move_wound r s P Q d d' : step_moves r s P Q d d' →
  (∀ x st', P x st' → step_terminal st' = true) → wound r d → wound r d'.
Proof.
  intros (x & x' & run & run' & C & HP & _) Ht W t z Hz. destruct (decide (t = s)) as [->|Hne].
  - rewrite (ch_row' _ _ _ _ _ _ _ _ C) in Hz. injection Hz as <-. unfold wound_status.
    by rewrite (Ht _ _ HP), orb_true_r.
  - rewrite (ch_rows _ _ _ _ _ _ _ _ C) in Hz by congruence. by eapply W.
Qed.

Lemma CancelRunRollup_refused r now d e y : db_inv d → CancelRunRollup r now d = (Fail e, d) →
  is_conflict e = true → run_at d r = Some y → run_Status y = RunStatusCancelling → all_accounted y = false.
Proof.
  intros H E Hc Hy Hs. destruct (decide (now = 0)) as [->|Hnow]; [injection E as <-; done|].
  apply not_true_iff_false. intros Ha.
  destruct (guarded_accept _ _ _ _ _ _ _ _ (CancelRunRollup_guarded d r y H Hy now Hnow)); [|congruence].
  unfold run_has. by rewrite Hs, Ha.
Qed.

(** A wound run that is not due for its rollup has a running step. *)
Lemma wound_unaccounted r d y : db_inv d → wound r d → run_at d r = Some y → all_accounted y = false →
  some_running r d.
Proof.
  intros H W Hy Ha.
  destruct (existsb (λ x, of_run r x && has_status StepStatusRunning x) (run_steps d)) eqn:E.
  - apply existsb_exists in E as (x & Hx%list_elem_of_In & [Er%bool_decide_eq_true Hs%bool_decide_eq_true]%andb_prop).
    exists (step_StepID x), x. split; [by apply row_run_steps|done].
  - exfalso. apply not_true_iff_false in Ha. apply Ha, (accounted_guard d r y H Hy). intros x Hx Er.
    pose proof (W _ _ (row_run_steps r d x H Hx Er)) as Hw. unfold wound_status in Hw.
    apply orb_prop in Hw as [Hr|?]; [|done]. apply not_true_iff_false in E. destruct E.
    apply existsb_exists. exists x. split; [by apply list_elem_of_In|]. unfold of_run, has_status.
    rewrite Er. apply bool_decide_eq_true in Hr. by rewrite Hr, !bool_decide_eq_true_2.
Qed.

Lemma wound_cancel_rollup r now d o d' : db_inv d → wound r d → attemptCancelRollup r now d = (Ok o, d') →
  settling r d'.
Proof.
  intros H W E. destruct (drop_cases _ _ d o d' (CancelRunRollup_transition r now) H
    (CancelRunRollup_moves r d H now) E) as [(e & _ & -> & Ef & Hc)|(b & _ & M & _)].
  - intros (y & Hy & Hs). split; [done|]. eapply wound_unaccounted; [done..|].
    by eapply CancelRunRollup_refused.
  - destruct M as (run & run' & C & _ & _ & Es). intros (y & Hy & Hs).
    rewrite (rch_run' _ _ _ _ _ C) in Hy. congruence.
Qed.

Lemma closed_settling r Q d d' : run_moves r Q d d' → (∀ y, ¬ Q y RunStatusCancelling) → settling r d'.
Proof.
  intros (run & run' & C & _ & HQ) Hn (y & Hy & Hs). rewrite (rch_run' _ _ _ _ _ C) in Hy.
  injection Hy as <-. rewrite Hs in HQ. by apply Hn in HQ.
Qed.

Lemma wound_run_rollup r now d o d' : db_inv d → wound r d → attemptRunRollup r now d = (Ok o, d') →
  settling r d'.
Proof.
  intros H W E. unfold attemptRunRollup in E. apply bind_ok in E as (a & d1 & E1 & E).
  destruct (drop_cases _ _ d a d1 (SucceedRun_transition r now) H (SucceedRun_moves r d H now) E1)
    as [(e & -> & -> & _)|(b & -> & M & _)].
  2:{ injection E as _ <-. eapply closed_settling; [exact M|]. by intros y [_ ?]. }
  apply bind_ok in E as (a & d1 & E2 & E).
  destruct (drop_cases _ _ d a d1 (FailRunRollup_transition r now) H (FailRunRollup_moves r d H now) E2)
    as [(e' & -> & -> & _)|(b & -> & M & _)].
  2:{ injection E as _ <-. eapply closed_settling; [exact M|]. by intros y [_ ?]. }
  by eapply wound_cancel_rollup.
Qed.

(** [m], a transaction on run [r], keeps [r] settling. *)
Definition settles (r : uuid) {A} (m : Tx A) : Prop :=
  ∀ d a d', db_inv d → m d = (Ok a, d') → settling r d → settling r d'.

Lemma settles_calm r {A} (m : Tx A) : calmly m →
  (∀ d a d', db_inv d → cancelling r d → wound r d → some_running r d → m d = (Ok a, d') → settling r d') →
  settles r m.
Proof.
  intros C Hm d a d' H E S. destruct (cancelling_dec r d) as [Hc|Hn].
  - destruct (S Hc). by eapply Hm.
  - intros Hc'. destruct Hn. by apply (C d a d' H E).
Qed.

(** A transaction refused on a cancelling run. *)
Lemma settles_refused r {A} (m : Tx A) : calmly m →
  (∀ d a d', db_inv d → cancelling r d → m d = (Ok a, d') → False) → settles r m.
Proof. intros C Hm. apply settles_calm; [done|]. intros d a d' H Hc _ _ E. destruct (Hm d a d' H Hc E). Qed.

Lemma refused_run r {A} (Q : Run → RunStatus → Prop) (m : Tx A) d a d' :
  on_ok (run_moves r Q d) (m d) → cancelling r d → m d = (Ok a, d') →
  (∀ y st', Q y st' → run_Status y ≠ RunStatusCancelling) → False.
Proof.
  intros M (y & Hy & Hs) E HQ. rewrite E in M. destruct M as (run & run' & C & _ & Hq).
  rewrite (rch_run _ _ _ _ _ C) in Hy. injection Hy as <-. by apply (HQ _ _ Hq).
Qed.

Lemma cancelling_kept r s P d d' : step_moves r s P run_kept d d' → cancelling r d → cancelling r d'.
Proof.
  intros (x & x' & run & run' & C & _ & Hk) (y & Hy & Hs). exists run'. split; [apply C|].
  rewrite (rch_run _ _ _ _ _ (ch_run _ _ _ _ _ _ _ _ C)) in Hy. congruence.
Qed.

Lemma lock_cancelling r now d st d' : cancelling r d → LockRunStatus r now d = (Ok st, d') →
  d' = d ∧ st = RunStatusCancelling.
Proof. intros (y & Hy & Hs) (-> & z & Hz & ->)%LockRunStatus_ok. split; [done|congruence]. Qed.

Ltac terminal_facts := intros ? ? [_ ->]; done.

Lemma move_then_cancel_rollup r s {A} P Q (m : Tx A) now d a d1 o d' : transition m → db_inv d →
  on_ok (step_moves r s P Q d) (m d) → (∀ x st', P x st' → step_terminal st' = true) → wound r d →
  m d = (Ok a, d1) → attemptCancelRollup r now d1 = (Ok o, d') → settling r d'.
Proof.
  intros T H M HP W E E'. rewrite E in M.
  eapply wound_cancel_rollup; [eapply tx_steps_inv; [exact H|by eapply (transition_sequenced m T)]| |exact E'].
  by eapply move_wound.
Qed.

Lemma settleCancelled_settling r s c err now d o d' : db_inv d → wound r d →
  settleCancelled r s c err now d = (Ok o, d') → settling r d'.
Proof.
  intros H W E. unfold settleCancelled in E. peel E. apply fence_inv in E0.
  eapply move_then_cancel_rollup; [apply CancelRunningStep_transition|exact H|by apply CancelRunningStep_moves|
    terminal_facts|done|exact E0|exact E].
Qed.

(** The first branch every failure, throttle and park completion shares. *)
Lemma settle_settles r s c err now {A} (f : option Run → A) (k : RunStatus → Tx A) : (∀ st, calmly (k st)) →
  settles r (let! status := LockRunStatus r now in
    if bool_decide (status = RunStatusCancelling)
    then let! fin := settleCancelled r s c err now in ret (f fin) else k status).
Proof.
  intros C. apply settles_calm; [calms; done|]. intros d a d' H Hc W _ E.
  peel E. destruct (lock_cancelling _ _ _ _ _ Hc E0) as [-> ->]. rewrite bool_decide_eq_true_2 in E by done.
  peel E. injection E as _ <-. by eapply settleCancelled_settling.
Qed.

Section transactions.
Context (ev : string → option json → option json → option bool).
Context (retryDelay : ResolvedRetryPolicy → Z → option Z).
Implicit Types (c : Completion) (now : time).

Lemma completeSuccessTx_settles c params now : settles (co_RunID c) (completeSuccessTx ev c params now).
Proof.
  apply settles_calm; [unfold completeSuccessTx; calms|].
  intros d a d' H Hc W _ E. unfold completeSuccessTx in E.
  peel E. destruct (lock_cancelling _ _ _ _ _ Hc E0) as [-> ->]. rewrite bool_decide_eq_true_2 in E by done.
  peel E. apply fence_inv in E1.
  pose proof (on_ok_elim _ _ _ _ _ (SucceedStep_moves _ _ d H _ _ _ _ _ _) E1) as M.
  apply move_wound in M; [|terminal_facts|done].
  assert (db_inv d0) as H0
    by (eapply tx_steps_inv; [exact H|by eapply (transition_sequenced _ (SucceedStep_transition _ _ _ _ _ _ _ _))]).
  peel E. peel E. injection E3 as _ <-.
  assert (db_inv d1) as H1 by (eapply tx_steps_inv; [exact H0|by eapply sequenced_applyCostRows]).
  eapply wound_run_rollup; [exact H1| |exact E]. eapply same_graph_wound; [|exact M].
  apply quiet_view. by eapply applyCostRows_quiet.
Qed.

Lemma retryRoute_calm c class now : calmly (retryRoute retryDelay c class now).
Proof. apply respects_reads; [apply _|]. apply retryRoute_reads. Qed.
#[local] Hint Resolve retryRoute_calm : frames.

Lemma completeFailureTx_settles c class payload collect params now :
  settles (co_RunID c) (completeFailureTx ev retryDelay c class payload collect params now).
Proof. apply (settle_settles _ _ _ _ _ RouteCancelled). intros _. calms. Qed.
End transactions.

Lemma completeValidationFailureTx_settles c payload m feedback report n now :
  settles (co_RunID c) (completeValidationFailureTx c payload m feedback report n now).
Proof. apply (settle_settles _ _ _ _ _ RouteCancelled). intros _. unfold validation_dead_letter. calms. Qed.
Lemma completeThrottleTx_settles c res b ra fireAt now :
  settles (co_RunID c) (completeThrottleTx c res b ra fireAt now).
Proof. apply (settle_settles _ _ _ _ _ (λ _, None)). intros _. calms. Qed.
Lemma completeBudgetParkTx_settles c e now : settles (co_RunID c) (completeBudgetParkTx c e now).
Proof. apply (settle_settles _ _ _ _ _ (λ _, None)). intros _. calms. Qed.
Lemma completeAwaitHumanTx_settles c a now : settles (co_RunID c) (completeAwaitHumanTx c a now).
Proof. apply (settle_settles _ _ _ _ _ (λ _, None)). intros _. calms. Qed.

(** ** Transactions refused on a cancelling run *)
Section refused.
Context (r : uuid).
Implicit Types (now : time).

Lemma claim_refused s now sp w c d a d' : db_inv d → cancelling r d →
  ClaimStepWithOrigin r s now sp w c d = (Ok a, d') → False.
Proof.
  intros H (y & Hy & Hs) E. pose proof (on_ok_elim _ _ _ _ _ (ClaimStepWithOrigin_moves r s d H _ _ _ _) E) as M.
  destruct M as (x & x' & run & run' & C & _ & Hr & _).
  rewrite (rch_run _ _ _ _ _ (ch_run _ _ _ _ _ _ _ _ C)) in Hy. congruence.
Qed.
Lemma claim_settles s now sp w c : settles r (ClaimStepWithOrigin r s now sp w c).
Proof. apply settles_refused; [calms|]. intros *. apply claim_refused. Qed.

Lemma takeoverAndClaimTx_calm s h now sp w c : calmly (takeoverAndClaimTx r s h now sp w c).
Proof.
  intros d a d' H E. unfold takeoverAndClaimTx in E.
  assert (calmly (ClaimStepWithOrigin r s now sp w c)) as C by calms.
  assert (calmly (TakeoverStep r s h now)) as CT by calms.
  unfold bind, attempt in E. destruct (TakeoverStep r s h now d) as [[x|e] d1] eqn:Et.
  - destruct (CT d x d1 H Et) as [S1 C1]. cbn in E.
    destruct (C d1 a d' (tx_steps_inv _ _ H S1) E) as [S2 C2]. split; by etrans.
  - pose proof (TakeoverStep_transition r s h now d H) as T. rewrite Et in T.
    destruct e; try done. destruct (_ && _); [|done]. cbn in E. inversion T; subst; [by eapply (C _ a)|done].
Qed.
Lemma takeoverAndClaimTx_settles s h now sp w c : settles r (takeoverAndClaimTx r s h now sp w c).
Proof.
  apply settles_refused; [apply takeoverAndClaimTx_calm|]. intros d a d' H Hc E. unfold takeoverAndClaimTx in E.
  unfold bind, attempt in E. pose proof (TakeoverStep_transition r s h now d H) as T.
  pose proof (TakeoverStep_moves r s d H h now) as M.
  destruct (TakeoverStep r s h now d) as [[x|e] d1] eqn:Et; cbn in M, E.
  - eapply claim_refused; [|by eapply cancelling_kept|exact E].
    eapply tx_steps_inv; [exact H|]. by eapply (transition_sequenced _ (TakeoverStep_transition r s h now)).
  - destruct e; try done. destruct (_ && _); [|done]. inversion T; subst; [by eapply claim_refused; [exact H|exact Hc|exact E]|done].
Qed.

Lemma requeueTx_settles s now : settles r (requeueTx r s now).
Proof.
  apply settles_refused; [unfold requeueTx; calms|]. intros d a d' H Hc E. unfold requeueTx in E.
  peel E. pose proof (on_ok_elim _ _ _ _ _ (RequeueStep_moves r s d H now) E0) as M.
  destruct (cancelling_kept _ _ _ _ _ M Hc) as (y & Hy & Hs).
  peel E. apply GetRun_ok in E1 as [-> Hy']. rewrite Hy in Hy'. injection Hy' as <-.
  by rewrite Hs in E.
Qed.

Lemma ParkRun_settles reason now : settles r (ParkRun r reason now).
Proof.
  apply settles_refused; [calms|]. intros d a d' H Hc E.
  eapply refused_run; [by apply ParkRun_moves|exact Hc|exact E|]. intros y st' [-> _]. done.
Qed.
Lemma unparkTx_settles now : settles r (unparkTx r now).
Proof.
  apply settles_refused; [unfold unparkTx; calms|]. intros d a d' H Hc E. unfold unparkTx in E. peel E.
  eapply refused_run; [by apply UnparkRun_moves|exact Hc|exact E0|]. intros y st' [-> _]. done.
Qed.
Lemma SetRunBudget_settles b now : settles r (SetRunBudget r b now).
Proof.
  intros d a d' H E S. destruct (on_ok_elim _ _ _ _ _ (SetRunBudget_moves r d H b now) E) as (y & y' & C & Hs & Es).
  eapply same_view_settling; [|exact S]. apply quiet_view. by eapply quiet_run_changes.
Qed.
End refused.

(** ** Winding down: operations that leave no step live but the running ones *)
Definition winds (r : uuid) (d d' : DB) : Prop := wound r d → wound r d'.
#[export] Instance winds_respectful r : Respectful (winds r).
Proof.
  split; [split; [by intros d ?|by intros ? ? ? W1 W2 W; apply W2, W1]|].
  intros d d' Q W. eapply same_graph_wound; [by apply quiet_view|exact W].
Qed.
Lemma winds_step r s {A} P Q (m : Tx A) : transition m → (∀ d, db_inv d → on_ok (step_moves r s P Q d) (m d)) →
  (∀ x st', P x st' → step_terminal st' = true) → respects (winds r) m.
Proof.
  intros T M HP d a d' H E. split; [by eapply transition_sequenced|]. specialize (M d H). rewrite E in M.
  intros W. by eapply move_wound.
Qed.
Lemma winds_run r' r {A} Q (m : Tx A) : transition m → (∀ d, db_inv d → on_ok (run_moves r Q d) (m d)) →
  respects (winds r') m.
Proof.
  intros T M d a d' H E. split; [by eapply transition_sequenced|]. specialize (M d H). rewrite E in M.
  intros W. eapply same_graph_wound; [by eapply run_moves_graph|done].
Qed.
Ltac winding := repeat first
  [ eapply winds_step; [solve [auto with loom]|solve [eauto with moves]|terminal_facts]
  | eapply winds_run; [solve [auto with loom]|solve [eauto with moves]]
  | respected ].

Lemma winds_disposition f r now : respects (winds r) (deadLetterDisposition f r now).
Proof. unfold deadLetterDisposition. winding. Qed.

(** A disposition that reports the run failed left it failed. *)
Lemma drop_failed r Q (m : Tx Run) d o d' : transition m → db_inv d → on_ok (run_moves r Q d) (m d) →
  (∀ y, ¬ Q y RunStatusCancelling) → drop_conflict m d = (Ok o, d') →
  match o with Some _ => true | None => false end = true → settling r d'.
Proof.
  intros T H M HQ E Ho. destruct (drop_cases _ _ d o d' T H M E) as [(e & -> & _)|(b & -> & M' & _)]; [done|].
  by eapply closed_settling.
Qed.
Lemma disposition_failed f r now d l d' : db_inv d → deadLetterDisposition f r now d = (Ok (l, true), d') →
  settling r d'.
Proof.
  intros H E. unfold deadLetterDisposition in E. destruct (negb _).
  - peel E. injection E as _ Ho <-. eapply drop_failed; [apply FailRun_transition|exact H|by apply FailRun_moves| |exact E0|done].
    by intros y [_ ?].
  - do 3 peel E. injection E0 as _ <-. injection E1 as _ <-.
    destruct (planWriteOff _ _) as [|w]; [done|]. injection E2 as _ <-.
    peel E. assert (db_inv d0) as H0.
    { eapply tx_steps_inv; [exact H|].
      match type of E0 with ?m d = _ => assert (sequenced m) as Sm by sequence end. by eapply Sm. }
    peel E. injection E as _ Ho <-.
    eapply drop_failed; [apply FailRunRollup_transition|exact H0|by apply FailRunRollup_moves| |exact E1|done].
    by intros y [_ ?].
Qed.

Lemma poisonTx_settles r s onf summary payload now : settles r (poisonTx r s onf summary payload now).
Proof.
  apply settles_calm; [unfold poisonTx; calms|]. intros d a d' H Hc W _ E. unfold poisonTx in E.
  peel E. pose proof (on_ok_elim _ _ _ _ _ (PoisonDeadLetterStep_moves r s d H _ _ _) E0) as M.
  apply move_wound in M; [|terminal_facts|done].
  assert (db_inv d0) as H0
    by (eapply tx_steps_inv; [exact H|by eapply (transition_sequenced _ (PoisonDeadLetterStep_transition r s _ _ _))]).
  peel E. destruct (winds_disposition onf r now d0 _ _ H0 E1) as [S1 W1].
  destruct a1 as [l []]; cbn in E; [injection E as _ <-; by eapply disposition_failed|].
  peel E. injection E as _ <-. eapply wound_cancel_rollup; [|by apply W1|exact E2]. by eapply tx_steps_inv.
Qed.

Lemma healCancellingStep_settles r s c now : settles r (healCancellingStep r s c now).
Proof.
  apply settles_calm; [unfold healCancellingStep; calms|]. intros d a d' H Hc W _ E.
  unfold healCancellingStep in E. peel E.
  pose proof (on_ok_elim _ _ _ _ _ (TakeoverStep_moves r s d H _ _) E0) as M.
  assert (db_inv d0) as H0
    by (eapply tx_steps_inv; [exact H|by eapply (transition_sequenced _ (TakeoverStep_transition r s _ _))]).
  peel E. pose proof (on_ok_elim _ _ _ _ _ (CancelStep_moves r s d0 H0 _ _) E1) as M1.
  assert (db_inv d1) as H1
    by (eapply tx_steps_inv; [exact H0|by eapply (transition_sequenced _ (CancelStep_transition r s _ _))]).
  eapply wound_cancel_rollup; [exact H1| |exact E].
  destruct M as (x & x' & run & run' & C & _), M1 as (z & z' & run1 & run1' & C1 & [_ Hz] & _).
  intros t w Hw. destruct (decide (t = s)) as [->|Hne].
  - rewrite (ch_row' _ _ _ _ _ _ _ _ C1) in Hw. injection Hw as <-. by rewrite Hz.
  - rewrite (ch_rows _ _ _ _ _ _ _ _ C1), (ch_rows _ _ _ _ _ _ _ _ C) in Hw by congruence. by eapply W.
Qed.

Lemma decideTx_settles ev ap step run onReject req output now : step_RunID step = ap_RunID ap →
  settles (ap_RunID ap) (decideTx ev ap step run onReject req output now).
Proof.
  intros Er. apply settles_refused.
  { unfold decideTx, decideDeadLetter, decideSucceed. rewrite Er. calms. }
  intros d a d' H Hc E. unfold decideTx in E. peel E.
  by destruct (lock_cancelling _ _ _ _ _ Hc E0) as [-> ->].
Qed.

Lemma ExpireApprovalPark_settles i r s n t now : settles r (ExpireApprovalPark i r s n t now).
Proof.
  intros d a d' H E S. destruct (ExpireApprovalPark_split _ _ _ _ _ _ _ _ _ H E) as (run & p & d1 & Hrun & T1 & Q1 & E').
  assert (db_inv d1) as H1 by by eapply tx_step_inv.
  assert (settling r d1) as S1 by (eapply same_view_settling; [by apply quiet_view|done]).
  destruct (cancelling_dec r d1) as [Hc|Hn].
  - exfalso. unfold expire_tail in E'. apply bind_ok in E' as (ra & d2 & E1 & _).
    assert (cancelling r d) as (y & Hy & Hs) by (eapply same_view_cancelling; [by apply quiet_view|done]).
    rewrite Hrun in Hy. injection Hy as <-. unfold run_has in E1. rewrite Hs, bool_decide_eq_false_2 in E1 by done.
    peel E1. eapply refused_run; [by apply ParkRun_moves|exact Hc|exact E0|]. intros y st' [-> _]. done.
  - intros Hc'. destruct Hn. assert (calmly (expire_tail i r s n t now run p)) as C by (unfold expire_tail; calms).
    by apply (C d1 a d' H1 E').
Qed.
