(* ===== verification/CancelSpec.v ===== *)
(** The cancel request (runctl.go): on an open run it always succeeds, cancels
    every step that is not in flight, and finalizes the run when nothing runs. *)
From stdpp Require Import relations.
From S2P Require Import Prelude Retry StoreModel Transitions Effects StoreInv StoreSpecs EdgeSpecs StoreSystem StoreTheorems Config Dag Engine EngineInv Moves GraphInv FanOut WriteOff EngineGraph EngineTx Settle.
Open Scope Z_scope.

Definition sweepable (st : StepStatus) : bool := is_cancellable st || is_status StepStatusAwaitingHuman st.
Definition swept (st : StepStatus) : StepStatus := if sweepable st then StepStatusCancelled else st.

Section sweep.
Context (r : uuid) (now : time) (Hnow : now ≠ 0).

(** The rows named by [ids] are swept, the others and the run's status kept. *)
Record sweeps (ids : list string) (d d' : DB) : Prop := mkSweeps {
  sw_steps : tx_steps d d';
  sw_run : ∀ y, run_at d r = Some y → ∃ y', run_at d' r = Some y' ∧ run_Status y' = run_Status y;
  sw_in : ∀ s x, s ∈ ids → row d r s = Some x → ∃ x', row d' r s = Some x' ∧ step_Status x' = swept (step_Status x);
  sw_out : ∀ s, s ∉ ids → row d' r s = row d r s
}.

Lemma sweeps_nil d : sweeps [] d d.
Proof. split; [done|eauto|by intros ? ? ?%not_elem_of_nil|done]. Qed.

Lemma sweeps_cons s ids d1 d2 d3 : s ∉ ids → sweeps [s] d1 d2 → sweeps ids d2 d3 → sweeps (s :: ids) d1 d3.
Proof.
  intros Hn [S1 R1 I1 O1] [S2 R2 I2 O2]. split; [by etrans| | |].
  - intros y Hy. destruct (R1 y Hy) as (y1 & Hy1 & E1). destruct (R2 y1 Hy1) as (y2 & Hy2 & E2).
    exists y2. split; congruence.
  - intros t x [->|Ht]%elem_of_cons Hx.
    + destruct (I1 s x) as (x1 & Hx1 & E1); [by left|done|]. exists x1. by rewrite O2.
    + apply I2; [done|]. rewrite O1; [done|]. intros ->%list_elem_of_singleton. done.
  - intros t [Hne Ht]%not_elem_of_cons. rewrite O2, O1; [done| |done]. by intros ->%list_elem_of_singleton.
Qed.

(** One accepted cancel of the step. *)
Lemma sweeps_move {A} (m : Tx A) s x run g res e err from d : db_inv d → run_at d r = Some run →
  row d r s = Some x → transition m → guarded d run x m g res e err → g = true →
  on_ok (step_moves r s (move from StepStatusCancelled) run_kept d) (m d) → sweepable (step_Status x) = true →
  ∃ d', m d = (Ok res, d') ∧ sweeps [s] d d'.
Proof.
  intros H Hrun Hx T G Hg M Hs. destruct (guarded_accept _ _ _ _ _ _ _ _ G Hg) as [E _].
  eexists. split; [exact E|]. rewrite E in M. destruct M as (z & x' & y & y' & C & [_ Ex'] & Ey).
  split; [by eapply (transition_sequenced _ T)| | |].
  - intros w Hw. exists y'. split; [apply C|]. rewrite (rch_run _ _ _ _ _ (ch_run _ _ _ _ _ _ _ _ C)) in Hw. congruence.
  - intros t w ->%list_elem_of_singleton Hw. exists x'. split; [apply C|]. unfold swept.
    rewrite Hw in Hx. injection Hx as ->. by rewrite Hs.
  - intros t Ht. apply C. intros [= ->]. apply Ht. by left.
Qed.

Lemma sweep_step_spec x d : db_inv d → is_Some (run_at d r) → row d r (step_StepID x) = Some x →
  ∃ d', sweep_step r now x d = (Ok (if sweepable (step_Status x) then [step_StepID x] else []), d') ∧
    sweeps [step_StepID x] d d'.
Proof.
  intros H [run Hrun] Hx. set (s := step_StepID x) in *.
  assert (∀ {A} (m : Tx A) g res e err from, transition m → guarded d run x m g res e err → g = true →
    on_ok (step_moves r s (move from StepStatusCancelled) run_kept d) (m d) → sweepable (step_Status x) = true →
    ∃ d', (m ;; ret [s]) d = (Ok (if sweepable (step_Status x) then [s] else []), d') ∧ sweeps [s] d d') as K.
  { intros A m g res e err from T G Hg M Hs.
    destruct (sweeps_move m s x run g res e err from d H Hrun Hx T G Hg M Hs) as (d' & E & W).
    exists d'. unfold bind. rewrite E, Hs. done. }
  assert (sweepable (step_Status x) = false →
    ∃ d', (ret [] : Tx (list string)) d = (Ok (if sweepable (step_Status x) then [s] else []), d') ∧ sweeps [s] d d') as Kn.
  { intros Hs. exists d. rewrite Hs. split; [done|]. split; [done|eauto| |done].
    intros t w ->%list_elem_of_singleton Hw. exists w. rewrite Hx in Hw. injection Hw as <-. unfold swept. by rewrite Hs. }
  unfold sweep_step. fold s.
  destruct (step_Status x) eqn:Hs; try (by apply Kn);
    (eapply K; [first [apply CancelStep_transition|apply CancelAwaitingHumanStep_transition]|
       first [by apply CancelStep_guarded|by apply CancelAwaitingHumanStep_guarded]|
       unfold cancellable, has_status; by rewrite Hs|
       first [by apply CancelStep_moves|by apply CancelAwaitingHumanStep_moves]|done]).
Qed.

Lemma sweep_spec xs : ∀ d, db_inv d → is_Some (run_at d r) → NoDup (step_StepID <$> xs) →
  (∀ x, x ∈ xs → row d r (step_StepID x) = Some x) →
  ∃ d', sweep r now xs d = (Ok (step_StepID <$> List.filter (λ x, sweepable (step_Status x)) xs), d') ∧
    sweeps (step_StepID <$> xs) d d'.
Proof.
  induction xs as [|x xs IH]; intros d H Hr Hnd Hrow; [exists d; split; [done|apply sweeps_nil]|].
  cbn in Hnd. apply NoDup_cons in Hnd as [Hn Hnd].
  destruct (sweep_step_spec x d H Hr) as (d1 & E1 & W1); [apply Hrow; by left|].
  destruct (IH d1) as (d2 & E2 & W2).
  - eapply tx_steps_inv; [exact H|apply W1].
  - destruct Hr as [y Hy]. destruct (sw_run _ _ _ W1 y Hy) as (y' & Hy' & _). by exists y'.
  - done.
  - intros z Hz. rewrite (sw_out _ _ _ W1); [apply Hrow; by right|].
    intros E%list_elem_of_singleton. apply Hn. rewrite <-E. by apply list_elem_of_fmap_2.
  - exists d2. split; [|by eapply sweeps_cons].
    cbn [sweep]. unfold bind. rewrite E1, E2. cbn. by destruct (sweepable _).
Qed.
End sweep.

Section cancel.
Context (r : uuid) (reason : string) (now : time) (d : DB) (y : Run).
Context (H : db_inv d) (Hnow : now ≠ 0) (Hok : cancel_reason_ok reason = true).
Context (Hy : run_at d r = Some y).
Context (Hnf : ∀ s x, row d r s = Some x → step_Status x ≠ StepStatusFailed).

(** The ids the request cancels. *)
Definition sweep_ids : list string :=
  step_StepID <$> List.filter (λ x, sweepable (step_Status x)) (steps_of r d).
Definition none_running : Prop := ∀ s x, row d r s = Some x → step_Status x ≠ StepStatusRunning.

(** After the sweep, before the rollup. *)
Lemma cancel_swept : run_open y = true → ∃ run d1,
  CancelRun r reason now d = (Ok run, d1) ∧ ∃ d2, sweep r now (steps_of r d1) d1 = (Ok sweep_ids, d2) ∧
  tx_steps d d2 ∧ (∃ y2, run_at d2 r = Some y2 ∧ run_Status y2 = RunStatusCancelling) ∧
  (∀ s x, row d r s = Some x → ∃ x', row d2 r s = Some x' ∧ step_Status x' = swept (step_Status x)) ∧
  ∀ s, row d r s = None → row d2 r s = None.
Proof.
  intros Ho.
  destruct (guarded_accept _ _ _ _ _ _ _ _ (CancelRun_guarded d r y H Hy reason now Hnow Hok) Ho) as [E _].
  destruct (on_ok_elim _ _ _ _ _ (CancelRun_moves r d H reason now) E) as (y0 & y1 & C & Hsteps & _ & Es).
  eexists _, _. split; [exact E|]. match type of E with _ = (_, ?d1) => set (d1' := d1) in * end.
  pose proof (transition_sequenced _ (CancelRun_transition r reason now) d _ _ H E) as S1.
  assert (db_inv d1') as H1 by by eapply tx_steps_inv.
  destruct (sweep_spec r now Hnow (steps_of r d1') d1' H1) as (d2 & E2 & W).
  - by exists y1; apply C.
  - by apply steps_of_ids.
  - intros x Hx. by apply steps_of_row.
  - exists d2. assert (steps_of r d1' = steps_of r d) as Eo by (unfold steps_of; by rewrite Hsteps).
    unfold sweep_ids. rewrite <-Eo. split; [exact E2|].
    split_and!; [etrans; [exact S1|apply W]| | |].
    + destruct (sw_run _ _ _ _ W y1 (rch_run' _ _ _ _ _ C)) as (y2 & Hy2 & E'). exists y2. split; congruence.
    + intros s x Hx. assert (row d1' r s = Some x) as Hx1 by by (unfold row; rewrite Hsteps).
      apply (sw_in _ _ _ _ W s x); [|done]. destruct (row_key _ _ _ _ Hx1) as [Er <-].
      apply list_elem_of_fmap_2, elem_of_steps_of. split; [by eapply row_elem|done].
    + intros s Hn. rewrite (sw_out _ _ _ _ W); [by unfold row; rewrite Hsteps|].
      intros (x & -> & [Hx Er]%elem_of_steps_of)%list_elem_of_fmap.
      pose proof (row_run_steps r d1' x H1 Hx Er) as Hr. unfold row in Hr, Hn. rewrite Hsteps in Hr. congruence.
Qed.

Lemma cancelRunTx_spec : run_open y = true → ∃ run fin d',
  cancelRunTx r reason now d = (Ok (mkCancelResult run sweep_ids fin), d') ∧
  (∀ s x, row d r s = Some x → ∃ x', row d' r s = Some x' ∧ step_Status x' = swept (step_Status x)) ∧
  (∃ y', run_at d' r = Some y' ∧ run_Status y' = if fin then RunStatusCancelled else RunStatusCancelling) ∧
  (fin = true ↔ none_running).
Proof.
  intros Ho. destruct (cancel_swept Ho) as (run & d1 & E1 & d2 & E2 & S & (y2 & Hy2 & Es2) & Hsw & Hno).
  assert (db_inv d2) as H2 by by eapply tx_steps_inv.
  assert (all_accounted y2 = true ↔ none_running) as Hacc.
  { rewrite (accounted_guard d2 r y2 H2 Hy2). split.
    - intros Ht s x Hx Hr. destruct (Hsw s x Hx) as (x' & Hx' & E). rewrite Hr in E. cbn in E.
      destruct (row_key _ _ _ _ Hx') as [Er _]. specialize (Ht x' (row_elem _ _ _ _ Hx') Er). by rewrite E in Ht.
    - intros Hn x' Hin Er. pose proof (row_run_steps r d2 x' H2 Hin Er) as Hx'.
      destruct (row d r (step_StepID x')) as [x|] eqn:Hx; [|by rewrite Hno in Hx'].
      destruct (Hsw _ _ Hx) as (w & Hw & E). rewrite Hx' in Hw. injection Hw as <-. rewrite E.
      specialize (Hn _ _ Hx). specialize (Hnf _ _ Hx). by destruct (step_Status x). }
  set (g := run_has RunStatusCancelling y2 && all_accounted y2).
  assert (g = all_accounted y2) as Eg by (unfold g, run_has; by rewrite Es2).
  pose proof (drop_guarded d2 y2 _ (CancelRunRollup r now) _ _ _ _ (CancelRunRollup_guarded d2 r y2 H2 Hy2 now Hnow)
    eq_refl) as Ed. fold g in Ed. rewrite Eg in Ed.
  assert (∀ o d', drop_conflict (CancelRunRollup r now) d2 = (Ok o, d') → cancelRunTx r reason now d =
    (Ok (mkCancelResult run sweep_ids (match o with Some _ => true | None => false end)), d')) as K.
  { intros o d' E. unfold cancelRunTx, bind at 1. rewrite E1. unfold bind at 1, ListByRun, bind at 1, get, ret at 1.
    unfold bind at 1. rewrite E2. unfold bind at 1, attemptCancelRollup. by rewrite E. }
  destruct (all_accounted y2).
  - destruct (drop_cases _ _ d2 _ _ (CancelRunRollup_transition r now) H2 (CancelRunRollup_moves r d2 H2 now) Ed)
      as [(e & ? & _)|(b & _ & M & _)]; [done|]. pose proof (run_moves_graph _ _ _ _ r M) as G.
    destruct M as (z & z' & C & _ & _ & Ez).
    eexists run, true, _. split; [by apply (K _ _ Ed)|]. split_and!; [|exists z'; split; [apply C|done]|by rewrite <-Hacc].
    intros s x Hx. rewrite (sg_row _ _ _ G). by apply Hsw.
  - eexists run, false, d2. split; [by apply (K _ _ Ed)|]. split; [exact Hsw|]. split; [eauto|by rewrite <-Hacc].
Qed.
End cancel.

Lemma CancelRun_args r reason now d a d' : CancelRun r reason now d = (Ok a, d') →
  now ≠ 0 ∧ cancel_reason_ok reason = true.
Proof.
  unfold CancelRun. destruct (decide (now = 0)) as [->|Hnow]; [done|]. unfold bind at 1.
  rewrite now_ok by done. fold (cancel_reason_ok reason). unfold guard, bind at 1.
  by destruct (cancel_reason_ok reason).
Qed.

Lemma cancelRunTx_wound r reason now d a d' : db_inv d →
  (∀ s x, row d r s = Some x → step_Status x ≠ StepStatusFailed) →
  cancelRunTx r reason now d = (Ok a, d') → settling r d'.
Proof.
  intros H Hnf E. unfold cancelRunTx in E. peel E.
  destruct (CancelRun_args _ _ _ _ _ _ E0) as [Hnow Hok].
  destruct (on_ok_elim _ _ _ _ _ (CancelRun_moves r d H reason now) E0) as (y & y1 & C & _ & Ho & _).
  destruct (cancel_swept r reason now d y H Hnow Hok (rch_run _ _ _ _ _ C) Ho)
    as (run & d1 & E1 & d2 & E2 & S & _ & Hsw & Hno).
  rewrite E0 in E1. injection E1 as <- <-. peel E. injection E1 as <- <-. peel E. rewrite E2 in E1. injection E1 as <- <-.
  peel E. injection E as _ <-. eapply wound_cancel_rollup; [by eapply tx_steps_inv| |exact E1].
  intros s x' Hx'. destruct (row d r s) as [x|] eqn:Hx; [|by rewrite Hno in Hx'].
  destruct (Hsw s x Hx) as (w & Hw & Es). rewrite Hx' in Hw. injection Hw as <-. rewrite Es.
  specialize (Hnf s x Hx). by destruct (step_Status x).
Qed.

(** The only conflict of the request is its first transition's. *)
Lemma drop_no_conflict {A} (m : Tx A) d e d' : drop_conflict m d = (Fail e, d') → is_conflict e = false.
Proof.
  unfold drop_conflict, bind, attempt. destruct (m d) as [[a|e1] d1]; [done|].
  destruct (is_conflict e1) eqn:Hc; [done|]. by intros [= <- <-].
Qed.

Lemma cancelRunTx_conflict r reason now d e d' : db_inv d → cancelRunTx r reason now d = (Fail e, d') →
  is_conflict e = true → d' = d.
Proof.
  intros H E Hc. unfold cancelRunTx, bind at 1 in E.
  destruct (CancelRun r reason now d) as [[run|e1] d1] eqn:E1.
  - exfalso. destruct (CancelRun_args _ _ _ _ _ _ E1) as [Hnow Hok].
    destruct (on_ok_elim _ _ _ _ _ (CancelRun_moves r d H reason now) E1) as (y & y1 & C & _ & Ho & _).
    destruct (cancel_swept r reason now d y H Hnow Hok (rch_run _ _ _ _ _ C) Ho)
      as (run' & d1' & E1' & d2 & E2 & _). rewrite E1 in E1'. injection E1' as <- <-.
    unfold bind at 1, ListByRun, bind at 1, get, ret at 1, bind at 1 in E. rewrite E2 in E.
    unfold bind at 1, attemptCancelRollup in E.
    destruct (drop_conflict _ d2) as [[o|e2] d3] eqn:E3; [done|]. injection E as -> ->.
    by rewrite (drop_no_conflict _ _ _ _ E3) in Hc.
  - injection E as -> ->. pose proof (CancelRun_transition r reason now d H) as T. rewrite E1 in T.
    by inversion T; subst; [|congruence].
Qed.

Lemma healCancellingStep_conflict r s c now d e d' : db_inv d → healCancellingStep r s c now d = (Fail e, d') →
  is_conflict e = true → d' = d.
Proof.
  intros H E Hc. unfold healCancellingStep, bind at 1 in E.
  pose proof (TakeoverStep_transition r s c now d H) as T.
  destruct (TakeoverStep r s c now d) as [[x|e1] d1] eqn:E1.
  - exfalso. assert (db_inv d1) as H1.
    { eapply tx_steps_inv; [exact H|]. by eapply (transition_sequenced _ (TakeoverStep_transition r s c now)). }
    destruct (decide (now = 0)) as [->|Hnow]; [done|].
    destruct (on_ok_elim _ _ _ _ _ (TakeoverStep_moves r s d H c now) E1) as (z & z' & y & y' & C & [_ Ez] & _).
    destruct (guarded_accept _ _ _ _ _ _ _ _ (CancelStep_guarded d1 r s y' z' H1
      (rch_run' _ _ _ _ _ (ch_run _ _ _ _ _ _ _ _ C)) (ch_row' _ _ _ _ _ _ _ _ C)
      CancelReasonRunCancelled now Hnow ltac:(done))) as [E2 _].
    { unfold cancellable, has_status. by rewrite Ez. }
    unfold bind in E. rewrite E2 in E. unfold attemptCancelRollup in E.
    by rewrite (drop_no_conflict _ _ _ _ E) in Hc.
  - injection E as -> ->. by inversion T; subst; [|congruence].
Qed.
