(* ===== verification/Reconcile.v ===== *)
(** internal/engine: the reconciler (reconcile.go) over the scans of
    store/reconcile.go and queries/reconcile.sql, the wall-clock guard
    (guard.go) and the outbox drain (dispatch.go). *)
From stdpp Require Import sorting.
From S2P Require Import Prelude Retry StoreModel Transitions Config Dag Engine.
Open Scope Z_scope.

(** ** Scans *)

(** [ORDER BY key LIMIT n].  SQL leaves the order of rows with equal keys open;
    [merge_sort] is one of the orders it allows. *)
Definition key_le {A} (key : A → Z) (a b : A) : Prop := key a ≤ key b.
#[export] Instance key_le_dec {A} (key : A → Z) : RelDecision (key_le key).
Proof. intros a b. unfold key_le. apply _. Defined.
Definition order_by {A} (R : A → A → Prop) {RD : RelDecision R} (limit : Z) (l : list A) : list A :=
  take (Z.to_nat limit) (merge_sort R l).
(** [ORDER BY timeout_at, id]. *)
Definition approval_le (a b : Approval) : Prop :=
  let t x := default 0 (ap_TimeoutAt x) in t a < t b ∨ t a = t b ∧ (ap_ID a ≤ ap_ID b)%positive.
#[export] Instance approval_le_dec : RelDecision approval_le.
Proof. intros a b. unfold approval_le. apply _. Defined.

Definition run_in (st : RunStatus) (r : uuid) (d : DB) : bool :=
  existsb (λ y, is_run r y && bool_decide (run_Status y = st)) (runs d).
Definition has_outbox (r : uuid) (s : string) (d : DB) : bool :=
  existsb (λ o, bool_decide (ob_RunID o = r) && bool_decide (ob_StepID o = s)) (task_outbox d).

Record StepRef : Type := mkStepRef { ref_RunID : uuid; ref_StepID : string; ref_UpdatedAt : time }.
Record StaleRunningStep : Type := mkStaleRunning {
  sr_Ref : StepRef; sr_ClaimID : option uuid; sr_HasPendingOutbox : bool
}.

(** The rows a scan of run_steps selects, before their projection. *)
Definition stale_ready (before : time) (d : DB) (x : RunStep) : bool :=
  has_status StepStatusReady x && (step_UpdatedAt x <? before) &&
  run_in RunStatusRunning (step_RunID x) d && negb (has_outbox (step_RunID x) (step_StepID x) d).
Definition stale_running (st : RunStatus) (before : time) (d : DB) (x : RunStep) : bool :=
  has_status StepStatusRunning x && (step_UpdatedAt x <? before) && run_in st (step_RunID x) d.
Definition overdue_retrying (before : time) (d : DB) (x : RunStep) : bool :=
  has_status StepStatusRetrying x &&
  match step_NextAttemptAt x with Some t => t <? before | None => false end &&
  run_in RunStatusRunning (step_RunID x) d && negb (has_outbox (step_RunID x) (step_StepID x) d).

Definition ref_of (x : RunStep) : StepRef := mkStepRef (step_RunID x) (step_StepID x) (step_UpdatedAt x).
Definition stale_of (d : DB) (x : RunStep) : StaleRunningStep :=
  mkStaleRunning (ref_of x) (step_ClaimID x) (has_outbox (step_RunID x) (step_StepID x) d).

Definition ListStaleReadySteps (before : time) (limit : Z) : Tx (list StepRef) :=
  let! d := get in
  ret (ref_of <$> order_by (key_le step_UpdatedAt) limit (List.filter (stale_ready before d) (run_steps d))).
Definition ListStaleRunningSteps (before : time) (limit : Z) : Tx (list StaleRunningStep) :=
  let! d := get in
  ret (stale_of d <$>
    order_by (key_le step_UpdatedAt) limit (List.filter (stale_running RunStatusRunning before d) (run_steps d))).
Definition ListStaleRunningStepsInCancellingRuns (before : time) (limit : Z) : Tx (list StaleRunningStep) :=
  let! d := get in
  ret (stale_of d <$>
    order_by (key_le step_UpdatedAt) limit (List.filter (stale_running RunStatusCancelling before d) (run_steps d))).
(** (run, step, due time). *)
Definition ListOverdueRetryingSteps (before : time) (limit : Z) : Tx (list (uuid * string * time)) :=
  let! d := get in
  ret ((λ x, (step_RunID x, step_StepID x, default 0 (step_NextAttemptAt x))) <$>
    order_by (key_le (λ x, default 0 (step_NextAttemptAt x))) limit
      (List.filter (overdue_retrying before d) (run_steps d))).
Definition overdue_approval (before : time) (ap : Approval) : bool :=
  bool_decide (ap_Status ap = ApprovalStatusPending) &&
  match ap_ExpiredAt ap with None => true | Some _ => false end &&
  match ap_TimeoutAt ap with Some t => t <=? before | None => false end.
Definition ListOverdueApprovals (before : time) (limit : Z) : Tx (list (uuid * string)) :=
  let! d := get in
  ret ((λ ap, (ap_RunID ap, ap_StepID ap)) <$>
    order_by approval_le limit (List.filter (overdue_approval before) (approvals d))).

Record DeadlineExceededRun : Type := mkDeadlineExceeded { de_RunID : uuid; de_DeadlineAt : time; de_StartedAt : time }.
Definition deadline_exceeded (now : time) (y : Run) : bool :=
  match run_DeadlineAt y with Some t => t <? now | None => false end && run_open y.
Definition ListDeadlineExceededRuns (now : time) (limit : Z) : Tx (list DeadlineExceededRun) :=
  let! d := get in
  ret ((λ y, mkDeadlineExceeded (run_ID y) (default 0 (run_DeadlineAt y)) (default 0 (run_StartedAt y))) <$>
    order_by (key_le (λ y, default 0 (run_DeadlineAt y))) limit (List.filter (deadline_exceeded now) (runs d))).

(** The statuses the stalled-run scan counts as live. *)
Definition stall_live (st : StepStatus) : bool :=
  match st with
  | StepStatusPending | StepStatusReady | StepStatusRunning | StepStatusRetrying | StepStatusAwaitingHuman => true
  | _ => false
  end.
Definition stalled (d : DB) (y : Run) : bool :=
  bool_decide (run_Status y = RunStatusRunning) &&
    negb (existsb (λ x, of_run (run_ID y) x && stall_live (step_Status x)) (run_steps d)) ||
  bool_decide (run_Status y = RunStatusCancelling) &&
    negb (existsb (λ x, of_run (run_ID y) x && has_status StepStatusRunning x) (run_steps d)).
(** The runs table is in created_at order. *)
Definition ListStalledRuns (limit : Z) : Tx (list uuid) :=
  let! d := get in ret (run_ID <$> take (Z.to_nat limit) (List.filter (stalled d) (runs d))).

(** ** The wall-clock guard *)

(** [int64(math.Round(d.Seconds()))] of a duration in nanoseconds: to the nearest
    second, halves away from zero. *)
Definition roundSeconds (d : Z) : Z :=
  if 0 <=? d then (d + 500000000) / 1000000000 else - ((- d + 500000000) / 1000000000).

(** (current, cap) of deadlineGuardEvent; the zero time is no recorded start. *)
Definition deadlineGuardEvent (startedAt deadlineAt now : time) : Z * Z :=
  if startedAt =? 0 then (0, 0) else (roundSeconds (now - startedAt), roundSeconds (deadlineAt - startedAt)).
Definition recordDeadlineGuard (runID : uuid) (startedAt deadlineAt now : time) : Tx unit :=
  let ev := deadlineGuardEvent startedAt deadlineAt now in
  RecordGuardTripped runID "max_wall_clock" "" ev.1 ev.2 "seconds" "cancel" now.

(** Cancel an overdue run with its guard event; a typed conflict of the cancel
    is dropped.  Says whether the run was cancelled here. *)
Definition deadlineCancel (runID : uuid) (startedAt deadlineAt now : time) : Tx bool :=
  let! r := attempt (cancelRunTx runID RunCancelReasonDeadlineExceeded now) in
  match r with
  | Fail e => if is_conflict e then ret false else throw e
  | Ok _ => recordDeadlineGuard runID startedAt deadlineAt now ;; ret true
  end.

(** guardDeadline's decision: whether the claimed step must not execute. *)
Definition deadlineTripped (origin : ClaimOrigin) (now : time) : bool :=
  match DeadlineAt origin with None => false | Some t => negb (now <? t) end.

(** ** The sweep *)
Record ReconcilerConfig : Type := mkReconcilerConfig {
  ReadyStale : Z; RunningStale : Z; RetryStale : Z; Limit : Z
}.
Record ReconcileResult : Type := mkReconcileResult {
  Skipped : bool;
  Requeued : list StepRef;
  TakenOver : list StaleRunningStep;
  RetriesHealed : list (uuid * string * time);
  ApprovalsHealed : list (uuid * string);
  DeadlineCancelled : list uuid;
  CancelHealed : list StaleRunningStep;
  StalledRuns : list uuid;
  LimitHit : bool
}.

(** A heal loop: keep the entries whose heal says it was applied. *)
Fixpoint heal {A} (f : A → Tx bool) (l : list A) : Tx (list A) :=
  match l with
  | [] => ret []
  | a :: l' =>
      let! ok := f a in
      let! rest := heal f l' in
      ret (if ok : bool then a :: rest else rest)
  end.

(** A step without a claim is corrupt and skipped; a lost race is dropped. *)
Definition healRunning (now : time) (st : StaleRunningStep) : Tx bool :=
  let ref := sr_Ref st in
  match sr_ClaimID st with
  | None => ret false
  | Some c =>
      let! r := attempt (TakeoverStep (ref_RunID ref) (ref_StepID ref) c now) in
      match r with
      | Fail e => if is_conflict e then ret false else throw e
      | Ok _ =>
          (if sr_HasPendingOutbox st then ret tt
           else CreateOutboxTask (ref_RunID ref) (ref_StepID ref) OutboxReasonReconcileRunning noTrace) ;;
          ret true
      end
  end.
Definition healCancelling (now : time) (st : StaleRunningStep) : Tx bool :=
  let ref := sr_Ref st in
  match sr_ClaimID st with
  | None => ret false
  | Some c =>
      let! r := attempt (healCancellingStep (ref_RunID ref) (ref_StepID ref) c now) in
      match r with
      | Fail e => if is_conflict e then ret false else throw e
      | Ok _ => ret true
      end
  end.

Definition skipped_sweep : ReconcileResult := mkReconcileResult true [] [] [] [] [] [] [] false.

(** The transaction of ReconcileOnce; [locked] is the answer of the advisory
    lock. *)
Definition reconcileTx (cfg : ReconcilerConfig) (locked : bool) (now : time) : Tx ReconcileResult :=
  if negb locked then ret skipped_sweep
  else
    let limit := Limit cfg in
    let! stale := ListStaleReadySteps (now - ReadyStale cfg) limit in
    for_each stale (λ ref, CreateOutboxTask (ref_RunID ref) (ref_StepID ref) OutboxReasonReconcileReady noTrace) ;;
    let! staleRunning := ListStaleRunningSteps (now - RunningStale cfg) limit in
    let! takenOver := heal (healRunning now) staleRunning in
    let! overdue := ListOverdueRetryingSteps (now - RetryStale cfg) limit in
    for_each overdue (λ st, CreateOutboxTask st.1.1 st.1.2 OutboxReasonReconcileRetry noTrace) ;;
    let! overdueApprovals := ListOverdueApprovals (now - RetryStale cfg) limit in
    for_each overdueApprovals (λ ap, CreateOutboxTask ap.1 ap.2 OutboxReasonApprovalTimeout noTrace) ;;
    let! deadline := ListDeadlineExceededRuns now limit in
    let! cancelled := heal (λ run, deadlineCancel (de_RunID run) (de_StartedAt run) (de_DeadlineAt run) now) deadline in
    let! staleCancelling := ListStaleRunningStepsInCancellingRuns (now - RunningStale cfg) limit in
    let! cancelHealed := heal (healCancelling now) staleCancelling in
    let! stalledRuns := ListStalledRuns limit in
    let hit {A} (l : list A) := Z.of_nat (length l) =? limit in
    ret (mkReconcileResult false stale takenOver overdue overdueApprovals (de_RunID <$> cancelled) cancelHealed
      stalledRuns (hit stale || hit staleRunning || hit overdue || hit overdueApprovals || hit deadline
                   || hit staleCancelling || hit stalledRuns)).

(** ** The outbox drain *)

(** The rows of one pass: the oldest [batch] rows whose run exists.  The pass
    stops at the first row [enqueue] fails on; the rows before it are deleted.
    Returns the rows handed to the queue and whether all of them were taken. *)
Fixpoint send_until (enqueue : TaskOutbox → bool) (l : list TaskOutbox) : list TaskOutbox * bool :=
  match l with
  | [] => ([], true)
  | o :: l' =>
      if enqueue o then let '(sent, ok) := send_until enqueue l' in (o :: sent, ok) else ([], false)
  end.
Definition joins_run (d : DB) (o : TaskOutbox) : bool := existsb (is_run (ob_RunID o)) (runs d).

(** Delete the first [n] of the rows that join: they are the ids of the pass. *)
Fixpoint delete_first (d : DB) (n : nat) (l : list TaskOutbox) : list TaskOutbox :=
  match n, l with
  | O, _ => l
  | _, [] => []
  | S n', o :: l' => if joins_run d o then delete_first d n' l' else o :: delete_first d n l'
  end.
Definition drainTx (batch : Z) (enqueue : TaskOutbox → bool) : Tx (list TaskOutbox * bool) :=
  let! d := get in
  let tasks := take (Z.to_nat batch) (List.filter (joins_run d) (task_outbox d)) in
  let '(sent, ok) := send_until enqueue tasks in
  put (d <| task_outbox := delete_first d (length sent) (task_outbox d) |>) ;;
  ret (sent, ok).
