(* ===== verification/Upholds.v ===== *)
(** The invariant of the engine's databases, and the transactions outside the
    completion pipeline that keep it: cancellation, the reconciler's sweep, the
    outbox drain. *)
From stdpp Require Import relations sorting.
From S2P Require Import Prelude Retry StoreModel Transitions Effects StoreInv StoreSpecs EdgeSpecs StoreSystem StoreTheorems Config Dag GraphFacts ReadyFacts Instantiate DagProps Engine StoreProps EngineInv Moves GraphInv FanOut WriteOff EngineGraph EngineTx EngineStart Settle CancelSpec Reconcile.
Open Scope Z_scope.

(** ** The invariant *)
Record engine_inv (d : DB) : Prop := mkEngineInv {
  ei_db : db_inv d;
  ei_graph : ∀ r, graph_ok r d;
  ei_settling : ∀ r, settling r d
}.

Lemma empty_engine_inv : engine_inv empty_db.
Proof.
  split; [apply empty_inv| |].
  - intros r. right. split; [split; [split|]|].
    1: by intros e (?%not_elem_of_nil & _). 1-3: by intros s x ?. 
    all: try done.
    + by exists (λ _, O); intros e (?%not_elem_of_nil & _).
    + apply NoDup_nil_2.
    + by intros o ?%not_elem_of_nil.
  - by intros r (y & ? & _).
Qed.

(** [m] keeps the invariant when it commits. *)
Definition upholds {A} (m : Tx A) : Prop := ∀ d a d', engine_inv d → m d = (Ok a, d') → engine_inv d'.

(** A transaction on one run. *)
Lemma upholds_run r {A} (m : Tx A) : preserves r m → settles r m → upholds m.
Proof.
  intros P S d a d' [H G St] E. destruct (P d a d' H E) as (T & F & Hg). split; [by eapply tx_steps_inv| |].
  - intros r'. destruct (decide (r' = r)) as [->|Hne]; [by apply Hg|by eapply same_view_ok; [apply F|]].
  - intros r'. destruct (decide (r' = r)) as [->|Hne]; [by eapply S|].
    by eapply same_view_settling; [apply F|].
Qed.

Lemma quiet_engine_inv d d' : quiet d d' → db_inv d' → engine_inv d → engine_inv d'.
Proof.
  intros Q H' [H G S]. split; [done| |]; intros r.
  - eapply same_view_ok; [by apply quiet_view|done].
  - eapply same_view_settling; [by apply quiet_view|done].
Qed.
Lemma upholds_quiet {A} (m : Tx A) : sequenced m → quietly m → upholds m.
Proof.
  intros S Q d a d' I E. eapply quiet_engine_inv; [by eapply Q, E; apply I| |done].
  eapply tx_steps_inv; [apply I|]. by eapply S; [apply I|].
Qed.

Lemma no_failed r d s x : engine_inv d → (∀ y, run_at d r = Some y → cancel_phase (run_Status y) = false) →
  row d r s = Some x → step_Status x ≠ StepStatusFailed.
Proof.
  intros I Hn. destruct (ei_graph _ I r) as [(y & Hy & Hc)|[[G _] _]]; [by rewrite (Hn y Hy) in Hc|].
  apply (gc_failed _ _ _ _ G).
Qed.

Lemma cancelRunTx_upholds r reason now : upholds (cancelRunTx r reason now).
Proof.
  intros d a d' I E. pose proof (ei_db _ I) as H.
  destruct (cancelRunTx_preserves r reason now d a d' H E) as (T & F & Hg). split; [by eapply tx_steps_inv| |].
  - intros r'. destruct (decide (r' = r)) as [->|Hne]; [by apply Hg, I|by eapply same_view_ok; [apply F|apply I]].
  - intros r'. destruct (decide (r' = r)) as [->|Hne]; [|by eapply same_view_settling; [apply F|apply I]].
    eapply cancelRunTx_wound; [done| |exact E]. intros s x. apply no_failed; [done|].
    unfold cancelRunTx in E. peel E.
    destruct (on_ok_elim _ _ _ _ _ (CancelRun_moves r d H reason now) E0) as (y & y1 & C & _ & Ho & _).
    intros z Hz. rewrite (rch_run _ _ _ _ _ C) in Hz. injection Hz as <-.
    unfold run_open, run_has in Ho. by destruct (run_Status y).
Qed.

(** ** The sweep *)

(** A heal loop whose entries keep a side condition until their turn. *)
Lemma heal_upholds {A} (f : A → Tx bool) (P : A → DB → Prop) (J : DB → Prop) (l : list A) :
  (∀ a d b d', J d → P a d → f a d = (Ok b, d') → J d' ∧ ∀ a', P a' d → P a' d') →
  ∀ d res d', J d → (∀ a, a ∈ l → P a d) → heal f l d = (Ok res, d') → J d'.
Proof.
  intros Hf. induction l as [|a l IH]; intros d res d' HJ HP E; [by injection E as _ <-|].
  cbn [heal] in E. peel E. peel E. injection E as _ <-.
  destruct (Hf a d _ _ HJ (HP a ltac:(by left)) E0) as [J1 HP1].
  eapply IH; [exact J1| |exact E1]. intros a' Ha'. apply HP1, HP. by right.
Qed.

(** Away from a cancellation only the graph invariant is at stake. *)
Lemma calm_engine_inv r {A} (m : Tx A) d a d' : preserves r m → calmly m → engine_inv d → ¬ cancelling r d →
  m d = (Ok a, d') → engine_inv d' ∧ calm d d'.
Proof.
  intros P C I Hn E. destruct (P d a d' (ei_db _ I) E) as (T & F & Hg).
  destruct (C d a d' (ei_db _ I) E) as [_ Hc]. split; [|done]. split; [eapply tx_steps_inv; [apply I|done]| |].
  - intros r'. destruct (decide (r' = r)) as [->|Hne]; [by apply Hg, I|by eapply same_view_ok; [apply F|apply I]].
  - intros r'. destruct (decide (r' = r)) as [->|Hne]; [by intros ?%Hc|by eapply same_view_settling; [apply F|apply I]].
Qed.

Lemma takeover_preserves r s c now : preserves r (TakeoverStep r s c now).
Proof.
  eapply preserves_step; [apply TakeoverStep_transition|intros; by apply TakeoverStep_moves|].
  intros z st' [Hz ->]. by apply bool_decide_eq_true in Hz as ->.
Qed.

Lemma healRunning_upholds now st d b d' : engine_inv d → ¬ cancelling (ref_RunID (sr_Ref st)) d →
  healRunning now st d = (Ok b, d') → engine_inv d' ∧ calm d d'.
Proof.
  intros I Hn E. pose proof (ei_db _ I) as H. unfold healRunning in E. cbv zeta in E.
  destruct (sr_ClaimID st) as [c|]; [|by injection E as _ <-].
  set (r := ref_RunID (sr_Ref st)) in *. set (s := ref_StepID (sr_Ref st)) in *.
  pose proof (TakeoverStep_transition r s c now d H) as T.
  unfold bind at 1, attempt in E. destruct (TakeoverStep r s c now d) as [[x|e] d1] eqn:E1.
  2:{ destruct (is_conflict e) eqn:Hc; [|done]. injection E as _ <-. by inversion T; subst; [|congruence]. }
  destruct (calm_engine_inv r _ d x d1 (takeover_preserves r s c now) ltac:(calms) I Hn E1) as [I1 C1].
  match type of E with ?k d1 = _ => assert (calmly k) as Ck by calms;
    assert (sequenced k) as Sk by sequence; assert (quietly k) as Qk end.
  { apply quietly_bind; [sequence| |intros; apply quietly_ret].
    destruct (sr_HasPendingOutbox st); [apply quietly_ret|]. apply quietly_op. intros. apply CreateOutboxTask_quiet. }
  split; [by eapply (upholds_quiet _ Sk Qk)|]. etrans; [exact C1|]. by eapply (Ck d1); [apply I1|].
Qed.

Lemma healCancelling_upholds now st d b d' : engine_inv d → cancelled_run (ref_RunID (sr_Ref st)) d →
  healCancelling now st d = (Ok b, d') → engine_inv d' ∧ tx_steps d d'.
Proof.
  intros I Hc E. pose proof (ei_db _ I) as H. unfold healCancelling in E. cbv zeta in E.
  destruct (sr_ClaimID st) as [c|]; [|by injection E as _ <-].
  set (r := ref_RunID (sr_Ref st)) in *. set (s := ref_StepID (sr_Ref st)) in *.
  unfold bind, attempt in E. destruct (healCancellingStep r s c now d) as [[o|e] d1] eqn:E1.
  - injection E as _ <-. assert (framed r (healCancellingStep r s c now)) as Fm by (unfold healCancellingStep; frames).
    destruct (Fm d o d1 H E1) as [S F]. split; [|done]. split; [by eapply tx_steps_inv| |].
    + intros r'. destruct (decide (r' = r)) as [->|Hne]; [left; by eapply cancelled_stays|].
      by eapply same_view_ok; [apply F|apply I].
    + intros r'. destruct (decide (r' = r)) as [->|Hne]; [eapply healCancellingStep_settles; [done|done|apply I]|].
      by eapply same_view_settling; [apply F|apply I].
  - destruct (is_conflict e) eqn:Hce; [|done]. injection E as _ <-.
    by rewrite (healCancellingStep_conflict r s c now d e d1 H E1 Hce).
Qed.

Lemma deadlineCancel_upholds r st dl now : upholds (deadlineCancel r st dl now).
Proof.
  intros d b d' I E. unfold deadlineCancel, bind at 1, attempt in E.
  destruct (cancelRunTx _ _ _ d) as [[a|e] d1] eqn:E1.
  - assert (engine_inv d1) as I1 by by eapply cancelRunTx_upholds.
    eapply (upholds_quiet (recordDeadlineGuard r st dl now ;; ret true)); [| |exact I1|exact E].
    + apply sequenced_bind; [apply sequenced_record|intros; apply sequenced_ret].
    + apply quietly_bind; [apply sequenced_record|apply record_quiet|intros; apply quietly_ret].
  - destruct (is_conflict e) eqn:Hc; [|done]. injection E as _ <-.
    by rewrite (cancelRunTx_conflict _ _ _ _ _ _ (ei_db _ I) E1 Hc).
Qed.

(** ** What the scans select *)
Lemma order_by_elem {A} (R : A → A → Prop) {RD : RelDecision R} n (l : list A) x : x ∈ order_by R n l → x ∈ l.
Proof.
  unfold order_by. intros (i & Hi & _)%elem_of_take. apply list_elem_of_lookup_2 in Hi.
  by rewrite merge_sort_Permutation in Hi.
Qed.

Lemma run_in_at st r d : db_inv d → run_in st r d = true → ∃ y, run_at d r = Some y ∧ run_Status y = st.
Proof.
  intros H (y & Hy%list_elem_of_In & [Hr%bool_decide_eq_true Hs%bool_decide_eq_true]%andb_prop)%existsb_exists.
  exists y. split; [|done]. subst r. unfold run_at. apply (find_key run_ID is_run is_run_key); [apply H|done].
Qed.

Lemma scanned_run rst n before d st : db_inv d →
  st ∈ (stale_of d <$> order_by (key_le step_UpdatedAt) n (List.filter (stale_running rst before d) (run_steps d))) →
  ∃ y, run_at d (ref_RunID (sr_Ref st)) = Some y ∧ run_Status y = rst.
Proof.
  intros H (x & -> & Hx%order_by_elem)%list_elem_of_fmap.
  apply list_elem_of_In, filter_In in Hx as [_ [_ Hr]%andb_prop]. by apply run_in_at.
Qed.

Lemma outbox_upholds {A} (l : list A) (f : A → Tx unit) : (∀ a, ∃ r s reason tr, f a = CreateOutboxTask r s reason tr) →
  upholds (for_each l f).
Proof.
  intros Hf. apply upholds_quiet.
  - apply sequenced_for_each. intros a _. destruct (Hf a) as (r & s & reason & tr & ->). sequence.
  - apply quietly_for_each; intros a; destruct (Hf a) as (r & s & reason & tr & ->); [sequence|].
    apply quietly_op. intros. apply CreateOutboxTask_quiet.
Qed.
Ltac outbox := eapply outbox_upholds; [intros; by eexists _, _, _, _| |eassumption]; done.

Lemma reconcileTx_upholds cfg locked now : upholds (reconcileTx cfg locked now).
Proof.
  intros d0 a d' I0 E. unfold reconcileTx in E. destruct (negb locked); [by injection E as _ <-|]. cbv zeta in E.
  apply bind_ok in E as (stale & d & E1 & E). injection E1 as _ <-.
  apply bind_ok in E as (u & d1 & E1 & E). assert (engine_inv d1) as I1 by outbox.
  apply bind_ok in E as (sr & d2 & E2 & E). injection E2 as <- <-.
  apply bind_ok in E as (tk & d2 & E2 & E).
  assert (engine_inv d2) as I2.
  { eapply (heal_upholds _ (λ st d, ¬ cancelling (ref_RunID (sr_Ref st)) d) engine_inv); [| exact I1| |exact E2].
    - intros st e b e' Ie Hn Eh. destruct (healRunning_upholds now st e b e' Ie Hn Eh) as [? C].
      split; [done|]. intros st' Hn' Hc. by apply Hn', C.
    - intros st Hst (y & Hy & Hs). destruct (scanned_run _ _ _ _ _ (ei_db _ I1) Hst) as (z & Hz & Ez). congruence. }
  apply bind_ok in E as (od & d3 & E3 & E). injection E3 as _ <-.
  apply bind_ok in E as (u2 & d3 & E3 & E). assert (engine_inv d3) as I3 by outbox.
  apply bind_ok in E as (oa & d4 & E4 & E). injection E4 as _ <-.
  apply bind_ok in E as (u3 & d4 & E4 & E). assert (engine_inv d4) as I4 by outbox.
  apply bind_ok in E as (dl & d5 & E5 & E). injection E5 as _ <-.
  apply bind_ok in E as (cd & d5 & E5 & E).
  assert (engine_inv d5) as I5.
  { eapply (heal_upholds _ (λ _ _, True) engine_inv); [|exact I4|done|exact E5].
    intros st e b e' Ie _ Eh. split; [exact (deadlineCancel_upholds _ _ _ _ e b e' Ie Eh)|done]. }
  apply bind_ok in E as (sc & d6 & E6 & E). injection E6 as <- <-.
  apply bind_ok in E as (ch & d6 & E6 & E).
  assert (engine_inv d6) as I6.
  { eapply (heal_upholds _ (λ st d, cancelled_run (ref_RunID (sr_Ref st)) d) engine_inv); [|exact I5| |exact E6].
    - intros st e b e' Ie Hc Eh. destruct (healCancelling_upholds now st e b e' Ie Hc Eh) as [? S].
      split; [done|]. intros st' Hc'. eapply cancelled_stays; [apply Ie|done|done].
    - intros st Hst. destruct (scanned_run _ _ _ _ _ (ei_db _ I5) Hst) as (z & Hz & Ez).
      exists z. split; [done|]. by rewrite Ez. }
  apply bind_ok in E as (sl & d7 & E7 & E). injection E7 as _ <-. by injection E as _ <-.
Qed.

(** ** The outbox drain *)
Lemma outbox_inv d l : db_inv d → db_inv (d <| task_outbox := l |>).
Proof. intros H. split; try apply H. intros y Hy. destruct (inv_run _ H y Hy). by split. Qed.

Lemma drainTx_upholds batch enq : upholds (drainTx batch enq).
Proof.
  intros d a d' I E. unfold drainTx in E. apply bind_ok in E as (d0 & d1 & E0 & E). injection E0 as <- <-.
  destruct (send_until _ _) as [sent ok]. injection E as _ <-.
  eapply quiet_engine_inv; [|apply outbox_inv, I|exact I]. split; [done|done|eauto|done].
Qed.
