(* ===== verification/ExpandTx.v ===== *)
(** The completion that expands the graph: internal/engine/complete.go, the branch
    of [completeSuccess] that carries a plan, with the routing of a rejected one.
    When the delta keeps the graph acyclic, the completion keeps the invariant of
    the engine. *)
From stdpp Require Import relations.
From S2P Require Import Prelude Issues GoStd Retry StoreModel Config Template Transitions Effects StoreInv StoreSpecs EdgeSpecs StoreSystem StoreTheorems Dag GraphFacts Validate ValidateGraph Expansion Instantiate Expand DagProps ValidateFacts ExpansionFacts Engine EngineInv Moves GraphInv FanOut WriteOff EngineGraph EngineTx EngineStart ExpandSpec ExpandGraph Settle CancelSpec Reconcile Upholds.
Open Scope Z_scope.

(** The plan of a completion and where it comes from. *)
Record Expanding : Type := mkExpanding {
  ex_Kind : string;
  ex_Plan : PlanOutput;
  ex_MaxAddedSteps : Z;
  ex_DepthOverride : option Z
}.
Definition expand_args (c : Completion) (x : Expanding) (now : time) : ExpandRunArgs :=
  mkExpandRunArgs (co_RunID c) (mkExpansionOrigin (ex_Kind x) (co_StepID c) 0) (ex_Plan x) (ex_MaxAddedSteps x)
    (co_Trace c) (ex_DepthOverride x) now.

(** guard.go. *)
Definition capBreachUnit (limit : string) : string :=
  if bool_decide (limit = "max_expansions") then "expansions"
  else if bool_decide (limit = "max_depth") then "depth" else "steps".
Definition recordGuardsTx (runID : uuid) (stepID : string) (breaches : list CapBreach) (now : time) : Tx unit :=
  for_each breaches (λ b,
    RecordGuardTripped runID (cb_Limit b) stepID (cb_Current b) (cb_Cap b) (capBreachUnit (cb_Limit b)) "fail" now).
Definition recordExpansionCapGuards (runID : uuid) (stepID : string) (breaches : list CapBreach) (now : time) (d : DB) : DB :=
  if bool_decide (length breaches = 0%nat) then d else (WithTx (recordGuardsTx runID stepID breaches now) d).1.2.

Section expanding.
Context (evalWhen : string → option json → option json → option bool).
Context (retryDelay : ResolvedRetryPolicy → Z → option Z).
Context (CompileExpr : string → exprResult) (textTemplateParses : list outSeg → bool).

(** The transaction of completeSuccess with a plan: the delta lands after the
    claim-fenced success and before the fan-out. *)
Definition expandingSuccessTx (c : Completion) (x : Expanding) (params : option json) (now : time) : Tx (option Run) :=
  let! status := LockRunStatus (co_RunID c) now in
  let cancelling := bool_decide (status = RunStatusCancelling) in
  fence (SucceedStep (co_RunID c) (co_StepID c) (co_ClaimID c) (co_Output c) (co_Usage c) (co_Verdict c)
           (co_Repair c) now) ;;
  applyCostRows (co_Costs c) ;;
  (if cancelling then ret tt
   else
     ExpandRun CompileExpr textTemplateParses (expand_args c x now) ;;
     when_some (co_LoopExhausted c) (λ ev, RecordLoopExhausted (co_RunID c) ev now) ;;
     when_some (co_LoopNoProgress c) (λ ev, RecordLoopNoProgress (co_RunID c) ev now) ;;
     advance_successors evalWhen (co_RunID c) (co_StepID c) (co_StepType c) (co_Output c) params (co_Trace c) now ;;
     ret tt) ;;
  attemptRunRollup (co_RunID c) now.

(** routeMapRejection and routeExpansionRejection: a crossed run guard is
    recorded and is permanent, and so is every rejection of a delta the engine
    itself generated; a planner's other rejections are a failed validation.
    [invalid] is the validation failure's payload, budget, feedback and report;
    [priced] the cost rows of the attempt without those of its judges, all that a
    failure ledgers. *)
Record Revalidation : Type := mkRevalidation {
  rv_Payload : json;
  rv_MaxAttempts : option Z;
  rv_Feedback : Z → option json;
  rv_Report : Z → list StepAttempt → json;
  rv_Verdict : option json
}.
Definition error_issues (v : ExpansionVerdict) : list ValidationIssue :=
  List.filter (λ i, bool_decide (issue_Severity i = SeverityError)) (xv_Issues v).
Context (rejectionText : string → ExpansionVerdict → string) (errText : Err → string).

Definition permanent_payload (msg : string) : json :=
  JObj [("class", JStr (class_text ClassPermanent)); ("message", JStr msg)].
Definition routeMapRejection (c : Completion) (priced : list AttemptCostArgs) (v : ExpansionVerdict) (collect : bool)
    (params : option json) (now : time) (d : DB) : Handled * DB * list Event :=
  let reason := if CapExceeded v then "expansion_cap_exceeded"
                else if bool_decide (co_StepType c = StepMap) then "map_expansion_invalid" else "loop_expansion_invalid" in
  let d1 := if CapExceeded v then recordExpansionCapGuards (co_RunID c) (co_StepID c) (xv_Breaches v) now d else d in
  completeFailure evalWhen retryDelay (c <| co_Costs := priced |>) ClassPermanent
    (permanent_payload (rejectionText reason v)) collect params now d1.
Definition routeExpansionRejection (c : Completion) (priced : list AttemptCostArgs) (v : ExpansionVerdict)
    (invalid : Revalidation) (collect : bool) (params : option json) (now : time) (d : DB) : Handled * DB * list Event :=
  if CapExceeded v then
    completeFailure evalWhen retryDelay (c <| co_Costs := priced |>) ClassPermanent
      (permanent_payload (rejectionText "expansion_cap_exceeded" v)) collect params now (recordExpansionCapGuards (co_RunID c) (co_StepID c) (xv_Breaches v) now d)
  else
    handle_tx (completeValidationFailureTx (c <| co_Verdict := rv_Verdict invalid |>) (rv_Payload invalid)
                 (rv_MaxAttempts invalid) (rv_Feedback invalid) (rv_Report invalid) (zlen (error_issues v)) now) d.

Definition completeExpanding (c : Completion) (x : Expanding) (priced : list AttemptCostArgs)
    (invalid : ExpansionVerdict → Revalidation) (collect : bool) (now now' : time) (d : DB) : Handled * DB * list Event :=
  match find (is_run (co_RunID c)) (runs d) with
  | None => (Redeliver ErrNotFound, d, [])
  | Some run =>
      let failed := c <| co_Output := None |> <| co_Usage := None |> <| co_Costs := [] |> in
      let permanent e :=
        completeFailure evalWhen retryDelay failed ClassPermanent (permanent_payload (errText e)) collect (run_Params run) now' d in
      match WithTx (expandingSuccessTx c x (run_Params run) now) d with
      | (Ok _, d', evs) => (Ack, d', evs)
      | (Fail (ErrExpansionRejected v), _, _) =>
          if bool_decide (ex_Kind x = OriginMap) || bool_decide (ex_Kind x = OriginLoop)
          then routeMapRejection c priced v collect (run_Params run) now' d
          else routeExpansionRejection c priced v (invalid v) collect (run_Params run) now' d
      | (Fail (ErrEval o), _, _) => permanent (ErrEval o)
      | (Fail (ErrDecode s), _, _) => permanent (ErrDecode s)
      | (Fail e, _, _) => (Redeliver e, d, [])
      end
  end.
End expanding.

Lemma recordGuardsTx_upholds r s breaches now : upholds (recordGuardsTx r s breaches now).
Proof.
  unfold recordGuardsTx. apply upholds_quiet; [apply sequenced_for_each; intros; apply sequenced_record|].
  apply quietly_for_each; intros; [apply sequenced_record|apply record_quiet].
Qed.

(** ** Deltas that keep the graph *)

Definition run_rel (r : uuid) (d : DB) (a b : string) : Prop :=
  ∃ e, edge_of r d e ∧ edge_FromStep e = a ∧ edge_ToStep e = b.

(** The joins of the delta decode, and it enters no step that a dead-lettered one
    has doomed.  The validator checks neither: the first is the decoder's (or the
    generator's) guarantee, the second an assumption on plans. *)
Record spliceable (r : uuid) (plan : PlanOutput) (d : DB) : Prop := mkSpliceable {
  sp_joins : forallb join_config_ok (po_Steps plan) = true;
  sp_clear : ∀ e, e ∈ po_Edges plan → IsLoop e = false → ¬ doomed r d (To e)
}.

(** No step the delta enters leads to one that it leaves. *)
Definition detourless (r : uuid) (plan : PlanOutput) (d : DB) : Prop :=
  ∀ e e', e ∈ po_Edges plan → e' ∈ po_Edges plan → IsLoop e = false → IsLoop e' = false →
    is_Some (row d r (To e)) → is_Some (row d r (From e')) → ¬ rtc (run_rel r d) (To e) (From e').

Lemma detourless_safe args d run origin : db_inv d → detourless (er_RunID args) (er_Plan args) d →
  splice_safe (input_of args d run origin).
Proof.
  intros H S e e' He He' Hl Hl' Xt Xf Hr. rewrite (existing_row args d run origin H) in Xt, Xf.
  apply (S e e' He He' Hl Hl' Xt Xf). eapply rtc_subrel, Hr. clear.
  intros a b (ed & (x & -> & Hx)%list_elem_of_fmap & Hl & <- & <-). cbn.
  unfold edges_of in Hx. rewrite list_elem_of_In, filter_In, <-list_elem_of_In, bool_decide_eq_true in Hx.
  exists x. split; [|done]. destruct Hx. split_and!; [done|done|]. unfold IsLoop in Hl. cbn in Hl.
  by destruct (edge_EdgeType x).
Qed.

(** What a delta may splice does not change when its origin finishes. *)
Lemma spliceable_same r plan d d' : same_graph r d d' → spliceable r plan d → spliceable r plan d'.
Proof.
  intros G S. assert (same_graph r d' d) as G'.
  { split; [by intros s; rewrite (sg_row _ _ _ G)|]. intros e Er. by rewrite (sg_edge _ _ _ G e Er). }
  split; [apply S|]. intros e He Hl Hd. apply (sp_clear _ _ _ S e He Hl). by eapply same_graph_doomed.
Qed.

Lemma spliceable_finish r s P Q plan d d' : step_moves r s P Q d d' → (∀ x st', P x st' → absorbing st' = true) →
  spliceable r plan d → spliceable r plan d'.
Proof.
  intros (x & x' & run & run' & C & HP & _) Ha S. apply Ha in HP.
  assert (∀ e, edge_of r d' e ↔ edge_of r d e) as Ee.
  { intros e. unfold edge_of. by rewrite (rch_edges _ _ _ _ _ (ch_run _ _ _ _ _ _ _ _ C)). }
  assert (∀ t y, row d' r t = Some y → t = s ∧ y = x' ∨ row d r t = Some y) as Hrow.
  { intros t y Hy. destruct (decide (t = s)) as [->|Hne].
    - left. rewrite (ch_row' _ _ _ _ _ _ _ _ C) in Hy. by injection Hy.
    - right. rewrite <-(ch_rows _ _ _ _ _ _ _ _ C); [done|congruence]. }
  split; [apply S|]. intros e He Hl Hd. apply (sp_clear _ _ _ S e He Hl). revert Hd. apply doomed_mono.
    + intros t y _ [[_ ->]|Hy]%Hrow Hs; [by rewrite Hs in HP|eauto].
    + intros t y _ [[_ ->]|Hy]%Hrow Hw; [by destruct (step_Status x')|]. exists y. split; [done|]. by right.
    + intros z Hz _ _. by apply Ee.
    + intros z Hz _ _. by apply Ee.
Qed.

(** ** Landing a delta *)

Section landing.
Context (CompileExpr : string → exprResult) (textTemplateParses : list outSeg → bool).
Context (args : ExpandRunArgs).
Abbreviation r := (er_RunID args).
Abbreviation o := (xo_StepID (er_Origin args)).

Lemma announce_delta_quiet d run origin : quietly (announce_delta args d run origin).
Proof.
  unfold announce_delta. apply quietly_bind; [sequence|apply quietly_op; intros; by apply appendEvent_quiet|intros].
  apply quietly_bind; [sequence| |intros].
  { apply quietly_for_each; intros; [sequence|apply quietly_op; intros; by apply appendEvent_quiet]. }
  apply quietly_bind; [sequence| |intros; apply quietly_ret].
  apply quietly_for_each; intros; [sequence|apply quietly_op; intros; apply CreateOutboxTask_quiet].
Qed.

Lemma spliced_run_at d run origin r' : run_at d r = Some run →
  run_at (spliced args d run origin) r' = if bool_decide (r' = r) then Some (grow args run) else run_at d r'.
Proof.
  intros Hrun. unfold run_at. cbn. case_bool_decide as E.
  - subst r'. rewrite (find_set_row run_ID is_run is_run_key) by done. unfold run_at in Hrun. by rewrite Hrun.
  - by rewrite (find_set_row_ne run_ID is_run is_run_key).
Qed.

Lemma spliced_frame d run origin : db_inv d → expandable CompileExpr textTemplateParses args d run origin →
  frame r d (spliced args d run origin).
Proof.
  intros H X r' Hne. split; [split|].
  - intros s. by eapply spliced_row_other.
  - intros e Er. cbn. rewrite elem_of_app. split; [|by left]. intros [?|He]; [done|].
    apply (new_edge_spec args d run (xb_run _ _ _ _ _ _ X)) in He as (i & ed & _ & ->). done.
  - unfold run_stat. rewrite (spliced_run_at d run origin r' (xb_run _ _ _ _ _ _ X)). by rewrite bool_decide_eq_false_2.
Qed.
Lemma spliced_stat d run origin : run_at d r = Some run → run_stat (spliced args d run origin) r = run_stat d r.
Proof.
  intros Hrun. unfold run_stat. rewrite (spliced_run_at d run origin r Hrun), bool_decide_eq_true_2 by done. by rewrite Hrun.
Qed.

(** The run was open, nothing else moved, and the fan-out of the origin finds the
    graph it expects. *)
Lemma ExpandRun_finished d res d' x : db_inv d → finished r o d → row d r o = Some x → absorbing (step_Status x) = true →
  spliceable r (er_Plan args) d → ExpandRun CompileExpr textTemplateParses args d = (Ok res, d') →
  db_inv d' ∧ finished r o d' ∧ frame r d d' ∧ run_stat d' r = run_stat d r ∧
  ∃ y, run_at d r = Some y ∧ (run_Status y = RunStatusRunning ∨ run_Status y = RunStatusParked).
Proof.
  intros H [C O R] Hx Ha S E.
  destruct (ExpandRun_inv _ _ args d res d' H E) as (run & origin & X & E' & H1 & H').
  pose proof (announce_delta_quiet d run origin _ _ _ H1 E') as Q.
  pose proof (xb_origin _ _ _ _ _ _ X) as Ho. rewrite Hx in Ho. injection Ho as ->.
  split_and!; [done| | | |].
  - eapply quiet_finished; [exact Q|]. split.
    + eapply spliced_core; [done|exact X|done|done|apply S].
    + eapply spliced_off; [exact X|done|apply S].
    + rewrite (spliced_run_at d run origin r (xb_run _ _ _ _ _ _ X)), bool_decide_eq_true_2 by done. eauto.
  - etrans; [by eapply spliced_frame|by apply quiet_frame].
  - rewrite (quiet_stat _ _ _ Q). by apply spliced_stat, X.
  - exists run. split; apply X.
Qed.
End landing.

(** ** The completion *)

Lemma rest_upholds ev c params now d0 d a d' (m : Tx (option Run)) :
  m = ((when_some (co_LoopExhausted c) (λ ev, RecordLoopExhausted (co_RunID c) ev now) ;;
        when_some (co_LoopNoProgress c) (λ ev, RecordLoopNoProgress (co_RunID c) ev now) ;;
        advance_successors ev (co_RunID c) (co_StepID c) (co_StepType c) (co_Output c) params (co_Trace c) now ;;
        ret tt) ;;
       attemptRunRollup (co_RunID c) now) →
  engine_inv d0 → db_inv d → finished (co_RunID c) (co_StepID c) d → frame (co_RunID c) d0 d → ¬ cancelling (co_RunID c) d →
  m d = (Ok a, d') → engine_inv d'.
Proof.
  intros Em I H F Fr Hn E.
  assert (framed (co_RunID c) m) as Fm by (subst m; frames).
  assert (calmly m) as Cm by (subst m; calms).
  destruct (Fm d a d' H E) as [S F']. destruct (Cm d a d' H E) as [_ Hc].
  assert (frame (co_RunID c) d0 d') as Fr' by by etrans.
  assert (graph_ok (co_RunID c) d') as Hg.
  { subst m. peel E. peel E0.
    destruct (quiet_fin _ _ _ _ _ _ (sequenced_when _ _ (λ ev, sequenced_record _ (LoopExhaustedEv ev) _))
      (when_some_quiet _ _ (λ ev, record_quiet _ (LoopExhaustedEv ev) _)) H F E1) as [H3 F3].
    peel E0.
    destruct (quiet_fin _ _ _ _ _ _ (sequenced_when _ _ (λ ev, sequenced_record _ (LoopNoProgressEv ev) _))
      (when_some_quiet _ _ (λ ev, record_quiet _ (LoopNoProgressEv ev) _)) H3 F3 E2) as [H4 F4].
    peel E0. injection E0 as _ <-. by eapply advance_rollup. }
  split; [by eapply tx_steps_inv| |]; intros r'; destruct (decide (r' = co_RunID c)) as [->|Hne].
  - done.
  - eapply same_view_ok; [by apply Fr'|apply I].
  - by intros ?%Hc.
  - eapply same_view_settling; [by apply Fr'|apply I].
Qed.

Section completion.
Context (ev : string → option json → option json → option bool).
Context (CompileExpr : string → exprResult) (textTemplateParses : list outSeg → bool).
Context (c : Completion) (x : Expanding) (params : option json) (now : time).
Abbreviation r := (co_RunID c).
Abbreviation s := (co_StepID c).
Abbreviation tx := (expandingSuccessTx ev CompileExpr textTemplateParses c x params now).

(** A run being cancelled is not expanded: the completion is the plain one. *)
Lemma expanding_cancelling d : cancelling r d → tx d = completeSuccessTx ev c params now d.
Proof.
  intros (y & Hy & Hs). unfold expandingSuccessTx, completeSuccessTx, bind.
  destruct (LockRunStatus r now d) as [[st|e] d1] eqn:E; [|done].
  apply LockRunStatus_ok in E as (_ & z & Hz & ->). rewrite Hy in Hz. injection Hz as <-. by rewrite Hs.
Qed.

(** The state the delta lands in: the origin has succeeded, its costs are
    booked, and its out-edges await the fan-out. *)
Lemma succeed_costs d run' d0 u d1 : db_inv d →
  SucceedStep r s (co_ClaimID c) (co_Output c) (co_Usage c) (co_Verdict c) (co_Repair c) now d = (Ok run', d0) →
  applyCostRows (co_Costs c) d0 = (Ok u, d1) →
  db_inv d1 ∧ frame r d d1 ∧ run_stat d1 r = run_stat d r ∧
  (∃ z, row d1 r s = Some z ∧ absorbing (step_Status z) = true) ∧
  (good r d → finished r s d1) ∧ (spliceable r (ex_Plan x) d → spliceable r (ex_Plan x) d1).
Proof.
  intros H E0 E1. pose proof (on_ok_elim _ _ _ _ _ (SucceedStep_moves r s d H _ _ _ _ _ _) E0) as M.
  assert (∀ w st', move is_running StepStatusSucceeded w st' → active (step_Status w) = true ∧ absorbing st' = true) as HP
    by (intros w st' [Hw ->]; by apply bool_decide_eq_true in Hw as ->).
  assert (db_inv d0) as H0 by (eapply tx_steps_inv; [exact H|];
    by eapply (transition_sequenced _ (SucceedStep_transition _ _ _ _ _ _ _ _))).
  pose proof (applyCostRows_quiet _ _ _ _ H0 E1) as Q.
  pose proof M as (w & w' & run & run1 & C & [_ Ew] & Hr).
  pose proof (ch_run _ _ _ _ _ _ _ _ C) as R. split_and!.
  - eapply tx_steps_inv; [exact H0|by eapply sequenced_applyCostRows].
  - etrans; [by eapply changes_frame|by apply quiet_frame].
  - rewrite (quiet_stat _ _ _ Q). unfold run_stat. rewrite (rch_run' _ _ _ _ _ R), (rch_run _ _ _ _ _ R).
    cbn. by rewrite Hr, (rch_on_failure _ _ _ _ _ R).
  - exists w'. unfold row. rewrite (q_steps _ _ Q). split; [apply C|by rewrite Ew].
  - intros G. eapply quiet_finished; [exact Q|]. destruct (step_moves_finish r s _ _ d d0 H M HP G) as (C0 & O0 & _).
    split; [done|done|]. rewrite (rch_run' _ _ _ _ _ R). eauto.
  - intros S. eapply spliceable_same; [apply quiet_view, Q|].
    eapply spliceable_finish; [exact M| |done]. intros z st' Hz. by apply HP in Hz as [_ ?].
Qed.

(** It keeps the invariant of the engine. *)
Lemma expandingSuccessTx_upholds d a d' : engine_inv d → spliceable r (ex_Plan x) d → tx d = (Ok a, d') → engine_inv d'.
Proof.
  intros I S E. destruct (cancelling_dec r d) as [Hc|Hn].
  { rewrite expanding_cancelling in E by done.
    exact (upholds_run r _ (completeSuccessTx_preserves ev c params now) (completeSuccessTx_settles ev c params now) _ _ _ I E). }
  pose proof (ei_db _ I) as H. unfold expandingSuccessTx in E. peel E.
  apply LockRunStatus_ok in E0 as (-> & y & Hy & ->).
  rewrite bool_decide_eq_false_2 in E by (intros Hs; apply Hn; by exists y). peel E. apply fence_inv in E0.
  peel E. destruct (succeed_costs d _ _ _ _ H E0 E1) as (H1 & Fr1 & Hstat & (z & Hz & Hzs) & F1 & S1).
  peel E. peel E2. rename E3 into Eexp.
  assert (graph_ok r d) as [Hc|[G _]] by apply I.
  { exfalso. destruct (ExpandRun_inv _ _ _ _ _ _ H1 Eexp) as (run & origin & X & _).
    destruct (run_stat_row _ _ _ _ Hstat (xb_run _ _ _ _ _ _ X)) as (y1 & Hy1 & Es & _).
    destruct Hc as (y' & Hy' & Hp). cbn in Hy1. rewrite Hy1 in Hy'. injection Hy' as <-. rewrite <-Es in Hp.
    by destruct (xb_open _ _ _ _ _ _ X) as [Eo|Eo]; rewrite Eo in Hp. }
  destruct (ExpandRun_finished CompileExpr textTemplateParses (expand_args c x now) _ _ _ z H1 (F1 G) Hz Hzs (S1 S) Eexp)
    as (H2 & F2 & Fr2 & St2 & _).
  eapply (rest_upholds ev c params now d _ a d' _ eq_refl I H2 F2).
  - etrans; [exact Fr1|done].
  - intros (y2 & Hy2 & Es). apply Hn. cbn in St2. rewrite Hstat in St2.
    destruct (run_stat_row _ _ _ _ St2 Hy2) as (y' & Hy' & Ey & _). exists y'. split; [done|congruence].
  - unfold bind at 1. rewrite E2. exact E.
Qed.
End completion.
