(* ===== verification/Loop.v ===== *)
(** internal/engine/loop.go and expand.go, and the first half of [completeSuccess]
    (complete.go): what a completion adds to the graph.  A planner's plan is read
    from its output, a map's is generated from its body and its items, and the
    source of a marked loop edge iterates, exits or gives up.

    [snapshot] is the column runs.definition with its length in bytes; no
    transition writes it.  As in Engine, [evalWhen] decodes the output and
    compiles and evaluates an expression ([None]: an error), and error texts are
    parameters.  [digest] is the hex SHA-256 of the encoding of a decoded value. *)
From Stdlib Require Import QArith Ascii.
From stdpp Require Import pretty.
From S2P Require Import Prelude Issues GoStd Retry StoreModel Config Template Transitions Dag Validate ValidateGraph Codec Expansion Decode MapExpand Pointer Instantiate Expand Engine ExpandTx.
Open Scope Z_scope.

(** ** Numbers in ids *)

(** threadIteration (blackboard.go), which is loopIteration. *)
Definition threadIteration (stepID : string) : Z :=
  match Split stepID "#" with
  | _ :: (_ :: _) as l =>
      match Atoi (List.last l "") with Some n => if n <? 0 then 0 else n | None => 0 end
  | _ => 0
  end.
Definition loopIteration (stepID : string) : Z := threadIteration stepID.
Definition authoredStepID (stepID : string) : string :=
  match Cut stepID "#" with Some (a, _) => a | None => stepID end.
Definition loopInstanceID (authored : string) (iter : Z) : string :=
  if iter <=? 0 then authored else authored +:+ "#" +:+ pretty iter.
(** The depth of the authored source: loop instances are one below it. *)
Definition loopAuthoredDepth (env : Envelope) : Z :=
  if bool_decide (env_OriginKind env = Some OriginLoop) then env_Depth env - 1 else env_Depth env.
Definition findLoopEdge (def : Definition_) (authoredID : string) : option Edge :=
  find (λ e, IsLoop e && bool_decide (From e = authoredID)) (Edges def).

(** ** Loop decisions *)

Record LoopExhausted : Type := mkLoopExhausted {
  le_LoopSourceStep : string; le_LoopSourceInstance : string; le_BodyEntry : string; le_Iteration : Z;
  le_MaxIterations : Z; le_Condition : string; le_Policy : string; le_Action : string }.
Definition marshalLoopExhausted (ev : LoopExhausted) : json :=
  JObj [("loop_source_step", JStr (le_LoopSourceStep ev)); ("loop_source_instance", JStr (le_LoopSourceInstance ev));
        ("body_entry", JStr (le_BodyEntry ev)); ("iteration", JNum (le_Iteration ev));
        ("max_iterations", JNum (le_MaxIterations ev)); ("condition", JStr (le_Condition ev));
        ("policy", JStr (le_Policy ev)); ("action", JStr (le_Action ev))].
Record LoopNoProgress : Type := mkLoopNoProgress {
  ln_LoopSourceStep : string; ln_LoopSourceInstance : string; ln_ComparedStep : string; ln_Path : string; ln_Iteration : Z;
  ln_PrevInstance : string; ln_CurInstance : string; ln_Hash : string; ln_Policy : string; ln_Action : string }.
Definition marshalLoopNoProgress (ev : LoopNoProgress) : json :=
  JObj ([("loop_source_step", JStr (ln_LoopSourceStep ev)); ("loop_source_instance", JStr (ln_LoopSourceInstance ev));
         ("compared_step", JStr (ln_ComparedStep ev))] ++ omit_str "path" (ln_Path ev) ++
        [("iteration", JNum (ln_Iteration ev)); ("prev_instance", JStr (ln_PrevInstance ev));
         ("cur_instance", JStr (ln_CurInstance ev)); ("hash", JStr (ln_Hash ev));
         ("policy", JStr (ln_Policy ev)); ("action", JStr (ln_Action ev))]).

(** loopKind and loopOutcome. *)
Inductive loopOutcome : Type :=
| loopNone
| loopContinue (plan : PlanOutput)
| loopExit
| loopExhaust (event : LoopExhausted) (fail : bool)
| loopNoProgress (event : LoopNoProgress) (fail : bool).
Inductive LoopErr : Type :=
| LoopSnapshot (errs : list DecodeError)
| LoopCondition (authored : string)
| LoopGenerate (e : GenErr).

Definition loop_policy (p : string) : string := if bool_decide (p = "") then ExhaustProceed else p.
Definition loop_action (p : string) : string := if bool_decide (p = ExhaustFail) then "fail" else "proceed".

Section loops.
Context (evalWhen : string → option json → option json → option bool) (digest : json → string).

Definition outputHash (data : option json) (pointer : string) : option string :=
  match ResolvePointer data pointer with
  | None => None
  | Some v => if decodes_any v then Some (digest (canonical v)) else None
  end.

(** ListByIDs, keyed by the step id. *)
Definition outputs_of (d : DB) (runID : uuid) (need : list string) : gmap string (option json) :=
  list_to_map ((λ s, (step_StepID s, step_Output s)) <$>
    List.filter (λ s, bool_decide (step_RunID s = runID) && bool_decide (step_StepID s ∈ need)) (run_steps d)).

Definition checkNoProgress (d : DB) (runID : uuid) (stepID : string) (loopEdge : Edge) (np : NoProgressPolicy)
    (out : option json) (iteration : Z) : option LoopNoProgress :=
  let guardStep := if bool_decide (np_Step np = "") then From loopEdge else np_Step np in
  let path := np_Path np in
  let own := bool_decide (guardStep = From loopEdge) in
  let curInstance := if own then stepID else loopInstanceID guardStep iteration in
  let prevInstance := loopInstanceID guardStep (iteration - 1) in
  let outputs := outputs_of d runID (if own then [prevInstance] else [prevInstance; curInstance]) in
  let cur := match (if own then out else None) with
             | Some v => Some (Some v)
             | None => outputs !! curInstance
             end in
  match cur, outputs !! prevInstance with
  | Some curData, Some prevData =>
      match outputHash curData path, outputHash prevData path with
      | Some curHash, Some prevHash =>
          if bool_decide (curHash = prevHash) then
            let policy := loop_policy (np_Policy np) in
            Some (mkLoopNoProgress (authoredStepID stepID) stepID guardStep path iteration prevInstance curInstance
                    curHash policy (loop_action policy))
          else None
      | _, _ => None
      end
  | _, _ => None
  end.

Definition loopDecision (d : DB) (snapshot : Z * json) (runID : uuid) (stepID : string) (out params : option json)
    : LoopErr + loopOutcome :=
  match Decode snapshot.1 snapshot.2 with
  | inl errs => inl (LoopSnapshot errs)
  | inr doc =>
      let def := doc_Definition doc in
      let authored := authoredStepID stepID in
      match findLoopEdge def authored with
      | None => inr loopNone
      | Some loopEdge =>
          match evalWhen (Condition loopEdge) out params with
          | None => inl (LoopCondition authored)
          | Some false => inr loopExit
          | Some true =>
              let iteration := loopIteration stepID in
              if MaxIterations loopEdge <=? iteration then
                let policy := loop_policy (OnExhausted loopEdge) in
                inr (loopExhaust (mkLoopExhausted authored stepID (To loopEdge) iteration (MaxIterations loopEdge)
                                    (Condition loopEdge) policy (loop_action policy))
                       (bool_decide (policy = ExhaustFail)))
              else
                match (np ← NoProgress loopEdge;
                       if 1 <=? iteration
                       then (λ ev, (ev, bool_decide (np_Policy np = ExhaustFail))) <$>
                              checkNoProgress d runID stepID loopEdge np out iteration
                       else None) with
                | Some (ev, fail) => inr (loopNoProgress ev fail)
                | None =>
                    match GenerateLoopExpansion def loopEdge stepID (iteration + 1) with
                    | inl e => inl (LoopGenerate e)
                    | inr plan => inr (loopContinue plan)
                    end
                end
          end
      end
  end.
End loops.

(** ** Plans from outputs (expand.go) *)

Inductive PlanErr : Type := PlanEnvelope | PlanMissing | PlanDecode (errs : list DecodeError).
(** [size] is the length of an encoded value. *)
Definition planFromOutput (size : json → Z) (out : option json) : PlanErr + PlanOutput :=
  let o := default JNull out in
  if negb (unmarshals (TStruct [("json", TRaw)]) o) then inl PlanEnvelope
  else match members o !! "json" with
       | None => inl PlanMissing
       | Some j => match DecodePlanOutput (size j) j with inl errs => inl (PlanDecode errs) | inr p => inr p end
       end.

Inductive MapErr : Type :=
| MapBadConfig (errs : list DecodeError)
| MapNoConfig
| MapSnapshot (errs : list DecodeError)
| MapNoTemplate (body : string)
| MapOutput
| MapGenerate (e : GenErr).
Definition mapPlanFromOutput (config : option json) (stepID : string) (snapshot : Z * json) (out : option json)
    : MapErr + PlanOutput :=
  match DecodeStepConfig StepMap config with
  | inl errs => inl (MapBadConfig errs)
  | inr (Some (MapConfigC mc)) =>
      match Decode snapshot.1 snapshot.2 with
      | inl errs => inl (MapSnapshot errs)
      | inr doc =>
          match Templates (doc_Definition doc) !! map_Body mc with
          | Some (Some tmpl) =>
              let o := default JNull out in
              if negb (unmarshals (TStruct [("items", TSlice TRaw)]) o) then inl MapOutput
              else match GenerateMapExpansion (Some tmpl) (rd_list id (members o !! "items")) stepID with
                   | inl e => inl (MapGenerate e)
                   | inr plan => inr plan
                   end
          | _ => inl (MapNoTemplate (map_Body mc))
          end
      end
  | inr _ => inl MapNoConfig
  end.

Definition plannerMaxAddedSteps (config : option json) : Z :=
  match config with
  | None => 0
  | Some _ =>
      match DecodeStepConfig StepPlanner config with
      | inr (Some (PlannerConfigC pc)) => pn_MaxAddedSteps pc
      | _ => 0
      end
  end.

Definition isCollectErrorsInstance (d : DB) (runID : uuid) (env : Envelope) : bool :=
  match env_OriginStep env, env_OriginKind env with
  | Some origin, Some kind =>
      bool_decide (kind = OriginMap) &&
      match find (λ s, bool_decide (step_RunID s = runID) && bool_decide (step_StepID s = origin)) (run_steps d) with
      | None => false
      | Some row =>
          match DecodeStepConfig StepMap (step_Config row) with
          | inr (Some (MapConfigC mc)) => bool_decide (map_OnItemFailure mc = ItemCollectErrors)
          | _ => false
          end
      end
  | _, _ => false
  end.

(** ** completeSuccess up to its transaction *)

Inductive Prepared : Type :=
| PrepInvalidPlan (e : PlanErr)                 (** a failed validation *)
| PrepMapInvalid (e : MapErr)                   (** the rest: permanent *)
| PrepLoopInvalid (e : LoopErr)
| PrepExhausted (ev : LoopExhausted)
| PrepNoProgress (ev : LoopNoProgress)
| PrepReady (x : option Expanding) (exhausted noProgress : option json).

Section complete.
Context (evalWhen : string → option json → option json → option bool) (digest : json → string) (size : json → Z).

(** The plan of the completion: an empty plan of a planner is none, and a planner
    or a map is never a loop source. *)
Definition prepare (d : DB) (snapshot : Z * json) (c : Completion) (config params : option json) : Prepared :=
  if bool_decide (co_StepType c = StepPlanner) then
    match planFromOutput size (co_Output c) with
    | inl e => PrepInvalidPlan e
    | inr p =>
        PrepReady (if bool_decide (length (po_Steps p) = 0%nat) then None
                   else Some (mkExpanding OriginPlanner p (plannerMaxAddedSteps config) None)) None None
    end
  else if bool_decide (co_StepType c = StepMap) then
    match mapPlanFromOutput config (co_StepID c) snapshot (co_Output c) with
    | inl e => PrepMapInvalid e
    | inr p => PrepReady (Some (mkExpanding OriginMap p 0 None)) None None
    end
  else
    match loopDecision evalWhen digest d snapshot (co_RunID c) (co_StepID c) (co_Output c) params with
    | inl e => PrepLoopInvalid e
    | inr (loopContinue p) =>
        PrepReady (Some (mkExpanding OriginLoop p 0 (Some (loopAuthoredDepth (co_Envelope c))))) None None
    | inr (loopExhaust ev fail) => if fail then PrepExhausted ev else PrepReady None (Some (marshalLoopExhausted ev)) None
    | inr (loopNoProgress ev fail) => if fail then PrepNoProgress ev else PrepReady None None (Some (marshalLoopNoProgress ev))
    | inr _ => PrepReady None None None
    end.

Context (retryDelay : ResolvedRetryPolicy → Z → option Z).
Context (CompileExpr : string → exprResult) (textTemplateParses : list outSeg → bool).
Context (rejectionText : string → ExpansionVerdict → string) (errText : Err → string) (prepText : Prepared → string).

(** completeSuccess.  [priced] are the cost rows of the attempt without those of
    its judges; [undecoded] the validation failure of a plan that does not decode. *)
Definition completeStep (c : Completion) (config : option json) (snapshot : Z * json) (priced : list AttemptCostArgs)
    (undecoded : PlanErr → Revalidation) (invalid : ExpansionVerdict → Revalidation) (now now' : time) (d : DB)
    : Handled * DB * list Event :=
  match find (is_run (co_RunID c)) (runs d) with
  | None => (Redeliver ErrNotFound, d, [])
  | Some run =>
      let params := run_Params run in
      let collect := isCollectErrorsInstance d (co_RunID c) (co_Envelope c) in
      let p := prepare d snapshot c config params in
      let fail d := completeFailure evalWhen retryDelay (c <| co_Costs := priced |>) ClassPermanent
                      (permanent_payload (prepText p)) collect params now' d in
      match p with
      | PrepInvalidPlan e =>
          let v := undecoded e in
          handle_tx (completeValidationFailureTx (c <| co_Verdict := rv_Verdict v |>) (rv_Payload v) (rv_MaxAttempts v)
                       (rv_Feedback v) (rv_Report v) 1 now') d
      | PrepMapInvalid _ | PrepLoopInvalid _ => fail d
      | PrepExhausted ev => fail (WithTx (RecordLoopExhausted (co_RunID c) (marshalLoopExhausted ev) now) d).1.2
      | PrepNoProgress ev => fail (WithTx (RecordLoopNoProgress (co_RunID c) (marshalLoopNoProgress ev) now) d).1.2
      | PrepReady (Some x) _ _ =>
          completeExpanding evalWhen retryDelay CompileExpr textTemplateParses rejectionText errText c x priced invalid collect now now' d
      | PrepReady None ex np =>
          completeSuccess evalWhen retryDelay errText (c <| co_LoopExhausted := ex |> <| co_LoopNoProgress := np |>) collect now now' d
      end
  end.
End complete.
