(* ===== verification/LoopFacts.v ===== *)
(** Facts about loop iterations (loop.go, loopexpand.go): the ids of instances, the
    body of a loop, the plan of the next iteration. *)
From Stdlib Require Import QArith Ascii.
From stdpp Require Import pretty relations.
From S2P Require Import Prelude Issues GoStd Retry StoreModel Config Template TemplateFacts Transitions Dag GraphFacts Cycles Validate ValidateGraph Codec Expansion Decode MapExpand ReadyFacts Instantiate DagProps CycleProps ValidateFacts WellFormed ExpansionFacts RefRewrite CodecFacts DecodeFacts TreeRewrite MapFacts MapPlan Expand Engine ExpandTx Pointer Loop.
Open Scope Z_scope.

(** ** Instance ids *)

Lemma pretty_char_digit x : (x < 10)%N → digit (pretty_N_char x) = Z.of_N x ∧ is_digit (pretty_N_char x) = true.
Proof.
  intros Hx. destruct x as [|p]; [done|]. do 4 (destruct p as [p|p|]; try done); lia.
Qed.
Lemma decimal_pretty_go (x : N) : ∀ s, decimal 0 (pretty_N_go x s) = decimal (Z.of_N x) s.
Proof.
  induction (N.lt_wf_0 x) as [x _ IH]. intros s. destruct (decide (x = 0)%N) as [->|Hx]; [by rewrite pretty_N_go_0|].
  rewrite pretty_N_go_step by lia. rewrite IH by (apply N.div_lt; lia). cbn [decimal].
  rewrite (proj1 (pretty_char_digit (x mod 10) ltac:(apply N.mod_lt; lia))). f_equal.
  rewrite (N.div_mod x 10) at 3 by lia. lia.
Qed.
Lemma decimal_pretty k : 0 ≤ k → decimal 0 (pretty k) = k.
Proof.
  intros Hk. destruct k as [|p|p]; [done| |lia]. change (pretty (Z.pos p)) with (pretty (N.pos p)).
  unfold pretty, pretty_N. rewrite decide_False by done. by rewrite decimal_pretty_go.
Qed.
Lemma Atoi_pretty k : 0 ≤ k → in_int k = true → Atoi (pretty k) = Some k.
Proof.
  intros Hk Hin. destruct (pretty_digits k Hk) as [Hd Hne]. unfold Atoi.
  assert (match pretty k with String "-" r => (true, r) | String "+" r => (false, r) | _ => (false, pretty k) end = (false, pretty k)) as ->.
  { destruct (pretty k) as [|c s]; [done|]. cbn in Hd. apply andb_prop in Hd as [Hc _].
    destruct c as [[] [] [] [] [] [] [] []]; try done. }
  rewrite bool_decide_eq_false_2, Hd by done. cbn [negb orb]. by rewrite decimal_pretty, Hin.
Qed.

Lemma iteration_instance a k : plain_id a → 0 ≤ k → in_int k = true → loopIteration (instanceID a k) = k.
Proof.
  intros Ha Hk Hin. unfold loopIteration, threadIteration. rewrite instanceID_split by done. cbn [List.last].
  rewrite Atoi_pretty by done. destruct (k <? 0) eqn:E; [lia|done].
Qed.
Lemma iteration_authored a : plain_id a → loopIteration a = 0.
Proof. intros Ha. unfold loopIteration, threadIteration. by rewrite Split_none. Qed.
Lemma authored_instance a k : plain_id a → authoredStepID (instanceID a k) = a.
Proof.
  intros Ha. unfold authoredStepID. destruct (Split_cut (instanceID a k) "#" a (Split (pretty k) "#")) as [(E & Hn & _)|(t & E & _ & Hc)].
  - unfold instanceID. change ("#" +:+ pretty k) with (String "#" (pretty k)). by rewrite Split_app, (Split_none "#" a).
  - exfalso. unfold Split in Hn. destruct (split_go_cur "#" (pretty k) "") as (? & ? & Ex & _). congruence.
  - change (one "#"%char) with "#" in Hc. by rewrite Hc.
Qed.
Lemma iteration_nonneg id : 0 ≤ loopIteration id.
Proof.
  unfold loopIteration, threadIteration. destruct (Split id "#") as [|x [|y l]]; [lia..|]. destruct (Atoi _) as [n|]; [|lia].
  destruct (n <? 0) eqn:E; lia.
Qed.

(** ** The body of a loop *)
Section body.
Context (def : Definition_) (g : Graph) (G : graph_of def g).
Abbreviation rel := (edge_rel def).

(** The steps between the entry and the source, both included. *)
Definition in_body (from to id : string) : Prop := id = from ∨ id = to ∨ (tc rel to id ∧ tc rel id from).
Lemma loopBody_spec from to : from ∈ ID <$> Steps def → to ∈ ID <$> Steps def →
  ∃ body, loopBody g from to = inr body ∧ ∀ id, tc rel to from → id ∈ body ↔ in_body from to id.
Proof.
  intros Hf Ht. unfold loopBody, in_body. destruct (reach_ids def g to G Ht) as (D & _ & -> & _ & HD & _).
  destruct (reach_ids def g from G Hf) as (_ & A & _ & -> & _ & HA). eexists. split; [done|]. intros id Hr.
  rewrite elem_of_union, elem_of_filter, HD, HA. set_solver.
Qed.
Lemma in_body_known from to id : from ∈ ID <$> Steps def → to ∈ ID <$> Steps def → in_body from to id → id ∈ ID <$> Steps def.
Proof.
  intros Hf Ht [->|[->|[_ Hr]]]; [done..|]. destruct Hr as [a b H|a b c H _]; by apply (rel_known def g G) in H as [? _].
Qed.
End body.

(** ** The next iteration *)

(** What is cloned for a body step: the step, an agent merged with its role. *)
Definition resolved (def : Definition_) (s s1 : Step) : Prop :=
  if bool_decide (Type_ s = StepAgent) then ResolveAgentStep def s = inr s1 else s1 = s.
(** The step that a context source of iteration [k] reads. *)
Definition loop_move (body : gset string) (k : Z) (id : string) : string :=
  if bool_decide (id ∈ body) then instanceID id k else id.

(** The plan of iteration [k] of a loop with body [body], after [cur]. *)
Record loop_plan (tp : list outSeg → bool) (def : Definition_) (e : Edge) (body : gset string) (cur : string) (k : Z)
    (plan : PlanOutput) : Prop := mkLoopPlan {
  lp_ids : ID <$> po_Steps plan = (λ id, instanceID id k) <$> merge_sort String.le (elements body);
  lp_distinct : NoDup (ID <$> po_Steps plan);
  lp_valid : ∀ id, id ∈ ID <$> po_Steps plan → instanceStepIDRe id = true;
  lp_clones : ∀ s, s ∈ Steps def → ID s ∈ body → ∃ s1 s', resolved def s s1 ∧ s' ∈ po_Steps plan ∧
    clone_of tp (loopRefRewriter body k) (loop_ref body k) (instanceID (ID s) k) (Context_ s') s1 s' ∧
    context_moved (loop_move body k) (Context_ s1) (Context_ s');
  lp_edges : ∀ y, y ∈ po_Edges plan ↔
    (∃ x, x ∈ Edges def ∧ IsLoop x = false ∧ From x ∈ body ∧ To x ∈ body ∧
       y = mkEdge (instanceID (From x) k) (instanceID (To x) k) (When x) EdgeTypeNormal (Decision x)) ∨
    (∃ id, id ∈ body ∧ (∀ a, a ∈ body → ¬ edge_rel def a id) ∧ y = mkEdge cur (instanceID id k) "" EdgeTypeNormal "") ∨
    (∃ x, x ∈ Edges def ∧ IsLoop x = false ∧ From x = From e ∧ To x ∉ body ∧
       y = mkEdge (instanceID (From e) k) (To x) (When x) EdgeTypeNormal (Decision x));
  lp_enter : ∀ s, s ∈ Steps def → ID s ∈ body → tc (plan_rel plan) cur (instanceID (ID s) k);
  lp_leave : ∀ id, id ∈ body → rtc (plan_rel plan) (instanceID id k) (instanceID (From e) k)
}.

Lemma step_by_id (l : list Step) s : NoDup (ID <$> l) → s ∈ l → last (List.filter (λ x, bool_decide (ID x = ID s)) l) = Some s.
Proof.
  intros Hnd Hs. assert (s ∈ List.filter (λ x, bool_decide (ID x = ID s)) l) as Hin.
  { rewrite list_elem_of_In, filter_In, <-list_elem_of_In. split; [done|]. by apply bool_decide_eq_true_2. }
  destruct (last _) as [x|] eqn:E; [|by apply last_None in E; rewrite E in Hin; apply not_elem_of_nil in Hin].
  f_equal. apply last_Some in E as [l' E]. assert (x ∈ List.filter (λ x, bool_decide (ID x = ID s)) l) as Hx by (rewrite E; set_solver).
  rewrite list_elem_of_In, filter_In, <-list_elem_of_In, bool_decide_eq_true in Hx. destruct Hx as [[i Hi]%list_elem_of_lookup Eid].
  apply list_elem_of_lookup in Hs as [j Hj]. assert (i = j) as ->; [|congruence].
  apply (NoDup_lookup _ _ _ (ID s) Hnd); rewrite list_lookup_fmap; [by rewrite Hi; cbn; rewrite Eid|by rewrite Hj].
Qed.

(** Only the source may leave the body. *)
Definition sealed (def : Definition_) (e : Edge) (body : gset string) : Prop :=
  ∀ x, x ∈ Edges def → IsLoop x = false → From x ∈ body → To x ∉ body → From x = From e.
Definition exits_to (e : Edge) (body : gset string) (k : Z) (x y : Edge) : Prop :=
  IsLoop x = false ∧ From x = From e ∧ To x ∉ body ∧
  y = mkEdge (instanceID (From e) k) (To x) (When x) EdgeTypeNormal (Decision x).
Lemma exit_edges_total def e body k l : (∀ x, x ∈ l → x ∈ Edges def) → sealed def e body →
  ∃ es, exit_edges (From e) body k l = inr es ∧ ∀ y, y ∈ es ↔ ∃ x, x ∈ l ∧ exits_to e body k x y.
Proof.
  intros Hl Hs. induction l as [|x l IH].
  { exists []. split; [done|]. intros y. split; [by intros ?%not_elem_of_nil|]. by intros (x & ?%not_elem_of_nil & _). }
  destruct IH as (es & Ee & Hes); [intros z Hz; apply Hl; by right|]. cbn [exit_edges].
  assert (∀ y, (∃ z, z ∈ x :: l ∧ exits_to e body k z y) ↔ exits_to e body k x y ∨ y ∈ es) as Hcons.
  { intros y. rewrite Hes. setoid_rewrite elem_of_cons. naive_solver. }
  setoid_rewrite Hcons. clear Hcons Hes.
  destruct (IsLoop x) eqn:El; cbn [negb andb].
  { exists es. split; [done|]. intros y. split; [by right|]. intros [[El' _]|?]; [congruence|done]. }
  destruct (decide (To x ∈ body)) as [Ht|Ht]; [rewrite (bool_decide_eq_true_2 _ Ht)|rewrite (bool_decide_eq_false_2 _ Ht)]; cbn [negb andb].
  { exists es. split; [done|]. intros y. split; [by right|]. by intros [(_ & _ & ? & _)|?]. }
  destruct (decide (From x = From e)) as [Hf|Hf].
  - rewrite bool_decide_eq_true_2, (bool_decide_eq_true_2 _ Hf), Ee by set_solver. eexists. split; [done|].
    intros y. rewrite elem_of_cons. unfold exits_to. naive_solver.
  - rewrite bool_decide_eq_false_2.
    + exists es. split; [done|]. intros y. split; [by right|]. by intros [(_ & ? & _)|?].
    + rewrite elem_of_union, elem_of_singleton. intros [Hb|?]; [|done]. apply Hf, Hs; try done. apply Hl. by left.
Qed.

Section next.
Context (tp : list outSeg → bool) (def : Definition_) (g : Graph) (Eg : NewGraph def = inr g).
Context (Hids : NoDup (ID <$> Steps def)) (Hnames : ∀ s, s ∈ Steps def → stepIDRe (ID s) = true).
Context (rank : string → nat) (Hrank : ∀ a b, edge_rel def a b → (rank a < rank b)%nat).
Context (e : Edge) (Hfrom : From e ∈ ID <$> Steps def) (Hto : To e ∈ ID <$> Steps def) (Hr : tc (edge_rel def) (To e) (From e)).
Context (body : gset string) (Eb : loopBody g (From e) (To e) = inr body) (Hseal : sealed def e body).
Context (cur : string) (k : Z) (Hk : 0 ≤ k).
(** A body step and its resolved form can be cloned. *)
Context (Hclone : ∀ s, s ∈ Steps def → ID s ∈ body →
  if bool_decide (Type_ s = StepAgent)
  then ∃ s', ResolveAgentStep def s = inr s' ∧ ID s' = ID s ∧ decoded_step s' ∧ linted tp s'
  else decoded_step s ∧ linted tp s).
Abbreviation rel := (edge_rel def).

Lemma next_graph : graph_of def g.
Proof. by apply NewGraph_spec. Qed.
Lemma next_body id : id ∈ body ↔ in_body def (From e) (To e) id.
Proof. destruct (loopBody_spec def g next_graph (From e) (To e) Hfrom Hto) as (b & E & H). assert (b = body) as -> by congruence. by apply H. Qed.
Lemma body_step id : id ∈ body → ∃ s, s ∈ Steps def ∧ ID s = id ∧ plain_id id ∧ validInstanceOrStepID id = true.
Proof.
  intros Hin%next_body%(in_body_known def g next_graph _ _ _ Hfrom Hto). apply list_elem_of_fmap in Hin as (s & -> & Hs).
  exists s. pose proof (Hnames s Hs) as Hn. split_and!; [done|done|by apply stepID_chars|]. unfold validInstanceOrStepID. by rewrite Hn.
Qed.

Definition loop_cloned (id : string) (s s' : Step) : Prop := ∃ s1, resolved def s s1 ∧
  clone_of tp (loopRefRewriter body k) (loop_ref body k) (instanceID id k) (Context_ s') s1 s' ∧
  context_moved (loop_move body k) (Context_ s1) (Context_ s').
Lemma clone_moved id s s' :
  clone_of tp (loopRefRewriter body k) (loop_ref body k) id (rewriteLoopContext (Context_ s) body k) s s' →
  clone_of tp (loopRefRewriter body k) (loop_ref body k) id (Context_ s') s s' ∧
  context_moved (loop_move body k) (Context_ s) (Context_ s').
Proof.
  intros C. pose proof C as (_ & _ & _ & E & _). rewrite E. split; [exact C|]. apply rewrite_context_moved.
  intros x. unfold loop_move. by case_bool_decide.
Qed.
Lemma loop_clone id : id ∈ body → ∃ s', loop_step def body k id = inr s' ∧ ID s' = instanceID id k ∧
  ∀ s, s ∈ Steps def → ID s = id → loop_cloned id s s'.
Proof.
  intros Hin. destruct (body_step id Hin) as (s & Hs & <- & _). pose proof (Hclone s Hs Hin) as H. unfold loop_step.
  rewrite (step_by_id _ s Hids Hs). pose proof (loop_rewriter body k Hk) as R.
  assert (∀ x, x ∈ Steps def → ID x = ID s → x = s) as Hu.
  { intros x Hx E. pose proof (step_by_id _ x Hids Hx) as E1. pose proof (step_by_id _ s Hids Hs) as E2. rewrite E in E1. congruence. }
  cbv zeta. change (from_option Datatypes.id zero_step (Some s)) with s. unfold loop_cloned, resolved.
  case_bool_decide as Ht.
  - destruct H as (s' & Er & E & Hd & Hl). rewrite Er.
    destruct (clone_total tp _ _ (instanceID (ID s') k) (rewriteLoopContext (Context_ s') body k) s' Hd Hl) as (c & Ec & Hc).
    exists c. split_and!; [done|rewrite <-E; apply Hc|]. intros x Hx ->%(Hu x Hx). rewrite bool_decide_eq_true_2 by done.
    exists s'. split; [done|]. rewrite <-E. by apply clone_moved.
  - destruct H as [Hd Hl].
    destruct (clone_total tp _ _ (instanceID (ID s) k) (rewriteLoopContext (Context_ s) body k) s Hd Hl) as (c & Ec & Hc).
    exists c. split_and!; [done|apply Hc|]. intros x Hx ->%(Hu x Hx). rewrite bool_decide_eq_false_2 by done.
    exists s. split; [done|]. by apply clone_moved.
Qed.
Lemma loop_clones l : (∀ id, id ∈ l → id ∈ body) → ∃ steps, sequence (map (loop_step def body k) l) = inr steps ∧
  ID <$> steps = (λ id, instanceID id k) <$> l ∧
  ∀ s, s ∈ Steps def → ID s ∈ l → ∃ s', s' ∈ steps ∧ loop_cloned (ID s) s s'.
Proof.
  induction l as [|id l IH]; intros Hl; [exists []; split_and!; [done..|]; by intros s _ ?%not_elem_of_nil|].
  destruct IH as (steps & Es & Hs & Hc); [intros x Hx; apply Hl; by right|]. destruct (loop_clone id) as (s' & E' & Hid & Hs'); [apply Hl; by left|].
  exists (s' :: steps). cbn [map sequence]. rewrite E', Es. split_and!; [done|by rewrite !fmap_cons, Hid, Hs|].
  intros s Hin [E|Hin']%elem_of_cons.
  - exists s'. split; [by left|]. rewrite E. by apply Hs'.
  - destruct (Hc s Hin Hin') as (x & Hx & ?). exists x. split; [by right|done].
Qed.

(** Entries, and paths inside the body. *)
Lemma loop_entry id : id ∈ body → ∃ en, en ∈ loopEntries def body ∧ en ∈ body ∧ rtc (λ a b, rel a b ∧ a ∈ body ∧ b ∈ body) en id.
Proof.
  remember (rank id) as n eqn:En. revert id En. induction (lt_wf n) as [n _ IH]. intros id -> Hin.
  destruct (existsb (λ x, body_edge body x && bool_decide (To x = id)) (Edges def)) eqn:Ex.
  - apply existsb_exists in Ex as (x & Hx%list_elem_of_In & [Hb Ht%bool_decide_eq_true]%andb_prop). unfold body_edge in Hb.
    rewrite !andb_true_iff, negb_true_iff, !bool_decide_eq_true in Hb. destruct Hb as [[Hl Hf] Ht'].
    assert (rel (From x) id) as Hrel by (exists x; by split_and!).
    destruct (IH (rank (From x)) (Hrank _ _ Hrel) (From x) eq_refl Hf) as (en & He & Hb & Hp).
    exists en. split_and!; [done|done|]. eapply rtc_r; [done|]. done.
  - exists id. split_and!; [|done|done]. unfold loopEntries. rewrite list_elem_of_In, filter_In, <-list_elem_of_In, Ex.
    rewrite bool_decide_eq_true_2 by done. split; [|done]. destruct (body_step id Hin) as (s & Hs & <- & _). by apply list_elem_of_fmap_2.
Qed.
Lemma loop_path id : id ∈ body → rtc (λ a b, rel a b ∧ a ∈ body ∧ b ∈ body) id (From e).
Proof.
  intros Hin. apply next_body in Hin as Hb.
  assert (∀ f x, tc rel x f → (x = To e ∨ tc rel (To e) x) →
    (∀ y, (y = To e ∨ tc rel (To e) y) → tc rel y f ∨ y = f → y ∈ body) → rtc (λ a b, rel a b ∧ a ∈ body ∧ b ∈ body) x f) as Hpath.
  { intros f x Hp. induction Hp as [x y H|x y z H Hp IH]; intros Hx Hmem.
    - apply rtc_once. split_and!; [done|apply Hmem; [done|left; by apply tc_once]|apply Hmem; [|by right]].
      right. destruct Hx as [->|?]; [by apply tc_once|by eapply tc_r].
    - assert (y = To e ∨ tc rel (To e) y) as Hy by (right; destruct Hx as [->|?]; [by apply tc_once|by eapply tc_r]).
      eapply rtc_l; [|apply IH; [done|exact Hmem]]. split_and!; [done|apply Hmem; [done|left; by eapply tc_l]|apply Hmem; [done|by left]]. }
  assert (∀ y, (y = To e ∨ tc rel (To e) y) → tc rel y (From e) ∨ y = From e → y ∈ body) as Hmem.
  { intros y Hy Hy'. apply next_body. unfold in_body. tauto. }
  destruct Hb as [->|[->|[? ?]]]; [done|apply Hpath; auto..].
Qed.

(** The edges of the plan. *)
Definition loop_edges (exits : list Edge) : list Edge :=
  ((λ x, mkEdge (instanceID (From x) k) (instanceID (To x) k) (When x) EdgeTypeNormal (Decision x))
     <$> List.filter (body_edge body) (Edges def)) ++
  ((λ en, splice cur (instanceID en k)) <$> loopEntries def body) ++ exits.
Section edges.
Context (exits : list Edge) (Hexits : ∀ y, y ∈ exits ↔ ∃ x, x ∈ Edges def ∧ exits_to e body k x y).
Context (plan : PlanOutput) (Hpe : po_Edges plan = loop_edges exits).

Lemma members_sorted_elem id : id ∈ merge_sort String.le (elements body) ↔ id ∈ body.
Proof. by rewrite (merge_sort_Permutation String.le), elem_of_elements. Qed.
Lemma inside_rel a b : a ∈ body → b ∈ body → rel a b → plan_rel plan (instanceID a k) (instanceID b k).
Proof.
  intros Ha Hb (x & Hx & Hl & <- & <-). eexists. rewrite Hpe. unfold loop_edges. split_and!.
  - apply elem_of_app. left. apply list_elem_of_fmap_2. rewrite list_elem_of_In, filter_In, <-list_elem_of_In. split; [exact Hx|].
    unfold body_edge. by rewrite Hl, !bool_decide_eq_true_2.
  - done.
  - done.
  - done.
Qed.
Lemma inside_path a b : rtc (λ a b, rel a b ∧ a ∈ body ∧ b ∈ body) a b → rtc (plan_rel plan) (instanceID a k) (instanceID b k).
Proof. induction 1 as [|x y z (H & Hx & Hy) _ IH]; [done|]. eapply rtc_l; [|exact IH]. by apply inside_rel. Qed.
Lemma enter_rel en : en ∈ loopEntries def body → plan_rel plan cur (instanceID en k).
Proof.
  intros Hen. exists (splice cur (instanceID en k)). rewrite Hpe. unfold loop_edges. split_and!; [|done..].
  rewrite !elem_of_app. right. left. by apply (list_elem_of_fmap_2 (λ en, splice cur (instanceID en k))).
Qed.
Lemma loop_entries_elem id : id ∈ loopEntries def body ↔ id ∈ body ∧ ∀ a, a ∈ body → ¬ rel a id.
Proof.
  unfold loopEntries. rewrite list_elem_of_In, filter_In, <-list_elem_of_In, andb_true_iff, bool_decide_eq_true, negb_true_iff.
  rewrite <-not_true_iff_false, existsb_exists. split.
  - intros (_ & Hb & Hn). split; [done|]. intros a Ha (x & Hx & Hl & <- & <-). apply Hn. exists x. rewrite <-list_elem_of_In.
    split; [done|]. unfold body_edge. by rewrite Hl, !bool_decide_eq_true_2.
  - intros [Hb Hn]. split_and!; [|done|].
    + destruct (body_step id Hb) as (s & Hs & <- & _). by apply list_elem_of_fmap_2.
    + intros (x & Hx%list_elem_of_In & [Hi Ht%bool_decide_eq_true]%andb_prop). unfold body_edge in Hi.
      rewrite !andb_true_iff, negb_true_iff, !bool_decide_eq_true in Hi. destruct Hi as [[Hl Hf] _].
      apply (Hn (From x) Hf). exists x. by split_and!.
Qed.
Lemma loop_edges_elem y : y ∈ po_Edges plan ↔
  (∃ x, x ∈ Edges def ∧ IsLoop x = false ∧ From x ∈ body ∧ To x ∈ body ∧
     y = mkEdge (instanceID (From x) k) (instanceID (To x) k) (When x) EdgeTypeNormal (Decision x)) ∨
  (∃ id, id ∈ body ∧ (∀ a, a ∈ body → ¬ rel a id) ∧ y = mkEdge cur (instanceID id k) "" EdgeTypeNormal "") ∨
  (∃ x, x ∈ Edges def ∧ IsLoop x = false ∧ From x = From e ∧ To x ∉ body ∧
     y = mkEdge (instanceID (From e) k) (To x) (When x) EdgeTypeNormal (Decision x)).
Proof.
  rewrite Hpe. unfold loop_edges. rewrite !elem_of_app, Hexits, !list_elem_of_fmap. unfold exits_to, splice.
  setoid_rewrite loop_entries_elem. apply Morphisms_Prop.or_iff_morphism; [|apply Morphisms_Prop.or_iff_morphism; [naive_solver|done]]. split.
  - intros (x & -> & Hx). rewrite list_elem_of_In, filter_In, <-list_elem_of_In in Hx. destruct Hx as [Hx Hb]. unfold body_edge in Hb.
    rewrite !andb_true_iff, negb_true_iff, !bool_decide_eq_true in Hb. destruct Hb as [[Hl Hf] Ht]. exists x. by split_and!.
  - intros (x & Hx & Hl & Hf & Ht & ->). exists x. split; [done|]. rewrite list_elem_of_In, filter_In, <-list_elem_of_In.
    split; [done|]. unfold body_edge. by rewrite Hl, !bool_decide_eq_true_2.
Qed.
End edges.

Lemma loop_generated : ∃ plan, GenerateLoopExpansion def e cur k = inr plan ∧ loop_plan tp def e body cur k plan.
Proof.
  destruct (loop_clones (merge_sort String.le (elements body))) as (steps & Es & Hs & Hc); [by intros id ?%members_sorted_elem|].
  destruct (exit_edges_total def e body k (Edges def)) as (exits & Ex & Hx); [done|done|].
  exists (mkPlanOutput PlanSchemaVersion steps (loop_edges exits)). unfold GenerateLoopExpansion. rewrite Eg, Eb, Es, Ex. split; [done|].
  set (plan := mkPlanOutput _ _ _). split.
  - done.
  - cbn. rewrite Hs. assert (NoDup (merge_sort String.le (elements body))) as Hnd
      by (rewrite (merge_sort_Permutation String.le); apply NoDup_elements).
    assert (∀ id, id ∈ merge_sort String.le (elements body) → plain_id id) as Hp
      by (intros id Hid%members_sorted_elem; by destruct (body_step id Hid) as (_ & _ & _ & ? & _)).
    clear -Hnd Hp Hk. induction Hnd as [|id l Hn _ IH]; [constructor|]. rewrite fmap_cons. constructor; [|apply IH; intros; apply Hp; by right].
    intros (id' & E & Hin)%list_elem_of_fmap. apply instanceID_inj in E as [-> _]; try done; apply Hp; [by left|by right].
  - cbn. rewrite Hs. intros id (x & -> & Hin%members_sorted_elem)%list_elem_of_fmap.
    destruct (body_step x Hin) as (_ & _ & _ & ? & ?). by apply instance_re.
  - intros s Hin Hb. destruct (Hc s Hin) as (s' & Hs' & s1 & H1 & H2 & H3); [by apply members_sorted_elem|].
    exists s1, s'. by split_and!.
  - intros y. by apply (loop_edges_elem exits Hx plan eq_refl).
  - intros s Hin Hb. destruct (loop_entry (ID s) Hb) as (en & Hen & _ & Hp).
    eapply tc_rtc_r; [apply tc_once, (enter_rel exits plan eq_refl en Hen)|]. by apply (inside_path exits plan eq_refl).
  - intros id Hin. apply (inside_path exits plan eq_refl). by apply loop_path.
Qed.
End next.
