(* ===== verification/ExpandTotal.v ===== *)
(** What a landed delta wrote, and that a completion with a plan always ends: it
    commits, or it is rejected or fails for a stated reason. *)
From stdpp Require Import relations.
From S2P Require Import Prelude Issues GoStd Retry StoreModel Config Template Transitions Effects StoreInv StoreSpecs EdgeSpecs StoreSystem StoreTheorems Dag GraphFacts ReadyFacts Validate ValidateGraph Expansion Instantiate Expand DagProps ValidateFacts ExpansionFacts Engine EngineInv Moves GraphInv FanOut WriteOff EngineGraph EngineTx EngineStart EngineTotal ExpandSpec ExpandGraph Settle CancelSpec Reconcile Upholds ExpandTx.
Open Scope Z_scope.

(** ** What a landed delta wrote *)

Record landed (args : ExpandRunArgs) (run : Run) (origin : RunStep) (d d' : DB) : Prop := mkLanded {
  (** The run: one version later, larger by the steps of the plan. *)
  ld_run : ∃ y, run_at d' (er_RunID args) = Some y ∧ run_GraphVersion y = run_GraphVersion run + 1 ∧
    run_StepsTotal y = run_StepsTotal run + zlen (po_Steps (er_Plan args)) ∧ run_Status y = run_Status run;
  (** Every step of the plan, waiting for the plan's normal edges into it. *)
  ld_new : ∀ st, st ∈ po_Steps (er_Plan args) → ∃ x, row d' (er_RunID args) (ID st) = Some x ∧
    step_StepType x = Type_ st ∧ step_RemainingDeps x = count (enters_step (ID st)) (po_Edges (er_Plan args)) ∧
    step_Status x = (if step_RemainingDeps x =? 0 then StepStatusReady else StepStatusPending) ∧
    env_Depth (step_Envelope x) = injectedDepth (default (env_Depth (step_Envelope origin)) (er_DepthOverride args));
  (** Every older step, waiting for the plan's normal edges as well. *)
  ld_old : ∀ s x, row d (er_RunID args) s = Some x → ∃ x', row d' (er_RunID args) s = Some x' ∧ same_but_deps x x' ∧
    step_RemainingDeps x' = step_RemainingDeps x + count (enters_step s) (po_Edges (er_Plan args));
  ld_only : ∀ s, is_Some (row d' (er_RunID args) s) →
    is_Some (row d (er_RunID args) s) ∨ s ∈ ID <$> po_Steps (er_Plan args);
  ld_edges : run_edges d' = run_edges d ++ spliced_edges args run (max_ordinal (er_RunID args) (run_edges d));
  ld_others : frame (er_RunID args) d d';
  (** The expansion, then the readiness of every step nothing holds back, each
      dispatched once. *)
  ld_events : events d' = events d ++ delta_events args d run origin;
  ld_outbox : task_outbox d' = task_outbox d ++
    ((λ i, mkTaskOutbox (er_RunID args) i OutboxReasonStepReady (nullableText (Parent (er_Trace args)))
             (nullableText (State (er_Trace args)))) <$> readied_steps (er_Plan args));
  ld_readied : ∀ id, id ∈ readied_steps (er_Plan args) ↔
    id ∈ ID <$> po_Steps (er_Plan args) ∧ count (enters_step id) (po_Edges (er_Plan args)) = 0
}.

Lemma readied_spec plan id : id ∈ readied_steps plan ↔
  id ∈ ID <$> po_Steps plan ∧ count (enters_step id) (po_Edges plan) = 0.
Proof.
  unfold readied_steps. rewrite !list_elem_of_fmap. split.
  - intros (st & -> & Hst). rewrite list_elem_of_In, filter_In, <-list_elem_of_In, Z.eqb_eq in Hst.
    destruct Hst as [Hst E]. rewrite indegree_lookup in E by (by apply list_elem_of_fmap_2). split; [by exists st|done].
  - intros [(st & -> & Hst) E]. exists st. split; [done|].
    rewrite list_elem_of_In, filter_In, <-list_elem_of_In, Z.eqb_eq.
    rewrite indegree_lookup by (by apply list_elem_of_fmap_2). done.
Qed.

Section expansion.
Context (CompileExpr : string → exprResult) (textTemplateParses : list outSeg → bool).

Lemma announced_landed args d run origin res d' : db_inv d → expandable CompileExpr textTemplateParses args d run origin →
  announce_delta args d run origin (spliced args d run origin) = (Ok res, d') → landed args run origin d d'.
Proof.
  intros H X E. pose proof (xb_run _ _ _ _ _ _ X) as Hrun. pose proof (xb_admitted _ _ _ _ _ _ X) as A.
  assert (db_inv (spliced args d run origin)) as H1 by (eapply spliced_inv; apply X || done).
  destruct (announce_delta_eval CompileExpr textTemplateParses args d run origin H Hrun A (xb_open _ _ _ _ _ _ X)) as
    (d1 & k & E1 & Er & Es & Ee & Ev & _ & Eo & _). rewrite E in E1. injection E1 as _ <-.
  assert (∀ s, row d' (er_RunID args) s = row (spliced args d run origin) (er_RunID args) s) as Hrow
    by (intros s; unfold row; by rewrite Es).
  split; try done.
  - exists (advance k (grow args run)). split; [|done]. unfold run_at. rewrite Er.
    rewrite (find_set_row run_ID is_run is_run_key) by done.
    pose proof (spliced_run_at args d run origin (er_RunID args) Hrun) as Hs.
    rewrite bool_decide_eq_true_2 in Hs by done. unfold run_at in Hs. by rewrite Hs.
  - intros st Hst. rewrite Hrow. rewrite (spliced_row_new CompileExpr textTemplateParses args d run origin H X st Hst).
    eexists. split; [done|]. split; [done|]. rewrite <-indegree_lookup by (by apply list_elem_of_fmap_2).
    split_and!; [done| |done]. apply injected_status.
  - intros s x Hx. rewrite Hrow, (spliced_row_old args d run origin s x Hx). eexists. split; [done|].
    split; [apply bump_same|]. destruct (row_key _ _ _ _ Hx) as [Ek <-]. rewrite bump_deps, widen_count; [done| |done].
    intros (st & Eid & Hst)%list_elem_of_fmap. rewrite Eid in Hx.
    rewrite (fresh_id CompileExpr textTemplateParses args d run origin H A st Hst) in Hx. done.
  - intros s [z Hz]. rewrite Hrow in Hz. apply (spliced_row args d run origin) in Hz as [(x & Hx & _)|(st & Hst & <- & _)].
    + left. eauto.
    + right. by apply list_elem_of_fmap_2.
  - etrans; [by eapply spliced_frame|]. apply quiet_frame. by eapply announce_delta_quiet.
  - apply readied_spec.
Qed.

(** ** The completion *)

Lemma plan_loop_error ev b out params es e : ∀ m, plan_loop ev b out params es m = inl e → ∃ o, e = ErrEval o.
Proof.
  induction es as [|ed es IH]; intros m; cbn; [done|]. destruct (negb _); [apply IH|].
  destruct (match edge_WhenExpr ed with Some _ => _ | None => _ end) as [f|]; [|intros [= <-]; eauto].
  destruct (plan_loop _ _ _ _ es _) eqn:E; [|done]. intros [= <-]. by eapply IH.
Qed.

Context (ev : string → option json → option json → option bool).
Context (c : Completion) (x : Expanding) (params : option json) (now : time).
Abbreviation r := (co_RunID c).
Abbreviation s := (co_StepID c).
Abbreviation tx := (expandingSuccessTx ev CompileExpr textTemplateParses c x params now).
Abbreviation expand := (ExpandRun CompileExpr textTemplateParses (expand_args c x now)).
Abbreviation tail :=
  ((expand ;;
    when_some (co_LoopExhausted c) (λ ev, RecordLoopExhausted r ev now) ;;
    when_some (co_LoopNoProgress c) (λ ev, RecordLoopNoProgress r ev now) ;;
    advance_successors ev r s (co_StepType c) (co_Output c) params (co_Trace c) now ;; ret tt) ;;
   attemptRunRollup r now).

(** The transaction up to the expansion. *)
Lemma expanding_head d y res d1 : now ≠ 0 → run_at d r = Some y → run_open y = true →
  SucceedStep r s (co_ClaimID c) (co_Output c) (co_Usage c) (co_Verdict c) (co_Repair c) now d = (Ok res, d1) →
  tx d = (applyCostRows (co_Costs c) ;; tail) d1.
Proof.
  intros Hnow Hy Ho E1. unfold expandingSuccessTx, LockRunStatus, lockRun, fence, attempt.
  unfold bind at 1 2. rewrite now_ok by done. unfold bind at 1. rewrite GetRun_eval. unfold run_at in Hy. rewrite Hy.
  unfold ret at 1. unfold bind at 1 2. rewrite E1. unfold ret at 1. rewrite bool_decide_eq_false_2; [done|].
  intros E. unfold run_open, run_has in Ho. by rewrite E in Ho.
Qed.

(** A refusal of the expansion is a rejection of the plan, or a CHECK of the rows:
    the origin and its open run are there. *)
Lemma expanding_refused d1 y1 w1 e : now ≠ 0 → s ≠ "" → ex_Kind x ≠ "" → run_at d1 r = Some y1 → run_open y1 = true →
  row d1 r s = Some w1 → expand_refused CompileExpr textTemplateParses (expand_args c x now) d1 e →
  (∃ inp, xi_Plan inp = ex_Plan x ∧ OK (ValidateExpansion CompileExpr textTemplateParses inp) = false ∧
    e = ErrExpansionRejected (ValidateExpansion CompileExpr textTemplateParses inp)) ∨
  ∃ k, e = ErrCheck k ∧ delta_violates (expand_args c x now) w1 k.
Proof.
  intros Hnow Hs Hk Hy Ho Hw R.
  inversion R as [Hz|why [?|?]|[E|E]|run te Hr Hn1 Hn2|run origin Hr Hrow Hok|run origin k Hr Hrow Hv]; subst; try done.
  - cbn in E. congruence.
  - cbn in E. congruence.
  - cbn in Hr. rewrite Hy in Hr. injection Hr as <-. unfold run_open, run_has in Ho. by destruct (run_Status y1).
  - left. by exists (input_of (expand_args c x now) d1 run origin).
  - right. cbn in Hrow. rewrite Hw in Hrow. injection Hrow as <-. by exists k.
Qed.
Lemma violates_envelope args w w' k : step_Envelope w' = step_Envelope w → delta_violates args w' k → delta_violates args w k.
Proof. intros E V. destruct V as [V|V|ed ? ? ?]; [apply dv_depth; by rewrite <-E|by apply dv_kind|by eapply dv_decision]. Qed.

(** Where the rows of the run end up, from those it had when the origin finished. *)
Record expanded_rows (d d' : DB) : Prop := mkExpandedRows {
  xr_origin : ∃ w', row d' r s = Some w' ∧ step_Status w' = StepStatusSucceeded;
  xr_new : ∀ st, st ∈ po_Steps (ex_Plan x) → ∃ z z', row d' r (ID st) = Some z' ∧ fanned z z' ∧
    step_RemainingDeps z = count (enters_step (ID st)) (po_Edges (ex_Plan x)) ∧
    step_Status z = (if step_RemainingDeps z =? 0 then StepStatusReady else StepStatusPending);
  xr_old : ∀ t z, t ≠ s → row d r t = Some z → ∃ z1 z', row d' r t = Some z' ∧ same_but_deps z z1 ∧ fanned z1 z' ∧
    step_RemainingDeps z1 = step_RemainingDeps z + count (enters_step t) (po_Edges (ex_Plan x))
}.

Lemma expanding_lands d1 w1 run origin : now ≠ 0 → db_inv d1 → finished r s d1 → row d1 r s = Some w1 →
  step_Status w1 = StepStatusSucceeded → spliceable r (ex_Plan x) d1 →
  expandable CompileExpr textTemplateParses (expand_args c x now) d1 run origin →
  expand d1 = announce_delta (expand_args c x now) d1 run origin (spliced (expand_args c x now) d1 run origin) →
  (∃ o d', tail d1 = (Fail (ErrEval o), d')) ∨ ∃ fin d', tail d1 = (Ok fin, d') ∧ expanded_rows d1 d'.
Proof.
  intros Hnow H1 F1 Hw1 Es1 S1 X Ee.
  destruct (announce_delta_eval CompileExpr textTemplateParses (expand_args c x now) d1 run origin H1
    (xb_run _ _ _ _ _ _ X) (xb_admitted _ _ _ _ _ _ X) (xb_open _ _ _ _ _ _ X)) as (d2 & k & E2 & _).
  pose proof (announced_landed (expand_args c x now) d1 run origin _ d2 H1 X E2) as L. rewrite E2 in Ee.
  destruct (ExpandRun_finished CompileExpr textTemplateParses (expand_args c x now) d1 _ d2 w1 H1 F1 Hw1
    ltac:(by rewrite Es1) S1 Ee) as (H2 & F2 & _).
  destruct (loop_records c now Hnow d2 H2 F2) as (d3 & E3 & H3 & F3 & Q3).
  pose proof (advance_total ev r s (co_StepType c) (co_Output c) params (co_Trace c) now d3 Hnow H3 F3) as T.
  assert (∀ t z, row d2 r t = Some z → row d3 r t = Some z) as Hq by (intros t z; unfold row; by rewrite (q_steps _ _ Q3)).
  assert (tail d1 =
    (advance_successors ev r s (co_StepType c) (co_Output c) params (co_Trace c) now ;; attemptRunRollup r now) d3) as ->.
  { unfold bind in *. rewrite Ee. destruct (when_some (co_LoopExhausted c) _ d2) as [[u|e] d2']; [|done]. rewrite E3.
    by destruct (advance_successors _ _ _ _ _ _ _ _ d3) as [[]]. }
  destruct (planEdges _ _ _ _ _) as [e|vs] eqn:Ep.
  { left. apply plan_loop_error in Ep as [o ->]. by exists o, d3. }
  right. destruct T as (o & d5 & E5 & _ & Hfan). exists o, d5. split; [done|]. split.
  - destruct (ld_old _ _ _ _ _ L s w1 Hw1) as (w2 & Hw2 & B & _). destruct (Hfan s w2 (Hq _ _ Hw2)) as (w' & Hw' & Fa).
    exists w'. split; [done|]. pose proof (sbd_status _ _ B) as Eb. rewrite Es1 in Eb.
    by destruct (fa_status _ _ Fa) as [->|[E _]]; [|congruence].
  - intros st Hst. destruct (ld_new _ _ _ _ _ L st Hst) as (z & Hz & _ & Hd & Hst' & _).
    destruct (Hfan _ z (Hq _ _ Hz)) as (z' & Hz' & Fa). by exists z, z'.
  - intros t z _ Hz. destruct (ld_old _ _ _ _ _ L t z Hz) as (z1 & Hz1 & B & Hd).
    destruct (Hfan _ z1 (Hq _ _ Hz1)) as (z' & Hz' & Fa). by exists z1, z'.
Qed.

Lemma expanding_total d y w : engine_inv d → now ≠ 0 → run_at d r = Some y → run_open y = true →
  row d r s = Some w → fenced (co_ClaimID c) w = true → s ≠ "" → ex_Kind x ≠ "" → spliceable r (ex_Plan x) d →
  match bill d (co_Costs c) with
  | Some e => ∃ d', tx d = (Fail e, d')
  | None =>
      (∃ inp d', tx d = (Fail (ErrExpansionRejected (ValidateExpansion CompileExpr textTemplateParses inp)), d') ∧
         xi_Plan inp = ex_Plan x ∧ OK (ValidateExpansion CompileExpr textTemplateParses inp) = false) ∨
      (∃ k d', tx d = (Fail (ErrCheck k), d') ∧ delta_violates (expand_args c x now) w k) ∨
      (∃ o d', tx d = (Fail (ErrEval o), d')) ∨
      ∃ fin d', tx d = (Ok fin, d') ∧ expanded_rows d d'
  end.
Proof.
  intros I Hnow Hy Ho Hw Hf Hs Hk S. pose proof (ei_db _ I) as H.
  assert (cancel_phase (run_Status y) = false) as Hph by (unfold run_open, run_has in Ho; by destruct (run_Status y)).
  assert (good r d) as G.
  { destruct (ei_graph _ I r) as [(y' & Hy' & Hp)|[G _]]; [rewrite Hy in Hy'; injection Hy' as <-; congruence|done]. }
  destruct (success_settled c now d w y H Hnow G Hy Hw Hf)
    as (res & d0 & E0 & H0 & F0 & _ & (w0 & Hw0 & Es0 & Ev0) & Hrows & Eb).
  pose proof (applyCostRows_bill (co_Costs c) d0 H0) as B. rewrite Eb in B.
  destruct (bill d (co_Costs c)) as [e|].
  { destruct B as [d' E]. exists d'. rewrite (expanding_head d y res d0 Hnow Hy Ho E0). unfold bind at 1. by rewrite E. }
  destruct B as [d1 E1].
  assert (tx d = tail d1) as -> by (rewrite (expanding_head d y res d0 Hnow Hy Ho E0); unfold bind at 1; by rewrite E1).
  pose proof (applyCostRows_quiet _ _ _ _ H0 E1) as Q.
  destruct (succeed_costs c x now d res d0 tt d1 H E0 E1) as (H1 & _ & Hstat & _ & F1 & S1). specialize (F1 G).
  assert (∀ t, row d1 r t = row d0 r t) as Hq by (intros t; unfold row; by rewrite (q_steps _ _ Q)).
  assert (row d1 r s = Some w0) as Hw1 by by rewrite Hq.
  destruct (fin_run _ _ _ F1) as [y1 Hy1]. destruct (run_stat_row _ _ _ _ Hstat Hy1) as (y' & Hy' & Est & _).
  rewrite Hy in Hy'. injection Hy' as <-.
  destruct (ExpandRun_cases CompileExpr textTemplateParses (expand_args c x now) d1 H1) as [(e & d2 & Ee & R & _)|(run & origin & X & Ee)].
  { destruct (expanding_refused d1 y1 w0 e Hnow Hs Hk Hy1 ltac:(unfold run_open, run_has in *; by rewrite Est) Hw1 R)
      as [(inp & Hp & Hok & ->)|(k & -> & V)]; [left; exists inp, d2|right; left; exists k, d2];
      (split; [unfold bind at 1 2; by rewrite Ee|]); [done|]. by eapply violates_envelope. }
  right. right. destruct (expanding_lands d1 w0 run origin Hnow H1 F1 Hw1 Es0 (S1 S) X Ee) as [(o & d' & E)|(fin & d' & E & [Ro Rn Rd])].
  { left. by exists o, d'. }
  right. exists fin, d'. split; [done|]. split; [done|done|]. intros t z Hne Hz. apply Rd; [done|]. by rewrite Hq, Hrows.
Qed.
End expansion.
