(* ===== verification/EngineSystem.v ===== *)
(** The engine as a transition system: run submissions, the engine's
    transactions, the completions that expand the graph, the reconciler's sweep
    and the outbox drain, the invariant of every database they reach, and every
    transaction taken apart into its writes. *)
From stdpp Require Import relations sorting.
From S2P Require Import Prelude Issues GoStd Retry StoreModel Transitions Effects StoreInv StoreSpecs EdgeSpecs StoreSystem StoreTheorems Config Template Dag GraphFacts ReadyFacts Validate ValidateGraph Expansion Instantiate Expand DagProps Engine StoreProps EngineInv Moves GraphInv FanOut WriteOff EngineGraph EngineTx EngineStart ExpandSpec ExpandGraph Settle CancelSpec Reconcile Upholds ExpandTx.
Open Scope Z_scope.

(** ** The system *)
Section system.
(** CEL evaluation (cel-go) and the jittered backoff of a policy. *)
Context (evalWhen : string → option json → option json → option bool).
Context (retryDelay : ResolvedRetryPolicy → Z → option Z).

(** One constructor per transaction of internal/engine. *)
Inductive EngineOp : Type :=
| EClaim (r : uuid) (s : string) (now : time) (span worker : string) (claimID : uuid)
| ETakeoverClaim (r : uuid) (s : string) (holder : uuid) (now : time) (span worker : string) (claimID : uuid)
| ESuccess (c : Completion) (params : option json) (now : time)
| EFailure (c : Completion) (class : ErrorClass) (payload : json) (collect : bool) (params : option json) (now : time)
| EValidation (c : Completion) (payload : json) (maxAttempts : option Z) (feedback : Z → option json)
    (report : Z → list StepAttempt → json) (issueCount : Z) (now : time)
| EThrottle (c : Completion) (resource bucket retryAfter : string) (fireAt now : time)
| EBudgetPark (c : Completion) (event : BudgetExceededEvent) (now : time)
| EAwaitHuman (c : Completion) (approval : ApprovalRow) (now : time)
| EDecide (ap : Approval) (step : RunStep) (run : Run) (onReject : string) (req : DecideRequest) (output : json) (now : time)
| EExpirePark (id r : uuid) (s : string) (attempt : Z) (timeoutAt : option time) (now : time)
| EPoison (r : uuid) (s onFailure : string) (summary payload : option json) (now : time)
| ERequeue (r : uuid) (s : string) (now : time)
| ECancel (r : uuid) (reason : string) (now : time)
| EPark (r : uuid) (reason : string) (now : time)
| ESetBudget (r : uuid) (budget : Z) (now : time)
| EUnpark (r : uuid) (now : time)
| EDeadline (r : uuid) (startedAt deadlineAt now : time)
| EReconcile (cfg : ReconcilerConfig) (locked : bool) (now : time)
| EDrain (batch : Z) (enqueue : TaskOutbox → bool)
| EGuards (r : uuid) (s : string) (breaches : list CapBreach) (now : time)
| ELoopExhausted (r : uuid) (event : json) (now : time)
| ELoopNoProgress (r : uuid) (event : json) (now : time).

Definition engine_tx (op : EngineOp) : Tx unit :=
  match op with
  | EClaim r s now sp w c => void (ClaimStepWithOrigin r s now sp w c)
  | ETakeoverClaim r s h now sp w c => void (takeoverAndClaimTx r s h now sp w c)
  | ESuccess c params now => void (completeSuccessTx evalWhen c params now)
  | EFailure c class payload collect params now =>
      void (completeFailureTx evalWhen retryDelay c class payload collect params now)
  | EValidation c payload m feedback report n now => void (completeValidationFailureTx c payload m feedback report n now)
  | EThrottle c res b ra fireAt now => void (completeThrottleTx c res b ra fireAt now)
  | EBudgetPark c e now => void (completeBudgetParkTx c e now)
  | EAwaitHuman c a now => void (completeAwaitHumanTx c a now)
  | EDecide ap step run onReject req output now => decideTx evalWhen ap step run onReject req output now
  | EExpirePark i r s n t now => void (ExpireApprovalPark i r s n t now)
  | EPoison r s onf summary payload now => void (poisonTx r s onf summary payload now)
  | ERequeue r s now => void (requeueTx r s now)
  | ECancel r reason now => void (cancelRunTx r reason now)
  | EPark r reason now => void (ParkRun r reason now)
  | ESetBudget r b now => void (SetRunBudget r b now)
  | EUnpark r now => void (unparkTx r now)
  | EDeadline r st dl now => void (deadlineCancel r st dl now)
  | EReconcile cfg locked now => void (reconcileTx cfg locked now)
  | EDrain batch enq => void (drainTx batch enq)
  | EGuards r s breaches now => recordGuardsTx r s breaches now
  | ELoopExhausted r event now => void (RecordLoopExhausted r event now)
  | ELoopNoProgress r event now => void (RecordLoopNoProgress r event now)
  end.

(** Decide reads the step of the approval's run. *)
Definition op_ok (op : EngineOp) : bool :=
  match op with EDecide ap step _ _ _ _ _ => bool_decide (step_RunID step = ap_RunID ap) | _ => true end.

Lemma void_upholds {A} (m : Tx A) : upholds m → upholds (void m).
Proof. intros U d a d' I E. unfold void in E. peel E. injection E as _ <-. by eapply U. Qed.

Lemma engine_tx_upholds op : op_ok op = true → upholds (engine_tx op).
Proof.
  intros Hok. destruct op; cbn [engine_tx];
    try (apply void_upholds; first [solve [apply upholds_quiet; [apply sequenced_record|apply record_quiet]]|apply drainTx_upholds|apply reconcileTx_upholds|apply deadlineCancel_upholds|
           apply cancelRunTx_upholds|eapply upholds_run]).
  - apply claim_preserves. - apply claim_settles.
  - apply takeoverAndClaimTx_preserves. - apply takeoverAndClaimTx_settles.
  - apply completeSuccessTx_preserves. - apply completeSuccessTx_settles.
  - apply completeFailureTx_preserves. - apply completeFailureTx_settles.
  - apply completeValidationFailureTx_preserves. - apply completeValidationFailureTx_settles.
  - apply completeThrottleTx_preserves. - apply completeThrottleTx_settles.
  - apply completeBudgetParkTx_preserves. - apply completeBudgetParkTx_settles.
  - apply completeAwaitHumanTx_preserves. - apply completeAwaitHumanTx_settles.
  - apply bool_decide_eq_true in Hok. eapply (upholds_run (ap_RunID ap)); [by apply decideTx_preserves|by apply decideTx_settles].
  - apply ExpireApprovalPark_preserves. - apply ExpireApprovalPark_settles.
  - apply poisonTx_preserves. - apply poisonTx_settles.
  - apply requeueTx_preserves. - apply requeueTx_settles.
  - apply ParkRun_preserves. - apply ParkRun_settles.
  - apply SetRunBudget_preserves. - apply SetRunBudget_settles.
  - apply unparkTx_preserves. - apply unparkTx_settles.
  - apply recordGuardsTx_upholds.
Qed.

Inductive engine_reachable : DB → Prop :=
| er_empty : engine_reachable empty_db
| er_submit d def p args y d' evs :
    engine_reachable d → decoded def = true → planGraph def = inr p →
    WithTx (insert_run p args) d = (Ok y, d', evs) → engine_reachable d'
| er_define d row w d' evs :
    engine_reachable d → WithTx (CreateDefinitionRow row) d = (Ok w, d', evs) → engine_reachable d'
| er_op d op d' evs :
    engine_reachable d → op_ok op = true → WithTx (engine_tx op) d = (Ok tt, d', evs) → engine_reachable d'
| er_expand d CompileExpr textTemplateParses c x params now fin d' evs :
    engine_reachable d → spliceable (co_RunID c) (ex_Plan x) d →
    WithTx (expandingSuccessTx evalWhen CompileExpr textTemplateParses c x params now) d = (Ok fin, d', evs) →
    engine_reachable d'.

(** The log of a transaction is not part of the rows. *)
Lemma log_engine_inv d l : engine_inv d → engine_inv (d <| tx_events := l |>).
Proof.
  intros I. eapply quiet_engine_inv; [|apply inv_tx_events, I|exact I]. split; [done|done|eauto|done].
Qed.
Lemma WithTx_upholds {A} (m : Tx A) d a d' evs : (∀ d a d', engine_inv d → m d = (Ok a, d') → engine_inv d') →
  engine_inv d → WithTx m d = (Ok a, d', evs) → engine_inv d'.
Proof.
  intros U I. unfold WithTx. destruct (m _) as [[b|e] d1] eqn:E; [|done]. intros [= <- <- <-].
  apply log_engine_inv. eapply U; [|exact E]. by apply log_engine_inv.
Qed.

(** A new run is not being cancelled. *)
Lemma insert_run_calm def p args d y d' : db_inv d → planGraph def = inr p →
  insert_run p args d = (Ok y, d') → ∀ r, cancelling r d' → same_view r d d'.
Proof.
  intros H Hp E r Hc. 
  destruct (insert_run_cases def p args d H Hp) as [(e & d1 & E' & _)|(rows & Hrows & Hf & _ & _ & _ & E')]; [congruence|].
  rewrite E' in E.
  pose proof (start_inv d def p args rows H Hp Hrows Hf) as H1.
  pose proof (announce_quiet p args _ _ _ H1 E) as Q.
  destruct (decide (r = cr_RunID args)) as [->|Hne].
  - exfalso. destruct (same_view_cancelling _ _ _ (quiet_view _ _ _ Q) Hc) as (z & Hz & Hs).
    unfold run_at in Hz. destruct (find_run_inv _ _ _ Hz) as [[Hin|Hin]%elem_of_app Er].
    + apply not_true_iff_false in Hf. apply Hf, existsb_exists. exists z.
      split; [by apply list_elem_of_In|by apply bool_decide_eq_true].
    + apply list_elem_of_singleton in Hin as ->. done.
  - etrans; [by eapply start_frame|by apply quiet_view].
Qed.

Lemma insert_run_engine_inv def p args d y d' : decoded def = true → planGraph def = inr p →
  engine_inv d → insert_run p args d = (Ok y, d') → engine_inv d'.
Proof.
  intros Hd Hp I E. destruct (insert_run_ok def p args d y d' (ei_db _ I) Hp Hd E (ei_graph _ I)) as [H G].
  split; [done|done|]. intros r Hc.
  eapply same_view_settling; [by eapply (insert_run_calm def); [apply I| | |]|apply I|done].
Qed.

Lemma reachable_engine_inv d : engine_reachable d → engine_inv d.
Proof.
  induction 1 as [|d def p args y d' evs _ IH Hd Hp E|d row w d' evs _ IH E|d op d' evs _ IH Hok E|d CE TP c x params now fin d' evs _ IH S E].
  - apply empty_engine_inv.
  - eapply WithTx_upholds; [|exact IH|exact E]. intros. by eapply insert_run_engine_inv.
  - eapply WithTx_upholds; [|exact IH|exact E]. clear. intros d a d' I [l ->]%CreateDefinitionRow_ok.
    eapply quiet_engine_inv; [|apply inv_definitions, I|exact I]. split; [done|done|eauto|done].
  - eapply WithTx_upholds; [|exact IH|exact E]. by apply engine_tx_upholds.
  - assert (spliceable (co_RunID c) (ex_Plan x) (d <| tx_events := [] |>)) as S' by by (eapply spliceable_same, S; split).
    revert E. unfold WithTx. destruct (expandingSuccessTx _ _ _ _ _ _ _ _) as [[b|e] d1] eqn:E; [|done].
    intros [= <- <- <-]. apply log_engine_inv. eapply expandingSuccessTx_upholds; [|exact S'|exact E]. by apply log_engine_inv.
Qed.

(** ** Every transaction as steps

    A transaction of the engine, a submission, a registration or a completion that
    expands the graph, whether or not its delta keeps the run spliceable. *)
Inductive engine_step (d : DB) : DB → Prop :=
| es_submit def p args y d' evs :
    planGraph def = inr p → WithTx (insert_run p args) d = (Ok y, d', evs) → engine_step d d'
| es_define row w d' evs : WithTx (CreateDefinitionRow row) d = (Ok w, d', evs) → engine_step d d'
| es_op op d' evs : WithTx (engine_tx op) d = (Ok tt, d', evs) → engine_step d d'
| es_expand CompileExpr textTemplateParses c x params now fin d' evs :
    WithTx (expandingSuccessTx evalWhen CompileExpr textTemplateParses c x params now) d = (Ok fin, d', evs) →
    engine_step d d'.

(** What they are made of. *)
Inductive write_step (d : DB) : DB → Prop :=
| ws_tx d' : tx_step d d' → write_step d d'
| ws_log l : write_step d (d <| tx_events := l |>)
| ws_drain l : write_step d (d <| task_outbox := l |>)
| ws_define l : write_step d (d <| workflow_definitions := l |>)
| ws_insert def p args rows : planGraph def = inr p → step_rows p args (Steps def) = inr rows →
    existsb (is_run (cr_RunID args)) (runs d) = false → token_taken (nullableText (cr_IdempotencyToken args)) d = false →
    write_step d (inserted d p args rows)
| ws_splice CompileExpr textTemplateParses args run origin :
    expandable CompileExpr textTemplateParses args d run origin → write_step d (spliced args d run origin).

Lemma write_step_inv d d' : db_inv d → write_step d d' → db_inv d'.
Proof.
  intros H [d1 S|l|l|l|def p args rows Hp Hr Hf Ht|CE TP args run origin X].
  - by eapply tx_step_inv. - by apply inv_tx_events. - by apply outbox_inv. - by apply inv_definitions.
  - by eapply inserted_inv.
  - eapply spliced_inv; apply X || done.
Qed.
Lemma write_steps_inv d d' : db_inv d → rtc write_step d d' → db_inv d'.
Proof. intros H. induction 1; eauto using write_step_inv. Qed.

Definition written {A} (m : Tx A) : Prop := ∀ d a d', db_inv d → m d = (Ok a, d') → rtc write_step d d'.
Lemma tx_written d d' : tx_steps d d' → rtc write_step d d'.
Proof. induction 1; [done|]. eapply rtc_l; [by apply ws_tx|done]. Qed.
Lemma sequenced_written {A} (m : Tx A) : sequenced m → written m.
Proof. intros S d a d' H E. by eapply tx_written, S. Qed.
Lemma written_bind {A B} (m : Tx A) (k : A → Tx B) : written m → (∀ a, written (k a)) → written (let! a := m in k a).
Proof.
  intros Hm Hk d b d' H E. peel E. etrans; [by eapply Hm|]. eapply Hk; [|exact E]. eapply write_steps_inv; [exact H|by eapply Hm].
Qed.
Lemma written_WithTx {A} (m : Tx A) d a d' evs : written m → db_inv d → WithTx m d = (Ok a, d', evs) → rtc write_step d d'.
Proof.
  intros M H. unfold WithTx. destruct (m _) as [[b|e] d1] eqn:E; [|done]. intros [= <- <- <-].
  eapply rtc_l; [apply (ws_log _ [])|]. etrans; [eapply M; [by apply inv_tx_events|exact E]|]. apply rtc_once, ws_log.
Qed.

(** *** The sweep *)
Lemma sequenced_heal {A} (f : A → Tx bool) l : (∀ a, sequenced (f a)) → sequenced (heal f l).
Proof.
  intros Hf. induction l as [|a l IH]; cbn; [apply sequenced_ret|]. apply sequenced_bind; [apply Hf|intros].
  apply sequenced_bind; [exact IH|intros; apply sequenced_ret].
Qed.
(** A heal whose conflict is dropped wrote nothing. *)
Lemma sequenced_dropped {A B} (m : Tx A) (k : A → Tx B) (b : B) : sequenced m →
  (∀ d e d', db_inv d → m d = (Fail e, d') → is_conflict e = true → d' = d) → (∀ a, sequenced (k a)) →
  sequenced (let! r := attempt m in match r with Fail e => if is_conflict e then ret b else throw e | Ok a => k a end).
Proof.
  intros Sm Hc Sk d x d' H. unfold bind, attempt. destruct (m d) as [[a|e] d1] eqn:E; intros E'.
  - etrans; [by eapply Sm|]. eapply Sk; [|exact E']. eapply tx_steps_inv; [exact H|by eapply Sm].
  - destruct (is_conflict e) eqn:He; [|done]. injection E' as _ <-. by rewrite (Hc _ _ _ H E He).
Qed.
Lemma deadlineCancel_sequenced r st dl now : sequenced (deadlineCancel r st dl now).
Proof.
  apply sequenced_dropped; [apply cancelRunTx_sequenced|intros; by eapply cancelRunTx_conflict|].
  intros _. apply sequenced_bind; [apply sequenced_record|intros; apply sequenced_ret].
Qed.
Lemma healRunning_sequenced now st : sequenced (healRunning now st).
Proof.
  unfold healRunning. destruct (sr_ClaimID st) as [c|]; [|apply sequenced_ret]. apply sequenced_dropped.
  - apply transition_sequenced, TakeoverStep_transition.
  - intros d e d' H E Hc. pose proof (TakeoverStep_transition (ref_RunID (sr_Ref st)) (ref_StepID (sr_Ref st)) c now d H) as T.
    rewrite E in T. inversion T; subst; [done|congruence].
  - intros _. sequence.
Qed.
Lemma healCancelling_sequenced now st : sequenced (healCancelling now st).
Proof.
  unfold healCancelling. destruct (sr_ClaimID st) as [c|]; [|apply sequenced_ret]. apply sequenced_dropped.
  - apply healCancellingStep_sequenced.
  - intros. by eapply healCancellingStep_conflict.
  - intros _. apply sequenced_ret.
Qed.
Lemma reconcileTx_sequenced cfg locked now : sequenced (reconcileTx cfg locked now).
Proof.
  unfold reconcileTx. destruct (negb locked); [apply sequenced_ret|].
  repeat first [apply sequenced_ret | apply sequenced_bind; [|intros] | apply sequenced_read
    | apply sequenced_for_each; intros; sequence
    | apply sequenced_heal; intros; first [apply healRunning_sequenced|apply healCancelling_sequenced|apply deadlineCancel_sequenced]].
Qed.

Lemma drainTx_written batch enq : written (drainTx batch enq).
Proof.
  intros d a d' H E. unfold drainTx in E. peel E. injection E0 as <- <-. destruct (send_until _ _) as [sent ok].
  injection E as _ <-. apply rtc_once, ws_drain.
Qed.
Lemma engine_tx_written op : written (engine_tx op).
Proof.
  destruct op; cbn [engine_tx];
    try (apply sequenced_written; first [apply decideTx_sequenced
           |solve [apply sequenced_for_each; intros; apply sequenced_record]
           |apply sequenced_bind; [|intros; apply sequenced_ret]; first
             [apply completeSuccessTx_sequenced|apply completeFailureTx_sequenced|apply completeValidationFailureTx_sequenced
             |apply completeThrottleTx_sequenced|apply completeBudgetParkTx_sequenced|apply completeAwaitHumanTx_sequenced
             |apply poisonTx_sequenced|apply requeueTx_sequenced|apply cancelRunTx_sequenced|apply unparkTx_sequenced
             |apply takeoverAndClaimTx_sequenced|apply ExpireApprovalPark_sequenced|apply deadlineCancel_sequenced
             |apply reconcileTx_sequenced|apply sequenced_record|solve [sequence]]]).
  apply written_bind; [apply drainTx_written|intros; apply sequenced_written, sequenced_ret].
Qed.

(** *** The completion that expands *)
Lemma ExpandRun_written CompileExpr textTemplateParses args : written (ExpandRun CompileExpr textTemplateParses args).
Proof.
  intros d a d' H E. destruct (ExpandRun_inv _ _ _ _ _ _ H E) as (run & origin & X & E' & H1 & _).
  eapply rtc_l; [by eapply ws_splice|]. by eapply tx_written, announce_delta_sequenced.
Qed.
Lemma expanding_written CompileExpr textTemplateParses c x params now :
  written (expandingSuccessTx evalWhen CompileExpr textTemplateParses c x params now).
Proof.
  unfold expandingSuccessTx. apply written_bind; [apply sequenced_written; sequence|intros status].
  apply written_bind; [apply sequenced_written; sequence|intros _].
  apply written_bind; [apply sequenced_written; sequence|intros _].
  apply written_bind; [|intros; apply sequenced_written; sequence].
  destruct (bool_decide _); [apply sequenced_written; sequence|].
  apply written_bind; [apply ExpandRun_written|intros _]. apply sequenced_written. sequence; apply sequenced_advance.
Qed.

Lemma engine_step_written d d' : db_inv d → engine_step d d' → rtc write_step d d'.
Proof.
  intros H [def p args y d1 evs Hp E|row w d1 evs E|op d1 evs E|CE TP c x params now fin d1 evs E].
  - eapply written_WithTx; [|exact H|exact E]. clear -Hp. intros d a d' H E.
    destruct (insert_run_cases def p args d H Hp) as [(e & d1 & E' & _)|(rows & Hrows & Hf & Ht & _ & _ & E')]; [congruence|].
    rewrite E' in E. eapply rtc_l; [by eapply ws_insert|]. eapply tx_written, announce_sequenced; [by eapply inserted_inv|exact E].
  - eapply written_WithTx; [|exact H|exact E]. clear. intros d a d' H [l ->]%CreateDefinitionRow_ok. apply rtc_once, ws_define.
  - eapply written_WithTx; [apply engine_tx_written|exact H|exact E].
  - eapply written_WithTx; [apply expanding_written|exact H|exact E].
Qed.

(** A predicate that every write keeps is kept by any sequence of transactions. *)
Lemma engine_steps_keep (P : DB → Prop) : (∀ d d', db_inv d → write_step d d' → P d → P d') →
  ∀ d d', db_inv d → P d → rtc engine_step d d' → db_inv d' ∧ P d'.
Proof.
  intros HP d d' H0 P0 S. induction S as [|d d1 d' S _ IH]; [done|].
  pose proof (engine_step_written d d1 H0 S) as W. clear S. apply IH; clear IH; [by eapply write_steps_inv|].
  induction W as [|d d2 d1 W _ IH]; [done|]. apply IH; eauto using write_step_inv.
Qed.

(** *** Statuses *)
Definition step_moves (st st' : StepStatus) : Prop := step_matrix st st' = true.
Definition run_moves (st st' : RunStatus) : Prop := run_matrix st st' = true.

Lemma write_step_row d d' r s x : db_inv d → write_step d d' → row d r s = Some x →
  ∃ x', row d' r s = Some x' ∧ (step_Status x' = step_Status x ∨ step_moves (step_Status x) (step_Status x')).
Proof.
  intros H [d1 S|l|l|l|def p args rows Hp Hr Hf Ht|CE TP args run origin X] Hx; try solve [eauto].
  - destruct (tx_step_row _ _ r s x H S Hx) as (x' & Hx' & R). exists x'. split; [done|apply R].
  - exists x. split; [by apply find_app_left|by left].
  - eexists. split; [apply find_app_left; rewrite find_fmap_same by apply is_step_widened; by unfold row in Hx; rewrite Hx|].
    left. unfold ExpandSpec.bump. by repeat case_match.
Qed.
Lemma write_step_run d d' r y : db_inv d → write_step d d' → run_at d r = Some y →
  ∃ y', run_at d' r = Some y' ∧ (run_Status y' = run_Status y ∨ run_moves (run_Status y) (run_Status y')).
Proof.
  intros H [d1 S|l|l|l|def p args rows Hp Hr Hf Ht|CE TP args run origin X] Hy; try solve [eauto].
  - exact (tx_step_run _ _ r y H S Hy).
  - exists y. split; [by apply find_app_left|by left].
  - rewrite spliced_run_at by apply X. case_bool_decide as E; [|eauto]. subst r. rewrite (xb_run _ _ _ _ _ _ X) in Hy.
    injection Hy as <-. eauto.
Qed.

Lemma engine_steps_row d d' r s x : db_inv d → rtc engine_step d d' → row d r s = Some x →
  ∃ x', row d' r s = Some x' ∧ rtc step_moves (step_Status x) (step_Status x').
Proof.
  intros H S Hx. pose (P := λ d1, ∃ x', row d1 r s = Some x' ∧ rtc step_moves (step_Status x) (step_Status x')).
  enough (db_inv d' ∧ P d') as [_ ?] by done. eapply (engine_steps_keep P); [|exact H|by exists x|exact S].
  intros d1 d2 H1 W (x1 & Hx1 & M). destruct (write_step_row d1 d2 r s x1 H1 W Hx1) as (x2 & Hx2 & [E|M']); exists x2;
    (split; [done|]); [by rewrite E|by eapply rtc_r].
Qed.
Lemma engine_steps_run d d' r y : db_inv d → rtc engine_step d d' → run_at d r = Some y →
  ∃ y', run_at d' r = Some y' ∧ rtc run_moves (run_Status y) (run_Status y').
Proof.
  intros H S Hy. pose (P := λ d1, ∃ y', run_at d1 r = Some y' ∧ rtc run_moves (run_Status y) (run_Status y')).
  enough (db_inv d' ∧ P d') as [_ ?] by done. eapply (engine_steps_keep P); [|exact H|by exists y|exact S].
  intros d1 d2 H1 W (y1 & Hy1 & M). destruct (write_step_run d1 d2 r y1 H1 W Hy1) as (y2 & Hy2 & [E|M']); exists y2;
    (split; [done|]); [by rewrite E|by eapply rtc_r].
Qed.
(** A path out of an absorbing status, or into [failed], is empty. *)
Lemma absorbing_stuck st st' : rtc step_moves st st' → absorbing st = true → st' = st.
Proof. intros [|a b c M _] Ha; [done|]. unfold step_moves in M. by destruct a, b. Qed.
Lemma failed_unwritten st st' : rtc step_moves st st' → st' = StepStatusFailed → st = StepStatusFailed.
Proof. intros [->|(b & _ & M)]%rtc_inv_r E; [done|]. subst st'. unfold step_moves in M. by destruct b. Qed.
Lemma final_stuck st st' : rtc run_moves st st' → st = RunStatusSucceeded ∨ st = RunStatusCancelled → st' = st.
Proof. intros [|a b c M _] [->| ->]; try done; unfold run_moves in M; by destruct b. Qed.

(** *** Idempotency tokens *)

(** [tok] belongs to one run, [id], with the payload fingerprint [fp]. *)
Definition bound (tok : string) (id : uuid) (fp : option string) (d : DB) : Prop :=
  ∃ y, List.filter (has_token tok) (runs d) = [y] ∧ run_ID y = id ∧ run_IdempotencyFingerprint y = fp.
Lemma filter_set_row {A} (q p : A → bool) f l : (∀ x, q (f x) = q x) →
  List.filter q (set_row p f l) = set_row p f (List.filter q l).
Proof.
  intros Hf. induction l as [|x l IH]; [done|]. rewrite set_row_cons. cbn. rewrite IH.
  assert (q (if p x then f x else x) = q x) as -> by (by destruct (p x)). by destruct (q x).
Qed.
Lemma bound_set_row tok id fp p f d l : bound tok id fp d → l = set_row p f (runs d) →
  (∀ y, run_ID (f y) = run_ID y ∧ run_IdempotencyToken (f y) = run_IdempotencyToken y ∧
     run_IdempotencyFingerprint (f y) = run_IdempotencyFingerprint y) →
  ∃ y, List.filter (has_token tok) l = [y] ∧ run_ID y = id ∧ run_IdempotencyFingerprint y = fp.
Proof.
  intros (y & Hy & Ei & Ef) -> Hf. rewrite filter_set_row by (intros; unfold has_token; by destruct (Hf x) as (_ & -> & _)).
  rewrite Hy. eexists. split; [done|]. destruct (Hf y) as (? & _ & ?). destruct (p y); split; congruence.
Qed.
Lemma write_step_bound tok id fp d d' : db_inv d → write_step d d' → bound tok id fp d → bound tok id fp d'.
Proof.
  intros H [d1 [run x e R S|r o run e f n Hr He Hn Hu|o]|l|l|l|def p args rows Hp Hr Hf Ht|CE TP args run origin X] B;
    try exact B.
  - eapply bound_set_row; [exact B|done|]. intros y. destruct (so_run_static _ _ _ _ S y) as (_ & _ & Et & Ef).
    split_and!; [cbn; apply (so_rows _ _ _ _ S)|exact Et|exact Ef].
  - destruct B as (y & Hy & Ei & Ef). exists y. split; [|done]. cbn. rewrite List.filter_app, Hy. cbn.
    assert (has_token tok (run_row p args) = false) as ->; [|done]. apply bool_decide_eq_false. cbn. intros E.
    rewrite E in Ht. cbn in Ht. apply existsb_false in Ht. rewrite Forall_forall in Ht.
    assert (y ∈ List.filter (has_token tok) (runs d)) as [Hin Htk]%list_elem_of_In%filter_In by (rewrite Hy; by left).
    apply list_elem_of_In in Hin. specialize (Ht y Hin). cbn in Ht. congruence.
  - eapply bound_set_row; [exact B|done|]. by intros y.
Qed.
Lemma engine_steps_bound tok id fp d d' : db_inv d → bound tok id fp d → rtc engine_step d d' →
  db_inv d' ∧ bound tok id fp d'.
Proof. apply engine_steps_keep. intros. by eapply write_step_bound. Qed.

(** *** Executable traces *)
Fixpoint run_engine (ops : list EngineOp) (d : DB) : option DB :=
  match ops with
  | [] => Some d
  | op :: ops' =>
      if op_ok op then match WithTx (engine_tx op) d with (Ok _, d', _) => run_engine ops' d' | _ => None end
      else None
  end.
Lemma run_engine_reachable ops : ∀ d d', engine_reachable d → run_engine ops d = Some d' → engine_reachable d'.
Proof.
  induction ops as [|op ops IH]; intros d d' Hd; cbn; [by intros [= <-]|].
  destruct (op_ok op) eqn:Hok; [|done]. destruct (WithTx _ d) as [[[[]|e] d1] evs] eqn:E; [|done].
  apply IH. by eapply er_op.
Qed.
End system.
