(* ===== verification/Submit.v ===== *)
(** Store.CreateRun (internal/store/instantiate.go): validation, planning, the
    idempotency token and the insert, and what a submission guarantees.

    The snapshot a run keeps is the canonical encoding of the submitted document;
    SHA-256 over the snapshot, the params and the definition ref is the parameter
    [fingerprint].  The pre-check of the token and the insert are two transactions: [d0] is the
    database the first reads, [d] the one the second finds, which may hold what
    other sessions committed in between. *)
From Stdlib Require Import QArith Ascii.
From stdpp Require Import relations.
From S2P Require Import Prelude Issues GoStd Retry StoreModel Transitions Effects StoreInv StoreSpecs EdgeSpecs StoreSystem StoreTheorems Config Template Dag GraphFacts Cycles Validate ValidateGraph Codec Decode ReadyFacts Instantiate DagProps CycleProps ValidateFacts WellFormed Engine EngineInv Moves GraphInv EngineStart Upholds EngineSystem.
Open Scope Z_scope.

Definition MaxIdempotencyTokenLength : Z := 200.

Inductive CreateErr : Type :=
| CreateZeroNow
| CreateTokenTooLong
| CreateInvalid (issues : list ValidationIssue)
| CreatePlan (e : PlanErr)
| CreateTx (e : Err)
| IdempotencyMismatch (token : string) (runID : uuid).

(** Created with its entry steps, or an existing run. *)
Inductive CreateRunResult : Type := Created (run : Run) (EntrySteps : list string) | Reused (run : Run).

(** Runs().GetByIdempotencyToken. *)
Definition GetByIdempotencyToken (tok : string) (d : DB) : option Run := find (has_token tok) (runs d).

(** checkedReuse: a NULL stored fingerprint is accepted unchecked. *)
Definition checkedReuse (run : Run) (token fingerprint : string) : CreateErr + CreateRunResult :=
  match run_IdempotencyFingerprint run with
  | Some f => if bool_decide (f = fingerprint) then inr (Reused run) else inl (IdempotencyMismatch token (run_ID run))
  | None => inr (Reused run)
  end.

(** A ConflictError that names the token index. *)
Definition token_conflict (e : Err) : bool :=
  match e with ErrUnique c => bool_decide (c = constraintIdempotencyToken) | _ => false end.

Section create.
Context (CompileExpr : string → exprResult) (textTemplateParses : list outSeg → bool).
Context (fingerprint : json → option json → string → string).

Definition CreateRun (doc : Document) (args : CreateRunArgs) (d0 d : DB) : (CreateErr + CreateRunResult) * DB :=
  let tok := cr_IdempotencyToken args in
  if cr_Now args =? 0 then (inl CreateZeroNow, d)
  else if MaxIdempotencyTokenLength <? slen tok then (inl CreateTokenTooLong, d)
  else match err (Validate CompileExpr textTemplateParses (doc_Definition doc)) with
  | (_ :: _) as issues => (inl (CreateInvalid issues), d)
  | [] =>
  match planInstantiation doc with
  | inl e => (inl (CreatePlan e), d)
  | inr (snapshot, plan) =>
      let fp := fingerprint snapshot (cr_Params args) (cr_DefinitionID args) in
      let args := args <| cr_Fingerprint := if empty_str tok then "" else fp |> in
      match (if empty_str tok then None else GetByIdempotencyToken tok d0) with
      | Some run => (checkedReuse run tok fp, d)
      | None =>
          match WithTx (insert_run plan args) d with
          | (Ok run, d', _) => (inr (Created run (pl_entry plan)), d')
          | (Fail e, _, _) =>
              if negb (empty_str tok) && token_conflict e then
                match GetByIdempotencyToken tok d with
                | Some run => (checkedReuse run tok fp, d)
                | None => (inl (CreateTx e), d)
                end
              else (inl (CreateTx e), d)
          end
      end
  end
  end.
End create.

(** ** Inserting an accepted definition *)

(** What the codec guarantees beyond [Validate]: the spelling of the join modes,
    of the two run policies and of the decisions that edges carry. *)
Definition known_modes (def : Definition_) : bool :=
  forallb (λ s, match Config s with Some (JoinConfigC m) => join_mode_ok m | _ => true end) (Steps def).
Definition known_enums (def : Definition_) : bool :=
  bool_decide (OnFailure def ∈ "" :: failurePolicies) && bool_decide (OnBudgetExceeded def ∈ "" :: budgetPolicies) &&
  forallb (λ e, bool_decide (Decision e ∈ "" :: approvalDecisions)) (Edges def).

Section accepted.
Context (CompileExpr : string → exprResult) (textTemplateParses : list outSeg → bool).
Context (def : Definition_) (W : well_formed CompileExpr textTemplateParses def).

Lemma wf_plan : ∃ p, planGraph def = inr p.
Proof.
  destruct (NewGraph_total def (wf_ids _ _ _ W) (wf_ends _ _ _ W)) as [g Hg].
  destruct (wf_acyclic _ _ _ W) as [rank Hr]. by eapply plan_exists.
Qed.
Lemma wf_decoded : known_modes def = true → decoded def = true.
Proof.
  intros Hk. unfold decoded. apply andb_true_intro. split.
  - apply negb_true_iff, bool_decide_eq_false. intros E. destruct (wf_size _ _ _ W) as [[H _] _].
    unfold zlen in H. rewrite E in H. cbn in H. lia.
  - apply forallb_forall. intros s Hs. unfold known_modes in Hk. rewrite forallb_forall in Hk. specialize (Hk s Hs).
    unfold join_config_ok. case_bool_decide as Et; [|done]. apply list_elem_of_In in Hs.
    pose proof (wf_config _ _ _ W s Hs) as C. unfold config_ok, is_type in C.
    rewrite Et, !(bool_decide_eq_false_2 (StepJoin = _)), bool_decide_eq_true_2 in C by done.
    destruct C as (m & Ec & _). by rewrite Ec in *.
Qed.
Lemma wf_deadline_parses now : ∃ dl, deadline def now = Some dl ∧
  ∀ t, dl = Some t → now < t ≤ now + MaxRunWallClock.
Proof.
  unfold deadline. destruct (wf_deadline _ _ _ W) as [->|(t & E & Ht)].
  - by exists None.
  - case_bool_decide; [by exists None|]. rewrite E. eexists. split; [done|]. intros ? [= <-]. lia.
Qed.
Lemma wf_rows p args : planGraph def = inr p → ∃ rows, step_rows p args (Steps def) = inr rows.
Proof.
  intros (Ed & _)%planGraph_spec.
  assert (∀ s, s ∈ Steps def → Type_ s = StepAgent → ∃ s', ResolveAgentStep def s = inr s') as Hag.
  { intros s Hs Et. pose proof (wf_config _ _ _ W s Hs) as C. unfold config_ok, is_type in C.
    rewrite Et, !(bool_decide_eq_false_2 (StepAgent = _)), bool_decide_eq_true_2 in C by done.
    destruct C as (s' & _ & E & _). eauto. }
  revert Hag. generalize (Steps def) as l. induction l as [|s l IH]; intros Hag; cbn; [eauto|].
  destruct IH as [rows ->]; [intros; apply Hag; [by right|done]|]. unfold step_row.
  case_bool_decide as Et; [|eauto]. rewrite Ed. destruct (Hag s (list_elem_of_here _ _) Et) as [s' ->]. eauto.
Qed.

(** The retry column of every row is a policy the engine can follow. *)
Lemma rows_retry p args l rows : step_rows p args l = inr rows → (∀ s, s ∈ l → s ∈ Steps def) →
  Forall (λ x, ∃ rp, decodeRetryPolicy (env_RetryPolicy (step_Envelope x)) = Some rp ∧ retry_ok rp) rows.
Proof.
  revert rows. induction l as [|s l IH]; intros rows; cbn; [by intros [= <-]|].
  destruct (step_row p args s) as [|x] eqn:Hx; [done|]. destruct (step_rows p args l) as [|xs]; [done|].
  intros [= <-] Hin. constructor; [|apply IH; [done|intros; apply Hin; by right]].
  pose proof (wf_retry _ _ _ W s (Hin s (list_elem_of_here _ _))) as R. eexists. split; [|exact R].
  assert (env_RetryPolicy (step_Envelope x) = Some (ResolveRetryPolicy (sp_Retry (Policies s)))) as ->.
  { unfold step_row in Hx. destruct (bool_decide _); [|by injection Hx as <-].
    destruct (ResolveAgentStep (pl_def p) s) as [|s'] eqn:Hr; [done|]. injection Hx as <-. cbn.
    unfold ResolveAgentStep in Hr. repeat case_match; by simplify_eq/=. }
  unfold decodeRetryPolicy. destruct (rp_MaxAttempts _ <? 1) eqn:E; [|done].
  pose proof (rty_attempts _ R). lia.
Qed.

(** The rows of a plan satisfy the CHECKs of runs and of run_edges. *)
Lemma or_string_elem s x l : s ∈ "" :: l → x ∈ l → or_string s x ∈ l.
Proof. unfold or_string, empty_str. intros Hs Hx. case_bool_decide; [done|]. set_solver. Qed.
Lemma known_run p args : planGraph def = inr p → known_enums def = true → run_violation (run_row p args) = None.
Proof.
  intros (Ed & _)%planGraph_spec [[H1 H2]%andb_prop _]%andb_prop. unfold run_violation. cbn. rewrite Ed.
  apply bool_decide_eq_true in H1, H2. by rewrite !bool_decide_eq_true_2 by (apply or_string_elem; [done|set_solver]).
Qed.
Lemma known_edges p args : planGraph def = inr p → known_enums def = true →
  violation edge_violation (edge_rows p args) = None.
Proof.
  intros Hp [_ Hk]%andb_prop. apply violation_none. intros e He. rewrite forallb_forall in Hk.
  destruct (new_edge def p args Hp e He) as (i & ed & Hed & ->).
  specialize (Hk ed). apply bool_decide_eq_true in Hk; [|by eapply list_elem_of_In, list_elem_of_lookup_2].
  unfold edge_violation. cbn. unfold nullableText. case_bool_decide; [done|]. rewrite bool_decide_eq_true_2; [done|set_solver].
Qed.

(** The insert fails only for a used id, a used token or an unknown definition id. *)
Inductive insert_conflict (args : CreateRunArgs) (d : DB) : Err → Prop :=
| ic_id y : y ∈ runs d → run_ID y = cr_RunID args → insert_conflict args d (ErrUnique "runs_pkey")
| ic_token : token_taken (nullableText (cr_IdempotencyToken args)) d = true →
    insert_conflict args d (ErrUnique constraintIdempotencyToken)
| ic_definition : token_taken (nullableText (cr_IdempotencyToken args)) d = false →
    definition_known (cr_DefinitionID args) d = false → insert_conflict args d (ErrUnique "runs_definition_id_fkey").

Lemma wf_insert p args d : cr_Now args ≠ 0 → db_inv d → known_enums def = true → planGraph def = inr p →
  (∃ e, WithTx (insert_run p args) d = (Fail e, d, []) ∧ insert_conflict args d e) ∨
  (existsb (is_run (cr_RunID args)) (runs d) = false ∧ token_taken (nullableText (cr_IdempotencyToken args)) d = false ∧
   definition_known (cr_DefinitionID args) d = true ∧
   ∃ d' evs rows k, WithTx (insert_run p args) d = (Ok (run_row p args), d', evs) ∧
     runs d' = runs d ++ [advance k (run_row p args)] ∧ run_steps d' = run_steps d ++ rows ∧
     step_rows p args (Steps def) = inr rows).
Proof.
  intros Hnow H Hk Hp. pose proof (inv_tx_events d [] H) as H'. pose proof (planGraph_spec _ _ Hp) as (Ed & _). unfold WithTx.
  destruct (insert_run_cases def p args _ H' Hp) as [(e & d1 & -> & Hr)|(rows & Hrows & Hf & Ht & Hd & _ & ->)].
  - left. exists e. split; [done|]. destruct Hr as [E|c E|y Hy E|y Hne Hy E|Ht E|e E|E|c E].
    + destruct (wf_deadline_parses (cr_Now args)) as (dl & E' & _). rewrite Ed in E. congruence.
    + by rewrite (known_run p args Hp Hk) in E.
    + by apply (ic_id _ _ y).
    + apply ic_token, token_taken_spec. eauto.
    + by apply ic_definition.
    + destruct (wf_rows p args Hp) as [rows E']. rewrite Ed in E. congruence.
    + done.
    + by rewrite (known_edges p args Hp Hk) in E.
  - right. split_and!; [done..|].
    destruct (announce_eval _ p args rows def H' Hp Hrows Hf) as (d' & -> & E1 & _ & _ & _ & _ & k & Ek).
    by eexists _, _, rows, k.
Qed.
End accepted.
