(* ===== verification/DecodeProps.v ===== *)
(** What the definition codec guarantees: decoded documents are typed, and encoding
    keeps what a definition means to the decoder (decode.go, encode.go). *)
From Stdlib Require Import QArith.
From S2P Require Import Prelude Issues GoStd Retry StoreModel Config Template Dag Validate ValidateGraph Codec Expansion Decode ExpansionFacts CodecFacts DecodeFacts EngineStart Submit.
Open Scope Z_scope.

(** Decoding leaves only join modes the engine can decode again. *)
Lemma typed_modes def : Forall typed_step (Steps def) → known_modes def = true.
Proof.
  intros H. unfold known_modes. apply forallb_forall. intros s Hs%list_elem_of_In. rewrite Forall_forall in H.
  destruct (H s Hs) as [_ Hc]. destruct (Config s) as [c|] eqn:E; [|done]. destruct (Hc c eq_refl) as [_ He]. specialize (He "").
  destruct c; try done. unfold config_enums, check_enum, err_if, join_mode_ok in *. cbn in He.
  repeat case_bool_decide; try done; set_solver.
Qed.

(** Its run policies and the decisions of its edges are known, or absent. *)
Lemma check_enum_elem opt l s path : check_enum opt l s path = [] → s ∈ "" :: l.
Proof.
  unfold check_enum, err_if. destruct (negb _ && _) eqn:E; [done|]. intros _. apply andb_false_iff in E as [E|E]; apply negb_false_iff in E.
  - apply andb_prop in E as [_ E%bool_decide_eq_true]. subst s. by left.
  - apply bool_decide_eq_true in E. by right.
Qed.
Lemma optional_enum_elem l m k s : optional_enum l m k = (s, []) → s ∈ "" :: l.
Proof.
  unfold optional_enum. destruct (m !! k) as [[]|]; try done; intros [= <-]; [by eapply check_enum_elem|by left].
Qed.
Lemma decodeEdge_decision raw path e : decodeEdge raw path = (e, []) → Decision e ∈ "" :: approvalDecisions.
Proof.
  unfold decodeEdge. destruct (rawObject raw) as [m|]; [|done]. intros [= <- Hn]. split_errs Hn. by eapply check_enum_elem.
Qed.
Lemma decode_body_enums ver fields d : decode_body ver fields = (d, []) → known_enums (doc_Definition d) = true.
Proof.
  unfold decode_body. destruct (optional_enum failurePolicies _ _) as [onf e3] eqn:E3.
  destruct (optional_enum budgetPolicies _ _) as [onb e6] eqn:E6.
  destruct (required_items fields "edges" _) as [edges e12] eqn:E12.
  repeat match goal with |- context [let '(_, _) := ?x in _] => destruct x end.
  intros H. injection H as <- Hn. split_errs Hn. unfold known_enums. cbn. apply optional_enum_elem in E3, E6.
  rewrite !bool_decide_eq_true_2 by done. unfold required_items in E12. destruct (fields !! "edges") as [raw|]; [|done].
  apply forallb_forall. intros e He%list_elem_of_In. apply bool_decide_eq_true.
  pose proof (decode_items_all _ _ _ _ _ decodeEdge_decision E12) as Hall. rewrite Forall_forall in Hall. by apply Hall.
Qed.

(** What a submission relies on of a decoded document. *)
Lemma Decode_submittable size data doc : Decode size data = inr doc →
  known_modes (doc_Definition doc) = true ∧ known_enums (doc_Definition doc) = true ∧ is_Some (Encode doc).
Proof.
  intros H. destruct (Decode_body _ _ _ H) as (_ & fields & _ & Hb). destruct (decode_body_typed _ _ _ Hb) as [Ht _].
  split_and!; [by apply typed_modes|by eapply decode_body_enums|]. destruct (Decode_Encode _ _ _ H) as (-> & _). eauto.
Qed.

(** C29: the definition codec.  A document that Decode accepts is typed: every
    step has a registered type, its config carries the constructor of that type
    and only known enum values, and so every join mode is one the engine decodes.
    Encode succeeds on it, and Decode accepts what Encode wrote and returns the
    same document, except that an explicit empty tools or retry_on list is now
    absent and that a normal edge has lost the exhaust policy "proceed"; encoding
    that document again gives the same output.  Likewise for the plans a planner
    returns. *)
Theorem decode_encode_roundtrip size data :
  (∀ d, Decode size data = inr d →
     Forall typed_step (Steps (doc_Definition d)) ∧ known_modes (doc_Definition d) = true ∧
     ∃ out, Encode d = Some out ∧ Encode (canon_doc d) = Some out ∧
       ∀ size', size' ≤ MaxDefinitionBytes → Decode size' out = inr (canon_doc d)) ∧
  (∀ p, DecodePlanOutput size data = inr p →
     ∀ size', size' ≤ MaxDefinitionBytes → DecodePlanOutput size' (marshalPlan p) = inr (canon_plan p)).
Proof.
  split; [|apply DecodePlanOutput_rt]. intros d H. destruct (Decode_body _ _ _ H) as (_ & fields & _ & Hb).
  destruct (decode_body_typed _ _ _ Hb) as [Ht _]. destruct (Decode_Encode _ _ _ H) as (He & Hc & Hd).
  split_and!; [done|by apply typed_modes|]. exists (JObj (emit (doc_slots d))). split_and!; [done|by rewrite Hc|done].
Qed.

(** A document with an agent whose role admits no tools. *)
Definition sample_document : json :=
  JObj [("schema_version", JNum 1); ("name", JStr "triage");
        ("agents", JObj [("reader", JObj [("model", JStr "m"); ("tools", JArr [])])]);
        ("steps", JArr [JObj [("id", JStr "read"); ("type", JStr "agent"); ("config", JObj [("agent", JStr "reader")]);
                              ("retry", JObj [("max_attempts", JNum 3); ("backoff", JObj [("multiplier", JNum 2)])])];
                        JObj [("id", JStr "done"); ("type", JStr "join"); ("config", JObj [("mode", JStr "any")])]]);
        ("edges", JArr [JObj [("from", JStr "read"); ("to", JStr "done")];
                        JObj [("from", JStr "done"); ("to", JStr "read"); ("type", JStr "loop"); ("max_iterations", JNum 2)]])].
Definition sample_plan : json :=
  JObj [("schema_version", JNum 1); ("steps", JArr [JObj [("id", JStr "a"); ("type", JStr "noop")]])].

Lemma decode_encode_roundtrip_witness :
  (∃ d out, Decode 600 sample_document = inr d ∧ Encode d = Some out ∧ Decode 600 out = inr (canon_doc d) ∧
     length (Steps (doc_Definition d)) = 2%nat) ∧
  ∃ p, DecodePlanOutput 80 sample_plan = inr p ∧ DecodePlanOutput 80 (marshalPlan p) = inr (canon_plan p).
Proof.
  split.
  - destruct (Decode 600 sample_document) as [|d] eqn:E; [vm_compute in E; discriminate|].
    destruct (proj1 (decode_encode_roundtrip 600 sample_document) d E) as (_ & _ & out & Ho & _ & Hd).
    exists d, out. split_and!; [done|done|by apply Hd|].
    assert (match Decode 600 sample_document with inr d => length (Steps (doc_Definition d)) | _ => 0%nat end = 2%nat) as Hl
      by (vm_compute; reflexivity). by rewrite E in Hl.
  - destruct (DecodePlanOutput 80 sample_plan) as [|p] eqn:E; [vm_compute in E; discriminate|].
    exists p. split; [done|]. by apply (proj2 (decode_encode_roundtrip 80 sample_plan) p E).
Defined.

(** The role's empty tool list does not survive: the definition read back from the
    encoding is another one. *)
Theorem empty_tools_not_kept :
  ∃ d out d', Decode 600 sample_document = inr d ∧ Encode d = Some out ∧ Decode 600 out = inr d' ∧ d ≠ d'.
Proof.
  destruct (Decode 600 sample_document) as [|d] eqn:E; [vm_compute in E; discriminate|].
  destruct (Decode_Encode _ _ _ E) as (He & _ & Hd). exists d, (JObj (emit (doc_slots d))), (canon_doc d).
  split_and!; [done|done|by apply Hd|]. intros Hc.
  assert (match Decode 600 sample_document with
          | inr d => match Agents (doc_Definition d) !! "reader" with Some (Some a) => ad_Tools a | _ => None end
          | _ => None
          end = Some []) as Hl by (vm_compute; reflexivity).
  rewrite E in Hl. rewrite Hc in Hl. clear -Hl. cbn in Hl. rewrite lookup_fmap in Hl.
  destruct (Agents (doc_Definition d) !! "reader") as [[a|]|]; try done. cbn in Hl. by destruct (ad_Tools a) as [[]|].
Qed.
