(* ===== verification/SubmitProps.v ===== *)
(** Validation and submission: what the definitions [Validate] accepts satisfy,
    and the outcomes of [CreateRun]. *)
From Stdlib Require Import QArith Ascii.
From stdpp Require Import relations.
From S2P Require Import Prelude Issues GoStd Retry StoreModel Transitions Effects StoreInv StoreSpecs StoreSystem StoreTheorems Config Template Dag GraphFacts Cycles Validate ValidateGraph ReadyFacts Instantiate DagProps CycleProps ValidateFacts WellFormed Engine EngineInv Moves GraphInv EngineStart StoreProps Upholds EngineSystem Codec Decode DecodeProps Submit.
Open Scope Z_scope.

(** ** Accepted definitions *)

(** C34: a definition Validate accepts is well formed.  Its ids are distinct and
    match the grammar, its edges join known steps, its normal edges are acyclic
    with an entry step, every loop edge leads back to a step that reaches it with
    1 to 100 iterations, every predicate compiles to a boolean; every llm, planner
    and (resolved) agent step is a complete model call, a map names a declared
    acyclic template with one sink, a branch leaves at most its last edge
    unconditioned, an approval routes rejections exactly when it has a reject
    edge; every resolved retry policy can be followed; every strict template
    reference and every step_output source names a strictly upstream step or a
    declared parameter; and the deadline parses. *)
Theorem accepted_definitions CompileExpr textTemplateParses d :
  err (Validate CompileExpr textTemplateParses d) = [] → well_formed CompileExpr textTemplateParses d.
Proof. apply accepted_well_formed. Qed.
Lemma accepted_definitions_witness :
  err (Validate (λ _, ExprOK) (λ _, true) sample_workflow) = [] ∧
  tc (edge_rel sample_workflow) "draft" "review".
Proof.
  assert (err (Validate (λ _, ExprOK) (λ _, true) sample_workflow) = []) as E by (vm_compute; reflexivity).
  split; [exact E|].
  apply (wf_loops _ _ _ (accepted_definitions (λ _, ExprOK) (λ _, true) sample_workflow E)
    (mkLoopEdge "review" "draft" "" EdgeTypeLoop "retry" 3 "" None "")); [|reflexivity].
  apply list_elem_of_In. do 4 right. left. reflexivity.
Defined.

(** ** Submission *)
Section submission.
Context (ev : string → option json → option json → option bool) (rd : ResolvedRetryPolicy → Z → option Z).
Context (CompileExpr : string → exprResult) (textTemplateParses : list outSeg → bool).
Context (fingerprint : json → option json → string → string).
Abbreviation CreateRun := (CreateRun CompileExpr textTemplateParses fingerprint).
Abbreviation issues doc := (err (Validate CompileExpr textTemplateParses (doc_Definition doc))).

(** The fingerprint of a submission's payload: the canonical encoding of the
    document (every decoded one has it), the params and the definition ref. *)
Definition payload (doc : Document) (args : CreateRunArgs) : string :=
  fingerprint (default JNull (Encode doc)) (cr_Params args) (cr_DefinitionID args).
(** The arguments the insert is called with. *)
Definition fingerprinted (doc : Document) (args : CreateRunArgs) : CreateRunArgs :=
  args <| cr_Fingerprint := if empty_str (cr_IdempotencyToken args) then "" else payload doc args |>.

(** A submission past its argument checks, as a function of the two lookups. *)
Lemma CreateRun_accepted doc args d0 d : cr_Now args ≠ 0 → slen (cr_IdempotencyToken args) ≤ MaxIdempotencyTokenLength →
  is_Some (Encode doc) → issues doc = [] → ∃ p, planGraph (doc_Definition doc) = inr p ∧
  CreateRun doc args d0 d =
    match (if empty_str (cr_IdempotencyToken args) then None else GetByIdempotencyToken (cr_IdempotencyToken args) d0) with
    | Some run => (checkedReuse run (cr_IdempotencyToken args) (payload doc args), d)
    | None =>
        match WithTx (insert_run p (fingerprinted doc args)) d with
        | (Ok run, d', _) => (inr (Created run (pl_entry p)), d')
        | (Fail e, _, _) =>
            if negb (empty_str (cr_IdempotencyToken args)) && token_conflict e then
              match GetByIdempotencyToken (cr_IdempotencyToken args) d with
              | Some run => (checkedReuse run (cr_IdempotencyToken args) (payload doc args), d)
              | None => (inl (CreateTx e), d)
              end
            else (inl (CreateTx e), d)
        end
    end.
Proof.
  intros Hn Hl [snap He] Hi. destruct (wf_plan _ _ _ (accepted_well_formed _ _ _ Hi)) as [p Hp]. exists p. split; [done|].
  unfold CreateRun, planInstantiation, fingerprinted, payload.
  by rewrite (proj2 (Z.eqb_neq _ _) Hn), (proj2 (Z.ltb_ge _ _) Hl), Hi, He, Hp.
Qed.

Lemma GetByIdempotencyToken_spec tok d y : GetByIdempotencyToken tok d = Some y →
  y ∈ runs d ∧ run_IdempotencyToken y = Some tok.
Proof.
  intros [Hin Ht]%find_some. split; [by apply list_elem_of_In|]. by apply bool_decide_eq_true in Ht.
Qed.
Lemma GetByIdempotencyToken_taken tok d : token_taken (nullableText tok) d = true →
  tok ≠ "" ∧ ∃ y, GetByIdempotencyToken tok d = Some y.
Proof.
  rewrite token_taken_spec. intros (Hne & y & Hy & Et). split; [done|].
  destruct (GetByIdempotencyToken tok d) as [z|] eqn:E; [eauto|].
  assert (has_token tok y = false) as H by (apply (find_none _ _ E); by apply list_elem_of_In).
  unfold has_token in H. by apply bool_decide_eq_false in H.
Qed.

(** An accepted submission that is not a replay. *)
Record created (def : Definition_) (args : CreateRunArgs) (d d' : DB) (y : Run) (entry : list string) : Prop := mkCreated {
  cd_reachable : engine_reachable ev rd d';
  cd_run : run_ID y = cr_RunID args ∧ run_Status y = RunStatusRunning;
  cd_fresh : (∀ z, z ∈ runs d → run_ID z ≠ cr_RunID args) ∧
    (cr_IdempotencyToken args ≠ "" → ∀ z, z ∈ runs d → run_IdempotencyToken z ≠ Some (cr_IdempotencyToken args));
  cd_definition : definition_known (cr_DefinitionID args) d = true;
  cd_entry : entry ≠ [] ∧ ∀ s, s ∈ Steps def → ID s ∈ entry ↔ ∀ a, ¬ edge_rel def a (ID s);
  cd_deadline : ∀ t, run_DeadlineAt y = Some t → cr_Now args < t ≤ cr_Now args + MaxRunWallClock;
  cd_retry : ∃ rows, run_steps d' = run_steps d ++ rows ∧ length rows = length (Steps def) ∧
    Forall (λ x, ∃ rp, decodeRetryPolicy (env_RetryPolicy (step_Envelope x)) = Some rp ∧ retry_ok rp) rows
}.

Lemma insert_created def args args' p d d' evs rows : engine_reachable ev rd d → known_modes def = true →
  well_formed CompileExpr textTemplateParses def → planGraph def = inr p →
  existsb (is_run (cr_RunID args)) (runs d) = false → token_taken (nullableText (cr_IdempotencyToken args)) d = false →
  definition_known (cr_DefinitionID args) d = true →
  cr_RunID args' = cr_RunID args → cr_Now args' = cr_Now args →
  WithTx (insert_run p args') d = (Ok (run_row p args'), d', evs) →
  run_steps d' = run_steps d ++ rows → step_rows p args' (Steps def) = inr rows →
  created def args d d' (run_row p args') (pl_entry p).
Proof.
  intros Hr Hk W Hp Hf Ht Hd Ei En E Es Hrows. destruct (planGraph_spec _ _ Hp) as (Ed & _).
  destruct (plan_entry def p Hp) as [_ Hen]. split.
  - eapply er_submit; [exact Hr|by apply (wf_decoded _ _ def W)|exact Hp|exact E].
  - done.
  - split.
    + intros z Hz Eid. apply existsb_false in Hf. rewrite Forall_forall in Hf. specialize (Hf z Hz).
      unfold is_run in Hf. by apply bool_decide_eq_false in Hf.
    + intros Hne z Hz Etok. apply not_true_iff_false in Ht. apply Ht, token_taken_spec. eauto.
  - done.
  - split; [|done]. destruct (wf_entry _ _ _ W) as (s & Hs & Hno). apply (Hen s Hs) in Hno. by intros E0; rewrite E0 in Hno; apply not_elem_of_nil in Hno.
  - intros t. cbn. rewrite Ed, En. destruct (wf_deadline_parses _ _ def W (cr_Now args)) as (dl & -> & Hdl). cbn. apply Hdl.
  - exists rows. split_and!; [done| |by eapply (rows_retry _ _ def W)].
    symmetry. by eapply Forall2_length, step_rows_spec.
Qed.

(** What each outcome of a submission says. *)
Definition outcome (doc : Document) (args : CreateRunArgs) (d0 d : DB) (r : (CreateErr + CreateRunResult) * DB) : Prop :=
  let tok := cr_IdempotencyToken args in
  let replay y := tok ≠ "" ∧ (y ∈ runs d0 ∨ y ∈ runs d) ∧ run_IdempotencyToken y = Some tok in
  match r with
  | (inr (Created y entry), d') => created (doc_Definition doc) args d d' y entry
  | (inr (Reused y), d') =>
      d' = d ∧ replay y ∧ (run_IdempotencyFingerprint y = None ∨ run_IdempotencyFingerprint y = Some (payload doc args))
  | (inl e, d') => d' = d ∧
      match e with
      | CreateZeroNow => cr_Now args = 0
      | CreateTokenTooLong => MaxIdempotencyTokenLength < slen tok
      | CreateInvalid l => l = issues doc ∧ l ≠ []
      | CreatePlan _ => False
      | CreateTx e =>
          (e = ErrUnique "runs_pkey" ∧ ∃ y, y ∈ runs d ∧ run_ID y = cr_RunID args) ∨
          (e = ErrUnique "runs_definition_id_fkey" ∧ cr_DefinitionID args ≠ "" ∧
             ∀ w, w ∈ workflow_definitions d → wd_ID w ≠ cr_DefinitionID args)
      | IdempotencyMismatch t r => t = tok ∧
          ∃ y f, replay y ∧ run_ID y = r ∧ run_IdempotencyFingerprint y = Some f ∧ f ≠ payload doc args
      end
  end.

Lemma checkedReuse_outcome doc args d0 d y : cr_IdempotencyToken args ≠ "" → (y ∈ runs d0 ∨ y ∈ runs d) →
  run_IdempotencyToken y = Some (cr_IdempotencyToken args) →
  outcome doc args d0 d (checkedReuse y (cr_IdempotencyToken args) (payload doc args), d).
Proof.
  intros Hne Hin Et. unfold checkedReuse. destruct (run_IdempotencyFingerprint y) as [f|] eqn:Ef.
  - case_bool_decide as E; cbn; [subst f; auto|]. split_and!; try done. by exists y, f.
  - cbn. auto.
Qed.
Lemma definition_unknown id d : definition_known id d = false → id ≠ "" ∧ ∀ w, w ∈ workflow_definitions d → wd_ID w ≠ id.
Proof.
  unfold definition_known. intros [Hn%bool_decide_eq_false Hw]%orb_false_iff. split; [done|]. intros w Hin.
  apply existsb_false in Hw. rewrite Forall_forall in Hw. specialize (Hw w Hin). by apply bool_decide_eq_false in Hw.
Qed.

Lemma find_filter_one {A} (q : A → bool) l x : List.filter q l = [x] → find q l = Some x.
Proof. induction l as [|a l IH]; cbn; [done|]. destruct (q a); [by intros [= ->]|auto]. Qed.

(** After a creation with a token, that token is bound to the run and to the
    payload's fingerprint. *)
Lemma created_bound doc args d0 d y entry d' : engine_reachable ev rd d → is_Some (Encode doc) →
  known_enums (doc_Definition doc) = true →
  CreateRun doc args d0 d = (inr (Created y entry), d') → cr_IdempotencyToken args ≠ "" →
  bound (cr_IdempotencyToken args) (cr_RunID args) (Some (payload doc args)) d' ∧
    slen (cr_IdempotencyToken args) ≤ MaxIdempotencyTokenLength ∧ db_inv d'.
Proof.
  intros Hr He Hk Hc Hne. assert (cr_Now args ≠ 0 ∧ slen (cr_IdempotencyToken args) ≤ MaxIdempotencyTokenLength ∧ issues doc = [])
    as (Hn & Hl & Hi).
  { unfold CreateRun in Hc. destruct (cr_Now args =? 0) eqn:E1; [done|]. destruct (_ <? _) eqn:E2; [done|].
    destruct (err _); [|done]. split_and!; [lia..|done]. }
  destruct (CreateRun_accepted doc args d0 d Hn Hl He Hi) as (p & Hp & E). rewrite E in Hc. clear E.
  pose proof (reachable_engine_inv _ _ d Hr) as I.
  destruct (if empty_str _ then _ else _) as [z|].
  { unfold checkedReuse in Hc. by repeat case_match. }
  pose proof (wf_insert _ _ _ (accepted_well_formed _ _ _ Hi) p (fingerprinted doc args) d Hn (ei_db _ I) Hk Hp) as Hins.
  destruct Hins as [(e & E & _)|(_ & Ht & _ & d1 & evs & rows & k & E & Ek & _)]; rewrite E in Hc.
  { unfold checkedReuse in Hc. by repeat case_match. }
  injection Hc as _ _ ->. apply not_true_iff_false in Ht. rewrite token_taken_spec in Ht. cbn in Ht.
  assert (run_IdempotencyToken (run_row p (fingerprinted doc args)) = Some (cr_IdempotencyToken args)) as Etok
    by (cbn; unfold nullableText; by rewrite bool_decide_eq_false_2).
  split_and!; [|done|].
  - exists (advance k (run_row p (fingerprinted doc args))). split_and!; [|done|].
    + rewrite Ek, List.filter_app, (filter_none _ (runs d)).
      * cbn. unfold has_token. cbn in *. by rewrite Etok, bool_decide_eq_true_2.
      * intros z Hz. apply bool_decide_eq_false. intros Ez. apply Ht. eauto.
    + cbn. by rewrite bool_decide_eq_false_2, (proj2 (empty_str_spec _) Hne) by done.
  - unfold WithTx in E. destruct (insert_run p _ _) as [[z|e] d2] eqn:E2; [|done]. injection E as _ <- _.
    apply inv_tx_events. by eapply (insert_run_inv (doc_Definition doc)); [apply inv_tx_events, I|exact Hp|exact E2].
Qed.

(** A replay against a bound token. *)
Lemma bound_reuse doc2 args2 tok id fp d : bound tok id (Some fp) d → ∃ y', GetByIdempotencyToken tok d = Some y' ∧
  run_ID y' = id ∧ y' ∈ runs d ∧ checkedReuse y' tok (payload doc2 args2) =
    if bool_decide (payload doc2 args2 = fp) then inr (Reused y') else inl (IdempotencyMismatch tok id).
Proof.
  intros (y & Hy & Ei & Ef). exists y. apply find_filter_one in Hy. split_and!; [done|done|by apply GetByIdempotencyToken_spec in Hy as [? _]|].
  unfold checkedReuse. rewrite Ef, Ei. do 2 case_bool_decide; congruence.
Qed.


(** C36: submission is idempotent.  Once a submission with a token created a run
    (in a database the engine reaches, under the conditions of C21), then after any further submissions, registrations and transactions of the
    engine, completions that splice a plan included, the token still belongs to
    that one run, with the same fingerprint; and a submission of an accepted
    document with that token, whether its pre-check finds the run or raced past it
    (in which case its own run id must be a fresh one), writes nothing and returns
    the run when the payload fingerprints agree, a mismatch naming the run when
    they differ. *)
Theorem create_run_idempotent size data doc args d0 d y entry d1 d2 size' data' doc' args' d0' :
  engine_reachable ev rd d → Decode size data = inr doc → Decode size' data' = inr doc' →
  CreateRun doc args d0 d = (inr (Created y entry), d1) → cr_IdempotencyToken args ≠ "" →
  rtc (engine_step ev rd) d1 d2 →
  cr_IdempotencyToken args' = cr_IdempotencyToken args → cr_Now args' ≠ 0 → issues doc' = [] →
  (rtc (engine_step ev rd) d1 d0' ∨
   GetByIdempotencyToken (cr_IdempotencyToken args) d0' = None ∧ ∀ z, z ∈ runs d2 → run_ID z ≠ cr_RunID args') →
  bound (cr_IdempotencyToken args) (cr_RunID args) (Some (payload doc args)) d2 ∧
  ∃ y', run_ID y' = cr_RunID args ∧ (y' ∈ runs d0' ∨ y' ∈ runs d2) ∧
    CreateRun doc' args' d0' d2 =
      (if bool_decide (payload doc' args' = payload doc args) then inr (Reused y')
       else inl (IdempotencyMismatch (cr_IdempotencyToken args) (cr_RunID args)), d2).
Proof.
  intros Hr (_ & Hk & He)%Decode_submittable (_ & Hk' & He')%Decode_submittable Hc Hne S2 Etok Hn' Hi' Hpre.
  destruct (created_bound doc args d0 d y entry d1 Hr He Hk Hc Hne) as (B1 & Hlen & H1).
  destruct (engine_steps_bound ev rd _ _ _ d1 d2 H1 B1 S2) as [H2 B2]. split; [done|].
  destruct (CreateRun_accepted doc' args' d0' d2 Hn') as (p & Hp & ->); [by rewrite Etok|done..|]. rewrite Etok.
  rewrite (proj2 (empty_str_spec _) Hne). destruct Hpre as [S0|[-> Hid]].
  { destruct (engine_steps_bound ev rd _ _ _ d1 d0' H1 B1 S0) as [_ B0].
    destruct (bound_reuse doc' args' _ _ _ _ B0) as (y' & -> & Ei & Hin & ->). exists y'. auto. }
  destruct (bound_reuse doc' args' _ _ _ _ B2) as (y' & Hget & Ei & Hin & Hre). exists y'. split_and!; [done|by right|].
  destruct (wf_insert _ _ _ (accepted_well_formed _ _ _ Hi') p (fingerprinted doc' args') d2 Hn' H2 Hk' Hp)
    as [(e & -> & Hcf)|(_ & Ht & _)].
  - destruct Hcf as [z Hz Ez|_|Ht _]; [by destruct (Hid z)|cbn; by rewrite Hget, Hre|]. exfalso. revert Ht. cbn. rewrite Etok.
    apply eq_true_false_abs, token_taken_spec. split; [done|]. exists y'. by apply GetByIdempotencyToken_spec.
  - exfalso. revert Ht. cbn. rewrite Etok.
    apply eq_true_false_abs, token_taken_spec. split; [done|]. exists y'. by apply GetByIdempotencyToken_spec.
Qed.
End submission.

Module SubmitDemo.
Definition ev (_ : string) (_ _ : option json) : option bool := Some true.
Definition rd (_ : ResolvedRetryPolicy) (_ : Z) : option Z := Some 5.
(** A fingerprint of the definition ref. *)
Definition fp (_ : json) (_ : option json) (ref : string) : string := "ref:" +:+ ref.
(** The sample workflow, as a document. *)
Definition data : json := default JNull (Encode (mkDocument 1 "" None sample_workflow)).
Definition doc : Document := match Decode 4000 data with inr d => d | inl _ => mkDocument 0 "" None sample_workflow end.
Lemma decodes : Decode 4000 data = inr doc.
Proof. vm_compute. reflexivity. Qed.
Definition args : CreateRunArgs := mkCreateRunArgs 1 "" None 10 noTrace "order-7" "".
Definition replay : CreateRunArgs := mkCreateRunArgs 2 "other" None 20 noTrace "order-7" "".
Definition submit : (CreateErr + CreateRunResult) * DB :=
  CreateRun (λ _, ExprOK) (λ _, true) fp doc args empty_db empty_db.
(** ... and its entry step claimed. *)
Definition claimed : DB := (WithTx (engine_tx ev rd (EClaim 1 "classify" 11 "" "w1" 7)) submit.2).1.2.
End SubmitDemo.
(** A replay that raced past the pre-check, after the entry step was claimed. *)
Lemma create_run_idempotent_witness :
  CreateRun (λ _, ExprOK) (λ _, true) SubmitDemo.fp SubmitDemo.doc SubmitDemo.replay empty_db SubmitDemo.claimed =
    (inl (IdempotencyMismatch "order-7" 1), SubmitDemo.claimed) ∧
  bound "order-7" 1 (Some "ref:") SubmitDemo.claimed.
Proof.
  assert (∃ y d', SubmitDemo.submit = (inr (Created y ["classify"]), d')) as (y & d' & E)
    by (eexists _, _; vm_compute; reflexivity).
  assert (engine_step SubmitDemo.ev SubmitDemo.rd d' SubmitDemo.claimed) as S.
  { replace d' with SubmitDemo.submit.2 by (by rewrite E).
    apply (es_op _ _ _ (EClaim 1 "classify" 11 "" "w1" 7) _
      (WithTx (engine_tx SubmitDemo.ev SubmitDemo.rd (EClaim 1 "classify" 11 "" "w1" 7)) SubmitDemo.submit.2).2).
    vm_compute. reflexivity. }
  destruct (create_run_idempotent SubmitDemo.ev SubmitDemo.rd (λ _, ExprOK) (λ _, true) SubmitDemo.fp 4000 SubmitDemo.data
    SubmitDemo.doc SubmitDemo.args empty_db empty_db y ["classify"] d' SubmitDemo.claimed 4000 SubmitDemo.data SubmitDemo.doc
    SubmitDemo.replay empty_db (er_empty _ _) SubmitDemo.decodes SubmitDemo.decodes E) as (B & y' & H1 & H2 & H3).
  - done.
  - apply rtc_once, S.
  - reflexivity.
  - done.
  - vm_compute. reflexivity.
  - right. split; [reflexivity|]. intros z Hz.
    assert (run_ID <$> runs SubmitDemo.claimed = [1%positive]) as Hids by (vm_compute; reflexivity).
    assert (run_ID z ∈ run_ID <$> runs SubmitDemo.claimed) as Hin by (by apply list_elem_of_fmap_2). rewrite Hids in Hin.
    apply list_elem_of_singleton in Hin as ->. done.
  - split; [exact H3|exact B].
Defined.
