(* ===== verification/MapProps.v ===== *)
(** What the generators of maps and loops guarantee to the completion that splices
    their delta (mapexpand.go, mapvalidate.go, expand.go), the plan of the next
    iteration and the bound on iterations (loop.go, loopexpand.go). *)
From Stdlib Require Import QArith Ascii.
From stdpp Require Import pretty relations.
From S2P Require Import Prelude GoStd Retry Issues StoreModel Config Template TemplateFacts Transitions StoreSystem Dag GraphFacts Cycles Validate ValidateGraph Codec Expansion Decode MapExpand Pointer ReadyFacts Instantiate Expand DagProps CycleProps ValidateFacts WellFormed ExpansionFacts RefRewrite CodecFacts DecodeFacts TreeRewrite MapFacts MapPlan Engine StoreProps EngineInv Moves GraphInv EngineGraph EngineStart ExpandTx Loop LoopFacts Submit DecodeProps.
Open Scope Z_scope.

(** * Maps *)

(** Typed steps have joins the engine can decode. *)
Lemma typed_join s : typed_step s → join_config_ok s = true.
Proof.
  intros [_ Hc]. unfold join_config_ok. case_bool_decide as Et; [|done]. destruct (Config s) as [c|]; [|done].
  destruct (Hc c eq_refl) as [Hm He]. specialize (He ""). rewrite Et in Hm.
  destruct c; try (by vm_compute in Hm). unfold config_enums, check_enum, err_if, join_mode_ok in *. cbn in He.
  repeat case_bool_decide; try done; set_solver.
Qed.

(** A delta that enters only its own, new steps. *)
Lemma fresh_spliceable r plan d : forallb join_config_ok (po_Steps plan) = true →
  (∀ e, e ∈ po_Edges plan → To e ∈ ID <$> po_Steps plan) → (∀ id, id ∈ ID <$> po_Steps plan → row d r id = None) →
  spliceable r plan d.
Proof.
  intros Hj Hto Hfresh. split; [done|]. intros e He _ Hd. specialize (Hfresh _ (Hto e He)). inversion Hd; congruence.
Qed.

Section maps.
Context (CompileExpr : string → exprResult) (tp : list outSeg → bool).

End maps.

(** A map whose body reads its item and then its own first step. *)
Definition map_document : json :=
  JObj [("schema_version", JNum 1); ("name", JStr "digest");
        ("templates", JObj [("body", JObj
          [("steps", JArr [JObj [("id", JStr "get"); ("type", JStr "echo"); ("config", JObj [("input", JStr "${{ item.url }}")])];
                           JObj [("id", JStr "sum"); ("type", JStr "echo");
                                 ("config", JObj [("input", JStr "${{ steps.get.output }} of ${{ item_index }}")])]]);
           ("edges", JArr [JObj [("from", JStr "get"); ("to", JStr "sum")]])])]);
        ("steps", JArr [JObj [("id", JStr "list"); ("type", JStr "map");
                              ("config", JObj [("items", JStr "${{ run.params.urls }}"); ("body", JStr "body")])]]);
        ("params", JObj [("urls", JObj [("type", JStr "array")])]);
        ("edges", JArr [])].
Definition anyExpr (_ : string) : exprResult := ExprOK.
Definition anyText (_ : list outSeg) : bool := true.
Definition map_definition : Definition_ :=
  match Decode 600 map_document with inr doc => doc_Definition doc | inl _ => plainDefinition "" "" [] [] end.
Definition map_body : Template := match Templates map_definition !! "body" with Some (Some t) => t | _ => mkTemplate [] [] end.

(** A run with the map step alone. *)
Definition map_db : DB :=
  empty_db <| run_steps := [stepRowParams 1 (default zero_step (Steps map_definition !! 0%nat))
                              (mkPlacement StepStatusRunning 0 1 0 None None) 10] |>.


(** * Loops *)

Lemma ResolveAgentStep_id def s s' : ResolveAgentStep def s = inr s' → ID s' = ID s.
Proof. unfold ResolveAgentStep. intros H. repeat case_match; simplify_eq; done. Qed.
Lemma clone_step_id id rw ctx s s' : clone_step id rw ctx s = inr s' → ID s' = id.
Proof. unfold clone_step. intros H. repeat case_match; simplify_eq; done. Qed.

(** What any generated iteration is called. *)
Lemma loop_plan_ids def e cur k plan : NoDup (ID <$> Steps def) → From e ∈ ID <$> Steps def → To e ∈ ID <$> Steps def →
  tc (edge_rel def) (To e) (From e) → GenerateLoopExpansion def e cur k = inr plan →
  ∃ body : gset string, (∀ id, id ∈ body → id ∈ ID <$> Steps def) ∧ From e ∈ body ∧
    ID <$> po_Steps plan = (λ id, instanceID id k) <$> merge_sort String.le (elements body).
Proof.
  intros Hnd Hf Ht Hr. unfold GenerateLoopExpansion. destruct (NewGraph def) as [|g] eqn:Eg; [done|]. apply NewGraph_spec in Eg as G.
  destruct (loopBody_spec def g G (From e) (To e) Hf Ht) as (body & -> & Hb).
  destruct (sequence _) as [|steps] eqn:Es; [done|]. destruct (exit_edges _ _ _ _); [done|]. intros [= <-]. exists body.
  assert (∀ id, id ∈ body → id ∈ ID <$> Steps def) as Hkn.
  { intros id Hid. apply Hb in Hid; [|done]. by apply (in_body_known def g G _ _ _ Hf Ht Hid). }
  split_and!; [done|apply Hb; [done|by left]|]. cbn. apply sequence_ok in Es.
  assert (∀ id, id ∈ merge_sort String.le (elements body) → id ∈ ID <$> Steps def) as Hin.
  { intros id. rewrite (merge_sort_Permutation String.le), elem_of_elements. apply Hkn. }
  clear -Es Hnd Hin. induction Es as [|id s l steps E _ IH]; [done|]. rewrite !fmap_cons, IH by (intros; apply Hin; by right). f_equal.
  assert (id ∈ ID <$> Steps def) as (x & -> & Hx)%list_elem_of_fmap by (apply Hin; by left).
  unfold loop_step in E. rewrite (step_by_id _ x Hnd Hx) in E. cbv zeta in E. change (from_option Datatypes.id zero_step (Some x)) with x in E.
  unfold rewriteLoopBodyStep in E. case_bool_decide.
  - destruct (ResolveAgentStep def x) as [|x'] eqn:Ex; [done|]. rewrite <-(ResolveAgentStep_id _ _ _ Ex). by eapply clone_step_id.
  - by eapply clone_step_id.
Qed.

Section loops.
Context (CompileExpr : string → exprResult) (tp : list outSeg → bool).
Context (evalWhen : string → option json → option json → option bool) (digest : json → string).

(** [y] is the instance of the same step in the iteration that the completion of
    [x] starts, whatever was stored and produced. *)
Definition loop_next (snapshot : Z * json) (x y : string) : Prop :=
  ∃ d runID out params plan, loopDecision evalWhen digest d snapshot runID x out params = inr (loopContinue plan) ∧
    y ∈ ID <$> po_Steps plan ∧ authoredStepID y = authoredStepID x.

Lemma loop_next_inv snapshot doc x y : Decode snapshot.1 snapshot.2 = inr doc →
  err (Validate CompileExpr tp (doc_Definition doc)) = [] → loop_next snapshot x y →
  ∃ e, e ∈ Edges (doc_Definition doc) ∧ findLoopEdge (doc_Definition doc) (authoredStepID x) = Some e ∧
    findLoopEdge (doc_Definition doc) (authoredStepID y) = Some e ∧
    y = instanceID (From e) (loopIteration x + 1) ∧ loopIteration y = loopIteration x + 1 ∧
    loopIteration y ≤ MaxIterations e ≤ MaxLoopIterations.
Proof.
  intros Ed Hv (d & r & out & params & plan & H & Hy & Ha). unfold loopDecision in H. rewrite Ed in H. cbv zeta in H.
  set (def := doc_Definition doc) in *. destruct (findLoopEdge def (authoredStepID x)) as [e|] eqn:Ee; [|done].
  destruct (evalWhen _ _ _) as [[]|]; try done. destruct (MaxIterations e <=? loopIteration x) eqn:Em; [done|].
  match type of H with context [match ?m with Some _ => _ | None => _ end] => destruct m as [[]|]; [done|] end.
  destruct (GenerateLoopExpansion _ _ _ _) as [|plan'] eqn:Eg; [done|]. simplify_eq.
  unfold findLoopEdge in Ee. apply find_some in Ee as Hfind. destruct Hfind as [He%list_elem_of_In [Hl Hfrom%bool_decide_eq_true]%andb_prop].
  pose proof (accepted_well_formed CompileExpr tp def Hv) as W. destruct (wf_loops _ _ _ W e He Hl) as (Hr & Hm & _).
  destruct (wf_ends _ _ _ W e He) as [Hf Ht].
  destruct (loop_plan_ids def e x _ plan (wf_ids _ _ _ W) Hf Ht Hr Eg) as (body & Hkn & _ & Hids).
  rewrite Hids in Hy. apply list_elem_of_fmap in Hy as (b & -> & Hb). pose proof (iteration_nonneg x) as H0.
  rewrite (merge_sort_Permutation String.le), elem_of_elements in Hb. apply Hkn in Hb as (s & -> & Hs)%list_elem_of_fmap.
  assert (plain_id (ID s)) as Hp by (apply stepID_chars; by apply (wf_steps _ _ _ W s Hs)).
  rewrite authored_instance in Ha |- * by done. rewrite Ha.
  assert (loopIteration (instanceID (authoredStepID x) (loopIteration x + 1)) = loopIteration x + 1) as Hi.
  { rewrite <-Ha. apply iteration_instance; [done|lia|]. unfold in_int, MaxLoopIterations in *. lia. }
  exists e. rewrite Hfrom. split_and!; try done; lia.
Qed.

(** C16: loops terminate.  In an accepted definition every iteration that a
    completion starts is the next one, of the loop edge that the completing
    instance belongs to, and its number is at most the edge's max_iterations; so
    from no instance can more than max_iterations iterations follow one another,
    whatever the conditions, the outputs and the stored rows are, and never more
    than the global limit. *)
Theorem loop_terminates snapshot doc n x y : Decode snapshot.1 snapshot.2 = inr doc →
  err (Validate CompileExpr tp (doc_Definition doc)) = [] → nsteps (loop_next snapshot) n x y →
  Z.of_nat n ≤ MaxLoopIterations ∧ loopIteration y = loopIteration x + Z.of_nat n ∧
  (n ≠ 0%nat → ∃ e, e ∈ Edges (doc_Definition doc) ∧ findLoopEdge (doc_Definition doc) (authoredStepID x) = Some e ∧
     y = instanceID (From e) (loopIteration y) ∧ loopIteration y ≤ MaxIterations e).
Proof.
  intros Ed Hv Hn. assert (loopIteration y = loopIteration x + Z.of_nat n ∧
    (n ≠ 0%nat → ∃ e, e ∈ Edges (doc_Definition doc) ∧ findLoopEdge (doc_Definition doc) (authoredStepID x) = Some e ∧
       y = instanceID (From e) (loopIteration y) ∧ loopIteration y ≤ MaxIterations e ≤ MaxLoopIterations)) as [Hy He].
  { induction Hn as [x|n x y z Hxy Hyz [IHi IHe]]; [split; [lia|done]|].
    destruct (loop_next_inv snapshot doc x y Ed Hv Hxy) as (e & He & Hx & Hfy & -> & Hi & Hm). split; [lia|]. intros _.
    destruct (decide (n = 0%nat)) as [->|Hn].
    - inversion Hyz; subst. exists e. rewrite Hi. split_and!; try done; lia.
    - destruct (IHe Hn) as (e' & He' & Hf' & Hz & Hm'). exists e'. split_and!; try done; try lia. congruence. }
  split_and!; [|done|].
  - destruct (decide (n = 0%nat)) as [->|Hne]; [done|]. destruct (He Hne) as (e & _ & _ & _ & Hm). pose proof (iteration_nonneg x). lia.
  - intros Hne. destruct (He Hne) as (e & ? & ? & ? & ? & ?). exists e. by split_and!.
Qed.
End loops.

(** ** The next iteration *)

Lemma exit_edges_sealed e body k l es : exit_edges (From e) body k l = inr es →
  ∀ x, x ∈ l → IsLoop x = false → From x ∈ body → To x ∉ body → From x = From e.
Proof.
  revert es. induction l as [|y l IH]; intros es; [by intros _ x ?%not_elem_of_nil|]. cbn [exit_edges]. intros E x [->|Hx]%elem_of_cons Hl Hf Ht.
  - rewrite Hl, (bool_decide_eq_false_2 _ Ht), bool_decide_eq_true_2 in E by set_solver. cbn [negb andb] in E.
    case_bool_decide; [done|discriminate].
  - destruct (_ && _); [|by eapply IH]. case_bool_decide; [|done]. destruct (exit_edges _ _ _ l) as [|es'] eqn:E'; [done|]. by eapply IH.
Qed.

(** An agent step that can be cloned: its role resolves, and the merged config is
    one the decoder reads and whose references parse. *)
Definition clonable_agent (tp : list outSeg → bool) (def : Definition_) (s : Step) : Prop :=
  ∀ s', ResolveAgentStep def s = inr s' → decoded_step s' ∧ linted tp s'.

Section unroll.
Context (CompileExpr : string → exprResult) (tp : list outSeg → bool).

(** C18: unrolling a loop.  For every loop edge of a decoded definition that
    Validate accepts, the body is the steps between the edge's target and its
    source.  The generator of an iteration succeeds only if no other step of the
    body has an edge out of it; and it does succeed then, provided the merged
    configs of the agents of the body decode and parse.  The plan is one clone of
    every body step, of an agent as merged with its role, under distinct ids of the
    instance space, with the strict references of its config and the step_output
    sources of its context moved to the same iteration where they name body steps;
    the edges are exactly those of the body between the clones and those of the
    source out of the body from its clone, with their conditions and decisions, and
    one from the completing instance to the clone of every body step without a
    predecessor in the body; so every clone runs after the completing instance and
    before the source's clone. *)
Theorem loop_expansion_correct size data doc e cur k : Decode size data = inr doc →
  err (Validate CompileExpr tp (doc_Definition doc)) = [] → e ∈ Edges (doc_Definition doc) → IsLoop e = true → 0 ≤ k →
  ∃ body : gset string, (∀ id, id ∈ body ↔ in_body (doc_Definition doc) (From e) (To e) id) ∧
    (∀ plan, GenerateLoopExpansion (doc_Definition doc) e cur k = inr plan → sealed (doc_Definition doc) e body) ∧
    (sealed (doc_Definition doc) e body →
     (∀ s, s ∈ Steps (doc_Definition doc) → ID s ∈ body → Type_ s = StepAgent → clonable_agent tp (doc_Definition doc) s) →
     ∃ plan, GenerateLoopExpansion (doc_Definition doc) e cur k = inr plan ∧
       loop_plan tp (doc_Definition doc) e body cur k plan).
Proof.
  intros Ed Hv He Hl Hk. set (def := doc_Definition doc) in *. pose proof (accepted_well_formed CompileExpr tp def Hv) as W.
  destruct (accepted_graph CompileExpr tp def Hv) as (g & Eg & G & _). destruct (wf_ends _ _ _ W e He) as [Hf Ht].
  destruct (wf_loops _ _ _ W e He Hl) as (Hr & _). destruct (wf_acyclic _ _ _ W) as [rank Hrank].
  destruct (loopBody_spec def g G (From e) (To e) Hf Ht) as (body & Eb & Hb). exists body. split_and!; [intros id; by apply Hb| |].
  - intros plan. unfold GenerateLoopExpansion. rewrite Eg, Eb. destruct (sequence _); [done|].
    destruct (exit_edges _ _ _ _) eqn:Ex; [done|]. intros _ x Hx. by eapply exit_edges_sealed.
  - intros Hs Ha. apply (loop_generated tp def g Eg (wf_ids _ _ _ W) (λ s Hs, proj1 (wf_steps _ _ _ W s Hs)) rank Hrank e Hf Ht Hr body Eb Hs cur k Hk).
    intros s Hin Hbody. case_bool_decide as Hty.
    + pose proof (wf_config _ _ _ W s Hin) as H. unfold config_ok, is_type in H. rewrite Hty in H.
      rewrite !(bool_decide_eq_false_2 (StepAgent = _)), bool_decide_eq_true_2 in H by done. destruct H as (s' & c & Es & _).
      exists s'. split_and!; [done|by eapply ResolveAgentStep_id|by apply (Ha s Hin Hbody Hty)..].
    + split; [by eapply decoded_steps|]. intros c Ec. destruct (wf_refs _ _ _ W s Hin c Ec) as (ts & refs & E & _). eauto.
Qed.
End unroll.

(** ** A loop *)

(** [draft] and [critique] iterate until the condition is false. *)
Definition echo_step (id input : string) : json :=
  JObj [("id", JStr id); ("type", JStr "echo"); ("config", JObj [("input", JStr input)])].
Definition normal_edge (a b : string) : json := JObj [("from", JStr a); ("to", JStr b)].
Definition loop_edge (a b : string) (most : Z) : json :=
  JObj [("from", JStr a); ("to", JStr b); ("type", JStr "loop"); ("condition", JStr "output.again"); ("max_iterations", JNum most)].
Definition document (fields : list (string * json)) (steps edges : list json) : json :=
  JObj ([("schema_version", JNum 1); ("name", JStr "demo")] ++ fields ++ [("steps", JArr steps); ("edges", JArr edges)]).
Definition loop_document : json :=
  document [] [echo_step "draft" "text"; echo_step "critique" "on ${{ steps.draft.output }}"; echo_step "done" "end"]
    [normal_edge "draft" "critique"; normal_edge "critique" "done"; loop_edge "critique" "draft" 2].
Definition decoded (doc : json) : Definition_ :=
  match Decode 2000 doc with inr d => doc_Definition d | inl _ => plainDefinition "" "" [] [] end.
Definition always (_ : string) (_ _ : option json) : option bool := Some true.
Definition noDigest (_ : json) : string := "".

Lemma loop_next_by ev dg d snapshot runID x y out params :
  match loopDecision ev dg d snapshot runID x out params with
  | inr (loopContinue plan) => bool_decide (y ∈ ID <$> po_Steps plan ∧ authoredStepID y = authoredStepID x)
  | _ => false
  end = true → loop_next ev dg snapshot x y.
Proof.
  destruct (loopDecision ev dg d snapshot runID x out params) as [|[|plan| | |]] eqn:E; try done.
  intros [? ?]%bool_decide_eq_true. by exists d, runID, out, params, plan.
Qed.

Lemma loop_terminates_witness : nsteps (loop_next always noDigest (2000, loop_document)) 2 "critique" "critique#2" ∧
  2 ≤ MaxLoopIterations ∧ loopIteration "critique#2" = 2.
Proof.
  destruct (Decode 2000 loop_document) as [|doc] eqn:E; [vm_compute in E; discriminate|].
  assert (err (Validate anyExpr anyText (doc_Definition doc)) = []) as Hv.
  { assert (err (Validate anyExpr anyText (decoded loop_document)) = []) as H by (vm_compute; reflexivity).
    unfold decoded in H. by rewrite E in H. }
  assert (nsteps (loop_next always noDigest (2000, loop_document)) 2 "critique" "critique#2") as Hn.
  { eapply nsteps_l; [apply (loop_next_by _ _ empty_db _ 1 "critique" "critique#1" None None); vm_compute; reflexivity|].
    eapply nsteps_l; [apply (loop_next_by _ _ empty_db _ 1 "critique#1" "critique#2" None None); vm_compute; reflexivity|]. apply nsteps_O. }
  split; [exact Hn|].
  destruct (loop_terminates anyExpr anyText always noDigest (2000, loop_document) doc 2 "critique" "critique#2" E Hv Hn) as (H1 & H2 & _).
  split; [exact H1|exact H2].
Defined.

(** The loop edge of the document, and its body. *)
Definition back_edge : Edge := default (mkEdge "" "" "" EdgeTypeNormal "") (Edges (decoded loop_document) !! 2%nat).
Definition iteration_one : PlanOutput :=
  match GenerateLoopExpansion (decoded loop_document) back_edge "critique" 1 with inr p => p | inl _ => mkPlanOutput 0 [] [] end.
Lemma back_edge_ok : back_edge ∈ Edges (decoded loop_document) ∧ IsLoop back_edge = true ∧
  GenerateLoopExpansion (decoded loop_document) back_edge "critique" 1 = inr iteration_one.
Proof.
  split_and!; [|vm_compute; reflexivity..]. apply list_elem_of_lookup_2 with (i := 2%nat). vm_compute. reflexivity.
Qed.
Lemma loop_document_body s : s ∈ Steps (decoded loop_document) → Type_ s ≠ StepAgent.
Proof.
  assert (forallb (λ s, negb (bool_decide (Type_ s = StepAgent))) (Steps (decoded loop_document)) = true) as H by (vm_compute; reflexivity).
  rewrite forallb_forall in H. intros Hs%list_elem_of_In%H. by apply negb_true_iff, bool_decide_eq_false in Hs.
Qed.
Lemma inr_eq {A B} (x y : B) : @inr A B x = inr y → x = y.
Proof. by intros [= ->]. Qed.
Lemma decoded_doc data doc : Decode 2000 data = inr doc → decoded data = doc_Definition doc.
Proof. unfold decoded. by intros ->. Qed.

Lemma loop_expansion_correct_witness : ∃ body plan, back_edge ∈ Edges (decoded loop_document) ∧ IsLoop back_edge = true ∧
  GenerateLoopExpansion (decoded loop_document) back_edge "critique" 1 = inr plan ∧
  loop_plan anyText (decoded loop_document) back_edge body "critique" 1 plan ∧
  ID <$> po_Steps plan = ["critique#1"; "draft#1"] ∧
  (λ x, (From x, To x)) <$> po_Edges plan = [("draft#1", "critique#1"); ("critique", "draft#1"); ("critique#1", "done")].
Proof.
  destruct back_edge_ok as (Hin & Hl & Hp).
  assert (err (Validate anyExpr anyText (decoded loop_document)) = []) as Hv by (vm_compute; reflexivity).
  destruct (Decode 2000 loop_document) as [|doc] eqn:E; [vm_compute in E; discriminate|]. pose proof (decoded_doc _ _ E) as Ed.
  pose proof (loop_expansion_correct anyExpr anyText 2000 loop_document doc back_edge "critique" 1 E) as T.
  rewrite <-Ed in T. destruct (T Hv Hin Hl ltac:(discriminate)) as (body & _ & Hs & Hg). clear T E Ed doc Hv.
  destruct (Hg (Hs iteration_one Hp)) as (plan & Hp' & P); [intros s Hsin _ Hty; exfalso; exact (loop_document_body s Hsin Hty)|].
  rewrite Hp in Hp'. apply inr_eq in Hp'. exists body, iteration_one. rewrite <-Hp' in P.
  split; [exact Hin|]. split; [exact Hl|]. split; [exact Hp|]. split; [exact P|]. split; vm_compute; reflexivity.
Defined.
