(* ===== verification/MapFindings.v ===== *)
(** Definitions that Validate accepts and that maps and loops then mishandle. *)
From S2P Require Import Prelude Issues GoStd Retry StoreModel Config Template TemplateFacts Transitions Dag Validate ValidateGraph Codec Expansion Decode MapExpand MapFacts Expand Engine StoreProps ExpandTx Pointer Loop MapProps.
Open Scope Z_scope.

Definition accepts (doc : json) : bool :=
  match Decode 2000 doc with inr d => bool_decide (err (Validate anyExpr anyText (doc_Definition d)) = []) | inl _ => false end.
Definition map_step (id body : string) : json :=
  JObj [("id", JStr id); ("type", JStr "map"); ("config", JObj [("items", JArr [JNum 1]); ("body", JStr body)])].
Definition template (steps edges : list json) : json := JObj [("steps", JArr steps); ("edges", JArr edges)].
Definition library (name : string) (def : Definition_) : option Template := default None (Templates def !! name).

(** ** Two maps over one body *)
Module TwoMaps.
Definition doc : json :=
  document [("templates", JObj [("body", template [echo_step "sum" "${{ item }}"] [])])]
    [map_step "a" "body"; map_step "b" "body"] [].
Definition plan_of (m : string) : PlanOutput :=
  match GenerateMapExpansion (library "body" (decoded doc)) [JNum 1] m with inr p => p | inl _ => mkPlanOutput 0 [] [] end.
Definition map_anchor : ExpansionAnchor := mkExpansionAnchor StepMap AnchorActive false.
(** The steps of the run when [b] completes, without and with the fan-out of [a]. *)
Definition before : gmap string ExpansionAnchor := {["a" := map_anchor; "b" := map_anchor]}.
Definition after : gmap string ExpansionAnchor :=
  foldr (λ s m, <[ID s := mkExpansionAnchor (Type_ s) AnchorPending false]> m) before (po_Steps (plan_of "a")).
Definition verdict (existing : gmap string ExpansionAnchor) : ExpansionVerdict :=
  ValidateExpansion anyExpr anyText
    (mkExpansionInput (plan_of "b") (mkExpansionOrigin OriginMap "b" 0) existing [] None 0 (Resolve None) 2 0).
End TwoMaps.

(** The instances of a body are named after its steps alone: the fan-out of one
    map takes the ids of the other, whose completion is then rejected, and a
    rejected fan-out is permanent. *)
Theorem map_instances_collide : accepts TwoMaps.doc = true ∧
  "sum#0" ∈ ID <$> po_Steps (TwoMaps.plan_of "a") ∧ "sum#0" ∈ ID <$> po_Steps (TwoMaps.plan_of "b") ∧
  OK (TwoMaps.verdict TwoMaps.before) = true ∧ OK (TwoMaps.verdict TwoMaps.after) = false.
Proof. split_and!; first [vm_compute; reflexivity|vm_compute; set_solver]. Qed.

(** ** An agent in a body *)
Module AgentBody.
Definition agent_step (id agent prompt : string) : json :=
  JObj [("id", JStr id); ("type", JStr "agent"); ("config", JObj [("agent", JStr agent); ("prompt", JStr prompt)])].
Definition doc : json :=
  document [("agents", JObj [("writer", JObj [("model", JStr "m")])]);
            ("templates", JObj [("body", template [agent_step "w" "writer" "${{ item }}"; agent_step "g" "ghost" "${{ steps.w.output }}"]
                                           [normal_edge "w" "g"])])]
    [map_step "a" "body"] [].
Definition model_of (s : Step) : option string := match Config s with Some (AgentConfigC c) => Some (ac_Model c) | _ => None end.
End AgentBody.

(** The role of an agent in a map body is never merged into its instances: they
    have no model, where the same step in a loop would have its role's; and a
    role that is not declared at all goes unnoticed. *)
Theorem map_agent_unresolved : accepts AgentBody.doc = true ∧
  match GenerateMapExpansion (library "body" (decoded AgentBody.doc)) [JNum 1] "a" with
  | inr plan => AgentBody.model_of <$> po_Steps plan
  | inl _ => []
  end = [Some ""; Some ""; None] ∧
  (λ s, match ResolveAgentStep (decoded AgentBody.doc) s with inr s' => AgentBody.model_of s' | inl _ => None end)
    <$> from_option tm_Steps [] (library "body" (decoded AgentBody.doc)) = [Some "m"; None].
Proof. split_and!; vm_compute; reflexivity. Qed.

(** ** A loop in a body *)
Definition loop_body_document : json :=
  document [("templates", JObj [("body", template [echo_step "draft" "${{ item }}"; echo_step "critique" "${{ steps.draft.output }}"]
                                           [normal_edge "draft" "critique"; loop_edge "critique" "draft" 2])])]
    [map_step "a" "body"] [].

(** A loop edge of a body is accepted and copied into every instance, but no
    completion ever follows it: loop edges are looked up in the definition's own
    edges only. *)
Theorem map_loop_never_iterates : accepts loop_body_document = true ∧
  match GenerateMapExpansion (library "body" (decoded loop_body_document)) [JNum 1] "a" with
  | inr plan => existsb IsLoop (po_Edges plan)
  | inl _ => false
  end = true ∧
  loopDecision always noDigest empty_db (2000, loop_body_document) 1 "critique#0" None None = inr loopNone.
Proof. split_and!; vm_compute; reflexivity. Qed.

(** ** A body step named like a loop source *)
Definition shared_name_document : json :=
  document [("templates", JObj [("body", template [echo_step "critique" "${{ item }}"] [])])]
    [map_step "a" "body"; echo_step "draft" "text"; echo_step "critique" "on ${{ steps.draft.output }}"]
    [normal_edge "draft" "critique"; loop_edge "critique" "draft" 2].

(** The instance [critique#0] of the map is taken for iteration 0 of the loop
    source [critique]: its completion unrolls the loop of the definition. *)
Theorem map_instance_unrolls_loop : accepts shared_name_document = true ∧
  match GenerateMapExpansion (library "body" (decoded shared_name_document)) [JNum 1] "a" with
  | inr plan => bool_decide ("critique#0" ∈ ID <$> po_Steps plan)
  | inl _ => false
  end = true ∧
  match loopDecision always noDigest empty_db (2000, shared_name_document) 1 "critique#0" None None with
  | inr (loopContinue plan) => ID <$> po_Steps plan
  | _ => []
  end = ["critique#1"; "draft#1"].
Proof. split_and!; vm_compute; reflexivity. Qed.

(** ** References in a role *)
Definition role_document : json :=
  document [("agents", JObj [("writer", JObj [("model", JStr "m"); ("system", JStr "as ${{ steps.nowhere.output }}")])])]
    [AgentBody.agent_step "w" "writer" "go"] [].

(** The references of a role's system prompt are not checked: the config that the
    run stores refers to a step that does not exist. *)
Theorem role_references_unchecked : accepts role_document = true ∧
  match Steps (decoded role_document) with
  | [s] => match ResolveAgentStep (decoded role_document) s with
           | inr s' => match Config s' with Some c => StepID <$> config_refs anyText (marshalConfig c) | None => [] end
           | inl _ => []
           end
  | _ => []
  end = ["nowhere"] ∧ "nowhere" ∉ ID <$> Steps (decoded role_document).
Proof. split_and!; [vm_compute; reflexivity..|]. vm_compute. set_solver. Qed.
