(* ===== verification/ReconcileSpec.v ===== *)
(** The reconciler's sweep always commits, and every step it finds without a
    dispatch has one afterwards. *)
From stdpp Require Import relations sorting.
From S2P Require Import Prelude Retry StoreModel Transitions Effects StoreInv StoreSpecs EdgeSpecs StoreSystem StoreTheorems Config Dag Engine EngineInv Moves GraphInv FanOut WriteOff EngineGraph EngineTx EngineTotal Settle CancelSpec Reconcile Upholds EngineSystem.
Open Scope Z_scope.

(** ** What only grows *)
Lemma tx_step_outbox d d' o : tx_step d d' → o ∈ task_outbox d → o ∈ task_outbox d'.
Proof. intros [run x e _ _|r i run e f n _ _ _ _|t] Ho; [exact Ho|exact Ho|]. apply elem_of_app. by left. Qed.
Lemma tx_steps_outbox d d' o : tx_steps d d' → o ∈ task_outbox d → o ∈ task_outbox d'.
Proof. induction 1 as [|d1 d2 d3 S _ IH]; [done|]. intros Ho. by eapply IH, tx_step_outbox. Qed.
Lemma has_outbox_elem r s d : has_outbox r s d = true ↔ ∃ o, o ∈ task_outbox d ∧ ob_RunID o = r ∧ ob_StepID o = s.
Proof.
  unfold has_outbox. rewrite existsb_exists. setoid_rewrite <-list_elem_of_In.
  setoid_rewrite andb_true_iff. setoid_rewrite bool_decide_eq_true. done.
Qed.
Lemma has_outbox_grows r s d d' : tx_steps d d' → has_outbox r s d = true → has_outbox r s d' = true.
Proof.
  rewrite !has_outbox_elem. intros S (o & Ho & E). exists o. split; [by eapply tx_steps_outbox|done].
Qed.

Lemma run_stays r d d' : db_inv d → tx_steps d d' → is_Some (run_at d r) → is_Some (run_at d' r).
Proof.
  intros H S. induction S as [|d1 d2 d3 S1 S2 IH]; [done|]. intros [y Hy].
  destruct (tx_step_run d1 d2 r y H S1 Hy) as (y' & Hy' & _). apply IH; [by eapply tx_step_inv|by exists y'].
Qed.
Lemma row_stays r s d d' : db_inv d → tx_steps d d' → is_Some (row d r s) → is_Some (row d' r s).
Proof.
  intros H S. induction S as [|d1 d2 d3 S1 S2 IH]; [done|]. intros [x Hx].
  destruct (tx_step_row d1 d2 r s x H S1 Hx) as (x' & Hx' & _). apply IH; [by eapply tx_step_inv|by exists x'].
Qed.

(** Re-enqueueing a list of steps. *)
Lemma outbox_all {A} (l : list A) (r : A → uuid) (s : A → string) reason : ∀ d, ∃ d',
  for_each l (λ a, CreateOutboxTask (r a) (s a) reason noTrace) d = (Ok tt, d') ∧ tx_steps d d' ∧
  ∀ a, a ∈ l → has_outbox (r a) (s a) d' = true.
Proof.
  induction l as [|a l IH]; intros d; [exists d; split_and!; [done|done|by intros ? ?%not_elem_of_nil]|].
  cbn [for_each]. unfold bind at 1, CreateOutboxTask at 1, bind at 1, get, put.
  match goal with |- context [for_each l _ ?e] => destruct (IH e) as (d' & E & S & Ho); set (d1 := e) in * end.
  exists d'. assert (tx_step d d1) as S1 by apply ts_outbox. split_and!; [done|by eapply rtc_l|].
  intros b [->|Hb]%elem_of_cons; [|by apply Ho]. eapply has_outbox_grows; [exact S|].
  apply has_outbox_elem. eexists. split; [apply elem_of_app; right; by left|done].
Qed.

(** ** The heals never fail *)
Lemma heal_all {A} (f : A → Tx bool) (P : A → DB → Prop) (l : list A) :
  (∀ a d, engine_inv d → P a d → ∃ b d', f a d = (Ok b, d') ∧ engine_inv d' ∧ tx_steps d d' ∧ ∀ a', P a' d → P a' d') →
  ∀ d, engine_inv d → (∀ a, a ∈ l → P a d) →
  ∃ res d', heal f l d = (Ok res, d') ∧ engine_inv d' ∧ tx_steps d d'.
Proof.
  intros Hf. induction l as [|a l IH]; intros d I HP; [by exists [], d|].
  destruct (Hf a d I) as (b & d1 & E1 & I1 & S1 & HP1); [apply HP; by left|].
  destruct (IH d1 I1) as (res & d2 & E2 & I2 & S2); [intros a' Ha'; apply HP1, HP; by right|].
  exists (if b then a :: res else res), d2. cbn [heal]. unfold bind. rewrite E1, E2.
  split_and!; [done|done|by etrans].
Qed.

Section heals.
Context (now : time) (Hnow : now ≠ 0).

(** The row of a scanned step is still there. *)
Definition present (st : StaleRunningStep) (d : DB) : Prop :=
  is_Some (run_at d (ref_RunID (sr_Ref st))) ∧ is_Some (row d (ref_RunID (sr_Ref st)) (ref_StepID (sr_Ref st))).
Lemma present_stays st d d' : db_inv d → tx_steps d d' → present st d → present st d'.
Proof. intros H S [? ?]. split; [by eapply run_stays|by eapply row_stays]. Qed.

Lemma takeover_total r s c d : db_inv d → is_Some (run_at d r) → is_Some (row d r s) →
  (∃ x d', TakeoverStep r s c now d = (Ok x, d')) ∨ ∃ e, TakeoverStep r s c now d = (Fail e, d) ∧ is_conflict e = true.
Proof.
  intros H [y Hy] [x Hx]. pose proof (TakeoverStep_guarded d r s y x H Hy Hx c now Hnow) as G.
  unfold guarded in G. destruct (fenced c x); [left; destruct G as [-> _]; eauto|right]. eauto.
Qed.

Lemma healRunning_total st d : engine_inv d → present st d → ¬ cancelling (ref_RunID (sr_Ref st)) d →
  ∃ b d', healRunning now st d = (Ok b, d') ∧ engine_inv d' ∧ tx_steps d d' ∧ calm d d'.
Proof.
  intros I [Hr Hs] Hn. pose proof (ei_db _ I) as H.
  enough (∃ b d', healRunning now st d = (Ok b, d') ∧ tx_steps d d') as (b & d' & E & S).
  { exists b, d'. destruct (healRunning_upholds now st d b d' I Hn E). done. }
  unfold healRunning. cbv zeta. destruct (sr_ClaimID st) as [c|]; [|by exists false, d].
  destruct (takeover_total _ _ c d H Hr Hs) as [(x & d1 & E)|(e & E & Hc)]; unfold bind at 1, attempt; rewrite E.
  - pose proof (transition_sequenced _ (TakeoverStep_transition _ _ c now) d x d1 H E) as S1.
    destruct (sr_HasPendingOutbox st); [by exists true, d1|]. eexists true, _. split; [done|].
    etrans; [exact S1|]. apply rtc_once, ts_outbox.
  - rewrite Hc. by exists false, d.
Qed.

Lemma cancel_total r reason d : engine_inv d → cancel_reason_ok reason = true → is_Some (run_at d r) →
  (∃ a d', cancelRunTx r reason now d = (Ok a, d')) ∨ ∃ e, cancelRunTx r reason now d = (Fail e, d) ∧ is_conflict e = true.
Proof.
  intros I Hok [y Hy]. pose proof (ei_db _ I) as H. destruct (run_open y) eqn:Ho.
  - left. destruct (cancelRunTx_spec r reason now d y H Hnow Hok Hy) as (run & fin & d' & E & _); [|done|eauto].
    intros s x. apply no_failed; [done|]. intros z Hz. rewrite Hy in Hz. injection Hz as <-.
    unfold run_open, run_has in Ho. by destruct (run_Status y).
  - right. pose proof (CancelRun_guarded d r y H Hy reason now Hnow Hok) as G.
    unfold guarded in G. rewrite Ho in G. eexists. unfold cancelRunTx, bind at 1. rewrite G. done.
Qed.

Lemma deadlineCancel_total run d : engine_inv d → is_Some (run_at d (de_RunID run)) →
  ∃ b d', deadlineCancel (de_RunID run) (de_StartedAt run) (de_DeadlineAt run) now d = (Ok b, d') ∧
    engine_inv d' ∧ tx_steps d d'.
Proof.
  intros I Hr. pose proof (ei_db _ I) as H. set (r := de_RunID run) in *.
  enough (∃ b d', deadlineCancel r (de_StartedAt run) (de_DeadlineAt run) now d = (Ok b, d') ∧ tx_steps d d')
    as (b & d' & E & S).
  { exists b, d'. split_and!; [done| |done]. exact (deadlineCancel_upholds _ _ _ _ _ _ _ I E). }
  unfold deadlineCancel, bind at 1, attempt.
  destruct (cancel_total r RunCancelReasonDeadlineExceeded d I eq_refl Hr) as [(a & d1 & E)|(e & E & Hc)]; rewrite E.
  - destruct (cancelRunTx_preserves _ _ _ _ _ _ H E) as (S1 & _ & _).
    destruct (record_total r now Hnow (GuardTrippedEv "max_wall_clock" ""
      (deadlineGuardEvent (de_StartedAt run) (de_DeadlineAt run) now).1
      (deadlineGuardEvent (de_StartedAt run) (de_DeadlineAt run) now).2 "seconds" "cancel") d1)
      as (d2 & E2 & _ & S2); [by eapply tx_steps_inv|by eapply run_stays|].
    exists true, d2. split; [|by etrans]. unfold recordDeadlineGuard, RecordGuardTripped. unfold bind at 1.
    by rewrite E2.
  - rewrite Hc. by exists false, d.
Qed.

Lemma healCancelling_total st d : engine_inv d → present st d → cancelled_run (ref_RunID (sr_Ref st)) d →
  ∃ b d', healCancelling now st d = (Ok b, d') ∧ engine_inv d' ∧ tx_steps d d'.
Proof.
  intros I [Hr Hs] Hc. pose proof (ei_db _ I) as H.
  enough (∃ b d', healCancelling now st d = (Ok b, d')) as (b & d' & E).
  { exists b, d'. split; [done|by eapply healCancelling_upholds]. }
  unfold healCancelling. cbv zeta. destruct (sr_ClaimID st) as [c|]; [|by exists false, d].
  set (r := ref_RunID (sr_Ref st)) in *. set (s := ref_StepID (sr_Ref st)) in *.
  unfold bind at 1, attempt, healCancellingStep, bind at 1.
  destruct (takeover_total r s c d H Hr Hs) as [(x & d1 & E)|(e & E & Hce)]; rewrite E; [|rewrite Hce; by exists false, d].
  assert (db_inv d1) as H1
    by (eapply tx_steps_inv; [exact H|by eapply (transition_sequenced _ (TakeoverStep_transition r s c now))]).
  destruct (on_ok_elim _ _ _ _ _ (TakeoverStep_moves r s d H c now) E) as (z & z' & y & y' & C & [_ Ez] & _).
  destruct (guarded_accept _ _ _ _ _ _ _ _ (CancelStep_guarded d1 r s y' z' H1
    (rch_run' _ _ _ _ _ (ch_run _ _ _ _ _ _ _ _ C)) (ch_row' _ _ _ _ _ _ _ _ C)
    CancelReasonRunCancelled now Hnow ltac:(done))) as [E2 _]; [unfold cancellable, has_status; by rewrite Ez|].
  unfold bind at 1. rewrite E2.
  match type of E2 with _ = (_, ?e) => set (d2 := e) in * end.
  assert (tx_steps d1 d2) as S2 by by eapply (transition_sequenced _ (CancelStep_transition r s _ now)).
  destruct (run_stays r d1 d2 H1 S2) as [w Hw]; [eexists; apply C|]. unfold run_at in Hw.
  destruct (drop_total _ _ _ _ _ _ _ _ (CancelRunRollup_guarded d2 r w (tx_steps_inv _ _ H1 S2) Hw now Hnow) eq_refl)
    as (o & d3 & E3). unfold attemptCancelRollup. rewrite E3. by exists true, d3.
Qed.
End heals.

(** ** Stalled runs *)

(** A run the stalled-run scan flags contradicts the invariant. *)
Lemma not_stalled d y : engine_inv d → y ∈ runs d → stalled d y = false.
Proof.
  intros I Hy. pose proof (ei_db _ I) as H.
  assert (run_at d (run_ID y) = Some y) as Hr by (by apply (find_key run_ID is_run is_run_key); [apply H|]).
  assert (∀ s x q, row d (run_ID y) s = Some x → q (step_Status x) = true →
    existsb (λ x, of_run (run_ID y) x && q (step_Status x)) (run_steps d) = true) as Hex.
  { intros s x q Hx Hq. apply existsb_exists. exists x. split; [apply list_elem_of_In; by eapply row_elem|].
    destruct (row_key _ _ _ _ Hx) as [Er _]. unfold of_run. by rewrite Er, bool_decide_eq_true_2. }
  unfold stalled. apply orb_false_iff. split; case_bool_decide as Hs; try done.
  - destruct (ei_graph _ I (run_ID y)) as [(z & Hz & Hc)|[_ R]]; [rewrite Hr in Hz; injection Hz as <-; by rewrite Hs in Hc|].
    destruct (R y Hr) as (s & x & Hx & Hl); [unfold run_open, run_has; by rewrite Hs|].
    rewrite (Hex s x stall_live Hx); [done|]. by destruct (step_Status x).
  - destruct (ei_settling _ I (run_ID y)) as [_ (s & x & Hx & Hx')]; [by exists y|].
    apply negb_false_iff. apply (Hex s x (is_status StepStatusRunning) Hx). by apply bool_decide_eq_true.
Qed.

Lemma no_stalled limit d : engine_inv d → ListStalledRuns limit d = (Ok [], d).
Proof.
  intros I. unfold ListStalledRuns, bind, get, ret.
  assert (List.filter (stalled d) (runs d) = []) as ->; [|by rewrite take_nil].
  destruct (List.filter (stalled d) (runs d)) as [|y l] eqn:E; [done|].
  assert (y ∈ List.filter (stalled d) (runs d)) as Hy by (rewrite E; by left).
  apply list_elem_of_In, filter_In in Hy as [Hy%list_elem_of_In Hs]. by rewrite (not_stalled d y I Hy) in Hs.
Qed.

(** ** The sweep *)
Lemma scanned_present rst n before d st : db_inv d →
  st ∈ (stale_of d <$> order_by (key_le step_UpdatedAt) n (List.filter (stale_running rst before d) (run_steps d))) →
  present st d.
Proof.
  intros H Hst. destruct (scanned_run _ _ _ _ _ H Hst) as (y & Hy & _). split; [by exists y|].
  apply list_elem_of_fmap in Hst as (x & -> & Hx%order_by_elem). apply list_elem_of_In, filter_In in Hx as [Hx _].
  exists x. apply elem_row; [done|]. by apply list_elem_of_In.
Qed.

Lemma order_by_all {A} (R : A → A → Prop) {RD : RelDecision R} n (l : list A) x :
  Z.of_nat (length l) ≤ n → x ∈ l → x ∈ order_by R n l.
Proof.
  intros Hn Hx. unfold order_by. rewrite take_ge; [by rewrite merge_sort_Permutation|].
  rewrite merge_sort_Permutation. lia.
Qed.

(** The phases of the sweep. *)
Section phases.
Context (now : time) (Hnow : now ≠ 0).

Lemma running_phase n before d : engine_inv d → ∃ tk d', heal (healRunning now) (stale_of d <$>
    order_by (key_le step_UpdatedAt) n (List.filter (stale_running RunStatusRunning before d) (run_steps d))) d =
    (Ok tk, d') ∧ engine_inv d' ∧ tx_steps d d'.
Proof.
  intros I. apply (heal_all _ (λ st d, present st d ∧ ¬ cancelling (ref_RunID (sr_Ref st)) d)); [|done|].
  - intros st e Ie [Hp Hn]. destruct (healRunning_total now Hnow st e Ie Hp Hn) as (b & e' & E & Ie' & Se & C).
    exists b, e'. split_and!; [done..|]. intros st' [Hp' Hn']. split; [eapply present_stays; [apply Ie|done..]|].
    intros Hc. by apply Hn', C.
  - intros st Hst. split; [by eapply scanned_present; [apply I|]|]. intros (y & Hy & Hs).
    destruct (scanned_run _ _ _ _ _ (ei_db _ I) Hst) as (z & Hz & Ez). congruence.
Qed.

Lemma cancelling_phase n before d : engine_inv d → ∃ ch d', heal (healCancelling now) (stale_of d <$>
    order_by (key_le step_UpdatedAt) n (List.filter (stale_running RunStatusCancelling before d) (run_steps d))) d =
    (Ok ch, d') ∧ engine_inv d' ∧ tx_steps d d'.
Proof.
  intros I. apply (heal_all _ (λ st d, present st d ∧ cancelled_run (ref_RunID (sr_Ref st)) d)); [|done|].
  - intros st e Ie [Hp Hc]. destruct (healCancelling_total now Hnow st e Ie Hp Hc) as (b & e' & E & Ie' & Se).
    exists b, e'. split_and!; [done..|]. intros st' [Hp' Hc']. split; [eapply present_stays; [apply Ie|done..]|].
    eapply cancelled_stays; [apply Ie|done..].
  - intros st Hst. split; [by eapply scanned_present; [apply I|]|].
    destruct (scanned_run _ _ _ _ _ (ei_db _ I) Hst) as (z & Hz & Ez). exists z. split; [done|]. by rewrite Ez.
Qed.

Lemma deadline_phase (l : list Run) d : engine_inv d → (∀ y, y ∈ l → y ∈ runs d) → ∃ res d',
  heal (λ run, deadlineCancel (de_RunID run) (de_StartedAt run) (de_DeadlineAt run) now)
    ((λ y, mkDeadlineExceeded (run_ID y) (default 0 (run_DeadlineAt y)) (default 0 (run_StartedAt y))) <$> l) d =
    (Ok res, d') ∧ engine_inv d' ∧ tx_steps d d'.
Proof.
  intros I Hl. apply (heal_all _ (λ run d, is_Some (run_at d (de_RunID run)))); [|done|].
  - intros run e Ie Hr. destruct (deadlineCancel_total now Hnow run e Ie Hr) as (b & e' & E & Ie' & Se).
    exists b, e'. split_and!; [done..|]. intros run'. eapply run_stays; [apply Ie|done].
  - intros run (y & -> & Hy%Hl)%list_elem_of_fmap. exists y. unfold run_at.
    apply (find_key run_ID is_run is_run_key); [apply I|done].
Qed.
End phases.

Lemma reconcile_total cfg now d : engine_inv d → now ≠ 0 → ∃ res d', reconcileTx cfg true now d = (Ok res, d') ∧
  engine_inv d' ∧ Skipped res = false ∧ StalledRuns res = [] ∧
  Requeued res = ref_of <$> order_by (key_le step_UpdatedAt) (Limit cfg)
                   (List.filter (stale_ready (now - ReadyStale cfg) d) (run_steps d)) ∧
  (∀ ref, ref ∈ Requeued res → has_outbox (ref_RunID ref) (ref_StepID ref) d' = true) ∧
  (∀ st, st ∈ RetriesHealed res → has_outbox st.1.1 st.1.2 d' = true) ∧
  (∀ ap, ap ∈ ApprovalsHealed res → has_outbox ap.1 ap.2 d' = true).
Proof.
  intros I Hnow. unfold reconcileTx. cbv zeta. cbn [negb].
  unfold bind at 1, ListStaleReadySteps, bind at 1, get, ret at 1. set (stale := ref_of <$> _).
  destruct (outbox_all stale ref_RunID ref_StepID OutboxReasonReconcileReady d) as (d1 & E1 & S1 & O1).
  assert (engine_inv d1) as I1 by (by eapply (outbox_upholds stale); [intros; by eexists _, _, _, _| |exact E1]).
  unfold bind at 1. rewrite E1. unfold bind at 1, ListStaleRunningSteps, bind at 1, get, ret at 1.
  destruct (running_phase now Hnow (Limit cfg) (now - RunningStale cfg) d1 I1) as (tk & d2 & E2 & I2 & S2).
  unfold bind at 1. rewrite E2. unfold bind at 1, ListOverdueRetryingSteps, bind at 1, get, ret at 1. set (od := _ <$> _).
  destruct (outbox_all od (λ st, st.1.1) (λ st, st.1.2) OutboxReasonReconcileRetry d2) as (d3 & E3 & S3 & O3).
  assert (engine_inv d3) as I3 by (by eapply (outbox_upholds od); [intros; by eexists _, _, _, _| |exact E3]).
  unfold bind at 1. rewrite E3. unfold bind at 1, ListOverdueApprovals, bind at 1, get, ret at 1. set (oa := _ <$> _).
  destruct (outbox_all oa fst snd OutboxReasonApprovalTimeout d3) as (d4 & E4 & S4 & O4).
  assert (engine_inv d4) as I4 by (by eapply (outbox_upholds oa); [intros; by eexists _, _, _, _| |exact E4]).
  unfold bind at 1. rewrite E4. unfold bind at 1, ListDeadlineExceededRuns, bind at 1, get, ret at 1.
  match goal with |- context [heal _ (_ <$> ?l)] => destruct (deadline_phase now Hnow l d4 I4) as (dl & d5 & E5 & I5 & S5) end.
  { intros y Hy%order_by_elem. by apply list_elem_of_In, filter_In in Hy as [?%list_elem_of_In _]. }
  unfold bind at 1. rewrite E5. unfold bind at 1, ListStaleRunningStepsInCancellingRuns, bind at 1, get, ret at 1.
  destruct (cancelling_phase now Hnow (Limit cfg) (now - RunningStale cfg) d5 I5) as (ch & d6 & E6 & I6 & S6).
  unfold bind at 1. rewrite E6. unfold bind at 1. rewrite (no_stalled _ d6 I6).
  eexists _, d6. split; [reflexivity|]. split; [exact I6|]. cbn [Skipped StalledRuns Requeued RetriesHealed ApprovalsHealed].
  split_and!; [done|done|done|..].
  - intros ref Href%O1. eapply has_outbox_grows; [|exact Href]. by do 4 (etrans; [eassumption|]); etrans.
  - intros st Hst%O3. eapply has_outbox_grows; [|exact Hst]. by do 2 (etrans; [eassumption|]).
  - intros ap Hap%O4. eapply has_outbox_grows; [|exact Hap]. by etrans.
Qed.
