(* ===== verification/EngineProps.v ===== *)
(** Properties of the engine, over every database its transactions reach, and the
    status machines of steps and runs over sequences of them. *)
From stdpp Require Import relations sorting.
From S2P Require Import Prelude Retry StoreModel Transitions Effects StoreInv StoreSpecs EdgeSpecs StoreSystem StoreTheorems Config Dag GraphFacts ReadyFacts Instantiate DagProps Engine StoreProps EngineInv Moves GraphInv FanOut WriteOff EngineGraph EngineTx EngineStart EngineTotal Settle CancelSpec Reconcile Upholds EngineSystem ReconcileSpec.
Open Scope Z_scope.

(** *** Concrete runs of the engine *)
Module EngineDemo.
Definition ev (_ : string) (_ _ : option json) : option bool := Some true.
Definition rd (_ : ResolvedRetryPolicy) (_ : Z) : option Z := Some 5.
Definition complete (s : string) (c : uuid) : Completion :=
mkCompletion 1 s "noop" c noEnvelope (Some (JNum 1)) None None None
  [mkAttemptCostArgs 1 s 1 "" "mock/m" None (Some JNull) "exact" false false 500 0 None 12] None None noTrace.

Lemma engine_submitted : engine_reachable ev rd Demo.submitted.
Proof.
eapply (er_submit _ _ empty_db Demo.diamond Demo.plan Demo.args); [apply er_empty|reflexivity|apply Demo.plan_ok|].
vm_compute. reflexivity.
Qed.
Definition after (ops : list EngineOp) : DB := default empty_db (run_engine ev rd ops Demo.submitted).
Lemma engine_after_reachable ops : run_engine ev rd ops Demo.submitted = Some (after ops) → engine_reachable ev rd (after ops).
Proof. apply run_engine_reachable, engine_submitted. Qed.

(** [a] completed; [b] in flight, [c] ready. *)
Definition forked : DB :=
after [EClaim 1 "a" 11 "" "w1" 7; ESuccess (complete "a" 7) None 12; EClaim 1 "b" 13 "" "w1" 8].
Lemma forked_reachable : engine_reachable ev rd forked.
Proof. apply engine_after_reachable. vm_compute. reflexivity. Qed.
(** ... and the run cancelled while [b] executes. *)
Definition cancelling_db : DB :=
after [EClaim 1 "a" 11 "" "w1" 7; ESuccess (complete "a" 7) None 12; EClaim 1 "b" 13 "" "w1" 8;
       ECancel 1 RunCancelReasonManual 14].
Lemma cancelling_reachable : engine_reachable ev rd cancelling_db.
Proof. apply engine_after_reachable. vm_compute. reflexivity. Qed.
End EngineDemo.

Section invariant.
Context (ev : string → option json → option json → option bool).
Context (rd : ResolvedRetryPolicy → Z → option Z).

(** C5: the status machines.  One store operation leaves the status of every step
    and every run as it was or moves it along one edge of the transition matrix.
    Any sequence of submissions, registrations and transactions of the engine,
    completions that splice a plan included, keeps every step and run and moves
    its status along a path of the matrix (a transaction may take several edges: a
    cancel with nothing in flight goes from running through cancelling to
    cancelled); so a succeeded, skipped or collected step and a succeeded or
    cancelled run keep their status for good, and [failed] is never written to a
    step. *)
Theorem status_matrix d r : db_inv d →
  (∀ d', committed d d' →
     (∀ s x, row d r s = Some x → ∃ x', row d' r s = Some x' ∧
        (step_Status x' = step_Status x ∨ step_moves (step_Status x) (step_Status x'))) ∧
     (∀ y, run_at d r = Some y → ∃ y', run_at d' r = Some y' ∧
        (run_Status y' = run_Status y ∨ run_moves (run_Status y) (run_Status y')))) ∧
  (∀ d', rtc (engine_step ev rd) d d' →
     (∀ s x, row d r s = Some x → ∃ x', row d' r s = Some x' ∧
        rtc step_moves (step_Status x) (step_Status x') ∧
        (absorbing (step_Status x) = true → step_Status x' = step_Status x) ∧
        (step_Status x' = StepStatusFailed → step_Status x = StepStatusFailed)) ∧
     (∀ y, run_at d r = Some y → ∃ y', run_at d' r = Some y' ∧
        rtc run_moves (run_Status y) (run_Status y') ∧
        (run_Status y = RunStatusSucceeded ∨ run_Status y = RunStatusCancelled → run_Status y' = run_Status y))).
Proof.
  intros H. split; [intros d' (op & evs & E)|intros d' S; split].
  - pose proof (commit_spec op d H) as S. rewrite E in S.
    destruct S as (d1 & [Hs| ->] & -> & _); [|split; intros; cbn; eauto].
    pose proof (inv_tx_events d [] H) as H0. split.
    + intros s x Hx. destruct (tx_step_row _ _ r s x H0 Hs Hx) as (x' & Hx' & R).
      exists x'. split; [done|apply R].
    + intros y Hy. exact (tx_step_run _ _ r y H0 Hs Hy).
  - intros s x Hx. destruct (engine_steps_row ev rd d d' r s x H S Hx) as (x' & Hx' & M). exists x'.
    split_and!; [done|done|by apply absorbing_stuck|by apply failed_unwritten].
  - intros y Hy. destruct (engine_steps_run ev rd d d' r y H S Hy) as (y' & Hy' & M). exists y'.
    split_and!; [done|done|by apply final_stuck].
Qed.

(** C21: the engine invariant holds in every database reached from the empty one by
    registrations, submissions of definitions with a step and with joins that decode
    (Validate and Decode refuse the others), the engine's transactions (a decision
    on the step of its own approval's run) and the completions that splice a plan,
    provided the joins of the plan decode and it enters no step that a dead letter
    has already doomed (conditions ExpandRun does not check; a plan may close a
    cycle): the store invariant; for every run that is not being
    cancelled, the edges out of a step are resolved exactly when it succeeded, was
    skipped or was collected, a pending or written-off step still has an unresolved
    edge (and no fired one, for a join-any), the edges of the definition are
    acyclic, every cancelled step can indeed never run, and an open run has a step
    left; for every cancelling run, only running and terminal steps, at least one
    of them running. *)
Theorem engine_invariant d : engine_reachable ev rd d → engine_inv d.
Proof. apply reachable_engine_inv. Qed.

(** C22: the state the reconciler flags as impossible is impossible: in every
    database the engine reaches (plans spliced under the same two conditions as in
    C21), the scan for running runs without a live step and cancelling runs without
    a running step returns nothing, so every rollup happened with the transition
    that finished the run's last step. *)
Theorem no_stalled_runs d limit : engine_reachable ev rd d → ListStalledRuns limit d = (Ok [], d).
Proof.
  intros I%reachable_engine_inv. by apply no_stalled.
Qed.
End invariant.

(** A completion by one operation, and a cancel that settles the run in one
    transaction. *)
Lemma status_matrix_witness :
  (∃ x', row Demo.succeeded 1 "a" = Some x' ∧
     (step_Status x' = StepStatusRunning ∨ step_moves StepStatusRunning (step_Status x'))) ∧
  let d' := (WithTx (engine_tx EngineDemo.ev EngineDemo.rd (ECancel 1 RunCancelReasonManual 14)) Demo.submitted).1.2 in
  run_Status <$> run_at d' 1 = Some RunStatusCancelled ∧
  ∃ y', run_at d' 1 = Some y' ∧ rtc run_moves RunStatusRunning (run_Status y').
Proof.
  split.
  - assert (committed Demo.claimed Demo.succeeded) as Hc.
    { eexists (OpSucceed 1 "a" 7 (Some (JNum 1)) None None None 12), _. vm_compute. reflexivity. }
    destruct (row Demo.claimed 1 "a") as [x|] eqn:Hx; [|vm_compute in Hx; discriminate].
    assert (step_Status x = StepStatusRunning) as Es by (vm_compute in Hx; by injection Hx as <-).
    destruct (status_matrix EngineDemo.ev EngineDemo.rd Demo.claimed 1 (reachable_db_inv _ Demo.claimed_reachable)) as [H1 _].
    destruct (proj1 (H1 _ Hc) "a" x Hx) as (x' & ? & ?). exists x'. by rewrite <-Es.
  - intros d'. split; [vm_compute; reflexivity|].
    destruct (run_at Demo.submitted 1) as [y|] eqn:Hy; [|vm_compute in Hy; discriminate].
    assert (run_Status y = RunStatusRunning) as Es by (vm_compute in Hy; by injection Hy as <-).
    destruct (status_matrix EngineDemo.ev EngineDemo.rd Demo.submitted 1 (reachable_db_inv _ Demo.submitted_reachable)) as [_ H2].
    destruct (H2 d') as [_ Hr].
    + apply rtc_once. apply (es_op _ _ _ (ECancel 1 RunCancelReasonManual 14) _
        (WithTx (engine_tx EngineDemo.ev EngineDemo.rd (ECancel 1 RunCancelReasonManual 14)) Demo.submitted).2).
      vm_compute. reflexivity.
    + destruct (Hr y Hy) as (y' & ? & ? & _). exists y'. by rewrite <-Es.
Defined.

Lemma engine_invariant_witness : engine_reachable EngineDemo.ev EngineDemo.rd EngineDemo.cancelling_db ∧
  engine_inv EngineDemo.cancelling_db.
Proof.
  split; [apply EngineDemo.cancelling_reachable|].
  apply (engine_invariant EngineDemo.ev EngineDemo.rd), EngineDemo.cancelling_reachable.
Defined.
Lemma no_stalled_runs_witness : ListStalledRuns 10 EngineDemo.cancelling_db = (Ok [], EngineDemo.cancelling_db).
Proof. apply (no_stalled_runs EngineDemo.ev EngineDemo.rd), EngineDemo.cancelling_reachable. Defined.

(** ** Progress *)
Section progress.
Context (ev : string → option json → option json → option bool).
Context (rd : ResolvedRetryPolicy → Z → option Z).

(** C23: a success completion never gets stuck.  In every reachable database (plans
    spliced under the conditions of C21), for a run that is not cancelling or
    cancelled and a step held by the completion's claim, the transaction fails
    exactly when the ledger refuses one of the completion's cost rows (empty
    arguments, a negative amount, an entry charged before, an unknown run) or an
    out-edge's predicate cannot be evaluated, and with that error; otherwise it
    commits (the fan-out terminates within its fuel and no transition of it is
    refused), the step is succeeded, each normal out-edge carries its planned
    verdict, and every other step of the run is unchanged but for its dependency
    counters, or moved from pending to ready on a fired edge with all edges
    resolved (or as a join-any), or from pending to skipped with all edges resolved
    and none fired. *)
Theorem complete_success_total d c params now x y : engine_reachable ev rd d → now ≠ 0 →
  run_at d (co_RunID c) = Some y → cancel_phase (run_Status y) = false →
  row d (co_RunID c) (co_StepID c) = Some x → fenced (co_ClaimID c) x = true →
  match bill d (co_Costs c), planEdges ev (co_StepType c) (out_edges (co_RunID c) d (co_StepID c)) (co_Output c) params with
  | Some e, _ => ∃ d', completeSuccessTx ev c params now d = (Fail e, d')
  | None, inl e => ∃ d', completeSuccessTx ev c params now d = (Fail e, d')
  | None, inr vs => ∃ o d', completeSuccessTx ev c params now d = (Ok o, d') ∧
      (∃ x', row d' (co_RunID c) (co_StepID c) = Some x' ∧ step_Status x' = StepStatusSucceeded) ∧
      Forall (has_verdict (co_RunID c) d') vs ∧
      ∀ t z, t ≠ co_StepID c → row d (co_RunID c) t = Some z →
        ∃ z', row d' (co_RunID c) t = Some z' ∧ fanned z z'
  end.
Proof.
  intros I%reachable_engine_inv Hnow Hy Hc Hx Hf.
  destruct (ei_graph _ I (co_RunID c)) as [(z & Hz & Hp)|[G _]]; [rewrite Hy in Hz; injection Hz as <-; congruence|].
  exact (success_total ev c params now d x y (ei_db _ I) Hnow G Hy Hc Hx Hf).
Qed.

(** A waiting step has an unresolved edge into it. *)
Lemma waiting_edge r d s x : db_inv d → row d r s = Some x → 1 ≤ step_RemainingDeps x →
  ∃ e, edge_of r d e ∧ unresolved e ∧ edge_ToStep e = s.
Proof.
  intros H Hx Hr. destruct (row_key _ _ _ _ Hx) as [Er Es].
  destruct (inv_deps _ H x (row_elem _ _ _ _ Hx)) as [E _]. rewrite E in Hr.
  assert (0 < count (in_edges x EdgeResolutionUnresolved) (run_edges d)) as (e & He & Hin)%count_pos by lia.
  exists e. unfold in_edges in Hin. unfold edge_of, unresolved. rewrite !andb_true_iff, !bool_decide_eq_true in Hin.
  naive_solver.
Qed.

(** A pending step that waits for another pending step. *)
Definition waits_for (r : uuid) (d : DB) (a b : string) : Prop := ∃ e x z, edge_of r d e ∧ unresolved e ∧
  edge_FromStep e = a ∧ edge_ToStep e = b ∧ row d r a = Some x ∧ row d r b = Some z ∧
  step_Status x = StepStatusPending ∧ step_Status z = StepStatusPending.

(** Without an active or dead-lettered step, a pending step waits for another. *)
Lemma waiting_blame r d s z : db_inv d → good r d → row d r s = Some z → step_Status z = StepStatusPending →
  (∃ t x, row d r t = Some x ∧ (active (step_Status x) = true ∨ step_Status x = StepStatusDeadLettered)) ∨
  ∃ t, waits_for r d t s.
Proof.
  intros H [G O] Hz Hs.
  destruct (gc_wait _ _ _ _ G s z) as [Hrem _]; [by intros ?%not_elem_of_nil|done|by rewrite Hs|].
  destruct (waiting_edge r d s z H Hz Hrem) as (e & He & Hu & Ht).
  destruct (gc_edge _ _ _ _ G e He) as (x & Hx & Hux). pose proof Hu as Hu'. apply Hux in Hu' as [Hab|?%not_elem_of_nil]; [|done].
  pose proof (gc_failed _ _ _ _ G _ _ Hx) as Hnf.
  destruct (step_Status x) eqn:Ex; try done; try (by left; exists (edge_FromStep e), x; rewrite Ex; auto).
  - right. exists (edge_FromStep e). by exists e, x, z.
  - left. destruct (doomed_dead_step r d (edge_FromStep e)) as (t & w & Hw & Ew); [by eapply O|]. exists t, w. auto.
Qed.

(** A relation in which every element of a finite set has a predecessor in it has
    a cycle. *)
Lemma backward_cycle {A} `{EqDecision A} (R : A → A → Prop) (l : list A) : (∀ s, s ∈ l → ∃ p, p ∈ l ∧ R p s) →
  ∀ k visited s, s ∈ l → NoDup (s :: visited) → (∀ v, v ∈ visited → v ∈ l ∧ rtc R s v) →
  (length l < k + length (s :: visited))%nat → ∃ x, tc R x x.
Proof.
  intros Hp. induction k as [|k IH]; intros visited s Hs Hnd Hv Hk.
  - exfalso. assert (s :: visited ⊆+ l) as Hsub%submseteq_length; [|cbn in *; lia].
    apply NoDup_submseteq; [done|]. intros x [->|Hx]%elem_of_cons; [done|]. by apply Hv.
  - destruct (Hp s Hs) as (p & Hpl & Hr). destruct (decide (p ∈ s :: visited)) as [Hin|Hout].
    + exists p. apply elem_of_cons in Hin as [->|Hin]; [by apply tc_once|].
      eapply tc_rtc_r; [by apply tc_once|]. by apply Hv.
    + apply (IH (s :: visited) p Hpl); [by apply NoDup_cons| |cbn in *; lia].
      intros v [->|Hin]%elem_of_cons; [split; [done|by apply rtc_once]|].
      destruct (Hv v Hin). split; [done|by eapply rtc_l].
Qed.

(** A cycle of waiting steps goes through an edge that an expansion spliced. *)
Lemma waiting_walk r d rank : (∀ e, edge_of r d e → edge_OriginStep e = None → (rank (edge_FromStep e) < rank (edge_ToStep e))%nat) →
  ∀ a b, tc (waits_for r d) a b → (rank a < rank b)%nat ∨
    ∃ e, edge_of r d e ∧ unresolved e ∧ is_Some (edge_OriginStep e) ∧
      rtc (waits_for r d) a (edge_FromStep e) ∧ waits_for r d (edge_FromStep e) (edge_ToStep e) ∧
      rtc (waits_for r d) (edge_ToStep e) b.
Proof.
  intros Hrank. assert (∀ a b, waits_for r d a b → (rank a < rank b)%nat ∨ ∃ e, edge_of r d e ∧ unresolved e ∧
    is_Some (edge_OriginStep e) ∧ edge_FromStep e = a ∧ edge_ToStep e = b) as Hone.
  { intros a b (e & x & z & He & Hu & <- & <- & _). destruct (edge_OriginStep e) eqn:Eo; [right; exists e; by rewrite Eo|].
    left. by apply Hrank. }
  induction 1 as [a b Hab|a b c Hab Hbc IH].
  - destruct (Hone a b Hab) as [?|(e & ? & ? & ? & <- & <-)]; [by left|right]. by exists e.
  - destruct (Hone a b Hab) as [Hlt|(e & ? & ? & ? & <- & <-)].
    + destruct IH as [?|(e & ? & ? & ? & ? & ? & ?)]; [left; lia|right]. exists e. split_and!; try done. by eapply rtc_l.
    + right. exists e. split_and!; try done. by apply tc_rtc.
Qed.

(** C24: what an open run may wait for.  In every reachable database (plans spliced
    under the conditions of C21), a running or parked run has a step that is ready,
    running, retrying or awaiting a decision, or a dead-lettered step, or a cycle of
    pending steps that wait for each other through unresolved edges, at least one of
    which a plan spliced into the run: a definition alone never deadlocks, and
    pending steps never wait only on finished ones. *)
Theorem open_run_progress d r y : engine_reachable ev rd d → run_at d r = Some y → run_open y = true →
  (∃ s x, row d r s = Some x ∧ (active (step_Status x) = true ∨ step_Status x = StepStatusDeadLettered)) ∨
  ∃ e, edge_of r d e ∧ unresolved e ∧ is_Some (edge_OriginStep e) ∧
    waits_for r d (edge_FromStep e) (edge_ToStep e) ∧ rtc (waits_for r d) (edge_ToStep e) (edge_FromStep e).
Proof.
  intros I%reachable_engine_inv Hy Ho. pose proof (ei_db _ I) as H.
  destruct (ei_graph _ I r) as [(z & Hz & Hp)|[G R]].
  { rewrite Hy in Hz. injection Hz as <-. unfold run_open, run_has in Ho. by destruct (run_Status y). }
  set (l := step_StepID <$> List.filter (has_status StepStatusPending) (steps_of r d)).
  assert (∀ s, s ∈ l ↔ ∃ z, row d r s = Some z ∧ step_Status z = StepStatusPending) as Hl.
  { intros s. unfold l. rewrite list_elem_of_fmap. split.
    - intros (z & -> & [Hz%list_elem_of_In Ez%bool_decide_eq_true]%list_elem_of_In%filter_In). exists z.
      split; [by apply steps_of_row|done].
    - intros (z & Hz & Ez). destruct (row_key _ _ _ _ Hz) as [Er Es]. exists z. split; [done|].
      apply list_elem_of_In, filter_In. rewrite <-list_elem_of_In. split; [|by apply bool_decide_eq_true].
      apply elem_of_steps_of. split; [by eapply row_elem|done]. }
  destruct (existsb (λ x, active (step_Status x) || has_status StepStatusDeadLettered x) (steps_of r d)) eqn:Ex.
  { left. apply existsb_exists in Ex as (x & Hx%list_elem_of_In & E). exists (step_StepID x), x.
    split; [by apply steps_of_row|]. apply orb_prop in E as [?|E%bool_decide_eq_true]; auto. }
  assert (∀ t x, row d r t = Some x → active (step_Status x) = true ∨ step_Status x = StepStatusDeadLettered → False) as Hno.
  { intros t x Hx Hs. apply not_true_iff_false in Ex. apply Ex, existsb_exists. exists x.
    destruct (row_key _ _ _ _ Hx) as [Er _]. split; [by apply list_elem_of_In, elem_of_steps_of; split; [eapply row_elem|]|].
    apply orb_true_intro. destruct Hs; [by left|right; by apply bool_decide_eq_true]. }
  right. destruct (gc_rank _ _ _ _ (go_core _ _ G)) as [rank Hrank].
  destruct (R y Hy Ho) as (s & x & Hx & Hs). unfold live in Hs.
  apply orb_prop in Hs as [Ha|Hs%bool_decide_eq_true]; [by destruct (Hno s x); auto|].
  destruct (backward_cycle (waits_for r d) l) with (k := length l) (visited := @nil string) (s := s) as (u & Hu).
  - intros t (z & Hz & Ez)%Hl. destruct (waiting_blame r d t z H G Hz Ez) as [(t' & w & Hw & Ew)|(p & Hp)];
      [by destruct (Hno t' w)|]. exists p. split; [|done]. apply Hl. destruct Hp as (e & w & ? & ? & ? & ? & ? & ? & ? & ? & ?). eauto.
  - apply Hl. eauto.
  - apply NoDup_singleton.
  - by intros v ?%not_elem_of_nil.
  - cbn. lia.
  - destruct (waiting_walk r d rank Hrank u u Hu) as [?|(e & ? & ? & ? & ? & ? & ?)]; [lia|]. exists e.
    split_and!; try done. by etrans.
Qed.
End progress.

Lemma complete_success_total_witness : ∃ o d',
  completeSuccessTx EngineDemo.ev (EngineDemo.complete "b" 8) None 20 EngineDemo.forked = (Ok o, d') ∧
  ∃ x', row d' 1 "b" = Some x' ∧ step_Status x' = StepStatusSucceeded.
Proof.
  set (y := default (run_row Demo.plan Demo.args) (run_at EngineDemo.forked 1)).
  set (x := default (no_step 1) (row EngineDemo.forked 1 "b")).
  pose proof (complete_success_total EngineDemo.ev EngineDemo.rd EngineDemo.forked (EngineDemo.complete "b" 8) None 20 x y
    EngineDemo.forked_reachable ltac:(lia) ltac:(vm_compute; reflexivity) ltac:(vm_compute; reflexivity)
    ltac:(vm_compute; reflexivity) ltac:(vm_compute; reflexivity)) as T.
  assert (bill EngineDemo.forked (co_Costs (EngineDemo.complete "b" 8)) = None) as Eb by (vm_compute; reflexivity).
  rewrite Eb in T. destruct (planEdges _ _ _ _ _) as [e|vs] eqn:Ep; [vm_compute in Ep; discriminate Ep|].
  destruct T as (o & d' & E & Hs & _). exists o, d'. split; [exact E|exact Hs].
Defined.
Lemma open_run_progress_witness : ∃ s x, row EngineDemo.forked 1 s = Some x ∧
  (active (step_Status x) = true ∨ step_Status x = StepStatusDeadLettered).
Proof.
  set (y := default (run_row Demo.plan Demo.args) (run_at EngineDemo.forked 1)).
  destruct (open_run_progress EngineDemo.ev EngineDemo.rd EngineDemo.forked 1 y EngineDemo.forked_reachable
    ltac:(vm_compute; reflexivity) ltac:(vm_compute; reflexivity)) as [?|(e & (He & _) & _ & [o Eo] & _)]; [done|exfalso].
  assert (forallb (λ e, bool_decide (edge_OriginStep e = None)) (run_edges EngineDemo.forked) = true) as F by (vm_compute; reflexivity).
  rewrite forallb_forall in F. apply list_elem_of_In in He. apply F in He. apply bool_decide_eq_true in He. congruence.
Defined.

(** ** Healing *)
Section healing.
Context (ev : string → option json → option json → option bool).
Context (rd : ResolvedRetryPolicy → Z → option Z).

(** C25: the reconciler's sweep always commits under its lock, finds no stalled
    run, and restores lost dispatches: every step it lists as stuck in ready (all
    of them, when no more than the limit), every overdue retry and every overdue
    approval it lists has a dispatch row afterwards. *)
Theorem reconcile_restores_dispatch cfg now d : engine_reachable ev rd d → now ≠ 0 →
  ∃ res d', reconcileTx cfg true now d = (Ok res, d') ∧ StalledRuns res = [] ∧
    (Z.of_nat (length (List.filter (stale_ready (now - ReadyStale cfg) d) (run_steps d))) ≤ Limit cfg →
     ∀ x, x ∈ run_steps d → stale_ready (now - ReadyStale cfg) d x = true →
       has_outbox (step_RunID x) (step_StepID x) d' = true) ∧
    (∀ ref, ref ∈ Requeued res → has_outbox (ref_RunID ref) (ref_StepID ref) d' = true) ∧
    (∀ st, st ∈ RetriesHealed res → has_outbox st.1.1 st.1.2 d' = true) ∧
    (∀ ap, ap ∈ ApprovalsHealed res → has_outbox ap.1 ap.2 d' = true).
Proof.
  intros I%reachable_engine_inv Hnow.
  destruct (reconcile_total cfg now d I Hnow) as (res & d' & E & _ & _ & Hst & Hreq & H1 & H2 & H3).
  exists res, d'. split_and!; try done. intros Hlen x Hx Hs. apply (H1 (ref_of x)). rewrite Hreq.
  apply list_elem_of_fmap_2, order_by_all; [done|]. by apply list_elem_of_In, filter_In; rewrite <-list_elem_of_In.
Qed.

(** C26: a cancel request on a running or parked run always succeeds: every
    pending, ready, retrying or awaiting step is cancelled and returned, every
    other step keeps its status, and the run is cancelled at once exactly when no
    step was running, and cancelling otherwise. *)
Theorem cancel_request_converges r reason now d y : engine_reachable ev rd d → now ≠ 0 →
  cancel_reason_ok reason = true → run_at d r = Some y → run_open y = true →
  ∃ run fin d', cancelRunTx r reason now d = (Ok (mkCancelResult run (sweep_ids r d) fin), d') ∧
    (∀ s x, row d r s = Some x → ∃ x', row d' r s = Some x' ∧
       step_Status x' = match step_Status x with
                        | StepStatusPending | StepStatusReady | StepStatusRetrying | StepStatusAwaitingHuman =>
                            StepStatusCancelled
                        | st => st
                        end) ∧
    (∃ y', run_at d' r = Some y' ∧ run_Status y' = if fin then RunStatusCancelled else RunStatusCancelling) ∧
    (fin = true ↔ ∀ s x, row d r s = Some x → step_Status x ≠ StepStatusRunning).
Proof.
  intros I%reachable_engine_inv Hnow Hok Hy Ho.
  destruct (cancelRunTx_spec r reason now d y (ei_db _ I) Hnow Hok Hy) as (run & fin & d' & E & Hs & Hr & Hf); [|done|].
  { intros s x. apply no_failed; [done|]. intros z Hz. rewrite Hy in Hz. injection Hz as <-.
    unfold run_open, run_has in Ho. by destruct (run_Status y). }
  exists run, fin, d'. split_and!; [done| |done|done]. intros s x Hx. destruct (Hs s x Hx) as (x' & Hx' & Es).
  exists x'. split; [done|]. rewrite Es. by destruct (step_Status x).
Qed.
End healing.
Lemma reconcile_restores_dispatch_witness : ∃ res d',
  reconcileTx (mkReconcilerConfig 5 100 5 10) true 30 EngineDemo.forked = (Ok res, d') ∧ StalledRuns res = [].
Proof.
  destruct (reconcile_restores_dispatch EngineDemo.ev EngineDemo.rd (mkReconcilerConfig 5 100 5 10) 30
    EngineDemo.forked EngineDemo.forked_reachable ltac:(lia)) as (res & d' & E & Hs & _).
  exists res, d'. split; [exact E|exact Hs].
Defined.
Lemma cancel_request_converges_witness : ∃ run fin d',
  cancelRunTx 1 RunCancelReasonManual 14 EngineDemo.forked = (Ok (mkCancelResult run ["c"; "j"] fin), d').
Proof.
  set (y := default (run_row Demo.plan Demo.args) (run_at EngineDemo.forked 1)).
  destruct (cancel_request_converges EngineDemo.ev EngineDemo.rd 1 RunCancelReasonManual 14 EngineDemo.forked y
    EngineDemo.forked_reachable ltac:(lia) ltac:(reflexivity) ltac:(vm_compute; reflexivity)
    ltac:(vm_compute; reflexivity)) as (run & fin & d' & E & _).
  exists run, fin, d'. replace ["c"; "j"] with (sweep_ids 1 EngineDemo.forked) by (vm_compute; reflexivity). exact E.
Defined.
