(* ===== verification/PlanProps.v ===== *)
(** Properties of the engine's planning: edge plans, the write-off, retry
    routing, the outbox drain, the join configuration's round trip, and what a queue
    delivery does to its step, on every status of the step and of the run (claim.go). *)
From stdpp Require Import relations sorting.
From S2P Require Import Prelude Retry StoreModel Transitions Effects StoreInv StoreSpecs EdgeSpecs StoreSystem StoreTheorems Config Dag GraphFacts ReadyFacts Instantiate DagProps Engine StoreProps EngineInv Moves GraphInv FanOut WriteOff EngineGraph EngineTx EngineStart EngineTotal Settle CancelSpec Reconcile Upholds EngineSystem EngineProps.
Open Scope Z_scope.

(** ** Branches *)
Section branch.
Context (ev : string → option json → option json → option bool) (output params : option json).

(** The value of an edge's condition; an absent one holds. *)
Definition edge_holds (e : RunEdge) : option bool :=
  match edge_WhenExpr e with None => Some true | Some expr => ev expr output params end.
Definition normal_edges (edges : list RunEdge) : list RunEdge :=
  List.filter (λ e, bool_decide (edge_EdgeType e = EdgeTypeNormal)) edges.
Definition unfired (e : RunEdge) : edgeVerdict := (edge_Ordinal e, false).

Lemma plan_matched edges : plan_loop ev true output params edges true = inr (unfired <$> normal_edges edges).
Proof.
  induction edges as [|e edges IH]; [done|]. cbn [plan_loop normal_edges List.filter].
  destruct (bool_decide (edge_EdgeType e = EdgeTypeNormal)); cbn [negb]; [|exact IH].
  by destruct (edge_WhenExpr e); cbn; rewrite IH.
Qed.

(** One edge of a branch that has not matched yet. *)
Lemma plan_unmatched e edges : edge_EdgeType e = EdgeTypeNormal →
  plan_loop ev true output params (e :: edges) false =
  match edge_holds e with
  | None => inl (ErrEval (edge_Ordinal e))
  | Some f => match plan_loop ev true output params edges f with
              | inl err => inl err
              | inr vs => inr ((edge_Ordinal e, f) :: vs)
              end
  end.
Proof.
  intros Hn. cbn [plan_loop]. rewrite bool_decide_eq_true_2 by done. unfold edge_holds.
  destruct (edge_WhenExpr e) as [expr|]; [cbn; by destruct (ev expr output params) as [[]|]|done].
Qed.

(** C27: a branch step takes the first outgoing edge, in ordinal order of the
    rows, whose condition holds.  The verdicts list every normal edge once; the
    edges before the taken one evaluated to false, those after it are not
    evaluated and do not fire; if no condition holds nothing fires; and the plan
    fails exactly when a condition that has to be evaluated cannot be. *)
Theorem branch_first_match edges :
  let es := normal_edges edges in
  let plan := planEdges ev StepBranch edges output params in
  (∃ pre e post, es = pre ++ e :: post ∧ Forall (λ e, edge_holds e = Some false) pre ∧
     (edge_holds e = Some true ∧
        plan = inr ((unfired <$> pre) ++ (edge_Ordinal e, true) :: (unfired <$> post)) ∨
      edge_holds e = None ∧ plan = inl (ErrEval (edge_Ordinal e)))) ∨
  Forall (λ e, edge_holds e = Some false) es ∧ plan = inr (unfired <$> es).
Proof.
  intros es plan. unfold es, plan, planEdges. rewrite bool_decide_eq_true_2 by done. clear es plan.
  induction edges as [|e edges IH]; [right; split; [constructor|done]|]. cbn [normal_edges List.filter].
  destruct (bool_decide (edge_EdgeType e = EdgeTypeNormal)) eqn:Hn.
  2:{ cbn [plan_loop]. rewrite Hn. exact IH. }
  rewrite plan_unmatched by by apply bool_decide_eq_true in Hn. fold (normal_edges edges) in *.
  destruct (edge_holds e) as [[]|] eqn:Hh.
  - left. exists [], e, (normal_edges edges). rewrite plan_matched. split_and!; [done|constructor|left; done].
  - destruct IH as [(pre & e' & post & E & Hpre & Hcase)|[Hall E]].
    + left. exists (e :: pre), e', post. rewrite E. split_and!; [done|by constructor|].
      destruct Hcase as [[Hh' ->]|[Hh' ->]]; [left|right]; done.
    + right. split; [by constructor|]. by rewrite E.
  - left. exists [], e, (normal_edges edges). split_and!; [done|constructor|right; done].
Qed.
End branch.

(** ** The write-off *)

(** C28: planWriteOff terminates within its fuel and is exact: when every join
    config decodes and step ids are distinct, it returns, without duplicates,
    precisely the pending steps of the least set that holds the dead-lettered,
    cancelled and failed steps and is closed under "an unresolved edge comes out
    of the set" (for a join-any: no edge fired, and all unresolved edges do). *)
Theorem write_off_exact steps edges : (∀ st, st ∈ steps → ∃ b, isJoinAny st = inr b) →
  NoDup (step_StepID <$> steps) →
  ∃ out, planWriteOff steps edges = inr out ∧ NoDup out ∧
    ∀ s, s ∈ out ↔ pending_id steps s ∧ lost steps edges s.
Proof. intros Hd Hn. exact (planWriteOff_spec steps edges Hd Hn). Qed.
Lemma write_off_exact_witness : ∃ out,
  planWriteOff (run_steps EngineDemo.forked) (run_edges EngineDemo.forked) = inr out ∧ NoDup out.
Proof.
  destruct (write_off_exact (run_steps EngineDemo.forked) (run_edges EngineDemo.forked)) as (out & E & Hn & _).
  - intros st Hst. vm_compute in Hst.
    repeat (apply elem_of_cons in Hst as [->|Hst]; [eexists; vm_compute; reflexivity|]). by apply not_elem_of_nil in Hst.
  - vm_compute. repeat (apply NoDup_cons; split; [set_solver|]). apply NoDup_nil_2.
  - exists out. split; [exact E|exact Hn].
Defined.

(** ** Join configurations *)

(** Marshalling a join step's configuration into its run_steps row and
    decoding it back yields the mode, for every mode validation admits (absent,
    all, any); every other mode is rejected by the decoder. *)
Theorem join_config_roundtrip m :
  decodeJoinConfig (marshalConfig (JoinConfigC m)) = if join_mode_ok m then Some m else None.
Proof. apply join_roundtrip. Qed.

(** ** The drain *)
Lemma send_until_spec enq l : let '(sent, ok) := send_until enq l in
  Forall (λ o, enq o = true) sent ∧
  ∃ rest, l = sent ++ rest ∧ if ok then rest = [] else ∃ o rest', rest = o :: rest' ∧ enq o = false.
Proof.
  induction l as [|o l IH]; cbn [send_until]; [split; [constructor|by exists []]|].
  destruct (enq o) eqn:Ho.
  - destruct (send_until enq l) as [sent ok]. destruct IH as (Hs & rest & -> & Hr).
    split; [by constructor|]. by exists rest.
  - split; [constructor|]. exists (o :: l). split; [done|]. by exists o, l.
Qed.

Lemma delete_first_all d n l : (∀ o, o ∈ l → joins_run d o = true) → delete_first d n l = drop n l.
Proof.
  revert n. induction l as [|o l IH]; intros [|n] Hj; try done. cbn [delete_first drop].
  rewrite (Hj o) by (by left). apply IH. intros o' Ho'. apply Hj. by right.
Qed.


(** C30: the outbox drain loses nothing and keeps the order.  A pass hands the
    oldest rows to the queue, at most a batch, and deletes exactly the rows the
    queue took; it stops early only at a row the queue refused, which stays the
    oldest row; nothing else of the database changes.  (Every outbox row
    references an existing run.) *)
Theorem drain_lossless batch enq d : (∀ o, o ∈ task_outbox d → joins_run d o = true) →
  ∃ sent ok d', drainTx batch enq d = (Ok (sent, ok), d') ∧ task_outbox d = sent ++ task_outbox d' ∧
    d' = d <| task_outbox := task_outbox d' |> ∧ Forall (λ o, enq o = true) sent ∧
    (length sent ≤ Z.to_nat batch)%nat ∧
    (if ok : bool then length sent = Nat.min (Z.to_nat batch) (length (task_outbox d))
     else ∃ o rest, task_outbox d' = o :: rest ∧ enq o = false).
Proof.
  intros Hj. unfold drainTx, bind at 1, get. rewrite (filter_all (joins_run d)) by done.
  pose proof (send_until_spec enq (take (Z.to_nat batch) (task_outbox d))) as Hs.
  destruct (send_until _ _) as [sent ok]. destruct Hs as (Hs & rest & Et & Hr).
  eexists sent, ok, _. split; [reflexivity|].
  rewrite delete_first_all by done.
  assert (task_outbox d = sent ++ rest ++ drop (Z.to_nat batch) (task_outbox d)) as Eo
    by (rewrite app_assoc, <-Et; by rewrite take_drop).
  assert (drop (length sent) (task_outbox d) = rest ++ drop (Z.to_nat batch) (task_outbox d)) as Ed
    by (rewrite Eo at 1; by rewrite drop_app_length).
  assert (length sent + length rest = Nat.min (Z.to_nat batch) (length (task_outbox d)))%nat as Hlen
    by (rewrite <-length_app, <-Et; apply length_take).
  change (task_outbox (d <| task_outbox := drop (length sent) (task_outbox d) |>)) with (drop (length sent) (task_outbox d)).
  split_and!; [by rewrite Ed|done|done|lia|]. destruct ok.
  - rewrite Hr in Hlen. cbn in Hlen. lia.
  - destruct Hr as (o & rest' & -> & Ho). rewrite Ed. by exists o, (rest' ++ drop (Z.to_nat batch) (task_outbox d)).
Qed.
Lemma drain_lossless_witness : ∃ sent ok d', drainTx 1 (λ _, true) EngineDemo.forked = (Ok (sent, ok), d') ∧
  task_outbox EngineDemo.forked = sent ++ task_outbox d'.
Proof.
  destruct (drain_lossless 1 (λ _, true) EngineDemo.forked) as (sent & ok & d' & E & Ho & _).
  - intros o Ho. vm_compute in Ho. repeat (apply elem_of_cons in Ho as [->|Ho]; [vm_compute; reflexivity|]).
    by apply not_elem_of_nil in Ho.
  - exists sent, ok, d'. split; [exact E|exact Ho].
Defined.

(** ** Retry routing *)

(** What the durable budgets are counted from. *)
Definition same_attempts (d d' : DB) : Prop := step_attempts d' = step_attempts d ∧ dead_letters d' = dead_letters d.

#[export] Instance same_attempts_preorder : PreOrder same_attempts.
Proof. split; [by split|]. intros d1 d2 d3 [? ?] [? ?]. split; congruence. Qed.
Lemma same_attempts_count ok r s d d' : same_attempts d d' → CountOutcomes ok r s d' = CountOutcomes ok r s d.
Proof. intros [E1 E2]. unfold CountOutcomes. by rewrite E1, E2. Qed.

Lemma applyCostRows_attempts rows : ∀ d u d', db_inv d → applyCostRows rows d = (Ok u, d') → same_attempts d d'.
Proof.
  induction rows as [|a rows IH]; intros d u d' H E; [by injection E as _ <-|].
  unfold applyCostRows in E. cbn [for_each] in E. apply bind_ok in E as (u1 & d1 & E1 & E).
  apply bind_ok in E1 as (x & d0 & E0 & E1). injection E1 as _ <-.
  assert (same_attempts d d0) as S1.
  { destruct (ApplyAttemptCost_ok a d _ _ H E0) as (run & ef & _ & _ & -> & Ha & Hd & _).
    split; cbn; rewrite ?Ha, ?Hd; [done|apply app_nil_r]. }
  etrans; [exact S1|]. apply (IH d0 u d'); [|done].
  eapply tx_steps_inv; [exact H|]. by eapply (transition_sequenced _ (ApplyAttemptCost_transition a)).
Qed.

(** A retry that was accepted counted the attempt. *)
Lemma RetryStep_counted r s c o err u next now d a d' : db_inv d → RetryStep r s c o err u next now d = (Ok a, d') →
  CountOutcomes counted_ok r s d' = CountOutcomes counted_ok r s d + 1.
Proof.
  intros H E. destruct (decide (now = 0)) as [->|Hnow]; [done|].
  destruct (counted_ok o) eqn:Ho.
  2:{ revert E. unfold RetryStep, bind, guard. fold (counted_ok o). by rewrite now_ok, Ho by done. }
  destruct (decide (next = 0)) as [->|Hz].
  { revert E. unfold RetryStep, bind, guard. fold (counted_ok o). by rewrite now_ok, Ho by done. }
  destruct (on_ok_elim _ _ _ _ _ (RetryStep_moves r s d H c o err u next now) E) as (x & x' & y & y' & C & _).
  pose proof (rch_run _ _ _ _ _ (ch_run _ _ _ _ _ _ _ _ C)) as Hy. pose proof (ch_row _ _ _ _ _ _ _ _ C) as Hx.
  assert (o = AttemptOutcomeTransient ∨ o = AttemptOutcomeTimeout) as Ho'
    by (apply orb_prop in Ho as [?%bool_decide_eq_true|?%bool_decide_eq_true]; auto).
  pose proof (RetryStep_guarded d r s y x H Hy Hx c o err u next now Hnow Hz Ho') as G. unfold guarded in G.
  rewrite E in G. destruct (fenced c x) eqn:Hf; [|done]. destruct G as [[= _ ->] _].
  rewrite (count_close d r s y x H Hx); [by rewrite Ho|]. by apply fenced_true in Hf as [-> _].
Qed.

Lemma retryRoute_some rd c class now d t b d' : retryRoute rd c class now d = (Ok (Some t, b), d') → d' = d ∧
  ∃ p delay, decodeRetryPolicy (env_RetryPolicy (co_Envelope c)) = Some p ∧ Retries p class = true ∧
    CountOutcomes counted_ok (co_RunID c) (co_StepID c) d + 1 < rp_MaxAttempts p ∧
    rd p (CountOutcomes counted_ok (co_RunID c) (co_StepID c) d + 1) = Some delay ∧ t = now + delay.
Proof.
  unfold retryRoute. destruct (decodeRetryPolicy _) as [p|] eqn:Hp; [|done].
  destruct (Retries p class) eqn:Hr; [|done]. unfold CountCountedFailures, bind, get, ret, counted_ok.
  destruct (_ <=? _) eqn:Hm; [done|]. destruct (rd p _) as [delay|] eqn:Hd; [|done].
  intros [= <- _ <-]. split; [done|]. exists p, delay. split_and!; try done. lia.
Qed.

(** C31: the transport retry budget.  When a failed attempt is routed to a retry,
    the step's materialized policy admits the error class, the attempt is now one
    of its counted failures, and their number stays below max_attempts; the next
    attempt is due after the policy's delay for that ordinal.  So a step is
    retried at most max_attempts - 1 times between dead-letterings. *)
Theorem retry_bounded ev rd c class payload collect params now d t d' : db_inv d →
  completeFailureTx ev rd c class payload collect params now d = (Ok (RouteRetry t), d') →
  ∃ p delay, decodeRetryPolicy (env_RetryPolicy (co_Envelope c)) = Some p ∧ Retries p class = true ∧
    let counted d := CountOutcomes counted_ok (co_RunID c) (co_StepID c) d in
    counted d' = counted d + 1 ∧ 1 ≤ counted d' < rp_MaxAttempts p ∧
    rd p (counted d') = Some delay ∧ t = now + delay.
Proof.
  intros H E. unfold completeFailureTx in E. peel E. apply LockRunStatus_ok in E0 as (-> & y & Hy & _).
  destruct (bool_decide _); [by peel E|]. apply bind_ok in E as ([[t'|] b] & d0 & E0 & E).
  2:{ destruct collect; repeat peel E; done. }
  destruct (retryRoute_some _ _ _ _ _ _ _ _ E0) as (-> & p & delay & Hp & Hr & Hm & Hd & Ht).
  apply bind_ok in E as (x & d1 & E1 & E). apply fence_inv in E1.
  apply bind_ok in E as (u & d2 & E2 & E). injection E as <- <-.
  assert (db_inv d1) as H1
    by (eapply tx_steps_inv; [exact H|by eapply (transition_sequenced _ (RetryStep_transition _ _ _ _ _ _ _ _))]).
  exists p, delay. split_and!; [done|done|]. cbv zeta.
  rewrite (same_attempts_count _ _ _ _ _ (applyCostRows_attempts _ _ _ _ H1 E2)), (RetryStep_counted _ _ _ _ _ _ _ _ _ _ _ H E1).
  assert (0 ≤ CountOutcomes counted_ok (co_RunID c) (co_StepID c) d) by apply count_nonneg.
  split_and!; [done|lia|lia|done|done].
Qed.
Module RetryDemo.
Definition policy : ResolvedRetryPolicy := ResolveRetryPolicy None.
Definition failing : Completion :=
EngineDemo.complete "b" 8 <| co_Envelope := mkEnvelope (Some policy) None None None None None None 1 0 None None |>.
Definition failed : result FailureRoute * DB :=
completeFailureTx EngineDemo.ev EngineDemo.rd failing ClassTimeout JNull false None 20 EngineDemo.forked.
End RetryDemo.
Lemma retry_bounded_witness : 1 ≤ CountOutcomes counted_ok 1 "b" RetryDemo.failed.2 < 3.
Proof.
  assert (completeFailureTx EngineDemo.ev EngineDemo.rd RetryDemo.failing ClassTimeout JNull false None 20 EngineDemo.forked =
    (Ok (RouteRetry 25), RetryDemo.failed.2)) as E by (vm_compute; reflexivity).
  destruct (retry_bounded EngineDemo.ev EngineDemo.rd RetryDemo.failing ClassTimeout JNull false None 20
    EngineDemo.forked 25 RetryDemo.failed.2 (ei_db _ (reachable_engine_inv _ _ _ EngineDemo.forked_reachable)) E)
    as (p & delay & Hp & _ & _ & Hb & _).
  assert (p = RetryDemo.policy) as -> by (vm_compute in Hp; vm_compute; congruence). exact Hb.
Defined.

(** ** Deliveries *)

Section delivery.
Context (d : DB) (r : uuid) (s : string) (x : RunStep) (y : Run).
Context (n : Z) (now now' : time) (span worker : string) (c c' : uuid).
Context (H : db_inv d) (Hy : run_at d r = Some y) (Hx : row d r s = Some x) (Hnow : now ≠ 0) (Hnow' : now' ≠ 0).
Abbreviation deliver := (claim_delivery r s n now now' span worker c c' d).
Abbreviation d0 := (d <| tx_events := [] |>).

Lemma begin_inv : db_inv d0.
Proof. by apply inv_tx_events. Qed.

Lemma claim_begins : guarded d0 y x (ClaimStepWithOrigin r s now span worker c)
  (run_has RunStatusRunning y && claimable now x) (ClaimRunStep c now (nullableText span) x, claim_origin y x)
  (claim_effect r s x now span worker c) (claim_conflict r s y x).
Proof. by apply (ClaimStepWithOrigin_guarded d0 r s y x begin_inv Hy Hx). Qed.

(** The effect leaves the claimed row in the table. *)
Lemma effect_row d1 y1 x1 e : db_inv d1 → run_at d1 r = Some y1 → row d1 r s = Some x1 → sound d1 y1 x1 e →
  row (apply_effect y1 x1 e d1) r s = Some (ef_step e x1).
Proof. intros H1 Hy1 Hx1 S. apply (effect_changes d1 r s y1 x1 e H1 Hy1 Hx1 S). Qed.

Lemma deliver_granted : run_has RunStatusRunning y && claimable now x = true → ∃ d' evs,
  deliver = (Execute (ClaimRunStep c now (nullableText span) x) (claim_origin y x), d', evs) ∧
  row d' r s = Some (ClaimRunStep c now (nullableText span) x).
Proof.
  intros Hg. destruct (guarded_accept _ _ _ _ _ _ _ _ claim_begins Hg) as [E S].
  eexists _, _. split; [unfold claim_delivery, WithTx; by rewrite E|].
  exact (effect_row d0 y x _ begin_inv Hy Hx S).
Qed.

Lemma deliver_refused : run_has RunStatusRunning y && claimable now x = false →
  WithTx (ClaimStepWithOrigin r s now span worker c) d = (Fail (claim_conflict r s y x), d, []).
Proof. intros Hg. unfold WithTx. by rewrite (guarded_reject _ _ _ _ _ _ _ _ claim_begins Hg). Qed.

(** A refused claim that is classified as settled elsewhere acks and changes nothing. *)
Lemma deliver_ack : run_has RunStatusRunning y && claimable now x = false →
  classifyClaimFailure (claim_conflict r s y x) n = claimAckDrop → deliver = (Consumed Ack, d, []).
Proof. intros Hg Hc. unfold claim_delivery. rewrite deliver_refused by done. by rewrite Hc. Qed.

(** Redelivered while another worker holds the step: the claim moves over. *)
Lemma takeover_granted h : run_has RunStatusRunning y = true → fenced h x = true →
  ∃ step origin d' evs, WithTx (takeoverAndClaimTx r s h now' span worker c') d = (Ok (step, origin), d', evs) ∧
    row d' r s = Some step ∧ step_Status step = StepStatusRunning ∧ step_ClaimID step = Some c' ∧
    step_AttemptCount step = step_AttemptCount x + 1.
Proof.
  intros Hr Hf. destruct (guarded_accept _ _ _ _ _ _ _ _ (TakeoverStep_guarded d0 r s y x begin_inv Hy Hx h now' Hnow') Hf)
    as [E1 S1]. set (e1 := step_effect _ _ _ _ _) in *. set (d1 := apply_effect y x e1 d0) in *.
  assert (db_inv d1) as H1.
  { eapply tx_steps_inv; [apply begin_inv|]. by eapply (transition_sequenced _ (TakeoverStep_transition r s h now')); [apply begin_inv|]. }
  pose proof (effect_row d0 y x e1 begin_inv Hy Hx S1) as Hx1. fold d1 in Hx1.
  pose proof (rch_run' _ _ _ _ _ (effect_run_changes d0 r y x e1 begin_inv Hy S1)) as Hy1. fold d1 in Hy1.
  destruct (guarded_accept _ _ _ _ _ _ _ _ (ClaimStepWithOrigin_guarded d1 r s _ _ H1 Hy1 Hx1 now' span worker c' Hnow'))
    as [E2 S2]; [by apply andb_true_intro; split|].
  eexists _, _, _, _. split; [unfold WithTx, takeoverAndClaimTx, bind, attempt; rewrite E1; cbn [ret]; fold d1; by rewrite E2|].
  split; [exact (effect_row d1 _ _ _ H1 Hy1 Hx1 S2)|]. done.
Qed.
End delivery.

(** C32: the claim CAS turns at-least-once delivery into at most one holder.  For
    a delivery of an existing step at set clocks: on a run that is not running it
    acks and changes nothing; a claimable step (ready, or retrying and due) is
    claimed under the delivery's token and executed; a step already running acks
    on a first delivery, and on a redelivery is taken over: closed for the old
    holder and reclaimed under the second token, one attempt later; a settled,
    awaiting or not yet due step acks and changes nothing; a pending step
    redelivers and changes nothing. *)
Theorem delivery_outcomes d r s x y n now now' span worker c c' : db_inv d → run_at d r = Some y →
  row d r s = Some x → now ≠ 0 → now' ≠ 0 →
  let res := claim_delivery r s n now now' span worker c c' d in
  (run_Status y ≠ RunStatusRunning → res = (Consumed Ack, d, [])) ∧
  (run_Status y = RunStatusRunning →
   match step_Status x with
   | StepStatusPending => ∃ e, res = (Consumed (Redeliver e), d, [])
   | StepStatusRunning =>
       if n <=? 1 then res = (Consumed Ack, d, [])
       else ∃ step origin d' evs, res = (Execute step origin, d', evs) ∧ row d' r s = Some step ∧
              step_Status step = StepStatusRunning ∧ step_ClaimID step = Some c' ∧
              step_AttemptCount step = step_AttemptCount x + 1
   | StepStatusReady | StepStatusRetrying =>
       if claimable now x then
         ∃ d' evs, res = (Execute (ClaimRunStep c now (nullableText span) x) (claim_origin y x), d', evs) ∧
           row d' r s = Some (ClaimRunStep c now (nullableText span) x)
       else res = (Consumed Ack, d, [])
   | _ => res = (Consumed Ack, d, [])
   end).
Proof.
  intros H Hy Hx Hnow Hnow' res.
  pose proof (deliver_granted d r s x y n now now' span worker c c' H Hy Hx Hnow) as G.
  pose proof (deliver_ack d r s x y n now now' span worker c c' H Hy Hx Hnow) as A.
  fold res in G, A. split.
  - intros Hr. assert (run_has RunStatusRunning y = false) as Hh by by apply bool_decide_eq_false.
    rewrite Hh in A. apply A; [done|]. unfold claim_conflict. by rewrite Hh.
  - intros Hr. assert (run_has RunStatusRunning y = true) as Hh by by apply bool_decide_eq_true.
    rewrite Hh in G, A. cbn [andb] in G, A.
    assert (claim_conflict r s y x = conflict_of StepStatusReady StepStatusRunning None x) as Ec
      by (unfold claim_conflict; by rewrite Hh).
    rewrite Ec in A. unfold conflict_of, has_status in A.
    assert (∀ st, step_Status x = st → st ≠ StepStatusReady → st ≠ StepStatusRetrying → claimable now x = false) as Hc.
    { intros st Es N1 N2. unfold claimable, has_status. by rewrite Es, !bool_decide_eq_false_2. }
    destruct (step_Status x) eqn:Es; rewrite ?Es in A; try (by apply A; [exact (Hc _ eq_refl ltac:(done) ltac:(done))|]).
    + eexists. unfold res, claim_delivery. rewrite (deliver_refused d r s x y now span worker c) by
        (try done; rewrite Hh; exact (Hc _ eq_refl ltac:(done) ltac:(done))). rewrite Ec. unfold conflict_of, has_status. by rewrite Es.
    + destruct (claimable now x) eqn:Hk; [by apply G|]. unfold claimable, has_status in Hk. by rewrite Es in Hk.
    + destruct (n <=? 1) eqn:Hn.
      * apply A; [exact (Hc _ eq_refl ltac:(done) ltac:(done))|]. cbn. by rewrite Hn.
      * pose proof (inv_shape _ H x (row_elem _ _ _ _ Hx)) as Hsh. unfold step_shape in Hsh. rewrite Es in Hsh.
        destruct (step_ClaimID x) as [h|] eqn:Hcl; [|done].
        destruct (takeover_granted d r s x y now' span worker c' H Hy Hx Hnow' h Hh) as (step & o & d' & evs & E & T).
        { unfold fenced, has_status, has_claim. by rewrite Es, Hcl, !bool_decide_eq_true_2. }
        exists step, o, d', evs. split; [|exact T]. unfold res, claim_delivery.
        rewrite (deliver_refused d r s x y now span worker c) by (try done; rewrite Hh; exact (Hc _ eq_refl ltac:(done) ltac:(done))).
        assert (classifyClaimFailure (claim_conflict r s y x) n = claimTakeover h) as ->.
        { rewrite Ec. unfold conflict_of, has_status. rewrite Es, Hcl. cbn. by rewrite Hn. }
        by rewrite E.
    + destruct (claimable now x); [by apply G|by apply A].
Qed.
Lemma delivery_outcomes_witness : ∃ step origin d' evs,
  claim_delivery 1 "b" 2 20 21 "" "w2" 30 31 EngineDemo.forked = (Execute step origin, d', evs) ∧
  step_ClaimID step = Some 31%positive.
Proof.
  set (y := default (run_row Demo.plan Demo.args) (run_at EngineDemo.forked 1)).
  set (x := default (no_step 1) (row EngineDemo.forked 1 "b")).
  destruct (delivery_outcomes EngineDemo.forked 1 "b" x y 2 20 21 "" "w2" 30 31
    (ei_db _ (reachable_engine_inv _ _ _ EngineDemo.forked_reachable)) ltac:(vm_compute; reflexivity)
    ltac:(vm_compute; reflexivity) ltac:(lia) ltac:(lia)) as [_ T].
  specialize (T ltac:(vm_compute; reflexivity)).
  assert (step_Status x = StepStatusRunning) as E by (vm_compute; reflexivity). rewrite E in T.
  destruct T as (step & o & d' & evs & E1 & _ & _ & E2 & _). exists step, o, d', evs. split; [exact E1|exact E2].
Defined.
