(* ===== verification/EngineFindings.v ===== *)
(** Reachable behaviours the comments of the source rule out, each as a concrete
    execution. *)
From S2P Require Import Prelude Retry StoreModel Transitions Config Dag Instantiate Engine StoreProps Moves GraphInv EngineStart Reconcile Upholds EngineSystem EngineProps.
Open Scope Z_scope.

(** Predicates: [no] is false, everything else true. *)
Definition ev (e : string) (_ _ : option json) : option bool := Some (negb (bool_decide (e = "no"))).
Definition rd (_ : ResolvedRetryPolicy) (_ : Z) : option Z := Some 5.

Definition noop (i : string) : Step := mkStep i "noop" None None None noPolicies.
Definition submit (def : Definition_) : option DB :=
  match planGraph def with
  | inr p => match WithTx (insert_run p (mkCreateRunArgs 1 "" None 10 noTrace "" "")) empty_db with
             | (Ok _, d, _) => Some d
             | _ => None
             end
  | inl _ => None
  end.
Lemma submit_reachable def d : decoded def = true → submit def = Some d → engine_reachable ev rd d.
Proof.
  unfold submit. intros Hd. destruct (planGraph def) as [|p] eqn:Hp; [done|].
  destruct (WithTx _ _) as [[[y|] d'] evs] eqn:E; [|done]. intros [= <-].
  by eapply (er_submit _ _ empty_db def p); [apply er_empty|done|done|exact E].
Qed.
Definition trace (def : Definition_) (ops : list EngineOp) : option DB := submit def ≫= run_engine ev rd ops.
Lemma trace_reachable def ops d : decoded def = true → trace def ops = Some d → engine_reachable ev rd d.
Proof.
  unfold trace. intros Hd. destruct (submit def) as [d0|] eqn:Hs; [|done]. cbn. intros E.
  eapply run_engine_reachable; [by eapply submit_reachable|done].
Qed.

Definition done_by (s ty : string) (c : uuid) : Completion :=
  mkCompletion 1 s ty c noEnvelope (Some JNull) None None None [] None None noTrace.
Definition fails (s : string) (c : uuid) (now : time) : EngineOp :=
  EFailure (done_by s "noop" c) ClassPermanent JNull false None now.

(** The run is running, holds a pending step, and has no ready, running,
    retrying or awaiting one. *)
Definition wedged (d : DB) : bool :=
  match run_at d 1 with Some y => run_has RunStatusRunning y | None => false end &&
  existsb (has_status StepStatusPending) (run_steps d) &&
  forallb (λ x, negb (active (step_Status x))) (run_steps d) &&
  match (ListStalledRuns 10 d).1 with Ok [] => true | _ => false end.

(** *** A join-any whose sources died and were skipped

    [b] branches away from [y]; [x] and [y] feed the join-any [j]. *)
Definition mixed_join : Definition_ :=
  plainDefinition "mixed" ContinueIndependentBranches
    [noop "x"; mkStep "b" StepBranch None None None noPolicies; noop "y"; noop "z";
     mkStep "j" StepJoin (Some (JoinConfigC JoinAny)) None None noPolicies]
    [mkEdge "b" "y" "no" EdgeTypeNormal ""; mkEdge "b" "z" "yes" EdgeTypeNormal "";
     mkEdge "x" "j" "" EdgeTypeNormal ""; mkEdge "y" "j" "" EdgeTypeNormal ""].
Definition mixed_trace : list EngineOp :=
  [EClaim 1 "x" 11 "" "w" 7; fails "x" 7 12; EClaim 1 "b" 13 "" "w" 8; ESuccess (done_by "b" StepBranch 8) None 14;
   EClaim 1 "z" 15 "" "w" 9; ESuccess (done_by "z" "noop" 9) None 16].

(** Under continue_independent_branches the write-off runs only when a step is
    dead-lettered: a join-any whose other source is skipped afterwards stays
    pending, and the run stays running, with nothing left to run. *)
Theorem mixed_join_wedges : ∃ d, engine_reachable ev rd d ∧ wedged d = true.
Proof.
  destruct (trace mixed_join mixed_trace) as [d|] eqn:E; [|vm_compute in E; discriminate E].
  exists d. split; [apply (trace_reachable mixed_join mixed_trace); [reflexivity|exact E]|].
  vm_compute in E. injection E as <-. vm_compute. reflexivity.
Qed.

(** *** Requeueing one of two dead letters of a fail_fast run *)
Definition two_deaths : Definition_ :=
  plainDefinition "two" "" [noop "p"; noop "q"; noop "r"] [mkEdge "q" "r" "" EdgeTypeNormal ""].
Definition two_trace : list EngineOp :=
  [EClaim 1 "p" 11 "" "w" 7; EClaim 1 "q" 12 "" "w" 8; fails "p" 7 13; fails "q" 8 14; ERequeue 1 "p" 15;
   EClaim 1 "p" 16 "" "w" 9; ESuccess (done_by "p" "noop" 9) None 17].

(** The requeue of [p] resumes the failed run; when [p] has succeeded, the pending
    successor of the other dead letter keeps the run running with nothing left to
    run. *)
Theorem requeue_wedges : ∃ d, engine_reachable ev rd d ∧ wedged d = true.
Proof.
  destruct (trace two_deaths two_trace) as [d|] eqn:E; [|vm_compute in E; discriminate E].
  exists d. split; [apply (trace_reachable two_deaths two_trace); [reflexivity|exact E]|].
  vm_compute in E. injection E as <-. vm_compute. reflexivity.
Qed.

(** *** An approval that times out after its run failed *)
Definition gate : ApprovalRow := mkApprovalRow 40 "ok?" "" None ["approve"; "reject"] false None (Some 20).
Definition late_trace : list EngineOp :=
  [EClaim 1 "p" 11 "" "w" 7; EClaim 1 "q" 12 "" "w" 8; EAwaitHuman (done_by "p" "noop" 7) gate 13; fails "q" 8 14].

(** The park policy's transition fails with a typed conflict after it has already
    written expired_at, and the handler redelivers: since the database is
    unchanged, every redelivery does the same. *)
Theorem late_timeout_redelivers : ∃ d ap te d1, engine_reachable ev rd d ∧ ap ∈ approvals d ∧
  ExpireApprovalPark (ap_ID ap) 1 (ap_StepID ap) (ap_Attempt ap) (ap_TimeoutAt ap) 30 d = (Fail (ErrTransition te), d1) ∧
  approvals d1 ≠ approvals d ∧ applyTimeoutPark ap 30 d = (Redeliver (ErrTransition te), d, []).
Proof.
  destruct (trace two_deaths late_trace) as [d|] eqn:E; [|vm_compute in E; discriminate E].
  pose proof (trace_reachable two_deaths late_trace d eq_refl E) as R. vm_compute in E. injection E as E.
  destruct (approvals d) as [|ap l] eqn:Ea; [rewrite <-E in Ea; discriminate Ea|].
  assert (approvals d = [ap]) as Ea' by (rewrite <-E in *; cbn in Ea; injection Ea as <- <-; reflexivity).
  exists d, ap. rewrite <-E in *. cbn in Ea'. injection Ea' as <-.
  eexists _, _. split; [exact R|]. split; [by left|]. split; [vm_compute; reflexivity|].
  split; [discriminate|]. vm_compute. reflexivity.
Qed.

(** *** An explicit empty toolset *)

(** The overridden toolset [[]] (no tools) and an inherited one (nil) marshal to
    the same step config, so the row cannot tell them apart. *)
Theorem empty_toolset_lost a : ac_Tools a = Some [] →
  marshalConfig (AgentConfigC a) = marshalConfig (AgentConfigC (a <| ac_Tools := None |>)).
Proof. intros E. unfold marshalConfig. cbn. by rewrite E. Qed.
