(* ===== verification/ExpandProps.v ===== *)
(** Properties of run-time expansion, with a planner's run as the example. *)
From stdpp Require Import relations.
From S2P Require Import Prelude Issues GoStd Retry StoreModel Config Template Transitions Effects StoreInv StoreSpecs EdgeSpecs StoreSystem StoreTheorems Dag GraphFacts ReadyFacts Validate ValidateGraph Expansion Instantiate Expand DagProps ValidateFacts ExpansionFacts Engine StoreProps EngineInv Moves GraphInv FanOut WriteOff EngineGraph EngineTx EngineStart EngineTotal ExpandSpec ExpandGraph Settle CancelSpec Reconcile Upholds ExpandTx ExpandTotal EngineSystem EngineProps EngineFindings.
Open Scope Z_scope.

Section expansion.
Context (CompileExpr : string → exprResult) (textTemplateParses : list outSeg → bool).

End expansion.

(** ** A planner's run *)
Module ExpandDemo.
Definition compiles (_ : string) : exprResult := ExprOK.
Definition parses (_ : list outSeg) : bool := true.
Definition planner : Step := mkStep "p" StepPlanner None None None noPolicies.
Definition normal (a b : string) : Edge := mkEdge a b "" EdgeTypeNormal "".

(** [p] plans [n] between itself and [z]. *)
Definition base : Definition_ := plainDefinition "w" FailFast [planner; noop "z"] [normal "p" "z"].
Definition claimed : list EngineOp := [EClaim 1 "p" 11 "" "w" 7].
Definition db : DB := default empty_db (trace base claimed).
Definition expanding : Expanding :=
  mkExpanding OriginPlanner (mkPlanOutput 1 [noop "n"] [normal "p" "n"; normal "n" "z"]) 0 None.
(** The planner's model call is charged with its completion. *)
Definition held : Completion := done_by "p" StepPlanner 7 <| co_Costs :=
  [mkAttemptCostArgs 1 "p" 1 "" "mock/m" None (Some JNull) "exact" false false 700 0 None 12] |>.

Lemma db_reachable : engine_reachable ev rd db.
Proof. apply (trace_reachable base claimed); vm_compute; reflexivity. Qed.

Lemma db_rows x : x ∈ run_steps db → step_Status x ≠ StepStatusDeadLettered.
Proof.
  assert (forallb (λ x, negb (has_status StepStatusDeadLettered x)) (run_steps db) = true) as F by (vm_compute; reflexivity).
  rewrite forallb_forall in F. intros Hx%list_elem_of_In%F. by apply negb_true_iff, bool_decide_eq_false in Hx.
Qed.
Lemma expanding_spliceable : spliceable 1 (ex_Plan expanding) db.
Proof.
  split; [reflexivity|]. intros e _ _ (t & x & Hx & Es)%doomed_dead_step. by apply (db_rows x (row_elem _ _ _ _ Hx)).
Qed.
End ExpandDemo.


Section completion.
Context (ev : string → option json → option json → option bool).
Context (rd : ResolvedRetryPolicy → Z → option Z).
Context (CompileExpr : string → exprResult) (textTemplateParses : list outSeg → bool).

(** C40: a completion that carries a plan always ends.  In every reachable
    database (under the conditions of C21), for an open run, a step with a non-empty id held by the completion's
    claim, a non-empty origin kind and a plan whose joins decode and which enters no
    doomed step, the transaction fails because the ledger refuses one of the
    completion's cost rows, or because the validator found an error in the plan, or
    a CHECK of the new rows fails (a negative depth, an unknown origin kind or edge
    decision), or an out-edge's predicate cannot be evaluated; or it commits: the
    origin is succeeded, every planned step is a step of the run that waits for the
    plan's edges into it, every other step waits for the plan's edges into it as
    well, both advanced by the origin's fan-out alone, and the engine invariant
    holds again. *)
Theorem expanding_completion_total d c x params now y w : engine_reachable ev rd d → now ≠ 0 →
  run_at d (co_RunID c) = Some y → run_open y = true → row d (co_RunID c) (co_StepID c) = Some w →
  fenced (co_ClaimID c) w = true → co_StepID c ≠ "" → ex_Kind x ≠ "" →
  spliceable (co_RunID c) (ex_Plan x) d →
  let tx := expandingSuccessTx ev CompileExpr textTemplateParses c x params now in
  match bill d (co_Costs c) with
  | Some e => ∃ d', tx d = (Fail e, d')
  | None =>
      (∃ inp d', tx d = (Fail (ErrExpansionRejected (ValidateExpansion CompileExpr textTemplateParses inp)), d') ∧
         xi_Plan inp = ex_Plan x ∧ OK (ValidateExpansion CompileExpr textTemplateParses inp) = false) ∨
      (∃ k d', tx d = (Fail (ErrCheck k), d') ∧ delta_violates (expand_args c x now) w k) ∨
      (∃ o d', tx d = (Fail (ErrEval o), d')) ∨
      ∃ fin d', tx d = (Ok fin, d') ∧ expanded_rows c x d d' ∧ engine_inv d'
  end.
Proof.
  intros I%reachable_engine_inv Hnow Hy Ho Hw Hf Hs Hk S tx.
  pose proof (expanding_total CompileExpr textTemplateParses ev c x params now d y w I Hnow Hy Ho Hw Hf Hs Hk S) as T.
  destruct (bill d (co_Costs c)); [done|].
  destruct T as [?|[?|[?|(fin & d' & E & R)]]]; [by left|by right; left|by right; right; left|right; right; right].
  exists fin, d'. split_and!; [done|done|]. by eapply expandingSuccessTx_upholds.
Qed.
End completion.

Lemma expanding_completion_total_witness : ∃ fin d',
  expandingSuccessTx ev ExpandDemo.compiles ExpandDemo.parses ExpandDemo.held ExpandDemo.expanding None 12 ExpandDemo.db =
    (Ok fin, d') ∧
  expanded_rows ExpandDemo.held ExpandDemo.expanding ExpandDemo.db d' ∧ engine_inv d'.
Proof.
  assert (match expandingSuccessTx ev ExpandDemo.compiles ExpandDemo.parses ExpandDemo.held ExpandDemo.expanding None 12 ExpandDemo.db
          with (Ok _, _) => true | _ => false end = true) as Hok by (vm_compute; reflexivity).
  assert (match run_at ExpandDemo.db 1, row ExpandDemo.db 1 "p" with
          | Some y, Some w => run_open y && fenced 7 w | _, _ => false end = true) as Hin by (vm_compute; reflexivity).
  assert (bill ExpandDemo.db (co_Costs ExpandDemo.held) = None) as Hb by (vm_compute; reflexivity).
  destruct (run_at ExpandDemo.db 1) as [y|] eqn:Hy; [|discriminate].
  destruct (row ExpandDemo.db 1 "p") as [w|] eqn:Hw; [|discriminate]. apply andb_prop in Hin as [Ho Hf].
  pose proof (expanding_completion_total ev rd ExpandDemo.compiles ExpandDemo.parses ExpandDemo.db ExpandDemo.held
    ExpandDemo.expanding None 12 y w ExpandDemo.db_reachable ltac:(discriminate) Hy Ho Hw Hf
    ltac:(discriminate) ltac:(discriminate) ExpandDemo.expanding_spliceable) as T.
  cbv zeta in T. rewrite Hb in T. revert T Hok.
  generalize (expandingSuccessTx ev ExpandDemo.compiles ExpandDemo.parses ExpandDemo.held ExpandDemo.expanding None 12 ExpandDemo.db).
  intros out [(inp & d' & -> & _)|[(k & d' & -> & _)|[(o & d' & ->)|T]]] Hok; [discriminate|discriminate|discriminate|exact T].
Defined.

(** ** When a delta closes no cycle *)

(** A plan that leads from no existing step it enters back to one it leaves keeps an
    acyclic run acyclic. *)
Theorem detourless_delta_acyclic CompileExpr textTemplateParses args d run origin : db_inv d →
  expandable CompileExpr textTemplateParses args d run origin → detourless (er_RunID args) (er_Plan args) d →
  (∃ rank : string → nat, ∀ e, edge_of (er_RunID args) d e → (rank (edge_FromStep e) < rank (edge_ToStep e))%nat) →
  ∃ rank : string → nat, ∀ e, edge_of (er_RunID args) (spliced args d run origin) e →
    (rank (edge_FromStep e) < rank (edge_ToStep e))%nat.
Proof. intros H X D. eapply spliced_rank; [done|exact X|by apply detourless_safe]. Qed.

(** ** A cycle the validator lets through

    [p] precedes [z] and [z] precedes [a]; the plan's step [n] follows [a] and
    precedes [z].  The depth-first search visits the existing steps in the order
    of their ids, so the edge that closes the cycle is the old one from [z] to
    [a]: the report is taken for a fault of the old graph and dropped. *)
Module CycleDemo.
Definition base : Definition_ :=
  plainDefinition "w" FailFast [ExpandDemo.planner; noop "z"; noop "a"] [ExpandDemo.normal "p" "z"; ExpandDemo.normal "z" "a"].
Definition db : DB := default empty_db (trace base ExpandDemo.claimed).
Definition expanding : Expanding :=
  mkExpanding OriginPlanner (mkPlanOutput 1 [noop "n"] [ExpandDemo.normal "a" "n"; ExpandDemo.normal "n" "z"]) 0 None.
End CycleDemo.

(** The delta is accepted and the run can never finish: its three pending steps
    wait for each other, and no scan of the reconciler sees it. *)
Theorem expansion_accepts_cycle : engine_reachable ev rd CycleDemo.db ∧
  ∃ fin d', expandingSuccessTx ev ExpandDemo.compiles ExpandDemo.parses ExpandDemo.held CycleDemo.expanding None 12 CycleDemo.db =
    (Ok fin, d') ∧ wedged d' = true.
Proof.
  split; [apply (trace_reachable CycleDemo.base ExpandDemo.claimed); vm_compute; reflexivity|].
  eexists _, _. split; vm_compute; reflexivity.
Qed.
