(* ===== verification/ContextProps.v ===== *)
(** Theorems about a step's context: compaction to a token budget
    (contextmgr/compact.go) and the provider-window guarantee of the engine
    (engine/context.go, engine/window.go). *)
From Stdlib Require Import QArith Ascii.
From stdpp Require Import pretty.
From S2P Require Import Prelude GoStd StoreModel Config Feedback Validate Codec MapExpand Pointer Context Pricing ContextFacts.
Open Scope Z_scope.

Section compaction.
Context (quote : string → string) (encode : json → string) (count : string → Z) (timeParses : json → bool).
Context (measure : string → string + Z).
Context {board : Type} (bget : board → string → CallErr + option Z) (bput : board → string → json → CallErr + (Z * board)).
Context (summarizer : option (SummarizeRequest → CallErr + SummaryResult)) (has_board : bool).

(** What a successful compaction of [asm] to [budget] is. *)
Record fitting (asm : Assembly) (budget : Z) (c : Compacted) : Prop := mkFitting {
  fit_preamble : cp_Preamble c = Render quote (cp_Entries c) ∧ cp_ContextTokens c = count (cp_Preamble c);
  fit_budget : measure (cp_Preamble c) = inr (cp_FinalTokens c) ∧ cp_FinalTokens c ≤ budget;
  fit_pins : pinnedEntries (cp_Entries c) = pinnedEntries (as_Entries asm);
  fit_order : sublist (source_ids (cp_Entries c)) (en_SourceIndex <$> as_Entries asm);
  fit_reports : faithful_reports (cp_Entries c) (cp_Sources c);
  fit_audited : Forall (audited budget) (cp_Revisions c);
  fit_untouched : cp_Revisions c = [] → cp_Entries c = as_Entries asm ∧ cp_Preamble c = as_Preamble asm }.
(** What a refusal says. *)
Record overflowing (asm : Assembly) (budget : Z) (pipeline : list CompactionStrategy) (e : OverBudgetError) : Prop := mkOverflowing {
  over_budget : ob_Budget e = budget ∧ budget < ob_Tokens e;
  over_pinned : measure (Render quote (pinnedEntries (as_Entries asm))) = inr (ob_PinnedTokens e) ∧
                ob_PinnedOnly e = (budget <? ob_PinnedTokens e);
  over_audited : Forall (audited budget) (ob_Revisions e);
  over_dropped : has_strategy DropLowestPriority pipeline → ob_PinnedOnly e = true }.

Lemma compact_outcome spec id src asm budget pipeline b :
  Assemble quote encode count timeParses spec id src = inr asm → floors_ok pipeline →
  match Compact quote count measure bget bput summarizer has_board asm budget pipeline b with
  | inr (c, _) => fitting asm budget c
  | inl (OverBudget e) => overflowing asm budget pipeline e
  | inl e => honest measure (has_strategy SummarizeStrategy pipeline) e
  end.
Proof.
  intros Ha Hf. destruct (initial_kept _ _ _ _ _ _ _ _ Ha) as (Hk & Hacc & Hpre). unfold Compact.
  destruct (measure (renderLive quote (initial_state asm))) as [m|cur] eqn:Em; [cbn; eauto|].
  pose proof (pipeline_runs quote count measure bget bput summarizer has_board (pinnedEntries (as_Entries asm))
                (source_ids (as_Entries asm)) (initial_state asm) budget 0 pipeline
                (mkProgress (initial_state asm) b cur [] [] [])) as Hrun.
  destruct (run_pipeline _ _ _ _ _ _ _ _ _ _ _) as [e|p].
  { specialize (Hrun ltac:(by constructor) Hf). by destruct e. }
  destruct Hrun as [[Hkp Hm Haud Hun] Hdrain]; [by constructor|done|].
  destruct (budget <? pg_current p) eqn:Eb.
  - rewrite (kept_pins _ _ _ Hkp). destruct (measure (Render _ _)) as [m|pinned] eqn:Ep; [cbn; eauto|].
    constructor; cbn; [split; [done|lia]|done|done|]. intros Hd. destruct Hdrain as [?|Hd']; [auto|lia|].
    unfold renderLive in Hm. rewrite (drained_live _ _ _ Hkp Hd'), Ep in Hm. injection Hm as ->. lia.
  - constructor; cbn; [done|split; [done|lia]|by eapply live_pins| |by eapply compacted_reports|done|].
    + rewrite <- (accounted_sources _ _ Hacc). by eapply live_sources.
    + intros Hr. by rewrite (Hun Hr), initial_live, Hpre.
Qed.

Lemma fitting_assembly spec id src asm budget pipeline b n :
  Assemble quote encode count timeParses spec id src = inr asm → measure (as_Preamble asm) = inr n → n ≤ budget →
  ∃ c, Compact quote count measure bget bput summarizer has_board asm budget pipeline b = inr (c, b) ∧
       cp_Revisions c = [] ∧ cp_FinalTokens c = n.
Proof.
  intros Ha Hm Hn. destruct (initial_kept _ _ _ _ _ _ _ _ Ha) as (_ & _ & Hpre). unfold Compact, renderLive.
  rewrite initial_live, <- Hpre, Hm.
  assert (run_pipeline quote count measure bget bput summarizer has_board budget 0 pipeline
            (mkProgress (initial_state asm) b n [] [] []) = inr (mkProgress (initial_state asm) b n [] [] [])) as ->.
  { destruct pipeline; [done|]. cbn. by rewrite (proj2 (Z.leb_le n budget) Hn). }
  cbn. rewrite (proj2 (Z.ltb_ge budget n) Hn). eauto.
Qed.

(** C10: compaction to a token budget. On an assembled context and a pipeline whose
    floors are not negative, Compact always ends. A result fits: the request with its
    preamble measures FinalTokens, at most the budget; the preamble is the rendering of
    the kept entries; the pinned entries are kept verbatim and in order, the sources
    keep their order; every kept entry is reported with its tokens as included or
    truncated, and every other report says skipped, dropped or summarized with none;
    every strategy ran over budget, and without one the assembly is returned as it was.
    A refusal is over budget and states the pinned set's own measure; with
    drop_lowest_priority in the pipeline it is refused only when the pinned set alone
    does not fit. Another error is one of the measure, or a cancelled summarizer. A
    request that fits is left alone, and where the pinned set fits, the measure is
    total, drop_lowest_priority is in the pipeline and summarize is not, compaction
    succeeds. *)
Theorem compact_correct spec id src asm budget pipeline b :
  Assemble quote encode count timeParses spec id src = inr asm → floors_ok pipeline →
  let result := Compact quote count measure bget bput summarizer has_board asm budget pipeline b in
  match result with
  | inr (c, _) => fitting asm budget c
  | inl (OverBudget e) => overflowing asm budget pipeline e
  | inl e => honest measure (has_strategy SummarizeStrategy pipeline) e
  end ∧
  (∀ n, measure (as_Preamble asm) = inr n → n ≤ budget →
     ∃ c, result = inr (c, b) ∧ cp_Revisions c = [] ∧ cp_FinalTokens c = n) ∧
  (∀ f, (∀ text, measure text = inr (f text)) → f (Render quote (pinnedEntries (as_Entries asm))) ≤ budget →
     has_strategy DropLowestPriority pipeline → ¬ has_strategy SummarizeStrategy pipeline →
     ∃ c b', result = inr (c, b')).
Proof.
  intros Ha Hf. pose proof (compact_outcome spec id src asm budget pipeline b Ha Hf) as Ho. split_and!; [done|..].
  - intros n Hm Hn. by eapply fitting_assembly.
  - intros f Hm Hp Hd Hs. destruct (Compact _ _ _ _ _ _ _ _ _ _ _) as [e|[c b']]; [exfalso|by eauto].
    destruct e as [m| |e|]; cbn in Ho; [destruct Ho as [text Ho]; by rewrite Hm in Ho|done| |done].
    destruct Ho as [_ [Hpin Honly] _ Hdrop]. rewrite (Hdrop Hd), Hm in *. injection Hpin as Hpin. lia.
Qed.
End compaction.

(** ** A run of it *)

Module ContextDemo.
Definition literal (name text : string) (pinned : bool) (priority : option Z) : ContextSource :=
  mkContextSource SourceLiteral name "" "" "" "" [] "" "" None text None pinned priority "".
Definition spec : ContextSpec :=
  mkContextSpec [literal "system" "keep me" true None; literal "history" "a long conversation that has to go" false (Some 1);
                 literal "notes" "some shorter notes" false (Some 2)] None
    [mkCompactionStrategy TruncateOldest None (Some 10) "" "" None ""; mkCompactionStrategy DropLowestPriority None None "" "" None ""].
Definition none : Sources := mkSources None None None.
Definition count (s : string) : Z := Z.of_nat (String.length s).
Definition measure (s : string) : string + Z := inr (count s).
Definition no_get (_ : unit) (_ : string) : CallErr + option Z := inr None.
Definition no_put (_ : unit) (_ : string) (_ : json) : CallErr + (Z * unit) := inl (CallFailed "no board").
Definition asm : AssembleErr + Assembly := Assemble id (λ _, "") count (λ _, true) spec "bytes" none.
End ContextDemo.

Lemma demo_floors : floors_ok (ctx_Compaction ContextDemo.spec).
Proof. intros x Hx. repeat (apply elem_of_cons in Hx as [->|Hx]; [vm_compute; congruence|]). by apply elem_of_nil in Hx. Qed.

(** Three sources of which one is pinned, in 125 tokens: the oldest is cut to its
    floor and then dropped. *)
Lemma compact_correct_witness :
  ∃ asm c, ContextDemo.asm = inr asm ∧
    Compact id ContextDemo.count ContextDemo.measure ContextDemo.no_get ContextDemo.no_put None false asm 125
      (ctx_Compaction ContextDemo.spec) tt = inr (c, ()) ∧
    fitting id ContextDemo.count ContextDemo.measure asm 125 c ∧ length (cp_Revisions c) = 2%nat.
Proof.
  destruct ContextDemo.asm as [e|asm] eqn:Ea; [by vm_compute in Ea|].
  pose proof (compact_correct id (λ _, "") ContextDemo.count (λ _, true) ContextDemo.measure ContextDemo.no_get ContextDemo.no_put
                None false ContextDemo.spec "bytes" ContextDemo.none asm 125 (ctx_Compaction ContextDemo.spec) tt Ea demo_floors) as [Hres _].
  destruct (Compact _ _ _ _ _ _ _ asm 125 _ _) as [e|[c []]] eqn:Ec.
  - exfalso. clear Hres. vm_compute in Ea. injection Ea as <-. vm_compute in Ec. discriminate.
  - exists asm, c. split_and!; [done..|]. clear Hres. vm_compute in Ea. injection Ea as <-. vm_compute in Ec. by injection Ec as <-.
Defined.

(** ** The provider window *)

Lemma Headroom_bounds w : 0 ≤ Headroom w ∧ (0 < w → Z.min HeadroomFloorTokens w ≤ Headroom w ≤ w).
Proof.
  unfold Headroom. generalize (trunc64 (fl64 (fl64 (fl64 (inject_Z w) * fl64 HeadroomFraction) + fl64 (999999 # 1000000)))).
  intros h. unfold HeadroomFloorTokens. repeat case_match; lia.
Qed.
Lemma DefaultBudget_spec w m b :
  DefaultBudget w m = Some b ↔ 0 < w ∧ 0 < b ∧ b + Z.max 0 m + Headroom w = w.
Proof. unfold DefaultBudget. repeat case_match; split; intros H'; simplify_eq; try (f_equal; lia); lia. Qed.
Lemma EffectiveBudget_tightens explicit dflt b s :
  EffectiveBudget explicit dflt = (Some b, s) →
  (∀ x, explicit = Some x → b ≤ x) ∧ (∀ x, dflt = Some x → b ≤ x) ∧ (explicit = Some b ∨ dflt = Some b).
Proof.
  unfold EffectiveBudget. destruct explicit as [x|], dflt as [y|]; [destruct (x <=? y) eqn:E|..]; intros [= <- <-];
    naive_solver lia.
Qed.

Section window.
Context (quote : string → string) (encode : json → string) (count : string → Z) (timeParses : json → bool).
Context {board : Type} (bget : board → string → CallErr + option Z) (bput : board → string → json → CallErr + (Z * board)).
Context (summarizer : option (SummarizeRequest → CallErr + SummaryResult)) (has_board : bool).
Context (inject : option (json → string → string + json)) (preflight : option (json → string + Z)).
Abbreviation assemble := (assembleContext quote encode count timeParses bget bput summarizer has_board inject preflight).

(** What the budget stage sends. *)
Lemma budget_stage spec id src asm eff config inj b out b' :
  Assemble quote encode count timeParses spec id src = inr asm → floors_ok (ctx_Compaction spec) →
  compact_to_budget quote count bget bput summarizer has_board preflight spec asm eff config inj b = inr (out, b') →
  (∀ budget, eff = Some budget →
     og_budget out = budget ∧
     ∃ pc n, preflight = Some pc ∧ measure_request inj pc config (og_preamble out) = inr n ∧ n ≤ budget) ∧
  (eff = None → og_preamble out = as_Preamble asm ∧ og_budget out = 0).
Proof.
  intros Ha Hf. unfold compact_to_budget. destruct eff as [budget|]; [|intros [= <- <-]; by split].
  destruct preflight as [pc|]; [|done].
  pose proof (compact_outcome quote encode count timeParses (measure_request inj pc config) bget bput summarizer has_board
                spec id src asm budget (ctx_Compaction spec) b Ha Hf) as Ho.
  destruct (Compact _ _ _ _ _ _ _ _ _ _ _) as [e|[c b1]]; [by destruct e|]. intros [= <- <-]. split; [|done].
  intros ? [= ->]. split; [done|]. destruct (fit_budget _ _ _ _ _ _ Ho). eauto.
Qed.

(** C13: the provider-window guarantee, for compaction floors that are not negative (as
    in every accepted definition). When the assembly of a step's context succeeds under
    a budget, the request that is sent, with the context injected, counts at most
    that budget, and this count is the one recorded; the budget is at most the
    author's. When the model's window is known and leaves room for context, the budget
    is the window less max_tokens and the headroom (at least 64 tokens, or the whole
    window) or smaller, so the request and the completion fit the window with the
    headroom to spare, and the window guard lets the step run. Without a budget the
    assembled context is sent as it is. *)
Theorem context_fits_window spec id src window config b aug ev b' :
  assemble (Some (inr spec)) id src window config b = inr (aug, Some ev, b') → floors_ok (ctx_Compaction spec) →
  match (EffectiveBudget (ctx_BudgetTokens spec) (windowDefaultBudget window).1).1 with
  | Some budget =>
      ∃ pc n, preflight = Some pc ∧ pc aug = inr n ∧ n ≤ budget ∧ ca_PreflightTokens ev = n ∧ ca_BudgetTokens ev = budget ∧
        (∀ x, ctx_BudgetTokens spec = Some x → budget ≤ x) ∧
        (∀ i d, window = Some i → DefaultBudget (wi_window i) (wi_maxTokens i) = Some d →
           n + wi_maxTokens i + Z.min HeadroomFloorTokens (wi_window i) ≤ wi_window i ∧
           n + wi_maxTokens i + Headroom (wi_window i) ≤ wi_window i ∧
           guardWindow window preflight aug = Within (n + wi_maxTokens i))
  | None =>
      ca_BudgetTokens ev = 0 ∧
      ∃ asm inj, Assemble quote encode count timeParses spec id (src spec) = inr asm ∧ inject = Some inj ∧
                 inj config (as_Preamble asm) = inr aug
  end.
Proof.
  intros H Hf. unfold assembleContext in H. case_bool_decide; [done|]. destruct inject as [inj|]; [|done].
  destruct (Assemble _ _ _ _ spec id (src spec)) as [e|asm] eqn:Ea; [by destruct e|].
  destruct (EffectiveBudget _ _) as [eff bs] eqn:Ee. cbn [fst].
  destruct (compact_to_budget _ _ _ _ _ _ _ _ _ _ _ _ _) as [e|[out b1]] eqn:Ec; [done|].
  destruct (budget_stage spec id (src spec) asm eff config inj b out b1 Ea Hf Ec) as [Hb Hn].
  destruct (inj config (og_preamble out)) as [e|augmented] eqn:Ei; [done|]. injection H as <- <- <-.
  destruct eff as [budget|]; [|destruct (Hn eq_refl) as [Hpre Hz]; cbn; split; [done|]; rewrite Hpre in Ei; by eauto].
  destruct (Hb budget eq_refl) as (Hbud & pc & n & Epc & Hm & Hle). unfold measure_request in Hm. rewrite Ei in Hm.
  destruct (EffectiveBudget_tightens _ _ _ _ Ee) as (Hx & Hd & _).
  exists pc, n. rewrite Epc. cbn. rewrite Hm. split_and!; [done..|].
  intros i d -> Hdef. specialize (Hd d Hdef). apply DefaultBudget_spec in Hdef as (Hw & Hpos & Hsum).
  pose proof (Headroom_bounds (wi_window i)) as [Hh0 Hh]. specialize (Hh Hw). split_and!; [lia..|].
  cbn. rewrite Hm. assert ((wi_window i <? n + wi_maxTokens i) = false) as -> by lia. done.
Qed.
End window.

(** A window of 300 tokens with a completion of 80: the budget is the window's, less
    than the author's 200, and the assembled request fits it. *)
Definition demo_spec : ContextSpec :=
  mkContextSpec (ctx_Sources ContextDemo.spec) (Some 200) (ctx_Compaction ContextDemo.spec).
Definition demo_inject (config : json) (preamble : string) : string + json := inr (JArr [config; JStr preamble]).
Definition demo_preflight (config : json) : string + Z :=
  match config with JArr [_; JStr p] => inr (10 + ContextDemo.count p) | _ => inl "no prompt" end.
Definition demo_assembly : ContextFailure + (json * option ContextAssembledEvent * unit) :=
  assembleContext id (λ _, "") ContextDemo.count (λ _, true) ContextDemo.no_get ContextDemo.no_put None false
    (Some demo_inject) (Some demo_preflight) (Some (inr demo_spec)) "bytes" (λ _, ContextDemo.none)
    (Some (mkWindowInfo "mock:m" 300 80)) (JObj []) tt.
Lemma context_fits_window_witness :
  ∃ aug ev n, demo_assembly = inr (aug, Some ev, ()) ∧ ca_BudgetTokens ev = 156 ∧ length (ca_Revisions ev) = 2%nat ∧
    guardWindow (Some (mkWindowInfo "mock:m" 300 80)) (Some demo_preflight) aug = Within (n + 80).
Proof.
  destruct demo_assembly as [e|[[aug [ev|]] []]] eqn:Ea; [by vm_compute in Ea| |by vm_compute in Ea].
  pose proof (context_fits_window _ _ _ _ _ _ _ _ _ _ demo_spec "bytes" _ _ _ _ _ _ _ Ea demo_floors) as Hw.
  change (EffectiveBudget _ _).1 with (Some 156) in Hw. destruct Hw as (pc & n & _ & _ & _ & _ & Hbud & _ & Hg).
  exists aug, ev, n. destruct (Hg (mkWindowInfo "mock:m" 300 80) 156 eq_refl eq_refl) as (_ & _ & Hin).
  split_and!; [done..| |done]. clear Hin Hg Hbud. vm_compute in Ea. by injection Ea as <- <-.
Defined.
