(* ===== verification/BudgetProps.v ===== *)
(** Theorems about money: prices (internal/cost) and the claim-time budget check
    (engine/budget.go, engine/downgrade.go), int64 overflow included. *)
From Stdlib Require Import QArith Ascii.
From stdpp Require Import pretty.
From S2P Require Import Prelude GoStd StoreModel Config Transitions Codec Pricing Context Budget StoreProps.
Open Scope Z_scope.

(** ** The catalog *)

(** The price of [name] in force at [at_]: the newest that is not after it. *)
Definition in_force {E} (name : E → string) (from : E → time) (l : list E) (n : string) (at_ : time) (e : E) : Prop :=
  e ∈ l ∧ name e = n ∧ from e ≤ at_ ∧ ∀ e', e' ∈ l → name e' = n → from e' ≤ at_ → from e' ≤ from e.

Section prices.
Context {E : Type} (name : E → string) (from : E → time) (nameErr : string → option NameErr) (checks : nat → E → list CatalogErr).
Abbreviation prices := (add_prices name from nameErr checks).
Definition price_key (x : E) : string * time := (name x, from x).

#[local] Instance newer_trans : Transitive (newer from).
Proof. intros x y z. unfold newer. lia. Qed.
#[local] Instance newer_total : Total (newer from).
Proof. intros x y. unfold newer. lia. Qed.

(** Without errors, every price is entered under its name, in order and once a date. *)
Lemma prices_entered l :
  pr_errs (prices l) = [] →
  (∀ i x, l !! i = Some x → nameErr (name x) = None ∧ from x ≠ 0 ∧ checks i x = []) ∧ NoDup (price_key <$> l) ∧
  (∀ k, k ∈ pr_seen (prices l) ↔ k ∈ price_key <$> l) ∧
  (∀ n, entries_of (pr_entries (prices l)) n = List.filter (λ x, bool_decide (name x = n)) l).
Proof.
  unfold add_prices. induction l as [|x l IH] using rev_ind; cbn.
  { intros _. split_and!; [set_solver|constructor|set_solver|done]. }
  rewrite imap_app, fold_left_app. cbn [imap fold_left]. rewrite Nat.add_0_r.
  set (p := fold_left (add_price name from nameErr checks) (imap pair l) (mkPrices [] [] ∅)) in *.
  unfold add_price. destruct (nameErr (name x)) as [e|] eqn:En; [cbn; intros H; by destruct (pr_errs p)|].
  destruct (from x =? 0) eqn:Ef; cbn [app negb]; [cbn; intros H; by destruct (pr_errs p)|].
  rewrite bool_decide_eq_true_2 by done. cbn [negb]. case_bool_decide as Hs; cbn; [intros H; by destruct (pr_errs p), (checks (length l) x)|].
  intros [Hp Hc]%app_eq_nil. destruct (IH Hp) as (Hv & Hnd & Hseen & Hent). split_and!.
  - intros i y [Hy|[? Hy]]%lookup_app_Some; [auto|]. destruct (i - length l)%nat as [|k] eqn:Ei; [|done]. injection Hy as <-.
    replace i with (length l) by lia. split_and!; [done|lia|done].
  - rewrite fmap_app. apply NoDup_app. split_and!; [done| |repeat constructor; set_solver].
    intros k Hk Hk'. apply list_elem_of_singleton in Hk' as ->. by apply Hs, Hseen.
  - intros k. rewrite elem_of_cons, Hseen, fmap_app, elem_of_app. cbn. rewrite list_elem_of_singleton. unfold price_key at 3. tauto.
  - intros n. rewrite List.filter_app. cbn. unfold entries_of. destruct (decide (name x = n)) as [<-|Hne].
    + rewrite bool_decide_eq_true_2, lookup_insert_eq by done. cbn. f_equal. apply Hent.
    + rewrite bool_decide_eq_false_2, lookup_insert_ne, app_nil_r by done. apply Hent.
Qed.

(** The first entry that is not after [at_], of entries sorted newest first. *)
Lemma find_newest l at_ :
  StronglySorted (newer from) l →
  match find (λ e, negb (at_ <? from e)) l with
  | Some e => e ∈ l ∧ from e ≤ at_ ∧ ∀ e', e' ∈ l → from e' ≤ at_ → from e' ≤ from e
  | None => ∀ e, e ∈ l → at_ < from e
  end.
Proof.
  induction 1 as [|x l Hs IH Hx]; cbn; [set_solver|]. rewrite Forall_forall in Hx. destruct (at_ <? from x) eqn:Ex; cbn.
  - destruct (find _ l) as [e|]; [destruct IH as (? & ? & IH); split_and!; [set_solver|done|]|].
    + intros e' [->|He']%elem_of_cons ?; [lia|auto].
    + intros e [->|He]%elem_of_cons; [lia|auto].
  - split_and!; [set_solver|lia|]. intros e' [->|He']%elem_of_cons ?; [lia|]. by apply Hx.
Qed.
Lemma price_in_force l n at_ e :
  pr_errs (prices l) = [] →
  find (λ e, negb (at_ <? from e)) (entries_of (sortEntries from (pr_entries (prices l))) n) = Some e ↔ in_force name from l n at_ e.
Proof.
  intros Herr. destruct (prices_entered l Herr) as (_ & Hnd & _ & Hent). set (k := merge_sort (newer from) (List.filter (λ x, bool_decide (name x = n)) l)).
  assert (entries_of (sortEntries from (pr_entries (prices l))) n = k) as ->.
  { unfold k. rewrite <- Hent. unfold sortEntries, entries_of. rewrite lookup_fmap. by destruct (pr_entries (prices l) !! n). }
  assert (∀ x, x ∈ k ↔ x ∈ l ∧ name x = n) as Hk.
  { intros x. unfold k. rewrite merge_sort_Permutation, !list_elem_of_In, filter_In, bool_decide_eq_true. done. }
  pose proof (find_newest k at_ (StronglySorted_merge_sort _ _)) as Hf. unfold in_force. split.
  - intros Hfind. rewrite Hfind in Hf. destruct Hf as (Hin & Hle & Hmax). apply Hk in Hin as [? ?]. split_and!; [done..|].
    intros e' ? ? ?. apply Hmax; [by apply Hk|done].
  - intros (Hin & Hn & Hle & Hmax). destruct (find _ k) as [e2|].
    + destruct Hf as (Hin2 & Hle2 & Hmax2). apply Hk in Hin2 as [Hin2 Hn2]. f_equal.
      eapply (keyed_unique price_key (λ p x, bool_decide (price_key x = p))); [intros; apply bool_decide_eq_true|done..|].
      unfold price_key. f_equal; [congruence|]. specialize (Hmax e2 Hin2 Hn2 Hle2). specialize (Hmax2 e ltac:(by apply Hk) Hle). lia.
    + specialize (Hf e ltac:(by apply Hk)). lia.
Qed.
End prices.

(** ** Money *)

(** The price of [tokens] at [usd] stays in an int64. *)
Definition in_range (usd : Q) (tokens : Z) : Prop := 0 ≤ usdToNano usd ∧ tokens * usdToNano usd + tokensPerMTok / 2 < 2 ^ 63.
(** Tokens at a rate, in nano-USD, rounded half up. *)
Definition half_up (tokens : Z) (usd : Q) : Z := (Z.max 0 tokens * usdToNano usd + tokensPerMTok / 2) / tokensPerMTok.

Lemma wrap64_small n : - 2 ^ 63 ≤ n < 2 ^ 63 → wrap64 n = n.
Proof. intros H. unfold wrap64. rewrite Z.mod_small; lia. Qed.
Lemma component_exact tokens usd : in_range usd tokens → component tokens usd = half_up tokens usd.
Proof.
  intros [H0 H]. unfold component, half_up. change (tokensPerMTok / 2) with 500000 in *. unfold tokensPerMTok.
  destruct (tokens <=? 0) eqn:Et; [by rewrite Z.max_l by lia|]. rewrite Z.max_r by lia. cbn [orb].
  destruct (Qle_bool usd 0) eqn:Eu; [unfold usdToNano; rewrite Eu, Z.mul_0_r; done|].
  rewrite wrap64_small by nia. apply Z.quot_div_nonneg; nia.
Qed.
Lemma half_up_bounds tokens usd : in_range usd tokens → 0 ≤ half_up tokens usd < 2 ^ 62.
Proof.
  intros [H0 H]. unfold half_up. change (tokensPerMTok / 2) with 500000 in *. unfold tokensPerMTok in *. split; [apply Z.div_pos; nia|].
  apply Z.div_lt_upper_bound; nia.
Qed.
Lemma in_range_mono a b usd : in_range usd b → a ≤ b → in_range usd a.
Proof. unfold in_range. intros [? ?] ?. split; [done|]. nia. Qed.
Lemma half_up_mono a b usd : 0 ≤ usdToNano usd → a ≤ b → half_up a usd ≤ half_up b usd.
Proof. intros H0 Hab. unfold half_up. apply Z.div_le_mono; [done|]. nia. Qed.
Lemma cost_exact input output r :
  in_range (InputPerMTok r) input → in_range (OutputPerMTok r) output →
  Cost input output r = half_up input (InputPerMTok r) + half_up output (OutputPerMTok r).
Proof.
  intros Hi Ho. unfold Cost. rewrite !component_exact by done.
  pose proof (half_up_bounds _ _ Hi). pose proof (half_up_bounds _ _ Ho). apply wrap64_small. lia.
Qed.

(** C7: prices. An accepted catalog resolves every model to the newest price of its
    name that is in force, else of its provider's wildcard, else, under the estimate
    policy, to the fallback, and otherwise to no price; a tool to the newest price of
    its name. As long as tokens times nano-USD per million tokens (plus half a million,
    for the rounding) fits an int64 in both directions, an attempt costs each direction's
    tokens at its rate, rounded half up to a nano-USD, never less than nothing; and no
    attempt costs more than the pre-flight estimate at the same rate whose input estimate
    is at least the input and whose max_tokens is at least the output. *)
Theorem prices_exact doc c :
  Parse doc = inr c →
  let force := in_force me_Name me_EffectiveFrom (cd_Models doc) in
  (∀ n at_ policy,
     match PriceModel c n at_ policy with
     | Some p =>
         (∃ e, force n at_ e ∧ p = mkPriced (me_Rate e) SourceExact false) ∨
         (¬ ∃ e, force n at_ e) ∧
         ((∃ w e, wildcard n = Some w ∧ force w at_ e ∧ p = mkPriced (me_Rate e) SourceWildcard false) ∨
          (∀ w e, wildcard n = Some w → ¬ force w at_ e) ∧ policy = PolicyEstimate ∧
          ∃ r, cd_Fallback doc = Some r ∧ p = mkPriced r SourceFallback true)
     | None =>
         (¬ ∃ e, force n at_ e) ∧ (∀ w e, wildcard n = Some w → ¬ force w at_ e) ∧ (policy = PolicyFail ∨ cd_Fallback doc = None)
     end) ∧
  (∀ n at_ nano, ToolPrice c n at_ = Some nano ↔
     ∃ e, in_force te_Name te_EffectiveFrom (cd_Tools doc) n at_ e ∧ nano = ToolCost (te_PerCallUSD e)) ∧
  (∀ input output estimated max r, in_range (InputPerMTok r) estimated → in_range (OutputPerMTok r) max →
     input ≤ estimated → output ≤ max →
     Cost input output r = half_up input (InputPerMTok r) + half_up output (OutputPerMTok r) ∧
     0 ≤ Cost input output r ≤ Estimate estimated max r).
Proof.
  intros Hparse force. unfold Parse in Hparse.
  destruct (_ ++ pr_errs _ ++ _) eqn:Eerr in Hparse; [|done]. apply app_eq_nil in Eerr as [_ Eerr].
  apply app_eq_nil in Eerr as [Hm Eerr]. apply app_eq_nil in Eerr as [Ht _]. injection Hparse as <-. split_and!.
  - assert (∀ n at_ e, selectModel (entries_of (sortEntries me_EffectiveFrom (pr_entries
        (add_prices me_Name me_EffectiveFrom validateModelName model_checks (cd_Models doc)))) n) at_ = Some e ↔ force n at_ e) as Hsel.
    { intros n at_ e. by apply (price_in_force me_Name me_EffectiveFrom). }
    intros n at_ policy. unfold PriceModel, Lookup_. cbn [ct_models ct_fallback].
    destruct (selectModel _ at_) as [e|] eqn:Es; [left; exists e; by rewrite <- Hsel|].
    assert (¬ ∃ e, force n at_ e) as Hno by (intros [e He]; apply Hsel in He; congruence).
    destruct (wildcard n) as [w|].
    + destruct (selectModel (entries_of _ w) at_) as [e|] eqn:Ew; cbn.
      { right. split; [done|]. left. exists w, e. by rewrite <- Hsel. }
      assert (∀ w' e, Some w = Some w' → ¬ force w' at_ e) as Hnw by (intros ? e [= <-] He; apply Hsel in He; congruence).
      destruct policy; [|by auto]. destruct (cd_Fallback doc) as [r|]; cbn; [|by auto]. right. split; [done|]. right. eauto.
    + assert (∀ w' e, @None string = Some w' → ¬ force w' at_ e) as Hnw by done.
      destruct policy; [|by auto]. destruct (cd_Fallback doc) as [r|]; cbn; [|by auto]. right. split; [done|]. right. eauto.
  - intros n at_ nano. unfold ToolPrice. rewrite fmap_Some. cbn [ct_tools].
    split; intros (e & He & ->); exists e; (split; [|done]); by apply (price_in_force te_Name te_EffectiveFrom _ _ _ _ _ _ Ht) in He || by apply (price_in_force te_Name te_EffectiveFrom _ _ _ _ _ _ Ht).
  - intros input output estimated max r Hi Ho Hli Hlo. pose proof (in_range_mono _ _ _ Hi Hli) as Hi'.
    pose proof (in_range_mono _ _ _ Ho Hlo) as Ho'. unfold Estimate. rewrite !cost_exact by done. split; [done|].
    pose proof (half_up_bounds _ _ Hi'). pose proof (half_up_bounds _ _ Ho').
    pose proof (half_up_mono input estimated _ (proj1 Hi) Hli). pose proof (half_up_mono output max _ (proj1 Ho) Hlo). lia.
Qed.

(** ** The choice of a tier *)

Lemma first_index_spec {A} (p : A → bool) l :
  match first_index p l with
  | Some i => ∃ x, l !! i = Some x ∧ p x = true
  | None => ∀ x, x ∈ l → p x = false
  end.
Proof.
  induction l as [|x l IH]; cbn; [set_solver|]. destruct (p x) eqn:E; [by exists x|].
  destruct (first_index p l) as [i|]; cbn; [done|]. intros y [->|Hy]%elem_of_cons; auto.
Qed.
Lemma last_index_spec {A} (p : A → bool) l :
  match last_index p l with
  | Some i => ∃ x, l !! i = Some x ∧ p x = true
  | None => ∀ x, x ∈ l → p x = false
  end.
Proof.
  induction l as [|x l IH]; cbn; [set_solver|]. destruct (last_index p l) as [i|]; cbn; [done|].
  destruct (p x) eqn:E; [by exists x|]. intros y [->|Hy]%elem_of_cons; auto.
Qed.
(** A chosen tier is usable, and something called for it; none is chosen only when no
    tier is usable or nothing calls for one. *)
Lemma chooseDowngrade_spec cands primaryFits :
  match chooseDowngrade cands primaryFits with
  | Some (j, trigger) =>
      (∃ c, cands !! j = Some c ∧ usable c = true) ∧
      (trigger = DowngradeTriggerThreshold ∧ (∃ c, c ∈ cands ∧ dc_thresholdMet c = true) ∨
       trigger = DowngradeTriggerProjection ∧ primaryFits = false)
  | None => (∀ c, c ∈ cands → usable c = false) ∨ primaryFits = true ∧ ∀ c, c ∈ cands → dc_thresholdMet c = false
  end.
Proof.
  unfold chooseDowngrade. pose proof (last_index_spec dc_thresholdMet cands) as Hl.
  pose proof (first_index_spec usable cands) as Hf. destruct (last_index dc_thresholdMet cands) as [j|]; cbn.
  - destruct Hl as (c & Hc & Hm). rewrite Hc. apply list_elem_of_lookup_2 in Hc as Hin. destruct (usable c) eqn:Eu; cbn.
    + split; [by eauto|]. left. split; [done|]. by exists c.
    + destruct (first_index usable cands) as [i|]; cbn; [|by left]. split; [done|]. left. split; [done|]. by exists c.
  - destruct primaryFits; [by right|]. destruct (first_index usable cands) as [i|]; cbn; [|by left]. split; [done|]. by right.
Qed.

Section gate.
Context (catalog : Catalog) (policy : UnknownModelPolicy) (estimator : json → string + CostEstimate).
Context (dg : ModelDowngrader) (config : json) (origin : ClaimOrigin) (cap : option StepCap) (now : time).
Abbreviation price est := (estimateNanoUSD catalog policy est now).
Abbreviation cand := (candidate catalog policy dg estimator config origin cap now).

(** A tier of the chain that a claim may be routed to: its config, estimate and price. *)
Definition tier (f : ModelFallback) (raw : json) (est : CostEstimate) (nano : Z) : Prop :=
  WithModel dg config (mf_Model f) = inr raw ∧ estimator raw = inr est ∧ ce_Resource est ≠ "" ∧ price est = Some nano ∧
  fits_budgets origin cap nano = true.
Lemma usable_tier f : usable (cand f) = true ↔ ∃ raw est nano, tier f raw est nano.
Proof.
  unfold usable, candidate, tier. split.
  - destruct (WithModel dg config (mf_Model f)) as [|raw]; [done|]. destruct (estimator raw) as [|est] eqn:Ee; [done|].
    case_bool_decide; [done|]. destruct (price est) as [nano|] eqn:Ep; [|done]. cbn. intros Hf. by exists raw, est, nano.
  - intros (raw & est & nano & -> & -> & Hr & Hp & Hf). rewrite bool_decide_eq_false_2, Hp by done. done.
Qed.
Lemma cand_tier f raw est nano :
  tier f raw est nano → cand f = mkCandidate (mf_Model f) (ce_Resource est) nano true true (dc_thresholdMet (cand f)).
Proof. unfold candidate, tier. intros (-> & -> & Hr & Hp & Hf). rewrite bool_decide_eq_false_2, Hp, Hf by done. done. Qed.
Lemma tier_det f raw est nano raw' est' nano' :
  tier f raw est nano → tier f raw' est' nano' → raw = raw' ∧ est = est' ∧ nano = nano'.
Proof. unfold tier. intros (H1 & H2 & _ & H3 & _) (H1' & H2' & _ & H3' & _). split_and!; congruence. Qed.

(** The downgrade of a claim whose primary model is priced [primary]. *)
Lemma selectDowngrade_spec est current chain primary :
  ModelFallbacks dg config = inr (current, chain) → price est = Some primary →
  match selectDowngrade catalog policy dg estimator config origin est cap now with
  | Some (raw, ev) =>
      ∃ f est' nano, f ∈ chain ∧ tier f raw est' nano ∧ md_ToModel ev = mf_Model f ∧ md_ToResource ev = ce_Resource est' ∧
        md_FromEstimateNanoUSD ev = primary ∧ md_ToEstimateNanoUSD ev = nano ∧
        (md_Trigger ev = DowngradeTriggerThreshold ∧ (∃ g, g ∈ chain ∧ dc_thresholdMet (cand g) = true) ∨
         md_Trigger ev = DowngradeTriggerProjection ∧ fits_budgets origin cap primary = false)
  | None =>
      (∀ f, f ∈ chain → ∀ raw est' nano, ¬ tier f raw est' nano) ∨
      fits_budgets origin cap primary = true ∧ ∀ f, f ∈ chain → dc_thresholdMet (cand f) = false
  end.
Proof.
  intros Hm Hp. unfold selectDowngrade. rewrite Hm, Hp. destruct chain as [|f0 chain]; [left; set_solver|].
  remember (f0 :: chain) as l eqn:El. clear El f0 chain.
  pose proof (chooseDowngrade_spec (cand <$> l) (fits_budgets origin cap primary)) as Hc.
  destruct (chooseDowngrade _ _) as [[idx trigger]|].
  - destruct Hc as [(c & Hc & Hu) Htr]. rewrite Hc. apply list_lookup_fmap_Some in Hc as (f & -> & Hf).
    apply list_elem_of_lookup_2 in Hf as Hin. apply usable_tier in Hu as (raw & est' & nano & Ht).
    rewrite (cand_tier f raw est' nano Ht). cbn [dc_model dc_resource dc_nano]. pose proof Ht as (Hw & _). rewrite Hw.
    exists f, est', nano. cbn. split_and!; [done..|]. destruct Htr as [[-> (c & Hcin & Hmet)]|[-> Hfit]]; [left|by right].
    split; [done|]. apply list_elem_of_fmap in Hcin as (g & -> & Hg). by exists g.
  - destruct Hc as [Hn|[Hfit Hn]].
    + left. intros f Hf raw est' nano Ht. specialize (Hn (cand f) ltac:(by apply list_elem_of_fmap_2)).
      assert (usable (cand f) = true) as Hu by (apply usable_tier; eauto). congruence.
    + right. split; [done|]. intros f Hf. apply Hn. by apply list_elem_of_fmap_2.
Qed.
End gate.

(** ** The decision *)

(** [a + b] is at most [limit], unless the sum leaves int64. *)
Definition bounded (a b limit : Z) : Prop := - 2 ^ 63 ≤ a + b < 2 ^ 63 → a + b ≤ limit.
Lemma wrap64_bounded a b limit : wrap64 (a + b) ≤ limit → bounded a b limit.
Proof. intros H Hr. by rewrite wrap64_small in H. Qed.
(** The request's tokens are within the step's max_tokens. *)
Definition within_tokens (sb : option StepBudget) (est : CostEstimate) : Prop :=
  ∀ b, sb = Some b → 0 < sb_MaxTokens b → bounded (ce_InputTokens est) (ce_MaxTokens est) (sb_MaxTokens b).
(** A spend of [nano] is within the step's cap and the run's budget; a free step always
    is within the latter. *)
Definition within (origin : ClaimOrigin) (cap : option StepCap) (nano : Z) : Prop :=
  (∀ c, cap = Some c → bounded (sc_prior c) nano (sc_cap c)) ∧
  (∀ b, BudgetNanoUSD origin = Some b → nano ≤ 0 ∨ bounded (SpentNanoUSD origin) nano b).
Lemma fits_spec origin cap nano :
  fits_budgets origin cap nano = true ↔
  (∀ c, cap = Some c → wrap64 (sc_prior c + nano) ≤ sc_cap c) ∧
  (∀ b, BudgetNanoUSD origin = Some b → wrap64 (SpentNanoUSD origin + nano) ≤ b).
Proof. unfold fits_budgets. destruct cap, (BudgetNanoUSD origin); cbn; rewrite ?andb_true_iff, ?Z.leb_le; naive_solver. Qed.
Lemma fits_within origin cap nano : fits_budgets origin cap nano = true → within origin cap nano.
Proof. intros [H1 H2]%fits_spec. split; intros; [|right]; apply wrap64_bounded; auto. Qed.
Lemma over_tokens_none sb est : over_tokens sb est = None → within_tokens sb est.
Proof.
  intros H b -> Hb. cbn in H. rewrite (proj2 (Z.ltb_lt _ _) Hb) in H. cbn in H.
  destruct (Z.ltb_spec (sb_MaxTokens b) (wrap64 (ce_InputTokens est + ce_MaxTokens est))); [done|]. by apply wrap64_bounded.
Qed.

(** What a refusal of a priced estimate says. *)
Definition justified (origin : ClaimOrigin) (cap : option StepCap) (est : CostEstimate) (nano : Z) (o : BudgetOutcome) : Prop :=
  match o with
  | RunStepAsIs => within origin cap nano
  | ParkRun_ ev =>
      ∃ b, BudgetNanoUSD origin = Some b ∧ 0 < nano ∧ b < wrap64 (SpentNanoUSD origin + nano) ∧ Transitions.OnBudgetExceeded origin ≠ BudgetFail ∧
           ev = exceeded (ce_Resource est) BudgetLimitRun (SpentNanoUSD origin) nano (wrap64 (SpentNanoUSD origin + nano)) b
  | FailStep (StepOverCap projected c) =>
      ∃ k, cap = Some k ∧ c = sc_cap k ∧ projected = wrap64 (sc_prior k + nano) ∧ c < projected
  | FailStep (RunOverBudget projected b) =>
      BudgetNanoUSD origin = Some b ∧ 0 < nano ∧ projected = wrap64 (SpentNanoUSD origin + nano) ∧ b < projected ∧
      Transitions.OnBudgetExceeded origin = BudgetFail
  | _ => False
  end.
Definition outcome_of (d : budgetDecision) : BudgetOutcome :=
  match d with budgetProceed => RunStepAsIs | budgetPark ev => ParkRun_ ev | budgetFail reason _ => FailStep reason end.
Lemma decide_spec catalog policy est origin cap now nano :
  estimateNanoUSD catalog policy est now = Some nano →
  justified origin cap est nano (outcome_of (budgetDecide catalog policy est origin cap now)).
Proof.
  intros Hp. unfold budgetDecide. rewrite Hp. unfold justified, within.
  destruct cap as [c|], (BudgetNanoUSD origin) as [b|]; cbv zeta;
    repeat match goal with |- context [if (?x <? ?y) then _ else _] => destruct (Z.ltb_spec x y) end;
    try case_bool_decide; cbn;
    first [split; intros ? [= <-]; [apply wrap64_bounded; lia|first [left; lia|right; apply wrap64_bounded; lia]]
          | split; intros ? [=]; subst; first [apply wrap64_bounded; lia|left; lia|right; apply wrap64_bounded; lia] | repeat split; first [done|lia] | eexists; split; [done|]; repeat split; first [done|lia]].
Qed.

Section check.
Context (catalog : Catalog) (policy : UnknownModelPolicy) (estimate : json → string + CostEstimate) (downgrader : option ModelDowngrader).
Context (d : DB) (runID : uuid) (stepID : string) (bp : option json) (config : json) (origin : ClaimOrigin) (now : time).
Abbreviation price est := (estimateNanoUSD catalog policy est now).

(** No tier of the step's chain can be priced and fits the budgets. *)
Definition no_tier (cap : option StepCap) : Prop :=
  ∀ dg current chain f raw est nano, downgrader = Some dg → ModelFallbacks dg config = inr (current, chain) → f ∈ chain →
    ¬ tier catalog policy estimate dg config origin cap now f raw est nano.

(** What the check decides of a claim it applies to. *)
Definition judged (sb : option StepBudget) (est : CostEstimate) (o : BudgetOutcome) : Prop :=
  let cap := step_cap d runID stepID sb in
  match o with
  | RunStepAsIs => within_tokens sb est ∧ ∃ nano, price est = Some nano ∧ within origin cap nano
  | RunDowngraded raw ev =>
      within_tokens sb est ∧
      ∃ dg current chain f est' nano primary,
        downgrader = Some dg ∧ ModelFallbacks dg config = inr (current, chain) ∧ f ∈ chain ∧
        tier catalog policy estimate dg config origin cap now f raw est' nano ∧ within origin cap nano ∧ price est = Some primary ∧
        md_ToModel ev = mf_Model f ∧ md_FromEstimateNanoUSD ev = primary ∧ md_ToEstimateNanoUSD ev = nano ∧
        (md_Trigger ev = DowngradeTriggerThreshold ∧
           (∃ g, g ∈ chain ∧ dc_thresholdMet (candidate catalog policy dg estimate config origin cap now g) = true) ∨
         md_Trigger ev = DowngradeTriggerProjection ∧ fits_budgets origin cap primary = false)
  | FailStep CorruptBudget => False
  | FailStep (StepOverTokens projected c) =>
      projected = wrap64 (ce_InputTokens est + ce_MaxTokens est) ∧ 0 < c < projected ∧ sb_MaxTokens <$> sb = Some c
  | FailStep (UnknownModel m) => m = ce_Resource est ∧ price est = None
  | o => ∃ nano, price est = Some nano ∧ justified origin cap est nano o ∧ no_tier cap
  end.

Lemma check_judged sb est :
  decodeStepBudget bp = Some sb → (is_Some (BudgetNanoUSD origin) ∨ is_Some sb) → estimate config = inr est → ce_Resource est ≠ "" →
  judged sb est (budgetCheck (Some catalog) policy (Some estimate) downgrader d runID stepID bp config origin now).
Proof.
  intros Hdec Hsome Hest Hres. unfold budgetCheck, judged. set (cap := step_cap d runID stepID sb). rewrite Hdec, Hest.
  assert (bool_decide (BudgetNanoUSD origin = None) && negb (bool_decide (is_Some sb)) = false) as ->.
  { apply andb_false_iff. destruct Hsome as [[b ->]|Hs]; [by left|right]. by rewrite bool_decide_eq_true_2. }
  rewrite bool_decide_eq_false_2 by done. destruct (over_tokens sb est) as [reason|] eqn:Eo.
  { unfold over_tokens in Eo. destruct sb as [b|]; [|done]. destruct (_ && _) eqn:E; [|done]. injection Eo as <-.
    apply andb_prop in E as [? ?]. split_and!; [done|lia..|done]. }
  apply over_tokens_none in Eo. fold cap. pose proof (decide_spec catalog policy est origin cap now) as Hd.
  destruct (price est) as [primary|] eqn:Ep.
  2: { assert (downgrader ≫= (λ dg, selectDowngrade catalog policy dg estimate config origin est cap now) = None) as ->.
       { destruct downgrader as [dg|]; [|done]. cbn. unfold selectDowngrade. rewrite Ep. by repeat case_match. }
       unfold budgetDecide. rewrite Ep. done. }
  specialize (Hd primary eq_refl).
  assert (match downgrader ≫= (λ dg, selectDowngrade catalog policy dg estimate config origin est cap now) with
          | Some (raw, ev) => ∃ dg current chain, downgrader = Some dg ∧ ModelFallbacks dg config = inr (current, chain) ∧
              selectDowngrade catalog policy dg estimate config origin est cap now = Some (raw, ev)
          | None => no_tier cap ∨ fits_budgets origin cap primary = true
          end) as Hsel.
  { unfold no_tier. destruct downgrader as [dg|]; [|left; by intros]. cbn.
    destruct (ModelFallbacks dg config) as [e|[current chain]] eqn:Em.
    { unfold selectDowngrade. rewrite Em. left. intros dg' c' ch' f raw est' nano [= <-] Hm. congruence. }
    pose proof (selectDowngrade_spec catalog policy estimate dg config origin cap now est current chain primary Em Ep) as Hs.
    destruct (selectDowngrade _ _ _ _ _ _ _ _ _) as [[raw ev]|] eqn:Es; [exists dg, current, chain; done|].
    destruct Hs as [Hs|[Hs _]]; [left|by right]. intros dg' c' ch' f raw est' nano [= <-] Hm Hf. rewrite Em in Hm. injection Hm as <- <-.
    by apply Hs. }
  destruct (downgrader ≫= _) as [[raw ev]|] eqn:Es.
  - destruct Hsel as (dg & current & chain & Edg & Em & Hs). split; [done|].
    pose proof (selectDowngrade_spec catalog policy estimate dg config origin cap now est current chain primary Em Ep) as Hspec.
    rewrite Hs in Hspec. destruct Hspec as (f & est' & nano & Hf & Ht & H1 & H2 & H3 & H4 & H5).
    exists dg, current, chain, f, est', nano, primary. split_and!; try done. apply fits_within, Ht.
  - assert (fits_budgets origin cap primary = false → no_tier cap) as Hnt by (destruct Hsel; [done|congruence]).
    destruct (budgetDecide catalog policy est origin cap now) as [|ev|reason ev]; cbn in Hd.
    + split; [done|]. eauto.
    + exists primary. split; [done|]. split; [done|]. apply Hnt, not_true_iff_false. rewrite fits_spec.
      destruct Hd as (b & Hb & ? & ? & _). intros [_ Hw]. specialize (Hw b Hb). lia.
    + destruct reason as [| projected c|projected b| |]; try done; exists primary; (split; [done|]); (split; [done|]);
        apply Hnt, not_true_iff_false; rewrite fits_spec.
      * destruct Hd as (k & Hk & ? & ? & ?). intros [Hw _]. specialize (Hw k Hk). lia.
      * destruct Hd as (Hb & ? & ? & ? & _). intros [_ Hw]. specialize (Hw b Hb). lia.
Qed.
End check.

(** Why a claim runs without a comparison. *)
Inductive unchecked (pricing : option Catalog) (estimator : option (json → string + CostEstimate)) (bp : option json)
    (config : json) (origin : ClaimOrigin) : Prop :=
| uc_pricing : pricing = None → unchecked pricing estimator bp config origin
| uc_estimator : estimator = None → unchecked pricing estimator bp config origin
| uc_unbudgeted : BudgetNanoUSD origin = None → decodeStepBudget bp = Some None → unchecked pricing estimator bp config origin
| uc_estimate f e : estimator = Some f → f config = inl e → unchecked pricing estimator bp config origin
| uc_free f est : estimator = Some f → f config = inr est → ce_Resource est = "" → unchecked pricing estimator bp config origin.

(** C9: the claim-time budget check, whatever the claim. A step runs unchecked exactly
    when pricing is off, its executor estimates no costs, neither the run nor the step
    has a budget, the estimate fails, or it names no resource; a stored policy that does
    not decode fails the step. In every other case a step runs only within its budgets,
    unless the compared sum of an estimate and its counterpart leaves int64: its
    projected tokens are at most its max_tokens; run as it is, its estimate is priced,
    the step's ledger and the estimate are within the step's max_usd, and the estimate
    is free or fits the run's budget with what was spent; run downgraded, it runs with a
    tier of its fallback chain whose own estimate is priced and fits the run's budget and
    the step's cap, and either the primary model did not fit or the run's spend reached a
    tier's threshold. The run is parked, or the step failed under the fail policy, only
    when the int64 projection overruns the run's budget and no tier of the chain can be
    priced and fits; a step fails otherwise only for its own caps or for a model without
    a price. *)
Theorem budget_check_sound pricing policy estimator downgrader d runID stepID bp config origin now :
  let o := budgetCheck pricing policy estimator downgrader d runID stepID bp config origin now in
  (o = RunStepAsIs ∧ unchecked pricing estimator bp config origin) ∨
  (o = FailStep CorruptBudget ∧ is_Some pricing ∧ is_Some estimator ∧ decodeStepBudget bp = None) ∨
  ∃ catalog estimate sb est, pricing = Some catalog ∧ estimator = Some estimate ∧ decodeStepBudget bp = Some sb ∧
    (is_Some (BudgetNanoUSD origin) ∨ is_Some sb) ∧ estimate config = inr est ∧ ce_Resource est ≠ "" ∧
    judged catalog policy estimate downgrader d runID stepID config origin now sb est o.
Proof.
  intros o. destruct pricing as [catalog|]; [|left; split; [done|by apply uc_pricing]].
  destruct estimator as [estimate|]; [|left; split; [done|by apply uc_estimator]].
  destruct (decodeStepBudget bp) as [sb|] eqn:Hdec.
  2: { right. left. unfold o, budgetCheck. rewrite Hdec. eauto. }
  destruct (decide (is_Some (BudgetNanoUSD origin) ∨ is_Some sb)) as [Hs|Hs].
  2: { left. assert (BudgetNanoUSD origin = None ∧ sb = None) as [Hb ->] by (destruct (BudgetNanoUSD origin), sb; naive_solver).
       split; [|by apply uc_unbudgeted]. unfold o, budgetCheck. by rewrite Hdec, Hb. }
  assert (bool_decide (BudgetNanoUSD origin = None) && negb (bool_decide (is_Some sb)) = false) as Hbud.
  { apply andb_false_iff. destruct Hs as [[b ->]|Hs]; [by left|right]. by rewrite bool_decide_eq_true_2. }
  destruct (estimate config) as [e|est] eqn:He.
  { left. split; [|by eapply uc_estimate]. unfold o, budgetCheck. by rewrite Hdec, Hbud, He. }
  destruct (decide (ce_Resource est = "")) as [Hr|Hr].
  { left. split; [|by eapply uc_free]. unfold o, budgetCheck. by rewrite Hdec, Hbud, He, bool_decide_eq_true_2. }
  right. right. exists catalog, estimate, sb, est. split_and!; [done..|]. by apply check_judged.
Qed.

(** ** A catalog and an executor *)

Module BudgetDemo.
(** Two models at 10 and 1 dollars per million tokens, and one at 30. *)
Definition entry (name : string) (usd : Q) (window : Z) : ModelEntry := mkModelEntry name 1 window (mkRate usd usd).
Definition doc : catalogDoc :=
  mkCatalogDoc 1 [entry "m:big" 10 0; entry "m:small" 1 0; entry "m:huge" 30 0; entry "m:*" 5 8000] [] (Some (mkRate 1 1)).
Definition catalog : Catalog := match Parse doc with inr c => c | inl _ => mkCatalog ∅ ∅ None end.
(** The config is the model's name; every request is 100 tokens in and 900 out. *)
Definition estimate (config : json) : string + CostEstimate :=
  match config with JStr m => inr (mkCostEstimate ("m:" +:+ m) 100 900) | _ => inl "no model" end.
Definition downgrader (chain : list ModelFallback) : ModelDowngrader :=
  mkModelDowngrader (λ config, match config with JStr m => inr (m, chain) | _ => inl "no model" end) (λ _ m, inr (JStr m)).
Definition origin (budget : option Z) (spent : Z) : ClaimOrigin :=
  mkClaimOrigin None 0 true "" noTrace budget spent "" None None.
Definition check (chain : list ModelFallback) (bp : option json) (o : ClaimOrigin) : BudgetOutcome :=
  budgetCheck (Some catalog) PolicyEstimate (Some estimate) (Some (downgrader chain)) empty_db 1 "a" bp (JStr "big") o 10.
End BudgetDemo.
Import BudgetDemo.

(** A million tokens at ten dollars and the wildcard's price of an unlisted model. *)
Lemma prices_exact_witness :
  (∃ p, PriceModel catalog "m:other" 10 PolicyFail = Some p ∧ pd_Source p = SourceWildcard) ∧
  0 ≤ Cost 999000 5 (mkRate 10 10) ≤ Estimate 1000000 900 (mkRate 10 10).
Proof.
  destruct (prices_exact doc catalog eq_refl) as (Hm & _ & Hc). split.
  - specialize (Hm "m:other" 10 PolicyFail). destruct (PriceModel catalog "m:other" 10 PolicyFail) as [p|] eqn:E.
    + exists p. split; [done|]. clear Hm. vm_compute in E. by injection E as <-.
    + exfalso. clear Hm. by vm_compute in E.
  - apply (Hc 999000 5 1000000 900 (mkRate 10 10)); [vm_compute; split; congruence..|lia|lia].
Defined.

(** ** Where the comments and the code differ *)

(** The engine fails a step on an unknown model even under the estimate policy when the
    catalog has no fallback rate. *)
Theorem no_fallback_fails est :
  ce_Resource est = "m:new" →
  budgetCheck (Some (mkCatalog ∅ ∅ None)) PolicyEstimate (Some (λ _, inr est)) None empty_db 1 "a" None JNull (origin (Some 1000) 0) 10 =
  FailStep (UnknownModel "m:new").
Proof. intros H. unfold budgetCheck. cbn. rewrite H. cbn. unfold budgetDecide, estimateNanoUSD. rewrite H. done. Qed.
(** A threshold routes a claim to a dearer model. *)
Theorem downgrade_to_dearer :
  ∃ raw ev, check [mkModelFallback "huge" (Some (1 # 10))] None (origin (Some 1000000000) 200000000) = RunDowngraded raw ev ∧
    md_FromEstimateNanoUSD ev < md_ToEstimateNanoUSD ev.
Proof. do 2 eexists. split; [vm_compute; reflexivity|done]. Qed.
(** The event of a downgrade for the step's own cap names the run's budget. *)
Theorem downgrade_limit_misnamed :
  ∃ raw ev, check [mkModelFallback "small" None] (Some (JObj [("max_usd", JFloat (5 # 1000))])) (origin (Some 1000000000000) 0) =
              RunDowngraded raw ev ∧
    fits_budgets (origin (Some 1000000000000) 0) None (md_FromEstimateNanoUSD ev) = true ∧ md_Limit ev = BudgetLimitRun.
Proof. do 2 eexists. split; [vm_compute; reflexivity|done]. Qed.
(** An entry without a window takes the wildcard's. *)
Theorem unset_window_inherits : ContextWindow catalog "m:big" 10 = Some (8000, SourceWildcard).
Proof. vm_compute. reflexivity. Qed.
(** A request of 2^63 tokens is run: the token sum and the price wrap to negative
    numbers, below the step's cap and the run's budget. *)
Theorem oversized_request_runs :
  budgetCheck (Some catalog) PolicyEstimate (Some (λ _, inr (mkCostEstimate "m:big" 100 (2 ^ 63 - 1)))) None empty_db 1 "a"
    (Some (JObj [("max_tokens", JNum 1000)])) (JStr "big") (origin (Some 1000000) 0) 10 = RunStepAsIs.
Proof. vm_compute. reflexivity. Qed.
